(* ===== verification/_CoqProject ===== *)
-Q . S2P
Prelude.v
CacheKey.v
HandleTable.v
HandleTableRep.v
LRUCache.v
LRUList.v
LRUSpec.v
LRURefine.v
LRUHistory.v
LRUTheorems.v
Sharded.v
ShardedTheorems.v
CacheManager.v
Simd.v
Hexdigit.v
MemEqual.v
Reverse.v
Trim.v
FastMemcpy.v
Repeat.v
MarkPtr.v
MichaelList.v
ListRep.v
ListSeq.v
ListDeque.v
ListConc.v
ListTheorems.v
SplitHash.v
SplitHashRep.v
SplitHashMap.v
SplitHashTheorems.v
SplitHashFree.v
BinaryColumn.v
Concat.v
Utf8.v
Utf8Spec.v
StringCase.v
Substr.v
SubstrSpec.v
Int128.v
Decimal.v
Interpreters.v
SeqMutex.v
GermanString.v
TurnSequencer.v
MPMCQueue.v
MPMCSpec.v
MPMCInv.v
MPMCSteps.v
MPMCRefine.v
MPMCTheorems.v
MPMCLive.v
SwissGroup.v
SwissGroupOk.v
SwissTable.v
SwissProbe.v
SwissInv.v
SwissPlaced.v
SwissResize.v
SwissDrop.v
SwissMap.v
SwissErase.v
SwissIter.v
SwissHistory.v
SwissCapacity.v
SwissTheorems.v
SwissOps.v
SwissOpsSpec.v
SwissParallel.v
SwissParallelMap.v
SwissParallelSpec.v
SwissParallelTheorems.v
Slice.v
Analysis.v
