(* ===== verification/Prelude.v ===== *)
(** * Verification of the cpp_etudes library

    The repository is a collection of C++ modules. Its larger ones are a
    sharded LRU cache (src/src/modules/lru_cache), a lock-free list and a
    split-ordered hash table on top of it (src/src/modules/concurrent), the
    containers it takes from phmap and folly (src/include/phmap,
    src/include/folly), and string and memory kernels in several versions,
    scalar and SIMD (src/include). This development models them as executable definitions and
    proves what makes them correct, or where they are not.

    ** Conventions

    Code that can fail returns [res]: a value or the [err] that names the
    undefined behaviour, failed assertion or exception. Code with state is in
    the monad [M] with the weakest precondition [wp], which includes
    termination without failure, or passes its state explicitly. Machine
    integers are [Z] with the wrap-around written out ([u8] ... [u64], [i32],
    [i64]); signed overflow is an error ([checked]). Memory is an explicit heap
    of nodes, or a list of bytes with checked accesses ([rd], [wr], [loadu],
    [storeu]), so every theorem with an [Ok] result also says that nothing is
    read or written out of range. Loops have fuel; the theorems prove that the
    fuel is enough, it never occurs in a hypothesis.

    ** The LRU cache (lru_cache.hh, lru_cache.cc, cache_manager.hh)

    - CacheKey.v: [CacheKey], its comparison and its hash.
    - HandleTable.v, HandleTableRep.v: the chained hash table with its intrusive
      chains in the heap; it implements the class [TableLaws] of LRUList.v,
      against which the cache is proved.
    - LRUCache.v: [LRUHandle], the two circular lists, every method of
      [LRUCache]. LRUList.v: the lists in the heap. LRUSpec.v: the abstract
      cache, a map of entries with two eviction orders. LRURefine.v: each method
      refines it. LRUHistory.v: histories of client calls. LRUTheorems.v: the
      claims (refinement, deleters run once, usage within the capacity, held
      handles stay valid, insert/lookup/erase, eviction order, prune).
    - Sharded.v, ShardedTheorems.v: [ShardedLRUCache], 32 shards chosen by
      hash. CacheManager.v: the typed cache on top of it.

    ** The concurrent list and hash table (list.hh, list.cc, mark_ptr_type.hh,
       hash.hh, hash.cc)

    - MarkPtr.v: the 64-bit word with a mark, an address and a tag.
    - MichaelList.v: [MichaelList]. A call is a state machine that makes one
      access to shared memory per step; [run] runs one alone, [sys_step]
      interleaves any number of them. ListRep.v: the sorted list in the heap.
      ListSeq.v: sequential behaviour. ListDeque.v: the operations at the ends.
      ListConc.v: the invariant of all threads, its preservation by every
      step, and what a step does to the map the list represents.
      ListTheorems.v: finite map, safety, linearizability of executions and
      progress of concurrent insertions and searches; the use after free that
      [Remove] beside a search allows. A call starts at the head of the list or
      at a node that is allocated.
    - SplitHash.v: [Hash], its radix tree of slots and the list of entries.
      SplitHashRep.v: bit reversal, the parent of a slot, the tree.
      SplitHashMap.v: the invariant and each operation. SplitHashTheorems.v:
      [Put] and [Get] are a finite map. SplitHashFree.v: the destructor. The
      hash table is modelled for one thread. The shift by 32 or more in
      [PARENT_SLOT], which C++ leaves undefined, is a parameter ([WideShift]);
      the theorems suppose that it takes its count modulo 32. The destructor
      gives memory from [new] to [free]; whether that releases it is a
      parameter ([free_new]).

    ** The bounded queue (folly/MPMCQueue.h, folly/detail/TurnSequencer.h)

    - TurnSequencer.v: the futex word and the loops that wait for a turn and
      complete it. MPMCQueue.v: the queue of fixed capacity; calls are state
      machines with one access to shared memory per step, [sys_step]
      interleaves them. MPMCSpec.v: the bounded FIFO queue it promises.
      MPMCInv.v: the invariant. MPMCSteps.v: the steps preserve it and do not
      fail. MPMCRefine.v: every step is one of the specification.
      MPMCTheorems.v: linearizability, destructor, size. MPMCLive.v: no
      wake-up is lost; a [write] or [read] with its ticket never sleeps and,
      run alone, returns in a bounded number of steps. The bounds are [2^23]
      threads, which keeps the turns of a slot within 26 bits of each other,
      and [2^59] steps, which keeps tickets within 64 bits.

    ** The open-addressing hash table (phmap/phmap.h, phmap/phmap_bits.h)

    - SwissGroup.v: control bytes, bit scans, [BitMask], and the two
      implementations of a group of control bytes as instances of the class
      [Group]; [GroupOk] is what the table relies on, SwissGroupOk.v proves it
      of both. SwissTable.v: the operations of [raw_hash_set] and
      [raw_hash_map] on the arrays of control bytes and slots. SwissProbe.v: a
      probe sequence visits every group. SwissInv.v, SwissPlaced.v: the
      invariant, lookup and the placing of an element. SwissResize.v,
      SwissDrop.v: growing and dropping tombstones. SwissMap.v, SwissErase.v,
      SwissIter.v: every operation against a finite map, iteration, copying.
      SwissHistory.v: sequences of calls. SwissCapacity.v: bounds on the
      capacity. SwissTheorems.v: the claims. The hash function (with its
      mixing), the allocator and the values of fresh memory are parameters.
      The one hypothesis on the allocator is that a table of [2^59] slots is
      not allocated. Histories exclude [reserve(2^63)], whose arithmetic
      overflows, and a [rehash(0)] or [reserve(0)] that gives a table the
      smallest capacity for its elements if they overfill it; SwissTheorems.v
      shows that lookups can hang after that. The fuel of a probe loop is [capacity + 1] and that of the
      tombstone loop [2 * capacity].
    - SwissOps.v, SwissOpsSpec.v: the operations built from those on one table,
      [operator==], [swap], the assignments, erasure of a range and [merge],
      each against finite maps.
    - SwissParallel.v: [parallel_hash_set] and [parallel_hash_map], a list of
      [2^N] tables with the table of a key taken from its hash value, and the
      iterator over all of them; each call runs alone, as under its lock.
      SwissParallelMap.v: the list represents one finite map, of which each
      table holds the part whose keys it is home to. SwissParallelSpec.v: every
      call against that map. SwissParallelTheorems.v: the claims, for [N] up to
      12 and for [N = 4] where hash values are distributed unevenly, both of
      which the code asserts, and for fewer than [2^64] calls. A [rehash] or
      [reserve] that asks less than a slot of some table does what [rehash(0)]
      does to it, and is excluded where that overfills the table.

    ** String and memory kernels

    - Simd.v: the vector instructions the kernels use, on lists of bytes.
    - FastMemcpy.v (clickhouse/FastMemcpy.h, FastMemcpy_Avx.h): both copies are
      [memcpy]; they implement the class [CopyRoutine], against which Repeat.v
      (repeat.hh) proves the versions of string repetition. Accesses
      that need alignment are checked; whether the target allows misaligned
      scalar accesses through cast pointers, here and in MemEqual.v, is a
      parameter.
    - Hexdigit.v (hexdigit.hh), MemEqual.v (memequal.hh), Reverse.v
      (reverse.hh), Trim.v (trim.hh): the versions agree with each other and
      with a reference.
    - BinaryColumn.v (binary_column.hh): a column of strings and its
      serialization. Concat.v (concat.hh): keys of rows of several columns, for
      up to 4096 rows and a buffer below 4 GiB, which the code takes for
      granted, and columns of concatenated strings. Utf8.v, Utf8Spec.v, StringCase.v, Substr.v, SubstrSpec.v
      (string_functions.hh): character counts, ASCII check, case conversion,
      substrings. Strings and columns are within the ranges of the [int]s the
      code counts with; the theorems name the bounds.

    ** Arithmetic, interpreters, threads, short strings

    - Int128.v (decimal/decimal.hh): 128-bit multiplication
      with overflow and division; the routine that divides 128 by 64 bits is
      the class [Div128by64], with the instruction and Knuth's algorithm as
      instances. Decimal.v (decimal/decimal.hh): the operations of the benchmark's two
      decimal types against exact rational arithmetic.
    - Interpreters.v (interpreters.hh, interpreters.cc): the three dispatch
      loops against a stack machine: the threaded ones give the top of its
      stack, the switch the bottom, with the operands in the order the compiler
      evaluates them (the language leaves it undefined); compiled expressions. Programs have fewer than [2^31 - 1]
      instructions, which the loops count with an [int].
    - SeqMutex.v (sequential_mutex.h): the mutex that replays a given order of
      threads, with its condition variable, as a transition system: order and
      progress.
    - GermanString.v (german_string.h): 16-byte strings in a byte memory, and
      the allocator of their tails; [malloc] is a parameter.
    - Slice.v (lru_cache/slice.hh, slice.cc): views of a memory of blocks and
      their order, and owned slices: no block is freed twice or leaked.
    - Analysis.v (analysis/analysis.h): expressions, statements and
      control-flow graphs; what the code takes for begin and end blocks.

    ** What is not modelled

    Other third-party code in the tree: abseil, phmap's B-tree, node
    handles and serialization, interleavings of calls on its parallel
    containers, folly except the queue, of which the deprecated dynamic version
    is left out, and generated scanners;
    benchmarks, unit tests and Perl scripts; the test data generators, which
    are random; code whose content is template metaprogramming or calls into
    LLVM. Hyper-log-log computes in floating point. Of the
    list, concurrent [Remove] is modelled and shown unsafe; safety is proved
    for the other operations. Memory orders weaker than sequential consistency
    are not distinguished. *)

From stdpp Require Export prelude list gmap.
From Stdlib Require Export ZArith Lia.

#[global] Open Scope Z_scope.

(** ** Failures of a C++ execution

    Every operation that can dereference a pointer, index an array, fail an
    assertion or run a loop returns a [res]; [Err] names what went wrong. *)

Inductive err :=
| ENull          (* dereference of nullptr *)
| EDangling      (* access to memory that is not allocated (any more) *)
| EBounds        (* array access out of range *)
| EUninit        (* read of a cell that was never written *)
| ECheck         (* DCHECK / assert failed *)
| EFatal         (* LOG(FATAL) *)
| EDivZero       (* integer division by zero *)
| EThrow         (* a C++ exception *)
| EOverflow      (* signed integer overflow *)
| EAlign         (* misaligned vector access *)
| EUndef         (* other undefined behaviour, such as clz of 0 *)
| EFuel.         (* the loop did not finish within the fuel *)

#[global] Instance err_eq_dec : EqDecision err.
Proof. solve_decision. Defined.

Inductive res (A : Type) :=
| Ok (a : A)
| Err (e : err).
Arguments Ok {A} a.
Arguments Err {A} e.

#[global] Instance res_eq_dec {A} `{EqDecision A} : EqDecision (res A).
Proof. solve_decision. Defined.

#[global] Instance res_ret : MRet res := fun A a => Ok a.
#[global] Instance res_bind : MBind res := fun A B k m =>
  match m with Ok a => k a | Err e => Err e end.

Definition of_option {A} (e : err) (o : option A) : res A :=
  match o with Some a => Ok a | None => Err e end.

(** ** Stateful code: a state and error monad *)

Definition M (S A : Type) := S -> res (A * S).

#[global] Instance M_ret S : MRet (M S) := fun A a s => Ok (a, s).
#[global] Instance M_bind S : MBind (M S) := fun A B k m s =>
  match m s with
  | Ok (a, s') => k a s'
  | Err e => Err e
  end.

Definition get {S} : M S S := fun s => Ok (s, s).
Definition put {S} (s : S) : M S unit := fun _ => Ok (tt, s).
Definition modify {S} (f : S -> S) : M S unit := fun s => Ok (tt, f s).
Definition gets {S A} (f : S -> A) : M S A := fun s => Ok (f s, s).
Definition throw {S A} (e : err) : M S A := fun _ => Err e.
Definition lift_res {S A} (r : res A) : M S A := fun s =>
  match r with Ok a => Ok (a, s) | Err e => Err e end.
(** [DCHECK(b)] and [assert(b)] *)
Definition check {S} (b : bool) : M S unit := if b then mret tt else throw ECheck.

(** ** Total-correctness weakest preconditions

    [wp m Q s]: running [m] in [s] does not fail and ends in a state and
    result that satisfy [Q]. *)

Definition wp {S A} (m : M S A) (Q : A -> S -> Prop) (s : S) : Prop :=
  match m s with Ok (a, s') => Q a s' | Err _ => False end.

Section wp.
Context {S : Type}.
Implicit Types s : S.

Lemma wp_ret {A} (a : A) Q s : Q a s -> wp (mret a) Q s.
Proof. done. Qed.

Lemma wp_bind {A B} (m : M S A) (k : A -> M S B) Q s :
  wp m (fun a s' => wp (k a) Q s') s -> wp (m ≫= k) Q s.
Proof. unfold wp, mbind, M_bind. by destruct (m s) as [[a s']|]. Qed.

Lemma wp_mono {A} (m : M S A) (Q Q' : A -> S -> Prop) s :
  wp m Q s -> (forall a s', Q a s' -> Q' a s') -> wp m Q' s.
Proof. unfold wp. destruct (m s) as [[a s']|]; eauto. Qed.

Lemma wp_get (Q : S -> S -> Prop) s : Q s s -> wp get Q s.
Proof. done. Qed.
Lemma wp_gets {A} (f : S -> A) Q s : Q (f s) s -> wp (gets f) Q s.
Proof. done. Qed.
Lemma wp_put s0 (Q : unit -> S -> Prop) s : Q tt s0 -> wp (put s0) Q s.
Proof. done. Qed.
Lemma wp_modify f (Q : unit -> S -> Prop) s : Q tt (f s) -> wp (modify f) Q s.
Proof. done. Qed.
Lemma wp_check b (Q : unit -> S -> Prop) s : b = true -> Q tt s -> wp (check b) Q s.
Proof. by intros ->. Qed.
Lemma wp_lift {A} (r : res A) a (Q : A -> S -> Prop) s :
  r = Ok a -> Q a s -> wp (lift_res r) Q s.
Proof. by intros ->. Qed.

Lemma wp_elim {A} (m : M S A) Q s :
  wp m Q s -> exists a s', m s = Ok (a, s') /\ Q a s'.
Proof. unfold wp. destruct (m s) as [[a s']|]; naive_solver. Qed.

Lemma wp_intro {A} (m : M S A) Q s a s' : m s = Ok (a, s') -> Q a s' -> wp m Q s.
Proof. unfold wp. by intros ->. Qed.

(** the result of a run is unique *)
Lemma wp_run {A} (m : M S A) Q s a s' : wp m Q s -> m s = Ok (a, s') -> Q a s'.
Proof. unfold wp. by intros H E; rewrite E in H. Qed.
End wp.

(** one step of the wp calculus on the head of a computation *)
Ltac wp_step :=
  match goal with
  | |- wp (mbind _ _) _ _ => apply wp_bind
  | |- wp (mret _) _ _ => apply wp_ret
  | |- wp get _ _ => apply wp_get
  | |- wp (gets _) _ _ => apply wp_gets
  | |- wp (put _) _ _ => apply wp_put
  | |- wp (modify _) _ _ => apply wp_modify
  end.
Ltac wp_steps := repeat (wp_step; cbn beta iota).

(** ** Machine integers

    A w-bit unsigned integer is a [Z] in [0, 2^w); arithmetic wraps. A signed
    one is in [-2^(w-1), 2^(w-1)); [wraps] is the two's-complement conversion. *)

Definition wrapu (w z : Z) : Z := z mod 2 ^ w.
Definition wraps (w z : Z) : Z := (z + 2 ^ (w - 1)) mod 2 ^ w - 2 ^ (w - 1).
Definition inu (w z : Z) : Prop := 0 <= z < 2 ^ w.
Definition ins (w z : Z) : Prop := - 2 ^ (w - 1) <= z < 2 ^ (w - 1).

Abbreviation u8 := (wrapu 8).
Abbreviation u16 := (wrapu 16).
Abbreviation u32 := (wrapu 32).
Abbreviation u64 := (wrapu 64).
Abbreviation i32 := (wraps 32).
Abbreviation i64 := (wraps 64).

Create HintDb cpp.

Section machine.
Context (w : Z) (Hw : 0 < w).

Lemma pow2_pos : 0 < 2 ^ w.
Proof. apply Z.pow_pos_nonneg; lia. Qed.

Lemma wrapu_range z : inu w (wrapu w z).
Proof. apply Z.mod_pos_bound, pow2_pos. Qed.

Lemma wrapu_id z : inu w z -> wrapu w z = z.
Proof. apply Z.mod_small. Qed.

Lemma wrapu_wrapu z : wrapu w (wrapu w z) = wrapu w z.
Proof. apply wrapu_id, wrapu_range. Qed.

Lemma wrapu_add_l a b : wrapu w (wrapu w a + b) = wrapu w (a + b).
Proof. apply Zplus_mod_idemp_l. Qed.

Lemma wrapu_add_r a b : wrapu w (a + wrapu w b) = wrapu w (a + b).
Proof. apply Zplus_mod_idemp_r. Qed.

Lemma wrapu_sub_l a b : wrapu w (wrapu w a - b) = wrapu w (a - b).
Proof. apply Zminus_mod_idemp_l. Qed.

Lemma wraps_range z : ins w (wraps w z).
Proof.
  unfold ins, wraps.
  assert (2 ^ w = 2 * 2 ^ (w - 1)) as E
    by (rewrite <-Z.pow_succ_r by lia; f_equal; lia).
  pose proof (Z.mod_pos_bound (z + 2 ^ (w - 1)) (2 ^ w) pow2_pos). lia.
Qed.

Lemma wraps_id z : ins w z -> wraps w z = z.
Proof.
  unfold ins, wraps. intros H.
  assert (2 ^ w = 2 * 2 ^ (w - 1)) as E
    by (rewrite <-Z.pow_succ_r by lia; f_equal; lia).
  rewrite Z.mod_small; lia.
Qed.
End machine.

Lemma inu_iff w z : 0 <= w -> inu w z <-> 0 <= z /\ forall i, w <= i -> Z.testbit z i = false.
Proof.
  intros Hw. unfold inu. split.
  - intros [H0 H1]. split; [done|]. intros i Hi.
    rewrite <-(Z.mod_small z (2 ^ w)) by lia. by apply Z.mod_pow2_bits_high.
  - intros [H0 Hb]. split; [done|].
    assert (z = z mod 2 ^ w) as ->.
    { apply Z.bits_inj'. intros i Hi. destruct (Z.lt_ge_cases i w).
      - by rewrite Z.mod_pow2_bits_low.
      - rewrite Z.mod_pow2_bits_high by lia. by apply Hb. }
    apply Z.mod_pos_bound, Z.pow_pos_nonneg; lia.
Qed.

Lemma inu_lxor w a b : 0 <= w -> inu w a -> inu w b -> inu w (Z.lxor a b).
Proof.
  intros Hw. rewrite !inu_iff by done. intros [Ha Ha'] [Hb Hb'].
  split; [by apply Z.lxor_nonneg|].
  intros i Hi. by rewrite Z.lxor_spec, Ha', Hb'.
Qed.

Lemma inu_lor w a b : 0 <= w -> inu w a -> inu w b -> inu w (Z.lor a b).
Proof.
  intros Hw. rewrite !inu_iff by done. intros [Ha Ha'] [Hb Hb'].
  split; [by apply Z.lor_nonneg|].
  intros i Hi. by rewrite Z.lor_spec, Ha', Hb'.
Qed.

Lemma inu_land_l w a b : 0 <= w -> inu w a -> 0 <= b -> inu w (Z.land a b).
Proof.
  intros Hw. rewrite !inu_iff by done. intros [Ha Ha'] Hb.
  split; [apply Z.land_nonneg; auto|].
  intros i Hi. by rewrite Z.land_spec, Ha'.
Qed.

Lemma inu_shiftr w a n : 0 <= w -> 0 <= n -> inu w a -> inu w (Z.shiftr a n).
Proof.
  intros Hw Hn. rewrite !inu_iff by done. intros [Ha Ha'].
  split; [by apply Z.shiftr_nonneg|].
  intros i Hi. rewrite Z.shiftr_spec by lia. apply Ha'. lia.
Qed.

Lemma land_pow2_mod a n : 0 <= n -> Z.land a (2 ^ n - 1) = a mod 2 ^ n.
Proof. intros Hn. rewrite <-Z.land_ones by done. by rewrite Z.ones_equiv, Z.sub_1_r. Qed.

(** [s & ~(2^n - 1)]: rounding down to a multiple of the vector size *)
Lemma round_down s n : 0 <= n -> Z.land s (Z.lnot (2 ^ n - 1)) = s / 2 ^ n * 2 ^ n.
Proof.
  intros Hn. rewrite <-Z.ldiff_land. replace (2 ^ n - 1) with (Z.ones n) by (rewrite Z.ones_equiv; lia).
  by rewrite Z.ldiff_ones_r, Z.shiftl_mul_pow2, Z.shiftr_div_pow2 by lia.
Qed.

Lemma lor_disjoint a b s : 0 <= s -> 0 <= b < 2 ^ s -> Z.lor (a * 2 ^ s) b = a * 2 ^ s + b.
Proof.
  intros Hs Hb. assert (Z.land (a * 2 ^ s) b = 0) as E.
  { apply Z.bits_inj'. intros i Hi. rewrite Z.land_spec, Z.bits_0, Z.mul_pow2_bits by done.
    destruct (Z.lt_ge_cases i s); [by rewrite Z.testbit_neg_r by lia|].
    rewrite <-(Z.mod_small b (2 ^ s)), Z.mod_pow2_bits_high by lia. apply andb_false_r. }
  by rewrite <-Z.lxor_lor, <-Z.add_nocarry_lxor.
Qed.

#[export] Hint Resolve wrapu_range inu_lxor inu_lor inu_shiftr : cpp.

(** ** Bytes *)

Definition bytes_ok (l : list Z) : Prop := Forall (inu 8) l.

(** a read of one array element; out of range is a failure *)
Definition rd {A} (s : list A) (i : Z) : res A :=
  if 0 <=? i then of_option EBounds (s !! Z.to_nat i) else Err EBounds.

(** a write of one array element *)
Definition wr {A} (s : list A) (i : Z) (x : A) : res (list A) :=
  if (0 <=? i) && (i <? Z.of_nat (length s)) then Ok (<[Z.to_nat i := x]> s) else Err EBounds.

(** the result of signed arithmetic on [w]-bit integers *)
Definition checked (w z : Z) : res Z :=
  if bool_decide (ins w z) then Ok z else Err EOverflow.

Lemma rd_Some {A} (s : list A) i x : 0 <= i -> s !! Z.to_nat i = Some x -> rd s i = Ok x.
Proof. intros Hi E. unfold rd. destruct (Z.leb_spec 0 i); [|lia]. by rewrite E. Qed.

Lemma rd_nat {A} (s : list A) (i : nat) x : s !! i = Some x -> rd s (Z.of_nat i) = Ok x.
Proof. intros E. apply rd_Some; [lia|]. by rewrite Nat2Z.id. Qed.

Lemma rd_bounds {A} (s : list A) i :
  Z.of_nat (length s) <= i -> rd s i = Err EBounds.
Proof.
  intros Hi. unfold rd. destruct (Z.leb_spec 0 i); [|done].
  rewrite lookup_ge_None_2; [done|lia].
Qed.

Lemma wr_Ok {A} (s : list A) i x : 0 <= i < Z.of_nat (length s) ->
  wr s i x = Ok (<[Z.to_nat i := x]> s).
Proof.
  intros Hi. unfold wr. destruct (Z.leb_spec 0 i); [|lia]. by destruct (Z.ltb_spec i (Z.of_nat (length s))); [|lia].
Qed.

Lemma checked_Ok w z : ins w z -> checked w z = Ok z.
Proof. intros H. unfold checked. by rewrite bool_decide_true. Qed.

(** [memcmp(p, q, n)]: the first difference among the first [n] bytes. The C
    standard fixes the sign of the result only; the callers use the sign only.
    Callers pass an [n] within both arrays. *)
Fixpoint memcmp (n : nat) (p q : list Z) : Z :=
  match n, p, q with
  | S n, x :: p, y :: q =>
      if x <? y then -1 else if y <? x then 1 else memcmp n p q
  | _, _, _ => 0
  end.

Lemma memcmp_eq n p q :
  (n <= length p)%nat -> (n <= length q)%nat ->
  memcmp n p q = 0 <-> take n p = take n q.
Proof.
  revert p q. induction n as [|n IH]; intros [|x p] [|y q] Hp Hq; simpl in *; try done; try lia.
  destruct (Z.ltb_spec x y), (Z.ltb_spec y x); try (split; [lia|intros [=]; lia]).
  assert (x = y) as -> by lia. rewrite IH by lia. split; [by intros ->|by intros [=]].
Qed.

Lemma memcmp_antisym n p q : memcmp n q p = - memcmp n p q.
Proof.
  revert p q. induction n as [|n IH]; intros [|x p] [|y q]; simpl; try done.
  destruct (Z.ltb_spec x y), (Z.ltb_spec y x); lia || apply IH.
Qed.

Lemma memcmp_range n p q : -1 <= memcmp n p q <= 1.
Proof.
  revert p q. induction n as [|n IH]; intros [|x p] [|y q]; simpl; try lia.
  destruct (x <? y), (y <? x); try lia. apply IH.
Qed.

(** lexicographic comparison of byte strings, the reference for all the
    [compare] routines of the library *)
Fixpoint lex (p q : list Z) : Z :=
  match p, q with
  | [], [] => 0
  | [], _ :: _ => -1
  | _ :: _, [] => 1
  | x :: p, y :: q => if x <? y then -1 else if y <? x then 1 else lex p q
  end.

(** the scheme all of them use: compare the common length, then the sizes *)
Lemma lex_memcmp p q :
  lex p q =
  let r := memcmp (Nat.min (length p) (length q)) p q in
  if r =? 0 then (if (length p <? length q)%nat then -1
                  else if (length q <? length p)%nat then 1 else 0) else r.
Proof.
  revert q. induction p as [|x p IH]; intros [|y q]; simpl; try done.
  rewrite IH. simpl. by destruct (x <? y), (y <? x).
Qed.

Lemma lex_refl p : lex p p = 0.
Proof. induction p as [|x p IH]; simpl; [done|]. by rewrite Z.ltb_irrefl. Qed.

Lemma lex_eq p q : lex p q = 0 <-> p = q.
Proof.
  split; [|intros ->; apply lex_refl].
  revert q. induction p as [|x p IH]; intros [|y q]; simpl; try done.
  destruct (Z.ltb_spec x y), (Z.ltb_spec y x); try done.
  intros ?%IH. f_equal; [lia|done].
Qed.

Lemma lex_antisym p q : lex q p = - lex p q.
Proof.
  revert q. induction p as [|x p IH]; intros [|y q]; simpl; try done.
  destruct (Z.ltb_spec x y), (Z.ltb_spec y x); lia || apply IH.
Qed.

Lemma lex_trans p q r : lex p q <= 0 -> lex q r <= 0 -> lex p r <= 0.
Proof.
  revert q r. induction p as [|x p IH]; intros [|y q] [|z r]; simpl; try lia.
  destruct (Z.ltb_spec x y), (Z.ltb_spec y x), (Z.ltb_spec y z), (Z.ltb_spec z y),
    (Z.ltb_spec x z), (Z.ltb_spec z x); try lia. apply IH.
Qed.

(** ** Lists *)

Lemma omap_cons_Some {A B} (f : A -> option B) x y (l : list A) :
  f x = Some y -> omap f (x :: l) = y :: omap f l.
Proof.
  intros E. change (omap f (x :: l)) with
    (match f x with Some y => y :: omap f l | None => omap f l end). by rewrite E.
Qed.

Lemma omap_ext_elem {A B} (f g : A -> option B) (l : list A) :
  (forall x, x ∈ l -> f x = g x) -> omap f l = omap g l.
Proof.
  induction l as [|x l IH]; intros E; [done|]. simpl. rewrite (E x) by (by left).
  assert (omap f l = omap g l) as IH' by (apply IH; intros y Hy; apply E; by right).
  change (match g x with Some y => y :: omap f l | None => omap f l end =
          match g x with Some y => y :: omap g l | None => omap g l end).
  by rewrite IH'.
Qed.

Lemma list_split {A} (a b : nat) (m : list A) : length m = (a + b)%nat ->
  exists x y, m = x ++ y /\ length x = a /\ length y = b.
Proof.
  intros L. exists (take a m), (drop a m). rewrite take_drop, length_take, length_drop.
  split_and!; [done|lia|lia].
Qed.

(** lists of a known length as their elements *)
Ltac explode_lists :=
  repeat match goal with
  | H : length ?t = S _ |- _ =>
      destruct t as [|? t]; [discriminate H|]; apply (f_equal pred) in H; cbn [length pred] in H
  | H : length ?t = 0%nat |- _ => apply nil_length_inv in H; subst t
  end.

(** ** Exhaustive checks over a byte *)

Lemma byte_cases (P : Z -> bool) :
  forallb P (seqZ 0 256) = true -> forall c, inu 8 c -> P c = true.
Proof.
  intros H c Hc. rewrite forallb_forall in H. apply H.
  apply list_elem_of_In, elem_of_seqZ. unfold inu in Hc. lia.
Qed.
