(* ===== verification/CacheKey.v ===== *)
(** * Cache keys: [CacheKey] of src/src/modules/lru_cache/lru_cache.hh

    A [CacheKey] is a pointer into external storage and a size; the model is
    the byte string it refers to. The hash is [CacheKey::hash] of lru_cache.cc,
    computed on 32-bit words that wrap. *)

From S2P Require Import Prelude.

Definition CacheKey := list Z.

#[global] Instance CacheKey_eq_dec : EqDecision CacheKey := _.
#[global] Instance CacheKey_countable : Countable CacheKey := _.

Definition CacheKey_size (k : CacheKey) : Z := Z.of_nat (length k).

Definition CacheKey_empty (k : CacheKey) : bool := CacheKey_size k =? 0.

(** [operator[](n)], with its assert *)
Definition CacheKey_at (k : CacheKey) (n : Z) : res Z :=
  if bool_decide (0 <= n < CacheKey_size k)
  then of_option EBounds (k !! Z.to_nat n) else Err ECheck.

Definition CacheKey_clear (k : CacheKey) : CacheKey := [].

Definition CacheKey_remove_prefix (k : CacheKey) (n : nat) : res CacheKey :=
  if (n <=? length k)%nat then Ok (drop n k) else Err ECheck.

(** [operator==]: same size and [memcmp] over it finds no difference *)
Definition CacheKey_eqb (k other : CacheKey) : bool :=
  (CacheKey_size k =? CacheKey_size other) && (memcmp (length k) k other =? 0).

Definition CacheKey_neb (k other : CacheKey) : bool := negb (CacheKey_eqb k other).

Definition CacheKey_compare (k b : CacheKey) : Z :=
  let min_len := if (length k <? length b)%nat then length k else length b in
  let r := memcmp min_len k b in
  if r =? 0 then
    if (length k <? length b)%nat then -1
    else if (length b <? length k)%nat then 1 else r
  else r.

Definition CacheKey_starts_with (k x : CacheKey) : bool :=
  (length x <=? length k)%nat && (memcmp (length x) k x =? 0).

(** the 4-byte load of [_decode_fixed32] on a little-endian machine *)
Definition CacheKey_decode_fixed32 (b0 b1 b2 b3 : Z) : Z :=
  b0 + Z.shiftl b1 8 + Z.shiftl b2 16 + Z.shiftl b3 24.

Definition hash_m : Z := 0xc6a4a793.
Definition hash_r : Z := 24.

(** the tail switch: case 3 falls through to case 2 and case 1 *)
Definition CacheKey_hash_tail (data : list Z) (h : Z) : Z :=
  let last (d0 h : Z) :=
    let h := u32 (h + d0) in
    let h := u32 (h * hash_m) in
    Z.lxor h (Z.shiftr h hash_r) in
  match data with
  | [d0; d1; d2] => last d0 (u32 (u32 (h + Z.shiftl d2 16) + Z.shiftl d1 8))
  | [d0; d1] => last d0 (u32 (h + Z.shiftl d1 8))
  | [d0] => last d0 h
  | _ => h
  end.

(** the word loop: four bytes at a time, then the switch on what is left *)
Fixpoint CacheKey_hash_loop (data : list Z) (h : Z) : Z :=
  match data with
  | b0 :: b1 :: b2 :: b3 :: data' =>
      let w := CacheKey_decode_fixed32 b0 b1 b2 b3 in
      let h := u32 (h + w) in
      let h := u32 (h * hash_m) in
      let h := Z.lxor h (Z.shiftr h 16) in
      CacheKey_hash_loop data' h
  | _ => CacheKey_hash_tail data h
  end.

(** [hash(data, n, seed)]: [seed ^ (n * m)] is computed in 64 bits and
    truncated to the [uint32_t] accumulator *)
Definition CacheKey_hash (data : CacheKey) (seed : Z) : Z :=
  let h := u32 (Z.lxor seed (u64 (CacheKey_size data * hash_m))) in
  CacheKey_hash_loop data h.

(** ** Lemmas *)

Lemma CacheKey_eqb_spec k other : CacheKey_eqb k other = true <-> k = other.
Proof.
  unfold CacheKey_eqb, CacheKey_size. rewrite andb_true_iff, !Z.eqb_eq. split.
  - intros [Hl Hc]. apply memcmp_eq in Hc; [|lia..].
    rewrite !take_ge in Hc by lia. done.
  - intros ->. split; [done|]. by apply memcmp_eq.
Qed.

Lemma CacheKey_neb_spec k other : CacheKey_neb k other = bool_decide (k <> other).
Proof.
  unfold CacheKey_neb. destruct (CacheKey_eqb k other) eqn:E; simpl.
  - apply CacheKey_eqb_spec in E as ->. symmetry. apply bool_decide_eq_false. intros Hne. by apply Hne.
  - symmetry. apply bool_decide_eq_true. intros Heq%CacheKey_eqb_spec. congruence.
Qed.

Lemma CacheKey_compare_lex k b : CacheKey_compare k b = lex k b.
Proof.
  rewrite lex_memcmp. unfold CacheKey_compare. simpl.
  destruct (Nat.ltb_spec (length k) (length b)).
  - rewrite Nat.min_l by lia. done.
  - rewrite Nat.min_r by lia.
    destruct (Z.eqb_spec (memcmp (length b) k b) 0) as [->|]; done.
Qed.

Lemma CacheKey_hash_tail_range data h : inu 32 h -> inu 32 (CacheKey_hash_tail data h).
Proof.
  intros Hh. unfold CacheKey_hash_tail.
  destruct data as [|d0 [|d1 [|d2 [|]]]]; try done;
    apply inu_lxor; try apply inu_shiftr; try apply wrapu_range; unfold hash_r; lia.
Qed.

Lemma CacheKey_hash_loop_range n data h :
  (length data <= n)%nat -> inu 32 h -> inu 32 (CacheKey_hash_loop data h).
Proof.
  revert data h. induction n as [|n IH]; intros data h Hn Hh.
  { destruct data; [|simpl in Hn; lia]. done. }
  destruct data as [|b0 [|b1 [|b2 [|b3 data]]]];
    try by apply CacheKey_hash_tail_range.
  simpl in *. apply IH; [lia|].
  apply inu_lxor; try apply inu_shiftr; try apply wrapu_range; lia.
Qed.

(** the hash of every key, of any length, is a 32-bit value *)
Lemma CacheKey_hash_range data seed : inu 32 (CacheKey_hash data seed).
Proof. eapply CacheKey_hash_loop_range; [done|]. apply wrapu_range. lia. Qed.
