(* ===== verification/HandleTable.v ===== *)
(** * The chained hash table: [LRUHandle] and [HandleTable]
      (src/src/modules/lru_cache/lru_cache.hh and lru_cache.cc)

    Handles live in a heap from addresses to records; a bucket is the address
    of its first handle and [next_hash] links the chain. [_find_pointer]
    returns a pointer to a pointer: a [slot], the bucket cell or the
    [next_hash] field of a handle. The theorems show that the pointer code
    implements a finite map from (key, hash) to handles; [TableLaws] is that
    contract, which the cache is proved against. *)

From S2P Require Import Prelude CacheKey.

Definition addr := positive.
Bind Scope positive_scope with addr.

Inductive CachePriority := NORMAL | DURABLE.

#[global] Instance CachePriority_eq_dec : EqDecision CachePriority.
Proof. solve_decision. Defined.

(** struct LRUHandle; [value] and [deleter] are the client's pointers *)
Record LRUHandle := mkHandle {
  h_value : Z;
  h_deleter : Z;
  h_next_hash : option addr;
  h_next : option addr;
  h_prev : option addr;
  h_charge : Z;
  h_key_length : Z;
  h_in_cache : bool;
  h_refs : Z;
  h_hash : Z;
  h_priority : CachePriority;
  h_key_data : list Z
}.

Definition set_next_hash (p : option addr) (h : LRUHandle) : LRUHandle :=
  mkHandle (h_value h) (h_deleter h) p (h_next h) (h_prev h) (h_charge h)
    (h_key_length h) (h_in_cache h) (h_refs h) (h_hash h) (h_priority h) (h_key_data h).
Definition set_next (p : option addr) (h : LRUHandle) : LRUHandle :=
  mkHandle (h_value h) (h_deleter h) (h_next_hash h) p (h_prev h) (h_charge h)
    (h_key_length h) (h_in_cache h) (h_refs h) (h_hash h) (h_priority h) (h_key_data h).
Definition set_prev (p : option addr) (h : LRUHandle) : LRUHandle :=
  mkHandle (h_value h) (h_deleter h) (h_next_hash h) (h_next h) p (h_charge h)
    (h_key_length h) (h_in_cache h) (h_refs h) (h_hash h) (h_priority h) (h_key_data h).
Definition set_in_cache (b : bool) (h : LRUHandle) : LRUHandle :=
  mkHandle (h_value h) (h_deleter h) (h_next_hash h) (h_next h) (h_prev h) (h_charge h)
    (h_key_length h) b (h_refs h) (h_hash h) (h_priority h) (h_key_data h).
Definition set_refs (r : Z) (h : LRUHandle) : LRUHandle :=
  mkHandle (h_value h) (h_deleter h) (h_next_hash h) (h_next h) (h_prev h) (h_charge h)
    (h_key_length h) (h_in_cache h) r (h_hash h) (h_priority h) (h_key_data h).

(** a call of a deleter: which one, on which key and value *)
Record deletion := mkDeletion { d_deleter : Z; d_key : CacheKey; d_value : Z }.

(** the memory the cache works on: its handles, the [CacheKey] objects a
    temporary handle may point to, and the deleter calls made so far *)
Record mem := mkMem {
  handles : gmap addr LRUHandle;
  key_objs : gmap Z CacheKey;
  deletions : list deletion
}.

Definition set_handles (H : gmap addr LRUHandle) (m : mem) : mem :=
  mkMem H (key_objs m) (deletions m).

(** [p->field] for reading and for writing *)
Definition load (p : option addr) : M mem LRUHandle := fun m =>
  match p with
  | None => Err ENull
  | Some a => match handles m !! a with
              | Some h => Ok (h, m)
              | None => Err EDangling
              end
  end.

Definition store (p : option addr) (f : LRUHandle -> LRUHandle) : M mem unit := fun m =>
  match p with
  | None => Err ENull
  | Some a => match handles m !! a with
              | Some h => Ok (tt, set_handles (<[a := f h]> (handles m)) m)
              | None => Err EDangling
              end
  end.

(** [LRUHandle::key]: a handle whose [next] is itself keeps a pointer to its
    key in [value] *)
Definition LRUHandle_key (a : addr) : M mem CacheKey :=
  h ← load (Some a);
  if bool_decide (h_next h = Some a)
  then m ← get; lift_res (of_option EDangling (key_objs m !! h_value h))
  else mret (take (Z.to_nat (h_key_length h)) (h_key_data h)).

(** [LRUHandle::free]: the deleter runs on the key and the value, then the
    handle's memory is released *)
Definition LRUHandle_free (a : addr) : M mem unit :=
  h ← load (Some a);
  k ← LRUHandle_key a;
  modify (fun m => mkMem (delete a (handles m)) (key_objs m)
                     (deletions m ++ [mkDeletion (h_deleter h) k (h_value h)])).

(** ** class HandleTable *)

Record HandleTable := mkTable {
  t_length : Z;
  t_elems : Z;
  t_list : list (option addr)
}.

Definition tstate := (mem * HandleTable)%type.

Definition on_mem {T A} (c : M mem A) : M (mem * T) A := fun s =>
  match c s.1 with
  | Ok (a, m) => Ok (a, (m, s.2))
  | Err e => Err e
  end.

(** [LRUHandle**]: the address of a bucket cell or of a [next_hash] field *)
Inductive slot := SBucket (i : nat) | SNext (a : addr).

Definition read_slot (p : slot) : M tstate (option addr) :=
  match p with
  | SBucket i => s ← get; lift_res (of_option EBounds (t_list s.2 !! i))
  | SNext a => h ← on_mem (load (Some a)); mret (h_next_hash h)
  end.

Definition write_slot (p : slot) (q : option addr) : M tstate unit :=
  match p with
  | SBucket i => fun s =>
      if (i <? length (t_list s.2))%nat
      then Ok (tt, (s.1, mkTable (t_length s.2) (t_elems s.2) (<[i := q]> (t_list s.2))))
      else Err EBounds
  | SNext a => on_mem (store (Some a) (set_next_hash q))
  end.

(** the loop condition: the hashes differ, or (short circuit) the keys do *)
Definition differs (a : addr) (key : CacheKey) (hash : Z) : M mem bool :=
  h ← load (Some a);
  if negb (h_hash h =? hash) then mret true
  else k ← LRUHandle_key a; mret (CacheKey_neb key k).

Fixpoint find_loop (fuel : nat) (ptr : slot) (key : CacheKey) (hash : Z) : M tstate slot :=
  match fuel with
  | O => throw EFuel
  | S fuel =>
      p ← read_slot ptr;
      match p with
      | None => mret ptr
      | Some a =>
          d ← on_mem (differs a key hash);
          if (d : bool) then find_loop fuel (SNext a) key hash else mret ptr
      end
  end.

(** the chain is no longer than the number of handles *)
Definition HandleTable_find_pointer (key : CacheKey) (hash : Z) : M tstate slot :=
  s ← get;
  let ptr := SBucket (Z.to_nat (Z.land hash (u32 (t_length s.2 - 1)))) in
  find_loop (S (size (handles s.1))) ptr key hash.

Definition HandleTable_lookup (key : CacheKey) (hash : Z) : M tstate (option addr) :=
  ptr ← HandleTable_find_pointer key hash; read_slot ptr.

(** [while (new_length < _elems) new_length *= 2;] in 32 bits *)
Fixpoint grow_length (fuel : nat) (new_length elems : Z) : res Z :=
  match fuel with
  | O => Err EFuel
  | S fuel => if new_length <? elems then grow_length fuel (u32 (new_length * 2)) elems
              else Ok new_length
  end.

(** the inner loop of [_resize]: move one chain, head first, to the new list *)
Fixpoint move_chain (fuel : nat) (new_length : Z) (h : option addr)
    (new_list : list (option addr)) (count : Z) : M mem (list (option addr) * Z) :=
  match fuel with
  | O => throw EFuel
  | S fuel =>
      match h with
      | None => mret (new_list, count)
      | Some a =>
          hd ← load h;
          let nxt := h_next_hash hd in
          let i := Z.to_nat (Z.land (h_hash hd) (u32 (new_length - 1))) in
          q ← lift_res (of_option EBounds (new_list !! i));
          _ ← store h (set_next_hash q);
          move_chain fuel new_length nxt (<[i := h]> new_list) (u32 (count + 1))
      end
  end.

(** the outer loop over the old buckets *)
Fixpoint move_all (fuel : nat) (new_length : Z) (old : list (option addr))
    (new_list : list (option addr)) (count : Z) : M mem (list (option addr) * Z) :=
  match old with
  | [] => mret (new_list, count)
  | h :: old =>
      r ← move_chain fuel new_length h new_list count;
      move_all fuel new_length old r.1 r.2
  end.

(** the growth loop doubles from 4: 33 rounds are enough when it ends *)
Definition grow_fuel : nat := 33%nat.

Definition HandleTable_resize : M tstate bool :=
  s ← get;
  let t := s.2 in
  new_length ← lift_res (grow_length grow_fuel 4 (t_elems t));
  r ← on_mem (move_all (S (size (handles s.1))) new_length
                (take (Z.to_nat (t_length t)) (t_list t))
                (replicate (Z.to_nat new_length) None) 0);
  if negb (t_elems t =? r.2) then throw EFatal
  else
    s ← get;
    _ ← put (s.1, mkTable new_length (t_elems t) r.1);
    mret true.

(** [HandleTable()] *)
Definition HandleTable_new : M mem HandleTable := fun m =>
  match HandleTable_resize (m, mkTable 0 0 []) with
  | Ok (_, (m', t)) => Ok (t, m')
  | Err e => Err e
  end.

Definition HandleTable_insert (h : addr) : M tstate (option addr) :=
  key ← on_mem (LRUHandle_key h);
  hd ← on_mem (load (Some h));
  ptr ← HandleTable_find_pointer key (h_hash hd);
  old ← read_slot ptr;
  nh ← (match old with
        | None => mret None
        | Some _ => o ← on_mem (load old); mret (h_next_hash o)
        end);
  _ ← on_mem (store (Some h) (set_next_hash nh));
  _ ← write_slot ptr (Some h);
  match old with
  | None =>
      _ ← modify (fun s => (s.1, mkTable (t_length s.2) (u32 (t_elems s.2 + 1)) (t_list s.2)));
      s ← get;
      if t_length s.2 <? t_elems s.2 then
        ok ← HandleTable_resize;
        if (ok : bool) then mret old else mret None
      else mret old
  | Some _ => mret old
  end.

Definition HandleTable_remove (key : CacheKey) (hash : Z) : M tstate (option addr) :=
  ptr ← HandleTable_find_pointer key hash;
  result ← read_slot ptr;
  match result with
  | None => mret result
  | Some _ =>
      r ← on_mem (load result);
      _ ← write_slot ptr (h_next_hash r);
      _ ← modify (fun s => (s.1, mkTable (t_length s.2) (u32 (t_elems s.2 - 1)) (t_list s.2)));
      mret result
  end.

(** ** Specifications of the memory accesses *)

Definition hkey (h : LRUHandle) : CacheKey := take (Z.to_nat (h_key_length h)) (h_key_data h).

(** the (key, hash) pair a handle is filed under *)
Definition hkh (h : LRUHandle) : CacheKey * Z := (hkey h, h_hash h).

Lemma wp_load a h Q m : handles m !! a = Some h -> Q h m -> wp (load (Some a)) Q m.
Proof. intros E HQ. unfold wp, load. by rewrite E. Qed.

Lemma wp_store a h f (Q : unit -> mem -> Prop) m :
  handles m !! a = Some h -> Q tt (set_handles (<[a := f h]> (handles m)) m) ->
  wp (store (Some a) f) Q m.
Proof. intros E HQ. unfold wp, store. by rewrite E. Qed.

Lemma wp_on_mem {T A} (c : M mem A) (Q : A -> mem * T -> Prop) s :
  wp c (fun a m => Q a (m, s.2)) s.1 -> wp (on_mem c) Q s.
Proof. unfold wp, on_mem. by destruct (c s.1) as [[a m]|]. Qed.

Lemma wp_key a h Q m :
  handles m !! a = Some h -> h_next h <> Some a -> Q (hkey h) m -> wp (LRUHandle_key a) Q m.
Proof.
  intros E Hn HQ. unfold LRUHandle_key. apply wp_bind, (wp_load _ h); [done|].
  rewrite bool_decide_eq_false_2 by done. by apply wp_ret.
Qed.

Lemma wp_differs a h key hash (Q : bool -> mem -> Prop) m :
  handles m !! a = Some h -> h_next h <> Some a ->
  Q (bool_decide (hkh h <> (key, hash))) m -> wp (differs a key hash) Q m.
Proof.
  intros E Hn HQ. unfold differs. apply wp_bind, (wp_load _ h); [done|].
  destruct (Z.eqb_spec (h_hash h) hash) as [Hh|Hh]; simpl.
  - apply wp_bind, (wp_key _ h); [done..|]. apply wp_ret.
    rewrite CacheKey_neb_spec. erewrite bool_decide_ext; [exact HQ|].
    unfold hkh. split; [intros Hk; intros [=]; congruence|intros Hk ->; by rewrite Hh in Hk].
  - apply wp_ret. rewrite bool_decide_eq_true_2 in HQ; [done|].
    unfold hkh. congruence.
Qed.

(** ** Heaps that differ in [next_hash] fields only *)

Definition nh_eq (H H' : gmap addr LRUHandle) : Prop :=
  forall a, set_next_hash None <$> H !! a = set_next_hash None <$> H' !! a.

#[global] Instance nh_eq_equiv : Equivalence nh_eq.
Proof.
  split.
  - intros H a. done.
  - intros H H' HH a. symmetry. apply HH.
  - intros H1 H2 H3 H12 H23 a. by rewrite H12.
Qed.

Lemma nh_eq_lookup H H' a h :
  nh_eq H H' -> H !! a = Some h ->
  exists p, H' !! a = Some (set_next_hash p h).
Proof.
  intros HH E. specialize (HH a). rewrite E in HH. simpl in HH.
  destruct (H' !! a) as [h'|]; [|done]. simpl in HH.
  exists (h_next_hash h'). f_equal. destruct h, h'. simpl in *. by simplify_eq.
Qed.

Lemma nh_eq_store H a h p : H !! a = Some h -> nh_eq H (<[a := set_next_hash p h]> H).
Proof.
  intros E b. destruct (decide (a = b)) as [->|Hne].
  - by rewrite lookup_insert_eq, E.
  - by rewrite lookup_insert_ne.
Qed.

Lemma nh_eq_size H H' : nh_eq H H' -> size H = size H'.
Proof.
  intros HH. assert (set_next_hash None <$> H = set_next_hash None <$> H') as E.
  { apply map_eq. intros a. by rewrite !lookup_fmap. }
  rewrite <-(map_size_fmap (set_next_hash None) H), E. apply map_size_fmap.
Qed.

(** ** Chains *)

(** [p] points to the chain of handles [l] *)
Fixpoint chain (H : gmap addr LRUHandle) (p : option addr) (l : list addr) : Prop :=
  match l with
  | [] => p = None
  | a :: l => p = Some a /\ exists h, H !! a = Some h /\ chain H (h_next_hash h) l
  end.

Lemma chain_head H p l : chain H p l -> p = head l.
Proof. destruct l; simpl; [done|by intros [-> _]]. Qed.

Lemma chain_ext H H' p l :
  (forall a, a ∈ l -> H' !! a = H !! a) -> chain H p l -> chain H' p l.
Proof.
  revert p. induction l as [|a l IH]; intros p HE; simpl; [done|].
  intros (-> & h & Ha & Hc). split; [done|]. exists h.
  rewrite HE by set_solver. split; [done|]. apply IH; [set_solver|done].
Qed.

Lemma chain_is_Some H p l a : chain H p l -> a ∈ l -> is_Some (H !! a).
Proof.
  revert p. induction l as [|b l IH]; intros p Hc Ha; [set_solver|].
  destruct Hc as (-> & h & Hb & Hc). apply elem_of_cons in Ha as [->|Ha]; eauto.
Qed.

Lemma nodup_heap_length (H : gmap addr LRUHandle) (l : list addr) :
  NoDup l -> (forall a, a ∈ l -> is_Some (H !! a)) -> (length l <= size H)%nat.
Proof.
  intros Hnd Hin. rewrite <-(size_list_to_set (C := gset addr)) by done.
  rewrite <-size_dom. apply subseteq_size. intros a.
  rewrite elem_of_list_to_set, elem_of_dom. apply Hin.
Qed.

(** the slot that follows the handles [l1] of a chain *)
Definition slot_after (p : slot) (l1 : list addr) : slot :=
  match last l1 with None => p | Some a => SNext a end.

Lemma slot_after_cons p a l1 : slot_after p (a :: l1) = slot_after (SNext a) l1.
Proof. unfold slot_after. rewrite last_cons. by destruct (last l1). Qed.

Lemma read_slot_after s ptr p l1 l2 :
  read_slot ptr s = Ok (p, s) -> chain (handles s.1) p (l1 ++ l2) ->
  read_slot (slot_after ptr l1) s = Ok (head l2, s).
Proof.
  revert ptr p. induction l1 as [|a l1 IH]; intros ptr p Hr Hc; simpl in *.
  - unfold slot_after. simpl. by rewrite Hr, (chain_head _ _ _ Hc).
  - destruct Hc as (-> & h & Ha & Hc). rewrite slot_after_cons. eapply IH; [|done].
    unfold read_slot, mbind, M_bind, on_mem, load. rewrite Ha. by destruct s.
Qed.

(** what [_find_pointer] promises on a chain: it stops at the first handle
    filed under (key, hash), or at the end *)
Definition found (H : gmap addr LRUHandle) (kh : CacheKey * Z) (l1 l2 : list addr) : Prop :=
  (forall a, a ∈ l1 -> hkh <$> H !! a <> Some kh) /\
  (forall a, head l2 = Some a -> hkh <$> H !! a = Some kh).

Lemma wp_find_loop fuel ptr p l key hash s :
  read_slot ptr s = Ok (p, s) ->
  chain (handles s.1) p l ->
  (forall a h, a ∈ l -> handles s.1 !! a = Some h -> h_next h <> Some a) ->
  (length l < fuel)%nat ->
  wp (find_loop fuel ptr key hash)
    (fun ptr' s' => s' = s /\ exists l1 l2, l = l1 ++ l2 /\
       ptr' = slot_after ptr l1 /\ found (handles s.1) (key, hash) l1 l2) s.
Proof.
  revert ptr p l. induction fuel as [|fuel IH]; intros ptr p l Hr Hc Hk Hf; [lia|].
  simpl. apply wp_bind. eapply wp_intro; [exact Hr|]. cbn beta.
  destruct l as [|a l]; simpl in Hc.
  - subst p. apply wp_ret. split; [done|]. exists [], []. split_and!; [done..|].
    split; set_solver.
  - destruct Hc as (-> & h & Ha & Hc).
    apply wp_bind, wp_on_mem, (wp_differs _ h); [done|by eapply Hk; [left|]|].
    simpl. replace (s.1, s.2) with s by (by destruct s).
    case_bool_decide as Hd.
    + eapply wp_mono.
      { apply (IH _ (h_next_hash h) l).
        - unfold read_slot, mbind, M_bind, on_mem, load. rewrite Ha. by destruct s.
        - done.
        - intros b hb Hb. apply Hk. by right.
        - simpl in Hf. lia. }
      intros ptr' s' (-> & l1 & l2 & -> & -> & Hn & Hm). split; [done|].
      exists (a :: l1), l2. split_and!; [done|by rewrite slot_after_cons|].
      split; [|done]. intros b [->|Hb]%elem_of_cons; [|by apply Hn].
      rewrite Ha. simpl. congruence.
    + apply wp_ret. split; [done|]. exists [], (a :: l). split_and!; [done..|].
      split; [set_solver|]. intros b [= <-]. rewrite Ha. simpl.
      by rewrite Hd.
Qed.

(** writing the slot after [l1] replaces the rest of the chain *)
Lemma wp_write_slot i p q l1 l2 l' m t (Q : unit -> tstate -> Prop) :
  t_list t !! i = Some p ->
  chain (handles m) p (l1 ++ l2) -> NoDup (l1 ++ l2) ->
  chain (handles m) q l' -> (forall a, a ∈ l1 -> a ∉ l') ->
  (forall H' p', chain H' p' (l1 ++ l') -> nh_eq (handles m) H' ->
     (forall a, a ∉ l1 -> H' !! a = handles m !! a) ->
     Q tt (set_handles H' m, mkTable (t_length t) (t_elems t) (<[i := p']> (t_list t)))) ->
  wp (write_slot (slot_after (SBucket i) l1) q) Q (m, t).
Proof.
  intros Hi Hc Hnd Hq Hdis HQ. destruct l1 as [|x l1 _] using rev_ind.
  - unfold slot_after. simpl. unfold wp, write_slot. simpl.
    apply lookup_lt_Some in Hi as Hlt. rewrite (proj2 (Nat.ltb_lt _ _) Hlt).
    specialize (HQ (handles m) q Hq (reflexivity _) (fun _ _ => eq_refl)).
    unfold set_handles in HQ. by destruct m.
  - unfold slot_after. rewrite last_snoc. simpl.
    assert (is_Some (handles m !! x)) as [hx Hx]
      by (eapply chain_is_Some; [exact Hc|]; set_solver).
    apply wp_on_mem. simpl. apply (wp_store _ hx); [done|]. simpl.
    replace t with (mkTable (t_length t) (t_elems t) (<[i := p]> (t_list t)))
      by (rewrite list_insert_id by done; by destruct t).
    apply HQ.
    + clear HQ. rewrite <-app_assoc in *. simpl in *.
      clear Hi. revert p Hc Hnd. induction l1 as [|a l1 IH]; intros p Hc Hnd; simpl in *.
      * destruct Hc as (-> & h & Ha & Hc). split; [done|].
        eexists. rewrite lookup_insert_eq. split; [done|]. simpl.
        eapply chain_ext; [|exact Hq]. intros b Hb. rewrite lookup_insert_ne; [done|].
        intros ->. eapply Hdis; [|done]. set_solver.
      * destruct Hc as (-> & h & Ha & Hc). split; [done|].
        apply NoDup_cons in Hnd as [Hna Hnd].
        exists h. rewrite lookup_insert_ne by set_solver. split; [done|].
        apply IH; [|done..]. set_solver.
    + by apply nh_eq_store.
    + intros b Hb. apply lookup_insert_ne. set_solver.
Qed.
