(* ===== verification/HandleTableRep.v ===== *)
(** * [HandleTable] implements a finite map

    The abstraction relation [table_rep] between the pointer structure of
    HandleTable.v and a [gmap] from (key, hash) to handle addresses, the proofs
    of the four operations against it, and the contract [TableLaws] the cache
    relies on. *)

From S2P Require Import Prelude CacheKey HandleTable.

(** ** The table as a finite map *)

(** replacing one bucket *)
Lemma concat_lookup_perm {A} (bs : list (list A)) i l :
  bs !! i = Some l -> concat bs ≡ₚ l ++ concat (delete i bs).
Proof.
  revert i. induction bs as [|b bs IH]; intros [|i] Hi; simplify_eq/=; [done|].
  rewrite (IH i) by done. by rewrite !app_assoc, (Permutation_app_comm b l).
Qed.

Lemma concat_insert_perm {A} (bs : list (list A)) i l l' :
  bs !! i = Some l -> concat (<[i := l']> bs) ≡ₚ l' ++ concat (delete i bs).
Proof.
  revert i. induction bs as [|b bs IH]; intros [|i] Hi; simplify_eq/=; [done|].
  rewrite (IH i) by done. by rewrite !app_assoc, (Permutation_app_comm b l').
Qed.

Lemma concat_delete_disjoint {A} (bs : list (list A)) i j l b x :
  NoDup (concat bs) -> bs !! i = Some l -> bs !! j = Some b -> i <> j -> x ∈ l -> x ∉ b.
Proof.
  revert i j. induction bs as [|c bs IH]; intros [|i] [|j] Hnd Hi Hj Hij Hx Hb; simplify_eq/=.
  - apply NoDup_app in Hnd as (_ & Hd & _). eapply Hd; [exact Hx|].
    apply list_elem_of_In, in_concat. exists b. rewrite <-!list_elem_of_In.
    split; [|done]. by eapply list_elem_of_lookup_2.
  - apply NoDup_app in Hnd as (_ & Hd & _). eapply Hd; [exact Hb|].
    apply list_elem_of_In, in_concat. exists l. rewrite <-!list_elem_of_In.
    split; [|done]. by eapply list_elem_of_lookup_2.
  - apply NoDup_app in Hnd as (_ & _ & Hnd). eapply (IH i j); eauto.
Qed.

Lemma elem_of_concat_lookup {A} (bs : list (list A)) x :
  x ∈ concat bs <-> exists i b, bs !! i = Some b /\ x ∈ b.
Proof.
  rewrite list_elem_of_In, in_concat. split.
  - intros (b & Hb & Hx). rewrite <-list_elem_of_In in Hb. rewrite <-list_elem_of_In in Hx.
    apply list_elem_of_lookup in Hb as [i Hi]. eauto.
  - intros (i & b & Hi & Hx). exists b. rewrite <-!list_elem_of_In.
    split; [|done]. by eapply list_elem_of_lookup_2.
Qed.

(** the bucket a handle belongs to in a table of the given length *)
Definition bucket_of (len : Z) (h : LRUHandle) : nat :=
  Z.to_nat (Z.land (h_hash h) (u32 (len - 1))).

Definition pow2_len (len : Z) : Prop := exists j, 2 <= j <= 31 /\ len = 2 ^ j.

(** the concrete table [t] in heap [H] holds exactly the map [Mp]; [bs] are the
    contents of the buckets *)
Record table_bs (H : gmap addr LRUHandle) (t : HandleTable)
    (Mp : gmap (CacheKey * Z) addr) (bs : list (list addr)) : Prop := {
  tb_len : pow2_len (t_length t);
  tb_list : length (t_list t) = Z.to_nat (t_length t);
  tb_chains : Forall2 (chain H) (t_list t) bs;
  tb_nodup : NoDup (concat bs);
  tb_handle : forall a, a ∈ concat bs ->
    exists h, H !! a = Some h /\ h_next h <> Some a /\ inu 32 (h_hash h);
  tb_bucket : forall i b a h, bs !! i = Some b -> a ∈ b -> H !! a = Some h ->
    bucket_of (t_length t) h = i;
  tb_map : forall kh a, Mp !! kh = Some a <-> a ∈ concat bs /\ hkh <$> H !! a = Some kh;
  tb_elems : t_elems t = Z.of_nat (size Mp);
  tb_size : size Mp = length (concat bs);
  tb_bound : Z.of_nat (size Mp) <= 2 ^ 31
}.

Definition table_rep H t Mp : Prop := exists bs, table_bs H t Mp bs.

(** the fields of a handle the table depends on *)
Definition tview (a : addr) (h : LRUHandle) : option addr * CacheKey * Z * bool :=
  (h_next_hash h, hkey h, h_hash h, bool_decide (h_next h = Some a)).

Lemma tview_inv a h h' :
  tview a h' = tview a h ->
  h_next_hash h' = h_next_hash h /\ hkh h' = hkh h /\ h_hash h' = h_hash h /\
  (h_next h' = Some a <-> h_next h = Some a).
Proof.
  unfold tview, hkh. intros E. injection E as E1 E2 E3 E4. split_and!; try congruence.
  by rewrite <-(bool_decide_eq_true (h_next h' = _)), E4, bool_decide_eq_true.
Qed.

Lemma tview_lookup (H H' : gmap addr LRUHandle) a h :
  tview a <$> H' !! a = tview a <$> H !! a -> H !! a = Some h ->
  exists h', H' !! a = Some h' /\ tview a h' = tview a h.
Proof.
  intros E Ha. rewrite Ha in E. destruct (H' !! a) as [h'|]; [|done].
  apply (inj Some) in E. eauto.
Qed.

Lemma tview_chain H H' p l :
  (forall a, a ∈ l -> tview a <$> H' !! a = tview a <$> H !! a) -> chain H p l -> chain H' p l.
Proof.
  revert p. induction l as [|a l IH]; intros p HE; simpl; [done|].
  intros (-> & h & Ha & Hc). split; [done|].
  destruct (tview_lookup H H' a h) as (h' & Hh' & Ev); [apply HE; by left|done|].
  apply tview_inv in Ev as (Enh & _). exists h'. split; [done|]. rewrite Enh.
  apply IH; [|done]. intros b Hb. apply HE. by right.
Qed.

(** the table survives any change that keeps the fields it depends on *)
Lemma table_rep_frame H H' t Mp :
  table_rep H t Mp ->
  (forall kh a, Mp !! kh = Some a -> tview a <$> H' !! a = tview a <$> H !! a) ->
  table_rep H' t Mp.
Proof.
  intros [bs R] HE. exists bs. destruct R.
  assert (forall a, a ∈ concat bs -> tview a <$> H' !! a = tview a <$> H !! a) as HE'.
  { intros a Ha. destruct (tb_handle0 a Ha) as (h & Hh & _).
    apply (HE (hkh h)), tb_map0. by rewrite Hh. }
  assert (forall a, a ∈ concat bs -> exists h h', H !! a = Some h /\ H' !! a = Some h' /\
    h_next h <> Some a /\ inu 32 (h_hash h) /\ tview a h' = tview a h) as HV.
  { intros a Ha. destruct (tb_handle0 a Ha) as (h & Hh & Hn & Hu).
    destruct (tview_lookup H H' a h) as (h' & Hh' & Ev); [by apply HE'|done|].
    exists h, h'. done. }
  split; try done.
  - apply Forall2_same_length_lookup in tb_chains0 as [Hl Hc].
    apply Forall2_same_length_lookup. split; [done|]. intros i p l Hp Hb.
    apply (tview_chain H); [|by eapply Hc]. intros a Ha. apply HE'.
    apply elem_of_concat_lookup. eauto.
  - intros a Ha. destruct (HV a Ha) as (h & h' & Hh & Hh' & Hn & Hu & Ev).
    apply tview_inv in Ev as (_ & _ & Eh & En). exists h'. rewrite Eh, En. done.
  - intros i b a h' Hi Ha Hh'.
    destruct (HV a) as (h & h'' & Hh & Hh'' & _ & _ & Ev); [by apply elem_of_concat_lookup; eauto|].
    rewrite Hh'' in Hh'. apply (inj Some) in Hh' as <-.
    apply tview_inv in Ev as (_ & _ & Eh & _).
    unfold bucket_of. rewrite Eh. by eapply tb_bucket0.
  - intros kh a. rewrite tb_map0. split; intros [Ha E]; (split; [done|]);
      destruct (HV a Ha) as (h & h' & Hh & Hh' & _ & _ & Ev);
      apply tview_inv in Ev as (_ & Ek & _); rewrite Hh, Hh' in *; simpl in *; congruence.
Qed.

(** ** [_find_pointer] and [lookup] *)

Lemma pow2_mask len : pow2_len len -> u32 (len - 1) = len - 1 /\ 4 <= len < 2 ^ 32.
Proof.
  intros (j & Hj & ->).
  assert (2 ^ 2 <= 2 ^ j) by (apply Z.pow_le_mono_r; lia).
  assert (2 ^ j <= 2 ^ 31) by (apply Z.pow_le_mono_r; lia).
  split; [|lia]. apply wrapu_id. unfold inu. lia.
Qed.

Lemma bucket_lt len hash :
  pow2_len len -> inu 32 hash -> (Z.to_nat (Z.land hash (u32 (len - 1))) < Z.to_nat len)%nat.
Proof.
  intros Hl Hh. destruct (pow2_mask len Hl) as [-> ?]. destruct Hl as (j & Hj & ->).
  rewrite land_pow2_mod by lia.
  pose proof (Z.mod_pos_bound hash (2 ^ j)). lia.
Qed.

Section Ops.
Context (m : mem) (t : HandleTable) (Mp : gmap (CacheKey * Z) addr) (bs : list (list addr)).
Context (R : table_bs (handles m) t Mp bs).
Abbreviation H := (handles m).

Lemma table_length_buckets : length (t_list t) = length bs.
Proof. eapply Forall2_length, R. Qed.

Lemma table_bucket i :
  (i < Z.to_nat (t_length t))%nat ->
  exists p l, t_list t !! i = Some p /\ bs !! i = Some l /\ chain H p l.
Proof.
  intros Hi. rewrite <-(tb_list _ _ _ _ R) in Hi.
  apply lookup_lt_is_Some in Hi as [p Hp].
  destruct (Forall2_lookup_l _ _ _ _ _ (tb_chains _ _ _ _ R) Hp) as (l & Hl & Hc). eauto.
Qed.

Lemma table_bucket_nodup i l : bs !! i = Some l -> NoDup l.
Proof.
  intros Hi. pose proof (tb_nodup _ _ _ _ R) as Hnd.
  rewrite (concat_lookup_perm _ _ _ Hi) in Hnd. by apply NoDup_app in Hnd as [? _].
Qed.

Lemma table_bucket_elem i l a : bs !! i = Some l -> a ∈ l -> a ∈ concat bs.
Proof. intros. apply elem_of_concat_lookup. eauto. Qed.

Lemma table_bucket_short i l : bs !! i = Some l -> (length l < S (size H))%nat.
Proof.
  intros Hi. apply le_n_S, nodup_heap_length; [by eapply table_bucket_nodup|].
  intros a Ha. destruct (tb_handle _ _ _ _ R a) as (h & ? & _); [|by exists h].
  by eapply table_bucket_elem.
Qed.

Lemma found_head i l1 l2 key hash :
  inu 32 hash -> i = Z.to_nat (Z.land hash (u32 (t_length t - 1))) ->
  bs !! i = Some (l1 ++ l2) -> found H (key, hash) l1 l2 ->
  head l2 = Mp !! (key, hash).
Proof.
  intros Hh -> Hi [Hn Hm]. destruct (head l2) as [a|] eqn:Ha.
  - symmetry. apply (tb_map _ _ _ _ R). split; [|by apply Hm].
    eapply table_bucket_elem; [exact Hi|]. apply elem_of_app. right.
    destruct l2; simplify_eq/=. by left.
  - destruct l2; [|done]. rewrite app_nil_r in Hi.
    symmetry. apply eq_None_not_Some. intros [a Hk].
    apply (tb_map _ _ _ _ R) in Hk as [Hin Hk].
    destruct (H !! a) as [h|] eqn:Eh; [|done]. simpl in Hk.
    apply elem_of_concat_lookup in Hin as (i & b & Hb & Hab).
    pose proof (tb_bucket _ _ _ _ R _ _ _ _ Hb Hab Eh) as Hi'.
    assert (h_hash h = hash) as Hhash by (unfold hkh in Hk; congruence).
    unfold bucket_of in Hi'. rewrite Hhash in Hi'. rewrite Hi', Hb in Hi.
    apply (inj Some) in Hi as ->. apply (Hn a Hab). rewrite Eh. simpl. congruence.
Qed.

Lemma wp_find_pointer key hash :
  inu 32 hash ->
  wp (HandleTable_find_pointer key hash)
    (fun ptr s' => s' = (m, t) /\ exists i p l1 l2,
       i = Z.to_nat (Z.land hash (u32 (t_length t - 1))) /\
       t_list t !! i = Some p /\ bs !! i = Some (l1 ++ l2) /\ chain H p (l1 ++ l2) /\
       ptr = slot_after (SBucket i) l1 /\ found H (key, hash) l1 l2 /\
       read_slot ptr (m, t) = Ok (Mp !! (key, hash), (m, t)) /\
       head l2 = Mp !! (key, hash)) (m, t).
Proof.
  intros Hh. unfold HandleTable_find_pointer. apply wp_bind, wp_get. cbn [fst snd].
  set (i := Z.to_nat (Z.land hash (u32 (t_length t - 1)))).
  destruct (table_bucket i) as (p & l & Hp & Hl & Hc).
  { apply bucket_lt; [apply R|done]. }
  assert (read_slot (SBucket i) (m, t) = Ok (p, (m, t))) as Hr.
  { unfold read_slot, mbind, M_bind, get, lift_res. simpl. by rewrite Hp. }
  eapply wp_mono.
  { apply (wp_find_loop _ _ p l); [done|done| |by eapply table_bucket_short].
    intros a h Ha Eh. destruct (tb_handle _ _ _ _ R a) as (h' & Eh' & Hn & _).
    { by eapply table_bucket_elem. }
    simpl in *. congruence. }
  intros ptr s' (-> & l1 & l2 & -> & -> & Hf). split; [done|].
  assert (head l2 = Mp !! (key, hash)) as Hhd by (by eapply found_head).
  exists i, p, l1, l2. split_and!; try done.
  by rewrite <-Hhd, (read_slot_after _ _ p l1 l2).
Qed.

Lemma lookup_run key hash :
  inu 32 hash -> HandleTable_lookup key hash (m, t) = Ok (Mp !! (key, hash), (m, t)).
Proof.
  intros Hh. unfold HandleTable_lookup, mbind, M_bind.
  destruct (wp_elim _ _ _ (wp_find_pointer key hash Hh)) as (ptr & s' & -> & -> & Hx).
  by destruct Hx as (i & p & l1 & l2 & _ & _ & _ & _ & _ & _ & Hr & _).
Qed.

(** putting a changed bucket back *)
Lemma table_bs_update H' p' i l l' Mp' elems' :
  bs !! i = Some l ->
  nh_eq H H' ->
  (forall a, a ∈ concat (delete i bs) -> H' !! a = H !! a) ->
  chain H' p' l' ->
  NoDup (l' ++ concat (delete i bs)) ->
  (forall a, a ∈ l' -> exists h, H !! a = Some h /\ h_next h <> Some a /\
     inu 32 (h_hash h) /\ bucket_of (t_length t) h = i) ->
  (forall kh a, Mp' !! kh = Some a <->
     a ∈ l' ++ concat (delete i bs) /\ hkh <$> H !! a = Some kh) ->
  elems' = Z.of_nat (size Mp') -> size Mp' = length (l' ++ concat (delete i bs)) ->
  Z.of_nat (size Mp') <= 2 ^ 31 ->
  table_bs H' (mkTable (t_length t) elems' (<[i := p']> (t_list t))) Mp' (<[i := l']> bs).
Proof.
  intros Hi Hnh Hfr Hc Hnd Hl' Hmap He Hsz Hbd. destruct R.
  pose proof (concat_insert_perm _ _ _ l' Hi) as Hperm.
  pose proof (concat_lookup_perm _ _ _ Hi) as Hperm0.
  assert (forall a, hkh <$> H' !! a = hkh <$> H !! a) as Hkh.
  { intros a. destruct (H !! a) as [h|] eqn:Ea.
    - destruct (nh_eq_lookup _ _ _ _ Hnh Ea) as [q ->]. done.
    - specialize (Hnh a). rewrite Ea in Hnh. by destruct (H' !! a). }
  split; simpl; try done.
  - by rewrite length_insert.
  - apply Forall2_same_length_lookup in tb_chains0 as [Hlen Hcs].
    apply Forall2_same_length_lookup. split; [by rewrite !length_insert|].
    intros j q b Hq Hb. destruct (decide (i = j)) as [<-|Hij].
    + apply lookup_lt_Some in Hi as Hlt.
      rewrite list_lookup_insert_eq in Hq by lia. rewrite list_lookup_insert_eq in Hb by lia.
      by simplify_eq.
    + rewrite list_lookup_insert_ne in Hq by done. rewrite list_lookup_insert_ne in Hb by done.
      eapply chain_ext; [|by eapply Hcs]. intros a Ha. apply Hfr.
      assert (a ∈ concat bs) as Hin by (apply elem_of_concat_lookup; eauto).
      rewrite Hperm0 in Hin. apply elem_of_app in Hin as [Hin|]; [|done].
      exfalso. by eapply (concat_delete_disjoint bs i j).
  - by rewrite Hperm.
  - intros a Ha. rewrite Hperm in Ha.
    assert (exists h, H !! a = Some h /\ h_next h <> Some a /\ inu 32 (h_hash h))
      as (h & Eh & Hn & Hu).
    { apply elem_of_app in Ha as [Ha|Ha].
      - destruct (Hl' a Ha) as (h & ? & ? & ? & _). eauto.
      - apply tb_handle0. rewrite Hperm0. apply elem_of_app. by right. }
    destruct (nh_eq_lookup _ _ _ _ Hnh Eh) as [q ->]. eauto.
  - intros j b a h Hb Ha Eh'. destruct (decide (i = j)) as [<-|Hij].
    + apply lookup_lt_Some in Hi as Hlt.
      rewrite list_lookup_insert_eq in Hb by lia. simplify_eq.
      destruct (Hl' a Ha) as (h0 & E0 & _ & _ & Hb0).
      destruct (nh_eq_lookup _ _ _ _ Hnh E0) as [q E]. simplify_eq. done.
    + rewrite list_lookup_insert_ne in Hb by done.
      assert (a ∈ concat bs) as Hin by (apply elem_of_concat_lookup; eauto).
      destruct (tb_handle0 a Hin) as (h0 & E0 & _).
      destruct (nh_eq_lookup _ _ _ _ Hnh E0) as [q E]. simplify_eq.
      by apply (tb_bucket0 _ _ _ _ Hb Ha E0).
  - intros kh a. by rewrite Hmap, Hkh, Hperm.
  - rewrite Hsz. by rewrite Hperm.
Qed.
End Ops.

(** ** [remove] *)

(** [H'] is [H] with [next_hash] fields changed, at handles satisfying [P] only *)
Definition relinked (P : addr -> Prop) (H H' : gmap addr LRUHandle) : Prop :=
  nh_eq H H' /\ forall a, ~ P a -> H' !! a = H !! a.

Definition in_table (Mp : gmap (CacheKey * Z) addr) (a : addr) : Prop :=
  exists kh, Mp !! kh = Some a.

Lemma relinked_refl P H : relinked P H H.
Proof. done. Qed.

Lemma relinked_trans P H1 H2 H3 : relinked P H1 H2 -> relinked P H2 H3 -> relinked P H1 H3.
Proof.
  intros [N1 F1] [N2 F2]. split; [by etrans|]. intros a Ha. by rewrite F2, F1.
Qed.

Lemma relinked_mono (P P' : addr -> Prop) H H' :
  (forall a, P a -> P' a) -> relinked P H H' -> relinked P' H H'.
Proof. intros HP [N F]. split; [done|]. intros a Ha. apply F. auto. Qed.

Lemma set_handles_id m : set_handles (handles m) m = m.
Proof. by destruct m. Qed.

Lemma in_table_concat m t Mp bs a :
  table_bs (handles m) t Mp bs -> a ∈ concat bs -> in_table Mp a.
Proof.
  intros R Ha. destruct (tb_handle _ _ _ _ R a Ha) as (h & Eh & _).
  exists (hkh h). apply (tb_map _ _ _ _ R). by rewrite Eh.
Qed.

Lemma chain_suffix H p l1 a l2 h :
  chain H p (l1 ++ a :: l2) -> H !! a = Some h -> chain H (h_next_hash h) l2.
Proof.
  revert p. induction l1 as [|x l1 IH]; intros p Hc Eh; simpl in Hc.
  - destruct Hc as (_ & h' & E' & Hc). congruence.
  - destruct Hc as (_ & hx & _ & Hc). by eapply IH.
Qed.

Lemma wp_remove m t Mp key hash :
  table_rep (handles m) t Mp -> inu 32 hash ->
  wp (HandleTable_remove key hash)
    (fun r s' => r = Mp !! (key, hash) /\ exists H' t', s' = (set_handles H' m, t') /\
       table_rep H' t' (delete (key, hash) Mp) /\ relinked (in_table Mp) (handles m) H') (m, t).
Proof.
  intros [bs R] Hh. unfold HandleTable_remove.
  apply wp_bind. eapply wp_mono; [by apply (wp_find_pointer m t Mp bs R)|].
  intros ptr s' (-> & i & p & l1 & l2 & Hidx & Hp & Hb & Hc & -> & Hf & Hr & Hhd).
  apply wp_bind. eapply wp_intro; [exact Hr|]. cbn beta.
  destruct (Mp !! (key, hash)) as [a|] eqn:Ek.
  2: { apply wp_ret. split; [done|]. exists (handles m), t.
       rewrite set_handles_id, delete_id by done. split; [done|].
       split; [by exists bs|apply relinked_refl]. }
  destruct l2 as [|a' l2]; [done|]. apply (inj Some) in Hhd as ->.
  apply (tb_map _ _ _ _ R) in Ek as [Hin Hk].
  destruct (tb_handle _ _ _ _ R a Hin) as (h & Eh & _).
  assert (NoDup (l1 ++ a :: l2)) as Hnd by (by eapply table_bucket_nodup).
  assert (chain (handles m) (h_next_hash h) l2) as Hc2
    by (by eapply chain_suffix).
  apply wp_bind, wp_on_mem, (wp_load _ h); [done|]. simpl.
  apply wp_bind. eapply (wp_write_slot _ p _ l1 (a :: l2) l2); [done..| |].
  { intros x Hx Hx2. apply NoDup_app in Hnd as (_ & Hd & _). apply (Hd x Hx). by right. }
  intros H' p' Hc' Hnh Hfr. apply wp_bind, wp_modify. simpl. apply wp_ret. split; [done|].
  exists H', (mkTable (t_length t) (u32 (t_elems t - 1)) (<[i := p']> (t_list t))).
  split; [done|].
  pose proof (concat_lookup_perm _ _ _ Hb) as Hperm.
  pose proof (tb_nodup _ _ _ _ R) as Hndc. rewrite Hperm in Hndc.
  assert (l1 ++ a :: l2 ++ concat (delete i bs) ≡ₚ a :: (l1 ++ l2) ++ concat (delete i bs))
    as Hpa by (by rewrite <-Permutation_middle, app_assoc).
  rewrite <-app_assoc in Hperm, Hndc. simpl in Hperm, Hndc. rewrite Hpa in Hperm, Hndc.
  apply NoDup_cons in Hndc as [Hna Hndc].
  assert (Mp !! hkh h = Some a) as Ek by (apply (tb_map _ _ _ _ R); by rewrite Eh).
  assert (hkh h = (key, hash)) as Ekh by (rewrite Eh in Hk; simpl in Hk; congruence).
  rewrite Ekh in Ek.
  assert (size (delete (key, hash) Mp) = pred (size Mp)) as Hsz by (by eapply map_size_delete_Some).
  pose proof (tb_size _ _ _ _ R) as Hs0. pose proof (tb_elems _ _ _ _ R) as He0.
  pose proof (tb_bound _ _ _ _ R) as Hb0.
  rewrite Hperm in Hs0. simpl in Hs0.
  split.
  - exists (<[i := l1 ++ l2]> bs).
    eapply (table_bs_update m t Mp bs R); [done|done| |done|done| | | | |].
    + intros x Hx. apply Hfr. intros Hx1. apply NoDup_app in Hndc as (_ & Hd & _).
      eapply Hd; [|done]. apply elem_of_app. by left.
    + intros x Hx.
      assert (x ∈ l1 ++ a :: l2) as Hx'.
      { apply elem_of_app in Hx as [Hx|Hx]; apply elem_of_app; [by left|right; by right]. }
      destruct (tb_handle _ _ _ _ R x) as (hx & Ex & Hn & Hu); [by eapply table_bucket_elem|].
      exists hx. split_and!; try done. by eapply (tb_bucket _ _ _ _ R).
    + intros kh x. rewrite lookup_delete_Some, (tb_map _ _ _ _ R), Hperm, elem_of_cons.
      split.
      * intros (Hne & [->|Hx] & E); [|done]. rewrite Eh in E. simpl in E. congruence.
      * intros [Hx E]. split; [|tauto]. intros <-.
        assert (Mp !! (key, hash) = Some x) as E'.
        { apply (tb_map _ _ _ _ R). rewrite Hperm, elem_of_cons. tauto. }
        congruence.
    + rewrite wrapu_id; unfold inu; lia.
    + rewrite Hsz, Hs0. done.
    + lia.
  - split; [done|]. intros x Hx. apply Hfr. intros Hx1. apply Hx.
    eapply in_table_concat; [done|]. eapply table_bucket_elem; [exact Hb|].
    apply elem_of_app. by left.
Qed.

(** ** [_resize] *)

(** the growth loop ends, for up to 2^31 elements, on a power of two that
    holds them all *)
Lemma grow_length_spec fuel j elems :
  2 <= j <= 31 -> elems <= 2 ^ 31 -> 32 - j <= Z.of_nat fuel ->
  exists j', grow_length fuel (2 ^ j) elems = Ok (2 ^ j') /\ j <= j' <= 31 /\ elems <= 2 ^ j'.
Proof.
  revert j. induction fuel as [|fuel IH]; intros j Hj He Hf; [lia|]. simpl.
  destruct (Z.ltb_spec (2 ^ j) elems) as [Hlt|Hge];
    [|exists j; split_and!; [done|lia..]].
  assert (j < 31).
  { destruct (decide (j = 31)) as [->|]; lia. }
  assert (2 ^ (j + 1) <= 2 ^ 31) by (apply Z.pow_le_mono_r; lia).
  assert (u32 (2 ^ j * 2) = 2 ^ (j + 1)) as ->.
  { rewrite Z.pow_add_r in * by lia. apply wrapu_id. unfold inu. lia. }
  destruct (IH (j + 1)) as (j' & E & ? & ?); [lia..|]. exists j'. split_and!; [done|lia..].
Qed.

(** with more than 2^31 elements the doubled length wraps to 0 and the loop
    does not end, whatever the number of its rounds *)
Lemma grow_length_diverges fuel elems : 2 ^ 31 < elems -> grow_length fuel 4 elems = Err EFuel.
Proof.
  intros He. change 4 with (u32 (2 ^ 2)). assert (0 <= 2) as Hj by lia. revert Hj.
  generalize 2 at 1 3 as j. induction fuel as [|fuel IH]; intros j Hj; [done|]. simpl grow_length.
  assert (u32 (2 ^ j) <= 2 ^ 31) as Hb.
  { destruct (decide (j < 32)).
    - rewrite wrapu_id; [apply Z.pow_le_mono_r; lia|]. split; [lia|apply Z.pow_lt_mono_r; lia].
    - unfold wrapu. replace j with (32 + (j - 32)) by lia.
      rewrite Z.pow_add_r, Z.mul_comm, Z.mod_mul by lia. lia. }
  destruct (Z.ltb_spec (u32 (2 ^ j)) elems); [|lia].
  replace (u32 (u32 (2 ^ j) * 2)) with (u32 (2 ^ (j + 1))); [by apply IH; lia|].
  unfold wrapu. by rewrite Z.mul_mod_idemp_l, Z.pow_add_r by lia.
Qed.

(** placing a handle at the head of its new bucket *)
Lemma chains_push H nl nbs a hd i q :
  Forall2 (chain H) nl nbs -> a ∉ concat nbs -> H !! a = Some hd -> nl !! i = Some q ->
  exists b, nbs !! i = Some b /\
    Forall2 (chain (<[a := set_next_hash q hd]> H)) (<[i := Some a]> nl) (<[i := a :: b]> nbs).
Proof.
  intros HF Ha Eh Hq. destruct (Forall2_lookup_l _ _ _ _ _ HF Hq) as (b & Hb & Hc).
  exists b. split; [done|].
  assert (forall p l, (forall x, x ∈ l -> x ∈ concat nbs) -> chain H p l ->
    chain (<[a := set_next_hash q hd]> H) p l) as Hframe.
  { intros p l Hl. apply chain_ext. intros x Hx. apply lookup_insert_ne.
    intros <-. apply Ha, Hl, Hx. }
  assert (Forall2 (chain (<[a := set_next_hash q hd]> H)) nl nbs) as HF'.
  { apply Forall2_same_length_lookup in HF as [Hlen HF].
    apply Forall2_same_length_lookup. split; [done|]. intros j p l Hp Hl.
    apply Hframe; [|by eapply HF]. intros x Hx. apply elem_of_concat_lookup. eauto. }
  apply Forall2_insert; [done|]. split; [done|]. eexists. rewrite lookup_insert_eq.
  split; [done|]. simpl. apply Hframe; [|done].
  intros x Hx. apply elem_of_concat_lookup. eauto.
Qed.

(** where the handles of the new buckets come from *)
Definition placed (H : gmap addr LRUHandle) (len : Z) (l : list addr)
    (nbs nbs' : list (list addr)) : Prop :=
  forall i b a, nbs' !! i = Some b -> a ∈ b ->
    (exists b0, nbs !! i = Some b0 /\ a ∈ b0) \/
    (a ∈ l /\ exists hd, H !! a = Some hd /\ bucket_of len hd = i).

Lemma wp_move_chain fuel len h nl count m l nbs :
  pow2_len len -> length nl = Z.to_nat len -> inu 32 count ->
  chain (handles m) h l -> Forall2 (chain (handles m)) nl nbs -> NoDup (l ++ concat nbs) ->
  (forall a hd, a ∈ l -> handles m !! a = Some hd -> inu 32 (h_hash hd)) ->
  (length l < fuel)%nat ->
  wp (move_chain fuel len h nl count)
    (fun r m' => exists H' nbs', m' = set_handles H' m /\ length r.1 = length nl /\
       Forall2 (chain H') r.1 nbs' /\ concat nbs' ≡ₚ l ++ concat nbs /\
       r.2 = u32 (count + Z.of_nat (length l)) /\
       relinked (fun a => a ∈ l) (handles m) H' /\ placed (handles m) len l nbs nbs') m.
Proof.
  intros Hlen. revert h nl count m l nbs.
  induction fuel as [|fuel IH]; intros h nl count m l nbs Hnl Hcount Hc HF Hnd Hh Hf; [lia|].
  destruct l as [|a l].
  { simpl in Hc. subst h. simpl. apply wp_ret. exists (handles m), nbs.
    rewrite set_handles_id, Z.add_0_r, wrapu_id by done. split_and!; try done.
    intros i b a Hb Ha. left. eauto. }
  destruct Hc as (-> & hd & Ea & Hc). simpl.
  apply wp_bind, (wp_load _ hd); [done|].
  pose proof (Hh a hd ltac:(left) Ea) as Hu. fold (bucket_of len hd).
  destruct (nl !! bucket_of len hd) as [q|] eqn:Hq.
  2: { apply lookup_ge_None in Hq. pose proof (bucket_lt len (h_hash hd) Hlen Hu).
       unfold bucket_of in Hq. lia. }
  apply wp_bind. eapply wp_lift; [done|]. apply wp_bind, (wp_store _ hd); [done|].
  simpl in Hnd. apply NoDup_cons in Hnd as [Hna Hnd].
  destruct (chains_push (handles m) nl nbs a hd (bucket_of len hd) q) as (b & Hb & HF');
    [done|set_solver|done|done|].
  pose proof (concat_insert_perm _ _ _ (a :: b) Hb) as Hp1.
  pose proof (concat_lookup_perm _ _ _ Hb) as Hp0.
  assert (concat (<[bucket_of len hd := a :: b]> nbs) ≡ₚ a :: concat nbs) as Hp2
    by (rewrite Hp1, Hp0; done).
  eapply wp_mono.
  { apply (IH _ _ _ _ l (<[bucket_of len hd := a :: b]> nbs)).
    - by rewrite length_insert.
    - apply wrapu_range. lia.
    - eapply chain_ext; [|done]. intros x Hx. simpl. apply lookup_insert_ne. set_solver.
    - done.
    - rewrite Hp2, <-Permutation_middle. apply NoDup_cons. done.
    - intros x hx Hx. simpl. rewrite lookup_insert_ne by set_solver. apply Hh. by right.
    - simpl in Hf. lia. }
  intros [nl' count'] m' (H' & nbs' & -> & Hl' & HFc & Hperm & Hcnt & [N F] & Hpl).
  exists H', nbs'. simpl in *. split_and!; try done.
  - by rewrite Hl', length_insert.
  - rewrite Hperm, Hp2. by rewrite <-Permutation_middle.
  - rewrite Hcnt, wrapu_add_l by lia. f_equal. lia.
  - split.
    + etrans; [|exact N]. by apply nh_eq_store.
    + intros x Hx. rewrite F by set_solver. apply lookup_insert_ne. set_solver.
  - intros i c x Hi Hx. destruct (Hpl i c x Hi Hx) as [(b0 & Hb0 & Hx0)|(Hxl & hx & Ex & Hbx)].
    + destruct (decide (bucket_of len hd = i)) as [<-|Hne].
      * rewrite list_lookup_insert_eq in Hb0 by (by eapply lookup_lt_Some).
        apply (inj Some) in Hb0 as <-. apply elem_of_cons in Hx0 as [->|Hx0]; [|by left; eauto].
        right. split; [by left|]. eauto.
      * rewrite list_lookup_insert_ne in Hb0 by done. left. eauto.
    + right. split; [by right|]. simpl in Ex. rewrite lookup_insert_ne in Ex by set_solver. eauto.
Qed.

Lemma wp_move_all fuel len old nl count m bs nbs :
  pow2_len len -> length nl = Z.to_nat len -> inu 32 count ->
  Forall2 (chain (handles m)) old bs -> Forall2 (chain (handles m)) nl nbs ->
  NoDup (concat bs ++ concat nbs) ->
  (forall a hd, a ∈ concat bs -> handles m !! a = Some hd -> inu 32 (h_hash hd)) ->
  (forall b, b ∈ bs -> (length b < fuel)%nat) ->
  wp (move_all fuel len old nl count)
    (fun r m' => exists H' nbs', m' = set_handles H' m /\ length r.1 = length nl /\
       Forall2 (chain H') r.1 nbs' /\ concat nbs' ≡ₚ concat bs ++ concat nbs /\
       r.2 = u32 (count + Z.of_nat (length (concat bs))) /\
       relinked (fun a => a ∈ concat bs) (handles m) H' /\
       placed (handles m) len (concat bs) nbs nbs') m.
Proof.
  intros Hlen. revert bs nl count m nbs.
  induction old as [|p old IH]; intros bs nl count m nbs Hnl Hcount HFo HF Hnd Hh Hf.
  { apply Forall2_nil_inv_l in HFo as ->. simpl. apply wp_ret. exists (handles m), nbs.
    rewrite set_handles_id, Z.add_0_r, wrapu_id by done. split_and!; try done.
    intros i b a Hb Ha. left. eauto. }
  apply Forall2_cons_inv_l in HFo as (l & bs' & Hc & HFo & ->). simpl in *.
  rewrite <-app_assoc in Hnd.
  assert (NoDup (l ++ concat nbs)) as Hnd1.
  { rewrite (Permutation_app_comm (concat bs')), app_assoc in Hnd.
    by apply NoDup_app in Hnd as [? _]. }
  apply wp_bind. eapply wp_mono.
  { apply (wp_move_chain fuel len p nl count m l nbs); try done.
    - intros a hd Ha. apply Hh. apply elem_of_app. by left.
    - apply Hf. by left. }
  intros [nl1 c1] m1 (H1 & nbs1 & -> & Hl1 & HF1 & Hp1 & Hc1 & [N1 F1] & Hpl1). simpl in *.
  assert (forall a, a ∈ concat bs' -> H1 !! a = handles m !! a) as Hsame.
  { intros a Ha. apply F1. intros Hal. apply NoDup_app in Hnd as (_ & Hd & _).
    apply (Hd a Hal). apply elem_of_app. by left. }
  eapply wp_mono.
  { apply (IH bs' nl1 c1 (set_handles H1 m) nbs1).
    - by rewrite Hl1.
    - rewrite Hc1. apply wrapu_range. lia.
    - apply Forall2_same_length_lookup in HFo as [Hlo HFo].
      apply Forall2_same_length_lookup. split; [done|]. intros j q b Hq Hb.
      eapply chain_ext; [|by eapply HFo]. intros a Ha. apply Hsame, elem_of_concat_lookup. eauto.
    - done.
    - rewrite Hp1, app_assoc, (Permutation_app_comm (concat bs')), <-app_assoc. done.
    - intros a hd Ha. simpl. rewrite Hsame by done. apply Hh. apply elem_of_app. by right.
    - intros b Hb. apply Hf. by right. }
  intros [nl2 c2] m2 (H2 & nbs2 & -> & Hl2 & HF2 & Hp2 & Hc2 & [N2 F2] & Hpl2). simpl in *.
  exists H2, nbs2. split_and!; try done.
  - by rewrite Hl2.
  - rewrite Hp2, Hp1, !app_assoc. by rewrite (Permutation_app_comm (concat bs') l).
  - rewrite Hc2, Hc1, wrapu_add_l, length_app by lia. f_equal. lia.
  - split; [by etrans|]. intros a Ha. rewrite F2, F1 by set_solver. done.
  - intros i b a Hi Ha. destruct (Hpl2 i b a Hi Ha) as [(b1 & Hb1 & Ha1)|(Hal & hd & E & Hb)].
    + destruct (Hpl1 i b1 a Hb1 Ha1) as [|(Hal & hd & E & Hb)]; [by left|].
      right. split; [apply elem_of_app; by left|]. eauto.
    + right. split; [apply elem_of_app; by right|]. rewrite Hsame in E by done. eauto.
Qed.

Lemma replicate_chains H n :
  Forall2 (chain H) (replicate n None) (replicate n []).
Proof. by apply Forall2_replicate. Qed.

Lemma concat_replicate_nil {A} n : concat (replicate n (@nil A)) = [].
Proof. by induction n. Qed.

Lemma wp_resize m t Mp :
  table_rep (handles m) t Mp ->
  wp HandleTable_resize
    (fun b s' => b = true /\ exists H' t', s' = (set_handles H' m, t') /\
       table_rep H' t' Mp /\ relinked (in_table Mp) (handles m) H') (m, t).
Proof.
  intros [bs R]. pose proof R as R'. destruct R'. unfold HandleTable_resize.
  apply wp_bind, wp_get. cbn [fst snd].
  destruct (grow_length_spec grow_fuel 2 (t_elems t)) as (j & Eg & Hj & _);
    [lia|lia|unfold grow_fuel; lia|].
  change (2 ^ 2) with 4 in Eg. apply wp_bind. eapply wp_lift; [exact Eg|].
  rewrite take_ge by lia. apply wp_bind, wp_on_mem. cbn [fst snd].
  assert (pow2_len (2 ^ j)) as Hlen by (exists j; split; [lia|done]).
  eapply wp_mono.
  { apply (wp_move_all _ (2 ^ j) _ _ _ _ bs (replicate (Z.to_nat (2 ^ j)) [])).
    - done.
    - by rewrite length_replicate.
    - unfold inu. lia.
    - done.
    - apply replicate_chains.
    - by rewrite concat_replicate_nil, app_nil_r.
    - intros a hd Ha Ea. destruct (tb_handle0 a Ha) as (h & ? & _ & ?). congruence.
    - intros b Hb. apply list_elem_of_lookup in Hb as [i Hb].
      by eapply (table_bucket_short m t Mp bs R). }
  intros [nl c] m' (H' & nbs' & -> & Hl' & HF' & Hperm & Hc & [N F] & Hpl). cbn [fst snd] in *.
  rewrite concat_replicate_nil, app_nil_r in Hperm.
  rewrite Z.add_0_l, wrapu_id in Hc by (unfold inu; lia).
  rewrite (proj2 (Z.eqb_eq (t_elems t) c)) by lia. cbn [negb].
  apply wp_bind, wp_get, wp_bind, wp_put, wp_ret. split; [done|].
  exists H', (mkTable (2 ^ j) (t_elems t) nl). split; [done|]. split.
  - exists nbs'. split; simpl; try done.
    + rewrite Hl', length_replicate. done.
    + by rewrite Hperm.
    + intros a. rewrite Hperm. intros Ha. destruct (tb_handle0 a Ha) as (h & Eh & Hn & Hu).
      destruct (nh_eq_lookup _ _ _ _ N Eh) as [q ->]. eauto.
    + intros i b a h Hi Ha Eh. destruct (Hpl i b a Hi Ha) as [(b0 & Hb0 & Ha0)|(Hal & hd & Ed & Hb)].
      * apply lookup_replicate in Hb0 as [-> _]. by apply not_elem_of_nil in Ha0.
      * destruct (nh_eq_lookup _ _ _ _ N Ed) as [q E]. simplify_eq. done.
    + intros kh a. rewrite tb_map0, Hperm. split; intros [Ha E]; (split; [done|]);
        destruct (tb_handle0 a Ha) as (h & Eh & _);
        destruct (nh_eq_lookup _ _ _ _ N Eh) as [q Eq]; rewrite Eh, Eq in *; done.
    + by rewrite Hperm.
  - split; [done|]. intros a Ha. apply F. intros Hin. apply Ha. by eapply in_table_concat.
Qed.

(** the constructor builds the empty map *)
Lemma new_table_run m :
  HandleTable_new m = Ok (mkTable 4 0 (replicate 4 None), m) /\
  table_rep (handles m) (mkTable 4 0 (replicate 4 None)) ∅.
Proof.
  split; [by destruct m|]. exists (replicate 4 []). split; simpl; try done.
  - exists 2. split; [lia|done].
  - by repeat constructor.
  - constructor.
  - intros a Ha. by apply not_elem_of_nil in Ha.
  - intros i b a h Hi Ha. apply (lookup_replicate 4 []) in Hi as [-> _].
    by apply not_elem_of_nil in Ha.
  - intros kh a. rewrite lookup_empty. split; [done|]. intros [Ha _].
    by apply not_elem_of_nil in Ha.
Qed.

(** ** [insert] *)

(** what linking [e] in place of the head of [l2] (or at the end of the chain)
    does to the set of filed handles *)
Lemma insert_elements {A} (l1 l2 rest : list A) e :
  NoDup ((l1 ++ l2) ++ rest) -> e ∉ (l1 ++ l2) ++ rest ->
  NoDup ((l1 ++ e :: tail l2) ++ rest) /\
  (forall x, x ∈ (l1 ++ e :: tail l2) ++ rest <->
     x = e \/ (x ∈ (l1 ++ l2) ++ rest /\ head l2 <> Some x)) /\
  (length ((l1 ++ e :: tail l2) ++ rest) =
   length ((l1 ++ l2) ++ rest) + match head l2 with None => 1 | _ => 0 end)%nat.
Proof.
  intros Hnd He.
  assert ((l1 ++ e :: tail l2) ++ rest ≡ₚ e :: (l1 ++ tail l2) ++ rest) as Hp1
    by (rewrite <-!app_assoc; simpl; by rewrite <-Permutation_middle).
  destruct l2 as [|a l2]; simpl in *.
  - rewrite !app_nil_r in Hp1, Hnd, He. rewrite !app_nil_r. split_and!.
    + rewrite Hp1. by apply NoDup_cons.
    + intros x. rewrite Hp1, elem_of_cons. naive_solver.
    + rewrite Hp1. simpl. lia.
  - assert ((l1 ++ a :: l2) ++ rest ≡ₚ a :: (l1 ++ l2) ++ rest) as Hp2
      by (rewrite <-!app_assoc; simpl; by rewrite <-Permutation_middle).
    rewrite Hp2 in Hnd. apply NoDup_cons in Hnd as [Hna Hnd].
    rewrite Hp2, not_elem_of_cons in He. destruct He as [Hea He].
    split_and!.
    + rewrite Hp1. by apply NoDup_cons.
    + intros x. rewrite Hp1, Hp2, !elem_of_cons. split.
      * intros [->|Hx]; [by left|]. right. split; [by right|]. congruence.
      * intros [->|[[->|Hx] Hne]]; [by left|done|by right].
    + rewrite Hp1, Hp2. simpl. lia.
Qed.

Section Insert.
Context (m : mem) (t : HandleTable) (Mp : gmap (CacheKey * Z) addr) (bs : list (list addr)).
Context (R : table_bs (handles m) t Mp bs).
Context (e : addr) (h : LRUHandle).
Context (He : handles m !! e = Some h) (Hn : h_next h <> Some e)
  (Hu : inu 32 (h_hash h)) (Hnew : ~ in_table Mp e)
  (Hsize : Z.of_nat (size Mp) < 2 ^ 31).
Abbreviation H := (handles m).

Lemma new_not_filed : e ∉ concat bs.
Proof. intros Hin. apply Hnew. by eapply in_table_concat. Qed.

Lemma insert_size :
  size (<[hkh h := e]> Mp) = (size Mp + match Mp !! hkh h with None => 1 | _ => 0 end)%nat.
Proof. rewrite map_size_insert. destruct (Mp !! hkh h); simpl; lia. Qed.

Lemma insert_table_bs i l1 l2 H' p' :
  i = bucket_of (t_length t) h ->
  bs !! i = Some (l1 ++ l2) -> head l2 = Mp !! hkh h ->
  chain H' p' (l1 ++ e :: tail l2) -> nh_eq H H' ->
  (forall a, a ∉ l1 -> a <> e -> H' !! a = H !! a) ->
  table_bs H' (mkTable (t_length t) (Z.of_nat (size (<[hkh h := e]> Mp))) (<[i := p']> (t_list t)))
    (<[hkh h := e]> Mp) (<[i := l1 ++ e :: tail l2]> bs).
Proof.
  intros Hi Hb Hhd Hc Hnh Hfr.
  pose proof (concat_lookup_perm _ _ _ Hb) as Hperm.
  pose proof (tb_nodup _ _ _ _ R) as Hnd. pose proof new_not_filed as Hne.
  rewrite Hperm in Hnd, Hne.
  destruct (insert_elements l1 l2 (concat (delete i bs)) e Hnd Hne) as (Hnd' & Hel & Hln).
  pose proof insert_size as Hsz. pose proof (tb_size _ _ _ _ R) as Hs0.
  rewrite Hperm in Hs0. rewrite Hhd in Hln, Hel.
  eapply (table_bs_update m t Mp bs R); [done|done| |done|done| | |done| |].
  - intros a Ha. apply Hfr.
    + intros Ha1. apply NoDup_app in Hnd as (_ & Hd & _). eapply Hd; [|done].
      apply elem_of_app. by left.
    + intros ->. apply Hne. apply elem_of_app. by right.
  - intros a Ha. destruct (decide (a = e)) as [->|Hae]; [eauto|].
    assert (a ∈ l1 ++ l2) as Ha'.
    { apply elem_of_app in Ha as [Ha|Ha]; apply elem_of_app; [by left|right].
      apply elem_of_cons in Ha as [->|Ha]; [done|]. destruct l2; [done|by right]. }
    destruct (tb_handle _ _ _ _ R a) as (ha & Ea & ? & ?); [by eapply table_bucket_elem|].
    exists ha. split_and!; try done. by eapply (tb_bucket _ _ _ _ R).
  - intros kh x. rewrite lookup_insert_Some, (tb_map _ _ _ _ R), Hel, Hperm. split.
    + intros [[<- <-]|(Hk & Hx & E)]; [by rewrite He; split; [left|]|].
      split; [|done]. right. split; [done|]. intros Hk'.
      apply (tb_map _ _ _ _ R) in Hk' as [_ Hk']. congruence.
    + intros [[->|[Hx Hk']] E].
      * left. rewrite He in E. simpl in E. split; congruence.
      * right. split; [|done]. intros <-. apply Hk'. apply (tb_map _ _ _ _ R).
        by rewrite Hperm.
  - rewrite Hsz, Hln. lia.
  - rewrite Hsz. destruct (Mp !! hkh h); lia.
Qed.

Lemma insert_set_size k :
  t_elems t + (match Mp !! hkh h with None => 1 | _ => 0 end) = k ->
  k = Z.of_nat (size (<[hkh h := e]> Mp)) /\ inu 32 k.
Proof.
  intros <-. rewrite insert_size, (tb_elems _ _ _ _ R). unfold inu.
  destruct (Mp !! hkh h); lia.
Qed.
End Insert.

(** the linking part of [insert], up to the growth check *)
Definition insert_links (e : addr) : M tstate (option addr) :=
  key ← on_mem (LRUHandle_key e);
  hd ← on_mem (load (Some e));
  ptr ← HandleTable_find_pointer key (h_hash hd);
  old ← read_slot ptr;
  nh ← (match old with
        | None => mret None
        | Some _ => o ← on_mem (load old); mret (h_next_hash o)
        end);
  _ ← on_mem (store (Some e) (set_next_hash nh));
  _ ← write_slot ptr (Some e);
  mret old.

Lemma wp_insert_links m t Mp e h :
  table_rep (handles m) t Mp ->
  handles m !! e = Some h -> h_next h <> Some e -> inu 32 (h_hash h) -> ~ in_table Mp e ->
  Z.of_nat (size Mp) < 2 ^ 31 ->
  wp (insert_links e)
    (fun old s' => old = Mp !! hkh h /\ exists H' l', s' = (set_handles H' m, mkTable (t_length t) (t_elems t) l') /\
       table_rep H' (mkTable (t_length t) (Z.of_nat (size (<[hkh h := e]> Mp))) l') (<[hkh h := e]> Mp) /\
       relinked (fun a => in_table Mp a \/ a = e) (handles m) H') (m, t).
Proof.
  intros [bs R] He Hn Hu Hnew Hsize. unfold insert_links.
  apply wp_bind, wp_on_mem, (wp_key _ h); [done..|]. cbn [fst snd].
  apply wp_bind, wp_on_mem, (wp_load _ h); [done..|]. cbn [fst snd].
  apply wp_bind. eapply wp_mono; [by apply (wp_find_pointer m t Mp bs R)|].
  intros ptr s' (-> & i & p & l1 & l2 & Hidx & Hp & Hb & Hc & -> & Hf & Hr & Hhd).
  change (hkey h, h_hash h) with (hkh h) in *.
  apply wp_bind. eapply wp_intro; [exact Hr|]. cbn beta.
  pose proof (new_not_filed m t Mp bs R e Hnew) as Hne.
  assert (e ∉ l1 ++ l2) as Hne' by (intros Hin; by eapply Hne, table_bucket_elem).
  assert (NoDup (l1 ++ l2)) as Hnd by (by eapply table_bucket_nodup).
  assert (exists q, chain (handles m) q (tail l2) /\
    forall Q, Q q (m, t) ->
    wp (match Mp !! hkh h with
        | None => mret None
        | Some _ => o ← on_mem (load (Mp !! hkh h)); mret (h_next_hash o)
        end) Q (m, t)) as (q & Hq & Hwq).
  { rewrite <-Hhd. destruct l2 as [|a l2]; simpl; [by exists None|].
    destruct (chain_is_Some _ _ _ a Hc) as [ha Ea]; [apply elem_of_app; right; by left|].
    exists (h_next_hash ha). split; [by eapply chain_suffix|].
    intros Q HQ. apply wp_bind, wp_on_mem, (wp_load _ ha); [done|]. by apply wp_ret. }
  apply wp_bind, Hwq. apply wp_bind, wp_on_mem, (wp_store _ h); [done|]. cbn [fst snd].
  set (m0 := set_handles (<[e := set_next_hash q h]> (handles m)) m).
  assert (forall p0 l0, e ∉ l0 -> chain (handles m) p0 l0 -> chain (handles m0) p0 l0) as Hfr0.
  { intros p0 l0 He0. apply chain_ext. intros a Ha. apply lookup_insert_ne. by intros ->. }
  apply wp_bind.
  eapply (wp_write_slot _ p (Some e) l1 l2 (e :: tail l2)); [done|by apply Hfr0|done| | |].
  { split; [done|]. eexists. unfold m0. simpl. rewrite lookup_insert_eq. split; [done|].
    apply Hfr0; [|done]. intros Hin. apply Hne', elem_of_app. right. destruct l2; [done|by right]. }
  { intros a Ha Ha2. apply elem_of_cons in Ha2 as [->|Ha2].
    - apply Hne', elem_of_app. by left.
    - apply NoDup_app in Hnd as (_ & Hd & _). apply (Hd a Ha). destruct l2; [done|by right]. }
  intros H' p' Hc' Hnh Hfr. apply wp_ret. split; [done|].
  assert (nh_eq (handles m) H') as Hnh'.
  { etrans; [|exact Hnh]. by apply nh_eq_store. }
  assert (forall a, a ∉ l1 -> a <> e -> H' !! a = handles m !! a) as Hfr'.
  { intros a Ha Hae. rewrite Hfr by done. unfold m0. simpl. by rewrite lookup_insert_ne. }
  exists H', (<[i := p']> (t_list t)). split; [done|]. split.
  - eexists. by apply (insert_table_bs m t Mp bs R e h).
  - split; [done|]. intros a Ha. apply Hfr'; [|naive_solver].
    intros Ha1. apply Ha. left. eapply in_table_concat; [done|].
    eapply table_bucket_elem; [exact Hb|]. apply elem_of_app. by left.
Qed.

Lemma insert_links_run e s :
  HandleTable_insert e s =
  (old ← insert_links e;
   match old with
   | None =>
      _ ← modify (fun s => (s.1, mkTable (t_length s.2) (u32 (t_elems s.2 + 1)) (t_list s.2)));
      s ← get;
      if t_length s.2 <? t_elems s.2 then
        ok ← HandleTable_resize;
        if (ok : bool) then mret old else mret None
      else mret old
   | Some _ => mret old
   end) s.
Proof.
  unfold HandleTable_insert, insert_links, mbind, M_bind.
  repeat (case_match; try done). all: by simplify_eq.
Qed.

Lemma relinked_in_insert Mp e kh H H' H'' :
  relinked (fun a => in_table Mp a \/ a = e) H H' ->
  relinked (in_table (<[kh := e]> Mp)) H' H'' ->
  relinked (fun a => in_table Mp a \/ a = e) H H''.
Proof.
  intros R1 R2. eapply relinked_trans; [done|]. eapply relinked_mono; [|done].
  intros a [kh' Ha]. apply lookup_insert_Some in Ha as [[_ ->]|[_ ?]]; [by right|].
  left. by exists kh'.
Qed.

Lemma wp_insert m t Mp e h :
  table_rep (handles m) t Mp ->
  handles m !! e = Some h -> h_next h <> Some e -> inu 32 (h_hash h) -> ~ in_table Mp e ->
  Z.of_nat (size Mp) < 2 ^ 31 ->
  wp (HandleTable_insert e)
    (fun old s' => old = Mp !! hkh h /\ exists H' t', s' = (set_handles H' m, t') /\
       table_rep H' t' (<[hkh h := e]> Mp) /\
       relinked (fun a => in_table Mp a \/ a = e) (handles m) H') (m, t).
Proof.
  intros R He Hn Hu Hnew Hsize. unfold wp. rewrite insert_links_run.
  match goal with |- match ?c _ with _ => _ end => change (wp c (fun old s' =>
    old = Mp !! hkh h /\ exists H' t', s' = (set_handles H' m, t') /\
       table_rep H' t' (<[hkh h := e]> Mp) /\
       relinked (fun a => in_table Mp a \/ a = e) (handles m) H') (m, t)) end.
  apply wp_bind. eapply wp_mono; [by apply (wp_insert_links m t Mp e h)|].
  intros old s' (-> & H' & l' & -> & R' & Hrl).
  destruct R as [bs R].
  destruct (insert_set_size m t Mp bs R e h Hsize _ eq_refl) as [Hk Hin].
  destruct (Mp !! hkh h) as [a|] eqn:Ek.
  { apply wp_ret. split; [done|]. eexists _, _. split; [done|].
    rewrite Z.add_0_r in Hk. by rewrite <-Hk in R'. }
  apply wp_bind, wp_modify. cbn [fst snd t_length t_elems t_list].
  rewrite (wrapu_id 32 _ Hin), Hk.
  apply wp_bind, wp_get. cbn [fst snd t_length t_elems t_list].
  destruct (_ <? _); [|apply wp_ret; split; [done|]; by eexists _, _].
  apply wp_bind. eapply wp_mono; [by apply (wp_resize (set_handles H' m))|].
  intros ok s'' (-> & H'' & t'' & -> & R'' & Hrl'). apply wp_ret. split; [done|].
  exists H'', t''. split_and!; try done. by eapply relinked_in_insert.
Qed.

(** ** The contract between the table and the cache *)

Class TableLaws (rep : gmap addr LRUHandle -> HandleTable -> gmap (CacheKey * Z) addr -> Prop) := {
  table_new m : exists t, HandleTable_new m = Ok (t, m) /\ rep (handles m) t ∅;
  table_handle H t Mp kh a : rep H t Mp -> Mp !! kh = Some a ->
    exists h, H !! a = Some h /\ hkh h = kh /\ h_next h <> Some a;
  table_frame H H' t Mp : rep H t Mp ->
    (forall kh a, Mp !! kh = Some a -> tview a <$> H' !! a = tview a <$> H !! a) ->
    rep H' t Mp;
  table_lookup m t Mp key hash : rep (handles m) t Mp -> inu 32 hash ->
    HandleTable_lookup key hash (m, t) = Ok (Mp !! (key, hash), (m, t));
  table_remove m t Mp key hash : rep (handles m) t Mp -> inu 32 hash ->
    wp (HandleTable_remove key hash)
      (fun r s' => r = Mp !! (key, hash) /\ exists H' t', s' = (set_handles H' m, t') /\
         rep H' t' (delete (key, hash) Mp) /\ relinked (in_table Mp) (handles m) H') (m, t);
  table_insert m t Mp e h : rep (handles m) t Mp ->
    handles m !! e = Some h -> h_next h <> Some e -> inu 32 (h_hash h) -> ~ in_table Mp e ->
    Z.of_nat (size Mp) < 2 ^ 31 ->
    wp (HandleTable_insert e)
      (fun old s' => old = Mp !! hkh h /\ exists H' t', s' = (set_handles H' m, t') /\
         rep H' t' (<[hkh h := e]> Mp) /\
         relinked (fun a => in_table Mp a \/ a = e) (handles m) H') (m, t)
}.

#[global] Instance handle_table_laws : TableLaws table_rep.
Proof.
  split.
  - intros m. eexists. apply new_table_run.
  - intros H t Mp kh a [bs R] Ha. apply (tb_map _ _ _ _ R) in Ha as [Hin Hk].
    destruct (tb_handle _ _ _ _ R a Hin) as (h & Eh & Hn & _). exists h.
    rewrite Eh in Hk. simpl in Hk. split_and!; [done|congruence|done].
  - apply table_rep_frame.
  - intros m t Mp key hash [bs R]. by apply (lookup_run m t Mp bs).
  - apply wp_remove.
  - apply wp_insert.
Qed.
