(* ===== verification/LRUCache.v ===== *)
(** * One shard of the cache: [LRUCache]
      (src/src/modules/lru_cache/lru_cache.hh and lru_cache.cc)

    The operations of the class on the heap of handles. The sentinel [_lru] is
    a handle of that heap at the address [c_lru], so that [&_lru] can be
    compared with the [next] field of the others and the shards of a
    [ShardedLRUCache] share one heap. Every method runs under the shard's
    mutex; the [free] calls after the critical section touch handles that no
    table, list or client refers to any more, so each method is one atomic
    step of the model. *)

From S2P Require Import Prelude CacheKey HandleTable.

Record LRUCache := mkCache {
  c_lru : addr;
  c_capacity : Z;
  c_usage : Z;
  c_last_id : Z;
  c_table : HandleTable;
  c_lookup_count : Z;
  c_hit_count : Z
}.

Definition set_c_capacity (n : Z) (c : LRUCache) : LRUCache :=
  mkCache (c_lru c) n (c_usage c) (c_last_id c) (c_table c) (c_lookup_count c) (c_hit_count c).
Definition set_c_usage (n : Z) (c : LRUCache) : LRUCache :=
  mkCache (c_lru c) (c_capacity c) n (c_last_id c) (c_table c) (c_lookup_count c) (c_hit_count c).
Definition set_c_table (t : HandleTable) (c : LRUCache) : LRUCache :=
  mkCache (c_lru c) (c_capacity c) (c_usage c) (c_last_id c) t (c_lookup_count c) (c_hit_count c).
Definition set_c_lookups (n : Z) (c : LRUCache) : LRUCache :=
  mkCache (c_lru c) (c_capacity c) (c_usage c) (c_last_id c) (c_table c) n (c_hit_count c).
Definition set_c_hits (n : Z) (c : LRUCache) : LRUCache :=
  mkCache (c_lru c) (c_capacity c) (c_usage c) (c_last_id c) (c_table c) (c_lookup_count c) n.

Definition cstate := (mem * LRUCache)%type.

Definition on_table {A} (op : M tstate A) : M cstate A := fun s =>
  match op (s.1, c_table s.2) with
  | Ok (a, (m, t)) => Ok (a, (m, set_c_table t s.2))
  | Err e => Err e
  end.

Definition on_cache (f : LRUCache -> LRUCache) : M cstate unit := modify (fun s => (s.1, f s.2)).

(** ** The intrusive list *)

Definition LRUCache_unref (e : addr) : M mem bool :=
  h ← load (Some e);
  _ ← check (0 <? h_refs h);
  _ ← store (Some e) (fun h => set_refs (u32 (h_refs h - 1)) h);
  h ← load (Some e);
  mret (h_refs h =? 0).

Definition LRUCache_lru_remove (e : addr) : M mem unit :=
  h ← load (Some e);
  _ ← store (h_next h) (set_prev (h_prev h));
  h ← load (Some e);
  _ ← store (h_prev h) (set_next (h_next h));
  _ ← store (Some e) (set_next None);
  store (Some e) (set_prev None).

Definition LRUCache_lru_append (list e : addr) : M mem unit :=
  _ ← store (Some e) (set_next (Some list));
  l ← load (Some list);
  _ ← store (Some e) (set_prev (h_prev l));
  h ← load (Some e);
  _ ← store (h_prev h) (set_next (Some e));
  h ← load (Some e);
  store (h_next h) (set_prev (Some e)).

(** ** Allocation and release of handles *)

(** [malloc] returns an address that is not in use *)
Definition malloc (h : LRUHandle) : M mem addr := fun m =>
  let a := fresh (dom (handles m)) in
  Ok (a, set_handles (<[a := h]> (handles m)) m).

(** [for (auto entry : last_ref_list) entry->free();] *)
Fixpoint free_all (l : list addr) : M mem unit :=
  match l with
  | [] => mret tt
  | a :: l => _ ← LRUHandle_free a; free_all l
  end.

(** [LRUCache()]: the sentinel is its own list; [self] is where the object lives *)
Definition LRUCache_new (self : addr) : M mem LRUCache :=
  t ← HandleTable_new;
  _ ← modify (fun m => set_handles (<[self :=
        mkHandle 0 0 None (Some self) (Some self) 0 0 false 0 0 NORMAL []]> (handles m)) m);
  mret (mkCache self 0 0 0 t 0 0).

(** ** Eviction *)

(** [_usage -= e->charge] *)
Definition sub_charge (e : addr) : M cstate unit :=
  h ← on_mem (load (Some e));
  on_cache (fun c => set_c_usage (u64 (c_usage c - h_charge h)) c).

Definition LRUCache_evict_one_entry (e : addr) : M cstate unit :=
  h ← on_mem (load (Some e));
  _ ← check (h_in_cache h);
  _ ← check (h_refs h =? 1);
  _ ← on_mem (LRUCache_lru_remove e);
  k ← on_mem (LRUHandle_key e);
  h ← on_mem (load (Some e));
  _ ← on_table (HandleTable_remove k (h_hash h));
  _ ← on_mem (store (Some e) (set_in_cache false));
  _ ← on_mem (LRUCache_unref e);
  sub_charge e.

(** the loop over the normal entries, [cur] skipping the durable ones *)
Fixpoint evict_normal (fuel : nat) (charge : Z) (cur : addr) (deleted : list addr)
    : M cstate (list addr) :=
  match fuel with
  | O => throw EFuel
  | S fuel =>
      c ← gets snd;
      if negb (c_capacity c <? u64 (c_usage c + charge)) then mret deleted else
      h ← on_mem (load (Some cur));
      if bool_decide (h_next h = Some (c_lru c)) then mret deleted else
      match h_next h with
      | None => throw ENull
      | Some old =>
          o ← on_mem (load (Some old));
          if bool_decide (h_priority o = DURABLE) then evict_normal fuel charge old deleted
          else
            _ ← LRUCache_evict_one_entry old;
            evict_normal fuel charge cur (deleted ++ [old])
      end
  end.

(** the loop over what is left, from the head of the list *)
Fixpoint evict_durable (fuel : nat) (charge : Z) (deleted : list addr) : M cstate (list addr) :=
  match fuel with
  | O => throw EFuel
  | S fuel =>
      c ← gets snd;
      if negb (c_capacity c <? u64 (c_usage c + charge)) then mret deleted else
      h ← on_mem (load (Some (c_lru c)));
      if bool_decide (h_next h = Some (c_lru c)) then mret deleted else
      match h_next h with
      | None => throw ENull
      | Some old =>
          o ← on_mem (load (Some old));
          _ ← check (bool_decide (h_priority o = DURABLE));
          _ ← LRUCache_evict_one_entry old;
          evict_durable fuel charge (deleted ++ [old])
      end
  end.

(** every round moves along the list or shortens it *)
Definition list_fuel (m : mem) : nat := S (size (handles m)).

Definition LRUCache_evict_from_lru (charge : Z) : M cstate (list addr) :=
  s ← get;
  deleted ← evict_normal (list_fuel s.1) charge (c_lru s.2) [];
  evict_durable (list_fuel s.1) charge deleted.

(** ** The public methods *)

Definition LRUCache_set_capacity (capacity : Z) : M cstate unit :=
  _ ← on_cache (set_c_capacity capacity);
  last_ref_list ← LRUCache_evict_from_lru 0;
  on_mem (free_all last_ref_list).

Definition LRUCache_get_lookup_count : M cstate Z := gets (fun s => c_lookup_count s.2).
Definition LRUCache_get_hit_count : M cstate Z := gets (fun s => c_hit_count s.2).
Definition LRUCache_get_usage : M cstate Z := gets (fun s => c_usage s.2).
Definition LRUCache_get_capacity : M cstate Z := gets (fun s => c_capacity s.2).

Definition LRUCache_lookup (key : CacheKey) (hash : Z) : M cstate (option addr) :=
  _ ← on_cache (fun c => set_c_lookups (u64 (c_lookup_count c + 1)) c);
  p ← on_table (HandleTable_lookup key hash);
  match p with
  | None => mret None
  | Some e =>
      h ← on_mem (load (Some e));
      _ ← check (h_in_cache h);
      _ ← (if h_refs h =? 1 then on_mem (LRUCache_lru_remove e) else mret tt);
      _ ← on_mem (store (Some e) (fun h => set_refs (u32 (h_refs h + 1)) h));
      _ ← on_cache (fun c => set_c_hits (u64 (c_hit_count c + 1)) c);
      mret (Some e)
  end.

Definition LRUCache_release (handle : option addr) : M cstate unit :=
  match handle with
  | None => mret tt
  | Some e =>
      last_ref ← on_mem (LRUCache_unref e);
      last_ref ← (if (last_ref : bool) then
          _ ← sub_charge e; mret true
        else
          h ← on_mem (load (Some e));
          if h_in_cache h && (h_refs h =? 1) then
            c ← gets snd;
            if c_capacity c <? c_usage c then
              k ← on_mem (LRUHandle_key e);
              h ← on_mem (load (Some e));
              _ ← on_table (HandleTable_remove k (h_hash h));
              _ ← on_mem (store (Some e) (set_in_cache false));
              _ ← on_mem (LRUCache_unref e);
              _ ← sub_charge e;
              mret true
            else
              _ ← on_mem (LRUCache_lru_append (c_lru c) e);
              mret false
          else mret false);
      if (last_ref : bool) then on_mem (LRUHandle_free e) else mret tt
  end.

Definition LRUCache_insert (key : CacheKey) (hash value charge deleter : Z)
    (priority : CachePriority) : M cstate addr :=
  e ← on_mem (malloc (mkHandle value deleter None None None charge (CacheKey_size key)
                        true 2 hash priority key));
  last_ref_list ← LRUCache_evict_from_lru charge;
  old ← on_table (HandleTable_insert e);
  _ ← on_cache (fun c => set_c_usage (u64 (c_usage c + charge)) c);
  last_ref_list ← (match old with
    | None => mret last_ref_list
    | Some o =>
        _ ← on_mem (store (Some o) (set_in_cache false));
        last ← on_mem (LRUCache_unref o);
        if (last : bool) then
          _ ← sub_charge o;
          _ ← on_mem (LRUCache_lru_remove o);
          mret (last_ref_list ++ [o])
        else mret last_ref_list
    end);
  _ ← on_mem (free_all last_ref_list);
  mret e.

Definition LRUCache_erase (key : CacheKey) (hash : Z) : M cstate unit :=
  p ← on_table (HandleTable_remove key hash);
  match p with
  | None => mret tt
  | Some e =>
      last_ref ← on_mem (LRUCache_unref e);
      _ ← (if (last_ref : bool) then
             _ ← sub_charge e;
             h ← on_mem (load (Some e));
             if h_in_cache h then on_mem (LRUCache_lru_remove e) else mret tt
           else mret tt);
      _ ← on_mem (store (Some e) (set_in_cache false));
      if (last_ref : bool) then on_mem (LRUHandle_free e) else mret tt
  end.

Fixpoint prune_loop (fuel : nat) (last_ref_list : list addr) : M cstate (list addr) :=
  match fuel with
  | O => throw EFuel
  | S fuel =>
      c ← gets snd;
      h ← on_mem (load (Some (c_lru c)));
      if bool_decide (h_next h = Some (c_lru c)) then mret last_ref_list else
      match h_next h with
      | None => throw ENull
      | Some old =>
          o ← on_mem (load (Some old));
          _ ← check (h_in_cache o);
          _ ← check (h_refs o =? 1);
          _ ← on_mem (LRUCache_lru_remove old);
          k ← on_mem (LRUHandle_key old);
          o ← on_mem (load (Some old));
          _ ← on_table (HandleTable_remove k (h_hash o));
          _ ← on_mem (store (Some old) (set_in_cache false));
          _ ← on_mem (LRUCache_unref old);
          _ ← sub_charge old;
          prune_loop fuel (last_ref_list ++ [old])
      end
  end.

Definition LRUCache_prune : M cstate Z :=
  s ← get;
  last_ref_list ← prune_loop (list_fuel s.1) [];
  _ ← on_mem (free_all last_ref_list);
  mret (i32 (Z.of_nat (length last_ref_list))).

(** [~LRUCache()]: the entries that clients still hold are not touched *)
Definition LRUCache_delete : M cstate unit := _ ← LRUCache_prune; mret tt.
