(* ===== verification/LRUList.v ===== *)
(** * The intrusive list of [LRUCache] and the heap invariant of a shard

    [links] describes a segment of a doubly linked list; [shard] is the
    invariant that ties the heap to a shard's table, entries and list. Each
    primitive of LRUCache.v gets one lemma that says what it does to the
    [shard] predicate; the methods are verified from these. *)

From S2P Require Import Prelude CacheKey HandleTable HandleTableRep LRUCache.

(** membership goals; the quantified hypotheses only slow the search down *)
Ltac mem_solver :=
  repeat match goal with
  | H : forall z : addr, _ |- _ => clear H
  | H : NoDup _ |- _ => clear H
  end;
  repeat match goal with
  | H : context [_ ∈ _ ++ _] |- _ => rewrite elem_of_app in H
  | H : context [_ ∈ _ :: _] |- _ => rewrite elem_of_cons in H
  | H : context [_ ∈ []] |- _ => rewrite elem_of_nil in H
  end;
  repeat first [rewrite elem_of_app | rewrite elem_of_cons | rewrite elem_of_nil];
  intuition (subst; congruence || tauto).

(** ** Segments of a doubly linked list *)

Section Links.
Implicit Types nx pv : addr -> option addr.

(** from [x], through [L], to [y]: [nx] and [pv] agree on every step *)
Fixpoint links nx pv (x : addr) (L : list addr) (y : addr) : Prop :=
  match L with
  | [] => nx x = Some y /\ pv y = Some x
  | a :: L => nx x = Some a /\ pv a = Some x /\ links nx pv a L y
  end.

Definition lastd (x : addr) (L : list addr) : addr := default x (last L).
Definition headd (L : list addr) (y : addr) : addr := default y (head L).

Lemma lastd_cons x a L : lastd x (a :: L) = lastd a L.
Proof. unfold lastd. rewrite last_cons. by destruct (last L). Qed.

Lemma lastd_elem x L : lastd x L ∈ x :: L.
Proof.
  unfold lastd. destruct (last L) as [a|] eqn:E; simpl; [|by left].
  right. apply last_Some in E as [L' ->]. set_solver.
Qed.

Lemma headd_elem L y : headd L y ∈ L ++ [y].
Proof. destruct L; set_solver. Qed.

Lemma links_app nx pv x L1 e L2 y :
  links nx pv x (L1 ++ e :: L2) y <-> links nx pv x L1 e /\ links nx pv e L2 y.
Proof.
  revert x. induction L1 as [|a L1 IH]; intros x; simpl; [tauto|].
  rewrite IH. tauto.
Qed.

Lemma links_ends nx pv x L y :
  links nx pv x L y -> nx x = Some (headd L y) /\ pv y = Some (lastd x L).
Proof.
  revert x. induction L as [|a L IH]; intros x; simpl; [done|].
  intros (Hn & Hp & Hl). split; [done|]. rewrite lastd_cons. by apply IH.
Qed.

Lemma links_back nx pv x L y :
  links nx pv x L y -> nx (lastd x L) = Some y /\ pv (headd L y) = Some x.
Proof.
  revert x. induction L as [|a L IH]; intros x; simpl; [done|].
  intros (Hn & Hp & Hl). split; [|done]. rewrite lastd_cons. by apply IH.
Qed.

(** the fields a segment depends on *)
Lemma links_ext nx pv nx' pv' x L y :
  (forall z, z ∈ x :: L -> nx' z = nx z) -> (forall z, z ∈ L ++ [y] -> pv' z = pv z) ->
  links nx pv x L y -> links nx' pv' x L y.
Proof.
  revert x. induction L as [|a L IH]; intros x Hn Hp; simpl.
  - intros [? ?]. rewrite Hn, Hp by mem_solver. done.
  - intros (? & ? & ?). rewrite Hn, Hp by mem_solver. split_and!; [done..|].
    apply IH; [intros z Hz; apply Hn; by right|intros z Hz; apply Hp; by right|done].
Qed.

(** redirecting the end of a segment *)
Lemma links_retarget nx pv nx' pv' x L y z :
  NoDup (x :: L) -> z ∉ L -> y ∉ L ->
  (forall a, a ∈ x :: L -> nx' a = (if bool_decide (a = lastd x L) then Some z else nx a)) ->
  (forall a, a ∈ L -> pv' a = pv a) -> pv' z = Some (lastd x L) ->
  links nx pv x L y -> links nx' pv' x L z.
Proof.
  revert x. induction L as [|b L IH]; intros x Hnd Hz Hy Hn Hp Hpz; simpl.
  - intros _. split; [|done]. rewrite Hn by mem_solver. by rewrite bool_decide_true.
  - intros (? & ? & Hl). rewrite lastd_cons in *.
    apply NoDup_cons in Hnd as [Hx Hnd].
    assert (x <> lastd b L) as Hlast by (intros ->; by pose proof (lastd_elem b L)).
    rewrite Hn by mem_solver. rewrite bool_decide_false by done. rewrite Hp by mem_solver.
    split_and!; [done..|]. apply IH; try done; [mem_solver..| |]; intros a Ha.
    + apply Hn. by right.
    + apply Hp. by right.
Qed.

Lemma links_remove nx pv nx' pv' x L1 e L2 y :
  NoDup (x :: L1 ++ e :: L2) -> y ∉ L1 ++ e :: L2 ->
  (forall z, z <> e -> nx' z = (if bool_decide (z = lastd x L1) then Some (headd L2 y) else nx z)) ->
  (forall z, z <> e -> pv' z = (if bool_decide (z = headd L2 y) then Some (lastd x L1) else pv z)) ->
  links nx pv x (L1 ++ e :: L2) y -> links nx' pv' x (L1 ++ L2) y.
Proof.
  intros Hnd Hy Hn Hp [Hl1 Hl2]%links_app.
  assert (NoDup (x :: L1) /\ (e ∉ x :: L1) /\ NoDup (e :: L2) /\
    (forall z, z ∈ x :: L1 -> z ∉ L2)) as (Hnd1 & He & Hnd2 & Hd).
  { rewrite (app_comm_cons L1 _ x) in Hnd. apply NoDup_app in Hnd as (? & Hd & ?).
    split_and!; try done; [intros He; apply (Hd e He); by left|].
    intros z Hz Hz2. apply (Hd z Hz). by right. }
  assert (y <> e) as Hye by mem_solver.
  pose proof (lastd_elem x L1) as Hlast.
  destruct L2 as [|b L2]; simpl in *.
  - rewrite app_nil_r. eapply links_retarget; [done| | | | | |exact Hl1].
    + mem_solver.
    + mem_solver.
    + intros a Ha. rewrite Hn by mem_solver. done.
    + intros a Ha. rewrite Hp by mem_solver. rewrite bool_decide_false by mem_solver. done.
    + rewrite Hp by done. by rewrite bool_decide_true.
  - apply NoDup_cons in Hnd2 as [He2 [Hb2 _]%NoDup_cons].
    destruct Hl2 as (_ & _ & Hl2). apply links_app. split.
    + eapply links_retarget; [done| | | | | |exact Hl1].
      * intros Hb. apply (Hd b); [by right|by left].
      * mem_solver.
      * intros a Ha. rewrite Hn by mem_solver. done.
      * intros a Ha. rewrite Hp by mem_solver. rewrite bool_decide_false; [done|].
        intros ->. apply (Hd b); [by right|by left].
      * rewrite Hp by mem_solver. by rewrite bool_decide_true.
    + eapply links_ext; [| |exact Hl2]; intros z Hz.
      * rewrite Hn by mem_solver. rewrite bool_decide_false; [done|].
        intros ->. by apply (Hd _ Hlast).
      * rewrite Hp by mem_solver. change (headd (b :: L2) y) with b.
        rewrite bool_decide_false by mem_solver. done.
Qed.

Lemma links_append nx pv nx' pv' x L e :
  NoDup (x :: L) -> e ∉ x :: L ->
  nx' e = Some x -> pv' e = Some (lastd x L) ->
  (forall z, z <> e -> nx' z = (if bool_decide (z = lastd x L) then Some e else nx z)) ->
  (forall z, z <> e -> pv' z = (if bool_decide (z = x) then Some e else pv z)) ->
  links nx pv x L x -> links nx' pv' x (L ++ [e]) x.
Proof.
  intros Hnd He Hne Hpe Hn Hp Hl. apply NoDup_cons in Hnd as Hnd'. destruct Hnd' as [Hx _].
  apply links_app. split.
  - eapply links_retarget; [done| | | | |done|exact Hl].
    + mem_solver.
    + done.
    + intros a Ha. rewrite Hn by mem_solver. done.
    + intros a Ha. rewrite Hp, bool_decide_false by mem_solver. done.
  - simpl. split; [done|]. rewrite Hp by mem_solver. by rewrite bool_decide_true.
Qed.
End Links.

(** ** What the cache knows about an entry *)

Record entry := mkEntry {
  e_value : Z;
  e_deleter : Z;
  e_charge : Z;
  e_key : CacheKey;
  e_hash : Z;
  e_priority : CachePriority;
  e_in_cache : bool;
  e_refs : Z
}.

Definition view (h : LRUHandle) : entry :=
  mkEntry (h_value h) (h_deleter h) (h_charge h) (hkey h) (h_hash h) (h_priority h)
    (h_in_cache h) (h_refs h).

Definition ekh (en : entry) : CacheKey * Z := (e_key en, e_hash en).
Definition entry_deletion (en : entry) : deletion :=
  mkDeletion (e_deleter en) (e_key en) (e_value en).

Definition with_refs (r : Z) (en : entry) : entry :=
  mkEntry (e_value en) (e_deleter en) (e_charge en) (e_key en) (e_hash en) (e_priority en)
    (e_in_cache en) r.
Definition with_in_cache (b : bool) (en : entry) : entry :=
  mkEntry (e_value en) (e_deleter en) (e_charge en) (e_key en) (e_hash en) (e_priority en)
    b (e_refs en).

Definition nx (H : gmap addr LRUHandle) (a : addr) : option addr := H !! a ≫= h_next.
Definition pv (H : gmap addr LRUHandle) (a : addr) : option addr := H !! a ≫= h_prev.

(** what the list operations leave alone *)
Definition rest (h : LRUHandle) : entry * option addr := (view h, h_next_hash h).

Lemma nx_set_prev H a p b : nx (alter (set_prev p) a H) b = nx H b.
Proof. unfold nx. rewrite lookup_alter. case_decide; [subst|done]. by destruct (H !! _). Qed.

Lemma pv_set_next H a p b : pv (alter (set_next p) a H) b = pv H b.
Proof. unfold pv. rewrite lookup_alter. case_decide; [subst|done]. by destruct (H !! _). Qed.

Lemma nx_set_next H a p b :
  is_Some (H !! a) -> nx (alter (set_next p) a H) b = if bool_decide (b = a) then p else nx H b.
Proof.
  intros [h Ha]. unfold nx. rewrite lookup_alter.
  case_decide; case_bool_decide; subst; try done. by rewrite Ha.
Qed.

Lemma pv_set_prev H a p b :
  is_Some (H !! a) -> pv (alter (set_prev p) a H) b = if bool_decide (b = a) then p else pv H b.
Proof.
  intros [h Ha]. unfold pv. rewrite lookup_alter.
  case_decide; case_bool_decide; subst; try done. by rewrite Ha.
Qed.

Lemma rest_alter f (H : gmap addr LRUHandle) a b :
  (forall h, rest (f h) = rest h) -> rest <$> alter f a H !! b = rest <$> H !! b.
Proof.
  intros Hf. rewrite lookup_alter. case_decide; [subst|done].
  destruct (H !! _); simpl; [|done]. by rewrite Hf.
Qed.

Lemma alter_is_Some (f : LRUHandle -> LRUHandle) (H : gmap addr LRUHandle) a b :
  is_Some (alter f a H !! b) <-> is_Some (H !! b).
Proof. rewrite lookup_alter. case_decide; [subst|done]. by rewrite fmap_is_Some. Qed.

Lemma nx_in_heap H a b : nx H a = Some b -> is_Some (H !! a).
Proof. unfold nx. destruct (H !! a); [by eexists|done]. Qed.
Lemma pv_in_heap H a b : pv H a = Some b -> is_Some (H !! a).
Proof. unfold pv. destruct (H !! a); [by eexists|done]. Qed.

Lemma wp_alter a f (Q : unit -> mem -> Prop) m :
  is_Some (handles m !! a) -> Q tt (set_handles (alter f a (handles m)) m) ->
  wp (store (Some a) f) Q m.
Proof.
  intros [h Ha] HQ. apply (wp_store _ h); [done|].
  replace (<[a := f h]> (handles m)) with (alter f a (handles m)); [done|].
  apply map_eq. intros b. rewrite lookup_alter, lookup_insert.
  case_decide; subst; [by rewrite Ha|done].
Qed.

Lemma wp_load_links a n p (Q : LRUHandle -> mem -> Prop) m :
  nx (handles m) a = Some n -> pv (handles m) a = Some p ->
  (forall h, h_next h = Some n -> h_prev h = Some p -> Q h m) -> wp (load (Some a)) Q m.
Proof.
  unfold nx, pv. destruct (handles m !! a) as [h|] eqn:E; [|done].
  intros Hn Hp HQ. apply (wp_load _ h); [done|]. by apply HQ.
Qed.

(** what [_lru_remove] does to the fields, for a handle between [p] and [q] *)
Lemma wp_lru_remove_heap m e p q :
  let H := handles m in
  nx H e = Some q -> pv H e = Some p -> p <> e -> q <> e ->
  is_Some (H !! p) -> is_Some (H !! q) ->
  wp (LRUCache_lru_remove e) (fun _ m' => exists H', m' = set_handles H' m /\
    nx H' e = None /\ pv H' e = None /\
    (forall z, z <> e -> nx H' z = if bool_decide (z = p) then Some q else nx H z) /\
    (forall z, z <> e -> pv H' z = if bool_decide (z = q) then Some p else pv H z) /\
    (forall z, rest <$> H' !! z = rest <$> H !! z) /\
    (forall z, z <> e -> z <> p -> z <> q -> H' !! z = H !! z)) m.
Proof.
  intros H Hn Hp Hpe Hqe Hph Hqh. apply nx_in_heap in Hn as He.
  unfold LRUCache_lru_remove. apply wp_bind.
  apply (wp_load_links e q p); [done..|]. intros h -> ->.
  apply wp_bind, wp_alter; [done|]. fold H.
  apply wp_bind, (wp_load_links e q p); simpl.
  { by rewrite nx_set_prev. }
  { rewrite pv_set_prev by done. by rewrite bool_decide_false. }
  intros h' -> ->. apply wp_bind, wp_alter; simpl; [by apply alter_is_Some|].
  apply wp_bind, wp_alter; simpl; [by rewrite !alter_is_Some|].
  apply wp_alter; simpl; [by rewrite !alter_is_Some|]. simpl.
  eexists. split; [done|]. split_and!; try intros z Hz.
  - rewrite nx_set_prev, nx_set_next by (by rewrite !alter_is_Some). by rewrite bool_decide_true.
  - rewrite pv_set_prev by (by rewrite !alter_is_Some). by rewrite bool_decide_true.
  - rewrite nx_set_prev, nx_set_next by (by rewrite !alter_is_Some).
    rewrite bool_decide_false, nx_set_next by (done || by rewrite !alter_is_Some).
    by rewrite nx_set_prev.
  - rewrite pv_set_prev by (by rewrite !alter_is_Some).
    rewrite bool_decide_false, !pv_set_next by done. by rewrite pv_set_prev.
  - intros z. by rewrite !rest_alter.
  - intros Hzp Hzq. by rewrite !lookup_alter_ne.
Qed.

(** what [_lru_append] does, for a list head whose last element is [p] *)
Lemma wp_lru_append_heap m self e p :
  let H := handles m in
  pv H self = Some p -> e <> self -> p <> e -> is_Some (H !! p) -> is_Some (H !! e) ->
  wp (LRUCache_lru_append self e) (fun _ m' => exists H', m' = set_handles H' m /\
    nx H' e = Some self /\ pv H' e = Some p /\
    (forall z, z <> e -> nx H' z = if bool_decide (z = p) then Some e else nx H z) /\
    (forall z, z <> e -> pv H' z = if bool_decide (z = self) then Some e else pv H z) /\
    (forall z, rest <$> H' !! z = rest <$> H !! z) /\
    (forall z, z <> e -> z <> p -> z <> self -> H' !! z = H !! z)) m.
Proof.
  intros H Hp Hes Hpe Hph He. apply pv_in_heap in Hp as Hs.
  unfold LRUCache_lru_append. apply wp_bind, wp_alter; [done|]. fold H.
  destruct Hs as [hs Hs]. assert (h_prev hs = Some p) as Hps.
  { unfold pv in Hp. by rewrite Hs in Hp. }
  apply wp_bind, (wp_load _ hs); simpl; [by rewrite lookup_alter_ne|]. rewrite Hps.
  apply wp_bind, wp_alter; simpl; [by rewrite alter_is_Some|].
  apply wp_bind, (wp_load_links e self p); simpl.
  { rewrite nx_set_prev, nx_set_next by done. by rewrite bool_decide_true. }
  { rewrite pv_set_prev by (by rewrite alter_is_Some). by rewrite bool_decide_true. }
  intros h _ ->. apply wp_bind, wp_alter; simpl; [by rewrite !alter_is_Some|].
  apply wp_bind, (wp_load_links e self p); simpl.
  { rewrite nx_set_next by (by rewrite !alter_is_Some). rewrite bool_decide_false by done.
    rewrite nx_set_prev, nx_set_next by done. by rewrite bool_decide_true. }
  { rewrite pv_set_next, pv_set_prev by (by rewrite alter_is_Some). by rewrite bool_decide_true. }
  intros h' -> _. apply wp_alter; simpl; [rewrite !alter_is_Some; by eexists|].
  eexists. split; [done|]. split_and!; try intros z Hz.
  - rewrite nx_set_prev, nx_set_next by (by rewrite !alter_is_Some).
    rewrite bool_decide_false by done. rewrite nx_set_prev, nx_set_next by done.
    by rewrite bool_decide_true.
  - rewrite pv_set_prev by (rewrite !alter_is_Some; by eexists).
    rewrite bool_decide_false by done.
    rewrite pv_set_next, pv_set_prev by (by rewrite !alter_is_Some). by rewrite bool_decide_true.
  - rewrite nx_set_prev, nx_set_next by (by rewrite !alter_is_Some). case_bool_decide; [done|].
    rewrite nx_set_prev, nx_set_next by done. by rewrite bool_decide_false.
  - rewrite pv_set_prev by (rewrite !alter_is_Some; by eexists). case_bool_decide; [done|].
    rewrite pv_set_next, pv_set_prev by (by rewrite !alter_is_Some).
    rewrite bool_decide_false by done. apply pv_set_next.
  - intros z. by rewrite !rest_alter.
  - intros Hzp Hzq. by rewrite !lookup_alter_ne.
Qed.

(** ** Steps of the memory

    [mem_step P d m m']: only handles in [P] change, and the deleters called
    on the way are [d]. *)

Definition mem_step (P : addr -> Prop) (d : list deletion) (m m' : mem) : Prop :=
  key_objs m' = key_objs m /\ deletions m' = deletions m ++ d /\
  forall a, ~ P a -> handles m' !! a = handles m !! a.

Lemma mem_step_refl P m : mem_step P [] m m.
Proof. unfold mem_step. by rewrite app_nil_r. Qed.

Lemma mem_step_trans P d1 d2 m1 m2 m3 :
  mem_step P d1 m1 m2 -> mem_step P d2 m2 m3 -> mem_step P (d1 ++ d2) m1 m3.
Proof.
  intros (E1 & D1 & F1) (E2 & D2 & F2). split_and!; [congruence| |].
  - by rewrite D2, D1, app_assoc.
  - intros a Ha. by rewrite F2, F1.
Qed.

Lemma mem_step_trans_nil P d m1 m2 m3 :
  mem_step P [] m1 m2 -> mem_step P d m2 m3 -> mem_step P d m1 m3.
Proof. apply (mem_step_trans P []). Qed.

Lemma mem_step_mono (P P' : addr -> Prop) d m m' :
  (forall a, P a -> P' a) -> mem_step P d m m' -> mem_step P' d m m'.
Proof. intros HP (E & D & F). split_and!; [done..|]. intros a Ha. apply F. naive_solver. Qed.

Lemma mem_step_handles (P : addr -> Prop) H' m :
  (forall a, ~ P a -> H' !! a = handles m !! a) -> mem_step P [] m (set_handles H' m).
Proof. intros HF. split_and!; [done|by rewrite app_nil_r|done]. Qed.

(** chain the steps in the context *)
Ltac mem_steps :=
  repeat (eapply mem_step_trans_nil; [eassumption|]); first [apply mem_step_refl | eassumption].

(** ** The heap invariant of a shard *)

Section Shard.
Context {rep : gmap addr LRUHandle -> HandleTable -> gmap (CacheKey * Z) addr -> Prop}.
Context {laws : TableLaws rep}.

(** the handles of a shard: its entries and the sentinel *)
Definition owned (self : addr) (ents : gmap addr entry) (a : addr) : Prop :=
  a = self \/ is_Some (ents !! a).

(** [P] contains the handles the shard may write, [tab] is what the hash
    table holds, [ents] the entries that are allocated, [lru] the list from
    the oldest to the newest entry *)
Record shard (P : addr -> Prop) (H : gmap addr LRUHandle) (self : addr) (t : HandleTable)
    (tab : gmap (CacheKey * Z) addr) (ents : gmap addr entry) (lru : list addr) : Prop := {
  s_table : rep H t tab;
  s_ents : forall a en, ents !! a = Some en -> view <$> H !! a = Some en;
  s_links : links (nx H) (pv H) self lru self;
  s_nodup : NoDup (self :: lru);
  s_lru : forall a, a ∈ lru -> is_Some (ents !! a);
  s_off : forall a, is_Some (ents !! a) -> a ∉ lru -> nx H a = None /\ pv H a = None;
  s_tab : forall kh a, tab !! kh = Some a -> exists en, ents !! a = Some en /\ ekh en = kh;
  s_self : ents !! self = None;
  s_foot : forall a, owned self ents a -> P a
}.

Arguments s_table {P H self t tab ents lru} _.
Arguments s_ents {P H self t tab ents lru} _.
Arguments s_links {P H self t tab ents lru} _.
Arguments s_nodup {P H self t tab ents lru} _.
Arguments s_lru {P H self t tab ents lru} _.
Arguments s_off {P H self t tab ents lru} _.
Arguments s_tab {P H self t tab ents lru} _.
Arguments s_foot {P H self t tab ents lru} _.
Arguments s_self {P H self t tab ents lru} _.

(** no real handle is its own successor *)
Lemma list_next H self lru a :
  links (nx H) (pv H) self lru self -> NoDup (self :: lru) -> a <> self ->
  (a ∉ lru -> nx H a = None) -> nx H a <> Some a.
Proof.
  intros Hl Hnd Hne Hout Hx.
  destruct (decide (a ∈ lru)) as [Hin|Hn]; [|by rewrite Hout in Hx].
  apply list_elem_of_split in Hin as (L1 & L2 & ->). apply links_app in Hl as [_ Hl].
  apply links_ends in Hl as [Hl _]. pose proof (headd_elem L2 self) as He.
  assert (headd L2 self = a) as Hd by congruence. rewrite Hd in He.
  apply NoDup_cons in Hnd as [_ (_ & _ & [Hnd' _]%NoDup_cons)%NoDup_app]. mem_solver.
Qed.

Section Facts.
Context {P H self t tab ents lru} (R : shard P H self t tab ents lru).

Lemma shard_handle a en : ents !! a = Some en -> exists h, H !! a = Some h /\ view h = en.
Proof.
  intros Ha. apply (s_ents R) in Ha.
  destruct (H !! a) as [h|]; [|done]. exists h. split; [done|]. by injection Ha.
Qed.

Lemma shard_ne a en : ents !! a = Some en -> a <> self.
Proof. intros Ha ->. by rewrite (s_self R) in Ha. Qed.

Lemma shard_next a en : ents !! a = Some en -> nx H a <> Some a.
Proof.
  intros Ha. apply (list_next _ self lru); [apply R..|by eapply shard_ne|].
  intros Hout. by apply (s_off R).
Qed.

(** relinking the list: the table, the entries and the rest stay *)
Lemma shard_relink H' lru' :
  (forall a, rest <$> H' !! a = rest <$> H !! a) ->
  links (nx H') (pv H') self lru' self -> NoDup (self :: lru') ->
  (forall a, a ∈ lru' -> is_Some (ents !! a)) ->
  (forall a, is_Some (ents !! a) -> a ∉ lru' -> nx H' a = None /\ pv H' a = None) ->
  shard P H' self t tab ents lru'.
Proof.
  intros Hr Hl Hnd Hin Hout. split; try done; [|intros a en Ha|apply R..].
  - eapply table_frame; [apply R|]. intros kh a Ha.
    destruct (s_tab R kh a Ha) as (en & Hen & _).
    assert (nx H' a <> Some a) as Hn'.
    { eapply list_next; try done; [by eapply shard_ne|].
      intros ?. by apply (Hout a); [eexists|]. }
    pose proof (shard_next a en Hen) as Hn. specialize (Hr a). unfold nx in Hn, Hn'.
    destruct (H !! a) as [h|], (H' !! a) as [h'|]; try done. simpl in *.
    unfold rest, view in Hr. injection Hr as ????????E. unfold tview.
    rewrite !bool_decide_false by done. congruence.
  - specialize (Hr a). rewrite <-(s_ents R a en Ha).
    destruct (H !! a), (H' !! a); try done. simpl in *. unfold rest in Hr. congruence.
Qed.
End Facts.

Lemma nodup_middle (self e : addr) L1 L2 :
  NoDup (self :: L1 ++ e :: L2) -> (e ∉ self :: L1 ++ L2) /\ NoDup (self :: L1 ++ L2).
Proof.
  intros Hnd. assert (self :: L1 ++ e :: L2 ≡ₚ e :: self :: L1 ++ L2) as HP.
  { rewrite <-Permutation_middle. constructor. }
  rewrite HP in Hnd. by apply NoDup_cons in Hnd.
Qed.

Lemma wp_lru_remove P m self t tab ents L1 e L2 (Q : unit -> mem -> Prop) :
  shard P (handles m) self t tab ents (L1 ++ e :: L2) ->
  (forall m', shard P (handles m') self t tab ents (L1 ++ L2) ->
     mem_step P [] m m' -> Q tt m') ->
  wp (LRUCache_lru_remove e) Q m.
Proof.
  intros R HQ. pose proof (s_links R) as Hl. pose proof Hl as [Hl1 Hl2]%links_app.
  destruct (nodup_middle _ _ _ _ (s_nodup R)) as [He Hnd].
  pose proof (lastd_elem self L1) as Hp. pose proof (headd_elem L2 self) as Hq.
  assert (forall z, z ∈ self :: L1 ++ L2 -> P z) as Hown.
  { intros z [->|Hz]%elem_of_cons; apply (s_foot R); [by left|].
    right. apply (s_lru R). mem_solver. }
  eapply wp_mono.
  { apply (wp_lru_remove_heap m e (lastd self L1) (headd L2 self)).
    - by apply links_ends in Hl2 as [-> _].
    - by apply links_ends in Hl1 as [_ ->].
    - intros E. rewrite E in Hp. mem_solver.
    - intros E. rewrite E in Hq. mem_solver.
    - eapply nx_in_heap. by apply links_back in Hl1 as [-> _].
    - eapply pv_in_heap. by apply links_back in Hl2 as [_ ->]. }
  intros [] m' (H' & -> & Hne & Hpe & Hn & Hpv & Hr & Hf). apply HQ.
  - apply (shard_relink R); try done.
    + eapply links_remove; [apply R| |exact Hn|exact Hpv|exact Hl].
      pose proof (s_nodup R) as [? _]%NoDup_cons. done.
    + intros a Ha. apply (s_lru R). mem_solver.
    + intros a Ha Hout. destruct (decide (a = e)) as [->|Hae]; [done|].
      assert (a <> self) as Has by (destruct Ha; by eapply shard_ne).
      rewrite Hn, Hpv by done. rewrite !bool_decide_false.
      * apply (s_off R a Ha). mem_solver.
      * intros E. rewrite <-E in Hq. mem_solver.
      * intros E. rewrite <-E in Hp. mem_solver.
  - apply mem_step_handles. intros a Ha. apply Hf.
    + intros ->. apply Ha, (s_foot R). right. apply (s_lru R). mem_solver.
    + intros ->. apply Ha, Hown. clear -Hp. mem_solver.
    + intros ->. apply Ha, Hown. clear -Hq. mem_solver.
Qed.

Lemma wp_lru_append P m self t tab ents lru e (Q : unit -> mem -> Prop) :
  shard P (handles m) self t tab ents lru -> is_Some (ents !! e) -> e ∉ lru ->
  (forall m', shard P (handles m') self t tab ents (lru ++ [e]) ->
     mem_step P [] m m' -> Q tt m') ->
  wp (LRUCache_lru_append self e) Q m.
Proof.
  intros R He Hout HQ. pose proof (s_links R) as Hl.
  pose proof (lastd_elem self lru) as Hp.
  assert (e <> self) as Hes by (destruct He; by eapply shard_ne).
  eapply wp_mono.
  { apply (wp_lru_append_heap m self e (lastd self lru)); try done.
    - by apply links_ends in Hl as [_ ->].
    - intros E. rewrite E in Hp. mem_solver.
    - eapply nx_in_heap. by apply links_back in Hl as [-> _].
    - destruct He as [en He]. destruct (shard_handle R e en He) as (h & -> & _). by eexists. }
  intros [] m' (H' & -> & Hne & Hpe & Hn & Hpv & Hr & Hf). apply HQ.
  - apply (shard_relink R); try done.
    + eapply links_append; [apply R| |done|done|exact Hn|exact Hpv|exact Hl]. mem_solver.
    + rewrite app_comm_cons. apply NoDup_app. split_and!; [apply R| |apply NoDup_singleton].
      intros x Hx. mem_solver.
    + intros a [Ha| ->%list_elem_of_singleton]%elem_of_app; [by apply (s_lru R)|done].
    + intros a Ha Hout'. assert (a <> self) as Has by (destruct Ha; by eapply shard_ne).
      rewrite Hn, Hpv by mem_solver. rewrite !bool_decide_false; [|done|].
      * apply (s_off R a Ha). mem_solver.
      * intros E. rewrite <-E in Hp. mem_solver.
  - apply mem_step_handles. intros a Ha. apply Hf.
    + intros ->. apply Ha, (s_foot R). by right.
    + intros ->. apply Ha, (s_foot R). apply elem_of_cons in Hp as [->|Hp]; [by left|].
      right. by apply (s_lru R).
    + intros ->. apply Ha, (s_foot R). by left.
Qed.
(** ** Writing the bookkeeping fields of an entry *)

(** [f] leaves the links and the key alone *)
Definition keeps (f : LRUHandle -> LRUHandle) : Prop := forall h,
  h_next (f h) = h_next h /\ h_prev (f h) = h_prev h /\
  h_next_hash (f h) = h_next_hash h /\ hkh (f h) = hkh h.

Lemma keeps_fields f H e :
  keeps f -> forall a, nx (alter f e H) a = nx H a /\ pv (alter f e H) a = pv H a /\
    tview a <$> alter f e H !! a = tview a <$> H !! a.
Proof.
  intros Hf a. unfold nx, pv. rewrite lookup_alter. case_decide; [subst e|done].
  destruct (H !! a) as [h|]; [simpl|done]. destruct (Hf h) as (En & Ep & Eh & Ek).
  unfold hkh in Ek. injection Ek as Ek Eha. unfold tview.
  rewrite En, Eh, Ek, Eha. done.
Qed.

Lemma shard_entry P H self t tab ents lru e en f g :
  shard P H self t tab ents lru -> ents !! e = Some en -> keeps f ->
  (forall h, view (f h) = g (view h)) ->
  shard P (alter f e H) self t tab (<[e := g en]> ents) lru.
Proof.
  intros R He Hf Hg. pose proof (keeps_fields f H e Hf) as Hk. split.
  - eapply table_frame; [apply R|]. intros kh a _. apply Hk.
  - intros a en' Ha. rewrite lookup_alter. rewrite lookup_insert in Ha. case_decide.
    + subst a. rewrite <-option_fmap_compose. injection Ha as <-.
      destruct (shard_handle R e en He) as (h & -> & <-). simpl. by rewrite Hg.
    + by apply (s_ents R).
  - eapply links_ext; [| |apply R]; intros z _; apply Hk.
  - apply R.
  - intros a Ha. apply lookup_insert_is_Some'. right. by apply (s_lru R).
  - intros a Ha Hout. destruct (Hk a) as (-> & -> & _). apply (s_off R); [|done].
    apply lookup_insert_is_Some' in Ha as [<-|Ha]; [by eexists|done].
  - intros kh a Ha. destruct (s_tab R kh a Ha) as (en' & Hen & Hkh).
    destruct (decide (a = e)) as [->|Hne].
    + exists (g en). rewrite lookup_insert_eq. split; [done|]. simplify_eq.
      destruct (shard_handle R e en He) as (h & _ & <-). rewrite <-Hg.
      destruct (Hf h) as (_ & _ & _ & Ek). exact Ek.
    + exists en'. by rewrite lookup_insert_ne.
  - rewrite lookup_insert_ne; [apply R|]. by eapply shard_ne.
  - intros a [->|Ha]; apply (s_foot R); [by left|]. right.
    apply lookup_insert_is_Some' in Ha as [<-|Ha]; [by eexists|done].
Qed.

Lemma wp_entry_store P m self t tab ents lru e en f g (Q : unit -> mem -> Prop) :
  shard P (handles m) self t tab ents lru -> ents !! e = Some en -> keeps f ->
  (forall h, view (f h) = g (view h)) ->
  (forall m', shard P (handles m') self t tab (<[e := g en]> ents) lru ->
     mem_step P [] m m' -> Q tt m') ->
  wp (store (Some e) f) Q m.
Proof.
  intros R He Hf Hg HQ. apply wp_alter.
  - destruct (shard_handle R e en He) as (h & -> & _). by eexists.
  - apply HQ; [by eapply shard_entry|]. apply mem_step_handles. intros a Ha.
    apply lookup_alter_ne. intros ->. apply Ha, (s_foot R). right. by eexists.
Qed.

Lemma wp_unref P m self t tab ents lru e en (Q : bool -> mem -> Prop) :
  shard P (handles m) self t tab ents lru -> ents !! e = Some en ->
  0 < e_refs en < 2 ^ 32 ->
  (forall m', shard P (handles m') self t tab (<[e := with_refs (e_refs en - 1) en]> ents) lru ->
     mem_step P [] m m' -> Q (e_refs en - 1 =? 0) m') ->
  wp (LRUCache_unref e) Q m.
Proof.
  intros R He Hr HQ. destruct (shard_handle R e en He) as (h & Hh & Hv).
  assert (h_refs h = e_refs en) as Er by (by rewrite <-Hv).
  unfold LRUCache_unref. apply wp_bind, (wp_load _ h); [done|].
  apply wp_bind, wp_check; [apply Z.ltb_lt; lia|].
  eapply wp_bind, (wp_entry_store P m self t tab ents lru e en _
    (fun en => with_refs (u32 (e_refs en - 1)) en)); [done..|].
  intros m' R' S'. rewrite wrapu_id in R' by (unfold inu; lia).
  destruct (shard_handle R' e _ (lookup_insert_eq _ _ _)) as (h' & Hh' & Hv').
  apply wp_bind, (wp_load _ h'); [done|]. apply wp_ret.
  replace (h_refs h') with (e_refs en - 1) by (change (h_refs h') with (e_refs (view h')); by rewrite Hv').
  by apply HQ.
Qed.
Lemma wp_entry_load P m self t tab ents lru e en (Q : LRUHandle -> mem -> Prop) :
  shard P (handles m) self t tab ents lru -> ents !! e = Some en ->
  (forall h, view h = en -> Q h m) -> wp (load (Some e)) Q m.
Proof.
  intros R He HQ. destruct (shard_handle R e en He) as (h & Hh & Hv).
  apply (wp_load _ h); [done|]. by apply HQ.
Qed.

Lemma wp_entry_key P m self t tab ents lru e en (Q : CacheKey -> mem -> Prop) :
  shard P (handles m) self t tab ents lru -> ents !! e = Some en ->
  Q (e_key en) m -> wp (LRUHandle_key e) Q m.
Proof.
  intros R He HQ. destruct (shard_handle R e en He) as (h & Hh & <-).
  apply (wp_key _ h); [done| |done]. pose proof (shard_next R e _ He) as Hn.
  unfold nx in Hn. by rewrite Hh in Hn.
Qed.

(** ** The table *)

(** the table only relinks its chains *)
Lemma shard_relinked P H H' self t t' tab tab' ents lru (W : addr -> Prop) :
  shard P H self t tab ents lru -> relinked W H H' -> rep H' t' tab' ->
  (forall kh a, tab' !! kh = Some a -> exists en, ents !! a = Some en /\ ekh en = kh) ->
  shard P H' self t' tab' ents lru.
Proof.
  intros R [Hnh _] Hrep Htab.
  assert (forall a, nx H' a = nx H a /\ pv H' a = pv H a /\ view <$> H' !! a = view <$> H !! a) as Hk.
  { intros a. specialize (Hnh a). unfold nx, pv.
    destruct (H !! a) as [h|], (H' !! a) as [h'|]; try done. simpl in *.
    apply (inj Some) in Hnh.
    assert (h' = set_next_hash (h_next_hash h') h) as ->.
    { destruct h, h'. unfold set_next_hash in *. simpl in *. congruence. }
    done. }
  split; try done; try apply R.
  - intros a en Ha. destruct (Hk a) as (_ & _ & ->). by apply (s_ents R).
  - eapply links_ext; [| |apply R]; intros z _; apply Hk.
  - intros a Ha Hout. destruct (Hk a) as (-> & -> & _). by apply (s_off R).
Qed.

Lemma wp_table_lookup P m c tab ents lru key hash (Q : option addr -> cstate -> Prop) :
  shard P (handles m) (c_lru c) (c_table c) tab ents lru -> inu 32 hash ->
  Q (tab !! (key, hash)) (m, c) -> wp (on_table (HandleTable_lookup key hash)) Q (m, c).
Proof.
  intros R Hh HQ. unfold wp, on_table. simpl.
  rewrite (table_lookup _ _ _ _ _ (s_table R) Hh). by destruct c.
Qed.

Lemma in_table_foot P H self t tab ents lru a :
  shard P H self t tab ents lru -> in_table tab a -> P a.
Proof.
  intros R [kh Ha]. apply (s_foot R). right. destruct (s_tab R kh a Ha) as (en & -> & _).
  by eexists.
Qed.

Lemma wp_table_remove P m c tab ents lru key hash (Q : option addr -> cstate -> Prop) :
  shard P (handles m) (c_lru c) (c_table c) tab ents lru -> inu 32 hash ->
  (forall m' t', shard P (handles m') (c_lru c) t' (delete (key, hash) tab) ents lru ->
     mem_step P [] m m' -> Q (tab !! (key, hash)) (m', set_c_table t' c)) ->
  wp (on_table (HandleTable_remove key hash)) Q (m, c).
Proof.
  intros R Hh HQ. pose proof (table_remove _ _ _ key _ (s_table R) Hh) as Hwp.
  unfold wp, on_table in *. simpl.
  destruct (HandleTable_remove key hash (m, c_table c)) as [[r [m' t']]|]; [|done].
  destruct Hwp as (-> & H' & t'' & [= -> ->] & Hrep & Hrl). apply HQ; simpl.
  - eapply shard_relinked; [done..|].
    intros kh a [_ Ha]%lookup_delete_Some. by apply (s_tab R).
  - apply mem_step_handles. intros a Ha. apply Hrl. intros Hin.
    by eapply Ha, in_table_foot.
Qed.

Lemma wp_table_insert P m c tab ents lru e en (Q : option addr -> cstate -> Prop) :
  shard P (handles m) (c_lru c) (c_table c) tab ents lru -> ents !! e = Some en ->
  inu 32 (e_hash en) -> ~ in_table tab e -> Z.of_nat (size tab) < 2 ^ 31 ->
  (forall m' t', shard P (handles m') (c_lru c) t' (<[ekh en := e]> tab) ents lru ->
     mem_step P [] m m' -> Q (tab !! ekh en) (m', set_c_table t' c)) ->
  wp (on_table (HandleTable_insert e)) Q (m, c).
Proof.
  intros R He Hh Hnew Hs HQ. destruct (shard_handle R e en He) as (h & Hh' & <-).
  pose proof (shard_next R e _ He) as Hn. unfold nx in Hn. rewrite Hh' in Hn. simpl in Hn.
  pose proof (table_insert _ _ _ _ _ (s_table R) Hh' Hn Hh Hnew Hs) as Hwp.
  unfold wp, on_table in *. simpl.
  destruct (HandleTable_insert e (m, c_table c)) as [[r [m' t']]|]; [|done].
  destruct Hwp as (-> & H' & t'' & [= -> ->] & Hrep & Hrl). apply HQ; simpl.
  - eapply shard_relinked; [done..|].
    intros kh a [[<- <-]|[_ Ha]]%lookup_insert_Some; [by eexists|by apply (s_tab R)].
  - apply mem_step_handles. intros a Ha. apply Hrl. intros [Hin| ->].
    + by eapply Ha, in_table_foot.
    + apply Ha, (s_foot R). right. by eexists.
Qed.

(** ** Releasing and allocating handles *)

Lemma wp_free P m self t tab ents lru e en (Q : unit -> mem -> Prop) :
  shard P (handles m) self t tab ents lru -> ents !! e = Some en ->
  e ∉ lru -> ~ in_table tab e ->
  (forall m', shard P (handles m') self t tab (delete e ents) lru ->
     mem_step P [entry_deletion en] m m' -> Q tt m') ->
  wp (LRUHandle_free e) Q m.
Proof.
  intros R He Hout Htab HQ. unfold LRUHandle_free.
  apply wp_bind, (wp_entry_load P m self t tab ents lru e en); [done..|]. intros h Hv.
  apply wp_bind, (wp_entry_key P m self t tab ents lru e en); [done..|].
  apply wp_modify. apply HQ; simpl.
  - split; try apply R.
    + eapply table_frame; [apply R|]. intros kh a Ha. rewrite lookup_delete_ne; [done|].
      intros ->. apply Htab. by eexists.
    + intros a en' [Hne Ha]%lookup_delete_Some. rewrite lookup_delete_ne by done.
      by apply (s_ents R).
    + assert (forall z, z ∈ self :: lru -> e <> z) as Hne.
      { intros z Hz ->. apply elem_of_cons in Hz as [->|Hz]; [by eapply (shard_ne R)|done]. }
      eapply links_ext; [| |apply R]; intros z Hz; unfold nx, pv;
        rewrite lookup_delete_ne; try done; apply Hne; mem_solver.
    + intros a Ha. rewrite lookup_delete_ne; [by apply (s_lru R)|]. by intros ->.
    + intros a [Hne Ha]%lookup_delete_is_Some Hl. unfold nx, pv.
      rewrite lookup_delete_ne by done. by apply (s_off R).
    + intros kh a Ha. rewrite lookup_delete_ne; [by apply (s_tab R)|].
      intros ->. apply Htab. by eexists.
    + apply lookup_delete_None. right. apply R.
    + intros a [->|[_ Ha]%lookup_delete_is_Some]; apply (s_foot R); [by left|by right].
  - split_and!; simpl; [done|by rewrite <-Hv|]. intros a Ha. apply lookup_delete_ne.
    intros ->. apply Ha, (s_foot R). right. by eexists.
Qed.

Lemma wp_malloc P m self t tab ents lru h (Q : addr -> mem -> Prop) :
  shard P (handles m) self t tab ents lru ->
  h_next h = None -> h_prev h = None ->
  (forall e m', handles m !! e = None ->
     shard (fun a => P a \/ a = e) (handles m') self t tab (<[e := view h]> ents) lru ->
     mem_step (fun a => P a \/ a = e) [] m m' -> Q e m') ->
  wp (malloc h) Q m.
Proof.
  intros R Hn Hp HQ. unfold wp, malloc.
  pose proof (is_fresh (dom (handles m))) as Hf. set (e := fresh _) in *.
  apply not_elem_of_dom in Hf.
  assert (ents !! e = None) as He.
  { destruct (ents !! e) as [en|] eqn:E; [|done]. destruct (shard_handle R e en E). naive_solver. }
  assert (forall a, owned self ents a -> e <> a) as Hne.
  { intros a [->|[en Ha]] ->; [|congruence]. pose proof (s_links R) as [Hl _]%links_ends.
    unfold nx in Hl. by rewrite Hf in Hl. }
  apply HQ; simpl; [done| |].
  - split; try apply R.
    + eapply table_frame; [apply R|]. intros kh a Ha. rewrite lookup_insert_ne; [done|].
      apply Hne. right. destruct (s_tab R kh a Ha) as (en & -> & _). by eexists.
    + intros a en' [[<- <-]|[? Ha]]%lookup_insert_Some; [by rewrite lookup_insert_eq|].
      rewrite lookup_insert_ne by done. by apply (s_ents R).
    + eapply links_ext; [| |apply R]; intros z Hz; unfold nx, pv;
        rewrite lookup_insert_ne; try done; apply Hne.
      * apply elem_of_cons in Hz as [->|Hz]; [by left|]. right. by apply (s_lru R).
      * apply elem_of_app in Hz as [Hz| ->%list_elem_of_singleton]; [|by left].
        right. by apply (s_lru R).
    + intros a Ha. apply lookup_insert_is_Some'. right. by apply (s_lru R).
    + intros a [<-|Ha]%lookup_insert_is_Some' Hl; unfold nx, pv.
      * by rewrite lookup_insert_eq.
      * rewrite lookup_insert_ne by (apply Hne; by right). by apply (s_off R).
    + intros kh a Ha. destruct (s_tab R kh a Ha) as (en & Hen & Hk).
      exists en. rewrite lookup_insert_ne; [done|]. intros ->. congruence.
    + rewrite lookup_insert_ne; [apply R|]. apply Hne. by left.
    + intros a [->|[<-|Ha]%lookup_insert_is_Some']; [|by right|];
        left; apply (s_foot R); [by left|by right].
  - apply mem_step_handles. intros a Ha. apply lookup_insert_ne. intros ->. apply Ha. by right.
Qed.
End Shard.

Arguments s_table {rep P H self t tab ents lru} _.
Arguments s_ents {rep P H self t tab ents lru} _.
Arguments s_links {rep P H self t tab ents lru} _.
Arguments s_nodup {rep P H self t tab ents lru} _.
Arguments s_lru {rep P H self t tab ents lru} _.
Arguments s_off {rep P H self t tab ents lru} _.
Arguments s_tab {rep P H self t tab ents lru} _.
Arguments s_self {rep P H self t tab ents lru} _.
Arguments s_foot {rep P H self t tab ents lru} _.
