(* ===== verification/LRUSpec.v ===== *)
(** * What a shard promises: the abstract cache

    The specification of [LRUCache]: a finite map from (key, hash) to entries,
    a list of the entries nobody holds, from the least to the most recently
    released, and the entries a client still holds. There are no pointers, no
    reference counts that include the cache's own, and no loops over links.
    LRURefine.v proves that the code implements these operations. *)

From S2P Require Import Prelude CacheKey HandleTable.

Record aentry := mkX {
  x_value : Z;
  x_deleter : Z;
  x_charge : Z;
  x_key : CacheKey;
  x_hash : Z;
  x_priority : CachePriority;
  x_handles : Z        (* handles given to clients and not released yet *)
}.

Definition xkh (en : aentry) : CacheKey * Z := (x_key en, x_hash en).
Definition x_deletion (en : aentry) : deletion :=
  mkDeletion (x_deleter en) (x_key en) (x_value en).
Definition with_handles (n : Z) (en : aentry) : aentry :=
  mkX (x_value en) (x_deleter en) (x_charge en) (x_key en) (x_hash en) (x_priority en) n.

Record acache := mkA {
  a_tab : gmap (CacheKey * Z) addr;
  a_ents : gmap addr aentry;
  a_lru : list addr;
  a_capacity : Z;
  a_lookups : Z;
  a_hits : Z
}.

(** the sum of the charges of all entries, cached or held *)
Definition total_charge (ents : gmap addr aentry) : Z :=
  map_fold (fun _ en n => x_charge en + n) 0 ents.

Definition a_usage (A : acache) : Z := u64 (total_charge (a_ents A)).

(** not enough room for [charge] more, as the code computes it in 64 bits *)
Definition over (charge : Z) (A : acache) : bool :=
  a_capacity A <? u64 (a_usage A + charge).

Definition without (a : addr) (l : list addr) : list addr := filter (fun b => b <> a) l.

(** forget an entry completely *)
Definition drop_entry (a : addr) (A : acache) : acache :=
  match a_ents A !! a with
  | None => A
  | Some en => mkA (delete (xkh en) (a_tab A)) (delete a (a_ents A)) (without a (a_lru A))
                 (a_capacity A) (a_lookups A) (a_hits A)
  end.

(** the order of eviction: normal entries before durable ones, the least
    recently released first *)
Definition has_priority (p : CachePriority) (A : acache) (a : addr) : Prop :=
  x_priority <$> a_ents A !! a = Some p.
#[global] Instance has_priority_dec p A a : Decision (has_priority p A a).
Proof. unfold has_priority. apply _. Defined.

Definition eviction_order (A : acache) : list addr :=
  filter (has_priority NORMAL A) (a_lru A) ++ filter (has_priority DURABLE A) (a_lru A).

(** evict along [l] until the charge fits *)
Fixpoint evict_list (charge : Z) (l : list addr) (A : acache) : acache * list addr :=
  match l with
  | [] => (A, [])
  | a :: l =>
      if over charge A then
        let r := evict_list charge l (drop_entry a A) in (r.1, a :: r.2)
      else (A, [])
  end.

Definition spec_evict (charge : Z) (A : acache) : acache * list addr :=
  evict_list charge (eviction_order A) A.

(** the deleter calls for a list of entries of [A] *)
Definition deletions_of (A : acache) (l : list addr) : list deletion :=
  omap (fun a => x_deletion <$> a_ents A !! a) l.

Definition spec_lookup (key : CacheKey) (hash : Z) (A : acache) : option addr * acache :=
  match a_tab A !! (key, hash) with
  | None => (None, mkA (a_tab A) (a_ents A) (a_lru A) (a_capacity A)
                     (u64 (a_lookups A + 1)) (a_hits A))
  | Some a => (Some a,
      mkA (a_tab A) (alter (fun en => with_handles (x_handles en + 1) en) a (a_ents A))
        (without a (a_lru A)) (a_capacity A)
        (u64 (a_lookups A + 1)) (u64 (a_hits A + 1)))
  end.

Definition cached (A : acache) (a : addr) (en : aentry) : bool :=
  bool_decide (a_tab A !! xkh en = Some a).

(** giving a handle back; the list is what is deleted *)
Definition spec_release (a : addr) (A : acache) : acache * list addr :=
  match a_ents A !! a with
  | None => (A, [])
  | Some en =>
      if negb (x_handles en =? 1) then
        (mkA (a_tab A) (<[a := with_handles (x_handles en - 1) en]> (a_ents A)) (a_lru A)
           (a_capacity A) (a_lookups A) (a_hits A), [])
      else if cached A a en then
        if a_capacity A <? a_usage A then (drop_entry a A, [a])
        else (mkA (a_tab A) (<[a := with_handles 0 en]> (a_ents A)) (a_lru A ++ [a])
                (a_capacity A) (a_lookups A) (a_hits A), [])
      else (mkA (a_tab A) (delete a (a_ents A)) (a_lru A)
              (a_capacity A) (a_lookups A) (a_hits A), [a])
  end.

(** the mapping of (key, hash) goes; the entry too unless a client holds it *)
Definition spec_unmap (kh : CacheKey * Z) (A : acache) : acache * list addr :=
  match a_tab A !! kh with
  | None => (A, [])
  | Some o =>
      match a_ents A !! o with
      | None => (A, [])
      | Some en =>
          if x_handles en =? 0 then (drop_entry o A, [o])
          else (mkA (delete kh (a_tab A)) (a_ents A) (a_lru A)
                  (a_capacity A) (a_lookups A) (a_hits A), [])
      end
  end.

Definition add (e : addr) (en : aentry) (A : acache) : acache :=
  mkA (<[xkh en := e]> (a_tab A)) (<[e := en]> (a_ents A)) (a_lru A)
    (a_capacity A) (a_lookups A) (a_hits A).

(** make room, replace the mapping, hand out one handle *)
Definition spec_insert (e : addr) (key : CacheKey) (hash value charge deleter : Z)
    (priority : CachePriority) (A : acache) : acache * list addr :=
  let r1 := spec_evict charge A in
  let r2 := spec_unmap (key, hash) r1.1 in
  (add e (mkX value deleter charge key hash priority 1) r2.1, r1.2 ++ r2.2).

Definition spec_erase (key : CacheKey) (hash : Z) (A : acache) : acache * list addr :=
  spec_unmap (key, hash) A.

Fixpoint drop_all (l : list addr) (A : acache) : acache :=
  match l with [] => A | a :: l => drop_all l (drop_entry a A) end.

Definition spec_prune (A : acache) : acache * list addr :=
  (drop_all (a_lru A) A, a_lru A).

Definition with_capacity (n : Z) (A : acache) : acache :=
  mkA (a_tab A) (a_ents A) (a_lru A) n (a_lookups A) (a_hits A).

Definition spec_set_capacity (n : Z) (A : acache) : acache * list addr :=
  spec_evict 0 (with_capacity n A).

(** ** The invariant *)

Record wf (A : acache) : Prop := {
  wf_tab : forall kh a, a_tab A !! kh = Some a ->
    exists en, a_ents A !! a = Some en /\ xkh en = kh;
  wf_lru : forall a, a ∈ a_lru A <-> exists en, a_ents A !! a = Some en /\ x_handles en = 0;
  wf_cached : forall a en, a_ents A !! a = Some en -> x_handles en = 0 ->
    a_tab A !! xkh en = Some a;
  wf_nodup : NoDup (a_lru A);
  wf_entry : forall a en, a_ents A !! a = Some en ->
    0 <= x_handles en < 2 ^ 32 - 1 /\ inu 32 (x_hash en) /\ inu 64 (x_charge en);
  wf_size : Z.of_nat (size (a_tab A)) <= 2 ^ 31
}.

Lemma deletions_of_one A a en : a_ents A !! a = Some en -> deletions_of A [a] = [x_deletion en].
Proof. intros He. unfold deletions_of. simpl. by rewrite He. Qed.

Lemma elem_of_without a b l : b ∈ without a l <-> b ∈ l /\ b <> a.
Proof. unfold without. rewrite list_elem_of_filter. tauto. Qed.

Lemma without_nodup a l : NoDup l -> NoDup (without a l).
Proof. apply NoDup_filter. Qed.

Lemma filter_all {B} (P : B -> Prop) `{!forall x, Decision (P x)} (l : list B) :
  (forall x, x ∈ l -> P x) -> filter P l = l.
Proof.
  induction l as [|b l IH]; intros HP; [done|].
  rewrite filter_cons_True by (apply HP; by left). f_equal. apply IH.
  intros x Hx. apply HP. by right.
Qed.

Lemma without_id a l : a ∉ l -> without a l = l.
Proof. intros Ha. apply filter_all. by intros x Hx ->. Qed.

Lemma without_middle a l1 l2 : NoDup (l1 ++ a :: l2) -> without a (l1 ++ a :: l2) = l1 ++ l2.
Proof.
  intros Hnd. apply NoDup_app in Hnd as (_ & Hd & [Ha _]%NoDup_cons).
  unfold without. rewrite filter_app, filter_cons_False by tauto.
  fold (without a l1) (without a l2). rewrite !without_id; [done|done|].
  intros Hin. apply (Hd a Hin). by left.
Qed.

(** ** The sum of the charges *)

Lemma total_charge_insert ents a en :
  ents !! a = None -> total_charge (<[a := en]> ents) = x_charge en + total_charge ents.
Proof.
  intros Ha. unfold total_charge. rewrite map_fold_insert_L; [done| |done].
  intros; lia.
Qed.

Lemma total_charge_delete ents a en :
  ents !! a = Some en -> total_charge (delete a ents) = total_charge ents - x_charge en.
Proof.
  intros Ha. rewrite <-(insert_delete_id ents a en) at 2 by done.
  rewrite total_charge_insert by apply lookup_delete_eq. lia.
Qed.

(** changing the handle count of an entry does not change the total *)
Lemma total_charge_update ents a en en' :
  ents !! a = Some en -> x_charge en' = x_charge en ->
  total_charge (<[a := en']> ents) = total_charge ents.
Proof.
  intros Ha Hc. rewrite <-insert_delete_eq, total_charge_insert by apply lookup_delete_eq.
  rewrite (total_charge_delete _ _ en) by done. lia.
Qed.

Lemma total_charge_nonneg ents :
  (forall a en, ents !! a = Some en -> 0 <= x_charge en) -> 0 <= total_charge ents.
Proof.
  induction ents as [|a en ents Ha IH] using map_ind; intros Hc; [done|].
  rewrite total_charge_insert by done.
  assert (0 <= x_charge en) by (apply (Hc a); by rewrite lookup_insert_eq).
  enough (0 <= total_charge ents) by lia. apply IH. intros b en' Hb. apply (Hc b).
  rewrite lookup_insert_ne; [done|]. intros ->. congruence.
Qed.

(** ** Every operation keeps the invariant *)

Section Wf.
Context (A : acache) (W : wf A).

(** an entry is filed under its own key or not at all *)
Lemma wf_tab_inv kh a en : a_tab A !! kh = Some a -> a_ents A !! a = Some en -> kh = xkh en.
Proof. intros Ht He. destruct (wf_tab _ W kh a Ht) as (en' & He' & <-). congruence. Qed.

Lemma wf_drop a en :
  a_ents A !! a = Some en -> a_tab A !! xkh en = Some a -> wf (drop_entry a A).
Proof.
  intros He Ht. unfold drop_entry. rewrite He. split; simpl.
  - intros kh b [Hne Hb]%lookup_delete_Some. destruct (wf_tab _ W kh b Hb) as (en' & Hen & Hkh).
    exists en'. rewrite lookup_delete_ne; [done|]. intros ->. congruence.
  - intros b. rewrite elem_of_without, (wf_lru _ W). split.
    + intros [(en' & Hen & Hh) Hne]. exists en'. by rewrite lookup_delete_ne.
    + intros (en' & [Hne Hen]%lookup_delete_Some & Hh). split; [by exists en'|done].
  - intros b en' [Hne Hb]%lookup_delete_Some Hh. pose proof (wf_cached _ W b en' Hb Hh) as Hc.
    rewrite lookup_delete_ne; [done|]. intros E. rewrite <-E in Hc. congruence.
  - apply without_nodup, W.
  - intros b en' [_ Hb]%lookup_delete_Some. by apply (wf_entry _ W b).
  - rewrite map_size_delete_Some by (by eexists). pose proof (wf_size _ W). lia.
Qed.

Lemma wf_drop_lru a : a ∈ a_lru A -> wf (drop_entry a A).
Proof.
  intros (en & He & Hh)%(wf_lru _ W). apply (wf_drop a en He). by apply (wf_cached _ W).
Qed.

(** changing the number of handles of an entry, and the list with it *)
Lemma wf_set_handles a en n lru' cap lookups hits :
  a_ents A !! a = Some en -> 0 <= n < 2 ^ 32 - 1 -> NoDup lru' ->
  (forall b, b ∈ lru' <-> (b <> a /\ b ∈ a_lru A) \/ (b = a /\ n = 0)) ->
  (n = 0 -> a_tab A !! xkh en = Some a) ->
  wf (mkA (a_tab A) (<[a := with_handles n en]> (a_ents A)) lru' cap lookups hits).
Proof.
  intros He Hn Hnd Hl Hc. destruct (wf_entry _ W a en He) as (_ & Hhash & Hch).
  split; simpl; try done; [| | | |apply W].
  - intros kh b Hkb. destruct (wf_tab _ W kh b Hkb) as (en' & Hen & Hk).
    destruct (decide (b = a)) as [->|Hne]; [|exists en'; by rewrite lookup_insert_ne].
    eexists. rewrite lookup_insert_eq. split; [done|]. by simplify_eq.
  - intros b. rewrite Hl, (wf_lru _ W). split.
    + intros [[Hne (en' & Hen & Hh)]|[-> ->]].
      * exists en'. by rewrite lookup_insert_ne.
      * eexists. by rewrite lookup_insert_eq.
    + intros (en' & [[<- <-]|[Hne Hen]]%lookup_insert_Some & Hh); [by right|].
      left. split; [done|]. by exists en'.
  - intros b en' [[<- <-]|[Hne Hen]]%lookup_insert_Some Hh; [by apply Hc|].
    by apply (wf_cached _ W).
  - intros b en' [[<- <-]|[Hne Hen]]%lookup_insert_Some; [done|by apply (wf_entry _ W b)].
Qed.

(** a client's last handle to an entry that is no longer mapped *)
Lemma wf_delete a en cap lookups hits :
  a_ents A !! a = Some en -> x_handles en <> 0 -> a_tab A !! xkh en <> Some a ->
  wf (mkA (a_tab A) (delete a (a_ents A)) (a_lru A) cap lookups hits).
Proof.
  intros He Hn Ht. split; simpl; try apply W.
  - intros kh b Hkb. destruct (wf_tab _ W kh b Hkb) as (en' & Hen & Hk).
    exists en'. rewrite lookup_delete_ne; [done|]. intros ->. congruence.
  - intros b. rewrite (wf_lru _ W). split.
    + intros (en' & Hen & Hh). exists en'. rewrite lookup_delete_ne; [done|].
      intros ->. congruence.
    + intros (en' & [Hne Hen]%lookup_delete_Some & Hh). by exists en'.
  - intros b en' [Hne Hen]%lookup_delete_Some Hh. by apply (wf_cached _ W).
  - intros b en' [Hne Hen]%lookup_delete_Some. by apply (wf_entry _ W b).
Qed.

Lemma alter_handles a en f :
  a_ents A !! a = Some en -> alter f a (a_ents A) = <[a := f en]> (a_ents A).
Proof.
  intros He. apply map_eq. intros b. rewrite lookup_alter, lookup_insert.
  case_decide; subst; [by rewrite He|done].
Qed.

(** an entry that a client holds is not on the list *)
Lemma held_not_lru a en : a_ents A !! a = Some en -> x_handles en <> 0 -> a ∉ a_lru A.
Proof. intros He Hn (en' & He' & Hz)%(wf_lru _ W). congruence. Qed.

Lemma wf_lookup key hash :
  (forall a en, a_ents A !! a = Some en -> x_handles en < 2 ^ 32 - 2) ->
  wf (spec_lookup key hash A).2.
Proof.
  intros Hb. unfold spec_lookup. destruct (a_tab A !! (key, hash)) as [a|] eqn:Ht;
    [|by split; simpl; apply W].
  destruct (wf_tab _ W _ _ Ht) as (en & He & Hkh).
  destruct (wf_entry _ W a en He) as (Hr & _). specialize (Hb a en He).
  simpl. rewrite (alter_handles a en) by done.
  apply wf_set_handles; [done|lia|apply without_nodup, W| |lia].
  intros b. rewrite elem_of_without. split; [tauto|]. intros [|[_ ?]]; [tauto|lia].
Qed.

Lemma wf_release a en :
  a_ents A !! a = Some en -> 0 < x_handles en -> wf (spec_release a A).1.
Proof.
  intros He Hpos. unfold spec_release. rewrite He.
  destruct (wf_entry _ W a en He) as (Hr & _).
  assert (a ∉ a_lru A) as Hout by (eapply held_not_lru; [done|lia]).
  destruct (Z.eqb_spec (x_handles en) 1) as [E1|E1]; simpl.
  - unfold cached. case_bool_decide as Hc; [|by apply (wf_delete a en); [|lia|]].
    destruct (_ <? _); [by eapply wf_drop|]. apply wf_set_handles; try done.
    + apply NoDup_app. split_and!; [apply W| |apply NoDup_singleton].
      by intros b Hb ->%list_elem_of_singleton.
    + intros b. rewrite elem_of_app, list_elem_of_singleton. split; [|tauto].
      intros [Hb| ->]; [|by right]. left. split; [|done]. by intros ->.
  - apply wf_set_handles; [done|lia|apply W| |lia].
    intros b. split; [|intros [|[_ ?]]; [tauto|lia]].
    intros Hb. left. split; [|done]. by intros ->.
Qed.

Lemma wf_unmap kh : wf (spec_unmap kh A).1.
Proof.
  unfold spec_unmap. destruct (a_tab A !! kh) as [o|] eqn:Ht; [|done].
  destruct (wf_tab _ W kh o Ht) as (en & He & <-). rewrite He.
  destruct (Z.eqb_spec (x_handles en) 0) as [E|E]; [by eapply wf_drop|].
  split; simpl; try apply W.
  - intros kh b [_ Hb]%lookup_delete_Some. by apply (wf_tab _ W).
  - intros b en' Hb Hh. pose proof (wf_cached _ W b en' Hb Hh) as Hc.
    rewrite lookup_delete_ne; [done|]. intros Ek. rewrite <-Ek in Hc. congruence.
  - rewrite map_size_delete_Some by (by eexists). pose proof (wf_size _ W). lia.
Qed.

(** a new entry under a key that is not mapped *)
Lemma wf_add e en :
  a_ents A !! e = None -> a_tab A !! xkh en = None ->
  x_handles en = 1 -> inu 32 (x_hash en) -> inu 64 (x_charge en) ->
  Z.of_nat (size (a_tab A)) < 2 ^ 31 -> wf (add e en A).
Proof.
  intros He Ht Hh Hhash Hch Hs. split; simpl; [| | |apply W| |].
  - intros kh b [[<- <-]|[_ Hb]]%lookup_insert_Some; [exists en; by rewrite lookup_insert_eq|].
    destruct (wf_tab _ W kh b Hb) as (en' & Hen & Hk). exists en'.
    rewrite lookup_insert_ne; [done|]. intros ->. congruence.
  - intros b. rewrite (wf_lru _ W). split.
    + intros (en' & Hen & Hz). exists en'. rewrite lookup_insert_ne; [done|].
      intros ->. congruence.
    + intros (en' & [[<- <-]|[Hne Hen]]%lookup_insert_Some & Hz); [lia|]. by exists en'.
  - intros b en' [[<- <-]|[Hne Hen]]%lookup_insert_Some Hz; [lia|].
    pose proof (wf_cached _ W b en' Hen Hz) as Hc. rewrite lookup_insert_ne; [done|].
    intros Ek. rewrite <-Ek in Hc. congruence.
  - intros b en' [[<- <-]|[Hne Hen]]%lookup_insert_Some; [|by apply (wf_entry _ W b)].
    split_and!; try done; lia.
  - rewrite map_size_insert_None by done. lia.
Qed.
End Wf.

(** ** Eviction *)

Lemma drop_lru a A en : a_ents A !! a = Some en -> a_lru (drop_entry a A) = without a (a_lru A).
Proof. intros He. unfold drop_entry. by rewrite He. Qed.

Lemma elem_of_drop a b A : b ∈ a_lru (drop_entry a A) -> b ∈ a_lru A.
Proof.
  unfold drop_entry. destruct (a_ents A !! a); [|done]. simpl. by intros [? _]%elem_of_without.
Qed.

Lemma drop_lru_ne a b A : b <> a -> b ∈ a_lru A -> b ∈ a_lru (drop_entry a A).
Proof.
  intros Hne Hb. unfold drop_entry. destruct (a_ents A !! a); [|done]. simpl.
  by apply elem_of_without.
Qed.

Lemma wf_evict_list charge l A :
  wf A -> NoDup l -> (forall a, a ∈ l -> a ∈ a_lru A) -> wf (evict_list charge l A).1.
Proof.
  revert A. induction l as [|a l IH]; intros A W Hnd Hl; simpl; [done|].
  destruct (over charge A); [|done]. simpl. apply NoDup_cons in Hnd as [Ha Hnd].
  apply IH; [apply wf_drop_lru; [done|apply Hl; by left]|done|].
  intros b Hb. apply drop_lru_ne; [by intros ->|apply Hl; by right].
Qed.

Lemma filter_split {B} (P Q : B -> Prop) `{!forall x, Decision (P x), !forall x, Decision (Q x)} (l : list B) :
  (forall x, x ∈ l -> Q x <-> ~ P x) -> filter P l ++ filter Q l ≡ₚ l.
Proof.
  induction l as [|x l IH]; intros HPQ; [done|].
  assert (filter P l ++ filter Q l ≡ₚ l) as IHl by (apply IH; intros y Hy; apply HPQ; by right).
  assert (Q x <-> ~ P x) as Hx by (apply HPQ; by left).
  rewrite !filter_cons. destruct (decide (P x)), (decide (Q x)); try tauto; simpl.
  - by rewrite IHl.
  - rewrite <-Permutation_middle. by rewrite IHl.
Qed.

Lemma lru_priority A a :
  wf A -> a ∈ a_lru A -> has_priority DURABLE A a <-> ~ has_priority NORMAL A a.
Proof.
  intros W (en & He & _)%(wf_lru _ W). unfold has_priority. rewrite He. simpl.
  destruct (x_priority en); split; congruence.
Qed.

Lemma eviction_order_perm A : wf A -> eviction_order A ≡ₚ a_lru A.
Proof. intros W. apply filter_split. intros a. by apply lru_priority. Qed.

Lemma wf_evict charge A : wf A -> wf (spec_evict charge A).1.
Proof.
  intros W. pose proof (eviction_order_perm A W) as HP. apply wf_evict_list; [done| |].
  - rewrite HP. apply W.
  - intros a. by rewrite HP.
Qed.

Lemma evict_list_app charge l1 l2 A :
  evict_list charge (l1 ++ l2) A =
  let r1 := evict_list charge l1 A in
  let r2 := evict_list charge l2 r1.1 in
  if decide (length r1.2 = length l1) then (r2.1, r1.2 ++ r2.2) else r1.
Proof.
  revert A. induction l1 as [|a l1 IH]; intros A; simpl.
  { by destruct (evict_list charge l2 A). }
  destruct (over charge A) eqn:E; simpl; [|done].
  rewrite IH. simpl. do 2 case_decide; try lia; done.
Qed.

Lemma wf_with_capacity n A : wf A -> wf (with_capacity n A).
Proof. intros W. split; apply W. Qed.

Lemma wf_set_capacity n A : wf A -> wf (spec_set_capacity n A).1.
Proof. intros W. by apply wf_evict, wf_with_capacity. Qed.

Lemma wf_drop_all l A :
  wf A -> NoDup l -> (forall a, a ∈ l -> a ∈ a_lru A) -> wf (drop_all l A).
Proof.
  revert A. induction l as [|a l IH]; intros A W Hnd Hl; simpl; [done|].
  apply NoDup_cons in Hnd as [Ha Hnd].
  apply IH; [apply wf_drop_lru; [done|apply Hl; by left]|done|].
  intros b Hb. apply drop_lru_ne; [by intros ->|apply Hl; by right].
Qed.

Lemma wf_prune A : wf A -> wf (spec_prune A).1.
Proof. intros W. apply wf_drop_all; [done|apply W|done]. Qed.

(** dropping entries shrinks the maps *)
Lemma drop_sub a A :
  a_ents (drop_entry a A) ⊆ a_ents A /\ a_tab (drop_entry a A) ⊆ a_tab A.
Proof.
  unfold drop_entry. destruct (a_ents A !! a); [|done]. simpl.
  split; apply delete_subseteq.
Qed.

Lemma evict_list_sub charge l A :
  a_ents (evict_list charge l A).1 ⊆ a_ents A /\ a_tab (evict_list charge l A).1 ⊆ a_tab A.
Proof.
  revert A. induction l as [|a l IH]; intros A; simpl; [done|].
  destruct (over charge A); [simpl|done].
  destruct (IH (drop_entry a A)), (drop_sub a A). split; by etrans.
Qed.

Lemma unmap_sub kh A :
  a_ents (spec_unmap kh A).1 ⊆ a_ents A /\ a_tab (spec_unmap kh A).1 ⊆ a_tab A.
Proof.
  unfold spec_unmap. destruct (a_tab A !! kh) as [o|]; [|done].
  destruct (a_ents A !! o) as [en|]; [|done].
  destruct (_ =? _); [apply drop_sub|]. simpl. split; [done|apply delete_subseteq].
Qed.

Lemma unmap_gone kh A : wf A -> a_tab (spec_unmap kh A).1 !! kh = None.
Proof.
  intros W. unfold spec_unmap. destruct (a_tab A !! kh) as [o|] eqn:Ht; [|done].
  destruct (wf_tab _ W kh o Ht) as (en & He & <-). rewrite He.
  destruct (_ =? _); simpl; [unfold drop_entry; rewrite He; simpl|]; apply lookup_delete_eq.
Qed.

Lemma wf_insert e key hash value charge deleter priority A :
  wf A -> a_ents A !! e = None -> inu 32 hash -> inu 64 charge ->
  Z.of_nat (size (a_tab A)) < 2 ^ 31 ->
  wf (spec_insert e key hash value charge deleter priority A).1.
Proof.
  intros W He Hh Hc Hs. unfold spec_insert. simpl.
  pose proof (wf_evict charge A W) as W1. pose proof (wf_unmap _ W1 (key, hash)) as W2.
  destruct (evict_list_sub charge (eviction_order A) A) as [HE HT].
  destruct (unmap_sub (key, hash) (spec_evict charge A).1) as [HE' HT'].
  apply wf_add; try done; simpl.
  - eapply lookup_weaken_None; [|exact HE']. by eapply lookup_weaken_None.
  - by apply unmap_gone.
  - apply map_subseteq_size in HT, HT'. unfold spec_evict in *. lia.
Qed.

(** ** What eviction does *)

Lemma evict_list_prefix charge l A : (evict_list charge l A).2 `prefix_of` l.
Proof.
  revert A. induction l as [|a l IH]; intros A; simpl; [done|].
  destruct (over charge A); simpl; [by apply prefix_cons|apply prefix_nil].
Qed.

Lemma evict_list_idle charge l A : over charge A = false -> evict_list charge l A = (A, []).
Proof. intros Ho. destruct l; simpl; [done|]. by rewrite Ho. Qed.

Lemma evict_list_stop charge l A :
  length (evict_list charge l A).2 <> length l -> over charge (evict_list charge l A).1 = false.
Proof.
  revert A. induction l as [|a l IH]; intros A; simpl; [done|].
  destruct (over charge A) eqn:E; simpl; [|done]. intros Hl. apply IH. lia.
Qed.

Lemma evict_list_full charge l A :
  length (evict_list charge l A).2 = length l -> (evict_list charge l A).2 = l.
Proof.
  intros Hl. destruct (evict_list_prefix charge l A) as [k Hk].
  assert (k = []) as ->; [|by rewrite app_nil_r in Hk].
  apply length_zero_iff_nil. rewrite Hk in Hl at 2. rewrite length_app in Hl. lia.
Qed.

(** the list loses exactly the victims, in place *)
Lemma evict_list_lru charge l A :
  wf A -> NoDup l -> (forall a, a ∈ l -> a ∈ a_lru A) ->
  a_lru (evict_list charge l A).1 = filter (fun b => b ∉ (evict_list charge l A).2) (a_lru A).
Proof.
  revert A. induction l as [|a l IH]; intros A W Hnd Hl; simpl.
  { symmetry. apply filter_all. intros x _. apply not_elem_of_nil. }
  destruct (over charge A); simpl.
  2:{ symmetry. apply filter_all. intros x _. apply not_elem_of_nil. }
  apply NoDup_cons in Hnd as [Ha Hnd].
  assert (a ∈ a_lru A) as Hin by (apply Hl; by left).
  rewrite IH; [|by apply wf_drop_lru|done|].
  - pose proof Hin as (en & He & _)%(wf_lru _ W). rewrite (drop_lru a A en He).
    unfold without. rewrite list_filter_filter. apply list_filter_iff.
    intros x. rewrite not_elem_of_cons. tauto.
  - intros b Hb. apply drop_lru_ne; [by intros ->|apply Hl; by right].
Qed.

Lemma filter_not_filter {B} `{EqDecision B} (P Q : B -> Prop)
    `{!forall x, Decision (P x), !forall x, Decision (Q x)} (l : list B) :
  (forall x, x ∈ l -> Q x <-> ~ P x) -> filter (fun x => x ∉ filter P l) l = filter Q l.
Proof.
  intros HPQ. assert (forall l' : list B, (forall x, x ∈ l' -> x ∈ l) ->
    filter (fun x => x ∉ filter P l) l' = filter Q l') as HH; [|by apply HH].
  intros l'. induction l' as [|x l' IH]; intros Hin; [done|]. rewrite !filter_cons.
  rewrite IH by (intros y Hy; apply Hin; by right).
  assert (x ∉ filter P l <-> Q x) as HE.
  { rewrite list_elem_of_filter, HPQ by (apply Hin; by left).
    pose proof (Hin x ltac:(by left)). tauto. }
  destruct (decide (x ∉ filter P l)), (decide (Q x)); tauto.
Qed.

(** when the normal entries do not suffice, the durable ones are next *)
Lemma evict_normal_lru charge A :
  wf A ->
  let r := evict_list charge (filter (has_priority NORMAL A) (a_lru A)) A in
  length r.2 = length (filter (has_priority NORMAL A) (a_lru A)) ->
  a_lru r.1 = filter (has_priority DURABLE A) (a_lru A).
Proof.
  intros W r Hl. subst r. rewrite evict_list_lru; [|done|apply NoDup_filter, W|].
  - rewrite (evict_list_full _ _ _ Hl). apply filter_not_filter.
    intros a. by apply lru_priority.
  - intros a. rewrite list_elem_of_filter. tauto.
Qed.

(** eviction drops a prefix of the list, no longer than needed *)
Lemma evict_list_drops charge l A :
  (evict_list charge l A).1 = drop_all (evict_list charge l A).2 A.
Proof.
  revert A. induction l as [|a l IH]; intros A; simpl; [done|].
  destruct (over charge A); simpl; [apply IH|done].
Qed.

Lemma evict_list_minimal charge l A k :
  (k < length (evict_list charge l A).2)%nat -> over charge (drop_all (take k l) A) = true.
Proof.
  revert A k. induction l as [|a l IH]; intros A k; simpl; [lia|].
  destruct (over charge A) eqn:E; simpl; [|lia]. intros Hk.
  destruct k as [|k]; simpl; [done|]. apply IH. lia.
Qed.

(** ** What the entries of a cache become *)

Definition live (A : acache) : list deletion := x_deletion <$> (map_to_list (a_ents A)).*2.

Lemma live_ents A A' : a_ents A = a_ents A' -> live A = live A'.
Proof. unfold live. by intros ->. Qed.

Lemma live_insert A A' e en :
  a_ents A !! e = None -> a_ents A' = <[e := en]> (a_ents A) -> live A' ≡ₚ x_deletion en :: live A.
Proof. intros He E. unfold live. rewrite E, map_to_list_insert by done. done. Qed.

Lemma live_delete A A' a en :
  a_ents A !! a = Some en -> a_ents A' = delete a (a_ents A) -> live A ≡ₚ x_deletion en :: live A'.
Proof.
  intros Ha E. unfold live. rewrite E, <-(insert_delete_id (a_ents A) a en) at 1 by done.
  by rewrite map_to_list_insert by apply lookup_delete_eq.
Qed.

Lemma live_update A A' a en en' :
  a_ents A !! a = Some en -> a_ents A' = <[a := en']> (a_ents A) ->
  x_deletion en' = x_deletion en -> live A ≡ₚ live A'.
Proof.
  intros Ha E Ed. rewrite (live_delete A (drop_entry a A) a en Ha), <-Ed.
  - symmetry. apply (live_insert _ _ a); unfold drop_entry; rewrite Ha; simpl.
    + apply lookup_delete_eq.
    + by rewrite insert_delete_eq.
  - unfold drop_entry. by rewrite Ha.
Qed.

Lemma live_drop A a : is_Some (a_ents A !! a) -> live A ≡ₚ deletions_of A [a] ++ live (drop_entry a A).
Proof.
  intros [en He]. rewrite (deletions_of_one A a en He). simpl.
  apply (live_delete A _ a en He). unfold drop_entry. by rewrite He.
Qed.

Lemma deletions_of_app A l1 l2 : deletions_of A (l1 ++ l2) = deletions_of A l1 ++ deletions_of A l2.
Proof. unfold deletions_of. apply omap_app. Qed.

Lemma deletions_of_sub A A' l :
  a_ents A' ⊆ a_ents A -> (forall a, a ∈ l -> is_Some (a_ents A' !! a)) ->
  deletions_of A' l = deletions_of A l.
Proof.
  intros HS Hl. apply omap_ext_elem. intros a Ha. destruct (Hl a Ha) as [en He].
  by rewrite He, (lookup_weaken _ _ _ _ He HS).
Qed.

Lemma drop_ents_ne a b A : b <> a -> a_ents (drop_entry a A) !! b = a_ents A !! b.
Proof.
  intros Hne. unfold drop_entry. destruct (a_ents A !! a); [|done]. simpl.
  by apply lookup_delete_ne.
Qed.

Lemma live_drop_all l A :
  NoDup l -> (forall a, a ∈ l -> is_Some (a_ents A !! a)) ->
  live A ≡ₚ deletions_of A l ++ live (drop_all l A).
Proof.
  revert A. induction l as [|a l IH]; intros A Hnd Hl; [done|].
  apply NoDup_cons in Hnd as [Ha Hnd]. rewrite (live_drop A a) by (apply Hl; by left).
  assert (forall b, b ∈ l -> a_ents (drop_entry a A) !! b = a_ents A !! b) as Hne.
  { intros b Hb. apply drop_ents_ne. by intros ->. }
  rewrite (IH (drop_entry a A)); [|done|].
  - rewrite (deletions_of_app A [a] l : deletions_of A (a :: l) = _), <-app_assoc. simpl.
    rewrite (deletions_of_sub A); [done|apply drop_sub|].
    intros b Hb. rewrite Hne by done. apply Hl. by right.
  - intros b Hb. rewrite Hne by done. apply Hl. by right.
Qed.

Lemma live_unmap kh A :
  live A ≡ₚ deletions_of A (spec_unmap kh A).2 ++ live (spec_unmap kh A).1.
Proof.
  unfold spec_unmap. destruct (a_tab A !! kh) as [o|]; [|done].
  destruct (a_ents A !! o) as [en|] eqn:He; [|done].
  destruct (_ =? _); [|done]. apply live_drop. by eexists.
Qed.

Lemma live_lookup key hash A : wf A -> live A ≡ₚ live (spec_lookup key hash A).2.
Proof.
  intros W. unfold spec_lookup. destruct (a_tab A !! (key, hash)) as [a|] eqn:Et; [|done].
  destruct (wf_tab _ W _ _ Et) as (en & He & _).
  apply (live_update A _ a en (with_handles (x_handles en + 1) en)); [done| |done].
  by apply (alter_handles A a en (fun en => with_handles (x_handles en + 1) en)).
Qed.

Lemma live_release a A :
  live A ≡ₚ deletions_of A (spec_release a A).2 ++ live (spec_release a A).1.
Proof.
  unfold spec_release. destruct (a_ents A !! a) as [en|] eqn:He; [|done].
  destruct (negb _); [by eapply live_update|].
  destruct (cached A a en); [destruct (_ <? _)|].
  - apply live_drop. by eexists.
  - by eapply live_update.
  - cbn [fst snd]. rewrite (deletions_of_one A a en He). by apply (live_delete A _ a en).
Qed.

Lemma evicted_lru charge A a : wf A -> a ∈ (spec_evict charge A).2 -> a ∈ a_lru A.
Proof.
  intros W Ha. rewrite <-(eviction_order_perm A W).
  destruct (evict_list_prefix charge (eviction_order A) A) as [k ->]. apply elem_of_app. by left.
Qed.

Lemma evicted_nodup charge A : wf A -> NoDup (spec_evict charge A).2.
Proof.
  intros W. pose proof (wf_nodup _ W) as Hnd. rewrite <-(eviction_order_perm A W) in Hnd.
  destruct (evict_list_prefix charge (eviction_order A) A) as [k Hk]. rewrite Hk in Hnd.
  by apply NoDup_app in Hnd as [? _].
Qed.

Lemma lru_is_entry A a : wf A -> a ∈ a_lru A -> is_Some (a_ents A !! a).
Proof. intros W (en & He & _)%(wf_lru _ W). by eexists. Qed.

Lemma live_evict charge A :
  wf A -> live A ≡ₚ deletions_of A (spec_evict charge A).2 ++ live (spec_evict charge A).1.
Proof.
  intros W. unfold spec_evict. rewrite (evict_list_drops charge). apply live_drop_all.
  - by apply evicted_nodup.
  - intros a Ha. eapply lru_is_entry; [done|]. by eapply evicted_lru.
Qed.

Lemma unmapped_is_entry kh A a : a ∈ (spec_unmap kh A).2 -> is_Some (a_ents A !! a).
Proof.
  unfold spec_unmap. destruct (a_tab A !! kh) as [o|]; [|by intros ?%elem_of_nil].
  destruct (a_ents A !! o) as [en|] eqn:He; [|by intros ?%elem_of_nil].
  destruct (_ =? _); [|by intros ?%elem_of_nil]. intros ->%list_elem_of_singleton. by eexists.
Qed.

Lemma live_insert_op e key hash value charge deleter priority A :
  wf A -> a_ents A !! e = None ->
  let r := spec_insert e key hash value charge deleter priority A in
  mkDeletion deleter key value :: live A ≡ₚ deletions_of A r.2 ++ live r.1.
Proof.
  intros W He r. subst r. unfold spec_insert. simpl.
  set (A1 := (spec_evict charge A).1). set (V1 := (spec_evict charge A).2).
  set (A2 := (spec_unmap (key, hash) A1).1). set (V2 := (spec_unmap (key, hash) A1).2).
  destruct (evict_list_sub charge (eviction_order A) A) as [HS1 _].
  destruct (unmap_sub (key, hash) A1) as [HS2 _].
  rewrite (live_insert A2 (add e _ A2) e (mkX value deleter charge key hash priority 1)); [|
    |done].
  2:{ eapply lookup_weaken_None; [|exact HS2]. by eapply lookup_weaken_None. }
  rewrite (live_evict charge A W). fold A1 V1. rewrite (live_unmap (key, hash) A1). fold A2 V2.
  rewrite deletions_of_app, (deletions_of_sub A A1 V2); [|done|].
  - rewrite <-app_assoc, <-!Permutation_middle. done.
  - intros a. apply unmapped_is_entry.
Qed.

(** ** Usage and capacity *)

(** everything fits, unless all that is left is in use *)
Definition within (A : acache) : Prop :=
  a_lru A = [] \/ total_charge (a_ents A) <= a_capacity A.

Lemma total_charge_wf A : wf A -> 0 <= total_charge (a_ents A).
Proof.
  intros W. apply total_charge_nonneg. intros a en He. by destruct (wf_entry _ W a en He) as (_ & _ & []).
Qed.

Lemma usage_exact A : wf A -> total_charge (a_ents A) < 2 ^ 64 -> a_usage A = total_charge (a_ents A).
Proof. intros W Ht. apply wrapu_id. split; [by apply total_charge_wf|done]. Qed.

Lemma over_exact charge A :
  wf A -> 0 <= charge -> total_charge (a_ents A) + charge < 2 ^ 64 ->
  over charge A = (a_capacity A <? total_charge (a_ents A) + charge).
Proof.
  intros W Hc Ht. unfold over. rewrite usage_exact by (done || lia).
  pose proof (total_charge_wf A W). rewrite wrapu_id by (unfold inu; lia). done.
Qed.

(** dropping, unmapping and releasing never add to the total *)
Lemma total_charge_sub ents ents' :
  ents' ⊆ ents -> (forall a en, ents !! a = Some en -> 0 <= x_charge en) ->
  total_charge ents' <= total_charge ents.
Proof.
  revert ents. induction ents' as [|a en ents' Ha IH] using map_ind; intros ents HS Hc.
  { by apply total_charge_nonneg. }
  assert (ents !! a = Some en) as He.
  { eapply lookup_weaken; [|exact HS]. by rewrite lookup_insert_eq. }
  rewrite total_charge_insert by done.
  enough (total_charge ents' <= total_charge (delete a ents)) as Hle.
  { rewrite (total_charge_delete _ _ en) in Hle by done. lia. }
  apply IH.
  - apply map_subseteq_spec. intros b x Hb.
    rewrite lookup_delete_ne by (intros ->; congruence).
    eapply lookup_weaken; [|exact HS]. rewrite lookup_insert_ne by (intros ->; congruence). done.
  - intros b x [_ Hb]%lookup_delete_Some. by eapply Hc.
Qed.

Lemma total_charge_sub_wf A ents' :
  wf A -> ents' ⊆ a_ents A -> total_charge ents' <= total_charge (a_ents A).
Proof.
  intros W HS. apply total_charge_sub; [done|]. intros a en He.
  by destruct (wf_entry _ W a en He) as (_ & _ & []).
Qed.

Lemma drop_capacity a A : a_capacity (drop_entry a A) = a_capacity A.
Proof. unfold drop_entry. by destruct (a_ents A !! a). Qed.

Lemma drop_all_capacity l A : a_capacity (drop_all l A) = a_capacity A.
Proof. revert A. induction l as [|a l IH]; intros A; simpl; [done|]. by rewrite IH, drop_capacity. Qed.

Lemma evict_capacity charge A : a_capacity (spec_evict charge A).1 = a_capacity A.
Proof. unfold spec_evict. rewrite evict_list_drops. apply drop_all_capacity. Qed.

Lemma unmap_capacity kh A : a_capacity (spec_unmap kh A).1 = a_capacity A.
Proof.
  unfold spec_unmap. destruct (a_tab A !! kh) as [o|]; [|done].
  destruct (a_ents A !! o) as [en|]; [|done]. destruct (_ =? _); [apply drop_capacity|done].
Qed.

Lemma lru_empty_sub (l l' : list addr) : (forall b, b ∈ l' -> b ∈ l) -> l = [] -> l' = [].
Proof. intros HS ->. destruct l' as [|b l']; [done|]. exfalso. eapply elem_of_nil, HS. by left. Qed.

Lemma unmap_lru kh A b : b ∈ a_lru (spec_unmap kh A).1 -> b ∈ a_lru A.
Proof.
  unfold spec_unmap. destruct (a_tab A !! kh) as [o|]; [|done].
  destruct (a_ents A !! o) as [en|]; [|done]. destruct (_ =? _); [apply elem_of_drop|done].
Qed.

(** eviction stops when the charge fits or nothing is left to evict *)
Lemma evict_enough charge A :
  wf A -> over charge (spec_evict charge A).1 = false \/ a_lru (spec_evict charge A).1 = [].
Proof.
  intros W. pose proof (eviction_order_perm A W) as HP.
  destruct (decide (length (spec_evict charge A).2 = length (eviction_order A))) as [El|Hl].
  - right. unfold spec_evict in *. rewrite evict_list_lru; [|done| |].
    + rewrite (evict_list_full _ _ _ El). destruct (filter _ _) as [|b l] eqn:E; [done|].
      assert (b ∈ filter (fun b => b ∉ eviction_order A) (a_lru A)) as Hb by (rewrite E; by left).
      apply list_elem_of_filter in Hb as [Hb1 Hb2]. by rewrite HP in Hb1.
    + rewrite HP. apply W.
    + intros a. by rewrite HP.
  - left. by apply evict_list_stop.
Qed.

Lemma within_sub A A' :
  wf A -> within A -> a_ents A' ⊆ a_ents A -> (forall b, b ∈ a_lru A' -> b ∈ a_lru A) ->
  a_capacity A' = a_capacity A -> within A'.
Proof.
  intros W [Hl|Ht] HS Hlru Hc; [left; by eapply lru_empty_sub|right].
  rewrite Hc. pose proof (total_charge_sub_wf A _ W HS). lia.
Qed.

Lemma within_evict A n :
  wf A -> total_charge (a_ents A) < 2 ^ 64 -> within (spec_set_capacity n A).1.
Proof.
  intros W Ht. pose proof (wf_with_capacity n A W) as Wc. unfold spec_set_capacity.
  destruct (evict_enough 0 (with_capacity n A) Wc) as [Ho|Hl]; [right|by left].
  assert (total_charge (a_ents (spec_evict 0 (with_capacity n A)).1) <= total_charge (a_ents A)) as Hs.
  { apply (total_charge_sub_wf (with_capacity n A)); [done|]. apply evict_list_sub. }
  rewrite over_exact in Ho by (first [by apply wf_evict|lia]). lia.
Qed.

Lemma within_insert e key hash value charge deleter priority A :
  wf A -> a_ents A !! e = None -> 0 <= charge -> total_charge (a_ents A) + charge < 2 ^ 64 ->
  within (spec_insert e key hash value charge deleter priority A).1.
Proof.
  intros W He Hc Ht. unfold spec_insert. simpl.
  pose proof (wf_evict charge A W) as W1. set (A1 := (spec_evict charge A).1) in *.
  destruct (evict_list_sub charge (eviction_order A) A) as [HS1 _].
  pose proof (total_charge_sub_wf A _ W HS1) as Ht1. fold (spec_evict charge A) A1 in Ht1, HS1.
  destruct (unmap_sub (key, hash) A1) as [HS2 _].
  pose proof (total_charge_sub_wf A1 _ W1 HS2) as Ht2.
  destruct (evict_enough charge A W) as [Ho|Hl]; fold A1 in Ho || fold A1 in Hl.
  - right. simpl. rewrite total_charge_insert.
    + rewrite unmap_capacity. rewrite over_exact in Ho by (done || lia). simpl. lia.
    + eapply lookup_weaken_None; [|exact HS2]. by eapply lookup_weaken_None.
  - left. simpl. eapply lru_empty_sub; [|exact Hl]. intros b. apply unmap_lru.
Qed.

Lemma within_lookup key hash A : wf A -> within A -> within (spec_lookup key hash A).2.
Proof.
  intros W Hw. unfold spec_lookup. destruct (a_tab A !! (key, hash)) as [a|] eqn:Et; [|done].
  destruct (wf_tab _ W _ _ Et) as (en & He & _). unfold within. simpl.
  rewrite (alter_handles A a en), (total_charge_update _ a en) by done.
  destruct Hw as [Hl|Ht]; [left|by right]. eapply lru_empty_sub; [|exact Hl].
  by intros b [? _]%elem_of_without.
Qed.

Lemma within_release a A :
  wf A -> total_charge (a_ents A) < 2 ^ 64 -> within A -> within (spec_release a A).1.
Proof.
  intros W Ht Hw. unfold spec_release. destruct (a_ents A !! a) as [en|] eqn:He; [|done].
  destruct (negb _).
  { unfold within. simpl. by rewrite (total_charge_update _ a en). }
  destruct (cached A a en); [destruct (Z.ltb_spec (a_capacity A) (a_usage A))|]; simpl.
  - apply (within_sub A); [done|done|apply drop_sub|intros b; apply elem_of_drop|apply drop_capacity].
  - right. simpl. rewrite (total_charge_update _ a en) by done.
    rewrite usage_exact in * by done. lia.
  - apply (within_sub A); try done. apply delete_subseteq.
Qed.

Lemma drop_all_lru l A :
  (forall a, a ∈ l -> is_Some (a_ents A !! a)) -> NoDup l ->
  a_lru (drop_all l A) = filter (fun b => b ∉ l) (a_lru A).
Proof.
  revert A. induction l as [|a l IH]; intros A Hl Hnd; simpl.
  { symmetry. apply filter_all. intros x _. apply not_elem_of_nil. }
  apply NoDup_cons in Hnd as [Ha Hnd]. destruct (Hl a ltac:(by left)) as [en He].
  rewrite IH; [| |done].
  - rewrite (drop_lru a A en He). unfold without. rewrite list_filter_filter.
    apply list_filter_iff. intros x. rewrite not_elem_of_cons. tauto.
  - intros b Hb. rewrite drop_ents_ne by (by intros ->). apply Hl. by right.
Qed.

Lemma prune_lru A : wf A -> a_lru (spec_prune A).1 = [].
Proof.
  intros W. simpl. rewrite drop_all_lru; [| |apply W].
  - destruct (filter _ _) as [|b l] eqn:E; [done|].
    assert (b ∈ filter (fun b => b ∉ a_lru A) (a_lru A)) as Hb by (rewrite E; by left).
    by apply list_elem_of_filter in Hb as [? ?].
  - intros a. by apply lru_is_entry.
Qed.

Lemma prune_sub A : a_ents (spec_prune A).1 ⊆ a_ents A.
Proof.
  simpl. generalize (a_lru A). intros l. revert A.
  induction l as [|a l IH]; intros A; simpl; [done|]. etrans; [apply IH|apply drop_sub].
Qed.
