(* ===== verification/LRURefine.v ===== *)
(** * The code of [LRUCache] implements the abstract cache

    [crep] relates a heap and an [LRUCache] object to an abstract cache of
    LRUSpec.v. For every method: from a related state the code runs without a
    null dereference, a use after free, a failed DCHECK or an endless loop, its
    result and the deleter calls are those of the abstract operation, the
    final states are related, and no handle outside the shard is touched. *)

From S2P Require Import Prelude CacheKey HandleTable HandleTableRep LRUCache LRUList LRUSpec.

(** an abstract entry as it is stored: the cache itself holds one reference *)
Definition centry (tab : gmap (CacheKey * Z) addr) (a : addr) (en : aentry) : entry :=
  let c := bool_decide (tab !! xkh en = Some a) in
  mkEntry (x_value en) (x_deleter en) (x_charge en) (x_key en) (x_hash en) (x_priority en)
    c (x_handles en + Z.b2z c).

Definition cents (tab : gmap (CacheKey * Z) addr) (ents : gmap addr aentry) : gmap addr entry :=
  map_imap (fun a en => Some (centry tab a en)) ents.

(** an entry that left the cache and waits to be freed *)
Definition dead (en : aentry) : entry :=
  mkEntry (x_value en) (x_deleter en) (x_charge en) (x_key en) (x_hash en) (x_priority en)
    false 0.

Definition dead_of (A : acache) (V : list addr) : gmap addr entry :=
  dead <$> filter (fun p => p.1 ∈ V) (a_ents A).

Lemma cents_lookup tab ents a : cents tab ents !! a = centry tab a <$> ents !! a.
Proof. unfold cents. rewrite map_lookup_imap. by destruct (ents !! a). Qed.

Lemma centry_ext tab tab' a en :
  (tab !! xkh en = Some a <-> tab' !! xkh en = Some a) -> centry tab a en = centry tab' a en.
Proof. intros HE. unfold centry. by rewrite (bool_decide_ext _ _ HE). Qed.

Lemma dead_of_lookup A V a :
  dead_of A V !! a = if decide (a ∈ V) then dead <$> a_ents A !! a else None.
Proof.
  unfold dead_of. rewrite lookup_fmap, map_lookup_filter.
  destruct (a_ents A !! a) as [en|]; simpl; [|by case_decide].
  unfold guard. repeat case_decide; done.
Qed.

Lemma dead_of_snoc A V a en :
  a_ents A !! a = Some en -> dead_of A (V ++ [a]) = <[a := dead en]> (dead_of A V).
Proof.
  intros Ha. apply map_eq. intros b. rewrite lookup_insert, !dead_of_lookup.
  destruct (decide (a = b)) as [->|Hne]; repeat case_decide; try set_solver.
  by rewrite Ha.
Qed.

Section Refine.
Context {rep : gmap addr LRUHandle -> HandleTable -> gmap (CacheKey * Z) addr -> Prop}.
Context {laws : TableLaws rep}.

Abbreviation shard := (shard (rep := rep)).

Lemma shard_list_fuel P m self t tab E lru :
  shard P (handles m) self t tab E lru -> (length lru < list_fuel m)%nat.
Proof.
  intros R. unfold list_fuel. apply Nat.lt_succ_r, nodup_heap_length.
  - eapply NoDup_cons_1_2. apply R.
  - intros a Ha. destruct (s_lru R a Ha) as [en He].
    destruct (shard_handle R a en He) as (h & -> & _). by eexists.
Qed.

Lemma wp_sub_charge P m c tab E lru e en (Q : unit -> cstate -> Prop) :
  shard P (handles m) (c_lru c) (c_table c) tab E lru -> E !! e = Some en ->
  Q tt (m, set_c_usage (u64 (c_usage c - e_charge en)) c) -> wp (sub_charge e) Q (m, c).
Proof.
  intros R He HQ. unfold sub_charge. eapply wp_bind, wp_on_mem, wp_entry_load; [done..|].
  intros h <-. by apply wp_modify.
Qed.

(** taking an entry out of the table and dropping the cache's reference *)
Lemma wp_uncache {B} P m c tab E lru e en (rest : M cstate B) (Q : B -> cstate -> Prop) :
  shard P (handles m) (c_lru c) (c_table c) tab E lru ->
  E !! e = Some en -> e_refs en = 1 -> inu 32 (e_hash en) ->
  (forall m' t', shard P (handles m') (c_lru c) t' (delete (ekh en) tab)
       (<[e := with_refs 0 (with_in_cache false en)]> E) lru ->
     mem_step P [] m m' -> wp rest Q (m', set_c_table t' c)) ->
  wp (k ← on_mem (LRUHandle_key e);
      h ← on_mem (load (Some e));
      _ ← on_table (HandleTable_remove k (h_hash h));
      _ ← on_mem (store (Some e) (set_in_cache false));
      _ ← on_mem (LRUCache_unref e);
      rest) Q (m, c).
Proof.
  intros R He Href Hh HQ.
  eapply wp_bind, wp_on_mem, wp_entry_key; [done..|]. simpl.
  eapply wp_bind, wp_on_mem, wp_entry_load; [done..|]. intros h Hv. simpl.
  replace (h_hash h) with (e_hash en) by (by rewrite <-Hv).
  eapply wp_bind, wp_table_remove; [exact R|done|]. intros m2 t2 R2 S2.
  eapply wp_bind, wp_on_mem, (wp_entry_store _ _ _ _ _ _ _ _ _ _ (with_in_cache false)); [done..|].
  intros m3 R3 S3. simpl.
  eapply wp_bind, wp_on_mem, wp_unref; [exact R3|by rewrite lookup_insert_eq|simpl; lia|].
  intros m4 R4 S4. simpl in *. rewrite insert_insert_eq, Href in R4.
  apply HQ; [exact R4|mem_steps].
Qed.

(** the sequence that evicts an unused entry *)
Lemma wp_evict_one P m c tab E L1 e L2 en (Q : unit -> cstate -> Prop) :
  shard P (handles m) (c_lru c) (c_table c) tab E (L1 ++ e :: L2) ->
  E !! e = Some en -> e_in_cache en = true -> e_refs en = 1 -> inu 32 (e_hash en) ->
  (forall m' t', shard P (handles m') (c_lru c) t' (delete (ekh en) tab)
       (<[e := with_refs 0 (with_in_cache false en)]> E) (L1 ++ L2) ->
     mem_step P [] m m' ->
     Q tt (m', set_c_usage (u64 (c_usage c - e_charge en)) (set_c_table t' c))) ->
  wp (LRUCache_evict_one_entry e) Q (m, c).
Proof.
  intros R He Hin Href Hh HQ. unfold LRUCache_evict_one_entry.
  eapply wp_bind, wp_on_mem, wp_entry_load; [done..|]. intros h Hv. simpl.
  apply wp_bind, wp_check; [by rewrite <-Hv in Hin|].
  apply wp_bind, wp_check; [apply Z.eqb_eq; by rewrite <-Hv in Href|].
  eapply wp_bind, wp_on_mem, wp_lru_remove; [exact R|]. intros m1 R1 S1. simpl.
  eapply wp_uncache; [exact R1|done..|]. intros m2 t2 R2 S2.
  eapply wp_sub_charge; [exact R2|by rewrite lookup_insert_eq|].
  apply HQ; [exact R2|mem_steps].
Qed.

(** freeing the entries that were collected *)
Lemma wp_free_all P m self t tab C D lru V (Q : unit -> mem -> Prop) :
  shard P (handles m) self t tab (C ∪ D) lru -> C ##ₘ D ->
  NoDup V -> (forall a, is_Some (D !! a) <-> (a ∈ V)) ->
  (forall a, a ∈ V -> (a ∉ lru) /\ ~ in_table tab a) ->
  (forall m', shard P (handles m') self t tab C lru ->
     mem_step P (omap (fun a => entry_deletion <$> D !! a) V) m m' -> Q tt m') ->
  wp (free_all V) Q m.
Proof.
  revert m D. generalize Q as Q'.
  induction V as [|v V IH]; intros Q' m D R Hd Hnd Hdom Hout HQ; simpl.
  - assert (D = ∅) as ->.
    { apply map_empty. intros a. destruct (D !! a) eqn:E; [|done].
      assert (a ∈ []) as Ha by (apply Hdom; by eexists). by apply elem_of_nil in Ha. }
    rewrite map_union_empty in R. apply wp_ret, HQ; [done|apply mem_step_refl].
  - apply NoDup_cons in Hnd as [Hv Hnd].
    assert (is_Some (D !! v)) as [en Hen] by (apply Hdom; by left).
    destruct (Hout v ltac:(by left)) as [Hl Ht].
    eapply wp_bind, (wp_free _ _ _ _ _ _ _ _ en); [exact R|by apply lookup_union_Some_r|done..|].
    intros m1 R1 S1. rewrite delete_union in R1.
    rewrite (delete_id C) in R1.
    2:{ by eapply map_disjoint_Some_r. }
    apply (IH _ m1 (delete v D)); try done.
    + by apply map_disjoint_delete_r.
    + intros a. rewrite lookup_delete_is_Some, Hdom, elem_of_cons. split; [naive_solver|].
      intros Ha. split; [|by right]. by intros ->.
    + intros a Ha. apply Hout. by right.
    + intros m2 R2 S2. apply HQ; [done|].
      rewrite (omap_cons_Some _ _ (entry_deletion en)) by (by rewrite Hen).
      eapply (mem_step_trans _ [_]); [done|].
      rewrite (omap_ext_elem _ (fun a => entry_deletion <$> delete v D !! a)); [done|].
      intros a Ha. rewrite lookup_delete_ne; [done|]. by intros ->.
Qed.
(** ** The relation, with entries [D] that are allocated but not part of the cache *)

Record mrep (P : addr -> Prop) (s : cstate) (A : acache) (D : gmap addr entry) : Prop := {
  mr_shard : shard P (handles s.1) (c_lru s.2) (c_table s.2) (a_tab A)
               (cents (a_tab A) (a_ents A) ∪ D) (a_lru A);
  mr_disj : forall a, is_Some (D !! a) -> a_ents A !! a = None;
  mr_capacity : c_capacity s.2 = a_capacity A;
  mr_usage : c_usage s.2 = a_usage A;
  mr_lookups : c_lookup_count s.2 = a_lookups A;
  mr_hits : c_hit_count s.2 = a_hits A
}.
Arguments mr_shard {P s A D} _.
Arguments mr_disj {P s A D} _.
Arguments mr_capacity {P s A D} _.
Arguments mr_usage {P s A D} _.
Arguments mr_lookups {P s A D} _.
Arguments mr_hits {P s A D} _.

Definition crep (P : addr -> Prop) (s : cstate) (A : acache) : Prop := mrep P s A ∅.

Lemma mrep_lookup P s A D a en :
  mrep P s A D -> a_ents A !! a = Some en ->
  (cents (a_tab A) (a_ents A) ∪ D) !! a = Some (centry (a_tab A) a en).
Proof.
  intros R He. apply lookup_union_Some_raw. left. by rewrite cents_lookup, He.
Qed.

Lemma mrep_over P s A D charge :
  mrep P s A D ->
  (c_capacity s.2 <? u64 (c_usage s.2 + charge)) = over charge A.
Proof. intros R. unfold over. by rewrite (mr_capacity R), (mr_usage R). Qed.

(** an unused entry as it is stored *)
Lemma centry_unused A a en :
  wf A -> a_ents A !! a = Some en -> x_handles en = 0 ->
  e_in_cache (centry (a_tab A) a en) = true /\ e_refs (centry (a_tab A) a en) = 1.
Proof.
  intros W He Hh. unfold centry. simpl.
  rewrite bool_decide_true by (by apply (wf_cached _ W)). rewrite Hh. done.
Qed.

(** leaving the cache does not change how the other entries are stored *)
Lemma centry_delete A a b en en' :
  wf A -> a_ents A !! a = Some en -> a_tab A !! xkh en = Some a ->
  a_ents A !! b = Some en' -> b <> a ->
  centry (delete (xkh en) (a_tab A)) b en' = centry (a_tab A) b en'.
Proof.
  intros W He Ht Hb Hne. apply centry_ext. rewrite lookup_delete_Some. split; [tauto|].
  intros Hc. split; [|done]. intros Ek. rewrite <-Ek in Hc. congruence.
Qed.

Lemma cents_drop A a en D ce :
  wf A -> a_ents A !! a = Some en -> a_tab A !! xkh en = Some a -> ce = dead en ->
  <[a := ce]> (cents (a_tab A) (a_ents A) ∪ D) =
  cents (delete (xkh en) (a_tab A)) (delete a (a_ents A)) ∪ <[a := dead en]> D.
Proof.
  intros W He Ht ->. apply map_eq. intros b.
  rewrite lookup_insert, !lookup_union, !cents_lookup, lookup_delete, lookup_insert.
  destruct (decide (a = b)) as [->|Hne]; [done|].
  destruct (a_ents A !! b) as [en'|] eqn:Eb; [|done]. simpl.
  by rewrite (centry_delete A a b en en').
Qed.

Lemma usage_delete A A' a en u :
  u = a_usage A -> a_ents A !! a = Some en -> a_ents A' = delete a (a_ents A) ->
  u64 (u - x_charge en) = a_usage A'.
Proof.
  intros -> He E. unfold a_usage. rewrite wrapu_sub_l by lia.
  by rewrite E, (total_charge_delete _ _ en).
Qed.

Lemma wp_mevict P s A D a en (Q : unit -> cstate -> Prop) :
  wf A -> mrep P s A D -> a ∈ a_lru A -> a_ents A !! a = Some en ->
  (forall s', mrep P s' (drop_entry a A) (<[a := dead en]> D) ->
     mem_step P [] s.1 s'.1 -> c_lru s'.2 = c_lru s.2 -> Q tt s') ->
  wp (LRUCache_evict_one_entry a) Q s.
Proof.
  intros W R Ha He HQ. destruct s as [m c].
  pose proof Ha as (en' & He' & Hh)%(wf_lru _ W). simplify_eq.
  pose proof (wf_cached _ W a en He Hh) as Ht.
  destruct (centry_unused A a en W He Hh) as [Hin Href].
  pose proof (mr_shard R) as RS. pose proof Ha as (L1 & L2 & EL)%list_elem_of_split.
  rewrite EL in RS. destruct (wf_entry _ W a en He) as (_ & Hhash & _).
  eapply (wp_evict_one P m c _ _ L1 a L2 (centry (a_tab A) a en)); [done| |done..|].
  { by apply (mrep_lookup P (m, c)). }
  intros m' t' R' S'. apply HQ; [|done|done].
  change (ekh (centry (a_tab A) a en)) with (xkh en) in R'.
  rewrite (cents_drop A a en) in R' by done.
  unfold drop_entry. rewrite He. split; simpl; try apply R.
  - rewrite EL, without_middle; [done|]. rewrite <-EL. apply W.
  - intros b [<-|Hb]%lookup_insert_is_Some'; [apply lookup_delete_eq|].
    apply lookup_delete_None. right. by apply (mr_disj R).
  - by apply (usage_delete A _ a en); [apply (mr_usage R)|..].
Qed.
(** ** The eviction loops *)

(** the head of the list, and what follows an element of it *)
Lemma wp_load_cur P m c tab E L1 L2 (Q : LRUHandle -> mem -> Prop) :
  shard P (handles m) (c_lru c) (c_table c) tab E (L1 ++ L2) ->
  (forall h, h_next h = Some (headd L2 (c_lru c)) -> Q h m) ->
  wp (load (Some (lastd (c_lru c) L1))) Q m.
Proof.
  intros R HQ. assert (nx (handles m) (lastd (c_lru c) L1) = Some (headd L2 (c_lru c))) as Hn.
  { pose proof (s_links R) as Hl. destruct L2 as [|b L2].
    - rewrite app_nil_r in Hl. by apply links_back in Hl as [? _].
    - apply links_app in Hl as [Hl _]. by apply links_back in Hl as [? _]. }
  unfold nx in Hn. destruct (handles m !! _) as [h|] eqn:E'; [|done].
  apply (wp_load _ h); [done|]. by apply HQ.
Qed.

Lemma headd_self P H self t tab E L1 a L2 :
  shard P H self t tab E (L1 ++ a :: L2) -> Some (headd (a :: L2) self) <> Some self.
Proof.
  intros R [= E']. change (a = self) in E'. subst a.
  pose proof (s_nodup R) as [Hn _]%NoDup_cons. apply Hn. set_solver.
Qed.

Lemma drop_ents_sub a A A0 : a_ents A ⊆ a_ents A0 -> a_ents (drop_entry a A) ⊆ a_ents A0.
Proof. intros HS. etrans; [apply drop_sub|done]. Qed.

(** the accumulated victims after one more *)
Lemma dead_of_more A0 V D0 a en :
  a_ents A0 !! a = Some en ->
  <[a := dead en]> (dead_of A0 V ∪ D0) = dead_of A0 (V ++ [a]) ∪ D0.
Proof. intros Ha. by rewrite (dead_of_snoc _ _ _ en), insert_union_l. Qed.

Lemma has_priority_sub p A A0 a en :
  a_ents A ⊆ a_ents A0 -> a_ents A !! a = Some en -> has_priority p A0 a <-> x_priority en = p.
Proof.
  intros HS He. unfold has_priority. rewrite (lookup_weaken _ _ _ _ He HS). simpl.
  split; congruence.
Qed.

Lemma wp_evict_normal P charge A0 D0 fuel s A L1 L2 V (Q : list addr -> cstate -> Prop) :
  wf A -> mrep P s A (dead_of A0 V ∪ D0) -> a_ents A ⊆ a_ents A0 ->
  a_lru A = L1 ++ L2 -> (length L2 < fuel)%nat ->
  (forall s', let r := evict_list charge (filter (has_priority NORMAL A0) L2) A in
     mrep P s' r.1 (dead_of A0 (V ++ r.2) ∪ D0) -> mem_step P [] s.1 s'.1 ->
     c_lru s'.2 = c_lru s.2 -> Q (V ++ r.2) s') ->
  wp (evict_normal fuel charge (lastd (c_lru s.2) L1) V) Q s.
Proof.
  revert s A L1 L2 V. induction fuel as [|fuel IH]; intros s A L1 L2 V W R HS EL Hf HQ; [lia|].
  simpl. apply wp_bind, wp_gets. rewrite (mrep_over _ _ _ _ charge R).
  destruct (over charge A) eqn:Eo; simpl.
  2:{ apply wp_ret. specialize (HQ s). destruct (filter _ L2); simpl in HQ;
      rewrite ?Eo in HQ; simpl in HQ; rewrite app_nil_r in HQ; apply HQ; (done || apply mem_step_refl). }
  pose proof (mr_shard R) as RS. rewrite EL in RS. destruct s as [m c]. simpl in *.
  eapply wp_bind, wp_on_mem, wp_load_cur; [exact RS|]. intros h Hn. simpl. rewrite Hn.
  destruct L2 as [|a L2].
  { simpl. rewrite bool_decide_true by done. apply wp_ret. specialize (HQ (m, c)). simpl in HQ.
    rewrite app_nil_r in HQ. apply HQ; [done|apply mem_step_refl|done]. }
  rewrite bool_decide_false by (by eapply headd_self). simpl.
  assert (a ∈ a_lru A) as Ha by (rewrite EL; set_solver).
  pose proof Ha as (en & He & Hh)%(wf_lru _ W).
  eapply wp_bind, wp_on_mem, wp_entry_load; [exact RS|by apply (mrep_lookup P (m, c))|].
  intros o Ho. assert (h_priority o = x_priority en) as -> by exact (f_equal e_priority Ho).
  simpl. rewrite filter_cons in HQ. simpl in Hf.
  pose proof (has_priority_sub NORMAL A A0 a en HS He) as HP.
  case_bool_decide as Hp.
  - rewrite decide_False in HQ by (rewrite HP, Hp; done).
    replace a with (lastd (c_lru c) (L1 ++ [a])) at 1 by (unfold lastd; by rewrite last_snoc).
    apply (IH (m, c) A (L1 ++ [a]) L2 V); try done; [|lia].
    by rewrite <-app_assoc.
  - assert (x_priority en = NORMAL) as Hp' by (by destruct (x_priority en)).
    rewrite decide_True in HQ by (by apply HP). simpl in HQ. rewrite Eo in HQ. simpl in HQ.
    eapply wp_bind, (wp_mevict P (m, c) A); [done..|]. intros s1 R1 S1 E1. simpl in *.
    rewrite dead_of_more in R1 by (by eapply lookup_weaken). rewrite <-E1.
    apply (IH s1 (drop_entry a A) L1 L2); [by apply wf_drop_lru|done|by apply drop_ents_sub| |lia|].
    { unfold drop_entry. rewrite He. simpl. rewrite EL. apply without_middle. rewrite <-EL. apply W. }
    intros s2 R2 S2 E2. rewrite <-app_assoc in *. apply HQ; [done|mem_steps|congruence].
Qed.
Lemma drop_head_lru a l A en :
  wf A -> a_lru A = a :: l -> a_ents A !! a = Some en -> a_lru (drop_entry a A) = l.
Proof.
  intros W EL He. unfold drop_entry. rewrite He. simpl. rewrite EL.
  apply (without_middle a []). rewrite <-EL. apply W.
Qed.

Lemma wp_evict_durable P charge A0 D0 fuel s A V (Q : list addr -> cstate -> Prop) :
  wf A -> mrep P s A (dead_of A0 V ∪ D0) -> a_ents A ⊆ a_ents A0 ->
  (over charge A = true -> forall a, a ∈ a_lru A -> has_priority DURABLE A0 a) ->
  (length (a_lru A) < fuel)%nat ->
  (forall s', let r := evict_list charge (a_lru A) A in
     mrep P s' r.1 (dead_of A0 (V ++ r.2) ∪ D0) -> mem_step P [] s.1 s'.1 ->
     c_lru s'.2 = c_lru s.2 -> Q (V ++ r.2) s') ->
  wp (evict_durable fuel charge V) Q s.
Proof.
  revert s A V. induction fuel as [|fuel IH]; intros s A V W R HS HD Hf HQ; [lia|].
  simpl. apply wp_bind, wp_gets. rewrite (mrep_over _ _ _ _ charge R).
  destruct (over charge A) eqn:Eo; simpl.
  2:{ apply wp_ret. specialize (HQ s). destruct (a_lru A); simpl in HQ;
      rewrite ?Eo in HQ; simpl in HQ; rewrite app_nil_r in HQ; apply HQ; (done || apply mem_step_refl). }
  pose proof (mr_shard R) as RS. destruct s as [m c]. simpl in *.
  eapply wp_bind, wp_on_mem, (wp_load_cur _ _ _ _ _ []); [exact RS|].
  intros h Hn. simpl. rewrite Hn. destruct (a_lru A) as [|a L] eqn:EL.
  { simpl. rewrite bool_decide_true by done. apply wp_ret. specialize (HQ (m, c)). simpl in HQ.
    rewrite app_nil_r in HQ. apply HQ; [done|apply mem_step_refl|done]. }
  rewrite bool_decide_false by (by eapply (headd_self _ _ _ _ _ _ [])). simpl.
  assert (a ∈ a_lru A) as Ha by (rewrite EL; by left).
  pose proof Ha as (en & He & Hh)%(wf_lru _ W).
  eapply wp_bind, wp_on_mem, wp_entry_load; [exact RS|by apply (mrep_lookup P (m, c))|].
  intros o Ho. assert (h_priority o = x_priority en) as -> by exact (f_equal e_priority Ho).
  simpl. eapply wp_bind, wp_check.
  { apply bool_decide_eq_true. apply (has_priority_sub DURABLE A A0 a en); [done..|].
    apply HD; [done|by left]. }
  eapply wp_bind, (wp_mevict P (m, c) A); [done..|]. intros s1 R1 S1 E1. simpl in *.
  rewrite dead_of_more in R1 by (by eapply lookup_weaken).
  rewrite Eo in HQ. simpl in HQ. pose proof (drop_head_lru a L A en W EL He) as EL'.
  apply (IH s1 (drop_entry a A)); rewrite ?EL';
    [by apply wf_drop_lru|done|by apply drop_ents_sub| |lia|].
  { intros _ b Hb. apply HD; [done|]. by right. }
  intros s2 R2 S2 E2. rewrite <-app_assoc in *. apply HQ; [done|mem_steps|congruence].
Qed.
Lemma wp_evict_from_lru P charge s A D0 (Q : list addr -> cstate -> Prop) :
  wf A -> mrep P s A D0 ->
  (forall s', let r := spec_evict charge A in
     mrep P s' r.1 (dead_of A r.2 ∪ D0) -> mem_step P [] s.1 s'.1 ->
     c_lru s'.2 = c_lru s.2 -> Q r.2 s') ->
  wp (LRUCache_evict_from_lru charge) Q s.
Proof.
  intros W R HQ. unfold LRUCache_evict_from_lru. apply wp_bind, wp_get.
  pose proof (shard_list_fuel _ _ _ _ _ _ _ (mr_shard R)) as Hf.
  set (l := filter (has_priority NORMAL A) (a_lru A)).
  assert (wf (evict_list charge l A).1) as W1.
  { apply wf_evict_list; [done|apply NoDup_filter, W|].
    intros a. unfold l. rewrite list_elem_of_filter. tauto. }
  assert (length (evict_list charge l A).2 = length l ->
    a_lru (evict_list charge l A).1 = filter (has_priority DURABLE A) (a_lru A)) as Hdur
    by (by apply evict_normal_lru).
  assert (dead_of A [] ∪ D0 = D0) as ED.
  { apply map_eq. intros b. rewrite lookup_union, dead_of_lookup.
    rewrite decide_False by apply not_elem_of_nil. by destruct (D0 !! b). }
  eapply wp_bind, (wp_evict_normal P charge A D0 _ s A [] (a_lru A) []);
    [done|by rewrite ED|done..|].
  intros s1 r R1 S1 E1. fold l in r. subst r. simpl in R1.
  eapply (wp_evict_durable P charge A D0); [exact W1|exact R1|apply evict_list_sub| | |].
  - intros Ho a Ha. destruct (decide (length (evict_list charge l A).2 = length l)) as [El|Hl].
    + rewrite (Hdur El) in Ha. by apply list_elem_of_filter in Ha as [? _].
    + by rewrite evict_list_stop in Ho.
  - rewrite evict_list_lru; [|done|apply NoDup_filter, W|].
    + eapply Nat.le_lt_trans; [apply length_filter|done].
    + intros a. unfold l. rewrite list_elem_of_filter. tauto.
  - intros s2 r R2 S2 E2. specialize (HQ s2). unfold spec_evict, eviction_order in HQ.
    fold l in HQ. rewrite evict_list_app in HQ. simpl in HQ.
    case_decide as El.
    + rewrite <-(Hdur El) in HQ. apply HQ; [done|mem_steps|congruence].
    + subst r. rewrite (evict_list_idle charge _ (evict_list charge l A).1) in *
        by (by apply evict_list_stop).
      simpl in R2. rewrite app_nil_r in *. apply HQ; [done|mem_steps|congruence].
Qed.
(** ** The public methods *)

(** [op] returns [out], ends in [A'] and calls the deleters [dels] *)
Definition refines {B} (P : addr -> Prop) (s : cstate) (op : M cstate B)
    (out : B) (A' : acache) (dels : list deletion) : Prop :=
  wp op (fun r s' => r = out /\ crep P s' A' /\ mem_step P dels s.1 s'.1 /\
                     c_lru s'.2 = c_lru s.2) s.

(** an address that is not an entry is neither filed nor on the list *)
Lemma not_entry_out A a : wf A -> a_ents A !! a = None -> (a ∉ a_lru A) /\ ~ in_table (a_tab A) a.
Proof.
  intros W Ha. split.
  - intros (en & He & _)%(wf_lru _ W). congruence.
  - intros [kh Ht]. destruct (wf_tab _ W kh a Ht) as (en & He & _). congruence.
Qed.

Lemma dead_of_deletions A V :
  omap (fun a => entry_deletion <$> dead_of A V !! a) V = deletions_of A V.
Proof.
  apply omap_ext_elem. intros a Ha. rewrite dead_of_lookup, decide_True by done.
  by destruct (a_ents A !! a).
Qed.

Lemma wp_mfree P s A A0 V (Q : unit -> cstate -> Prop) :
  wf A -> mrep P s A (dead_of A0 V) -> NoDup V ->
  (forall a, a ∈ V -> is_Some (a_ents A0 !! a)) ->
  (forall m', crep P (m', s.2) A -> mem_step P (deletions_of A0 V) s.1 m' -> Q tt (m', s.2)) ->
  wp (on_mem (free_all V)) Q s.
Proof.
  intros W R Hnd Hin HQ.
  assert (forall a, is_Some (dead_of A0 V !! a) <-> (a ∈ V)) as Hdom.
  { intros a. rewrite dead_of_lookup. case_decide as Ha.
    - rewrite fmap_is_Some. split; [done|]. intros _. by apply Hin.
    - split; [by intros [? ?]|done]. }
  apply wp_on_mem. eapply wp_free_all; [apply R| |done|exact Hdom| |].
  - apply map_disjoint_spec. intros a x y Hx Hy. rewrite cents_lookup in Hx.
    rewrite (mr_disj R a) in Hx by (by eexists). done.
  - intros a Ha. apply not_entry_out; [done|]. by apply (mr_disj R), Hdom.
  - intros m' R' S'. rewrite dead_of_deletions in S'. apply HQ; [|done].
    split; simpl; try apply R; [by rewrite map_union_empty|].
    intros a [? Ha]. by rewrite lookup_empty in Ha.
Qed.

Lemma set_capacity_refines P s A n :
  wf A -> crep P s A ->
  refines P s (LRUCache_set_capacity n) tt (spec_set_capacity n A).1
    (deletions_of A (spec_set_capacity n A).2).
Proof.
  intros W R. unfold refines, LRUCache_set_capacity.
  apply wp_bind, wp_modify. pose proof (wf_with_capacity n A W) as Wc.
  assert (crep P (s.1, set_c_capacity n s.2) (with_capacity n A)) as Rc.
  { split; try apply R. done. }
  eapply wp_bind, (wp_evict_from_lru P 0 _ (with_capacity n A)); [done|exact Rc|].
  intros s1 r R1 S1 E1. rewrite map_union_empty in R1.
  eapply wp_mfree; [by apply wf_evict|exact R1|by apply evicted_nodup| |].
  - intros a Ha. apply (lru_is_entry _ _ Wc). by eapply evicted_lru.
  - intros m' R' S'. split_and!; [done|done|mem_steps|done].
Qed.
(** [prune] writes the eviction sequence out *)
Lemma prune_loop_unfold fuel l s :
  prune_loop (S fuel) l s =
  (c ← gets snd;
   h ← on_mem (load (Some (c_lru c)));
   if bool_decide (h_next h = Some (c_lru c)) then mret l else
   match h_next h with
   | None => throw ENull
   | Some old => _ ← LRUCache_evict_one_entry old; prune_loop fuel (l ++ [old])
   end) s.
Proof.
  simpl. unfold LRUCache_evict_one_entry, mbind, M_bind.
  repeat (case_match; try done). all: by simplify_eq.
Qed.

Lemma wp_ext {S B} (m1 m2 : M S B) (Q : B -> S -> Prop) s : m1 s = m2 s -> wp m2 Q s -> wp m1 Q s.
Proof. unfold wp. by intros ->. Qed.

Lemma wp_prune_loop P A0 fuel s A V (Q : list addr -> cstate -> Prop) :
  wf A -> mrep P s A (dead_of A0 V) -> a_ents A ⊆ a_ents A0 ->
  (length (a_lru A) < fuel)%nat ->
  (forall s', mrep P s' (drop_all (a_lru A) A) (dead_of A0 (V ++ a_lru A)) ->
     mem_step P [] s.1 s'.1 -> c_lru s'.2 = c_lru s.2 -> Q (V ++ a_lru A) s') ->
  wp (prune_loop fuel V) Q s.
Proof.
  revert s A V. induction fuel as [|fuel IH]; intros s A V W R HS Hf HQ; [lia|].
  eapply wp_ext; [apply prune_loop_unfold|]. apply wp_bind, wp_gets.
  pose proof (mr_shard R) as RS. destruct s as [m c]. simpl in *.
  eapply wp_bind, wp_on_mem, (wp_load_cur _ _ _ _ _ []); [exact RS|].
  intros h Hn. simpl. rewrite Hn. destruct (a_lru A) as [|a L] eqn:EL.
  { simpl. rewrite bool_decide_true by done. apply wp_ret. simpl in HQ.
    rewrite app_nil_r in HQ. apply HQ; [done|apply mem_step_refl|done]. }
  rewrite bool_decide_false by (by eapply (headd_self _ _ _ _ _ _ [])). simpl.
  assert (a ∈ a_lru A) as Ha by (rewrite EL; by left).
  pose proof Ha as (en & He & Hh)%(wf_lru _ W).
  eapply wp_bind, (wp_mevict P (m, c) A); [done..|]. intros s1 R1 S1 E1. simpl in *.
  rewrite <-dead_of_snoc in R1 by (by eapply lookup_weaken).
  pose proof (drop_head_lru a L A en W EL He) as EL'.
  apply (IH s1 (drop_entry a A)); rewrite ?EL';
    [by apply wf_drop_lru|done|by apply drop_ents_sub|lia|].
  intros s2 R2 S2 E2. rewrite <-app_assoc in *. apply HQ; [done|mem_steps|congruence].
Qed.

Lemma prune_refines P s A :
  wf A -> crep P s A ->
  refines P s LRUCache_prune (i32 (Z.of_nat (length (a_lru A)))) (spec_prune A).1
    (deletions_of A (spec_prune A).2).
Proof.
  intros W R. unfold refines, LRUCache_prune. apply wp_bind, wp_get.
  assert (mrep P s A (dead_of A [])) as R0.
  { replace (dead_of A []) with (∅ : gmap addr entry); [done|]. apply map_eq. intros b.
    by rewrite dead_of_lookup, decide_False by apply not_elem_of_nil. }
  eapply wp_bind, (wp_prune_loop P A _ s A []); [done..| |].
  { eapply shard_list_fuel, R. }
  intros s1 R1 S1 E1. simpl in *. eapply wp_bind, wp_mfree; [by apply wf_prune|exact R1|apply W| |].
  - intros a. by apply lru_is_entry.
  - intros m' R' S'. apply wp_ret. split_and!; [done|done|mem_steps|done].
Qed.

(** ** Lookups *)

Lemma cents_update tab ents a en' D :
  <[a := centry tab a en']> (cents tab ents ∪ D) = cents tab (<[a := en']> ents) ∪ D.
Proof.
  apply map_eq. intros b.
  rewrite lookup_insert, !lookup_union, !cents_lookup, lookup_insert.
  destruct (decide (a = b)) as [->|Hne]; [|done]. simpl. by destruct (D !! b).
Qed.

(** taking an entry off the list if it is there *)
Lemma wp_maybe_remove P m c A tab E a en (b : bool) (Q : unit -> cstate -> Prop) :
  wf A -> shard P (handles m) (c_lru c) (c_table c) tab E (a_lru A) ->
  a_ents A !! a = Some en -> b = (x_handles en =? 0) ->
  (forall m', shard P (handles m') (c_lru c) (c_table c) tab E (without a (a_lru A)) ->
     mem_step P [] m m' -> Q tt (m', c)) ->
  wp (if b then on_mem (LRUCache_lru_remove a) else mret tt) Q (m, c).
Proof.
  intros W R He -> HQ. destruct (Z.eqb_spec (x_handles en) 0) as [Ez|Hnz].
  - assert (a ∈ a_lru A) as Ha by (apply (wf_lru _ W); by exists en).
    pose proof (wf_nodup _ W) as Hnd. apply list_elem_of_split in Ha as (L1 & L2 & EL).
    rewrite EL in *. eapply wp_on_mem, wp_lru_remove; [exact R|].
    intros m' R' S'. apply HQ; [by rewrite without_middle|done].
  - apply wp_ret, HQ; [|apply mem_step_refl]. rewrite without_id; [done|].
    by eapply held_not_lru.
Qed.

Lemma lookup_refines P s A key hash :
  wf A -> crep P s A -> inu 32 hash ->
  (forall a en, a_ents A !! a = Some en -> x_handles en < 2 ^ 32 - 2) ->
  refines P s (LRUCache_lookup key hash) (spec_lookup key hash A).1 (spec_lookup key hash A).2 [].
Proof.
  intros W R Hh Hb. unfold refines, LRUCache_lookup, spec_lookup. destruct s as [m c].
  apply wp_bind, wp_modify. simpl. pose proof (mr_shard R) as RS. simpl in RS.
  eapply wp_bind, wp_table_lookup; [exact RS|done|].
  destruct (a_tab A !! (key, hash)) as [a|] eqn:Et.
  2:{ apply wp_ret. split_and!; [done| |apply mem_step_refl|done].
      split; simpl; try apply R. by rewrite <-(mr_lookups R). }
  destruct (wf_tab _ W _ _ Et) as (en & He & Hkh).
  destruct (wf_entry _ W a en He) as (Hr & _). specialize (Hb a en He).
  pose proof (mrep_lookup _ _ _ _ _ _ R He) as Hce.
  assert (centry (a_tab A) a en = mkEntry (x_value en) (x_deleter en) (x_charge en) (x_key en)
    (x_hash en) (x_priority en) true (x_handles en + 1)) as Ece.
  { unfold centry. by rewrite bool_decide_true by (by rewrite Hkh). }
  eapply wp_bind, wp_on_mem, wp_entry_load; [exact RS|exact Hce|]. intros h Hv.
  rewrite Ece in Hv. apply wp_bind, wp_check; [exact (f_equal e_in_cache Hv)|].
  eapply wp_bind, (wp_maybe_remove P m _ A); [done|exact RS|exact He| |].
  { change (h_refs h) with (e_refs (view h)). rewrite Hv. simpl. lia. }
  intros m1 R1 S1. eapply wp_bind, wp_on_mem, (wp_entry_store _ _ _ _ _ _ _ _ _ _
    (fun en => with_refs (u32 (e_refs en + 1)) en)); [exact R1|exact Hce|done|done|].
  intros m2 R2 S2. apply wp_bind, wp_modify, wp_ret. simpl.
  split_and!; [done| |mem_steps|done]. rewrite (alter_handles A a en) by done.
  rewrite Ece in R2. unfold with_refs in R2. simpl in R2.
  rewrite wrapu_id in R2 by (unfold inu; lia).
  split; simpl; try apply R.
  - rewrite <-cents_update. unfold centry. simpl.
    rewrite bool_decide_true by (by rewrite <-Hkh in Et). simpl. exact R2.
  - intros b [? Hbb]. by rewrite lookup_empty in Hbb.
  - etrans; [apply (mr_usage R)|]. unfold a_usage. simpl. by erewrite total_charge_update.
  - by rewrite <-(mr_lookups R).
  - by rewrite <-(mr_hits R).
Qed.
(** ** Giving handles back *)

(** storing the count of handles that is left *)
Lemma with_refs_handles tab a en n :
  with_refs (n + Z.b2z (bool_decide (tab !! xkh en = Some a))) (centry tab a en) =
  centry tab a (with_handles n en).
Proof. done. Qed.

(** an entry that is out of the table *)
Lemma cents_detach A a en D :
  a_ents A !! a = Some en ->
  <[a := dead en]> (cents (a_tab A) (a_ents A) ∪ D) =
  cents (a_tab A) (delete a (a_ents A)) ∪ <[a := dead en]> D.
Proof.
  intros He. apply map_eq. intros b.
  rewrite lookup_insert, !lookup_union, !cents_lookup, lookup_delete, lookup_insert.
  destruct (decide (a = b)) as [->|Hne]; done.
Qed.

Lemma wp_mfree1 P s A a en (Q : unit -> cstate -> Prop) :
  wf A -> mrep P s A (<[a := dead en]> ∅) ->
  (forall m', crep P (m', s.2) A -> mem_step P [x_deletion en] s.1 m' -> Q tt (m', s.2)) ->
  wp (on_mem (LRUHandle_free a)) Q s.
Proof.
  intros W R HQ.
  assert (a_ents A !! a = None) as Ha.
  { apply (mr_disj R). rewrite lookup_insert_eq. by eexists. }
  destruct (not_entry_out A a W Ha) as [Hl Ht].
  eapply wp_on_mem, (wp_free _ _ _ _ _ _ _ _ (dead en)); [apply R| |done..|].
  { rewrite lookup_union, cents_lookup, Ha, lookup_insert_eq. done. }
  intros m' R' S'. apply HQ; [|done]. rewrite delete_union in R'.
  rewrite delete_insert_id in R' by done. rewrite delete_id in R' by (by rewrite cents_lookup, Ha).
  split; simpl; try apply R; [done|]. intros b [? Hb]. by rewrite lookup_empty in Hb.
Qed.

Section Release.
Context (P : addr -> Prop) (m : mem) (c : LRUCache) (A : acache) (a : addr) (en : aentry).
Context (W : wf A) (R : crep P (m, c) A) (He : a_ents A !! a = Some en) (Hpos : 0 < x_handles en).

Lemma no_detached (b : addr) : is_Some ((∅ : gmap addr entry) !! b) -> a_ents A !! b = None.
Proof. intros [? Hb]. by rewrite lookup_empty in Hb. Qed.

(** the first step of [release] *)
Lemma wp_release_unref k (Q : bool -> cstate -> Prop) :
  cached A a en = k ->
  (forall m', shard P (handles m') (c_lru c) (c_table c) (a_tab A)
       (cents (a_tab A) (<[a := with_handles (x_handles en - 1) en]> (a_ents A)) ∪ ∅) (a_lru A) ->
     mem_step P [] m m' -> Q (x_handles en + Z.b2z k - 1 =? 0) (m', c)) ->
  wp (on_mem (LRUCache_unref a)) Q (m, c).
Proof.
  intros Hk HQ. destruct (wf_entry _ W a en He) as (Hr & _).
  pose proof (mrep_lookup _ _ _ _ _ _ R He) as Hce.
  assert (e_refs (centry (a_tab A) a en) = x_handles en + Z.b2z k) as Er.
  { unfold centry. simpl. unfold cached in Hk. by rewrite Hk. }
  eapply wp_on_mem, wp_unref; [apply (mr_shard R)|exact Hce|rewrite Er; destruct k; simpl; lia|].
  intros m1 R1 S1. rewrite Er in *. apply HQ; [|done].
  rewrite <-cents_update, <-with_refs_handles. unfold cached in Hk. rewrite Hk.
  by replace (x_handles en - 1 + Z.b2z k) with (x_handles en + Z.b2z k - 1) by lia.
Qed.

(** other handles remain *)
Lemma release_more :
  x_handles en <> 1 ->
  refines P (m, c) (LRUCache_release (Some a)) tt
    (mkA (a_tab A) (<[a := with_handles (x_handles en - 1) en]> (a_ents A)) (a_lru A)
       (a_capacity A) (a_lookups A) (a_hits A)) [].
Proof.
  intros Hn. unfold refines, LRUCache_release.
  eapply wp_bind, wp_release_unref; [done|]. intros m1 R1 S1.
  destruct (Z.eqb_spec (x_handles en + Z.b2z (cached A a en) - 1) 0) as [E|E].
  { destruct (cached A a en); simpl in E; lia. }
  eapply wp_bind, wp_bind, wp_on_mem, wp_entry_load; [exact R1| |].
  { by rewrite lookup_union, cents_lookup, lookup_insert_eq. }
  intros h Hv. assert (h_in_cache h && (h_refs h =? 1) = false) as ->.
  { change (h_in_cache h) with (e_in_cache (view h)). change (h_refs h) with (e_refs (view h)).
    rewrite Hv. unfold centry. simpl. unfold xkh. simpl.
    destruct (bool_decide _); simpl; lia. }
  apply wp_ret, wp_ret. split_and!; [done| |mem_steps|done].
  split; simpl; try apply R; [done|intros b [? Hb]; by rewrite lookup_empty in Hb|].
  etrans; [apply (mr_usage R)|]. unfold a_usage. simpl. by erewrite total_charge_update.
Qed.

(** the last handle of an entry that is not mapped any more *)
Lemma release_unmapped :
  x_handles en = 1 -> cached A a en = false ->
  wf (mkA (a_tab A) (delete a (a_ents A)) (a_lru A) (a_capacity A) (a_lookups A) (a_hits A)) ->
  refines P (m, c) (LRUCache_release (Some a)) tt
    (mkA (a_tab A) (delete a (a_ents A)) (a_lru A) (a_capacity A) (a_lookups A) (a_hits A))
    [x_deletion en].
Proof.
  intros Hn Hk W'. unfold refines, LRUCache_release.
  eapply wp_bind, wp_release_unref; [done|]. intros m1 R1 S1. rewrite Hn. simpl.
  assert (centry (a_tab A) a (with_handles 0 en) = dead en) as Ed.
  { unfold cached in Hk. unfold centry, dead. simpl. change (xkh (with_handles 0 en)) with (xkh en).
    by rewrite Hk. }
  rewrite Hn in R1. change (1 - 1) with 0 in R1. rewrite <-cents_update, Ed in R1.
  eapply wp_bind, wp_bind, wp_sub_charge; [exact R1|by rewrite lookup_insert_eq|].
  apply wp_ret. eapply (wp_mfree1 _ _ _ _ en); [exact W'| |].
  - rewrite (cents_detach A a en) in R1 by done.
    split; simpl; try apply R; [done| |].
    + intros b [<-|[? Hb]]%lookup_insert_is_Some'; [apply lookup_delete_eq|].
      by rewrite lookup_empty in Hb.
    + by apply (usage_delete A _ a en); [apply (mr_usage R)|..].
  - intros m2 R2 S2. split_and!; [done|done|mem_steps|done].
Qed.

(** the last handle of a mapped entry: it stays, or it goes when the cache is over-full *)
Lemma release_mapped :
  x_handles en = 1 -> cached A a en = true ->
  refines P (m, c) (LRUCache_release (Some a)) tt
    (if a_capacity A <? a_usage A then drop_entry a A
     else mkA (a_tab A) (<[a := with_handles 0 en]> (a_ents A)) (a_lru A ++ [a])
            (a_capacity A) (a_lookups A) (a_hits A))
    (if a_capacity A <? a_usage A then [x_deletion en] else []).
Proof.
  intros Hn Hk. unfold refines, LRUCache_release.
  eapply wp_bind, wp_release_unref; [done|]. intros m1 R1 S1. rewrite Hn. simpl.
  unfold cached in Hk. pose proof Hk as Ht%bool_decide_eq_true.
  assert (a ∉ a_lru A) as Hl by (eapply held_not_lru; [done|exact He|lia]).
  rewrite Hn in R1. change (1 - 1) with 0 in R1.
  assert ((cents (a_tab A) (<[a := with_handles 0 en]> (a_ents A)) ∪ ∅) !! a =
    Some (centry (a_tab A) a (with_handles 0 en))) as Hce.
  { by rewrite lookup_union, cents_lookup, lookup_insert_eq. }
  assert (e_refs (centry (a_tab A) a (with_handles 0 en)) = 1 /\
          e_in_cache (centry (a_tab A) a (with_handles 0 en)) = true) as [Er Ei].
  { unfold centry. simpl. change (xkh (with_handles 0 en)) with (xkh en). by rewrite Hk. }
  destruct (wf_entry _ W a en He) as (Hr & Hhash & _).
  eapply wp_bind, wp_bind, wp_on_mem, wp_entry_load; [exact R1|exact Hce|].
  intros h Hv. assert (h_in_cache h && (h_refs h =? 1) = true) as ->.
  { change (h_in_cache h) with (e_in_cache (view h)). change (h_refs h) with (e_refs (view h)).
    by rewrite Hv, Er, Ei. }
  apply wp_bind, wp_gets. simpl.
  pose proof (mr_capacity R) as Ec. pose proof (mr_usage R) as Eu. simpl in Ec, Eu.
  rewrite Ec, Eu. destruct (a_capacity A <? a_usage A).
  - eapply wp_uncache; [exact R1|exact Hce|done|done|]. intros m2 t2 R2 S2.
    eapply wp_bind, wp_sub_charge; [exact R2|by rewrite lookup_insert_eq|].
    apply wp_ret. eapply (wp_mfree1 _ _ (drop_entry a A) _ en); [by eapply wf_drop| |].
    + rewrite <-cents_update, insert_insert_eq, (cents_drop A a en) in R2 by done.
      unfold drop_entry. rewrite He. split; simpl; try apply R.
      * by rewrite without_id.
      * intros b [<-|[? Hb]]%lookup_insert_is_Some'; [apply lookup_delete_eq|].
        by rewrite lookup_empty in Hb.
      * by apply (usage_delete A _ a en).
    + intros m3 R3 S3. split_and!; [done|done|mem_steps|done].
  - eapply wp_bind, wp_on_mem, wp_lru_append; [exact R1|by eexists|done|]. intros m2 R2 S2.
    apply wp_ret, wp_ret. split_and!; [done| |mem_steps|done].
    split; simpl; try apply R; [done|intros b [? Hb]; by rewrite lookup_empty in Hb|].
    etrans; [apply (mr_usage R)|]. unfold a_usage. simpl. by erewrite total_charge_update.
Qed.

Lemma release_refines :
  refines P (m, c) (LRUCache_release (Some a)) tt (spec_release a A).1
    (deletions_of A (spec_release a A).2).
Proof.
  pose proof (wf_release A W a en He Hpos) as Wr. unfold spec_release in *. rewrite He in *.
  pose proof (deletions_of_one A a en He) as Ed.
  destruct (Z.eqb_spec (x_handles en) 1) as [E1|E1]; simpl in *; [|by apply release_more].
  destruct (cached A a en) eqn:Ek.
  - pose proof (release_mapped E1 Ek) as HR.
    destruct (a_capacity A <? a_usage A); simpl; [by rewrite Ed|done].
  - simpl in *. rewrite Ed. by apply release_unmapped.
Qed.
End Release.
(** ** Erasing *)

(** an entry that a client still holds after it left the table *)
Definition held (en : aentry) : entry :=
  mkEntry (x_value en) (x_deleter en) (x_charge en) (x_key en) (x_hash en) (x_priority en)
    false (x_handles en).

Lemma cents_unmap A o en D :
  wf A -> a_ents A !! o = Some en -> a_tab A !! xkh en = Some o ->
  <[o := held en]> (cents (a_tab A) (a_ents A) ∪ D) =
  cents (delete (xkh en) (a_tab A)) (a_ents A) ∪ D.
Proof.
  intros W He Ht. apply map_eq. intros b.
  rewrite lookup_insert, !lookup_union, !cents_lookup.
  destruct (decide (o = b)) as [<-|Hne].
  - rewrite He. simpl. unfold centry, held. rewrite bool_decide_false by (by rewrite lookup_delete_eq).
    simpl. rewrite Z.add_0_r. by destruct (D !! o).
  - destruct (a_ents A !! b) as [en'|] eqn:Eb; [|done]. simpl.
    by rewrite (centry_delete A o b en en').
Qed.

(** a mapped entry as it is stored *)
Lemma centry_mapped A a en :
  a_tab A !! xkh en = Some a ->
  centry (a_tab A) a en = mkEntry (x_value en) (x_deleter en) (x_charge en) (x_key en)
    (x_hash en) (x_priority en) true (x_handles en + 1).
Proof. intros Ht. unfold centry. by rewrite bool_decide_true. Qed.

Lemma erase_refines P s A key hash :
  wf A -> crep P s A -> inu 32 hash ->
  refines P s (LRUCache_erase key hash) tt (spec_erase key hash A).1
    (deletions_of A (spec_erase key hash A).2).
Proof.
  intros W R Hh. unfold refines, LRUCache_erase, spec_erase, spec_unmap. destruct s as [m c].
  pose proof (mr_shard R) as RS. simpl in RS.
  eapply wp_bind, wp_table_remove; [exact RS|done|]. intros m1 t1 R1 S1.
  destruct (a_tab A !! (key, hash)) as [o|] eqn:Et.
  2:{ apply wp_ret. rewrite delete_id in R1 by done. split_and!; [done| |done|done].
      split; simpl; try apply R. done. }
  destruct (wf_tab _ W _ _ Et) as (en & He & Hkh). rewrite He. rewrite <-Hkh in Et, R1 |- *.
  destruct (wf_entry _ W o en He) as (Hr & _).
  pose proof (mrep_lookup _ _ _ _ _ _ R He) as Hce. rewrite (centry_mapped A o en Et) in Hce.
  eapply wp_bind, wp_on_mem, wp_unref; [exact R1|exact Hce|simpl; lia|].
  intros m2 R2 S2. simpl in R2 |- *. unfold with_refs in R2. simpl in R2.
  replace (x_handles en + 1 - 1) with (x_handles en) in * by lia.
  destruct (Z.eqb_spec (x_handles en) 0) as [E0|E0].
  - eapply wp_bind, wp_bind, wp_sub_charge; [exact R2|by rewrite lookup_insert_eq|].
    eapply wp_bind, wp_on_mem, wp_entry_load; [exact R2|by rewrite lookup_insert_eq|].
    intros h Hv. rewrite (f_equal e_in_cache Hv : h_in_cache h = true). simpl.
    eapply (wp_maybe_remove P m2 _ A _ _ o en true); [done|exact R2|done|by rewrite E0|].
    intros m3 R3 S3.
    eapply wp_bind, wp_on_mem, (wp_entry_store _ _ _ _ _ _ _ _ _ _ (with_in_cache false));
      [exact R3|by rewrite lookup_insert_eq|done|done|].
    intros m4 R4 S4. rewrite insert_insert_eq, E0 in R4. change (with_in_cache _ _) with (dead en) in R4.
    rewrite (cents_drop A o en) in R4 by done.
    eapply (wp_mfree1 _ _ (drop_entry o A) _ en); [by eapply wf_drop| |].
    + unfold drop_entry. rewrite He. split; simpl; try apply R; [done| |].
      * intros b [<-|[? Hb]]%lookup_insert_is_Some'; [apply lookup_delete_eq|].
        by rewrite lookup_empty in Hb.
      * by apply (usage_delete A _ o en); [apply (mr_usage R)|..].
    + intros m5 R5 S5. simpl. rewrite He.
      split_and!; [done|done|mem_steps|done].
  - eapply wp_bind, wp_ret, wp_bind, wp_on_mem,
      (wp_entry_store _ _ _ _ _ _ _ _ _ _ (with_in_cache false));
      [exact R2|by rewrite lookup_insert_eq|done|done|].
    intros m3 R3 S3. rewrite insert_insert_eq in R3. change (with_in_cache _ _) with (held en) in R3.
    rewrite (cents_unmap A o en) in R3 by done. apply wp_ret.
    split_and!; [done| |mem_steps|done]. split; simpl; try apply R. done.
Qed.
(** ** Inserting *)

Lemma cents_add tab ents e new D :
  ents !! e = None -> D !! e = None -> tab !! xkh new = None ->
  cents tab ents ∪ (D ∪ {[e := centry (<[xkh new := e]> tab) e new]}) =
  cents (<[xkh new := e]> tab) (<[e := new]> ents) ∪ D.
Proof.
  intros He HD Ht. apply map_eq. intros b.
  rewrite !lookup_union, !cents_lookup, lookup_insert.
  destruct (decide (e = b)) as [<-|Hne].
  - by rewrite He, HD, lookup_singleton_eq.
  - rewrite lookup_singleton_ne by done. 
    replace (D !! b ∪ None) with (D !! b) by (by destruct (D !! b)).
    destruct (ents !! b) as [en|]; [|done]. simpl.
    rewrite (centry_ext tab (<[xkh new := e]> tab) b en); [done|].
    rewrite lookup_insert_Some. split; [|naive_solver].
    intros Hb. right. split; [|done]. intros E. congruence.
Qed.

Lemma usage_add u A e new :
  u = a_usage A -> a_ents A !! e = None -> u64 (u + x_charge new) = a_usage (add e new A).
Proof.
  intros -> He. unfold a_usage. simpl. rewrite total_charge_insert by done.
  rewrite wrapu_add_l by lia. f_equal. lia.
Qed.

(** filing a new entry under a key that is free *)
Lemma mrep_add P m c A2 D e new :
  shard P (handles m) (c_lru c) (c_table c) (<[xkh new := e]> (a_tab A2))
    (cents (a_tab A2) (a_ents A2) ∪ (D ∪ {[e := centry (<[xkh new := e]> (a_tab A2)) e new]}))
    (a_lru A2) ->
  a_ents A2 !! e = None -> D !! e = None -> a_tab A2 !! xkh new = None ->
  (forall a, is_Some (D !! a) -> a_ents A2 !! a = None) ->
  c_capacity c = a_capacity A2 -> c_usage c = u64 (a_usage A2 + x_charge new) ->
  c_lookup_count c = a_lookups A2 -> c_hit_count c = a_hits A2 ->
  mrep P (m, c) (add e new A2) D.
Proof.
  intros R He HD Ht Hdis Hc Hu Hl Hh. rewrite cents_add in R by done.
  split; simpl; try done.
  - intros a Ha. rewrite lookup_insert_ne by (intros ->; destruct Ha; congruence).
    by apply Hdis.
  - rewrite Hu. by apply usage_add.
Qed.

(** the end of [insert]: the new entry is filed, the old one leaves *)
Lemma wp_insert_tail P s A A1 V e new (Q : addr -> cstate -> Prop) :
  let tail :=
    old ← on_table (HandleTable_insert e);
    _ ← on_cache (fun c => set_c_usage (u64 (c_usage c + x_charge new)) c);
    last_ref_list ← (match old with
      | None => mret V
      | Some o =>
          _ ← on_mem (store (Some o) (set_in_cache false));
          last ← on_mem (LRUCache_unref o);
          if (last : bool) then
            _ ← sub_charge o;
            _ ← on_mem (LRUCache_lru_remove o);
            mret (V ++ [o])
          else mret V
      end);
    _ ← on_mem (free_all last_ref_list);
    mret e in
  wf A1 -> wf (add e new (spec_unmap (xkh new) A1).1) ->
  mrep P s A1 (dead_of A V ∪ {[e := centry (<[xkh new := e]> (a_tab A1)) e new]}) ->
  a_ents A1 ⊆ a_ents A -> a_ents A !! e = None ->
  NoDup V -> (forall a, a ∈ V -> is_Some (a_ents A !! a)) ->
  inu 32 (x_hash new) -> Z.of_nat (size (a_tab A1)) < 2 ^ 31 ->
  (forall s', let r := spec_unmap (xkh new) A1 in
     crep P s' (add e new r.1) -> mem_step P (deletions_of A (V ++ r.2)) s.1 s'.1 ->
     c_lru s'.2 = c_lru s.2 -> Q e s') ->
  wp tail Q s.
Proof.
  intros tail W1 W2 R HS He Hnd HV Hh Hs HQ. subst tail. destruct s as [m c].
  pose proof (mr_shard R) as RS. simpl in RS.
  assert (a_ents A1 !! e = None) as He1 by (by eapply lookup_weaken_None).
  destruct (not_entry_out A1 e W1 He1) as [_ Hnt].
  assert (dead_of A V !! e = None) as HDe by (rewrite dead_of_lookup, He; by case_decide).
  eapply wp_bind, (wp_table_insert _ _ _ _ _ _ _ (centry (<[xkh new := e]> (a_tab A1)) e new));
    [exact RS| |done|done|done|].
  { by rewrite !lookup_union, cents_lookup, He1, HDe, lookup_singleton_eq. }
  change (ekh (centry (<[xkh new := e]> (a_tab A1)) e new)) with (xkh new).
  intros m1 t1 R1 S1. apply wp_bind, wp_modify. simpl.
  assert (forall a, is_Some (dead_of A V !! a) -> a_ents A1 !! a = None) as Hdis.
  { intros a [x Hx]. apply (mr_disj R). exists x. by apply lookup_union_Some_raw; left. }
  assert (forall u, u64 (c_usage c + u) = u64 (a_usage A1 + u)) as Hu.
  { intros u. by rewrite <-(mr_usage R). }
  unfold spec_unmap in *. destruct (a_tab A1 !! xkh new) as [o|] eqn:Et.
  2:{ apply wp_bind, wp_ret. rewrite app_nil_r in HQ.
      eapply wp_bind, (wp_mfree P _ (add e new A1) A V); [done| |done|done|].
      - apply mrep_add; try done; try apply R. apply Hu.
      - intros m2 R2 S2. apply wp_ret, HQ; [done|mem_steps|done]. }
  destruct (wf_tab _ W1 _ _ Et) as (en & Hen & Hkh). rewrite Hen in *.
  destruct (wf_entry _ W1 o en Hen) as (Hr & _).
  pose proof (lookup_weaken _ _ _ _ Hen HS) as HenA. rewrite <-Hkh in Et, HQ, W2.
  assert (o ∉ V) as HoV.
  { intros HoV. rewrite (mr_disj R o) in Hen; [done|].
    rewrite lookup_union, dead_of_lookup, decide_True, HenA by done. simpl.
    by destruct ({[e:=_]} !! o); eexists. }
  pose proof (mrep_lookup _ _ _ _ _ _ R Hen) as Hce. rewrite (centry_mapped A1 o en Et) in Hce.
  eapply wp_bind, wp_bind, wp_on_mem, (wp_entry_store _ _ _ _ _ _ _ _ _ _ (with_in_cache false));
    [exact R1|exact Hce|done|done|].
  intros m2 R2 S2. eapply wp_bind, wp_on_mem, wp_unref;
    [exact R2|by rewrite lookup_insert_eq|simpl; lia|].
  intros m3 R3 S3. simpl in R3 |- *. unfold with_refs in R3. simpl in R3.
  rewrite insert_insert_eq in R3.
  replace (x_handles en + 1 - 1) with (x_handles en) in * by lia.
  destruct (Z.eqb_spec (x_handles en) 0) as [E0|E0]; simpl in HQ, W2.
  - eapply wp_bind, wp_sub_charge; [exact R3|by rewrite lookup_insert_eq|].
    eapply wp_bind, (wp_maybe_remove P m3 _ A1 _ _ o en true); [done|exact R3|done|by rewrite E0|].
    intros m4 R4 S4. apply wp_ret.
    rewrite E0 in R4. change (mkEntry _ _ _ _ _ _ false 0) with (dead en) in R4.
    rewrite (cents_drop A1 o en), (dead_of_more A V _ o en) in R4 by done.
    rewrite <-(insert_delete_eq (a_tab A1) (xkh new)), <-Hkh in R4.
    eapply wp_bind, (wp_mfree P _ (add e new (drop_entry o A1)) A (V ++ [o])); [done| | | |].
    + unfold drop_entry. rewrite Hen.
      apply mrep_add; cbn [a_tab a_ents a_lru a_capacity a_lookups a_hits];
        rewrite <-?Hkh; try done; try apply R.
      * rewrite lookup_delete_ne; [done|]. intros ->. congruence.
      * rewrite dead_of_lookup, He. by case_decide.
      * apply lookup_delete_eq.
      * intros a. rewrite dead_of_lookup. case_decide as Ha; [|by intros [? ?]].
        intros Hx. apply lookup_delete_None.
        apply elem_of_app in Ha as [Ha| ->%list_elem_of_singleton]; [right|by left].
        apply Hdis. by rewrite dead_of_lookup, decide_True.
      * rewrite <-(usage_delete A1 _ o en (c_usage c)); [|apply (mr_usage R)|done|done].
        simpl. rewrite wrapu_sub_l, wrapu_add_l by lia. f_equal. lia.
    + apply NoDup_app. split_and!; [done| |apply NoDup_singleton].
      by intros a Ha ->%list_elem_of_singleton.
    + intros a [Ha| ->%list_elem_of_singleton]%elem_of_app; [by apply HV|by eexists].
    + intros m5 R5 S5. apply wp_ret, HQ; [done|mem_steps|done].
  - apply wp_ret. change (mkEntry _ _ _ _ _ _ false _) with (held en) in R3.
    rewrite (cents_unmap A1 o en) in R3 by done.
    rewrite <-(insert_delete_eq (a_tab A1) (xkh new)), <-Hkh in R3. rewrite app_nil_r in HQ.
    eapply wp_bind, (wp_mfree P _ (add e new _) A V); [exact W2| |done|done|].
    + apply mrep_add; cbn [a_tab a_ents a_lru a_capacity a_lookups a_hits];
        rewrite <-?Hkh; try done; try apply R; [apply lookup_delete_eq|apply Hu].
    + intros m4 R4 S4. apply wp_ret, HQ; [done|mem_steps|done].
Qed.

Lemma insert_refines P s A key hash value charge deleter priority :
  wf A -> crep P s A -> inu 32 hash -> inu 64 charge -> Z.of_nat (size (a_tab A)) < 2 ^ 31 ->
  wp (LRUCache_insert key hash value charge deleter priority)
    (fun e s' => let r := spec_insert e key hash value charge deleter priority A in
       let P' := fun a => P a \/ a = e in
       handles s.1 !! e = None /\ crep P' s' r.1 /\
       mem_step P' (deletions_of A r.2) s.1 s'.1 /\ c_lru s'.2 = c_lru s.2) s.
Proof.
  intros W R Hh Hc Hs. destruct s as [m c]. unfold LRUCache_insert.
  pose proof (mr_shard R) as RS. simpl in RS.
  eapply wp_bind, wp_on_mem, wp_malloc; [exact RS|done|done|]. intros e m1 Hfresh R1 S1. simpl in *.
  set (P' := fun a => P a \/ a = e) in *.
  set (new := mkX value deleter charge key hash priority 1).
  assert (a_ents A !! e = None) as He.
  { destruct (a_ents A !! e) as [en|] eqn:E; [|done].
    pose proof (mrep_lookup _ _ _ _ _ _ R E) as Hl.
    destruct (shard_handle RS e _ Hl) as (h & Hh' & _). simpl in *. congruence. }
  assert (forall tab, view (mkHandle value deleter None None None charge (CacheKey_size key) true 2
      hash priority key) = centry (<[xkh new := e]> tab) e new) as Hview.
  { intros tab. unfold view, centry, hkey, CacheKey_size. simpl.
    rewrite Nat2Z.id, take_ge by done. by rewrite bool_decide_true by apply lookup_insert_eq. }
  destruct (evict_list_sub charge (eviction_order A) A) as [HSe HSt].
  assert (mrep P' (m1, c) A {[e := centry (<[xkh new := e]> (a_tab (spec_evict charge A).1)) e new]}) as Rm.
  { rewrite (Hview (a_tab (spec_evict charge A).1)) in R1. split; simpl; try apply R.
    - rewrite map_union_empty in R1. rewrite <-insert_union_singleton_r; [done|].
      by rewrite cents_lookup, He.
    - intros a [x [<- <-]%lookup_singleton_Some]. done. }
  eapply wp_bind, (wp_evict_from_lru P' charge); [exact W|exact Rm|]. intros s2 r R2 S2 E2. subst r.
  apply (wp_insert_tail P' s2 A (spec_evict charge A).1 (spec_evict charge A).2 e new); try done.
  - by apply wf_evict.
  - apply (wf_insert e key hash value charge deleter priority A); done.
  - by apply evicted_nodup.
  - intros a Ha. apply (lru_is_entry _ _ W). by eapply evicted_lru.
  - apply map_subseteq_size in HSt. unfold spec_evict. lia.
  - intros s3 r R3 S3 E3. split_and!; [done|done|mem_steps|by rewrite E3, E2].
Qed.
End Refine.
