(* ===== verification/LRUHistory.v ===== *)
(** * Histories of a shard

    The methods of [LRUCache] as the transitions of a machine that a client
    drives, in step with the abstract cache. The client may do anything that
    the comments of lru_cache.hh allow: in particular it releases only handles
    it holds. The simulation theorem shows that no such history makes the code
    fail; the other theorems are what a client can rely on. *)

From S2P Require Import Prelude CacheKey HandleTable HandleTableRep LRUCache LRUList LRUSpec.
From S2P Require Import LRURefine.

(** ** The machines *)

Inductive cop :=
| OpLookup (key : CacheKey) (hash : Z)
| OpInsert (key : CacheKey) (hash value charge deleter : Z) (priority : CachePriority)
| OpRelease (handle : option addr)
| OpErase (key : CacheKey) (hash : Z)
| OpPrune
| OpSetCapacity (capacity : Z).

Inductive cres := RHandle (a : option addr) | RUnit | RCount (n : Z).

Definition run_op (op : cop) : M cstate cres :=
  match op with
  | OpLookup key hash => a ← LRUCache_lookup key hash; mret (RHandle a)
  | OpInsert key hash value charge deleter priority =>
      a ← LRUCache_insert key hash value charge deleter priority; mret (RHandle (Some a))
  | OpRelease handle => _ ← LRUCache_release handle; mret RUnit
  | OpErase key hash => _ ← LRUCache_erase key hash; mret RUnit
  | OpPrune => n ← LRUCache_prune; mret (RCount n)
  | OpSetCapacity n => _ ← LRUCache_set_capacity n; mret RUnit
  end.

(** the abstract machine: result, next state, entries whose deleter runs *)
Inductive spec_step (A : acache) : cop -> cres -> acache -> list addr -> Prop :=
| spec_step_lookup key hash :
    spec_step A (OpLookup key hash) (RHandle (spec_lookup key hash A).1)
      (spec_lookup key hash A).2 []
| spec_step_insert e key hash value charge deleter priority :
    a_ents A !! e = None ->
    spec_step A (OpInsert key hash value charge deleter priority) (RHandle (Some e))
      (spec_insert e key hash value charge deleter priority A).1
      (spec_insert e key hash value charge deleter priority A).2
| spec_step_release_null : spec_step A (OpRelease None) RUnit A []
| spec_step_release a :
    spec_step A (OpRelease (Some a)) RUnit (spec_release a A).1 (spec_release a A).2
| spec_step_erase key hash :
    spec_step A (OpErase key hash) RUnit (spec_erase key hash A).1 (spec_erase key hash A).2
| spec_step_prune :
    spec_step A OpPrune (RCount (i32 (Z.of_nat (length (a_lru A))))) (spec_prune A).1 (spec_prune A).2
| spec_step_set_capacity n :
    spec_step A (OpSetCapacity n) RUnit (spec_set_capacity n A).1 (spec_set_capacity n A).2.

(** what the client has to respect, and the sizes the counters can hold *)
Definition allowed (A : acache) (op : cop) : Prop :=
  match op with
  | OpLookup _ hash => inu 32 hash /\
      forall a en, a_ents A !! a = Some en -> x_handles en < 2 ^ 32 - 2
  | OpInsert _ hash _ charge _ _ => inu 32 hash /\ inu 64 charge /\ Z.of_nat (size (a_tab A)) < 2 ^ 31
  | OpRelease None => True
  | OpRelease (Some a) => exists en, a_ents A !! a = Some en /\ 0 < x_handles en
  | OpErase _ hash => inu 32 hash
  | OpPrune => True
  | OpSetCapacity n => inu 64 n
  end.

Definition empty_cache : acache := mkA ∅ ∅ [] 0 0 0.

(** the handles a shard owns *)
Definition footprint (self : addr) (A : acache) (a : addr) : Prop :=
  a = self \/ is_Some (a_ents A !! a).

Definition cache_rep (s : cstate) (A : acache) : Prop :=
  crep (rep := table_rep) (footprint (c_lru s.2) A) s A.

(** ** The simulation *)

Lemma crep_footprint P s A : crep (rep := table_rep) P s A -> cache_rep s A.
Proof.
  intros R. pose proof (mr_shard _ _ _ _ R) as RS. split; try apply R.
  split; try apply RS. intros a [->|[x Ha]]; [by left|right].
  rewrite map_union_empty, cents_lookup in Ha. by destruct (a_ents A !! a); [eexists|].
Qed.

Lemma empty_wf : wf empty_cache.
Proof.
  split; simpl; try (intros ? ? E; by rewrite lookup_empty in E); try done.
  - intros a. split; [by intros ?%elem_of_nil|]. intros (en & E & _). by rewrite lookup_empty in E.
  - constructor.
Qed.

Lemma new_cache_rep self m :
  handles m !! self = None ->
  wp (LRUCache_new self) (fun c m' => c_lru c = self /\ cache_rep (m', c) empty_cache /\
    mem_step (fun a => a = self) [] m m') m.
Proof.
  intros Hf. unfold LRUCache_new.
  destruct (table_new (rep := table_rep) m) as (t & Hnew & Hrep).
  eapply wp_bind, wp_intro; [exact Hnew|]. apply wp_bind, wp_modify, wp_ret.
  split; [done|]. split.
  2:{ apply mem_step_handles. intros a Ha. by apply lookup_insert_ne. }
  split; simpl; try done.
  - split; simpl.
    + eapply table_frame; [exact Hrep|]. intros kh a E. by rewrite lookup_empty in E.
    + intros a en E. by rewrite map_union_empty in E.
    + unfold nx, pv. rewrite lookup_insert_eq. done.
    + apply NoDup_singleton.
    + by intros a ?%elem_of_nil.
    + intros a [en E]. by rewrite map_union_empty in E.
    + intros kh a E. by rewrite lookup_empty in E.
    + done.
    + intros a [->|[en E]]; [by left|]. by rewrite map_union_empty in E.
Qed.

(** what a verified method gives for a transition; the handles the shard
    gains were not allocated before *)
Definition simulates (s : cstate) (A : acache) (op : cop) : Prop :=
  exists r s' A' V, run_op op s = Ok (r, s') /\ spec_step A op r A' V /\ wf A' /\
    cache_rep s' A' /\ c_lru s'.2 = c_lru s.2 /\
    mem_step (fun a => footprint (c_lru s.2) A a \/ footprint (c_lru s.2) A' a)
      (deletions_of A V) s.1 s'.1 /\
    (forall a, footprint (c_lru s.2) A' a -> footprint (c_lru s.2) A a \/ handles s.1 !! a = None).

(** where the entries after a transition come from *)
Lemma spec_step_origin A op r A' V a en :
  wf A -> spec_step A op r A' V -> a_ents A' !! a = Some en ->
  (exists n, a_ents A !! a = Some (with_handles n en)) \/
  (exists key value charge deleter priority,
     op = OpInsert key (x_hash en) value charge deleter priority /\ r = RHandle (Some a)).
Proof.
  intros W HS.
  assert (forall ents, ents ⊆ a_ents A -> ents !! a = Some en ->
    exists n, a_ents A !! a = Some (with_handles n en)) as Hsub.
  { intros ents Hs Ha. exists (x_handles en). rewrite (lookup_weaken _ _ _ _ Ha Hs). by destruct en. }
  assert (forall b en' n, a_ents A !! b = Some en' ->
    <[b := with_handles n en']> (a_ents A) !! a = Some en ->
    exists n, a_ents A !! a = Some (with_handles n en)) as Hupd.
  { intros b en' n Hb [[<- <-]|[_ Ha]]%lookup_insert_Some; [|by apply (Hsub (a_ents A))].
    exists (x_handles en'). rewrite Hb. by destruct en'. }
  destruct HS as [key hash|e key hash value charge deleter priority He| |b|key hash| |n]; simpl.
  - intros Ha. left. unfold spec_lookup in Ha.
    destruct (a_tab A !! (key, hash)) as [b|] eqn:Et; [|by apply (Hsub (a_ents A))].
    destruct (wf_tab _ W _ _ Et) as (en' & Hen & _). simpl in Ha.
    rewrite (alter_handles A b en') in Ha by done. by eapply Hupd.
  - intros [[<- <-]|[_ Ha]]%lookup_insert_Some; [right; by eexists _, _, _, _, _|left].
    eapply (Hsub (a_ents (spec_evict charge A).1)); [apply evict_list_sub|].
    eapply lookup_weaken; [exact Ha|apply unmap_sub].
  - intros Ha. left. by apply (Hsub (a_ents A)).
  - intros Ha. left. unfold spec_release in Ha.
    destruct (a_ents A !! b) as [en'|] eqn:Hb; [|by apply (Hsub (a_ents A))].
    destruct (negb _); [simpl in Ha; by eapply Hupd|]. destruct (cached A b en'); [destruct (_ <? _)|].
    + eapply Hsub; [apply drop_sub|exact Ha].
    + simpl in Ha. by eapply Hupd.
    + eapply Hsub; [|exact Ha]. apply delete_subseteq.
  - intros Ha. left. eapply Hsub; [apply unmap_sub|exact Ha].
  - intros Ha. left. eapply Hsub; [apply (prune_sub A)|exact Ha].
  - intros Ha. left. eapply Hsub; [|exact Ha]. apply (evict_list_sub 0 _ (with_capacity n A)).
Qed.

Lemma simulates_refines {B} s A op (m : M cstate B) (f : B -> cres) out A' V :
  run_op op s = (b ← m; mret (f b)) s ->
  refines (rep := table_rep) (footprint (c_lru s.2) A) s m out A' (deletions_of A V) ->
  wf A -> (forall key hash value charge deleter priority,
    op <> OpInsert key hash value charge deleter priority) ->
  spec_step A op (f out) A' V -> wf A' -> simulates s A op.
Proof.
  intros E HR W0 Hop HS W. apply wp_elim in HR as (b & s' & Hm & -> & R & S & El).
  exists (f out), s', A', V. split_and!; try done.
  - rewrite E. unfold mbind, M_bind. by rewrite Hm.
  - by eapply crep_footprint.
  - eapply mem_step_mono; [|exact S]. tauto.
  - intros a [->|[en Ha]]; [by left; left|]. left. right.
    destruct (spec_step_origin _ _ _ _ _ _ _ W0 HS Ha) as [[n ->]|(? & ? & ? & ? & ? & Eop & _)];
      [by eexists|by eapply Hop in Eop].
Qed.

Lemma simulates_insert s A key hash value charge deleter priority :
  wf A -> cache_rep s A -> inu 32 hash -> inu 64 charge -> Z.of_nat (size (a_tab A)) < 2 ^ 31 ->
  simulates s A (OpInsert key hash value charge deleter priority).
Proof.
  intros W R Hh Hc Hs.
  pose proof (insert_refines _ s A key hash value charge deleter priority W R Hh Hc Hs) as HR.
  apply wp_elim in HR as (e & s' & Hm & Hf & R' & S & El).
  assert (a_ents A !! e = None) as He.
  { destruct (a_ents A !! e) as [en|] eqn:E; [|done].
    destruct (shard_handle (mr_shard _ _ _ _ R) e _ (mrep_lookup _ _ _ _ _ _ R E)) as (h & Hh' & _).
    congruence. }
  eexists _, s', _, _. split_and!; [|by apply spec_step_insert|by apply wf_insert| |done| |].
  - simpl. unfold mbind, M_bind. by rewrite Hm.
  - by eapply crep_footprint.
  - eapply mem_step_mono; [|exact S]. intros a [Ha| ->]; [by left|]. right. right.
    simpl. rewrite lookup_insert_eq. by eexists.
  - intros a [->|[en Ha]]; [by left; left|].
    destruct (spec_step_origin _ _ _ _ _ _ _ W (spec_step_insert A e key hash value charge
      deleter priority He) Ha) as [[n Hn]|(? & ? & ? & ? & ? & _ & [= <-])];
      [left; right; by eexists|by right].
Qed.

Lemma step_simulation s A op : wf A -> cache_rep s A -> allowed A op -> simulates s A op.
Proof.
  intros W R. destruct op as [key hash|key hash value charge deleter priority|[a|]|key hash| |n];
    simpl; intros Ha.
  - destruct Ha as [Hh Hb]. eapply (simulates_refines _ _ _ _ RHandle _ _ []); [done| |done|done|constructor|].
    + by apply lookup_refines.
    + by apply wf_lookup.
  - destruct Ha as (Hh & Hc & Hs). by apply simulates_insert.
  - destruct Ha as (en & He & Hp).
    eapply (simulates_refines _ _ _ _ (fun _ => RUnit)); [done| |done|done|constructor|].
    + destruct s as [m c]. by eapply release_refines.
    + by eapply wf_release.
  - exists RUnit, s, A, []. split_and!; try done; [constructor|apply mem_step_refl|by left].
  - eapply (simulates_refines _ _ _ _ (fun _ => RUnit)); [done| |done|done|constructor|].
    + by apply erase_refines.
    + by apply wf_unmap.
  - eapply (simulates_refines _ _ _ _ RCount); [done| |done|done|constructor|].
    + by apply prune_refines.
    + by apply wf_prune.
  - eapply (simulates_refines _ _ _ _ (fun _ => RUnit)); [done| |done|done|constructor|].
    + by apply set_capacity_refines.
    + by apply wf_set_capacity.
Qed.

(** ** Histories *)

(** the deleter call an operation puts off: the one of the entry it inserts *)
Definition inserted (op : cop) : list deletion :=
  match op with
  | OpInsert key _ value _ deleter _ => [mkDeletion deleter key value]
  | _ => []
  end.

(** a history from the construction of the shard at [self], by a client that
    respects [G]; [ins] lists what it inserted *)
Inductive history (G : acache -> cop -> Prop) (self : addr) (m0 : mem)
    : cstate -> acache -> list deletion -> Prop :=
| history_new m c :
    LRUCache_new self m0 = Ok (c, m) -> history G self m0 (m, c) empty_cache []
| history_step s A ins op r s' A' V :
    history G self m0 s A ins -> allowed A op -> G A op ->
    run_op op s = Ok (r, s') -> spec_step A op r A' V ->
    history G self m0 s' A' (inserted op ++ ins).

(** no restriction beyond [allowed] *)
Definition any_client (A : acache) (op : cop) : Prop := True.

(** the charges of all entries add up within a [size_t] *)
Definition fits (A : acache) (op : cop) : Prop :=
  match op with
  | OpInsert _ _ _ charge _ _ => total_charge (a_ents A) + charge < 2 ^ 64
  | _ => True
  end.

Lemma spec_step_det A op r A1 V1 A2 V2 :
  spec_step A op r A1 V1 -> spec_step A op r A2 V2 -> A1 = A2 /\ V1 = V2.
Proof. intros H1 H2. destruct H1; inversion H2; subst; done. Qed.

Section History.
Context (G : acache -> cop -> Prop) (self : addr) (m0 : mem).
Context (Hfresh : handles m0 !! self = None).

Lemma history_rep s A ins :
  history G self m0 s A ins -> wf A /\ cache_rep s A /\ c_lru s.2 = self.
Proof.
  induction 1 as [m c Hn|s A ins op r s' A' V Hh IH Ha HG Hr HS].
  - pose proof (wp_run _ _ _ _ _ (new_cache_rep self m0 Hfresh) Hn) as (Hc & R & _).
    split_and!; [apply empty_wf|done|done].
  - destruct IH as (W & R & Hc). destruct (step_simulation s A op W R Ha)
      as (r' & s'' & A'' & V' & Hr' & HS' & W' & R' & Hc' & _).
    rewrite Hr in Hr'. injection Hr' as <- <-.
    destruct (spec_step_det _ _ _ _ _ _ _ HS HS') as [<- <-].
    split_and!; [done|done|congruence].
Qed.

(** the deleter calls of one transition *)
Lemma history_step_mem s A ins op r s' A' V :
  history G self m0 s A ins -> allowed A op -> run_op op s = Ok (r, s') ->
  spec_step A op r A' V ->
  mem_step (fun a => footprint self A a \/ footprint self A' a) (deletions_of A V) s.1 s'.1.
Proof.
  intros Hh Ha Hr HS. destruct (history_rep s A ins Hh) as (W & R & <-).
  destruct (step_simulation s A op W R Ha)
    as (r' & s'' & A'' & V' & Hr' & HS' & W' & R' & Hc' & S' & _).
  rewrite Hr in Hr'. injection Hr' as <- <-.
  by destruct (spec_step_det _ _ _ _ _ _ _ HS HS') as [<- <-].
Qed.
End History.

(** what a transition does with the values of the entries *)
Lemma spec_step_live A op r A' V :
  wf A -> spec_step A op r A' V -> inserted op ++ live A ≡ₚ deletions_of A V ++ live A'.
Proof.
  intros W HS. destruct HS; simpl.
  - by apply live_lookup.
  - by apply live_insert_op.
  - done.
  - apply live_release.
  - apply live_unmap.
  - apply live_drop_all; [apply W|]. intros a. by apply lru_is_entry.
  - rewrite (live_ents A (with_capacity n A)) by done.
    by apply (live_evict 0 (with_capacity n A)), wf_with_capacity.
Qed.

Lemma spec_step_total A op r A' V :
  wf A -> allowed A op -> fits A op -> total_charge (a_ents A) < 2 ^ 64 ->
  spec_step A op r A' V -> total_charge (a_ents A') < 2 ^ 64.
Proof.
  intros W Ha Hf Ht HS. destruct HS as [key hash|e key hash value charge deleter priority He
    | |a|key hash| |n]; simpl in *; try done.
  - unfold spec_lookup. destruct (a_tab A !! (key, hash)) as [a|] eqn:Et; [|done].
    destruct (wf_tab _ W _ _ Et) as (en & He & _). simpl.
    by rewrite (alter_handles A a en), (total_charge_update _ a en) by done.
  - rewrite total_charge_insert; simpl.
    + pose proof (total_charge_sub_wf A _ W (proj1 (evict_list_sub charge (eviction_order A) A))).
      pose proof (total_charge_sub_wf _ _ (wf_evict charge A W)
        (proj1 (unmap_sub (key, hash) (spec_evict charge A).1))).
      unfold spec_evict in *. lia.
    + eapply lookup_weaken_None; [|apply unmap_sub]. by eapply lookup_weaken_None; [|apply evict_list_sub].
  - unfold spec_release. destruct (a_ents A !! a) as [en|] eqn:He; [|done].
    destruct (negb _); [simpl; by rewrite (total_charge_update _ a en)|].
    destruct (cached A a en); [destruct (_ <? _)|]; simpl.
    + eapply Z.le_lt_trans; [apply (total_charge_sub_wf A); [done|apply drop_sub]|done].
    + by rewrite (total_charge_update _ a en).
    + eapply Z.le_lt_trans; [apply (total_charge_sub_wf A); [done|apply delete_subseteq]|done].
  - eapply Z.le_lt_trans; [apply (total_charge_sub_wf A); [done|apply unmap_sub]|done].
  - eapply Z.le_lt_trans; [apply (total_charge_sub_wf A); [done|apply (prune_sub A)]|done].
  - eapply Z.le_lt_trans; [|exact Ht].
    apply (total_charge_sub_wf (with_capacity n A)); [by apply wf_with_capacity|apply evict_list_sub].
Qed.

Lemma spec_step_within A op r A' V :
  wf A -> allowed A op -> fits A op -> total_charge (a_ents A) < 2 ^ 64 -> within A ->
  spec_step A op r A' V -> within A'.
Proof.
  intros W Ha Hf Ht Hw HS. destruct HS as [key hash|e key hash value charge deleter priority He
    | |a|key hash| |n]; simpl in *.
  - by apply within_lookup.
  - destruct Ha as (_ & [Hc _] & _). by apply within_insert.
  - done.
  - by apply within_release.
  - apply (within_sub A); [done|done|apply unmap_sub|intros b; apply unmap_lru|apply unmap_capacity].
  - left. by apply (prune_lru A).
  - by apply within_evict.
Qed.

Lemma history_within self m0 s A ins :
  handles m0 !! self = None -> history fits self m0 s A ins ->
  within A /\ total_charge (a_ents A) < 2 ^ 64.
Proof.
  intros Hf. induction 1 as [m c Hn|s A ins op r s' A' V Hh IH Ha HG Hr HS]; [split; [by left|done]|].
  destruct (history_rep _ _ _ Hf _ _ _ Hh) as (W & _). destruct IH as [Hw Ht].
  split; [by eapply spec_step_within|by eapply spec_step_total].
Qed.

(** ** Entries that a client holds *)

Lemma drop_all_ents l A a : a ∉ l -> a_ents (drop_all l A) !! a = a_ents A !! a.
Proof.
  revert A. induction l as [|b l IH]; intros A Ha; simpl; [done|].
  apply not_elem_of_cons in Ha as [Hne Ha]. by rewrite IH, drop_ents_ne.
Qed.

Lemma unmap_held kh A a en :
  a_ents A !! a = Some en -> x_handles en <> 0 ->
  a_ents (spec_unmap kh A).1 !! a = Some en /\ a ∉ (spec_unmap kh A).2.
Proof.
  intros He Hn. unfold spec_unmap. destruct (a_tab A !! kh) as [o|]; [|split; [done|apply not_elem_of_nil]].
  destruct (a_ents A !! o) as [en'|] eqn:Ho; [|split; [done|apply not_elem_of_nil]].
  destruct (Z.eqb_spec (x_handles en') 0) as [E|E]; [|split; [done|apply not_elem_of_nil]].
  assert (a <> o) as Hne by (intros ->; congruence). simpl.
  rewrite drop_ents_ne by done. split; [done|]. by rewrite list_elem_of_singleton.
Qed.

Lemma evict_held charge A a en :
  wf A -> a_ents A !! a = Some en -> x_handles en <> 0 ->
  a_ents (spec_evict charge A).1 !! a = Some en /\ a ∉ (spec_evict charge A).2.
Proof.
  intros W He Hn. assert (a ∉ (spec_evict charge A).2) as Ha.
  { intros Ha%evicted_lru; [|done]. by eapply held_not_lru. }
  split; [|done]. unfold spec_evict in *. rewrite evict_list_drops.
  by rewrite drop_all_ents.
Qed.

(** the entry stays, unless its holder gives up the last handle *)
Lemma spec_step_held A op r A' V a en :
  wf A -> spec_step A op r A' V -> a_ents A !! a = Some en -> 0 < x_handles en ->
  (op = OpRelease (Some a) -> 1 < x_handles en) ->
  (exists n, 0 < n /\ a_ents A' !! a = Some (with_handles n en)) /\ a ∉ V.
Proof.
  intros W HS He Hp Hrel. assert (x_handles en <> 0) as Hn by lia.
  assert (Some en = Some (with_handles (x_handles en) en)) as Eid by (by destruct en).
  destruct HS as [key hash|e key hash value charge deleter priority Hf| |b|key hash| |n].
  - split; [|apply not_elem_of_nil]. unfold spec_lookup.
    destruct (a_tab A !! (key, hash)) as [b|]; simpl; [|exists (x_handles en); by rewrite He].
    destruct (decide (b = a)) as [->|Hne].
    + exists (x_handles en + 1). rewrite lookup_alter_eq, He. split; [lia|done].
    + exists (x_handles en). by rewrite lookup_alter_ne, He.
  - unfold spec_insert. simpl. destruct (evict_held charge A a en W He Hn) as [He1 HV1].
    destruct (unmap_held (key, hash) _ a en He1 Hn) as [He2 HV2].
    split; [|rewrite elem_of_app; tauto]. exists (x_handles en).
    rewrite lookup_insert_ne by (intros ->; congruence). by rewrite He2.
  - split; [|apply not_elem_of_nil]. exists (x_handles en). by rewrite He.
  - unfold spec_release. destruct (a_ents A !! b) as [en'|] eqn:Hb;
      [|split; [exists (x_handles en); simpl; by rewrite He|apply not_elem_of_nil]].
    destruct (decide (b = a)) as [->|Hne].
    + specialize (Hrel eq_refl). rewrite He in Hb. injection Hb as <-.
      destruct (Z.eqb_spec (x_handles en) 1) as [E1|E1]; [lia|]. simpl.
      split; [|apply not_elem_of_nil]. exists (x_handles en - 1). rewrite lookup_insert_eq.
      split; [lia|done].
    + assert (a <> b) as Hne' by done.
      destruct (negb _); [|destruct (cached A b en'); [destruct (_ <? _)|]]; simpl;
        rewrite ?drop_ents_ne, ?lookup_insert_ne, ?lookup_delete_ne, ?He by done;
        (split; [by exists (x_handles en)|]);
        first [apply not_elem_of_nil | by rewrite list_elem_of_singleton].
  - unfold spec_erase. destruct (unmap_held (key, hash) A a en He Hn) as [He2 HV2].
    split; [|done]. exists (x_handles en). by rewrite He2.
  - simpl. assert (a ∉ a_lru A) by (by eapply held_not_lru). split; [|done].
    exists (x_handles en). by rewrite drop_all_ents, He.
  - unfold spec_set_capacity.
    destruct (evict_held 0 (with_capacity n A) a en (wf_with_capacity n A W) He Hn) as [He1 HV1].
    split; [|done]. exists (x_handles en). by rewrite He1.
Qed.

(** what a client reads through a handle *)
Lemma cache_rep_handle s A a en :
  cache_rep s A -> a_ents A !! a = Some en ->
  exists h, handles s.1 !! a = Some h /\ h_value h = x_value en /\ hkh h = xkh en /\
            h_charge h = x_charge en.
Proof.
  intros R He. pose proof (mrep_lookup _ _ _ _ _ _ R He) as Hl.
  destruct (shard_handle (mr_shard _ _ _ _ R) a _ Hl) as (h & Hh & Hv).
  exists h. split; [done|]. unfold view, centry in Hv. unfold hkh, xkh.
  injection Hv as E1 _ E3 E4 E5 _ _ _. by rewrite E1, E3, E4, E5.
Qed.

(** ** The mapping *)

Lemma unmap_tab_ne kh kh' A : wf A -> kh' <> kh -> a_tab (spec_unmap kh A).1 !! kh' = a_tab A !! kh'.
Proof.
  intros W Hne. unfold spec_unmap. destruct (a_tab A !! kh) as [o|] eqn:Et; [|done].
  destruct (wf_tab _ W _ _ Et) as (en & He & <-). rewrite He.
  destruct (_ =? _); simpl; [unfold drop_entry; rewrite He; simpl|]; by apply lookup_delete_ne.
Qed.

Lemma spec_lookup_result key hash A : (spec_lookup key hash A).1 = a_tab A !! (key, hash).
Proof. unfold spec_lookup. by destruct (a_tab A !! (key, hash)). Qed.

(** no entry is close to the limit of its reference counter *)
Definition handles_small (A : acache) : Prop :=
  forall a en, a_ents A !! a = Some en -> x_handles en < 2 ^ 32 - 2.

Lemma handles_small_sub A A' : handles_small A -> a_ents A' ⊆ a_ents A -> handles_small A'.
Proof. intros Hs HS a en Ha. eapply Hs, lookup_weaken; done. Qed.

Lemma handles_small_insert e key hash value charge deleter priority A :
  handles_small A -> handles_small (spec_insert e key hash value charge deleter priority A).1.
Proof.
  intros Hs a en. simpl. intros [[<- <-]|[_ Ha]]%lookup_insert_Some; [simpl; lia|].
  eapply Hs. eapply lookup_weaken; [|apply evict_list_sub].
  eapply lookup_weaken; [exact Ha|apply unmap_sub].
Qed.

(** what is left after [prune] *)
Lemma prune_ents A a en :
  wf A -> a_ents (spec_prune A).1 !! a = Some en <-> a_ents A !! a = Some en /\ x_handles en <> 0.
Proof.
  intros W. split.
  - intros Ha. pose proof (lookup_weaken _ _ _ _ Ha (prune_sub A)) as Ha'. split; [done|]. intros Hz.
    assert (a ∈ a_lru (spec_prune A).1) as Hin by (apply (wf_lru _ (wf_prune A W)); by exists en).
    rewrite (prune_lru A W) in Hin. by apply elem_of_nil in Hin.
  - intros [Ha Hn]. simpl. rewrite drop_all_ents; [done|]. by eapply held_not_lru.
Qed.
