(* ===== verification/LRUTheorems.v ===== *)
(** * What a client of a shard can rely on

    The theorems about [LRUCache] that follow from the simulation of
    LRUHistory.v, each with a run of the code that it applies to. *)

From S2P Require Import Prelude CacheKey HandleTable HandleTableRep LRUCache LRUList LRUSpec.
From S2P Require Import LRURefine LRUHistory.

(** ** A run of the code, for the examples *)

Definition empty_mem : mem := mkMem ∅ ∅ [].

Definition run_all (s : cstate) (ops : list cop) : res (list cres * cstate) :=
  foldl (fun acc op => '(rs, s) ← acc; '(r, s') ← run_op op s; Ok (rs ++ [r], s'))
    (Ok ([], s)) ops.

Definition state_or {S A} (d : S) (r : res (A * S)) : S :=
  match r with Ok (_, s) => s | Err _ => d end.
Definition result_or {S A} (d : A) (r : res (A * S)) : A :=
  match r with Ok (a, _) => a | Err _ => d end.

Definition no_cache : LRUCache := mkCache 1 0 0 0 (mkTable 0 0 []) 0 0.

Definition st0 : cstate :=
  match LRUCache_new 1 empty_mem with Ok (c, m) => (m, c) | Err _ => (empty_mem, no_cache) end.

Definition key_a : CacheKey := [97].
Definition ins_a : cop := OpInsert key_a 7 100 10 1 NORMAL.

Definition st1 : cstate := state_or st0 (run_op ins_a st0).
Definition ab1 : acache := (spec_insert 2 key_a 7 100 10 1 NORMAL empty_cache).1.

Lemma history0 G : history G 1 empty_mem st0 empty_cache [].
Proof. apply history_new. vm_compute. reflexivity. Qed.

Lemma allowed_ins_a A : Z.of_nat (size (a_tab A)) < 2 ^ 31 -> allowed A ins_a.
Proof. intros Hs. unfold allowed, ins_a, inu. split_and!; (lia || done). Qed.

Lemma history1 (G : acache -> cop -> Prop) :
  G empty_cache ins_a -> history G 1 empty_mem st1 ab1 (inserted ins_a ++ []).
Proof.
  intros HG. eapply (history_step _ _ _ st0 empty_cache [] ins_a (RHandle (Some 2%positive))).
  - apply history0.
  - by apply allowed_ins_a.
  - exact HG.
  - vm_compute. reflexivity.
  - by apply spec_step_insert.
Qed.

Lemma handles_small1 : handles_small ab1.
Proof. apply handles_small_insert. intros a en E. simpl in E. by rewrite lookup_empty in E. Qed.

(** ** Safety and refinement *)

(** C1: whatever a client does that the interface allows, from the
    construction of a shard on, the next call runs to completion (no null
    dereference, no use after free, no failed DCHECK, no endless loop), its
    result, the next state and the deleter calls are those of the abstract
    cache, and no handle outside the shard changes. *)
Theorem lru_history_safe self m0 s A ins op :
  handles m0 !! self = None -> history any_client self m0 s A ins -> allowed A op ->
  simulates s A op.
Proof.
  intros Hf Hh Ha. destruct (history_rep _ _ _ Hf _ _ _ Hh) as (W & R & _).
  by apply step_simulation.
Qed.

Lemma lru_history_safe_witness : simulates st1 ab1 (OpErase key_a 7).
Proof.
  apply (lru_history_safe 1 empty_mem st1 ab1 (inserted ins_a ++ []) (OpErase key_a 7)).
  - reflexivity.
  - apply history1. exact I.
  - simpl. unfold inu. lia.
Defined.

(** C18: after any history, every value that was handed to [insert] is either
    in an entry that is still allocated or was passed to its deleter, exactly
    once, with its key. *)
Theorem lru_deleters_once self m0 s A ins :
  handles m0 !! self = None -> history any_client self m0 s A ins ->
  exists dels, deletions s.1 = deletions m0 ++ dels /\ ins ≡ₚ dels ++ live A.
Proof.
  intros Hf Hh. induction Hh as [m c Hn|s A ins op r s' A' V Hh IH Ha HG Hr HS].
  - pose proof (wp_run _ _ _ _ _ (new_cache_rep self m0 Hf) Hn) as (_ & _ & _ & D & _).
    exists []. by split.
  - destruct IH as (dels & D & HP).
    destruct (history_rep _ _ _ Hf _ _ _ Hh) as (W & _).
    destruct (history_step_mem _ _ _ Hf _ _ _ _ _ _ _ _ Hh Ha Hr HS) as (_ & D' & _).
    exists (dels ++ deletions_of A V). split; [by rewrite D', D, app_assoc|].
    rewrite HP, (app_assoc (inserted op)), (Permutation_app_comm (inserted op)), <-!app_assoc.
    by rewrite (spec_step_live A op r A' V W HS).
Qed.

Lemma lru_deleters_once_witness :
  exists dels, deletions st1.1 = [] ++ dels /\ inserted ins_a ++ [] ≡ₚ dels ++ live ab1.
Proof.
  apply (lru_deleters_once 1 empty_mem st1 ab1 (inserted ins_a ++ [])).
  - reflexivity.
  - apply history1. exact I.
Defined.

(** C19: as long as the charges add up within a [size_t], the usage counter is
    the sum of the charges of all allocated entries, and it exceeds the
    capacity only while every entry is in use (the list of evictable entries
    is empty: the sentinel points to itself). *)
Theorem lru_within_capacity self m0 s A ins :
  handles m0 !! self = None -> history fits self m0 s A ins ->
  c_usage s.2 = total_charge (a_ents A) /\
  (nx (handles s.1) self = Some self \/ c_usage s.2 <= c_capacity s.2).
Proof.
  intros Hf Hh. destruct (history_rep _ _ _ Hf _ _ _ Hh) as (W & R & Hc).
  destruct (history_within _ _ _ _ _ Hf Hh) as [Hw Ht].
  assert (c_usage s.2 = total_charge (a_ents A)) as Hu.
  { rewrite (mr_usage _ _ _ _ R). by apply usage_exact. }
  split; [done|]. rewrite Hu, (mr_capacity _ _ _ _ R). destruct Hw as [Hl|Hw]; [left|by right].
  pose proof (s_links (mr_shard _ _ _ _ R)) as Hlinks. rewrite Hl, Hc in Hlinks. apply Hlinks.
Qed.

Lemma lru_within_capacity_witness :
  c_usage st1.2 = 10 /\ (nx (handles st1.1) 1 = Some 1%positive \/ c_usage st1.2 <= c_capacity st1.2).
Proof.
  apply (lru_within_capacity 1 empty_mem st1 ab1 (inserted ins_a ++ [])).
  - reflexivity.
  - apply history1. unfold fits, ins_a. vm_compute. reflexivity.
Defined.

(** C20: while a client holds a handle, every operation of any client leaves
    the handle allocated, with the value, key and charge it was inserted with;
    only releasing the last handle can free it. *)
Theorem lru_held_handle_valid self m0 s A ins a en op :
  handles m0 !! self = None -> history any_client self m0 s A ins ->
  a_ents A !! a = Some en -> 0 < x_handles en -> allowed A op ->
  (op = OpRelease (Some a) -> 1 < x_handles en) ->
  exists r s' h, run_op op s = Ok (r, s') /\ handles s'.1 !! a = Some h /\
    h_value h = x_value en /\ hkh h = xkh en /\ h_charge h = x_charge en.
Proof.
  intros Hf Hh He Hp Ha Hrel. destruct (history_rep _ _ _ Hf _ _ _ Hh) as (W & R & _).
  destruct (step_simulation s A op W R Ha) as (r & s' & A' & V & Hr & HS & _ & R' & _).
  destruct (spec_step_held A op r A' V a en W HS He Hp Hrel) as [(n & _ & He') _].
  destruct (cache_rep_handle s' A' a _ R' He') as (h & Hh' & Hv).
  by exists r, s', h.
Qed.

Lemma lru_held_handle_valid_witness :
  exists r s' h, run_op OpPrune st1 = Ok (r, s') /\ handles s'.1 !! 2%positive = Some h /\
    h_value h = 100 /\ hkh h = (key_a, 7) /\ h_charge h = 10.
Proof.
  apply (lru_held_handle_valid 1 empty_mem st1 ab1 (inserted ins_a ++ []) 2
           (mkX 100 1 10 key_a 7 NORMAL 1) OpPrune).
  - reflexivity.
  - apply history1. exact I.
  - reflexivity.
  - reflexivity.
  - exact I.
  - discriminate.
Defined.

(** ** Lookups *)

(** an insertion followed by a lookup of the same key and hash finds the
    entry just inserted, and the handle gives access to the inserted value,
    whatever was evicted or replaced on the way. *)
Theorem lru_insert_lookup self m0 s A ins key hash value charge deleter priority :
  handles m0 !! self = None -> history any_client self m0 s A ins ->
  allowed A (OpInsert key hash value charge deleter priority) -> handles_small A ->
  exists e s1 s2 h,
    LRUCache_insert key hash value charge deleter priority s = Ok (e, s1) /\
    LRUCache_lookup key hash s1 = Ok (Some e, s2) /\
    handles s2.1 !! e = Some h /\ h_value h = value /\ h_charge h = charge.
Proof.
  intros Hf Hh (Hhash & Hch & Hsz) Hsm.
  destruct (history_rep _ _ _ Hf _ _ _ Hh) as (W & R & _).
  destruct (wp_elim _ _ _ (insert_refines _ s A key hash value charge deleter priority W R Hhash Hch Hsz))
    as (e & s1 & Hi & Hfr & R1 & S1 & _).
  pose proof (handles_small_insert e key hash value charge deleter priority A Hsm) as Hsm1.
  assert (a_ents A !! e = None) as He.
  { destruct (a_ents A !! e) as [en|] eqn:E; [|done].
    destruct (cache_rep_handle s A e en R E) as (h & Eh & _). congruence. }
  pose proof (wf_insert e key hash value charge deleter priority A W He Hhash Hch Hsz) as W1.
  set (A1 := (spec_insert e key hash value charge deleter priority A).1) in *.
  destruct (wp_elim _ _ _ (lookup_refines _ s1 A1 key hash W1 R1 Hhash Hsm1))
    as (r & s2 & Hl & -> & R2 & _).
  assert (a_tab A1 !! (key, hash) = Some e) as Ht by apply lookup_insert_eq.
  rewrite spec_lookup_result, Ht in Hl.
  assert (a_ents (spec_lookup key hash A1).2 !! e =
    Some (mkX value deleter charge key hash priority 2)) as He2.
  { unfold spec_lookup. rewrite Ht. simpl. by rewrite lookup_alter_eq, lookup_insert_eq. }
  destruct (cache_rep_handle s2 _ e _ (crep_footprint _ _ _ R2) He2) as (h & Eh & Ev & _ & Ec).
  by exists e, s1, s2, h.
Qed.

Lemma lru_insert_lookup_witness : exists e s1 s2 h,
  LRUCache_insert key_a 7 200 3 1 DURABLE st1 = Ok (e, s1) /\
  LRUCache_lookup key_a 7 s1 = Ok (Some e, s2) /\
  handles s2.1 !! e = Some h /\ h_value h = 200 /\ h_charge h = 3.
Proof.
  apply (lru_insert_lookup 1 empty_mem st1 ab1 (inserted ins_a ++ [])).
  - reflexivity.
  - apply history1. exact I.
  - simpl. unfold inu. split_and!; (lia || reflexivity).
  - apply handles_small1.
Defined.

(** After [erase], a lookup of the key misses; a lookup of any other key
    finds what it would have found before. *)
Theorem lru_erase_lookup self m0 s A ins key hash key' hash' :
  handles m0 !! self = None -> history any_client self m0 s A ins ->
  inu 32 hash -> inu 32 hash' -> handles_small A ->
  exists s1 r r' s2 s2',
    LRUCache_erase key hash s = Ok (tt, s1) /\
    LRUCache_lookup key' hash' s = Ok (r, s2) /\
    LRUCache_lookup key' hash' s1 = Ok (r', s2') /\
    r' = if decide ((key', hash') = (key, hash)) then None else r.
Proof.
  intros Hf Hh Hhash Hhash' Hsm. destruct (history_rep _ _ _ Hf _ _ _ Hh) as (W & R & _).
  destruct (wp_elim _ _ _ (erase_refines _ s A key hash W R Hhash)) as ([] & s1 & Hi & _ & R1 & _).
  pose proof (wf_unmap A W (key, hash)) as W1.
  assert (handles_small (spec_unmap (key, hash) A).1) as Hsm1.
  { eapply handles_small_sub; [exact Hsm|apply unmap_sub]. }
  destruct (wp_elim _ _ _ (lookup_refines _ s A key' hash' W R Hhash' Hsm))
    as (r & s2 & Hl & -> & _).
  destruct (wp_elim _ _ _ (lookup_refines _ s1 _ key' hash' W1 R1 Hhash' Hsm1))
    as (r & s2' & Hl' & -> & _).
  exists s1, (spec_lookup key' hash' A).1, (spec_lookup key' hash' (spec_unmap (key, hash) A).1).1, s2, s2'.
  split_and!; try done. rewrite !spec_lookup_result. case_decide as E.
  - rewrite E. by apply unmap_gone.
  - by apply unmap_tab_ne.
Qed.

Lemma lru_erase_lookup_witness : exists s1 r r' s2 s2',
  LRUCache_erase key_a 7 st1 = Ok (tt, s1) /\
  LRUCache_lookup key_a 7 st1 = Ok (r, s2) /\
  LRUCache_lookup key_a 7 s1 = Ok (r', s2') /\ r' = None.
Proof.
  apply (lru_erase_lookup 1 empty_mem st1 ab1 (inserted ins_a ++ []) key_a 7 key_a 7).
  - reflexivity.
  - apply history1. exact I.
  - unfold inu. lia.
  - unfold inu. lia.
  - apply handles_small1.
Defined.

(** ** Eviction *)

(** C32: [_evict_from_lru] removes a prefix of the eviction order: the unused
    normal entries from the least recently released on, then the durable ones;
    it stops as soon as the charge fits, and only then or when nothing unused
    is left; every shorter prefix would not have been enough. *)
Theorem lru_evict_order self m0 s A ins charge :
  handles m0 !! self = None -> history any_client self m0 s A ins ->
  exists V s', LRUCache_evict_from_lru charge s = Ok (V, s') /\
    V `prefix_of` eviction_order A /\
    (V = eviction_order A \/ u64 (c_usage s'.2 + charge) <= c_capacity s'.2) /\
    (forall k, (k < length V)%nat -> over charge (drop_all (take k (eviction_order A)) A) = true).
Proof.
  intros Hf Hh. destruct (history_rep _ _ _ Hf _ _ _ Hh) as (W & R & _).
  assert (wp (LRUCache_evict_from_lru charge) (fun V s' => V = (spec_evict charge A).2 /\
    exists D, mrep (rep := table_rep) (footprint (c_lru s.2) A) s' (spec_evict charge A).1 D) s) as Hwp.
  { eapply wp_evict_from_lru; [done|exact R|]. intros s' r R' _ _. split; [done|by eexists]. }
  apply wp_elim in Hwp as (V & s' & He & -> & D & R').
  exists (spec_evict charge A).2, s'. split_and!; [done|apply evict_list_prefix| |].
  - destruct (decide (length (spec_evict charge A).2 = length (eviction_order A))) as [El|Hl].
    + left. by apply evict_list_full.
    + right. apply evict_list_stop in Hl. unfold over in Hl.
      rewrite (mr_usage _ _ _ _ R'), (mr_capacity _ _ _ _ R'). by apply Z.ltb_ge.
  - intros k Hk. by apply (evict_list_minimal charge _ A).
Qed.

Lemma lru_evict_order_witness : exists V s', LRUCache_evict_from_lru 1 st1 = Ok (V, s') /\
    V `prefix_of` eviction_order ab1 /\
    (V = eviction_order ab1 \/ u64 (c_usage s'.2 + 1) <= c_capacity s'.2) /\
    (forall k, (k < length V)%nat -> over 1 (drop_all (take k (eviction_order ab1)) ab1) = true).
Proof.
  apply (lru_evict_order 1 empty_mem st1 ab1 (inserted ins_a ++ []) 1).
  - reflexivity.
  - apply history1. exact I.
Defined.

(** [prune] frees exactly the entries no client holds, in the order of the
    list, and returns how many they were (as an int). *)
Theorem lru_prune_unused self m0 s A ins :
  handles m0 !! self = None -> history any_client self m0 s A ins ->
  exists s' A', LRUCache_prune s = Ok (i32 (Z.of_nat (length (a_lru A))), s') /\ cache_rep s' A' /\
    deletions s'.1 = deletions s.1 ++ deletions_of A (a_lru A) /\
    forall a en, a_ents A' !! a = Some en <-> a_ents A !! a = Some en /\ x_handles en <> 0.
Proof.
  intros Hf Hh. destruct (history_rep _ _ _ Hf _ _ _ Hh) as (W & R & _).
  destruct (wp_elim _ _ _ (prune_refines _ s A W R)) as (n & s' & Hp & -> & R' & (_ & D & _) & _).
  exists s', (spec_prune A).1. split_and!; [done|by eapply crep_footprint|done|].
  intros a en. by apply prune_ents.
Qed.

Lemma lru_prune_unused_witness :
  exists s' A', LRUCache_prune st1 = Ok (0, s') /\ cache_rep s' A' /\
    deletions s'.1 = deletions st1.1 ++ [] /\
    forall a en, a_ents A' !! a = Some en <-> a_ents ab1 !! a = Some en /\ x_handles en <> 0.
Proof.
  apply (lru_prune_unused 1 empty_mem st1 ab1 (inserted ins_a ++ [])).
  - reflexivity.
  - apply history1. exact I.
Defined.
