(* ===== verification/Sharded.v ===== *)
(** * The sharded cache: [ShardedLRUCache]
      (src/src/modules/lru_cache/lru_cache.hh and lru_cache.cc)

    Thirty-two shards over one heap; the top bits of the hash of the key select
    the shard. The invariant [srep] keeps the handles of the shards apart, so
    an operation on one shard leaves the others as they are. *)

From S2P Require Import Prelude CacheKey HandleTable HandleTableRep LRUCache LRUList LRUSpec.
From S2P Require Import LRURefine LRUHistory.

Definition kNumShardBits : Z := 5.
Definition kNumShards : Z := Z.shiftl 1 kNumShardBits.

Record ShardedLRUCache := mkSharded {
  sc_shards : list LRUCache;
  sc_last_id : Z;
  sc_capacity : Z
}.

Definition sstate := (mem * ShardedLRUCache)%type.

Definition set_shard (i : nat) (c : LRUCache) (sc : ShardedLRUCache) : ShardedLRUCache :=
  mkSharded (<[i := c]> (sc_shards sc)) (sc_last_id sc) (sc_capacity sc).

(** [_shards[i].op(...)] *)
Definition on_shard {A} (i : nat) (op : M cstate A) : M sstate A := fun s =>
  match sc_shards s.2 !! i with
  | None => Err EBounds
  | Some c =>
      match op (s.1, c) with
      | Ok (a, (m, c')) => Ok (a, (m, set_shard i c' s.2))
      | Err e => Err e
      end
  end.

(** [for (auto& _shard : _shards) op] *)
Fixpoint for_shards {A} (idx : list nat) (op : M cstate A) : M sstate (list A) :=
  match idx with
  | [] => mret []
  | i :: idx => a ← on_shard i op; l ← for_shards idx op; mret (a :: l)
  end.

Definition all_shards : list nat := seq 0 (Z.to_nat kNumShards).

Definition ShardedLRUCache_hash_slice (s : CacheKey) : Z := CacheKey_hash s 0.

Definition ShardedLRUCache_shard (hash : Z) : Z := Z.shiftr hash (32 - kNumShardBits).

Definition shard_index (hash : Z) : nat := Z.to_nat (ShardedLRUCache_shard hash).

Definition per_shard (capacity : Z) : Z := u64 (capacity + (kNumShards - 1)) / kNumShards.

#[global] Arguments ShardedLRUCache_hash_slice : simpl never.
#[global] Arguments shard_index : simpl never.
#[global] Arguments per_shard : simpl never.

(** the array of shards is constructed element by element *)
Fixpoint new_shards (selves : list addr) : M mem (list LRUCache) :=
  match selves with
  | [] => mret []
  | self :: selves => c ← LRUCache_new self; cs ← new_shards selves; mret (c :: cs)
  end.

Definition ShardedLRUCache_new (selves : list addr) (capacity : Z) : M mem ShardedLRUCache := fun m =>
  match new_shards selves m with
  | Err e => Err e
  | Ok (cs, m) =>
      match for_shards all_shards (LRUCache_set_capacity (per_shard capacity))
              (m, mkSharded cs 0 capacity) with
      | Err e => Err e
      | Ok (_, (m, sc)) => Ok (sc, m)
      end
  end.

Definition ShardedLRUCache_set_capacity (capacity : Z) : M sstate unit :=
  _ ← for_shards all_shards (LRUCache_set_capacity (per_shard capacity));
  modify (fun s => (s.1, mkSharded (sc_shards s.2) (sc_last_id s.2) capacity)).

Definition ShardedLRUCache_insert (key : CacheKey) (value charge deleter : Z)
    (priority : CachePriority) : M sstate addr :=
  let hash := ShardedLRUCache_hash_slice key in
  on_shard (shard_index hash) (LRUCache_insert key hash value charge deleter priority).

Definition ShardedLRUCache_lookup (key : CacheKey) : M sstate (option addr) :=
  let hash := ShardedLRUCache_hash_slice key in
  on_shard (shard_index hash) (LRUCache_lookup key hash).

(** reads the hash through the handle, so a null handle is dereferenced *)
Definition ShardedLRUCache_release (handle : option addr) : M sstate unit :=
  h ← on_mem (load handle);
  on_shard (shard_index (h_hash h)) (LRUCache_release handle).

Definition ShardedLRUCache_erase (key : CacheKey) : M sstate unit :=
  let hash := ShardedLRUCache_hash_slice key in
  on_shard (shard_index hash) (LRUCache_erase key hash).

Definition ShardedLRUCache_value (handle : option addr) : M sstate Z :=
  h ← on_mem (load handle); mret (h_value h).

(** a [Slice] is a pointer and a length *)
Definition ShardedLRUCache_value_slice (handle : option addr) : M sstate (Z * Z) :=
  h ← on_mem (load handle); mret (h_value h, h_charge h).

Definition ShardedLRUCache_new_id : M sstate Z :=
  _ ← modify (fun s => (s.1, mkSharded (sc_shards s.2) (u64 (sc_last_id s.2 + 1)) (sc_capacity s.2)));
  s ← get;
  mret (sc_last_id s.2).

Definition ShardedLRUCache_get_capacity : M sstate Z := gets (fun s => sc_capacity s.2).

Definition ShardedLRUCache_prune : M sstate unit :=
  _ ← for_shards all_shards LRUCache_prune; mret tt.

Definition ShardedLRUCache_get_memory_usage : M sstate Z :=
  us ← for_shards all_shards LRUCache_get_usage;
  mret (foldl (fun total_usage u => u64 (total_usage + u)) 0 us).

(** ** The shard of a key *)

Lemma shard_index_lt hash : inu 32 hash -> (shard_index hash < Z.to_nat kNumShards)%nat.
Proof.
  intros [H0 H1]. unfold shard_index, ShardedLRUCache_shard.
  change (32 - kNumShardBits) with 27. change kNumShards with 32.
  rewrite Z.shiftr_div_pow2 by lia. apply Z2Nat.inj_lt; [|lia|].
  - apply Z.div_pos; lia.
  - apply Z.div_lt_upper_bound; lia.
Qed.

Lemma hash_slice_range key : inu 32 (ShardedLRUCache_hash_slice key).
Proof. apply CacheKey_hash_range. Qed.

(** ** Separation of the shards *)

(** a shard only depends on the handles it owns *)
Lemma shard_frame P H H' self t tab ents lru :
  shard (rep := table_rep) P H self t tab ents lru ->
  (forall a, owned self ents a -> H' !! a = H !! a) -> shard (rep := table_rep) P H' self t tab ents lru.
Proof.
  intros R HE. assert (forall a, a ∈ self :: lru -> H' !! a = H !! a) as HL.
  { intros a [->|Ha]%elem_of_cons; apply HE; [by left|]. right. by apply (s_lru R). }
  split; try apply R.
  - eapply table_frame; [apply R|]. intros kh a Ha. rewrite HE; [done|].
    right. destruct (s_tab R kh a Ha) as (en & -> & _). by eexists.
  - intros a en Ha. rewrite HE by (right; by eexists). by apply (s_ents R).
  - eapply links_ext; [| |apply R]; intros z Hz; unfold nx, pv; rewrite HL; try done.
    apply elem_of_app in Hz as [Hz| ->%list_elem_of_singleton]; [by right|by left].
  - intros a Ha Hout. unfold nx, pv. rewrite HE by (by right). by apply (s_off R).
Qed.

Lemma cache_rep_frame m m' c A :
  cache_rep (m, c) A -> (forall a, footprint (c_lru c) A a -> handles m' !! a = handles m !! a) ->
  cache_rep (m', c) A.
Proof.
  intros R HE. split; try apply R. simpl. eapply shard_frame; [apply (mr_shard _ _ _ _ R)|].
  intros a [->|[x Ha]]; apply HE; [by left|right].
  rewrite map_union_empty, cents_lookup in Ha. by destruct (a_ents A !! a); [eexists|].
Qed.

(** everything a shard owns is allocated *)
Lemma footprint_allocated m c A a :
  cache_rep (m, c) A -> footprint (c_lru c) A a -> is_Some (handles m !! a).
Proof.
  intros R [->|[en Ha]].
  - pose proof (s_links (mr_shard _ _ _ _ R)) as [Hl _]%links_ends. by eapply nx_in_heap.
  - destruct (cache_rep_handle _ _ _ _ R Ha) as (h & Hh & _). simpl in Hh. by rewrite Hh; eexists.
Qed.

(** the abstract state: one cache per shard *)
Record srep (s : sstate) (As : list acache) : Prop := {
  sr_length : length As = Z.to_nat kNumShards;
  sr_shards : length (sc_shards s.2) = Z.to_nat kNumShards;
  sr_wf : forall i A, As !! i = Some A -> wf A;
  sr_rep : forall i c A, sc_shards s.2 !! i = Some c -> As !! i = Some A -> cache_rep (s.1, c) A;
  sr_disjoint : forall i j c d A B a, i <> j ->
    sc_shards s.2 !! i = Some c -> As !! i = Some A ->
    sc_shards s.2 !! j = Some d -> As !! j = Some B ->
    footprint (c_lru c) A a -> ~ footprint (c_lru d) B a;
  sr_home : forall i A a en, As !! i = Some A -> a_ents A !! a = Some en ->
    shard_index (x_hash en) = i
}.

(** an operation belongs to shard [i] *)
Definition at_home (i : nat) (op : cop) : Prop :=
  match op with OpInsert _ hash _ _ _ _ => shard_index hash = i | _ => True end.

(** what one operation on one shard does to the whole cache *)
Definition ssimulates (s : sstate) (As : list acache) (i : nat) (A : acache) (op : cop) : Prop :=
  exists r s' A' V, on_shard i (run_op op) s = Ok (r, s') /\ spec_step A op r A' V /\
    srep s' (<[i := A']> As) /\ deletions s'.1 = deletions s.1 ++ deletions_of A V /\
    sc_last_id s'.2 = sc_last_id s.2 /\ sc_capacity s'.2 = sc_capacity s.2.

Lemma shard_lookup s As i A : srep s As -> As !! i = Some A -> exists c, sc_shards s.2 !! i = Some c.
Proof.
  intros R Hi. apply lookup_lt_is_Some. rewrite (sr_shards _ _ R), <-(sr_length _ _ R).
  by eapply lookup_lt_Some.
Qed.

Lemma on_shard_step s As i A op :
  srep s As -> As !! i = Some A -> allowed A op -> at_home i op -> ssimulates s As i A op.
Proof.
  intros R Hi Ha Hhome. destruct (shard_lookup s As i A R Hi) as [c Hc]. destruct s as [m sc].
  pose proof (sr_rep _ _ R i c A Hc Hi) as RC. pose proof (sr_wf _ _ R i A Hi) as W. simpl in *.
  destruct (step_simulation (m, c) A op W RC Ha)
    as (r & [m' c'] & A' & V & Hr & HS & W' & R' & El & (_ & D & F) & Hnew). simpl in *.
  assert (i < length As)%nat as Hlt by (by eapply lookup_lt_Some).
  assert (i < length (sc_shards sc))%nat as Hlt' by (by eapply lookup_lt_Some).
  (* the other shards own none of the handles that changed *)
  assert (forall j d B a, i <> j -> sc_shards sc !! j = Some d -> As !! j = Some B ->
    footprint (c_lru d) B a -> ~ footprint (c_lru c) A a /\ ~ footprint (c_lru c) A' a) as Hsep.
  { intros j d B a Hij Hd HB Hf.
    assert (~ footprint (c_lru c) A a) as Hn.
    { intros Hf'. by eapply (sr_disjoint _ _ R i j c d A B a). }
    split; [done|]. intros Hf'. destruct (Hnew a Hf') as [?|Hnone]; [done|].
    destruct (footprint_allocated m d B a (sr_rep _ _ R j d B Hd HB) Hf) as [h Hh]. congruence. }
  exists r, (m', set_shard i c' sc), A', V. split_and!; try done.
  { unfold on_shard. simpl. by rewrite Hc, Hr. }
  split; simpl.
  - rewrite length_insert. apply R.
  - rewrite length_insert. apply (sr_shards _ _ R).
  - intros j B HB. apply list_lookup_insert_Some in HB as [(-> & <- & _)|[_ HB]]; [done|].
    by apply (sr_wf _ _ R j).
  - intros j d B Hd HB. destruct (decide (i = j)) as [<-|Hij].
    + rewrite list_lookup_insert_eq in Hd by done. rewrite list_lookup_insert_eq in HB by done. by simplify_eq.
    + rewrite list_lookup_insert_ne in Hd by done. rewrite list_lookup_insert_ne in HB by done.
      eapply cache_rep_frame; [by apply (sr_rep _ _ R j)|]. intros a Hf. apply F.
      destruct (Hsep j d B a Hij Hd HB Hf). tauto.
  - intros j k d e B C a Hjk Hd HB He HC Hf Hf'.
    destruct (decide (i = j)) as [<-|Hij]; [|destruct (decide (i = k)) as [<-|Hik]].
    + rewrite list_lookup_insert_eq in Hd by done. rewrite list_lookup_insert_eq in HB by done.
      rewrite list_lookup_insert_ne in He by done. rewrite list_lookup_insert_ne in HC by done. simplify_eq.
      destruct (Hsep k e C a Hjk He HC Hf'). congruence.
    + rewrite list_lookup_insert_ne in Hd by done. rewrite list_lookup_insert_ne in HB by done.
      rewrite list_lookup_insert_eq in He by done. rewrite list_lookup_insert_eq in HC by done. simplify_eq.
      destruct (Hsep j d B a Hij Hd HB Hf). congruence.
    + rewrite list_lookup_insert_ne in Hd by done. rewrite list_lookup_insert_ne in HB by done.
      rewrite list_lookup_insert_ne in He by done. rewrite list_lookup_insert_ne in HC by done.
      by eapply (sr_disjoint _ _ R j k d e B C a).
  - intros j B a en HB Hen. apply list_lookup_insert_Some in HB as [(-> & <- & _)|[_ HB]];
      [|by eapply (sr_home _ _ R)].
    destruct (spec_step_origin _ _ _ _ _ _ _ W HS Hen) as [[n Hn]|(? & ? & ? & ? & ? & -> & _)];
      [|done]. by apply (sr_home _ _ R j A a _ Hi Hn).
Qed.

(** a method as [run_op] calls it *)
Lemma on_shard_map {B} i (m : M cstate B) (f : B -> cres) s r s' :
  on_shard i (b ← m; mret (f b)) s = Ok (r, s') -> exists b, on_shard i m s = Ok (b, s') /\ r = f b.
Proof.
  unfold on_shard, mbind, M_bind. destruct (sc_shards s.2 !! i) as [c|]; [|done].
  destruct (m (s.1, c)) as [[b [m' c']]|]; [|done]. simpl. intros [= <- <-]. by exists b.
Qed.

Section Loop.
Context {B : Type} (op : cop) (m : M cstate B) (f : B -> cres).
Context (F : acache -> acache) (dead : acache -> list addr).
Context (Hop : run_op op = (b ← m; mret (f b))).
Context (Hall : forall A, allowed A op) (Hhome : forall i, at_home i op).
Context (Hspec : forall A r A' V, spec_step A op r A' V -> A' = F A /\ V = dead A).

(** a loop over the shards from [k] on *)
Lemma for_shards_from n k s As :
  srep s As -> (k + n)%nat = length As ->
  exists rs s', for_shards (seq k n) m s = Ok (rs, s') /\
    srep s' (take k As ++ (F <$> drop k As)) /\
    deletions s'.1 = deletions s.1 ++ concat ((fun A => deletions_of A (dead A)) <$> drop k As) /\
    sc_last_id s'.2 = sc_last_id s.2 /\ sc_capacity s'.2 = sc_capacity s.2.
Proof.
  revert k s As. induction n as [|n IH]; intros k s As R Hk.
  - exists [], s. rewrite drop_ge, take_ge by lia. simpl. by rewrite !app_nil_r.
  - assert (k < length As)%nat as Hlt by lia.
    destruct (lookup_lt_is_Some_2 As k Hlt) as [A HA].
    destruct (on_shard_step s As k A op R HA (Hall A) (Hhome k))
      as (r & s1 & A' & V & Hr & HS & R1 & D1 & E1 & E2).
    rewrite Hop in Hr. apply on_shard_map in Hr as (b & Hr & _).
    destruct (Hspec _ _ _ _ HS) as [-> ->].
    destruct (IH (S k) s1 (<[k := F A]> As) R1) as (rs & s2 & Hr2 & R2 & D2 & E3 & E4).
    { rewrite length_insert. lia. }
    exists (b :: rs), s2. rewrite (drop_S As A k HA). split_and!; try congruence.
    + simpl. unfold mbind, M_bind. by rewrite Hr, Hr2.
    + rewrite (take_S_r _ _ (F A)) in R2 by (by apply list_lookup_insert_eq).
      rewrite take_insert_ge, drop_insert_lt in R2 by lia.
      by rewrite <-app_assoc in R2.
    + rewrite D2, D1, drop_insert_lt by lia. simpl. by rewrite app_assoc.
Qed.

Lemma for_all_shards s As :
  srep s As ->
  exists rs s', for_shards all_shards m s = Ok (rs, s') /\ srep s' (F <$> As) /\
    deletions s'.1 = deletions s.1 ++ concat ((fun A => deletions_of A (dead A)) <$> As) /\
    sc_last_id s'.2 = sc_last_id s.2 /\ sc_capacity s'.2 = sc_capacity s.2.
Proof. intros R. apply (for_shards_from (Z.to_nat kNumShards) 0 s As R). by rewrite (sr_length _ _ R). Qed.
End Loop.

(** ** The methods *)

Section Methods.
Context (s : sstate) (As : list acache) (R : srep s As).

(** the abstract shard of a hash *)
Lemma shard_of hash : inu 32 hash -> exists A, As !! shard_index hash = Some A.
Proof.
  intros Hh. apply lookup_lt_is_Some. rewrite (sr_length _ _ R). by apply shard_index_lt.
Qed.

Lemma sharded_insert key value charge deleter priority A :
  let hash := ShardedLRUCache_hash_slice key in
  As !! shard_index hash = Some A -> inu 64 charge -> Z.of_nat (size (a_tab A)) < 2 ^ 31 ->
  exists e s', ShardedLRUCache_insert key value charge deleter priority s = Ok (e, s') /\
    a_ents A !! e = None /\
    let r := spec_insert e key hash value charge deleter priority A in
    srep s' (<[shard_index hash := r.1]> As) /\
    deletions s'.1 = deletions s.1 ++ deletions_of A r.2 /\
    sc_last_id s'.2 = sc_last_id s.2 /\ sc_capacity s'.2 = sc_capacity s.2.
Proof.
  intros hash HA Hc Hs.
  destruct (on_shard_step s As _ A (OpInsert key hash value charge deleter priority) R HA)
    as (r & s' & A' & V & Hr & HS & R' & D & E1 & E2).
  { split_and!; [apply hash_slice_range|apply Hc..|done]. }
  { done. }
  apply on_shard_map in Hr as (e & Hr & ->). inversion HS; subst.
  exists e, s'. split_and!; done.
Qed.

Lemma sharded_lookup key A :
  let hash := ShardedLRUCache_hash_slice key in
  As !! shard_index hash = Some A -> handles_small A ->
  exists s', ShardedLRUCache_lookup key s = Ok (a_tab A !! (key, hash), s') /\
    srep s' (<[shard_index hash := (spec_lookup key hash A).2]> As) /\
    deletions s'.1 = deletions s.1 /\
    sc_last_id s'.2 = sc_last_id s.2 /\ sc_capacity s'.2 = sc_capacity s.2.
Proof.
  intros hash HA Hs.
  destruct (on_shard_step s As _ A (OpLookup key hash) R HA)
    as (r & s' & A' & V & Hr & HS & R' & D & E1 & E2).
  { split; [apply hash_slice_range|done]. }
  { done. }
  apply on_shard_map in Hr as (e & Hr & ->). inversion HS; subst.
  rewrite spec_lookup_result in Hr. simpl in D. rewrite app_nil_r in D. by exists s'.
Qed.

Lemma sharded_erase key A :
  let hash := ShardedLRUCache_hash_slice key in
  As !! shard_index hash = Some A ->
  exists s', ShardedLRUCache_erase key s = Ok (tt, s') /\
    srep s' (<[shard_index hash := (spec_erase key hash A).1]> As) /\
    deletions s'.1 = deletions s.1 ++ deletions_of A (spec_erase key hash A).2 /\
    sc_last_id s'.2 = sc_last_id s.2 /\ sc_capacity s'.2 = sc_capacity s.2.
Proof.
  intros hash HA.
  destruct (on_shard_step s As _ A (OpErase key hash) R HA)
    as (r & s' & A' & V & Hr & HS & R' & D & E1 & E2).
  { apply hash_slice_range. }
  { done. }
  apply on_shard_map in Hr as ([] & Hr & ->). inversion HS; subst. by exists s'.
Qed.

(** the hash in the handle leads to the shard that owns it *)
Lemma sharded_release i A a en :
  As !! i = Some A -> a_ents A !! a = Some en -> 0 < x_handles en ->
  exists s', ShardedLRUCache_release (Some a) s = Ok (tt, s') /\
    srep s' (<[i := (spec_release a A).1]> As) /\
    deletions s'.1 = deletions s.1 ++ deletions_of A (spec_release a A).2 /\
    sc_last_id s'.2 = sc_last_id s.2 /\ sc_capacity s'.2 = sc_capacity s.2.
Proof.
  intros HA Ha Hp. destruct (shard_lookup s As i A R HA) as [c Hc].
  destruct (cache_rep_handle _ _ _ _ (sr_rep _ _ R i c A Hc HA) Ha) as (h & Hh & _ & Hkh & _).
  assert (h_hash h = x_hash en) as Ehash by exact (f_equal snd Hkh).
  destruct (on_shard_step s As i A (OpRelease (Some a)) R HA)
    as (r & s' & A' & V & Hr & HS & R' & D & E1 & E2).
  { by exists en. }
  { done. }
  apply on_shard_map in Hr as ([] & Hr & ->). inversion HS; subst. exists s'.
  split_and!; try done. unfold ShardedLRUCache_release, mbind, M_bind, on_mem, load.
  simpl in Hh. rewrite Hh. rewrite Ehash, (sr_home _ _ R i A a en HA Ha).
  by destruct s.
Qed.

Lemma sharded_prune :
  exists s', ShardedLRUCache_prune s = Ok (tt, s') /\ srep s' ((fun A => (spec_prune A).1) <$> As) /\
    deletions s'.1 = deletions s.1 ++ concat ((fun A => deletions_of A (a_lru A)) <$> As) /\
    sc_last_id s'.2 = sc_last_id s.2 /\ sc_capacity s'.2 = sc_capacity s.2.
Proof.
  destruct (for_all_shards OpPrune LRUCache_prune RCount (fun A => (spec_prune A).1) a_lru)
    with (s := s) (As := As) as (rs & s' & Hr & HR); try done.
  { intros A r A' V HS. by inversion HS. }
  exists s'. split; [|done]. unfold ShardedLRUCache_prune, mbind, M_bind. by rewrite Hr.
Qed.

Lemma per_shard_range n : inu 64 (per_shard n).
Proof.
  unfold per_shard. change kNumShards with 32.
  pose proof (wrapu_range 64 ltac:(lia) (n + (32 - 1))) as [H0 H1]. split.
  - apply Z.div_pos; lia.
  - apply Z.div_lt_upper_bound; lia.
Qed.

Lemma sharded_set_capacity n :
  exists s', ShardedLRUCache_set_capacity n s = Ok (tt, s') /\
    srep s' ((fun A => (spec_set_capacity (per_shard n) A).1) <$> As) /\
    deletions s'.1 = deletions s.1 ++
      concat ((fun A => deletions_of A (spec_set_capacity (per_shard n) A).2) <$> As) /\
    sc_capacity s'.2 = n.
Proof.
  destruct (for_all_shards (OpSetCapacity (per_shard n)) (LRUCache_set_capacity (per_shard n))
    (fun _ => RUnit) (fun A => (spec_set_capacity (per_shard n) A).1)
    (fun A => (spec_set_capacity (per_shard n) A).2))
    with (s := s) (As := As) as (rs & s' & Hr & R' & D & _); try done.
  { intros A. apply per_shard_range. }
  { intros A r A' V HS. by inversion HS. }
  exists (s'.1, mkSharded (sc_shards s'.2) (sc_last_id s'.2) n).
  split; [unfold ShardedLRUCache_set_capacity, mbind, M_bind; by rewrite Hr|].
  split_and!; [|done|done]. by split; apply R'.
Qed.
End Methods.

(** ** Construction *)

Lemma empty_footprint self a : footprint self empty_cache a -> a = self.
Proof. intros [->|[en Ha]]; [done|]. simpl in Ha. by rewrite lookup_empty in Ha. Qed.

Lemma new_shards_rep selves m :
  NoDup selves -> (forall a, a ∈ selves -> handles m !! a = None) ->
  exists cs m', new_shards selves m = Ok (cs, m') /\ c_lru <$> cs = selves /\
    Forall (fun c => cache_rep (m', c) empty_cache) cs /\
    mem_step (fun a => a ∈ selves) [] m m'.
Proof.
  revert m. induction selves as [|self selves IH]; intros m Hnd Hf.
  { exists [], m. split_and!; [done|done|constructor|apply mem_step_refl]. }
  apply NoDup_cons in Hnd as [Hs Hnd].
  destruct (wp_elim _ _ _ (new_cache_rep self m (Hf self ltac:(by left))))
    as (c & m1 & Hc & El & R & S1).
  destruct (IH m1 Hnd) as (cs & m2 & Hcs & Els & Rs & S2).
  { intros a Ha. destruct S1 as (_ & _ & F). rewrite F by (by intros ->). apply Hf. by right. }
  exists (c :: cs), m2. split_and!.
  - simpl. unfold mbind, M_bind. by rewrite Hc, Hcs.
  - by rewrite fmap_cons, El, Els.
  - constructor; [|done]. eapply cache_rep_frame; [exact R|].
    intros a ->%empty_footprint. destruct S2 as (_ & _ & F). apply F. by rewrite El.
  - eapply mem_step_trans_nil; eapply mem_step_mono; [|exact S1| |exact S2]; simpl; intros a Ha.
    + rewrite Ha. by left.
    + by right.
Qed.

Lemma sharded_new selves capacity m :
  NoDup selves -> length selves = Z.to_nat kNumShards ->
  (forall a, a ∈ selves -> handles m !! a = None) ->
  exists sc m', ShardedLRUCache_new selves capacity m = Ok (sc, m') /\
    srep (m', sc) (replicate (Z.to_nat kNumShards) (with_capacity (per_shard capacity) empty_cache)) /\
    deletions m' = deletions m /\ sc_capacity sc = capacity.
Proof.
  intros Hnd Hl Hf. destruct (new_shards_rep selves m Hnd Hf) as (cs & m1 & Hcs & Els & Rs & S1).
  assert (length cs = Z.to_nat kNumShards) as Hlcs by (by rewrite <-Hl, <-Els, length_fmap).
  set (As := replicate (Z.to_nat kNumShards) empty_cache).
  assert (forall i A, As !! i = Some A -> A = empty_cache) as HAs.
  { intros i A HA. by apply lookup_replicate_1 in HA as [-> _]. }
  assert (srep (m1, mkSharded cs 0 capacity) As) as R.
  { split; simpl.
    - done.
    - done.
    - intros i A ->%HAs. apply empty_wf.
    - intros i c A Hc ->%HAs. by eapply Forall_lookup_1 in Rs.
    - intros i j c d A B a Hij Hc ->%HAs Hd ->%HAs ->%empty_footprint E%empty_footprint.
      apply Hij. eapply (NoDup_lookup selves i j (c_lru c)); [done| |].
      + rewrite <-Els, list_lookup_fmap, Hc. done.
      + rewrite <-Els, list_lookup_fmap, Hd. simpl. by rewrite E.
    - intros i A a en ->%HAs Ha. simpl in Ha. by rewrite lookup_empty in Ha. }
  destruct (for_all_shards (OpSetCapacity (per_shard capacity)) (LRUCache_set_capacity (per_shard capacity))
      (fun _ => RUnit) (fun A => (spec_set_capacity (per_shard capacity) A).1)
      (fun A => (spec_set_capacity (per_shard capacity) A).2))
      with (s := (m1, mkSharded cs 0 capacity)) (As := As) as (rs & [m2 sc] & Hr & R' & D & _ & Ec); try done.
  { intros A. apply per_shard_range. }
  { intros A r A' V HS. by inversion HS. }
  exists sc, m2. unfold ShardedLRUCache_new. rewrite Hcs, Hr. split_and!; [done| | |done].
  - unfold As in R'. by rewrite fmap_replicate in R'.
  - cbn [fst] in D. rewrite D. destruct S1 as (_ & -> & _). unfold As.
    rewrite fmap_replicate, app_nil_r. apply app_nil_r.
Qed.

(** ** Usage *)

Lemma for_shards_usage n k s As :
  srep s As -> (k + n)%nat = length As ->
  for_shards (seq k n) LRUCache_get_usage s = Ok (a_usage <$> drop k As, s).
Proof.
  intros R. revert k. induction n as [|n IH]; intros k Hk.
  - by rewrite drop_ge by lia.
  - destruct (lookup_lt_is_Some_2 As k ltac:(lia)) as [A HA].
    destruct (shard_lookup s As k A R HA) as [c Hc].
    simpl. unfold mbind, M_bind. rewrite (drop_S As A k HA).
    assert (on_shard k LRUCache_get_usage s = Ok (a_usage A, s)) as ->.
    { unfold on_shard. rewrite Hc. unfold LRUCache_get_usage, gets. simpl.
      pose proof (mr_usage _ _ _ _ (sr_rep _ _ R k c A Hc HA)) as Hu. simpl in Hu. rewrite Hu.
      unfold set_shard. rewrite list_insert_id by done. by destruct s as [m []]. }
    rewrite IH by lia. done.
Qed.

Definition sum_charges (As : list acache) : Z := foldr (fun A n => total_charge (a_ents A) + n) 0 As.

Lemma usage_sum As acc :
  foldl (fun total u => u64 (total + u)) (u64 acc) (a_usage <$> As) = u64 (acc + sum_charges As).
Proof.
  revert acc. induction As as [|A As IH]; intros acc; simpl; [by rewrite Z.add_0_r|].
  change (a_usage A) with (u64 (total_charge (a_ents A))).
  rewrite wrapu_add_l, wrapu_add_r by lia. rewrite IH. f_equal. lia.
Qed.

Lemma sharded_usage s As :
  srep s As -> ShardedLRUCache_get_memory_usage s = Ok (u64 (sum_charges As), s).
Proof.
  intros R. unfold ShardedLRUCache_get_memory_usage, mbind, M_bind, all_shards.
  rewrite (for_shards_usage _ 0 s As R) by (by rewrite (sr_length _ _ R)).
  rewrite drop_0. unfold mret, M_ret. do 2 f_equal. apply (usage_sum As 0).
Qed.

(** what a handle gives access to *)
Lemma sharded_value s As i A a en :
  srep s As -> As !! i = Some A -> a_ents A !! a = Some en ->
  ShardedLRUCache_value (Some a) s = Ok (x_value en, s) /\
  ShardedLRUCache_value_slice (Some a) s = Ok ((x_value en, x_charge en), s).
Proof.
  intros R HA Ha. destruct (shard_lookup s As i A R HA) as [c Hc].
  destruct (cache_rep_handle _ _ _ _ (sr_rep _ _ R i c A Hc HA) Ha) as (h & Hh & Hv & _ & Hch).
  unfold ShardedLRUCache_value, ShardedLRUCache_value_slice, mbind, M_bind, on_mem, load.
  simpl in Hh. rewrite Hh, <-Hv, <-Hch. by destruct s.
Qed.

(** ** The values in all shards *)

Definition slive (As : list acache) : list deletion := concat (live <$> As).

Lemma slive_update As i A A' ins d :
  As !! i = Some A -> ins ++ live A ≡ₚ d ++ live A' -> ins ++ slive As ≡ₚ d ++ slive (<[i := A']> As).
Proof.
  intros HA HP. unfold slive. rewrite list_fmap_insert.
  assert ((live <$> As) !! i = Some (live A)) as Hi by (by rewrite list_lookup_fmap, HA).
  rewrite (concat_lookup_perm _ i _ Hi), (concat_insert_perm _ i _ (live A') Hi).
  by rewrite !app_assoc, HP.
Qed.

Lemma slive_map As (F : acache -> acache) (d : acache -> list deletion) :
  (forall i A, As !! i = Some A -> live A ≡ₚ d A ++ live (F A)) ->
  slive As ≡ₚ concat (d <$> As) ++ slive (F <$> As).
Proof.
  unfold slive. induction As as [|A As IH]; intros HP; [done|]. rewrite !fmap_cons. simpl.
  rewrite (HP 0%nat A eq_refl), IH by (intros i B HB; by apply (HP (S i))).
  rewrite <-!app_assoc. apply Permutation_app_head.
  rewrite !app_assoc. apply Permutation_app_tail, Permutation_app_comm.
Qed.
