(* ===== verification/ShardedTheorems.v ===== *)
(** * What a client of the sharded cache can rely on

    Histories of [ShardedLRUCache] by any number of clients, and the theorems
    about them. *)

From S2P Require Import Prelude CacheKey HandleTable HandleTableRep LRUCache LRUList LRUSpec.
From S2P Require Import LRURefine LRUHistory Sharded.

Inductive shop :=
| ShInsert (key : CacheKey) (value charge deleter : Z) (priority : CachePriority)
| ShLookup (key : CacheKey)
| ShRelease (handle : addr)
| ShErase (key : CacheKey)
| ShPrune
| ShSetCapacity (capacity : Z).

Definition srun (op : shop) : M sstate cres :=
  match op with
  | ShInsert key value charge deleter priority =>
      e ← ShardedLRUCache_insert key value charge deleter priority; mret (RHandle (Some e))
  | ShLookup key => a ← ShardedLRUCache_lookup key; mret (RHandle a)
  | ShRelease a => _ ← ShardedLRUCache_release (Some a); mret RUnit
  | ShErase key => _ ← ShardedLRUCache_erase key; mret RUnit
  | ShPrune => _ ← ShardedLRUCache_prune; mret RUnit
  | ShSetCapacity n => _ ← ShardedLRUCache_set_capacity n; mret RUnit
  end.

(** the shard an operation on [key] goes to *)
Definition home (key : CacheKey) : nat := shard_index (ShardedLRUCache_hash_slice key).

Definition sallowed (As : list acache) (op : shop) : Prop :=
  match op with
  | ShInsert key _ charge _ _ =>
      inu 64 charge /\ forall A, As !! home key = Some A -> Z.of_nat (size (a_tab A)) < 2 ^ 31
  | ShLookup key => forall A, As !! home key = Some A -> handles_small A
  | ShRelease a => exists i A en, As !! i = Some A /\ a_ents A !! a = Some en /\ 0 < x_handles en
  | _ => True
  end.

(** the abstract machine: every shard is an abstract cache *)
Inductive sspec (As : list acache) : shop -> cres -> list acache -> list deletion -> Prop :=
| sspec_insert e key value charge deleter priority A :
    As !! home key = Some A -> a_ents A !! e = None ->
    let r := spec_insert e key (ShardedLRUCache_hash_slice key) value charge deleter priority A in
    sspec As (ShInsert key value charge deleter priority) (RHandle (Some e))
      (<[home key := r.1]> As) (deletions_of A r.2)
| sspec_lookup key A :
    As !! home key = Some A ->
    sspec As (ShLookup key) (RHandle (a_tab A !! (key, ShardedLRUCache_hash_slice key)))
      (<[home key := (spec_lookup key (ShardedLRUCache_hash_slice key) A).2]> As) []
| sspec_release i A a :
    As !! i = Some A -> is_Some (a_ents A !! a) ->
    sspec As (ShRelease a) RUnit (<[i := (spec_release a A).1]> As)
      (deletions_of A (spec_release a A).2)
| sspec_erase key A :
    As !! home key = Some A ->
    sspec As (ShErase key) RUnit
      (<[home key := (spec_erase key (ShardedLRUCache_hash_slice key) A).1]> As)
      (deletions_of A (spec_erase key (ShardedLRUCache_hash_slice key) A).2)
| sspec_prune :
    sspec As ShPrune RUnit ((fun A => (spec_prune A).1) <$> As)
      (concat ((fun A => deletions_of A (a_lru A)) <$> As))
| sspec_set_capacity n :
    sspec As (ShSetCapacity n) RUnit ((fun A => (spec_set_capacity (per_shard n) A).1) <$> As)
      (concat ((fun A => deletions_of A (spec_set_capacity (per_shard n) A).2) <$> As)).

Definition sstep_ok (s : sstate) (As : list acache) (op : shop) : Prop :=
  exists r s' As' d, srun op s = Ok (r, s') /\ sspec As op r As' d /\ srep s' As' /\
    deletions s'.1 = deletions s.1 ++ d.

Lemma sharded_step s As op : srep s As -> sallowed As op -> sstep_ok s As op.
Proof.
  intros R Ha. unfold sstep_ok.
  assert (forall key, exists A, As !! home key = Some A) as Hhome.
  { intros key. apply (shard_of s As R), hash_slice_range. }
  destruct op as [key value charge deleter priority|key|a|key| |n]; unfold sallowed in Ha.
  - destruct Ha as [Hc Hs]. destruct (Hhome key) as [A HA].
    destruct (sharded_insert s As R key value charge deleter priority A HA Hc (Hs A HA))
      as (e & s' & Hr & He & R' & D & _).
    eexists _, s', _, _. split_and!; [|by apply (sspec_insert As e)|exact R'|exact D].
    unfold srun, mbind, M_bind. by rewrite Hr.
  - destruct (Hhome key) as [A HA].
    destruct (sharded_lookup s As R key A HA (Ha A HA)) as (s' & Hr & R' & D & _).
    eexists _, s', _, _. split_and!; [|by apply sspec_lookup|exact R'|by rewrite app_nil_r].
    unfold srun, mbind, M_bind. by rewrite Hr.
  - destruct Ha as (i & A & en & HA & Hen & Hp).
    destruct (sharded_release s As R i A a en HA Hen Hp) as (s' & Hr & R' & D & _).
    eexists _, s', _, _. split_and!; [|by apply (sspec_release As i A)|exact R'|exact D].
    unfold srun, mbind, M_bind. by rewrite Hr.
  - destruct (Hhome key) as [A HA].
    destruct (sharded_erase s As R key A HA) as (s' & Hr & R' & D & _).
    eexists _, s', _, _. split_and!; [|by apply sspec_erase|exact R'|exact D].
    unfold srun, mbind, M_bind. by rewrite Hr.
  - destruct (sharded_prune s As R) as (s' & Hr & R' & D & _).
    eexists _, s', _, _. split_and!; [|apply sspec_prune|exact R'|exact D].
    unfold srun, mbind, M_bind. by rewrite Hr.
  - destruct (sharded_set_capacity s As R n) as (s' & Hr & R' & D & _).
    eexists _, s', _, _. split_and!; [|apply sspec_set_capacity|exact R'|exact D].
    unfold srun, mbind, M_bind. by rewrite Hr.
Qed.

(** a release names one handle; it is in one shard only *)
Lemma sspec_det s As op r As1 d1 As2 d2 :
  srep s As -> sspec As op r As1 d1 -> sspec As op r As2 d2 -> As1 = As2 /\ d1 = d2.
Proof.
  intros R H1 H2. destruct H1 as [e key value charge deleter priority A HA He|key A HA|i A a HA Ha|
    key A HA| |n]; inversion H2; subst; simplify_eq; try done.
  assert (i = i0) as <-; [|by simplify_eq].
  destruct (decide (i = i0)) as [|Hne]; [done|]. exfalso.
  match goal with HB : As !! i0 = Some ?B, Hb : is_Some (a_ents ?B !! a) |- _ =>
    destruct (shard_lookup s As i A R HA) as [c Hc], (shard_lookup s As i0 B R HB) as [c' Hc'];
    eapply (sr_disjoint _ _ R i i0 c c' A B a); (done || by right)
  end.
Qed.

(** ** Histories *)

Inductive shistory (selves : list addr) (m0 : mem) : sstate -> list acache -> Prop :=
| shistory_new capacity sc m :
    ShardedLRUCache_new selves capacity m0 = Ok (sc, m) ->
    shistory selves m0 (m, sc)
      (replicate (Z.to_nat kNumShards) (with_capacity (per_shard capacity) empty_cache))
| shistory_step s As op r s' As' d :
    shistory selves m0 s As -> sallowed As op -> srun op s = Ok (r, s') -> sspec As op r As' d ->
    shistory selves m0 s' As'.

(** where the sentinels may live *)
Definition good_selves (selves : list addr) (m0 : mem) : Prop :=
  NoDup selves /\ length selves = Z.to_nat kNumShards /\
  forall a, a ∈ selves -> handles m0 !! a = None.

Lemma shistory_rep selves m0 s As : good_selves selves m0 -> shistory selves m0 s As -> srep s As.
Proof.
  intros (Hnd & Hl & Hf). induction 1 as [capacity sc m Hn|s As op r s' As' d Hh IH Ha Hr HS].
  - destruct (sharded_new selves capacity m0 Hnd Hl Hf) as (sc' & m' & Hn' & R & _).
    rewrite Hn in Hn'. by injection Hn' as <- <-.
  - destruct (sharded_step s As op IH Ha) as (r' & s'' & As'' & d' & Hr' & HS' & R' & _).
    rewrite Hr in Hr'. injection Hr' as <- <-.
    by destruct (sspec_det _ _ _ _ _ _ _ _ IH HS HS') as [<- <-].
Qed.

(** an insertion, then a lookup of the key *)
Lemma sharded_insert_then_lookup s As key value charge deleter priority :
  srep s As -> sallowed As (ShInsert key value charge deleter priority) ->
  sallowed As (ShLookup key) ->
  exists e s1 s2, ShardedLRUCache_insert key value charge deleter priority s = Ok (e, s1) /\
    ShardedLRUCache_lookup key s1 = Ok (Some e, s2) /\
    ShardedLRUCache_value (Some e) s2 = Ok (value, s2) /\
    ShardedLRUCache_value_slice (Some e) s2 = Ok ((value, charge), s2).
Proof.
  intros R [Hc Hs] Hl.
  destruct (shard_of s As R (ShardedLRUCache_hash_slice key) (hash_slice_range key)) as [A HA].
  destruct (sharded_insert s As R key value charge deleter priority A HA Hc (Hs A HA))
    as (e & s1 & Hi & He & R1 & _).
  set (h := ShardedLRUCache_hash_slice key) in *.
  set (A1 := (spec_insert e key h value charge deleter priority A).1) in *.
  assert (<[shard_index h := A1]> As !! shard_index h = Some A1) as HA1.
  { apply list_lookup_insert_eq. by eapply lookup_lt_Some. }
  destruct (sharded_lookup s1 _ R1 key A1 HA1) as (s2 & Hr & R2 & _).
  { apply handles_small_insert, Hl, HA. }
  assert (a_tab A1 !! (key, h) = Some e) as Ht by apply lookup_insert_eq.
  fold h in Hr, R2. rewrite Ht in Hr. exists e, s1, s2. split; [done|]. split; [done|].
  eapply (sharded_value s2 _ (shard_index h) _ e (mkX value deleter charge key h priority 2)); [exact R2| |].
  - apply list_lookup_insert_eq. rewrite length_insert. by eapply lookup_lt_Some.
  - unfold spec_lookup. rewrite Ht. simpl. by rewrite lookup_alter_eq, lookup_insert_eq.
Qed.

(** ** A run for the examples *)

Definition selves32 : list addr := Pos.of_succ_nat <$> seq 0 32.
Definition heap0 : mem := mkMem ∅ ∅ [].

Definition sst0 : sstate :=
  match ShardedLRUCache_new selves32 1000 heap0 with
  | Ok (sc, m) => (m, sc)
  | Err _ => (heap0, mkSharded [] 0 0)
  end.
Definition sas0 : list acache :=
  replicate (Z.to_nat kNumShards) (with_capacity (per_shard 1000) empty_cache).

Lemma good_selves32 : good_selves selves32 heap0.
Proof.
  split_and!; [|done|done]. apply (bool_decide_unpack _). vm_compute. exact I.
Qed.

Lemma sst0_new : ShardedLRUCache_new selves32 1000 heap0 = Ok (sst0.2, sst0.1).
Proof. vm_compute. reflexivity. Qed.

Lemma shistory0 : shistory selves32 heap0 sst0 sas0.
Proof.
  pose proof (shistory_new _ _ _ _ _ sst0_new) as Hh. by rewrite <-surjective_pairing in Hh.
Qed.

Lemma sas0_empty i A : sas0 !! i = Some A -> A = with_capacity (per_shard 1000) empty_cache.
Proof. by intros [-> _]%lookup_replicate_1. Qed.

Lemma sallowed_insert0 key value charge deleter priority :
  inu 64 charge -> sallowed sas0 (ShInsert key value charge deleter priority).
Proof. intros Hc. split; [done|]. by intros A ->%sas0_empty. Qed.

Lemma sallowed_lookup0 key : sallowed sas0 (ShLookup key).
Proof. intros A ->%sas0_empty a en Ha. simpl in Ha. by rewrite lookup_empty in Ha. Qed.

(** C2: whatever the clients of a sharded cache do that its interface allows,
    from the construction on, the next call completes without a failure, with
    the result and the deleter calls of the abstract caches, and acts on the
    shard of its key only. *)
Theorem sharded_history_safe selves m0 s As op :
  good_selves selves m0 -> shistory selves m0 s As -> sallowed As op -> sstep_ok s As op.
Proof. intros Hg Hh Ha. apply sharded_step; [by eapply shistory_rep|done]. Qed.

Lemma sharded_history_safe_witness : sstep_ok sst0 sas0 (ShInsert [97] 5 10 1 NORMAL).
Proof.
  apply (sharded_history_safe selves32 heap0 sst0 sas0).
  - exact good_selves32.
  - exact shistory0.
  - apply sallowed_insert0. unfold inu. lia.
Defined.

(** An insertion followed by a lookup of the same key finds the inserted
    entry; [value] and [value_slice] return the value and the charge that were
    inserted. The hash and the shard are computed from the key both times. *)
Theorem sharded_insert_lookup selves m0 s As key value charge deleter priority :
  good_selves selves m0 -> shistory selves m0 s As ->
  sallowed As (ShInsert key value charge deleter priority) -> sallowed As (ShLookup key) ->
  exists e s1 s2, ShardedLRUCache_insert key value charge deleter priority s = Ok (e, s1) /\
    ShardedLRUCache_lookup key s1 = Ok (Some e, s2) /\
    ShardedLRUCache_value (Some e) s2 = Ok (value, s2) /\
    ShardedLRUCache_value_slice (Some e) s2 = Ok ((value, charge), s2).
Proof.
  intros Hg Hh Hi Hl. eapply sharded_insert_then_lookup; [by eapply shistory_rep|done|done].
Qed.

Lemma sharded_insert_lookup_witness :
  exists e s1 s2, ShardedLRUCache_insert [97; 98] 5 10 1 NORMAL sst0 = Ok (e, s1) /\
    ShardedLRUCache_lookup [97; 98] s1 = Ok (Some e, s2) /\
    ShardedLRUCache_value (Some e) s2 = Ok (5, s2) /\
    ShardedLRUCache_value_slice (Some e) s2 = Ok ((5, 10), s2).
Proof.
  apply (sharded_insert_lookup selves32 heap0 sst0 sas0).
  - exact good_selves32.
  - exact shistory0.
  - apply sallowed_insert0. unfold inu. lia.
  - apply sallowed_lookup0.
Defined.

(** The capacity is divided over the 32 shards rounding up: together they
    hold at least the requested capacity and less than 32 bytes more, for
    every capacity up to [SIZE_MAX - 31]; above that the rounding overflows
    and every shard gets capacity 0. *)
Theorem sharded_per_shard_capacity capacity :
  inu 64 capacity ->
  (capacity <= 2 ^ 64 - 32 ->
     capacity <= kNumShards * per_shard capacity < capacity + kNumShards) /\
  (2 ^ 64 - 32 < capacity -> per_shard capacity = 0).
Proof.
  intros [H0 H1]. unfold per_shard. change kNumShards with 32. split; intros Hc.
  - rewrite wrapu_id by (unfold inu; lia).
    pose proof (Z.div_mod (capacity + (32 - 1)) 32 ltac:(lia)).
    pose proof (Z.mod_pos_bound (capacity + (32 - 1)) 32 ltac:(lia)). lia.
  - unfold wrapu. replace (capacity + (32 - 1)) with (capacity - 2 ^ 64 + 31 + 1 * 2 ^ 64) by lia.
    rewrite Z.mod_add by lia. rewrite Z.mod_small by lia. apply Z.div_small. lia.
Qed.

Lemma sharded_per_shard_capacity_witness :
  (1000 <= 2 ^ 64 - 32 -> 1000 <= kNumShards * per_shard 1000 < 1000 + kNumShards) /\
  (2 ^ 64 - 32 < 1000 -> per_shard 1000 = 0).
Proof. apply (sharded_per_shard_capacity 1000). unfold inu. lia. Defined.

(** [get_memory_usage] is the sum of the charges of all entries of all
    shards (in [size_t] arithmetic) and changes nothing. *)
Theorem sharded_memory_usage selves m0 s As :
  good_selves selves m0 -> shistory selves m0 s As ->
  ShardedLRUCache_get_memory_usage s = Ok (u64 (sum_charges As), s).
Proof. intros Hg Hh. apply sharded_usage. by eapply shistory_rep. Qed.

Lemma sharded_memory_usage_witness : ShardedLRUCache_get_memory_usage sst0 = Ok (0, sst0).
Proof.
  apply (sharded_memory_usage selves32 heap0 sst0 sas0).
  - exact good_selves32.
  - exact shistory0.
Defined.
