(* ===== verification/CacheManager.v ===== *)
(** * The query cache: [CacheManager]
      (src/src/modules/lru_cache/cache_manager.hh and cache_manager.cc)

    The client of the sharded cache. [populate] copies a value to the heap,
    inserts a pointer to the copy and releases the handle when it returns;
    [probe] copies the value out. The heap objects of type [CacheValue] are the
    map [cm_objs]; the deleter that the cache calls removes one. *)

From S2P Require Import Prelude CacheKey HandleTable HandleTableRep LRUCache LRUList LRUSpec.
From S2P Require Import LRURefine LRUHistory Sharded.

(** ** Values *)

Record Column := mkColumn { col_data : list Z }.
Definition Column_reserve (n : nat) (c : Column) : Column := c.
(** [std::vector::resize]: cut off, or pad with zero bytes *)
Definition Column_resize (n : nat) (c : Column) : Column :=
  mkColumn (take n (col_data c) ++ replicate (n - length (col_data c)) 0).
Definition Column_size (c : Column) : Z := Z.of_nat (length (col_data c)).

(** shared pointers are addresses of columns and chunks *)
Record Chunk := mkChunk { chunk_columns : list Z }.
Definition Chunk_append_column (p : Z) (c : Chunk) : Chunk := mkChunk (chunk_columns c ++ [p]).

Record store := mkStore { st_columns : gmap Z Column; st_chunks : gmap Z Chunk }.

Record CacheValue := mkValue {
  latest_hit_time : Z;
  hit_count : Z;
  populate_time : Z;
  version : Z;
  result : list Z
}.

(** a loop that adds up what [f] gives for each pointer, in [size_t] *)
Fixpoint sum_sizes (f : Z -> res Z) (l : list Z) (n : Z) : res Z :=
  match l with
  | [] => Ok n
  | p :: l => k ← f p; sum_sizes f l (u64 (n + k))
  end.

Definition Chunk_bytes_usage (st : store) (c : Chunk) : res Z :=
  sum_sizes (fun p => c ← of_option EDangling (st_columns st !! p); Ok (Column_size c))
    (chunk_columns c) 0.

Definition CacheValue_size (st : store) (v : CacheValue) : res Z :=
  sum_sizes (fun p => c ← of_option EDangling (st_chunks st !! p); Chunk_bytes_usage st c)
    (result v) 0.

(** ** The manager *)

Record CacheManager := mkManager {
  cm_cache : ShardedLRUCache;
  cm_objs : gmap Z CacheValue
}.

Definition mstate := (mem * CacheManager)%type.

(** the address of the function [delete_cache_entry] *)
Definition delete_cache_entry_id : Z := 1.

(** [delete_cache_entry]: frees the object the value points to *)
Definition delete_cache_entry (value : Z) (objs : gmap Z CacheValue) : res (gmap Z CacheValue) :=
  match objs !! value with
  | None => Err EDangling
  | Some _ => Ok (delete value objs)
  end.

Fixpoint run_deleters (ds : list deletion) (objs : gmap Z CacheValue) : res (gmap Z CacheValue) :=
  match ds with
  | [] => Ok objs
  | d :: ds =>
      objs ← (if d_deleter d =? delete_cache_entry_id then delete_cache_entry (d_value d) objs
              else Ok objs);
      run_deleters ds objs
  end.

(** a call of the cache, with the deleters that it calls *)
Definition on_cm {A} (op : M sstate A) : M mstate A := fun s =>
  match op (s.1, cm_cache s.2) with
  | Err e => Err e
  | Ok (a, (m', sc')) =>
      match run_deleters (drop (length (deletions s.1)) (deletions m')) (cm_objs s.2) with
      | Err e => Err e
      | Ok objs => Ok (a, (m', mkManager sc' objs))
      end
  end.

Inductive Status := OkStatus | InternalError.

Inductive StatusOr (A : Type) := SOk (a : A) | SNotFound.
Arguments SOk {A} a.
Arguments SNotFound {A}.

Definition CacheManager_new (selves : list addr) (capacity : Z) : M mem CacheManager := fun m =>
  match ShardedLRUCache_new selves capacity m with
  | Ok (sc, m') => Ok (mkManager sc ∅, m')
  | Err e => Err e
  end.

(** [new CacheValue(value)] *)
Definition new_value (v : CacheValue) : M mstate Z := fun s =>
  let p := fresh (dom (cm_objs s.2)) in
  Ok (p, (s.1, mkManager (cm_cache s.2) (<[p := v]> (cm_objs s.2)))).

Definition CacheManager_memory_usage : M mstate Z := on_cm ShardedLRUCache_get_memory_usage.
Definition CacheManager_capacity : M mstate Z := on_cm ShardedLRUCache_get_capacity.

(** the deferred release runs when the function returns *)
Definition CacheManager_populate (st : store) (key : CacheKey) (value : CacheValue) : M mstate Status :=
  cache_value ← new_value value;
  size ← lift_res (CacheValue_size st value);
  handle ← on_cm (ShardedLRUCache_insert key cache_value size delete_cache_entry_id NORMAL);
  usage ← CacheManager_memory_usage;
  cap ← CacheManager_capacity;
  _ ← (if cap <? usage then on_cm ShardedLRUCache_prune else mret tt);
  let status := match Some handle with Some _ => OkStatus | None => InternalError end in
  _ ← on_cm (ShardedLRUCache_release (Some handle));
  mret status.

Definition CacheManager_probe (key : CacheKey) : M mstate (StatusOr CacheValue) :=
  handle ← on_cm (ShardedLRUCache_lookup key);
  match handle with
  | None => mret SNotFound
  | Some a =>
      p ← on_cm (ShardedLRUCache_value (Some a));
      s ← get;
      cache_value ← lift_res (of_option EDangling (cm_objs s.2 !! p));
      _ ← on_cm (ShardedLRUCache_release (Some a));
      mret (SOk cache_value)
  end.

(** ** Ownership of the objects *)

(** the objects are exactly the values of [L], each of them once *)
Record owns (objs : gmap Z CacheValue) (L : list deletion) : Prop := {
  ow_nodup : NoDup (d_value <$> L);
  ow_dom : forall p, is_Some (objs !! p) <-> (p ∈ d_value <$> L);
  ow_deleter : Forall (fun d => d_deleter d = delete_cache_entry_id) L
}.

Lemma owns_perm objs L L' : L ≡ₚ L' -> owns objs L -> owns objs L'.
Proof.
  intros HP O. split.
  - rewrite <-HP. apply O.
  - intros p. rewrite <-HP. apply O.
  - rewrite <-HP. apply O.
Qed.

(** the deleters find their objects, and leave the others alone *)
Lemma run_deleters_owns ds objs L :
  owns objs (ds ++ L) ->
  exists objs', run_deleters ds objs = Ok objs' /\ owns objs' L /\
    forall p, p ∈ d_value <$> L -> objs' !! p = objs !! p.
Proof.
  revert objs. induction ds as [|d ds IH]; intros objs O; simpl; [by exists objs|].
  destruct O as [Hnd Hdom Hdel]. simpl in *. apply Forall_cons in Hdel as [Hd Hdel].
  apply NoDup_cons in Hnd as [Hn Hnd]. rewrite Hd, Z.eqb_refl.
  unfold delete_cache_entry. destruct (proj2 (Hdom (d_value d))) as [v ->]; [by left|]. simpl.
  destruct (IH (delete (d_value d) objs)) as (objs' & Hr & O' & Hsame).
  { split; [done| |done]. intros p. rewrite lookup_delete_is_Some, Hdom, elem_of_cons.
    split; [intros [? [?|?]]; [congruence|done]|]. intros Hp. split; [|by right].
    by intros <-. }
  exists objs'. split_and!; [done|done|]. intros p Hp. rewrite Hsame by done.
  apply lookup_delete_ne. intros <-. apply Hn. rewrite fmap_app. apply elem_of_app. by right.
Qed.

(** a call of the cache that keeps the values of [L] and deletes the rest *)
Lemma on_cm_step {A} (op : M sstate A) m cm (a : A) m' sc' d L L' :
  op (m, cm_cache cm) = Ok (a, (m', sc')) -> deletions m' = deletions m ++ d ->
  owns (cm_objs cm) L -> L ≡ₚ d ++ L' ->
  exists objs', on_cm op (m, cm) = Ok (a, (m', mkManager sc' objs')) /\ owns objs' L' /\
    forall p, p ∈ d_value <$> L' -> objs' !! p = cm_objs cm !! p.
Proof.
  intros Hop D O HP. destruct (run_deleters_owns d (cm_objs cm) L') as (objs' & Hr & O' & Hs).
  { by eapply owns_perm. }
  exists objs'. split; [|done]. unfold on_cm. simpl. by rewrite Hop, D, drop_app_length, Hr.
Qed.

(** a call that deletes nothing *)
Lemma on_cm_pure {A} (op : M sstate A) m cm (a : A) :
  op (m, cm_cache cm) = Ok (a, (m, cm_cache cm)) -> on_cm op (m, cm) = Ok (a, (m, cm)).
Proof.
  intros Hop. unfold on_cm. simpl. rewrite Hop, drop_ge by done. simpl. by destruct cm.
Qed.

(** ** The invariant between calls *)

(** nobody holds an entry and everything fits *)
Record quiet (cap : Z) (A : acache) : Prop := {
  q_idle : forall a en, a_ents A !! a = Some en -> x_handles en = 0;
  q_cap : a_capacity A = cap;
  q_fits : total_charge (a_ents A) <= cap
}.

Record cmrep (s : mstate) (As : list acache) : Prop := {
  cr_srep : srep (s.1, cm_cache s.2) As;
  cr_owns : owns (cm_objs s.2) (slive As);
  cr_quiet : forall i A, As !! i = Some A -> quiet (per_shard (sc_capacity (cm_cache s.2))) A
}.

(** making room for [sz] among idle entries always works when [sz] fits at all *)
Lemma quiet_evict cap A sz :
  wf A -> quiet cap A -> 0 <= sz -> cap + sz < 2 ^ 64 -> 
  let A1 := (spec_evict sz A).1 in
  (sz <= cap -> total_charge (a_ents A1) + sz <= cap) /\ (cap < sz -> a_ents A1 = ∅).
Proof.
  intros W Q Hsz Hov A1. pose proof (wf_evict sz A W) as W1. fold A1 in W1.
  destruct (evict_list_sub sz (eviction_order A) A) as [HS _]. fold (spec_evict sz A) A1 in HS.
  pose proof (total_charge_sub_wf A _ W HS) as Ht. pose proof (total_charge_wf A1 W1) as H0.
  assert (a_capacity A1 = cap) as Hc by (unfold A1; rewrite evict_capacity; apply Q).
  assert (total_charge (a_ents A) <= cap) as Hf by apply Q.
  assert (over sz A1 = (cap <? total_charge (a_ents A1) + sz)) as Ho.
  { rewrite over_exact, Hc by (done || lia). done. }
  assert (a_lru A1 = [] -> a_ents A1 = ∅) as Hempty.
  { intros Hl. apply map_empty. intros a. destruct (a_ents A1 !! a) as [en|] eqn:He; [|done].
    assert (a ∈ a_lru A1) as Ha.
    { apply (wf_lru _ W1). exists en. split; [done|]. eapply (q_idle _ _ Q), lookup_weaken; done. }
    rewrite Hl in Ha. by apply elem_of_nil in Ha. }
  destruct (evict_enough sz A W) as [He|Hl]; fold A1 in He || fold A1 in Hl.
  - rewrite Ho in He. split; lia.
  - split; [|auto]. rewrite Hempty by done. unfold total_charge. rewrite map_fold_empty. lia.
Qed.

(** ** Preparation for [populate] *)

(** the shard while [populate] holds the only handle, to the entry [e] *)
Record holding (cap : Z) (e : addr) (new : aentry) (A : acache) : Prop := {
  ho_entry : a_ents A !! e = Some new;
  ho_one : x_handles new = 1;
  ho_tab : a_tab A !! xkh new = Some e;
  ho_idle : forall a en, a_ents A !! a = Some en -> a <> e -> x_handles en = 0;
  ho_cap : a_capacity A = cap
}.

Lemma holding_insert cap e key hash value charge deleter priority A :
  wf A -> quiet cap A -> a_ents A !! e = None ->
  holding cap e (mkX value deleter charge key hash priority 1)
    (spec_insert e key hash value charge deleter priority A).1.
Proof.
  intros W Q He. split; simpl.
  - apply lookup_insert_eq.
  - done.
  - apply lookup_insert_eq.
  - intros a en [[<- _]|[_ Ha]]%lookup_insert_Some Hne; [done|].
    eapply (q_idle _ _ Q), lookup_weaken; [|apply evict_list_sub].
    eapply lookup_weaken; [exact Ha|apply unmap_sub].
  - rewrite unmap_capacity, evict_capacity. apply Q.
Qed.

Lemma drop_all_tab l A kh a :
  wf A -> NoDup l -> (forall b, b ∈ l -> b ∈ a_lru A) -> a ∉ l -> a_tab A !! kh = Some a ->
  a_tab (drop_all l A) !! kh = Some a.
Proof.
  revert A. induction l as [|b l IH]; intros A W Hnd Hl Ha Ht; simpl; [done|].
  apply NoDup_cons in Hnd as [Hb Hnd]. apply not_elem_of_cons in Ha as [Hne Ha].
  assert (b ∈ a_lru A) as Hbl by (apply Hl; by left).
  apply IH; [by apply wf_drop_lru|done| |done|].
  - intros x Hx. apply drop_lru_ne; [by intros ->|]. apply Hl. by right.
  - pose proof Hbl as (en & He & Hz)%(wf_lru _ W). unfold drop_entry. rewrite He. simpl.
    rewrite lookup_delete_ne; [done|]. intros E.
    pose proof (wf_cached _ W b en He Hz) as Hc. congruence.
Qed.

Lemma holding_prune cap e new A :
  wf A -> holding cap e new A -> holding cap e new (spec_prune A).1.
Proof.
  intros W Ho. assert (e ∉ a_lru A) as Hout.
  { eapply held_not_lru; [done|apply Ho|]. by rewrite (ho_one _ _ _ _ Ho). }
  split.
  - apply prune_ents; [done|]. split; [apply Ho|]. by rewrite (ho_one _ _ _ _ Ho).
  - apply Ho.
  - apply drop_all_tab; [done|apply W|done|done|apply Ho].
  - intros a en Ha. eapply (ho_idle _ _ _ _ Ho), lookup_weaken; [exact Ha|apply (prune_sub A)].
  - simpl. rewrite drop_all_capacity. apply Ho.
Qed.

(** giving the handle back: the entry stays if everything fits *)
Lemma holding_release cap e new A :
  wf A -> holding cap e new A -> total_charge (a_ents A) < 2 ^ 64 ->
  let A' := (spec_release e A).1 in
  (total_charge (a_ents A) <= cap ->
     quiet cap A' /\ a_tab A' = a_tab A /\ a_ents A' !! e = Some (with_handles 0 new)) /\
  (cap < total_charge (a_ents A) -> A' = drop_entry e A).
Proof.
  intros W Ho Hov A'. subst A'. unfold spec_release. rewrite (ho_entry _ _ _ _ Ho), (ho_one _ _ _ _ Ho).
  simpl. unfold cached. rewrite bool_decide_true by apply Ho.
  rewrite usage_exact, (ho_cap _ _ _ _ Ho) by done. split; intros Hc.
  - rewrite (proj2 (Z.ltb_ge _ _) Hc). simpl. split; [|split; [done|apply lookup_insert_eq]].
    split; simpl.
    + intros a en [[<- <-]|[Hne Ha]]%lookup_insert_Some; [done|].
      by eapply (ho_idle _ _ _ _ Ho).
    + done.
    + by rewrite (total_charge_update _ e new) by (done || apply Ho).
  - by rewrite (proj2 (Z.ltb_lt _ _) Hc).
Qed.

Lemma quiet_prune cap A : wf A -> quiet cap A -> quiet cap (spec_prune A).1.
Proof.
  intros W Q. split.
  - intros a en Ha. eapply (q_idle _ _ Q), lookup_weaken; [exact Ha|apply (prune_sub A)].
  - simpl. rewrite drop_all_capacity. apply Q.
  - pose proof (total_charge_sub_wf A _ W (prune_sub A)). pose proof (q_fits _ _ Q). lia.
Qed.

Lemma slive_prune As :
  (forall i A, As !! i = Some A -> wf A) ->
  slive As ≡ₚ concat ((fun A => deletions_of A (a_lru A)) <$> As) ++
              slive ((fun A => (spec_prune A).1) <$> As).
Proof.
  intros HW. apply slive_map. intros i A HA. pose proof (HW i A HA) as W.
  apply live_drop_all; [apply W|]. intros a. by apply lru_is_entry.
Qed.

(** a new object for a value that is about to be inserted *)
Lemma owns_new objs L p v key :
  owns objs L -> objs !! p = None ->
  owns (<[p := v]> objs) (mkDeletion delete_cache_entry_id key p :: L).
Proof.
  intros O Hp. split; simpl.
  - apply NoDup_cons. split; [|apply O]. intros Hin. apply (ow_dom _ _ O) in Hin as [x Hx]. congruence.
  - intros q. rewrite lookup_insert_is_Some', (ow_dom _ _ O), elem_of_cons. naive_solver.
  - constructor; [done|apply O].
Qed.

(** ** [populate], step by step *)

(** what holds between the insertion and the release, for the shard [h] *)
Record mid (s : mstate) (As : list acache) (h : nat) (cap : Z) (e : addr) (new : aentry)
    (v : CacheValue) (A1 : acache) : Prop := {
  mi_srep : srep (s.1, cm_cache s.2) As;
  mi_owns : owns (cm_objs s.2) (slive As);
  mi_home : As !! h = Some A1;
  mi_holding : holding cap e new A1;
  mi_quiet : forall i A, i <> h -> As !! i = Some A -> quiet cap A;
  mi_object : cm_objs s.2 !! x_value new = Some v
}.

(** the object of an entry is among the owned ones *)
Lemma live_value As i A a en :
  As !! i = Some A -> a_ents A !! a = Some en -> x_value en ∈ d_value <$> slive As.
Proof.
  intros HA Ha. apply list_elem_of_fmap. exists (x_deletion en). split; [done|].
  unfold slive. apply elem_of_concat_lookup. exists i, (live A). split.
  - by rewrite list_lookup_fmap, HA.
  - unfold live. apply list_elem_of_fmap. exists en. split; [done|].
    apply list_elem_of_fmap. exists (a, en). split; [done|]. by apply elem_of_map_to_list.
Qed.

Lemma populate_insert m cm As key v sz A :
  let hash := ShardedLRUCache_hash_slice key in
  let h := shard_index hash in
  let cap := per_shard (sc_capacity (cm_cache cm)) in
  cmrep (m, cm) As -> As !! h = Some A -> inu 64 sz -> Z.of_nat (size (a_tab A)) < 2 ^ 31 ->
  wp (cache_value ← new_value v;
      on_cm (ShardedLRUCache_insert key cache_value sz delete_cache_entry_id NORMAL))
    (fun e s' => exists p,
       let new := mkX p delete_cache_entry_id sz key hash NORMAL 1 in
       let A1 := (spec_insert e key hash p sz delete_cache_entry_id NORMAL A).1 in
       mid s' (<[h := A1]> As) h cap e new v A1 /\ a_ents A !! e = None /\
       sc_capacity (cm_cache s'.2) = sc_capacity (cm_cache cm)) (m, cm).
Proof.
  intros hash h cap [RS O Q] HA Hsz Hsize. cbn [fst snd] in *.
  pose proof (is_fresh (dom (cm_objs cm))) as Hp. set (p := fresh _) in Hp.
  apply not_elem_of_dom in Hp.
  set (cm1 := mkManager (cm_cache cm) (<[p := v]> (cm_objs cm))).
  assert (new_value v (m, cm) = Ok (p, (m, cm1))) as Hnew by done.
  destruct (sharded_insert _ _ RS key p sz delete_cache_entry_id NORMAL A HA Hsz Hsize)
    as (e & [m' sc'] & Hi & He & R1 & D & _ & Ec). simpl in D, Ec.
  set (A1 := (spec_insert e key hash p sz delete_cache_entry_id NORMAL A).1) in *.
  pose proof (sr_wf _ _ RS _ _ HA) as W.
  assert (h < length As)%nat as Hlt by (by eapply lookup_lt_Some).
  destruct (on_cm_step _ m cm1 e m' sc' _ _ (slive (<[h := A1]> As)) Hi D
    (owns_new _ _ p v key O Hp)) as (objs' & Hr & O' & Hsame).
  { apply (slive_update As h A A1 [_]); [done|]. by apply live_insert_op. }
  apply wp_bind. eapply wp_intro; [exact Hnew|]. eapply wp_intro; [exact Hr|].
  exists p. split_and!; [|done|done].
  assert (holding cap e (mkX p delete_cache_entry_id sz key hash NORMAL 1) A1) as Ho
    by (by apply holding_insert; [|eapply Q|]).
  assert (<[h := A1]> As !! h = Some A1) as HA1 by (by apply list_lookup_insert_eq).
  split; cbn [fst snd cm_cache cm_objs]; [exact R1|exact O'|exact HA1|exact Ho| |].
  - intros i B Hne HB. rewrite list_lookup_insert_ne in HB by done. by eapply Q.
  - rewrite Hsame; [by apply lookup_insert_eq|].
    by apply (live_value _ h A1 e _ HA1 (ho_entry _ _ _ _ Ho)).
Qed.

Lemma populate_prune s As h cap e new v A1 (b : bool) :
  mid s As h cap e new v A1 -> wf A1 ->
  wp (if b then on_cm ShardedLRUCache_prune else mret tt)
    (fun _ s' => exists As' A2, mid s' As' h cap e new v A2 /\ wf A2 /\ a_ents A2 ⊆ a_ents A1 /\
       sc_capacity (cm_cache s'.2) = sc_capacity (cm_cache s.2)) s.
Proof.
  intros Mi W. destruct b; [|apply wp_ret; by exists As, A1].
  destruct s as [m cm]. destruct Mi as [RS O HA Ho Q Hobj]. cbn [fst snd] in *.
  destruct (sharded_prune _ _ RS) as ([m' sc'] & Hp & R' & D & _ & Ec). cbn [fst snd] in *.
  set (As' := (fun A => (spec_prune A).1) <$> As) in *.
  assert (forall i A, As !! i = Some A -> wf A) as HW by apply (sr_wf _ _ RS).
  destruct (on_cm_step _ m cm tt m' sc' _ _ (slive As') Hp D O (slive_prune As HW))
    as (objs' & Hr & O' & Hsame).
  eapply wp_intro; [exact Hr|]. exists As', (spec_prune A1).1.
  assert (As' !! h = Some (spec_prune A1).1) as HA2 by (unfold As'; by rewrite list_lookup_fmap, HA).
  pose proof (holding_prune _ _ _ _ W Ho) as Ho2.
  split_and!; [|by apply wf_prune|apply prune_sub|exact Ec].
  split; cbn [fst snd cm_cache cm_objs]; [exact R'|exact O'|exact HA2|exact Ho2| |].
  - intros i A Hne. unfold As'. rewrite list_lookup_fmap. destruct (As !! i) as [B|] eqn:HB; [|done].
    intros [= <-]. apply quiet_prune; [by eapply HW|by eapply Q].
  - rewrite Hsame; [done|]. by apply (live_value _ h _ e _ HA2 (ho_entry _ _ _ _ Ho2)).
Qed.

(** what [populate] and [probe] leave behind, for the shard [h] *)
Definition settled (s : mstate) (As : list acache) (h : nat) (A : acache) (cap : Z) : Prop :=
  cmrep s As /\ As !! h = Some A /\ per_shard (sc_capacity (cm_cache s.2)) = cap.

Lemma mid_release s As h e new v A2 :
  let cap := per_shard (sc_capacity (cm_cache s.2)) in
  mid s As h cap e new v A2 -> wf A2 -> total_charge (a_ents A2) < 2 ^ 64 ->
  (cap < total_charge (a_ents A2) -> a_ents A2 = {[e := new]}) ->
  wp (on_cm (ShardedLRUCache_release (Some e)))
    (fun _ s' => exists As' A3, settled s' As' h A3 cap /\
       (total_charge (a_ents A2) <= cap ->
          a_tab A3 = a_tab A2 /\ a_ents A3 !! e = Some (with_handles 0 new) /\
          cm_objs s'.2 !! x_value new = Some v) /\
       (cap < total_charge (a_ents A2) -> a_tab A3 !! xkh new = None)) s.
Proof.
  intros cap [RS O HA Ho Q Hobj] W Ht Hlone. destruct s as [m cm]. cbn [fst snd] in *.
  assert (0 < x_handles new) as Hpos by (rewrite (ho_one _ _ _ _ Ho); lia).
  destruct (sharded_release _ _ RS h A2 e new HA (ho_entry _ _ _ _ Ho) Hpos)
    as ([m' sc'] & Hr & R' & D & _ & Ec). cbn [fst snd] in *.
  set (A3 := (spec_release e A2).1) in *.
  assert (h < length As)%nat as Hlt by (by eapply lookup_lt_Some).
  assert (<[h := A3]> As !! h = Some A3) as HA3 by (by apply list_lookup_insert_eq).
  destruct (on_cm_step _ m cm tt m' sc' _ _ (slive (<[h := A3]> As)) Hr D O) as (objs' & Hr' & O' & Hsame).
  { apply (slive_update As h A2 A3 []); [done|]. apply live_release. }
  destruct (holding_release cap e new A2 W Ho Ht) as [Hfit Hbig]. fold A3 in Hfit, Hbig.
  eapply wp_intro; [exact Hr'|]. exists (<[h := A3]> As), A3. split_and!.
  - split_and!; [|exact HA3|cbn [fst snd cm_cache]; by rewrite Ec].
    split; cbn [fst snd cm_cache cm_objs]; [exact R'|exact O'|]. rewrite Ec. fold cap.
    intros i B HB. destruct (decide (i = h)) as [->|Hne].
    + rewrite HA3 in HB. injection HB as <-.
      destruct (Z.le_gt_cases (total_charge (a_ents A2)) cap) as [Hle|Hgt]; [by apply Hfit|].
      rewrite (Hbig Hgt). unfold drop_entry. rewrite (ho_entry _ _ _ _ Ho), (Hlone Hgt).
      rewrite delete_singleton_eq. split; simpl.
      * intros a en Ha. by rewrite lookup_empty in Ha.
      * apply Ho.
      * unfold total_charge. rewrite map_fold_empty. apply per_shard_range.
    + rewrite list_lookup_insert_ne in HB by done. by eapply Q.
  - intros Hle. destruct (Hfit Hle) as (_ & Et & Ee). split_and!; [done|done|].
    cbn [fst snd cm_objs]. rewrite Hsame; [done|].
    apply (live_value _ h A3 e (with_handles 0 new) HA3 Ee).
  - intros Hgt. rewrite (Hbig Hgt). unfold drop_entry. rewrite (ho_entry _ _ _ _ Ho). simpl.
    apply lookup_delete_eq.
Qed.

(** ** The two operations *)

Lemma sum_sizes_range f l n sz : inu 64 n -> sum_sizes f l n = Ok sz -> inu 64 sz.
Proof.
  revert n. induction l as [|p l IH]; intros n Hn; simpl; [by intros [= <-]|].
  unfold mbind, res_bind. destruct (f p) as [k|]; [|done]. apply IH. by apply wrapu_range.
Qed.

(** a single entry is all that is left in a shard that is too small for it *)
Lemma insert_lone cap A e key hash p sz deleter priority :
  wf A -> quiet cap A -> 0 <= sz -> cap + sz < 2 ^ 64 -> a_ents A !! e = None ->
  let A1 := (spec_insert e key hash p sz deleter priority A).1 in
  (sz <= cap -> total_charge (a_ents A1) <= cap) /\
  (cap < sz -> a_ents A1 = {[e := mkX p deleter sz key hash priority 1]}).
Proof.
  intros W Q Hsz Hov He A1. destruct (quiet_evict cap A sz W Q Hsz Hov) as [Hfit Hbig].
  destruct (unmap_sub (key, hash) (spec_evict sz A).1) as [HS _]. split; intros Hc.
  - unfold A1, spec_insert. simpl. rewrite total_charge_insert.
    + pose proof (total_charge_sub_wf _ _ (wf_evict sz A W) HS). specialize (Hfit Hc). simpl. lia.
    + eapply lookup_weaken_None; [|exact HS].
      by eapply lookup_weaken_None; [|apply evict_list_sub].
  - specialize (Hbig Hc). unfold A1, spec_insert. simpl. rewrite Hbig in HS.
    assert (a_ents (spec_unmap (key, hash) (spec_evict sz A).1).1 = ∅) as ->; [|done].
    apply map_empty. intros a. destruct (_ !! a) as [x|] eqn:E; [|done].
    by pose proof (lookup_weaken _ _ _ _ E HS) as E'%lookup_empty_Some.
Qed.

Lemma populate_unfold st key v sz s :
  CacheValue_size st v = Ok sz ->
  CacheManager_populate st key v s =
  (handle ← (cache_value ← new_value v;
             on_cm (ShardedLRUCache_insert key cache_value sz delete_cache_entry_id NORMAL));
   usage ← CacheManager_memory_usage;
   cap ← CacheManager_capacity;
   _ ← (if cap <? usage then on_cm ShardedLRUCache_prune else mret tt);
   _ ← on_cm (ShardedLRUCache_release (Some handle));
   mret OkStatus) s.
Proof.
  intros Hsz. unfold CacheManager_populate, mbind, M_bind, lift_res. rewrite Hsz. reflexivity.
Qed.

(** the shard after the insertion and a possible [prune] *)
Lemma pruned_shape cap sz e new A1 A2 :
  wf A1 -> a_ents A2 ⊆ a_ents A1 -> a_ents A2 !! e = Some new -> x_charge new = sz ->
  (sz <= cap -> total_charge (a_ents A1) <= cap) -> (cap < sz -> a_ents A1 = {[e := new]}) ->
  (sz <= cap /\ total_charge (a_ents A2) <= cap) \/
  (cap < sz /\ a_ents A2 = {[e := new]} /\ total_charge (a_ents A2) = sz).
Proof.
  intros W HS He Ec Hfit Hbig. pose proof (total_charge_sub_wf A1 _ W HS) as Ht.
  destruct (Z.le_gt_cases sz cap) as [Hle|Hgt]; [left; specialize (Hfit Hle); lia|right].
  assert (a_ents A2 = {[e := new]}) as E2.
  { rewrite (Hbig Hgt) in HS. apply map_eq. intros a.
    destruct (decide (e = a)) as [<-|Hne]; [by rewrite lookup_singleton_eq|].
    rewrite lookup_singleton_ne by done. destruct (a_ents A2 !! a) as [x|] eqn:E; [|done].
    pose proof (lookup_weaken _ _ _ _ E HS) as E'. by rewrite lookup_singleton_ne in E'. }
  split_and!; [done|done|]. rewrite E2. unfold total_charge. rewrite map_fold_singleton. lia.
Qed.

Lemma populate_spec st s As A key v sz :
  let hash := ShardedLRUCache_hash_slice key in
  let h := shard_index hash in
  let cap := per_shard (sc_capacity (cm_cache s.2)) in
  cmrep s As -> As !! h = Some A -> CacheValue_size st v = Ok sz -> cap + sz < 2 ^ 64 ->
  Z.of_nat (size (a_tab A)) < 2 ^ 31 ->
  wp (CacheManager_populate st key v)
    (fun r s' => r = OkStatus /\ exists As' A', settled s' As' h A' cap /\
       (sz <= cap -> exists e en, a_tab A' !! (key, hash) = Some e /\ a_ents A' !! e = Some en /\
          cm_objs s'.2 !! x_value en = Some v) /\
       (cap < sz -> a_tab A' !! (key, hash) = None)) s.
Proof.
  intros hash h cap R HA Hsz Hov Hsize. destruct s as [m cm].
  assert (inu 64 sz) as Hin by (eapply (sum_sizes_range _ _ 0); [unfold inu; lia|exact Hsz]).
  pose proof (sr_wf _ _ (cr_srep _ _ R) _ _ HA) as W. pose proof (cr_quiet _ _ R _ _ HA) as Q.
  pose proof (per_shard_range (sc_capacity (cm_cache cm))) as [Hc0 Hc1].
  eapply wp_ext; [by apply populate_unfold|]. apply wp_bind.
  eapply wp_mono; [by apply (populate_insert m cm As key v sz A)|].
  intros e s1 (p & Mi & He & Ec). cbn beta zeta in Mi. fold hash h in Mi.
  assert (per_shard (sc_capacity (cm_cache s1.2)) = cap) as Ecap by (by rewrite Ec).
  cbn [fst snd] in Q, Ec. change (per_shard (sc_capacity (cm_cache cm))) with cap in Mi, Q, Hc0, Hc1.
  clearbody cap. set (new := mkX p delete_cache_entry_id sz key hash NORMAL 1) in *.
  set (A1 := (spec_insert e key hash p sz delete_cache_entry_id NORMAL A).1) in *.
  destruct (insert_lone cap A e key hash p sz delete_cache_entry_id NORMAL W Q (proj1 Hin) Hov He)
    as [Hfit Hbig]. fold A1 new in Hfit, Hbig.
  pose proof (sr_wf _ _ (mi_srep _ _ _ _ _ _ _ _ Mi) _ _ (mi_home _ _ _ _ _ _ _ _ Mi)) as W1.
  destruct s1 as [m1 cm1]. pose proof (sharded_usage _ _ (mi_srep _ _ _ _ _ _ _ _ Mi)) as Hu.
  cbn [fst snd] in Hu, Ec, Ecap. apply wp_bind. eapply wp_intro; [by apply on_cm_pure, Hu|].
  apply wp_bind. eapply wp_intro; [by apply on_cm_pure|]. apply wp_bind.
  eapply wp_mono; [by apply (populate_prune _ _ _ _ _ _ _ _ _ Mi W1)|].
  intros _ s2 (As2 & A2 & Mi2 & W2 & HS2 & Ec2). cbn [fst snd] in Ec2. rewrite <-Ec2 in Ecap.
  pose proof (pruned_shape cap sz e new A1 A2 W1 HS2 (ho_entry _ _ _ _ (mi_holding _ _ _ _ _ _ _ _ Mi2))
    eq_refl Hfit Hbig) as Hcase. rewrite <-Ecap in Mi2.
  apply wp_bind. eapply wp_mono; [apply (mid_release s2 As2 h e new v A2 Mi2 W2)|].
  - destruct Hin. destruct Hcase as [[_ Ht]|(_ & _ & Ht)]; lia.
  - rewrite Ecap. intros Hgt. destruct Hcase as [[_ Ht]|(_ & E2 & _)]; [lia|done].
  - intros _ s3 (As3 & A3 & Hset & HF & HB). rewrite Ecap in *. apply wp_ret. split; [done|].
    exists As3, A3. split; [done|]. destruct Hcase as [[Hle Ht]|(Hgt & _ & Ht)].
    + split; [|lia]. intros _. destruct (HF Ht) as (Et & Ee & Eo).
      exists e, (with_handles 0 new). rewrite Et. split_and!; [|done|done].
      apply (ho_tab _ _ _ _ (mi_holding _ _ _ _ _ _ _ _ Mi2)).
    + split; [lia|]. intros _. apply HB. lia.
Qed.

(** [probe] returns the value of the entry its key is mapped to *)
Lemma probe_spec s As A key :
  let hash := ShardedLRUCache_hash_slice key in
  let h := shard_index hash in
  let cap := per_shard (sc_capacity (cm_cache s.2)) in
  cmrep s As -> As !! h = Some A ->
  wp (CacheManager_probe key)
    (fun r s' => (exists As' A', settled s' As' h A' cap) /\
       match a_tab A !! (key, hash) with
       | None => r = SNotFound
       | Some e => exists en v, a_ents A !! e = Some en /\ cm_objs s.2 !! x_value en = Some v /\ r = SOk v
       end) s.
Proof.
  intros hash h cap R HA. destruct s as [m cm].
  pose proof (sr_wf _ _ (cr_srep _ _ R) _ _ HA) as W. pose proof (cr_quiet _ _ R _ _ HA) as Q.
  pose proof (per_shard_range (sc_capacity (cm_cache cm))) as [Hc0 Hc1].
  assert (handles_small A) as Hsm by (intros a en Ha; rewrite (q_idle _ _ Q a en Ha); lia).
  destruct (sharded_lookup _ _ (cr_srep _ _ R) key A HA Hsm) as ([m1 sc1] & Hl & R1 & D & _ & Ec).
  cbn [fst snd] in *. fold hash h in Hl, R1. set (A1 := (spec_lookup key hash A).2) in *.
  assert (h < length As)%nat as Hlt by (by eapply lookup_lt_Some).
  assert (<[h := A1]> As !! h = Some A1) as HA1 by (by apply list_lookup_insert_eq).
  destruct (on_cm_step _ m cm _ m1 sc1 [] (slive As) (slive (<[h := A1]> As)) Hl)
    as (objs1 & Hl1 & O1 & Hs1).
  { by rewrite app_nil_r. }
  { apply R. }
  { apply (slive_update As h A A1 [] []); [done|]. by apply live_lookup. }
  unfold CacheManager_probe. apply wp_bind. eapply wp_intro; [exact Hl1|].
  change (per_shard (sc_capacity (cm_cache cm))) with cap in Q, Hc0, Hc1.
  assert (per_shard (sc_capacity sc1) = cap) as Ecap by (by rewrite Ec).
  assert (forall i B, i <> h -> <[h := A1]> As !! i = Some B -> quiet cap B) as Q1.
  { intros i B Hne HB. rewrite list_lookup_insert_ne in HB by done. by apply (cr_quiet _ _ R i). }
  clearbody cap. destruct (a_tab A !! (key, hash)) as [e|] eqn:Et.
  2:{ apply wp_ret. split; [|done]. exists (<[h := A1]> As), A1.
      split_and!; [|exact HA1|exact Ecap].
      split; cbn [fst snd cm_cache cm_objs]; [exact R1|exact O1|]. rewrite Ecap. intros i B HB.
      destruct (decide (i = h)) as [->|Hne]; [|by eapply Q1]. rewrite HA1 in HB. injection HB as <-.
      unfold A1, spec_lookup. rewrite Et. split; apply Q. }
  destruct (wf_tab _ W _ _ Et) as (en & He & Hkh).
  assert (a_ents A1 = <[e := with_handles 1 en]> (a_ents A)) as Ee1.
  { unfold A1, spec_lookup. rewrite Et. simpl. rewrite (alter_handles A e en) by done.
    by rewrite (q_idle _ _ Q e en He). }
  assert (a_ents A1 !! e = Some (with_handles 1 en)) as He1 by (rewrite Ee1; apply lookup_insert_eq).
  assert (holding cap e (with_handles 1 en) A1) as Ho.
  { split; [done|done| | |].
    - unfold A1, spec_lookup. rewrite Et. simpl. by rewrite <-Hkh in Et.
    - intros a en' Ha Hne. rewrite Ee1, lookup_insert_ne in Ha by done. by apply (q_idle _ _ Q a).
    - unfold A1, spec_lookup. rewrite Et. apply Q. }
  pose proof (live_value _ h A1 e _ HA1 He1) as Hlv. change (x_value (with_handles 1 en)) with (x_value en) in Hlv.
  destruct (proj2 (ow_dom _ _ O1 _) Hlv) as [v Hv].
  destruct (sharded_value _ _ h A1 e _ R1 HA1 He1) as [Hval _]. change (x_value (with_handles 1 en)) with (x_value en) in Hval.
  apply wp_bind. eapply wp_intro; [by apply on_cm_pure, Hval|]. apply wp_bind, wp_get.
  apply wp_bind. eapply wp_lift; [cbn [snd cm_objs]; by rewrite Hv|].
  assert (total_charge (a_ents A1) <= cap) as Ht.
  { rewrite Ee1, (total_charge_update _ e en) by done. apply Q. }
  apply wp_bind. eapply wp_mono.
  - apply (mid_release (m1, mkManager sc1 objs1) (<[h := A1]> As) h e (with_handles 1 en) v A1);
      cbn [fst snd cm_cache cm_objs]; rewrite ?Ecap.
    + split; cbn [fst snd cm_cache cm_objs]; done.
    + by apply wf_lookup.
    + lia.
    + lia.
  - cbn [fst snd cm_cache]. rewrite Ecap. intros _ s3 (As3 & A3 & Hset & _). apply wp_ret.
    split; [by exists As3, A3|]. exists en, v. split_and!; [done| |done]. by rewrite <-Hs1.
Qed.

Lemma quiet_empty n : quiet (per_shard n) (with_capacity (per_shard n) empty_cache).
Proof.
  split; simpl; [|done|].
  - intros a en Ha. by rewrite lookup_empty in Ha.
  - unfold total_charge. rewrite map_fold_empty. apply per_shard_range.
Qed.

Lemma slive_empty n A : live A = [] -> slive (replicate n A) = [].
Proof. intros HA. unfold slive. induction n as [|n IH]; simpl; [done|]. rewrite HA. apply IH. Qed.

Lemma new_manager selves capacity m :
  NoDup selves -> length selves = Z.to_nat kNumShards ->
  (forall a, a ∈ selves -> handles m !! a = None) ->
  exists cm m', CacheManager_new selves capacity m = Ok (cm, m') /\
    cmrep (m', cm) (replicate (Z.to_nat kNumShards) (with_capacity (per_shard capacity) empty_cache)) /\
    sc_capacity (cm_cache cm) = capacity.
Proof.
  intros Hnd Hl Hf. destruct (sharded_new selves capacity m Hnd Hl Hf) as (sc & m' & Hn & R & _ & Ec).
  exists (mkManager sc ∅), m'. unfold CacheManager_new. rewrite Hn.
  split_and!; [done| |exact Ec]. split; cbn [fst snd cm_cache cm_objs]; [exact R| |].
  - rewrite slive_empty by done. split; simpl; [constructor| |constructor].
    intros p. rewrite lookup_empty. split; [by intros [? ?]|by intros ?%elem_of_nil].
  - rewrite Ec. intros i A [-> _]%lookup_replicate_1. apply quiet_empty.
Qed.

(** ** A manager for the examples *)

Definition cm_selves : list addr := Pos.of_succ_nat <$> seq 0 32.
Definition cm_mem0 : mem := mkMem ∅ ∅ [].
Definition cm0 : mstate :=
  match CacheManager_new cm_selves 1024 cm_mem0 with
  | Ok (cm, m) => (m, cm)
  | Err _ => (cm_mem0, mkManager (mkSharded [] 0 0) ∅)
  end.
Definition cm_as0 : list acache :=
  replicate (Z.to_nat kNumShards) (with_capacity (per_shard 1024) empty_cache).

Lemma cm0_rep : cmrep cm0 cm_as0.
Proof.
  destruct (new_manager cm_selves 1024 cm_mem0) as (cm & m' & Hn & R & _).
  - apply (bool_decide_unpack _). vm_compute. exact I.
  - done.
  - intros a _. apply lookup_empty.
  - replace cm0 with (m', cm); [exact R|]. unfold cm0. by rewrite Hn.
Qed.

(** one chunk with one column of three bytes *)
Definition store0 : store := mkStore {[10 := mkColumn [1; 2; 3]]} {[20 := mkChunk [10]]}.
Definition value0 : CacheValue := mkValue 0 0 0 1 [20].

(** C33: a populated value that fits in its shard is returned by the next
    probe of the same key, unchanged; one that does not fit is not kept. In
    both cases [populate] reports success, no call fails, no object is leaked
    or freed twice, and the manager is ready for the next call. *)
Theorem cache_manager_populate_probe st s As A key v sz :
  let cap := per_shard (sc_capacity (cm_cache s.2)) in
  cmrep s As -> As !! shard_index (ShardedLRUCache_hash_slice key) = Some A ->
  CacheValue_size st v = Ok sz -> cap + sz < 2 ^ 64 -> Z.of_nat (size (a_tab A)) < 2 ^ 31 ->
  exists s1 As1 s2 As2,
    CacheManager_populate st key v s = Ok (OkStatus, s1) /\ cmrep s1 As1 /\
    CacheManager_probe key s1 = Ok (if sz <=? cap then SOk v else SNotFound, s2) /\ cmrep s2 As2.
Proof.
  intros cap R HA Hsz Hov Hsize.
  destruct (wp_elim _ _ _ (populate_spec st s As A key v sz R HA Hsz Hov Hsize))
    as (r & s1 & Hp & -> & As1 & A1 & (R1 & HA1 & Ec) & Hfit & Hbig).
  destruct (wp_elim _ _ _ (probe_spec s1 As1 A1 key R1 HA1))
    as (r & s2 & Hp2 & (As2 & A2 & R2 & _) & Hr).
  exists s1, As1, s2, As2. split_and!; [done|done| |done].
  rewrite Hp2. do 2 f_equal. fold cap in Hfit, Hbig. destruct (Z.leb_spec sz cap) as [Hle|Hgt].
  - destruct (Hfit Hle) as (e & en & Et & He & Ho). rewrite Et in Hr.
    destruct Hr as (en' & v' & He' & Hv' & ->). congruence.
  - by rewrite (Hbig Hgt) in Hr.
Qed.

Lemma cache_manager_populate_probe_witness : exists s1 As1 s2 As2,
  CacheManager_populate store0 [107] value0 cm0 = Ok (OkStatus, s1) /\ cmrep s1 As1 /\
  CacheManager_probe [107] s1 = Ok (SOk value0, s2) /\ cmrep s2 As2.
Proof.
  apply (cache_manager_populate_probe store0 cm0 cm_as0
           (with_capacity (per_shard 1024) empty_cache) [107] value0 3).
  - exact cm0_rep.
  - vm_compute. reflexivity.
  - vm_compute. reflexivity.
  - vm_compute. reflexivity.
  - vm_compute. reflexivity.
Defined.

(** A probe of any key, in any state that construction and earlier calls
    lead to, returns a copy of the object of the entry the key is mapped to,
    or a miss when it is not mapped; it never fails and keeps the invariant. *)
Theorem cache_manager_probe s As A key :
  let hash := ShardedLRUCache_hash_slice key in
  cmrep s As -> As !! shard_index hash = Some A ->
  exists r s' As', CacheManager_probe key s = Ok (r, s') /\ cmrep s' As' /\
    match a_tab A !! (key, hash) with
    | None => r = SNotFound
    | Some e => exists en v, a_ents A !! e = Some en /\ cm_objs s.2 !! x_value en = Some v /\ r = SOk v
    end.
Proof.
  intros hash R HA. destruct (wp_elim _ _ _ (probe_spec s As A key R HA))
    as (r & s' & Hp & (As' & A' & R' & _) & Hr).
  by exists r, s', As'.
Qed.

Lemma cache_manager_probe_witness :
  exists r s' As', CacheManager_probe [107] cm0 = Ok (r, s') /\ cmrep s' As' /\ r = SNotFound.
Proof.
  apply (cache_manager_probe cm0 cm_as0 (with_capacity (per_shard 1024) empty_cache) [107]).
  - exact cm0_rep.
  - vm_compute. reflexivity.
Defined.
