(* ===== verification/Simd.v ===== *)
(** * Byte vectors: the SIMD intrinsics the string kernels use

    A register is the list of its bytes, lane 0 first, each in [0, 256). The
    x86 intrinsics are part of the language here: each definition gives the
    documented result of one of them. *)

From S2P Require Import Prelude.

Abbreviation vec := (list Z).

(** [_mm_set1_epi8], [_mm_set1_pi8] *)
Definition set1_epi8 (n : nat) (b : Z) : vec := replicate n (u8 b).

(** [_mm_sub_epi8]: lane-wise, wrapping *)
Definition sub_epi8 (x y : vec) : vec := zip_with (fun a b => u8 (a - b)) x y.

(** [_mm_xor_si128], [_mm_and_si128], [_mm_or_si128] *)
Definition xor_si (x y : vec) : vec := zip_with Z.lxor x y.
Definition and_si (x y : vec) : vec := zip_with Z.land x y.
Definition or_si (x y : vec) : vec := zip_with Z.lor x y.

(** lane-wise comparisons give 0xff or 0; the lanes are signed chars *)
Definition lane (b : bool) : Z := if b then 255 else 0.
Definition cmpgt_epi8 (x y : vec) : vec := zip_with (fun a b => lane (wraps 8 b <? wraps 8 a)) x y.
Definition cmplt_epi8 (x y : vec) : vec := cmpgt_epi8 y x.
Definition cmpeq_epi8 (x y : vec) : vec := zip_with (fun a b => lane (a =? b)) x y.

(** [_mm_movemask_epi8]: bit i of the mask is the sign bit of lane i *)
Fixpoint movemask_epi8 (x : vec) : Z :=
  match x with
  | [] => 0
  | b :: x => (if 128 <=? b then 1 else 0) + 2 * movemask_epi8 x
  end.

(** [_mm_testc_si128(a, b)]: the bits of [b] outside [a] are all zero *)
Definition testc_si (a b : vec) : bool := forallb (fun z => z =? 0) (zip_with Z.ldiff b a).

(** [_mm_shuffle_epi8(a, c)]: lane i is 0 if the control byte has its high
    bit, and lane [c_i mod n] of [a] otherwise *)
Definition shuffle_epi8 (a ctrl : vec) : vec :=
  (fun c => if 128 <=? c then 0
            else default 0 (a !! (Z.to_nat (c mod Z.of_nat (length a))))) <$> ctrl.

(** the little-endian integer in a vector *)
Fixpoint le_val (x : vec) : Z :=
  match x with
  | [] => 0
  | b :: x => b + 256 * le_val x
  end.

(** the [n] bytes at offset [i], as an unaligned load reads them *)
Definition loadu (n : nat) (s : list Z) (i : Z) : res vec :=
  if (0 <=? i) && (i + Z.of_nat n <=? Z.of_nat (length s))
  then Ok (take n (drop (Z.to_nat i) s)) else Err EBounds.

(** an unaligned store of a register at offset [i] *)
Definition storeu (s : list Z) (i : Z) (v : vec) : res (list Z) :=
  if (0 <=? i) && (i + Z.of_nat (length v) <=? Z.of_nat (length s))
  then Ok (take (Z.to_nat i) s ++ v ++ drop (Z.to_nat i + length v) s) else Err EBounds.

(** [__builtin_clz] and [__builtin_ctz] on [w] bits are undefined at 0 *)
Definition bit_length (x : Z) : Z := if x <=? 0 then 0 else Z.log2 x + 1.
Definition clz (w x : Z) : res Z := if x =? 0 then Err EUndef else Ok (w - bit_length x).

Fixpoint ctz_pos (p : positive) : Z :=
  match p with xO p => 1 + ctz_pos p | _ => 0 end.
Definition ctz (x : Z) : res Z :=
  match x with Zpos p => Ok (ctz_pos p) | _ => Err EUndef end.

(** ** Facts *)

Lemma loadu_Ok n s i : 0 <= i -> i + Z.of_nat n <= Z.of_nat (length s) ->
  loadu n s i = Ok (take n (drop (Z.to_nat i) s)).
Proof.
  intros H1 H2. unfold loadu. destruct (Z.leb_spec 0 i); [|lia].
  by destruct (Z.leb_spec (i + Z.of_nat n) (Z.of_nat (length s))); [|lia].
Qed.

Lemma storeu_Ok s i v : 0 <= i -> i + Z.of_nat (length v) <= Z.of_nat (length s) ->
  storeu s i v = Ok (take (Z.to_nat i) s ++ v ++ drop (Z.to_nat i + length v) s).
Proof.
  intros H1 H2. unfold storeu. destruct (Z.leb_spec 0 i); [|lia].
  by destruct (Z.leb_spec (i + Z.of_nat (length v)) (Z.of_nat (length s))); [|lia].
Qed.

Lemma length_set1 n b : length (set1_epi8 n b) = n.
Proof. apply length_replicate. Qed.

Lemma le_val_nonneg x : bytes_ok x -> 0 <= le_val x.
Proof. induction 1 as [|b x [Hb _]]; simpl; lia. Qed.

Lemma le_val_inj x y : bytes_ok x -> bytes_ok y -> length x = length y ->
  le_val x = le_val y -> x = y.
Proof.
  intros Hx. revert y. induction Hx as [|b x Hb Hx IH]; intros y Hy L E.
  - by destruct y.
  - destruct y as [|c y]; [done|]. apply Forall_cons in Hy as [Hc Hy].
    unfold inu in Hb, Hc. simpl in E, L. change (2 ^ 8) with 256 in Hb, Hc.
    assert (b = c) as -> by lia. f_equal. apply IH; [done|lia|lia].
Qed.

(** a register is all zero after the xor exactly when the operands agree *)
Lemma xor_si_zero x y : length x = length y ->
  forallb (fun z => z =? 0) (xor_si x y) = bool_decide (x = y).
Proof.
  revert y. induction x as [|a x IH]; intros [|b y] L; try done.
  simpl. rewrite IH by (simpl in L; lia). destruct (Z.eqb_spec (Z.lxor a b) 0) as [E|E]; simpl.
  - apply Z.lxor_eq in E as ->. apply bool_decide_ext. split; [by intros ->|by intros [=]].
  - symmetry. apply bool_decide_eq_false. intros [= -> _]. by rewrite Z.lxor_nilpotent in E.
Qed.

Lemma testc_zero x : testc_si (replicate (length x) 0) x = forallb (fun z => z =? 0) x.
Proof.
  unfold testc_si. induction x as [|a x IH]; [done|]. simpl. rewrite Z.ldiff_0_r. by f_equal.
Qed.

Lemma loadu_mid n pre x t : length x = n -> loadu n (pre ++ x ++ t) (Z.of_nat (length pre)) = Ok x.
Proof.
  intros Hx. rewrite loadu_Ok by (rewrite ?length_app; lia). rewrite Nat2Z.id.
  by rewrite drop_app_length, take_app_le, take_ge by lia.
Qed.

Lemma storeu_mid d x y t : length x = length y ->
  storeu (d ++ x ++ t) (Z.of_nat (length d)) y = Ok (d ++ y ++ t).
Proof.
  intros L. rewrite storeu_Ok by (rewrite ?length_app; lia). rewrite Nat2Z.id.
  rewrite take_app_length, drop_app, (drop_ge d) by lia.
  replace (length d + length y - length d)%nat with (length x) by lia.
  by rewrite drop_app_length.
Qed.

(** ** Masks bit by bit *)

Lemma movemask_testbit x i :
  Z.testbit (movemask_epi8 x) (Z.of_nat i) = match x !! i with Some b => 128 <=? b | None => false end.
Proof.
  revert i. induction x as [|b x IH]; intros i; [by rewrite Z.testbit_0_l|].
  cbn [movemask_epi8]. destruct i as [|i].
  - change (Z.of_nat 0) with 0. simpl lookup. destruct (128 <=? b).
    + rewrite Z.add_comm. apply Z.testbit_odd_0.
    + rewrite Z.add_0_l. apply Z.testbit_even_0.
  - rewrite Nat2Z.inj_succ. simpl lookup. rewrite <-IH. destruct (128 <=? b).
    + rewrite Z.add_comm. apply Z.testbit_odd_succ. lia.
    + rewrite Z.add_0_l. apply Z.testbit_even_succ. lia.
Qed.

Lemma cmpeq_testbit x c i n : length x = n ->
  Z.testbit (movemask_epi8 (cmpeq_epi8 x (set1_epi8 n c))) (Z.of_nat i) =
  match x !! i with Some b => b =? u8 c | None => false end.
Proof.
  intros L. rewrite movemask_testbit. unfold cmpeq_epi8, set1_epi8.
  rewrite lookup_zip_with. destruct (x !! i) as [b|] eqn:E; [|done].
  rewrite lookup_replicate_2 by (apply lookup_lt_Some in E; lia). simpl.
  by destruct (b =? u8 c).
Qed.

(** the number of trailing zeros is the index of the lowest set bit *)
Lemma ctz_pos_spec p :
  0 <= ctz_pos p /\ Z.testbit (Zpos p) (ctz_pos p) = true /\
  forall j, 0 <= j < ctz_pos p -> Z.testbit (Zpos p) j = false.
Proof.
  induction p as [p _|p (H0 & H1 & H2)|]; cbn [ctz_pos].
  - split_and!; [lia|done|lia].
  - change (Zpos p~0) with (2 * Zpos p). split_and!; [lia| |].
    + replace (1 + ctz_pos p) with (Z.succ (ctz_pos p)) by lia. by rewrite Z.testbit_even_succ.
    + intros j Hj. destruct (decide (j = 0)) as [->|]; [apply Z.testbit_even_0|].
      replace j with (Z.succ (j - 1)) by lia. rewrite Z.testbit_even_succ by lia. apply H2. lia.
  - split_and!; [lia|done|lia].
Qed.

Lemma ctz_unique z k : 0 < z -> 0 <= k -> Z.testbit z k = true ->
  (forall j, 0 <= j < k -> Z.testbit z j = false) -> ctz z = Ok k.
Proof.
  intros Hz Hk Hb Hl. destruct z as [|p|]; try lia. simpl. f_equal.
  destruct (ctz_pos_spec p) as (H0 & H1 & H2).
  destruct (Z.lt_trichotomy (ctz_pos p) k) as [Hlt|[->|Hgt]]; [|done|].
  - rewrite Hl in H1 by lia. done.
  - rewrite H2 in Hb by lia. done.
Qed.

Lemma clz_unique w z k : 0 < z -> 0 <= k -> Z.testbit z k = true ->
  (forall j, k < j -> Z.testbit z j = false) -> clz w z = Ok (w - 1 - k).
Proof.
  intros Hz Hk Hb Hh. unfold clz, bit_length. destruct (Z.eqb_spec z 0); [lia|].
  destruct (Z.leb_spec z 0); [lia|]. rewrite (Z.log2_bits_unique z k) by done. f_equal. lia.
Qed.

Lemma u32_testbit z j : 0 <= j -> Z.testbit (u32 z) j = (j <? 32) && Z.testbit z j.
Proof.
  intros Hj. unfold wrapu. destruct (Z.ltb_spec j 32).
  - by rewrite Z.mod_pow2_bits_low.
  - by rewrite Z.mod_pow2_bits_high by lia.
Qed.
