(* ===== verification/Hexdigit.v ===== *)
(** * Hexadecimal decoding: src/include/hexdigit.hh

    Three versions of [unhex]: scalar digits, MMX digits, and an AVX2 kernel
    that decodes four digits at a time. A [char] is its byte in [0, 256); the
    places where the code uses it as a signed number convert it. *)

From S2P Require Import Prelude.
From S2P Require Import Simd.

(** [std::string::operator[]]: the index [size()] is the terminating zero *)
Definition str_at (s : list Z) (i : Z) : res Z :=
  if i =? Z.of_nat (length s) then Ok 0 else rd s i.

(** [_mm_cvtm64_si64] gives the vector as a signed 64-bit integer *)
Definition hexdigit_ord (ch : Z) : res Z :=
  let bs := [0x00; 48 - 1; 57; 65 - 1; 70; 97 - 1; 102; 0x7f] in
  let chs := set1_epi8 8 ch in
  let x := sub_epi8 bs chs in
  z ← clz 32 (movemask_epi8 x);
  let bits := 32 - z in
  let t := Z.land 10 (Z.shiftl 0xff (Z.shiftl (if bits =? 2 then 1 else 0) 3)) - 1 in
  if negb (Z.land bits 9 =? 0) then Ok 0xff
  else Ok (u8 (t - Z.land (Z.shiftr (i64 (le_val x)) (Z.shiftl (bits - 1) 3)) 0xff)).

(** [_mm256_permute4x64_epi64]: the four 64-bit lanes picked by the two-bit
    fields of the immediate; [_mm256_srli_epi64] shifts each of them *)
Definition qword (x : vec) (j : Z) : Z := le_val (take 8 (drop (Z.to_nat (8 * j)) x)).
Definition permute4x64_epi64 (x : vec) (imm : Z) : list Z :=
  (fun j => qword x (Z.land (Z.shiftr imm (2 * j)) 3)) <$> [0; 1; 2; 3].
Definition srli_epi64 (qs : list Z) (n : Z) : list Z :=
  (fun q => if n <? 64 then Z.shiftr q n else 0) <$> qs.
(** element 0 of the register seen as 32 signed chars *)
Definition byte0 (qs : list Z) : Z :=
  match qs with q :: _ => wraps 8 q | [] => 0 end.

(** the macro [PROCESS_CH]: [None] is its [return false], otherwise the value
    [t - delta] its statement uses *)
Definition process_ch (x : vec) (mask i : Z) : res (option Z) :=
  let mask0 := Z.land mask 0xff in
  z ← clz 32 mask0;
  let bits := 30 - z in
  if Z.land bits 1 =? 0 then Ok None
  else
    let t := Z.land 10 (Z.shiftl 0xff (Z.shiftl (if bits =? 1 then 1 else 0) 3)) - 1 in
    let bytes32 := srli_epi64 (permute4x64_epi64 x i) (Z.shiftl (bits + 1) 3) in
    let delta := byte0 bytes32 in
    Ok (Some (t - delta)).

(** one 64-bit lane of the operands *)
Definition bs4 : vec := [0; 0; 0x2f; 0x39; 0x40; 0x46; 0x60; 0x66].
Definition chs4 (ch : Z) : vec := [1; 1; ch; ch; ch; ch; ch; ch].

(** [None] is the result false; otherwise the two bytes written through
    [ret0] and [ret1] *)
Definition hexdigit_ord4 (ch0 ch1 ch2 ch3 : Z) : res (option (Z * Z)) :=
  let bs := bs4 ++ bs4 ++ bs4 ++ bs4 in
  let chs := chs4 ch0 ++ chs4 ch1 ++ chs4 ch2 ++ chs4 ch3 in
  let x := sub_epi8 bs chs in
  let mask := i32 (movemask_epi8 x) in
  d0 ← process_ch x mask 0;
  match d0 with None => Ok None | Some d0 =>
  let ret0 := u8 (Z.shiftl d0 4) in
  let mask := Z.shiftr mask 8 in
  d1 ← process_ch x mask 1;
  match d1 with None => Ok None | Some d1 =>
  let ret0 := u8 (ret0 + u8 d1) in
  let mask := Z.shiftr mask 8 in
  d2 ← process_ch x mask 2;
  match d2 with None => Ok None | Some d2 =>
  let ret1 := u8 (Z.shiftl d2 4) in
  let mask := Z.shiftr mask 8 in
  d3 ← process_ch x mask 3;
  match d3 with None => Ok None | Some d3 =>
  let ret1 := u8 (ret1 + u8 d3) in
  Ok (Some (ret0, ret1)) end end end end.

Definition hexdigit_ord_nonsimd (ch : Z) : Z :=
  let value := wraps 8 ch - 48 in
  if (0 <=? value) && (value <=? 57 - 48) then u8 value else
  let value := wraps 8 ch - 65 in
  if (0 <=? value) && (value <=? 70 - 65) then u8 (value + 10) else
  let value := wraps 8 ch - 97 in
  if (0 <=? value) && (value <=? 102 - 97) then u8 (value + 10) else 0xff.

(** the loop [unhex0] and [unhex1] share; they differ in the digit function *)
Fixpoint unhex_loop (fuel : nat) (ord : Z -> res Z) (s : list Z) (i : Z) (ret : list Z) : res (list Z) :=
  match fuel with
  | O => Err EFuel
  | S fuel =>
      if u64 i <? Z.of_nat (length s) then
        c0 ← str_at s i;
        ch0 ← ord c0;
        if Z.land ch0 0xff =? 0xff then Ok []
        else
          i1 ← checked 32 (i + 1);
          c1 ← str_at s i1;
          ch1 ← ord c1;
          if Z.land ch1 0xff =? 0xff then Ok []
          else
            i ← checked 32 (i + 2);
            unhex_loop fuel ord s i (ret ++ [u8 (Z.shiftl ch0 4 + ch1)])
      else Ok ret
  end.

Definition unhex0 (s : list Z) : res (list Z) :=
  if Z.of_nat (length s) mod 2 =? 1 then Ok []
  else unhex_loop (S (length s)) (fun c => Ok (hexdigit_ord_nonsimd c)) s 0 [].

Definition unhex1 (s : list Z) : res (list Z) :=
  if Z.of_nat (length s) mod 2 =? 1 then Ok []
  else unhex_loop (S (length s)) hexdigit_ord s 0 [].

(** the loop of [unhex2]: its bound [sz - 3] is computed in [size_t]. The
    result is the index after the loop and the string so far, or [None] for
    the early return of the empty string *)
Fixpoint unhex2_loop (fuel : nat) (s : list Z) (i : Z) (ret : list Z) : res (option (Z * list Z)) :=
  match fuel with
  | O => Err EFuel
  | S fuel =>
      if u64 i <? u64 (Z.of_nat (length s) - 3) then
        c0 ← str_at s i;
        c1 ← str_at s (i + 1);
        c2 ← str_at s (i + 2);
        c3 ← str_at s (i + 3);
        r ← hexdigit_ord4 c0 c1 c2 c3;
        match r with
        | Some (ch0, ch1) =>
            i ← checked 32 (i + 4);
            unhex2_loop fuel s i (ret ++ [ch0; ch1])
        | None => Ok None
        end
      else Ok (Some (i, ret))
  end.

Definition unhex2 (s : list Z) : res (list Z) :=
  let sz := Z.of_nat (length s) in
  if sz mod 2 =? 1 then Ok []
  else
    r ← unhex2_loop (S (length s)) s 0 [];
    match r with
    | None => Ok []
    | Some (i, ret) =>
        if u64 i =? sz then Ok ret
        else
          c0 ← str_at s i;
          c1 ← str_at s (i + 1);
          r ← hexdigit_ord4 c0 c1 48 48;
          match r with
          | Some (ch0, _) => Ok (ret ++ [ch0])
          | None => Ok []
          end
    end.

(** ** Specification *)

(** the value of a hexadecimal digit *)
Definition hex_value (c : Z) : option Z :=
  if (48 <=? c) && (c <=? 57) then Some (c - 48)
  else if (65 <=? c) && (c <=? 70) then Some (c - 55)
  else if (97 <=? c) && (c <=? 102) then Some (c - 87)
  else None.

(** two digits make a byte; any other character makes the string illegal *)
Fixpoint hex_decode (s : list Z) : option (list Z) :=
  match s with
  | [] => Some []
  | [_] => None
  | a :: b :: s =>
      x ← hex_value a; y ← hex_value b; r ← hex_decode s; Some (16 * x + y :: r)
  end.

(** the canonical encoder, upper case *)
Definition hex_digit (v : Z) : Z := if v <? 10 then 48 + v else 55 + v.
Fixpoint hex_encode (l : list Z) : list Z :=
  match l with
  | [] => []
  | b :: l => hex_digit (b / 16) :: hex_digit (b mod 16) :: hex_encode l
  end.

(** ** Digits: checked on all 256 bytes *)

Lemma nonsimd_digit c : inu 8 c -> hexdigit_ord_nonsimd c = default 0xff (hex_value c).
Proof.
  intros Hc. apply Z.eqb_eq. revert c Hc.
  apply (byte_cases (fun c => hexdigit_ord_nonsimd c =? default 0xff (hex_value c))).
  vm_compute. reflexivity.
Qed.

Lemma simd_digit c : inu 8 c -> c <> 0 -> hexdigit_ord c = Ok (hexdigit_ord_nonsimd c).
Proof.
  intros Hc. cut ((c =? 0) || bool_decide (hexdigit_ord c = Ok (hexdigit_ord_nonsimd c)) = true).
  { intros H Hn. apply orb_true_iff in H as [H|H].
    - by apply Z.eqb_eq in H.
    - by apply bool_decide_eq_true in H. }
  revert c Hc.
  apply (byte_cases (fun c => (c =? 0) || bool_decide (hexdigit_ord c = Ok (hexdigit_ord_nonsimd c)))).
  vm_compute. reflexivity.
Qed.

(** ** The four-digit kernel *)

Lemma movemask_range x : 0 <= movemask_epi8 x < 2 ^ Z.of_nat (length x).
Proof.
  induction x as [|b x IH]; [done|]. cbn [movemask_epi8 length].
  rewrite Nat2Z.inj_succ, Z.pow_succ_r by lia. destruct (128 <=? b); lia.
Qed.

Lemma movemask_app x y :
  movemask_epi8 (x ++ y) = movemask_epi8 x + 2 ^ Z.of_nat (length x) * movemask_epi8 y.
Proof.
  induction x as [|b x IH]; cbn [movemask_epi8 app length]; [lia|].
  rewrite IH, Nat2Z.inj_succ, Z.pow_succ_r by lia. lia.
Qed.

(** what [PROCESS_CH] computes from one lane only *)
Definition process_lane (l : vec) : res (option Z) := process_ch l (movemask_epi8 l) 0.

Definition lane4 (c : Z) : vec := sub_epi8 bs4 (chs4 c).

Lemma lane_digit c : inu 8 c -> process_lane (lane4 c) = Ok (hex_value c).
Proof.
  intros Hc. apply (bool_decide_eq_true_1 _). revert c Hc.
  apply (byte_cases (fun c => bool_decide (process_lane (lane4 c) = Ok (hex_value c)))).
  vm_compute. reflexivity.
Qed.

(** only the mask byte and the lane selected by [i] matter *)
Lemma process_ch_lane x mask i l : 0 <= i < 4 -> length l = 8%nat ->
  mask mod 256 = movemask_epi8 l -> qword x i = le_val l ->
  process_ch x mask i = process_lane l.
Proof.
  intros Hi Hl Hm Hq. unfold process_lane, process_ch.
  assert (Z.land mask 255 = Z.land (movemask_epi8 l) 255) as ->.
  { pose proof (movemask_range l) as Hr. rewrite Hl in Hr. change 255 with (2 ^ 8 - 1).
    rewrite !land_pow2_mod by lia. change (2 ^ 8) with 256. rewrite Hm.
    symmetry. apply Z.mod_small. lia. }
  assert (forall n, byte0 (srli_epi64 (permute4x64_epi64 x i) n) =
                    byte0 (srli_epi64 (permute4x64_epi64 l 0) n)) as E.
  { assert (qword l 0 = le_val l) as E0.
    { unfold qword. change (Z.to_nat (8 * 0)) with 0%nat. by rewrite drop_0, take_ge by lia. }
    intros n. unfold permute4x64_epi64, srli_epi64, byte0.
    cbn [fmap list_fmap]. replace (Z.land (Z.shiftr i (2 * 0)) 3) with i.
    - rewrite Hq. change (Z.land (Z.shiftr 0 (2 * 0)) 3) with 0. by rewrite E0.
    - assert (i = 0 \/ i = 1 \/ i = 2 \/ i = 3) as [->|[->|[->| ->]]] by lia; done. }
  destruct (clz 32 _) as [z|]; [|done]. cbn [mbind res_bind]. by rewrite E.
Qed.

Lemma hex_value_range c d : hex_value c = Some d -> 0 <= d < 16.
Proof. unfold hex_value. intros H. repeat case_match; simplify_eq; lia. Qed.

Lemma two_digits a b : 0 <= a < 16 -> 0 <= b < 16 ->
  u8 (u8 (Z.shiftl a 4) + u8 b) = 16 * a + b.
Proof.
  intros Ha Hb. rewrite Z.shiftl_mul_pow2 by lia. unfold wrapu.
  rewrite !Z.mod_small; rewrite ?Z.mod_small; lia.
Qed.

Lemma mask_bytes m0 m1 m2 m3 :
  0 <= m0 < 256 -> 0 <= m1 < 256 -> 0 <= m2 < 256 -> 0 <= m3 < 256 ->
  let mask := i32 (m0 + 256 * (m1 + 256 * (m2 + 256 * m3))) in
  mask mod 256 = m0 /\ Z.shiftr mask 8 mod 256 = m1 /\
  Z.shiftr (Z.shiftr mask 8) 8 mod 256 = m2 /\
  Z.shiftr (Z.shiftr (Z.shiftr mask 8) 8) 8 mod 256 = m3.
Proof.
  intros H0 H1 H2 H3 mask. rewrite !Z.shiftr_div_pow2 by lia.
  unfold mask, wraps. change (2 ^ 8) with 256. change (2 ^ 32) with 4294967296.
  change (2 ^ (32 - 1)) with 2147483648. Z.to_euclidean_division_equations. lia.
Qed.

Lemma ord4_digits c0 c1 c2 c3 : inu 8 c0 -> inu 8 c1 -> inu 8 c2 -> inu 8 c3 ->
  hexdigit_ord4 c0 c1 c2 c3 =
  Ok (d0 ← hex_value c0; d1 ← hex_value c1; d2 ← hex_value c2; d3 ← hex_value c3;
      Some (16 * d0 + d1, 16 * d2 + d3)).
Proof.
  intros H0 H1 H2 H3. unfold hexdigit_ord4.
  set (x := sub_epi8 _ _).
  assert (x = lane4 c0 ++ lane4 c1 ++ lane4 c2 ++ lane4 c3) as Ex by reflexivity.
  clearbody x.
  assert (forall c, length (lane4 c) = 8%nat) as L by reflexivity.
  destruct (mask_bytes (movemask_epi8 (lane4 c0)) (movemask_epi8 (lane4 c1))
              (movemask_epi8 (lane4 c2)) (movemask_epi8 (lane4 c3))) as (M0 & M1 & M2 & M3);
    try (match goal with |- _ <= movemask_epi8 ?l < _ => apply (movemask_range l) end).
  assert (movemask_epi8 x = movemask_epi8 (lane4 c0) + 256 * (movemask_epi8 (lane4 c1) +
            256 * (movemask_epi8 (lane4 c2) + 256 * movemask_epi8 (lane4 c3)))) as Em.
  { rewrite Ex, !movemask_app, !L. done. }
  rewrite <-Em in M0, M1, M2, M3.
  rewrite (process_ch_lane x _ 0 (lane4 c0)), (process_ch_lane x _ 1 (lane4 c1)),
    (process_ch_lane x _ 2 (lane4 c2)), (process_ch_lane x _ 3 (lane4 c3));
    try done; try (by rewrite Ex).
  rewrite !lane_digit by done. cbn [mbind res_bind option_bind].
  destruct (hex_value c0) as [d0|] eqn:E0; [|done].
  destruct (hex_value c1) as [d1|] eqn:E1; [|done].
  destruct (hex_value c2) as [d2|] eqn:E2; [|done].
  destruct (hex_value c3) as [d3|] eqn:E3; [|done].
  by rewrite !two_digits by eauto using hex_value_range.
Qed.

(** ** The loops *)

Lemma str_at_mid pre x rest : str_at (pre ++ x :: rest) (Z.of_nat (length pre)) = Ok x.
Proof.
  unfold str_at. rewrite length_app. destruct (Z.eqb_spec (Z.of_nat (length pre))
    (Z.of_nat (length pre + length (x :: rest)))) as [E|_]; [simpl in E; lia|].
  apply rd_nat. by rewrite list_lookup_middle.
Qed.

Lemma str_at_next pre mid x rest n : Z.of_nat (length mid) = n ->
  str_at (pre ++ mid ++ x :: rest) (Z.of_nat (length pre) + n) = Ok x.
Proof. intros <-. rewrite <-Nat2Z.inj_add, <-length_app, app_assoc. apply str_at_mid. Qed.

Lemma bytes_ok_cons4 a b c d s :
  bytes_ok (a :: b :: c :: d :: s) <-> inu 8 a /\ inu 8 b /\ inu 8 c /\ inu 8 d /\ bytes_ok s.
Proof. unfold bytes_ok. rewrite !Forall_cons. tauto. Qed.

Definition digit_fn (ord : Z -> res Z) (c : Z) : Prop := ord c = Ok (default 0xff (hex_value c)).

Lemma digit_test d c : hex_value c = Some d -> (Z.land d 0xff =? 0xff) = false.
Proof.
  intros Hd%hex_value_range. apply Z.eqb_neq.
  change 255 with (2 ^ 8 - 1). rewrite land_pow2_mod, Z.mod_small by lia. lia.
Qed.

Lemma unhex_loop_spec ord k fuel pre rest ret :
  length rest = (2 * k)%nat -> (k < fuel)%nat -> Z.of_nat (length (pre ++ rest)) < 2 ^ 31 - 4 ->
  Forall (digit_fn ord) rest ->
  unhex_loop fuel ord (pre ++ rest) (Z.of_nat (length pre)) ret =
  Ok (match hex_decode rest with Some r => ret ++ r | None => [] end).
Proof.
  revert fuel pre rest ret. induction k as [|k IH]; intros [|fuel] pre rest ret Hl Hf Hs Ho; try lia;
    cbn [unhex_loop]; rewrite wrapu_id by (unfold inu; rewrite length_app in Hs; lia).
  - destruct rest; [|done]. rewrite app_nil_r, Z.ltb_irrefl. simpl. by rewrite app_nil_r.
  - destruct rest as [|a [|b rest]]; simpl in Hl; try lia.
    rewrite length_app in *. cbn [length] in *.
    apply Forall_cons in Ho as [Ha Ho]. apply Forall_cons in Ho as [Hb Ho].
    destruct (Z.ltb_spec (Z.of_nat (length pre)) (Z.of_nat (length pre + S (S (length rest))))); [|lia].
    rewrite str_at_mid. cbn [mbind res_bind]. rewrite Ha. cbn [mbind res_bind hex_decode option_bind].
    destruct (hex_value a) as [x|] eqn:Ea; [|done]. cbn [default option_bind from_option].
    unfold id. rewrite (digit_test x a) by done.
    rewrite !checked_Ok by (unfold ins; lia). cbn [mbind res_bind].
    rewrite (str_at_next pre [a] b rest 1 eq_refl : str_at (pre ++ a :: b :: rest) _ = _).
    cbn [mbind res_bind]. rewrite Hb. cbn [mbind res_bind].
    destruct (hex_value b) as [y|] eqn:Eb'; [|done]. cbn [default option_bind from_option].
    unfold id. rewrite (digit_test y b) by done.
    replace (pre ++ a :: b :: rest) with ((pre ++ [a; b]) ++ rest) by (by rewrite <-app_assoc).
    replace (Z.of_nat (length pre) + 2) with (Z.of_nat (length (pre ++ [a; b])))
      by (rewrite length_app; simpl; lia).
    rewrite IH; [|lia|lia|rewrite !length_app; simpl; lia|done].
    pose proof (hex_value_range _ _ Ea). pose proof (hex_value_range _ _ Eb').
    rewrite Z.shiftl_mul_pow2, (wrapu_id 8) by (unfold inu; lia).
    destruct (hex_decode rest) as [r|]; [|done]. simpl. rewrite <-app_assoc. simpl.
    do 4 f_equal. lia.
Qed.

Lemma unhex2_loop_spec k fuel pre rest ret :
  length rest = (4 * k)%nat \/ length rest = (4 * k + 2)%nat ->
  (k < fuel)%nat -> 4 <= Z.of_nat (length (pre ++ rest)) < 2 ^ 31 - 4 ->
  bytes_ok rest ->
  unhex2_loop fuel (pre ++ rest) (Z.of_nat (length pre)) ret =
  Ok (r ← hex_decode (take (4 * k) rest); Some (Z.of_nat (length pre + 4 * k), ret ++ r)).
Proof.
  revert fuel pre rest ret. induction k as [|k IH]; intros [|fuel] pre rest ret Hl Hf Hs Ho; try lia;
    cbn [unhex2_loop]; rewrite !wrapu_id by (unfold inu; rewrite length_app in *; lia);
    rewrite length_app in *.
  - destruct (Z.ltb_spec (Z.of_nat (length pre)) (Z.of_nat (length pre + length rest) - 3)); [lia|].
    simpl. by rewrite Nat.add_0_r, app_nil_r.
  - destruct rest as [|a [|b [|c [|d rest]]]]; simpl in Hl; try lia.
    cbn [length] in *. rewrite bytes_ok_cons4 in Ho. destruct Ho as (Ha & Hb & Hc & Hd & Ho).
    destruct (Z.ltb_spec (Z.of_nat (length pre)) (Z.of_nat (length pre + S (S (S (S (length rest))))) - 3)); [|lia].
    rewrite str_at_mid. cbn [mbind res_bind].
    rewrite (str_at_next pre [a] b (c :: d :: rest) 1 eq_refl : str_at (pre ++ a :: b :: c :: d :: rest) _ = _).
    cbn [mbind res_bind].
    rewrite (str_at_next pre [a; b] c (d :: rest) 2 eq_refl : str_at (pre ++ a :: b :: c :: d :: rest) _ = _).
    cbn [mbind res_bind].
    rewrite (str_at_next pre [a; b; c] d rest 3 eq_refl : str_at (pre ++ a :: b :: c :: d :: rest) _ = _).
    cbn [mbind res_bind]. rewrite ord4_digits by done. cbn [mbind res_bind].
    replace (4 * S k)%nat with (S (S (S (S (4 * k))))) by lia. cbn [take hex_decode].
    destruct (hex_value a) as [x|]; [|done]. cbn [mbind option_bind].
    destruct (hex_value b) as [y|]; [|done]. cbn [mbind option_bind].
    destruct (hex_value c) as [z|]; [|done]. cbn [mbind option_bind].
    destruct (hex_value d) as [t|]; [|done]. cbn [mbind option_bind].
    rewrite checked_Ok by (unfold ins; lia). cbn [mbind res_bind].
    replace (pre ++ a :: b :: c :: d :: rest) with ((pre ++ [a; b; c; d]) ++ rest) by (by rewrite <-app_assoc).
    replace (Z.of_nat (length pre) + 4) with (Z.of_nat (length (pre ++ [a; b; c; d])))
      by (rewrite length_app; simpl; lia).
    rewrite IH; [|lia|lia|rewrite !length_app; simpl; lia|done].
    rewrite length_app. cbn [length].
    destruct (hex_decode _) as [r|]; [|done]. simpl. rewrite <-app_assoc. simpl.
    do 3 f_equal. lia.
Qed.

Lemma pair_ind (P : list Z -> Prop) :
  P [] -> (forall a, P [a]) -> (forall a b s, P s -> P (a :: b :: s)) -> forall s, P s.
Proof.
  intros H0 H1 H2. cut (forall s, P s /\ forall a, P (a :: s)); [naive_solver|].
  induction s; naive_solver.
Qed.

Lemma hex_decode_odd s : Z.of_nat (length s) mod 2 = 1 -> hex_decode s = None.
Proof.
  induction s as [|a|a b s IH] using pair_ind; [done|done|]. intros H. cbn [hex_decode].
  rewrite IH by (cbn [length] in H; Z.to_euclidean_division_equations; lia).
  by destruct (hex_value a), (hex_value b).
Qed.

Lemma hex_decode_app p q : Z.of_nat (length p) mod 2 = 0 ->
  hex_decode (p ++ q) = x ← hex_decode p; y ← hex_decode q; Some (x ++ y).
Proof.
  induction p as [|a|a b p IH] using pair_ind; intros H; [|done|].
  - simpl. by destruct (hex_decode q).
  - cbn [app hex_decode]. rewrite IH by (cbn [length] in H; Z.to_euclidean_division_equations; lia).
    destruct (hex_value a), (hex_value b); simpl; try done.
    destruct (hex_decode p); simpl; [|done]. by destruct (hex_decode q).
Qed.

Lemma unhex_shared_spec ord s : Z.of_nat (length s) < 2 ^ 31 - 4 ->
  Z.of_nat (length s) mod 2 <> 1 -> Forall (digit_fn ord) s ->
  unhex_loop (S (length s)) ord s 0 [] = Ok (default [] (hex_decode s)).
Proof.
  intros Hs He Ho.
  assert (exists k, length s = 2 * k)%nat as [k Hk].
  { exists (Z.to_nat (Z.of_nat (length s) / 2)). Z.to_euclidean_division_equations. lia. }
  rewrite (unhex_loop_spec ord k _ [] s []) by (done || lia). by destruct (hex_decode s).
Qed.

Lemma unhex0_spec s : bytes_ok s -> Z.of_nat (length s) < 2 ^ 31 - 4 ->
  unhex0 s = Ok (default [] (hex_decode s)).
Proof.
  intros Hb Hs. unfold unhex0. destruct (Z.eqb_spec (Z.of_nat (length s) mod 2) 1) as [E|E].
  - by rewrite hex_decode_odd.
  - apply unhex_shared_spec; [done|done|]. eapply Forall_impl; [exact Hb|].
    intros c Hc. unfold digit_fn. by rewrite nonsimd_digit.
Qed.

Lemma unhex1_spec s : bytes_ok s -> 0 ∉ s -> Z.of_nat (length s) < 2 ^ 31 - 4 ->
  unhex1 s = Ok (default [] (hex_decode s)).
Proof.
  intros Hb H0 Hs. unfold unhex1. destruct (Z.eqb_spec (Z.of_nat (length s) mod 2) 1) as [E|E].
  - by rewrite hex_decode_odd.
  - apply unhex_shared_spec; [done|done|]. apply Forall_forall. intros c Hc. unfold digit_fn.
    rewrite simd_digit, nonsimd_digit; [done|..|by intros ->];
      by apply (proj1 (Forall_forall _ _) Hb).
Qed.

Lemma unhex2_spec s : bytes_ok s -> 4 <= Z.of_nat (length s) < 2 ^ 31 - 4 ->
  unhex2 s = Ok (default [] (hex_decode s)).
Proof.
  intros Hb Hs. unfold unhex2. destruct (Z.eqb_spec (Z.of_nat (length s) mod 2) 1) as [E|E].
  { by rewrite hex_decode_odd. }
  set (k := Z.to_nat (Z.of_nat (length s) / 4)).
  assert (length s = 4 * k \/ length s = 4 * k + 2)%nat as Hk
    by (unfold k; Z.to_euclidean_division_equations; lia).
  assert (unhex2_loop (S (length s)) s 0 [] = Ok (r ← hex_decode (take (4 * k) s); Some (Z.of_nat (4 * k), r))) as ->
    by (apply (unhex2_loop_spec k (S (length s)) [] s []); done || lia).
  clearbody k. cbn [mbind res_bind].
  assert (Z.of_nat (4 * k) = Z.of_nat (length (take (4 * k) s))) as -> by (rewrite length_take; lia).
  pose proof (take_drop (4 * k) s) as Es. pose proof (length_drop s (4 * k)) as Ld.
  assert (length (take (4 * k) s) = 4 * k)%nat as Lt by (rewrite length_take; lia).
  revert Hb. generalize dependent (drop (4 * k) s). generalize dependent (take (4 * k) s).
  intros p Lp q Ep Lq Hb.
  rewrite <-Ep, hex_decode_app by (Z.to_euclidean_division_equations; lia). rewrite <-Ep in Hk, Hs, Hb.
  rewrite length_app in *. destruct (hex_decode p) as [r|]; [|done]. cbn [option_bind mbind].
  rewrite wrapu_id by (unfold inu; lia).
  destruct Hk as [Hk|Hk]; destruct q as [|a [|b [|]]]; simpl in Hk, Hs; try lia.
  - rewrite Nat.add_0_r, Z.eqb_refl. simpl. by rewrite app_nil_r.
  - destruct (Z.eqb_spec (Z.of_nat (length p)) (Z.of_nat (length p + length [a; b]))) as [C|_]; [simpl in C; lia|].
    apply Forall_app in Hb as [_ Hab]. apply Forall_cons in Hab as [Ha Hab]. apply Forall_cons in Hab as [Hb _].
    rewrite str_at_mid. cbn [mbind res_bind].
    rewrite (str_at_next p [a] b [] 1 eq_refl : str_at (p ++ [a; b]) _ = _). cbn [mbind res_bind].
    rewrite ord4_digits by (done || by unfold inu; lia). simpl.
    destruct (hex_value a) as [x|]; [|done]. by destruct (hex_value b) as [y|].
Qed.

Lemma hex_digit_value v : 0 <= v < 16 -> hex_value (hex_digit v) = Some v.
Proof.
  intros Hv. assert (v ∈ seqZ 0 16) as Hi by (apply elem_of_seqZ; lia). clear Hv. revert v Hi.
  apply Forall_forall. by repeat constructor.
Qed.

Lemma hex_digit_byte v : 0 <= v < 16 -> inu 8 (hex_digit v) /\ hex_digit v <> 0.
Proof. intros Hv. unfold inu, hex_digit. destruct (v <? 10); lia. Qed.

Lemma nibbles b : inu 8 b -> 0 <= b / 16 < 16 /\ 0 <= b mod 16 < 16.
Proof. unfold inu. intros Hb. Z.to_euclidean_division_equations. lia. Qed.

Lemma hex_decode_encode l : bytes_ok l -> hex_decode (hex_encode l) = Some l.
Proof.
  induction 1 as [|b l Hb Hl IH]; [done|]. cbn [hex_encode hex_decode].
  destruct (nibbles b Hb). rewrite !hex_digit_value by done. cbn [mbind option_bind].
  rewrite IH. simpl. do 2 f_equal. Z.to_euclidean_division_equations. lia.
Qed.

Lemma hex_encode_ok l : bytes_ok l ->
  bytes_ok (hex_encode l) /\ (0 ∉ hex_encode l) /\ length (hex_encode l) = (2 * length l)%nat.
Proof.
  induction 1 as [|b l Hb Hl IH].
  - split_and!; [by constructor|by apply not_elem_of_nil|done].
  - cbn [hex_encode].
    destruct (nibbles b Hb) as [[H1 H1']%hex_digit_byte [H2 H2']%hex_digit_byte].
    destruct IH as (I1 & I2 & I3). split_and!.
    + by repeat (constructor; [done|]).
    + rewrite !not_elem_of_cons. auto.
    + cbn [length]. rewrite I3. lia.
Qed.

(** ** Theorems *)

(** On strings of fewer than 2^31 - 4 characters the three versions of
    [unhex] compute the same function, the reference decoder, which gives the
    empty string for every illegal input. The MMX version needs a string
    without NUL characters and the AVX2 version one of at least four. *)
Theorem unhex_agree s : bytes_ok s -> Z.of_nat (length s) < 2 ^ 31 - 4 ->
  unhex0 s = Ok (default [] (hex_decode s)) /\
  (0 ∉ s -> unhex1 s = Ok (default [] (hex_decode s))) /\
  (4 <= Z.of_nat (length s) -> unhex2 s = Ok (default [] (hex_decode s))).
Proof. intros Hb Hs. split_and!; intros; [apply unhex0_spec|apply unhex1_spec|apply unhex2_spec]; done. Qed.

(** [unhex] inverts the encoder: every byte string comes back from its
    hexadecimal form in each version. *)
Theorem unhex_roundtrip l : bytes_ok l -> 2 <= Z.of_nat (length l) < 2 ^ 30 - 4 ->
  unhex0 (hex_encode l) = Ok l /\ unhex1 (hex_encode l) = Ok l /\ unhex2 (hex_encode l) = Ok l.
Proof.
  intros Hb Hl. destruct (hex_encode_ok l Hb) as (E1 & E2 & E3).
  rewrite unhex0_spec, unhex1_spec, unhex2_spec by (done || lia).
  by rewrite hex_decode_encode.
Qed.

(** Outside those domains the optimised versions go wrong. The bound
    [sz - 3] of [unhex2] wraps for the empty string and for a single pair of
    digits, so the loop indexes past the end of the string; and the digit
    function of [unhex1] asks for the leading zeros of 0 on a NUL character. *)
Theorem unhex_edge_cases :
  (forall s, length s = 0%nat \/ length s = 2%nat -> unhex2 s = Err EBounds) /\
  hexdigit_ord 0 = Err EUndef /\ unhex1 [0; 0] = Err EUndef /\ unhex0 [0; 0] = Ok [].
Proof.
  split; [|by vm_compute].
  intros [|a [|b [|]]]; simpl; intros [H|H]; try lia; reflexivity.
Qed.

Lemma unhex_agree_witness :
  unhex0 [52; 49; 102; 70] = Ok [65; 255] /\ unhex1 [52; 49; 102; 70] = Ok [65; 255] /\
  unhex2 [52; 49; 102; 70] = Ok [65; 255].
Proof.
  destruct (unhex_agree [52; 49; 102; 70]) as (H0 & H1 & H2).
  - by repeat constructor.
  - done.
  - split; [exact H0|]. split.
    + apply H1. apply (bool_decide_unpack _). vm_compute. exact I.
    + by apply H2.
Defined.

Lemma unhex_roundtrip_witness : unhex2 (hex_encode [65; 255; 0]) = Ok [65; 255; 0].
Proof.
  apply (unhex_roundtrip [65; 255; 0]).
  - by repeat constructor.
  - done.
Defined.
