(* ===== verification/MemEqual.v ===== *)
(** * Byte comparison: src/include/memequal.hh

    [mem_equal_optimized] compares 16 bytes at a time and the rest by a switch
    with wide loads; [mem_equal_memcpy] calls [memcmp]. A pointer is a buffer
    and an offset; each load is checked against the buffer, so the theorem also
    says that no byte outside the two arrays is read. The loads of the switch,
    through pointers cast to wider types, are undefined at misaligned addresses
    by the language; whether the target allows them is a parameter. *)

From S2P Require Import Prelude.
From S2P Require Import Simd.

(** [unaligned]: the target allows misaligned scalar loads; [a1] and [a2] are
    the addresses of the two arrays *)
Section compare.
Context (unaligned : bool) (a1 a2 : Z).

(** a load through a pointer to an integer of [n] bytes, at the offset [p] of an
    array at the address [a] *)
Definition load_scalar (n : nat) (a : Z) (b : list Z) (p : Z) : res vec :=
  if unaligned || ((a + p) mod Z.of_nat n =? 0) then loadu n b p else Err EAlign.

(** [p1[k] != p2[k]] *)
Definition byte_ne (b1 b2 : list Z) (p1 p2 k : Z) : res bool :=
  x ← rd b1 (p1 + k); y ← rd b2 (p2 + k); Ok (negb (x =? y)).

(** the [n]-byte words at index [k] (in words) are equal *)
Definition word_eq (n : nat) (b1 b2 : list Z) (p1 p2 k : Z) : res bool :=
  x ← load_scalar n a1 b1 (p1 + k * Z.of_nat n); y ← load_scalar n a2 b2 (p2 + k * Z.of_nat n);
  Ok (le_val x =? le_val y).

(** a case of the switch that compares one byte and falls through to [next] *)
Definition byte_case (b1 b2 : list Z) (p1 p2 k : Z) (next : res bool) : res bool :=
  d ← byte_ne b1 b2 p1 p2 k; if (d : bool) then Ok false else next.

Definition mem_equal_tail (b1 b2 : list Z) (p1 p2 : Z) (r : Z) : res bool :=
  let case := byte_case b1 b2 p1 p2 in
  let case0 := Ok true in
  let case1 := case 0 case0 in
  let case2 := word_eq 2 b1 b2 p1 p2 0 in
  let case3 := case 2 case2 in
  let case4 := word_eq 4 b1 b2 p1 p2 0 in
  let case5 := case 4 case4 in
  let case6 := case 5 case5 in
  let case7 := case 6 case6 in
  let case8 := word_eq 8 b1 b2 p1 p2 0 in
  let case9 := case 8 case8 in
  let case10 := case 9 case9 in
  let case11 := case 10 case10 in
  let case12 := e ← word_eq 4 b1 b2 p1 p2 2; if (e : bool) then case8 else Ok false in
  let case13 := case 12 case12 in
  let case14 := case 13 case13 in
  let case15 := case 14 case14 in
  match Z.to_nat r with
  | 15 => case15 | 14 => case14 | 13 => case13 | 12 => case12 | 11 => case11
  | 10 => case10 | 9 => case9 | 8 => case8 | 7 => case7 | 6 => case6 | 5 => case5
  | 4 => case4 | 3 => case3 | 2 => case2 | 1 => case1 | _ => case0
  end%nat.

(** the vector loop: the pointers after it, or [None] for [return false] *)
Fixpoint mem_equal_loop (fuel : nat) (b1 b2 : list Z) (p1 p2 p1_end_16 : Z) : res (option (Z * Z)) :=
  match fuel with
  | O => Err EFuel
  | S fuel =>
      if p1 <? p1_end_16 then
        x ← loadu 16 b1 p1; y ← loadu 16 b2 p2;
        if negb (testc_si (replicate 16 0) (xor_si x y)) then Ok None
        else mem_equal_loop fuel b1 b2 (p1 + 16) (p2 + 16) p1_end_16
      else Ok (Some (p1, p2))
  end.

Definition mem_equal_optimized (b1 : list Z) (size1 : Z) (b2 : list Z) (size2 : Z) : res bool :=
  if negb (size1 =? size2) then Ok false
  else if size1 =? 0 then Ok true
  else
    let p1_end_16 := size1 / 16 * 16 in
    r ← mem_equal_loop (S (Z.to_nat (size1 / 16))) b1 b2 0 0 p1_end_16;
    match r with
    | None => Ok false
    | Some (p1, p2) => mem_equal_tail b1 b2 p1 p2 (size1 mod 16)
    end.
End compare.

Definition mem_equal_memcpy (b1 : list Z) (size1 : Z) (b2 : list Z) (size2 : Z) : bool :=
  (size1 =? size2) && (memcmp (Z.to_nat size1) b1 b2 =? 0).

(** ** Alignment *)

(** the loads of the switch are allowed *)
Definition loads_allowed (unaligned : bool) (a1 a2 : Z) : Prop := unaligned = true \/ a1 mod 8 = 0 /\ a2 mod 8 = 0.

Lemma load_scalar_allowed unaligned n w a b p : unaligned = true \/ a mod 8 = 0 -> 8 = Z.of_nat n * w -> p mod Z.of_nat n = 0 ->
  (0 < n)%nat -> load_scalar unaligned n a b p = loadu n b p.
Proof.
  intros Ha Hn Hp H0. unfold load_scalar. destruct Ha as [->|Ha]; [done|].
  assert ((a + p) mod Z.of_nat n = 0) as E; [|by rewrite E, orb_true_r].
  apply Z.mod_divide in Ha; [|lia]. apply Z.mod_divide in Hp; [|lia]. apply Z.mod_divide; [lia|].
  apply Z.divide_add_r; [|done]. etransitivity; [|exact Ha]. exists w. lia.
Qed.

Lemma word_eq_allowed unaligned a1 a2 n w b1 b2 p1 p2 k : loads_allowed unaligned a1 a2 -> 8 = Z.of_nat n * w -> (0 < n)%nat ->
  p1 mod 8 = 0 -> p2 mod 8 = 0 -> word_eq unaligned a1 a2 n b1 b2 p1 p2 k = word_eq true 0 0 n b1 b2 p1 p2 k.
Proof.
  intros Ha Hn H0 H1 H2. unfold word_eq.
  assert (forall p, p mod 8 = 0 -> (p + k * Z.of_nat n) mod Z.of_nat n = 0) as Hp.
  { intros p Hp. rewrite Z.mod_add by lia. apply Z.mod_divide; [lia|]. apply Z.mod_divide in Hp; [|lia].
    etransitivity; [|exact Hp]. exists w. lia. }
  rewrite !(load_scalar_allowed unaligned n w) by (done || by apply Hp || by destruct Ha as [|[]]; [left|right]).
  by rewrite !(load_scalar_allowed true n w) by (done || by apply Hp || by left).
Qed.

Lemma tail_allowed unaligned a1 a2 b1 b2 p1 p2 r : loads_allowed unaligned a1 a2 -> p1 mod 8 = 0 -> p2 mod 8 = 0 ->
  mem_equal_tail unaligned a1 a2 b1 b2 p1 p2 r = mem_equal_tail true 0 0 b1 b2 p1 p2 r.
Proof.
  intros Ha H1 H2. unfold mem_equal_tail.
  rewrite !(word_eq_allowed unaligned a1 a2 2 4), !(word_eq_allowed unaligned a1 a2 4 2),
    !(word_eq_allowed unaligned a1 a2 8 1) by (done || lia). done.
Qed.

(** ** The switch *)

Lemma rd_shift {A} (pre t : list A) k : 0 <= k -> rd (pre ++ t) (Z.of_nat (length pre) + k) = rd t k.
Proof.
  intros Hk. unfold rd. destruct (Z.leb_spec 0 (Z.of_nat (length pre) + k)); [|lia].
  destruct (Z.leb_spec 0 k); [|lia].
  replace (Z.to_nat (Z.of_nat (length pre) + k)) with (length pre + Z.to_nat k)%nat by lia.
  rewrite lookup_app_r by lia. do 2 f_equal. lia.
Qed.

Lemma loadu_shift n pre t k : 0 <= k -> loadu n (pre ++ t) (Z.of_nat (length pre) + k) = loadu n t k.
Proof.
  intros Hk. unfold loadu. rewrite length_app.
  destruct (Z.leb_spec 0 (Z.of_nat (length pre) + k)), (Z.leb_spec 0 k); try lia.
  replace (Z.to_nat (Z.of_nat (length pre) + k)) with (length pre + Z.to_nat k)%nat by lia.
  rewrite drop_app, drop_ge by lia.
  replace (length pre + Z.to_nat k - length pre)%nat with (Z.to_nat k) by lia. simpl.
  destruct (Z.leb_spec (Z.of_nat (length pre) + k + Z.of_nat n) (Z.of_nat (length pre + length t))),
    (Z.leb_spec (k + Z.of_nat n) (Z.of_nat (length t))); try done; lia.
Qed.

Lemma word_eq_spec x y : bytes_ok x -> bytes_ok y -> length x = length y ->
  (le_val x =? le_val y) = bool_decide (x = y).
Proof.
  intros Hx Hy L. apply eq_bool_prop_intro. rewrite bool_decide_spec, Is_true_true, Z.eqb_eq.
  split; [by apply le_val_inj|by intros ->].
Qed.

(** the pointers into [pre ++ t] at [t] *)
Lemma mem_equal_tail_shift pre1 pre2 t1 t2 r :
  mem_equal_tail true 0 0 (pre1 ++ t1) (pre2 ++ t2) (Z.of_nat (length pre1)) (Z.of_nat (length pre2)) r =
  mem_equal_tail true 0 0 t1 t2 0 0 r.
Proof.
  unfold mem_equal_tail, byte_case, byte_ne, word_eq, load_scalar. cbn [orb].
  rewrite !rd_shift, !loadu_shift by lia. done.
Qed.

Lemma byte_case_spec t1 t2 k next x y : t1 !! Z.to_nat k = Some x -> t2 !! Z.to_nat k = Some y -> 0 <= k ->
  byte_case t1 t2 0 0 k next = if x =? y then next else Ok false.
Proof.
  intros E1 E2 Hk. unfold byte_case, byte_ne. rewrite !Z.add_0_l.
  rewrite (rd_Some t1 k x), (rd_Some t2 k y) by done. simpl. by destruct (x =? y).
Qed.

Lemma word_eq_at n t1 t2 k : bytes_ok t1 -> bytes_ok t2 -> 0 <= k ->
  (k + 1) * Z.of_nat n <= Z.of_nat (length t1) -> (k + 1) * Z.of_nat n <= Z.of_nat (length t2) ->
  word_eq true 0 0 n t1 t2 0 0 k =
  Ok (bool_decide (take n (drop (Z.to_nat (k * Z.of_nat n)) t1) = take n (drop (Z.to_nat (k * Z.of_nat n)) t2))).
Proof.
  intros H1 H2 Hk L1 L2. unfold word_eq, load_scalar. cbn [orb]. rewrite !Z.add_0_l, !loadu_Ok by lia. cbn [mbind res_bind].
  f_equal. apply word_eq_spec.
  - by apply Forall_take, Forall_drop.
  - by apply Forall_take, Forall_drop.
  - rewrite !length_take, !length_drop. lia.
Qed.

(** the comparisons of a case together decide the equality of the tails *)
Ltac decide_tail :=
  repeat match goal with |- context [?x =? ?y] => destruct (Z.eqb_spec x y); [subst|] end;
  repeat case_bool_decide; (done || (f_equal; congruence) || (exfalso; simpl in *; congruence)).

Lemma mem_equal_tail_spec n t1 t2 : bytes_ok t1 -> bytes_ok t2 ->
  length t1 = n -> length t2 = n -> (n < 16)%nat ->
  mem_equal_tail true 0 0 t1 t2 0 0 (Z.of_nat n) = Ok (bool_decide (t1 = t2)).
Proof.
  intros H1 H2 L1 L2 Hn. unfold mem_equal_tail. rewrite Nat2Z.id.
  destruct n as [|[|[|[|[|[|[|[|[|[|[|[|[|[|[|[|n]]]]]]]]]]]]]]]]; [..|lia]; clear Hn; cbv beta iota zeta;
    explode_lists; [done|..].
  all: rewrite ?word_eq_at by (done || (cbn [length]; lia)).
  all: repeat (erewrite byte_case_spec; [|reflexivity|reflexivity|done]).
  all: cbn [mbind res_bind]; decide_tail.
Qed.

(** ** The vector loop *)

Lemma vector_test x y : length x = 16%nat -> length y = 16%nat ->
  testc_si (replicate 16 0) (xor_si x y) = bool_decide (x = y).
Proof.
  intros Hx Hy. assert (16%nat = length (xor_si x y)) as E
    by (unfold xor_si; rewrite length_zip_with; lia).
  rewrite E, testc_zero. apply xor_si_zero. lia.
Qed.

Lemma mem_equal_loop_spec k fuel pre1 pre2 m1 m2 t1 t2 :
  length pre1 = length pre2 -> length m1 = (16 * k)%nat -> length m2 = (16 * k)%nat -> (k < fuel)%nat ->
  mem_equal_loop fuel (pre1 ++ m1 ++ t1) (pre2 ++ m2 ++ t2) (Z.of_nat (length pre1)) (Z.of_nat (length pre2))
    (Z.of_nat (length pre1 + 16 * k)) =
  Ok (if bool_decide (m1 = m2)
      then Some (Z.of_nat (length (pre1 ++ m1)), Z.of_nat (length (pre2 ++ m2))) else None).
Proof.
  revert fuel pre1 pre2 m1 m2. induction k as [|k IH]; intros [|fuel] pre1 pre2 m1 m2 Hp H1 H2 Hf; try lia;
    cbn [mem_equal_loop].
  - rewrite Nat.mul_0_r in H1, H2. apply nil_length_inv in H1 as ->, H2 as ->.
    rewrite Nat.mul_0_r, Nat.add_0_r, Z.ltb_irrefl, !app_nil_r. by rewrite bool_decide_true.
  - destruct (Z.ltb_spec (Z.of_nat (length pre1)) (Z.of_nat (length pre1 + 16 * S k))); [|lia].
    destruct (list_split 16 (16 * k) m1) as (x & m1' & -> & X1 & L1); [lia|].
    destruct (list_split 16 (16 * k) m2) as (y & m2' & -> & X2 & L2); [lia|].
    rewrite <-!app_assoc, !loadu_mid by done. cbn [mbind res_bind].
    rewrite vector_test by done. case_bool_decide as E; cbn [negb].
    + subst y. replace (Z.of_nat (length pre1) + 16) with (Z.of_nat (length (pre1 ++ x))) by (rewrite length_app; lia).
      replace (Z.of_nat (length pre2) + 16) with (Z.of_nat (length (pre2 ++ x))) by (rewrite length_app; lia).
      replace (length pre1 + 16 * S k)%nat with (length (pre1 ++ x) + 16 * k)%nat by (rewrite length_app; lia).
      rewrite (app_assoc pre1), (app_assoc pre2).
      rewrite (IH fuel (pre1 ++ x) (pre2 ++ x)) by (rewrite ?length_app; lia).
      rewrite !app_assoc. f_equal. repeat case_bool_decide; simplify_eq; done.
    + rewrite bool_decide_false; [done|]. intros []%app_inj_1; congruence.
Qed.

Lemma mem_equal_optimized_spec unaligned a1 a2 b1 b2 : loads_allowed unaligned a1 a2 -> bytes_ok b1 -> bytes_ok b2 ->
  mem_equal_optimized unaligned a1 a2 b1 (Z.of_nat (length b1)) b2 (Z.of_nat (length b2)) = Ok (bool_decide (b1 = b2)).
Proof.
  intros Hal H1 H2. unfold mem_equal_optimized.
  destruct (Z.eqb_spec (Z.of_nat (length b1)) (Z.of_nat (length b2))) as [L|L]; cbn [negb].
  2: { rewrite bool_decide_false; [done|]. by intros ->. }
  destruct (Z.eqb_spec (Z.of_nat (length b1)) 0) as [L0|L0].
  { assert (length b1 = 0%nat) as ->%nil_length_inv by lia.
    assert (length b2 = 0%nat) as ->%nil_length_inv by (simpl in L; lia). done. }
  set (k := Z.to_nat (Z.of_nat (length b1) / 16)).
  set (r := Z.to_nat (Z.of_nat (length b1) mod 16)).
  assert (length b1 = 16 * k + r /\ r < 16)%nat as [Lk Lr].
  { unfold k, r. Z.to_euclidean_division_equations. lia. }
  replace (Z.of_nat (length b1) / 16 * 16) with (Z.of_nat (length ([] : list Z) + 16 * k))
    by (unfold k; simpl; Z.to_euclidean_division_equations; lia).
  replace (Z.of_nat (length b1) mod 16) with (Z.of_nat r)
    by (unfold r; Z.to_euclidean_division_equations; lia).
  clearbody k r.
  destruct (list_split (16 * k) r b1) as (m1 & t1 & -> & M1 & T1); [lia|].
  destruct (list_split (16 * k) r b2) as (m2 & t2 & -> & M2 & T2); [lia|].
  apply Forall_app in H1 as [_ H1]. apply Forall_app in H2 as [_ H2].
  rewrite (mem_equal_loop_spec k (S k) [] [] m1 m2 t1 t2 eq_refl M1 M2 (Nat.lt_succ_diag_r k)
             : mem_equal_loop _ (m1 ++ t1) (m2 ++ t2) 0 0 _ = _).
  cbn [mbind res_bind app]. case_bool_decide as E.
  - subst m2. rewrite tail_allowed by (done || (rewrite M1; apply Z.mod_divide; [lia|]; exists (2 * Z.of_nat k); lia)).
    rewrite mem_equal_tail_shift, (mem_equal_tail_spec r) by done.
    f_equal. apply bool_decide_ext. split; [by intros ->|by intros ?%(inj _)].
  - rewrite bool_decide_false; [done|]. intros []%app_inj_1; [done|lia].
Qed.

(** C35: on two arrays of bytes the optimised comparison returns whether they
    are equal, exactly as the [memcmp] version does, and reads no byte outside
    them: every load, the 16-byte ones and those of the tail switch included,
    stays within the given sizes. The target allows misaligned scalar loads, or
    both arrays start at multiples of 8. *)
Theorem mem_equal_correct unaligned a1 a2 b1 b2 : loads_allowed unaligned a1 a2 -> bytes_ok b1 -> bytes_ok b2 ->
  mem_equal_optimized unaligned a1 a2 b1 (Z.of_nat (length b1)) b2 (Z.of_nat (length b2)) = Ok (bool_decide (b1 = b2)) /\
  mem_equal_memcpy b1 (Z.of_nat (length b1)) b2 (Z.of_nat (length b2)) = bool_decide (b1 = b2).
Proof.
  intros Hal H1 H2. split; [by apply mem_equal_optimized_spec|].
  unfold mem_equal_memcpy. rewrite Nat2Z.id.
  destruct (Z.eqb_spec (Z.of_nat (length b1)) (Z.of_nat (length b2))) as [L|L]; cbn [andb].
  - apply eq_bool_prop_intro. rewrite bool_decide_spec, Is_true_true, Z.eqb_eq, memcmp_eq by lia.
    by rewrite !take_ge by lia.
  - rewrite bool_decide_false; [done|]. by intros ->.
Qed.

Lemma mem_equal_correct_witness :
  mem_equal_optimized true 1 4 [1; 2; 3] 3 [1; 2; 4] 3 = Ok false /\
  mem_equal_optimized false 16 8 [1; 2; 3] 3 [1; 2; 4] 3 = Ok false /\ mem_equal_memcpy [1; 2; 3] 3 [1; 2; 4] 3 = false.
Proof.
  split; [|split].
  - apply (mem_equal_correct true 1 4 [1; 2; 3] [1; 2; 4]); [by left|by repeat constructor..].
  - apply (mem_equal_correct false 16 8 [1; 2; 3] [1; 2; 4]); [by right|by repeat constructor..].
  - apply (mem_equal_correct true 1 4 [1; 2; 3] [1; 2; 4]); [by left|by repeat constructor..].
Defined.
