(* ===== verification/Reverse.v ===== *)
(** * String reversal: src/include/reverse.hh

    [ascii_reverse] reverses bytes, 8 or 16 at a time with a byte shuffle and
    the rest one by one; [utf8_reverse_per_slice] reverses the order of the
    characters and keeps the bytes of each. Source and destination are
    buffers; [p] and [q] are offsets; every load and store is checked. *)

From S2P Require Import Prelude.
From S2P Require Import Simd.

Definition UTF8_BYTE_LENGTH_TABLE : list Z :=
  replicate 128 1 ++ replicate 64 1 ++ replicate 32 2 ++ replicate 16 3 ++
  replicate 8 4 ++ replicate 8 1.

Fixpoint utf8_reverse_loop (fuel : nat) (src : list Z) (p : Z) (dst : list Z) (q : Z) : res (list Z) :=
  match fuel with
  | O => Err EFuel
  | S fuel =>
      if p <? Z.of_nat (length src) then
        c ← rd src p;
        char_size ← rd UTF8_BYTE_LENGTH_TABLE c;
        let q := q - char_size in
        x ← loadu (Z.to_nat char_size) src p;
        dst ← storeu dst q x;
        utf8_reverse_loop fuel src (p + char_size) dst q
      else Ok dst
  end.

Definition utf8_reverse_per_slice (src dst : list Z) : res (list Z) :=
  utf8_reverse_loop (S (length src)) src 0 dst (Z.of_nat (length src)).

(** the shuffle controls, lane 0 first *)
Definition ctrl_masks8 : vec := [7; 6; 5; 4; 3; 2; 1; 0].
Definition ctrl_masks16 : vec := [15; 14; 13; 12; 11; 10; 9; 8; 7; 6; 5; 4; 3; 2; 1; 0].

(** both vector loops; [ctrl] has one control byte per lane *)
Fixpoint reverse_simd_loop (fuel : nat) (ctrl : vec) (src : list Z) (p simd_end : Z) (dst : list Z) (q : Z) :
    res (Z * list Z * Z) :=
  match fuel with
  | O => Err EFuel
  | S fuel =>
      if p <? simd_end then
        let q := q - Z.of_nat (length ctrl) in
        x ← loadu (length ctrl) src p;
        dst ← storeu dst q (shuffle_epi8 x ctrl);
        reverse_simd_loop fuel ctrl src (p + Z.of_nat (length ctrl)) simd_end dst q
      else Ok (p, dst, q)
  end.

Fixpoint reverse_tail (fuel : nat) (src : list Z) (p : Z) (dst : list Z) (q : Z) : res (list Z) :=
  match fuel with
  | O => Err EFuel
  | S fuel =>
      if p <? Z.of_nat (length src) then
        let q := q - 1 in
        c ← rd src p;
        dst ← wr dst q c;
        reverse_tail fuel src (p + 1) dst q
      else Ok dst
  end.

Definition ascii_reverse (is_epi8 : bool) (src dst : list Z) : res (list Z) :=
  let size := Z.of_nat (length src) in
  let ctrl := if is_epi8 then ctrl_masks8 else ctrl_masks16 in
  let simd_end := Z.land size (Z.lnot (Z.of_nat (length ctrl) - 1)) in
  '(p, dst, q) ← reverse_simd_loop (S (length src)) ctrl src 0 simd_end dst size;
  reverse_tail (S (length src)) src p dst q.

(** ** Byte reversal *)

Definition reverses (ctrl : vec) : Prop :=
  (0 < length ctrl)%nat /\ forall x, length x = length ctrl -> shuffle_epi8 x ctrl = reverse x.

Lemma reverses8 : reverses ctrl_masks8.
Proof. split; [simpl; lia|]. intros x H. simpl in H. explode_lists. done. Qed.

Lemma reverses16 : reverses ctrl_masks16.
Proof. split; [simpl; lia|]. intros x H. simpl in H. explode_lists. done. Qed.

Lemma reverse_simd_loop_spec ctrl k fuel pre m t d0 d tail : reverses ctrl ->
  length m = (length ctrl * k)%nat -> length d = length m -> (k < fuel)%nat ->
  reverse_simd_loop fuel ctrl (pre ++ m ++ t) (Z.of_nat (length pre)) (Z.of_nat (length (pre ++ m)))
    (d0 ++ d ++ tail) (Z.of_nat (length (d0 ++ d))) =
  Ok (Z.of_nat (length (pre ++ m)), d0 ++ reverse m ++ tail, Z.of_nat (length d0)).
Proof.
  intros [Hn Hc]. revert fuel pre m d tail. induction k as [|k IH]; intros [|fuel] pre m d tail Lm Ld Hf; try lia;
    cbn [reverse_simd_loop].
  - rewrite Nat.mul_0_r in Lm. apply nil_length_inv in Lm as ->. apply nil_length_inv in Ld as ->.
    by rewrite !app_nil_r, Z.ltb_irrefl.
  - destruct (list_split (length ctrl) (length ctrl * k) m) as (x & m' & -> & X & L1); [lia|].
    destruct (list_split (length ctrl * k) (length ctrl) d) as (d' & y & -> & L2 & Y); [lia|].
    destruct (Z.ltb_spec (Z.of_nat (length pre)) (Z.of_nat (length (pre ++ x ++ m'))));
      [|rewrite !length_app in *; lia].
    rewrite <-(app_assoc x), loadu_mid by done. cbn [mbind res_bind]. rewrite Hc by done.
    replace (d0 ++ (d' ++ y) ++ tail) with ((d0 ++ d') ++ y ++ tail) by (by rewrite <-!app_assoc).
    replace (Z.of_nat (length (d0 ++ d' ++ y)) - Z.of_nat (length ctrl)) with (Z.of_nat (length (d0 ++ d')))
      by (rewrite !length_app; lia).
    rewrite storeu_mid by (rewrite length_reverse; lia). cbn [mbind res_bind].
    replace (Z.of_nat (length pre) + Z.of_nat (length ctrl)) with (Z.of_nat (length (pre ++ x)))
      by (rewrite length_app; lia).
    rewrite (app_assoc pre x m'), (app_assoc pre x (m' ++ t)), <-(app_assoc d0 d').
    rewrite IH by (rewrite ?length_app; lia).
    by rewrite reverse_app, <-!app_assoc.
Qed.

Lemma reverse_tail_spec fuel pre m d tail : length d = length m -> (length m < fuel)%nat ->
  reverse_tail fuel (pre ++ m) (Z.of_nat (length pre)) (d ++ tail) (Z.of_nat (length d)) = Ok (reverse m ++ tail).
Proof.
  revert fuel pre d tail. induction m as [|x m IH]; intros [|fuel] pre d tail Ld Hf; simpl in *; try lia.
  - apply nil_length_inv in Ld as ->. rewrite app_nil_r, Z.ltb_irrefl. done.
  - destruct (list_split (length m) 1 d) as (d' & y & -> & L2 & Y); [lia|]. explode_lists.
    destruct (Z.ltb_spec (Z.of_nat (length pre)) (Z.of_nat (length (pre ++ x :: m))));
      [|rewrite length_app in *; simpl in *; lia].
    erewrite rd_nat by (by rewrite list_lookup_middle). cbn [mbind res_bind].
    replace (Z.of_nat (length (d' ++ [z])) - 1) with (Z.of_nat (length d')) by (rewrite length_app; simpl; lia).
    rewrite wr_Ok by (rewrite !length_app; simpl; lia). cbn [mbind res_bind].
    rewrite Nat2Z.id, <-app_assoc, (insert_app_r_alt d'), Nat.sub_diag by lia. cbn [app].
    replace (pre ++ x :: m) with ((pre ++ [x]) ++ m) by (by rewrite <-app_assoc).
    replace (Z.of_nat (length pre) + 1) with (Z.of_nat (length (pre ++ [x]))) by (rewrite length_app; simpl; lia).
    change (<[0%nat:=x]> (z :: tail)) with (x :: tail). rewrite IH by lia.
    by rewrite reverse_cons, <-app_assoc.
Qed.

Lemma ascii_reverse_spec is_epi8 src dst : length dst = length src ->
  ascii_reverse is_epi8 src dst = Ok (reverse src).
Proof.
  intros L. unfold ascii_reverse. set (ctrl := if is_epi8 then ctrl_masks8 else ctrl_masks16).
  assert (exists w, 0 <= w /\ Z.of_nat (length ctrl) = 2 ^ w) as (w & Hw & E).
  { unfold ctrl. destruct is_epi8; [by exists 3|by exists 4]. }
  assert (reverses ctrl) as HR by (unfold ctrl; destruct is_epi8; [apply reverses8|apply reverses16]).
  clearbody ctrl. rewrite E, round_down by done. rewrite <-E. pose proof HR as [Hn _].
  set (n := length ctrl) in *.
  set (k := (length src / n)%nat).
  pose proof (Nat.div_mod_eq (length src) n) as Hd. fold k in Hd.
  pose proof (Nat.mod_upper_bound (length src) n ltac:(lia)) as Hr.
  destruct (list_split (n * k) (length src mod n) src) as (m & t & Es & Lm & Lt); [lia|].
  destruct (list_split (length src mod n) (n * k) dst) as (d0 & d & -> & L0 & Ld); [lia|].
  replace (Z.of_nat (length src) / Z.of_nat n * Z.of_nat n) with (Z.of_nat (length m))
    by (rewrite Lm; unfold k; rewrite <-Nat2Z.inj_div; lia).
  pose proof (reverse_simd_loop_spec ctrl k (S (length src)) [] m t d0 d [] HR) as Hs.
  rewrite !app_nil_r in Hs. cbn [app length] in Hs. rewrite <-Es, L in Hs. change (Z.of_nat 0) with 0 in Hs.
  rewrite Hs; [|done|lia|]; cycle 1.
  { assert (k * 1 <= k * n)%nat by (apply Nat.mul_le_mono_l; lia). lia. }
  cbn [mbind res_bind]. rewrite Es. rewrite (reverse_tail_spec _ m t d0) by (rewrite ?length_app; lia).
  by rewrite reverse_app.
Qed.

(** ** Characters *)

(** the length in bytes of the character a byte starts *)
Definition utf8_len (b : Z) : nat :=
  match UTF8_BYTE_LENGTH_TABLE !! Z.to_nat b with Some n => Z.to_nat n | None => 1%nat end.

Lemma table_len b : inu 8 b -> rd UTF8_BYTE_LENGTH_TABLE b = Ok (Z.of_nat (utf8_len b)) /\ (0 < utf8_len b)%nat.
Proof.
  intros Hb. apply (bool_decide_eq_true_1 _). revert b Hb.
  apply (byte_cases (fun b => bool_decide (rd UTF8_BYTE_LENGTH_TABLE b = Ok (Z.of_nat (utf8_len b)) /\ (0 < utf8_len b)%nat))).
  vm_compute. reflexivity.
Qed.

(** the characters of a string, [None] if the last one is cut short *)
Fixpoint utf8_split (fuel : nat) (s : list Z) : option (list (list Z)) :=
  match fuel, s with
  | S fuel, b :: _ =>
      if (utf8_len b <=? length s)%nat
      then cs ← utf8_split fuel (drop (utf8_len b) s); Some (take (utf8_len b) s :: cs)
      else None
  | _, _ => Some []
  end.
Definition utf8_chars (s : list Z) : option (list (list Z)) := utf8_split (length s) s.

Definition is_char (c : list Z) : Prop :=
  match c with b :: _ => inu 8 b /\ utf8_len b = length c | [] => False end.

Lemma utf8_split_spec fuel s cs : bytes_ok s -> (length s <= fuel)%nat ->
  utf8_split fuel s = Some cs -> mjoin cs = s /\ Forall is_char cs.
Proof.
  revert s cs. induction fuel as [|fuel IH]; intros [|b s] cs Hb Hf; simpl.
  - by intros [= <-].
  - simpl in Hf. lia.
  - by intros [= <-].
  - destruct (Nat.leb_spec (utf8_len b) (S (length s))) as [Hl|]; [|done].
    pose proof (Forall_inv Hb) as Hb1. destruct (table_len b Hb1) as [_ Hp].
    destruct (utf8_split fuel _) as [cs'|] eqn:E; simpl; [|done]. intros [= <-].
    apply IH in E as [E1 E2]; [|by apply Forall_drop|rewrite length_drop; simpl in *; lia].
    split.
    + simpl. rewrite E1. apply take_drop.
    + constructor; [|done]. destruct (utf8_len b) as [|n] eqn:En; [lia|]. simpl.
      rewrite En, length_take. split; [done|]. lia.
Qed.

Lemma utf8_split_chars fuel cs : (length (mjoin cs) <= fuel)%nat -> Forall is_char cs ->
  utf8_split fuel (mjoin cs) = Some cs.
Proof.
  revert fuel. induction cs as [|[|b c] cs IH]; intros fuel Hf Hc; [by destruct fuel| |];
    apply Forall_cons in Hc as [Hc Hcs]; [done|]. destruct Hc as [_ Hl].
  simpl in *. rewrite length_app in Hf. destruct fuel as [|fuel]; [lia|]. simpl.
  rewrite length_app, Hl. cbn [Nat.leb length drop take].
  rewrite (proj2 (Nat.leb_le (length c) (length c + length (mjoin cs)))) by lia.
  by rewrite drop_app_length, IH, take_app_length by (done || lia).
Qed.

Lemma utf8_reverse_loop_spec fuel pre s d tail : bytes_ok s -> (length s < fuel)%nat -> length d = length s ->
  utf8_reverse_loop fuel (pre ++ s) (Z.of_nat (length pre)) (d ++ tail) (Z.of_nat (length d)) =
  match utf8_split (pred fuel) s with
  | Some cs => Ok (mjoin (reverse cs) ++ tail)
  | None => Err EBounds
  end.
Proof.
  revert pre s d tail. induction fuel as [|fuel IH]; intros pre s d tail Hb Hf Ld; [lia|].
  cbn [utf8_reverse_loop pred]. destruct s as [|b s].
  { apply nil_length_inv in Ld as ->. rewrite app_nil_r, Z.ltb_irrefl. by destruct fuel. }
  destruct (Z.ltb_spec (Z.of_nat (length pre)) (Z.of_nat (length (pre ++ b :: s))));
    [|rewrite length_app in *; simpl in *; lia].
  erewrite rd_nat by (by rewrite list_lookup_middle). cbn [mbind res_bind].
  pose proof (Forall_inv Hb) as Hb1. destruct (table_len b Hb1) as [-> Hp]. cbn [mbind res_bind].
  destruct fuel as [|fuel]; [simpl in Hf; lia|]. cbn [utf8_split]. rewrite Nat2Z.id.
  destruct (Nat.leb_spec (utf8_len b) (length (b :: s))) as [Hl|Hl].
  - set (n := utf8_len b) in *. clearbody n. revert Hb Hf Hl Ld. generalize (b :: s). clear b s Hb1 H.
    intros s Hb Hf Hl Ld.
    destruct (list_split n (length s - n) s) as (x & s' & -> & X & Ls); [lia|].
    destruct (list_split (length s') n d) as (d' & y & -> & L2 & Y); [lia|].
    rewrite loadu_mid by done. cbn [mbind res_bind].
    replace (Z.of_nat (length (d' ++ y)) - Z.of_nat n) with (Z.of_nat (length d')) by (rewrite !length_app; lia).
    rewrite <-app_assoc, storeu_mid by lia. cbn [mbind res_bind].
    replace (Z.of_nat (length pre) + Z.of_nat n) with (Z.of_nat (length (pre ++ x))) by (rewrite length_app; lia).
    rewrite (app_assoc pre x s'). apply Forall_app in Hb as [_ Hb]. rewrite length_app in Hf.
    rewrite IH by (done || lia). cbn [pred].
    rewrite drop_app, drop_ge, X, Nat.sub_diag, drop_0, take_app_le, take_ge by lia. cbn [app].
    destruct (utf8_split fuel s') as [cs|]; [|done]. cbn [mbind option_bind].
    rewrite reverse_cons, join_app. simpl. by rewrite app_nil_r, <-app_assoc.
  - unfold loadu. destruct (Z.leb_spec 0 (Z.of_nat (length pre))); [|lia].
    destruct (Z.leb_spec (Z.of_nat (length pre) + Z.of_nat (utf8_len b)) (Z.of_nat (length (pre ++ b :: s)))); [|done].
    rewrite length_app in *. lia.
Qed.

Lemma utf8_reverse_spec src dst : bytes_ok src -> length dst = length src ->
  utf8_reverse_per_slice src dst =
  match utf8_chars src with Some cs => Ok (mjoin (reverse cs)) | None => Err EBounds end.
Proof.
  intros Hb L. unfold utf8_reverse_per_slice, utf8_chars.
  pose proof (utf8_reverse_loop_spec (S (length src)) [] src dst [] Hb ltac:(lia) L) as H.
  rewrite app_nil_r, L in H. cbn [app length pred] in H. change (Z.of_nat 0) with 0 in H. rewrite H.
  destruct (utf8_split _ _); [by rewrite app_nil_r|done].
Qed.

Lemma length_join_reverse (cs : list (list Z)) : length (mjoin (reverse cs)) = length (mjoin cs).
Proof.
  induction cs as [|c cs IH]; [done|]. rewrite reverse_cons, join_app, length_app, IH.
  simpl. rewrite app_nil_r, length_app. lia.
Qed.

Lemma bytes_ok_join cs : bytes_ok (mjoin cs) <-> Forall bytes_ok cs.
Proof.
  induction cs as [|c cs IH]; [split; constructor|]. simpl. unfold bytes_ok in *.
  rewrite Forall_app, Forall_cons, IH. done.
Qed.

(** For every source and a destination of the same size, both vector
    versions of [ascii_reverse] write the reversed bytes and stay inside the
    two buffers. *)
Theorem ascii_reverse_correct is_epi8 src dst : length dst = length src ->
  ascii_reverse is_epi8 src dst = Ok (reverse src).
Proof. apply ascii_reverse_spec. Qed.

Lemma ascii_reverse_correct_witness :
  ascii_reverse true [1; 2; 3; 4; 5; 6; 7; 8; 9] (replicate 9 0) = Ok [9; 8; 7; 6; 5; 4; 3; 2; 1].
Proof. apply (ascii_reverse_correct true [1; 2; 3; 4; 5; 6; 7; 8; 9] (replicate 9 0)). reflexivity. Defined.

(** C37: a string that is a sequence of whole characters is written with its
    characters in reverse order, and reversing the result gives the string
    back; if the last character is cut short the copy leaves the buffers. *)
Theorem utf8_reverse_correct src dst : bytes_ok src -> length dst = length src ->
  match utf8_chars src with
  | Some cs =>
      mjoin cs = src /\ utf8_reverse_per_slice src dst = Ok (mjoin (reverse cs)) /\
      utf8_reverse_per_slice (mjoin (reverse cs)) dst = Ok src
  | None => utf8_reverse_per_slice src dst = Err EBounds
  end.
Proof.
  intros Hb L. pose proof (utf8_reverse_spec src dst Hb L) as H.
  destruct (utf8_chars src) as [cs|] eqn:E; [|done].
  destruct (utf8_split_spec _ _ _ Hb (le_n _) E) as [Ej Hc].
  split_and!; [done|done|].
  assert (bytes_ok (mjoin (reverse cs))) as Hb'.
  { apply bytes_ok_join, Forall_reverse, bytes_ok_join. by rewrite Ej. }
  rewrite utf8_reverse_spec by (rewrite ?length_join_reverse, ?Ej; done).
  unfold utf8_chars. rewrite utf8_split_chars by (by try apply Forall_reverse).
  by rewrite reverse_involutive, Ej.
Qed.

Lemma utf8_reverse_correct_witness :
  utf8_reverse_per_slice [97; 0xe4; 0xbd; 0xa0] [0; 0; 0; 0] = Ok [0xe4; 0xbd; 0xa0; 97].
Proof.
  apply (utf8_reverse_correct [97; 0xe4; 0xbd; 0xa0] [0; 0; 0; 0]).
  - by repeat constructor.
  - reflexivity.
Defined.
