(* ===== verification/Trim.v ===== *)
(** * Skipping spaces: src/include/trim.hh

    The two functions of the header return a pointer into the range
    [begin, end); here the range is a list and a pointer its offset. With
    [simd_optimization] they test 16 bytes at a time and locate the first byte
    that is not a space by counting zeros of the comparison mask. *)

From S2P Require Import Prelude.
From S2P Require Import Simd.

Definition SSE2_BYTES : nat := 16.
Definition space : Z := 32.

(** the SSE2 loop of [skip_leading_spaces]: [inl] is its return, [inr] the
    offset at its end *)
Fixpoint leading_simd_loop (fuel : nat) (s : list Z) (p sse2_end : Z) : res (Z + Z) :=
  match fuel with
  | O => Err EFuel
  | S fuel =>
      if p <? sse2_end then
        x ← loadu SSE2_BYTES s p;
        let masks := movemask_epi8 (cmpeq_epi8 x (set1_epi8 SSE2_BYTES space)) in
        pos ← ctz (Z.lor (Z.shiftl 1 16) (u32 (Z.lnot masks)));
        if pos <? 16 then Ok (inl (p + pos)) else leading_simd_loop fuel s (p + 16) sse2_end
      else Ok (inr p)
  end.

Fixpoint leading_loop (fuel : nat) (s : list Z) (p : Z) : res Z :=
  match fuel with
  | O => Err EFuel
  | S fuel =>
      if p <? Z.of_nat (length s) then
        c ← rd s p; if c =? space then leading_loop fuel s (p + 1) else Ok p
      else Ok p
  end.

Definition skip_leading_spaces (simd_optimization : bool) (s : list Z) : res Z :=
  let size := Z.of_nat (length s) in
  r ← (if simd_optimization
       then leading_simd_loop (S (length s)) s 0 (Z.land size (Z.lnot (16 - 1)))
       else Ok (inr 0));
  match r with
  | inl p => Ok p
  | inr p => leading_loop (S (length s)) s p
  end.

(** the SSE2 loop of [skip_trailing_spaces]; the mask is shifted into the high
    half so that the count of leading ones is the count of trailing spaces *)
Fixpoint trailing_simd_loop (fuel : nat) (s : list Z) (p sse2_begin : Z) : res (Z + Z) :=
  match fuel with
  | O => Err EFuel
  | S fuel =>
      if sse2_begin <=? p then
        x ← loadu SSE2_BYTES s p;
        let masks := movemask_epi8 (cmpeq_epi8 x (set1_epi8 SSE2_BYTES space)) in
        pos ← clz 32 (u32 (Z.lnot (u32 (Z.shiftl masks 16))));
        if pos <? 16 then Ok (inl (p + 16 - pos)) else trailing_simd_loop fuel s (p - 16) sse2_begin
      else Ok (inr p)
  end.

(** [for (--p; p >= begin && *p == ' '; --p)], entered at the value after [--p] *)
Fixpoint trailing_loop (fuel : nat) (s : list Z) (p : Z) : res Z :=
  match fuel with
  | O => Err EFuel
  | S fuel =>
      if 0 <=? p then
        c ← rd s p; if c =? space then trailing_loop fuel s (p - 1) else Ok p
      else Ok p
  end.

Definition skip_trailing_spaces (simd_optimization : bool) (s : list Z) : res Z :=
  let size := Z.of_nat (length s) in
  r ← (if simd_optimization
       then r ← trailing_simd_loop (S (length s)) s (size - 16) (size - Z.land size (Z.lnot (16 - 1)));
            Ok (match r with inl q => inl q | inr p => inr (p + 16) end)
       else Ok (inr size));
  match r with
  | inl q => Ok q
  | inr p => p ← trailing_loop (S (length s)) s (p - 1); Ok (p + 1)
  end.

(** ** Specification: the number of leading and of trailing spaces *)

Fixpoint leading (s : list Z) : nat :=
  match s with c :: s => if c =? space then S (leading s) else 0%nat | [] => 0%nat end.
Definition trailing (s : list Z) : nat := leading (reverse s).

Lemma leading_le s : (leading s <= length s)%nat.
Proof. induction s as [|c s IH]; simpl; [lia|]. destruct (c =? space); lia. Qed.

Lemma leading_before s i : (i < leading s)%nat -> s !! i = Some space.
Proof.
  revert i. induction s as [|c s IH]; intros i; simpl; [lia|].
  destruct (Z.eqb_spec c space) as [->|]; [|lia]. destruct i; [done|]. intros. apply IH. lia.
Qed.

Lemma leading_at s : s !! leading s <> Some space.
Proof.
  induction s as [|c s IH]; simpl; [done|]. destruct (Z.eqb_spec c space); [done|]. by intros [= ->].
Qed.

Lemma leading_app a b : leading (a ++ b) = if (leading a =? length a)%nat then (length a + leading b)%nat else leading a.
Proof.
  induction a as [|c a IH]; simpl; [done|]. destruct (c =? space); [|done]. rewrite IH. simpl.
  by destruct (leading a =? length a)%nat.
Qed.

Lemma trailing_le s : (trailing s <= length s)%nat.
Proof. unfold trailing. rewrite <-length_reverse. apply leading_le. Qed.

Lemma trailing_app a b : trailing (a ++ b) = if (trailing b =? length b)%nat then (length b + trailing a)%nat else trailing b.
Proof. unfold trailing. rewrite reverse_app, leading_app, length_reverse. done. Qed.

(** ** One block: the bit tricks count the spaces *)

Lemma ctz_block x : length x = 16%nat ->
  ctz (Z.lor (Z.shiftl 1 16) (u32 (Z.lnot (movemask_epi8 (cmpeq_epi8 x (set1_epi8 16 space)))))) =
  Ok (Z.of_nat (leading x)).
Proof.
  intros L. pose proof (leading_le x) as Hle. set (m := movemask_epi8 _).
  assert (forall i, Z.testbit (Z.lor (Z.shiftl 1 16) (u32 (Z.lnot m))) (Z.of_nat i) =
            (Z.of_nat i =? 16) || ((Z.of_nat i <? 32) && negb (match x !! i with Some b => b =? 32 | None => false end))) as T.
  { intros i. rewrite Z.lor_spec, u32_testbit, Z.lnot_spec by lia. unfold m.
    rewrite cmpeq_testbit by done. f_equal. rewrite Z.shiftl_1_l, Z.pow2_bits_eqb by lia. apply Z.eqb_sym. }
  apply ctz_unique.
  - assert (0 <= Z.lor (Z.shiftl 1 16) (u32 (Z.lnot m))) as H0.
    { apply Z.lor_nonneg. split; [done|]. apply (wrapu_range 32). lia. }
    pose proof (T 16%nat) as T16. destruct (Z.eq_dec (Z.lor (Z.shiftl 1 16) (u32 (Z.lnot m))) 0) as [E|]; [|lia].
    by rewrite E, Z.testbit_0_l in T16.
  - lia.
  - rewrite T. pose proof (leading_at x). destruct (Z.eqb_spec (Z.of_nat (leading x)) 16); [done|].
    destruct (Z.ltb_spec (Z.of_nat (leading x)) 32); [|lia]. simpl.
    destruct (x !! leading x) as [b|]; [|done]. destruct (Z.eqb_spec b 32); [by subst|done].
  - intros j Hj. rewrite <-(Z2Nat.id j) by lia. rewrite T, leading_before by lia.
    rewrite andb_false_r. destruct (Z.eqb_spec (Z.of_nat (Z.to_nat j)) 16); [lia|done].
Qed.

Lemma clz_block x : length x = 16%nat ->
  clz 32 (u32 (Z.lnot (u32 (Z.shiftl (movemask_epi8 (cmpeq_epi8 x (set1_epi8 16 space))) 16)))) =
  Ok (Z.of_nat (trailing x)).
Proof.
  intros L. pose proof (trailing_le x) as Hle. set (m := movemask_epi8 _).
  set (z := u32 (Z.lnot _)).
  assert (forall j, 0 <= j < 32 -> Z.testbit z j =
            negb ((16 <=? j) && (match x !! Z.to_nat (j - 16) with Some b => b =? 32 | None => false end))) as T.
  { intros j Hj. unfold z. rewrite u32_testbit, Z.lnot_spec, u32_testbit by lia.
    destruct (Z.ltb_spec j 32); [|lia]. simpl. rewrite Z.shiftl_spec by lia. f_equal.
    destruct (Z.leb_spec 16 j); [|apply Z.testbit_neg_r; lia].
    rewrite <-(Z2Nat.id (j - 16)) at 1 by lia. unfold m. by rewrite cmpeq_testbit. }
  assert (forall i, (i < 16)%nat -> x !! (15 - i)%nat = reverse x !! i) as R.
  { intros i Hi. rewrite reverse_lookup by lia. f_equal. lia. }
  replace (Z.of_nat (trailing x)) with (32 - 1 - (31 - Z.of_nat (trailing x))) by lia.
  apply clz_unique.
  - assert (0 <= z) by (apply (wrapu_range 32); lia).
    destruct (Z.eq_dec z 0) as [E|]; [|lia]. pose proof (T 0 ltac:(lia)) as T0.
    rewrite E, Z.testbit_0_l in T0. done.
  - lia.
  - rewrite T by lia. destruct (Z.leb_spec 16 (31 - Z.of_nat (trailing x))); [|done]. simpl.
    replace (Z.to_nat (31 - Z.of_nat (trailing x) - 16)) with (15 - trailing x)%nat by lia.
    rewrite R by lia. pose proof (leading_at (reverse x)) as Ha. fold (trailing x) in Ha.
    destruct (reverse x !! trailing x) as [b|]; [|done]. destruct (Z.eqb_spec b 32); [by subst|done].
  - intros j Hj. destruct (Z.lt_ge_cases j 32) as [Hj'|Hj'].
    + rewrite T by lia. destruct (Z.leb_spec 16 j); [|lia].
      replace (Z.to_nat (j - 16)) with (15 - Z.to_nat (31 - j))%nat by lia.
      rewrite R by lia. unfold trailing in *. rewrite leading_before by lia. done.
    + unfold z. rewrite u32_testbit by lia. destruct (Z.ltb_spec j 32); [lia|done].
Qed.

(** ** The loops *)

Lemma leading_simd_loop_spec k fuel pre m t : length m = (16 * k)%nat -> (k < fuel)%nat ->
  leading_simd_loop fuel (pre ++ m ++ t) (Z.of_nat (length pre)) (Z.of_nat (length (pre ++ m))) =
  Ok (if (leading m =? length m)%nat then inr (Z.of_nat (length (pre ++ m)))
      else inl (Z.of_nat (length pre + leading m))).
Proof.
  revert fuel pre m. induction k as [|k IH]; intros [|fuel] pre m Lm Hf; try lia; cbn [leading_simd_loop].
  - rewrite Nat.mul_0_r in Lm. apply nil_length_inv in Lm as ->. by rewrite app_nil_r, Z.ltb_irrefl.
  - destruct (list_split 16 (16 * k) m) as (x & m' & -> & X & L1); [lia|].
    destruct (Z.ltb_spec (Z.of_nat (length pre)) (Z.of_nat (length (pre ++ x ++ m'))));
      [|rewrite !length_app in *; lia].
    unfold SSE2_BYTES. rewrite <-(app_assoc x), loadu_mid by done. cbn [mbind res_bind].
    rewrite ctz_block by done. cbn [mbind res_bind]. pose proof (leading_le x).
    rewrite leading_app, X. destruct (Z.ltb_spec (Z.of_nat (leading x)) 16), (Nat.eqb_spec (leading x) 16); try lia.
    + destruct (Nat.eqb_spec (leading x) (length (x ++ m'))); [rewrite length_app in *; lia|].
      do 2 f_equal. lia.
    + replace (Z.of_nat (length pre) + 16) with (Z.of_nat (length (pre ++ x))) by (rewrite length_app; lia).
      rewrite (app_assoc pre x m'), (app_assoc pre x (m' ++ t)), IH by lia.
      rewrite !length_app, X. destruct (Nat.eqb_spec (leading m') (length m')), (Nat.eqb_spec (16 + leading m') (16 + length m'));
        try lia; do 2 f_equal; lia.
Qed.

Lemma leading_loop_spec fuel pre m : (length m < fuel)%nat ->
  leading_loop fuel (pre ++ m) (Z.of_nat (length pre)) = Ok (Z.of_nat (length pre + leading m)).
Proof.
  revert fuel pre. induction m as [|c m IH]; intros [|fuel] pre Hf; simpl in *; try lia.
  - by rewrite app_nil_r, Z.ltb_irrefl, Nat.add_0_r.
  - destruct (Z.ltb_spec (Z.of_nat (length pre)) (Z.of_nat (length (pre ++ c :: m))));
      [|rewrite length_app in *; simpl in *; lia].
    erewrite rd_nat by (by rewrite list_lookup_middle). cbn [mbind res_bind].
    destruct (c =? space); [|by rewrite Nat.add_0_r].
    replace (pre ++ c :: m) with ((pre ++ [c]) ++ m) by (by rewrite <-app_assoc).
    replace (Z.of_nat (length pre) + 1) with (Z.of_nat (length (pre ++ [c]))) by (rewrite length_app; simpl; lia).
    rewrite IH by lia. f_equal. rewrite length_app. simpl. lia.
Qed.

Lemma trailing_simd_loop_spec k fuel t m suf : length m = (16 * k)%nat -> (k < fuel)%nat ->
  trailing_simd_loop fuel (t ++ m ++ suf) (Z.of_nat (length (t ++ m)) - 16) (Z.of_nat (length t)) =
  Ok (if (trailing m =? length m)%nat then inr (Z.of_nat (length t) - 16)
      else inl (Z.of_nat (length (t ++ m) - trailing m))).
Proof.
  revert fuel m suf. induction k as [|k IH]; intros [|fuel] m suf Lm Hf; try lia; cbn [trailing_simd_loop].
  - rewrite Nat.mul_0_r in Lm. apply nil_length_inv in Lm as ->. rewrite app_nil_r.
    destruct (Z.leb_spec (Z.of_nat (length t)) (Z.of_nat (length t) - 16)); [lia|done].
  - destruct (list_split (16 * k) 16 m) as (m' & x & -> & L1 & X); [lia|].
    destruct (Z.leb_spec (Z.of_nat (length t)) (Z.of_nat (length (t ++ m' ++ x)) - 16));
      [|rewrite !length_app in *; lia].
    replace (Z.of_nat (length (t ++ m' ++ x)) - 16) with (Z.of_nat (length (t ++ m'))) by (rewrite !length_app; lia).
    unfold SSE2_BYTES.
    replace (t ++ (m' ++ x) ++ suf) with ((t ++ m') ++ x ++ suf) by (by rewrite <-!app_assoc).
    rewrite loadu_mid by done. cbn [mbind res_bind].
    rewrite clz_block by done. cbn [mbind res_bind]. pose proof (trailing_le x).
    rewrite trailing_app, X. destruct (Z.ltb_spec (Z.of_nat (trailing x)) 16), (Nat.eqb_spec (trailing x) 16); try lia.
    + destruct (Nat.eqb_spec (trailing x) (length (m' ++ x))); [rewrite length_app in *; lia|].
      rewrite !length_app. do 2 f_equal. lia.
    + rewrite <-app_assoc, IH by lia. pose proof (trailing_le m').
      rewrite !length_app, X. destruct (Nat.eqb_spec (trailing m') (length m')), (Nat.eqb_spec (16 + trailing m') (length m' + 16));
        try lia; do 2 f_equal; lia.
Qed.

Lemma trailing_loop_spec fuel m suf : (length m < fuel)%nat ->
  trailing_loop fuel (m ++ suf) (Z.of_nat (length m) - 1) = Ok (Z.of_nat (length m - trailing m) - 1).
Proof.
  revert fuel suf. induction m as [|c m IH] using rev_ind; intros [|fuel] suf Hf; try lia; cbn [trailing_loop].
  - done.
  - rewrite length_app in *. cbn [length] in *.
    replace (Z.of_nat (length m + 1) - 1) with (Z.of_nat (length m)) by lia.
    destruct (Z.leb_spec 0 (Z.of_nat (length m))); [|lia]. rewrite <-app_assoc. cbn [app].
    erewrite rd_nat by (by rewrite list_lookup_middle). cbn [mbind res_bind app].
    assert (trailing [c] = if c =? space then 1%nat else 0%nat) as Ec by done.
    rewrite trailing_app, Ec. pose proof (trailing_le m). destruct (c =? space); cbn [Nat.eqb length].
    + rewrite IH by lia. f_equal. lia.
    + f_equal. lia.
Qed.

Lemma skip_leading_spec simd s : skip_leading_spaces simd s = Ok (Z.of_nat (leading s)).
Proof.
  unfold skip_leading_spaces. destruct simd.
  2: { cbn [mbind res_bind]. apply (leading_loop_spec (S (length s)) [] s). lia. }
  change (16 - 1) with (2 ^ 4 - 1). rewrite round_down by lia. change (2 ^ 4) with 16.
  set (k := (length s / 16)%nat). pose proof (Nat.div_mod_eq (length s) 16) as Hd. fold k in Hd.
  destruct (list_split (16 * k) (length s mod 16) s) as (m & t & Es & Lm & Lt); [lia|].
  replace (Z.of_nat (length s) / 16 * 16) with (Z.of_nat (length m))
    by (rewrite Lm; unfold k; rewrite Nat2Z.inj_mul, Nat2Z.inj_div; lia).
  pose proof (leading_simd_loop_spec k (S (length s)) [] m t Lm ltac:(lia)) as H.
  cbn [app length] in H. change (Z.of_nat 0) with 0 in H. rewrite <-Es in H. rewrite H. cbn [mbind res_bind].
  rewrite Es, leading_app. destruct (Nat.eqb_spec (leading m) (length m)) as [E|E]; [|done].
  apply (leading_loop_spec _ m t). rewrite length_app. lia.
Qed.

Lemma skip_trailing_spec simd s : skip_trailing_spaces simd s = Ok (Z.of_nat (length s - trailing s)).
Proof.
  unfold skip_trailing_spaces. pose proof (trailing_le s) as Hle. destruct simd.
  2: { cbn [mbind res_bind]. pose proof (trailing_loop_spec (S (length s)) s [] ltac:(lia)) as H.
       rewrite app_nil_r in H. rewrite H. simpl. f_equal. lia. }
  change (16 - 1) with (2 ^ 4 - 1). rewrite round_down by lia. change (2 ^ 4) with 16.
  set (k := (length s / 16)%nat). pose proof (Nat.div_mod_eq (length s) 16) as Hd. fold k in Hd.
  destruct (list_split (length s mod 16) (16 * k) s) as (t & m & Es & Lt & Lm); [lia|].
  replace (Z.of_nat (length s) - Z.of_nat (length s) / 16 * 16) with (Z.of_nat (length t))
    by (rewrite Lt; change 16 with (Z.of_nat 16); rewrite <-Nat2Z.inj_div; fold k; lia).
  pose proof (trailing_simd_loop_spec k (S (length s)) t m [] Lm ltac:(lia)) as H.
  rewrite app_nil_r in H. rewrite <-Es in H. rewrite H. cbn [mbind res_bind].
  rewrite Es, trailing_app. pose proof (trailing_le t).
  destruct (Nat.eqb_spec (trailing m) (length m)) as [E|E]; cbn [mbind res_bind]; [|done].
  replace (Z.of_nat (length t) - 16 + 16 - 1) with (Z.of_nat (length t) - 1) by lia.
  rewrite (trailing_loop_spec _ t m) by (rewrite length_app; lia). cbn [mbind res_bind].
  rewrite length_app. f_equal. lia.
Qed.

(** with and without the SSE2 path, [skip_leading_spaces] returns the
    offset of the first byte that is not a space and [skip_trailing_spaces] the
    offset after the last one; no load leaves the range. *)
Theorem skip_spaces_correct simd s :
  skip_leading_spaces simd s = Ok (Z.of_nat (leading s)) /\
  skip_trailing_spaces simd s = Ok (Z.of_nat (length s - trailing s)).
Proof. split; [apply skip_leading_spec|apply skip_trailing_spec]. Qed.
