(* ===== verification/FastMemcpy.v ===== *)
(** * Fast memory copies: src/include/clickhouse/FastMemcpy.h and FastMemcpy_Avx.h

    Memory is one array of bytes, a pointer an address in it, so that source
    and destination may lie in the same object. Unaligned vector loads and
    stores only need to stay inside the memory; the aligned ones (and the
    streaming stores) also fail on an address that is not a multiple of the
    vector width. Scalar accesses of the AVX version, through pointers cast to
    wider types, are undefined at misaligned addresses by the language; whether
    the target allows them is a parameter. The two switches over small sizes are tables of the copies
    each case makes, in order. *)

From S2P Require Import Prelude.
From S2P Require Import Simd.

Abbreviation memory := (list Z) (only parsing).

(** libc's [memcpy]: the ranges must not overlap *)
Definition memcpy (m : memory) (dst src size : Z) : res memory :=
  if (dst + size <=? src) || (src + size <=? dst) || (size =? 0) then
    x ← loadu (Z.to_nat size) m src; storeu m dst x
  else Err EUndef.

(** [k] vectors of [V] bytes from [src] on; [al]: the loads are aligned ones *)
Fixpoint load_vecs (V k : nat) (al : bool) (m : memory) (src : Z) : res (list vec) :=
  match k with
  | O => Ok []
  | S k =>
      if al && negb (src mod Z.of_nat V =? 0) then Err EAlign
      else x ← loadu V m src; xs ← load_vecs V k al m (src + Z.of_nat V); Ok (x :: xs)
  end.

Fixpoint store_vecs (V : nat) (al : bool) (m : memory) (dst : Z) (xs : list vec) : res memory :=
  match xs with
  | [] => Ok m
  | x :: xs =>
      if al && negb (dst mod Z.of_nat V =? 0) then Err EAlign
      else m ← storeu m dst x; store_vecs V al m (dst + Z.of_nat V) xs
  end.

(** all loads come before the first store *)
Definition copy_vecs (V k : nat) (lal sal : bool) (m : memory) (dst src : Z) : res memory :=
  xs ← load_vecs V k lal m src; store_vecs V sal m dst xs.

Definition memcpy_sse2_16 := copy_vecs 16 1 false false.
Definition memcpy_sse2_32 := copy_vecs 16 2 false false.
Definition memcpy_sse2_64 := copy_vecs 16 4 false false.
Definition memcpy_sse2_128 := copy_vecs 16 8 false false.

Definition memcpy_avx_16 := copy_vecs 16 1 false false.
Definition memcpy_avx_32 := copy_vecs 32 1 false false.
Definition memcpy_avx_64 := copy_vecs 32 2 false false.
Definition memcpy_avx_128 := copy_vecs 32 4 false false.
Definition memcpy_avx_256 := copy_vecs 32 8 false false.

(** one statement of a case: an assignment through a pointer to an integer of
    that many bits, or a call of the vector copy of that many bytes; the
    number is the distance from the end of both ranges *)
Inductive tiny_op :=
| U8 (off : Z) | U16 (off : Z) | U32 (off : Z) | U64 (off : Z)
| V16 (off : Z) | V32 (off : Z) | V64 (off : Z) | V128 (off : Z).

Definition copy_word (n : nat) (m : memory) (dst src : Z) : res memory :=
  x ← loadu n m src; storeu m dst x.

(** a copy through pointers to integers of [n] bytes; [unaligned]: they may have
    any address *)
Definition copy_scalar (unaligned : bool) (n : nat) (m : memory) (dst src : Z) : res memory :=
  if unaligned || ((src mod Z.of_nat n =? 0) && (dst mod Z.of_nat n =? 0)) then copy_word n m dst src else Err EAlign.

(** the copies a version uses *)
Record vec_ops := mkVecOps {
  vo_unaligned : bool;
  vo16 : memory -> Z -> Z -> res memory;
  vo32 : memory -> Z -> Z -> res memory;
  vo64 : memory -> Z -> Z -> res memory;
  vo128 : memory -> Z -> Z -> res memory;
}.
(** the integer types of the SSE2 version are declared with an alignment of 1 *)
Definition sse2_ops := mkVecOps true memcpy_sse2_16 memcpy_sse2_32 memcpy_sse2_64 memcpy_sse2_128.
Definition avx_ops (unaligned : bool) := mkVecOps unaligned memcpy_avx_16 memcpy_avx_32 memcpy_avx_64 memcpy_avx_128.

Definition run_op (vo : vec_ops) (m : memory) (dd ss : Z) (op : tiny_op) : res memory :=
  match op with
  | U8 off => copy_word 1 m (dd - off) (ss - off)
  | U16 off => copy_scalar (vo_unaligned vo) 2 m (dd - off) (ss - off)
  | U32 off => copy_scalar (vo_unaligned vo) 4 m (dd - off) (ss - off)
  | U64 off => copy_scalar (vo_unaligned vo) 8 m (dd - off) (ss - off)
  | V16 off => vo16 vo m (dd - off) (ss - off)
  | V32 off => vo32 vo m (dd - off) (ss - off)
  | V64 off => vo64 vo m (dd - off) (ss - off)
  | V128 off => vo128 vo m (dd - off) (ss - off)
  end.

Fixpoint run_ops (vo : vec_ops) (m : memory) (dd ss : Z) (ops : list tiny_op) : res memory :=
  match ops with
  | [] => Ok m
  | op :: ops => m ← run_op vo m dd ss op; run_ops vo m dd ss ops
  end.

(** ** The switch of the SSE2 version, cases 0 to 63 *)

Definition tiny_0_15 (n : nat) : list tiny_op :=
  match n with
  | 0 => []
  | 1 => [U8 1]
  | 2 => [U16 2]
  | 3 => [U16 3; U8 1]
  | 4 => [U32 4]
  | 5 => [U32 5; U8 1]
  | 6 => [U32 6; U16 2]
  | 7 => [U32 7; U32 4]
  | 8 => [U64 8]
  | 9 => [U64 9; U8 1]
  | 10 => [U64 10; U16 2]
  | 11 => [U64 11; U32 4]
  | 12 => [U64 12; U32 4]
  | 13 => [U64 13; U32 5; U8 1]
  | 14 => [U64 14; U64 8]
  | 15 => [U64 15; U64 8]
  | _ => []
  end%nat.

Definition tiny_16_31 (n : nat) : list tiny_op :=
  match n with
  | 16 => [V16 16]
  | 17 => [V16 17; U8 1]
  | 18 => [V16 18; U16 2]
  | 19 => [V16 19; U16 3; U8 1]
  | 20 => [V16 20; U32 4]
  | 21 => [V16 21; U32 5; U8 1]
  | 22 => [V16 22; U32 6; U16 2]
  | 23 => [V16 23; U32 7; U32 4]
  | 24 => [V16 24; V16 16]
  | 25 => [V16 25; V16 16]
  | 26 => [V16 26; V16 16]
  | 27 => [V16 27; V16 16]
  | 28 => [V16 28; V16 16]
  | 29 => [V16 29; V16 16]
  | 30 => [V16 30; V16 16]
  | 31 => [V16 31; V16 16]
  | _ => []
  end%nat.

Definition tiny_32_47 (n : nat) : list tiny_op :=
  match n with
  | 32 => [V32 32]
  | 33 => [V32 33; U8 1]
  | 34 => [V32 34; U16 2]
  | 35 => [V32 35; U16 3; U8 1]
  | 36 => [V32 36; U32 4]
  | 37 => [V32 37; U32 5; U8 1]
  | 38 => [V32 38; U32 6; U16 2]
  | 39 => [V32 39; U32 7; U32 4]
  | 40 => [V32 40; U64 8]
  | 41 => [V32 41; U64 9; U8 1]
  | 42 => [V32 42; U64 10; U16 2]
  | 43 => [V32 43; U64 11; U32 4]
  | 44 => [V32 44; U64 12; U32 4]
  | 45 => [V32 45; U64 13; U32 5; U8 1]
  | 46 => [V32 46; U64 14; U64 8]
  | 47 => [V32 47; U64 15; U64 8]
  | _ => []
  end%nat.

Definition tiny_48_63 (n : nat) : list tiny_op :=
  match n with
  | 48 => [V32 48; V16 16]
  | 49 => [V32 49; V16 17; U8 1]
  | 50 => [V32 50; V16 18; U16 2]
  | 51 => [V32 51; V16 19; U16 3; U8 1]
  | 52 => [V32 52; V16 20; U32 4]
  | 53 => [V32 53; V16 21; U32 5; U8 1]
  | 54 => [V32 54; V16 22; U32 6; U16 2]
  | 55 => [V32 55; V16 23; U32 7; U32 4]
  | 56 => [V32 56; V16 24; V16 16]
  | 57 => [V32 57; V16 25; V16 16]
  | 58 => [V32 58; V16 26; V16 16]
  | 59 => [V32 59; V16 27; V16 16]
  | 60 => [V32 60; V16 28; V16 16]
  | 61 => [V32 61; V16 29; V16 16]
  | 62 => [V32 62; V16 30; V16 16]
  | 63 => [V32 63; V16 31; V16 16]
  | _ => []
  end%nat.

Definition tiny_case (n : nat) : list tiny_op :=
  match (n / 16)%nat with
  | 0 => tiny_0_15 n
  | 1 => tiny_16_31 n
  | 2 => tiny_32_47 n
  | 3 => tiny_48_63 n
  | _ => []
  end%nat.

(** a case from 64 to 127 copies the first 64 bytes and falls through to the
    case 64 below; a size above 128 has no case *)
Definition memcpy_tiny (m : memory) (dst src size : Z) : res memory :=
  let dd := dst + size in
  let ss := src + size in
  if size <? 64 then run_ops sse2_ops m dd ss (tiny_case (Z.to_nat size))
  else if size <? 128 then
    m ← memcpy_sse2_64 m (dd - size) (ss - size);
    run_ops sse2_ops m dd ss (tiny_case (Z.to_nat (size - 64)))
  else if size =? 128 then memcpy_sse2_128 m (dd - 128) (ss - 128)
  else Ok m.

(** ** The switch of the AVX version, cases 0 to 127 *)

Definition avx_0_15 (n : nat) : list tiny_op :=
  match n with
  | 0 => []
  | 1 => [U8 1]
  | 2 => [U16 2]
  | 3 => [U16 3; U8 1]
  | 4 => [U32 4]
  | 5 => [U32 5; U8 1]
  | 6 => [U32 6; U16 2]
  | 7 => [U32 7; U32 4]
  | 8 => [U64 8]
  | 9 => [U64 9; U8 1]
  | 10 => [U64 10; U16 2]
  | 11 => [U64 11; U32 4]
  | 12 => [U64 12; U32 4]
  | 13 => [U64 13; U64 8]
  | 14 => [U64 14; U64 8]
  | 15 => [U64 15; U64 8]
  | _ => []
  end%nat.

Definition avx_16_31 (n : nat) : list tiny_op :=
  match n with
  | 16 => [V16 16]
  | 17 => [V16 17; U8 1]
  | 18 => [V16 18; U16 2]
  | 19 => [V16 19; U32 4]
  | 20 => [V16 20; U32 4]
  | 21 => [V16 21; U64 8]
  | 22 => [V16 22; U64 8]
  | 23 => [V16 23; U64 8]
  | 24 => [V16 24; U64 8]
  | 25 => [V16 25; V16 16]
  | 26 => [V16 26; V16 16]
  | 27 => [V16 27; V16 16]
  | 28 => [V16 28; V16 16]
  | 29 => [V16 29; V16 16]
  | 30 => [V16 30; V16 16]
  | 31 => [V16 31; V16 16]
  | _ => []
  end%nat.

Definition avx_32_47 (n : nat) : list tiny_op :=
  match n with
  | 32 => [V32 32]
  | 33 => [V32 33; U8 1]
  | 34 => [V32 34; U16 2]
  | 35 => [V32 35; U32 4]
  | 36 => [V32 36; U32 4]
  | 37 => [V32 37; U64 8]
  | 38 => [V32 38; U64 8]
  | 39 => [V32 39; U64 8]
  | 40 => [V32 40; U64 8]
  | 41 => [V32 41; V16 16]
  | 42 => [V32 42; V16 16]
  | 43 => [V32 43; V16 16]
  | 44 => [V32 44; V16 16]
  | 45 => [V32 45; V16 16]
  | 46 => [V32 46; V16 16]
  | 47 => [V32 47; V16 16]
  | _ => []
  end%nat.

Definition avx_48_63 (n : nat) : list tiny_op :=
  match n with
  | 48 => [V32 48; V16 16]
  | 49 => [V32 49; V32 32]
  | 50 => [V32 50; V32 32]
  | 51 => [V32 51; V32 32]
  | 52 => [V32 52; V32 32]
  | 53 => [V32 53; V32 32]
  | 54 => [V32 54; V32 32]
  | 55 => [V32 55; V32 32]
  | 56 => [V32 56; V32 32]
  | 57 => [V32 57; V32 32]
  | 58 => [V32 58; V32 32]
  | 59 => [V32 59; V32 32]
  | 60 => [V32 60; V32 32]
  | 61 => [V32 61; V32 32]
  | 62 => [V32 62; V32 32]
  | 63 => [V32 63; V32 32]
  | _ => []
  end%nat.

Definition avx_64_79 (n : nat) : list tiny_op :=
  match n with
  | 64 => [V64 64]
  | 65 => [V64 65; U8 1]
  | 66 => [V64 66; U16 2]
  | 67 => [V64 67; U32 4]
  | 68 => [V64 68; U32 4]
  | 69 => [V64 69; U64 8]
  | 70 => [V64 70; U64 8]
  | 71 => [V64 71; U64 8]
  | 72 => [V64 72; U64 8]
  | 73 => [V64 73; V16 16]
  | 74 => [V64 74; V16 16]
  | 75 => [V64 75; V16 16]
  | 76 => [V64 76; V16 16]
  | 77 => [V64 77; V16 16]
  | 78 => [V64 78; V16 16]
  | 79 => [V64 79; V16 16]
  | _ => []
  end%nat.

Definition avx_80_95 (n : nat) : list tiny_op :=
  match n with
  | 80 => [V64 80; V16 16]
  | 81 => [V64 81; V32 32]
  | 82 => [V64 82; V32 32]
  | 83 => [V64 83; V32 32]
  | 84 => [V64 84; V32 32]
  | 85 => [V64 85; V32 32]
  | 86 => [V64 86; V32 32]
  | 87 => [V64 87; V32 32]
  | 88 => [V64 88; V32 32]
  | 89 => [V64 89; V32 32]
  | 90 => [V64 90; V32 32]
  | 91 => [V64 91; V32 32]
  | 92 => [V64 92; V32 32]
  | 93 => [V64 93; V32 32]
  | 94 => [V64 94; V32 32]
  | 95 => [V64 95; V32 32]
  | _ => []
  end%nat.

Definition avx_96_111 (n : nat) : list tiny_op :=
  match n with
  | 96 => [V64 96; V32 32]
  | 97 => [V64 97; V64 64]
  | 98 => [V64 98; V64 64]
  | 99 => [V64 99; V64 64]
  | 100 => [V64 100; V64 64]
  | 101 => [V64 101; V64 64]
  | 102 => [V64 102; V64 64]
  | 103 => [V64 103; V64 64]
  | 104 => [V64 104; V64 64]
  | 105 => [V64 105; V64 64]
  | 106 => [V64 106; V64 64]
  | 107 => [V64 107; V64 64]
  | 108 => [V64 108; V64 64]
  | 109 => [V64 109; V64 64]
  | 110 => [V64 110; V64 64]
  | 111 => [V64 111; V64 64]
  | _ => []
  end%nat.

Definition avx_112_127 (n : nat) : list tiny_op :=
  match n with
  | 112 => [V64 112; V64 64]
  | 113 => [V64 113; V64 64]
  | 114 => [V64 114; V64 64]
  | 115 => [V64 115; V64 64]
  | 116 => [V64 116; V64 64]
  | 117 => [V64 117; V64 64]
  | 118 => [V64 118; V64 64]
  | 119 => [V64 119; V64 64]
  | 120 => [V64 120; V64 64]
  | 121 => [V64 121; V64 64]
  | 122 => [V64 122; V64 64]
  | 123 => [V64 123; V64 64]
  | 124 => [V64 124; V64 64]
  | 125 => [V64 125; V64 64]
  | 126 => [V64 126; V64 64]
  | 127 => [V64 127; V64 64]
  | _ => []
  end%nat.

Definition avx_case (n : nat) : list tiny_op :=
  match (n / 16)%nat with
  | 0 => avx_0_15 n
  | 1 => avx_16_31 n
  | 2 => avx_32_47 n
  | 3 => avx_48_63 n
  | 4 => avx_64_79 n
  | 5 => avx_80_95 n
  | 6 => avx_96_111 n
  | 7 => avx_112_127 n
  | _ => []
  end%nat.

Definition memcpy_tiny_avx (unaligned : bool) (m : memory) (dst src size : Z) : res memory :=
  let dd := dst + size in
  let ss := src + size in
  if size <? 128 then run_ops (avx_ops unaligned) m dd ss (avx_case (Z.to_nat size))
  else if size <? 256 then
    m ← memcpy_avx_128 m (dd - size) (ss - size);
    run_ops (avx_ops unaligned) m dd ss (avx_case (Z.to_nat (size - 128)))
  else if size =? 256 then memcpy_avx_256 m (dd - 256) (ss - 256)
  else Ok m.

(** ** The main routines *)

(** the loops copy eight vectors per iteration; the result has the remaining
    size and the advanced pointers *)
Fixpoint copy_loop (fuel : nat) (V : nat) (lal sal : bool) (m : memory) (dst src size : Z) :
    res (memory * Z * Z * Z) :=
  match fuel with
  | O => Err EFuel
  | S fuel =>
      if 8 * Z.of_nat V <=? size then
        m ← copy_vecs V 8 lal sal m dst src;
        copy_loop fuel V lal sal m (dst + 8 * Z.of_nat V) (src + 8 * Z.of_nat V) (size - 8 * Z.of_nat V)
      else Ok (m, dst, src, size)
  end.

Definition cachesize : Z := 0x200000.

Definition memcpy_fast (m : memory) (dst src size : Z) : res memory :=
  if size <=? 128 then memcpy_tiny m dst src size
  else
    let padding := Z.land (16 - Z.land dst 15) 15 in
    m ← (if 0 <? padding then copy_vecs 16 1 false false m dst src else Ok m);
    let dst := dst + padding in
    let src := src + padding in
    let size := size - padding in
    let fuel := S (Z.to_nat size) in
    '(m, dst, src, size) ←
      (if size <=? cachesize then copy_loop fuel 16 false true m dst src size
       else if Z.land src 15 =? 0 then copy_loop fuel 16 true true m dst src size
       else copy_loop fuel 16 false true m dst src size);
    memcpy_tiny m dst src size.

(** the AVX version copies the head also when the padding is 0, and its medium
    loop uses unaligned stores *)
Definition memcpy_fast_avx (unaligned : bool) (m : memory) (dst src size : Z) : res memory :=
  if size <=? 256 then memcpy_tiny_avx unaligned m dst src size
  else
    let padding := Z.land (32 - Z.land dst 31) 31 in
    m ← copy_vecs 32 1 false false m dst src;
    let dst := dst + padding in
    let src := src + padding in
    let size := size - padding in
    let fuel := S (Z.to_nat size) in
    '(m, dst, src, size) ←
      (if size <=? cachesize then copy_loop fuel 32 false false m dst src size
       else if Z.land src 31 =? 0 then copy_loop fuel 32 true true m dst src size
       else copy_loop fuel 32 false true m dst src size);
    memcpy_tiny_avx unaligned m dst src size.

(** ** What a copy does *)

(** [m'] is [m] after [n] bytes were copied from [s] to [d] *)
Definition copied (m m' : memory) (d s n : nat) : Prop :=
  length m' = length m /\
  forall i, m' !! i = if decide (d <= i < d + n)%nat then m !! (s + (i - d))%nat else m !! i.

Definition disjoint_ranges (d s n : nat) : Prop := (d + n <= s)%nat \/ (s + n <= d)%nat.

Definition inside (m : memory) (d s n : nat) : Prop := (d + n <= length m)%nat /\ (s + n <= length m)%nat.

Lemma copied_0 m d s : copied m m d s 0.
Proof. split; [done|]. intros i. case_decide; [lia|done]. Qed.

Lemma copied_unique m m1 m2 d s n : copied m m1 d s n -> copied m m2 d s n -> m1 = m2.
Proof. intros [_ H1] [_ H2]. apply list_eq. intros i. by rewrite H1, H2. Qed.

(** a copy that starts inside a copied prefix and ends behind it extends it *)
Lemma copied_extend m m1 m2 d s a p b N :
  disjoint_ranges d s N -> (p <= a <= p + b)%nat -> (p + b <= N)%nat ->
  copied m m1 d s a -> copied m1 m2 (d + p) (s + p) b -> copied m m2 d s (p + b).
Proof.
  intros HD Ha HN [L1 H1] [L2 H2]. split; [lia|]. intros i. rewrite H2. unfold disjoint_ranges in HD.
  destruct (decide (d + p <= i < d + p + b)%nat), (decide (d <= i < d + (p + b))%nat); try lia; rewrite H1.
  - rewrite decide_False by lia. f_equal. lia.
  - rewrite decide_True by lia. done.
  - by rewrite decide_False by lia.
Qed.

Lemma copy_word_spec m d s n : inside m d s n ->
  exists m', copy_word n m (Z.of_nat d) (Z.of_nat s) = Ok m' /\ copied m m' d s n.
Proof.
  intros [Hd Hs]. unfold copy_word. rewrite loadu_Ok by lia. cbn [mbind res_bind]. rewrite Nat2Z.id.
  assert (length (take n (drop s m)) = n) as L by (rewrite length_take, length_drop; lia).
  rewrite storeu_Ok by lia. rewrite Nat2Z.id, L. eexists. split; [done|]. split.
  - rewrite !length_app, L, length_take, length_drop. lia.
  - intros i. case_decide as Hi.
    + rewrite lookup_app_r; rewrite length_take; [|lia]. rewrite lookup_app_l by (rewrite L; lia).
      rewrite lookup_take_lt, lookup_drop by lia. f_equal. lia.
    + destruct (decide (i < d)%nat).
      * rewrite lookup_app_l by (rewrite length_take; lia). by rewrite lookup_take_lt by lia.
      * rewrite lookup_app_r; rewrite length_take; [|lia]. rewrite lookup_app_r by (rewrite L; lia).
        rewrite L, lookup_drop. f_equal. lia.
Qed.

(** ** Vector copies *)

Definition aligned_for (V : nat) (al : bool) (p : Z) : Prop := al = true -> p mod Z.of_nat V = 0.

Lemma aligned_test V al p : aligned_for V al p -> al && negb (p mod Z.of_nat V =? 0) = false.
Proof. intros H. destruct al; [|done]. by rewrite (H eq_refl). Qed.

Lemma aligned_next V al p : (0 < V)%nat -> aligned_for V al p -> aligned_for V al (p + Z.of_nat V).
Proof.
  intros HV H E. rewrite <-(H E). rewrite <-(Z.mul_1_l (Z.of_nat V)) at 1. apply Z.mod_add. lia.
Qed.

Lemma load_vecs_spec V k al pre x t : (0 < V)%nat -> aligned_for V al (Z.of_nat (length pre)) ->
  length x = (V * k)%nat ->
  exists xs, load_vecs V k al (pre ++ x ++ t) (Z.of_nat (length pre)) = Ok xs /\ mjoin xs = x /\
    Forall (fun y => length y = V) xs.
Proof.
  intros HV. revert pre x. induction k as [|k IH]; intros pre x Ha Lx.
  - rewrite Nat.mul_0_r in Lx. apply nil_length_inv in Lx as ->. by exists [].
  - destruct (list_split V (V * k) x) as (y & x' & -> & Ly & Lx'); [lia|].
    cbn [load_vecs]. rewrite aligned_test by done. rewrite <-app_assoc, loadu_mid by done. cbn [mbind res_bind].
    replace (Z.of_nat (length pre) + Z.of_nat V) with (Z.of_nat (length (pre ++ y))) by (rewrite length_app; lia).
    rewrite app_assoc.
    destruct (IH (pre ++ y) x') as (xs & -> & <- & HF); [|done|].
    + rewrite length_app, Ly, Nat2Z.inj_add. by apply aligned_next.
    + exists (y :: xs). split_and!; [done|done|]. by constructor.
Qed.

Lemma store_vecs_spec V al pre y t xs : (0 < V)%nat -> aligned_for V al (Z.of_nat (length pre)) ->
  Forall (fun y => length y = V) xs -> length y = length (mjoin xs) ->
  store_vecs V al (pre ++ y ++ t) (Z.of_nat (length pre)) xs = Ok (pre ++ mjoin xs ++ t).
Proof.
  intros HV. revert pre y. induction xs as [|x xs IH]; intros pre y Ha HF L; simpl in L.
  - apply nil_length_inv in L as ->. done.
  - apply Forall_cons in HF as [Hx HF]. rewrite length_app in L.
    destruct (list_split V (length (mjoin xs)) y) as (y1 & y2 & -> & L1 & L2); [lia|].
    cbn [store_vecs]. rewrite aligned_test by done. rewrite <-app_assoc, storeu_mid by lia. cbn [mbind res_bind].
    replace (Z.of_nat (length pre) + Z.of_nat V) with (Z.of_nat (length (pre ++ x))) by (rewrite length_app; lia).
    rewrite app_assoc, IH; [|rewrite length_app, Hx, Nat2Z.inj_add; by apply aligned_next|done|lia].
    simpl. by rewrite <-!app_assoc.
Qed.

Lemma memory_split (m : memory) d n : (d + n <= length m)%nat ->
  exists p y t, m = p ++ y ++ t /\ length p = d /\ length y = n.
Proof.
  intros H. exists (take d m), (take n (drop d m)), (drop n (drop d m)).
  rewrite !take_drop, !length_take, length_drop. split_and!; [done|lia|lia].
Qed.

Lemma copy_vecs_word V k lal sal m d s : (0 < V)%nat -> inside m d s (V * k) ->
  aligned_for V lal (Z.of_nat s) -> aligned_for V sal (Z.of_nat d) ->
  copy_vecs V k lal sal m (Z.of_nat d) (Z.of_nat s) = copy_word (V * k) m (Z.of_nat d) (Z.of_nat s).
Proof.
  intros HV [Hd Hs] Hl Hsa. unfold copy_vecs, copy_word.
  destruct (memory_split m s (V * k) Hs) as (p & x & t & E & Lp & Lx). rewrite E.
  rewrite <-Lp in Hl |- *. rewrite loadu_mid by done.
  destruct (load_vecs_spec V k lal p x t HV Hl Lx) as (xs & -> & <- & HF). cbn [mbind res_bind].
  rewrite <-E. destruct (memory_split m d (V * k) Hd) as (p' & y & t' & -> & Lp' & Ly).
  rewrite <-Lp' in Hsa |- *. rewrite store_vecs_spec, storeu_mid by (done || lia). done.
Qed.

(** ** The switches *)

(** [f] copies [n] bytes *)
Definition copies (n : nat) (f : memory -> Z -> Z -> res memory) : Prop :=
  forall m d s, inside m d s n -> exists m', f m (Z.of_nat d) (Z.of_nat s) = Ok m' /\ copied m m' d s n.

Lemma copies_vecs V k n : (0 < V)%nat -> n = (V * k)%nat -> copies n (copy_vecs V k false false).
Proof.
  intros HV -> m d s Hi. rewrite copy_vecs_word by done. by apply copy_word_spec.
Qed.

Record vec_ops_ok (vo : vec_ops) : Prop := {
  vo_unaligned_ok : vo_unaligned vo = true;
  vo16_ok : copies 16 (vo16 vo);
  vo32_ok : copies 32 (vo32 vo);
  vo64_ok : copies 64 (vo64 vo);
  vo128_ok : copies 128 (vo128 vo);
}.

Lemma sse2_ops_ok : vec_ops_ok sse2_ops.
Proof. split; [done|..]; apply copies_vecs; (lia || reflexivity). Qed.

Lemma avx_ops_ok : vec_ops_ok (avx_ops true).
Proof. split; [done|..]; apply copies_vecs; (lia || reflexivity). Qed.

Definition op_width (op : tiny_op) : nat :=
  match op with
  | U8 _ => 1 | U16 _ => 2 | U32 _ => 4 | U64 _ => 8 | V16 _ => 16 | V32 _ => 32 | V64 _ => 64 | V128 _ => 128
  end.
Definition op_off (op : tiny_op) : Z :=
  match op with
  | U8 o | U16 o | U32 o | U64 o | V16 o | V32 o | V64 o | V128 o => o
  end.

Lemma run_op_spec vo m op d s size : vec_ops_ok vo -> 0 <= op_off op <= Z.of_nat size ->
  let o := (size - Z.to_nat (op_off op))%nat in inside m (d + o) (s + o) (op_width op) ->
  exists m', run_op vo m (Z.of_nat (d + size)) (Z.of_nat (s + size)) op = Ok m' /\
    copied m m' (d + o) (s + o) (op_width op).
Proof.
  intros [Hu] Ho o Hi.
  assert (run_op vo m (Z.of_nat (d + size)) (Z.of_nat (s + size)) op =
          match op with
          | U8 _ => copy_word 1 | U16 _ => copy_word 2 | U32 _ => copy_word 4 | U64 _ => copy_word 8
          | V16 _ => vo16 vo | V32 _ => vo32 vo | V64 _ => vo64 vo | V128 _ => vo128 vo
          end m (Z.of_nat (d + o)) (Z.of_nat (s + o))) as ->.
  { unfold run_op, copy_scalar. rewrite Hu. destruct op; simpl in *; f_equal; lia. }
  destruct op; simpl in Hi; auto using copy_word_spec.
Qed.

(** the operations extend a copied prefix of [a] bytes to [size] bytes *)
Fixpoint covers (size a : nat) (ops : list tiny_op) : bool :=
  match ops with
  | [] => (a =? size)%nat
  | op :: ops =>
      let o := (size - Z.to_nat (op_off op))%nat in
      (0 <=? op_off op) && (op_off op <=? Z.of_nat size) && (o <=? a)%nat && (a <=? o + op_width op)%nat &&
      (o + op_width op <=? size)%nat && covers size (o + op_width op) ops
  end.

Lemma run_ops_spec vo ops m m1 d s a size : vec_ops_ok vo -> disjoint_ranges d s size -> inside m d s size ->
  covers size a ops = true -> copied m m1 d s a ->
  exists m', run_ops vo m1 (Z.of_nat (d + size)) (Z.of_nat (s + size)) ops = Ok m' /\ copied m m' d s size.
Proof.
  intros Hvo HD Hi. revert m1 a. induction ops as [|op ops IH]; intros m1 a Hc Hm; simpl in Hc.
  - apply Nat.eqb_eq in Hc as ->. by exists m1.
  - rewrite !andb_true_iff, !Nat.leb_le, !Z.leb_le in Hc. destruct Hc as (((((H1 & H2) & H3) & H4) & H5) & H6).
    destruct (run_op_spec vo m1 op d s size Hvo ltac:(lia)) as (m2 & E2 & Hm2).
    { destruct Hm as [L _]. destruct Hi. split; lia. }
    cbn [run_ops]. rewrite E2. cbn [mbind res_bind]. apply (IH _ _ H6).
    eapply copied_extend; [exact HD| |exact H5|exact Hm|exact Hm2]. lia.
Qed.

Lemma tiny_cases_cover :
  forallb (fun n => covers n 0 (tiny_case n)) (seq 0 64) &&
  forallb (fun n => covers (64 + n) 64 (tiny_case n)) (seq 0 64) = true.
Proof. vm_compute. reflexivity. Qed.

Lemma avx_cases_cover :
  forallb (fun n => covers n 0 (avx_case n)) (seq 0 128) &&
  forallb (fun n => covers (128 + n) 128 (avx_case n)) (seq 0 128) = true.
Proof. vm_compute. reflexivity. Qed.

Lemma cover_at (H : nat) (case : nat -> list tiny_op) :
  forallb (fun n => covers n 0 (case n)) (seq 0 H) &&
  forallb (fun n => covers (H + n) H (case n)) (seq 0 H) = true ->
  forall n, (n < H)%nat -> covers n 0 (case n) = true /\ covers (H + n) H (case n) = true.
Proof.
  intros E n Hn. apply andb_true_iff in E as [E1 E2]. rewrite forallb_forall in E1, E2.
  assert (In n (seq 0 H)) as Hi by (apply in_seq; lia). auto.
Qed.

(** the shape both switches have: [H] is the size of the vector copy that the
    upper half of the cases starts with *)
Lemma switch_spec vo H case copyH copy2H m d s size :
  vec_ops_ok vo -> copies H copyH -> copies (2 * H) copy2H ->
  (forall n, (n < H)%nat -> covers n 0 (case n) = true /\ covers (H + n) H (case n) = true) ->
  disjoint_ranges d s size -> inside m d s size -> (size <= 2 * H)%nat ->
  exists m',
    (let dd := Z.of_nat d + Z.of_nat size in let ss := Z.of_nat s + Z.of_nat size in
     if Z.of_nat size <? Z.of_nat H then run_ops vo m dd ss (case (Z.to_nat (Z.of_nat size)))
     else if Z.of_nat size <? 2 * Z.of_nat H then
       m ← copyH m (dd - Z.of_nat size) (ss - Z.of_nat size);
       run_ops vo m dd ss (case (Z.to_nat (Z.of_nat size - Z.of_nat H)))
     else if Z.of_nat size =? 2 * Z.of_nat H
     then copy2H m (dd - 2 * Z.of_nat H) (ss - 2 * Z.of_nat H) else Ok m) = Ok m' /\ copied m m' d s size.
Proof.
  intros Hvo HH H2 Hcov HD [Hi1 Hi2] Hs. cbv zeta. rewrite <-!Nat2Z.inj_add.
  destruct (Z.ltb_spec (Z.of_nat size) (Z.of_nat H)).
  { rewrite Nat2Z.id. destruct (Hcov size ltac:(lia)) as [Hc _].
    by apply (run_ops_spec vo _ m m d s 0); [..|apply copied_0]. }
  replace (Z.of_nat (d + size) - Z.of_nat size) with (Z.of_nat d) by lia.
  replace (Z.of_nat (s + size) - Z.of_nat size) with (Z.of_nat s) by lia.
  destruct (Z.ltb_spec (Z.of_nat size) (2 * Z.of_nat H)).
  - destruct (HH m d s) as (m1 & -> & Hm1); [split; lia|]. cbn [mbind res_bind].
    destruct (Hcov (size - H)%nat ltac:(lia)) as [_ Hc]. replace (H + (size - H))%nat with size in Hc by lia.
    replace (Z.to_nat (Z.of_nat size - Z.of_nat H)) with (size - H)%nat by lia.
    by apply (run_ops_spec vo _ m m1 d s H).
  - assert (size = 2 * H)%nat as -> by lia.
    destruct (Z.eqb_spec (Z.of_nat (2 * H)) (2 * Z.of_nat H)); [|lia].
    replace (Z.of_nat (d + 2 * H) - 2 * Z.of_nat H) with (Z.of_nat d) by lia.
    replace (Z.of_nat (s + 2 * H) - 2 * Z.of_nat H) with (Z.of_nat s) by lia.
    apply H2. split; lia.
Qed.

Lemma memcpy_tiny_spec m d s size : disjoint_ranges d s size -> inside m d s size -> (size <= 128)%nat ->
  exists m', memcpy_tiny m (Z.of_nat d) (Z.of_nat s) (Z.of_nat size) = Ok m' /\ copied m m' d s size.
Proof.
  apply (switch_spec sse2_ops 64 tiny_case memcpy_sse2_64 memcpy_sse2_128).
  - apply sse2_ops_ok.
  - apply copies_vecs; (lia || reflexivity).
  - apply copies_vecs; (lia || reflexivity).
  - apply cover_at, tiny_cases_cover.
Qed.

Lemma memcpy_tiny_avx_spec m d s size : disjoint_ranges d s size -> inside m d s size -> (size <= 256)%nat ->
  exists m', memcpy_tiny_avx true m (Z.of_nat d) (Z.of_nat s) (Z.of_nat size) = Ok m' /\ copied m m' d s size.
Proof.
  apply (switch_spec (avx_ops true) 128 avx_case memcpy_avx_128 memcpy_avx_256).
  - apply avx_ops_ok.
  - apply copies_vecs; (lia || reflexivity).
  - apply copies_vecs; (lia || reflexivity).
  - apply cover_at, avx_cases_cover.
Qed.

(** ** The main routines *)

Lemma aligned_step V k al p : (0 < V)%nat ->
  aligned_for V al p -> aligned_for V al (p + Z.of_nat k * Z.of_nat V).
Proof. intros HV H E. rewrite <-(H E). apply Z.mod_add. lia. Qed.

(** the loop copies all but less than eight vectors of the rest [r] *)
Lemma copy_loop_spec V lal sal fuel m m1 d s a r : (0 < V)%nat ->
  disjoint_ranges d s (a + r) -> inside m d s (a + r) -> copied m m1 d s a -> (r < fuel)%nat ->
  aligned_for V lal (Z.of_nat (s + a)) -> aligned_for V sal (Z.of_nat (d + a)) ->
  exists m2 a' r', (a' + r' = a + r)%nat /\ (r' < 8 * V)%nat /\ copied m m2 d s a' /\
    copy_loop fuel V lal sal m1 (Z.of_nat (d + a)) (Z.of_nat (s + a)) (Z.of_nat r) =
    Ok (m2, Z.of_nat (d + a'), Z.of_nat (s + a'), Z.of_nat r').
Proof.
  intros HV. revert m1 a r. induction fuel as [|fuel IH]; intros m1 a r HD Hi Hm Hf Hl Hs; [lia|].
  cbn [copy_loop]. destruct (Z.leb_spec (8 * Z.of_nat V) (Z.of_nat r)) as [Hr|Hr].
  2: { exists m1, a, r. split_and!; [done|lia|done|done]. }
  assert (inside m1 (d + a) (s + a) (V * 8)) as Hi1 by (destruct Hm as [L _], Hi; split; lia).
  rewrite copy_vecs_word by done.
  destruct (copy_word_spec m1 _ _ _ Hi1) as (m2 & -> & Hm2). cbn [mbind res_bind].
  replace (Z.of_nat (d + a) + 8 * Z.of_nat V) with (Z.of_nat (d + (a + V * 8))) by lia.
  replace (Z.of_nat (s + a) + 8 * Z.of_nat V) with (Z.of_nat (s + (a + V * 8))) by lia.
  replace (Z.of_nat r - 8 * Z.of_nat V) with (Z.of_nat (r - V * 8)) by lia.
  destruct (IH m2 (a + V * 8)%nat (r - V * 8)%nat) as (m3 & a' & r' & E & Hr' & Hm3 & EL).
  - by replace (a + V * 8 + (r - V * 8))%nat with (a + r)%nat by lia.
  - by replace (a + V * 8 + (r - V * 8))%nat with (a + r)%nat by lia.
  - eapply copied_extend; [exact HD| | |exact Hm|exact Hm2]; lia.
  - lia.
  - replace (Z.of_nat (s + (a + V * 8))) with (Z.of_nat (s + a) + Z.of_nat 8 * Z.of_nat V) by lia.
    by apply aligned_step.
  - replace (Z.of_nat (d + (a + V * 8))) with (Z.of_nat (d + a) + Z.of_nat 8 * Z.of_nat V) by lia.
    by apply aligned_step.
  - exists m3, a', r'. split_and!; [lia|done|done|exact EL].
Qed.

(** the body after the head: loop, then the switch on the rest *)
Lemma loop_then_tiny V lal sal tiny m d s r : (0 < V)%nat ->
  (forall m d s size, disjoint_ranges d s size -> inside m d s size -> (size <= 8 * V)%nat ->
     exists m', tiny m (Z.of_nat d) (Z.of_nat s) (Z.of_nat size) = Ok m' /\ copied m m' d s size) ->
  disjoint_ranges d s r -> inside m d s r ->
  aligned_for V lal (Z.of_nat s) -> aligned_for V sal (Z.of_nat d) ->
  exists m',
    ('(m, dst, src, size) ← copy_loop (S (Z.to_nat (Z.of_nat r))) V lal sal m (Z.of_nat d) (Z.of_nat s) (Z.of_nat r);
     tiny m dst src size) = Ok m' /\ copied m m' d s r.
Proof.
  intros HV Ht HD Hi Hl Hs. rewrite Nat2Z.id.
  destruct (copy_loop_spec V lal sal (S r) m m d s 0 r) as (m2 & a & r' & E & Hr' & Hm2 & EL);
    rewrite ?Nat.add_0_l, ?Nat.add_0_r; try done; [apply copied_0|lia|].
  rewrite !Nat.add_0_r in EL. rewrite EL. cbn [mbind res_bind].
  destruct (Ht m2 (d + a) (s + a) r')%nat as (m3 & -> & Hm3).
  - unfold disjoint_ranges in *. lia.
  - destruct Hm2 as [L _], Hi. split; lia.
  - lia.
  - exists m3. split; [done|]. replace r with (a + r')%nat by lia.
    eapply (copied_extend m m2 m3 d s a a r' r); [done|lia|lia|done|done].
Qed.

(** the padding is below the vector width and aligns the destination *)
Lemma padding_spec n (d : nat) : 0 < n ->
  let p := Z.land (2 ^ n - Z.land (Z.of_nat d) (Z.ones n)) (Z.ones n) in
  0 <= p < 2 ^ n /\ (Z.of_nat d + p) mod 2 ^ n = 0.
Proof.
  intros Hn p. assert (0 < 2 ^ n) as Hp by (apply Z.pow_pos_nonneg; lia).
  unfold p. rewrite !Z.land_ones by lia. split; [by apply Z.mod_pos_bound|].
  rewrite Zplus_mod_idemp_r. rewrite (Z.div_mod (Z.of_nat d) (2 ^ n)) at 1 by lia.
  replace (_ + _) with ((Z.of_nat d / 2 ^ n + 1) * 2 ^ n) by ring. apply Z.mod_mul. lia.
Qed.

(** the part of both routines behind the size test *)
Lemma padded_copy_spec V n tiny (head : bool) lal sal m d s size p :
  (0 < V)%nat -> Z.of_nat V = 2 ^ n -> 0 < n ->
  (forall m d s size, disjoint_ranges d s size -> inside m d s size -> (size <= 8 * V)%nat ->
     exists m', tiny m (Z.of_nat d) (Z.of_nat s) (Z.of_nat size) = Ok m' /\ copied m m' d s size) ->
  disjoint_ranges d s size -> inside m d s size -> (V <= size)%nat ->
  (p < V)%nat -> (head = false -> p = 0%nat) ->
  aligned_for V lal (Z.of_nat (s + p)) -> aligned_for V sal (Z.of_nat (d + p)) ->
  exists m',
    (m ← (if head then copy_vecs V 1 false false m (Z.of_nat d) (Z.of_nat s) else Ok m);
     '(m, dst, src, size) ← copy_loop (S (Z.to_nat (Z.of_nat (size - p)))) V lal sal m
        (Z.of_nat (d + p)) (Z.of_nat (s + p)) (Z.of_nat (size - p));
     tiny m dst src size) = Ok m' /\ copied m m' d s size.
Proof.
  intros HV En Hn Ht HD Hi HVs Hp Hh Hl Hs.
  assert (exists m1 a, (p <= a <= size)%nat /\ copied m m1 d s a /\
            (if head then copy_vecs V 1 false false m (Z.of_nat d) (Z.of_nat s) else Ok m) = Ok m1)
    as (m1 & a & Ha & Hm1 & ->).
  { destruct head.
    - rewrite copy_vecs_word by (done || (destruct Hi; split; lia)).
      destruct (copy_word_spec m d s (V * 1)) as (m1 & -> & Hm1); [destruct Hi; split; lia|].
      exists m1, (V * 1)%nat. split_and!; [lia|lia|done|done].
    - exists m, 0%nat. rewrite Hh by done. split_and!; [lia|lia|apply copied_0|done]. }
  cbn [mbind res_bind].
  destruct (loop_then_tiny V lal sal tiny m1 (d + p) (s + p) (size - p) HV Ht) as (m2 & E & Hm2).
  - unfold disjoint_ranges in *. lia.
  - destruct Hm1 as [L _], Hi. split; lia.
  - done.
  - done.
  - exists m2. split; [exact E|]. replace size with (p + (size - p))%nat by lia.
    eapply (copied_extend m m1 m2 d s a p (size - p) size); [done|lia|lia|done|done].
Qed.

Lemma padding_nat n (d : nat) : 0 < n ->
  exists p : nat, Z.land (2 ^ n - Z.land (Z.of_nat d) (Z.ones n)) (Z.ones n) = Z.of_nat p /\
    Z.of_nat p < 2 ^ n /\ Z.of_nat (d + p) mod 2 ^ n = 0.
Proof.
  intros Hn. destruct (padding_spec n d Hn) as [H1 H2]. revert H1 H2.
  generalize (Z.land (2 ^ n - Z.land (Z.of_nat d) (Z.ones n)) (Z.ones n)). intros z H1 H2.
  exists (Z.to_nat z). rewrite Nat2Z.inj_add, Z2Nat.id by lia. split_and!; [done|lia|done].
Qed.

Lemma memcpy_fast_spec m d s size : disjoint_ranges d s size -> inside m d s size ->
  exists m', memcpy_fast m (Z.of_nat d) (Z.of_nat s) (Z.of_nat size) = Ok m' /\ copied m m' d s size.
Proof.
  intros HD Hi. unfold memcpy_fast. destruct (Z.leb_spec (Z.of_nat size) 128).
  { apply memcpy_tiny_spec; [done|done|lia]. }
  destruct (padding_nat 4 d ltac:(lia)) as (p & E & Hp & Ha).
  change (2 ^ 4) with 16 in *. change (Z.ones 4) with 15 in E. rewrite E. cbv zeta.
  replace (Z.of_nat d + Z.of_nat p) with (Z.of_nat (d + p)) by lia.
  replace (Z.of_nat s + Z.of_nat p) with (Z.of_nat (s + p)) by lia.
  replace (Z.of_nat size - Z.of_nat p) with (Z.of_nat (size - p)) by lia.
  assert (forall lal, aligned_for 16 lal (Z.of_nat (s + p)) -> _) as Hcopy
    by (intros lal Hl; refine (padded_copy_spec 16 4 memcpy_tiny (0 <? Z.of_nat p) lal true m d s size p
          _ _ _ memcpy_tiny_spec HD Hi _ _ _ Hl _);
        (done || lia || (intros ?%Z.ltb_ge; lia) || exact (fun _ => Ha))).
  destruct (Z.leb_spec (Z.of_nat (size - p)) cachesize); [by apply Hcopy|].
  destruct (Z.eqb_spec (Z.land (Z.of_nat (s + p)) 15) 0) as [Es|]; [|by apply Hcopy].
  apply Hcopy. intros _. change (15) with (Z.ones 4) in Es. by rewrite Z.land_ones in Es.
Qed.

Lemma memcpy_fast_avx_spec m d s size : disjoint_ranges d s size -> inside m d s size ->
  exists m', memcpy_fast_avx true m (Z.of_nat d) (Z.of_nat s) (Z.of_nat size) = Ok m' /\ copied m m' d s size.
Proof.
  intros HD Hi. unfold memcpy_fast_avx. destruct (Z.leb_spec (Z.of_nat size) 256).
  { apply memcpy_tiny_avx_spec; [done|done|lia]. }
  destruct (padding_nat 5 d ltac:(lia)) as (p & E & Hp & Ha).
  change (2 ^ 5) with 32 in *. change (Z.ones 5) with 31 in E. rewrite E. cbv zeta.
  replace (Z.of_nat d + Z.of_nat p) with (Z.of_nat (d + p)) by lia.
  replace (Z.of_nat s + Z.of_nat p) with (Z.of_nat (s + p)) by lia.
  replace (Z.of_nat size - Z.of_nat p) with (Z.of_nat (size - p)) by lia.
  assert (forall lal sal, aligned_for 32 lal (Z.of_nat (s + p)) -> _) as Hcopy
    by (intros lal sal Hl; refine (padded_copy_spec 32 5 (memcpy_tiny_avx true) true lal sal m d s size p
          _ _ _ memcpy_tiny_avx_spec HD Hi _ _ _ Hl _);
        (done || lia || (intros ?%Z.ltb_ge; lia) || exact (fun _ => Ha))).
  destruct (Z.leb_spec (Z.of_nat (size - p)) cachesize); [by apply Hcopy|].
  destruct (Z.eqb_spec (Z.land (Z.of_nat (s + p)) 31) 0) as [Es|]; [|by apply Hcopy].
  apply Hcopy. intros _. change (31) with (Z.ones 5) in Es. by rewrite Z.land_ones in Es.
Qed.

Lemma memcpy_spec m d s size : disjoint_ranges d s size -> inside m d s size ->
  exists m', memcpy m (Z.of_nat d) (Z.of_nat s) (Z.of_nat size) = Ok m' /\ copied m m' d s size.
Proof.
  intros HD Hi. unfold memcpy.
  assert ((Z.of_nat d + Z.of_nat size <=? Z.of_nat s) || (Z.of_nat s + Z.of_nat size <=? Z.of_nat d) ||
          (Z.of_nat size =? 0) = true) as ->.
  { unfold disjoint_ranges in HD. rewrite !orb_true_iff, !Z.leb_le. lia. }
  rewrite Nat2Z.id. by apply copy_word_spec.
Qed.

(** the interface of a copy routine; its clients are proved against it *)
Class CopyRoutine (cpy : memory -> Z -> Z -> Z -> res memory) : Prop :=
  copy_ok : forall m d s n, disjoint_ranges d s n -> inside m d s n ->
    exists m', cpy m (Z.of_nat d) (Z.of_nat s) (Z.of_nat n) = Ok m' /\ copied m m' d s n.

#[global] Instance memcpy_routine : CopyRoutine memcpy := memcpy_spec.
#[global] Instance memcpy_fast_routine : CopyRoutine memcpy_fast := memcpy_fast_spec.
#[global] Instance memcpy_fast_avx_routine : CopyRoutine (memcpy_fast_avx true) := memcpy_fast_avx_spec.

(** the memory after a copy, when the destination is a known part of it *)
Lemma copy_app cpy `{!CopyRoutine cpy} a y t s :
  disjoint_ranges (length a) s (length y) -> (s + length y <= length (a ++ y ++ t))%nat ->
  cpy (a ++ y ++ t) (Z.of_nat (length a)) (Z.of_nat s) (Z.of_nat (length y)) =
  Ok (a ++ take (length y) (drop s (a ++ y ++ t)) ++ t).
Proof.
  intros HD Hs. assert (inside (a ++ y ++ t) (length a) s (length y)) as Hi.
  { split; [rewrite !length_app; lia|done]. }
  destruct (copy_ok _ _ _ _ HD Hi) as (m1 & -> & H1).
  destruct (copy_word_spec _ _ _ _ Hi) as (m2 & E2 & H2).
  rewrite (copied_unique _ _ _ _ _ _ H1 H2). unfold copy_word in E2.
  rewrite loadu_Ok in E2 by lia. cbn [mbind res_bind] in E2. rewrite Nat2Z.id in E2.
  rewrite storeu_mid in E2 by (rewrite length_take, length_drop; lia). done.
Qed.

(** ** Targets without misaligned accesses *)

(** [r'] is [r], or a misaligned access *)
Definition or_misaligned {A} (r r' : res A) : Prop := r' = r \/ r' = Err EAlign.

Lemma or_misaligned_bind {A B} (r r' : res A) (f f' : A -> res B) : or_misaligned r r' ->
  (forall x, or_misaligned (f x) (f' x)) -> or_misaligned (r ≫= f) (r' ≫= f').
Proof. intros [-> | ->] Hf; [|by right]. destruct r as [x|]; [apply Hf|by left]. Qed.

Lemma run_ops_strict ops : forall m dd ss, or_misaligned (run_ops (avx_ops true) m dd ss ops) (run_ops (avx_ops false) m dd ss ops).
Proof.
  induction ops as [|op ops IH]; intros m dd ss; [by left|]. cbn [run_ops]. apply or_misaligned_bind; [|done].
  destruct op; simpl; try by left.
  all: unfold copy_scalar; cbn [orb]; destruct (_ && _); [by left|by right].
Qed.

Lemma memcpy_tiny_avx_strict m dst src size : or_misaligned (memcpy_tiny_avx true m dst src size) (memcpy_tiny_avx false m dst src size).
Proof.
  unfold memcpy_tiny_avx. destruct (_ <? _); [apply run_ops_strict|]. destruct (_ <? _); [|by left].
  apply or_misaligned_bind; [by left|]. intros. apply run_ops_strict.
Qed.

Lemma memcpy_fast_avx_strict m dst src size : or_misaligned (memcpy_fast_avx true m dst src size) (memcpy_fast_avx false m dst src size).
Proof.
  unfold memcpy_fast_avx. destruct (_ <=? _); [apply memcpy_tiny_avx_strict|].
  apply or_misaligned_bind; [by left|]. intros m1. apply or_misaligned_bind; [by left|]. intros [[[m2 d2] s2] n2].
  apply memcpy_tiny_avx_strict.
Qed.

(** C22: for every size and every alignment of two ranges that do not overlap,
    both fast routines copy exactly the bytes libc's [memcpy] copies and
    nothing else: the 129 and 257 cases of the switches cover their sizes, the
    loops end, no vector access is misaligned and none leaves the ranges. For
    the AVX version the target allows misaligned scalar accesses, which its
    switch makes; on one that does not, it copies the same bytes or stops at
    such an access. *)
Theorem fast_memcpy_correct m d s size : disjoint_ranges d s size -> inside m d s size ->
  exists m', copied m m' d s size /\
    memcpy m (Z.of_nat d) (Z.of_nat s) (Z.of_nat size) = Ok m' /\
    memcpy_fast m (Z.of_nat d) (Z.of_nat s) (Z.of_nat size) = Ok m' /\
    memcpy_fast_avx true m (Z.of_nat d) (Z.of_nat s) (Z.of_nat size) = Ok m' /\
    (memcpy_fast_avx false m (Z.of_nat d) (Z.of_nat s) (Z.of_nat size) = Ok m' \/
     memcpy_fast_avx false m (Z.of_nat d) (Z.of_nat s) (Z.of_nat size) = Err EAlign).
Proof.
  intros HD Hi. destruct (memcpy_spec m d s size HD Hi) as (m1 & E1 & H1).
  destruct (memcpy_fast_spec m d s size HD Hi) as (m2 & E2 & H2).
  destruct (memcpy_fast_avx_spec m d s size HD Hi) as (m3 & E3 & H3).
  pose proof (memcpy_fast_avx_strict m (Z.of_nat d) (Z.of_nat s) (Z.of_nat size)) as Hstrict.
  rewrite E3 in Hstrict. exists m1. rewrite E1, E2, E3.
  rewrite (copied_unique _ _ _ _ _ _ H2 H1), (copied_unique _ _ _ _ _ _ H3 H1) in *. done.
Qed.

Lemma fast_memcpy_correct_witness : exists m', copied [1; 2; 3; 0; 0; 0] m' 3 0 3 /\
  memcpy [1; 2; 3; 0; 0; 0] 3 0 3 = Ok m' /\ memcpy_fast [1; 2; 3; 0; 0; 0] 3 0 3 = Ok m' /\
  memcpy_fast_avx true [1; 2; 3; 0; 0; 0] 3 0 3 = Ok m' /\
  (memcpy_fast_avx false [1; 2; 3; 0; 0; 0] 3 0 3 = Ok m' \/ memcpy_fast_avx false [1; 2; 3; 0; 0; 0] 3 0 3 = Err EAlign).
Proof.
  apply (fast_memcpy_correct [1; 2; 3; 0; 0; 0] 3 0 3).
  - right. simpl. lia.
  - split; simpl; lia.
Defined.
