(* ===== verification/Repeat.v ===== *)
(** * String repetition: src/include/repeat.hh

    [n] copies of a string in about log2 n copy operations, each copying a
    prefix of the result so far. The header has the scheme six times, with
    different copy routines; the routines satisfy one interface
    ([CopyRoutine]) and the clients are verified against it. *)

From S2P Require Import Prelude.
From S2P Require Import Simd.
From S2P Require Import FastMemcpy.

(** ** The copy routines of this header *)

Definition memcpy_inlined (m : list Z) (dst src size : Z) : res (list Z) :=
  match Z.to_nat size with
  | 1 => memcpy m dst src 1 | 2 => memcpy m dst src 2 | 3 => memcpy m dst src 3
  | 4 => memcpy m dst src 4 | 5 => memcpy m dst src 5 | 6 => memcpy m dst src 6
  | 7 => memcpy m dst src 7 | 8 => memcpy m dst src 8 | 9 => memcpy m dst src 9
  | 10 => memcpy m dst src 10 | 11 => memcpy m dst src 11 | 12 => memcpy m dst src 12
  | 13 => memcpy m dst src 13 | 14 => memcpy m dst src 14 | 15 => memcpy m dst src 15
  | 16 => memcpy m dst src 16
  | _ => memcpy m dst src size
  end%nat.

(** the SSE2 loop of the three vector routines: memory and pointers after it *)
Fixpoint sse2_copy_loop (fuel : nat) (m : list Z) (dst src sse2_end : Z) : res (list Z * Z * Z) :=
  match fuel with
  | O => Err EFuel
  | S fuel =>
      if src <? sse2_end then
        x ← loadu 16 m src;
        m ← storeu m dst x;
        sse2_copy_loop fuel m (dst + 16) (src + 16) sse2_end
      else Ok (m, dst, src)
  end.

Fixpoint byte_copy_loop (fuel : nat) (m : list Z) (dst src src_end : Z) : res (list Z) :=
  match fuel with
  | O => Err EFuel
  | S fuel =>
      if src <? src_end then
        x ← rd m src; m ← wr m dst x; byte_copy_loop fuel m (dst + 1) (src + 1) src_end
      else Ok m
  end.

Definition simd_memcpy_inline (m : list Z) (dst src size : Z) : res (list Z) :=
  let src_end := src + size in
  let sse2_end := src + Z.land size (Z.lnot (16 - 1)) in
  '(m, dst, src) ← sse2_copy_loop (S (Z.to_nat size)) m dst src sse2_end;
  byte_copy_loop (S (Z.to_nat size)) m dst src src_end.

Definition simd_memcpy_inline_memcpy_rest (m : list Z) (dst src size : Z) : res (list Z) :=
  let src_end := src + size in
  let sse2_end := src + Z.land size (Z.lnot (16 - 1)) in
  '(m, dst, src) ← sse2_copy_loop (S (Z.to_nat size)) m dst src sse2_end;
  memcpy m dst src (src_end - src).

Definition simd_memcpy_inline_gutil_memcpy_rest (m : list Z) (dst src size : Z) : res (list Z) :=
  let sse2_end := src + Z.land size (Z.lnot (16 - 1)) in
  '(m, dst, src) ← sse2_copy_loop (S (Z.to_nat size)) m dst src sse2_end;
  memcpy_inlined m dst src (Z.land size (16 - 1)).

(** ** The repetition scheme *)

(** [for (; n > 0; k += 1, last_bit = n & 1, n >>= 1) body]; [n] halves, so 64
    iterations are enough for every machine integer *)
Fixpoint logn_loop {St} (fuel : nat) (body : Z -> Z -> St -> res St) (k last_bit n : Z) (st : St) : res St :=
  match fuel with
  | O => Err EFuel
  | S fuel =>
      if 0 <? n then
        st ← body k last_bit st;
        logn_loop fuel body (k + 1) (Z.land n 1) (Z.shiftr n 1) st
      else Ok st
  end.

(** the template [fast_repeat(num, init_func, delta_func, args...)]; the
    arguments are the state the functions update *)
Definition fast_repeat_gen {St} (num : Z) (init_func delta_func : Z -> St -> res St) (st : St) : res St :=
  st ← init_func 1 st;
  logn_loop 64 (fun k last_bit st => n ← checked 32 (Z.shiftl 1 (k + last_bit)); delta_func n st)
    0 (Z.land num 1) (Z.shiftr num 1) st.

Definition count_n_init (i m : Z) : res Z := Ok i.
Definition count_n_delta (n m : Z) : res Z := checked 32 (m + n).
(** the counter [m] is uninitialised before the call *)
Definition count_n (m num : Z) : res Z := fast_repeat_gen num count_n_init count_n_delta m.

(** [std::string::max_size()] *)
Definition string_max_size : Z := 2 ^ 62.

(** [raw::make_room(v, n)]: a string of [n] bytes of unknown content *)
Definition make_room (raw : nat -> Z) (n : Z) : res (list Z) :=
  if n <=? string_max_size then Ok (raw <$> seq 0 (Z.to_nat n)) else Err EThrow.

(** the loop body of the [repeat_string_logn_*] functions; the memory has the
    argument followed by the room for the result *)
Definition repeat_body (cpy : list Z -> Z -> Z -> Z -> res (list Z)) (s_size result_begin : Z)
    (k last_bit : Z) (st : list Z * Z) : res (list Z * Z) :=
  let '(m, result_curr) := st in
  let len := i32 (u64 (s_size * Z.shiftl 1 k)) in
  m ← cpy m result_curr result_begin (u64 len);
  let result_curr := result_curr + len in
  if last_bit =? 0 then Ok (m, result_curr)
  else
    m ← cpy m result_curr result_begin (u64 len);
    Ok (m, result_curr + len).

Definition repeat_string_with (cpy : list Z -> Z -> Z -> Z -> res (list Z)) (raw : nat -> Z)
    (s : list Z) (n : Z) : res (list Z) :=
  let s_size := Z.of_nat (length s) in
  room ← make_room raw (u64 (s_size * n));
  let m := s ++ room in
  let result_begin := s_size in
  m ← cpy m result_begin 0 s_size;
  '(m, _) ← logn_loop 64 (repeat_body cpy s_size result_begin) 0 (Z.land n 1) (Z.shiftr n 1)
              (m, result_begin + s_size);
  Ok (drop (length s) m).

Definition repeat_string_logn_gutil_memcpy_inline := repeat_string_with memcpy_inlined.
Definition repeat_string_logn_simd_memcpy_inline_1 := repeat_string_with simd_memcpy_inline_gutil_memcpy_rest.
Definition repeat_string_logn_memcpy := repeat_string_with memcpy.
Definition repeat_string_logn_simd_memcpy_inline_2 := repeat_string_with simd_memcpy_inline_memcpy_rest.

(** the version that appends to a string it has already resized *)
Definition repeat_string_logn (s : list Z) (n : Z) : res (list Z) :=
  let s_size := Z.of_nat (length s) in
  result ← make_room (fun _ => 0) (u64 (s_size * n));
  let result := result ++ s in
  logn_loop 64 (fun k last_bit result =>
      let len := i32 (u64 (s_size * Z.shiftl 1 k)) in
      x ← loadu (Z.to_nat len) result 0;
      let result := result ++ x in
      if last_bit =? 0 then Ok result
      else x ← loadu (Z.to_nat len) result 0; Ok (result ++ x))
    0 (Z.land n 1) (Z.shiftr n 1) result.

(** [repeat_string_n]: one insertion per copy *)
Fixpoint repeat_string_loop (fuel : nat) (s : list Z) (n i : Z) (result : list Z) : res (list Z) :=
  match fuel with
  | O => Err EFuel
  | S fuel =>
      if i <? n then repeat_string_loop fuel s n (i + 1) (result ++ s) else Ok result
  end.
Definition repeat_string_n (s : list Z) (n : Z) : res (list Z) :=
  if u64 (Z.of_nat (length s) * n) <=? string_max_size
  then repeat_string_loop (S (Z.to_nat n)) s n 0 [] else Err EThrow.

(** [fast_repeat(src, dst, size, repeat_time)] on C strings: [size] counts the
    terminating zero *)
Definition fast_repeat (m : list Z) (src dst size repeat_time : Z) : res (list Z) :=
  if repeat_time <=? 0 then wr m dst 0
  else
    let size := u64 (size - 1) in
    let dst_hdr := dst in
    m ← memcpy_fast m dst src size;
    '(m, dst) ← logn_loop 64 (fun k last_bit '(m, dst) =>
        one ← checked 32 (Z.shiftl 1 k);
        let cpy_size := u64 (size * one) in
        m ← memcpy_fast m dst dst_hdr cpy_size;
        let dst := dst + cpy_size in
        if last_bit =? 0 then Ok (m, dst)
        else m ← memcpy_fast m dst dst_hdr cpy_size; Ok (m, dst + cpy_size))
      0 (Z.land repeat_time 1) (Z.shiftr repeat_time 1) (m, dst + size);
    wr m dst 0.

Fixpoint original_repeat_loop (fuel : nat) (m : list Z) (src dst size repeat_time i : Z) : res (list Z * Z) :=
  match fuel with
  | O => Err EFuel
  | S fuel =>
      if i <? repeat_time then
        m ← memcpy_fast m dst src (u64 (size - 1));
        original_repeat_loop fuel m src (dst + u64 (size - 1)) size repeat_time (i + 1)
      else Ok (m, dst)
  end.
Definition original_repeat (m : list Z) (src dst size repeat_time : Z) : res (list Z) :=
  '(m, dst) ← original_repeat_loop (S (Z.to_nat repeat_time)) m src dst size repeat_time 0;
  wr m dst 0.

(** ** The copy routines copy *)

#[global] Instance memcpy_inlined_routine : CopyRoutine memcpy_inlined.
Proof.
  intros m d s n HD Hi.
  assert (memcpy_inlined m (Z.of_nat d) (Z.of_nat s) (Z.of_nat n) = memcpy m (Z.of_nat d) (Z.of_nat s) (Z.of_nat n)) as ->.
  { unfold memcpy_inlined. rewrite Nat2Z.id. do 17 (destruct n as [|n]; [done|]). done. }
  by apply memcpy_routine.
Qed.

Lemma sse2_copy_loop_spec k fuel m m1 d s a N : disjoint_ranges d s N -> inside m d s N ->
  copied m m1 d s a -> (a + 16 * k <= N)%nat -> (k < fuel)%nat ->
  exists m2, copied m m2 d s (a + 16 * k) /\
    sse2_copy_loop fuel m1 (Z.of_nat (d + a)) (Z.of_nat (s + a)) (Z.of_nat (s + a + 16 * k)) =
    Ok (m2, Z.of_nat (d + (a + 16 * k)), Z.of_nat (s + (a + 16 * k))).
Proof.
  intros HD Hi. revert fuel m1 a. induction k as [|k IH]; intros [|fuel] m1 a Hm HN Hf; try lia; cbn [sse2_copy_loop].
  - rewrite Nat.mul_0_r, !Nat.add_0_r, Z.ltb_irrefl. eauto.
  - destruct (Z.ltb_spec (Z.of_nat (s + a)) (Z.of_nat (s + a + 16 * S k))); [|lia].
    assert (inside m1 (d + a) (s + a) 16) as Hi1 by (destruct Hm as [L _], Hi; split; lia).
    destruct (copy_word_spec m1 _ _ _ Hi1) as (m2 & E & Hm2). unfold copy_word in E.
    destruct (loadu 16 m1 (Z.of_nat (s + a))) as [x|]; [|done]. cbn [mbind res_bind] in *. rewrite E.
    cbn [mbind res_bind].
    replace (Z.of_nat (d + a) + 16) with (Z.of_nat (d + (a + 16))) by lia.
    replace (Z.of_nat (s + a) + 16) with (Z.of_nat (s + (a + 16))) by lia.
    replace (s + a + 16 * S k)%nat with (s + (a + 16) + 16 * k)%nat by lia.
    destruct (IH fuel m2 (a + 16)%nat) as (m3 & Hm3 & EL); [|lia|lia|].
    + eapply copied_extend; [exact HD| | |exact Hm|exact Hm2]; lia.
    + exists m3. replace (a + 16 * S k)%nat with (a + 16 + 16 * k)%nat by lia. done.
Qed.

Lemma byte_copy_loop_spec k fuel m m1 d s a : disjoint_ranges d s (a + k) -> inside m d s (a + k) ->
  copied m m1 d s a -> (k < fuel)%nat ->
  exists m2, copied m m2 d s (a + k) /\
    byte_copy_loop fuel m1 (Z.of_nat (d + a)) (Z.of_nat (s + a)) (Z.of_nat (s + (a + k))) = Ok m2.
Proof.
  revert fuel m1 a. induction k as [|k IH]; intros [|fuel] m1 a HD Hi Hm Hf; try lia; cbn [byte_copy_loop].
  - rewrite Nat.add_0_r, Z.ltb_irrefl. eauto.
  - destruct (Z.ltb_spec (Z.of_nat (s + a)) (Z.of_nat (s + (a + S k)))); [|lia].
    assert (inside m1 (d + a) (s + a) 1) as [Hd1 Hs1] by (destruct Hm as [L _], Hi; split; lia).
    destruct (lookup_lt_is_Some_2 m1 (s + a)) as [x Ex]; [lia|].
    rewrite (rd_nat _ _ _ Ex). cbn [mbind res_bind]. rewrite wr_Ok by lia. cbn [mbind res_bind]. rewrite Nat2Z.id.
    assert (copied m1 (<[(d + a)%nat:=x]> m1) (d + a) (s + a) 1) as Hm2.
    { split; [apply length_insert|]. intros i. case_decide.
      - assert (i = d + a)%nat as -> by lia. rewrite Nat.sub_diag, Nat.add_0_r, Ex. apply list_lookup_insert_eq. lia.
      - apply list_lookup_insert_ne. lia. }
    replace (Z.of_nat (d + a) + 1) with (Z.of_nat (d + (a + 1))) by lia.
    replace (Z.of_nat (s + a) + 1) with (Z.of_nat (s + (a + 1))) by lia.
    replace (a + S k)%nat with (a + 1 + k)%nat in * by lia.
    apply IH; [done|done| |lia]. eapply copied_extend; [exact HD| | |exact Hm|exact Hm2]; lia.
Qed.

(** the three vector routines: the SSE2 loop and a routine for the rest *)
Lemma simd_then_rest (rest : list Z -> Z -> Z -> Z -> res (list Z)) m d s n :
  (forall m1 a r, (a + r = n)%nat -> (r < 16)%nat -> copied m m1 d s a ->
     exists m', rest m1 (Z.of_nat (d + a)) (Z.of_nat (s + a)) (Z.of_nat r) = Ok m' /\ copied m m' d s n) ->
  disjoint_ranges d s n -> inside m d s n ->
  exists m',
    ('(m, dst, src) ← sse2_copy_loop (S (Z.to_nat (Z.of_nat n))) m (Z.of_nat d) (Z.of_nat s)
                        (Z.of_nat s + Z.land (Z.of_nat n) (Z.lnot (16 - 1)));
     rest m dst src (Z.of_nat n mod 16)) = Ok m' /\ copied m m' d s n.
Proof.
  intros Hrest HD Hi. change (16 - 1) with (2 ^ 4 - 1). rewrite round_down by lia. change (2 ^ 4) with 16.
  set (k := (n / 16)%nat). pose proof (Nat.div_mod_eq n 16) as Hd. fold k in Hd.
  pose proof (Nat.mod_upper_bound n 16 ltac:(lia)) as Hr.
  replace (Z.of_nat s + Z.of_nat n / 16 * 16) with (Z.of_nat (s + 0 + 16 * k))
    by (change 16 with (Z.of_nat 16); rewrite <-Nat2Z.inj_div; fold k; lia).
  replace (Z.of_nat n mod 16) with (Z.of_nat (n mod 16)) by (by rewrite Nat2Z.inj_mod).
  rewrite Nat2Z.id.
  destruct (sse2_copy_loop_spec k (S n) m m d s 0 n) as (m2 & Hm2 & E); [done|done|apply copied_0|lia|lia|].
  rewrite !Nat.add_0_r in E. rewrite !Nat.add_0_r, E. cbn [mbind res_bind].
  apply Hrest; [lia|lia|done].
Qed.

Lemma rest_copied cpy `{!CopyRoutine cpy} m m1 d s a r n : disjoint_ranges d s n -> inside m d s n ->
  (a + r = n)%nat -> copied m m1 d s a ->
  exists m', cpy m1 (Z.of_nat (d + a)) (Z.of_nat (s + a)) (Z.of_nat r) = Ok m' /\ copied m m' d s n.
Proof.
  intros HD Hi Ha Hm. destruct (copy_ok m1 (d + a) (s + a) r) as (m2 & E & H2).
  - unfold disjoint_ranges in *. lia.
  - destruct Hm as [L _], Hi. split; lia.
  - exists m2. split; [done|]. rewrite <-Ha. eapply copied_extend; [exact HD| | |exact Hm|exact H2]; lia.
Qed.

#[global] Instance simd_memcpy_inline_routine : CopyRoutine simd_memcpy_inline.
Proof.
  intros m d s n HD Hi. unfold simd_memcpy_inline. rewrite <-Nat2Z.inj_add.
  apply (simd_then_rest (fun m dst src _ => byte_copy_loop (S (Z.to_nat (Z.of_nat n))) m dst src (Z.of_nat (s + n))));
    [|done|done].
  intros m1 a r <- Hr Hm. rewrite Nat2Z.id.
  destruct (byte_copy_loop_spec r (S (a + r)) m m1 d s a) as (m2 & Hm2 & E); [done|done|done|lia|eauto].
Qed.

#[global] Instance simd_memcpy_inline_memcpy_rest_routine : CopyRoutine simd_memcpy_inline_memcpy_rest.
Proof.
  intros m d s n HD Hi. unfold simd_memcpy_inline_memcpy_rest. rewrite <-Nat2Z.inj_add.
  apply (simd_then_rest (fun m dst src _ => memcpy m dst src (Z.of_nat (s + n) - src))); [|done|done].
  intros m1 a r Ha Hr Hm. replace (Z.of_nat (s + n) - Z.of_nat (s + a)) with (Z.of_nat r) by lia.
  by apply (rest_copied memcpy).
Qed.

#[global] Instance simd_memcpy_inline_gutil_memcpy_rest_routine : CopyRoutine simd_memcpy_inline_gutil_memcpy_rest.
Proof.
  intros m d s n HD Hi. unfold simd_memcpy_inline_gutil_memcpy_rest.
  change (Z.land (Z.of_nat n) (16 - 1)) with (Z.land (Z.of_nat n) (2 ^ 4 - 1)). rewrite land_pow2_mod by lia.
  apply (simd_then_rest memcpy_inlined); [|done|done].
  intros m1 a r Ha Hr Hm. by apply (rest_copied memcpy_inlined).
Qed.

(** ** The loop does n repetitions *)

(** after [k] rounds, [2^k] plus the [k] low bits of [num] copies exist *)
Definition done_copies (num k : Z) : Z := 2 ^ k + num mod 2 ^ k.

Lemma done_copies_next num k : 0 <= k ->
  done_copies num k + 2 ^ k * (1 + Z.land (Z.shiftr num k) 1) = done_copies num (k + 1).
Proof.
  intros Hk. unfold done_copies. change 1 with (2 ^ 1 - 1) at 2. rewrite land_pow2_mod by lia.
  change (2 ^ 1) with 2. rewrite Z.shiftr_div_pow2, Z.pow_add_r, (Z.mul_comm _ (2 ^ 1)) by lia. change (2 ^ 1) with 2.
  rewrite (Z.mul_comm 2), Z.rem_mul_r by (pose proof (Z.pow_pos_nonneg 2 k); lia). ring.
Qed.

Lemma done_copies_last num k : 0 <= k -> 2 ^ k <= num < 2 ^ (k + 1) -> done_copies num k = num.
Proof.
  intros Hk Hn. unfold done_copies. rewrite Z.pow_add_r in Hn by lia.
  rewrite (Z.mod_eq num) by lia. replace (num / 2 ^ k) with 1; [lia|].
  apply (Z.div_unique _ _ _ (num - 2 ^ k)); lia.
Qed.

Lemma logn_loop_spec {St} (Inv : Z -> St -> Prop) body num st : 1 <= num < 2 ^ 63 ->
  (forall k st, 0 <= k -> 2 ^ (k + 1) <= num -> Inv (done_copies num k) st ->
     exists st', body k (Z.land (Z.shiftr num k) 1) st = Ok st' /\ Inv (done_copies num (k + 1)) st') ->
  Inv 1 st -> exists st', logn_loop 64 body 0 (Z.land num 1) (Z.shiftr num 1) st = Ok st' /\ Inv num st'.
Proof.
  intros Hn Hb Hi.
  cut (forall fuel k st, (Z.to_nat (63 - k) < fuel)%nat -> 0 <= k <= 63 -> 2 ^ k <= num ->
         Inv (done_copies num k) st ->
         exists st', logn_loop fuel body k (Z.land (Z.shiftr num k) 1) (Z.shiftr num (k + 1)) st = Ok st' /\ Inv num st').
  { intros H. apply (H 64%nat 0 st); [lia|lia|lia|]. unfold done_copies. by rewrite Z.mod_1_r. }
  clear st Hi. induction fuel as [|fuel IH]; intros k st Hf Hk Hle Hi; [lia|]. cbn [logn_loop].
  assert (0 < 2 ^ (k + 1)) as Hp by (apply Z.pow_pos_nonneg; lia).
  destruct (Z.ltb_spec 0 (Z.shiftr num (k + 1))) as [Hs|Hs].
  - assert (2 ^ (k + 1) <= num) as Hle'.
    { rewrite Z.shiftr_div_pow2 in Hs by lia. destruct (Z.le_gt_cases (2 ^ (k + 1)) num); [done|].
      rewrite Z.div_small in Hs by lia. lia. }
    destruct (Hb k st) as (st' & -> & Hi'); [lia|done|done|]. cbn [mbind res_bind].
    rewrite (Z.shiftr_shiftr num (k + 1) 1) by lia. assert (k <> 63) by (intros ->; lia).
    apply IH; done || lia.
  - exists st. split; [done|]. rewrite done_copies_last in Hi; [done|lia|].
    split; [done|]. rewrite Z.shiftr_div_pow2 in Hs by lia.
    destruct (Z.lt_ge_cases num (2 ^ (k + 1))) as [|Hge]; [done|].
    assert (1 <= num / 2 ^ (k + 1)) by (apply Z.div_le_lower_bound; lia). lia.
Qed.

(** ** Repetition of a string *)

Definition rep (c : nat) (s : list Z) : list Z := mjoin (replicate c s).

Lemma rep_S c s : rep (S c) s = s ++ rep c s.
Proof. done. Qed.

Lemma rep_1 s : rep 1 s = s.
Proof. apply app_nil_r. Qed.

Lemma rep_add a b s : rep (a + b) s = rep a s ++ rep b s.
Proof. unfold rep. by rewrite replicate_add, join_app. Qed.

Lemma length_rep c s : length (rep c s) = (length s * c)%nat.
Proof. induction c as [|c IH]; [simpl; lia|]. rewrite rep_S, length_app, IH. lia. Qed.

Lemma rep_prefix b c s t : (b <= c)%nat -> take (length s * b) (rep c s ++ t) = rep b s.
Proof.
  intros H. replace c with (b + (c - b))%nat by lia. rewrite rep_add, <-app_assoc.
  rewrite take_app_le, take_ge; rewrite ?length_rep; done || lia.
Qed.

(** appending a copy of the first [b] repetitions of [c] *)
Lemma copy_rep cpy `{!CopyRoutine cpy} pre c b s t D N : (b <= c)%nat -> (length s * b <= length t)%nat ->
  D = Z.of_nat (length pre + length s * c) -> N = Z.of_nat (length s * b) ->
  cpy (pre ++ rep c s ++ t) D (Z.of_nat (length pre)) N =
  Ok (pre ++ rep (c + b) s ++ drop (length s * b) t).
Proof.
  intros Hb Ht -> ->.
  destruct (list_split (length s * b) (length t - length s * b) t) as (y & t' & -> & Ly & _); [lia|].
  assert (length s * b <= length s * c)%nat as Hle by (by apply Nat.mul_le_mono_l).
  pose proof (copy_app cpy (pre ++ rep c s) y t' (length pre)) as E.
  rewrite length_app, length_rep, Ly in E. rewrite <-!app_assoc in E. rewrite E; cycle 1.
  - right. lia.
  - rewrite !length_app, length_rep, Ly. lia.
  - f_equal. rewrite drop_app_length, rep_prefix by done.
    rewrite (drop_app_le y t'), (drop_ge y) by lia. cbn [app].
    by rewrite rep_add, <-!app_assoc.
Qed.

(** the invariant of the loops: [c] of [n] repetitions are written over the
    start of the region [T] behind [pre] *)
Definition repeated (pre s : list Z) (n : Z) (T : list Z) (c : Z) (st : list Z * Z) : Prop :=
  st.1 = pre ++ rep (Z.to_nat c) s ++ drop (length s * Z.to_nat c) T /\
  Z.of_nat (length s) * n <= Z.of_nat (length T) /\
  st.2 = Z.of_nat (length pre) + Z.of_nat (length s) * c.

Lemma repeated_copy cpy `{!CopyRoutine cpy} pre s n T c b st N : repeated pre s n T c st ->
  0 <= b <= c -> c + b <= n -> N = Z.of_nat (length s) * b ->
  exists m', cpy st.1 st.2 (Z.of_nat (length pre)) N = Ok m' /\ repeated pre s n T (c + b) (m', st.2 + N).
Proof.
  intros (-> & LT & ->) Hb Hc ->.
  destruct (Z_of_nat_complete b) as [b' ->]; [lia|]. destruct (Z_of_nat_complete c) as [c' ->]; [lia|].
  rename b' into b, c' into c. rewrite !Nat2Z.id in *.
  assert (Z.of_nat (length s) * Z.of_nat (c + b) <= Z.of_nat (length s) * n) as Hle
    by (apply Z.mul_le_mono_nonneg_l; lia).
  rewrite (copy_rep cpy pre c b s (drop (length s * c) T)) by (rewrite ?length_drop; lia).
  eexists. split; [done|]. unfold repeated. cbn [fst snd]. rewrite <-Nat2Z.inj_add, Nat2Z.id. split_and!; [|done|lia].
  rewrite drop_drop. do 3 f_equal. lia.
Qed.

Lemma done_copies_range num k : 0 <= k -> 2 ^ (k + 1) <= num ->
  2 ^ k <= done_copies num k /\ done_copies num k + 2 ^ k * (1 + Z.land (Z.shiftr num k) 1) <= num /\
  (Z.land (Z.shiftr num k) 1 = 0 \/ Z.land (Z.shiftr num k) 1 = 1).
Proof.
  intros Hk Hle. assert (0 < 2 ^ k) by (apply Z.pow_pos_nonneg; lia).
  pose proof (Z.mod_pos_bound num (2 ^ k) ltac:(lia)).
  split; [unfold done_copies; lia|]. split.
  - rewrite done_copies_next by done. unfold done_copies.
    rewrite (Z.mod_eq num) by lia. assert (1 <= num / 2 ^ (k + 1)) by (apply Z.div_le_lower_bound; lia).
    assert (2 ^ (k + 1) * 1 <= 2 ^ (k + 1) * (num / 2 ^ (k + 1))) by (apply Z.mul_le_mono_nonneg_l; lia). lia.
  - change 1 with (2 ^ 1 - 1). rewrite land_pow2_mod by lia.
    pose proof (Z.mod_pos_bound (Z.shiftr num k) (2 ^ 1) ltac:(lia)). lia.
Qed.

(** one round: a copy of [2^k] repetitions, twice if the bit of [num] is set *)
Lemma repeated_round cpy `{!CopyRoutine cpy} pre s num T k m cur N :
  0 <= k -> 2 ^ (k + 1) <= num -> N = Z.of_nat (length s) * 2 ^ k ->
  repeated pre s num T (done_copies num k) (m, cur) ->
  exists m1, cpy m cur (Z.of_nat (length pre)) N = Ok m1 /\
    if Z.land (Z.shiftr num k) 1 =? 0 then repeated pre s num T (done_copies num (k + 1)) (m1, cur + N)
    else exists m2, cpy m1 (cur + N) (Z.of_nat (length pre)) N = Ok m2 /\
      repeated pre s num T (done_copies num (k + 1)) (m2, cur + N + N).
Proof.
  intros Hk Hle HN Hm. destruct (done_copies_range num k Hk Hle) as (H1 & H2 & H3).
  assert (0 < 2 ^ k) by (apply Z.pow_pos_nonneg; lia).
  destruct (repeated_copy cpy pre s num T _ (2 ^ k) (m, cur) N Hm) as (m1 & E1 & Hm1); [lia|lia|done|].
  exists m1. split; [done|]. rewrite <-(done_copies_next num k Hk).
  destruct H3 as [E|E]; rewrite E in *; cbn [Z.eqb].
  - by replace (2 ^ k * (1 + 0)) with (2 ^ k) by lia.
  - destruct (repeated_copy cpy pre s num T _ (2 ^ k) (m1, cur + N) N Hm1) as (m2 & E2 & Hm2); [lia|lia|done|].
    exists m2. split; [done|]. cbn [fst snd] in Hm2.
    by replace (done_copies num k + 2 ^ k * (1 + 1)) with (done_copies num k + 2 ^ k + 2 ^ k) by lia.
Qed.

Lemma len_exact sz k n : 0 <= sz -> 0 <= k -> 2 ^ (k + 1) <= n -> sz * n < 2 ^ 31 ->
  i32 (u64 (sz * Z.shiftl 1 k)) = sz * 2 ^ k /\ u64 (sz * 2 ^ k) = sz * 2 ^ k.
Proof.
  intros Hs Hk Hn Hb. rewrite Z.shiftl_1_l. rewrite Z.pow_add_r in Hn by lia.
  assert (0 < 2 ^ k) by (apply Z.pow_pos_nonneg; lia).
  assert (sz * 2 ^ k <= sz * n) by (apply Z.mul_le_mono_nonneg_l; lia).
  assert (0 <= sz * 2 ^ k) by (apply Z.mul_nonneg_nonneg; lia).
  rewrite (wrapu_id 64) by (unfold inu; lia). rewrite (wraps_id 32) by (unfold ins; lia). done.
Qed.

Lemma make_room_spec raw sz n : 0 <= sz -> 0 <= n -> sz * n < 2 ^ 31 ->
  exists room, make_room raw (u64 (sz * n)) = Ok room /\ Z.of_nat (length room) = sz * n.
Proof.
  intros Hs Hn Hb. rewrite (wrapu_id 64) by (unfold inu; lia). unfold make_room, string_max_size.
  destruct (Z.leb_spec (sz * n) (2 ^ 62)); [|lia]. eexists. split; [done|].
  rewrite length_fmap, length_seq. lia.
Qed.

Lemma repeat_string_spec cpy `{!CopyRoutine cpy} raw s n :
  1 <= n < 2 ^ 31 -> Z.of_nat (length s) * n < 2 ^ 31 ->
  repeat_string_with cpy raw s n = Ok (rep (Z.to_nat n) s).
Proof.
  intros Hn Hb. unfold repeat_string_with.
  destruct (make_room_spec raw (Z.of_nat (length s)) n) as (room & -> & Lr); [lia|lia|done|]. cbn [mbind res_bind].
  destruct (list_split (length s) (length room - length s) room) as (y & t & -> & Ly & Lt).
  { assert (Z.of_nat (length s) * 1 <= Z.of_nat (length s) * n) by (apply Z.mul_le_mono_nonneg_l; lia). lia. }
  pose proof (copy_app cpy s y t 0) as E. rewrite Ly in E. change (Z.of_nat 0) with 0 in E. rewrite E; cycle 1.
  { right. lia. }
  { rewrite !length_app. lia. }
  cbn [mbind res_bind]. rewrite drop_0, take_app_length.
  destruct (logn_loop_spec (repeated s s n (y ++ t)) (repeat_body cpy (Z.of_nat (length s)) (Z.of_nat (length s))) n
              (s ++ s ++ t, Z.of_nat (length s) + Z.of_nat (length s))) as ([m cur] & -> & Hm); [lia| | |].
  - intros k [m cur] Hk Hle Hm. unfold repeat_body.
    destruct (len_exact (Z.of_nat (length s)) k n) as [-> ->]; [lia|done|done|done|].
    destruct (repeated_round cpy s s n (y ++ t) k m cur _ Hk Hle eq_refl Hm) as (m1 & -> & H1). cbn [mbind res_bind].
    destruct (_ =? 0); [by eexists|]. destruct H1 as (m2 & -> & H2). by eexists.
  - unfold repeated. cbn [fst snd]. change (Z.to_nat 1) with 1%nat. rewrite rep_1, Nat.mul_1_r. split_and!; [|lia|lia].
    by rewrite <-Ly, drop_app_length.
  - cbn [mbind res_bind]. destruct Hm as (Hm & _ & _). cbn [fst] in Hm.
    rewrite Hm, (drop_ge (y ++ t)), app_nil_r, drop_app_length by lia. done.
Qed.

Lemma repeat_string_loop_spec j fuel s n i : n = i + Z.of_nat j -> (j < fuel)%nat ->
  forall result, repeat_string_loop fuel s n i result = Ok (result ++ rep j s).
Proof.
  revert fuel i. induction j as [|j IH]; intros [|fuel] i Hn Hf result; try lia; cbn [repeat_string_loop].
  - destruct (Z.ltb_spec i n); [lia|]. by rewrite app_nil_r.
  - destruct (Z.ltb_spec i n); [|lia]. rewrite IH by lia. by rewrite rep_S, <-app_assoc.
Qed.

(** A count of 0 gives a result without room, and the first copy of the string
    into it is out of range: *)
Definition copy_overruns (cpy : list Z -> Z -> Z -> Z -> res (list Z)) : Prop :=
  forall s, s <> [] -> cpy s (Z.of_nat (length s)) 0 (Z.of_nat (length s)) = Err EBounds.

Lemma store_past s v : v <> [] -> storeu s (Z.of_nat (length s)) v = Err EBounds.
Proof.
  intros Hv. assert (length v <> 0)%nat by (by destruct v). unfold storeu.
  destruct (Z.leb_spec (Z.of_nat (length s) + Z.of_nat (length v)) (Z.of_nat (length s))); [lia|]. by rewrite andb_false_r.
Qed.

Lemma nonempty_length (s : list Z) : s <> [] -> (0 < length s)%nat.
Proof. destruct s; [done|]. simpl. lia. Qed.

Lemma memcpy_overruns : copy_overruns memcpy.
Proof.
  intros s Hs%nonempty_length. unfold memcpy. destruct (Z.leb_spec (0 + Z.of_nat (length s)) (Z.of_nat (length s))); [|lia].
  rewrite orb_true_r. cbn [orb]. rewrite loadu_Ok by lia. cbn [mbind res_bind]. apply store_past.
  intros E%(f_equal length). rewrite length_take, length_drop in E. simpl in E. lia.
Qed.

Lemma memcpy_inlined_overruns : copy_overruns memcpy_inlined.
Proof.
  intros s Hs. rewrite <-(memcpy_overruns s Hs). unfold memcpy_inlined. rewrite Nat2Z.id.
  destruct (length s) as [|n]; [done|]. do 16 (destruct n as [|n]; [done|]). done.
Qed.

(** the SSE2 loop overruns the room, or leaves a whole short string to the rest *)
Lemma sse2_overruns s (rest : list Z -> Z -> Z -> res (list Z)) : s <> [] ->
  (Z.of_nat (length s) < 16 -> rest s (Z.of_nat (length s)) 0 = Err EBounds) ->
  ('(m, dst, src) ← sse2_copy_loop (S (Z.to_nat (Z.of_nat (length s)))) s (Z.of_nat (length s)) 0
      (0 + Z.land (Z.of_nat (length s)) (Z.lnot (16 - 1)));
   rest m dst src) = Err EBounds.
Proof.
  intros Hs Hr. pose proof (nonempty_length s Hs) as Hl.
  assert (Z.land (Z.of_nat (length s)) (Z.lnot (16 - 1)) = Z.of_nat (length s) / 16 * 16) as ->.
  { change (16 - 1) with (Z.ones 4). rewrite <-Z.ldiff_land, Z.ldiff_ones_r, Z.shiftl_mul_pow2, Z.shiftr_div_pow2 by lia. done. }
  cbn [sse2_copy_loop]. destruct (Z.ltb_spec 0 (0 + Z.of_nat (length s) / 16 * 16)) as [H|H].
  - assert (16 <= Z.of_nat (length s)) by (Z.to_euclidean_division_equations; lia).
    rewrite loadu_Ok by lia. cbn [mbind res_bind]. rewrite store_past; [done|].
    intros E%(f_equal length). rewrite length_take, length_drop in E. change (Z.to_nat 0) with 0%nat in E. cbn [length] in E. lia.
  - cbn [mbind res_bind]. apply Hr. Z.to_euclidean_division_equations; lia.
Qed.

Lemma simd_overruns : copy_overruns simd_memcpy_inline_gutil_memcpy_rest /\ copy_overruns simd_memcpy_inline_memcpy_rest.
Proof.
  split; intros s Hs.
  - apply (sse2_overruns s (fun m dst src => memcpy_inlined m dst src (Z.land (Z.of_nat (length s)) (16 - 1)))); [done|].
    intros H. change (16 - 1) with (Z.ones 4). rewrite Z.land_ones by lia. rewrite Z.mod_small by lia.
    by apply memcpy_inlined_overruns.
  - apply (sse2_overruns s (fun m dst src => memcpy m dst src (0 + Z.of_nat (length s) - src))); [done|].
    intros H. replace (0 + Z.of_nat (length s) - 0) with (Z.of_nat (length s)) by lia. by apply memcpy_overruns.
Qed.

Lemma repeat_string_zero cpy `{!CopyRoutine cpy} raw s : copy_overruns cpy ->
  repeat_string_with cpy raw s 0 = if decide (s = []) then Ok [] else Err EBounds.
Proof.
  intros Ho. unfold repeat_string_with. rewrite Z.mul_0_r. change (make_room raw (u64 0)) with (Ok (A := list Z) []).
  cbn [mbind res_bind]. rewrite app_nil_r. case_decide as Hs; [subst s|by rewrite Ho].
  pose proof (copy_app cpy [] [] [] 0) as E. cbn [length app take drop] in E. change (Z.of_nat 0) with 0 in E.
  cbn [length]. change (Z.of_nat 0) with 0. by rewrite E by (done || left; lia).
Qed.

(** C34: for every count that is not negative and a result of fewer than [2^31]
    bytes, the linear version returns the string repeated [n] times, and so do
    the four log-n versions, with their four copy routines and whatever the
    fresh buffer held, except for a count of 0: then they copy the string, if it
    is not empty, into a result without room. *)
Theorem repeat_string_correct raw s n : 0 <= n < 2 ^ 31 -> Z.of_nat (length s) * n < 2 ^ 31 ->
  let r := if decide (n = 0 /\ s <> []) then Err EBounds else Ok (rep (Z.to_nat n) s) in
  repeat_string_logn_gutil_memcpy_inline raw s n = r /\
  repeat_string_logn_simd_memcpy_inline_1 raw s n = r /\
  repeat_string_logn_memcpy raw s n = r /\
  repeat_string_logn_simd_memcpy_inline_2 raw s n = r /\
  repeat_string_n s n = Ok (rep (Z.to_nat n) s).
Proof.
  intros Hn Hb r.
  assert (forall cpy, CopyRoutine cpy -> copy_overruns cpy -> repeat_string_with cpy raw s n = r) as H.
  { intros cpy Hc Ho. unfold r. destruct (decide (n = 0)) as [->|Hn0].
    - rewrite repeat_string_zero by done. destruct (decide (s = [])) as [->|Hs]; [by rewrite decide_False by tauto|].
      by rewrite decide_True.
    - rewrite decide_False by tauto. by apply repeat_string_spec; [|lia|]. }
  split_and!; try (apply H; [apply _|]).
  - apply memcpy_inlined_overruns.
  - apply simd_overruns.
  - apply memcpy_overruns.
  - apply simd_overruns.
  - unfold repeat_string_n. rewrite (wrapu_id 64) by (unfold inu; lia). unfold string_max_size.
    destruct (Z.leb_spec (Z.of_nat (length s) * n) (2 ^ 62)); [|lia].
    by rewrite (repeat_string_loop_spec (Z.to_nat n)) by lia.
Qed.

Lemma repeat_string_correct_witness :
  repeat_string_logn_memcpy (fun _ => 7) [97; 98] 5 = Ok [97; 98; 97; 98; 97; 98; 97; 98; 97; 98] /\
  repeat_string_logn_memcpy (fun _ => 7) [97; 98] 0 = Err EBounds.
Proof.
  split; [apply (repeat_string_correct (fun _ => 7) [97; 98] 5)|apply (repeat_string_correct (fun _ => 7) [97; 98] 0)];
    vm_compute; try split; congruence.
Defined.

(** ** The other versions *)

Lemma count_n_spec m num : num < 2 ^ 31 -> count_n m num = Ok (Z.max 1 num).
Proof.
  intros Hn. unfold count_n, fast_repeat_gen, count_n_init. cbn [mbind res_bind].
  destruct (Z.le_gt_cases num 0) as [H0|H0].
  - rewrite Z.max_l by lia. cbn [logn_loop].
    destruct (Z.ltb_spec 0 (Z.shiftr num 1)) as [Hs|]; [|done].
    rewrite Z.shiftr_div_pow2 in Hs by lia. Z.to_euclidean_division_equations. lia.
  - rewrite Z.max_r by lia.
    match goal with |- logn_loop 64 ?body 0 _ _ ?st0 = _ =>
      destruct (logn_loop_spec (fun c (st : Z) => st = c) body num st0) as (st' & -> & ->); [lia| |done|done]
    end.
    intros k c Hk Hle ->. destruct (done_copies_range num k Hk Hle) as (H1 & H2 & H3).
    assert (0 < 2 ^ k) by (apply Z.pow_pos_nonneg; lia).
    rewrite <-(done_copies_next num k Hk). rewrite Z.shiftl_1_l.
    destruct H3 as [E|E]; rewrite E in *; rewrite Z.pow_add_r by lia; unfold count_n_delta;
      rewrite checked_Ok by (unfold ins; lia); cbn [mbind res_bind];
      rewrite checked_Ok by (unfold ins; lia); eauto.
Qed.

Lemma load_zeros a b z (s : list Z) : (a <= b)%nat -> loadu a (replicate b z ++ s) 0 = Ok (replicate a z).
Proof.
  intros H. rewrite loadu_Ok by (rewrite ?length_app, ?length_replicate; lia).
  change (Z.to_nat 0) with 0%nat. rewrite drop_0, take_app_le by (rewrite length_replicate; lia).
  by rewrite take_replicate, Nat.min_l by lia.
Qed.

Lemma repeat_string_logn_spec s n : 1 <= n < 2 ^ 31 -> Z.of_nat (length s) * n < 2 ^ 31 ->
  let z c := replicate (Z.to_nat (Z.of_nat (length s) * c)) 0 in
  repeat_string_logn s n = Ok (z n ++ s ++ z (n - 1)).
Proof.
  intros Hn Hb z. unfold repeat_string_logn.
  assert (make_room (fun _ => 0) (u64 (Z.of_nat (length s) * n)) = Ok (z n)) as ->.
  { rewrite (wrapu_id 64) by (unfold inu; lia). unfold make_room, string_max_size.
    destruct (Z.leb_spec (Z.of_nat (length s) * n) (2 ^ 62)); [|lia]. f_equal. unfold z.
    rewrite (const_fmap _ _ 0) by done. by rewrite length_seq. }
  cbn [mbind res_bind].
  assert (forall a b, 0 <= a -> 0 <= b -> z a ++ z b = z (a + b)) as Hz.
  { intros a b Ha Hb'. unfold z. rewrite <-replicate_add. f_equal. nia. }
  match goal with |- logn_loop 64 ?body 0 _ _ ?st0 = _ =>
    destruct (logn_loop_spec (fun c (st : list Z) => st = z n ++ s ++ z (c - 1)) body n st0)
      as (st' & -> & ->); [lia| | |done]
  end.
  2: { change (1 - 1) with 0. unfold z. rewrite Z.mul_0_r. simpl. by rewrite app_nil_r. }
  intros k c Hk Hle ->. destruct (done_copies_range n k Hk Hle) as (H1 & H2 & H3).
  destruct (len_exact (Z.of_nat (length s)) k n) as [-> _]; [lia|done|done|done|].
  assert (0 < 2 ^ k) as Hp by (apply Z.pow_pos_nonneg; lia).
  assert (forall t, loadu (Z.to_nat (Z.of_nat (length s) * 2 ^ k)) (z n ++ t) 0 = Ok (z (2 ^ k))) as Hl.
  { intros t. apply load_zeros. apply Z2Nat.inj_le; nia. }
  rewrite Hl. cbn [mbind res_bind]. rewrite <-(done_copies_next n k Hk).
  destruct H3 as [E|E]; rewrite E; cbn [Z.eqb].
  - eexists. split; [done|]. rewrite <-!app_assoc, Hz by lia. do 3 f_equal. lia.
  - rewrite <-!app_assoc, Hl. cbn [mbind res_bind]. eexists. split; [done|].
    rewrite <-!app_assoc, !Hz by lia. do 3 f_equal. lia.
Qed.

(** [repeat_string_logn] resizes its result to the final length before it
    appends to it, so what it returns is twice as long and, but for one copy of
    the string in the middle, all zero bytes. *)
Theorem repeat_string_logn_zeros s n : 1 <= n < 2 ^ 31 -> Z.of_nat (length s) * n < 2 ^ 31 ->
  let z c := replicate (Z.to_nat (Z.of_nat (length s) * c)) 0 in
  repeat_string_logn s n = Ok (z n ++ s ++ z (n - 1)).
Proof. apply repeat_string_logn_spec. Qed.

Lemma repeat_string_logn_zeros_witness : repeat_string_logn [97] 2 = Ok [0; 0; 97; 0].
Proof. apply (repeat_string_logn_zeros [97] 2); vm_compute; split; congruence. Defined.

(** the counting instance of the scheme: [count_n] counts every positive
    [int] exactly, and 1 for zero and the negative ones. *)
Theorem count_n_correct m num : num < 2 ^ 31 -> count_n m num = Ok (Z.max 1 num).
Proof. apply count_n_spec. Qed.

Lemma count_n_correct_witness : count_n 0 13 = Ok 13.
Proof. apply (count_n_correct 0 13). reflexivity. Defined.

(** ** Repetition of C strings in memory *)

Section c_strings.
Context (pre room post s : list Z) (src n : nat).
Context (Hn : (1 <= n)%nat) (Hsize : Z.of_nat (length s) * Z.of_nat n < 2 ^ 31) (Hn31 : Z.of_nat n < 2 ^ 31).
(** the destination has room for [n] copies and the terminating zero *)
Context (Hroom : length room = (length s * n + 1)%nat).
(** the source is outside of it *)
Context (Hsrc : (src + length s <= length pre)%nat \/
                (length pre + length room <= src)%nat /\ (src + length s <= length (pre ++ room ++ post))%nat).
Context (Hs : take (length s) (drop src (pre ++ room ++ post)) = s).

Lemma source_stable x : length x = length room -> take (length s) (drop src (pre ++ x ++ post)) = s.
Proof.
  intros Lx. rewrite <-Hs at 2. destruct Hsrc as [H|[H _]].
  - rewrite !drop_app_le, !take_app_le by (rewrite ?length_drop; lia). done.
  - rewrite !drop_app, !(drop_ge pre), !(drop_ge x), !(drop_ge room) by lia. simpl. by rewrite Lx.
Qed.

Definition region (i : nat) : list Z := pre ++ rep i s ++ drop (length s * i) (room ++ post).

Lemma region_eq i : (i <= n)%nat -> region i = pre ++ (rep i s ++ drop (length s * i) room) ++ post.
Proof.
  intros Hi. unfold region. rewrite <-app_assoc, drop_app_le; [done|].
  assert (length s * i <= length s * n)%nat by (by apply Nat.mul_le_mono_l). lia.
Qed.

Lemma copy_source i : (i < n)%nat ->
  memcpy_fast (region i) (Z.of_nat (length pre + length s * i)) (Z.of_nat src) (Z.of_nat (length s)) = Ok (region (S i)).
Proof.
  intros Hi. assert (length s * S i <= length s * n)%nat as Hle by (apply Nat.mul_le_mono_l; lia).
  assert (length (rep i s ++ drop (length s * i) room) = length room) as L
    by (rewrite length_app, length_drop, length_rep; lia).
  destruct (list_split (length s) (length room - length s * S i) (drop (length s * i) room))
    as (y & t & E & Ly & Lt); [rewrite length_drop; lia|].
  pose proof (copy_app memcpy_fast (pre ++ rep i s) y (t ++ post) src) as C.
  rewrite Ly, !length_app, length_rep in C.
  assert ((pre ++ rep i s) ++ y ++ t ++ post = region i) as Er.
  { rewrite region_eq by lia. rewrite E, <-!app_assoc. done. }
  rewrite Er in C. rewrite C.
  - rewrite region_eq, source_stable by (done || lia). rewrite region_eq by lia.
    rewrite (Nat.mul_succ_r (length s) i), <-(drop_drop room (length s) (length s * i)), E.
    rewrite (drop_app_le y t), (drop_ge y) by lia. cbn [app].
    replace (S i) with (i + 1)%nat by lia. by rewrite rep_add, rep_1, <-!app_assoc.
  - unfold disjoint_ranges. lia.
  - rewrite !length_app in Hsrc. lia.
Qed.

Lemma write_end : wr (region n) (Z.of_nat (length pre + length s * n)) 0 = Ok (pre ++ rep n s ++ 0 :: post).
Proof.
  destruct (list_split (length s * n) 1 room) as (r & z & E & Lr & Lz); [done|]. explode_lists.
  unfold region. rewrite E, <-app_assoc, drop_app_le, drop_ge by lia. cbn [app].
  rewrite wr_Ok by (rewrite !length_app, length_rep; simpl; lia). rewrite Nat2Z.id. f_equal.
  rewrite app_assoc. replace (length pre + length s * n)%nat with (length (pre ++ rep n s) + 0)%nat
    by (rewrite length_app, length_rep; lia).
  rewrite insert_app_r. by rewrite <-app_assoc.
Qed.

Lemma original_repeat_loop_spec j fuel i : (i + j = n)%nat -> (j < fuel)%nat ->
  original_repeat_loop fuel (region i) (Z.of_nat src) (Z.of_nat (length pre + length s * i))
    (Z.of_nat (length s) + 1) (Z.of_nat n) (Z.of_nat i) =
  Ok (region n, Z.of_nat (length pre + length s * n)).
Proof.
  assert (u64 (Z.of_nat (length s) + 1 - 1) = Z.of_nat (length s)) as Eu.
  { replace (Z.of_nat (length s) + 1 - 1) with (Z.of_nat (length s)) by lia.
    apply (wrapu_id 64). unfold inu. nia. }
  revert fuel i. induction j as [|j IH]; intros [|fuel] i Hi Hf; try lia; cbn [original_repeat_loop].
  - assert (i = n) as -> by lia. by rewrite Z.ltb_irrefl.
  - destruct (Z.ltb_spec (Z.of_nat i) (Z.of_nat n)); [|lia]. rewrite Eu, copy_source by lia. cbn [mbind res_bind].
    replace (Z.of_nat (length pre + length s * i) + Z.of_nat (length s))
      with (Z.of_nat (length pre + length s * S i)) by lia.
    replace (Z.of_nat i + 1) with (Z.of_nat (S i)) by lia. apply IH; lia.
Qed.

Lemma fast_repeat_spec :
  fast_repeat (pre ++ room ++ post) (Z.of_nat src) (Z.of_nat (length pre)) (Z.of_nat (length s) + 1) (Z.of_nat n) =
  Ok (pre ++ rep n s ++ 0 :: post).
Proof.
  unfold fast_repeat. destruct (Z.leb_spec (Z.of_nat n) 0); [lia|].
  replace (Z.of_nat (length s) + 1 - 1) with (Z.of_nat (length s)) by lia.
  rewrite (wrapu_id 64) by (unfold inu; nia).
  pose proof (copy_source 0 ltac:(lia)) as C. unfold region in C at 1.
  rewrite Nat.mul_0_r, Nat.add_0_r, drop_0 in C. change (rep 0 s) with (@nil Z) in C. cbn [app] in C.
  rewrite C. cbn [mbind res_bind]. clear C.
  match goal with |- context [logn_loop 64 ?body 0 _ _ ?st0] =>
    destruct (logn_loop_spec (repeated pre s (Z.of_nat n) (room ++ post)) body (Z.of_nat n) st0)
      as ([m cur] & -> & Hm); [lia| | |]
  end.
  - intros k [m cur] Hk Hle Hm. destruct (done_copies_range (Z.of_nat n) k Hk Hle) as (H1 & H2 & H3).
    assert (0 < 2 ^ k) by (apply Z.pow_pos_nonneg; lia). rewrite Z.shiftl_1_l.
    rewrite checked_Ok by (unfold ins; lia). cbn [mbind res_bind].
    destruct (len_exact (Z.of_nat (length s)) k (Z.of_nat n)) as [_ ->]; [lia|done|done|done|].
    destruct (repeated_round memcpy_fast pre s (Z.of_nat n) (room ++ post) k m cur _ Hk Hle eq_refl Hm)
      as (m1 & -> & Hm1). cbn [mbind res_bind].
    destruct (_ =? 0); [by eexists|]. destruct Hm1 as (m2 & -> & Hm2). by eexists.
  - unfold repeated, region. cbn [fst snd]. rewrite length_app. split_and!; [done|lia|lia].
  - cbn [mbind res_bind]. destruct Hm as (Hm & _ & Hc). cbn [fst snd] in Hm, Hc. rewrite Nat2Z.id in Hm.
    replace cur with (Z.of_nat (length pre + length s * n)) by lia. rewrite Hm. apply write_end.
Qed.

Lemma original_repeat_spec :
  original_repeat (pre ++ room ++ post) (Z.of_nat src) (Z.of_nat (length pre)) (Z.of_nat (length s) + 1) (Z.of_nat n) =
  Ok (pre ++ rep n s ++ 0 :: post).
Proof.
  unfold original_repeat. pose proof (original_repeat_loop_spec n (S (Z.to_nat (Z.of_nat n))) 0 eq_refl) as L.
  unfold region in L at 1. rewrite Nat.mul_0_r, Nat.add_0_r in L.
  rewrite drop_0 in L. change (rep 0 s) with (@nil Z) in L. cbn [app] in L. change (Z.of_nat 0) with 0 in L.
  rewrite L by lia. cbn [mbind res_bind]. apply write_end.
Qed.
End c_strings.

(** On C strings in memory, [fast_repeat] leaves exactly the bytes that
    [original_repeat] leaves: [n] copies of the source and a terminating zero
    in the destination, and every other byte as it was. *)
Theorem fast_repeat_correct pre room post s src n :
  (1 <= n)%nat -> Z.of_nat (length s) * Z.of_nat n < 2 ^ 31 -> Z.of_nat n < 2 ^ 31 ->
  length room = (length s * n + 1)%nat ->
  (src + length s <= length pre)%nat \/
    (length pre + length room <= src)%nat /\ (src + length s <= length (pre ++ room ++ post))%nat ->
  take (length s) (drop src (pre ++ room ++ post)) = s ->
  let m := pre ++ room ++ post in
  let dst := Z.of_nat (length pre) in
  let size := Z.of_nat (length s) + 1 in
  fast_repeat m (Z.of_nat src) dst size (Z.of_nat n) = Ok (pre ++ rep n s ++ 0 :: post) /\
  original_repeat m (Z.of_nat src) dst size (Z.of_nat n) = Ok (pre ++ rep n s ++ 0 :: post).
Proof.
  intros. split; [by apply fast_repeat_spec|by apply original_repeat_spec].
Qed.

Lemma fast_repeat_correct_witness :
  fast_repeat ([97; 98; 0] ++ [9; 9; 9; 9; 9; 9; 9] ++ [5]) 0 3 3 3 = Ok [97; 98; 0; 97; 98; 97; 98; 97; 98; 0; 5].
Proof.
  apply (fast_repeat_correct [97; 98; 0] [9; 9; 9; 9; 9; 9; 9] [5] [97; 98] 0 3).
  - lia.
  - vm_compute. reflexivity.
  - vm_compute. reflexivity.
  - reflexivity.
  - left. simpl. lia.
  - reflexivity.
Defined.
