(* ===== verification/MarkPtr.v ===== *)
(** * Tagged pointers: [MarkPtrType] of src/include/concurrent/mark_ptr_type.hh

    The union overlays a 64-bit pointer with bit fields: bit 0 is the deletion
    mark, bits 1 to 46 the address, bit 47 its sign and bits 48 to 63 a tag
    that counts the changes of the word. [ptr_word] is the bit-level type; the
    lists of the library use the record [MarkPtr] of its three fields, which
    [mark_ptr_faithful] justifies. *)

From S2P Require Import Prelude.

(** ** The union *)

(** the 64 bits seen as [ptr] *)
Definition ptr_word := Z.

Definition field_mark (w : ptr_word) : Z := w mod 2.
Definition field_p (w : ptr_word) : Z := w / 2 mod 2 ^ 46.
Definition field_sign (w : ptr_word) : Z := w / 2 ^ 47 mod 2.
Definition field_tag (w : ptr_word) : Z := w / 2 ^ 48.

(** assignments to the bit fields [mark] and [tag] keep the other bits *)
Definition set_field_mark (w : ptr_word) (mark : Z) : ptr_word := w - w mod 2 + mark mod 2.
Definition set_field_tag (w : ptr_word) (tag : Z) : ptr_word := w mod 2 ^ 48 + 2 ^ 48 * u16 tag.

Definition MarkPtrType_new (ptr : Z) (mark tag : Z) : ptr_word :=
  set_field_tag (set_field_mark ptr mark) tag.
Definition MarkPtrType_of (ptr : Z) : ptr_word := MarkPtrType_new ptr 0 0.
Definition MarkPtrType_default : ptr_word := MarkPtrType_of 0.

Definition MarkPtrType_get (w : ptr_word) : Z :=
  let p := set_field_mark w 0 in
  set_field_tag p (if field_sign p =? 1 then 0xffff else 0).
(** copy and assignment copy the whole word; [next] reads or replaces the link *)
Definition MarkPtrType_copy (other : ptr_word) : ptr_word := other.
Definition MarkPtrType_assign (w other : ptr_word) : ptr_word := other.
Definition MarkPtrType_set_next (w next : ptr_word) : ptr_word := MarkPtrType_assign w next.
Definition MarkPtrType_next (w : ptr_word) : Z := MarkPtrType_get w.

Definition mark_delele (w : ptr_word) : ptr_word := set_field_mark w 1.
Definition unmark_delete (w : ptr_word) : ptr_word := set_field_mark w 0.
Definition is_mark_delete (w : ptr_word) : bool := field_mark w =? 1.
Definition get_tag (w : ptr_word) : Z := field_tag w.
Definition set_tag (w : ptr_word) (tag : Z) : ptr_word := set_field_tag w tag.
Definition equal_to (w other : ptr_word) : bool := w =? other.

(** ** The fields are independent *)

(** an even address in one of the two halves of the 48-bit address space *)
Definition canonical (p : Z) : Prop :=
  p mod 2 = 0 /\ (0 <= p < 2 ^ 47 \/ 2 ^ 64 - 2 ^ 47 <= p < 2 ^ 64).

(** the low 48 bits of an address *)
Definition low48 (p : Z) : Z := p mod 2 ^ 48.

Lemma new_word p mark tag : canonical p ->
  MarkPtrType_new p mark tag = low48 p + mark mod 2 + 2 ^ 48 * u16 tag.
Proof.
  intros [He Hp]. unfold MarkPtrType_new, set_field_tag, set_field_mark, low48, wrapu. f_equal.
  change (2 ^ 48) with 281474976710656 in *. change (2 ^ 47) with 140737488355328 in *.
  change (2 ^ 64) with 18446744073709551616 in *.
  Z.to_euclidean_division_equations. lia.
Qed.

Lemma low48_inj p p' : canonical p -> canonical p' -> low48 p = low48 p' -> p = p'.
Proof.
  intros [He Hp] [He' Hp']. unfold low48.
  change (2 ^ 48) with 281474976710656 in *. change (2 ^ 47) with 140737488355328 in *.
  change (2 ^ 64) with 18446744073709551616 in *.
  intros E. Z.to_euclidean_division_equations. lia.
Qed.

Lemma low48_range p : canonical p -> 0 <= low48 p < 2 ^ 48 /\ low48 p mod 2 = 0.
Proof.
  intros [He Hp]. unfold low48.
  change (2 ^ 48) with 281474976710656 in *. change (2 ^ 47) with 140737488355328 in *.
  change (2 ^ 64) with 18446744073709551616 in *.
  Z.to_euclidean_division_equations. lia.
Qed.

Lemma word_fields l m t : 0 <= l < 2 ^ 48 -> l mod 2 = 0 -> 0 <= m < 2 -> 0 <= t < 2 ^ 16 ->
  let w := l + m + 2 ^ 48 * t in
  field_mark w = m /\ field_tag w = t /\ w mod 2 ^ 48 = l + m /\ field_sign w = l / 2 ^ 47.
Proof.
  intros Hl He Hm Ht. unfold field_mark, field_tag, field_sign. cbv zeta.
  change (2 ^ 48) with 281474976710656 in *. change (2 ^ 47) with 140737488355328 in *.
  change (2 ^ 16) with 65536 in *.
  split_and!; Z.to_euclidean_division_equations; lia.
Qed.

Lemma get_word p m t : canonical p -> 0 <= m < 2 -> 0 <= t < 2 ^ 16 ->
  MarkPtrType_get (low48 p + m + 2 ^ 48 * t) = p.
Proof.
  intros Hc Hm Ht. destruct (low48_range p Hc) as [Hl He].
  destruct (word_fields (low48 p) m t Hl He Hm Ht) as (E1 & _ & _ & _).
  destruct (word_fields (low48 p) 0 t Hl He ltac:(lia) Ht) as (_ & _ & E3 & E4).
  unfold MarkPtrType_get. unfold field_mark in E1. unfold set_field_mark. rewrite E1.
  replace (low48 p + m + 2 ^ 48 * t - m + 0 mod 2) with (low48 p + 0 + 2 ^ 48 * t) by (rewrite Z.mod_0_l by lia; lia).
  unfold set_field_tag. rewrite E3, E4, Z.add_0_r. destruct Hc as [_ Hp]. unfold low48, wrapu.
  change (2 ^ 48) with 281474976710656 in *. change (2 ^ 47) with 140737488355328 in *.
  change (2 ^ 64) with 18446744073709551616 in *. change (2 ^ 16) with 65536 in *.
  destruct (Z.eqb_spec (p mod 281474976710656 / 140737488355328) 1);
    Z.to_euclidean_division_equations; lia.
Qed.

(** address, mark and tag are stored independently: for every even
    canonical address the three are read back as they were stored, the tag
    modulo 2^16, and two words are equal exactly when the three agree. *)
Theorem mark_ptr_faithful p mark tag p' mark' tag' : canonical p -> canonical p' ->
  let w := MarkPtrType_new p mark tag in
  MarkPtrType_get w = p /\ is_mark_delete w = (mark mod 2 =? 1) /\ get_tag w = u16 tag /\
  (equal_to w (MarkPtrType_new p' mark' tag') = true <->
   p = p' /\ mark mod 2 = mark' mod 2 /\ u16 tag = u16 tag').
Proof.
  intros Hc Hc' w.
  assert (forall z, 0 <= z mod 2 < 2) as H2 by (intros; apply Z.mod_pos_bound; lia).
  assert (forall z, 0 <= u16 z < 2 ^ 16) as H16 by (intros; apply Z.mod_pos_bound; lia).
  destruct (low48_range p Hc) as [Hl He]. destruct (low48_range p' Hc') as [Hl' He'].
  destruct (word_fields (low48 p) (mark mod 2) (u16 tag) Hl He (H2 _) (H16 _)) as (F1 & F2 & F3 & _).
  destruct (word_fields (low48 p') (mark' mod 2) (u16 tag') Hl' He' (H2 _) (H16 _)) as (F1' & F2' & F3' & _).
  unfold w, is_mark_delete, get_tag, equal_to. rewrite !new_word by done. split_and!.
  - by apply get_word.
  - by rewrite F1.
  - done.
  - rewrite Z.eqb_eq. split; [|by intros (-> & -> & ->)].
    intros E. rewrite E in F1, F2, F3. rewrite F1 in F1'. rewrite F2 in F2'.
    split_and!; [|done|done]. apply low48_inj; [done|done|]. lia.
Qed.

Lemma mark_ptr_faithful_witness :
  let w := MarkPtrType_new 0x7fff12345678 1 65537 in
  MarkPtrType_get w = 0x7fff12345678 /\ is_mark_delete w = true /\ get_tag w = 1.
Proof.
  destruct (mark_ptr_faithful 0x7fff12345678 1 65537 0x10 0 0) as (H1 & H2 & H3 & _).
  - split; [reflexivity|]. left. split; [discriminate|reflexivity].
  - split; [reflexivity|]. left. split; [discriminate|reflexivity].
  - exact (conj H1 (conj H2 H3)).
Defined.
