(* ===== verification/MichaelList.v ===== *)
(** * The lock-free list: src/include/concurrent/list.hh and src/src/modules/concurrent/list.cc

    A sorted linked list whose words carry a deletion mark and a change count
    (MarkPtr.v). A call of [Insert], [Remove] or [Search] is a state machine
    that makes one access to shared memory per step ([tstep]): [find] with its
    retries, the compare-and-swaps, the frees. A sequential call runs its
    machine alone ([run]); threads interleave theirs ([sys_step]). *)

From S2P Require Import Prelude.

(** the address of a node; [next] is its first member, so a pointer to the
    member is a pointer to the node *)
Abbreviation ptr := positive.

(** the three fields of a [MarkPtrType]; [None] is the null pointer *)
Record MarkPtr := mkPtr { mp_ptr : option ptr; mp_mark : bool; mp_tag : Z }.
Definition null_ptr : MarkPtr := mkPtr None false 0.

#[global] Instance MarkPtr_eq_dec : EqDecision MarkPtr.
Proof. solve_decision. Defined.

Record NodeType := mkNode { n_next : MarkPtr; n_key : Z; n_value : Z }.

(** a [MarkPtrType*]: the head of the list or the [next] of a node *)
Inductive loc := LHead | LNext (a : ptr).

#[global] Instance loc_eq_dec : EqDecision loc.
Proof. solve_decision. Defined.

Record heap := mkHeap { h_head : MarkPtr; h_nodes : gmap ptr NodeType }.

(** ** Memory accesses: a node that was deleted is dangling *)

Definition rd_node (h : heap) (a : ptr) : res NodeType := of_option EDangling (h_nodes h !! a).

Definition rd_loc (h : heap) (l : loc) : res MarkPtr :=
  match l with
  | LHead => Ok (h_head h)
  | LNext a => n ← rd_node h a; Ok (n_next n)
  end.

Definition wr_loc (h : heap) (l : loc) (p : MarkPtr) : res heap :=
  match l with
  | LHead => Ok (mkHeap p (h_nodes h))
  | LNext a =>
      n ← rd_node h a;
      Ok (mkHeap (h_head h) (<[a := mkNode p (n_key n) (n_value n)]> (h_nodes h)))
  end.

(** [compare_exchange_strong] *)
Definition cas (h : heap) (l : loc) (old new : MarkPtr) : res (bool * heap) :=
  cur ← rd_loc h l;
  if bool_decide (cur = old) then h ← wr_loc h l new; Ok (true, h) else Ok (false, h).

Definition free_node (h : heap) (a : ptr) : res heap :=
  _ ← rd_node h a; Ok (mkHeap (h_head h) (delete a (h_nodes h))).

(** ** Calls *)

(** who called [find]: [KHelp] is the second call in [Remove] *)
Inductive cont := KInsert (node : ptr) | KRemove | KHelp | KSearch.
Record call := mkCall { c_head : loc; c_key : Z; c_cont : cont }.

Inductive result :=
| RInsert (b : bool) (exist_node : option ptr)
| RRemove (b : bool)
| RSearch (b : bool) (value : option Z).

(** the program points; [pc] is [pmark_curr_ptag] and [cn] is [cmark_next_ctag] *)
Inductive tstate :=
| TStart (c : call)
| TLoop (c : call) (prev : loc) (pc : MarkPtr)
| TKey (c : call) (prev : loc) (pc cn : MarkPtr)
| TRecheck (c : call) (prev : loc) (pc cn : MarkPtr) (ckey : Z)
| TUnlink (c : call) (prev : loc) (pc cn : MarkPtr)
| TFree (c : call) (prev : loc) (pc cn : MarkPtr)
| TLink (c : call) (node : ptr) (prev : loc) (pc : MarkPtr)
| TInsCas (c : call) (node : ptr) (prev : loc) (pc : MarkPtr)
| TMark (c : call) (prev : loc) (pc cn : MarkPtr)
| TSwing (c : call) (prev : loc) (pc cn : MarkPtr)
| TRemFree (c : call) (pc : MarkPtr)
| TValue (c : call) (pc : MarkPtr)
| TMarked (c : call) (pc : MarkPtr) (value : Z)
| TDone (r : result).

(** the return of [find] to its caller *)
Definition find_return (c : call) (prev : loc) (pc cn : MarkPtr) (exists_ : bool) : tstate :=
  match c_cont c with
  | KInsert node => if exists_ then TDone (RInsert false (mp_ptr pc)) else TLink c node prev pc
  | KRemove => if exists_ then TMark c prev pc cn else TDone (RRemove false)
  | KHelp => TDone (RRemove true)
  | KSearch => if exists_ then TValue c pc else TDone (RSearch false None)
  end.

(** [MarkPtrType(pc.get(), 0, pc.get_tag())] *)
Definition unmarked (p : MarkPtr) : MarkPtr := mkPtr (mp_ptr p) false (mp_tag p).

(** the node [pc] points to *)
Definition curr_of (pc : MarkPtr) : res ptr := of_option ENull (mp_ptr pc).

(** one step of [MichaelList::find]; the argument is the program point *)
Definition find_step (h : heap) (t : tstate) : res (heap * tstate) :=
  match t with
  | TStart c =>
      pc ← rd_loc h (c_head c); Ok (h, TLoop c (c_head c) pc)
  | TLoop c prev pc =>
      match mp_ptr pc with
      | None => Ok (h, find_return c prev pc null_ptr false)
      | Some a => cn ← rd_loc h (LNext a); Ok (h, TKey c prev pc cn)
      end
  | TKey c prev pc cn =>
      a ← curr_of pc; n ← rd_node h a; Ok (h, TRecheck c prev pc cn (n_key n))
  | TRecheck c prev pc cn ckey =>
      cur ← rd_loc h prev;
      if negb (bool_decide (cur = unmarked pc)) then Ok (h, TStart c)
      else if negb (mp_mark cn) then
        if c_key c <=? ckey then Ok (h, find_return c prev pc cn (ckey =? c_key c))
        else a ← curr_of pc; Ok (h, TLoop c (LNext a) cn)
      else Ok (h, TUnlink c prev pc cn)
  | TUnlink c prev pc cn =>
      '(ok, h) ← cas h prev (unmarked pc) (mkPtr (mp_ptr cn) false (u16 (mp_tag pc + 1)));
      if (ok : bool) then Ok (h, TFree c prev pc cn) else Ok (h, TStart c)
  | TFree c prev pc cn =>
      a ← curr_of pc; h ← free_node h a;
      Ok (h, TLoop c prev (mkPtr (mp_ptr cn) (mp_mark cn) (u16 (mp_tag pc + 1))))
  | _ => Ok (h, t)
  end.

(** [MichaelList::Insert] after [find] has returned false *)
Definition insert_step (h : heap) (t : tstate) : res (heap * tstate) :=
  match t with
  | TLink c node prev pc =>
      h ← wr_loc h (LNext node) (mkPtr (mp_ptr pc) false 0); Ok (h, TInsCas c node prev pc)
  | TInsCas c node prev pc =>
      '(ok, h) ← cas h prev (unmarked pc) (mkPtr (Some node) false (u16 (mp_tag pc + 1)));
      if (ok : bool) then Ok (h, TDone (RInsert true None)) else Ok (h, TStart c)
  | _ => Ok (h, t)
  end.

(** [MichaelList::Remove] after [find] has returned true *)
Definition remove_step (h : heap) (t : tstate) : res (heap * tstate) :=
  match t with
  | TMark c prev pc cn =>
      a ← curr_of pc;
      '(ok, h) ← cas h (LNext a) (unmarked cn) (mkPtr (mp_ptr cn) true (u16 (mp_tag cn + 1)));
      if (ok : bool) then Ok (h, TSwing c prev pc cn) else Ok (h, TStart c)
  | TSwing c prev pc cn =>
      '(ok, h) ← cas h prev (unmarked pc) (mkPtr (mp_ptr cn) false (u16 (mp_tag pc + 1)));
      if (ok : bool) then Ok (h, TRemFree c pc)
      else Ok (h, TStart (mkCall (c_head c) (c_key c) KHelp))
  | TRemFree c pc =>
      a ← curr_of pc; h ← free_node h a; Ok (h, TDone (RRemove true))
  | _ => Ok (h, t)
  end.

(** [MichaelList::Search] after [find] has returned true *)
Definition search_step (h : heap) (t : tstate) : res (heap * tstate) :=
  match t with
  | TValue c pc =>
      a ← curr_of pc; n ← rd_node h a; Ok (h, TMarked c pc (n_value n))
  | TMarked c pc value =>
      a ← curr_of pc; p ← rd_loc h (LNext a);
      Ok (h, TDone (RSearch (negb (mp_mark p)) (Some value)))
  | _ => Ok (h, t)
  end.

Definition tstep (h : heap) (t : tstate) : res (heap * tstate) :=
  match t with
  | TStart _ | TLoop _ _ _ | TKey _ _ _ _ | TRecheck _ _ _ _ _ | TUnlink _ _ _ _ | TFree _ _ _ _ => find_step h t
  | TLink _ _ _ _ | TInsCas _ _ _ _ => insert_step h t
  | TMark _ _ _ _ | TSwing _ _ _ _ | TRemFree _ _ => remove_step h t
  | TValue _ _ | TMarked _ _ _ => search_step h t
  | TDone _ => Ok (h, t)
  end.

(** ** A call that runs alone *)

Fixpoint run (fuel : nat) (h : heap) (t : tstate) : res (heap * result) :=
  match fuel with
  | O => Err EFuel
  | S fuel =>
      match t with
      | TDone r => Ok (h, r)
      | _ => '(h, t) ← tstep h t; run fuel h t
      end
  end.

(** a call visits each node at most once, with three accesses *)
Definition run_fuel (h : heap) : nat := (4 * size (h_nodes h) + 16)%nat.

Definition MichaelList_new : heap := mkHeap null_ptr ∅.

Definition new_node (h : heap) (a : ptr) (key value : Z) : heap :=
  mkHeap (h_head h) (<[a := mkNode null_ptr key value]> (h_nodes h)).

Definition Insert (h : heap) (head : loc) (node : ptr) : res (heap * result) :=
  n ← rd_node h node; run (run_fuel h) h (TStart (mkCall head (n_key n) (KInsert node))).
Definition Remove (h : heap) (head : loc) (key : Z) : res (heap * result) :=
  run (run_fuel h) h (TStart (mkCall head key KRemove)).
Definition Search (h : heap) (head : loc) (key : Z) : res (heap * result) :=
  run (run_fuel h) h (TStart (mkCall head key KSearch)).

(** ** The operations that are not thread-safe *)

Definition IsEmpty (h : heap) : bool := bool_decide (mp_ptr (h_head h) = None).

Definition Unshift (h : heap) (node : ptr) : res heap :=
  h ← wr_loc h (LNext node) (h_head h);
  wr_loc h LHead (mkPtr (Some node) false 0).

Definition Shift (h : heap) : res (heap * ptr) :=
  if IsEmpty h then Err ECheck
  else
    p ← curr_of (h_head h);
    next ← rd_loc h (LNext p);
    h ← wr_loc h LHead next;
    Ok (h, p).

(** the walk of [Push] and [Pop]: the last location and the one before it *)
Fixpoint walk_last (fuel : nat) (h : heap) (pp : option loc) (p : loc) : res (option loc * loc) :=
  match fuel with
  | O => Err EFuel
  | S fuel =>
      w ← rd_loc h p;
      match mp_ptr w with
      | Some a => walk_last fuel h (Some p) (LNext a)
      | None => Ok (pp, p)
      end
  end.

Definition Push (h : heap) (node : ptr) : res heap :=
  '(_, p) ← walk_last (S (size (h_nodes h))) h None LHead;
  w ← rd_loc h p;
  h ← wr_loc h (LNext node) w;
  wr_loc h p (mkPtr (Some node) false 0).

Definition Pop (h : heap) : res (heap * ptr) :=
  if IsEmpty h then Err ECheck
  else
    '(pp, p) ← walk_last (S (size (h_nodes h))) h None LHead;
    w ← rd_loc h p;
    match pp, p with
    | Some pp, LNext a => h ← wr_loc h pp w; Ok (h, a)
    | _, _ => Err ENull
    end.

(** the pairs [ToString] prints *)
Fixpoint to_pairs (fuel : nat) (h : heap) (p : loc) : res (list (Z * Z)) :=
  match fuel with
  | O => Err EFuel
  | S fuel =>
      w ← rd_loc h p;
      match mp_ptr w with
      | Some a => n ← rd_node h a; r ← to_pairs fuel h (LNext a); Ok ((n_key n, n_value n) :: r)
      | None => Ok []
      end
  end.

(** [Clear]: reads the next pointer of a node before deleting it *)
Fixpoint clear_loop (fuel : nat) (h : heap) (p : option ptr) : res heap :=
  match fuel with
  | O => Err EFuel
  | S fuel =>
      match p with
      | Some a => w ← rd_loc h (LNext a); h ← free_node h a; clear_loop fuel h (mp_ptr w)
      | None => Ok h
      end
  end.
Definition Clear (h : heap) : res heap := clear_loop (S (size (h_nodes h))) h (mp_ptr (h_head h)).

(** ** Threads *)

(** [t_seen] is not part of the program: the keys in the list when the call
    started *)
Record thread := mkThread { t_call : call; t_state : tstate; t_seen : gset Z }.
Record sys := mkSys { s_heap : heap; s_threads : list thread }.

(** the keys a walk from the head meets *)
Definition keys_of (h : heap) : list Z :=
  match to_pairs (S (size (h_nodes h))) h LHead with Ok l => l.*1 | Err _ => [] end.

Definition sys_run (s : sys) (i : nat) : res sys :=
  match s_threads s !! i with
  | Some th =>
      '(h, t) ← tstep (s_heap s) (t_state th);
      Ok (mkSys h (<[i := mkThread (t_call th) t (t_seen th)]> (s_threads s)))
  | None => Ok s
  end.

(** a thread calls an operation; [Insert] gets a fresh node *)
Definition spawn (s : sys) (h : heap) (c : call) : sys :=
  mkSys h (s_threads s ++ [mkThread c (TStart c) (list_to_set (keys_of (s_heap s)))]).

(** the head a caller passes is that of the list or a node that is allocated *)
Definition head_live (h : heap) (head : loc) : Prop :=
  match head with LHead => True | LNext a => is_Some (h_nodes h !! a) end.

Inductive sys_step : sys -> sys -> Prop :=
| step_run s i s' : sys_run s i = Ok s' -> sys_step s s'
| step_insert s head node key value :
    h_nodes (s_heap s) !! node = None -> head_live (s_heap s) head ->
    sys_step s (spawn s (new_node (s_heap s) node key value) (mkCall head key (KInsert node)))
| step_remove s head key : head_live (s_heap s) head -> sys_step s (spawn s (s_heap s) (mkCall head key KRemove))
| step_search s head key : head_live (s_heap s) head -> sys_step s (spawn s (s_heap s) (mkCall head key KSearch)).

(** the map a walk from the head meets *)
Definition map_of (h : heap) : gmap Z Z :=
  match to_pairs (S (size (h_nodes h))) h LHead with Ok l => list_to_map l | Err _ => ∅ end.

(** thread [i] ends its call in this step *)
Definition completes (s s' : sys) (i : nat) (c : call) (r : result) : Prop :=
  exists th th', s_threads s !! i = Some th /\ s_threads s' !! i = Some th' /\
    (forall r', t_state th <> TDone r') /\ t_call th' = c /\ t_state th' = TDone r.
