(* ===== verification/ListRep.v ===== *)
(** * The heap of a list and the cells it represents

    [linked h p cs]: the word [p] starts a chain of unmarked words through the
    nodes [cs]. A location of the chain is the end of a prefix of the cells
    ([loc_at]); reading, writing and linking a node there are one lemma each. *)

From S2P Require Import Prelude.
From S2P Require Import MichaelList.

Record cell := mkCell { ce_ptr : ptr; ce_key : Z; ce_value : Z }.

Inductive linked (h : heap) : MarkPtr -> list cell -> Prop :=
| linked_nil p : mp_ptr p = None -> mp_mark p = false -> linked h p []
| linked_cons p a n cs :
    mp_ptr p = Some a -> mp_mark p = false -> h_nodes h !! a = Some n -> linked h (n_next n) cs ->
    linked h p (mkCell a (n_key n) (n_value n) :: cs).

(** strictly increasing keys *)
Fixpoint sorted_from (k : option Z) (cs : list cell) : Prop :=
  match cs with
  | [] => True
  | c :: cs => (match k with Some k => k < ce_key c | None => True end) /\ sorted_from (Some (ce_key c)) cs
  end.

(** the heap holds exactly the sorted list [cs] (and perhaps unlinked nodes) *)
Record list_rep (h : heap) (cs : list cell) : Prop := {
  lr_linked : linked h (h_head h) cs;
  lr_sorted : sorted_from None cs;
  lr_nodup : NoDup (ce_ptr <$> cs);
}.

(** the location after a prefix *)
Definition loc_at (cs : list cell) : loc :=
  match last cs with Some c => LNext (ce_ptr c) | None => LHead end.
Definition key_at (cs : list cell) : option Z := ce_key <$> last cs.
Definition below (k : option Z) (key : Z) : Prop := match k with Some k => k < key | None => True end.

Lemma loc_at_snoc cs c : loc_at (cs ++ [c]) = LNext (ce_ptr c).
Proof. unfold loc_at. by rewrite last_snoc. Qed.

Lemma key_at_snoc cs c : key_at (cs ++ [c]) = Some (ce_key c).
Proof. unfold key_at. by rewrite last_snoc. Qed.

(** ** Order *)

Lemma sorted_app k cs1 cs2 :
  sorted_from k (cs1 ++ cs2) <->
  sorted_from k cs1 /\ sorted_from (match last cs1 with Some c => Some (ce_key c) | None => k end) cs2.
Proof.
  revert k. induction cs1 as [|c cs1 IH]; intros k; [simpl; tauto|].
  cbn [app sorted_from]. rewrite IH, last_cons. destruct (last cs1); tauto.
Qed.

Lemma sorted_weaken k k' cs : sorted_from k cs -> (forall x, k' = Some x -> exists y, k = Some y /\ x <= y) -> sorted_from k' cs.
Proof.
  destruct cs as [|c cs]; simpl; [done|]. intros [H1 H2] Hk. split; [|done].
  destruct k' as [x|]; [|done]. destruct (Hk x eq_refl) as (y & -> & Hxy). lia.
Qed.

Lemma sorted_all k cs c : sorted_from (Some k) cs -> c ∈ cs -> k < ce_key c.
Proof.
  revert k. induction cs as [|d cs IH]; intros k; simpl; [by intros _ ?%elem_of_nil|].
  intros [H1 H2] [->|Hc]%elem_of_cons; [done|]. specialize (IH _ H2 Hc). lia.
Qed.

Lemma sorted_before k cs1 c cs2 d : sorted_from k (cs1 ++ c :: cs2) -> d ∈ cs1 -> ce_key d < ce_key c.
Proof.
  intros Hs Hd. apply list_elem_of_split in Hd as (l1 & l2 & ->).
  rewrite <-app_assoc in Hs. apply sorted_app in Hs as [_ Hs]. simpl in Hs. destruct Hs as [_ Hs].
  eapply sorted_all; [exact Hs|]. set_solver.
Qed.

(** a key strictly between a prefix and the rest is not in the list *)
Lemma gap_absent k cs1 cs2 key : sorted_from k (cs1 ++ cs2) -> below (key_at cs1) key ->
  (forall c, head cs2 = Some c -> key < ce_key c) -> key ∉ ce_key <$> cs1 ++ cs2.
Proof.
  intros Hs Hb Hh. rewrite list_elem_of_fmap. intros (d & -> & Hd). apply elem_of_app in Hd as [Hd|Hd].
  - destruct (last cs1) as [c|] eqn:E.
    + apply last_Some in E as (cs & ->). unfold key_at in Hb. rewrite last_snoc in Hb. simpl in Hb.
      apply elem_of_app in Hd as [Hd|Hd].
      * rewrite <-app_assoc in Hs. pose proof (sorted_before _ _ _ _ _ Hs Hd). lia.
      * apply list_elem_of_singleton in Hd as ->. lia.
    + apply last_None in E as ->. by apply elem_of_nil in Hd.
  - destruct cs2 as [|c cs2]; [by apply elem_of_nil in Hd|]. specialize (Hh c eq_refl).
    apply elem_of_cons in Hd as [->|Hd]; [lia|]. apply sorted_app in Hs as [_ [_ Hs]].
    pose proof (sorted_all _ _ _ Hs Hd). lia.
Qed.

Lemma sorted_insert k cs1 c cs2 : sorted_from k (cs1 ++ cs2) -> below (key_at cs1) (ce_key c) ->
  below k (ce_key c) -> (forall d, head cs2 = Some d -> ce_key c < ce_key d) -> sorted_from k (cs1 ++ c :: cs2).
Proof.
  intros [H1 H2]%sorted_app Hb Hk Hh. apply sorted_app. split; [done|]. cbn [sorted_from]. split.
  - unfold key_at in Hb. by destruct (last cs1).
  - destruct cs2 as [|d cs2]; [done|]. simpl in *. destruct H2 as [_ H2]. split; [by apply Hh|done].
Qed.

Lemma sorted_delete k cs1 c cs2 : sorted_from k (cs1 ++ c :: cs2) -> sorted_from k (cs1 ++ cs2).
Proof.
  intros [H1 H2]%sorted_app. apply sorted_app. split; [done|]. destruct H2 as [H2 H3].
  eapply sorted_weaken; [exact H3|]. intros x E. destruct (last cs1); simplify_eq; eexists; (split; [done|]); simpl in H2; lia.
Qed.

(** ** Chains *)

Lemma linked_frame h h' p cs : linked h p cs ->
  (forall c, c ∈ cs -> h_nodes h' !! ce_ptr c = h_nodes h !! ce_ptr c) -> linked h' p cs.
Proof.
  induction 1 as [p Hp Hm|p a n cs Hp Hm Hn Hl IH]; intros Hf; [by constructor|].
  econstructor; [done|done| |].
  - rewrite <-Hn. apply (Hf (mkCell a (n_key n) (n_value n))). by left.
  - apply IH. intros c Hc. apply Hf. by right.
Qed.

Lemma linked_unmarked h p cs : linked h p cs -> mp_mark p = false.
Proof. by destruct 1. Qed.

Lemma linked_ptr h p cs : linked h p cs -> mp_ptr p = ce_ptr <$> head cs.
Proof. by destruct 1. Qed.

Lemma linked_cons_inv h p c cs : linked h p (c :: cs) ->
  exists w, mp_ptr p = Some (ce_ptr c) /\ h_nodes h !! ce_ptr c = Some (mkNode w (ce_key c) (ce_value c)) /\ linked h w cs.
Proof. inversion 1 as [|? a [w k v] ? Hp Hm Hn Hl]; subst. exists w. by simpl in *. Qed.

(** the word at a location of the chain starts the rest of it *)
Lemma linked_split h p cs1 cs2 : linked h p (cs1 ++ cs2) ->
  match last cs1 with
  | None => linked h p cs2
  | Some c => exists w, h_nodes h !! ce_ptr c = Some (mkNode w (ce_key c) (ce_value c)) /\ linked h w cs2
  end.
Proof.
  revert p. induction cs1 as [|c cs1 IH]; intros p H; [done|]. apply linked_cons_inv in H as (w & _ & Hn & Hl).
  destruct cs1 as [|c' cs1]; [simpl; eauto|]. rewrite last_cons.
  specialize (IH _ Hl). destruct (last (c' :: cs1)) as [d|] eqn:E; [done|]. by apply last_None in E.
Qed.

Lemma rd_chain_at h cs1 cs2 : linked h (h_head h) (cs1 ++ cs2) ->
  exists w, rd_loc h (loc_at cs1) = Ok w /\ linked h w cs2.
Proof.
  intros Hl. apply linked_split in Hl. unfold loc_at. destruct (last cs1) as [c|].
  - destruct Hl as (w & Hn & Hl). exists w. simpl. unfold rd_node. by rewrite Hn.
  - by exists (h_head h).
Qed.

Lemma rd_loc_at h cs1 cs2 : list_rep h (cs1 ++ cs2) ->
  exists w, rd_loc h (loc_at cs1) = Ok w /\ linked h w cs2.
Proof. intros [Hl _ _]. by apply rd_chain_at. Qed.

Lemma node_at h cs1 c cs2 : list_rep h (cs1 ++ c :: cs2) ->
  exists w, h_nodes h !! ce_ptr c = Some (mkNode w (ce_key c) (ce_value c)) /\ linked h w cs2.
Proof.
  intros [Hl _ _]. apply linked_split in Hl. destruct (last cs1) as [d|].
  - destruct Hl as (w & _ & Hl). apply linked_cons_inv in Hl as (w' & _ & Hn & Hl'). eauto.
  - apply linked_cons_inv in Hl as (w' & _ & Hn & Hl'). eauto.
Qed.

(** writing the word at a location of the chain replaces the rest of it *)
Lemma linked_write h p cs1 cs2 w cs2' h' :
  linked h p (cs1 ++ cs2) -> NoDup (ce_ptr <$> cs1 ++ cs2) -> cs1 <> [] ->
  wr_loc h (loc_at cs1) w = Ok h' -> linked h' w cs2' -> linked h' p (cs1 ++ cs2').
Proof.
  intros Hl Hnd Hne. destruct cs1 as [|c cs1 _] using rev_ind; [done|]. clear Hne.
  rewrite loc_at_snoc. simpl. unfold rd_node.
  revert p Hl Hnd. induction cs1 as [|d cs1 IH]; intros p Hl Hnd Hw Hw2; cbn [app] in *.
  - inversion Hl as [|? a [w0 k v] ? Hp Hm Hn Hl']; subst. simpl in *. rewrite Hn in Hw. simpl in Hw. injection Hw as <-.
    apply (linked_cons _ p a (mkNode w k v)); [done|done|apply lookup_insert_eq|done].
  - inversion Hl as [|? a n ? Hp Hm Hn Hl']; subst. apply NoDup_cons in Hnd as [Hni Hnd].
    specialize (IH _ Hl' Hnd Hw Hw2). econstructor; [done|done| |done].
    destruct (h_nodes h !! ce_ptr c) as [nc|]; [|done]. simpl in Hw. injection Hw as <-. simpl.
    rewrite lookup_insert_ne; [done|]. intros E. apply Hni.
    apply list_elem_of_fmap. exists c. split; [by rewrite E|]. set_solver.
Qed.

Lemma wr_chain_at h cs1 cs2 w : linked h (h_head h) (cs1 ++ cs2) -> exists h', wr_loc h (loc_at cs1) w = Ok h' /\
  (cs1 = [] -> h' = mkHeap w (h_nodes h)) /\ (cs1 <> [] -> h_head h' = h_head h) /\
  forall a, LNext a <> loc_at cs1 -> h_nodes h' !! a = h_nodes h !! a.
Proof.
  intros Hl. apply linked_split in Hl. unfold loc_at. destruct (last cs1) as [c|] eqn:E.
  - destruct Hl as (w0 & Hn & _). simpl. unfold rd_node. rewrite Hn. simpl. eexists. split; [done|]. split_and!.
    + intros ->. done.
    + done.
    + intros a Ha. simpl. rewrite lookup_insert_ne; [done|]. congruence.
  - apply last_None in E as ->. simpl. eexists. by split_and!.
Qed.

Lemma wr_loc_at h cs1 cs2 w : list_rep h (cs1 ++ cs2) -> exists h', wr_loc h (loc_at cs1) w = Ok h' /\
  (cs1 = [] -> h' = mkHeap w (h_nodes h)) /\ (cs1 <> [] -> h_head h' = h_head h) /\
  forall a, LNext a <> loc_at cs1 -> h_nodes h' !! a = h_nodes h !! a.
Proof. intros [Hl _ _]. by eapply wr_chain_at. Qed.

(** the main lemma on writes: new contents from a location on *)
Lemma chain_write h cs1 cs2 w cs2' h' : linked h (h_head h) (cs1 ++ cs2) -> NoDup (ce_ptr <$> cs1 ++ cs2) ->
  wr_loc h (loc_at cs1) w = Ok h' -> linked h' w cs2' -> linked h' (h_head h') (cs1 ++ cs2').
Proof.
  intros HR Hn Hw Hl. destruct (wr_chain_at h cs1 cs2 w HR) as (h2 & Hw' & Hnil & Hcons & _).
  rewrite Hw in Hw'. injection Hw' as <-.
  destruct (decide (cs1 = [])) as [->|Hne].
  - rewrite Hnil by done. simpl in *. by rewrite <-Hnil.
  - rewrite Hcons by done. by apply (linked_write h _ cs1 cs2 w cs2').
Qed.

Lemma list_write h cs1 cs2 w cs2' h' : list_rep h (cs1 ++ cs2) ->
  wr_loc h (loc_at cs1) w = Ok h' -> linked h' w cs2' ->
  sorted_from None (cs1 ++ cs2') -> NoDup (ce_ptr <$> cs1 ++ cs2') -> list_rep h' (cs1 ++ cs2').
Proof. intros HR Hw Hl Hs Hn. split; [|done|done]. eapply chain_write; [apply HR..|exact Hw|done]. Qed.

Lemma elem_cells h cs c : list_rep h cs -> c ∈ cs ->
  exists cs1 cs2 w, cs = cs1 ++ c :: cs2 /\ h_nodes h !! ce_ptr c = Some (mkNode w (ce_key c) (ce_value c)) /\
    linked h w cs2.
Proof.
  intros HR Hc. apply list_elem_of_split in Hc as (cs1 & cs2 & ->).
  destruct (node_at h cs1 c cs2 HR) as (w & Hn & Hl). by exists cs1, cs2, w.
Qed.

(** ** Linking a node *)

Lemma private_frame h cs a n : list_rep h cs -> a ∉ ce_ptr <$> cs ->
  list_rep (mkHeap (h_head h) (<[a := n]> (h_nodes h))) cs.
Proof.
  intros [Hl Hs Hn] Ha. split; [|done|done]. eapply linked_frame; [exact Hl|]. intros c Hc. simpl.
  rewrite lookup_insert_ne; [done|]. intros ->. apply Ha. by apply list_elem_of_fmap_2.
Qed.

Lemma loc_at_ne cs1 a : a ∉ ce_ptr <$> cs1 -> LNext a <> loc_at cs1.
Proof.
  unfold loc_at. destruct (last cs1) as [c|] eqn:E; [|done]. apply last_Some in E as (cs & ->).
  intros Ha [= ->]. apply Ha. rewrite fmap_app. set_solver.
Qed.

Lemma cas_link h cs1 cs2 node key v w tg : list_rep h (cs1 ++ cs2) -> rd_loc h (loc_at cs1) = Ok w -> linked h w cs2 ->
  h_nodes h !! node = Some (mkNode (mkPtr (mp_ptr w) false 0) key v) -> node ∉ ce_ptr <$> cs1 ++ cs2 ->
  below (key_at cs1) key -> (forall d, head cs2 = Some d -> key < ce_key d) ->
  exists h', cas h (loc_at cs1) w (mkPtr (Some node) false tg) = Ok (true, h') /\
    list_rep h' (cs1 ++ mkCell node key v :: cs2) /\
    forall a, a ∉ ce_ptr <$> cs1 -> h_nodes h' !! a = h_nodes h !! a.
Proof.
  intros HR Hw Hl Hn Hni Hb Hh. destruct (wr_loc_at h cs1 cs2 (mkPtr (Some node) false tg) HR) as (h' & Hwr & _ & _ & Hf).
  assert (forall a, a ∉ ce_ptr <$> cs1 -> h_nodes h' !! a = h_nodes h !! a) as Hf' by auto using loc_at_ne.
  pose proof (lr_nodup _ _ HR) as Hnd. rewrite fmap_app in Hnd, Hni. apply NoDup_app in Hnd as (N1 & N12 & N2).
  exists h'. split_and!; [|eapply list_write; [exact HR|exact Hwr|..]|done].
  - unfold cas. rewrite Hw. cbn [mbind res_bind]. by rewrite bool_decide_true, Hwr.
  - eapply (linked_cons h' _ node (mkNode (mkPtr (mp_ptr w) false 0) key v)); [done|done|rewrite Hf'; [done|set_solver]|].
    assert (linked h' w cs2) as Hl'.
    { eapply linked_frame; [exact Hl|]. intros c Hc. apply Hf'. intros Hc1. eapply N12; [exact Hc1|]. by apply list_elem_of_fmap_2. }
    simpl. destruct cs2 as [|d cs2].
    + constructor; [|done]. simpl. by rewrite (linked_ptr _ _ _ Hl).
    + inversion Hl' as [|? a n ? Hp Hm Hna Hl'']; subst. by econstructor.
  - apply sorted_insert; try done. apply HR.
  - rewrite fmap_app. simpl. apply NoDup_app. split_and!; [done| |].
    + intros a Ha. rewrite not_elem_of_cons. split; [set_solver|by apply N12].
    + constructor; [set_solver|done].
Qed.

Lemma list_rep_ext h h' cs : list_rep h cs -> h_head h' = h_head h ->
  (forall c, c ∈ cs -> h_nodes h' !! ce_ptr c = h_nodes h !! ce_ptr c) -> list_rep h' cs.
Proof. intros [Hl Hs Hn] Hh Hf. split; [|done|done]. rewrite Hh. by eapply linked_frame. Qed.

(** a write elsewhere commutes with a write of the node [a] *)
Lemma wr_loc_commute h l w h' a n : wr_loc h l w = Ok h' -> l <> LNext a ->
  wr_loc (mkHeap (h_head h) (<[a := n]> (h_nodes h))) l w = Ok (mkHeap (h_head h') (<[a := n]> (h_nodes h'))).
Proof.
  intros Hw Hne. destruct l as [|b]; simpl in *; [by simplify_eq|]. unfold rd_node in *. simpl.
  rewrite lookup_insert_ne by congruence. destruct (h_nodes h !! b) as [nb|]; simpl in *; [|done]. simplify_eq. simpl.
  f_equal. f_equal. apply insert_insert_ne. congruence.
Qed.

Lemma rd_loc_other h l a n : l <> LNext a -> rd_loc (mkHeap (h_head h) (<[a := n]> (h_nodes h))) l = rd_loc h l.
Proof.
  intros Hne. destruct l as [|b]; [done|]. simpl. unfold rd_node. simpl. by rewrite lookup_insert_ne by congruence.
Qed.

(** unlinking the cell after a location, the node being freed *)
Lemma unlink_rep h cs1 d cs2 cn tg h' : list_rep h (cs1 ++ d :: cs2) ->
  linked h cn cs2 -> wr_loc h (loc_at cs1) (mkPtr (mp_ptr cn) false tg) = Ok h' ->
  list_rep (mkHeap (h_head h') (delete (ce_ptr d) (h_nodes h'))) (cs1 ++ cs2).
Proof.
  intros HR Hl Hw. pose proof (lr_nodup _ _ HR) as Hnd. rewrite fmap_app in Hnd. simpl in Hnd.
  apply NoDup_app in Hnd as (N1 & N12 & N2). apply NoDup_cons in N2 as [Nd N2].
  destruct (wr_loc_at h cs1 (d :: cs2) (mkPtr (mp_ptr cn) false tg) HR) as (h2 & Hw' & _ & _ & Hf).
  rewrite Hw in Hw'. injection Hw' as <-.
  assert (forall c, c ∈ cs2 -> h_nodes h' !! ce_ptr c = h_nodes h !! ce_ptr c) as Hf2.
  { intros c Hc. apply Hf, loc_at_ne. intros Hc1. apply (N12 _ Hc1). right. by apply list_elem_of_fmap_2. }
  assert (list_rep h' (cs1 ++ cs2)) as HR'.
  { eapply list_write; [exact HR|exact Hw|..].
    - assert (linked h' cn cs2) as Hl' by (by eapply linked_frame).
      inversion Hl' as [p Hp Hm|p a n cs Hp Hm Hn Hl'']; subst; [by constructor|]. by econstructor.
    - eapply sorted_delete, HR.
    - rewrite fmap_app. apply NoDup_app. split_and!; [done| |done]. intros a Ha Ha2. apply (N12 a Ha). by right. }
  eapply list_rep_ext; [exact HR'|done|]. intros c Hc. simpl. apply lookup_delete_ne. intros E.
  apply elem_of_app in Hc as [Hc|Hc].
  - apply (N12 (ce_ptr d)); [rewrite E; by apply list_elem_of_fmap_2|by left].
  - apply Nd. rewrite E. by apply list_elem_of_fmap_2.
Qed.
