(* ===== verification/ListSeq.v ===== *)
(** * The lock-free list run by one thread

    What [find] does when nobody interferes, and from it the behaviour of
    [Insert], [Remove] and [Search] on a sorted list. *)

From S2P Require Import Prelude.
From S2P Require Import MichaelList.
From S2P Require Import ListRep.

(** [n] steps of one call *)
Fixpoint steps (n : nat) (h : heap) (t : tstate) : res (heap * tstate) :=
  match n with
  | O => Ok (h, t)
  | S n => '(h, t) ← tstep h t; steps n h t
  end.

Lemma steps_add n m h t : steps (n + m) h t = '(h, t) ← steps n h t; steps m h t.
Proof.
  revert h t. induction n as [|n IH]; intros h t; [done|]. cbn [steps Nat.add].
  destruct (tstep h t) as [[h' t']|]; [|done]. apply IH.
Qed.

Lemma steps_trans n m h t h1 t1 h2 t2 :
  steps n h t = Ok (h1, t1) -> steps m h1 t1 = Ok (h2, t2) -> steps (n + m) h t = Ok (h2, t2).
Proof. intros H1 H2. rewrite steps_add, H1. exact H2. Qed.

Lemma steps_done n h r : steps n h (TDone r) = Ok (h, TDone r).
Proof. induction n as [|n IH]; [done|]. simpl. done. Qed.

Lemma steps_run n fuel h t h' r : steps n h t = Ok (h', TDone r) -> (n < fuel)%nat -> run fuel h t = Ok (h', r).
Proof.
  revert fuel h t. induction n as [|n IH]; intros fuel h t H Hf; (destruct fuel as [|fuel]; [lia|]); cbn [steps] in H.
  - by simplify_eq.
  - destruct (tstep h t) as [[h1 t1]|] eqn:E; [|done]. cbn [mbind res_bind] in H.
    assert (run fuel h1 t1 = Ok (h', r)) as Hr by (apply IH; [done|lia]).
    cbn [run]. rewrite E. destruct t; try exact Hr.
    simpl in E. injection E as <- <-. rewrite steps_done in H. by simplify_eq.
Qed.

(** ** [find] without interference *)

Lemma unmarked_id p : mp_mark p = false -> unmarked p = p.
Proof. destruct p as [q m tg]. unfold unmarked. simpl. by intros ->. Qed.

(** where [find] stops: the first cell whose key is not smaller *)
Definition find_stop (key : Z) (cs2 m r : list cell) : Prop :=
  cs2 = m ++ r /\ (forall d, d ∈ m -> ce_key d < key) /\ (forall d, head r = Some d -> key <= ce_key d).

Lemma find_stop_ex key cs2 : exists m r, find_stop key cs2 m r.
Proof.
  induction cs2 as [|d cs2 (m & r & -> & Hm & Hr)].
  - exists [], []. by split_and!; [done|intros d ?%elem_of_nil|].
  - destruct (Z.lt_ge_cases (ce_key d) key).
    + exists (d :: m), r. split_and!; [done| |done]. intros e [->|He]%elem_of_cons; auto.
    + exists [], (d :: m ++ r). split_and!; [done|by intros e ?%elem_of_nil|]. by intros e [= <-].
Qed.

(** the program point [find] returns to *)
Definition found (c : call) (prev : loc) (w : MarkPtr) (h : heap) (r : list cell) (t : tstate) : Prop :=
  match r with
  | [] => exists cn, t = find_return c prev w cn false
  | d :: _ => exists cn, rd_loc h (LNext (ce_ptr d)) = Ok cn /\ t = find_return c prev w cn (ce_key d =? c_key c)
  end.

Lemma find_advance h cs1 d cs2 c w : list_rep h (cs1 ++ d :: cs2) ->
  rd_loc h (loc_at cs1) = Ok w -> linked h w (d :: cs2) ->
  exists cn, h_nodes h !! ce_ptr d = Some (mkNode cn (ce_key d) (ce_value d)) /\ linked h cn cs2 /\
    steps 3 h (TLoop c (loc_at cs1) w) =
    Ok (h, if c_key c <=? ce_key d then find_return c (loc_at cs1) w cn (ce_key d =? c_key c)
           else TLoop c (LNext (ce_ptr d)) cn).
Proof.
  intros HR Hw Hl. pose proof (linked_unmarked _ _ _ Hl) as Hm.
  destruct (linked_cons_inv _ _ _ _ Hl) as (cn & Hp & Hn & Hl'). exists cn. split; [done|]. split; [done|].
  cbn [steps tstep find_step]. rewrite Hp. cbn [rd_loc]. unfold rd_node. rewrite Hn. cbn [of_option mbind res_bind n_next steps tstep find_step].
  unfold curr_of. rewrite Hp. cbn [of_option mbind res_bind]. unfold rd_node. rewrite Hn. cbn [of_option mbind res_bind n_key steps tstep find_step].
  rewrite Hw. cbn [mbind res_bind]. rewrite unmarked_id, bool_decide_true by done. cbn [negb].
  rewrite (linked_unmarked _ _ _ Hl'). cbn [negb].
  destruct (c_key c <=? ce_key d); [done|]. unfold curr_of. rewrite Hp. done.
Qed.

Lemma find_runs h cs2 : forall cs1 c w m r, list_rep h (cs1 ++ cs2) ->
  rd_loc h (loc_at cs1) = Ok w -> linked h w cs2 -> find_stop (c_key c) cs2 m r ->
  exists n w' t, (n <= 3 * length m + 3)%nat /\ steps n h (TLoop c (loc_at cs1) w) = Ok (h, t) /\
    rd_loc h (loc_at (cs1 ++ m)) = Ok w' /\ linked h w' r /\ found c (loc_at (cs1 ++ m)) w' h r t.
Proof.
  intros cs1 c w m. revert cs2 cs1 w. induction m as [|d m IH]; intros cs2 cs1 w r HR Hw Hl (-> & Hm & Hr).
  - cbn [app] in *. rewrite app_nil_r. destruct r as [|d r].
    + exists 1%nat, w, (find_return c (loc_at cs1) w null_ptr false). split_and!; try done; [simpl; lia| |by exists null_ptr].
      cbn [steps tstep find_step]. rewrite (linked_ptr _ _ _ Hl). done.
    + destruct (find_advance h cs1 d r c w HR Hw Hl) as (cn & Hn & Hl' & Hs).
      specialize (Hr d eq_refl). exists 3%nat, w, (find_return c (loc_at cs1) w cn (ce_key d =? c_key c)). split_and!; try done.
      * rewrite Hs. destruct (Z.leb_spec (c_key c) (ce_key d)); [done|lia].
      * exists cn. split; [|done]. simpl. unfold rd_node. by rewrite Hn.
  - cbn [app] in *. destruct (find_advance h cs1 d (m ++ r) c w HR Hw Hl) as (cn & Hn & Hl' & Hs).
    assert (ce_key d < c_key c) by (apply Hm; by left).
    replace (cs1 ++ d :: m ++ r) with ((cs1 ++ [d]) ++ m ++ r) in HR by (by rewrite <-app_assoc).
    destruct (IH (m ++ r) (cs1 ++ [d]) cn r HR) as (n & w' & t & Hn' & Hs' & Hw' & Hlw & Hf).
    + rewrite loc_at_snoc. simpl. unfold rd_node. by rewrite Hn.
    + done.
    + split_and!; [done| |done]. intros e He. apply Hm. by right.
    + exists (3 + n)%nat, w', t. rewrite <-app_assoc in Hw', Hf. split_and!; try done.
      * simpl. lia.
      * eapply steps_trans; [exact Hs|]. destruct (Z.leb_spec (c_key c) (ce_key d)); [lia|].
        by rewrite loc_at_snoc in Hs'.
Qed.

(** a call whose head is in the list, before its key *)
Lemma start_runs h cs1 cs2 c m r : list_rep h (cs1 ++ cs2) -> c_head c = loc_at cs1 -> find_stop (c_key c) cs2 m r ->
  exists n w t, (n <= 3 * length m + 4)%nat /\ steps n h (TStart c) = Ok (h, t) /\
    rd_loc h (loc_at (cs1 ++ m)) = Ok w /\ linked h w r /\ found c (loc_at (cs1 ++ m)) w h r t.
Proof.
  intros HR Hh Hs. destruct (rd_loc_at h cs1 cs2 HR) as (w & Hw & Hl).
  destruct (find_runs h cs2 cs1 c w m r HR Hw Hl Hs) as (n & w' & t & Hn & Hst & Hw' & Hl' & Hf).
  exists (S n), w', t. split_and!; try done; [lia|]. cbn [steps tstep find_step]. by rewrite Hh, Hw.
Qed.

(** the number of cells is at most the number of nodes *)
Lemma linked_dom h p cs : linked h p cs -> forall c, c ∈ cs -> is_Some (h_nodes h !! ce_ptr c).
Proof.
  induction 1 as [|p a n cs Hp Hm Hn Hl IH]; intros c; [by intros ?%elem_of_nil|].
  intros [->|Hc]%elem_of_cons; [by eexists|by apply IH].
Qed.

Lemma cells_size h cs : list_rep h cs -> (length cs <= size (h_nodes h))%nat.
Proof.
  intros [Hl _ Hn]. rewrite <-(length_fmap ce_ptr), <-(size_list_to_set (C:=gset ptr)) by done.
  rewrite <-size_dom. apply subseteq_size. intros a. rewrite elem_of_list_to_set, list_elem_of_fmap, elem_of_dom.
  intros (c & -> & Hc). by eapply linked_dom.
Qed.

(** ** The operations on a sorted list *)

Definition key_in (key : Z) (cs : list cell) : Prop := key ∈ ce_key <$> cs.

Lemma stop_absent cs1 cs2 m r key k : sorted_from k (cs1 ++ cs2) -> below (key_at cs1) key -> find_stop key cs2 m r ->
  (forall d, head r = Some d -> ce_key d <> key) ->
  below (key_at (cs1 ++ m)) key /\ (forall d, head r = Some d -> key < ce_key d) /\ ~ key_in key (cs1 ++ cs2).
Proof.
  intros Hs Hb (-> & Hm & Hr) Hne.
  assert (below (key_at (cs1 ++ m)) key) as Hb'.
  { destruct m as [|d m _] using rev_ind; [by rewrite app_nil_r|].
    rewrite app_assoc, key_at_snoc. simpl. apply Hm. set_solver. }
  assert (forall d, head r = Some d -> key < ce_key d) as Hr'.
  { intros d Hd. specialize (Hr d Hd). specialize (Hne d Hd). lia. }
  split_and!; [done|done|]. unfold key_in. rewrite app_assoc. eapply gap_absent; [by rewrite <-app_assoc|done|done].
Qed.

(** a call of [Search] *)
Lemma search_steps h cs1 cs2 key : list_rep h (cs1 ++ cs2) -> below (key_at cs1) key ->
  exists n r, (n <= 3 * length cs2 + 6)%nat /\
    steps n h (TStart (mkCall (loc_at cs1) key KSearch)) = Ok (h, TDone r) /\
    ((exists d, d ∈ cs2 /\ ce_key d = key /\ r = RSearch true (Some (ce_value d))) \/
     (~ key_in key (cs1 ++ cs2) /\ r = RSearch false None)).
Proof.
  intros HR Hb. destruct (find_stop_ex key cs2) as (m & r & Hstop).
  destruct (start_runs h cs1 cs2 (mkCall (loc_at cs1) key KSearch) m r HR eq_refl Hstop) as (n & w & t & Hn & Hs & Hw & Hl & Hf).
  pose proof Hstop as (E & _ & Hr). assert (length cs2 = length m + length r)%nat as L by (rewrite E; apply length_app).
  destruct r as [|d r].
  - destruct Hf as (cn & ->). exists n, (RSearch false None). split_and!; [lia|exact Hs|]. right. split; [|done].
    destruct (stop_absent cs1 cs2 m [] key None (lr_sorted _ _ HR) Hb Hstop) as (_ & _ & Ha); done.
  - destruct Hf as (cn & Hcn & ->). cbn [c_key] in *. destruct (Z.eqb_spec (ce_key d) key) as [Ek|Ek].
    + destruct (linked_cons_inv _ _ _ _ Hl) as (w' & Hp & Hnd & Hl'). exists (n + 2)%nat, (RSearch true (Some (ce_value d))).
      split_and!; [simpl in L; lia| |left; exists d; split_and!; [rewrite E; set_solver|done|done]].
      eapply steps_trans; [exact Hs|]. cbn [find_return c_cont steps tstep search_step]. unfold curr_of. rewrite Hp.
      cbn [of_option mbind res_bind]. unfold rd_node. rewrite Hnd.
      cbn [of_option mbind res_bind steps tstep search_step]. unfold curr_of. rewrite Hp. cbn [of_option mbind res_bind rd_loc].
      unfold rd_node. rewrite Hnd. cbn [of_option mbind res_bind n_next n_value]. by rewrite (linked_unmarked _ _ _ Hl').
    + exists n, (RSearch false None). split_and!; [simpl in L; lia|exact Hs|]. right. split; [|done].
      destruct (stop_absent cs1 cs2 m (d :: r) key None (lr_sorted _ _ HR) Hb Hstop) as (_ & _ & Ha); [by intros ? [= <-]|done].
Qed.

(** a call of [Insert] with a node that is not in the list *)
Lemma insert_steps h cs1 cs2 node key v w0 : list_rep h (cs1 ++ cs2) -> below (key_at cs1) key ->
  h_nodes h !! node = Some (mkNode w0 key v) -> node ∉ ce_ptr <$> cs1 ++ cs2 ->
  exists n h' r, (n <= 3 * length cs2 + 6)%nat /\
    steps n h (TStart (mkCall (loc_at cs1) key (KInsert node))) = Ok (h', TDone r) /\
    ((exists d, d ∈ cs2 /\ ce_key d = key /\ r = RInsert false (Some (ce_ptr d)) /\ h' = h) \/
     (~ key_in key (cs1 ++ cs2) /\ r = RInsert true None /\
      exists m rest, cs2 = m ++ rest /\ list_rep h' (cs1 ++ m ++ mkCell node key v :: rest))).
Proof.
  intros HR Hb Hnode Hni. destruct (find_stop_ex key cs2) as (m & r & Hstop).
  destruct (start_runs h cs1 cs2 (mkCall (loc_at cs1) key (KInsert node)) m r HR eq_refl Hstop) as (n & w & t & Hn & Hs & Hw & Hl & Hf).
  pose proof Hstop as (E & _ & Hr). assert (length cs2 = length m + length r)%nat as L by (rewrite E; apply length_app).
  destruct (decide (ce_key <$> head r = Some key)) as [(d & Hd & Ek)%fmap_Some|Hne].
  { symmetry in Ek. destruct r as [|d' r]; [done|]. injection Hd as ->. destruct Hf as (cn & _ & ->). cbn [c_key] in *.
    rewrite (proj2 (Z.eqb_eq _ _) Ek) in Hs. exists n, h, (RInsert false (Some (ce_ptr d))). split_and!; [simpl in L; lia| |].
    - rewrite Hs. cbn [find_return c_cont]. by rewrite (linked_ptr _ _ _ Hl).
    - left. exists d. split_and!; [rewrite E; set_solver|done|done|done]. }
  destruct (stop_absent cs1 cs2 m r key None (lr_sorted _ _ HR) Hb Hstop) as (Hb' & Hr' & Ha); [intros d Hd Ek; apply Hne; by rewrite Hd, <-Ek|].
  assert (t = TLink (mkCall (loc_at cs1) key (KInsert node)) node (loc_at (cs1 ++ m)) w) as ->.
  { destruct r as [|d r]; [by destruct Hf as (cn & ->)|]. destruct Hf as (cn & _ & ->). cbn [c_key].
    destruct (Z.eqb_spec (ce_key d) key); [|done]. by subst key. }
  set (h1 := mkHeap (h_head h) (<[node := mkNode (mkPtr (mp_ptr w) false 0) key v]> (h_nodes h))).
  assert (list_rep h1 (cs1 ++ cs2)) as HR1 by (by apply private_frame).
  assert (linked h1 w r /\ rd_loc h1 (loc_at (cs1 ++ m)) = Ok w) as [Hl1 Hw1].
  { rewrite E, app_assoc in HR1, Hni. destruct (rd_loc_at _ _ _ HR1) as (w1 & Hw1 & Hl1).
    assert (rd_loc h1 (loc_at (cs1 ++ m)) = rd_loc h (loc_at (cs1 ++ m))) as Eq.
    { assert (LNext node <> loc_at (cs1 ++ m)) as Hne' by (apply loc_at_ne; rewrite fmap_app in Hni; set_solver).
      destruct (loc_at (cs1 ++ m)) as [|a]; [done|]. simpl. unfold rd_node. simpl. rewrite lookup_insert_ne; [done|congruence]. }
    rewrite Eq, Hw in Hw1. simplify_eq. by rewrite Eq. }
  destruct (cas_link h1 (cs1 ++ m) r node key v w (u16 (mp_tag w + 1))) as (h2 & Hcas & HR2 & _); try done.
  { by rewrite <-app_assoc, <-E. }
  { apply lookup_insert_eq. }
  { by rewrite <-app_assoc, <-E. }
  exists (n + 2)%nat, h2, (RInsert true None). split_and!; [lia| |].
  - eapply steps_trans; [exact Hs|]. cbn [steps tstep insert_step wr_loc]. unfold rd_node. rewrite Hnode.
    cbn [of_option mbind res_bind n_key n_value]. fold h1. cbn [steps tstep insert_step mbind res_bind].
    rewrite unmarked_id by (by eapply linked_unmarked). by rewrite Hcas.
  - right. split_and!; [done|done|]. exists m, r. by rewrite <-app_assoc in HR2.
Qed.

(** a call of [Remove]: the node is marked, unlinked and freed *)
Lemma remove_steps h cs1 cs2 key : list_rep h (cs1 ++ cs2) -> below (key_at cs1) key ->
  exists n h' r, (n <= 3 * length cs2 + 7)%nat /\
    steps n h (TStart (mkCall (loc_at cs1) key KRemove)) = Ok (h', TDone r) /\
    ((exists m d rest, cs2 = m ++ d :: rest /\ ce_key d = key /\ r = RRemove true /\
        list_rep h' (cs1 ++ m ++ rest) /\ h_nodes h' !! ce_ptr d = None) \/
     (~ key_in key (cs1 ++ cs2) /\ r = RRemove false /\ h' = h)).
Proof.
  intros HR Hb. destruct (find_stop_ex key cs2) as (m & r & Hstop).
  destruct (start_runs h cs1 cs2 (mkCall (loc_at cs1) key KRemove) m r HR eq_refl Hstop) as (n & w & t & Hn & Hs & Hw & Hl & Hf).
  pose proof Hstop as (E & _ & Hr). assert (length cs2 = length m + length r)%nat as L by (rewrite E; apply length_app).
  destruct (decide (ce_key <$> head r = Some key)) as [(d & Hd & Ek)%fmap_Some|Hne].
  2: { destruct (stop_absent cs1 cs2 m r key None (lr_sorted _ _ HR) Hb Hstop) as (_ & _ & Ha);
         [intros d Hd Ek; apply Hne; by rewrite Hd, <-Ek|].
       exists n, h, (RRemove false). split_and!; [lia| |by right]. rewrite Hs.
       destruct r as [|d r]; [by destruct Hf as (cn & ->)|]. destruct Hf as (cn & _ & ->). cbn [c_key].
       destruct (Z.eqb_spec (ce_key d) key); [by subst key|done]. }
  symmetry in Ek. destruct r as [|d' r]; [done|]. injection Hd as ->. destruct Hf as (cn & Hcn & ->). cbn [c_key] in *.
  rewrite (proj2 (Z.eqb_eq _ _) Ek) in Hs. cbn [find_return c_cont] in Hs.
  set (c := mkCall (loc_at cs1) key KRemove) in *. set (prev := loc_at (cs1 ++ m)) in *.
  rewrite E, app_assoc in HR. destruct (linked_cons_inv _ _ _ _ Hl) as (cn' & Hp & Hnd & Hlcn).
  assert (cn' = cn) as ->. { simpl in Hcn. unfold rd_node in Hcn. rewrite Hnd in Hcn. simpl in Hcn. congruence. }
  assert (prev <> LNext (ce_ptr d)) as Hpd.
  { intros E'. eapply (loc_at_ne (cs1 ++ m) (ce_ptr d)); [|by rewrite <-E'].
    pose proof (lr_nodup _ _ HR) as Hnd'. rewrite (fmap_app _ (cs1 ++ m)) in Hnd'. apply NoDup_app in Hnd' as (_ & N & _).
    intros Hin. apply (N _ Hin). by left. }
  set (marked := mkNode (mkPtr (mp_ptr cn) true (u16 (mp_tag cn + 1))) (ce_key d) (ce_value d)).
  set (h1 := mkHeap (h_head h) (<[ce_ptr d := marked]> (h_nodes h))).
  destruct (wr_loc_at h (cs1 ++ m) (d :: r) (mkPtr (mp_ptr cn) false (u16 (mp_tag w + 1))) HR) as (h2 & Hw2 & _).
  pose proof (unlink_rep _ _ _ _ _ _ _ HR Hlcn Hw2) as HR3.
  pose proof (wr_loc_commute _ _ _ _ (ce_ptr d) marked Hw2 Hpd) as Hw3. fold h1 prev in Hw3.
  assert (rd_loc h1 prev = Ok w) as Hw1 by (unfold h1; by rewrite rd_loc_other).
  exists (n + 3)%nat, (mkHeap (h_head h2) (delete (ce_ptr d) (h_nodes h2))), (RRemove true). split_and!; [simpl in L; lia| |].
  - eapply steps_trans; [exact Hs|]. cbn [steps tstep remove_step]. unfold curr_of. rewrite Hp. cbn [of_option mbind res_bind].
    unfold cas at 1. rewrite Hcn. cbn [mbind res_bind]. rewrite unmarked_id by (by eapply linked_unmarked).
    rewrite bool_decide_true by done. cbn [wr_loc]. unfold rd_node at 1. rewrite Hnd. cbn [of_option mbind res_bind n_key n_value].
    fold marked. fold h1. cbn [steps tstep remove_step]. unfold cas. rewrite Hw1. cbn [mbind res_bind]. rewrite unmarked_id by (by eapply linked_unmarked).
    rewrite bool_decide_true by done. rewrite Hw3. cbn [mbind res_bind steps tstep remove_step].
    unfold curr_of. rewrite Hp. cbn [of_option mbind res_bind]. unfold free_node, rd_node. simpl.
    rewrite lookup_insert_eq. simpl. do 3 f_equal. apply delete_insert_eq.
  - left. exists m, d, r. split_and!; [done|done|done|by rewrite app_assoc|]. simpl. apply lookup_delete_eq.
Qed.

(** ** The list as a finite map *)

Definition amap (cs : list cell) : gmap Z Z := list_to_map ((fun c => (ce_key c, ce_value c)) <$> cs).

Lemma sorted_nodup k cs : sorted_from k cs -> NoDup (ce_key <$> cs).
Proof.
  revert k. induction cs as [|c cs IH]; intros k Hs; [constructor|]. destruct Hs as [_ Hs]. constructor; [|by eapply IH].
  intros (d & E & Hd)%list_elem_of_fmap. pose proof (sorted_all _ _ _ Hs Hd). lia.
Qed.

Lemma amap_keys cs : ((fun c => (ce_key c, ce_value c)) <$> cs).*1 = ce_key <$> cs.
Proof. by rewrite <-list_fmap_compose. Qed.

Lemma amap_None cs key : amap cs !! key = None <-> ~ key_in key cs.
Proof. unfold amap, key_in. rewrite <-not_elem_of_list_to_map, amap_keys. done. Qed.

Lemma amap_elem k cs c : sorted_from k cs -> c ∈ cs -> amap cs !! ce_key c = Some (ce_value c).
Proof.
  intros Hs Hc. apply elem_of_list_to_map.
  - rewrite amap_keys. by eapply sorted_nodup.
  - apply list_elem_of_fmap. by exists c.
Qed.

Lemma amap_perm k cs1 cs2 c : sorted_from k (cs1 ++ c :: cs2) ->
  amap (cs1 ++ c :: cs2) = <[ce_key c := ce_value c]> (amap (cs1 ++ cs2)).
Proof.
  intros Hs. unfold amap. rewrite <-(list_to_map_proper ((fun c => (ce_key c, ce_value c)) <$> c :: cs1 ++ cs2)).
  - done.
  - rewrite amap_keys. rewrite (Permutation_middle cs1 cs2 c). by eapply sorted_nodup.
  - by rewrite (Permutation_middle cs1 cs2 c).
Qed.

Lemma amap_delete k cs1 cs2 c : sorted_from k (cs1 ++ c :: cs2) ->
  amap (cs1 ++ cs2) = delete (ce_key c) (amap (cs1 ++ c :: cs2)).
Proof.
  intros Hs. rewrite (amap_perm _ _ _ _ Hs), delete_insert_id; [done|].
  apply amap_None. unfold key_in. apply sorted_nodup in Hs. rewrite fmap_app in *. simpl in Hs.
  apply NoDup_app in Hs as (_ & H1 & H2). apply NoDup_cons in H2 as [H2 _]. intros [H|H]%elem_of_app; [|done].
  apply (H1 _ H). by left.
Qed.

(** a head from which a key can be reached *)
Definition head_ok (cs : list cell) (hd : loc) (key : Z) : Prop :=
  hd = LHead \/ exists d, d ∈ cs /\ hd = LNext (ce_ptr d) /\ ce_key d < key.

Lemma head_split cs hd key : head_ok cs hd key ->
  exists cs1 cs2, cs = cs1 ++ cs2 /\ hd = loc_at cs1 /\ below (key_at cs1) key.
Proof.
  intros [->|(d & Hd & -> & Hk)]; [by exists [], cs|].
  apply list_elem_of_split in Hd as (cs1 & cs2 & ->). exists (cs1 ++ [d]), cs2.
  rewrite loc_at_snoc, key_at_snoc. by rewrite <-app_assoc.
Qed.

Lemma fuel_enough h cs cs1 cs2 n : list_rep h cs -> cs = cs1 ++ cs2 -> (n <= 3 * length cs2 + 7)%nat -> (n < run_fuel h)%nat.
Proof. intros HR%cells_size -> Hn. rewrite length_app in HR. unfold run_fuel. lia. Qed.

Lemma insert_spec h cs hd node key v w0 : list_rep h cs -> head_ok cs hd key ->
  h_nodes h !! node = Some (mkNode w0 key v) -> node ∉ ce_ptr <$> cs ->
  exists h', match amap cs !! key with
  | None => Insert h hd node = Ok (h', RInsert true None) /\
      exists cs1 cs2, cs = cs1 ++ cs2 /\ list_rep h' (cs1 ++ mkCell node key v :: cs2) /\
        amap (cs1 ++ mkCell node key v :: cs2) = <[key := v]> (amap cs)
  | Some _ => h' = h /\ exists d, d ∈ cs /\ ce_key d = key /\ Insert h hd node = Ok (h, RInsert false (Some (ce_ptr d)))
  end.
Proof.
  intros HR Hh Hnode Hni. destruct (head_split _ _ _ Hh) as (cs1 & cs2 & E & -> & Hb). pose proof HR as HR0. rewrite E in HR0.
  destruct (insert_steps h cs1 cs2 node key v w0 HR0 Hb Hnode) as (n & h' & r & Hn & Hs & Hr); [by rewrite <-E|].
  assert (Insert h (loc_at cs1) node = Ok (h', r)) as HI.
  { unfold Insert, rd_node. rewrite Hnode. cbn [of_option mbind res_bind n_key]. eapply steps_run; [exact Hs|].
    eapply (fuel_enough h cs cs1 cs2); [done|done|lia]. }
  exists h'. rewrite HI, E. destruct Hr as [(d & Hd & <- & -> & ->)|(Ha & -> & m & rest & -> & HR')].
  - rewrite (amap_elem None _ d); [|apply HR0|set_solver]. split; [done|]. exists d. split; [set_solver|done].
  - rewrite (proj2 (amap_None _ _) Ha). split; [done|]. exists (cs1 ++ m), rest. rewrite <-!app_assoc. split_and!; [done|done|].
    pose proof (lr_sorted _ _ HR') as Hs'. rewrite !app_assoc in *. by rewrite (amap_perm _ _ _ _ Hs').
Qed.

Lemma search_spec h cs hd key : list_rep h cs -> head_ok cs hd key ->
  Search h hd key = Ok (h, match amap cs !! key with Some v => RSearch true (Some v) | None => RSearch false None end).
Proof.
  intros HR Hh. destruct (head_split _ _ _ Hh) as (cs1 & cs2 & E & -> & Hb). pose proof HR as HR0. rewrite E in HR0.
  destruct (search_steps h cs1 cs2 key HR0 Hb) as (n & r & Hn & Hs & Hr).
  unfold Search. rewrite (steps_run _ _ _ _ _ _ Hs) by (eapply (fuel_enough h cs cs1 cs2); [done|done|lia]).
  do 2 f_equal. rewrite E. destruct Hr as [(d & Hd & <- & ->)|(Ha & ->)].
  - rewrite (amap_elem None _ d); [done|apply HR0|set_solver].
  - by rewrite (proj2 (amap_None _ _) Ha).
Qed.

Lemma remove_spec h cs hd key : list_rep h cs -> head_ok cs hd key ->
  exists h' cs', Remove h hd key = Ok (h', RRemove (bool_decide (is_Some (amap cs !! key)))) /\
    list_rep h' cs' /\ amap cs' = delete key (amap cs).
Proof.
  intros HR Hh. destruct (head_split _ _ _ Hh) as (cs1 & cs2 & E & -> & Hb). pose proof HR as HR0. rewrite E in HR0.
  destruct (remove_steps h cs1 cs2 key HR0 Hb) as (n & h' & r & Hn & Hs & Hr).
  unfold Remove. rewrite (steps_run _ _ _ _ _ _ Hs) by (eapply (fuel_enough h cs cs1 cs2); [done|done|lia]).
  destruct Hr as [(m & d & rest & -> & <- & -> & HR' & _)|(Ha & -> & ->)].
  - exists h', (cs1 ++ m ++ rest). rewrite E, (app_assoc cs1 m (d :: rest)), (app_assoc cs1 m rest).
    rewrite app_assoc in HR0. pose proof (lr_sorted _ _ HR0) as Hs0. split_and!.
    + rewrite (amap_elem None _ d); [by rewrite bool_decide_true by eauto|done|set_solver].
    + by rewrite <-app_assoc.
    + by eapply amap_delete.
  - exists h, cs. rewrite <-E in Ha. apply amap_None in Ha. rewrite Ha, bool_decide_false by (by intros [? ?]).
    split_and!; [done|done|]. symmetry. by apply delete_id.
Qed.
