(* ===== verification/ListDeque.v ===== *)
(** * The list as a deque

    [Unshift], [Shift], [Push], [Pop] and [Clear] are not thread-safe and do
    not use the order of the keys: on a chain of nodes they are the two ends of
    a sequence. *)

From S2P Require Import Prelude.
From S2P Require Import MichaelList.
From S2P Require Import ListRep.
From S2P Require Import ListSeq.

Record chain_rep (h : heap) (cs : list cell) : Prop := {
  cr_linked : linked h (h_head h) cs;
  cr_nodup : NoDup (ce_ptr <$> cs);
}.

Lemma walk_last_spec h cs2 : forall cs1 fuel pp, linked h (h_head h) (cs1 ++ cs2) -> (length cs2 < fuel)%nat ->
  walk_last fuel h pp (loc_at cs1) =
  Ok (match cs2 with [] => pp | _ => Some (loc_at (removelast (cs1 ++ cs2))) end, loc_at (cs1 ++ cs2)).
Proof.
  induction cs2 as [|c cs2 IH]; intros cs1 [|fuel] pp Hl Hf; simpl in Hf; try lia; cbn [walk_last].
  - destruct (rd_chain_at h cs1 [] Hl) as (w & -> & Hw). cbn [mbind res_bind].
    rewrite (linked_ptr _ _ _ Hw). simpl. by rewrite app_nil_r.
  - destruct (rd_chain_at h cs1 (c :: cs2) Hl) as (w & -> & Hw). cbn [mbind res_bind].
    rewrite (linked_ptr _ _ _ Hw). cbn [head fmap option_fmap option_map].
    rewrite <-(loc_at_snoc cs1 c). replace (cs1 ++ c :: cs2) with ((cs1 ++ [c]) ++ cs2) in * by (by rewrite <-app_assoc).
    rewrite IH by (done || lia). f_equal. f_equal. destruct cs2 as [|d cs2]; [|done].
    rewrite app_nil_r, removelast_last. done.
Qed.

Lemma chain_fuel h cs : chain_rep h cs -> (length cs <= size (h_nodes h))%nat.
Proof.
  intros [Hl Hn]. rewrite <-(length_fmap ce_ptr), <-(size_list_to_set (C:=gset ptr)) by done.
  rewrite <-size_dom. apply subseteq_size. intros a. rewrite elem_of_list_to_set, list_elem_of_fmap, elem_of_dom.
  intros (c & -> & Hc). by eapply linked_dom.
Qed.

(** [node->next = w], the word at the end of a prefix, then the link to it *)
Lemma link_at h cs1 cs2 node k v w0 : chain_rep h (cs1 ++ cs2) ->
  h_nodes h !! node = Some (mkNode w0 k v) -> node ∉ ce_ptr <$> cs1 ++ cs2 ->
  exists w h1 h2, rd_loc h (loc_at cs1) = Ok w /\ wr_loc h (LNext node) w = Ok h1 /\
    wr_loc h1 (loc_at cs1) (mkPtr (Some node) false 0) = Ok h2 /\ chain_rep h2 (cs1 ++ mkCell node k v :: cs2).
Proof.
  intros [Hl Hnd] Hnode Hni. destruct (rd_chain_at h cs1 cs2 Hl) as (w & Hw & Hlw).
  set (h1 := mkHeap (h_head h) (<[node := mkNode w k v]> (h_nodes h))).
  assert (forall c, c ∈ cs1 ++ cs2 -> h_nodes h1 !! ce_ptr c = h_nodes h !! ce_ptr c) as Hf.
  { intros c Hc. simpl. rewrite lookup_insert_ne; [done|]. intros ->. apply Hni. by apply list_elem_of_fmap_2. }
  assert (linked h1 (h_head h1) (cs1 ++ cs2)) as Hl1 by (by eapply linked_frame).
  destruct (wr_chain_at h1 cs1 cs2 (mkPtr (Some node) false 0) Hl1) as (h2 & Hw2 & _ & _ & Hf2).
  exists w, h1, h2. split_and!; [done| |done|].
  { simpl. unfold rd_node. by rewrite Hnode. }
  rewrite fmap_app in Hnd, Hni. apply NoDup_app in Hnd as (N1 & N12 & N2). split.
  - eapply chain_write; [exact Hl1|rewrite fmap_app; by apply NoDup_app|exact Hw2|].
    apply (linked_cons h2 _ node (mkNode w k v)); [done|done| |].
    + rewrite Hf2 by (apply loc_at_ne; set_solver). apply lookup_insert_eq.
    + eapply linked_frame; [exact Hlw|]. intros c Hc. rewrite Hf2, Hf; [done|set_solver|].
      apply loc_at_ne. intros Hc1. apply (N12 _ Hc1). by apply list_elem_of_fmap_2.
  - rewrite fmap_app. simpl. apply NoDup_app. split_and!; [done| |constructor; [set_solver|done]].
    intros a Ha [->|Ha2]%elem_of_cons; [set_solver|by apply (N12 a)].
Qed.

Lemma unshift_spec h cs node k v w0 : chain_rep h cs -> h_nodes h !! node = Some (mkNode w0 k v) -> node ∉ ce_ptr <$> cs ->
  exists h', Unshift h node = Ok h' /\ chain_rep h' (mkCell node k v :: cs).
Proof.
  intros HR Hn Hni. destruct (link_at h [] cs node k v w0 HR Hn Hni) as (w & h1 & h2 & Hw & H1 & H2 & HR2).
  exists h2. split; [|done]. unfold Unshift. simpl in Hw. injection Hw as ->. by rewrite H1.
Qed.

Lemma push_spec h cs node k v w0 : chain_rep h cs -> h_nodes h !! node = Some (mkNode w0 k v) -> node ∉ ce_ptr <$> cs ->
  exists h', Push h node = Ok h' /\ chain_rep h' (cs ++ [mkCell node k v]).
Proof.
  intros HR Hn Hni. pose proof (chain_fuel h cs HR) as Hf.
  destruct (link_at h cs [] node k v w0) as (w & h1 & h2 & Hw & H1 & H2 & HR2); [by rewrite app_nil_r|done|by rewrite app_nil_r|].
  exists h2. split; [|done]. unfold Push. change LHead with (loc_at []).
  rewrite (walk_last_spec h cs []) by (apply HR || lia). cbn [app mbind res_bind]. rewrite Hw. cbn [mbind res_bind].
  by rewrite H1.
Qed.

Lemma shift_spec h c cs : chain_rep h (c :: cs) ->
  exists h', Shift h = Ok (h', ce_ptr c) /\ chain_rep h' cs /\ h_nodes h' = h_nodes h.
Proof.
  intros [Hl Hn]. destruct (linked_cons_inv _ _ _ _ Hl) as (w & Hp & Hnode & Hlw).
  exists (mkHeap w (h_nodes h)). split_and!; [|split|done].
  - unfold Shift, IsEmpty, curr_of. rewrite Hp. cbn [bool_decide decide]. rewrite bool_decide_false by done.
    cbn [of_option mbind res_bind rd_loc]. unfold rd_node. rewrite Hnode. done.
  - simpl. by eapply linked_frame.
  - by apply NoDup_cons in Hn as [_ Hn].
Qed.

Lemma pop_spec h c cs : chain_rep h (cs ++ [c]) ->
  exists h', Pop h = Ok (h', ce_ptr c) /\ chain_rep h' cs /\ is_Some (h_nodes h' !! ce_ptr c).
Proof.
  intros HR. pose proof (chain_fuel _ _ HR) as Hf. destruct HR as [Hl Hn].
  destruct (rd_chain_at h (cs ++ [c]) []) as (w & Hw & Hlw); [by rewrite app_nil_r|].
  pose proof Hl as Hl0. destruct (wr_chain_at h cs [c] w Hl0) as (h' & Hwr & _ & _ & Hf2).
  pose proof Hn as Hn0. rewrite fmap_app in Hn. apply NoDup_app in Hn as (N1 & N12 & _).
  exists h'. split_and!; [|split|].
  - unfold Pop, IsEmpty. rewrite (linked_ptr _ _ _ Hl), bool_decide_false by (by destruct cs).
    change LHead with (loc_at []). rewrite (walk_last_spec h (cs ++ [c]) []) by (done || lia).
    cbn [app mbind res_bind]. rewrite Hw, removelast_last, loc_at_snoc. cbn [mbind res_bind].
    destruct (cs ++ [c]) eqn:E; [by destruct cs|]. by rewrite Hwr.
  - rewrite <-(app_nil_r cs). eapply chain_write; [exact Hl0|done|exact Hwr|].
    inversion Hlw; subst. by constructor.
  - done.
  - rewrite Hf2; [eapply linked_dom; [exact Hl|set_solver]|]. apply loc_at_ne. intros H. apply (N12 _ H). by left.
Qed.

Lemma foldr_delete_comm (m : gmap ptr NodeType) a l : foldr delete (delete a m) l = delete a (foldr delete m l).
Proof. induction l as [|b l IH]; simpl; [done|]. rewrite IH. apply delete_delete. Qed.

Lemma clear_loop_spec cs : forall fuel h p, linked h p cs -> NoDup (ce_ptr <$> cs) -> (length cs < fuel)%nat ->
  exists h', clear_loop fuel h (mp_ptr p) = Ok h' /\ h_head h' = h_head h /\
    h_nodes h' = foldr delete (h_nodes h) (ce_ptr <$> cs).
Proof.
  induction cs as [|c cs IH]; intros [|fuel] h p Hl Hn Hf; simpl in Hf; try lia; cbn [clear_loop].
  - rewrite (linked_ptr _ _ _ Hl). by exists h.
  - destruct (linked_cons_inv _ _ _ _ Hl) as (w & Hp & Hnode & Hlw). rewrite Hp. cbn [rd_loc]. unfold free_node, rd_node.
    rewrite Hnode. cbn [of_option mbind res_bind n_next]. apply NoDup_cons in Hn as [Hni Hn].
    destruct (IH fuel (mkHeap (h_head h) (delete (ce_ptr c) (h_nodes h))) w) as (h' & -> & Hh & Hn').
    + eapply linked_frame; [exact Hlw|]. intros d Hd. simpl. apply lookup_delete_ne.
      intros E. apply Hni. rewrite E. by apply list_elem_of_fmap_2.
    + done.
    + lia.
    + exists h'. split_and!; [done|done|]. rewrite Hn'. cbn [h_nodes]. rewrite fmap_cons. apply foldr_delete_comm.
Qed.

Lemma clear_spec h cs : chain_rep h cs ->
  exists h', Clear h = Ok h' /\ h_head h' = h_head h /\ h_nodes h' = foldr delete (h_nodes h) (ce_ptr <$> cs).
Proof.
  intros HR. pose proof (chain_fuel _ _ HR). destruct HR as [Hl Hn]. unfold Clear. apply clear_loop_spec; [done|done|lia].
Qed.

Lemma foldr_delete_In (m : gmap ptr NodeType) l a : a ∈ l -> foldr delete m l !! a = None.
Proof.
  induction l as [|b l IH]; [by intros ?%elem_of_nil|]. intros [->|Ha]%elem_of_cons; simpl; [apply lookup_delete_eq|].
  destruct (decide (a = b)) as [->|]; [apply lookup_delete_eq|]. rewrite lookup_delete_ne by done. auto.
Qed.

(** C39: on a chain of distinct nodes the four end operations are those of a
    sequence, whatever the keys are; [Clear] frees each node of the chain
    exactly once, but keeps the head: the next call on a list that was not
    empty reads a node that is gone. *)
Theorem deque_correct h cs : chain_rep h cs ->
  (forall node k v w0, h_nodes h !! node = Some (mkNode w0 k v) -> node ∉ ce_ptr <$> cs ->
     (exists h', Unshift h node = Ok h' /\ chain_rep h' (mkCell node k v :: cs)) /\
     (exists h', Push h node = Ok h' /\ chain_rep h' (cs ++ [mkCell node k v]))) /\
  (forall c cs', cs = c :: cs' -> exists h', Shift h = Ok (h', ce_ptr c) /\ chain_rep h' cs' /\ h_nodes h' = h_nodes h) /\
  (forall c cs', cs = cs' ++ [c] -> exists h', Pop h = Ok (h', ce_ptr c) /\ chain_rep h' cs' /\ is_Some (h_nodes h' !! ce_ptr c)) /\
  (cs = [] -> Shift h = Err ECheck /\ Pop h = Err ECheck) /\
  (exists h', Clear h = Ok h' /\ h_nodes h' = foldr delete (h_nodes h) (ce_ptr <$> cs) /\
     forall key, cs <> [] -> Search h' LHead key = Err EDangling).
Proof.
  intros HR. split_and!.
  - intros. split; [by eapply unshift_spec|by eapply push_spec].
  - intros c cs' ->. by apply shift_spec.
  - intros c cs' ->. by apply pop_spec.
  - intros ->. unfold Shift, Pop, IsEmpty. rewrite (linked_ptr _ _ _ (cr_linked _ _ HR)). done.
  - destruct (clear_spec h cs HR) as (h' & Hc & Hh & Hn). exists h'. split_and!; [done|done|].
    intros key Hne. destruct cs as [|c cs]; [done|]. unfold Search, run_fuel.
    replace (4 * size (h_nodes h') + 16)%nat with (S (S (4 * size (h_nodes h') + 14))) by lia.
    cbn [run tstep find_step rd_loc c_head mbind res_bind]. rewrite Hh, (linked_ptr _ _ _ (cr_linked _ _ HR)).
    cbn [head fmap option_fmap option_map run tstep find_step rd_loc].
    unfold rd_node. rewrite Hn, foldr_delete_In; [done|by left].
Qed.

Lemma deque_correct_witness : exists h', Push (new_node MichaelList_new 1 5 50) 1 = Ok h' /\ chain_rep h' [mkCell 1 5 50].
Proof.
  destruct (deque_correct (new_node MichaelList_new 1 5 50) []) as (H & _).
  - split; [by constructor|constructor].
  - destruct (H 1%positive 5 50 null_ptr) as [_ H']; [reflexivity|by apply not_elem_of_nil|exact H'].
Defined.
