(* ===== verification/ListConc.v ===== *)
(** * The lock-free list with many threads

    Any number of threads that insert and search, in any interleaving of their
    shared-memory accesses. The invariant of a thread is a set of facts about
    cells that are in the list, which stays true when the list grows; a
    compare-and-swap that succeeds on a location of the list is the
    linearization point of an insertion. With [Remove] the list frees nodes
    that another thread may still read; one schedule shows it. *)

From S2P Require Import Prelude.
From S2P Require Import MichaelList.
From S2P Require Import ListRep.
From S2P Require Import ListSeq.

(** ** The invariant of a thread *)

(** a word that was read from the list *)
Definition word_ok (cs : list cell) (p : MarkPtr) : Prop :=
  mp_mark p = false /\ forall a, mp_ptr p = Some a -> exists d, d ∈ cs /\ ce_ptr d = a.

Definition at_cell (cs : list cell) (p : MarkPtr) (d : cell) : Prop :=
  mp_mark p = false /\ d ∈ cs /\ mp_ptr p = Some (ce_ptr d).

(** the calls considered here *)
Definition call_ok (cs : list cell) (c : call) : Prop :=
  head_ok cs (c_head c) (c_key c) /\
  match c_cont c with KInsert _ | KSearch => True | _ => False end.

Definition result_ok (cs : list cell) (seen : gset Z) (c : call) (r : result) : Prop :=
  match c_cont c, r with
  | KInsert node, RInsert true _ => exists d, d ∈ cs /\ ce_ptr d = node /\ ce_key d = c_key c
  | KInsert node, RInsert false e => exists d, d ∈ cs /\ ce_key d = c_key c /\ e = Some (ce_ptr d) /\ ce_ptr d <> node
  | KSearch, RSearch true v => exists d, d ∈ cs /\ ce_key d = c_key c /\ v = Some (ce_value d)
  | KSearch, RSearch false v => (c_key c ∉ seen) /\ v = None
  | _, _ => False
  end.

(** where a new node belongs: behind [prev], before the node [pc] points to *)
Definition gap_ok (cs : list cell) (seen : gset Z) (c : call) (prev : loc) (pc : MarkPtr) : Prop :=
  head_ok cs prev (c_key c) /\ mp_mark pc = false /\ (c_key c ∉ seen) /\
  (mp_ptr pc = None \/ exists d, d ∈ cs /\ mp_ptr pc = Some (ce_ptr d) /\ c_key c < ce_key d).

Definition state_ok (h : heap) (cs : list cell) (seen : gset Z) (c0 : call) (t : tstate) : Prop :=
  match t with
  | TStart c => c = c0
  | TLoop c prev pc =>
      c = c0 /\ head_ok cs prev (c_key c) /\ word_ok cs pc /\ (mp_ptr pc = None -> c_key c ∉ seen)
  | TKey c prev pc cn =>
      c = c0 /\ head_ok cs prev (c_key c) /\ word_ok cs cn /\
      exists d, at_cell cs pc d /\ (mp_ptr cn = None -> ce_key d < c_key c -> c_key c ∉ seen)
  | TRecheck c prev pc cn ckey =>
      c = c0 /\ head_ok cs prev (c_key c) /\ word_ok cs cn /\
      exists d, at_cell cs pc d /\ ckey = ce_key d /\ (mp_ptr cn = None -> ce_key d < c_key c -> c_key c ∉ seen)
  | TLink c node prev pc => c = c0 /\ c_cont c = KInsert node /\ gap_ok cs seen c prev pc
  | TInsCas c node prev pc =>
      c = c0 /\ c_cont c = KInsert node /\ gap_ok cs seen c prev pc /\
      exists v, h_nodes h !! node = Some (mkNode (mkPtr (mp_ptr pc) false 0) (c_key c) v)
  | TValue c pc => c = c0 /\ c_cont c = KSearch /\ exists d, at_cell cs pc d /\ ce_key d = c_key c
  | TMarked c pc v => c = c0 /\ c_cont c = KSearch /\ exists d, at_cell cs pc d /\ ce_key d = c_key c /\ v = ce_value d
  | TDone r => result_ok cs seen c0 r
  | _ => False
  end.

(** the node a thread has not linked (yet) *)
Definition owned (c : call) (t : tstate) : option ptr :=
  match c_cont c, t with
  | KInsert _, TDone (RInsert true _) => None
  | KInsert node, _ => Some node
  | _, _ => None
  end.

(** an owned node is allocated, has the key of the call and is not in the list *)
Definition owned_ok (h : heap) (cs : list cell) (c : call) (t : tstate) : Prop :=
  forall node, owned c t = Some node ->
    (node ∉ ce_ptr <$> cs) /\ exists w v, h_nodes h !! node = Some (mkNode w (c_key c) v).

Record thread_ok (h : heap) (cs : list cell) (th : thread) : Prop := {
  to_seen : forall k, k ∈ t_seen th -> key_in k cs;
  to_call : call_ok cs (t_call th);
  to_state : state_ok h cs (t_seen th) (t_call th) (t_state th);
  to_owned : owned_ok h cs (t_call th) (t_state th);
}.

Record sys_ok (s : sys) (cs : list cell) : Prop := {
  so_list : list_rep (s_heap s) cs;
  so_threads : forall i th, s_threads s !! i = Some th -> thread_ok (s_heap s) cs th;
  so_distinct : forall i j th th' node,
    s_threads s !! i = Some th -> s_threads s !! j = Some th' ->
    owned (t_call th) (t_state th) = Some node -> owned (t_call th') (t_state th') = Some node -> i = j;
}.

(** ** The facts are stable when the list grows *)

Section stability.
Context (h h' : heap) (cs cs' : list cell) (Hsub : forall d, d ∈ cs -> d ∈ cs').

Lemma key_in_mono k : key_in k cs -> key_in k cs'.
Proof. unfold key_in. rewrite !list_elem_of_fmap. naive_solver. Qed.

Lemma head_ok_mono l k : head_ok cs l k -> head_ok cs' l k.
Proof. intros [->|(d & Hd & E & Hk)]; [by left|]. right. eauto. Qed.

Lemma word_ok_mono p : word_ok cs p -> word_ok cs' p.
Proof. intros [Hm Hp]. split; [done|]. intros a (d & Hd & E)%Hp. eauto. Qed.

Lemma at_cell_mono p d : at_cell cs p d -> at_cell cs' p d.
Proof. intros (H1 & H2 & H3). split_and!; auto. Qed.

Lemma gap_ok_mono seen c prev pc : gap_ok cs seen c prev pc -> gap_ok cs' seen c prev pc.
Proof.
  intros (H1 & H2 & H3 & H4). split_and!; [by apply head_ok_mono|done|done|].
  destruct H4 as [H4|(d & Hd & H4)]; eauto.
Qed.

Lemma result_ok_mono seen c r : result_ok cs seen c r -> result_ok cs' seen c r.
Proof.
  unfold result_ok. destruct (c_cont c), r as [[] ?|?|[] ?]; try done; intros (d & Hd & H); eauto.
Qed.

Lemma call_ok_mono c : call_ok cs c -> call_ok cs' c.
Proof. intros [H1 H2]. split; [by apply head_ok_mono|done]. Qed.

Hint Resolve head_ok_mono word_ok_mono at_cell_mono gap_ok_mono result_ok_mono call_ok_mono : core.

Lemma state_ok_mono seen c t : state_ok h cs seen c t ->
  (forall node, owned c t = Some node -> h_nodes h' !! node = h_nodes h !! node) -> state_ok h' cs' seen c t.
Proof.
  intros H Hn. destruct t as [| | | | | | |c1 node prev pc| | | | | |]; simpl in *; try done.
  all: try by (destruct_and?; split_and?; eauto).
  all: try by (destruct H as (-> & H1 & H2 & d & H3); split_and!; eauto; exists d; destruct_and?; eauto).
  destruct H as (-> & Hc & Hg & v & Hv). split_and!; [done|done|auto|].
  exists v. rewrite Hn; [done|]. unfold owned. by rewrite Hc.
Qed.

Lemma thread_ok_mono th : thread_ok h cs th ->
  (forall node, owned (t_call th) (t_state th) = Some node -> (node ∉ ce_ptr <$> cs') /\ h_nodes h' !! node = h_nodes h !! node) ->
  thread_ok h' cs' th.
Proof.
  intros [H1 H2 H3 H4] Hn. split.
  - intros k Hk. by apply key_in_mono, H1.
  - by apply call_ok_mono.
  - eapply state_ok_mono; [done|]. intros node Hnode. by apply Hn.
  - intros node Hnode. destruct (Hn node Hnode) as [H5 H6]. split; [done|]. rewrite H6. by apply H4.
Qed.
End stability.

(** ** What a thread reads *)

Lemma linked_word_ok h cs cs1 cs2 w : list_rep h cs -> cs = cs1 ++ cs2 -> linked h w cs2 -> word_ok cs w.
Proof.
  intros HR -> Hl. split; [by eapply linked_unmarked|]. rewrite (linked_ptr _ _ _ Hl).
  intros a (d & Hd & ->)%fmap_Some. exists d. split; [|done]. apply head_Some in Hd as (l & ->). set_solver.
Qed.

Lemma linked_None h w cs : linked h w cs -> mp_ptr w = None -> cs = [].
Proof. by destruct 1; intros; simplify_eq. Qed.

Lemma ptr_inj h cs d d' : list_rep h cs -> d ∈ cs -> d' ∈ cs -> ce_ptr d = ce_ptr d' -> d = d'.
Proof.
  intros HR Hd Hd' E. destruct (elem_cells _ _ _ HR Hd) as (_ & _ & w & _ & Hn & _).
  destruct (elem_cells _ _ _ HR Hd') as (_ & _ & w' & _ & Hn' & _). rewrite E in Hn. destruct d, d'. simpl in *. congruence.
Qed.

Lemma read_head h cs l k : list_rep h cs -> head_ok cs l k ->
  exists w cs1 cs2, rd_loc h l = Ok w /\ word_ok cs w /\ cs = cs1 ++ cs2 /\ l = loc_at cs1 /\ linked h w cs2 /\
    below (key_at cs1) k /\ (mp_ptr w = None -> ~ key_in k cs).
Proof.
  intros HR (cs1 & cs2 & E & -> & Hb)%head_split. pose proof HR as HR0. rewrite E in HR0.
  destruct (rd_loc_at h cs1 cs2 HR0) as (w & Hw & Hl). exists w, cs1, cs2. split_and!; try done.
  - by eapply linked_word_ok.
  - intros ->%(linked_None _ _ _ Hl). rewrite E. eapply gap_absent; [apply HR0|done|done].
Qed.

Lemma read_next h cs d : list_rep h cs -> d ∈ cs ->
  exists w, h_nodes h !! ce_ptr d = Some (mkNode w (ce_key d) (ce_value d)) /\ word_ok cs w /\
    forall k, mp_ptr w = None -> ce_key d < k -> ~ key_in k cs.
Proof.
  intros HR Hd. destruct (elem_cells _ _ _ HR Hd) as (cs1 & cs2 & w & E & Hn & Hl). exists w. split_and!; [done| |].
  - eapply (linked_word_ok h cs (cs1 ++ [d]) cs2); [done|by rewrite <-app_assoc|done].
  - intros k ->%(linked_None _ _ _ Hl) Hk. rewrite E. pose proof (lr_sorted _ _ HR) as Hs. rewrite E in Hs.
    replace (cs1 ++ [d]) with ((cs1 ++ [d]) ++ []) in * by apply app_nil_r.
    eapply gap_absent; [exact Hs|by rewrite key_at_snoc|done].
Qed.

(** [prev] still points where [pc] says: the key falls between the two *)
Lemma adjacent_gap h cs prev k pc d : list_rep h cs -> head_ok cs prev k -> rd_loc h prev = Ok pc ->
  at_cell cs pc d -> k < ce_key d -> ~ key_in k cs.
Proof.
  intros HR Hh Hr (_ & Hd & Hp) Hk. destruct (read_head _ _ _ _ HR Hh) as (w & cs1 & cs2 & Hw & _ & E & _ & Hl & Hb & _).
  rewrite Hr in Hw. injection Hw as <-. rewrite E. eapply gap_absent; [rewrite <-E; apply HR|done|].
  intros d' Hd'. rewrite (linked_ptr _ _ _ Hl), Hd' in Hp. injection Hp as Hp.
  assert (d' = d) as ->; [|done]. eapply ptr_inj; [exact HR| |done|done]. apply head_Some in Hd' as (l & ->). rewrite E. set_solver.
Qed.

(** ** Steps that only read *)

Section reading.
Context (h : heap) (cs : list cell) (seen : gset Z) (c : call) (HR : list_rep h cs).
Context (Hseen : forall k, k ∈ seen -> key_in k cs) (Hcall : call_ok cs c).

Lemma absent_unseen k : ~ key_in k cs -> k ∉ seen.
Proof. auto. Qed.

Lemma return_false prev pc cn : gap_ok cs seen c prev pc -> state_ok h cs seen c (find_return c prev pc cn false).
Proof.
  intros Hg. unfold find_return. destruct Hcall as [_ Hc]. destruct (c_cont c) eqn:E; try done; simpl.
  unfold result_ok. rewrite E. by destruct Hg as (_ & _ & H & _).
Qed.

Lemma return_true prev pc cn d t : at_cell cs pc d -> ce_key d = c_key c -> owned_ok h cs c t ->
  (forall r, t <> TDone r) -> state_ok h cs seen c (find_return c prev pc cn true).
Proof.
  intros (Hm & Hd & Hp) Hk Ho Ht. unfold find_return. destruct Hcall as [_ Hc]. destruct (c_cont c) as [node| | |] eqn:E; try done; simpl.
  - unfold result_ok. rewrite E. exists d. split_and!; try done. intros <-.
    destruct (Ho (ce_ptr d)) as [Hni _]; [unfold owned; rewrite E; destruct t as [| | | | | | | | | | | | |r]; try done; by destruct (Ht r)|].
    apply Hni. by apply list_elem_of_fmap_2.
  - split_and!; [done|done|]. by exists d.
Qed.

Lemma read_step_ok t : state_ok h cs seen c t -> owned_ok h cs c t ->
  match t with TLink _ _ _ _ | TInsCas _ _ _ _ => True | _ =>
    exists t', tstep h t = Ok (h, t') /\ state_ok h cs seen c t' /\ (forall r, t' = TDone (RInsert true r) -> t = t') end.
Proof.
  intros Hs Ho. destruct t as [c1|c1 prev pc|c1 prev pc cn|c1 prev pc cn ckey| | | | | | | |c1 pc|c1 pc v|r]; simpl in Hs; try done.
  - subst c1. destruct (read_head h cs (c_head c) (c_key c) HR (proj1 Hcall)) as (w & _ & _ & Hw & Hok & _ & _ & _ & _ & Ha).
    exists (TLoop c (c_head c) w). simpl. rewrite Hw. split_and!; try done; [apply Hcall|]. intros. apply absent_unseen. auto.
  - destruct Hs as (-> & Hh & Hw & Hn). simpl. destruct (mp_ptr pc) as [a|] eqn:Ep.
    + destruct Hw as [Hm Hw]. destruct (Hw a Ep) as (d & Hd & <-). destruct (read_next h cs d HR Hd) as (w & Hnd & Hok & Ha).
      unfold rd_node. rewrite Hnd. simpl. eexists. split; [done|]. split; [|done]. simpl. split_and!; try done.
      exists d. split; [by split_and!|]. intros. apply absent_unseen. auto.
    + eexists. split; [done|]. split; [|intros r; unfold find_return; by destruct (c_cont c)].
      apply return_false. destruct Hw as [Hm _]. split_and!; auto.
  - destruct Hs as (-> & Hh & Hw & d & (Hm & Hd & Hp) & Ha). simpl. unfold curr_of. rewrite Hp. simpl.
    destruct (read_next h cs d HR Hd) as (w & Hnd & _). unfold rd_node. rewrite Hnd. simpl. eexists. split; [done|].
    split; [|done]. simpl. split_and!; try done. exists d. by split_and!.
  - destruct Hs as (-> & Hh & Hcn & d & Hat & -> & Ha). simpl.
    destruct (read_head h cs prev (c_key c) HR Hh) as (w & _ & _ & Hw & _). rewrite Hw. simpl. pose proof Hat as (Hm & Hd & Hp).
    rewrite unmarked_id by done. case_bool_decide as Ew; simpl; [|eexists; split; [done|]; by split].
    subst w. rewrite (proj1 Hcn). simpl. destruct (Z.leb_spec (c_key c) (ce_key d)).
    + eexists. split; [done|]. split; [|intros r; unfold find_return; destruct (c_cont c); by destruct (ce_key d =? c_key c)].
      destruct (Z.eqb_spec (ce_key d) (c_key c)); [by eapply return_true|].
      apply return_false. split_and!; [done|done| |right; exists d; split_and!; [done|done|lia]].
      apply absent_unseen. eapply adjacent_gap; [done|done|done|done|lia].
    + unfold curr_of. rewrite Hp. simpl. eexists. split; [done|]. split; [|done]. simpl. split_and!; try done; [|auto].
      right. exists d. by split_and!.
  - destruct Hs as (-> & Hc & d & (Hm & Hd & Hp) & Hk). simpl. unfold curr_of. rewrite Hp. simpl.
    destruct (read_next h cs d HR Hd) as (w & Hnd & _). unfold rd_node. rewrite Hnd. simpl. eexists. split; [done|].
    split; [|done]. simpl. split_and!; try done. exists d. by split_and!.
  - destruct Hs as (-> & Hc & d & (Hm & Hd & Hp) & Hk & ->). simpl. unfold curr_of. rewrite Hp. simpl.
    destruct (read_next h cs d HR Hd) as (w & Hnd & [Hmw _] & _). unfold rd_node. rewrite Hnd. simpl. eexists. split; [done|].
    split; [|done]. simpl. unfold result_ok. rewrite Hc, Hmw. simpl. exists d. by split_and!.
  - exists (TDone r). by split_and!.
Qed.
End reading.

(** ** Every step of a thread *)

(** the list does not change and no insertion succeeds, or one takes effect: its
    node, with the key and the value it has in the heap, is now in the list *)
Definition effect (h : heap) (cs cs' : list cell) (c : call) (t t' : tstate) : Prop :=
  (cs' = cs /\ forall r, t' = TDone (RInsert true r) -> t = t') \/
  exists node w v cs1 cs2, c_cont c = KInsert node /\ t' = TDone (RInsert true None) /\ (forall r, t <> TDone r) /\
    h_nodes h !! node = Some (mkNode w (c_key c) v) /\ ~ key_in (c_key c) cs /\
    cs = cs1 ++ cs2 /\ cs' = cs1 ++ mkCell node (c_key c) v :: cs2.

Lemma effect_sub h cs cs' c t t' d : effect h cs cs' c t t' -> d ∈ cs -> d ∈ cs'.
Proof. intros [[-> _]|(node & w & v & cs1 & cs2 & _ & _ & _ & _ & _ & -> & ->)]; [done|]. set_solver. Qed.

Record step_ok (h : heap) (cs : list cell) (th : thread) (h' : heap) (cs' : list cell) (t' : tstate) : Prop := {
  st_step : tstep h (t_state th) = Ok (h', t');
  st_list : list_rep h' cs';
  st_thread : thread_ok h' cs' (mkThread (t_call th) t' (t_seen th));
  st_effect : effect h cs cs' (t_call th) (t_state th) t';
  st_values : forall a n, h_nodes h !! a = Some n -> exists w, h_nodes h' !! a = Some (mkNode w (n_key n) (n_value n));
  st_frame : forall a, a ∉ ce_ptr <$> cs -> owned (t_call th) (t_state th) <> Some a -> h_nodes h' !! a = h_nodes h !! a;
  st_owned : forall node, owned (t_call th) t' = Some node -> owned (t_call th) (t_state th) = Some node;
}.


Lemma owned_insert c t node : c_cont c = KInsert node -> (forall r, t <> TDone (RInsert true r)) -> owned c t = Some node.
Proof.
  intros E Ht. unfold owned. rewrite E. destruct t as [| | | | | | | | | | | | |[[] ?| |]]; try done. by destruct (Ht exist_node).
Qed.

Lemma owned_cont c t node : owned c t = Some node -> c_cont c = KInsert node.
Proof. unfold owned. destruct (c_cont c), t as [| | | | | | | | | | | | |[[] ?| |]]; congruence. Qed.

Lemma owned_not_done c t node r : owned c t = Some node -> t <> TDone (RInsert true r).
Proof. intros H ->. unfold owned in H. by destruct (c_cont c). Qed.

(** no step changes the key or the value of a node *)
Lemma same_values (h : heap) a n : h_nodes h !! a = Some n -> exists w, h_nodes h !! a = Some (mkNode w (n_key n) (n_value n)).
Proof. intros ->. destruct n as [w k v]. by exists w. Qed.

Lemma wr_loc_values h l p h' a n : wr_loc h l p = Ok h' -> h_nodes h !! a = Some n ->
  exists w, h_nodes h' !! a = Some (mkNode w (n_key n) (n_value n)).
Proof.
  destruct l as [|b]; cbn [wr_loc].
  - intros [= <-]. apply (same_values (mkHeap p (h_nodes h))).
  - unfold rd_node. destruct (h_nodes h !! b) as [nb|] eqn:Eb; [|done]. intros [= <-] Ha. cbn [h_nodes].
    destruct (decide (a = b)) as [->|Hne]; [rewrite lookup_insert_eq; rewrite Eb in Ha; injection Ha as ->; eauto|].
    rewrite lookup_insert_ne by done. by apply (same_values h).
Qed.

(** a step that only reads *)
Lemma quiet_step h cs th t' : list_rep h cs -> thread_ok h cs th -> tstep h (t_state th) = Ok (h, t') ->
  state_ok h cs (t_seen th) (t_call th) t' -> (forall r, t' = TDone (RInsert true r) -> t_state th = t') ->
  step_ok h cs th h cs t'.
Proof.
  intros HR [H1 H2 H3 H4] Hs Ht' Hd.
  assert (forall node, owned (t_call th) t' = Some node -> owned (t_call th) (t_state th) = Some node) as Ho.
  { intros node Hn. apply owned_insert; [by eapply owned_cont|]. intros r E.
    destruct (t_state th) eqn:Et; try done. simpl in Hs. injection Hs as <-. by eapply owned_not_done. }
  split; try done; [|left; by split|by apply same_values]. split; try done. intros node Hn. apply H4. by apply Ho.
Qed.

Lemma link_step h cs th c node prev pc : list_rep h cs -> thread_ok h cs th -> t_state th = TLink c node prev pc ->
  exists h' t', step_ok h cs th h' cs t'.
Proof.
  intros HR [H1 H2 H3 H4] Et. rewrite Et in H3, H4. destruct H3 as (Ec & Hc & Hg).
  assert (owned (t_call th) (TLink c node prev pc) = Some node) as Ho by (apply owned_insert; by subst).
  destruct (H4 node Ho) as (Hni & w & v & Hn).
  exists (mkHeap (h_head h) (<[node := mkNode (mkPtr (mp_ptr pc) false 0) (c_key (t_call th)) v]> (h_nodes h))), (TInsCas c node prev pc).
  split.
  - rewrite Et. simpl. unfold rd_node. by rewrite Hn.
  - by apply private_frame.
  - split; simpl; try done.
    + split_and!; [done|done|done|]. exists v. subst c. apply lookup_insert_eq.
    + intros node' Hn'. apply owned_cont in Hn'. subst c. rewrite Hn' in Hc. injection Hc as <-. split; [done|].
      simpl. rewrite lookup_insert_eq. eauto.
  - by left.
  - intros a n Ha. eapply (wr_loc_values h (LNext node)); [|exact Ha]. cbn [wr_loc]. unfold rd_node. by rewrite Hn.
  - intros a _ Ha. simpl. rewrite lookup_insert_ne; [done|]. rewrite Et in Ha. congruence.
  - intros node' Hn'. rewrite Et. apply owned_insert; [by eapply owned_cont|done].
Qed.

Lemma cas_step h cs th c node prev pc : list_rep h cs -> thread_ok h cs th -> t_state th = TInsCas c node prev pc ->
  exists h' cs' t', step_ok h cs th h' cs' t'.
Proof.
  intros HR Hth Et. pose proof Hth as [H1 H2 H3 H4]. rewrite Et in H3, H4.
  destruct H3 as (-> & Hc & (Hh & Hm & Hun & Hnext) & v & Hv).
  assert (owned (t_call th) (t_state th) = Some node) as Ho by (rewrite Et; by apply owned_insert).
  destruct (H4 node) as (Hni & _); [by rewrite <-Et|].
  destruct (read_head h cs prev (c_key (t_call th)) HR Hh) as (w & cs1 & cs2 & Hw & Hwok & E & -> & Hl & Hb & _).
  destruct (decide (w = pc)) as [->|Hne].
  2: { exists h, cs, (TStart (t_call th)). apply quiet_step; try done. rewrite Et. simpl. unfold cas. rewrite Hw. simpl.
       by rewrite unmarked_id, bool_decide_false. }
  assert (forall d, head cs2 = Some d -> c_key (t_call th) < ce_key d) as Hgap.
  { intros d Hd. pose proof (linked_ptr _ _ _ Hl) as Hp. rewrite Hd in Hp. simpl in Hp.
    destruct Hnext as [Hn|(d' & Hd' & Hp' & Hk)]; [congruence|]. assert (d' = d) as <-; [|done].
    eapply ptr_inj; [exact HR|done| |congruence]. apply head_Some in Hd as (l & ->). rewrite E. set_solver. }
  rewrite E in HR, Hni.
  destruct (cas_link h cs1 cs2 node (c_key (t_call th)) v pc (u16 (mp_tag pc + 1)) HR Hw Hl Hv Hni Hb Hgap) as (h' & Hcas & HR' & Hf).
  set (new := mkCell node (c_key (t_call th)) v) in *. exists h', (cs1 ++ new :: cs2), (TDone (RInsert true None)).
  assert (effect h cs (cs1 ++ new :: cs2) (t_call th) (t_state th) (TDone (RInsert true None))) as Heff.
  { right. eexists node, _, v, cs1, cs2. rewrite Et. split_and!; try done. rewrite E. eapply gap_absent; [apply HR|done|done]. }
  split; try done.
  - rewrite Et. simpl. rewrite unmarked_id by done. by rewrite Hcas.
  - split.
    + intros k Hk. eapply key_in_mono; [|by apply H1]. intros d. by eapply effect_sub.
    + eapply call_ok_mono; [|exact H2]. intros d. by eapply effect_sub.
    + simpl. unfold result_ok. rewrite Hc. exists new. split_and!; [set_solver|done|done].
    + intros node' Hn'. by apply owned_not_done with (r := None) in Hn'.
  - intros a n Ha. unfold cas in Hcas. rewrite Hw in Hcas. cbn [mbind res_bind] in Hcas. rewrite bool_decide_true in Hcas by done.
    destruct (wr_loc h _ _) as [h2|] eqn:Ewr; [|done]. injection Hcas as <-. by eapply wr_loc_values.
  - intros a Ha _. apply Hf. rewrite E, fmap_app in Ha. set_solver.
  - intros node' Hn'. by apply owned_not_done with (r := None) in Hn'.
Qed.

Lemma thread_step h cs th : list_rep h cs -> thread_ok h cs th -> exists h' cs' t', step_ok h cs th h' cs' t'.
Proof.
  intros HR Hth. pose proof Hth as [H1 H2 H3 H4].
  pose proof (read_step_ok h cs (t_seen th) (t_call th) HR H1 H2 (t_state th) H3 H4) as Hr.
  destruct (t_state th) eqn:Et; try done;
    try (destruct Hr as (t' & Hs & Hok & Hd); exists h, cs, t'; rewrite <-Et in *; by apply quiet_step).
  - destruct (link_step h cs th _ _ _ _ HR Hth Et) as (h' & t' & H). eauto.
  - by eapply cas_step.
Qed.

(** ** The system *)

(** the keys a walk meets are those of the cells *)
Lemma to_pairs_spec h cs2 : forall cs1 fuel, linked h (h_head h) (cs1 ++ cs2) -> (length cs2 < fuel)%nat ->
  to_pairs fuel h (loc_at cs1) = Ok ((fun c => (ce_key c, ce_value c)) <$> cs2).
Proof.
  induction cs2 as [|d cs2 IH]; intros cs1 [|fuel] Hl Hf; simpl in Hf; try lia; cbn [to_pairs];
    destruct (rd_chain_at _ _ _ Hl) as (w & -> & Hlw); cbn [mbind res_bind]; rewrite (linked_ptr _ _ _ Hlw); [done|].
  cbn [head fmap option_fmap option_map]. destruct (linked_cons_inv _ _ _ _ Hlw) as (w' & _ & Hn & _). unfold rd_node. rewrite Hn.
  cbn [of_option mbind res_bind n_key n_value]. rewrite <-(loc_at_snoc cs1 d). rewrite IH; [done| |lia]. by rewrite <-app_assoc.
Qed.

Lemma keys_of_spec h cs : list_rep h cs -> keys_of h = ce_key <$> cs.
Proof.
  intros HR. unfold keys_of. pose proof (cells_size h cs HR). change LHead with (loc_at []).
  rewrite (to_pairs_spec h cs []) by (apply HR || lia). apply amap_keys.
Qed.

Lemma map_of_spec h cs : list_rep h cs -> map_of h = amap cs.
Proof.
  intros HR. unfold map_of. pose proof (cells_size h cs HR). change LHead with (loc_at []).
  by rewrite (to_pairs_spec h cs []) by (apply HR || lia).
Qed.

(** a head in the list in front of the key, as the hash table passes *)
Definition head_valid (h : heap) (head : loc) (key : Z) : Prop :=
  exists cs, list_rep h cs /\ head_ok cs head key.

(** the steps of a system whose calls are insertions and searches *)
Inductive ins_step : sys -> sys -> Prop :=
| ins_run s i s' : sys_run s i = Ok s' -> ins_step s s'
| ins_insert s head node key value :
    h_nodes (s_heap s) !! node = None -> head_valid (s_heap s) head key ->
    ins_step s (spawn s (new_node (s_heap s) node key value) (mkCall head key (KInsert node)))
| ins_search s head key : head_valid (s_heap s) head key ->
    ins_step s (spawn s (s_heap s) (mkCall head key KSearch)).

Lemma head_valid_live h head key : head_valid h head key -> head_live h head.
Proof. intros (cs & HR & [->|(d & Hd & -> & _)]); [done|]. by apply (linked_dom h (h_head h) cs (lr_linked _ _ HR)). Qed.

Lemma ins_step_sys s s' : ins_step s s' -> sys_step s s'.
Proof. destruct 1; [by eapply step_run|constructor; [done|]|constructor]; by eapply head_valid_live. Qed.

Lemma linked_fun h p cs cs' : linked h p cs -> linked h p cs' -> cs = cs'.
Proof.
  intros H. revert cs'. induction H as [p Hp Hm|p a n cs Hp Hm Hn Hl IH]; intros cs' H'.
  - inversion H'; simplify_eq; done.
  - inversion H'; simplify_eq. f_equal. by apply IH.
Qed.

Lemma head_valid_ok h cs head key : list_rep h cs -> head_valid h head key -> head_ok cs head key.
Proof. intros HR (cs' & HR' & Hh). by rewrite (linked_fun _ _ _ _ (lr_linked _ _ HR) (lr_linked _ _ HR')). Qed.

(** which step of the abstract map a system step is: one that ends an [Insert]
    with success adds the key and the value of the node, which was absent; any
    other leaves the map as it is *)
Definition sys_effect (s s' : sys) : Prop :=
  (forall i c r, completes s s' i c (RInsert true r) ->
     exists node n, c_cont c = KInsert node /\ h_nodes (s_heap s) !! node = Some n /\ n_key n = c_key c /\
       map_of (s_heap s) !! c_key c = None /\ map_of (s_heap s') = <[c_key c := n_value n]> (map_of (s_heap s))) /\
  ((forall i c r, ~ completes s s' i c (RInsert true r)) -> map_of (s_heap s') = map_of (s_heap s)).

Lemma quiet_effect s s' : map_of (s_heap s') = map_of (s_heap s) -> (forall i c r, ~ completes s s' i c (RInsert true r)) -> sys_effect s s'.
Proof. intros Hm Hn. split; [|done]. intros i c r Hc. by apply Hn in Hc. Qed.

(** the threads that do not run do not end their calls *)
Lemma completes_run s h' i th t' j c r : s_threads s !! i = Some th ->
  completes s (mkSys h' (<[i := mkThread (t_call th) t' (t_seen th)]> (s_threads s))) j c r ->
  j = i /\ c = t_call th /\ t' = TDone r /\ forall r', t_state th <> TDone r'.
Proof.
  intros Hi (th0 & th1 & H0 & H1 & Hnd & Hc & Hd). cbn [s_threads] in H1. destruct (decide (i = j)) as [<-|Hij].
  - rewrite list_lookup_insert_eq in H1 by (by eapply lookup_lt_Some). rewrite Hi in H0. by simplify_eq.
  - rewrite list_lookup_insert_ne in H1 by done. rewrite H0 in H1. simplify_eq. by apply Hnd in Hd.
Qed.

Lemma completes_spawn s h c i c' r : ~ completes s (spawn s h c) i c' r.
Proof.
  intros (th0 & th1 & H0 & H1 & Hnd & _ & Hd). unfold spawn in H1. cbn [s_threads] in H1.
  rewrite lookup_app_l in H1 by (by eapply lookup_lt_Some). rewrite H0 in H1. simplify_eq. by apply Hnd in Hd.
Qed.

Lemma run_preserves s cs i th h' cs' t' : sys_ok s cs -> s_threads s !! i = Some th ->
  step_ok (s_heap s) cs th h' cs' t' ->
  let s' := mkSys h' (<[i := mkThread (t_call th) t' (t_seen th)]> (s_threads s)) in
  sys_ok s' cs' /\ sys_effect s s'.
Proof.
  intros [HR Hth Hdist] Hi [S1 S2 S3 S4 _ S5 S6] s'. split; [split|].
  - done.
  - intros j th' Hj. simpl in Hj. destruct (decide (i = j)) as [<-|Hij].
    { rewrite list_lookup_insert_eq in Hj by (by eapply lookup_lt_Some). by simplify_eq. }
    rewrite list_lookup_insert_ne in Hj by done. specialize (Hth j th' Hj) as Hok.
    eapply thread_ok_mono; [intros d; by eapply effect_sub|exact Hok|]. intros node Hn.
    destruct (to_owned _ _ _ Hok node Hn) as [Hni _].
    assert (owned (t_call th) (t_state th) <> Some node) as Ho by (intros Ho; apply Hij; by eapply Hdist).
    split; [|by apply S5]. destruct S4 as [[-> _]|(node' & w & v & cs1 & cs2 & Hc & -> & _ & _ & _ & -> & ->)]; [done|].
    rewrite fmap_app in *. simpl. assert (node <> node') as ?; [|set_solver].
    intros <-. apply Ho. apply owned_insert; [done|]. intros r Er. rewrite Er in S1. simpl in S1.
    pose proof (to_state _ _ _ (Hth i th Hi)) as Hst. rewrite Er in Hst. simpl in Hst. unfold result_ok in Hst. rewrite Hc in Hst.
    destruct Hst as (d & Hd & <- & _). apply Hni. rewrite <-fmap_app. by apply list_elem_of_fmap_2.
  - simpl. assert (forall j th', <[i:=mkThread (t_call th) t' (t_seen th)]> (s_threads s) !! j = Some th' ->
      forall node, owned (t_call th') (t_state th') = Some node ->
      exists th0, s_threads s !! j = Some th0 /\ owned (t_call th0) (t_state th0) = Some node) as Hback.
    { intros j th' Hj node Hn. destruct (decide (i = j)) as [<-|Hij].
      - rewrite list_lookup_insert_eq in Hj by (by eapply lookup_lt_Some). simplify_eq. eauto.
      - rewrite list_lookup_insert_ne in Hj by done. eauto. }
    intros j k th1 th2 node H1 H2 N1 N2. destruct (Hback _ _ H1 _ N1) as (? & ? & ?), (Hback _ _ H2 _ N2) as (? & ? & ?).
    by eapply Hdist.
  - pose proof (map_of_spec _ _ HR) as Em. pose proof (map_of_spec _ _ S2) as Em'.
    destruct S4 as [[-> Hq]|(node & w & v & cs1 & cs2 & Hc & -> & Hnd & Hn & Ha & -> & ->)].
    + apply quiet_effect; [by rewrite Em|]. intros j c r (_ & _ & Ht & Hnd)%(completes_run _ _ _ _ _ _ _ _ Hi).
      apply (Hnd (RInsert true r)). rewrite (Hq r Ht). done.
    + split.
      * intros j c r (-> & -> & _ & _)%(completes_run _ _ _ _ _ _ _ _ Hi). exists node, (mkNode w (c_key (t_call th)) v).
        split_and!; [done|done|done|rewrite Em; by apply amap_None|]. cbn [s_heap s']. rewrite Em, Em'.
        apply (amap_perm None cs1 cs2 (mkCell node (c_key (t_call th)) v)), S2.
      * intros Hno. destruct (Hno i (t_call th) None). exists th. eexists. split_and!; [done|by apply list_lookup_insert_eq; eapply lookup_lt_Some|done..].
Qed.

Lemma spawn_preserves s cs h c : sys_ok s cs -> list_rep h cs -> call_ok cs c ->
  (forall i th node, s_threads s !! i = Some th -> owned (t_call th) (t_state th) = Some node ->
     h_nodes h !! node = h_nodes (s_heap s) !! node /\ owned c (TStart c) <> Some node) ->
  owned_ok h cs c (TStart c) -> sys_ok (spawn s h c) cs.
Proof.
  intros [HR Hth Hdist] HR' Hc Hother Ho. split.
  - done.
  - intros i th. unfold spawn. simpl. intros [Hi|[_ Hi]]%lookup_app_Some.
    + eapply thread_ok_mono; [done|by apply Hth with i|]. intros node Hn. destruct (Hother i th node Hi Hn) as [E _].
      split; [|done]. by apply (to_owned _ _ _ (Hth i th Hi)).
    + apply list_lookup_singleton_Some in Hi as [_ <-]. split; try done. simpl. intros k.
      rewrite elem_of_list_to_set, (keys_of_spec _ cs) by done. done.
  - intros i j th th' node. unfold spawn. simpl. intros [Hi|[Li Hi]]%lookup_app_Some [Hj|[Lj Hj]]%lookup_app_Some N1 N2.
    + by eapply Hdist.
    + apply list_lookup_singleton_Some in Hj as [_ <-]. by destruct (Hother i th node Hi N1) as [_ []].
    + apply list_lookup_singleton_Some in Hi as [_ <-]. by destruct (Hother j th' node Hj N2) as [_ []].
    + apply list_lookup_singleton_Some in Hi as [Hi _], Hj as [Hj _]. lia.
Qed.

Lemma step_preserves s s' cs : sys_ok s cs -> ins_step s s' -> exists cs', sys_ok s' cs' /\ sys_effect s s' /\
  forall a n, h_nodes (s_heap s) !! a = Some n -> exists w, h_nodes (s_heap s') !! a = Some (mkNode w (n_key n) (n_value n)).
Proof.
  intros Hok Hst. pose proof Hok as [HR Hth Hdist]. destruct Hst as [s i s' Hs|s head node key v Hfresh Hh|s head key Hh].
  - unfold sys_run in Hs. destruct (s_threads s !! i) as [th|] eqn:Hi.
    + destruct (thread_step (s_heap s) cs th HR (Hth i th Hi)) as (h' & cs' & t' & Hstep).
      rewrite (st_step _ _ _ _ _ _ Hstep) in Hs. simpl in Hs. injection Hs as <-. exists cs'.
      destruct (run_preserves s cs i th h' cs' t' Hok Hi Hstep) as [H1 H2]. split_and!; [done|done|apply Hstep].
    + injection Hs as <-. exists cs. split_and!; [done| |apply same_values]. apply quiet_effect; [done|].
      intros j c r (th0 & th1 & H0 & H1 & Hnd & _ & Hd). rewrite H0 in H1. simplify_eq. by apply Hnd in Hd.
  - assert (node ∉ ce_ptr <$> cs) as Hni.
    { intros (d & -> & Hd)%list_elem_of_fmap. destruct (linked_dom _ _ _ (lr_linked _ _ HR) d Hd). congruence. }
    assert (list_rep (new_node (s_heap s) node key v) cs) as HR' by (by apply private_frame).
    exists cs. split_and!.
    + apply spawn_preserves; [done|done|split; [by apply (head_valid_ok (s_heap s))|done]| |].
      * intros i th node' Hi Hn. destruct (to_owned _ _ _ (Hth i th Hi) node' Hn) as [_ (w & v' & Hn')].
        assert (node <> node') by congruence. split; [simpl; by rewrite lookup_insert_ne|]. unfold owned. simpl. congruence.
      * intros node' Hn'. unfold owned in Hn'. simpl in Hn'. injection Hn' as <-. split; [done|]. simpl. rewrite lookup_insert_eq. eauto.
    + apply quiet_effect; [|intros i c r; apply completes_spawn]. cbn [spawn s_heap]. by rewrite (map_of_spec _ cs HR), (map_of_spec _ cs HR').
    + intros a n Ha. cbn [spawn s_heap new_node h_nodes]. rewrite lookup_insert_ne by congruence. by apply (same_values (s_heap s)).
  - exists cs. split_and!; [|apply quiet_effect; [done|intros i c r; apply completes_spawn]|apply same_values].
    apply spawn_preserves; [done|done|split; [by eapply head_valid_ok|done]| |done]. intros i th node Hi Hn. done.
Qed.

Definition initial (h : heap) : sys := mkSys h [].

Lemma initial_ok h cs : list_rep h cs -> sys_ok (initial h) cs.
Proof. intros HR. by split. Qed.

Lemma reachable_ok h cs s : list_rep h cs -> rtc ins_step (initial h) s -> exists cs', sys_ok s cs'.
Proof.
  intros HR Hr. assert (exists cs0, sys_ok (initial h) cs0) as H0 by (exists cs; by apply initial_ok).
  revert H0. induction Hr as [s|s1 s2 s3 H12 _ IH]; intros (cs0 & Hok); [eauto|].
  apply IH. destruct (step_preserves _ _ _ Hok H12) as (cs' & Hok' & _). eauto.
Qed.
