(* ===== verification/ListTheorems.v ===== *)
(** * Theorems on the lock-free list

    The sequential behaviour of the three operations, their safety and
    linearizability for concurrent insertions and searches, progress of a
    thread that runs alone, and the use-after-free that [Remove] allows. *)

From S2P Require Import Prelude.
From S2P Require Import MichaelList.
From S2P Require Import ListRep.
From S2P Require Import ListSeq.
From S2P Require Import ListConc.

(** ** A thread that runs alone finishes *)

Definition with_state (th : thread) (t : tstate) : thread := mkThread (t_call th) t (t_seen th).

(** the call ends after at most [b] more steps *)
Definition finishes (h : heap) (t : tstate) (b : nat) : Prop :=
  exists n h' r, (n <= b)%nat /\ steps n h t = Ok (h', TDone r).

Lemma finishes_done h r b : finishes h (TDone r) b.
Proof. exists 0%nat, h, r. split; [lia|done]. Qed.

Lemma finishes_step h t h' t' b : tstep h t = Ok (h', t') -> finishes h' t' b -> finishes h t (S b).
Proof. intros Hs (n & h2 & r & Hn & H). exists (S n), h2, r. split; [lia|]. cbn [steps]. by rewrite Hs. Qed.

Lemma finishes_mono h t b b' : finishes h t b -> (b <= b')%nat -> finishes h t b'.
Proof. intros (n & h' & r & Hn & H) Hb. exists n, h', r. split; [lia|done]. Qed.

Section alone.
Context (c : call) (seen : gset Z) (cs : list cell).

Lemma finish_start h : list_rep h cs -> thread_ok h cs (mkThread c (TStart c) seen) -> finishes h (TStart c) (3 * length cs + 7).
Proof.
  intros HR [_ [Hh Hc] _ Ho]. simpl in *. destruct (head_split _ _ _ Hh) as (cs1 & cs2 & E & Eh & Hb).
  assert (length cs = length cs1 + length cs2)%nat as L by (rewrite E; apply length_app).
  rewrite E in HR. destruct c as [hd key [node| | |]]; simpl in *; try done; subst hd.
  - destruct (Ho node) as (Hni & w & v & Hn); [done|]. simpl in Hn.
    destruct (insert_steps h cs1 cs2 node key v w HR Hb Hn) as (n & h' & r & Hn' & Hs & _); [by rewrite <-E|].
    exists n, h', r. split; [lia|done].
  - destruct (search_steps h cs1 cs2 key HR Hb) as (n & r & Hn & Hs & _). exists n, h, r. split; [lia|done].
Qed.

(** what may follow a step: the list is the same, or the call is over *)
Lemma finish_by h t b : list_rep h cs -> thread_ok h cs (mkThread c t seen) ->
  (forall h' t', list_rep h' cs -> thread_ok h' cs (mkThread c t' seen) -> tstep h t = Ok (h', t') -> finishes h' t' b) ->
  finishes h t (S b).
Proof.
  intros HR Hth Hk. destruct (thread_step h cs _ HR Hth) as (h' & cs' & t' & [S1 S2 S3 S4 _ _ _]). simpl in *.
  eapply finishes_step; [exact S1|]. destruct S4 as [[-> _]|(node & w & v & cs1 & cs2 & _ & -> & _)]; [|apply finishes_done]. by apply Hk.
Qed.

Abbreviation B := (3 * length cs + 10)%nat.

Lemma finish_tail h t : list_rep h cs -> thread_ok h cs (mkThread c t seen) ->
  match t with TStart _ | TLink _ _ _ _ | TInsCas _ _ _ _ | TValue _ _ | TMarked _ _ _ | TDone _ => True | _ => False end ->
  finishes h t B.
Proof.
  assert (forall h c', list_rep h cs -> thread_ok h cs (mkThread c (TStart c') seen) -> finishes h (TStart c') (3 * length cs + 7)) as Hstart.
  { intros h0 c' HR Hth. pose proof (to_state _ _ _ Hth) as Hs. simpl in Hs. subst c'. by apply finish_start. }
  assert (forall h c' node prev pc, list_rep h cs -> thread_ok h cs (mkThread c (TInsCas c' node prev pc) seen) ->
            finishes h (TInsCas c' node prev pc) (3 * length cs + 8)) as Hcas.
  { intros h0 c' node prev pc HR Hth. replace (3 * length cs + 8)%nat with (S (3 * length cs + 7)) by lia.
    apply finish_by; [done|done|]. intros h' t' HR' Hth' Hs. simpl in Hs. destruct (cas _ _ _ _) as [[[] h2]|]; simpl in Hs; simplify_eq.
    - apply finishes_done.
    - by apply Hstart. }
  assert (forall h c' pc v, list_rep h cs -> thread_ok h cs (mkThread c (TMarked c' pc v) seen) -> finishes h (TMarked c' pc v) 1) as Hmk.
  { intros h0 c' pc v HR Hth. apply finish_by; [done|done|]. intros h' t' _ _ Hs. simpl in Hs.
    destruct (curr_of pc) as [a|]; simpl in Hs; [|done]. destruct (rd_node _ _); simpl in Hs; simplify_eq. apply finishes_done. }
  intros HR Hth Ht. destruct t; try done.
  - eapply finishes_mono; [by apply Hstart|lia].
  - replace B with (S (S (3 * length cs + 8))) by lia. eapply finishes_mono; [|apply Nat.le_succ_diag_r].
    apply finish_by; [done|done|]. intros h' t' HR' Hth' Hs. simpl in Hs.
    destruct (rd_node _ _); simpl in Hs; simplify_eq. by apply Hcas.
  - eapply finishes_mono; [by apply Hcas|lia].
  - apply (finishes_mono _ _ 2); [|lia]. apply finish_by; [done|done|]. intros h' t' HR' Hth' Hs. simpl in Hs.
    destruct (curr_of pc) as [a|]; simpl in Hs; [|done]. destruct (rd_node _ _); simpl in Hs; simplify_eq. by apply Hmk.
  - eapply finishes_mono; [by apply Hmk|lia].
  - apply finishes_done.
Qed.

Lemma return_tail prev pc cn b : call_ok cs c ->
  match find_return c prev pc cn b with
  | TStart _ | TLink _ _ _ _ | TInsCas _ _ _ _ | TValue _ _ | TMarked _ _ _ | TDone _ => True | _ => False end.
Proof. intros [_ Hc]. unfold find_return. destruct (c_cont c); try done; by destruct b. Qed.

(** [find] advances along the list; a stale word makes it start again once *)
Lemma finish_recheck h prev pc cn ckey cs1 cs2 : list_rep h cs -> cs = cs1 ++ cs2 -> prev = loc_at cs1 ->
  thread_ok h cs (mkThread c (TRecheck c prev pc cn ckey) seen) ->
  (forall d cs2', cs2 = d :: cs2' -> forall h' pc', list_rep h' cs -> thread_ok h' cs (mkThread c (TLoop c (loc_at (cs1 ++ [d])) pc') seen) ->
     finishes h' (TLoop c (loc_at (cs1 ++ [d])) pc') (3 * length cs2' + 3 + B)) ->
  finishes h (TRecheck c prev pc cn ckey) (S (3 * length cs2 + B)).
Proof.
  intros HR E -> Hth Hnext. apply finish_by; [done|done|]. intros h' t' HR' Hth' Hs. simpl in Hs.
  pose proof (to_state _ _ _ Hth) as (_ & _ & Hcn & d & (Hm & Hd & Hp) & _).
  rewrite E in HR. destruct (rd_loc_at h cs1 cs2 HR) as (w & Hw & Hl). rewrite <-E in HR. rewrite Hw in Hs. simpl in Hs.
  case_bool_decide as Ew; simpl in Hs; [|injection Hs as <- <-; eapply finishes_mono; [by apply finish_tail|lia]].
  rewrite unmarked_id in Ew by done. subst w. rewrite (proj1 Hcn) in Hs. simpl in Hs.
  destruct (c_key c <=? ckey).
  - injection Hs as <- <-. eapply finishes_mono; [apply finish_tail; [done|done|apply return_tail, Hth]|lia].
  - unfold curr_of in Hs. rewrite Hp in Hs. simpl in Hs. injection Hs as <- <-.
    pose proof (linked_ptr _ _ _ Hl) as Hp'. rewrite Hp in Hp'. destruct cs2 as [|d' cs2]; [done|]. simpl in Hp'. injection Hp' as Ep.
    rewrite Ep in *. rewrite <-(loc_at_snoc cs1 d') in *. eapply finishes_mono; [by eapply Hnext|simpl; lia].
Qed.

Lemma finish_loop cs2 : forall h prev pc cs1, list_rep h cs -> cs = cs1 ++ cs2 -> prev = loc_at cs1 ->
  thread_ok h cs (mkThread c (TLoop c prev pc) seen) -> finishes h (TLoop c prev pc) (3 * length cs2 + 3 + B).
Proof.
  induction cs2 as [|d0 cs2 IH]; intros h prev pc cs1 HR E Ep Hth.
  all: match goal with |- finishes _ _ (3 * length ?l + 3 + _) => replace (3 * length l + 3 + B)%nat with (S (S (S (3 * length l + B)))) by lia end.
  all: apply finish_by; [done|done|]; intros h' t' HR' Hth' Hs; simpl in Hs; destruct (mp_ptr pc) as [a|] eqn:Ea;
    [|injection Hs as <- <-; eapply finishes_mono; [apply finish_tail; [done|done|apply return_tail, Hth]|lia]].
  all: destruct (rd_node h a) as [n|]; simpl in Hs; [|done]; injection Hs as <- <-.
  all: apply finish_by; [done|done|]; intros h2 t2 HR2 Hth2 Hs; simpl in Hs.
  all: unfold curr_of in Hs; rewrite Ea in Hs; simpl in Hs; destruct (rd_node h a) as [n'|]; simpl in Hs; [|done]; injection Hs as <- <-.
  - eapply (finish_recheck h _ pc (n_next n) (n_key n') cs1 []); [done|done|done|done|]. intros d cs2' [=].
  - eapply (finish_recheck h _ pc (n_next n) (n_key n') cs1 (d0 :: cs2)); [done|done|done|done|].
    intros d cs2' [= <- <-] h3 pc' HR3 Hth3. eapply (IH h3 _ pc' (cs1 ++ [d0])); [done|by rewrite <-app_assoc|done|done].
Qed.
End alone.

Lemma finish_any h cs th : list_rep h cs -> thread_ok h cs th -> finishes h (t_state th) (6 * length cs + 13).
Proof.
  intros HR Hth. destruct th as [c t seen]. simpl.
  assert (forall prev, head_ok cs prev (c_key c) -> exists cs1 cs2, cs = cs1 ++ cs2 /\ prev = loc_at cs1 /\ (length cs2 <= length cs)%nat) as Hsplit.
  { intros prev (cs1 & cs2 & E & Ep & _)%head_split. exists cs1, cs2. split_and!; [done|done|]. rewrite E, length_app. lia. }
  assert (forall prev pc cn ckey, thread_ok h cs (mkThread c (TRecheck c prev pc cn ckey) seen) ->
            finishes h (TRecheck c prev pc cn ckey) (6 * length cs + 11)) as Hre.
  { intros prev pc cn ckey Hth'. destruct (to_state _ _ _ Hth') as (_ & Hh & _). destruct (Hsplit prev Hh) as (cs1 & cs2 & E & Ep & L).
    eapply finishes_mono; [eapply (finish_recheck c seen cs h prev pc cn ckey cs1 cs2); try done|lia].
    intros d cs2' E2 h' pc' HR' Hth2. eapply finish_loop; [done| |done|done]. by rewrite <-app_assoc, E, E2. }
  pose proof (to_state _ _ _ Hth) as Hs. simpl in Hs.
  destruct t as [|c' prev pc|c' prev pc cn|c' prev pc cn ckey| | | | | | | | | |]; try done;
    try (eapply finishes_mono; [by eapply finish_tail|lia]).
  - destruct Hs as (-> & Hh & _). destruct (Hsplit prev Hh) as (cs1 & cs2 & E & Ep & L).
    eapply finishes_mono; [by eapply (finish_loop c seen cs cs2)|lia].
  - destruct Hs as (-> & _). replace (6 * length cs + 13)%nat with (S (S (6 * length cs + 11))) by lia.
    eapply (finishes_mono _ _ (S (6 * length cs + 11))); [|lia]. eapply finish_by; [done|exact Hth|].
    intros h' t' HR' Hth' Hst. simpl in Hst. destruct (curr_of pc) as [a|]; simpl in Hst; [|done].
    destruct (rd_node h a) as [n|]; simpl in Hst; [|done]. injection Hst as <- <-. by apply Hre.
  - destruct Hs as (-> & _). eapply finishes_mono; [by apply Hre|lia].
Qed.

(** ** Schedules *)

(** a schedule: the threads that run, in order *)
Fixpoint run_schedule (s : sys) (sched : list nat) : res sys :=
  match sched with
  | [] => Ok s
  | i :: sched => s ← sys_run s i; run_schedule s sched
  end.

Lemma run_schedule_ins s sched s' : run_schedule s sched = Ok s' -> rtc ins_step s s'.
Proof.
  revert s. induction sched as [|i sched IH]; intros s H; simpl in H; [simplify_eq; apply rtc_refl|].
  destruct (sys_run s i) as [s1|] eqn:E; [|done]. eapply rtc_l; [by eapply ins_run|by apply IH].
Qed.

Lemma run_schedule_steps s sched s' : run_schedule s sched = Ok s' -> rtc sys_step s s'.
Proof. intros H%run_schedule_ins. eapply rtc_subrel; [apply ins_step_sys|done]. Qed.

Lemma run_schedule_app s l1 l2 : run_schedule s (l1 ++ l2) = (s ← run_schedule s l1; run_schedule s l2).
Proof. revert s. induction l1 as [|i l1 IH]; intros s; [done|]. cbn [app run_schedule]. destruct (sys_run s i); [apply IH|done]. Qed.

(** a thread that runs alone for [n] steps *)
Lemma run_schedule_alone n i : forall s th h' t', s_threads s !! i = Some th -> steps n (s_heap s) (t_state th) = Ok (h', t') ->
  run_schedule s (replicate n i) = Ok (mkSys h' (<[i := with_state th t']> (s_threads s))).
Proof.
  induction n as [|n IH]; intros s th h' t' Hi Hs; cbn [steps] in Hs.
  - injection Hs as <- <-. cbn. unfold with_state. destruct th, s. cbn in *. by rewrite list_insert_id.
  - destruct (tstep (s_heap s) (t_state th)) as [[h1 t1]|] eqn:E; [|done]. cbn [mbind res_bind] in Hs. cbn [replicate run_schedule].
    unfold sys_run at 1. rewrite Hi, E. cbn [mbind res_bind]. set (s1 := mkSys h1 _).
    assert (s_threads s1 !! i = Some (with_state th t1)) as Hi1 by (apply list_lookup_insert_eq; by eapply lookup_lt_Some).
    rewrite (IH s1 _ h' t' Hi1 Hs). do 2 f_equal. unfold s1, with_state. cbn [s_threads t_call t_seen]. by rewrite list_insert_insert_eq.
Qed.

(** ** The claims *)

(** Called by one thread, with any head of the list in front of the key,
    the three operations are those of a finite map: [Insert] adds a key that is
    absent and otherwise returns the node that has it, [Search] returns the
    value of a key, [Remove] removes it. The list stays sorted without
    duplicates, and every call returns within its bound on steps. *)
Theorem list_sequential h cs hd key : list_rep h cs -> head_ok cs hd key ->
  Search h hd key = Ok (h, match amap cs !! key with Some v => RSearch true (Some v) | None => RSearch false None end) /\
  (exists h' cs', Remove h hd key = Ok (h', RRemove (bool_decide (is_Some (amap cs !! key)))) /\
     list_rep h' cs' /\ amap cs' = delete key (amap cs)) /\
  (forall node v w0, h_nodes h !! node = Some (mkNode w0 key v) -> node ∉ ce_ptr <$> cs ->
     match amap cs !! key with
     | None => exists h' cs', Insert h hd node = Ok (h', RInsert true None) /\ list_rep h' cs' /\ amap cs' = <[key := v]> (amap cs)
     | Some _ => exists d, d ∈ cs /\ ce_key d = key /\ Insert h hd node = Ok (h, RInsert false (Some (ce_ptr d)))
     end).
Proof.
  intros HR Hh. split_and!; [by apply search_spec|by apply remove_spec|].
  intros node v w0 Hn Hni. destruct (insert_spec h cs hd node key v w0 HR Hh Hn Hni) as (h' & H).
  destruct (amap cs !! key) as [v'|]; [by destruct H as [_ H]|]. destruct H as (HI & cs1 & cs2 & _ & HR' & Ha).
  exists h', (cs1 ++ mkCell node key v :: cs2). done.
Qed.

(** a list of two cells, with a free node beside it *)
Definition demo_heap : heap :=
  mkHeap (mkPtr (Some 1%positive) false 1)
    (<[1%positive := mkNode (mkPtr (Some 2%positive) false 0) 5 50]>
      (<[2%positive := mkNode null_ptr 9 90]> (<[3%positive := mkNode null_ptr 7 70]> ∅))).
Definition demo_cells : list cell := [mkCell 1 5 50; mkCell 2 9 90].

Lemma demo_rep : list_rep demo_heap demo_cells.
Proof.
  split.
  - apply (linked_cons _ _ 1 (mkNode (mkPtr (Some 2%positive) false 0) 5 50)); try done.
    apply (linked_cons _ _ 2 (mkNode null_ptr 9 90)); try done. by constructor.
  - done.
  - apply (bool_decide_unpack _). vm_compute. exact I.
Qed.

Lemma list_sequential_witness :
  Search demo_heap LHead 9 = Ok (demo_heap, RSearch true (Some 90)) /\
  exists h' cs', Insert demo_heap (LNext 1) 3 = Ok (h', RInsert true None) /\ list_rep h' cs' /\ amap cs' = <[7 := 70]> (amap demo_cells).
Proof.
  split.
  - apply (list_sequential demo_heap demo_cells LHead 9); [exact demo_rep|by left].
  - destruct (list_sequential demo_heap demo_cells (LNext 1) 7) as (_ & _ & H).
    + exact demo_rep.
    + right. exists (mkCell 1 5 50). split; [by left|by split].
    + apply (H 3%positive 70 null_ptr); [reflexivity|]. apply (bool_decide_unpack _). vm_compute. exact I.
Defined.


(** two insertions of the key 7 and a search for it: when the first insertion
    is about to link its node the second one links its own, so the first loses
    its compare-and-swap, starts again and finds the key *)
Definition demo_start : sys :=
  let s := initial demo_heap in
  let s := spawn s (new_node (s_heap s) 4 7 71) (mkCall LHead 7 (KInsert 4)) in
  let s := spawn s (new_node (s_heap s) 5 7 72) (mkCall (LNext 1) 7 (KInsert 5)) in
  spawn s (s_heap s) (mkCall LHead 7 KSearch).

Definition demo_schedule : list nat := replicate 8 0%nat ++ replicate 3 2%nat ++ replicate 6 1%nat ++ replicate 20 0%nat ++ replicate 20 2%nat.

Definition demo_end : sys := match run_schedule demo_start demo_schedule with Ok s => s | Err _ => demo_start end.

Lemma demo_head_1 : head_valid demo_heap LHead 7.
Proof. exists demo_cells. split; [exact demo_rep|by left]. Qed.

Lemma demo_head_2 : head_valid (new_node demo_heap 4 7 71) (LNext 1) 7.
Proof.
  exists demo_cells. split; [apply private_frame; [exact demo_rep|apply (bool_decide_unpack _); by vm_compute]|].
  right. exists (mkCell 1 5 50). split; [by left|by split].
Qed.

Lemma demo_head_3 : head_valid (s_heap demo_start) LHead 7.
Proof.
  exists demo_cells.
  split; [apply private_frame; [apply private_frame; [exact demo_rep|]|]; apply (bool_decide_unpack _); by vm_compute|by left].
Qed.

Lemma demo_steps : rtc ins_step (initial demo_heap) demo_start.
Proof.
  eapply rtc_l; [apply (ins_insert (initial demo_heap) LHead 4 7 71); [done|exact demo_head_1]|].
  eapply rtc_l; [apply (ins_insert _ (LNext 1) 5 7 72); [done|exact demo_head_2]|].
  eapply rtc_l; [apply ins_search; exact demo_head_3|apply rtc_refl].
Qed.


(** ** Linearizability *)

(** an execution: every state follows from the one before by one step of a
    thread or by a call of [Insert] or [Search] *)
Definition execution (h : heap) (tr : list sys) : Prop :=
  tr !! 0%nat = Some (initial h) /\ forall k s s', tr !! k = Some s -> tr !! S k = Some s' -> ins_step s s'.

(** the result of a call that does not change the map, against the map of the
    list at the moment the call takes effect *)
Definition reads (h : heap) (c : call) (r : result) : Prop :=
  match c_cont c, r with
  | KInsert _, RInsert false (Some a) => is_Some (map_of h !! c_key c) /\ exists n, h_nodes h !! a = Some n /\ n_key n = c_key c
  | KSearch, RSearch true v => is_Some v /\ map_of h !! c_key c = v
  | KSearch, RSearch false v => v = None /\ map_of h !! c_key c = None
  | _, _ => False
  end.

Lemma execution_ok h cs tr k s : list_rep h cs -> execution h tr -> tr !! k = Some s -> exists cs', sys_ok s cs'.
Proof.
  intros HR [H0 Hst]. revert s. induction k as [|k IH]; intros s Hk.
  - rewrite H0 in Hk. injection Hk as <-. exists cs. by apply initial_ok.
  - destruct (lookup_lt_is_Some_2 tr k) as [s1 H1]; [apply lookup_lt_Some in Hk; lia|].
    destruct (IH s1 H1) as [cs1 Hok]. destruct (step_preserves s1 s cs1 Hok (Hst k s1 s H1 Hk)) as (cs2 & Hok2 & _). eauto.
Qed.

(** what a step does to the threads *)
Lemma step_threads s s' i th : ins_step s s' -> s_threads s' !! i = Some th ->
  (exists th0, s_threads s !! i = Some th0 /\ t_call th = t_call th0 /\ t_seen th = t_seen th0 /\ (t_state th = t_state th0 \/ exists h', tstep (s_heap s) (t_state th0) = Ok (h', t_state th))) \/
  (exists h c, s' = spawn s h c /\ t_state th = TStart c /\ t_seen th = list_to_set (keys_of (s_heap s))).
Proof.
  destruct 1 as [s j s' Hr|s head node key value _ _|s head key _]; intros Hi.
  - left. unfold sys_run in Hr. destruct (s_threads s !! j) as [th1|] eqn:Hj; [|injection Hr as <-; exists th; auto].
    destruct (tstep (s_heap s) (t_state th1)) as [[h1 t1]|] eqn:E; [|done]. injection Hr as <-. cbn [s_threads] in Hi.
    destruct (decide (j = i)) as [->|Hne].
    + rewrite list_lookup_insert_eq in Hi by (by eapply lookup_lt_Some). injection Hi as <-. exists th1. cbn. eauto 6.
    + rewrite list_lookup_insert_ne in Hi by done. exists th. auto.
  - apply lookup_app_Some in Hi as [Hi|[Hl Hi]]; [left; exists th; auto|]. apply list_lookup_singleton_Some in Hi as [_ <-].
    right. by eexists _, _.
  - apply lookup_app_Some in Hi as [Hi|[Hl Hi]]; [left; exists th; auto|]. apply list_lookup_singleton_Some in Hi as [_ <-].
    right. by eexists _, _.
Qed.

(** the keys a thread has seen are those of the list when its call started *)
Lemma seen_at_start h cs tr k s i th : list_rep h cs -> execution h tr -> tr !! k = Some s -> s_threads s !! i = Some th ->
  exists j sj, (j <= k)%nat /\ tr !! j = Some sj /\ is_Some (s_threads sj !! i) /\ t_seen th = dom (map_of (s_heap sj)).
Proof.
  intros HR Hex. revert s th. induction k as [|k IH]; intros s th Hk Hi.
  - rewrite (proj1 Hex) in Hk. injection Hk as <-. done.
  - destruct (lookup_lt_is_Some_2 tr k) as [s1 H1]; [apply lookup_lt_Some in Hk; lia|]. pose proof (proj2 Hex k s1 s H1 Hk) as Hst.
    destruct (step_threads s1 s i th Hst Hi) as [(th0 & H0 & _ & -> & _)|(h0 & c0 & Es & _ & ->)].
    + destruct (IH s1 th0 H1 H0) as (j & sj & Hj & H2). exists j, sj. split; [lia|done].
    + exists (S k), s. split_and!; [lia|done|by eexists|].
      destruct (execution_ok h cs tr k s1 HR Hex H1) as [cs1 Hok]. destruct (step_preserves s1 s cs1 Hok Hst) as (cs2 & Hok2 & [_ He] & _).
      rewrite He.
      * rewrite (keys_of_spec _ cs1), (map_of_spec _ cs1) by apply Hok. unfold amap. by rewrite dom_list_to_map_L, amap_keys.
      * rewrite Es. intros i' c r. apply completes_spawn.
Qed.

(** a successful [Insert] had its step *)
Lemma insert_completed h tr k s i th e : execution h tr -> tr !! k = Some s -> s_threads s !! i = Some th -> t_state th = TDone (RInsert true e) ->
  exists j sj sj', (S j <= k)%nat /\ tr !! j = Some sj /\ tr !! S j = Some sj' /\ completes sj sj' i (t_call th) (RInsert true e).
Proof.
  intros Hex. revert s th. induction k as [|k IH]; intros s th Hk Hi Hd.
  - rewrite (proj1 Hex) in Hk. injection Hk as <-. done.
  - destruct (lookup_lt_is_Some_2 tr k) as [s1 H1]; [apply lookup_lt_Some in Hk; lia|].
    destruct (step_threads s1 s i th (proj2 Hex k s1 s H1 Hk) Hi) as [(th0 & H0 & Ec & _ & Hstep)|(h0 & c0 & _ & Et & _)]; [|congruence].
    assert (t_state th0 = TDone (RInsert true e) \/ forall r, t_state th0 <> TDone r) as [Hd0|Hnd].
    { destruct Hstep as [E|[h' E]]; [left; congruence|]. destruct (t_state th0); try (right; done). left. cbn in E. congruence. }
    + destruct (IH s1 th0 H1 H0 Hd0) as (j & sj & sj' & Hj & H2). rewrite <-Ec in H2. exists j, sj, sj'. split; [lia|done].
    + exists k, s1, s. split_and!; [lia|done|done|]. exists th0, th. split_and!; done.
Qed.

(** C7: concurrent calls of [Insert] and [Search] are linearizable. In every
    execution of any number of them, the list represents a finite map in every
    state; a step that ends an [Insert] with success adds the key of its node,
    which was absent, with the node's value, and no other step changes the map;
    no step changes the key or value of a node. Every finished call took effect
    at one moment between its start and its end: a successful [Insert] in the
    step that added its key, a failed one at a moment when the key was present
    (it returns a node with the key), a [Search] at a moment when the map had
    the value it returns, or did not have the key. *)
Theorem list_linearizable h cs tr : list_rep h cs -> execution h tr ->
  (forall k s, tr !! k = Some s -> exists cs', list_rep (s_heap s) cs' /\ map_of (s_heap s) = amap cs') /\
  (forall k s s', tr !! k = Some s -> tr !! S k = Some s' -> sys_effect s s' /\
     forall a n, h_nodes (s_heap s) !! a = Some n -> exists w, h_nodes (s_heap s') !! a = Some (mkNode w (n_key n) (n_value n))) /\
  (forall k s i th r, tr !! k = Some s -> s_threads s !! i = Some th -> t_state th = TDone r ->
     (exists e j sj sj', r = RInsert true e /\ (S j <= k)%nat /\ tr !! j = Some sj /\ tr !! S j = Some sj' /\ completes sj sj' i (t_call th) r) \/
     (exists j sj, (j <= k)%nat /\ tr !! j = Some sj /\ is_Some (s_threads sj !! i) /\ reads (s_heap sj) (t_call th) r)).
Proof.
  intros HR Hex. split_and!.
  - intros k s Hk. destruct (execution_ok h cs tr k s HR Hex Hk) as [cs' Hok]. exists cs'. split; [apply Hok|by apply map_of_spec, Hok].
  - intros k s s' Hk Hk'. destruct (execution_ok h cs tr k s HR Hex Hk) as [cs' Hok].
    by destruct (step_preserves s s' cs' Hok (proj2 Hex k s s' Hk Hk')) as (cs2 & _ & He).
  - intros k s i th r Hk Hi Hd. destruct (execution_ok h cs tr k s HR Hex Hk) as [cs' Hok].
    pose proof (to_state _ _ _ (so_threads _ _ Hok i th Hi)) as Hr. rewrite Hd in Hr. cbn [state_ok] in Hr.
    pose proof (so_list _ _ Hok) as HRs. pose proof (map_of_spec _ _ HRs) as Em.
    assert (forall d, d ∈ cs' -> map_of (s_heap s) !! ce_key d = Some (ce_value d)) as Hm.
    { intros d Hd'. rewrite Em. by eapply amap_elem; [apply HRs|]. }
    unfold result_ok in Hr. unfold reads. destruct (c_cont (t_call th)) as [node| | |] eqn:Ec, r as [[] e|?|[] v]; try done.
    + left. destruct (insert_completed h tr k s i th e Hex Hk Hi Hd) as (j & sj & sj' & H). by exists e, j, sj, sj'.
    + right. exists k, s. destruct Hr as (d & Hd' & Ek & -> & _). rewrite <-Ek, (Hm d Hd'). split_and!; try done.
      destruct (read_next _ _ _ HRs Hd') as (w & Hn & _). by eexists.
    + right. exists k, s. destruct Hr as (d & Hd' & Ek & ->). rewrite <-Ek, (Hm d Hd'). split_and!; try done; by eexists.
    + right. destruct Hr as [Hns ->]. destruct (seen_at_start h cs tr k s i th HR Hex Hk Hi) as (j & sj & Hj & Htj & Hij & Es).
      exists j, sj. split_and!; try done. apply not_elem_of_dom. by rewrite <-Es.
Qed.

(** the states of a schedule *)
Fixpoint run_trace (s : sys) (sched : list nat) : list sys :=
  s :: match sched with
       | [] => []
       | i :: sched => match sys_run s i with Ok s' => run_trace s' sched | Err _ => [] end
       end.

Definition all_steps (tr : list sys) : Prop := forall k s s', tr !! k = Some s -> tr !! S k = Some s' -> ins_step s s'.

Lemma all_steps_cons s s' tr : ins_step s s' -> all_steps (s' :: tr) -> all_steps (s :: s' :: tr).
Proof. intros H Htr [|k] a b Ha Hb; [by injection Ha as <-; injection Hb as <-|by apply (Htr k)]. Qed.

Lemma run_trace_steps sched : forall s, all_steps (run_trace s sched).
Proof.
  induction sched as [|i sched IH]; intros s; [by intros k a b _|]. cbn [run_trace]. destruct (sys_run s i) as [s'|] eqn:E; [|by intros k a b _].
  specialize (IH s'). destruct sched; apply all_steps_cons; (by eapply ins_run) || exact IH.
Qed.

Definition demo_trace : list sys :=
  let s1 := spawn (initial demo_heap) (new_node demo_heap 4 7 71) (mkCall LHead 7 (KInsert 4)) in
  let s2 := spawn s1 (new_node (s_heap s1) 5 7 72) (mkCall (LNext 1) 7 (KInsert 5)) in
  initial demo_heap :: s1 :: s2 :: run_trace demo_start demo_schedule.

Lemma demo_execution : execution demo_heap demo_trace.
Proof.
  split; [done|]. apply all_steps_cons; [apply ins_insert; [done|exact demo_head_1]|].
  apply all_steps_cons; [apply ins_insert; [done|exact demo_head_2]|].
  apply (all_steps_cons _ demo_start); [apply ins_search; exact demo_head_3|exact (run_trace_steps demo_schedule demo_start)].
Qed.

(** the first insertion fails, and the key was in the list at some moment after
    it was called *)
Lemma list_linearizable_witness :
  (exists k s th, demo_trace !! k = Some s /\ s_threads s !! 0%nat = Some th /\ t_state th = TDone (RInsert false (Some 5%positive)) /\
    exists j sj, (j <= k)%nat /\ demo_trace !! j = Some sj /\ is_Some (s_threads sj !! 0%nat) /\
      reads (s_heap sj) (t_call th) (RInsert false (Some 5%positive))) /\
  map_of (s_heap demo_end) = <[7 := 72]> (map_of demo_heap).
Proof.
  destruct (list_linearizable demo_heap demo_cells demo_trace demo_rep demo_execution) as (_ & _ & H). split; [|vm_compute; reflexivity].
  assert (demo_trace !! 60%nat = Some demo_end) as E by (vm_compute; reflexivity).
  destruct (s_threads demo_end !! 0%nat) as [th|] eqn:Et; [|vm_compute in Et; discriminate Et].
  assert (t_state th = TDone (RInsert false (Some 5%positive))) as Hd by (vm_compute in Et; injection Et as <-; reflexivity).
  exists 60%nat, demo_end, th. split; [exact E|]. split; [exact Et|]. split; [exact Hd|].
  destruct (H _ _ _ _ _ E Et Hd) as [(e & j & sj & sj' & Er & _)|Hr]; [discriminate Er|exact Hr].
Defined.

(** C11: progress: in every state concurrent insertions and searches lead to, a
    thread that then runs alone completes its call, within six steps per cell
    of the list and thirteen more; stale words cost it one restart. *)
Theorem list_obstruction_free h cs s i th : list_rep h cs -> rtc ins_step (initial h) s -> s_threads s !! i = Some th ->
  exists cs' n h' r, list_rep (s_heap s) cs' /\ (n <= 6 * length cs' + 13)%nat /\
    steps n (s_heap s) (t_state th) = Ok (h', TDone r).
Proof.
  intros HR Hr Hi. destruct (reachable_ok h cs s HR Hr) as (cs' & Hok).
  destruct (finish_any _ _ _ (so_list _ _ Hok) (so_threads _ _ Hok i th Hi)) as (n & h' & r & Hn & Hs).
  exists cs', n, h', r. split_and!; [apply Hok|done|done].
Qed.

Lemma list_obstruction_free_witness : exists cs' n h' r, list_rep demo_heap cs' /\ (n <= 6 * length cs' + 13)%nat /\
  steps n demo_heap (TStart (mkCall LHead 9 KSearch)) = Ok (h', TDone r).
Proof.
  apply (list_obstruction_free demo_heap demo_cells (spawn (initial demo_heap) demo_heap (mkCall LHead 9 KSearch)) 0
           (mkThread (mkCall LHead 9 KSearch) (TStart (mkCall LHead 9 KSearch)) (list_to_set (keys_of demo_heap)))).
  - exact demo_rep.
  - apply rtc_once, (ins_search (initial demo_heap) LHead 9). exists demo_cells. split; [exact demo_rep|by left].
  - reflexivity.
Defined.

(** a [Search] and a [Remove] of the same key have been called *)
Definition race (h : heap) (key : Z) : sys :=
  spawn (spawn (initial h) h (mkCall LHead key KSearch)) h (mkCall LHead key KRemove).

Lemma race_steps h key : rtc sys_step (initial h) (race h key).
Proof.
  eapply rtc_l; [by apply (step_search (initial h) LHead key)|].
  eapply rtc_l; [by apply (step_remove (spawn (initial h) h (mkCall LHead key KSearch)) LHead key)|apply rtc_refl].
Qed.

Lemma key_inj h cs d d' : list_rep h cs -> d ∈ cs -> d' ∈ cs -> ce_key d = ce_key d' -> d = d'.
Proof.
  intros HR [i Hi]%list_elem_of_lookup [j Hj]%list_elem_of_lookup E. pose proof (sorted_nodup _ _ (lr_sorted _ _ HR)) as Hn.
  assert (i = j) as ->; [|congruence].
  eapply (NoDup_lookup _ i j (ce_key d) Hn); rewrite list_lookup_fmap; [by rewrite Hi|by rewrite Hj, E].
Qed.

(** [find] of the [Search] has found the node *)
Lemma search_finds h cs d : list_rep h cs -> d ∈ cs ->
  exists n w, steps n h (TStart (mkCall LHead (ce_key d) KSearch)) = Ok (h, TValue (mkCall LHead (ce_key d) KSearch) w) /\ mp_ptr w = Some (ce_ptr d).
Proof.
  intros HR Hd. destruct (find_stop_ex (ce_key d) cs) as (m & r & Hstop).
  destruct (start_runs h [] cs (mkCall LHead (ce_key d) KSearch) m r HR eq_refl Hstop) as (n & w & t & _ & Hs & _ & Hl & Hf).
  destruct (decide (ce_key <$> head r = Some (ce_key d))) as [(d' & Hd' & Ek)%fmap_Some|Hne].
  - destruct r as [|d'' r]; [done|]. injection Hd' as ->. assert (d' = d) as ->.
    { symmetry. eapply key_inj; [exact HR|exact Hd| |done]. rewrite (proj1 Hstop). set_solver. }
    destruct Hf as (cn & _ & ->). cbn [c_key] in Hs. rewrite Z.eqb_refl in Hs. exists n, w. split; [exact Hs|]. by rewrite (linked_ptr _ _ _ Hl).
  - destruct (stop_absent [] cs m r (ce_key d) None (lr_sorted _ _ HR) I Hstop) as (_ & _ & Ha); [intros d' Hd' Ek; apply Hne; by rewrite Hd', <-Ek|].
    destruct Ha. by apply list_elem_of_fmap_2.
Qed.

(** C38: with [Remove] the list is not safe for concurrent use: it frees the
    node it unlinks at once. In every list with some key, let a [Search] of the
    key run until it has found the node, and then a [Remove] of the key run to
    its end. The next access of the [Search], which would have succeeded
    before, is to freed memory. *)
Theorem list_use_after_free h cs d : list_rep h cs -> d ∈ cs ->
  exists n m s1 s2 s3,
    run_schedule (race h (ce_key d)) (replicate n 0%nat) = Ok s1 /\ sys_run s1 0 = Ok s2 /\
    run_schedule s1 (replicate m 1%nat) = Ok s3 /\ t_state <$> s_threads s3 !! 1%nat = Some (TDone (RRemove true)) /\
    sys_run s3 0 = Err EDangling /\ rtc sys_step (initial h) s3.
Proof.
  intros HR Hd. destruct (search_finds h cs d HR Hd) as (n & w & Hs & Hp).
  destruct (remove_steps h [] cs (ce_key d) HR I) as (m & h' & r & _ & Hm & Hr).
  destruct Hr as [(m1 & d' & rest & E & Ek & -> & _ & Hfree)|(Habs & _)]; [|destruct Habs; by apply list_elem_of_fmap_2].
  assert (d' = d) as -> by (eapply key_inj; [exact HR|rewrite E; set_solver|exact Hd|exact Ek]).
  set (c := mkCall LHead (ce_key d) KSearch) in *. set (cr := mkCall LHead (ce_key d) KRemove).
  set (th0 := mkThread c (TStart c) (list_to_set (keys_of h))).
  pose proof (run_schedule_alone n 0 (race h (ce_key d)) th0 h _ eq_refl Hs) as E1.
  set (s1 := mkSys h _) in E1.
  pose proof (run_schedule_alone m 1 s1 (mkThread cr (TStart cr) (list_to_set (keys_of h))) h' _ eq_refl Hm) as E3.
  set (s3 := mkSys h' _) in E3. destruct (linked_dom h (h_head h) cs (lr_linked _ _ HR) d Hd) as [nd Hnd].
  exists n, m, s1. eexists _, s3. split_and!; [exact E1| |exact E3|done| |].
  - unfold sys_run. cbn. unfold curr_of, rd_node. rewrite Hp. cbn. by rewrite Hnd.
  - unfold sys_run. cbn. unfold curr_of, rd_node. rewrite Hp. cbn. by rewrite Hfree.
  - etransitivity; [apply race_steps|]. etransitivity; by eapply run_schedule_steps.
Qed.

Lemma list_use_after_free_witness : exists n m s1 s2 s3,
  run_schedule (race demo_heap 9) (replicate n 0%nat) = Ok s1 /\ sys_run s1 0 = Ok s2 /\
  run_schedule s1 (replicate m 1%nat) = Ok s3 /\ t_state <$> s_threads s3 !! 1%nat = Some (TDone (RRemove true)) /\
  sys_run s3 0 = Err EDangling /\ rtc sys_step (initial demo_heap) s3.
Proof.
  apply (list_use_after_free demo_heap demo_cells (mkCell 2 9 90)); [exact demo_rep|]. right. left.
Defined.
