(* ===== verification/SplitHash.v ===== *)
(** * The split-ordered hash table: src/include/concurrent/hash.hh and src/src/modules/concurrent/hash.cc

    All entries are in one [MichaelList], sorted by bit-reversed keys. A slot
    is a pointer to the dummy node in front of the entries of the slot; slots
    are in a radix tree of arrays and are filled when they are first used. *)

From S2P Require Import Prelude.
From S2P Require Import Simd.
From S2P Require Import MichaelList.

(** ** Bits: src/include/util/bits_op.hh *)

Fixpoint reverse_loop (fuel : nat) (n i j m : Z) : Z :=
  match fuel with
  | O => m
  | S fuel =>
      if i =? 0 then m
      else
        let m := if Z.land n i =? 0 then m else Z.lor m j in
        reverse_loop fuel n (u32 (Z.shiftl i 1)) (Z.shiftr j 1) m
  end.
Definition reverse_bits (n : Z) : Z := reverse_loop 33 n 1 0x80000000 0.

Definition dummy_key (key : Z) : Z := reverse_bits key.
Definition regular_key (key : Z) : Z := Z.lor (reverse_bits key) 0x1.

(** the shift count in [CLEAR_MSB]: [sizeof(n)] is 4 and the difference is a
    [size_t] *)
Definition shift_count (n : Z) : res Z := c ← clz 32 n; Ok (u64 (4 - 1 - c)).

(** C++ leaves a shift of a [uint32_t] by 32 or more undefined: what the target
    computes then is a parameter *)
Class WideShift := wide_shl : Z -> Z -> Z.

(** the shift instruction of x86-64 takes the count modulo 32 *)
Class ShiftMod32 (W : WideShift) : Prop :=
  shift_mod32 : forall a count, 32 <= count -> wide_shl a count = u32 (Z.shiftl a (count mod 32)).

Definition shl32 {W : WideShift} (a count : Z) : Z := if count <? 32 then u32 (Z.shiftl a count) else wide_shl a count.

Definition CLEAR_MSB {W : WideShift} (n : Z) : res Z := c ← shift_count n; Ok (Z.land n (shl32 1 c)).
Definition PARENT_SLOT {W : WideShift} (n : Z) : res Z := CLEAR_MSB n.

(** ** Constants and state *)

Definition SLOT_INDEX_SHIFT : Z := 12 - 3.
Definition SLOT_INDEX_NR : Z := Z.shiftl 1 SLOT_INDEX_SHIFT.
Definition SLOT_INDEX_MASK : Z := SLOT_INDEX_NR - 1.
Definition HASH_SIZE_LIMIT : Z := Z.shiftr (2 ^ 32 - 1) 1.
Definition HASH_KEY_LIMIT : Z := HASH_SIZE_LIMIT.

(** the content of a slot: a pointer to an array of the next level, or to the
    [next] of a dummy node; null slots are not in the map *)
Inductive slot := SSub (a : positive) | SMark (p : loc).

#[global] Instance slot_eq_dec : EqDecision slot.
Proof. solve_decision. Defined.

Abbreviation SlotArray := (gmap Z slot).

Record Hash := mkHash {
  h_root : option positive;
  h_arrays : gmap positive SlotArray;
  h_list : heap;
  h_size : Z;
  h_slot_nr : Z;
  h_expect_max_size : Z;
  h_level_nr : Z;
  h_load_factor : Z;
  h_max_slot_nr : Z
}.

Definition set_root (r : option positive) (H : Hash) : Hash :=
  mkHash r (h_arrays H) (h_list H) (h_size H) (h_slot_nr H) (h_expect_max_size H) (h_level_nr H) (h_load_factor H) (h_max_slot_nr H).
Definition set_arrays (m : gmap positive SlotArray) (H : Hash) : Hash :=
  mkHash (h_root H) m (h_list H) (h_size H) (h_slot_nr H) (h_expect_max_size H) (h_level_nr H) (h_load_factor H) (h_max_slot_nr H).
Definition set_list (l : heap) (H : Hash) : Hash :=
  mkHash (h_root H) (h_arrays H) l (h_size H) (h_slot_nr H) (h_expect_max_size H) (h_level_nr H) (h_load_factor H) (h_max_slot_nr H).
Definition set_size (n : Z) (H : Hash) : Hash :=
  mkHash (h_root H) (h_arrays H) (h_list H) n (h_slot_nr H) (h_expect_max_size H) (h_level_nr H) (h_load_factor H) (h_max_slot_nr H).
Definition set_slot_nr (n : Z) (H : Hash) : Hash :=
  mkHash (h_root H) (h_arrays H) (h_list H) (h_size H) n (h_expect_max_size H) (h_level_nr H) (h_load_factor H) (h_max_slot_nr H).

(** a [MarkPtrType**]: an array and an index *)
Abbreviation slot_ptr := (positive * Z)%type.

Definition rd_array (a : positive) : M Hash SlotArray :=
  H ← get; lift_res (of_option EDangling (h_arrays H !! a)).

Definition rd_slot (p : slot_ptr) : M Hash (option slot) :=
  arr ← rd_array p.1;
  if (0 <=? p.2) && (p.2 <? SLOT_INDEX_NR) then mret (arr !! p.2) else throw EBounds.

Definition wr_slot (p : slot_ptr) (v : slot) : M Hash unit :=
  arr ← rd_array p.1;
  if (0 <=? p.2) && (p.2 <? SLOT_INDEX_NR)
  then modify (fun H => set_arrays (<[p.1 := <[p.2 := v]> arr]> (h_arrays H)) H)
  else throw EBounds.

Definition delete_array (a : positive) : M Hash unit :=
  _ ← rd_array a; modify (fun H => set_arrays (delete a (h_arrays H)) H).

(** an operation of the list *)
Definition on_list {A} (f : heap -> res (heap * A)) : M Hash A :=
  H ← get; '(l, r) ← lift_res (f (h_list H)); _ ← put (set_list l H); mret r.

(** ** Levels *)

Fixpoint level_loop (fuel : nat) (expect_max_size level_nr : Z) : res Z :=
  match fuel with
  | O => Err EFuel
  | S fuel =>
      if SLOT_INDEX_NR <? expect_max_size
      then level_loop fuel (u64 (u64 (expect_max_size + SLOT_INDEX_NR) - 1) / SLOT_INDEX_NR) (u64 (level_nr + 1))
      else Ok level_nr
  end.
Definition calc_level_nr (expect_max_size : Z) : res Z :=
  if 0 <? expect_max_size then level_loop 16 expect_max_size 1 else Err ECheck.

(** ** Operations

    [alloc] is the allocator: an address that is not in use. *)

Section hash.
Context (alloc : gset positive -> positive) {W : WideShift}.

(** [new SlotArray()], zeroed *)
Definition new_array : M Hash positive :=
  H ← get;
  let a := alloc (dom (h_arrays H)) in
  _ ← put (set_arrays (<[a := ∅]> (h_arrays H)) H); mret a.

(** [new NodeType(key, value)] *)
Definition alloc_node (key value : Z) : M Hash ptr :=
  on_list (fun l => let a := alloc (dom (h_nodes l)) in Ok (new_node l a key value, a)).

(** the levels above the last one; [n] is [level_num - 1] *)
Fixpoint get_slot_loop (create_if_not_exists : bool) (slot_i : Z) (n : nat) (current_head : positive) : M Hash (option slot_ptr) :=
  match n with
  | O => mret (Some (current_head, Z.land slot_i SLOT_INDEX_MASK))
  | S n' =>
      let idx := Z.land (Z.shiftr slot_i (Z.of_nat n * SLOT_INDEX_SHIFT)) SLOT_INDEX_MASK in
      v ← rd_slot (current_head, idx);
      match v with
      | None =>
          if negb create_if_not_exists then mret None
          else
            sub_head ← new_array;
            _ ← wr_slot (current_head, idx) (SSub sub_head);
            get_slot_loop create_if_not_exists slot_i n' sub_head
      | Some (SSub sub_head) => get_slot_loop create_if_not_exists slot_i n' sub_head
      | Some (SMark _) => throw EUndef
      end
  end.

Definition get_slot (slot_i : Z) (create_if_not_exists : bool) : M Hash (option slot_ptr) :=
  H ← get;
  root ← lift_res (of_option ENull (h_root H));
  get_slot_loop create_if_not_exists slot_i (Z.to_nat (h_level_nr H - 1)) root.

(** with [create_if_not_exists] the result is never null *)
Definition get_or_create_slot (slot_i : Z) : M Hash slot_ptr :=
  p ← get_slot slot_i true; lift_res (of_option ENull p).
Definition get_slot_if_exists (slot_i : Z) : M Hash (option slot_ptr) := get_slot slot_i false.

(** the constructor; the members are initialized before the assertions run *)
Definition Hash_new (expect_max_size load_factor : Z) : res Hash :=
  level_nr ← calc_level_nr expect_max_size;
  if load_factor =? 0 then Err EDivZero
  else
    let max_slot_nr := u64 (u64 (expect_max_size + load_factor) - 1) / load_factor in
    let H := mkHash None ∅ MichaelList_new 0 2 expect_max_size level_nr load_factor max_slot_nr in
    '(_, H) ← (
      _ ← check ((0 <? expect_max_size) && (expect_max_size <? HASH_SIZE_LIMIT));
      _ ← check ((0 <? load_factor) && (load_factor <=? expect_max_size));
      root ← new_array;
      _ ← modify (set_root (Some root));
      slot_ptr ← get_or_create_slot 0;
      node ← alloc_node (dummy_key 0) 0;
      _ ← on_list (fun l => Insert l LHead node);
      wr_slot slot_ptr (SMark (LNext node))) H;
    Ok H.

Definition get_slot_idx (key : Z) : M Hash Z :=
  H ← get; mret (u32 (Z.land key (u64 (h_slot_nr H - 1)))).

Definition maybe_resize : M Hash unit :=
  H ← get;
  let size_snap := h_size H in
  let slot_nr_snap := h_slot_nr H in
  if slot_nr_snap =? 0 then throw EDivZero
  else if (h_load_factor H <? size_snap / slot_nr_snap) && (u64 (Z.shiftl slot_nr_snap 1) <? h_max_slot_nr H)
  then put (set_slot_nr (u64 (Z.shiftl slot_nr_snap 1)) H)
  else mret tt.

(** the ancestors that are missing too, the last one first; the array that
    collects them has [sizeof(uint32_t)] elements *)
Fixpoint collect_missing (fuel : nat) (parent_slot_i : Z) (slot_ptr : positive * Z) (missing : list Z) : M Hash (positive * Z * list Z) :=
  match fuel with
  | O => throw EFuel
  | S fuel =>
      if 0 <? parent_slot_i then
        slot_ptr ← get_or_create_slot parent_slot_i;
        v ← rd_slot slot_ptr;
        match v with
        | Some _ => mret (slot_ptr, missing)
        | None =>
            if (4 <=? length missing)%nat then throw EBounds
            else
              p ← lift_res (PARENT_SLOT parent_slot_i);
              collect_missing fuel p slot_ptr (parent_slot_i :: missing)
        end
      else mret (slot_ptr, missing)
  end.

Fixpoint fill_missing (missing : list Z) : M Hash unit :=
  match missing with
  | [] => mret tt
  | missing_slot_i :: missing =>
      dummy_node ← alloc_node (dummy_key missing_slot_i) 0;
      r ← on_list (fun l => Insert l LHead dummy_node);
      dummy_node ←
        match r with
        | RInsert false exist_node =>
            _ ← on_list (fun l => l ← free_node l dummy_node; Ok (l, tt));
            lift_res (of_option ENull exist_node)
        | _ => mret dummy_node
        end;
      missing_slot_ptr ← get_or_create_slot missing_slot_i;
      _ ← wr_slot missing_slot_ptr (SMark (LNext dummy_node));
      fill_missing missing
  end.

(** a slot read as a [MarkPtrType*]; every caller dereferences it *)
Definition slot_head (p : slot_ptr) : M Hash loc :=
  v ← rd_slot p;
  match v with
  | Some (SMark l) => mret l
  | Some (SSub _) => throw EUndef
  | None => throw ENull
  end.

Definition ensure_slot_exists (slot_i : Z) : M Hash loc :=
  slot_ptr ← get_or_create_slot slot_i;
  v ← rd_slot slot_ptr;
  match v with
  | Some _ => slot_head slot_ptr
  | None =>
      parent_slot_i ← lift_res (PARENT_SLOT slot_i);
      '(slot_ptr, missing) ← collect_missing 33 parent_slot_i slot_ptr [slot_i];
      _ ← fill_missing missing;
      slot_head slot_ptr
  end.

Definition Put (key value : Z) : M Hash bool :=
  _ ← check (key <=? HASH_KEY_LIMIT);
  _ ← maybe_resize;
  slot_i ← get_slot_idx key;
  head ← ensure_slot_exists slot_i;
  node ← alloc_node (regular_key key) value;
  r ← on_list (fun l => Insert l head node);
  match r with
  | RInsert true _ =>
      _ ← modify (fun H => set_size (u32 (h_size H + 1)) H); mret true
  | _ =>
      _ ← on_list (fun l => l ← free_node l node; Ok (l, tt)); mret false
  end.

Fixpoint get_loop (fuel : nat) (key slot_i : Z) : M Hash (option Z) :=
  match fuel with
  | O => throw EFuel
  | S fuel =>
      slot_ptr ← get_slot_if_exists slot_i;
      head ← match slot_ptr with
             | None => mret None
             | Some p => v ← rd_slot p; match v with None => mret None | Some _ => l ← slot_head p; mret (Some l) end
             end;
      match head with
      | Some l =>
          r ← on_list (fun h => Search h l (regular_key key));
          match r with RSearch true v => mret v | _ => mret None end
      | None => slot_i ← lift_res (PARENT_SLOT slot_i); get_loop fuel key slot_i
      end
  end.

Definition Get (key : Z) : M Hash (option Z) :=
  _ ← check (key <=? HASH_KEY_LIMIT);
  slot_i ← get_slot_idx key;
  get_loop 33 key slot_i.

(** ** Destruction *)

(** [while (from_idx < SLOT_INDEX_NR && top->slots[from_idx] == nullptr) ++from_idx] *)
Fixpoint next_child (fuel : nat) (top : SlotArray) (from_idx : Z) : Z :=
  match fuel with
  | O => from_idx
  | S fuel =>
      if (from_idx <? SLOT_INDEX_NR) && bool_decide (top !! from_idx = None)
      then next_child fuel top (from_idx + 1) else from_idx
  end.

(** [free] of an array that comes from [new]: undefined by the language;
    [free_new] says that the library's [free] releases it *)
Section destroy.
Context (free_new : bool).

Definition free_array (a : positive) : M Hash unit := if free_new then delete_array a else throw EUndef.

(** frees every slot from [i] on that is not null *)
Fixpoint free_children (n : nat) (top : SlotArray) (i : Z) : M Hash unit :=
  match n with
  | O => mret tt
  | S n =>
      _ ← match top !! i with
          | Some (SSub a) => free_array a
          | Some (SMark _) => throw EUndef
          | None => mret tt
          end;
      free_children n top (i + 1)
  end.

(** the stack has its top first; [slot_indices] is shared by the arrays of a
    level *)
Fixpoint free_slots_loop (fuel : nat) (head_stacks : list positive) (slot_indices : list Z) : M Hash unit :=
  match fuel with
  | O => throw EFuel
  | S fuel =>
      match head_stacks with
      | [] => mret tt
      | top :: stack =>
          H ← get;
          arr ← rd_array top;
          if Z.of_nat (length stack) + 2 <? h_level_nr H then
            from_idx ← lift_res (of_option EBounds (slot_indices !! length stack));
            let from_idx := next_child 512 arr from_idx in
            if from_idx <? SLOT_INDEX_NR then
              match arr !! from_idx with
              | Some (SSub a) => free_slots_loop fuel (a :: top :: stack) (<[length stack := from_idx + 1]> slot_indices)
              | _ => throw EUndef
              end
            else
              _ ← delete_array top;
              free_slots_loop fuel stack (<[length stack := from_idx]> slot_indices)
          else
            _ ← free_children 512 arr 0;
            _ ← delete_array top;
            free_slots_loop fuel stack slot_indices
      end
  end.

Definition free_slots : M Hash unit :=
  H ← get;
  match h_root H with
  | None => mret tt
  | Some head =>
      _ ← check (0 <? h_level_nr H);
      if h_level_nr H =? 1 then
        _ ← delete_array head; modify (set_root None)
      else free_slots_loop (2 * size (h_arrays H) + 1) [head] (replicate (Z.to_nat (h_level_nr H)) 0)
  end.

(** [~Hash], then the destructor of the list *)
Definition Hash_delete : M Hash unit :=
  _ ← free_slots; on_list (fun l => l ← Clear l; Ok (l, tt)).
End destroy.

End hash.
