(* ===== verification/SplitHashRep.v ===== *)
(** * The split-ordered hash table: bits, the radix tree of slots

    Bit reversal and the order it gives; what [PARENT_SLOT] computes; the tree
    of slot arrays as a map from slot indices to dummy nodes, with its
    invariant. *)

From S2P Require Import Prelude.
From S2P Require Import Simd.
From S2P Require Import MichaelList.
From S2P Require Import SplitHash.

(** ** Bit reversal *)

Lemma reverse_loop_S fuel n i j m : reverse_loop (S fuel) n i j m =
  if i =? 0 then m else reverse_loop fuel n (u32 (Z.shiftl i 1)) (Z.shiftr j 1) (if Z.land n i =? 0 then m else Z.lor m j).
Proof. done. Qed.

Lemma reverse_loop_spec d n m : (d <= 32)%nat ->
  forall b, 0 <= b ->
  Z.testbit (reverse_loop (S d) n (u32 (2 ^ (32 - Z.of_nat d))) (Z.shiftr 0x80000000 (32 - Z.of_nat d)) m) b
  = Z.testbit m b || ((b <? Z.of_nat d) && Z.testbit n (31 - b)).
Proof.
  revert m. induction d as [|d IH]; intros m Hd b Hb.
  - change (u32 (2 ^ (32 - Z.of_nat 0))) with 0. cbn [reverse_loop Z.eqb].
    replace (b <? Z.of_nat 0) with false by (symmetry; apply Z.ltb_ge; lia). by rewrite orb_false_r.
  - remember (32 - Z.of_nat (S d)) as k eqn:Ek. assert (0 <= k < 32) as Hk by lia.
    assert (2 ^ k < 2 ^ 32) by (apply Z.pow_lt_mono_r; lia).
    assert (u32 (2 ^ k) = 2 ^ k) as Eu by (apply Z.mod_small; lia).
    rewrite reverse_loop_S, Eu. replace (2 ^ k =? 0) with false by (symmetry; apply Z.eqb_neq; lia).
    replace (Z.shiftl (2 ^ k) 1) with (2 ^ (32 - Z.of_nat d)).
    2: { rewrite Z.shiftl_mul_pow2, <-Z.pow_add_r by lia. f_equal. lia. }
    rewrite Z.shiftr_shiftr by lia. replace (k + 1) with (32 - Z.of_nat d) by lia.
    rewrite IH by lia.
    assert ((Z.land n (2 ^ k) =? 0) = negb (Z.testbit n k)) as ->.
    { destruct (Z.testbit n k) eqn:En; simpl; [apply Z.eqb_neq|apply Z.eqb_eq].
      - intros H0. assert (Z.testbit (Z.land n (2 ^ k)) k = true) as H1; [|by rewrite H0, Z.bits_0 in H1].
        by rewrite Z.land_spec, En, Z.pow2_bits_true by lia.
      - apply Z.bits_inj'. intros j Hj. rewrite Z.land_spec, Z.bits_0, Z.pow2_bits_eqb by lia.
        destruct (Z.eqb_spec k j) as [->|]; [by rewrite En|by rewrite andb_false_r]. }
    assert (Z.shiftr 0x80000000 k = 2 ^ (31 - k)) as ->.
    { rewrite Z.shiftr_div_pow2 by lia. change 0x80000000 with (2 ^ 31). by rewrite <-Z.pow_sub_r by lia. }
    destruct (Z.eq_dec b (31 - k)) as [->|Hne].
    + replace (31 - k <? Z.of_nat d) with false by (symmetry; apply Z.ltb_ge; lia).
      replace (31 - k <? Z.of_nat (S d)) with true by (symmetry; apply Z.ltb_lt; lia).
      replace (31 - (31 - k)) with k by lia. rewrite orb_false_r. simpl.
      destruct (Z.testbit n k); simpl; [|by rewrite orb_false_r]. rewrite Z.lor_spec, Z.pow2_bits_true by lia. done.
    + replace (b <? Z.of_nat (S d)) with (b <? Z.of_nat d).
      2: { destruct (Z.ltb_spec b (Z.of_nat d)), (Z.ltb_spec b (Z.of_nat (S d))); try done; lia. }
      f_equal. destruct (Z.testbit n k); simpl; [|done]. rewrite Z.lor_spec, Z.pow2_bits_false by lia. by rewrite orb_false_r.
Qed.

Lemma reverse_bits_testbit n b : 0 <= b -> Z.testbit (reverse_bits n) b = (b <? 32) && Z.testbit n (31 - b).
Proof. intros Hb. pose proof (reverse_loop_spec 32 n 0 (le_n _) b Hb) as H. rewrite Z.bits_0 in H.
  assert (u32 (2 ^ (32 - Z.of_nat 32)) = 1) as E by reflexivity. rewrite E in H. exact H. Qed.

Lemma reverse_bits_nonneg n : 0 <= reverse_bits n.
Proof.
  assert (forall fuel i j m, 0 <= j -> 0 <= m -> 0 <= reverse_loop fuel n i j m) as H; [|exact (H 33%nat 1 0x80000000 0 ltac:(lia) ltac:(lia))].
  induction fuel as [|fuel IH]; intros i j m Hj Hm; simpl; [done|]. destruct (i =? 0); [done|].
  apply IH; [by apply Z.shiftr_nonneg|]. destruct (_ =? 0); [done|]. by apply Z.lor_nonneg.
Qed.

#[local] Opaque reverse_bits.

Lemma reverse_bits_land n k : reverse_bits (Z.land n k) = Z.land (reverse_bits n) (reverse_bits k).
Proof.
  apply Z.bits_inj'. intros b Hb. rewrite Z.land_spec, !reverse_bits_testbit, Z.land_spec by done.
  by destruct (b <? 32).
Qed.

Lemma reverse_bits_inv n : inu 32 n -> reverse_bits (reverse_bits n) = n.
Proof.
  intros Hn. apply Z.bits_inj'. intros b Hb. rewrite reverse_bits_testbit by done.
  destruct (Z.ltb_spec b 32) as [Hb32|Hb32]; simpl.
  - rewrite reverse_bits_testbit by lia. replace (31 - b <? 32) with true by (symmetry; apply Z.ltb_lt; lia).
    simpl. f_equal. lia.
  - symmetry. unfold inu in Hn. rewrite <-(Z.mod_small n (2 ^ 32)) by lia. apply Z.mod_pow2_bits_high. lia.
Qed.

Lemma add_disjoint a b : Z.land a b = 0 -> a + b = Z.lor a b.
Proof. intros H. by rewrite Z.add_nocarry_lxor, Z.lxor_lor. Qed.

Lemma land_le a b : 0 <= a -> Z.land a b <= a.
Proof.
  intros Ha. assert (Z.land (Z.ldiff a b) (Z.land a b) = 0) as Hd.
  { apply Z.bits_inj'. intros i Hi. rewrite !Z.land_spec, Z.ldiff_spec, Z.bits_0. by destruct (Z.testbit a i), (Z.testbit b i). }
  pose proof (add_disjoint _ _ Hd) as E. rewrite Z.lor_ldiff_and in E.
  pose proof (proj2 (Z.ldiff_nonneg a b) (or_introl Ha)). lia.
Qed.

(** a slot with a subset of the bits of a key has its dummy node in front *)
Lemma dummy_le i k : Z.land k i = i -> dummy_key i <= dummy_key k.
Proof. intros <-. unfold dummy_key. rewrite reverse_bits_land. apply land_le, reverse_bits_nonneg. Qed.

Lemma regular_key_eq k : 0 <= k < 2 ^ 31 -> regular_key k = dummy_key k + 1 /\ Z.even (dummy_key k) = true.
Proof.
  intros Hk. assert (Z.testbit (dummy_key k) 0 = false) as H0.
  { unfold dummy_key. rewrite reverse_bits_testbit by lia. change (0 <? 32) with true. rewrite andb_true_l, <-(Z.mod_small k (2 ^ 31)) by lia.
    apply Z.mod_pow2_bits_high. lia. }
  split; [|by rewrite <-Z.negb_odd, <-Z.bit0_odd, H0].
  assert (regular_key k = Z.lor (dummy_key k) 1) as -> by reflexivity. rewrite <-add_disjoint; [done|].
  apply Z.bits_inj'. intros i Hi. rewrite Z.land_spec, Z.bits_0. destruct (Z.eq_dec i 0) as [->|]; [by rewrite H0|].
  change 1 with (2 ^ 0). rewrite Z.pow2_bits_false by lia. apply andb_false_r.
Qed.

Lemma regular_key_inj k k' : 0 <= k < 2 ^ 31 -> 0 <= k' < 2 ^ 31 -> regular_key k = regular_key k' -> k = k'.
Proof.
  intros Hk Hk' E. destruct (regular_key_eq k Hk) as [E1 _], (regular_key_eq k' Hk') as [E2 _].
  assert (dummy_key k = dummy_key k') as E3 by lia. unfold dummy_key in E3.
  rewrite <-(reverse_bits_inv k), <-(reverse_bits_inv k'), E3; [done|unfold inu; lia..].
Qed.

(** ** The parent of a slot *)

Lemma clz_log2 n : 0 < n < 2 ^ 32 -> clz 32 n = Ok (31 - Z.log2 n).
Proof.
  intros Hn. rewrite (clz_unique 32 n (Z.log2 n)); [f_equal; lia|lia|apply Z.log2_nonneg|apply Z.bit_log2; lia|].
  intros j Hj. apply Z.bits_above_log2; lia.
Qed.

Section parent.
Context {W : WideShift} {HW : ShiftMod32 W}.

Lemma shl32_mod a count : 0 <= count -> shl32 a count = u32 (Z.shiftl a (count mod 32)).
Proof. intros Hc. unfold shl32. destruct (Z.ltb_spec count 32); [by rewrite Z.mod_small by lia|by apply HW]. Qed.

Lemma parent_low n : 0 < n < 2 ^ 28 -> PARENT_SLOT n = Ok 0.
Proof.
  intros Hn. unfold PARENT_SLOT, CLEAR_MSB, shift_count. rewrite clz_log2 by lia. cbn [mbind res_bind].
  assert (0 <= Z.log2 n < 28) as Hl by (split; [apply Z.log2_nonneg|apply Z.log2_lt_pow2; lia]).
  f_equal. rewrite shl32_mod by (apply wrapu_range; lia). unfold wrapu.
  replace ((4 - 1 - (31 - Z.log2 n)) mod 2 ^ 64 mod 32) with (Z.log2 n + 4).
  2: { rewrite Z.mod_mod_divide by (exists (2 ^ 59); done). replace (4 - 1 - (31 - Z.log2 n)) with (Z.log2 n + 4 + (-1) * 32) by lia.
       rewrite Z.mod_add, Z.mod_small by lia. done. }
  apply Z.bits_inj'. intros i Hi. rewrite Z.land_spec, Z.bits_0.
  destruct (Z.ltb_spec (Z.log2 n) i) as [Hh|Hh]; [rewrite Z.bits_above_log2 by lia; done|].
  rewrite Z.shiftl_1_l, Z.mod_small by (split; [lia|apply Z.pow_lt_mono_r; lia]).
  rewrite Z.pow2_bits_false by lia. apply andb_false_r.
Qed.

Lemma parent_slot_spec n : 0 < n < 2 ^ 31 -> exists p, PARENT_SLOT n = Ok p /\ 0 <= p < 8 /\ Z.land n p = p.
Proof.
  intros Hn. destruct (Z.ltb_spec n (2 ^ 28)) as [Hlt|Hge]; [exists 0; split_and!; [apply parent_low; lia|lia|lia|apply Z.land_0_r]|].
  unfold PARENT_SLOT, CLEAR_MSB, shift_count. rewrite clz_log2 by lia. cbn [mbind res_bind].
  assert (28 <= Z.log2 n < 31) as Hl by (split; [apply Z.log2_le_pow2; lia|apply Z.log2_lt_pow2; lia]).
  eexists. split; [reflexivity|]. split.
  - assert (Z.log2 n = 28 \/ Z.log2 n = 29 \/ Z.log2 n = 30) as [-> |[-> | ->]] by lia.
    all: match goal with |- context [shl32 ?a ?b] => let v := eval vm_compute in (u32 (Z.shiftl a b)) in change (shl32 a b) with v end.
    all: rewrite Z.land_comm; split; [apply Z.land_nonneg; lia|eapply Z.le_lt_trans; [apply land_le; lia|lia]].
  - by rewrite Z.land_assoc, Z.land_diag.
Qed.

End parent.

(** ** The radix tree of slot arrays *)

Definition child (m : gmap positive SlotArray) (c : positive) (i : Z) : option positive :=
  arr ← m !! c; v ← arr !! i; match v with SSub b => Some b | SMark _ => None end.

(** the array at a path of indices *)
Definition reach (m : gmap positive SlotArray) (root : positive) (p : list Z) : option positive :=
  foldl (fun o i => c ← o; child m c i) (Some root) p.

(** the dummy node a slot points to *)
Definition leaf (m : gmap positive SlotArray) (root : positive) (p : list Z) (j : Z) : option loc :=
  c ← reach m root p; arr ← m !! c; v ← arr !! j; match v with SMark l => Some l | SSub _ => None end.

Lemma reach_snoc m root p i : reach m root (p ++ [i]) = reach m root p ≫= fun c => child m c i.
Proof. unfold reach. by rewrite foldl_app. Qed.

(** [n] is the number of levels above the last one *)
Record slots_ok (n : nat) (m : gmap positive SlotArray) (root : positive) : Prop := {
  so_dom p c : reach m root p = Some c -> is_Some (m !! c);
  so_inj p q c : reach m root p = Some c -> reach m root q = Some c -> p = q;
  so_kind p c arr i v : reach m root p = Some c -> m !! c = Some arr -> arr !! i = Some v ->
    match v with SSub _ => (length p < n)%nat | SMark _ => length p = n end;
  so_index p c arr i : reach m root p = Some c -> m !! c = Some arr -> is_Some (arr !! i) -> 0 <= i < SLOT_INDEX_NR;
  so_live c : is_Some (m !! c) -> exists p, reach m root p = Some c
}.

Lemma reach_length n m root p c : slots_ok n m root -> reach m root p = Some c -> (length p <= n)%nat.
Proof.
  intros Hok. destruct p as [|i p _] using rev_ind; [simpl; lia|]. rewrite reach_snoc, length_app. simpl.
  destruct (reach m root p) as [c'|] eqn:E; [|done]. simpl. unfold child.
  destruct (m !! c') as [arr|] eqn:Em; [|done]. simpl. destruct (arr !! i) as [[b|]|] eqn:Ei; try done. simpl.
  intros [= <-]. pose proof (so_kind _ _ _ Hok _ _ _ _ _ E Em Ei) as H. simpl in H. lia.
Qed.

Section grow.
Context (n : nat) (m : gmap positive SlotArray) (root : positive) (Hok : slots_ok n m root).
Context (p : list Z) (a : positive) (arr : SlotArray) (Hp : reach m root p = Some a) (Ha : m !! a = Some arr).

(** a mark stored in an array of the last level *)
Section mark.
Context (j : Z) (l : loc) (Hn : length p = n) (Hj : 0 <= j < SLOT_INDEX_NR).
Abbreviation m' := (<[a := <[j := SMark l]> arr]> m).

Lemma mark_no_sub i b : arr !! i = Some (SSub b) -> False.
Proof. intros Hi. pose proof (so_kind _ _ _ Hok _ _ _ _ _ Hp Ha Hi) as H. simpl in H. lia. Qed.

Lemma mark_child c i : child m' c i = child m c i.
Proof.
  unfold child. destruct (decide (c = a)) as [->|]; [|by rewrite lookup_insert_ne].
  rewrite lookup_insert_eq, Ha. simpl. destruct (decide (i = j)) as [->|]; [|by rewrite lookup_insert_ne].
  rewrite lookup_insert_eq. simpl. destruct (arr !! j) as [[b|]|] eqn:E; try done. by destruct (mark_no_sub _ _ E).
Qed.

Lemma mark_reach q : reach m' root q = reach m root q.
Proof.
  induction q as [|i q IH] using rev_ind; [done|]. rewrite !reach_snoc, IH. destruct (reach m root q); [|done]. apply mark_child.
Qed.

Lemma mark_ok : slots_ok n m' root.
Proof.
  split.
  - intros q c. rewrite mark_reach. intros Hc. apply lookup_insert_is_Some'. right. by eapply so_dom.
  - intros q q' c. rewrite !mark_reach. by eapply so_inj.
  - intros q c arr' i v. rewrite mark_reach. intros Hc. destruct (decide (c = a)) as [->|].
    + rewrite lookup_insert_eq. intros [= <-]. rewrite (so_inj _ _ _ Hok _ _ _ Hc Hp) in *.
      destruct (decide (i = j)) as [->|]; [rewrite lookup_insert_eq; by intros [= <-]|].
      rewrite lookup_insert_ne by done. by eapply so_kind.
    + rewrite lookup_insert_ne by done. by eapply so_kind.
  - intros q c arr' i. rewrite mark_reach. intros Hc. destruct (decide (c = a)) as [->|].
    + rewrite lookup_insert_eq. intros [= <-]. rewrite lookup_insert_is_Some'. intros [<-|Hi]; [done|by eapply so_index].
    + rewrite lookup_insert_ne by done. by eapply so_index.
  - intros c. rewrite lookup_insert_is_Some'. intros Hc. destruct (so_live _ _ _ Hok c) as [q Hq]; [destruct Hc as [<-|]; [by rewrite Ha|done]|].
    exists q. by rewrite mark_reach.
Qed.

Lemma mark_leaf q i : leaf m' root q i = if decide (q = p /\ i = j) then Some l else leaf m root q i.
Proof.
  unfold leaf. rewrite mark_reach. destruct (decide (q = p /\ i = j)) as [[-> ->]|Hne].
  - rewrite Hp. simpl. rewrite lookup_insert_eq. simpl. by rewrite lookup_insert_eq.
  - destruct (reach m root q) as [c|] eqn:Hc; [|done]. simpl. destruct (decide (c = a)) as [->|]; [|by rewrite lookup_insert_ne].
    rewrite (so_inj _ _ _ Hok _ _ _ Hc Hp) in *. rewrite lookup_insert_eq, Ha. simpl. rewrite lookup_insert_ne; [done|naive_solver].
Qed.
End mark.

(** a new array in a null slot above the last level *)
Section sub.
Context (i : Z) (b : positive) (Hn : (length p < n)%nat) (Hir : 0 <= i < SLOT_INDEX_NR) (Hi : arr !! i = None) (Hb : m !! b = None).
Abbreviation m2 := (<[a := <[i := SSub b]> arr]> (<[b := ∅]> m)).

Lemma sub_ne : a <> b.
Proof. intros ->. by rewrite Ha in Hb. Qed.

Lemma sub_child c j : c <> b -> child m2 c j = if decide (c = a /\ j = i) then Some b else child m c j.
Proof.
  intros Hc. unfold child. destruct (decide (c = a)) as [->|]; [|rewrite decide_False by naive_solver; by rewrite !lookup_insert_ne].
  rewrite lookup_insert_eq, Ha. simpl. destruct (decide (j = i)) as [->|].
  - rewrite decide_True by done. by rewrite lookup_insert_eq.
  - rewrite decide_False by naive_solver. by rewrite lookup_insert_ne.
Qed.

Lemma sub_child_new j : child m2 b j = None.
Proof. unfold child. rewrite lookup_insert_ne by apply sub_ne. by rewrite lookup_insert_eq. Qed.

Lemma old_ne q c : reach m root q = Some c -> c <> b.
Proof. intros Hc ->. destruct (so_dom _ _ _ Hok _ _ Hc) as [x Hx]. by rewrite Hx in Hb. Qed.

Lemma sub_old : reach m root (p ++ [i]) = None.
Proof. rewrite reach_snoc, Hp. simpl. unfold child. rewrite Ha. simpl. by rewrite Hi. Qed.

Lemma sub_reach q : reach m2 root q = if decide (q = p ++ [i]) then Some b else reach m root q.
Proof.
  induction q as [|j q IH] using rev_ind; [rewrite decide_False by (by destruct p); done|].
  rewrite !reach_snoc, IH. destruct (decide (q = p ++ [i])) as [->|Hq].
  - simpl. rewrite sub_child_new, sub_old. rewrite decide_False; [done|].
    intros H%(f_equal length). rewrite !length_app in H. simpl in H. lia.
  - destruct (reach m root q) as [c|] eqn:Hc; simpl.
    + rewrite sub_child by (by eapply old_ne). destruct (decide (c = a)) as [->|Hca].
      * rewrite (so_inj _ _ _ Hok _ _ _ Hc Hp) in *. destruct (decide (j = i)) as [->|].
        -- by rewrite !decide_True.
        -- rewrite !decide_False; [done| |naive_solver]. intros [_ H]%app_inj_2; [|done]. naive_solver.
      * rewrite !decide_False; [done| |naive_solver]. intros [H _]%app_inj_2; [|done]. subst q. congruence.
    + rewrite decide_False; [done|]. intros [H _]%app_inj_2; [|done]. subst q. congruence.
Qed.

Lemma sub_lookup c : c <> a -> c <> b -> m2 !! c = m !! c.
Proof. intros. by rewrite !lookup_insert_ne. Qed.

Lemma sub_ok : slots_ok n m2 root.
Proof.
  split.
  - intros q c. rewrite sub_reach. intros Hc. apply lookup_insert_is_Some'. right. apply lookup_insert_is_Some'.
    destruct (decide _); [left; congruence|right; by eapply so_dom].
  - intros q q' c. rewrite !sub_reach. destruct (decide _) as [->|], (decide _) as [->|]; intros H1 H2; try done.
    + injection H1 as <-. by destruct (old_ne _ _ H2).
    + injection H2 as <-. by destruct (old_ne _ _ H1).
    + by eapply so_inj.
  - intros q c arr' j v. rewrite sub_reach. destruct (decide _) as [->|Hq].
    + intros [= <-]. rewrite lookup_insert_ne by apply sub_ne. rewrite lookup_insert_eq. by intros [= <-].
    + intros Hc. destruct (decide (c = a)) as [->|Hca].
      * rewrite (so_inj _ _ _ Hok _ _ _ Hc Hp) in *. rewrite lookup_insert_eq. intros [= <-].
        destruct (decide (j = i)) as [->|]; [rewrite lookup_insert_eq; by intros [= <-]|].
        rewrite lookup_insert_ne by done. by eapply so_kind.
      * rewrite sub_lookup by (done || by eapply old_ne). by eapply so_kind.
  - intros q c arr' j. rewrite sub_reach. destruct (decide _) as [->|Hq].
    + intros [= <-]. rewrite lookup_insert_ne by apply sub_ne. rewrite lookup_insert_eq. intros [= <-] [x Hx]. done.
    + intros Hc. destruct (decide (c = a)) as [->|Hca].
      * rewrite lookup_insert_eq. intros [= <-]. rewrite lookup_insert_is_Some'. intros [<-|Hj]; [done|by eapply so_index].
      * rewrite sub_lookup by (done || by eapply old_ne). by eapply so_index.
  - intros c Hc. destruct (decide (c = b)) as [->|Hcb]; [exists (p ++ [i]); rewrite sub_reach; by rewrite decide_True|].
    destruct (so_live _ _ _ Hok c) as [q Hq].
    { destruct (decide (c = a)) as [->|]; [by rewrite Ha|by rewrite sub_lookup in Hc]. }
    exists q. rewrite sub_reach. destruct (decide _) as [->|]; [|done]. by rewrite sub_old in Hq.
Qed.

Lemma sub_leaf q j : leaf m2 root q j = leaf m root q j.
Proof.
  unfold leaf. rewrite sub_reach. destruct (decide _) as [->|Hq].
  - rewrite sub_old. simpl. rewrite lookup_insert_ne by apply sub_ne. by rewrite lookup_insert_eq.
  - destruct (reach m root q) as [c|] eqn:Hc; [|done]. simpl. destruct (decide (c = a)) as [->|Hca].
    + rewrite lookup_insert_eq, Ha. simpl. destruct (decide (j = i)) as [->|]; [by rewrite lookup_insert_eq, Hi|by rewrite lookup_insert_ne].
    + rewrite sub_lookup by (done || by eapply old_ne). done.
Qed.
End sub.
End grow.

(** ** Slot indices as paths *)

Definition digit (k : nat) (i : Z) : Z := Z.land (Z.shiftr i (Z.of_nat k * SLOT_INDEX_SHIFT)) SLOT_INDEX_MASK.

Fixpoint digits (k : nat) (i : Z) : list Z :=
  match k with O => [] | S k' => digit k i :: digits k' i end.

Lemma digits_length k i : length (digits k i) = k.
Proof. induction k; simpl; auto. Qed.

Lemma digit_mod k i : digit k i = (i / 512 ^ Z.of_nat k) mod 512.
Proof.
  unfold digit. change SLOT_INDEX_MASK with (Z.ones 9). rewrite Z.land_ones, Z.shiftr_div_pow2 by (unfold SLOT_INDEX_SHIFT; lia).
  change 512 with (2 ^ 9). rewrite <-Z.pow_mul_r by lia. do 3 f_equal. unfold SLOT_INDEX_SHIFT. lia.
Qed.

Lemma digit_range k i : 0 <= digit k i < SLOT_INDEX_NR.
Proof. rewrite digit_mod. apply Z.mod_pos_bound. done. Qed.

Lemma mod_digit k i : i mod 512 ^ Z.of_nat (S k) = digit k i * 512 ^ Z.of_nat k + i mod 512 ^ Z.of_nat k.
Proof.
  rewrite digit_mod. replace (Z.of_nat (S k)) with (Z.of_nat k + 1) by lia. rewrite Z.pow_add_r, Z.pow_1_r by lia.
  assert (0 < 512 ^ Z.of_nat k) by (apply Z.pow_pos_nonneg; lia). rewrite Z.rem_mul_r by lia. lia.
Qed.

Lemma digits_inj k i i' : digits k i = digits k i' -> digit 0 i = digit 0 i' -> i mod 512 ^ Z.of_nat (S k) = i' mod 512 ^ Z.of_nat (S k).
Proof.
  intros Hd H0. assert (i mod 512 ^ Z.of_nat 1 = i' mod 512 ^ Z.of_nat 1) as H1 by (rewrite !mod_digit, H0; by rewrite !Z.mod_1_r).
  induction k as [|k IH]; [done|]. simpl in Hd. injection Hd as Hk Hd. rewrite (mod_digit (S k) i), (mod_digit (S k) i'), Hk. by rewrite (IH Hd).
Qed.
