(* ===== verification/SplitHashMap.v ===== *)
(** * The split-ordered hash table: the operations keep a map

    The invariant of [Hash] ([hash_ok]): slots point to the dummy nodes of
    their index, all entries are in one sorted list. Specifications of the
    operations against it. *)

From S2P Require Import Prelude.
From S2P Require Import MichaelList.
From S2P Require Import ListRep.
From S2P Require Import ListSeq.
From S2P Require Import SplitHash.
From S2P Require Import SplitHashRep.

#[local] Opaque reverse_bits.

Definition levels (H : Hash) : nat := Z.to_nat (h_level_nr H - 1).
Definition bound (H : Hash) : Z := Z.min (2 ^ 31) (512 ^ Z.of_nat (S (levels H))).

Lemma bound_eq H : bound H = Z.min (2 ^ 31) (512 ^ Z.of_nat (S (levels H))).
Proof. reflexivity. Qed.

Definition slot_val (H : Hash) (i : Z) : option loc :=
  r ← h_root H; leaf (h_arrays H) r (digits (levels H) i) (digit 0 i).

(** the [MarkPtrType**] of a slot *)
Definition at_slot (H : Hash) (i : Z) (p : positive * Z) : Prop :=
  exists r, h_root H = Some r /\ reach (h_arrays H) r (digits (levels H) i) = Some p.1 /\ p.2 = digit 0 i.

Definition tree_ok (H : Hash) : Prop :=
  exists r, h_root H = Some r /\ slots_ok (levels H) (h_arrays H) r.

Record hash_ok (H : Hash) (cs : list cell) : Prop := {
  ho_tree : tree_ok H;
  ho_list : list_rep (h_list H) cs;
  ho_marks i l : 0 <= i < bound H -> slot_val H i = Some l ->
    exists d, d ∈ cs /\ l = LNext (ce_ptr d) /\ ce_key d = dummy_key i;
  ho_nr : exists e, 1 <= e /\ h_slot_nr H = 2 ^ e /\ 2 ^ e <= bound H;
  ho_max : h_max_slot_nr H <= bound H
}.

(** only the arrays and the list may change *)
Record hash_step (H H' : Hash) : Prop := {
  hs_keeps : H' = set_arrays (h_arrays H') (set_list (h_list H') H);
  hs_at q p : at_slot H q p -> at_slot H' q p;
  hs_val i : 0 <= i < bound H -> is_Some (slot_val H i) -> is_Some (slot_val H' i)
}.

Lemma hash_step_bound H H' : hash_step H H' -> bound H' = bound H.
Proof. intros [-> _ _]. done. Qed.

Lemma hash_step_refl H : hash_step H H.
Proof. split; [by destruct H|done|done]. Qed.

Lemma hash_step_trans H1 H2 H3 : hash_step H1 H2 -> hash_step H2 H3 -> hash_step H1 H3.
Proof.
  intros S1 S2. split.
  - rewrite (hs_keeps _ _ S2), (hs_keeps _ _ S1). done.
  - intros q p Hq. by apply S2, S1.
  - intros i Hi Hv. apply (hs_val _ _ S2); [by rewrite (hash_step_bound _ _ S1)|by apply (hs_val _ _ S1)].
Qed.

Lemma bound_low H i : 0 <= i < 512 -> 0 <= i < bound H.
Proof.
  intros Hi. unfold bound. replace (Z.of_nat (S (levels H))) with (1 + Z.of_nat (levels H)) by lia.
  rewrite Z.pow_add_r by lia. assert (0 < 512 ^ Z.of_nat (levels H)) by (apply Z.pow_pos_nonneg; lia). lia.
Qed.

Lemma digit_0 i : Z.land i SLOT_INDEX_MASK = digit 0 i.
Proof. unfold digit. change (Z.of_nat 0 * SLOT_INDEX_SHIFT) with 0. by rewrite Z.shiftr_0_r. Qed.

Lemma digits_slot H i i' : 0 <= i < bound H -> 0 <= i' < bound H ->
  digits (levels H) i = digits (levels H) i' -> digit 0 i = digit 0 i' -> i = i'.
Proof.
  intros Hi Hi' Hd H0. pose proof (digits_inj _ _ _ Hd H0) as E. unfold bound in *. by rewrite !Z.mod_small in E by lia.
Qed.

Lemma at_slot_array H i p : tree_ok H -> at_slot H i p -> is_Some (h_arrays H !! p.1).
Proof. intros (r & Hr & Hok) (r' & Hr' & Hp & _). simplify_eq. by eapply so_dom. Qed.

Lemma wp_rd_array H a arr Q : h_arrays H !! a = Some arr -> Q arr H -> wp (rd_array a) Q H.
Proof. intros Ha HQ. unfold rd_array. wp_steps. eapply wp_lift; [by rewrite Ha|done]. Qed.

Lemma wp_rd_index H a arr k i Q : h_arrays H !! a = Some arr -> Q (arr !! digit k i) H -> wp (rd_slot (a, digit k i)) Q H.
Proof.
  intros Ha HQ. unfold rd_slot. wp_step. eapply wp_rd_array; [done|]. simpl.
  destruct (digit_range k i) as [H1%Z.leb_le H2%Z.ltb_lt]. by rewrite H1, H2.
Qed.

Lemma wp_wr_index H a arr k i v Q : h_arrays H !! a = Some arr ->
  Q tt (set_arrays (<[a := <[digit k i := v]> arr]> (h_arrays H)) H) -> wp (wr_slot (a, digit k i) v) Q H.
Proof.
  intros Ha HQ. unfold wr_slot. wp_step. eapply wp_rd_array; [done|]. simpl.
  destruct (digit_range k i) as [H1%Z.leb_le H2%Z.ltb_lt]. rewrite H1, H2. done.
Qed.

(** a slot holds a pointer to a dummy node or null *)
Lemma wp_rd_at H i p Q : tree_ok H -> at_slot H i p -> Q (SMark <$> slot_val H i) H -> wp (rd_slot p) Q H.
Proof.
  intros Ht Hp HQ. destruct (at_slot_array _ _ _ Ht Hp) as [arr Ha]. destruct Ht as (r & Hr & Hok), Hp as (r' & Hr' & Hp & Ej).
  destruct p as [a j]. simpl in *. simplify_eq. eapply wp_rd_index; [done|].
  replace (arr !! digit 0 i) with (SMark <$> slot_val H i); [done|].
  unfold slot_val, leaf. rewrite Hr. simpl. rewrite Hp. simpl. rewrite Ha. simpl.
  destruct (arr !! digit 0 i) as [[b|l]|] eqn:E; [|done|done].
  pose proof (so_kind _ _ _ Hok _ _ _ _ _ Hp Ha E) as Hk. simpl in Hk. rewrite digits_length in Hk. lia.
Qed.

Lemma set_marks H i p l : tree_ok H -> at_slot H i p -> 0 <= i < bound H -> exists m,
  let H' := set_arrays m H in
  (forall Q, Q tt H' -> wp (wr_slot p (SMark l)) Q H) /\ tree_ok H' /\ hash_step H H' /\
  (forall i', 0 <= i' < bound H -> slot_val H' i' = if decide (i' = i) then Some l else slot_val H i').
Proof.
  intros Ht Hp Hi. destruct (at_slot_array _ _ _ Ht Hp) as [arr Ha]. destruct Ht as (r & Hr & Hok), Hp as (r' & Hr' & Hp & Ej).
  destruct p as [a j]. simpl in *. simplify_eq. exists (<[a := <[digit 0 i := SMark l]> arr]> (h_arrays H)). set (H' := set_arrays _ H).
  pose proof (digits_length (levels H) i) as Hn.
  assert (forall i', 0 <= i' < bound H -> slot_val H' i' = if decide (i' = i) then Some l else slot_val H i') as Hv.
  { intros i' Hi'. unfold slot_val, H'. simpl. rewrite Hr. simpl.
    change (levels (set_arrays _ H)) with (levels H).
    rewrite (mark_leaf _ _ _ Hok _ _ _ Hp Ha (digit 0 i) l Hn) by apply digit_range. destruct (decide (i' = i)) as [->|Hne]; [by rewrite decide_True|].
    rewrite decide_False; [done|]. intros [E1 E2]. by apply Hne, (digits_slot H). }
  split_and!.
  - intros Q HQ. by eapply wp_wr_index.
  - exists r. split; [done|]. apply (mark_ok _ _ _ Hok (digits (levels H) i)); [done|done|done|apply digit_range].
  - split; [done|..].
    + intros q p (r' & Hr' & Hq & Ej). simplify_eq. exists r. split_and!; [done| |done]. unfold H'. simpl.
      change (levels (set_arrays _ H)) with (levels H). by rewrite (mark_reach _ _ _ Hok _ _ _ Hp Ha).
    + intros i' Hi' Hs. rewrite Hv by done. by destruct (decide _).
  - done.
Qed.

Lemma set_arrays_id H : set_arrays (h_arrays H) H = H.
Proof. by destruct H. Qed.

Section ops.
Context (alloc : gset positive -> positive) (alloc_fresh : forall X, alloc X ∉ X) {W : WideShift} {HW : ShiftMod32 W}.

(** ** The slots *)

Lemma wp_create_loop n r i k Q : forall H p cur,
  slots_ok n (h_arrays H) r -> reach (h_arrays H) r p = Some cur -> (length p + k)%nat = n ->
  (forall m' c, slots_ok n m' r -> (forall q x, reach (h_arrays H) r q = Some x -> reach m' r q = Some x) ->
     (forall q j, leaf m' r q j = leaf (h_arrays H) r q j) -> reach m' r (p ++ digits k i) = Some c ->
     Q (Some (c, digit 0 i)) (set_arrays m' H)) ->
  wp (get_slot_loop alloc true i k cur) Q H.
Proof.
  induction k as [|k IH]; intros H p cur Hok Hp Hn HQ.
  - cbn [get_slot_loop]. rewrite digit_0. wp_step. rewrite <-(set_arrays_id H). apply HQ; try done. by rewrite app_nil_r.
  - destruct (so_dom _ _ _ Hok _ _ Hp) as [arr Ha]. cbn [get_slot_loop]. fold (digit (S k) i).
    wp_step. eapply wp_rd_index; [done|].
    assert (forall H' b, slots_ok n (h_arrays H') r -> H' = set_arrays (h_arrays H') H ->
              (forall q x, reach (h_arrays H) r q = Some x -> reach (h_arrays H') r q = Some x) ->
              (forall q j, leaf (h_arrays H') r q j = leaf (h_arrays H) r q j) ->
              reach (h_arrays H') r (p ++ [digit (S k) i]) = Some b -> wp (get_slot_loop alloc true i k b) Q H') as Hnext.
    { intros H' b Hok' EH Hm Hl Hb. eapply (IH H' (p ++ [digit (S k) i])); [done|done|rewrite length_app; simpl; lia|].
      intros m' c Hok2 Hm2 Hl2 Hc. rewrite EH. apply HQ; [done|auto| |].
      - intros q j. by rewrite Hl2.
      - by rewrite <-app_assoc in Hc. }
    destruct (arr !! digit (S k) i) as [[b|l]|] eqn:Ei.
    + apply Hnext; try done; [by rewrite set_arrays_id|]. rewrite reach_snoc, Hp. simpl. unfold child. rewrite Ha. simpl. by rewrite Ei.
    + pose proof (so_kind _ _ _ Hok _ _ _ _ _ Hp Ha Ei) as Hk. simpl in Hk. lia.
    + simpl. unfold new_array. wp_steps. set (b := alloc _).
      assert (h_arrays H !! b = None) as Hb by (apply not_elem_of_dom, alloc_fresh).
      assert (length p < n)%nat as Hlt by lia.
      eapply (wp_wr_index _ cur arr); [simpl; rewrite lookup_insert_ne; [done|]; intros E; rewrite E in Hb; congruence|]. simpl.
      pose proof (digit_range (S k) i) as Hir. apply Hnext; simpl; [by apply (sub_ok _ _ _ Hok p)|done|..].
      * intros q x Hq. rewrite (sub_reach _ _ _ Hok p cur arr Hp Ha (digit (S k) i) b Hlt Hir Ei Hb).
        destruct (decide _) as [->|]; [|done]. by rewrite (sub_old _ _ p cur arr Hp Ha _ Ei) in Hq.
      * intros q j. by apply (sub_leaf n _ _ Hok p).
      * rewrite (sub_reach _ _ _ Hok p cur arr Hp Ha (digit (S k) i) b Hlt Hir Ei Hb). by rewrite decide_True.
Qed.

Lemma wp_create H cs i Q : hash_ok H cs ->
  (forall H' p, hash_ok H' cs -> hash_step H H' -> (forall j, slot_val H' j = slot_val H j) -> h_list H' = h_list H ->
     at_slot H' i p -> Q p H') -> wp (get_or_create_slot alloc i) Q H.
Proof.
  intros Hok HQ. destruct (ho_tree _ _ Hok) as (r & Hr & Hs). unfold get_or_create_slot, get_slot. wp_steps.
  eapply wp_lift; [by rewrite Hr|]. fold (levels H).
  eapply (wp_create_loop (levels H) r i (levels H) _ H []); [done|done|done|].
  intros m' c Hs' Hm Hl Hc. eapply wp_lift; [done|].
  assert (forall j, slot_val (set_arrays m' H) j = slot_val H j) as Hv.
  { intros j. unfold slot_val. simpl. rewrite Hr. simpl. apply Hl. }
  apply HQ; [| |done|done|by exists r].
  - destruct Hok as [H1 H2 H3 H4 H5]. split; try done; [by exists r|]. intros j l Hj. rewrite Hv. by apply H3.
  - split; [done| |].
    + intros q p (r' & Hr' & Hq & Ej). simplify_eq. exists r. split_and!; [done|by apply Hm|done].
    + intros j _. by rewrite Hv.
Qed.

(** without creation the state does not change; a null result is an empty slot *)
Lemma wp_exists_loop n r i k (Q : option (positive * Z) -> Hash -> Prop) : forall H p cur,
  slots_ok n (h_arrays H) r -> reach (h_arrays H) r p = Some cur -> (length p + k)%nat = n ->
  (reach (h_arrays H) r (p ++ digits k i) = None -> Q None H) ->
  (forall c, reach (h_arrays H) r (p ++ digits k i) = Some c -> Q (Some (c, digit 0 i)) H) ->
  wp (get_slot_loop alloc false i k cur) Q H.
Proof.
  induction k as [|k IH]; intros H p cur Hok Hp Hn H0 H1.
  - cbn [get_slot_loop]. rewrite digit_0. wp_step. apply H1. by rewrite app_nil_r.
  - destruct (so_dom _ _ _ Hok _ _ Hp) as [arr Ha]. cbn [get_slot_loop]. fold (digit (S k) i).
    wp_step. eapply wp_rd_index; [done|].
    change (p ++ digits (S k) i) with (p ++ [digit (S k) i] ++ digits k i) in *. rewrite app_assoc in *.
    assert (reach (h_arrays H) r (p ++ [digit (S k) i]) = arr !! digit (S k) i ≫= fun v => match v with SSub b => Some b | SMark _ => None end) as Hr.
    { rewrite reach_snoc, Hp. simpl. unfold child. by rewrite Ha. }
    destruct (arr !! digit (S k) i) as [[b|l]|] eqn:Ei.
    + eapply IH; [done|exact Hr|rewrite length_app; simpl; lia|done|done].
    + pose proof (so_kind _ _ _ Hok _ _ _ _ _ Hp Ha Ei) as Hk. simpl in Hk. lia.
    + simpl. wp_step. apply H0. unfold reach in *. rewrite foldl_app, Hr. simpl. clear. by induction (digits k i).
Qed.

Lemma wp_exists H cs i Q : hash_ok H cs -> (slot_val H i = None -> Q None H) ->
  (forall p, at_slot H i p -> Q (Some p) H) -> wp (get_slot_if_exists alloc i) Q H.
Proof.
  intros Hok H0 H1. destruct (ho_tree _ _ Hok) as (r & Hr & Hs). unfold get_slot_if_exists, get_slot. wp_steps.
  eapply wp_lift; [by rewrite Hr|]. fold (levels H).
  eapply (wp_exists_loop (levels H) r i (levels H) _ H []); [done|done|done|..]; simpl.
  - intros E. apply H0. unfold slot_val, leaf. rewrite Hr. simpl. by rewrite E.
  - intros c Hc. apply H1. by exists r.
Qed.

(** ** The list of entries *)

Definition regular_same (cs cs' : list cell) : Prop :=
  forall k, Z.odd k = true -> amap cs' !! k = amap cs !! k.

Lemma wp_on_list {A} (f : heap -> res (heap * A)) H l a Q :
  f (h_list H) = Ok (l, a) -> Q a (set_list l H) -> wp (on_list f) Q H.
Proof. intros Hf HQ. unfold on_list. wp_steps. eapply wp_lift; [exact Hf|]. done. Qed.

(** a change of the list that keeps the cells slots point to *)
Lemma set_list_ok H cs l cs' : hash_ok H cs -> list_rep l cs' -> cs ⊆ cs' -> hash_ok (set_list l H) cs'.
Proof.
  intros [H1 H2 H3 H4 H5] Hl Hsub. split; [done|done| |done|done]. intros i l' Hi Hv. destruct (H3 i l' Hi Hv) as (d & Hd & ?).
  exists d. split; [by apply Hsub|done].
Qed.

Lemma set_list_step H l : hash_step H (set_list l H).
Proof. by split. Qed.

(** [new NodeType] and an insertion; the caller deletes the node when its key
    was there already *)
Lemma insert_new_spec {A} (k : ptr -> result -> M Hash A) H cs hd key v Q : hash_ok H cs -> head_ok cs hd key ->
  (forall node l cs', amap cs !! key = None -> hash_ok (set_list l H) cs' -> mkCell node key v ∈ cs' ->
     amap cs' = <[key := v]> (amap cs) -> cs ⊆ cs' -> wp (k node (RInsert true None)) Q (set_list l H)) ->
  (forall node d l l', d ∈ cs -> ce_key d = key -> is_Some (amap cs !! key) -> free_node l node = Ok l' ->
     hash_ok (set_list l' H) cs -> wp (k node (RInsert false (Some (ce_ptr d)))) Q (set_list l H)) ->
  wp (node ← alloc_node alloc key v; r ← on_list (fun l => Insert l hd node); k node r) Q H.
Proof.
  intros Hok Hh Hnew Hold. pose proof (ho_list _ _ Hok) as HR. unfold alloc_node. wp_step. eapply wp_on_list; [reflexivity|].
  set (a := alloc _). assert (h_nodes (h_list H) !! a = None) as Ha by (apply not_elem_of_dom, alloc_fresh).
  assert (a ∉ ce_ptr <$> cs) as Hni.
  { intros (d & -> & Hd)%list_elem_of_fmap. destruct (linked_dom _ _ _ (lr_linked _ _ HR) d Hd) as [x Hx]. congruence. }
  assert (list_rep (new_node (h_list H) a key v) cs) as HR' by by apply private_frame.
  destruct (insert_spec (new_node (h_list H) a key v) cs hd a key v null_ptr HR' Hh) as (h' & Hins); [simpl; by rewrite lookup_insert_eq|done|].
  destruct (amap cs !! key) as [v'|] eqn:Ek.
  - destruct Hins as (-> & d & Hd & Hk & Hi). wp_step. eapply wp_on_list; [simpl; exact Hi|].
    eapply (Hold a d _ (h_list H)); [done|done|done| |].
    + simpl. unfold free_node, rd_node. simpl. rewrite lookup_insert_eq. simpl. rewrite delete_insert_id by done. by destruct (h_list H).
    + eapply set_list_ok; done.
  - destruct Hins as (Hi & cs1 & cs2 & -> & HR2 & Hm). wp_step. eapply wp_on_list; [simpl; exact Hi|].
    apply (Hnew a h' (cs1 ++ mkCell a key v :: cs2)); [done| |set_solver|done|set_solver].
    eapply set_list_ok; [exact Hok|done|set_solver].
Qed.

Lemma dummy_even i : 0 <= i < 2 ^ 31 -> Z.odd (dummy_key i) = false.
Proof. intros Hi. destruct (regular_key_eq i Hi) as [_ E]. by rewrite <-Z.negb_even, E. Qed.

Lemma in_bound31 H i : 0 <= i < bound H -> 0 <= i < 2 ^ 31.
Proof. unfold bound. lia. Qed.

(** a slot that is filled with the dummy node of its index *)
Lemma mark_slot H H0 cs i p d : hash_ok H cs -> hash_step H0 H -> at_slot H i p -> 0 <= i < bound H -> d ∈ cs -> ce_key d = dummy_key i ->
  forall Q, (forall H', hash_ok H' cs -> hash_step H0 H' -> is_Some (slot_val H' i) -> Q tt H') ->
  wp (wr_slot p (SMark (LNext (ce_ptr d)))) Q H.
Proof.
  intros Hok Hst Hp Hi Hd Hk Q HQ. destruct (set_marks H i p (LNext (ce_ptr d)) (ho_tree _ _ Hok) Hp Hi) as (m & Hw & Ht & Hs & Hv).
  apply Hw, HQ; [|by eapply hash_step_trans|rewrite Hv by done; by rewrite decide_True].
  destruct Hok as [H1 H2 H3 H4 H5]. split; [done|done| |done|done]. intros i' l Hi'. change (bound (set_arrays m H)) with (bound H) in Hi'.
  rewrite Hv by done. destruct (decide (i' = i)) as [->|_]; [|exact (H3 i' l Hi')].
  intros [= <-]. exists d. split_and!; [exact Hd|reflexivity|exact Hk].
Qed.

Lemma wp_fill missing : forall H cs Q, hash_ok H cs -> (forall i, i ∈ missing -> 0 <= i < bound H) ->
  (forall H' cs', hash_ok H' cs' -> hash_step H H' -> regular_same cs cs' ->
     (forall i, i ∈ missing -> is_Some (slot_val H' i)) -> Q tt H') ->
  wp (fill_missing alloc missing) Q H.
Proof.
  induction missing as [|i missing IH]; intros H cs Q Hok Hin HQ.
  { cbn [fill_missing]. wp_step. apply (HQ H cs); [done|apply hash_step_refl|done|by intros i ?%elem_of_nil]. }
  assert (0 <= i < bound H) as Hi by (apply Hin; by left).
  (* the rest, once the dummy node is in the list *)
  assert (forall d H1 cs1, hash_ok H1 cs1 -> hash_step H H1 -> regular_same cs cs1 -> d ∈ cs1 -> ce_key d = dummy_key i ->
    wp (missing_slot_ptr ← get_or_create_slot alloc i;
        _ ← wr_slot missing_slot_ptr (SMark (LNext (ce_ptr d))); fill_missing alloc missing) Q H1) as Hrest.
  { intros d H1 cs1 Hok1 Hs1 Hr1 Hd Hk. wp_step. eapply wp_create; [exact Hok1|]. intros H2 p Hok2 Hs2 _ _ Hp. wp_step.
    pose proof (hash_step_bound _ _ (hash_step_trans _ _ _ Hs1 Hs2)) as Eb.
    eapply (mark_slot H2 H cs1 i p d); [done|by eapply hash_step_trans|done|by rewrite Eb|done|done|].
    intros H3 Hok3 Hs3 Hv3. pose proof (hash_step_bound _ _ Hs3) as Eb3.
    eapply (IH H3 cs1); [done|intros j Hj; rewrite Eb3; apply Hin; by right|].
    intros H4 cs4 Hok4 Hs4 Hr4 Hall. apply (HQ H4 cs4); [done|by eapply hash_step_trans| |].
    - intros k Hk'. by rewrite Hr4, Hr1.
    - intros j [->|Hj]%elem_of_cons; [|by apply Hall]. apply (hs_val _ _ Hs4); [by rewrite Eb3|done]. }
  cbn [fill_missing]. eapply (insert_new_spec _ H cs); [done|by left|..].
  - intros node l cs' Hno Hok' Hnode Hm Hsub. apply wp_bind, wp_ret.
    apply (Hrest (mkCell node (dummy_key i) 0) (set_list l H) cs'); [exact Hok'|apply set_list_step| |exact Hnode|reflexivity].
    intros k Hk. rewrite Hm, lookup_insert_ne; [done|]. intros <-. rewrite dummy_even in Hk by (by eapply in_bound31). done.
  - intros node d l l' Hd Hk _ Hfree Hok'. do 2 wp_step. eapply wp_on_list; [simpl; by rewrite Hfree|]. eapply wp_lift; [reflexivity|].
    apply (Hrest d (set_list l' H) cs Hok' (set_list_step _ _) (fun k _ => eq_refl) Hd Hk).
Qed.

(** ** Slots that are made when they are first used *)

Lemma wp_slot_head H cs i p Q : hash_ok H cs -> at_slot H i p -> 0 <= i < bound H -> is_Some (slot_val H i) ->
  (forall d, d ∈ cs -> ce_key d = dummy_key i -> Q (LNext (ce_ptr d)) H) -> wp (slot_head p) Q H.
Proof.
  intros Hok Hp Hi [l Hl] HQ. unfold slot_head. wp_step. eapply wp_rd_at; [apply Hok|done|]. rewrite Hl. simpl. wp_step.
  destruct (ho_marks _ _ Hok i l Hi Hl) as (d & Hd & -> & Hk). by apply HQ.
Qed.

(** [slot_ptr] ends as the slot of [i] or of an ancestor [q] of it *)
Lemma wp_collect H cs i p0 p Q : hash_ok H cs -> at_slot H i p -> 0 <= i < bound H -> 0 <= p0 < 8 -> Z.land i p0 = p0 ->
  (forall H' q p' missing, hash_ok H' cs -> hash_step H H' -> at_slot H' q p' -> 0 <= q < bound H -> Z.land i q = q ->
     (forall j, j ∈ missing -> 0 <= j < bound H) -> q ∈ missing \/ is_Some (slot_val H' q) -> Q (p', missing) H') ->
  wp (collect_missing alloc 33 p0 p [i]) Q H.
Proof.
  intros Hok Hp Hi Hp0 Hsub HQ. remember 32%nat as fuel eqn:Ef. cbn [collect_missing].
  destruct (Z.ltb_spec 0 p0) as [Hpos|Hz].
  2: { wp_step. apply (HQ H i); [done|apply hash_step_refl|done|done|apply Z.land_diag| |left; by left].
       by intros j ->%list_elem_of_singleton. }
  assert (0 <= p0 < bound H) as Hb by (apply bound_low; lia).
  wp_step. eapply wp_create; [exact Hok|]. intros H1 p1 Hok1 Hs1 Hv1 _ Hp1. wp_step. eapply wp_rd_at; [apply Hok1|done|].
  destruct (slot_val H1 p0) as [l|] eqn:Hl; simpl.
  - wp_step. apply (HQ H1 p0); [done|done|done|done|done| |right; by exists l]. by intros j ->%list_elem_of_singleton.
  - wp_step. eapply wp_lift; [apply parent_low; lia|]. subst fuel. cbn [collect_missing]. simpl. wp_step.
    apply (HQ H1 p0); [done|done|done|done|done| |left; by left].
    by intros j [->| ->%list_elem_of_singleton]%elem_of_cons.
Qed.

Lemma wp_ensure H cs i Q : hash_ok H cs -> is_Some (slot_val H 0) -> 0 <= i < bound H ->
  (forall H' cs' d q, hash_ok H' cs' -> hash_step H H' -> regular_same cs cs' -> d ∈ cs' -> ce_key d = dummy_key q ->
     Z.land i q = q -> Q (LNext (ce_ptr d)) H') ->
  wp (ensure_slot_exists alloc i) Q H.
Proof.
  intros Hok H0 Hi HQ. unfold ensure_slot_exists. wp_step. eapply wp_create; [exact Hok|].
  intros H1 p Hok1 Hs1 Hv1 _ Hp. pose proof (hash_step_bound _ _ Hs1) as Eb. wp_step. eapply wp_rd_at; [apply Hok1|done|].
  destruct (slot_val H1 i) as [l|] eqn:Hl.
  - eapply (wp_slot_head H1 cs i); [done|done|by rewrite Eb|by rewrite Hl|].
    intros d Hd Hk. exact (HQ H1 cs d i Hok1 Hs1 (fun k _ => eq_refl) Hd Hk (Z.land_diag i)).
  - simpl. wp_step. rewrite Hv1 in Hl. assert (0 < i < 2 ^ 31) as Hpos.
    { assert (i <> 0) by (intros ->; destruct H0; congruence). apply in_bound31 in Hi. lia. }
    destruct (parent_slot_spec i Hpos) as (p0 & Hpar & Hp0 & Hsub). eapply wp_lift; [exact Hpar|]. wp_step.
    eapply (wp_collect H1 cs i p0 p); [done|done|by rewrite Eb|done|done|].
    intros H2 q p2 missing Hok2 Hs2 Hp2 Hq Hiq Hmiss Hset. simpl. wp_step.
    pose proof (hash_step_bound _ _ Hs2) as Eb2.
    eapply (wp_fill missing H2 cs); [done|by rewrite Eb2|].
    intros H3 cs3 Hok3 Hs3 Hr3 Hall. pose proof (hash_step_bound _ _ Hs3) as Eb3.
    eapply (wp_slot_head H3 cs3 q); [done|by apply (hs_at _ _ Hs3)|by rewrite Eb3, Eb2| |].
    + destruct Hset as [Hm|Hm]; [by apply Hall|apply (hs_val _ _ Hs3); [by rewrite Eb2|done]].
    + intros d Hd Hk. refine (HQ H3 cs3 d q Hok3 _ Hr3 Hd Hk Hiq).
      eapply hash_step_trans; [done|]. by eapply hash_step_trans.
Qed.

(** ** The abstract map *)

Record hash_rep (H : Hash) (m : gmap Z Z) : Prop := {
  hr_cells : exists cs, hash_ok H cs /\ forall k, 0 <= k <= HASH_KEY_LIMIT -> amap cs !! regular_key k = m !! k;
  hr_zero : is_Some (slot_val H 0);
  hr_keys k : is_Some (m !! k) -> 0 <= k <= HASH_KEY_LIMIT;
  hr_size : h_size H = u32 (Z.of_nat (size m))
}.

Lemma key_limit k : 0 <= k <= HASH_KEY_LIMIT <-> 0 <= k < 2 ^ 31.
Proof. change HASH_KEY_LIMIT with (2 ^ 31 - 1). lia. Qed.

(** the slot of a key *)
Lemma slot_idx H cs key : hash_ok H cs -> 0 <= key < 2 ^ 31 ->
  exists i, get_slot_idx key H = Ok (i, H) /\ 0 <= i < bound H /\ (forall q, Z.land i q = q -> Z.land key q = q).
Proof.
  intros Hok Hk. destruct (ho_nr _ _ Hok) as (e & He & En & Hb). exists (Z.land key (Z.ones e)).
  assert (0 < 2 ^ e) by (apply Z.pow_pos_nonneg; lia).
  assert (0 <= Z.land key (Z.ones e) < 2 ^ e) as Hr by (rewrite Z.land_ones by lia; by apply Z.mod_pos_bound).
  split_and!; [|lia|lia|].
  - assert (2 ^ e <= 2 ^ 31) by (unfold bound in Hb; lia). unfold get_slot_idx, mbind, M_bind, get, mret, M_ret. rewrite En.
    assert (u64 (2 ^ e - 1) = Z.ones e) as -> by (rewrite Z.ones_equiv, <-Z.sub_1_r; apply Z.mod_small; lia).
    do 2 f_equal. apply Z.mod_small. lia.
  - intros q <-. rewrite <-!Z.land_assoc, (Z.land_assoc key key). by rewrite Z.land_diag.
Qed.

Lemma head_before cs d q key : d ∈ cs -> ce_key d = dummy_key q -> Z.land key q = q -> 0 <= key < 2 ^ 31 ->
  head_ok cs (LNext (ce_ptr d)) (regular_key key).
Proof.
  intros Hd Hk Hq Hr. right. exists d. split_and!; [done|done|]. rewrite Hk, (proj1 (regular_key_eq key Hr)).
  pose proof (dummy_le q key Hq). lia.
Qed.

Lemma regular_odd k : 0 <= k < 2 ^ 31 -> Z.odd (regular_key k) = true.
Proof. intros Hk. destruct (regular_key_eq k Hk) as [-> E]. by rewrite Z.odd_add, <-Z.negb_even, E. Qed.

Lemma resize_spec H cs Q : hash_ok H cs -> is_Some (slot_val H 0) ->
  (forall n, hash_ok (set_slot_nr n H) cs -> Q tt (set_slot_nr n H)) -> wp maybe_resize Q H.
Proof.
  intros Hok H0 HQ. destruct (ho_nr _ _ Hok) as (e & He & En & Hb). assert (0 < 2 ^ e) by (apply Z.pow_pos_nonneg; lia).
  assert (H = set_slot_nr (h_slot_nr H) H) as EH by by destruct H.
  unfold maybe_resize. wp_steps. rewrite En at 1. destruct (Z.eqb_spec (2 ^ e) 0); [lia|].
  destruct (_ <? _); simpl; [|wp_step; rewrite EH; apply HQ; by rewrite <-EH].
  destruct (Z.ltb_spec (u64 (Z.shiftl (h_slot_nr H) 1)) (h_max_slot_nr H)) as [Hlt|]; simpl; [|wp_step; rewrite EH; apply HQ; by rewrite <-EH].
  wp_step. apply HQ. destruct Hok as [G1 G2 G3 G4 G5]. split; [done|done|done| |done].
  exists (e + 1). assert (u64 (Z.shiftl (h_slot_nr H) 1) = 2 ^ (e + 1)) as E2.
  { rewrite Z.shiftl_mul_pow2, En, Z.pow_add_r by lia. apply Z.mod_small. unfold bound in Hb. lia. }
  split_and!; [lia|done|]. rewrite E2 in Hlt. change (bound (set_slot_nr _ H)) with (bound H). lia.
Qed.
End ops.
