(* ===== verification/SplitHashTheorems.v ===== *)
(** * Theorems on the split-ordered hash table *)

From S2P Require Import Prelude.
From S2P Require Import MichaelList.
From S2P Require Import ListRep.
From S2P Require Import ListSeq.
From S2P Require Import SplitHash.
From S2P Require Import SplitHashRep.
From S2P Require Import SplitHashMap.

#[local] Opaque reverse_bits dummy_key regular_key bound.

Section ops.
Context (alloc : gset positive -> positive) (alloc_fresh : forall X, alloc X ∉ X) {W : WideShift} {HW : ShiftMod32 W}.

Lemma zero_kept H H' cs : hash_ok H cs -> hash_step H H' -> is_Some (slot_val H 0) -> is_Some (slot_val H' 0).
Proof. intros Hok Hs H0. apply (hs_val _ _ Hs); [apply bound_low; lia|done]. Qed.

Lemma put_spec H m k v : hash_rep H m -> 0 <= k <= HASH_KEY_LIMIT ->
  wp (Put alloc k v) (fun b H' => b = bool_decide (m !! k = None) /\ h_level_nr H' = h_level_nr H /\
    hash_rep H' (if decide (m !! k = None) then <[k := v]> m else m)) H.
Proof.
  intros [(cs & Hok & Hm) H0 Hkeys Hsize] Hk. pose proof (proj1 (key_limit k) Hk) as Hk'. unfold Put.
  wp_step. apply wp_check; [apply Z.leb_le, Hk|]. wp_step. eapply resize_spec; [exact Hok|done|]. intros n Hok1. set (H1 := set_slot_nr n H).
  wp_step. destruct (slot_idx H1 cs k Hok1 Hk') as (i & Hidx & Hi & Hsub). eapply wp_intro; [exact Hidx|]. wp_step.
  eapply (wp_ensure alloc alloc_fresh H1 cs); [done|done|done|]. intros H2 cs2 d q Hok2 Hs2 Hr2 Hd Hdk Hq.
  assert (is_Some (slot_val H2 0)) as Hz2 by (by eapply (zero_kept H1)).
  assert (forall k', 0 <= k' <= HASH_KEY_LIMIT -> amap cs2 !! regular_key k' = m !! k') as Hm2.
  { intros k' Hk2. rewrite Hr2 by (by apply regular_odd, key_limit). by apply Hm. }
  assert (h_level_nr H2 = h_level_nr H) as Hlv by (by rewrite (hs_keeps _ _ Hs2)).
  assert (h_size H2 = h_size H) as Hsz by (by rewrite (hs_keeps _ _ Hs2)).
  eapply (insert_new_spec alloc alloc_fresh _ H2 cs2); [done|by eapply head_before; [..|apply Hsub|]|..].
  - intros node l cs3 Hno Hok3 _ Hm3 _. rewrite Hm2 in Hno by done. rewrite decide_True, bool_decide_true by done. wp_steps. split; [done|]. split; [exact Hlv|].
    split.
    + exists cs3. split; [by destruct Hok3; split|]. intros k' Hk2. rewrite Hm3. destruct (decide (k' = k)) as [->|Hne].
      * by rewrite !lookup_insert_eq.
      * rewrite !lookup_insert_ne; [by apply Hm2|done|]. intros E. apply Hne. symmetry. apply regular_key_inj; [by apply key_limit|by apply key_limit|exact E].
    + done.
    + intros k'. rewrite lookup_insert_is_Some'. intros [<-|]; auto.
    + cbn [h_size set_size set_list]. rewrite Hsz, Hsize, map_size_insert_None by done. unfold wrapu. rewrite Zplus_mod_idemp_l. f_equal. lia.
  - intros node d' l l' Hd' Hk2 His Hfree Hok3. rewrite Hm2 in His by done. assert (m !! k <> None) as Hne by (by destruct His as [x ->]).
    rewrite decide_False, bool_decide_false by done. wp_step. eapply wp_on_list; [simpl; by rewrite Hfree|]. wp_step. split; [done|]. split; [exact Hlv|].
    split; [exists cs2; split; [exact Hok3|exact Hm2]|exact Hz2|exact Hkeys|]. cbn [h_size set_list]. by rewrite Hsz.
Qed.

(** ** [Get] *)

Lemma get_hit fuel H cs i key : hash_ok H cs -> 0 <= i < bound H -> is_Some (slot_val H i) -> Z.land key i = i -> 0 <= key < 2 ^ 31 ->
  get_loop alloc (S fuel) key i H = Ok (amap cs !! regular_key key, H).
Proof.
  intros Hok Hi Hs Hsub Hk.
  assert (wp (get_loop alloc (S fuel) key i) (fun r H' => r = amap cs !! regular_key key /\ H' = H) H) as Hw.
  2: { apply wp_elim in Hw as (a & s' & -> & -> & ->). done. }
  cbn [get_loop]. wp_step. destruct Hs as [l Hl]. eapply wp_exists; [exact Hok|congruence|].
  intros p Hp. do 2 wp_step. eapply wp_rd_at; [apply Hok|done|]. rewrite Hl. simpl. wp_step.
  eapply (wp_slot_head H cs i); [done|done|done|by exists l|]. intros d Hd Hdk. wp_steps.
  eapply wp_on_list; [apply search_spec; [apply Hok|by eapply head_before]|].
  assert (set_list (h_list H) H = H) as -> by by destruct H.
  destruct (amap cs !! regular_key key) as [v|]; apply wp_ret; split; reflexivity.
Qed.

Lemma get_miss fuel H cs i key : hash_ok H cs -> slot_val H i = None ->
  get_loop alloc (S fuel) key i H = (p ← lift_res (PARENT_SLOT i); get_loop alloc fuel key p) H.
Proof.
  intros Hok Hv.
  assert (wp (get_slot_if_exists alloc i) (fun r H' => H' = H /\ forall p, r = Some p -> at_slot H i p) H) as Hw.
  { eapply wp_exists; [exact Hok|done|]. intros p Hp. split; [done|]. by intros p' [= <-]. }
  apply wp_elim in Hw as (r & H' & E & -> & Hr). cbn [get_loop]. unfold mbind at 1, M_bind at 1. rewrite E.
  destruct r as [p|]; [|done]. specialize (Hr p eq_refl).
  assert (wp (rd_slot p) (fun v H' => v = None /\ H' = H) H) as Hw by (eapply wp_rd_at; [apply Hok|done|by rewrite Hv]).
  apply wp_elim in Hw as (v & H' & E' & -> & ->). unfold mbind at 1, M_bind at 1. unfold mbind at 1, M_bind at 1. by rewrite E'.
Qed.

Lemma get_spec H m k : hash_rep H m -> 0 <= k <= HASH_KEY_LIMIT -> Get alloc k H = Ok (m !! k, H).
Proof.
  intros [(cs & Hok & Hm) H0 Hkeys Hsize] Hk. pose proof (proj1 (key_limit k) Hk) as Hk'. rewrite <-Hm by done. unfold Get.
  unfold mbind at 1, M_bind at 1, check. replace (k <=? HASH_KEY_LIMIT) with true by (symmetry; apply Z.leb_le, Hk). cbn [mret M_ret].
  destruct (slot_idx H cs k Hok Hk') as (i & Hidx & Hi & Hsub). unfold mbind at 1, M_bind at 1. rewrite Hidx.
  assert (forall fuel, get_loop alloc (S fuel) k 0 H = Ok (amap cs !! regular_key k, H)) as Hzero.
  { intros fuel. apply get_hit; [done|apply bound_low; lia|done|apply Z.land_0_r|done]. }
  assert (forall j fuel p, slot_val H j = None -> PARENT_SLOT j = Ok p ->
            get_loop alloc (S fuel) k j H = get_loop alloc fuel k p H) as Hmiss.
  { intros j fuel p Hv Hp. rewrite (get_miss fuel H cs j k) by done. unfold mbind, M_bind, lift_res. by rewrite Hp. }
  destruct (slot_val H i) as [l|] eqn:Hv; [apply get_hit; [done|done|by exists l|apply Hsub, Z.land_diag|done]|].
  assert (0 < i < 2 ^ 31) as Hpos.
  { assert (i <> 0) by (intros ->; destruct H0; congruence). apply in_bound31 in Hi. lia. }
  destruct (parent_slot_spec i Hpos) as (p & Hp & Hp8 & Hps). rewrite (Hmiss i 32%nat p Hv Hp).
  destruct (slot_val H p) as [l|] eqn:Hvp; [apply get_hit; [done|apply bound_low; lia|by exists l|by apply Hsub|done]|].
  rewrite (Hmiss p 31%nat 0); [apply Hzero|done|]. apply parent_low. assert (p <> 0) by (intros ->; destruct H0; congruence). lia.
Qed.

(** ** The constructor *)

Lemma level_loop_spec fuel : forall e lv, 0 < e < 2 ^ 31 -> e <= 512 ^ Z.of_nat (S fuel) -> 0 <= lv -> lv + Z.of_nat fuel < 2 ^ 64 ->
  exists k, level_loop (S fuel) e lv = Ok (lv + Z.of_nat k) /\ e <= 512 ^ (Z.of_nat k + 1).
Proof.
  assert (forall e lv f, e <= 512 -> exists k, level_loop (S f) e lv = Ok (lv + Z.of_nat k) /\ e <= 512 ^ (Z.of_nat k + 1)) as Hbase.
  { intros e lv f He. exists 0%nat. cbn [level_loop]. change SLOT_INDEX_NR with 512. destruct (Z.ltb_spec 512 e); [lia|]. split; [f_equal; lia|done]. }
  induction fuel as [|fuel IH]; intros e lv He Hf Hlv Hw; (destruct (Z.leb_spec e 512) as [Hs|Hs]; [by apply Hbase|]).
  { change (512 ^ Z.of_nat 1) with 512 in Hf. lia. }
  assert (level_loop (S (S fuel)) e lv = level_loop (S fuel) ((e + 511) / 512) (lv + 1)) as ->.
  { remember (S fuel) as f. cbn [level_loop]. change SLOT_INDEX_NR with 512. destruct (Z.ltb_spec 512 e); [|lia].
    unfold wrapu. rewrite (Z.mod_small (e + 512)), (Z.mod_small (e + 512 - 1)), (Z.mod_small (lv + 1)) by lia. do 2 f_equal. lia. }
  pose proof (Z.div_mod (e + 511) 512 ltac:(lia)). pose proof (Z.mod_pos_bound (e + 511) 512 ltac:(lia)).
  destruct (IH ((e + 511) / 512) (lv + 1)) as (k & Hk & Hb); [lia| |lia|lia|].
  - replace (Z.of_nat (S (S fuel))) with (Z.of_nat (S fuel) + 1) in Hf by lia.
    rewrite Z.pow_add_r, Z.pow_1_r in Hf by lia. nia.
  - exists (S k). rewrite Hk. split; [f_equal; lia|]. replace (Z.of_nat (S k) + 1) with (Z.of_nat k + 1 + 1) by lia.
    rewrite (Z.pow_add_r _ _ 1), Z.pow_1_r by lia. nia.
Qed.

Lemma calc_level_spec e : 0 < e < 2 ^ 31 -> exists L, calc_level_nr e = Ok L /\ 1 <= L /\ e <= 512 ^ L.
Proof.
  intros He. unfold calc_level_nr. destruct (Z.ltb_spec 0 e); [|lia].
  destruct (level_loop_spec 15 e 1) as (k & Hk & Hb); [done| |lia|lia|].
  - eapply Z.le_trans; [|apply (Z.pow_le_mono_r 512 4); lia]. lia.
  - exists (1 + Z.of_nat k). split_and!; [done|lia|]. by rewrite Z.add_comm.
Qed.

Lemma small_levels e L : 0 < e <= 512 ^ 3 -> calc_level_nr e = Ok L -> 1 <= L <= 3.
Proof.
  assert (forall f e lv, e <= 512 -> level_loop (S f) e lv = Ok lv) as H0.
  { intros f x lv Hx. cbn [level_loop]. change SLOT_INDEX_NR with 512. by destruct (Z.ltb_spec 512 x); [lia|]. }
  assert (forall f e lv, 512 < e <= 512 ^ 3 -> 0 <= lv < 10 -> level_loop (S f) e lv = level_loop f ((e + 511) / 512) (lv + 1)) as H1.
  { intros f x lv Hx Hlv. cbn [level_loop]. change SLOT_INDEX_NR with 512. destruct (Z.ltb_spec 512 x); [|lia].
    unfold wrapu. rewrite (Z.mod_small (x + 512)), (Z.mod_small (x + 512 - 1)), (Z.mod_small (lv + 1)) by lia. do 2 f_equal. lia. }
  intros He. unfold calc_level_nr. destruct (Z.ltb_spec 0 e); [|lia].
  pose proof (Z.div_mod (e + 511) 512 ltac:(lia)). pose proof (Z.mod_pos_bound (e + 511) 512 ltac:(lia)).
  destruct (Z.leb_spec e 512); [rewrite H0 by done; intros [= <-]; lia|]. rewrite H1 by lia. set (e1 := (e + 511) / 512) in *.
  pose proof (Z.div_mod (e1 + 511) 512 ltac:(lia)). pose proof (Z.mod_pos_bound (e1 + 511) 512 ltac:(lia)).
  destruct (Z.leb_spec e1 512); [rewrite H0 by done; intros [= <-]; lia|]. rewrite H1 by lia. rewrite H0 by lia. intros [= <-]; lia.
Qed.

Lemma empty_tree n root : slots_ok n {[root := ∅]} root.
Proof.
  assert (forall p c, reach {[root := ∅]} root p = Some c -> p = [] /\ c = root) as Hr.
  { intros p c. destruct p as [|i p _] using rev_ind; [intros [= <-]; done|]. rewrite reach_snoc.
    destruct (reach _ root p) as [c'|]; [|done]. simpl. unfold child. destruct (decide (c' = root)) as [->|].
    - by rewrite lookup_singleton_eq.
    - by rewrite lookup_singleton_ne. }
  split.
  - intros p c [_ ->]%Hr. rewrite lookup_singleton_eq. by eexists.
  - intros p q c [-> _]%Hr [-> _]%Hr. done.
  - intros p c arr i v [_ ->]%Hr. rewrite lookup_singleton_eq. intros [= <-]. done.
  - intros p c arr i [_ ->]%Hr. rewrite lookup_singleton_eq. intros [= <-] [x Hx]. done.
  - intros c [x [<- _]%lookup_singleton_Some]. by exists [].
Qed.

Lemma empty_leaf root p j : leaf {[root := ∅]} root p j = None.
Proof.
  unfold leaf. destruct (reach _ root p) as [c|] eqn:Hc; [|done]. simpl.
  destruct (so_dom _ _ _ (empty_tree 0 root) _ _ Hc) as [arr Ha]. rewrite Ha. by apply lookup_singleton_Some in Ha as [_ <-].
Qed.

Lemma empty_list : list_rep MichaelList_new [].
Proof. split; [by constructor|done|constructor]. Qed.

Lemma new_spec e lf : 0 < lf <= e -> e < HASH_SIZE_LIMIT -> exists H, Hash_new alloc e lf = Ok H /\ calc_level_nr e = Ok (h_level_nr H) /\ hash_rep H ∅.
Proof.
  intros Hlf He. change HASH_SIZE_LIMIT with (2 ^ 31 - 1) in He. destruct (calc_level_spec e ltac:(lia)) as (L & HL & HL1 & HLb).
  unfold Hash_new. rewrite HL. cbn [mbind res_bind]. destruct (Z.eqb_spec lf 0); [lia|].
  set (mx := u64 (u64 (e + lf) - 1) / lf). set (H0 := mkHash _ _ _ _ _ _ _ _ _).
  match goal with |- context [?f H0] => assert (wp f (fun _ H => h_level_nr H = L /\ hash_rep H ∅) H0) as Hw end.
  2: { apply wp_elim in Hw as ([] & H & -> & <- & Hr). exists H. by split. }
  wp_step. apply wp_check; [change HASH_SIZE_LIMIT with (2 ^ 31 - 1); apply andb_true_iff; split; apply Z.ltb_lt; lia|].
  wp_step. apply wp_check; [apply andb_true_iff; split; [apply Z.ltb_lt|apply Z.leb_le]; lia|].
  unfold new_array. wp_steps. set (root := alloc _). set (H1 := set_root (Some root) _).
  assert (0 <= mx <= e) as Hmx.
  { unfold mx, wrapu. rewrite (Z.mod_small (e + lf)), Z.mod_small by lia. split; [apply Z.div_pos; lia|].
    apply Z.lt_succ_r, Z.div_lt_upper_bound; [lia|]. nia. }
  assert (levels H1 = Z.to_nat (L - 1)) as El by done.
  assert (bound H1 = Z.min (2 ^ 31) (512 ^ L)) as Eb.
  { rewrite bound_eq, El. do 2 f_equal. lia. }
  assert (hash_ok H1 []) as Hok.
  { split.
    - exists root. split; [done|]. rewrite El. apply empty_tree.
    - apply empty_list.
    - intros i l _ Hl. exfalso. change (leaf {[root := ∅]} root (digits (levels H1) i) (digit 0 i) = Some l) in Hl. by rewrite empty_leaf in Hl.
    - exists 1. rewrite Eb. split_and!; [lia|done|]. assert (512 ^ 1 <= 512 ^ L) by (apply Z.pow_le_mono_r; lia). lia.
    - rewrite Eb. cbn [h_max_slot_nr H1 set_root set_arrays H0]. lia. }
  eapply wp_create; [done|exact Hok|]. intros H2 p Hok2 Hs2 _ _ Hp.
  eapply (insert_new_spec alloc alloc_fresh _ H2 []); [done|by left| |].
  2: { intros node d l l' Hd. destruct (not_elem_of_nil _ Hd). }
  intros node l cs _ Hok3 Hnode Hm _. set (H3 := set_list l H2) in *.
  eapply (mark_slot H3 H3 cs 0 p (mkCell node (dummy_key 0) 0)); [done|apply hash_step_refl|by apply (hs_at _ _ (set_list_step H2 l))|apply bound_low; lia|done|done|].
  intros H4 Hok4 Hs4 Hz. split; [rewrite (hs_keeps _ _ Hs4); cbn; by rewrite (hs_keeps _ _ Hs2)|]. split; [exists cs; split; [done|]|done|intros k [x Hx]; done|].
  - intros k Hk%key_limit. rewrite Hm, lookup_empty, lookup_insert_ne; [done|]. intros E.
    pose proof (regular_odd k Hk) as Ho. rewrite <-E, dummy_even in Ho by lia. done.
  - rewrite (hs_keeps _ _ Hs4). cbn. by rewrite (hs_keeps _ _ Hs2).
Qed.

(** ** Histories of calls *)

Inductive hash_op := HPut (k v : Z) | HGet (k : Z).
Inductive hash_res := RPut (b : bool) | RGet (v : option Z).

Definition op_key (o : hash_op) : Z := match o with HPut k _ | HGet k => k end.

Definition run_op (o : hash_op) : M Hash hash_res :=
  match o with
  | HPut k v => b ← Put alloc k v; mret (RPut b)
  | HGet k => v ← Get alloc k; mret (RGet v)
  end.

Fixpoint run_ops (os : list hash_op) : M Hash (list hash_res) :=
  match os with
  | [] => mret []
  | o :: os => r ← run_op o; rs ← run_ops os; mret (r :: rs)
  end.
End ops.

(** the same calls on a finite map: [Put] does not replace a value *)
Fixpoint spec_ops (os : list hash_op) (m : gmap Z Z) : list hash_res :=
  match os with
  | [] => []
  | HPut k v :: os =>
      match m !! k with
      | None => RPut true :: spec_ops os (<[k := v]> m)
      | Some _ => RPut false :: spec_ops os m
      end
  | HGet k :: os => RGet (m !! k) :: spec_ops os m
  end.

Lemma ops_spec {W : WideShift} {HW : ShiftMod32 W} alloc os : (forall X, alloc X ∉ X) -> Forall (fun o => 0 <= op_key o <= HASH_KEY_LIMIT) os ->
  forall H m, hash_rep H m -> wp (run_ops alloc os) (fun rs H' => rs = spec_ops os m /\ h_level_nr H' = h_level_nr H /\ exists m', hash_rep H' m') H.
Proof.
  intros Ha Hos. induction Hos as [|o os Hk Hos IH]; intros H m Hr; cbn [run_ops]; [wp_step; split_and!; [done|done|by exists m]|]. wp_step.
  destruct o as [k v|k]; simpl in Hk; unfold run_op; wp_step.
  - eapply wp_mono; [by apply put_spec|]. intros b H' (-> & Hl & Hr'). wp_steps. eapply wp_mono; [by apply IH|].
    intros rs H2 (-> & Hl2 & Hr2). wp_step. split_and!; [cbn [spec_ops]; by destruct (m !! k) as [v'|]|congruence|done].
  - eapply wp_intro; [exact (get_spec alloc H m k Hr Hk)|]. wp_steps. eapply wp_mono; [exact (IH H m Hr)|].
    intros rs H2 (-> & Hl2 & Hr2). by wp_step.
Qed.

(** ** The claims *)

(** C9: the hash table is a finite map, on a machine whose 32-bit shift takes
    the count modulo 32 as that of x86-64 does: finding the parent of a slot
    shifts by more than 31 bits, which C++ leaves undefined. With any allocator,
    from the constructor on, each call of [Put] and [Get] with a key in range
    completes and returns what the same call on a finite map returns: [Put] adds
    a key that is absent and leaves a present one alone, [Get] finds the value.
    Other keys fail an assertion. *)
Theorem hash_history (W : WideShift) alloc e lf os :
  (forall a count, 32 <= count -> wide_shl a count = u32 (Z.shiftl a (count mod 32))) ->
  (forall X, alloc X ∉ X) -> 0 < lf <= e -> e < HASH_SIZE_LIMIT ->
  Forall (fun o => 0 <= op_key o <= HASH_KEY_LIMIT) os ->
  exists H H', Hash_new alloc e lf = Ok H /\ run_ops alloc os H = Ok (spec_ops os ∅, H') /\
    forall k v, HASH_KEY_LIMIT < k -> Put alloc k v H' = Err ECheck /\ Get alloc k H' = Err ECheck.
Proof.
  intros HW Ha Hlf He Hos. change (ShiftMod32 W) in HW. destruct (new_spec alloc Ha e lf Hlf He) as (H & HH & _ & Hr). exists H.
  destruct (wp_elim _ _ _ (ops_spec (HW := HW) alloc os Ha Hos H ∅ Hr)) as (rs & H' & E & -> & _). exists H'. split_and!; [done|done|].
  intros k v Hk%Z.leb_gt. unfold Put, Get, mbind, M_bind, check. by rewrite Hk.
Qed.

(** the shift of x86-64 *)
Definition x86_shl : WideShift := fun a count => u32 (Z.shiftl a (count mod 32)).

Lemma hash_history_witness :
  exists H H', Hash_new fresh 1000 1 = Ok H /\
    run_ops (W := x86_shl) fresh [HPut 5 50; HPut 7 70; HPut 5 51; HGet 5; HGet 6] H = Ok ([RPut true; RPut true; RPut false; RGet (Some 50); RGet None], H').
Proof.
  destruct (hash_history x86_shl fresh 1000 1 [HPut 5 50; HPut 7 70; HPut 5 51; HGet 5; HGet 6]) as (H & H' & H1 & H2 & _).
  - intros a count _. reflexivity.
  - exact is_fresh.
  - lia.
  - reflexivity.
  - repeat constructor; vm_compute; discriminate.
  - exists H, H'. split; [exact H1|exact H2].
Defined.

(** [PARENT_SLOT] does not clear the most significant bit. Its shift count
    is out of range for every slot below [2^28], where C++ leaves the result
    undefined; with the shift instruction of x86-64 the parent of each of them
    is slot 0, also of a slot that is not a power of two, whose parent should
    be another one. *)
Theorem parent_slot_always_zero {W : WideShift} {HW : ShiftMod32 W} n : 0 < n < 2 ^ 28 ->
  (exists c, shift_count n = Ok c /\ 32 <= c) /\ PARENT_SLOT n = Ok 0 /\
  (n <> 2 ^ Z.log2 n -> PARENT_SLOT n <> Ok (n - 2 ^ Z.log2 n)).
Proof.
  intros Hn. split_and!; [|by apply parent_low|].
  - unfold shift_count. rewrite clz_log2 by lia. eexists. split; [reflexivity|].
    assert (0 <= Z.log2 n < 28) as Hl by (split; [apply Z.log2_nonneg|apply Z.log2_lt_pow2; lia]).
    unfold wrapu. replace (4 - 1 - (31 - Z.log2 n)) with (2 ^ 64 + Z.log2 n - 28 + (-1) * 2 ^ 64) by lia.
    rewrite Z.mod_add, Z.mod_small by lia. lia.
  - intros Hne. rewrite parent_low by done. intros [= E]. lia.
Qed.

Lemma parent_slot_always_zero_witness : PARENT_SLOT (W := x86_shl) 3 = Ok 0 /\ PARENT_SLOT (W := x86_shl) 3 <> Ok (3 - 2 ^ Z.log2 3).
Proof.
  destruct (parent_slot_always_zero (W := x86_shl) (HW := fun _ _ _ => eq_refl) 3) as (_ & H1 & H2); [lia|]. split; [exact H1|]. apply H2. discriminate.
Defined.
