(* ===== verification/SplitHashFree.v ===== *)
(** * The split-ordered hash table: its destructor

    [free_slots] walks the tree of slot arrays with a stack. For trees of up to
    three levels it frees every array; with four levels it does not, because
    the index of a level is not reset for the next array of the level. *)

From S2P Require Import Prelude.
From S2P Require Import SplitHash.
From S2P Require Import SplitHashRep.
From S2P Require Import SplitHashMap.
From S2P Require Import SplitHashTheorems.

Lemma reach_cons m root i q : reach m root (i :: q) = child m root i ≫= fun c => reach m c q.
Proof.
  unfold reach. simpl. destruct (child m root i) as [c|]; simpl; [done|]. by induction q.
Qed.

Lemma wp_delete_array H a Q : is_Some (h_arrays H !! a) -> Q tt (set_arrays (delete a (h_arrays H)) H) -> wp (delete_array a) Q H.
Proof. intros [arr Ha] HQ. unfold delete_array. wp_step. eapply wp_rd_array; [done|]. by wp_step. Qed.

(** the arrays [m] without those slots of [arr] from [i] on point to *)
Definition without_children (arr : SlotArray) (i : Z) (m m' : gmap positive SlotArray) : Prop :=
  forall c, (m' !! c = None /\ exists j, i <= j < SLOT_INDEX_NR /\ arr !! j = Some (SSub c)) \/
    (m' !! c = m !! c /\ forall j, i <= j < SLOT_INDEX_NR -> arr !! j <> Some (SSub c)).

Lemma wp_free_children arr k Q : (forall j v, arr !! j = Some v -> exists b, v = SSub b) ->
  (forall j j' b, arr !! j = Some (SSub b) -> arr !! j' = Some (SSub b) -> j = j') ->
  forall H i, i + Z.of_nat k = SLOT_INDEX_NR ->
  (forall j b, i <= j -> arr !! j = Some (SSub b) -> is_Some (h_arrays H !! b)) ->
  (forall m', without_children arr i (h_arrays H) m' -> Q tt (set_arrays m' H)) ->
  wp (free_children true k arr i) Q H.
Proof.
  intros Hkind Hinj. induction k as [|k IH]; intros H i Hi Hdom HQ; cbn [free_children].
  { wp_step. rewrite <-(set_arrays_id H). apply HQ. intros c. right. split; [done|]. intros j Hj. lia. }
  wp_step. destruct (arr !! i) as [v|] eqn:Ei.
  - destruct (Hkind i v Ei) as [b ->]. apply wp_delete_array; [by eapply Hdom|].
    apply IH; [lia| |]; simpl.
    + intros j b' Hj Hb'. rewrite lookup_delete_ne; [eapply Hdom; [|done]; lia|]. intros ->.
      pose proof (Hinj _ _ _ Ei Hb'). lia.
    + intros m' Hm'. apply HQ. intros c. destruct (Hm' c) as [[Hc (j & Hj & Ej)]|[Hc Hno]].
      * left. split; [done|]. exists j. split; [lia|done].
      * destruct (decide (c = b)) as [->|Hne].
        -- left. rewrite Hc, lookup_delete_eq. split; [done|]. exists i. split; [lia|done].
        -- right. rewrite Hc, lookup_delete_ne by done. split; [done|]. intros j Hj.
           destruct (decide (j = i)) as [->|]; [congruence|apply Hno; lia].
  - apply wp_ret. apply IH; [lia|intros j b Hj; apply Hdom; lia|]. intros m' Hm'. apply HQ. intros c.
    destruct (Hm' c) as [[Hc (j & Hj & Ej)]|[Hc Hno]]; [left; split; [done|]; exists j; split; [lia|done]|].
    right. split; [done|]. intros j Hj. destruct (decide (j = i)) as [->|]; [congruence|apply Hno; lia].
Qed.

Lemma next_child_spec arr k : forall f, f <= SLOT_INDEX_NR -> SLOT_INDEX_NR <= f + Z.of_nat k ->
  let f' := next_child k arr f in
  f <= f' <= SLOT_INDEX_NR /\ (forall j, f <= j < f' -> arr !! j = None) /\ (f' < SLOT_INDEX_NR -> is_Some (arr !! f')).
Proof.
  induction k as [|k IH]; intros f Hf Hk; cbn [next_child].
  { split_and!; [lia|lia|intros j Hj; lia|lia]. }
  destruct (Z.ltb_spec f SLOT_INDEX_NR) as [Hlt|]; simpl; [|split_and!; [lia|lia|intros j Hj; lia|lia]].
  case_bool_decide as E.
  - destruct (IH (f + 1)) as ([H1 H1'] & H2 & H3); [lia|lia|]. split_and!; [lia|lia| |done].
    intros j Hj. destruct (decide (j = f)) as [->|]; [done|apply H2; lia].
  - split_and!; [lia|lia|intros j Hj; lia|]. intros _. destruct (arr !! f); [by eexists|done].
Qed.

Section tree.
Context (n : nat) (m : gmap positive SlotArray) (root : positive) (Hok : slots_ok n m root).

Lemma subs_above p c arr : reach m root p = Some c -> m !! c = Some arr -> (length p < n)%nat ->
  (forall j v, arr !! j = Some v -> exists b, v = SSub b) /\
  (forall j b, arr !! j = Some (SSub b) -> reach m root (p ++ [j]) = Some b) /\
  (forall j j' b, arr !! j = Some (SSub b) -> arr !! j' = Some (SSub b) -> j = j').
Proof.
  intros Hp Hc Hn. assert (forall j b, arr !! j = Some (SSub b) -> reach m root (p ++ [j]) = Some b) as Hr.
  { intros j b Hj. rewrite reach_snoc, Hp. simpl. unfold child. rewrite Hc. simpl. by rewrite Hj. }
  split_and!; [|exact Hr|].
  - intros j [b|l] Hj; [by exists b|]. pose proof (so_kind _ _ _ Hok _ _ _ _ _ Hp Hc Hj) as Hk. simpl in Hk. lia.
  - intros j j' b Hj Hj'. pose proof (so_inj _ _ _ Hok _ _ _ (Hr _ _ Hj) (Hr _ _ Hj')) as E. by apply app_inj_2 in E as [_ [= ->]].
Qed.

Lemma below_slot p c arr i q x : reach m root p = Some c -> m !! c = Some arr -> reach m root (p ++ i :: q) = Some x -> exists b, arr !! i = Some (SSub b).
Proof.
  intros Hp Hc. replace (p ++ i :: q) with ((p ++ [i]) ++ q) by by rewrite <-app_assoc. unfold reach in *.
  rewrite !foldl_app, Hp. simpl. unfold child at 2. rewrite Hc. simpl. destruct (arr !! i) as [[b|]|]; [by exists b|..]; simpl.
  all: intros H; exfalso; revert H; clear; induction q as [|j q IH]; done.
Qed.
End tree.

(** a tree of two levels *)
Lemma free_two m root H fuel idx : slots_ok 1 m root -> h_arrays H = m -> h_level_nr H = 2 ->
  wp (free_slots_loop true (S (S fuel)) [root] idx) (fun _ H' => h_arrays H' = ∅) H.
Proof.
  intros Hok EA Hl. destruct (so_dom _ _ _ Hok [] root eq_refl) as [arr Ha].
  destruct (subs_above 1 m root Hok [] root arr eq_refl Ha (le_n _)) as (Hkind & Hsub & Hinj).
  remember (S fuel) as f1. cbn [free_slots_loop]. do 2 wp_step. cbn beta. wp_step. eapply wp_rd_array; [by rewrite EA|].
  rewrite Hl. change (Z.of_nat (length []) + 2 <? 2) with false. cbn iota. wp_step. eapply (wp_free_children arr 512); [done|done|done| |].
  { intros j b _ Hj. rewrite EA. eapply so_dom; [done|by apply Hsub]. }
  intros m' Hm'. rewrite EA in Hm'. wp_step. apply wp_delete_array; simpl.
  - destruct (Hm' root) as [[_ (j & _ & Hj)]|[-> _]]; [|by eexists]. by pose proof (so_inj _ _ _ Hok [j] [] root (Hsub _ _ Hj) eq_refl).
  - subst f1. cbn [free_slots_loop]. wp_step. simpl. apply map_empty. intros c. apply eq_None_not_Some. intros [x Hx].
    apply lookup_delete_Some in Hx as [Hne Hx]. destruct (Hm' c) as [[Hc _]|[Hc Hno]]; [congruence|]. rewrite Hc in Hx.
    destruct (so_live _ _ _ Hok c) as [p Hp]; [by eexists|]. pose proof (reach_length _ _ _ _ _ Hok Hp) as Hlen.
    destruct p as [|i [|]]; simpl in Hlen; [by injection Hp as ->| |lia].
    destruct (below_slot m root [] root arr i [] c eq_refl Ha Hp) as [b Hb]. pose proof (Hsub _ _ Hb) as Hb'. simpl in Hb'.
    rewrite Hp in Hb'. injection Hb' as <-. apply (Hno i); [|done]. eapply (so_index _ _ _ Hok [] root); [done|done|by rewrite Hb].
Qed.

(** a tree of three levels; the children of the root before [f] are freed *)
Record freed_to (m : gmap positive SlotArray) (root : positive) (arr : SlotArray) (f : Z) (A : gmap positive SlotArray) : Prop := {
  ft_root : A !! root = Some arr;
  ft_old i q c : reach m root (i :: q) = Some c -> A !! c = if i <? f then None else m !! c;
  ft_sub c : m !! c = None -> A !! c = None
}.

Section three.
Context (m : gmap positive SlotArray) (root : positive) (arr : SlotArray) (Hok : slots_ok 2 m root) (Ha : m !! root = Some arr).

Lemma freed_all f A : freed_to m root arr f A -> (forall j, f <= j < SLOT_INDEX_NR -> arr !! j = None) -> delete root A = ∅.
Proof.
  intros [H1 H2 H3] Hno. apply map_empty. intros c. apply eq_None_not_Some. intros [x [Hne Hx]%lookup_delete_Some].
  destruct (m !! c) as [y|] eqn:Hy; [|by rewrite (H3 _ Hy) in Hx].
  destruct (so_live _ _ _ Hok c) as [[|i q] Hp]; [by eexists|by injection Hp as ->|].
  destruct (below_slot m root [] root arr i q c eq_refl Ha Hp) as [b Hb].
  rewrite (H2 _ _ _ Hp) in Hx. destruct (Z.ltb_spec i f); [done|]. rewrite Hno in Hb; [done|]. split; [done|].
  eapply (so_index _ _ _ Hok [] root); [done|done|by rewrite Hb].
Qed.

Lemma freed_next f f' A a arra A' : freed_to m root arr f A -> f <= f' -> (forall j, f <= j < f' -> arr !! j = None) ->
  arr !! f' = Some (SSub a) -> m !! a = Some arra -> without_children arra 0 A A' -> freed_to m root arr (f' + 1) (delete a A').
Proof.
  intros [H1 H2 H3] Hf Hno Hfa Haa Hw.
  assert (reach m root [f'] = Some a) as Hra by (eapply (subs_above 2 m root Hok [] root); [done|done|simpl; lia|done]).
  destruct (subs_above 2 m root Hok [f'] a arra Hra Haa) as (_ & Hsub & _); [simpl; lia|]. simpl in Hsub. split.
  - rewrite lookup_delete_ne by (intros ->; by pose proof (so_inj _ _ _ Hok _ _ _ Hra (eq_refl : reach m root [] = Some root))).
    destruct (Hw root) as [[_ (j & _ & Hj)]|[-> _]]; [|done].
    by pose proof (so_inj _ _ _ Hok _ _ _ (Hsub _ _ Hj) (eq_refl : reach m root [] = Some root)).
  - intros i q c Hp. destruct (decide (c = a)) as [->|Hca].
    { pose proof (so_inj _ _ _ Hok _ _ _ Hra Hp) as [= <- <-]. rewrite lookup_delete_eq.
      by replace (f' <? f' + 1) with true by (symmetry; apply Z.ltb_lt; lia). }
    rewrite lookup_delete_ne by done. destruct (Hw c) as [[-> (j & _ & Hj)]|[-> Hnc]].
    { pose proof (so_inj _ _ _ Hok _ _ _ (Hsub _ _ Hj) Hp) as [= <- <-]. by replace (f' <? f' + 1) with true by (symmetry; apply Z.ltb_lt; lia). }
    rewrite (H2 _ _ _ Hp). destruct (Z.ltb_spec i f); [by replace (i <? f' + 1) with true by (symmetry; apply Z.ltb_lt; lia)|].
    destruct (Z.ltb_spec i (f' + 1)) as [Hi|]; [exfalso|done].
    destruct (below_slot m root [] root arr i q c eq_refl Ha Hp) as [b Hb].
    destruct (decide (i = f')) as [->|]; [|by rewrite Hno in Hb by lia].
    pose proof (reach_length _ _ _ _ _ Hok Hp) as Hlen. destruct q as [|j [|]]; simpl in Hlen; [congruence| |lia].
    destruct (below_slot m root [f'] a arra j [] c Hra Haa Hp) as [b' Hb']. pose proof (Hsub _ _ Hb') as Hr. rewrite Hp in Hr. injection Hr as <-.
    apply (Hnc j); [|done]. eapply (so_index _ _ _ Hok [f'] a); [done|done|by rewrite Hb'].
  - intros c Hc. destruct (decide (c = a)) as [->|]; [by rewrite lookup_delete_eq|]. rewrite lookup_delete_ne by done.
    destruct (Hw c) as [[-> _]|[-> _]]; [done|by apply H3].
Qed.

Lemma free_three k : forall H f idx fuel, freed_to m root arr f (h_arrays H) -> h_level_nr H = 3 -> 0 <= f <= SLOT_INDEX_NR ->
  size (h_arrays H) = k -> (2 * k + 1 <= fuel)%nat ->
  wp (free_slots_loop true fuel [root] (f :: idx)) (fun _ H' => h_arrays H' = ∅) H.
Proof.
  induction (lt_wf k) as [k _ IH]; intros H f idx fuel Hft Hl Hf Hsz Hfuel.
  assert (k <> 0)%nat.
  { intros ->. apply map_size_empty_inv in Hsz. pose proof (ft_root _ _ _ _ _ Hft) as Hr. by rewrite Hsz in Hr. }
  destruct fuel as [|[|[|fuel]]]; [lia|lia|lia|].
  remember (S (S fuel)) as f2. cbn [free_slots_loop]. do 2 wp_step. wp_step. eapply wp_rd_array; [apply Hft|].
  rewrite Hl. change (Z.of_nat (length []) + 2 <? 3) with true. cbn iota. wp_step. eapply wp_lift; [reflexivity|].
  destruct (next_child_spec arr 512 f) as ([Hf1 Hf2] & Hnull & Hsome); [lia|change SLOT_INDEX_NR with 512; lia|].
  set (f' := next_child 512 arr f) in *. destruct (Z.ltb_spec f' SLOT_INDEX_NR) as [Hlt|Hge].
  - destruct (Hsome Hlt) as [v Hv]. destruct (subs_above 2 m root Hok [] root arr eq_refl Ha) as (Hkind & Hsub & _); [simpl; lia|].
    destruct (Hkind _ _ Hv) as [a ->]. rewrite Hv. pose proof (Hsub _ _ Hv) as Hra. simpl in Hra.
    destruct (so_dom _ _ _ Hok _ _ Hra) as [arra Haa].
    assert (forall c q, reach m root (f' :: q) = Some c -> h_arrays H !! c = m !! c) as Hlive.
    { intros c q Hc. rewrite (ft_old _ _ _ _ _ Hft _ _ _ Hc). by replace (f' <? f) with false by (symmetry; apply Z.ltb_ge; lia). }
    destruct (subs_above 2 m root Hok [f'] a arra Hra Haa) as (Hkind2 & Hsub2 & Hinj2); [simpl; lia|].
    subst f2. remember (S fuel) as f1. cbn [free_slots_loop]. do 2 wp_step. wp_step. eapply wp_rd_array; [by rewrite (Hlive a [])|].
    rewrite Hl. change (Z.of_nat (length [root]) + 2 <? 3) with false. cbn iota. wp_step. eapply (wp_free_children arra 512); [done|done|done| |].
    { intros j b _ Hj. pose proof (Hsub2 _ _ Hj) as Hb. rewrite (Hlive b [j] Hb). by eapply so_dom. }
    intros A' Hw. wp_step. assert (A' !! a = Some arra) as Ha'.
    { destruct (Hw a) as [[_ (j & _ & Hj)]|[-> _]]; [by pose proof (so_inj _ _ _ Hok _ _ _ (Hsub2 _ _ Hj) Hra)|by rewrite (Hlive a [])]. }
    apply wp_delete_array; simpl; [by rewrite Ha'|]. subst f1.
    assert (A' ⊆ h_arrays H) as Hsubm by (apply map_subseteq_spec; intros c x Hx; destruct (Hw c) as [[Hc _]|[Hc _]]; congruence).
    pose proof (map_subseteq_size _ _ Hsubm) as Hs1. pose proof (map_size_delete_Some a A' (mk_is_Some _ _ Ha')) as Hs2.
    assert (size A' <> 0)%nat by (intros E%map_size_empty_inv; by rewrite E in Ha').
    eapply (IH (size (delete a A'))); [lia| |done|lia|done|lia]. by eapply freed_next.
  - wp_step. apply wp_delete_array; [by rewrite (ft_root _ _ _ _ _ Hft)|]. subst f2. cbn [free_slots_loop]. wp_step. simpl.
    eapply freed_all; [done|]. intros j Hj. apply Hnull. lia.
Qed.
End three.

(** ** The claim *)

Lemma free_slots_spec H cs : hash_ok H cs -> 1 <= h_level_nr H <= 3 -> wp (free_slots true) (fun _ H' => h_arrays H' = ∅) H.
Proof.
  intros Hok Hl. destruct (ho_tree _ _ Hok) as (root & Hr & Hs). unfold levels in Hs.
  destruct (so_dom _ _ _ Hs [] root eq_refl) as [arr Ha]. unfold free_slots. do 2 wp_step. rewrite Hr. wp_step.
  apply wp_check; [apply Z.ltb_lt; lia|].
  assert (h_level_nr H = 1 \/ h_level_nr H = 2 \/ h_level_nr H = 3) as [E|[E|E]] by lia; rewrite E in Hs |- *.
  - simpl (1 =? 1). cbn iota. wp_step. apply wp_delete_array; [by rewrite Ha|]. wp_step. simpl. apply map_empty. intros c.
    apply eq_None_not_Some. intros [x [Hne Hx]%lookup_delete_Some]. destruct (so_live _ _ _ Hs c) as [p Hp]; [by eexists|].
    pose proof (reach_length _ _ _ _ _ Hs Hp) as Hlen. destruct p; [by injection Hp as ->|simpl in Hlen; lia].
  - change (2 =? 1) with false. cbn iota. assert (size (h_arrays H) <> 0)%nat as Hsz by (intros E0%map_size_empty_inv; by rewrite E0 in Ha).
    destruct (size (h_arrays H)) as [|k]; [done|]. replace (2 * S k + 1)%nat with (S (S (2 * k + 1)))%nat by lia.
    by eapply (free_two (h_arrays H)).
  - change (3 =? 1) with false. cbn iota. eapply (free_three (h_arrays H) root arr Hs Ha (size (h_arrays H)) H 0 [0; 0]); [|done|change SLOT_INDEX_NR with 512; lia|done|lia].
    split; [done| |done]. intros i q c Hc. destruct (below_slot (h_arrays H) root [] root arr i q c eq_refl Ha Hc) as [b Hb].
    destruct (so_index _ _ _ Hs [] root arr i eq_refl Ha) as [Hi _]; [by rewrite Hb|]. by replace (i <? 0) with false by (symmetry; apply Z.ltb_ge; lia).
Qed.

(** the tree of a table of [2^28] entries once slots 0 and [2^27] exist *)
Definition leaking : res (Z * nat * nat) :=
  H ← Hash_new fresh (2 ^ 28) 1;
  '(_, H) ← (_ ← get_or_create_slot fresh 0; get_or_create_slot fresh (2 ^ 27)) H;
  '(_, H') ← free_slots true H;
  Ok (h_level_nr H, size (h_arrays H), size (h_arrays H')).

(** C40: for tables of up to [512^3] expected entries the destructor ends and
    frees every slot array, whatever calls were made before, on a machine whose
    32-bit shift takes the count modulo 32 and with a library whose [free]
    releases memory from [new]. With four levels
    it leaks: of the seven arrays a table has after its slots 0 and [2^27] were
    made, two are still allocated. *)
Theorem hash_destroy : leaking = Ok (4, 7%nat, 2%nat) /\
  forall (W : WideShift) alloc e lf os, (forall a count, 32 <= count -> wide_shl a count = u32 (Z.shiftl a (count mod 32))) ->
  (forall X, alloc X ∉ X) -> 0 < lf <= e -> e <= 512 ^ 3 ->
  Forall (fun o => 0 <= op_key o <= HASH_KEY_LIMIT) os ->
  exists H H1 H2 rs, Hash_new alloc e lf = Ok H /\ run_ops alloc os H = Ok (rs, H1) /\ free_slots true H1 = Ok (tt, H2) /\ h_arrays H2 = ∅.
Proof.
  split; [vm_compute; reflexivity|]. intros W alloc e lf os HW Ha Hlf He Hos. change (ShiftMod32 W) in HW.
  assert (e < HASH_SIZE_LIMIT) as He' by (change HASH_SIZE_LIMIT with (2 ^ 31 - 1); lia).
  destruct (new_spec alloc Ha e lf Hlf He') as (H & HH & Hl & Hr).
  destruct (wp_elim _ _ _ (ops_spec alloc os Ha Hos H ∅ Hr)) as (rs & H1 & E1 & _ & Hl1 & m & [(cs & Hok & _) _ _ _]).
  destruct (wp_elim _ _ _ (free_slots_spec H1 cs Hok ltac:(rewrite Hl1; eapply small_levels; [|exact Hl]; lia))) as ([] & H2 & E2 & HA).
  exists H, H1, H2, rs. done.
Qed.

Lemma hash_destroy_witness : exists H H1 H2 rs, Hash_new fresh 100000 2 = Ok H /\ run_ops (W := x86_shl) fresh [HPut 5 50; HGet 5] H = Ok (rs, H1) /\
  free_slots true H1 = Ok (tt, H2) /\ h_arrays H2 = ∅.
Proof.
  apply (proj2 hash_destroy x86_shl fresh 100000 2 [HPut 5 50; HGet 5]).
  - intros a count _. reflexivity.
  - exact is_fresh.
  - lia.
  - lia.
  - repeat constructor; vm_compute; discriminate.
Defined.
