(* ===== verification/BinaryColumn.v ===== *)
(** * Columns of strings: src/include/binary_column.hh

    A column keeps the bytes of all its rows in one vector and the offset of
    each row in another. A [Slice] is a pointer into the bytes and a size; it
    is modelled by the bytes it spans, with every access checked. *)

From S2P Require Import Prelude.
From S2P Require Import Simd.

Record BinaryColumn := mkColumn { bc_bytes : list Z; bc_offsets : list Z }.

Definition BinaryColumn_new : BinaryColumn := mkColumn [] [0].

Definition bc_size (c : BinaryColumn) : Z := u64 (Z.of_nat (length (bc_offsets c)) - 1).

Definition bc_append (c : BinaryColumn) (s : list Z) : res BinaryColumn :=
  back ← of_option EUndef (last (bc_offsets c));
  Ok (mkColumn (bc_bytes c ++ s) (bc_offsets c ++ [u32 (back + Z.of_nat (length s))])).

(** [append(begin, end)] of a part of the slice [s] *)
Definition bc_append_range (c : BinaryColumn) (s : list Z) (from to : Z) : res BinaryColumn :=
  if from <=? to then x ← loadu (Z.to_nat (to - from)) s from; bc_append c x else Err EBounds.

Definition get_slice (c : BinaryColumn) (i : Z) : res (list Z) :=
  lo ← rd (bc_offsets c) i;
  hi ← rd (bc_offsets c) (i + 1);
  loadu (Z.to_nat (u32 (hi - lo))) (bc_bytes c) lo.

Definition get_last_slice (c : BinaryColumn) : res (list Z) := get_slice c (bc_size c - 1).

(** the loop [for (auto i = 0; i < n; ++i)] over the rows, from row [i] *)
Fixpoint for_rows {S : Type} (n : nat) (i : Z) (f : Z -> S -> res S) (s : S) : res S :=
  match n with
  | O => Ok s
  | S n => s ← f i s; for_rows n (i + 1) f s
  end.

Definition to_vector (c : BinaryColumn) : res (list (list Z)) :=
  for_rows (Z.to_nat (bc_size c)) 0 (fun i ss => s ← get_slice c i; Ok (ss ++ [s])) [].

Definition get_max_serialized_size (c : BinaryColumn) : res Z :=
  max_size ← for_rows (Z.to_nat (bc_size c)) 0 (fun i max_size =>
    lo ← rd (bc_offsets c) i; hi ← rd (bc_offsets c) (i + 1);
    Ok (Z.max max_size (u32 (hi - lo)))) 0;
  Ok (u32 (max_size + 4)).

(** the four bytes of a [uint32_t] *)
Definition le_bytes4 (z : Z) : list Z := [z mod 256; z / 256 mod 256; z / 256 / 256 mod 256; z / 256 / 256 / 256 mod 256].

(** writes at offset [pos] of the buffer [dst] *)
Definition serialize (c : BinaryColumn) (idx : Z) (dst : list Z) (pos : Z) : res (Z * list Z) :=
  hi ← rd (bc_offsets c) (idx + 1);
  lo ← rd (bc_offsets c) idx;
  let binary_size := u32 (hi - lo) in
  dst ← storeu dst pos (le_bytes4 binary_size);
  x ← loadu (Z.to_nat binary_size) (bc_bytes c) lo;
  dst ← storeu dst (pos + 4) x;
  Ok (u32 (4 + binary_size), dst).

Definition serialize_batch (c : BinaryColumn) (dst : list Z) (slice_sizes : list Z) (chunk_size max_one_row_size : Z) :
    res (list Z * list Z) :=
  for_rows (Z.to_nat chunk_size) 0 (fun i '(dst, slice_sizes) =>
    sz ← rd slice_sizes i;
    '(n, dst) ← serialize c i dst (i * max_one_row_size + sz);
    slice_sizes ← wr slice_sizes i (u32 (sz + n));
    Ok (dst, slice_sizes)) (dst, slice_sizes).

(** ** A column and its rows *)

(** the offsets of the rows [ss] after [o] *)
Fixpoint offsets_from (o : Z) (ss : list (list Z)) : list Z :=
  o :: match ss with [] => [] | s :: ss => offsets_from (o + Z.of_nat (length s)) ss end.

Record col_rep (c : BinaryColumn) (ss : list (list Z)) : Prop := {
  cr_bytes : bc_bytes c = mjoin ss;
  cr_offsets : bc_offsets c = offsets_from 0 ss;
  cr_small : Z.of_nat (length (mjoin ss)) < 2 ^ 32;
  cr_rows : Z.of_nat (length ss) < 2 ^ 31
}.

Lemma mjoin_cons (s : list Z) ss : mjoin (s :: ss) = s ++ mjoin ss.
Proof. done. Qed.

Lemma offsets_length o ss : length (offsets_from o ss) = S (length ss).
Proof. revert o. induction ss as [|s ss IH]; intros o; simpl; [done|]. by rewrite IH. Qed.

Lemma offsets_lookup o ss i : (i <= length ss)%nat ->
  offsets_from o ss !! i = Some (o + Z.of_nat (length (mjoin (take i ss)))).
Proof.
  revert o i. induction ss as [|s ss IH]; intros o [|i] Hi; simpl in *; try lia.
  - f_equal. lia.
  - f_equal. lia.
  - rewrite IH by lia. f_equal. rewrite length_app. lia.
Qed.

Lemma offsets_snoc o ss s : offsets_from o (ss ++ [s]) = offsets_from o ss ++ [o + Z.of_nat (length (mjoin (ss ++ [s])))].
Proof.
  revert o. induction ss as [|s' ss IH]; intros o; simpl; [by rewrite app_nil_r|]. rewrite IH. do 2 f_equal.
  rewrite length_app. f_equal. lia.
Qed.

Lemma offsets_last o ss : last (offsets_from o ss) = Some (o + Z.of_nat (length (mjoin ss))).
Proof. rewrite last_lookup, offsets_length. cbn [pred]. by rewrite offsets_lookup, firstn_all. Qed.

Lemma col_size c ss : col_rep c ss -> bc_size c = Z.of_nat (length ss).
Proof.
  intros [_ E _ Hr]. unfold bc_size. rewrite E, offsets_length. replace (Z.of_nat (S (length ss)) - 1) with (Z.of_nat (length ss)) by lia.
  apply Z.mod_small. lia.
Qed.

Lemma get_slice_spec c ss i s : col_rep c ss -> ss !! i = Some s -> get_slice c (Z.of_nat i) = Ok s.
Proof.
  intros [Eb Eo Hs Hr] Hi. pose proof (lookup_lt_Some _ _ _ Hi) as Hlt. unfold get_slice. rewrite Eo, Eb.
  rewrite (rd_nat _ _ _ (offsets_lookup 0 ss i ltac:(lia))). cbn [mbind res_bind].
  replace (Z.of_nat i + 1) with (Z.of_nat (S i)) by lia. rewrite (rd_nat _ _ _ (offsets_lookup 0 ss (S i) ltac:(lia))). cbn [mbind res_bind].
  rewrite (take_S_r _ _ _ Hi), join_app. simpl. rewrite app_nil_r, length_app.
  assert (mjoin ss = mjoin (take i ss) ++ s ++ mjoin (drop (S i) ss)) as E.
  { rewrite <-(take_drop_middle _ _ _ Hi) at 1. rewrite join_app. done. }
  rewrite E in Hs |- *. rewrite !length_app in Hs.
  replace (Z.to_nat _) with (length s).
  - rewrite !Z.add_0_l. by apply loadu_mid.
  - unfold wrapu. rewrite Z.mod_small by lia. lia.
Qed.

Lemma append_spec c ss s : col_rep c ss -> Z.of_nat (length (mjoin (ss ++ [s]))) < 2 ^ 32 -> Z.of_nat (S (length ss)) < 2 ^ 31 ->
  exists c', bc_append c s = Ok c' /\ col_rep c' (ss ++ [s]).
Proof.
  intros [Eb Eo Hs Hr] Hs' Hr'. unfold bc_append. rewrite Eo, offsets_last. cbn [of_option mbind res_bind].
  eexists. split; [reflexivity|]. split; simpl.
  - rewrite Eb, join_app. simpl. by rewrite app_nil_r.
  - rewrite offsets_snoc. do 2 f_equal. rewrite join_app, length_app in *. simpl in *. rewrite app_nil_r in *.
    unfold wrapu. rewrite Z.mod_small by lia. lia.
  - done.
  - rewrite length_app. simpl. lia.
Qed.

Lemma new_column : col_rep BinaryColumn_new [].
Proof. split; [done|done|simpl; lia|simpl; lia]. Qed.

(** a loop over the rows of a column: the invariant holds of the rows done *)
Lemma for_rows_spec {S} (P : list (list Z) -> S -> Prop) (f : Z -> S -> res S) todo : forall done s,
  P done s ->
  (forall done' x todo' s', done ++ todo = done' ++ x :: todo' -> P done' s' ->
     exists s2, f (Z.of_nat (length done')) s' = Ok s2 /\ P (done' ++ [x]) s2) ->
  exists s', for_rows (length todo) (Z.of_nat (length done)) f s = Ok s' /\ P (done ++ todo) s'.
Proof.
  induction todo as [|x todo IH]; intros done s Hp Hf; simpl.
  - exists s. by rewrite app_nil_r.
  - destruct (Hf done x todo s eq_refl Hp) as (s2 & -> & Hp2). cbn [mbind res_bind].
    replace (Z.of_nat (length done) + 1) with (Z.of_nat (length (done ++ [x]))) by (rewrite length_app; simpl; lia).
    destruct (IH (done ++ [x]) s2 Hp2) as (s' & Hs' & Hp').
    + intros done' x' todo' s' E Hp'. apply (Hf done' x' todo' s'); [|done]. by rewrite <-E, <-app_assoc.
    + exists s'. by rewrite <-app_assoc in Hp'.
Qed.

Lemma for_rows_all {S} (P : list (list Z) -> S -> Prop) (f : Z -> S -> res S) ss s : P [] s ->
  (forall done x todo s', ss = done ++ x :: todo -> P done s' ->
     exists s2, f (Z.of_nat (length done)) s' = Ok s2 /\ P (done ++ [x]) s2) ->
  exists s', for_rows (length ss) 0 f s = Ok s' /\ P ss s'.
Proof. intros Hp Hf. exact (for_rows_spec P f ss [] s Hp Hf). Qed.

Lemma row_at {A} (done : list A) x todo : (done ++ x :: todo) !! length done = Some x.
Proof. apply list_lookup_middle. done. Qed.

Lemma to_vector_spec c ss : col_rep c ss -> to_vector c = Ok ss.
Proof.
  intros Hc. unfold to_vector. rewrite (col_size _ _ Hc), Nat2Z.id.
  destruct (for_rows_all (fun done acc => acc = done) (fun i ss => s ← get_slice c i; Ok (ss ++ [s])) ss []) as (s' & -> & ->); [done| |done].
  intros done x todo acc -> ->. rewrite (get_slice_spec c _ (length done) x Hc) by apply row_at. by eexists.
Qed.

Lemma le_bytes4_val z : 0 <= z < 2 ^ 32 -> le_val (le_bytes4 z) = z.
Proof.
  intros Hz. unfold le_bytes4. cbn [le_val].
  pose proof (Z.div_mod z 256). pose proof (Z.div_mod (z / 256) 256). pose proof (Z.div_mod (z / 256 / 256) 256).
  assert (z / 256 / 256 / 256 mod 256 = z / 256 / 256 / 256); [|lia].
  apply Z.mod_small. rewrite !Z.div_div by lia. split; [apply Z.div_pos; lia|apply Z.div_lt_upper_bound; lia].
Qed.

Lemma serialize_spec c ss i s pre mid post : col_rep c ss -> ss !! i = Some s -> length mid = (4 + length s)%nat ->
  Z.of_nat (length s) + 4 < 2 ^ 32 ->
  serialize c (Z.of_nat i) (pre ++ mid ++ post) (Z.of_nat (length pre)) =
    Ok (Z.of_nat (length s) + 4, pre ++ le_bytes4 (Z.of_nat (length s)) ++ s ++ post).
Proof.
  intros Hc Hi Hm Hsz. pose proof (get_slice_spec c ss i s Hc Hi) as Hg. unfold get_slice in Hg. unfold serialize.
  destruct (rd (bc_offsets c) (Z.of_nat i)) as [lo|]; [|done]. destruct (rd (bc_offsets c) (Z.of_nat i + 1)) as [hi|]; [|done].
  cbn [mbind res_bind] in *.
  assert (u32 (hi - lo) = Z.of_nat (length s)) as E.
  { unfold loadu in Hg. destruct (_ && _) eqn:Eb; [|done]. injection Hg as <-. apply andb_true_iff in Eb as [E0%Z.leb_le Eb%Z.leb_le].
    rewrite length_take, length_drop. pose proof (wrapu_range 32 ltac:(lia) (hi - lo)) as [Hw _]. lia. }
  rewrite E in *. destruct (list_split 4 (length s) mid) as (m1 & m2 & -> & L1 & L2); [lia|].
  rewrite <-app_assoc, storeu_mid by (simpl; lia). cbn [mbind res_bind]. rewrite Hg. cbn [mbind res_bind].
  replace (Z.of_nat (length pre) + 4) with (Z.of_nat (length (pre ++ le_bytes4 (Z.of_nat (length s))))) by (rewrite length_app; simpl; lia).
  rewrite (app_assoc pre), storeu_mid by lia. cbn [mbind res_bind]. rewrite <-app_assoc. do 2 f_equal. unfold wrapu. rewrite Z.mod_small by lia. lia.
Qed.

Definition append_all (c : BinaryColumn) (ss : list (list Z)) : res BinaryColumn :=
  foldl (fun c s => c ← c; bc_append c s) (Ok c) ss.

Lemma append_all_spec ss : Z.of_nat (length (mjoin ss)) < 2 ^ 32 -> Z.of_nat (length ss) < 2 ^ 31 ->
  exists c, append_all BinaryColumn_new ss = Ok c /\ col_rep c ss.
Proof.
  induction ss as [|s ss IH] using rev_ind; intros Hs Hr; [exists BinaryColumn_new; split; [done|apply new_column]|].
  rewrite length_app in Hr. simpl in Hr. destruct IH as (c & Hc & Hrep); [rewrite join_app, length_app in Hs; lia|lia|].
  unfold append_all in *. rewrite foldl_app, Hc. simpl. apply append_spec; [done|done|lia].
Qed.

Lemma foldr_max_start x l : 0 <= x -> foldr Z.max x l = Z.max (foldr Z.max 0 l) x.
Proof. intros Hx. induction l as [|y l IH]; simpl; [lia|]. rewrite IH. lia. Qed.

Lemma max_serialized_spec c ss : col_rep c ss -> Z.of_nat (length (mjoin ss)) + 4 < 2 ^ 32 ->
  get_max_serialized_size c = Ok (foldr Z.max 0 ((fun s : list Z => Z.of_nat (length s)) <$> ss) + 4).
Proof.
  intros Hc Hs. unfold get_max_serialized_size. rewrite (col_size _ _ Hc), Nat2Z.id.
  destruct (for_rows_all (fun done m => m = foldr Z.max 0 ((fun s : list Z => Z.of_nat (length s)) <$> done) /\ m <= Z.of_nat (length (mjoin done)))
    (fun i max_size => lo ← rd (bc_offsets c) i; hi ← rd (bc_offsets c) (i + 1); Ok (Z.max max_size (u32 (hi - lo)))) ss 0)
    as (m & -> & -> & Hm); [by simpl| |].
  - intros done x todo m E [-> Hm]. destruct Hc as [_ Eo Hb _]. rewrite E in Eo, Hb. rewrite Eo.
    rewrite (rd_nat _ _ _ (offsets_lookup 0 (done ++ x :: todo) (length done) ltac:(rewrite length_app; lia))). cbn [mbind res_bind].
    replace (Z.of_nat (length done) + 1) with (Z.of_nat (S (length done))) by lia.
    rewrite (rd_nat _ _ _ (offsets_lookup 0 (done ++ x :: todo) (S (length done)) ltac:(rewrite length_app; simpl; lia))). cbn [mbind res_bind].
    rewrite (take_S_r _ _ _ (row_at done x todo)), take_app_length, !join_app, fmap_app, foldr_app, !length_app in *. simpl in *.
    rewrite app_nil_r, length_app in *.
    eexists. split; [reflexivity|]. unfold wrapu. rewrite Z.mod_small by lia. split; [|lia].
    replace (_ - _) with (Z.of_nat (length x)) by lia.
    rewrite (foldr_max_start (Z.max _ 0)) by lia. lia.
  - cbn [mbind res_bind]. f_equal. unfold wrapu. apply Z.mod_small. split; [|lia].
    assert (0 <= foldr Z.max 0 ((fun s : list Z => Z.of_nat (length s)) <$> ss)); [|lia]. clear. induction ss; simpl; lia.
Qed.

(** the serialized form of a string *)
Definition enc (s : list Z) : list Z := le_bytes4 (Z.of_nat (length s)) ++ s.

Lemma enc_length s : length (enc s) = (4 + length s)%nat.
Proof. unfold enc. by rewrite length_app. Qed.

(** a row of the buffer: the bytes written and the bytes to come *)
Definition flat (r : list Z * list Z) : list Z := r.1 ++ r.2.
Definition used (r : list Z * list Z) : Z := Z.of_nat (length r.1).
Definition step_row (s : list Z) (r : list Z * list Z) : list Z * list Z := (r.1 ++ enc s, drop (4 + length s) r.2).

(** a string fits into a row of [w] bytes *)
Definition fits (w : Z) (s : list Z) (r : list Z * list Z) : Prop :=
  used r + Z.of_nat (length r.2) = w /\ used r + 4 + Z.of_nat (length s) <= w.

Lemma step_row_length w s r : fits w s r -> Z.of_nat (length (flat (step_row s r))) = w.
Proof.
  unfold fits, used, flat, step_row. destruct r as [d o]. cbn [fst snd]. intros [E1 E2].
  rewrite !length_app, enc_length, length_drop. lia.
Qed.

Lemma rows_length w (rows : list (list Z * list Z)) : Forall (fun r => Z.of_nat (length (flat r)) = w) rows ->
  Z.of_nat (length (mjoin (flat <$> rows))) = Z.of_nat (length rows) * w.
Proof.
  induction 1 as [|r rows Hr _ IH]; [done|]. change (mjoin (flat <$> r :: rows)) with (flat r ++ mjoin (flat <$> rows)).
  rewrite length_app, Nat2Z.inj_add, IH, Hr. cbn [length]. lia.
Qed.

Lemma steps_length w ss rows : Forall2 (fits w) ss rows ->
  Z.of_nat (length (mjoin (flat <$> zip_with step_row ss rows))) = Z.of_nat (length ss) * w.
Proof.
  intros HF. rewrite rows_length with (w := w); [by rewrite length_zip_with_l_eq by (by eapply Forall2_length)|].
  induction HF as [|s r ss rows Hf _ IH]; [constructor|]. cbn [zip_with]. constructor; [by apply step_row_length|done].
Qed.

(** [serialize_batch] appends the strings of a column to the rows *)
Lemma serialize_batch_rows c ss rows w tail tsz : col_rep c ss -> w < 2 ^ 32 -> Forall2 (fits w) ss rows ->
  serialize_batch c (mjoin (flat <$> rows) ++ tail) ((used <$> rows) ++ tsz) (Z.of_nat (length ss)) w =
    Ok (mjoin (flat <$> zip_with step_row ss rows) ++ tail, (used <$> zip_with step_row ss rows) ++ tsz).
Proof.
  intros Hc Hw HF. unfold serialize_batch. rewrite Nat2Z.id. pose proof (Forall2_length _ _ _ HF) as L.
  set (f := fun i => _).
  destruct (for_rows_all (fun done r => r =
      (mjoin (flat <$> zip_with step_row done (take (length done) rows)) ++ mjoin (flat <$> drop (length done) rows) ++ tail,
       (used <$> zip_with step_row done (take (length done) rows)) ++ (used <$> drop (length done) rows) ++ tsz)) f ss
      (mjoin (flat <$> rows) ++ tail, (used <$> rows) ++ tsz)) as (r & -> & ->); [done| |].
  - intros done x todo r E ->. eexists. split; [|reflexivity]. rewrite E in HF.
    apply Forall2_app_inv_l in HF as (r1 & r2 & HF1 & HF2 & ->). apply Forall2_cons_inv_l in HF2 as ([d o] & r2' & Hfit & HF2 & ->).
    pose proof (Forall2_length _ _ _ HF1) as L1. rewrite L1, take_app_length, drop_app_length.
    rewrite length_app, L1. cbn [length]. rewrite Nat.add_1_r.
    rewrite take_app_ge, drop_app_ge by lia. replace (S (length r1) - length r1)%nat with 1%nat by lia. cbn [take drop].
    rewrite zip_with_app by done. cbn [zip_with]. rewrite !fmap_app, join_app. cbn [fmap list_fmap mjoin list_join].
    unfold f. set (pre := used <$> zip_with step_row done r1). assert (length pre = length r1) as Lp.
    { unfold pre. rewrite length_fmap, length_zip_with_l_eq by done. done. }
    rewrite (rd_nat _ _ (used (d, o))) by (rewrite <-Lp; apply row_at). cbn [mbind res_bind].
    destruct Hfit as [Hf1 Hf2]. unfold used in *. cbn [fst snd] in *.
    destruct (list_split (4 + length x) (length o - (4 + length x)) o) as (o1 & o2 & Eo & Lo1 & Lo2); [lia|].
    set (img := mjoin (flat <$> zip_with step_row done r1)).
    assert (Z.of_nat (length r1) * w + Z.of_nat (length d) = Z.of_nat (length (img ++ d))) as ->.
    { rewrite length_app, Nat2Z.inj_add. unfold img. rewrite (steps_length w) by done. lia. }
    rewrite <-L1. unfold flat at 1. cbn [fst snd]. rewrite Eo at 1. rewrite <-!app_assoc, (app_assoc img d).
    rewrite (serialize_spec c ss (length done) x (img ++ d) o1 _ Hc); [|rewrite E; apply row_at|done|lia].
    cbn [mbind res_bind]. rewrite wr_Ok by (rewrite !length_app, Lp; cbn [length]; lia). cbn [mbind res_bind]. do 2 f_equal.
    + unfold step_row, flat, enc. cbn [fst snd]. rewrite Eo at 1. rewrite drop_app_length' by lia. by rewrite <-!app_assoc.
    + rewrite Nat2Z.id, L1, <-Lp, insert_app_r_alt by lia. rewrite Nat.sub_diag. cbn [app list_insert insert].
      change (drop 0 r2') with r2'. do 2 f_equal. unfold step_row. cbn [fst]. rewrite length_app, enc_length.
      unfold wrapu. rewrite Z.mod_small by lia. lia.
  - by rewrite L, drop_ge, take_ge by lia.
Qed.

(** a row of the buffer after [serialize] of one column: the length of the
    string, its bytes, and what was there before *)
Definition row_image (s old : list Z) : list Z := le_bytes4 (Z.of_nat (length s)) ++ s ++ drop (4 + length s) old.

Lemma blank_used (olds : list (list Z)) : used <$> (pair [] <$> olds) = replicate (length olds) 0.
Proof. induction olds as [|o olds IH]; [done|]. cbn. f_equal. exact IH. Qed.

Lemma serialize_batch_spec c ss olds w : col_rep c ss -> w < 2 ^ 32 -> Forall (fun s : list Z => Z.of_nat (length s) + 4 <= w) ss ->
  length olds = length ss -> Forall (fun o : list Z => Z.of_nat (length o) = w) olds ->
  serialize_batch c (mjoin olds) (replicate (length ss) 0) (Z.of_nat (length ss)) w =
    Ok (mjoin (zip_with row_image ss olds), (fun s : list Z => Z.of_nat (length s) + 4) <$> ss).
Proof.
  intros Hc Hw32 Hw Hlen Ho. pose proof (serialize_batch_rows c ss (pair [] <$> olds) w [] [] Hc Hw32) as H.
  assert (flat <$> (pair [] <$> olds) = olds) as E1 by (rewrite <-list_fmap_compose; apply list_fmap_id).
  rewrite E1, blank_used, Hlen, !app_nil_r in H. rewrite H.
  - clear -Hlen. do 2 f_equal; [f_equal|]; revert olds Hlen; induction ss as [|s ss IH]; intros [|o olds] L; try done; cbn [zip_with fmap list_fmap];
      f_equal; try (apply IH; by injection L).
    unfold used, step_row. cbn [fst app]. rewrite enc_length. lia.
  - apply Forall2_fmap_r. apply Forall2_same_length_lookup_2; [done|]. intros i s o Hs Hol.
    pose proof (proj1 (Forall_lookup _ _) Hw _ _ Hs). pose proof (proj1 (Forall_lookup _ _) Ho _ _ Hol).
    unfold compose, fits, used. cbn [fst snd length] in *. lia.
Qed.

(** rows appended to an empty column are the rows [to_vector] returns;
    [get_max_serialized_size] is the size of the longest row and its header;
    and [serialize_batch] writes row [i] at [i * max_one_row_size] of the
    buffer, its length in four bytes before its bytes, and nothing else. *)
Theorem binary_column_roundtrip ss olds w : Z.of_nat (length (mjoin ss)) + 4 < 2 ^ 32 -> Z.of_nat (length ss) < 2 ^ 31 ->
  w < 2 ^ 32 -> Forall (fun s : list Z => Z.of_nat (length s) + 4 <= w) ss ->
  length olds = length ss -> Forall (fun o : list Z => Z.of_nat (length o) = w) olds ->
  exists c, append_all BinaryColumn_new ss = Ok c /\ to_vector c = Ok ss /\
    get_max_serialized_size c = Ok (foldr Z.max 0 ((fun s : list Z => Z.of_nat (length s)) <$> ss) + 4) /\
    serialize_batch c (mjoin olds) (replicate (length ss) 0) (Z.of_nat (length ss)) w =
      Ok (mjoin (zip_with row_image ss olds), (fun s : list Z => Z.of_nat (length s) + 4) <$> ss) /\
    Forall (fun s : list Z => le_val (le_bytes4 (Z.of_nat (length s))) = Z.of_nat (length s)) ss.
Proof.
  intros Hs Hr Hw32 Hw Hl Ho. destruct (append_all_spec ss) as (c & Ec & Hc); [lia|lia|]. exists c.
  split_and!; [done|by apply to_vector_spec|by apply max_serialized_spec|by apply serialize_batch_spec|].
  eapply Forall_impl; [exact Hw|]. intros s Hlen. simpl in Hlen. apply le_bytes4_val. lia.
Qed.

Lemma binary_column_roundtrip_witness : exists c, append_all BinaryColumn_new [[97; 98]; []; [99]] = Ok c /\ to_vector c = Ok [[97; 98]; []; [99]].
Proof.
  destruct (binary_column_roundtrip [[97; 98]; []; [99]] (replicate 3 (replicate 8 0)) 8) as (c & H1 & H2 & _).
  - simpl. lia.
  - simpl. lia.
  - lia.
  - repeat constructor; simpl; lia.
  - reflexivity.
  - repeat constructor.
  - exists c. split; [exact H1|exact H2].
Defined.
