(* ===== verification/Concat.v ===== *)
(** * Concatenation of columns: src/include/concat.hh

    [concat_vertically] serializes the rows of several columns next to each
    other, as keys of a hash table; [concat_horizontally] builds a column of the
    concatenated strings. [raw] is the content of memory that [raw::make_room]
    leaves uninitialised. *)

From S2P Require Import Prelude.
From S2P Require Import Simd.
From S2P Require Import BinaryColumn.

Fixpoint get_max_serialize_size (columns : list BinaryColumn) (max_size : Z) : res Z :=
  match columns with
  | [] => Ok max_size
  | c :: columns =>
      n ← get_max_serialized_size c;
      get_max_serialize_size columns (u32 (max_size + n))
  end.

(** [raw::make_room] of a vector: [n] elements of unknown content *)
Definition make_room_vector (raw : nat -> Z) (n : Z) : list Z := raw <$> seq 0 (Z.to_nat n).

Fixpoint serialize_columns (columns : list BinaryColumn) (chunk_size max_one_row_size : Z) (st : list Z * list Z) :
    res (list Z * list Z) :=
  match columns with
  | [] => Ok st
  | c :: columns =>
      st ← serialize_batch c (fst st) (snd st) chunk_size max_one_row_size;
      serialize_columns columns chunk_size max_one_row_size st
  end.

(** the buffer and the sizes of the rows in it; the size of the buffer is
    computed in 32 bits *)
Definition concat_vertically (raw : nat -> Z) (columns : list BinaryColumn) : res (list Z * list Z) :=
  let slice_sizes := replicate 4096 0 in
  max_one_row_size ← get_max_serialize_size columns 0;
  let buffer := make_room_vector raw (u32 (4096 * max_one_row_size)) in
  match columns with
  | [] => Ok (buffer, slice_sizes)
  | c0 :: _ => serialize_columns columns (bc_size c0) max_one_row_size (buffer, slice_sizes)
  end.

(** the bytes of row [i] of all columns *)
Fixpoint concat_row (columns : list BinaryColumn) (i : Z) (bytes : list Z) : res (list Z) :=
  match columns with
  | [] => Ok bytes
  | c :: columns => s ← get_slice c i; concat_row columns i (bytes ++ s)
  end.

Definition concat_horizontally (raw : nat -> Z) (columns : list BinaryColumn) : res BinaryColumn :=
  c0 ← rd columns 0;
  let num_rows := bc_size c0 in
  let offsets := make_room_vector raw (num_rows + 1) in
  r ← for_rows (Z.to_nat num_rows) 0 (fun i '(bytes, offsets) =>
        bytes ← concat_row columns i bytes;
        offsets ← wr offsets (i + 1) (u32 (Z.of_nat (length bytes)));
        Ok (bytes, offsets)) ([], offsets);
  Ok (mkColumn (fst r) (snd r)).

(** ** Rows *)

(** a string can be read back from the front of its serialized form *)
Lemma enc_inj s1 s2 r1 r2 : Z.of_nat (length s1) < 2 ^ 32 -> Z.of_nat (length s2) < 2 ^ 32 ->
  enc s1 ++ r1 = enc s2 ++ r2 -> s1 = s2 /\ r1 = r2.
Proof.
  intros H1 H2 E. unfold enc in E. rewrite <-!app_assoc in E.
  apply app_inj_1 in E as [Eh Et]; [|done]. apply (f_equal le_val) in Eh. rewrite !le_bytes4_val in Eh by lia.
  by apply app_inj_1 in Et; [|lia].
Qed.

(** the key of a row *)
Definition row_key (row : list (list Z)) : list Z := mjoin (enc <$> row).

Lemma row_key_inj r1 : forall r2, length r1 = length r2 -> Forall (fun s : list Z => Z.of_nat (length s) < 2 ^ 32) r1 ->
  Forall (fun s : list Z => Z.of_nat (length s) < 2 ^ 32) r2 -> row_key r1 = row_key r2 -> r1 = r2.
Proof.
  induction r1 as [|s1 r1 IH]; intros [|s2 r2] L H1 H2 E; try done. apply Forall_cons in H1 as [Hs1 H1], H2 as [Hs2 H2].
  change (enc s1 ++ row_key r1 = enc s2 ++ row_key r2) in E. apply enc_inj in E as [-> E]; [|done|done].
  f_equal. apply IH; [by injection L|done..].
Qed.

(** ** The columns *)

(** the size of the longest string of a column and its header *)
Definition max_width (ss : list (list Z)) : Z := foldr Z.max 0 ((fun s : list Z => Z.of_nat (length s)) <$> ss) + 4.

Definition width (css : list (list (list Z))) : Z := foldr Z.add 0 (max_width <$> css).

Lemma max_width_bound ss : 4 <= max_width ss /\ Forall (fun s : list Z => Z.of_nat (length s) + 4 <= max_width ss) ss.
Proof.
  unfold max_width. induction ss as [|s ss [IH1 IH2]]; [by simpl|]. cbn [fmap list_fmap foldr]. split; [lia|].
  constructor; [lia|]. eapply Forall_impl; [exact IH2|]. cbn beta. intros x Hx. lia.
Qed.

Lemma width_nonneg css : 0 <= width css.
Proof. induction css as [|ss css IH]; [done|]. cbn. pose proof (proj1 (max_width_bound ss)). unfold width in IH. lia. Qed.

(** columns that hold the strings [css], [n] in each *)
Definition cols_rep (n : nat) (columns : list BinaryColumn) (css : list (list (list Z))) : Prop :=
  Forall2 (fun c ss => col_rep c ss /\ length ss = n /\ Z.of_nat (length (mjoin ss)) + 4 < 2 ^ 32) columns css.

Lemma get_max_serialize_size_spec n columns css : cols_rep n columns css -> forall m, 0 <= m -> m + width css < 2 ^ 32 ->
  get_max_serialize_size columns m = Ok (m + width css).
Proof.
  induction 1 as [|c ss columns css (Hc & _ & Hb) _ IH]; intros m Hm Hw; [cbn; f_equal; lia|].
  change (width (ss :: css)) with (max_width ss + width css) in *. pose proof (proj1 (max_width_bound ss)). pose proof (width_nonneg css).
  cbn [get_max_serialize_size]. rewrite (max_serialized_spec _ _ Hc Hb). cbn [mbind res_bind]. fold (max_width ss).
  unfold wrapu. rewrite Z.mod_small by lia. rewrite IH by lia. f_equal. lia.
Qed.

(** the rows after the columns [css] *)
Definition step_rows (css : list (list (list Z))) (rows : list (list Z * list Z)) : list (list Z * list Z) :=
  foldl (fun rows ss => zip_with step_row ss rows) rows css.

(** [room] bytes of each row of [w] bytes are left *)
Definition roomy (w room : Z) (r : list Z * list Z) : Prop := used r + Z.of_nat (length r.2) = w /\ used r + room <= w.

Lemma roomy_fits w room ss rows : 0 <= room -> length ss = length rows -> Forall (roomy w (max_width ss + room)) rows ->
  Forall2 (fits w) ss rows /\ Forall (roomy w room) (zip_with step_row ss rows).
Proof.
  intros Hr L HF. pose proof (proj2 (max_width_bound ss)) as Hw. revert Hw HF. generalize (max_width ss). intros m Hw HF.
  revert rows L HF. induction Hw as [|s ss Hs _ IH]; intros [|[d o] rows] L HF; try done.
  apply Forall_cons in HF as [[E1 E2] HF]. destruct (IH rows ltac:(by injection L) HF) as [H1 H2].
  unfold used in *. cbn [fst snd] in *. cbn [zip_with]. split; constructor; try done.
  - unfold fits, used. cbn [fst snd]. lia.
  - unfold roomy, step_row, used. cbn [fst snd]. rewrite length_app, enc_length, length_drop. lia.
Qed.

Lemma serialize_columns_spec n columns css w tail tsz : cols_rep n columns css -> w < 2 ^ 32 -> forall rows, length rows = n ->
  Forall (roomy w (width css)) rows ->
  serialize_columns columns (Z.of_nat n) w (mjoin (flat <$> rows) ++ tail, (used <$> rows) ++ tsz) =
    Ok (mjoin (flat <$> step_rows css rows) ++ tail, (used <$> step_rows css rows) ++ tsz) /\
  Forall (roomy w 0) (step_rows css rows).
Proof.
  intros HF Hw. induction HF as [|c ss columns css (Hc & Ln & _) _ IH]; intros rows L Hr; [done|].
  change (width (ss :: css)) with (max_width ss + width css) in Hr.
  destruct (roomy_fits w (width css) ss rows) as [Hf Hr']; [apply width_nonneg|lia|done|].
  cbn [serialize_columns fst snd]. rewrite <-Ln, (serialize_batch_rows c ss rows w tail tsz Hc Hw Hf). cbn [mbind res_bind]. rewrite Ln.
  apply IH; [|done]. rewrite length_zip_with_l_eq; lia.
Qed.

(** row [i] of the columns *)
Definition row_of (css : list (list (list Z))) (i : nat) : list (list Z) := (fun ss => default [] (ss !! i)) <$> css.

Lemma step_rows_lookup css n i : Forall (fun ss => length ss = n) css -> (i < n)%nat -> forall rows d o, rows !! i = Some (d, o) ->
  exists o', step_rows css rows !! i = Some (d ++ row_key (row_of css i), o').
Proof.
  intros Hn Hi. induction Hn as [|ss css L _ IH]; intros rows d o E; [exists o; by rewrite app_nil_r|].
  destruct (lookup_lt_is_Some_2 ss i) as [s Es]; [lia|].
  destruct (IH (zip_with step_row ss rows) (d ++ enc s) (drop (4 + length s) o)) as [o' E'].
  - rewrite lookup_zip_with, Es. cbn [mbind option_bind]. by rewrite E.
  - exists o'. cbn [step_rows foldl]. unfold step_rows in E'. rewrite E'. unfold row_of. cbn [fmap list_fmap]. rewrite Es. cbn [default from_option].
    unfold row_key. cbn [fmap list_fmap mjoin list_join]. by rewrite app_assoc.
Qed.

Lemma step_rows_length n css : Forall (fun ss => length ss = n) css -> forall rows, length rows = n -> length (step_rows css rows) = n.
Proof. induction 1 as [|ss css L _ IH]; intros rows Lr; [done|]. apply IH. rewrite length_zip_with_l_eq; lia. Qed.

(** a buffer is a list of rows of [w] bytes and a rest *)
Lemma split_rows n w (b : list Z) : (n * w <= length b)%nat -> exists rows rest,
  b = mjoin rows ++ rest /\ length rows = n /\ Forall (fun r : list Z => length r = w) rows.
Proof.
  revert b. induction n as [|n IH]; intros b L; [exists [], b; split_and!; [done|done|constructor]|].
  destruct (IH (drop w b)) as (rows & rest & E & Ln & HF); [rewrite length_drop; cbn in L; lia|].
  exists (take w b :: rows), rest. split_and!.
  - rewrite mjoin_cons, <-app_assoc, <-E. by rewrite take_drop.
  - cbn. by rewrite Ln.
  - constructor; [|done]. rewrite length_take. cbn in L. lia.
Qed.

Lemma rows_lookup w (rows : list (list Z * list Z)) tail i r : Forall (fun r => Z.of_nat (length (flat r)) = w) rows -> rows !! i = Some r ->
  loadu (length r.1) (mjoin (flat <$> rows) ++ tail) (Z.of_nat i * w) = Ok r.1.
Proof.
  intros HF Hi. rewrite <-(take_drop_middle _ _ _ Hi), fmap_app, join_app. cbn [fmap list_fmap mjoin list_join].
  assert (Z.of_nat i * w = Z.of_nat (length (mjoin (flat <$> take i rows)))) as ->.
  { rewrite (rows_length w) by (by apply Forall_take). rewrite length_take_le; [done|]. apply lookup_lt_Some in Hi. lia. }
  unfold flat at 2. rewrite <-!app_assoc. by apply loadu_mid.
Qed.

Lemma cols_rep_lengths n columns css : cols_rep n columns css -> Forall (fun ss => length ss = n) css.
Proof. induction 1 as [|c ss columns css (_ & L & _) _ IH]; constructor; [exact L|exact IH]. Qed.

Lemma cols_rep_row n columns css i : cols_rep n columns css -> Forall (fun s : list Z => Z.of_nat (length s) < 2 ^ 32) (row_of css i).
Proof.
  induction 1 as [|c ss columns css (_ & _ & Hb) _ IH]; [constructor|]. unfold row_of. cbn [fmap list_fmap]. constructor; [|exact IH].
  destruct (ss !! i) as [s|] eqn:E; cbn; [|lia]. rewrite <-(take_drop_middle _ _ _ E), join_app, length_app, mjoin_cons, length_app in Hb. lia.
Qed.

Lemma make_room_vector_length raw n : length (make_room_vector raw n) = Z.to_nat n.
Proof. unfold make_room_vector. by rewrite length_fmap, length_seq. Qed.

Lemma first_size n c0 columns css : cols_rep n (c0 :: columns) css -> bc_size c0 = Z.of_nat n.
Proof. inversion 1 as [|? ss ? ? (Hc & <- & _)]. by apply col_size. Qed.

(** C36: [concat_vertically] puts the key of row [i], its strings with their
    lengths in front, at [i * max_one_row_size] of the buffer and its size into
    [slice_sizes[i]], for up to 4096 rows and a buffer of less than 4 GiB; two
    rows have the same key exactly when all their strings are equal. *)
Theorem concat_keys raw n columns css : cols_rep n columns css -> columns <> [] -> (n <= 4096)%nat -> 4096 * width css < 2 ^ 32 ->
  exists buffer sizes, concat_vertically raw columns = Ok (buffer, sizes) /\
    get_max_serialize_size columns 0 = Ok (width css) /\
    (forall i, (i < n)%nat -> sizes !! i = Some (Z.of_nat (length (row_key (row_of css i)))) /\
       loadu (length (row_key (row_of css i))) buffer (Z.of_nat i * width css) = Ok (row_key (row_of css i))) /\
    (forall i, (n <= i < 4096)%nat -> sizes !! i = Some 0) /\
    (forall i j, row_key (row_of css i) = row_key (row_of css j) <-> row_of css i = row_of css j).
Proof.
  intros HF Hne Hn Hw. pose proof (width_nonneg css) as Hw0. destruct columns as [|c0 columns]; [done|]. unfold concat_vertically.
  rewrite (get_max_serialize_size_spec n _ css HF) by lia. cbn [mbind res_bind]. rewrite Z.add_0_l, (first_size _ _ _ _ HF).
  unfold wrapu. rewrite (Z.mod_small (4096 * width css)) by lia.
  destruct (split_rows n (Z.to_nat (width css)) (make_room_vector raw (4096 * width css))) as (olds & rest & -> & Ln & HL);
    [rewrite make_room_vector_length; nia|].
  destruct (serialize_columns_spec n _ css (width css) rest (replicate (4096 - n) 0) HF ltac:(lia) (pair [] <$> olds)) as [E Hr].
  { by rewrite length_fmap. }
  { apply Forall_fmap. eapply Forall_impl; [exact HL|]. intros o L. unfold compose, roomy, used. cbn [fst snd length]. cbn beta in L. lia. }
  rewrite <-list_fmap_compose, list_fmap_id in E.
  rewrite blank_used, Ln, <-replicate_add in E. replace (n + (4096 - n))%nat with 4096%nat in E by lia.
  set (rows := step_rows css (pair [] <$> olds)) in *. assert (forall i, (i < n)%nat -> exists o, rows !! i = Some (row_key (row_of css i), o)) as Hrows.
  { intros i Hi. destruct (lookup_lt_is_Some_2 olds i) as [o Ho]; [lia|].
    apply (step_rows_lookup css n i (cols_rep_lengths _ _ _ HF) Hi _ [] o). by rewrite list_lookup_fmap, Ho. }
  eexists _, _. split_and!; [exact E|done| | |].
  - intros i Hi. destruct (Hrows i Hi) as [o Ho]. split.
    + rewrite lookup_app_l by (rewrite length_fmap; by eapply lookup_lt_Some). by rewrite list_lookup_fmap, Ho.
    + apply (rows_lookup _ rows rest i (row_key (row_of css i), o)); [|done]. eapply Forall_impl; [exact Hr|].
      intros r [Hr1 _]. unfold flat. rewrite length_app. unfold used in Hr1. lia.
  - intros i Hi. assert (length rows = n) as Lr. by (apply step_rows_length; [by eapply cols_rep_lengths|by rewrite length_fmap]).
    rewrite lookup_app_r by (rewrite length_fmap; lia). rewrite length_fmap, Lr. apply lookup_replicate. lia.
  - intros i j. split; [|by intros ->]. apply row_key_inj; [|by eapply cols_rep_row..]. unfold row_of. by rewrite !length_fmap.
Qed.

Lemma concat_keys_witness : exists buffer sizes,
  concat_vertically (fun _ => 7) [mkColumn [97; 98; 99] [0; 2; 3]; mkColumn [100] [0; 0; 1]] = Ok (buffer, sizes) /\
  loadu 10 buffer 0 = Ok [2; 0; 0; 0; 97; 98; 0; 0; 0; 0] /\ sizes !! 1%nat = Some 10.
Proof.
  destruct (concat_keys (fun _ => 7) 2 [mkColumn [97; 98; 99] [0; 2; 3]; mkColumn [100] [0; 0; 1]] [[[97; 98]; [99]]; [[]; [100]]])
    as (b & z & H1 & _ & H2 & _ & _).
  - repeat constructor; cbn; lia.
  - discriminate.
  - lia.
  - vm_compute. done.
  - exists b, z. split_and!; [exact H1|exact (proj2 (H2 0%nat ltac:(lia)))|exact (proj1 (H2 1%nat ltac:(lia)))].
Defined.

(** a row size that is a multiple of 2^20 wraps the size of the buffer to zero *)
Lemma concat_vertically_overflow raw n columns css : cols_rep n columns css -> columns <> [] -> (0 < n)%nat ->
  width css < 2 ^ 32 -> u32 (4096 * width css) = 0 -> concat_vertically raw columns = Err EBounds.
Proof.
  intros HF Hne Hn Hw H0. destruct columns as [|c0 columns]; [done|]. unfold concat_vertically.
  rewrite (get_max_serialize_size_spec n _ css HF) by (pose proof (width_nonneg css); lia). cbn [mbind res_bind]. rewrite Z.add_0_l, (first_size _ _ _ _ HF), H0.
  inversion HF as [|? ss ? ? (Hc & L & _) _]; subst. destruct ss as [|s ss]; [cbn in Hn; lia|].
  cbn [serialize_columns fst snd]. unfold serialize_batch. rewrite Nat2Z.id. cbn [length for_rows].
  change (rd (replicate 4096 0) 0) with (Ok 0). cbn [mbind res_bind]. unfold serialize. rewrite (cr_offsets _ _ Hc).
  change (rd (offsets_from 0 (s :: ss)) 0) with (Ok 0). change (0 + 1) with (Z.of_nat 1).
  rewrite (rd_nat _ 1 _ (offsets_lookup 0 (s :: ss) 1 ltac:(cbn; lia))). done.
Qed.

(** ** The column of concatenated strings *)

Lemma concat_row_spec n columns css i : cols_rep n columns css -> (i < n)%nat -> forall bytes,
  concat_row columns (Z.of_nat i) bytes = Ok (bytes ++ mjoin (row_of css i)).
Proof.
  intros HF Hi. induction HF as [|c ss columns css (Hc & L & _) _ IH]; intros bytes; [cbn; by rewrite app_nil_r|].
  destruct (lookup_lt_is_Some_2 ss i) as [s Es]; [lia|]. cbn [concat_row]. rewrite (get_slice_spec c ss i s Hc Es). cbn [mbind res_bind].
  rewrite IH. unfold row_of. cbn [fmap list_fmap]. rewrite Es, mjoin_cons, <-app_assoc. done.
Qed.

(** the strings of the rows, all columns together *)
Definition rows_of (n : nat) (css : list (list (list Z))) : list (list Z) := (fun i => mjoin (row_of css i)) <$> seq 0 n.

Lemma concat_horizontally_spec raw n columns css : cols_rep n columns css -> columns <> [] -> Z.of_nat n < 2 ^ 31 ->
  Z.of_nat (length (mjoin (rows_of n css))) < 2 ^ 32 ->
  concat_horizontally raw columns = Ok (mkColumn (mjoin (rows_of n css)) (<[0%nat := raw 0%nat]> (offsets_from 0 (rows_of n css)))).
Proof.
  intros HF Hne Hn Hb. destruct columns as [|c0 columns]; [done|]. unfold concat_horizontally.
  change (rd (c0 :: columns) 0) with (Ok c0). cbn [mbind res_bind]. rewrite (first_size _ _ _ _ HF), Nat2Z.id.
  assert (length (rows_of n css) = n) as Ln by (unfold rows_of; by rewrite length_fmap, length_seq).
  match goal with |- context [for_rows _ _ ?g _] => set (f := g) end.
  destruct (for_rows_all (fun (done : list (list Z)) r => r = (mjoin done,
      <[0%nat := raw 0%nat]> (offsets_from 0 done) ++ (raw <$> seq (S (length done)) (n - length done)))) f (rows_of n css)
      ([], make_room_vector raw (Z.of_nat n + 1))) as (r & E & ->).
  - unfold make_room_vector. replace (Z.to_nat _) with (S n) by lia. cbn. by rewrite Nat.sub_0_r.
  - intros done x todo r E ->. eexists. split; [|reflexivity]. unfold f.
    assert (length done < n)%nat as Hd by (rewrite <-Ln, E, length_app; cbn; lia).
    assert (mjoin (row_of css (length done)) = x) as Ex.
    { pose proof (row_at done x todo) as Hx. rewrite <-E in Hx. unfold rows_of in Hx.
      rewrite list_lookup_fmap, lookup_seq_lt in Hx by lia. by injection Hx. }
    rewrite (concat_row_spec n _ css _ HF Hd), Ex. cbn [mbind res_bind].
    assert (mjoin (done ++ [x]) = mjoin done ++ x) as Ej by (rewrite join_app; cbn; by rewrite app_nil_r).
    set (o := <[0%nat := raw 0%nat]> (offsets_from 0 done)).
    assert (length o = S (length done)) as Lo by (unfold o; by rewrite length_insert, offsets_length).
    assert (Z.of_nat (length done) + 1 = Z.of_nat (length o)) as -> by lia.
    replace (n - length done)%nat with (S (n - S (length done))) by lia. cbn [seq fmap list_fmap].
    rewrite wr_Ok by (rewrite length_app; cbn; lia). cbn [mbind res_bind]. do 2 f_equal; [done|].
    rewrite Nat2Z.id, insert_app_r_alt, Nat.sub_diag by lia. cbn [insert list_insert]. rewrite offsets_snoc, insert_app_l by (rewrite offsets_length; lia).
    rewrite last_length, <-app_assoc. cbn [app]. fold o. do 3 f_equal. rewrite Ej. unfold wrapu. apply Z.mod_small.
    rewrite E, join_app, mjoin_cons, app_assoc, length_app in Hb. lia.
  - rewrite Ln in E. rewrite E. cbn [mbind res_bind fst snd]. rewrite Nat.sub_diag. cbn. by rewrite app_nil_r.
Qed.

(** the size of the first row tells its offset *)
Lemma first_row_offset rows r0 x : 0 <= r0 < 2 ^ 32 -> Z.of_nat (length (mjoin rows)) < 2 ^ 32 ->
  get_slice (mkColumn (mjoin rows) (<[0%nat := r0]> (offsets_from 0 rows))) 0 = Ok x -> rows !! 0%nat = Some x -> r0 = 0.
Proof.
  intros Hr Hb Hg Hx. destruct rows as [|y rows]; [done|]. injection Hx as ->. unfold get_slice in Hg. cbn [bc_offsets bc_bytes] in Hg. rewrite mjoin_cons in Hg, Hb.
  change (rd (<[0%nat := r0]> (offsets_from 0 (x :: rows))) 0) with (Ok r0) in Hg. change (0 + 1) with (Z.of_nat 1) in Hg.
  rewrite (rd_nat _ 1 (Z.of_nat (length x))) in Hg by (cbn; by destruct rows). cbn [mbind res_bind] in Hg.
  unfold loadu in Hg. destruct (_ && _) eqn:Eb; [|done]. injection Hg as E. apply (f_equal length) in E.
  apply andb_true_iff in Eb as [_ Eb%Z.leb_le]. rewrite length_take, length_drop in E. rewrite length_app in Hb, Eb, E.
  pose proof (wrapu_range 32 ltac:(lia) (Z.of_nat (length x) - r0)) as [Hw _].
  assert (u32 (Z.of_nat (length x) - r0) = Z.of_nat (length x)) as Eu by lia. unfold wrapu in Eu.
  destruct (Z.le_gt_cases r0 (Z.of_nat (length x))); [rewrite Z.mod_small in Eu; lia|].
  rewrite <-(Z.mod_add _ 1), Z.mod_small in Eu; lia.
Qed.

(** [concat_horizontally] returns the column of the concatenated strings
    except for the offset of the first row, which [raw::make_room] leaves
    uninitialised: every later row is right, and the first one exactly when the
    memory happened to hold zero. *)
Theorem concat_first_offset raw n columns css : cols_rep n columns css -> columns <> [] -> (0 < n)%nat -> Z.of_nat n < 2 ^ 31 ->
  Z.of_nat (length (mjoin (rows_of n css))) < 2 ^ 32 -> 0 <= raw 0%nat < 2 ^ 32 ->
  exists c, concat_horizontally raw columns = Ok c /\ bc_size c = Z.of_nat n /\
    (forall i, (0 < i < n)%nat -> get_slice c (Z.of_nat i) = Ok (mjoin (row_of css i))) /\
    (get_slice c 0 = Ok (mjoin (row_of css 0)) <-> raw 0%nat = 0) /\
    (raw 0%nat = 0 -> col_rep c (rows_of n css)).
Proof.
  intros HF Hne Hn0 Hn Hb Hraw. rewrite (concat_horizontally_spec raw n columns css) by done. eexists. split; [reflexivity|].
  assert (length (rows_of n css) = n) as Ln by (unfold rows_of; by rewrite length_fmap, length_seq).
  set (ok := mkColumn (mjoin (rows_of n css)) (offsets_from 0 (rows_of n css))).
  assert (col_rep ok (rows_of n css)) as Hok by (split; [done|done|done|by rewrite Ln]).
  assert (forall i, (i < n)%nat -> rows_of n css !! i = Some (mjoin (row_of css i))) as Hl.
  { intros i Hi. unfold rows_of. by rewrite list_lookup_fmap, lookup_seq_lt. }
  assert (raw 0%nat = 0 -> <[0%nat := raw 0%nat]> (offsets_from 0 (rows_of n css)) = offsets_from 0 (rows_of n css)) as Hz.
  { intros ->. apply list_insert_id. destruct (rows_of n css); done. }
  split_and!.
  - unfold bc_size. cbn [bc_offsets]. rewrite length_insert. etrans; [exact (col_size ok _ Hok)|by rewrite Ln].
  - intros i Hi. rewrite <-(get_slice_spec ok _ i _ Hok (Hl i ltac:(lia))). unfold get_slice, rd. cbn [bc_offsets bc_bytes ok].
    by rewrite !list_lookup_insert_ne by lia.
  - split; [|intros H0; rewrite (Hz H0); exact (get_slice_spec ok _ 0 _ Hok (Hl 0%nat Hn0))]. intros Hg. by apply (first_row_offset _ _ _ Hraw Hb Hg), Hl.
  - intros H0. by rewrite (Hz H0).
Qed.

Lemma concat_first_offset_witness : exists c,
  concat_horizontally (fun _ => 1) [mkColumn [97; 98; 99] [0; 2; 3]; mkColumn [100] [0; 0; 1]] = Ok c /\
  get_slice c 1 = Ok [99; 100] /\ get_slice c 0 <> Ok [97; 98].
Proof.
  destruct (concat_first_offset (fun _ => 1) 2 [mkColumn [97; 98; 99] [0; 2; 3]; mkColumn [100] [0; 0; 1]] [[[97; 98]; [99]]; [[]; [100]]])
    as (c & H1 & _ & H2 & H3 & _).
  - repeat constructor; cbn; lia.
  - discriminate.
  - lia.
  - lia.
  - vm_compute. reflexivity.
  - lia.
  - exists c. split_and!; [exact H1|exact (H2 1%nat ltac:(lia))|]. intros E. apply H3 in E. discriminate E.
Defined.
