(* ===== verification/Utf8.v ===== *)
(** * UTF-8 strings: src/include/string_functions.hh, lengths and positions

    The functions of [StringFunctions] that count the characters of a string,
    check that it is ASCII, and move over characters. A string is the list of
    its bytes and a pointer into it an offset; strings are shorter than [2^31],
    so that the [int] counters do not overflow. *)

From S2P Require Import Prelude.
From S2P Require Import Simd.
From S2P Require Import Reverse.

(** ** The length tables *)

Definition create_utf8_length_table : list Z :=
  (fun byte => if 0xFC <=? byte then 6 else if 0xF8 <=? byte then 5 else if 0xF0 <=? byte then 4
               else if 0xE0 <=? byte then 3 else if 0xC0 <=? byte then 2 else 1) <$> seqZ 0 257.

Definition create_utf8_length_table2 : list Z :=
  (fun byte => if 30 <=? byte then 4 else if 28 <=? byte then 3 else if 24 <=? byte then 2 else 1) <$> seqZ 0 64.

Definition UTF8_BYTE_LENGTH_TABLE : list Z :=
  replicate 128 1 ++ replicate 64 1 ++ replicate 32 2 ++ replicate 16 3 ++ (replicate 8 4 ++ replicate 8 1).
Definition UTF8_BYTE_LENGTH_TABLE2 : list Z := create_utf8_length_table2.

(** ** Lengths *)

(** [for (int i = 0, char_size = 0; i < str.size(); i += char_size)] with the
    computation of [char_size] from the byte at [i] *)
Fixpoint length_loop (char_size : Z -> res Z) (fuel : nat) (str : list Z) (i len : Z) : res Z :=
  match fuel with
  | O => Err EFuel
  | S fuel =>
      if i <? Z.of_nat (length str) then
        c ← rd str i;
        n ← char_size c;
        length_loop char_size fuel str (i + n) (len + 1)
      else Ok len
  end.

Definition utf8_length (str : list Z) : res Z :=
  length_loop (fun c => rd UTF8_BYTE_LENGTH_TABLE c) (S (length str)) str 0 0.

Definition utf8_length2 (str : list Z) : res Z :=
  length_loop (fun c => rd UTF8_BYTE_LENGTH_TABLE2 (Z.shiftr c 3)) (S (length str)) str 0 0.

(** the size of a character from the leading zeros of its inverted first byte *)
Definition size_of_zeros (k : Z) : Z := if k =? 28 then 4 else if k =? 27 then 3 else if k =? 26 then 2 else 1.

Definition utf8_length3 (str : list Z) : res Z :=
  length_loop (fun c => k ← clz 32 (u8 (Z.lnot c)); Ok (size_of_zeros k)) (S (length str)) str 0 0.

(** [utf8_length4] reads aligned words of eight bytes. The memory [mem] starts
    at an aligned address and has the string at offset [data]. *)

(** [oct >>= k << 3]; a shift by 64 or more is undefined *)
Definition shift_oct (oct k : Z) : res Z :=
  if Z.shiftl k 3 <? 64 then Ok (Z.shiftr oct (Z.shiftl k 3)) else Err EUndef.

(** the [do] loops over a word, until [k] reaches [limit]; only the first one
    reduces [k] *)
Fixpoint oct_loop (reduce : bool) (limit : Z) (fuel : nat) (oct k len : Z) : res (Z * Z) :=
  match fuel with
  | O => Err EFuel
  | S fuel =>
      let k := if reduce then Z.land k 7 else k in
      oct ← shift_oct oct k;
      zeros ← clz 32 (u8 (Z.lxor oct 0xff));
      let len := len + 1 in
      let k := k + size_of_zeros zeros in
      if k <? limit then oct_loop reduce limit fuel oct k len else Ok (k, len)
  end.

Fixpoint words_loop (fuel : nat) (mem : list Z) (p p_end k len : Z) : res (Z * Z) :=
  match fuel with
  | O => Err EFuel
  | S fuel =>
      if p <? p_end then
        w ← loadu 8 mem p;
        '(k, len) ← oct_loop true 8 9 (le_val w) k len;
        words_loop fuel mem (p + 8) p_end k len
      else Ok (k, len)
  end.

Definition utf8_length4 (mem : list Z) (data size : Z) : res Z :=
  let skip_start := Z.land data 7 in
  let p_start := Z.land data (Z.lnot 7) in
  let limit_end := Z.land (data + size) 7 in
  let p_end := Z.land (data + size) (Z.lnot 7) in
  '(k, len) ← words_loop (S (length mem)) mem p_start p_end skip_start 0;
  if (limit_end =? 0) || (p_start =? p_end) then Ok len
  else
    w ← loadu 8 mem p_end;
    '(_, len) ← oct_loop false limit_end 9 (le_val w) k len;
    Ok len.

(** [__builtin_popcount] *)
Fixpoint popcount_pos (p : positive) : Z :=
  match p with xH => 1 | xO p => popcount_pos p | xI p => 1 + popcount_pos p end.
Definition popcount (z : Z) : Z := match z with Zpos p => popcount_pos p | _ => 0 end.

(** the vector loops; [n] is the number of lanes *)
Fixpoint length_simd_loop (fuel : nat) (n : nat) (str : list Z) (p src_end len : Z) : res (Z * Z) :=
  match fuel with
  | O => Err EFuel
  | S fuel =>
      if p <? src_end then
        x ← loadu n str p;
        length_simd_loop fuel n str (p + Z.of_nat n) src_end
          (len + popcount (movemask_epi8 (cmpgt_epi8 x (set1_epi8 n 0xbf))))
      else Ok (p, len)
  end.

Fixpoint length_simd_tail (fuel : nat) (str : list Z) (p len : Z) : res Z :=
  match fuel with
  | O => Err EFuel
  | S fuel =>
      if p <? Z.of_nat (length str) then
        c ← rd str p;
        length_simd_tail fuel str (p + 1) (len + (if wraps 8 0xbf <? wraps 8 c then 1 else 0))
      else Ok len
  end.

Definition utf8_length_simd (n : nat) (str : list Z) : res Z :=
  let src_end := Z.land (Z.of_nat (length str)) (Z.lnot (Z.of_nat n - 1)) in
  '(p, len) ← length_simd_loop (S (length str)) n str 0 src_end 0;
  length_simd_tail (S (length str)) str p len.
Definition utf8_length_simd_avx2 (str : list Z) : res Z := utf8_length_simd 32 str.
Definition utf8_length_simd_sse2 (str : list Z) : res Z := utf8_length_simd 16 str.

(** ** ASCII *)

Fixpoint validate_loop (fuel : nat) (n : nat) (src : list Z) (i : Z) (has_error : vec) : res (Z * vec) :=
  match fuel with
  | O => Err EFuel
  | S fuel =>
      if i <=? Z.of_nat (length src) - Z.of_nat n then
        current_bytes ← loadu n src i;
        validate_loop fuel n src (i + Z.of_nat n) (or_si has_error current_bytes)
      else Ok (i, has_error)
  end.

Fixpoint validate_tail (fuel : nat) (src : list Z) (i tail_has_error : Z) : res Z :=
  match fuel with
  | O => Err EFuel
  | S fuel =>
      if i <? Z.of_nat (length src) then
        c ← rd src i; validate_tail fuel src (i + 1) (Z.lor tail_has_error c)
      else Ok tail_has_error
  end.

(** with registers of [n] bytes, 32 for AVX2 and 16 for SSE2 *)
Definition validate_ascii_fast (n : nat) (src : list Z) : res bool :=
  '(i, has_error) ←
    (if Z.of_nat n <=? Z.of_nat (length src) then validate_loop (S (length src)) n src 0 (set1_epi8 n 0)
     else Ok (0, set1_epi8 n 0));
  let error_mask := movemask_epi8 has_error in
  tail_has_error ← validate_tail (S (length src)) src i 0;
  Ok (Z.lor error_mask (Z.land tail_has_error 0x80) =? 0).

(** without vector instructions *)
Definition validate_ascii_scalar (src : list Z) : res bool :=
  tail_has_error ← validate_tail (S (length src)) src 0 0;
  Ok (Z.land tail_has_error 0x80 =? 0).

(** ** Moving over characters *)

Definition char_size_of (lookup_table : bool) (c : Z) : res Z :=
  if lookup_table then rd UTF8_BYTE_LENGTH_TABLE c
  else
    let b := u8 (Z.lnot c) in
    if Z.shiftr b 7 =? 1 then Ok 1 else k ← clz 32 b; Ok (k - 24).

Fixpoint skip_leading_loop (lookup_table : bool) (fuel : nat) (s : list Z) (p i n : Z) : res Z :=
  match fuel with
  | O => Err EFuel
  | S fuel =>
      if (i <? n) && (p <? Z.of_nat (length s)) then
        c ← rd s p;
        char_size ← char_size_of lookup_table c;
        skip_leading_loop lookup_table fuel s (p + char_size) (i + 1) n
      else Ok p
  end.
Definition skip_leading_utf8 (lookup_table : bool) (s : list Z) (p n : Z) : res Z :=
  skip_leading_loop lookup_table (S (length s)) s p 0 n.

(** [while (p >= begin && static_cast<int8_t>( *p) <= threshold) --p] *)
Fixpoint skip_continuation (fuel : nat) (s : list Z) (p : Z) : res Z :=
  match fuel with
  | O => Err EFuel
  | S fuel =>
      if 0 <=? p then
        c ← rd s p;
        if wraps 8 c <=? wraps 8 0xbf then skip_continuation fuel s (p - 1) else Ok p
      else Ok p
  end.

Fixpoint skip_trailing_loop (fuel : nat) (s : list Z) (p i n : Z) : res Z :=
  match fuel with
  | O => Err EFuel
  | S fuel =>
      if (i <? n) && (0 <=? p) then
        p ← skip_continuation (S (length s)) s (p - 1);
        skip_trailing_loop fuel s p (i + 1) n
      else Ok p
  end.
Definition skip_trailing_utf8 (s : list Z) (p n : Z) : res Z := skip_trailing_loop (S (S (length s))) s p 0 n.

(** the offsets of the characters *)
Fixpoint index_loop (char_size : Z -> res Z) (fuel : nat) (str : list Z) (i : Z) (index : list Z) : res (list Z) :=
  match fuel with
  | O => Err EFuel
  | S fuel =>
      if i <? Z.of_nat (length str) then
        c ← rd str i;
        n ← char_size c;
        index_loop char_size fuel str (i + n) (index ++ [i])
      else Ok index
  end.
Definition get_utf8_index (str : list Z) : res (list Z) :=
  index_loop (fun c => rd UTF8_BYTE_LENGTH_TABLE c) (S (length str)) str 0 [].
Definition get_utf8_index2 (str : list Z) : res (list Z) :=
  index_loop (char_size_of false) (S (length str)) str 0 [].

(** the same in a fixed array; the offset is a [uint8_t] *)
Fixpoint small_index_loop (fuel : nat) (str : list Z) (i n : Z) (small_index : list Z) : res (Z * list Z) :=
  match fuel with
  | O => Err EFuel
  | S fuel =>
      if i <? Z.of_nat (length str) then
        c ← rd str i;
        char_size ← rd UTF8_BYTE_LENGTH_TABLE c;
        small_index ← wr small_index n i;
        small_index_loop fuel str (u8 (i + char_size)) (n + 1) small_index
      else Ok (n, small_index)
  end.
Definition get_utf8_small_index (str : list Z) (small_index : list Z) : res (Z * list Z) :=
  small_index_loop (S (length str)) str 0 0 small_index.

Definition utf8_char_bytes (c : Z) : res Z := rd UTF8_BYTE_LENGTH_TABLE c.
