(* ===== verification/Utf8Spec.v ===== *)
(** * UTF-8 strings: what the functions compute

    A string is well formed when it is a sequence of characters: a first byte
    that announces the length, then continuation bytes. *)

From S2P Require Import Prelude.
From S2P Require Import Simd.
From S2P Require Import Reverse.
From S2P Require Import Utf8.

Definition continuation (b : Z) : bool := (0x80 <=? b) && (b <? 0xC0).
Definition lead (b : Z) : bool := ((0 <=? b) && (b <? 0x80)) || ((0xC0 <=? b) && (b <? 0xF8)).

Definition utf8_ok (c : list Z) : Prop :=
  match c with b :: t => lead b = true /\ utf8_len b = length c /\ forallb continuation t = true | [] => False end.

(** what the bytes of a column decompose into *)
Definition utf8_string (s : list Z) (cs : list (list Z)) : Prop := s = mjoin cs /\ Forall utf8_ok cs.

Definition sizes_lead (char_size : Z -> res Z) : Prop :=
  forall b, lead b = true -> char_size b = Ok (Z.of_nat (utf8_len b)) /\ (0 < utf8_len b)%nat.

Lemma lead_byte b : lead b = true -> inu 8 b.
Proof. unfold lead, inu. rewrite orb_true_iff, !andb_true_iff, !Z.leb_le, !Z.ltb_lt. lia. Qed.

Lemma sizes_lead_check char_size :
  forallb (fun b => negb (lead b) || bool_decide (char_size b = Ok (Z.of_nat (utf8_len b)) /\ (0 < utf8_len b)%nat)) (seqZ 0 256) = true ->
  sizes_lead char_size.
Proof.
  intros H b Hb. pose proof (byte_cases _ H b (lead_byte b Hb)) as Hc. cbv beta in Hc. rewrite Hb in Hc. by apply bool_decide_eq_true in Hc.
Qed.

Lemma sizes_table : sizes_lead (fun c => rd UTF8_BYTE_LENGTH_TABLE c).
Proof. apply sizes_lead_check. vm_compute. reflexivity. Qed.
Lemma sizes_table2 : sizes_lead (fun c => rd UTF8_BYTE_LENGTH_TABLE2 (Z.shiftr c 3)).
Proof. apply sizes_lead_check. vm_compute. reflexivity. Qed.
Lemma sizes_zeros : sizes_lead (fun c => k ← clz 32 (u8 (Z.lnot c)); Ok (size_of_zeros k)).
Proof. apply sizes_lead_check. vm_compute. reflexivity. Qed.
Lemma sizes_char t : sizes_lead (char_size_of t).
Proof. destruct t; apply sizes_lead_check; vm_compute; reflexivity. Qed.

(** the byte and the size at the start of a character *)
Lemma char_at char_size done c todo : sizes_lead char_size -> utf8_ok c -> exists b,
  rd (mjoin done ++ mjoin (c :: todo)) (Z.of_nat (length (mjoin done))) = Ok b /\ char_size b = Ok (Z.of_nat (length c)) /\
  (Z.of_nat (length (mjoin done)) <? Z.of_nat (length (mjoin done ++ mjoin (c :: todo)))) = true /\
  (0 < length c)%nat.
Proof.
  intros Hs Hc. destruct c as [|b t]; [done|]. destruct Hc as (Hl & Hn & _). exists b. destruct (Hs b Hl) as [E Hp].
  split_and!; [|by rewrite E, Hn| |simpl; lia].
  - apply rd_nat. simpl. by rewrite list_lookup_middle.
  - apply Z.ltb_lt. rewrite length_app. simpl. lia.
Qed.

(** the first characters of a string joined, in their two forms *)
Lemma join_next (done : list (list Z)) c todo : mjoin done ++ mjoin (c :: todo) = mjoin (done ++ [c]) ++ mjoin todo.
Proof. rewrite join_app. simpl. by rewrite app_nil_r, <-app_assoc. Qed.

Lemma join_next_length (done : list (list Z)) c : Z.of_nat (length (mjoin done)) + Z.of_nat (length c) = Z.of_nat (length (mjoin (done ++ [c]))).
Proof. rewrite join_app, length_app. simpl. rewrite app_nil_r. lia. Qed.

Lemma at_end (done : list (list Z)) : (Z.of_nat (length (mjoin done)) <? Z.of_nat (length (mjoin done ++ mjoin []))) = false.
Proof. simpl. rewrite app_nil_r. apply Z.ltb_irrefl. Qed.

Lemma join_cons_fuel (c : list Z) todo fuel : (0 < length c)%nat -> (length (mjoin (c :: todo)) < S fuel)%nat -> (length (mjoin todo) < fuel)%nat.
Proof. simpl. rewrite length_app. lia. Qed.

Lemma length_loop_spec char_size todo : sizes_lead char_size -> Forall utf8_ok todo -> forall fuel done len,
  (length (mjoin todo) < fuel)%nat ->
  length_loop char_size fuel (mjoin done ++ mjoin todo) (Z.of_nat (length (mjoin done))) len = Ok (len + Z.of_nat (length todo)).
Proof.
  intros Hs Ht. induction Ht as [|c todo Hc Ht IH]; intros [|fuel] done len Hf; try lia; cbn [length_loop].
  - rewrite at_end. f_equal. simpl. lia.
  - destruct (char_at char_size done c todo Hs Hc) as (b & -> & Hb & -> & Hp). cbn [mbind res_bind]. rewrite Hb. cbn [mbind res_bind].
    rewrite join_next, join_next_length, IH by (by eapply join_cons_fuel). f_equal. simpl. lia.
Qed.

(** the offsets of the characters after [done] *)
Fixpoint positions (o : Z) (cs : list (list Z)) : list Z :=
  match cs with [] => [] | c :: cs => o :: positions (o + Z.of_nat (length c)) cs end.

Lemma index_loop_spec char_size todo : sizes_lead char_size -> Forall utf8_ok todo -> forall fuel done index,
  (length (mjoin todo) < fuel)%nat ->
  index_loop char_size fuel (mjoin done ++ mjoin todo) (Z.of_nat (length (mjoin done))) index =
    Ok (index ++ positions (Z.of_nat (length (mjoin done))) todo).
Proof.
  intros Hs Ht. induction Ht as [|c todo Hc Ht IH]; intros [|fuel] done index Hf; try lia; cbn [index_loop].
  - rewrite at_end. simpl. by rewrite app_nil_r.
  - destruct (char_at char_size done c todo Hs Hc) as (b & -> & Hb & -> & Hp). cbn [mbind res_bind]. rewrite Hb. cbn [mbind res_bind].
    rewrite join_next, join_next_length, IH by (by eapply join_cons_fuel). cbn [positions]. by rewrite <-app_assoc, join_next_length.
Qed.

Lemma positions_length o cs : length (positions o cs) = length cs.
Proof. revert o. induction cs as [|c cs IH]; intros o; simpl; [done|]. by rewrite IH. Qed.

Lemma positions_lookup o cs i : (i < length cs)%nat -> positions o cs !! i = Some (o + Z.of_nat (length (mjoin (take i cs)))).
Proof.
  revert o i. induction cs as [|c cs IH]; intros o [|i] Hi; simpl in *; try lia; [f_equal; lia|].
  rewrite IH by lia. f_equal. rewrite length_app. lia.
Qed.

Lemma skip_leading_chars t n todo : Forall utf8_ok todo -> forall fuel done i, (length (mjoin todo) < fuel)%nat -> 0 <= i ->
  skip_leading_loop t fuel (mjoin done ++ mjoin todo) (Z.of_nat (length (mjoin done))) i n =
    Ok (Z.of_nat (length (mjoin (done ++ take (Z.to_nat (n - i)) todo)))).
Proof.
  intros Ht. induction Ht as [|c todo Hc Ht IH]; intros [|fuel] done i Hf Hi; try lia; cbn [skip_leading_loop].
  - rewrite at_end, andb_false_r. by rewrite take_nil, app_nil_r.
  - destruct (char_at (char_size_of t) done c todo (sizes_char t) Hc) as (b & Hb1 & Hb & -> & Hp). destruct (Z.ltb_spec i n) as [Hlt|Hge]; simpl (_ && _).
    + cbn iota. rewrite Hb1. cbn [mbind res_bind]. rewrite Hb. cbn [mbind res_bind].
      rewrite join_next, join_next_length, IH by (by eapply join_cons_fuel || lia).
      replace (Z.to_nat (n - i)) with (S (Z.to_nat (n - (i + 1)))) by lia. cbn [take]. by rewrite <-app_assoc.
    + cbn iota. replace (Z.to_nat (n - i)) with 0%nat by lia. by rewrite take_0, app_nil_r.
Qed.

Lemma skip_leading_at t done todo n : Forall utf8_ok todo ->
  skip_leading_utf8 t (mjoin done ++ mjoin todo) (Z.of_nat (length (mjoin done))) n =
    Ok (Z.of_nat (length (mjoin (done ++ take (Z.to_nat n) todo)))).
Proof.
  intros Ht. unfold skip_leading_utf8. rewrite skip_leading_chars by (done || (rewrite length_app; lia)). by rewrite Z.sub_0_r.
Qed.

(** back over continuation bytes to the start of the character *)
Lemma skip_continuation_spec done b t rest k : lead b = true -> forallb continuation t = true -> (k <= length t)%nat ->
  forall fuel, (k < fuel)%nat ->
  skip_continuation fuel (done ++ (b :: t) ++ rest) (Z.of_nat (length done + k)) = Ok (Z.of_nat (length done)).
Proof.
  intros Hb Ht. induction k as [|k IH]; intros Hk [|fuel] Hf; try lia; cbn [skip_continuation].
  - rewrite Nat.add_0_r. destruct (Z.leb_spec 0 (Z.of_nat (length done))); [|lia].
    rewrite (rd_nat _ _ b) by (simpl; by rewrite list_lookup_middle). cbn [mbind res_bind].
    replace (wraps 8 b <=? wraps 8 191) with false; [done|]. symmetry.
    apply (Bool.negb_true_iff). revert Hb. pose proof (lead_byte b) as Hi. intros Hb.
    refine (proj1 (implb_true_iff _ _) (byte_cases (fun b => implb (lead b) (negb (wraps 8 b <=? wraps 8 191))) _ b (Hi Hb)) Hb). vm_compute. reflexivity.
  - destruct (Z.leb_spec 0 (Z.of_nat (length done + S k))); [|lia].
    destruct (lookup_lt_is_Some_2 t k ltac:(lia)) as [c Hc].
    rewrite (rd_nat _ _ c).
    2: { rewrite lookup_app_r by lia. replace (length done + S k - length done)%nat with (S k) by lia. simpl. by rewrite lookup_app_l by (apply lookup_lt_Some in Hc; lia). }
    cbn [mbind res_bind]. assert (continuation c = true) as Hcc by (eapply forallb_forall; [exact Ht|by apply list_elem_of_In, list_elem_of_lookup; exists k]).
    assert ((wraps 8 c <=? wraps 8 191) = true) as ->.
    { assert (inu 8 c) as Hi by (unfold continuation, inu in *; rewrite andb_true_iff, Z.leb_le, Z.ltb_lt in Hcc; lia).
      refine (proj1 (implb_true_iff _ _) (byte_cases (fun b => implb (continuation b) (wraps 8 b <=? wraps 8 191)) _ c Hi) Hcc). vm_compute. reflexivity. }
    replace (Z.of_nat (length done + S k) - 1) with (Z.of_nat (length done + k)) by lia. apply IH; lia.
Qed.

Lemma utf8_ok_parts c : utf8_ok c -> exists b t, c = b :: t /\ lead b = true /\ forallb continuation t = true.
Proof. destruct c as [|b t]; [done|]. intros (H1 & _ & H2). by exists b, t. Qed.

(** back over one character *)
Lemma skip_one_back done c rest : utf8_ok c ->
  skip_continuation (S (length (mjoin (done ++ [c]) ++ rest))) (mjoin (done ++ [c]) ++ rest) (Z.of_nat (length (mjoin (done ++ [c]))) - 1) =
    Ok (Z.of_nat (length (mjoin done))).
Proof.
  intros (b & t & -> & Hb & Ht)%utf8_ok_parts. rewrite join_app. cbn [mjoin list_join]. rewrite app_nil_r, <-app_assoc, !length_app.
  cbn [length]. replace (Z.of_nat (length (mjoin done) + S (length t)) - 1) with (Z.of_nat (length (mjoin done) + length t)) by lia.
  apply skip_continuation_spec; [done|done|lia|]. lia.
Qed.

Lemma skip_trailing_chars n done : Forall utf8_ok done -> forall rest fuel i, (length done + 1 < fuel)%nat -> 0 <= i ->
  skip_trailing_loop fuel (mjoin done ++ rest) (Z.of_nat (length (mjoin done))) i n =
    Ok (if n - i <=? Z.of_nat (length done) then Z.of_nat (length (mjoin (take (length done - Z.to_nat (n - i)) done))) else -1).
Proof.
  induction done as [|c done IH] using rev_ind; intros Hd rest [|fuel] i Hf Hi; try lia; cbn [skip_trailing_loop].
  - simpl. rewrite andb_true_r. destruct (Z.ltb_spec i n) as [Hlt|Hge].
    + destruct (Z.leb_spec (n - i) 0); [lia|]. simpl. destruct fuel as [|fuel]; [simpl in Hf; lia|]. cbn [skip_trailing_loop].
      change (Z.of_nat 0) with 0. rewrite andb_false_r. by destruct (Z.leb_spec (n - i) 0); [lia|].
    + change (Z.of_nat 0) with 0. by destruct (Z.leb_spec (n - i) 0); [|lia].
  - apply Forall_app in Hd as [Hd Hc%Forall_inv]. destruct (Z.leb_spec 0 (Z.of_nat (length (mjoin (done ++ [c]))))); [|lia].
    assert (length (done ++ [c]) = length done + 1)%nat as L by (by rewrite length_app). rewrite andb_true_r, L in *. destruct (Z.ltb_spec i n) as [Hlt|Hge].
    + rewrite skip_one_back by done. cbn [mbind res_bind].
      replace (mjoin (done ++ [c]) ++ rest) with (mjoin done ++ c ++ rest) by (rewrite join_app; simpl; by rewrite app_nil_r, <-app_assoc).
      rewrite IH by (done || lia). f_equal.
      destruct (Z.leb_spec (n - (i + 1)) (Z.of_nat (length done))), (Z.leb_spec (n - i) (Z.of_nat (length done + 1))); try lia.
      replace (length done + 1 - Z.to_nat (n - i))%nat with (length done - Z.to_nat (n - (i + 1)))%nat by lia.
      by rewrite take_app_le by lia.
    + destruct (Z.leb_spec (n - i) (Z.of_nat (length done + 1))); [|lia]. replace (Z.to_nat (n - i)) with 0%nat by lia.
      rewrite Nat.sub_0_r, firstn_all2 by lia. done.
Qed.

Lemma join_length_chars cs : Forall utf8_ok cs -> (length cs <= length (mjoin cs))%nat.
Proof.
  induction 1 as [|c cs Hc Hcs IH]; simpl; [lia|]. destruct c; [done|]. rewrite length_app. simpl. lia.
Qed.

Lemma skip_trailing_at cs n : Forall utf8_ok cs -> 0 <= n ->
  skip_trailing_utf8 (mjoin cs) (Z.of_nat (length (mjoin cs))) n =
    Ok (if n <=? Z.of_nat (length cs) then Z.of_nat (length (mjoin (take (length cs - Z.to_nat n) cs))) else -1).
Proof.
  intros Hcs Hn. pose proof (join_length_chars cs Hcs). unfold skip_trailing_utf8. rewrite <-(app_nil_r (mjoin cs)) at 1 2.
  rewrite app_nil_r at 1. pose proof (skip_trailing_chars n cs Hcs [] (S (S (length (mjoin cs)))) 0 ltac:(lia) ltac:(lia)) as H1.
  by rewrite Z.sub_0_r in H1.
Qed.

(** the small index; the offsets fit a byte *)
Lemma small_index_spec todo : Forall utf8_ok todo -> forall fuel done pre mid post,
  (length (mjoin todo) < fuel)%nat -> Z.of_nat (length (mjoin done ++ mjoin todo)) < 256 -> length mid = length todo ->
  small_index_loop fuel (mjoin done ++ mjoin todo) (Z.of_nat (length (mjoin done))) (Z.of_nat (length pre)) (pre ++ mid ++ post) =
    Ok (Z.of_nat (length pre + length todo), pre ++ positions (Z.of_nat (length (mjoin done))) todo ++ post).
Proof.
  intros Ht. induction Ht as [|c todo Hc Ht IH]; intros [|fuel] done pre mid post Hf Hs Hm; try lia; cbn [small_index_loop].
  - rewrite at_end. apply nil_length_inv in Hm as ->. simpl. by rewrite Nat.add_0_r.
  - destruct (char_at _ done c todo sizes_table Hc) as (b & -> & Hb & -> & Hp). cbn [mbind res_bind]. rewrite Hb. cbn [mbind res_bind].
    destruct mid as [|x mid]; [done|]. rewrite wr_Ok by (rewrite !length_app; simpl; lia). cbn [mbind res_bind].
    rewrite Nat2Z.id, insert_app_r_alt, Nat.sub_diag by lia. cbn [app]. simpl (<[0%nat:=_]> (x :: _)).
    assert (Z.of_nat (length (mjoin (done ++ [c]))) < 256) as Hs'.
    { rewrite join_next, length_app in Hs. lia. }
    rewrite join_next, join_next_length. unfold wrapu. rewrite Z.mod_small by (change (2 ^ 8) with 256; lia).
    change (pre ++ ?a :: ?l) with (pre ++ [a] ++ l). rewrite (app_assoc pre). 
    replace (Z.of_nat (length pre) + 1) with (Z.of_nat (length (pre ++ [Z.of_nat (length (mjoin done))]))) by (rewrite length_app; simpl; lia).
    rewrite IH; [|by eapply join_cons_fuel|by rewrite <-join_next|simpl in Hm; lia].
    cbn [positions]. rewrite <-app_assoc, join_next_length, length_app. simpl. do 3 f_equal. lia.
Qed.

(** ** The vector versions *)

Lemma popcount_double z : 0 <= z -> popcount (2 * z) = popcount z.
Proof. destruct z; done. Qed.
Lemma popcount_double_1 z : 0 <= z -> popcount (1 + 2 * z) = 1 + popcount z.
Proof. destruct z; done. Qed.

Lemma movemask_nonneg v : 0 <= movemask_epi8 v.
Proof. induction v as [|b v IH]; simpl; [done|]. destruct (128 <=? b); lia. Qed.

(** the bytes that are not continuation bytes, as the code counts them *)
Definition starts (s : list Z) : Z := foldr (fun c n => (if wraps 8 0xbf <? wraps 8 c then 1 else 0) + n) 0 s.

Lemma popcount_starts x : popcount (movemask_epi8 (cmpgt_epi8 x (set1_epi8 (length x) 0xbf))) = starts x.
Proof.
  induction x as [|b x IH]; [done|]. change (set1_epi8 (length (b :: x)) 191) with (191 :: set1_epi8 (length x) 191).
  cbn [cmpgt_epi8 zip_with movemask_epi8]. pose proof (movemask_nonneg (cmpgt_epi8 x (set1_epi8 (length x) 191))) as Hn.
  fold (cmpgt_epi8 x (set1_epi8 (length x) 191)). cbn [starts foldr]. fold (starts x). rewrite <-IH.
  destruct (wraps 8 191 <? wraps 8 b); simpl (128 <=? _); cbn iota; [by rewrite popcount_double_1|]. rewrite Z.add_0_l. by rewrite popcount_double.
Qed.

Lemma starts_app s t : starts (s ++ t) = starts s + starts t.
Proof. unfold starts. rewrite foldr_app. induction s as [|c s IH]; simpl; [done|]. rewrite IH. lia. Qed.

Lemma length_tail_spec t : forall fuel pre len, (length t < fuel)%nat ->
  length_simd_tail fuel (pre ++ t) (Z.of_nat (length pre)) len = Ok (len + starts t).
Proof.
  induction t as [|c t IH]; intros [|fuel] pre len Hf; simpl in Hf; try lia; cbn [length_simd_tail].
  - rewrite app_nil_r, Z.ltb_irrefl. f_equal. simpl. lia.
  - destruct (Z.ltb_spec (Z.of_nat (length pre)) (Z.of_nat (length (pre ++ c :: t)))); [|rewrite length_app in *; simpl in *; lia].
    rewrite (rd_nat _ _ c) by (by rewrite list_lookup_middle). cbn [mbind res_bind].
    replace (pre ++ c :: t) with ((pre ++ [c]) ++ t) by (by rewrite <-app_assoc).
    replace (Z.of_nat (length pre) + 1) with (Z.of_nat (length (pre ++ [c]))) by (rewrite length_app; simpl; lia).
    rewrite IH by lia. f_equal. cbn [starts foldr]. fold (starts t). lia.
Qed.

Lemma length_simd_loop_spec n t k : (0 < n)%nat -> forall m fuel pre len, length m = (n * k)%nat -> (k < fuel)%nat ->
  length_simd_loop fuel n (pre ++ m ++ t) (Z.of_nat (length pre)) (Z.of_nat (length (pre ++ m))) len =
    Ok (Z.of_nat (length (pre ++ m)), len + starts m).
Proof.
  intros Hn. induction k as [|k IH]; intros m [|fuel] pre len Hm Hf; try lia; cbn [length_simd_loop].
  - rewrite Nat.mul_0_r in Hm. apply nil_length_inv in Hm as ->. rewrite app_nil_r, Z.ltb_irrefl. do 2 f_equal. simpl. lia.
  - destruct (list_split n (n * k) m) as (x & m' & -> & X & Lm); [lia|].
    destruct (Z.ltb_spec (Z.of_nat (length pre)) (Z.of_nat (length (pre ++ x ++ m')))); [|rewrite !length_app in *; lia].
    rewrite <-(app_assoc x), loadu_mid by done. cbn [mbind res_bind]. rewrite <-X, popcount_starts.
    replace (Z.of_nat (length pre) + Z.of_nat (length x)) with (Z.of_nat (length (pre ++ x))) by (rewrite length_app; lia).
    rewrite X, (app_assoc pre x m'), (app_assoc pre x (m' ++ t)), IH by (done || lia). rewrite starts_app. do 2 f_equal. lia.
Qed.

(** a length as a multiple of the register width and a rest *)
Lemma split_width n w (s : list Z) : Z.of_nat n = 2 ^ w -> 0 <= w -> exists m t k, s = m ++ t /\ length m = (n * k)%nat /\ (length t < n)%nat /\
  (k <= length s)%nat /\ Z.land (Z.of_nat (length s)) (Z.lnot (Z.of_nat n - 1)) = Z.of_nat (length m).
Proof.
  intros E Hw. assert (0 < n)%nat as Hn by (assert (0 < 2 ^ w) by (apply Z.pow_pos_nonneg; lia); lia).
  pose proof (Nat.div_mod_eq (length s) n) as Hd. pose proof (Nat.mod_upper_bound (length s) n ltac:(lia)) as Hr.
  destruct (list_split (n * (length s / n)) (length s mod n) s) as (m & t & Es & Lm & Lt); [lia|].
  exists m, t, (length s / n)%nat. split_and!; [done|done|lia|nia|].
  rewrite E, round_down by done. rewrite <-E, Lm, <-Nat2Z.inj_div. lia.
Qed.

Lemma utf8_length_simd_spec n w s : Z.of_nat n = 2 ^ w -> 0 <= w -> utf8_length_simd n s = Ok (starts s).
Proof.
  intros E Hw. destruct (split_width n w s E Hw) as (m & t & k & Es & Lm & Lt & Hk & Hl).
  assert (0 < n)%nat as Hn by (assert (0 < 2 ^ w) by (apply Z.pow_pos_nonneg; lia); lia).
  unfold utf8_length_simd. rewrite Hl.
  pose proof (length_simd_loop_spec n t k Hn m (S (length s)) [] 0 Lm ltac:(lia)) as H1. cbn [app] in H1. rewrite <-Es in H1.
  change (Z.of_nat (length [])) with 0 in H1. rewrite H1. cbn [mbind res_bind].
  rewrite Es at 2. rewrite length_tail_spec by (rewrite Es, length_app; lia). by rewrite Es, starts_app.
Qed.

Lemma starts_chars cs : Forall utf8_ok cs -> starts (mjoin cs) = Z.of_nat (length cs).
Proof.
  induction 1 as [|c cs Hc Hcs IH]; [done|]. change (mjoin (c :: cs)) with (c ++ mjoin cs). rewrite starts_app, IH. cbn [length].
  destruct c as [|b t]; [done|]. destruct Hc as (Hb & _ & Ht). cbn [starts foldr]. fold (starts t).
  assert (starts t = 0) as ->.
  { clear -Ht. induction t as [|c t IH]; [done|]. cbn [forallb] in Ht. apply andb_true_iff in Ht as [Hc Ht]. cbn [starts foldr]. fold (starts t). rewrite IH by done.
    assert (inu 8 c) as Hi by (unfold continuation, inu in *; rewrite andb_true_iff, Z.leb_le, Z.ltb_lt in Hc; lia).
    pose proof (byte_cases (fun b => implb (continuation b) (negb (wraps 8 191 <? wraps 8 b))) eq_refl c Hi) as H. cbv beta in H.
    rewrite Hc in H. simpl in H. apply negb_true_iff in H. by rewrite H. }
  pose proof (byte_cases (fun b => implb (lead b) (wraps 8 191 <? wraps 8 b)) eq_refl b (lead_byte b Hb)) as H. cbv beta in H.
  rewrite Hb in H. simpl in H. rewrite H. lia.
Qed.

(** ** ASCII *)

Definition ascii (s : list Z) : bool := forallb (fun c => c <? 0x80) s.

Lemma high_bit c : inu 8 c -> (c <? 0x80) = negb (Z.testbit c 7).
Proof.
  intros Hc. apply (bool_decide_eq_true_1 _). revert c Hc.
  apply (byte_cases (fun c => bool_decide ((c <? 0x80) = negb (Z.testbit c 7)))). vm_compute. reflexivity.
Qed.

Lemma validate_tail_spec t : forall fuel pre e, (length t < fuel)%nat ->
  validate_tail fuel (pre ++ t) (Z.of_nat (length pre)) e = Ok (foldl Z.lor e t).
Proof.
  induction t as [|c t IH]; intros [|fuel] pre e Hf; simpl in Hf; try lia; cbn [validate_tail].
  - by rewrite app_nil_r, Z.ltb_irrefl.
  - destruct (Z.ltb_spec (Z.of_nat (length pre)) (Z.of_nat (length (pre ++ c :: t)))); [|rewrite length_app in *; simpl in *; lia].
    rewrite (rd_nat _ _ c) by (by rewrite list_lookup_middle). cbn [mbind res_bind].
    replace (pre ++ c :: t) with ((pre ++ [c]) ++ t) by (by rewrite <-app_assoc).
    replace (Z.of_nat (length pre) + 1) with (Z.of_nat (length (pre ++ [c]))) by (rewrite length_app; simpl; lia).
    by rewrite IH by lia.
Qed.

(** the accumulated vector has a high bit iff some byte has *)
Lemma or_lanes v x : bytes_ok v -> bytes_ok x -> length v = length x ->
  bytes_ok (or_si v x) /\ (ascii (or_si v x) = ascii v && ascii x) /\ length (or_si v x) = length v.
Proof.
  revert x. induction v as [|b v IH]; intros [|c x] Hv Hx Hl; try done. injection Hl as Hl.
  apply Forall_cons in Hv as [Hb Hv], Hx as [Hc Hx]. destruct (IH x Hv Hx Hl) as (I1 & I2 & I3).
  assert (inu 8 (Z.lor b c)) as Hbc by by apply inu_lor. cbn [or_si zip_with]. fold (or_si v x). split_and!.
  - by constructor.
  - cbn [ascii forallb]. fold (ascii (or_si v x)) (ascii v) (ascii x). rewrite I2, !high_bit, Z.lor_spec by done.
    by destruct (Z.testbit b 7), (Z.testbit c 7), (ascii v), (ascii x).
  - simpl. by rewrite I3.
Qed.

Lemma validate_loop_spec n t k : (0 < n)%nat -> (length t < n)%nat -> forall m fuel pre v, length m = (n * k)%nat -> (k < fuel)%nat ->
  bytes_ok m -> bytes_ok v -> length v = n -> exists v',
  validate_loop fuel n (pre ++ m ++ t) (Z.of_nat (length pre)) v = Ok (Z.of_nat (length (pre ++ m)), v') /\
  bytes_ok v' /\ ascii v' = ascii v && ascii m.
Proof.
  intros Hn Ht. induction k as [|k IH]; intros m [|fuel] pre v Hm Hf Hb Hv Hlv; try lia; cbn [validate_loop].
  - rewrite Nat.mul_0_r in Hm. apply nil_length_inv in Hm as ->. rewrite app_nil_r. cbn [app].
    destruct (Z.leb_spec (Z.of_nat (length pre)) (Z.of_nat (length (pre ++ t)) - Z.of_nat n)); [rewrite length_app in *; lia|].
    exists v. split_and!; [done|done|]. simpl. by rewrite andb_true_r.
  - destruct (list_split n (n * k) m) as (x & m' & -> & X & Lm); [lia|]. apply Forall_app in Hb as [Hx Hb].
    destruct (Z.leb_spec (Z.of_nat (length pre)) (Z.of_nat (length (pre ++ (x ++ m') ++ t)) - Z.of_nat n)); [|rewrite !length_app in *; lia].
    rewrite <-(app_assoc x), loadu_mid by done. cbn [mbind res_bind].
    replace (Z.of_nat (length pre) + Z.of_nat n) with (Z.of_nat (length (pre ++ x))) by (rewrite length_app; lia).
    destruct (or_lanes v x Hv Hx) as (O1 & O2 & O3); [lia|].
    destruct (IH m' fuel (pre ++ x) (or_si v x)) as (v' & E & V1 & V2); [done|lia|done|done|lia|].
    exists v'. rewrite (app_assoc pre x), E, V2, O2. unfold ascii. rewrite forallb_app. split_and!; [by rewrite (app_assoc pre)|done|].
    by rewrite andb_assoc.
Qed.

Lemma movemask_ascii v : bytes_ok v -> (movemask_epi8 v = 0) <-> ascii v = true.
Proof.
  induction v as [|b v IH]; intros Hv; [done|]. apply Forall_cons in Hv as [Hb Hv]. specialize (IH Hv). unfold inu in Hb.
  pose proof (movemask_nonneg v). cbn [movemask_epi8 ascii forallb]. fold (ascii v).
  destruct (Z.leb_spec 128 b), (Z.ltb_spec b 128); simpl; try lia; split; intros Hm; try lia; [apply IH; lia|apply IH in Hm; lia].
Qed.

Lemma foldl_lor_high t : bytes_ok t -> forall e, inu 8 e ->
  (Z.land (foldl Z.lor e t) 0x80 =? 0) = (e <? 0x80) && ascii t.
Proof.
  induction t as [|c t IH]; intros Ht e He; cbn [foldl].
  - rewrite andb_true_r. apply (bool_decide_eq_true_1 _). revert e He.
    apply (byte_cases (fun e => bool_decide ((Z.land e 0x80 =? 0) = (e <? 0x80)))). vm_compute. reflexivity.
  - apply Forall_cons in Ht as [Hc Ht]. rewrite IH by (done || by apply inu_lor). cbn [ascii forallb]. fold (ascii t).
    rewrite !high_bit, Z.lor_spec by (done || by apply inu_lor). by destruct (Z.testbit e 7), (Z.testbit c 7).
Qed.

Lemma zero_vec n : bytes_ok (set1_epi8 n 0) /\ ascii (set1_epi8 n 0) = true /\ length (set1_epi8 n 0) = n.
Proof.
  split_and!; [|induction n; done|apply length_replicate]. apply Forall_replicate. apply (wrapu_range 8). lia.
Qed.

Lemma validate_ascii_spec n w s : Z.of_nat n = 2 ^ w -> 0 <= w -> bytes_ok s -> validate_ascii_fast n s = Ok (ascii s).
Proof.
  intros E Hw Hb. destruct (split_width n w s E Hw) as (m & t & k & Es & Lm & Lt & Hk & _). destruct (zero_vec n) as (Z1 & Z2 & Z3).
  assert (0 < n)%nat as Hn by (assert (0 < 2 ^ w) by (apply Z.pow_pos_nonneg; lia); lia).
  pose proof Hb as Hmt. rewrite Es in Hmt. apply Forall_app in Hmt as [Hm Ht].
  assert (exists v, (if Z.of_nat n <=? Z.of_nat (length s) then validate_loop (S (length s)) n s 0 (set1_epi8 n 0) else Ok (0, set1_epi8 n 0))
            = Ok (Z.of_nat (length m), v) /\ bytes_ok v /\ ascii v = ascii m) as (v & Ev & V1 & V2).
  { destruct (Z.leb_spec (Z.of_nat n) (Z.of_nat (length s))) as [Hle|Hgt].
    - destruct (validate_loop_spec n t k Hn Lt m (S (length s)) [] (set1_epi8 n 0)) as (v & Hv & V1 & V2); [done|lia|done|done|done|].
      cbn [app] in Hv. rewrite <-Es in Hv. exists v. split_and!; [exact Hv|done|by rewrite V2, Z2].
    - assert (m = []) as -> by (apply nil_length_inv; rewrite Es, length_app in Hgt; destruct k; [lia|nia]).
      exists (set1_epi8 n 0). done. }
  unfold validate_ascii_fast. rewrite Ev. cbn [mbind res_bind]. rewrite Es at 2. rewrite validate_tail_spec by (rewrite Es, length_app; lia).
  cbn [mbind res_bind]. f_equal. unfold ascii at 1. rewrite Es, forallb_app. fold (ascii m) (ascii t).
  pose proof (foldl_lor_high t Ht 0 ltac:(unfold inu; lia)) as Hl. simpl (0 <? 128) in Hl. rewrite andb_true_l in Hl.
  rewrite <-V2, <-Hl. pose proof (movemask_ascii v V1) as Hmm. pose proof (movemask_nonneg v) as Hpos.
  destruct (ascii v) eqn:Ea.
  - rewrite (proj2 Hmm eq_refl), Z.lor_0_l. done.
  - apply Z.eqb_neq. intros [H0 _]%Z.lor_eq_0_iff. apply Hmm in H0. done.
Qed.

Lemma validate_scalar_spec s : bytes_ok s -> validate_ascii_scalar s = Ok (ascii s).
Proof.
  intros Hb. unfold validate_ascii_scalar. pose proof (validate_tail_spec s (S (length s)) [] 0 (le_n _)) as H. cbn [app length] in H. change (Z.of_nat 0) with 0 in H.
  rewrite H. cbn [mbind res_bind]. f_equal.
  rewrite foldl_lor_high; [done|done|unfold inu; lia].
Qed.

(** ** The claim *)

(** On every well-formed UTF-8 string the five counts that are correct,
    by two tables, by leading zeros and by vector comparison with AVX2 and
    SSE2, agree: each returns the number of characters. [utf8_length4] does
    not: it returns 5 for a string of four characters, 0 for a string within
    one word, and shifts by 64 bits for a string that ends inside a word. The
    ASCII check agrees with its scalar version on every string. *)
Theorem utf8_length_agree s cs : utf8_string s cs ->
  utf8_length s = Ok (Z.of_nat (length cs)) /\ utf8_length2 s = Ok (Z.of_nat (length cs)) /\ utf8_length3 s = Ok (Z.of_nat (length cs)) /\
  utf8_length_simd_avx2 s = Ok (Z.of_nat (length cs)) /\ utf8_length_simd_sse2 s = Ok (Z.of_nat (length cs)) /\
  (forall t, bytes_ok t -> validate_ascii_fast 32 t = validate_ascii_scalar t /\ validate_ascii_fast 16 t = validate_ascii_scalar t) /\
  utf8_length4 [0xc3; 0xa9; 0xc3; 0xa9; 0xc3; 0xa9; 0xc3; 0xa9] 0 8 = Ok 5 /\
  utf8_length4 [97; 98; 99; 0; 0; 0; 0; 0] 0 3 = Ok 0 /\ utf8_length4 (replicate 16 97) 0 9 = Err EUndef.
Proof.
  intros [-> Hcs]. unfold utf8_length, utf8_length2, utf8_length3, utf8_length_simd_avx2, utf8_length_simd_sse2. split_and!.
  - exact (length_loop_spec _ cs sizes_table Hcs _ [] 0 (le_n _)).
  - exact (length_loop_spec _ cs sizes_table2 Hcs _ [] 0 (le_n _)).
  - exact (length_loop_spec _ cs sizes_zeros Hcs _ [] 0 (le_n _)).
  - rewrite (utf8_length_simd_spec 32 5) by done. by rewrite starts_chars.
  - rewrite (utf8_length_simd_spec 16 4) by done. by rewrite starts_chars.
  - intros t Ht. by rewrite (validate_ascii_spec 32 5), (validate_ascii_spec 16 4), validate_scalar_spec.
  - vm_compute. reflexivity.
  - vm_compute. reflexivity.
  - vm_compute. reflexivity.
Qed.

Lemma utf8_length_agree_witness : utf8_length [97; 0xe4; 0xbd; 0xa0; 0xc3; 0xa9] = Ok 3 /\ utf8_length_simd_sse2 [97; 0xe4; 0xbd; 0xa0; 0xc3; 0xa9] = Ok 3.
Proof.
  destruct (utf8_length_agree [97; 0xe4; 0xbd; 0xa0; 0xc3; 0xa9] [[97]; [0xe4; 0xbd; 0xa0]; [0xc3; 0xa9]]) as (H1 & _ & _ & _ & H2 & _).
  - split; [reflexivity|]. repeat constructor.
  - split; [exact H1|exact H2].
Defined.
