(* ===== verification/StringCase.v ===== *)
(** * Case conversion: src/include/string_functions.hh, [upper] and [lower]

    The scalar and vector versions of [StringFunctions], on strings and on
    columns. The vector loops run while [p > sse2_end], from a [p] that is not
    above [sse2_end]; the model keeps the condition and the body. *)

From S2P Require Import Prelude.
From S2P Require Import Simd.
From S2P Require Import BinaryColumn.

(** [std::toupper] and [std::tolower] of the C locale, on an [unsigned char] *)
Definition toupper (c : Z) : Z := if (0x61 <=? c) && (c <=? 0x7a) then c - 32 else c.
Definition tolower (c : Z) : Z := if (0x41 <=? c) && (c <=? 0x5a) then c + 32 else c.

(** [if (C0 <= c && c <= C1) c ^= 32] on a [char], which is signed *)
Definition flip_case (C0 C1 c : Z) : Z :=
  if (C0 <=? wraps 8 c) && (wraps 8 c <=? C1) then Z.lxor c 32 else c.

(** [std::transform(buf + p, buf + e, buf + p, f)] *)
Definition transform_at (f : Z -> Z) (buf : list Z) (p e : Z) : res (list Z) :=
  if e <? p then Err EBounds
  else x ← loadu (Z.to_nat (e - p)) buf p; storeu buf p (f <$> x).

(** [_mm_maskmoveu_si128]: stores the bytes whose mask has its high bit *)
Definition maskmoveu (buf : list Z) (p : Z) (data mask : vec) : res (list Z) :=
  old ← loadu (length data) buf p;
  storeu buf p (zip_with (fun d '(m, o) => if 128 <=? m then d else o) data (zip mask old)).

(** [_mm_and_si128(_mm_cmpgt_epi8(bytes, C0 - 1), _mm_cmpgt_epi8(C1 + 1, bytes))] *)
Definition case_masks (C0 C1 : Z) (bytes : vec) : vec :=
  and_si (cmpgt_epi8 bytes (set1_epi8 16 (C0 - 1))) (cmpgt_epi8 (set1_epi8 16 (C1 + 1)) bytes).

(** the vector loop of the versions that work in place; [op] is the
    subtraction or the exclusive or with 32 *)
Fixpoint case_simd_loop (op : vec -> vec -> vec) (C0 C1 : Z) (fuel : nat) (buf : list Z) (p sse2_end : Z) : res (Z * list Z) :=
  match fuel with
  | O => Err EFuel
  | S fuel =>
      if sse2_end <? p then
        bytes ← loadu 16 buf p;
        buf ← maskmoveu buf p (op bytes (set1_epi8 16 32)) (case_masks C0 C1 bytes);
        case_simd_loop op C0 C1 fuel buf (p + 16) sse2_end
      else Ok (p, buf)
  end.

Definition sse2_end_of (begin size : Z) : Z := begin + Z.land size (Z.lnot (16 - 1)).

(** ** Strings *)

Definition upper_old (s : list Z) : list Z := toupper <$> s.
Definition lower_old (s : list Z) : list Z := tolower <$> s.
Definition lower_old2 (s : list Z) : list Z := flip_case 0x41 0x5a <$> s.
Definition upper_old2 (s : list Z) : list Z := flip_case 0x61 0x7a <$> s.

Definition upper_new (s : list Z) : res (list Z) :=
  let size := Z.of_nat (length s) in
  '(p, result) ← case_simd_loop sub_epi8 0x61 0x7a (S (length s)) s 0 (sse2_end_of 0 size);
  transform_at (flip_case 0x61 0x7a) result p size.

Definition lower_new (s : list Z) : res (list Z) :=
  let size := Z.of_nat (length s) in
  '(p, result) ← case_simd_loop xor_si 0x41 0x5a (S (length s)) s 0 (sse2_end_of 0 size);
  transform_at (flip_case 0x41 0x5a) result p size.

Definition lower_dummy (s : list Z) : list Z := (fun c => c) <$> s.
Definition lower_dummy2 (s : list Z) : list Z := (fun c => Z.shiftr c 1) <$> s.
Definition lower_dummy3 (s : list Z) : list Z := s.

(** ** Columns *)

Definition for_slices (src dst : BinaryColumn) (f : list Z -> BinaryColumn -> res BinaryColumn) : res BinaryColumn :=
  for_rows (Z.to_nat (bc_size src)) 0 (fun i dst => s ← get_slice src i; f s dst) dst.

Definition upper_vector_old (src dst : BinaryColumn) : res BinaryColumn :=
  for_slices src dst (fun s dst => bc_append dst (upper_old s)).
Definition lower_vector_old (src dst : BinaryColumn) : res BinaryColumn :=
  for_slices src dst (fun s dst => bc_append dst (lower_old s)).

Definition upper_vector_copy_3_times (src dst : BinaryColumn) : res BinaryColumn :=
  for_slices src dst (fun result dst =>
    let size := Z.of_nat (length result) in
    '(p, result) ← case_simd_loop xor_si 0x61 0x7a (S (length result)) result 0 (sse2_end_of 0 size);
    result ← transform_at toupper result p size;
    bc_append dst result).

(** the vector loop of [upper_vector_copy_1_times], from the row to [q] *)
Fixpoint copy_1_loop (fuel : nat) (s : list Z) (p sse2_end : Z) (bytes_out : list Z) (q : Z) : res (Z * list Z * Z) :=
  match fuel with
  | O => Err EFuel
  | S fuel =>
      if sse2_end <? p then
        bytes ← loadu 16 s p;
        let masks := case_masks 0x61 0x7a bytes in
        bytes_out ← maskmoveu bytes_out q (xor_si bytes (set1_epi8 16 32)) masks;
        bytes_out ← maskmoveu bytes_out q bytes (xor_si masks (set1_epi8 16 0xff));
        copy_1_loop fuel s (p + 16) sse2_end bytes_out (q + 16)
      else Ok (p, bytes_out, q)
  end.

(** the rows are written at [q], which only the vector loop advances; the
    sizes are pushed in place of the offsets *)
Definition upper_vector_copy_1_times (src dst : BinaryColumn) : res BinaryColumn :=
  '(dst, _) ← for_rows (Z.to_nat (bc_size src)) 0 (fun i '(dst, q) =>
    s ← get_slice src i;
    let size := Z.of_nat (length s) in
    let offsets := bc_offsets dst ++ [u32 size] in
    '(p, bytes, q) ← copy_1_loop (S (length s)) s 0 (sse2_end_of 0 size) (bc_bytes dst) q;
    x ← loadu (Z.to_nat (size - p)) s p;
    bytes ← storeu bytes q (toupper <$> x);
    Ok (mkColumn bytes offsets, q)) (dst, 0);
  Ok dst.

Definition upper_vector_copy_2_times (src dst : BinaryColumn) : res BinaryColumn :=
  for_slices src dst (fun s dst =>
    dst ← bc_append dst s;
    begin ← rd (bc_offsets dst) (bc_size dst - 1);
    slice2 ← get_last_slice dst;
    let end_ := begin + Z.of_nat (length slice2) in
    '(p, bytes) ← case_simd_loop xor_si 0x61 0x7a (S (length s)) (bc_bytes dst) begin (sse2_end_of begin (Z.of_nat (length s)));
    bytes ← transform_at (flip_case 0x61 0x7a) bytes p end_;
    Ok (mkColumn bytes (bc_offsets dst))).

Definition case_vector_new1 (C0 C1 : Z) (src dst : BinaryColumn) : res BinaryColumn :=
  let bytes := bc_bytes src in
  let size := Z.of_nat (length bytes) in
  '(p, bytes) ← case_simd_loop xor_si C0 C1 (S (length bytes)) bytes 0 (sse2_end_of 0 size);
  bytes ← transform_at (flip_case C0 C1) bytes p size;
  Ok (mkColumn bytes (bc_offsets src)).

Fixpoint new2_loop (C0 C1 : Z) (fuel : nat) (bytes : list Z) (p sse2_end : Z) (buffer : list Z) (q : Z) : res (Z * list Z * Z) :=
  match fuel with
  | O => Err EFuel
  | S fuel =>
      if sse2_end <? p then
        x ← loadu 16 bytes p;
        buffer ← storeu buffer q (xor_si x (and_si (case_masks C0 C1 x) (set1_epi8 16 32)));
        new2_loop C0 C1 fuel bytes (p + 16) sse2_end buffer (q + 16)
      else Ok (p, buffer, q)
  end.

(** [resize(n)]; a [raw_vector] leaves the new elements as they are in memory,
    here those of [l] *)
Definition resize (n : nat) (l : list Z) : list Z := take n l ++ replicate (n - length l) 0.

Definition case_vector_new2 (use_raw : bool) (memory : list Z) (C0 C1 : Z) (src dst : BinaryColumn) : res BinaryColumn :=
  let bytes := bc_bytes src in
  let size := Z.of_nat (length bytes) in
  let buffer := resize (length bytes) (if use_raw then memory else bc_bytes dst) in
  '(p, buffer, q) ← new2_loop C0 C1 (S (length bytes)) bytes 0 (sse2_end_of 0 size) buffer 0;
  x ← loadu (Z.to_nat (size - p)) bytes p;
  buffer ← storeu buffer q (flip_case C0 C1 <$> x);
  Ok (mkColumn buffer (bc_offsets src)).

Definition lower_vector_new1 (src dst : BinaryColumn) : res BinaryColumn := case_vector_new1 0x41 0x5a src dst.
Definition upper_vector_new1 (src dst : BinaryColumn) : res BinaryColumn := case_vector_new1 0x61 0x7a src dst.
Definition lower_vector_new2 (use_raw : bool) (memory : list Z) (src dst : BinaryColumn) : res BinaryColumn :=
  case_vector_new2 use_raw memory 0x41 0x5a src dst.
Definition upper_vector_new2 (use_raw : bool) (memory : list Z) (src dst : BinaryColumn) : res BinaryColumn :=
  case_vector_new2 use_raw memory 0x61 0x7a src dst.

(** ** Characters *)

Lemma flip_upper c : inu 8 c -> flip_case 0x61 0x7a c = toupper c.
Proof.
  intros Hc. apply (bool_decide_eq_true_1 _). revert c Hc.
  apply (byte_cases (fun c => bool_decide (flip_case 0x61 0x7a c = toupper c))). vm_compute. reflexivity.
Qed.

Lemma flip_lower c : inu 8 c -> flip_case 0x41 0x5a c = tolower c.
Proof.
  intros Hc. apply (bool_decide_eq_true_1 _). revert c Hc.
  apply (byte_cases (fun c => bool_decide (flip_case 0x41 0x5a c = tolower c))). vm_compute. reflexivity.
Qed.

Lemma flip_upper_all s : bytes_ok s -> flip_case 0x61 0x7a <$> s = upper_old s.
Proof. intros Hs. apply list_fmap_ext. intros i c Hc. apply flip_upper. by eapply Forall_lookup in Hs. Qed.

Lemma flip_lower_all s : bytes_ok s -> flip_case 0x41 0x5a <$> s = lower_old s.
Proof. intros Hs. apply list_fmap_ext. intros i c Hc. apply flip_lower. by eapply Forall_lookup in Hs. Qed.

(** ** The loops *)

Lemma sse2_end_ge begin n : 0 <= n -> (sse2_end_of begin n <? begin) = false.
Proof.
  intros Hn. apply Z.ltb_ge. unfold sse2_end_of. pose proof (proj2 (Z.land_nonneg n (Z.lnot (16 - 1))) (or_introl Hn)). lia.
Qed.

(** the condition of the vector loops is false at the start *)
Lemma simd_dead op C0 C1 fuel buf p n : 0 <= n -> case_simd_loop op C0 C1 (S fuel) buf p (sse2_end_of p n) = Ok (p, buf).
Proof. intros Hn. cbn [case_simd_loop]. by rewrite sse2_end_ge. Qed.

Lemma transform_mid f pre m t : transform_at f (pre ++ m ++ t) (Z.of_nat (length pre)) (Z.of_nat (length pre) + Z.of_nat (length m)) = Ok (pre ++ (f <$> m) ++ t).
Proof.
  unfold transform_at. destruct (Z.ltb_spec (Z.of_nat (length pre) + Z.of_nat (length m)) (Z.of_nat (length pre))); [lia|].
  replace (Z.to_nat _) with (length m) by lia. rewrite loadu_mid by done. cbn [mbind res_bind]. by rewrite storeu_mid by (by rewrite length_fmap).
Qed.

Lemma transform_all f s : transform_at f s 0 (Z.of_nat (length s)) = Ok (f <$> s).
Proof. pose proof (transform_mid f [] s []) as H. cbn [app length] in H. rewrite !app_nil_r in H. exact H. Qed.

Lemma loadu_all (s : list Z) : loadu (Z.to_nat (Z.of_nat (length s) - 0)) s 0 = Ok s.
Proof. rewrite Z.sub_0_r, Nat2Z.id. pose proof (loadu_mid (length s) [] s [] eq_refl) as H. cbn [app length] in H. by rewrite app_nil_r in H. Qed.

Lemma storeu_all (s x : list Z) : length x = length s -> storeu s 0 x = Ok x.
Proof. intros L. pose proof (storeu_mid [] s x []) as H. cbn [app length] in H. rewrite !app_nil_r in H. by apply H. Qed.

Lemma resize_length n l : length (resize n l) = n.
Proof. unfold resize. rewrite length_app, length_take, length_replicate. lia. Qed.

(** ** Columns as their rows *)

Definition column_of (ss : list (list Z)) : BinaryColumn := mkColumn (mjoin ss) (offsets_from 0 ss).

Lemma col_rep_eq c ss : col_rep c ss -> c = column_of ss.
Proof. destruct c. intros [H1 H2 _ _]. simpl in *. by subst. Qed.

Section rows.
Context (g : list Z -> list Z) (Hg : forall s, length (g s) = length s).

Lemma join_map_length ss : length (mjoin (g <$> ss)) = length (mjoin ss).
Proof. induction ss as [|s ss IH]; [done|]. by rewrite fmap_cons, !mjoin_cons, !length_app, Hg, IH. Qed.

Lemma offsets_map o ss : offsets_from o (g <$> ss) = offsets_from o ss.
Proof. revert o. induction ss as [|s ss IH]; intros o; [done|]. rewrite fmap_cons. cbn [offsets_from]. by rewrite Hg, IH. Qed.

Lemma map_rep c ss : col_rep c ss -> col_rep (mkColumn (mjoin (g <$> ss)) (bc_offsets c)) (g <$> ss).
Proof.
  intros [H1 H2 H3 H4]. split; simpl; [done|by rewrite offsets_map|by rewrite join_map_length|by rewrite length_fmap].
Qed.

(** a loop over the slices whose body appends the image of the row *)
Lemma for_slices_spec src ss body : col_rep src ss -> Forall bytes_ok ss ->
  (forall s done dst, col_rep dst done -> bytes_ok s -> Z.of_nat (length (mjoin (done ++ [g s]))) < 2 ^ 32 -> Z.of_nat (S (length done)) < 2 ^ 31 ->
     exists dst', body s dst = Ok dst' /\ col_rep dst' (done ++ [g s])) ->
  for_slices src BinaryColumn_new body = Ok (column_of (g <$> ss)).
Proof.
  intros Hc Hb Hbody. unfold for_slices. rewrite (col_size _ _ Hc), Nat2Z.id.
  destruct (for_rows_all (fun done dst => col_rep dst (g <$> done)) (fun i dst => s ← get_slice src i; body s dst) ss BinaryColumn_new)
    as (dst & -> & Hd); [apply new_column| |f_equal; by apply col_rep_eq].
  intros done s todo dst E Hd. rewrite (get_slice_spec src ss (length done) s Hc) by (rewrite E; apply row_at). cbn [mbind res_bind].
  rewrite fmap_app. apply Hbody; [done|rewrite E in Hb; apply Forall_app in Hb as [_ Hb]; by apply Forall_inv in Hb|..].
  - change (?l ++ [g s]) with ((g <$> done) ++ (g <$> [s])). rewrite <-fmap_app, join_map_length.
    pose proof (cr_small _ _ Hc) as Hs. rewrite E in Hs. replace (done ++ s :: todo) with ((done ++ [s]) ++ todo) in Hs by (by rewrite <-app_assoc).
    rewrite join_app, length_app in Hs. lia.
  - pose proof (cr_rows _ _ Hc) as Hr. rewrite E, length_app in Hr. simpl in Hr. rewrite length_fmap. lia.
Qed.
End rows.

Lemma upper_length s : length (upper_old s) = length s.
Proof. apply length_fmap. Qed.
Lemma lower_length s : length (lower_old s) = length s.
Proof. apply length_fmap. Qed.

Lemma copy_2_body s done dst : col_rep dst done -> bytes_ok s ->
  Z.of_nat (length (mjoin (done ++ [upper_old s]))) < 2 ^ 32 -> Z.of_nat (S (length done)) < 2 ^ 31 ->
  exists dst', (dst ← bc_append dst s;
    begin ← rd (bc_offsets dst) (bc_size dst - 1);
    slice2 ← get_last_slice dst;
    let end_ := begin + Z.of_nat (length slice2) in
    '(p, bytes) ← case_simd_loop xor_si 0x61 0x7a (S (length s)) (bc_bytes dst) begin (sse2_end_of begin (Z.of_nat (length s)));
    bytes ← transform_at (flip_case 0x61 0x7a) bytes p end_;
    Ok (mkColumn bytes (bc_offsets dst))) = Ok dst' /\ col_rep dst' (done ++ [upper_old s]).
Proof.
  intros Hd Hs Hl Hr. assert (Z.of_nat (length (mjoin (done ++ [s]))) < 2 ^ 32) as Hl'.
  { rewrite join_app, length_app in *. simpl in *. rewrite app_nil_r in *. by rewrite upper_length in Hl. }
  destruct (append_spec dst done s Hd Hl' Hr) as (dst' & -> & Hd'). cbn [mbind res_bind].
  pose proof (cr_bytes _ _ Hd') as Eb. pose proof (cr_offsets _ _ Hd') as Eo.
  assert (bc_size dst' - 1 = Z.of_nat (length done)) as E1 by (rewrite (col_size _ _ Hd'), length_app; simpl; lia).
  unfold get_last_slice. rewrite E1, (get_slice_spec dst' _ (length done) s Hd') by apply row_at.
  rewrite Eo, (rd_nat _ _ _ (offsets_lookup 0 (done ++ [s]) (length done) ltac:(rewrite length_app; lia))). cbn [mbind res_bind].
  rewrite take_app_length, Z.add_0_l, simd_dead by lia. cbn [mbind res_bind].
  rewrite Eb, join_app, mjoin_cons.
  rewrite transform_mid. cbn [mbind res_bind]. eexists. split; [reflexivity|]. rewrite app_nil_r.
  rewrite flip_upper_all by done. split; simpl.
  - rewrite join_app. simpl. by rewrite app_nil_r.
  - rewrite !offsets_snoc, !join_app, !length_app. simpl. by rewrite !app_nil_r, upper_length.
  - done.
  - rewrite length_app. simpl. lia.
Qed.

Lemma new1_spec C0 C1 g src ss dst : (forall s, bytes_ok s -> flip_case C0 C1 <$> s = g s) -> (forall s, length (g s) = length s) ->
  (forall s t, g (s ++ t) = g s ++ g t) -> g [] = [] -> col_rep src ss -> Forall bytes_ok ss ->
  case_vector_new1 C0 C1 src dst = Ok (column_of (g <$> ss)) /\
  forall use_raw memory, case_vector_new2 use_raw memory C0 C1 src dst = Ok (column_of (g <$> ss)).
Proof.
  intros Hf Hlen Happ Hnil Hc Hb.
  assert (g (mjoin ss) = mjoin (g <$> ss)) as Hj.
  { clear -Happ Hnil. induction ss as [|s ss IH]; [done|]. by rewrite fmap_cons, !mjoin_cons, Happ, <-IH. }
  assert (bytes_ok (mjoin ss)) as Hbj.
  { clear -Hb. induction Hb as [|s ss Hs Hss IH]; [constructor|]. by apply Forall_app. }
  assert (mkColumn (g (mjoin ss)) (bc_offsets src) = column_of (g <$> ss)) as Ec by (rewrite Hj; by apply col_rep_eq, map_rep).
  split.
  - unfold case_vector_new1. rewrite (cr_bytes _ _ Hc), simd_dead by lia. cbn [mbind res_bind].
    rewrite transform_all. cbn [mbind res_bind]. by rewrite Hf, Ec.
  - intros use_raw memory. unfold case_vector_new2. rewrite (cr_bytes _ _ Hc). cbn [new2_loop]. rewrite sse2_end_ge by lia. cbn [mbind res_bind].
    rewrite loadu_all. cbn [mbind res_bind]. rewrite storeu_all by (by rewrite length_fmap, resize_length). cbn [mbind res_bind]. by rewrite Hf, Ec.
Qed.

(** ** The claim *)

(** All conversions to upper and to lower case agree with [std::toupper]
    and [std::tolower] on every byte, on strings and row by row on columns;
    except [upper_vector_copy_1_times], which writes its first row outside the
    bytes of an empty destination. *)
Theorem string_case_correct src ss dst use_raw memory : col_rep src ss -> Forall bytes_ok ss ->
  let up := column_of (upper_old <$> ss) in
  let lo := column_of (lower_old <$> ss) in
  (forall s, bytes_ok s -> upper_old2 s = upper_old s /\ upper_new s = Ok (upper_old s) /\ lower_old2 s = lower_old s /\ lower_new s = Ok (lower_old s)) /\
  upper_vector_old src BinaryColumn_new = Ok up /\ lower_vector_old src BinaryColumn_new = Ok lo /\
  upper_vector_copy_3_times src BinaryColumn_new = Ok up /\ upper_vector_copy_2_times src BinaryColumn_new = Ok up /\
  upper_vector_new1 src dst = Ok up /\ lower_vector_new1 src dst = Ok lo /\
  upper_vector_new2 use_raw memory src dst = Ok up /\ lower_vector_new2 use_raw memory src dst = Ok lo /\
  (forall c s ss', ss = (c :: s) :: ss' -> upper_vector_copy_1_times src BinaryColumn_new = Err EBounds).
Proof.
  intros Hc Hb up lo.
  destruct (new1_spec 0x61 0x7a upper_old src ss dst flip_upper_all upper_length (fun s t => fmap_app _ s t) eq_refl Hc Hb) as [U1 U2].
  destruct (new1_spec 0x41 0x5a lower_old src ss dst flip_lower_all lower_length (fun s t => fmap_app _ s t) eq_refl Hc Hb) as [L1 L2].
  assert (forall s, bytes_ok s -> case_simd_loop xor_si 0x61 0x7a (S (length s)) s 0 (sse2_end_of 0 (Z.of_nat (length s))) = Ok (0, s)) as Hd.
  { intros s _. apply simd_dead. lia. }
  split_and!.
  - intros s Hs. unfold upper_old2, lower_old2, upper_new, lower_new. rewrite !simd_dead by lia. cbn [mbind res_bind].
    rewrite !transform_all. by rewrite flip_upper_all, flip_lower_all.
  - apply (for_slices_spec upper_old upper_length); [done|done|]. intros s done d H1 H2 H3 H4. by apply append_spec.
  - apply (for_slices_spec lower_old lower_length); [done|done|]. intros s done d H1 H2 H3 H4. by apply append_spec.
  - apply (for_slices_spec upper_old upper_length); [done|done|]. intros s done d H1 H2 H3 H4. cbv beta zeta. rewrite Hd by done. cbn [mbind res_bind].
    rewrite transform_all. cbn [mbind res_bind]. by apply append_spec.
  - apply (for_slices_spec upper_old upper_length); [done|done|]. intros s done d H1 H2 H3 H4. by apply copy_2_body.
  - exact U1.
  - exact L1.
  - apply U2.
  - apply L2.
  - intros c s ss' ->. unfold upper_vector_copy_1_times. rewrite (col_size _ _ Hc), Nat2Z.id. cbn [length for_rows].
    pose proof (get_slice_spec src _ 0 (c :: s) Hc eq_refl) as Hg. change (Z.of_nat 0) with 0 in Hg. rewrite Hg. cbn [mbind res_bind copy_1_loop]. rewrite sse2_end_ge by lia. cbn [mbind res_bind].
    by rewrite loadu_all.
Qed.

Lemma string_case_correct_witness :
  upper_vector_copy_2_times (column_of [[97; 98]; [0xc3; 0xa9]; [120]]) BinaryColumn_new = Ok (column_of [[65; 66]; [0xc3; 0xa9]; [88]]) /\
  upper_vector_copy_1_times (column_of [[97; 98]; [0xc3; 0xa9]; [120]]) BinaryColumn_new = Err EBounds.
Proof.
  destruct (string_case_correct (column_of [[97; 98]; [0xc3; 0xa9]; [120]]) [[97; 98]; [0xc3; 0xa9]; [120]] BinaryColumn_new true []) as (_ & _ & _ & _ & H & _ & _ & _ & _ & H').
  - split; [reflexivity|reflexivity|simpl; lia|simpl; lia].
  - by repeat constructor.
  - split; [exact H|]. by eapply H'.
Defined.
