(* ===== verification/Substr.v ===== *)
(** * Substrings: src/include/string_functions.hh, [substr] and its parts

    Every function takes a column and appends one row per row to another.
    Positions are [int]s that meet [size_t]s in comparisons, where a negative
    one becomes huge ([u64]); a sum of two [int]s that overflows is an error.
    The vector width of the ASCII check is 32. *)

From S2P Require Import Prelude.
From S2P Require Import Simd.
From S2P Require Import Utf8.
From S2P Require Import BinaryColumn.

(** the sum of two [int]s *)
Definition add_int (a b : Z) : res Z := checked 32 (a + b).

(** ** ASCII rows *)

(** the range of a row of [size] bytes that is taken; [None] for none *)
Definition ascii_range (negative_offset : bool) (offset len size : Z) : res (option (Z * Z)) :=
  let from_pos := if negative_offset then i32 (offset + size) else offset in
  if (if negative_offset then from_pos <? 0 else size <? u64 from_pos) then Ok None
  else
    to_pos ← add_int from_pos len;
    let to_pos := if (to_pos <? from_pos) || (size <? u64 to_pos) then i32 size else to_pos in
    Ok (Some (from_pos, to_pos)).

Definition ascii_substr (negative_offset : bool) (src dst : BinaryColumn) (offset len : Z) : res BinaryColumn :=
  for_rows (Z.to_nat (bc_size src)) 0 (fun i dst =>
    s ← get_slice src i;
    let size := Z.of_nat (length s) in
    if size =? 0 then bc_append dst []
    else
      r ← ascii_range negative_offset offset len size;
      match r with
      | None => bc_append dst []
      | Some (from_pos, to_pos) => bc_append_range dst s from_pos to_pos
      end) dst.

(** the versions that write into a string of bytes and a vector of offsets;
    they differ in how these are passed *)
Definition ascii_substr_by_ref (negative_offset : bool) (src : BinaryColumn) (bytes : list Z) (offsets : list Z) (off len : Z) :
    res (list Z * list Z) :=
  for_rows (Z.to_nat (bc_size src)) 0 (fun i '(bytes, offsets) =>
    s ← get_slice src i;
    let size := Z.of_nat (length s) in
    bytes ←
      (if size =? 0 then Ok bytes
       else
         r ← ascii_range negative_offset off len size;
         match r with
         | None => Ok bytes
         | Some (from_pos, to_pos) =>
             if from_pos <=? to_pos then x ← loadu (Z.to_nat (to_pos - from_pos)) s from_pos; Ok (bytes ++ x) else Err EBounds
         end);
    offsets ← wr offsets (i + 1) (i32 (Z.of_nat (length bytes)));
    Ok (bytes, offsets)) (bytes, offsets).

Definition ascii_substr_by_ptr (negative_offset : bool) (src : BinaryColumn) (bytes : list Z) (offsets : list Z) (off len : Z) :
    res (list Z * list Z) :=
  for_rows (Z.to_nat (bc_size src)) 0 (fun i '(bytes, offsets) =>
    s ← get_slice src i;
    let size := Z.of_nat (length s) in
    bytes ←
      (if size =? 0 then Ok bytes
       else
         r ← ascii_range negative_offset off len size;
         match r with
         | None => Ok bytes
         | Some (from_pos, to_pos) =>
             if from_pos <=? to_pos then x ← loadu (Z.to_nat (to_pos - from_pos)) s from_pos; Ok (bytes ++ x) else Err EBounds
         end);
    offsets ← wr offsets (i + 1) (i32 (Z.of_nat (length bytes)));
    Ok (bytes, offsets)) (bytes, offsets).

(** ** UTF-8 rows *)

Definition utf8_substr_from_left (use_length lookup_table : bool) (src dst : BinaryColumn) (offset len : Z) : res BinaryColumn :=
  for_rows (Z.to_nat (bc_size src)) 0 (fun i dst =>
    s ← get_slice src i;
    let end_ := Z.of_nat (length s) in
    from_ptr ← skip_leading_utf8 lookup_table s 0 (u64 offset);
    if use_length then
      if end_ <=? from_ptr then bc_append dst []
      else
        to_ptr ← skip_leading_utf8 lookup_table s from_ptr (u64 len);
        bc_append_range dst s from_ptr to_ptr
    else bc_append_range dst s from_ptr end_) dst.

Definition SMALL_INDEX_MAX : Z := 32.

(** one row of [utf8_substr_from_right]; the small index is kept between rows *)
Definition from_right_row (use_length lookup_table : bool) (offset len : Z) (s : list Z) (dst : BinaryColumn) (small_index : list Z) :
    res (BinaryColumn * list Z) :=
  let size := Z.of_nat (length s) in
  if size <? u64 offset then dst ← bc_append dst []; Ok (dst, small_index)
  else if size <=? SMALL_INDEX_MAX then
    '(small_index_size, small_index) ← get_utf8_small_index s small_index;
    if small_index_size <? u64 offset then dst ← bc_append dst []; Ok (dst, small_index)
    else
      let from_idx := u64 (small_index_size - offset) in
      from_ptr ← rd small_index from_idx;
      to_ptr ←
        (if use_length then
           let to_idx := u64 (from_idx + len) in
           if len <? offset then rd small_index to_idx else Ok size
         else Ok size);
      dst ← bc_append_range dst s from_ptr to_ptr;
      Ok (dst, small_index)
  else
    from_ptr ← skip_trailing_utf8 s size (u64 offset);
    dst ←
      (if from_ptr <? 0 then bc_append dst []
       else if use_length then
         if size - from_ptr <? len then bc_append_range dst s from_ptr size
         else
           to_ptr ← skip_leading_utf8 lookup_table s from_ptr (u64 len);
           bc_append_range dst s from_ptr to_ptr
       else bc_append_range dst s from_ptr size);
    Ok (dst, small_index).

Definition utf8_substr_from_right (use_length lookup_table : bool) (src dst : BinaryColumn) (offset len : Z) : res BinaryColumn :=
  '(dst, _) ← for_rows (Z.to_nat (bc_size src)) 0 (fun i '(dst, small_index) =>
    s ← get_slice src i;
    from_right_row use_length lookup_table offset len s dst small_index) (dst, replicate 32 0);
  Ok dst.

(** [substr<false, ...>] *)
Definition substr_utf8 (use_length lookup_table : bool) (src dst : BinaryColumn) (offset len : Z) : res BinaryColumn :=
  if offset =? 0 then Ok dst
  else if 0 <? offset then utf8_substr_from_left use_length lookup_table src dst (offset - 1) len
  else offset ← checked 32 (- offset); utf8_substr_from_right use_length lookup_table src dst offset len.

Definition substr (check_ascii use_length lookup_table : bool) (src dst : BinaryColumn) (offset len : Z) : res BinaryColumn :=
  if offset =? 0 then Ok dst
  else if check_ascii then
    is_ascii ← validate_ascii_fast 32 (bc_bytes src);
    if (is_ascii : bool) then
      if 0 <? offset then ascii_substr false src dst (offset - 1) len
      else ascii_substr true src dst offset len
    else substr_utf8 use_length lookup_table src dst offset len
  else substr_utf8 use_length lookup_table src dst offset len.

(** ** With an index of the characters *)

(** the rows of [substr_new] and [substr_old] that are not ASCII *)
Definition index_row (negative_offset : bool) (get_index : list Z -> res (list Z)) (offset len : Z) (value : list Z) (dst : BinaryColumn) :
    res BinaryColumn :=
  let size := Z.of_nat (length value) in
  if size =? 0 then bc_append dst []
  else
    index ← get_index value;
    let n := Z.of_nat (length index) in
    let pos := if negative_offset && (offset <? 0) then i32 (offset + n) else offset in
    if (n <=? u64 pos) || (pos <? 0) then bc_append dst []
    else
      byte_pos ← rd index pos;
      pos_len ← add_int pos len;
      result_length ←
        (if u64 pos_len <? n then e ← rd index pos_len; Ok (i32 (e - byte_pos)) else Ok (i32 (size - byte_pos)));
      bc_append_range dst value byte_pos (byte_pos + result_length).

Definition substr_new (negative_offset : bool) (src dst : BinaryColumn) (offset len : Z) : res BinaryColumn :=
  is_ascii ← validate_ascii_fast 32 (bc_bytes src);
  if (is_ascii : bool) then ascii_substr true src dst offset len
  else
    let offset := if 0 <? offset then offset - 1 else offset in
    for_rows (Z.to_nat (bc_size src)) 0 (fun i dst =>
      value ← get_slice src i; index_row negative_offset get_utf8_index2 offset len value dst) dst.

Definition substr_old (negative_offset : bool) (src dst : BinaryColumn) (offset len : Z) : res BinaryColumn :=
  is_ascii ← validate_ascii_fast 32 (bc_bytes src);
  if (is_ascii : bool) then
    for_rows (Z.to_nat (bc_size src)) 0 (fun i dst =>
      value ← get_slice src i;
      let size := Z.of_nat (length value) in
      if (size =? 0) || (size <? u64 offset) then bc_append dst []
      else
        byte_pos ← add_int offset (-1);
        off_len ← add_int offset len;
        let result_length := if size <? u64 off_len then i32 (size - byte_pos) else len in
        bc_append_range dst value byte_pos (byte_pos + result_length)) dst
  else
    let offset := if 0 <? offset then offset - 1 else offset in
    for_rows (Z.to_nat (bc_size src)) 0 (fun i dst =>
      value ← get_slice src i; index_row negative_offset get_utf8_index offset len value dst) dst.
