(* ===== verification/SubstrSpec.v ===== *)
(** * Substrings: what [substr] computes

    Against a reference on lists of characters: a positive offset counts from
    the first character, a negative one from the last. *)

From S2P Require Import Prelude.
From S2P Require Import Simd.
From S2P Require Import Reverse.
From S2P Require Import Utf8.
From S2P Require Import Utf8Spec.
From S2P Require Import BinaryColumn.
From S2P Require Import StringCase.
From S2P Require Import Substr.

(** the characters from an offset on *)
Definition from_offset {A} (off : Z) (cs : list A) : list A :=
  if 0 <? off then drop (Z.to_nat (off - 1)) cs
  else if - off <=? Z.of_nat (length cs) then drop (length cs - Z.to_nat (- off)) cs else [].

Definition substr_ref {A} (off : Z) (len : option Z) (cs : list A) : list A :=
  match len with Some n => take (Z.to_nat n) (from_offset off cs) | None => from_offset off cs end.

Definition utf8_valid (s : list Z) : Prop := exists cs, utf8_string s cs.

Definition row_substr (off : Z) (len : option Z) (s : list Z) : list Z :=
  match utf8_chars s with Some cs => mjoin (substr_ref off len cs) | None => [] end.

Lemma utf8_ok_is_char c : utf8_ok c -> is_char c.
Proof. destruct c as [|b t]; [done|]. intros (H1 & H2 & _). split; [by apply lead_byte|done]. Qed.

Lemma utf8_string_chars cs : Forall utf8_ok cs -> utf8_chars (mjoin cs) = Some cs.
Proof. intros Hcs. apply utf8_split_chars; [done|]. eapply Forall_impl; [exact Hcs|]. apply utf8_ok_is_char. Qed.

Lemma row_substr_chars off len cs : Forall utf8_ok cs -> row_substr off len (mjoin cs) = mjoin (substr_ref off len cs).
Proof. intros Hcs. unfold row_substr. by rewrite utf8_string_chars. Qed.

(** ** Loops over the rows *)

Lemma append_mid dst pre m post : bc_append_range dst (pre ++ m ++ post) (Z.of_nat (length pre)) (Z.of_nat (length pre) + Z.of_nat (length m)) = bc_append dst m.
Proof.
  unfold bc_append_range. destruct (Z.leb_spec (Z.of_nat (length pre)) (Z.of_nat (length pre) + Z.of_nat (length m))); [|lia].
  replace (Z.to_nat _) with (length m) by lia. by rewrite loadu_mid.
Qed.

(** the part of a string between two positions of characters *)
Lemma append_chars dst (a b c : list (list Z)) :
  bc_append_range dst (mjoin (a ++ b ++ c)) (Z.of_nat (length (mjoin a))) (Z.of_nat (length (mjoin (a ++ b)))) = bc_append dst (mjoin b).
Proof.
  rewrite !join_app, length_app, Nat2Z.inj_add. apply append_mid.
Qed.

Definition row_ok (F : list Z -> list Z) (body : list Z -> BinaryColumn -> res BinaryColumn) (s : list Z) : Prop :=
  (length (F s) <= length s)%nat /\ forall dst, body s dst = bc_append dst (F s).

Lemma mapped_small (F : list Z -> list Z) (ss : list (list Z)) : Forall (fun s => (length (F s) <= length s)%nat) ss -> (length (mjoin (F <$> ss)) <= length (mjoin ss))%nat.
Proof. induction 1 as [|s ss Hs Hss IH]; [done|]. rewrite fmap_cons, !mjoin_cons, !length_app. lia. Qed.

Lemma rows_map src ss F body : col_rep src ss -> Forall (row_ok F body) ss ->
  for_rows (Z.to_nat (bc_size src)) 0 (fun i dst => s ← get_slice src i; body s dst) BinaryColumn_new = Ok (column_of (F <$> ss)).
Proof.
  intros Hc Hrow. rewrite (col_size _ _ Hc), Nat2Z.id.
  destruct (for_rows_all (fun done dst => col_rep dst (F <$> done)) (fun i dst => s ← get_slice src i; body s dst) ss BinaryColumn_new)
    as (dst & -> & Hd); [apply new_column| |f_equal; by apply col_rep_eq].
  intros done s todo dst E Hd. rewrite (get_slice_spec src ss (length done) s Hc) by (rewrite E; apply row_at). cbn [mbind res_bind].
  assert (Forall (fun s => (length (F s) <= length s)%nat) ss) as Hlen by (eapply Forall_impl; [exact Hrow|]; by intros ? []).
  rewrite E in Hrow, Hlen. apply Forall_app in Hrow as [_ Hrow]. apply Forall_inv in Hrow as [_ Hbody]. rewrite Hbody.
  assert (done ++ s :: todo = (done ++ [s]) ++ todo) as E' by by rewrite <-app_assoc.
  rewrite E' in Hlen. apply Forall_app in Hlen as [Hlen _]. apply mapped_small in Hlen.
  rewrite fmap_app in *. apply append_spec; [done|..].
  - pose proof (cr_small _ _ Hc) as Hs. rewrite E, E', join_app, length_app in Hs. simpl in Hlen. lia.
  - pose proof (cr_rows _ _ Hc) as Hr. rewrite E, length_app in Hr. simpl in Hr. rewrite length_fmap. lia.
Qed.

(** ** Rows of characters *)

Lemma join_nil_chars cs : Forall utf8_ok cs -> (length (mjoin cs) = 0)%nat -> cs = [].
Proof. intros Hcs H. apply join_length_chars in Hcs. apply nil_length_inv. lia. Qed.

Lemma sub_length (cs a b c : list (list Z)) : cs = a ++ b ++ c -> (length (mjoin b) <= length (mjoin cs))%nat.
Proof. intros ->. rewrite !join_app, !length_app. lia. Qed.

Lemma substr_ref_split {A} off len (cs : list A) : exists a c, cs = a ++ substr_ref off len cs ++ c.
Proof.
  assert (exists a c, cs = a ++ from_offset off cs ++ c) as (a & c & E).
  { unfold from_offset. destruct (0 <? off); [exists (take (Z.to_nat (off - 1)) cs), []; by rewrite app_nil_r, take_drop|].
    destruct (_ <=? _); [|exists cs, []; by rewrite !app_nil_r]. exists (take (length cs - Z.to_nat (- off)) cs), []. by rewrite app_nil_r, take_drop. }
  destruct len as [n|]; [|by exists a, c]. exists a, (drop (Z.to_nat n) (from_offset off cs) ++ c). simpl.
  rewrite (app_assoc (take _ _)), take_drop. done.
Qed.

Lemma row_substr_length off len cs : Forall utf8_ok cs -> (length (row_substr off len (mjoin cs)) <= length (mjoin cs))%nat.
Proof.
  intros Hcs. rewrite row_substr_chars by done. destruct (substr_ref_split off len cs) as (a & c & E). by apply (sub_length cs a _ c).
Qed.

Lemma u64_id z : 0 <= z < 2 ^ 64 -> u64 z = z.
Proof. intros H. by apply Z.mod_small. Qed.

(** the body of [utf8_substr_from_left] *)
Definition left_row (use_length t : bool) (offset len : Z) (s : list Z) (dst : BinaryColumn) : res BinaryColumn :=
  let end_ := Z.of_nat (length s) in
  from_ptr ← skip_leading_utf8 t s 0 (u64 offset);
  if use_length then
    if end_ <=? from_ptr then bc_append dst []
    else to_ptr ← skip_leading_utf8 t s from_ptr (u64 len); bc_append_range dst s from_ptr to_ptr
  else bc_append_range dst s from_ptr end_.

Definition len_arg (use_length : bool) (len : Z) : option Z := if use_length then Some len else None.

Lemma skip_first t cs n : Forall utf8_ok cs -> skip_leading_utf8 t (mjoin cs) 0 n = Ok (Z.of_nat (length (mjoin (take (Z.to_nat n) cs)))).
Proof. intros Hcs. pose proof (skip_leading_at t [] cs n Hcs) as H. exact H. Qed.

Lemma skip_from t a b n : Forall utf8_ok b ->
  skip_leading_utf8 t (mjoin (a ++ b)) (Z.of_nat (length (mjoin a))) n = Ok (Z.of_nat (length (mjoin (a ++ take (Z.to_nat n) b)))).
Proof. intros Hb. rewrite (join_app a b). by apply skip_leading_at. Qed.

Lemma left_row_ok use_length t off len cs : Forall utf8_ok cs -> 0 < off < 2 ^ 31 -> 0 <= len < 2 ^ 31 ->
  row_ok (row_substr off (len_arg use_length len)) (left_row use_length t (off - 1) len) (mjoin cs).
Proof.
  intros Hcs Hoff Hlen. split; [by apply row_substr_length|]. intros dst. rewrite row_substr_chars by done.
  unfold left_row. rewrite !u64_id, skip_first by (done || lia). cbn [mbind res_bind].
  assert (from_offset off cs = drop (Z.to_nat (off - 1)) cs) as Ef by (unfold from_offset; by destruct (Z.ltb_spec 0 off); [|lia]).
  set (a := take (Z.to_nat (off - 1)) cs) in *. set (b := drop (Z.to_nat (off - 1)) cs) in *.
  assert (cs = a ++ b) as E by (unfold a, b; by rewrite take_drop). clearbody a b. subst cs. apply Forall_app in Hcs as [Ha Hb].
  destruct use_length; unfold substr_ref, len_arg; rewrite Ef.
  - destruct (Z.leb_spec (Z.of_nat (length (mjoin (a ++ b)))) (Z.of_nat (length (mjoin a)))) as [Hle|Hgt].
    + assert (b = []) as -> by (apply join_nil_chars; [done|]; rewrite join_app, length_app in Hle; lia). by rewrite take_nil.
    + rewrite skip_from by done. cbn [mbind res_bind].
      rewrite <-(take_drop (Z.to_nat len) b) at 1. apply append_chars.
  - pose proof (append_chars dst a b []) as H. by rewrite app_nil_r in H.
Qed.

(** ** From the right *)

Lemma small_index_at cs idx : Forall utf8_ok cs -> (length (mjoin cs) <= 32)%nat -> length idx = 32%nat -> exists post,
  get_utf8_small_index (mjoin cs) idx = Ok (Z.of_nat (length cs), positions 0 cs ++ post) /\ length (positions 0 cs ++ post) = 32%nat.
Proof.
  intros Hcs Hl Hi. pose proof (join_length_chars cs Hcs) as Hn.
  destruct (list_split (length cs) (32 - length cs) idx) as (mid & post & -> & Lm & Lp); [lia|]. exists post. split.
  - exact (small_index_spec cs Hcs (S (length (mjoin cs))) [] [] mid post (le_n _) ltac:(simpl; lia) Lm).
  - rewrite length_app, positions_length. lia.
Qed.

Lemma right_row_ok use_length t off len cs : Forall utf8_ok cs -> 0 < off < 2 ^ 31 -> 0 <= len < 2 ^ 31 -> Z.of_nat (length (mjoin cs)) < 2 ^ 31 ->
  forall dst idx, length idx = 32%nat -> exists idx', length idx' = 32%nat /\
  from_right_row use_length t off len (mjoin cs) dst idx =
    (dst ← bc_append dst (row_substr (- off) (len_arg use_length len) (mjoin cs)); Ok (dst, idx')).
Proof.
  intros Hcs Hoff Hlen Hsz dst idx Hidx. rewrite row_substr_chars by done. pose proof (join_length_chars cs Hcs) as Hn.
  assert (from_offset (- off) cs = if off <=? Z.of_nat (length cs) then drop (length cs - Z.to_nat off) cs else []) as Ef.
  { unfold from_offset. destruct (Z.ltb_spec 0 (- off)); [lia|]. by rewrite Z.opp_involutive. }
  unfold from_right_row. rewrite !(u64_id off), (u64_id len) by lia.
  destruct (Z.ltb_spec (Z.of_nat (length (mjoin cs))) off) as [Hlt|Hge].
  { exists idx. split; [done|]. destruct (Z.leb_spec off (Z.of_nat (length cs))); [lia|].
    destruct use_length; unfold substr_ref, len_arg; rewrite Ef; [by rewrite take_nil|done]. }
  destruct (Z.leb_spec off (Z.of_nat (length cs))) as [Hin|Hout].
  2: { (* fewer characters than the offset *)
    assert (substr_ref (- off) (len_arg use_length len) cs = []) as -> by (destruct use_length; unfold substr_ref, len_arg; rewrite Ef; by rewrite ?take_nil).
    destruct (Z.leb_spec (Z.of_nat (length (mjoin cs))) SMALL_INDEX_MAX) as [Hs|Hs].
    - unfold SMALL_INDEX_MAX in Hs. destruct (small_index_at cs idx Hcs ltac:(lia) Hidx) as (post & -> & Hp). cbn [mbind res_bind].
      destruct (Z.ltb_spec (Z.of_nat (length cs)) off); [|lia]. by exists (positions 0 cs ++ post).
    - rewrite skip_trailing_at by (done || lia). cbn [mbind res_bind]. destruct (Z.leb_spec off (Z.of_nat (length cs))); [lia|]. by exists idx. }
  set (a := take (length cs - Z.to_nat off) cs) in *. set (b := drop (length cs - Z.to_nat off) cs) in *.
  assert (cs = a ++ b) as E by (unfold a, b; by rewrite take_drop).
  assert (length b = Z.to_nat off) as Lb by (unfold b; rewrite length_drop; lia).
  assert (Forall utf8_ok b) as Hb by (unfold b; by apply Forall_drop).
  assert (forall d, bc_append_range d (mjoin cs) (Z.of_nat (length (mjoin a))) (Z.of_nat (length (mjoin cs))) = bc_append d (mjoin b)) as Hrest.
  { intros d. rewrite E. pose proof (append_chars d a b []) as H. by rewrite app_nil_r in H. }
  assert (forall d, bc_append_range d (mjoin cs) (Z.of_nat (length (mjoin a))) (Z.of_nat (length (mjoin (a ++ take (Z.to_nat len) b)))) =
            bc_append d (mjoin (take (Z.to_nat len) b))) as Hpart.
  { intros d. rewrite E at 1. rewrite <-(take_drop (Z.to_nat len) b) at 1. apply append_chars. }
  destruct (Z.leb_spec (Z.of_nat (length (mjoin cs))) SMALL_INDEX_MAX) as [Hs|Hs].
  - unfold SMALL_INDEX_MAX in Hs. destruct (small_index_at cs idx Hcs ltac:(lia) Hidx) as (post & -> & Hp). cbn [mbind res_bind].
    destruct (Z.ltb_spec (Z.of_nat (length cs)) off); [lia|]. exists (positions 0 cs ++ post). split; [done|].
    rewrite (u64_id (Z.of_nat (length cs) - off)) by lia. replace (Z.of_nat (length cs) - off) with (Z.of_nat (length cs - Z.to_nat off)) by lia.
    assert (forall k, (k < length cs)%nat -> rd (positions 0 cs ++ post) (Z.of_nat k) = Ok (Z.of_nat (length (mjoin (take k cs))))) as Hrd.
    { intros k Hk. apply rd_nat. rewrite lookup_app_l by (rewrite positions_length; lia). by rewrite positions_lookup. }
    rewrite Hrd by lia. fold a. cbn [mbind res_bind]. destruct use_length; unfold substr_ref, len_arg; rewrite Ef; cbn [mbind res_bind]; [|by rewrite Hrest].
    destruct (Z.ltb_spec len off) as [Hlo|Hlo].
    + rewrite u64_id by lia. replace (Z.of_nat (length cs - Z.to_nat off) + len) with (Z.of_nat (length cs - Z.to_nat off + Z.to_nat len)) by lia.
      rewrite Hrd by lia. cbn [mbind res_bind]. rewrite <-take_take_drop. fold a b. by rewrite Hpart.
    + cbn [mbind res_bind]. rewrite Hrest, take_ge by lia. done.
  - exists idx. split; [done|]. rewrite skip_trailing_at by (done || lia). cbn [mbind res_bind]. destruct (Z.leb_spec off (Z.of_nat (length cs))); [|lia].
    fold a. destruct (Z.ltb_spec (Z.of_nat (length (mjoin a))) 0); [lia|]. destruct use_length; unfold substr_ref, len_arg; rewrite Ef; [|by rewrite Hrest].
    destruct (Z.ltb_spec (Z.of_nat (length (mjoin cs)) - Z.of_nat (length (mjoin a))) len) as [Hlo|Hlo].
    + rewrite Hrest, take_ge; [done|]. pose proof (join_length_chars b Hb). rewrite E, join_app, length_app in Hlo. lia.
    + rewrite E at 1. rewrite skip_from by done. cbn [mbind res_bind]. by rewrite Hpart.
Qed.

Lemma right_rows src ss use_length t off len : col_rep src ss -> Forall utf8_valid ss -> Forall (fun s : list Z => Z.of_nat (length s) < 2 ^ 31) ss ->
  0 < off < 2 ^ 31 -> 0 <= len < 2 ^ 31 ->
  utf8_substr_from_right use_length t src BinaryColumn_new off len = Ok (column_of (row_substr (- off) (len_arg use_length len) <$> ss)).
Proof.
  intros Hc Hv Hsz Hoff Hlen. unfold utf8_substr_from_right. rewrite (col_size _ _ Hc), Nat2Z.id.
  set (F := row_substr (- off) (len_arg use_length len)).
  assert (Forall (fun s => (length (F s) <= length s)%nat) ss) as HF.
  { eapply Forall_impl; [exact Hv|]. intros s (cs & -> & Hcs). by apply row_substr_length. }
  destruct (for_rows_all (fun done st => col_rep st.1 (F <$> done) /\ length st.2 = 32%nat)
    (fun i '(dst, small_index) => s ← get_slice src i; from_right_row use_length t off len s dst small_index) ss (BinaryColumn_new, replicate 32 0))
    as ([dst idx] & -> & Hd & _); [split; [apply new_column|done]| |cbn [mbind res_bind]; f_equal; by apply col_rep_eq].
  intros done s todo [dst idx] E [Hd Hidx]. simpl in Hd, Hidx.
  rewrite (get_slice_spec src ss (length done) s Hc) by (rewrite E; apply row_at). cbn [mbind res_bind].
  assert (done ++ s :: todo = (done ++ [s]) ++ todo) as E' by by rewrite <-app_assoc.
  rewrite E in Hv, Hsz, HF. rewrite E' in HF. apply Forall_app in HF as [HF%mapped_small _].
  apply Forall_app in Hv as [_ (cs & -> & Hcs)%Forall_inv], Hsz as [_ Hsz%Forall_inv].
  destruct (right_row_ok use_length t off len cs Hcs Hoff Hlen Hsz dst idx Hidx) as (idx' & Hidx' & ->). fold F.
  destruct (append_spec dst (F <$> done) (F (mjoin cs)) Hd) as (dst' & -> & Hd').
  - pose proof (cr_small _ _ Hc) as Hs. rewrite E, E', join_app, length_app in Hs. rewrite fmap_app in HF. simpl in HF. lia.
  - pose proof (cr_rows _ _ Hc) as Hr. rewrite E, length_app in Hr. simpl in Hr. rewrite length_fmap. lia.
  - cbn [mbind res_bind]. eexists. split; [reflexivity|]. simpl. rewrite fmap_app. done.
Qed.

(** ** ASCII rows *)

Lemma append_sub dst (s : list Z) from to : 0 <= from <= to -> to <= Z.of_nat (length s) ->
  bc_append_range dst s from to = bc_append dst (take (Z.to_nat (to - from)) (drop (Z.to_nat from) s)).
Proof.
  intros H1 H2. unfold bc_append_range. destruct (Z.leb_spec from to); [|lia]. unfold loadu.
  destruct (Z.leb_spec 0 from); [|lia]. destruct (Z.leb_spec (from + Z.of_nat (Z.to_nat (to - from))) (Z.of_nat (length s))); [|lia]. done.
Qed.

Lemma i32_id z : - 2 ^ 31 <= z < 2 ^ 31 -> i32 z = z.
Proof. intros H. unfold wraps. change (32 - 1) with 31. rewrite Z.mod_small by lia. lia. Qed.

Lemma add_int_Ok a b : - 2 ^ 31 <= a + b < 2 ^ 31 -> add_int a b = Ok (a + b).
Proof. intros H. by apply checked_Ok. Qed.

(** the body of [ascii_substr] *)
Definition ascii_row (negative_offset : bool) (offset len : Z) (s : list Z) (dst : BinaryColumn) : res BinaryColumn :=
  let size := Z.of_nat (length s) in
  if size =? 0 then bc_append dst []
  else
    r ← ascii_range negative_offset offset len size;
    match r with
    | None => bc_append dst []
    | Some (from_pos, to_pos) => bc_append_range dst s from_pos to_pos
    end.

Lemma ascii_range_taken dst (s : list Z) from len : 0 <= from <= Z.of_nat (length s) -> 0 <= len -> from + len < 2 ^ 31 -> Z.of_nat (length s) < 2 ^ 31 ->
  (to_pos ← add_int from len;
   let to_pos := if (to_pos <? from) || (Z.of_nat (length s) <? u64 to_pos) then i32 (Z.of_nat (length s)) else to_pos in
   bc_append_range dst s from to_pos) = bc_append dst (take (Z.to_nat len) (drop (Z.to_nat from) s)).
Proof.
  intros Hf Hl Hsum Hs. rewrite add_int_Ok by lia. cbn [mbind res_bind]. rewrite u64_id, i32_id by lia.
  destruct (Z.ltb_spec (from + len) from); [lia|]. cbn [orb]. destruct (Z.ltb_spec (Z.of_nat (length s)) (from + len)).
  - rewrite append_sub by lia. f_equal. rewrite !take_ge; [done|rewrite length_drop; lia..].
  - rewrite append_sub by lia. do 2 f_equal. lia.
Qed.

Lemma ascii_row_pos off len s dst : 0 < off < 2 ^ 31 -> 0 <= len -> off + len < 2 ^ 31 -> Z.of_nat (length s) < 2 ^ 31 ->
  ascii_row false (off - 1) len s dst = bc_append dst (substr_ref off (Some len) s).
Proof.
  intros Hoff Hlen Hsum Hs. unfold substr_ref, from_offset. destruct (Z.ltb_spec 0 off); [|lia]. unfold ascii_row, ascii_range. cbv beta iota zeta.
  destruct (Z.eqb_spec (Z.of_nat (length s)) 0) as [H0|H0].
  { assert (s = []) as -> by (apply nil_length_inv; lia). by rewrite drop_nil, take_nil. }
  rewrite u64_id by lia. destruct (Z.ltb_spec (Z.of_nat (length s)) (off - 1)).
  - rewrite drop_ge by lia. by rewrite take_nil.
  - rewrite <-(ascii_range_taken dst s (off - 1) len) by lia. rewrite add_int_Ok by lia. done.
Qed.

Lemma ascii_row_neg off len s dst : 0 < off < 2 ^ 31 -> 0 <= len -> Z.of_nat (length s) + len < 2 ^ 31 ->
  ascii_row true (- off) len s dst = bc_append dst (substr_ref (- off) (Some len) s).
Proof.
  intros Hoff Hlen Hsum. unfold substr_ref, from_offset. destruct (Z.ltb_spec 0 (- off)); [lia|]. rewrite Z.opp_involutive.
  unfold ascii_row, ascii_range. cbv beta iota zeta.
  destruct (Z.eqb_spec (Z.of_nat (length s)) 0) as [H0|H0].
  { assert (s = []) as -> by (apply nil_length_inv; lia). destruct (off <=? _); by rewrite ?drop_nil, take_nil. }
  rewrite i32_id by lia. destruct (Z.ltb_spec (- off + Z.of_nat (length s)) 0); destruct (Z.leb_spec off (Z.of_nat (length s))); try lia.
  - by rewrite take_nil.
  - replace (length s - Z.to_nat off)%nat with (Z.to_nat (- off + Z.of_nat (length s))) by lia.
    rewrite <-(ascii_range_taken dst s (- off + Z.of_nat (length s)) len) by lia. rewrite add_int_Ok by lia. done.
Qed.

(** the bytes of a row that the versions with a vector of offsets append *)
Definition ascii_part (negative_offset : bool) (offset len : Z) (s : list Z) : res (list Z) :=
  let size := Z.of_nat (length s) in
  if size =? 0 then Ok []
  else
    r ← ascii_range negative_offset offset len size;
    match r with
    | None => Ok []
    | Some (from_pos, to_pos) => if from_pos <=? to_pos then loadu (Z.to_nat (to_pos - from_pos)) s from_pos else Err EBounds
    end.

Lemma ascii_row_part neg offset len s dst : ascii_row neg offset len s dst = (x ← ascii_part neg offset len s; bc_append dst x).
Proof.
  unfold ascii_row, ascii_part. cbv zeta. destruct (_ =? 0); [done|]. destruct (ascii_range _ _ _ _) as [[[from to]|]|]; [|done|done].
  cbn [mbind res_bind]. unfold bc_append_range. by destruct (from <=? to).
Qed.

Lemma ascii_part_of neg offset len s X : (forall dst, ascii_row neg offset len s dst = bc_append dst X) -> ascii_part neg offset len s = Ok X.
Proof.
  intros H. specialize (H BinaryColumn_new). rewrite ascii_row_part in H. destruct (ascii_part neg offset len s) as [x|]; [|done].
  unfold bc_append in H. simpl in H. by injection H as ->.
Qed.

Lemma by_ref_rows src ss neg offset len F offs0 : col_rep src ss -> Z.of_nat (length (mjoin ss)) < 2 ^ 31 ->
  Forall (fun s => ascii_part neg offset len s = Ok (F s) /\ (length (F s) <= length s)%nat) ss -> length offs0 = length ss ->
  ascii_substr_by_ref neg src [] (0 :: offs0) offset len = Ok (mjoin (F <$> ss), offsets_from 0 (F <$> ss)).
Proof.
  intros Hc Hs HF Hl. unfold ascii_substr_by_ref. rewrite (col_size _ _ Hc), Nat2Z.id. set (f := fun i => _).
  destruct (for_rows_all (fun done st => st = (mjoin (F <$> done), offsets_from 0 (F <$> done) ++ drop (length done) offs0)) f ss ([], 0 :: offs0)) as (st & -> & ->).
  - done.
  - intros done s todo st E ->. eexists. split; [|reflexivity]. unfold f.
    rewrite (get_slice_spec src ss (length done) s Hc) by (rewrite E; apply row_at). cbn [mbind res_bind].
    rewrite E in HF. assert (done ++ s :: todo = (done ++ [s]) ++ todo) as E' by by rewrite <-app_assoc.
    assert (length (mjoin (F <$> done ++ [s])) <= length (mjoin ss))%nat as Hsmall.
    { etrans; [apply mapped_small|rewrite E, E', (join_app (done ++ [s])), length_app; lia].
      rewrite E' in HF. apply Forall_app in HF as [HF _]. eapply Forall_impl; [exact HF|]. by intros ? []. }
    apply Forall_app in HF as [_ [HF _]%Forall_inv].
    match goal with |- context [mbind ?k (if Z.of_nat (length s) =? 0 then ?a else ?b)] =>
      replace (if Z.of_nat (length s) =? 0 then a else b) with (Ok (mjoin (F <$> done) ++ F s)) end.
    2: { unfold ascii_part in HF. cbv zeta in HF. destruct (_ =? 0); [injection HF as <-; by rewrite app_nil_r|].
         destruct (ascii_range _ _ _ _) as [[[from to]|]|]; [|injection HF as <-; simpl; by rewrite app_nil_r|done].
         cbn [mbind res_bind] in *. destruct (from <=? to); [by rewrite HF|done]. }
    cbn [mbind res_bind]. assert (length done < length offs0)%nat as Hd by (rewrite Hl, E, length_app; simpl; lia).
    rewrite fmap_app in *. cbn [fmap list_fmap] in *. rewrite join_app in *. cbn [mjoin list_join] in *. rewrite app_nil_r in *.
    rewrite wr_Ok by (rewrite length_app, offsets_length, length_fmap, length_drop; lia). cbn [mbind res_bind].
    do 2 f_equal. rewrite i32_id by lia. rewrite offsets_snoc, join_app. cbn [mjoin list_join]. rewrite app_nil_r, Z.add_0_l.
    replace (Z.to_nat (Z.of_nat (length done) + 1)) with (length (offsets_from 0 (F <$> done))) by (rewrite offsets_length, length_fmap; lia).
    destruct (lookup_lt_is_Some_2 _ _ Hd) as [y Hy]. rewrite (drop_S _ _ _ Hy), insert_app_r_alt, Nat.sub_diag by lia.
    rewrite <-app_assoc. cbn [app insert list_insert]. do 3 f_equal. rewrite length_app. simpl. lia.
  - rewrite drop_ge by lia. by rewrite app_nil_r.
Qed.

(** in an ASCII string every byte is a character *)
Lemma ascii_app s t : ascii (s ++ t) = ascii s && ascii t.
Proof. apply forallb_app. Qed.

Lemma ascii_chars cs : Forall utf8_ok cs -> ascii (mjoin cs) = true -> cs = (fun b => [b]) <$> mjoin cs.
Proof.
  induction 1 as [|c cs Hc Hcs IH]; [done|]. rewrite mjoin_cons, ascii_app. intros [Ha1 Ha2]%andb_true_iff.
  destruct c as [|b t]; [done|]. destruct Hc as (Hb & Hn & _). cbn [ascii forallb] in Ha1. apply andb_true_iff in Ha1 as [Ha1 _].
  pose proof (byte_cases (fun b => implb (b <? 128) (utf8_len b =? 1)%nat) eq_refl b (lead_byte b Hb)) as H1. cbv beta in H1.
  rewrite Ha1 in H1. apply Nat.eqb_eq in H1. destruct t; [|simpl in Hn; lia]. simpl. f_equal. by apply IH.
Qed.

Lemma join_singletons (s : list Z) : mjoin ((fun b => [b]) <$> s) = s.
Proof. induction s as [|b s IH]; [done|]. rewrite fmap_cons, mjoin_cons, IH. done. Qed.

Lemma substr_ref_map {A B} (f : A -> B) off len (l : list A) : substr_ref off len (f <$> l) = f <$> substr_ref off len l.
Proof.
  assert (from_offset off (f <$> l) = f <$> from_offset off l) as E.
  { unfold from_offset. rewrite length_fmap. destruct (0 <? off); [by rewrite fmap_drop|]. destruct (_ <=? _); [by rewrite fmap_drop|done]. }
  unfold substr_ref. rewrite E. destruct len; [by rewrite fmap_take|done].
Qed.

Lemma row_substr_ascii off len s : utf8_valid s -> ascii s = true -> row_substr off len s = substr_ref off len s.
Proof.
  intros (cs & -> & Hcs) Ha. rewrite row_substr_chars by done. rewrite (ascii_chars cs Hcs Ha) at 1. by rewrite substr_ref_map, join_singletons.
Qed.

(** ** [substr] *)

Lemma column_ascii ss : ascii (mjoin ss) = true -> Forall (fun s => ascii s = true) ss.
Proof. induction ss as [|s ss IH]; [constructor|]. rewrite mjoin_cons, ascii_app. intros [H1 H2]%andb_true_iff. constructor; auto. Qed.

Lemma utf8_bytes s : utf8_valid s -> bytes_ok s.
Proof.
  intros (cs & -> & Hcs). induction Hcs as [|c cs Hc Hcs IH]; [constructor|]. rewrite mjoin_cons. apply Forall_app. split; [|done].
  destruct c as [|b t]; [done|]. destruct Hc as (Hb & _ & Ht). constructor; [by apply lead_byte|]. apply Forall_forall. intros x Hx.
  rewrite forallb_forall in Ht. specialize (Ht x (proj1 (list_elem_of_In _ _) Hx)). unfold continuation, inu in *.
  rewrite andb_true_iff, Z.leb_le, Z.ltb_lt in Ht. lia.
Qed.

Lemma join_bytes ss : Forall utf8_valid ss -> bytes_ok (mjoin ss).
Proof. induction 1 as [|s ss Hs Hss IH]; [constructor|]. rewrite mjoin_cons. apply Forall_app. split; [by apply utf8_bytes|done]. Qed.

Section column.
Context (src : BinaryColumn) (ss : list (list Z)) (Hc : col_rep src ss) (Hv : Forall utf8_valid ss).
Context (off len : Z) (Hoff : 0 < off) (Hlen : 0 <= len) (Hsum : off + len < 2 ^ 31).
Context (Hsz : Forall (fun s : list Z => Z.of_nat (length s) + len < 2 ^ 31) ss).

Lemma left_rows use_length t :
  utf8_substr_from_left use_length t src BinaryColumn_new (off - 1) len = Ok (column_of (row_substr off (len_arg use_length len) <$> ss)).
Proof.
  apply (rows_map src ss _ (left_row use_length t (off - 1) len) Hc). eapply Forall_impl; [exact Hv|].
  intros s (cs & -> & Hcs). apply left_row_ok; [done|lia|lia].
Qed.

Lemma substr_utf8_spec use_length t :
  substr_utf8 use_length t src BinaryColumn_new off len = Ok (column_of (row_substr off (len_arg use_length len) <$> ss)) /\
  substr_utf8 use_length t src BinaryColumn_new (- off) len = Ok (column_of (row_substr (- off) (len_arg use_length len) <$> ss)).
Proof.
  unfold substr_utf8. split.
  - destruct (Z.eqb_spec off 0); [lia|]. destruct (Z.ltb_spec 0 off); [|lia]. apply left_rows.
  - destruct (Z.eqb_spec (- off) 0); [lia|]. destruct (Z.ltb_spec 0 (- off)); [lia|]. rewrite Z.opp_involutive, checked_Ok by (unfold ins; lia).
    cbn [mbind res_bind]. apply right_rows; [done|done| |lia|lia]. eapply Forall_impl; [exact Hsz|]. simpl. lia.
Qed.

Lemma ascii_rows (Ha : ascii (bc_bytes src) = true) :
  ascii_substr false src BinaryColumn_new (off - 1) len = Ok (column_of (row_substr off (Some len) <$> ss)) /\
  ascii_substr true src BinaryColumn_new (- off) len = Ok (column_of (row_substr (- off) (Some len) <$> ss)) /\
  forall (neg : bool) (offs0 : list Z), length offs0 = length ss -> Z.of_nat (length (mjoin ss)) < 2 ^ 31 ->
    let o := if neg then - off else off in
    ascii_substr_by_ref neg src [] (0 :: offs0) (if neg then - off else off - 1) len =
      Ok (mjoin (row_substr o (Some len) <$> ss), offsets_from 0 (row_substr o (Some len) <$> ss)).
Proof.
  rewrite (cr_bytes _ _ Hc) in Ha. pose proof (column_ascii ss Ha) as Has.
  assert (forall o s, s ∈ ss -> row_substr o (Some len) s = substr_ref o (Some len) s /\ (length (row_substr o (Some len) s) <= length s)%nat) as Hrow.
  { intros o s Hs. rewrite Forall_forall in Hv, Has. split; [by apply row_substr_ascii; auto|].
    destruct (Hv s Hs) as (cs & -> & Hcs). by apply row_substr_length. }
  split_and!.
  - apply (rows_map src ss _ (ascii_row false (off - 1) len) Hc). rewrite Forall_forall in Hsz |- *. intros s Hs.
    destruct (Hrow off s Hs) as [E L]. split; [done|]. intros dst. rewrite E. specialize (Hsz s Hs). apply ascii_row_pos; lia.
  - apply (rows_map src ss _ (ascii_row true (- off) len) Hc). rewrite Forall_forall in Hsz |- *. intros s Hs.
    destruct (Hrow (- off) s Hs) as [E L]. split; [done|]. intros dst. rewrite E. specialize (Hsz s Hs). apply ascii_row_neg; lia.
  - intros neg offs0 Hl Hs o. apply by_ref_rows; [done|done| |done]. rewrite Forall_forall in Hsz |- *. intros s Hin. specialize (Hsz s Hin).
    destruct (Hrow o s Hin) as [E L]. split; [|done]. apply ascii_part_of. intros dst. rewrite E. unfold o.
    destruct neg; [apply ascii_row_neg|apply ascii_row_pos]; lia.
Qed.

Lemma validate_column n w : Z.of_nat n = 2 ^ w -> 0 <= w -> validate_ascii_fast n (bc_bytes src) = Ok (ascii (bc_bytes src)).
Proof. intros H1 H2. apply (validate_ascii_spec n w); [done|done|]. rewrite (cr_bytes _ _ Hc). by apply join_bytes. Qed.

(** the length an instance of [substr] uses: the ASCII shortcut uses [len]
    also in the instance that should ignore it *)
Definition substr_length (check_ascii use_length : bool) (bytes : list Z) (len : Z) : option Z :=
  if check_ascii && ascii bytes then Some len else len_arg use_length len.

Lemma substr_spec c u t o : o = off \/ o = - off ->
  substr c u t src BinaryColumn_new o len = Ok (column_of (row_substr o (substr_length c u (bc_bytes src) len) <$> ss)).
Proof.
  intros Ho. destruct (substr_utf8_spec u t) as [U1 U2]. unfold substr, substr_length.
  destruct (Z.eqb_spec o 0); [lia|]. destruct c; [|by destruct Ho as [-> | ->]].
  rewrite (validate_column 32 5) by done. cbn [mbind res_bind andb].
  destruct (ascii (bc_bytes src)) eqn:Ha; [|by destruct Ho as [-> | ->]].
  destruct (ascii_rows Ha) as (A1 & A2 & _). destruct (Z.ltb_spec 0 o); destruct Ho as [-> | ->]; done || lia.
Qed.
End column.


Definition demo_column : list (list Z) := [[97; 98; 99]; [0xe4; 0xbd; 0xa0; 98]; []].

Lemma demo_column_rep : col_rep (column_of demo_column) demo_column /\ Forall utf8_valid demo_column.
Proof.
  split; [split; [reflexivity|reflexivity|simpl; lia|simpl; lia]|].
  constructor; [exists [[97]; [98]; [99]]; split; [reflexivity|repeat constructor]|].
  constructor; [exists [[0xe4; 0xbd; 0xa0]; [98]]; split; [reflexivity|repeat constructor]|].
  constructor; [exists []; split; [reflexivity|constructor]|constructor].
Qed.


(** ** The versions with an index *)

Lemma index_spec cs : Forall utf8_ok cs -> get_utf8_index (mjoin cs) = Ok (positions 0 cs) /\ get_utf8_index2 (mjoin cs) = Ok (positions 0 cs).
Proof.
  intros Hcs. split.
  - exact (index_loop_spec _ cs sizes_table Hcs (S (length (mjoin cs))) [] [] (le_n _)).
  - exact (index_loop_spec _ cs (sizes_char false) Hcs (S (length (mjoin cs))) [] [] (le_n _)).
Qed.

Lemma index_row_at neg get_index offset len cs (pos : nat) : Forall utf8_ok cs -> get_index (mjoin cs) = Ok (positions 0 cs) ->
  (0 < length (mjoin cs))%nat -> 0 <= len -> Z.of_nat (length (mjoin cs)) + len < 2 ^ 31 -> Z.of_nat pos < 2 ^ 31 ->
  (if neg && (offset <? 0) then i32 (offset + Z.of_nat (length cs)) else offset) = Z.of_nat pos ->
  forall dst, index_row neg get_index offset len (mjoin cs) dst = bc_append dst (mjoin (take (Z.to_nat len) (drop pos cs))).
Proof.
  intros Hcs Hidx Hne Hlen Hs Hpos Ep dst. unfold index_row. cbv beta zeta. destruct (Z.eqb_spec (Z.of_nat (length (mjoin cs))) 0); [lia|].
  rewrite Hidx. cbn [mbind res_bind]. rewrite positions_length, Ep. pose proof (join_length_chars cs Hcs) as Hcl.
  rewrite (u64_id (Z.of_nat pos)) by lia. destruct (Z.ltb_spec (Z.of_nat pos) 0); [lia|]. rewrite orb_false_r.
  destruct (Z.leb_spec (Z.of_nat (length cs)) (Z.of_nat pos)); [rewrite drop_ge by lia; by rewrite take_nil|].
  rewrite (rd_nat _ _ _ (positions_lookup 0 cs pos ltac:(lia))). cbn [mbind res_bind]. rewrite add_int_Ok by lia. cbn [mbind res_bind].
  rewrite u64_id, !Z.add_0_l by lia. set (a := take pos cs). set (b := drop pos cs).
  assert (cs = a ++ b) as E by (unfold a, b; by rewrite take_drop).
  assert (length a = pos) as La by (unfold a; rewrite length_take; lia).
  assert (length (mjoin cs) = length (mjoin a) + length (mjoin b))%nat as Ls by (rewrite E, join_app, length_app; done).
  destruct (Z.ltb_spec (Z.of_nat pos + len) (Z.of_nat (length cs))) as [Hlt|Hge].
  - replace (Z.of_nat pos + len) with (Z.of_nat (pos + Z.to_nat len)) by lia.
    rewrite (rd_nat _ _ _ (positions_lookup 0 cs (pos + Z.to_nat len) ltac:(lia))). cbn [mbind res_bind].
    rewrite <-take_take_drop. fold a b. rewrite Z.add_0_l.
    assert (length (mjoin (a ++ take (Z.to_nat len) b)) <= length (mjoin cs))%nat.
    { rewrite join_app, length_app, Ls. rewrite <-(take_drop (Z.to_nat len) b) at 2. rewrite (join_app (take _ _)), length_app. lia. }
    rewrite i32_id by lia. replace (_ + (_ - _)) with (Z.of_nat (length (mjoin (a ++ take (Z.to_nat len) b)))) by lia.
    rewrite E at 1. rewrite <-(take_drop (Z.to_nat len) b) at 1. apply append_chars.
  - cbn [mbind res_bind]. rewrite i32_id by lia. replace (_ + (_ - _)) with (Z.of_nat (length (mjoin (a ++ b)))) by (rewrite <-E; lia).
    rewrite (take_ge b) by (unfold b; rewrite length_drop; lia). rewrite E at 1.
    pose proof (append_chars dst a b []) as H1. by rewrite app_nil_r in H1.
Qed.

Section index.
Context (src : BinaryColumn) (ss : list (list Z)) (Hc : col_rep src ss) (Hv : Forall utf8_valid ss).
Context (off len : Z) (Hoff : 0 < off) (Hlen : 0 <= len) (Hsum : off + len < 2 ^ 31).
Context (Hsz : Forall (fun s : list Z => Z.of_nat (length s) + len < 2 ^ 31) ss).
Context (get_index : list Z -> res (list Z)) (Hidx : forall cs, Forall utf8_ok cs -> get_index (mjoin cs) = Ok (positions 0 cs)).

Lemma index_rows neg o offset : (o = off /\ offset = off - 1) \/ (neg = true /\ o = - off /\ offset = - off) ->
  for_rows (Z.to_nat (bc_size src)) 0 (fun i dst => value ← get_slice src i; index_row neg get_index offset len value dst) BinaryColumn_new =
    Ok (column_of (row_substr o (Some len) <$> ss)).
Proof.
  intros Ho. apply (rows_map src ss _ (index_row neg get_index offset len) Hc). rewrite Forall_forall in Hv, Hsz |- *. intros s Hs.
  destruct (Hv s Hs) as (cs & -> & Hcs). specialize (Hsz _ Hs). cbv beta in Hsz. split; [by apply row_substr_length|]. intros dst. rewrite row_substr_chars by done.
  destruct (decide (length (mjoin cs) = 0)%nat) as [H0|H0].
  { apply join_nil_chars in H0 as ->; [|done]. assert (substr_ref o (Some len) (@nil (list Z)) = []) as ->; [|done]. unfold substr_ref, from_offset.
    destruct (0 <? o); [|destruct (Z.leb _ _)]; by rewrite ?drop_nil, ?take_nil. }
  pose proof (join_length_chars cs Hcs). unfold substr_ref, from_offset. destruct Ho as [[-> ->]|(-> & -> & ->)].
  - destruct (Z.ltb_spec 0 off); [|lia]. apply index_row_at; [done|by apply Hidx|lia|lia|lia|lia|]. destruct (Z.ltb_spec (off - 1) 0); [lia|]. rewrite andb_false_r. lia.
  - destruct (Z.ltb_spec 0 (- off)); [lia|]. rewrite Z.opp_involutive. destruct (Z.leb_spec off (Z.of_nat (length cs))) as [Hin|Hout].
    + apply index_row_at; [done|by apply Hidx|lia|lia|lia|lia|]. destruct (Z.ltb_spec (- off) 0); [|lia]. simpl. rewrite i32_id by lia. lia.
    + rewrite take_nil. unfold index_row. cbv beta zeta. destruct (Z.eqb_spec (Z.of_nat (length (mjoin cs))) 0); [done|].
      rewrite Hidx by done. cbn [mbind res_bind]. rewrite positions_length. destruct (Z.ltb_spec (- off) 0); [|lia]. cbn [andb].
      rewrite i32_id by lia. destruct (Z.ltb_spec (- off + Z.of_nat (length cs)) 0); [|lia]. by rewrite orb_true_r.
Qed.
End index.

(** The two versions of [substr] with an index of the characters give the
    rows of the reference for columns that are not ASCII, and [substr_old] for
    positive offsets into ASCII columns. In an ASCII column [substr_new] takes
    a positive offset for a negative one and reads outside the first row that
    is not empty, and [substr_old] finds nothing for a negative offset. *)
Theorem substr_index_versions src ss off len : col_rep src ss -> Forall utf8_valid ss ->
  0 < off -> 0 <= len -> off + len < 2 ^ 31 -> Forall (fun s : list Z => Z.of_nat (length s) + len + off < 2 ^ 31) ss ->
  (ascii (bc_bytes src) = false -> forall o, o = off \/ o = - off ->
    substr_new true src BinaryColumn_new o len = Ok (column_of (row_substr o (Some len) <$> ss)) /\
    substr_old true src BinaryColumn_new o len = Ok (column_of (row_substr o (Some len) <$> ss))) /\
  (ascii (bc_bytes src) = true -> forall neg,
    substr_old neg src BinaryColumn_new off len = Ok (column_of (row_substr off (Some len) <$> ss)) /\
    substr_old neg src BinaryColumn_new (- off) len = Ok (column_of ((fun _ => []) <$> ss)) /\
    (forall c s ss', ss = (c :: s) :: ss' -> substr_new neg src BinaryColumn_new off len = Err EBounds)).
Proof.
  intros Hc Hv Hoff Hlen Hsum Hsz.
  assert (Forall (fun s : list Z => Z.of_nat (length s) + len < 2 ^ 31) ss) as Hsz' by (eapply Forall_impl; [exact Hsz|]; simpl; lia).
  unfold substr_new, substr_old. rewrite (validate_column src ss Hc Hv 32 5) by done. cbn [mbind res_bind]. split.
  - intros -> o Ho. assert (o = off /\ (if 0 <? o then o - 1 else o) = off - 1 \/ true = true /\ o = - off /\ (if 0 <? o then o - 1 else o) = - off) as Ho'.
    { destruct Ho as [-> | ->]; [left|right]; [destruct (Z.ltb_spec 0 off)|destruct (Z.ltb_spec 0 (- off))]; try lia; done. }
    split; (eapply index_rows; [exact Hc|exact Hv|exact Hoff|exact Hlen|exact Hsum|exact Hsz'| |exact Ho']); intros cs Hcs; by apply index_spec.
  - intros Ha neg. rewrite Ha. rewrite (cr_bytes _ _ Hc) in Ha. pose proof (column_ascii ss Ha) as Has. split_and!.
    + apply (rows_map src ss _ (fun value dst => _) Hc). rewrite Forall_forall in Hsz, Hv, Has |- *. intros s Hs. specialize (Hsz s Hs). cbv beta in Hsz.
      split; [destruct (Hv s Hs) as (cs & -> & Hcs); by apply row_substr_length|]. intros dst. rewrite row_substr_ascii by auto.
      unfold substr_ref, from_offset. destruct (Z.ltb_spec 0 off); [|lia]. rewrite (u64_id off) by lia.
      destruct (Z.eqb_spec (Z.of_nat (length s)) 0) as [H0|H0]; cbn [orb].
      { assert (s = []) as -> by (apply nil_length_inv; lia). by rewrite drop_nil, take_nil. }
      destruct (Z.ltb_spec (Z.of_nat (length s)) off).
      { rewrite drop_ge by lia. by rewrite take_nil. }
      rewrite !add_int_Ok by lia. cbn [mbind res_bind]. rewrite u64_id by lia.
      destruct (Z.ltb_spec (Z.of_nat (length s)) (off + len)).
      * rewrite i32_id by lia. rewrite append_sub by lia. f_equal. replace (off + -1) with (off - 1) by lia. rewrite !take_ge; [done|rewrite length_drop; lia..].
      * rewrite append_sub by lia. replace (off + -1) with (off - 1) by lia. do 2 f_equal. lia.
    + apply (rows_map src ss _ (fun value dst => _) Hc). rewrite Forall_forall in Hsz |- *. intros s Hs. specialize (Hsz s Hs). cbv beta in Hsz.
      split; [simpl; lia|]. intros dst. assert (u64 (- off) = 2 ^ 64 - off) as ->.
      { unfold wrapu. replace (- off) with (2 ^ 64 - off + (-1) * 2 ^ 64) by lia. rewrite Z.mod_add, Z.mod_small by lia. done. }
      destruct (Z.ltb_spec (Z.of_nat (length s)) (2 ^ 64 - off)); [|lia]. by rewrite orb_true_r.
    + intros c s ss' ->. unfold ascii_substr. rewrite (col_size _ _ Hc), Nat2Z.id. cbn [length for_rows].
      pose proof (get_slice_spec src _ 0 (c :: s) Hc eq_refl) as Hg. change (Z.of_nat 0) with 0 in Hg. rewrite Hg. cbn [mbind res_bind].
      apply Forall_inv in Hsz. cbn [length] in Hsz |- *. destruct (Z.eqb_spec (Z.of_nat (S (length s))) 0); [lia|].
      unfold ascii_range. cbv beta iota zeta. rewrite !i32_id by lia. destruct (Z.ltb_spec (off + Z.of_nat (S (length s))) 0); [lia|].
      rewrite add_int_Ok by lia. cbn [mbind res_bind]. rewrite u64_id by lia.
      destruct (Z.ltb_spec (Z.of_nat (S (length s))) (off + Z.of_nat (S (length s)) + len)); [|lia]. rewrite orb_true_r.
      unfold bc_append_range. destruct (Z.leb_spec (off + Z.of_nat (S (length s))) (Z.of_nat (S (length s)))); [lia|done].
Qed.

Lemma substr_index_versions_witness :
  substr_old true (column_of demo_column) BinaryColumn_new (-1) 5 = Ok (column_of [[99]; [98]; []]) /\
  substr_new false (column_of [[97; 98]]) BinaryColumn_new 1 1 = Err EBounds.
Proof.
  split.
  - destruct (substr_index_versions (column_of demo_column) demo_column 1 5) as [H _].
    + apply demo_column_rep.
    + apply demo_column_rep.
    + lia.
    + lia.
    + lia.
    + repeat constructor; simpl; lia.
    + apply (H eq_refl (-1)). right. reflexivity.
  - destruct (substr_index_versions (column_of [[97; 98]]) [[97; 98]] 1 1) as [_ H].
    + split; [reflexivity|reflexivity|simpl; lia|simpl; lia].
    + constructor; [exists [[97]; [98]]; split; [reflexivity|repeat constructor]|constructor].
    + lia.
    + lia.
    + lia.
    + repeat constructor; simpl; lia.
    + by eapply (H eq_refl false).
Defined.
