(* ===== verification/Int128.v ===== *)
(** * 128-bit integers: multiplication and division of src/include/decimal/decimal.hh

    The routines of [DorisDecimalOp] below the decimal operations: the two
    halves of an [__int128], the inline assembly for 64-bit words, [multi3]
    with its overflow flag, and the division [divmodti3] built on
    [udivmodti4] and on a division of 128 by 64 bits, which is an instruction
    on x86-64 and [udiv128by64to64default] elsewhere.

    A 128-bit word is a [Z]; [int128_wrapper] holds its 128 bits, unsigned.
    Overflow of signed 128-bit arithmetic is undefined in C++ and wraps when
    compiled with -fwrapv: [SignedArith] abstracts from the choice. *)

From S2P Require Import Prelude.
From S2P Require Import Simd.

Abbreviation u128 := (wrapu 128).
Abbreviation i128 := (wraps 128).

(** what an operation on [__int128] gives when its mathematical result is [z] *)
Class SignedArith := {
  sarith : Z -> res Z;
  sarith_id z : ins 128 z -> sarith z = Ok z
}.

#[global] Instance sarith_undefined : SignedArith :=
  {| sarith := checked 128; sarith_id := checked_Ok 128 |}.

Definition sarith_wrap : SignedArith :=
  {| sarith := fun z => Ok (i128 z); sarith_id z Hz := f_equal Ok (wraps_id 128 eq_refl z Hz) |}.

(** ** The halves *)

Definition int128_wrapper := Z.
Definition u_low (w : int128_wrapper) : Z := w mod 2 ^ 64.
Definition u_high (w : int128_wrapper) : Z := w / 2 ^ 64.
Definition set_u_high (w : int128_wrapper) (h : Z) : Z := w mod 2 ^ 64 + 2 ^ 64 * h.
Definition of_halves (high low : Z) : Z := 2 ^ 64 * high + low.

(** ** Inline assembly *)

(** [add], then the carry flag or the sign flag *)
Definition asm_add (x y : Z) : Z * bool :=
  let res := u64 (x + y) in (res, (2 ^ 64 <=? x + y) || Z.testbit res 63).

(** [add], then the overflow flag *)
Definition asm_add_signed (x y : Z) : Z * bool :=
  (i64 (x + y), negb (bool_decide (ins 64 (x + y)))).

(** [mul]: all 128 bits; the overflow flag is set when the high half is used *)
Definition asm_mul (x y : Z) : int128_wrapper * bool := (x * y, negb (u_high (x * y) =? 0)).

(** [imul] with two operands: the low half; the high half of the result is kept *)
Definition asm_mul_signed (x y : Z) (old : int128_wrapper) : int128_wrapper * bool :=
  (of_halves (u_high old) (u64 (x * y)), negb (bool_decide (ins 64 (x * y)))).

(** [(x ^ s) - s]: negation when [s] is -1 *)
Definition negate_if `{SignedArith} (x s : Z) : res Z := sarith (Z.lxor x s - s).

(** ** Multiplication *)

Definition multi3_wrapper (x y : int128_wrapper) : int128_wrapper * bool :=
  let no_zero := negb (Z.lor (u_low x) (u_high x) =? 0) || negb (Z.lor (u_low y) (u_high y) =? 0) in
  if negb no_zero then (0, false)
  else
    let overflow := negb (u_high x =? 0) && negb (u_high y =? 0) in
    let '(res, _) := asm_mul (u_low x) (u_low y) in
    let '(t0, o0) := asm_mul (u_low x) (u_high y) in
    let '(t1, o1) := asm_mul (u_low y) (u_high x) in
    let '(h, o2) := asm_add (u_high res) (u_low t0) in
    let res := set_u_high res h in
    let '(h, o3) := asm_add (u_high res) (u_low t1) in
    let res := set_u_high res h in
    (res, overflow || o0 || o1 || o2 || o3).

Definition multi3 `{SignedArith} (x y : Z) : res (Z * bool) :=
  let sx := Z.shiftr x 127 in
  let sy := Z.shiftr y 127 in
  wx ← negate_if x sx;
  wy ← negate_if y sy;
  let sx := Z.lxor sx sy in
  let '(wres, overflow) := multi3_wrapper (u128 wx) (u128 wy) in
  res ← negate_if (i128 wres) sx;
  Ok (res, overflow).

(** ** Division of 128 by 64 bits *)

(** one of the two loops that correct a digit of the quotient *)
Fixpoint correct_digit (fuel : nat) (q rhat vn1 vn0 un : Z) : res Z :=
  match fuel with
  | O => Err EFuel
  | S fuel =>
      if (2 ^ 32 <=? q) || (u64 (2 ^ 32 * rhat + un) <? u64 (q * vn0)) then
        let q := u64 (q - 1) in
        let rhat := u64 (rhat + vn1) in
        if 2 ^ 32 <=? rhat then Ok q else correct_digit fuel q rhat vn1 vn0 un
      else Ok q
  end.

(** "No more than 2 iterations" *)
Definition digit_fuel : nat := 2.

Definition udiv128by64to64default (u1 u0 v : Z) : res (Z * Z) :=
  s ← clz 64 v;
  let '(v, un64, un10) :=
    if 0 <? s then (u64 (Z.shiftl v s),
                    Z.lor (u64 (Z.shiftl u1 s)) (Z.shiftr u0 (64 - s)), u64 (Z.shiftl u0 s))
    else (v, u1, u0) in
  let vn1 := Z.shiftr v 32 in
  let vn0 := Z.land v 0xFFFFFFFF in
  let un1 := Z.shiftr un10 32 in
  let un0 := Z.land un10 0xFFFFFFFF in
  let q1 := un64 / vn1 in
  q1 ← correct_digit digit_fuel q1 (u64 (un64 - q1 * vn1)) vn1 vn0 un1;
  let un21 := u64 (un64 * 2 ^ 32 + un1 - q1 * v) in
  let q0 := un21 / vn1 in
  q0 ← correct_digit digit_fuel q0 (u64 (un21 - q0 * vn1)) vn1 vn0 un0;
  Ok (u64 (q1 * 2 ^ 32 + q0), Z.shiftr (u64 (un21 * 2 ^ 32 + un0 - q0 * v)) s).

(** the instruction [divq], which traps when the quotient has no 64 bits *)
Definition udiv128by64to64 (u1 u0 v : Z) : res (Z * Z) :=
  if u1 <? v then Ok (of_halves u1 u0 / v, of_halves u1 u0 mod v) else Err EDivZero.

(** what [udivmodti4] relies on *)
Class Div128by64 (udiv : Z -> Z -> Z -> res (Z * Z)) :=
  div128by64 u1 u0 v : 0 <= u1 < v -> inu 64 u0 -> inu 64 v ->
    udiv u1 u0 v = Ok (of_halves u1 u0 / v, of_halves u1 u0 mod v).

(** ** Division of 128 by 128 bits *)

(** the loop that subtracts the shifted divisor, without a branch *)
Fixpoint shift_subtract (n : nat) (dividend divisor quotient_low : Z) : Z * Z :=
  match n with
  | O => (quotient_low, dividend)
  | S n =>
      let q := u64 (Z.shiftl quotient_low 1) in
      let s := Z.shiftr (i128 (divisor - dividend - 1)) 127 in
      shift_subtract n (u128 (dividend - Z.land divisor (u128 s))) (Z.shiftr divisor 1)
        (Z.lor q (Z.land s 1))
  end.

Definition udivmodti4 (udiv : Z -> Z -> Z -> res (Z * Z)) (a b : Z) : res (Z * Z) :=
  if a <? b then Ok (0, a)
  else if u_high b =? 0 then
    if u_high a <? u_low b then
      '(q, r) ← udiv (u_high a) (u_low a) (u_low b); Ok (of_halves 0 q, of_halves 0 r)
    else if u_low b =? 0 then Err EDivZero
    else
      let qh := u_high a / u_low b in
      '(q, r) ← udiv (u_high a mod u_low b) (u_low a) (u_low b); Ok (of_halves qh q, of_halves 0 r)
  else
    zb ← clz 64 (u_high b);
    za ← clz 64 (u_high a);
    let shift := zb - za in
    let '(q, r) := shift_subtract (Z.to_nat (shift + 1)) a (u128 (Z.shiftl b shift)) 0 in
    Ok (of_halves 0 q, r).

Definition divmodti3 `{SignedArith} (udiv : Z -> Z -> Z -> res (Z * Z)) (x y : Z) : res (Z * Z) :=
  let s_x := Z.shiftr x 127 in
  let s_y := Z.shiftr y 127 in
  x ← negate_if x s_x;
  y ← negate_if y s_y;
  '(q, r) ← udivmodti4 udiv (u128 x) (u128 y);
  let s_y := Z.lxor s_y s_x in
  q ← negate_if (i128 q) s_y;
  Ok (q, u128 (Z.lxor r (u128 s_x) - u128 s_x)).

(** ** The halves of a word *)

Lemma pow2_64 : 2 ^ 64 = 18446744073709551616. Proof. done. Qed.
Lemma pow2_63 : 2 ^ 63 = 9223372036854775808. Proof. done. Qed.
Lemma pow2_32 : 2 ^ 32 = 4294967296. Proof. done. Qed.
Lemma pow2_126 : 2 ^ 126 = 85070591730234615865843651857942052864. Proof. done. Qed.
Lemma pow2_127 : 2 ^ 127 = 9223372036854775808 * 18446744073709551616. Proof. done. Qed.
Lemma pow2_128 : 2 ^ 128 = 18446744073709551616 * 18446744073709551616. Proof. done. Qed.

(** linear arithmetic with the powers of 2 as numbers *)
Ltac pow_lia :=
  unfold inu, ins in *; change (128 - 1) with 127 in *; change (64 - 1) with 63 in *;
  rewrite ?pow2_128, ?pow2_127, ?pow2_126, ?pow2_64, ?pow2_63, ?pow2_32 in *; lia.

Lemma halves w : w = 2 ^ 64 * u_high w + u_low w.
Proof. apply Z.div_mod. lia. Qed.

Lemma halves_range w : inu 128 w -> inu 64 (u_high w) /\ inu 64 (u_low w).
Proof.
  intros Hw. pose proof (halves w). pose proof (Z.mod_pos_bound w (2 ^ 64) eq_refl).
  unfold u_low in *. split; pow_lia.
Qed.

Lemma halves_unique h l : inu 64 l -> u_high (2 ^ 64 * h + l) = h /\ u_low (2 ^ 64 * h + l) = l.
Proof.
  intros Hl. unfold u_high, u_low. rewrite Z.add_comm, Z.mul_comm. split.
  - rewrite Z.div_add, Z.div_small by (done || lia). done.
  - rewrite Z.mod_add, Z.mod_small by (done || lia). done.
Qed.

Lemma testbit_63 w : inu 64 w -> Z.testbit w 63 = (2 ^ 63 <=? w).
Proof.
  intros Hw. rewrite Z.testbit_eqb by lia. destruct (Z.leb_spec (2 ^ 63) w).
  - replace (w / 2 ^ 63) with 1; [done|]. apply Z.div_unique with (w - 2 ^ 63); pow_lia.
  - rewrite Z.div_small; [done|]. pow_lia.
Qed.

(** ** Multiplication *)

Lemma asm_add_spec x y : inu 64 x -> inu 64 y ->
  asm_add x y = (u64 (x + y), 2 ^ 63 <=? x + y).
Proof.
  intros Hx Hy. unfold asm_add. f_equal. rewrite testbit_63 by apply wrapu_range, eq_refl.
  destruct (Z.leb_spec (2 ^ 64) (x + y)).
  - destruct (Z.leb_spec (2 ^ 63) (x + y)); [done|pow_lia].
  - rewrite wrapu_id by pow_lia. done.
Qed.

Lemma asm_mul_range x y : inu 64 x -> inu 64 y -> inu 128 (x * y).
Proof. unfold inu. rewrite pow2_128, pow2_64. nia. Qed.

(** the sum of the partial products, in words *)
Lemma words_sum d a c p : 0 <= p < 2 ^ 128 ->
  set_u_high (set_u_high p (u64 (u_high p + u_low a))) (u64 (u64 (u_high p + u_low a) + u_low c)) =
  u128 (2 ^ 128 * d + 2 ^ 64 * (a + c) + p).
Proof.
  intros Hp. unfold set_u_high, u_high, u_low, wrapu. rewrite pow2_128, pow2_64 in *.
  Z.to_euclidean_division_equations. lia.
Qed.

Lemma words_overflow d a c p : 0 <= d -> 0 <= a -> 0 <= c -> 0 <= p < 2 ^ 128 ->
  negb (d =? 0) || negb (u_high a =? 0) || negb (u_high c =? 0) ||
    (2 ^ 63 <=? u_high p + u_low a) || (2 ^ 63 <=? u64 (u_high p + u_low a) + u_low c) =
  (2 ^ 127 <=? 2 ^ 128 * d + 2 ^ 64 * (a + c) + p).
Proof.
  intros Hd Ha Hc Hp. unfold u_high, u_low, wrapu. rewrite pow2_128, pow2_127, pow2_64, pow2_63 in *.
  destruct (Z.eqb_spec d 0), (Z.eqb_spec (a / 18446744073709551616) 0),
    (Z.eqb_spec (c / 18446744073709551616) 0); simpl;
    repeat match goal with |- context [?x <=? ?y] => destruct (Z.leb_spec x y) end; simpl; try done; exfalso;
    Z.to_euclidean_division_equations; lia.
Qed.

Lemma multi3_wrapper_spec x y : inu 128 x -> inu 128 y ->
  multi3_wrapper x y = (u128 (x * y), 2 ^ 127 <=? x * y).
Proof.
  intros Hx Hy. unfold multi3_wrapper.
  destruct (halves_range x Hx) as [Hxh Hxl], (halves_range y Hy) as [Hyh Hyl].
  pose proof (halves x) as Ex. pose proof (halves y) as Ey.
  set (xh := u_high x) in *. set (xl := u_low x) in *. set (yh := u_high y) in *. set (yl := u_low y) in *.
  clearbody xh xl yh yl.
  pose proof (asm_mul_range _ _ Hxl Hyl) as Hp.
  assert (x * y = 2 ^ 128 * (xh * yh) + 2 ^ 64 * (xl * yh + yl * xh) + xl * yl) as E
    by (rewrite Ex, Ey, pow2_128, pow2_64; ring).
  destruct (negb _) eqn:Ez.
  - apply negb_true_iff, orb_false_iff in Ez as [E1 E2].
    apply negb_false_iff, Z.eqb_eq, Z.lor_eq_0_iff in E1, E2. destruct E1 as [-> ->], E2 as [-> ->].
    rewrite Ex. done.
  - unfold asm_mul. rewrite asm_add_spec. 2: by apply halves_range. 2: by apply halves_range, asm_mul_range.
    assert (forall h, inu 64 h -> u_high (set_u_high (xl * yl) h) = h) as Eh.
    { intros h Hh. unfold set_u_high. rewrite Z.add_comm. apply halves_unique, Z.mod_pos_bound. done. }
    rewrite Eh by by apply wrapu_range. rewrite asm_add_spec. 2: by apply wrapu_range.
    2: by apply halves_range, asm_mul_range.
    rewrite E. f_equal; [by apply words_sum|]. 
    rewrite <-words_overflow; [|apply Z.mul_nonneg_nonneg; apply Hxh || apply Hyh|
      apply Z.mul_nonneg_nonneg; apply Hxl || apply Hyh|apply Z.mul_nonneg_nonneg; apply Hyl || apply Hxh|done].
    f_equal. f_equal. f_equal. f_equal. unfold inu in *.
    destruct (Z.eqb_spec xh 0), (Z.eqb_spec yh 0), (Z.eqb_spec (xh * yh) 0); simpl; nia || done.
Qed.

(** ** Signs *)

Definition sign_mask (neg : bool) : Z := if neg then -1 else 0.

Lemma shiftr_sign x : ins 128 x -> Z.shiftr x 127 = sign_mask (x <? 0).
Proof.
  intros Hx. rewrite Z.shiftr_div_pow2 by lia. destruct (Z.ltb_spec x 0); simpl.
  - symmetry. apply Z.div_unique with (x + 2 ^ 127); pow_lia.
  - apply Z.div_small. pow_lia.
Qed.

Lemma lxor_sign_mask a b : Z.lxor (sign_mask a) (sign_mask b) = sign_mask (xorb a b).
Proof. by destruct a, b. Qed.

Lemma negate_if_spec `{SignedArith} x neg :
  negate_if x (sign_mask neg) = sarith (if neg then - x else x).
Proof.
  unfold negate_if. destruct neg; simpl sign_mask.
  - rewrite Z.lxor_m1_r. f_equal. unfold Z.lnot. lia.
  - rewrite Z.lxor_0_r. f_equal. lia.
Qed.

(** the absolute value, taken as [negate_if x (x >> 127)] *)
Lemma negate_if_abs `{SignedArith} x : ins 128 x -> - 2 ^ 127 < x ->
  negate_if x (Z.shiftr x 127) = Ok (Z.abs x).
Proof.
  intros Hx Hm. rewrite shiftr_sign, negate_if_spec by done.
  replace (if x <? 0 then - x else x) with (Z.abs x) by (destruct (Z.ltb_spec x 0); lia).
  apply sarith_id. pow_lia.
Qed.

Lemma u128_id x : inu 128 x -> u128 x = x.
Proof. by apply wrapu_id. Qed.

Lemma i128_small x : 0 <= x < 2 ^ 127 -> i128 x = x.
Proof. intros. apply wraps_id; [done|]. pow_lia. Qed.

Lemma signed_product x y : (if xorb (x <? 0) (y <? 0) then - (Z.abs x * Z.abs y) else Z.abs x * Z.abs y) = x * y.
Proof. rewrite <-Z.abs_mul. destruct (Z.ltb_spec x 0), (Z.ltb_spec y 0); simpl; nia. Qed.

Lemma multi3_unfold `{SignedArith} x y : ins 128 x -> ins 128 y -> - 2 ^ 127 < x -> - 2 ^ 127 < y ->
  multi3 x y =
    (res ← sarith (if xorb (x <? 0) (y <? 0) then - i128 (Z.abs (x * y)) else i128 (Z.abs (x * y)));
     Ok (res, 2 ^ 127 <=? Z.abs (x * y))).
Proof.
  intros Hx Hy Hx' Hy'. unfold multi3. rewrite !negate_if_abs by done. cbn [mbind res_bind].
  rewrite !u128_id, multi3_wrapper_spec by pow_lia. cbn [mbind res_bind].
  rewrite !shiftr_sign, lxor_sign_mask, negate_if_spec, <-Z.abs_mul by done.
  replace (i128 (u128 (Z.abs (x * y)))) with (i128 (Z.abs (x * y))); [done|].
  unfold wraps, wrapu. by rewrite Zplus_mod_idemp_l.
Qed.

Lemma multi3_fits `{SignedArith} x y : ins 128 x -> ins 128 y -> - 2 ^ 127 < x -> - 2 ^ 127 < y ->
  Z.abs (x * y) < 2 ^ 127 -> multi3 x y = Ok (x * y, false).
Proof.
  intros Hx Hy Hx' Hy' Hp. rewrite multi3_unfold, i128_small by (done || lia).
  replace (if xorb (x <? 0) (y <? 0) then - Z.abs (x * y) else Z.abs (x * y)) with (x * y)
    by (rewrite Z.abs_mul; symmetry; apply signed_product).
  rewrite sarith_id by pow_lia.
  cbn [mbind res_bind]. destruct (Z.leb_spec (2 ^ 127) (Z.abs (x * y))); [lia|done].
Qed.

Lemma i128_opp z : i128 (- i128 z) = i128 (- z).
Proof.
  unfold wraps. change (128 - 1) with 127. rewrite pow2_128, pow2_127.
  Z.to_euclidean_division_equations. lia.
Qed.

Lemma i128_i128 z : i128 (i128 z) = i128 z.
Proof. apply wraps_id, wraps_range; done. Qed.

Lemma multi3_overflows x y : ins 128 x -> ins 128 y -> - 2 ^ 127 < x -> - 2 ^ 127 < y ->
  2 ^ 127 <= Z.abs (x * y) -> @multi3 sarith_wrap x y = Ok (i128 (x * y), true).
Proof.
  intros Hx Hy Hx' Hy' Hp. rewrite multi3_unfold by done. cbn [mbind res_bind sarith sarith_wrap].
  f_equal. f_equal; [|by apply Z.leb_le]. 
  pose proof (signed_product x y) as E. rewrite <-Z.abs_mul in E. rewrite <-E at 3.
  destruct (xorb _ _); [apply i128_opp|apply i128_i128].
Qed.

(** ** Division of 128 by 64 bits *)

(** a digit of the quotient is guessed from the high half of the divisor and
    corrected at most twice *)
Lemma correct_digit_spec fuel q rhat vn1 vn0 u un Q :
  let v := vn1 * 2 ^ 32 + vn0 in
  2 ^ 31 <= vn1 < 2 ^ 32 -> inu 32 vn0 -> inu 32 un -> 0 <= u < v ->
  0 <= Q -> Q * v <= u * 2 ^ 32 + un < (Q + 1) * v ->
  Q <= q <= 2 ^ 32 + 1 -> rhat = u - q * vn1 -> 0 <= rhat < 2 ^ 32 ->
  2 ^ 32 <= rhat + Z.of_nat fuel * vn1 ->
  correct_digit fuel q rhat vn1 vn0 un = Ok Q.
Proof.
  intros v Hv1 Hv0 Hun Hu HQ0 HQ. change (2 ^ 31) with 2147483648 in *. unfold inu in *. rewrite pow2_32 in *.
  assert (0 < v) as Hv by (unfold v; lia).
  assert (forall x N, x * v <= N -> N < (Q + 1) * v -> x <= Q) as Hle
    by (intros x N H1 H2; apply Z.lt_succ_r, (Z.mul_lt_mono_pos_r v); unfold Z.succ; lia).
  assert (forall x N, Q * v <= N -> N < x * v -> Q < x) as Hlt
    by (intros x N H1 H2; apply (Z.mul_lt_mono_pos_r v); lia).
  assert (Q < 4294967296) as HQb by (eapply Hlt; [apply HQ|]; lia).
  revert q rhat. induction fuel as [|fuel IH]; intros q rhat Hq Er Hr Hf; [lia|]. simpl correct_digit.
  assert (4294967296 * rhat + un - q * vn0 = u * 4294967296 + un - q * v) as E
    by (subst rhat v; rewrite pow2_32; ring).
  rewrite pow2_32, (wrapu_id 64 (4294967296 * rhat + un)) by (unfold inu; rewrite pow2_64; lia).
  set (body := if 4294967296 <=? u64 (rhat + vn1) then _ else _).
  assert (Q < q -> body = Ok Q) as Hbody; [|destruct (Z.leb_spec 4294967296 q) as [Hb|Hb]; simpl orb].
  - intros Hgt. unfold body.
    rewrite (wrapu_id 64 (q - 1)), (wrapu_id 64 (rhat + vn1)) by (unfold inu; rewrite pow2_64; lia).
    destruct (Z.leb_spec 4294967296 (rhat + vn1)); [|apply IH; subst rhat; lia].
    f_equal. assert (q - 1 <= Q); [|lia]. eapply Hle; [|apply HQ].
    assert ((q - 1) * vn0 <= 4294967296 * vn0) by (apply Z.mul_le_mono_nonneg_r; lia).
    replace ((q - 1) * v) with ((q * vn1 - vn1) * 4294967296 + (q - 1) * vn0)
      by (unfold v; rewrite pow2_32; ring). lia.
  - apply Hbody. lia.
  - assert (0 <= q * vn0 <= 4294967296 * vn0)
      by (split; [apply Z.mul_nonneg_nonneg|apply Z.mul_le_mono_nonneg_r]; lia).
    rewrite (wrapu_id 64 (q * vn0)) by (unfold inu; rewrite pow2_64; lia).
    destruct (Z.ltb_spec (4294967296 * rhat + un) (q * vn0)).
    + apply Hbody. eapply Hlt; [apply HQ|]. lia.
    + f_equal. assert (q <= Q); [|lia]. eapply Hle; [|apply HQ]. lia.
Qed.

Lemma digit_spec u un v : inu 64 v -> 2 ^ 63 <= v -> 0 <= u < v -> inu 32 un ->
  let vn1 := Z.shiftr v 32 in
  correct_digit digit_fuel (u / vn1) (u64 (u - u / vn1 * vn1)) vn1 (Z.land v 0xFFFFFFFF) un =
  Ok ((u * 2 ^ 32 + un) / v).
Proof.
  intros Hv Hn Hu Hun vn1. change 0xFFFFFFFF with (2 ^ 32 - 1). rewrite land_pow2_mod by lia.
  pose proof (Z.div_mod v (2 ^ 32) ltac:(done)) as Ev. pose proof (Z.mod_pos_bound v (2 ^ 32) eq_refl) as Hv0.
  unfold vn1. rewrite Z.shiftr_div_pow2 by lia. clear vn1.
  set (vn1 := v / 2 ^ 32) in *. set (vn0 := v mod 2 ^ 32) in *.
  assert (2 ^ 31 <= vn1 < 2 ^ 32) as Hv1
    by (unfold inu in *; change (2 ^ 31) with 2147483648; rewrite pow2_64, pow2_63, pow2_32 in *; lia).
  pose proof (Z.div_mod u vn1 ltac:(lia)) as Eu. pose proof (Z.mod_pos_bound u vn1 ltac:(lia)) as Hr.
  set (q := u / vn1) in *. replace (u - q * vn1) with (u mod vn1) by lia.
  rewrite wrapu_id by (unfold inu; rewrite pow2_64, pow2_32 in *; lia).
  pose proof (Z.div_mod (u * 2 ^ 32 + un) v ltac:(lia)) as EQ.
  pose proof (Z.mod_pos_bound (u * 2 ^ 32 + un) v ltac:(lia)) as HQ.
  set (Q := (u * 2 ^ 32 + un) / v) in *.
  assert (0 <= Q) as HQ0 by (apply Z.div_pos; unfold inu in *; lia).
  replace v with (vn1 * 2 ^ 32 + vn0) in * by lia.
  eapply correct_digit_spec; [done|done|done|apply Hu|done|lia| |lia|lia|].
  - unfold inu in *. rewrite pow2_32 in *. split.
    + apply Z.div_le_lower_bound; [lia|].
      assert (Q * vn1 * 4294967296 < (u + 1) * 4294967296); [|lia].
      assert (0 <= Q * vn0) by (apply Z.mul_nonneg_nonneg; lia). lia.
    + assert (q * vn1 < (4294967296 + 2) * vn1) as Hq; [|apply Z.mul_lt_mono_pos_r in Hq; lia].
      change (2 ^ 31) with 2147483648 in *. lia.
  - unfold digit_fuel. change (2 ^ 31) with 2147483648 in *. rewrite pow2_32 in *. lia.
Qed.

Lemma clz_64 v : 0 < v -> clz 64 v = Ok (63 - Z.log2 v).
Proof.
  intros Hv. unfold clz, bit_length. destruct (Z.eqb_spec v 0); [lia|]. destruct (Z.leb_spec v 0); [lia|].
  f_equal. lia.
Qed.

(** shifting the divisor left until its top bit is set *)
Lemma normalize v : 0 < v < 2 ^ 64 -> let s := 63 - Z.log2 v in
  0 <= s <= 63 /\ 2 ^ 63 <= v * 2 ^ s < 2 ^ 64.
Proof.
  intros Hv s. pose proof (Z.log2_spec v ltac:(lia)) as [H1 H2].
  assert (Z.log2 v < 64) by (apply Z.log2_lt_pow2; lia). pose proof (Z.log2_nonneg v).
  split; [unfold s; lia|].
  assert (2 ^ Z.log2 v * 2 ^ s = 2 ^ 63) as E1 by (rewrite <-Z.pow_add_r by (unfold s; lia); f_equal; unfold s; lia).
  assert (2 ^ Z.succ (Z.log2 v) * 2 ^ s = 2 ^ 64) as E2
    by (rewrite <-Z.pow_add_r by (unfold s; lia); f_equal; unfold s; lia).
  assert (0 < 2 ^ s) by (apply Z.pow_pos_nonneg; unfold s; lia).
  rewrite <-E1, <-E2. split; [apply Z.mul_le_mono_nonneg_r; lia|apply Z.mul_lt_mono_pos_r; lia].
Qed.

Lemma shifted_dividend u1 u0 v s : 0 < s < 64 -> 0 <= u1 < v -> inu 64 u0 -> v * 2 ^ s < 2 ^ 64 ->
  let un64 := Z.lor (u64 (Z.shiftl u1 s)) (Z.shiftr u0 (64 - s)) in
  let un10 := u64 (Z.shiftl u0 s) in
  of_halves un64 un10 = of_halves u1 u0 * 2 ^ s /\ 0 <= un64 < v * 2 ^ s /\ inu 64 un10.
Proof.
  intros Hs Hu1 Hu0 Hv un64 un10. unfold un64, un10.
  assert (0 < 2 ^ s) as Hp by (apply Z.pow_pos_nonneg; lia).
  assert (0 < 2 ^ (64 - s)) as Hp' by (apply Z.pow_pos_nonneg; lia).
  assert (2 ^ s * 2 ^ (64 - s) = 2 ^ 64) as E by (rewrite <-Z.pow_add_r by lia; f_equal; lia).
  rewrite !Z.shiftl_mul_pow2, Z.shiftr_div_pow2 by lia.
  rewrite (wrapu_id 64 (u1 * 2 ^ s)) by (unfold inu; nia).
  pose proof (Z.div_mod u0 (2 ^ (64 - s)) ltac:(lia)) as Eu.
  pose proof (Z.mod_pos_bound u0 (2 ^ (64 - s)) Hp') as Hm.
  set (q := u0 / 2 ^ (64 - s)) in *. set (m := u0 mod 2 ^ (64 - s)) in *.
  assert (0 <= q < 2 ^ s) as Hq.
  { split; [apply Z.div_pos; unfold inu in *; lia|]. apply Z.div_lt_upper_bound; [lia|].
    unfold inu in *. lia. }
  assert (u64 (u0 * 2 ^ s) = m * 2 ^ s) as ->.
  { unfold wrapu. rewrite Eu. symmetry. apply Z.mod_unique with q; [left|]; nia. }
  rewrite lor_disjoint by lia. unfold of_halves, inu in *. split_and!; [|nia|nia|nia|nia].
  rewrite Eu, <-E. ring.
Qed.

Lemma quotient_digits u1 u0 v : inu 64 v -> 2 ^ 63 <= v -> 0 <= u1 < v -> inu 64 u0 ->
  let n1 := u1 * 2 ^ 32 + Z.shiftr u0 32 in
  let un21 := u64 (n1 - n1 / v * v) in
  let n0 := un21 * 2 ^ 32 + Z.land u0 0xFFFFFFFF in
  0 <= un21 < v /\ u64 (n1 / v * 2 ^ 32 + n0 / v) = of_halves u1 u0 / v /\
  u64 (n0 - n0 / v * v) = of_halves u1 u0 mod v.
Proof.
  intros Hv Hn Hu1 Hu0. change 0xFFFFFFFF with (2 ^ 32 - 1).
  rewrite Z.shiftr_div_pow2, land_pow2_mod by lia. intros n1 un21 n0.
  pose proof (Z.div_mod u0 (2 ^ 32) ltac:(done)) as Eu. pose proof (Z.mod_pos_bound u0 (2 ^ 32) eq_refl) as Hm.
  unfold inu in *. assert (0 <= u0 / 2 ^ 32 < 2 ^ 32) as Hd by (rewrite pow2_64, pow2_32 in *; lia).
  assert (forall n, u64 (n - n / v * v) = n mod v) as Er.
  { intros n. rewrite wrapu_id; [|pose proof (Z.mod_pos_bound n v ltac:(lia))]; unfold inu;
    pose proof (Z.div_mod n v ltac:(lia)); lia. }
  rewrite Er. assert (un21 = n1 mod v) as E21 by apply Er. clearbody un21. subst un21.
  pose proof (Z.mod_pos_bound n1 v ltac:(lia)) as Hr1. pose proof (Z.div_mod n1 v ltac:(lia)) as E1.
  pose proof (Z.mod_pos_bound n0 v ltac:(lia)) as Hr0. pose proof (Z.div_mod n0 v ltac:(lia)) as E0.
  split; [done|].
  assert (of_halves u1 u0 = v * (n1 / v * 2 ^ 32 + n0 / v) + n0 mod v) as E.
  { unfold of_halves. assert (n1 = u1 * 2 ^ 32 + u0 / 2 ^ 32) as E2 by done.
    assert (n0 = n1 mod v * 2 ^ 32 + u0 mod 2 ^ 32) as E3 by done. clearbody n0 n1.
    rewrite pow2_64, pow2_32 in *. lia. }
  rewrite (Z.div_unique (of_halves u1 u0) v (n1 / v * 2 ^ 32 + n0 / v) (n0 mod v)) by (tauto || done).
  rewrite (Z.mod_unique (of_halves u1 u0) v (n1 / v * 2 ^ 32 + n0 / v) (n0 mod v)) by (tauto || done).
  split; [|done]. apply wrapu_id. unfold inu, of_halves. rewrite pow2_64 in *.
  split; [apply Z.div_pos|apply Z.div_lt_upper_bound]; lia.
Qed.

#[global] Instance div128by64_default : Div128by64 udiv128by64to64default.
Proof.
  intros u1 u0 v Hu1 Hu0 Hv. unfold udiv128by64to64default. unfold inu in Hv.
  rewrite clz_64 by lia. cbn [mbind res_bind].
  destruct (normalize v ltac:(lia)) as [Hs Hn]. set (s := 63 - Z.log2 v) in *. clearbody s.
  set (shifted := if 0 <? s then _ else _).
  assert (exists w1 w0, shifted = (v * 2 ^ s, w1, w0) /\ of_halves w1 w0 = of_halves u1 u0 * 2 ^ s /\
    0 <= w1 < v * 2 ^ s /\ inu 64 w0) as (w1 & w0 & -> & Ew & Hw1 & Hw0).
  { unfold shifted. destruct (Z.ltb_spec 0 s).
    - rewrite (Z.shiftl_mul_pow2 v), (wrapu_id 64 (v * 2 ^ s)) by pow_lia.
      do 2 eexists. split; [done|]. apply shifted_dividend; [lia|done|done|lia].
    - replace s with 0 in * by lia. rewrite Z.pow_0_r, !Z.mul_1_r in *. by exists u1, u0. }
  assert (inu 64 (v * 2 ^ s)) as Hv' by pow_lia.
  destruct (quotient_digits w1 w0 (v * 2 ^ s) Hv' ltac:(lia) Hw1 Hw0) as (H21 & E1 & E2).
  assert (inu 32 (Z.shiftr w0 32)) as Hd1.
  { rewrite Z.shiftr_div_pow2 by lia. destruct Hw0.
    split; [apply Z.div_pos|apply Z.div_lt_upper_bound]; by rewrite ?pow2_64 in *. }
  assert (inu 32 (Z.land w0 0xFFFFFFFF)) as Hd0.
  { change 0xFFFFFFFF with (2 ^ 32 - 1). rewrite land_pow2_mod by lia. apply Z.mod_pos_bound. done. }
  rewrite digit_spec by (done || lia). cbn [mbind res_bind].
  rewrite digit_spec by (done || lia). cbn [mbind res_bind]. rewrite E1, E2, Ew.
  assert (0 < 2 ^ s) by (apply Z.pow_pos_nonneg; lia).
  rewrite Z.div_mul_cancel_r, Zmult_mod_distr_r, Z.shiftr_div_pow2, Z.div_mul by lia. done.
Qed.

#[global] Instance div128by64_divq : Div128by64 udiv128by64to64.
Proof. intros u1 u0 v Hu1 Hu0 Hv. unfold udiv128by64to64. by destruct (Z.ltb_spec u1 v); [|lia]. Qed.

(** ** Division of 128 by 128 bits *)

Lemma land_mask d neg : inu 128 d -> Z.land d (u128 (sign_mask neg)) = if neg then d else 0.
Proof.
  intros Hd. destruct neg; simpl sign_mask; [|by rewrite Z.land_0_r].
  change (u128 (-1)) with (2 ^ 128 - 1). rewrite land_pow2_mod by lia. by apply Z.mod_small.
Qed.

Lemma shift_subtract_spec n b dividend divisor q : 0 < b ->
  0 <= dividend < b * 2 ^ Z.of_nat n -> 0 <= q -> (q + 1) * 2 ^ Z.of_nat n <= 2 ^ 64 ->
  (forall k, n = S k -> divisor = b * 2 ^ Z.of_nat k /\ divisor < 2 ^ 128 /\
     - 2 ^ 127 <= divisor - dividend - 1 < 2 ^ 127) ->
  shift_subtract n dividend divisor q = (q * 2 ^ Z.of_nat n + dividend / b, dividend mod b).
Proof.
  intros Hb. revert dividend divisor q. induction n as [|n IH]; intros dividend divisor q Hd Hq Hq64 Hk.
  { simpl in *. rewrite Z.div_small, Z.mod_small by lia. f_equal. lia. }
  simpl shift_subtract. destruct (Hk n eq_refl) as (Ed & Hd128 & Hdiff). clear Hk.
  rewrite Nat2Z.inj_succ, Z.pow_succ_r in * by lia. remember (2 ^ Z.of_nat n) as p eqn:Ep.
  assert (0 < p) as Hp by (subst p; apply Z.pow_pos_nonneg; lia).
  rewrite wraps_id, shiftr_sign, land_mask by (done || pow_lia || (split; nia)).
  set (bit := divisor - dividend - 1 <? 0).
  assert (Z.land (sign_mask bit) 1 = Z.b2z bit) as -> by by destruct bit.
  rewrite Z.shiftl_mul_pow2, (wrapu_id 64) by (unfold inu; nia || lia).
  rewrite (lor_disjoint q (Z.b2z bit) 1) by (destruct bit; simpl; lia).
  assert (0 <= dividend - (if bit then divisor else 0) < b * p) as Hd'
    by (unfold bit; destruct (Z.ltb_spec (divisor - dividend - 1) 0); nia).
  rewrite (wrapu_id 128) by (rewrite <-Ed in Hd'; pow_lia). rewrite IH.
  - destruct bit; simpl Z.b2z; [|rewrite Z.sub_0_r; f_equal; lia]. subst divisor.
    replace (dividend - b * p) with (dividend + - p * b) by lia.
    rewrite Z.div_add, Z.mod_add by lia. f_equal. lia.
  - done.
  - destruct bit; simpl; lia.
  - destruct bit; simpl; nia.
  - intros k ->. rewrite Nat2Z.inj_succ, Z.pow_succ_r in Ep by lia.
    assert (Z.shiftr divisor 1 = b * 2 ^ Z.of_nat k) as ->.
    { rewrite Z.shiftr_div_pow2 by lia. subst divisor p.
      replace (b * (2 * 2 ^ Z.of_nat k)) with (b * 2 ^ Z.of_nat k * 2 ^ 1) by lia. apply Z.div_mul. done. }
    pow_lia.
Qed.

(** aligning the top bits of divisor and dividend *)
Lemma log2_high a : inu 128 a -> 0 < u_high a -> Z.log2 (u_high a) = Z.log2 a - 64 /\ 64 <= Z.log2 a < 128.
Proof.
  intros Ha Hh. unfold u_high in *. assert (2 ^ 64 <= a) as Hle.
  { destruct (Z.lt_ge_cases a (2 ^ 64)); [|done]. rewrite Z.div_small in Hh by (unfold inu in *; lia). lia. }
  assert (64 <= Z.log2 a) by (apply Z.log2_le_pow2; lia).
  assert (Z.log2 a < 128) by (apply Z.log2_lt_pow2; unfold inu in *; lia).
  rewrite <-Z.shiftr_div_pow2, Z.log2_shiftr by lia. lia.
Qed.

Lemma aligned a b : inu 128 a -> 0 < b <= a -> let shift := Z.log2 a - Z.log2 b in
  0 <= shift /\ a < b * 2 ^ (shift + 1) /\ 0 <= b * 2 ^ shift < 2 ^ 128 /\
  - 2 ^ 127 <= b * 2 ^ shift - a - 1 < 2 ^ 127.
Proof.
  intros Ha Hb shift. pose proof (Z.log2_spec a ltac:(lia)) as [A1 A2].
  pose proof (Z.log2_spec b ltac:(lia)) as [B1 B2]. pose proof (Z.log2_nonneg b).
  assert (0 <= shift) as Hs by (pose proof (Z.log2_le_mono b a); lia). split; [done|].
  assert (Z.log2 a < 128) by (apply Z.log2_lt_pow2; unfold inu in *; lia).
  assert (2 ^ Z.log2 b * 2 ^ shift = 2 ^ Z.log2 a) as E by (rewrite <-Z.pow_add_r by lia; f_equal; lia).
  assert (2 ^ Z.log2 a <= 2 ^ 127) as H127 by (apply Z.pow_le_mono_r; lia).
  assert (0 < 2 ^ shift) as Hp by (apply Z.pow_pos_nonneg; lia).
  rewrite Z.pow_succ_r in * by lia. rewrite Z.pow_add_r, Z.pow_1_r by lia.
  assert (2 ^ Z.log2 a <= b * 2 ^ shift) by (rewrite <-E; apply Z.mul_le_mono_nonneg_r; lia).
  assert (b * 2 ^ shift < 2 * 2 ^ Z.log2 a)
    by (rewrite <-E, Z.mul_assoc; apply Z.mul_lt_mono_pos_r; lia).
  change (2 ^ 128) with (2 * 2 ^ 127). lia.
Qed.

Lemma udivmodti4_spec udiv `{Div128by64 udiv} a b : inu 128 a -> inu 128 b -> 0 < b ->
  udivmodti4 udiv a b = Ok (a / b, a mod b).
Proof.
  intros Ha Hb Hpos. unfold udivmodti4.
  destruct (Z.ltb_spec a b); [by rewrite Z.div_small, Z.mod_small by (unfold inu in *; lia)|].
  destruct (halves_range a Ha) as [Hah Hal], (halves_range b Hb) as [Hbh Hbl].
  pose proof (halves a) as Ea. pose proof (halves b) as Eb.
  destruct (Z.eqb_spec (u_high b) 0) as [E0|E0].
  - rewrite E0 in Eb. assert (u_low b = b) as El by lia. rewrite El in *.
    destruct (Z.ltb_spec (u_high a) b) as [Hlt|Hge].
    + rewrite div128by64 by (done || unfold inu in *; lia). cbn [mbind res_bind].
      unfold of_halves. by rewrite Z.mul_0_r, !Z.add_0_l, <-Ea.
    + destruct (Z.eqb_spec b 0); [lia|]. pose proof (Z.mod_pos_bound (u_high a) b Hpos) as Hm.
      rewrite div128by64 by (done || lia). cbn [mbind res_bind].
      pose proof (Z.div_mod (u_high a) b ltac:(lia)) as Ed. unfold of_halves.
      assert (a = 2 ^ 64 * (u_high a mod b) + u_low a + 2 ^ 64 * (u_high a / b) * b) as Ea' by lia.
      revert Ea'. generalize (u_high a) (u_low a). intros h l ->.
      rewrite Z.div_add, Z.mod_add by lia. f_equal. f_equal; lia.
  - unfold inu in Hah, Hbh. assert (0 < u_high a) as Ha0.
    { unfold u_high in *. pose proof (Z.div_le_mono b a (2 ^ 64) ltac:(lia)). lia. }
    rewrite !clz_64 by lia. cbn [mbind res_bind].
    destruct (log2_high a Ha Ha0) as [-> ?], (log2_high b Hb ltac:(lia)) as [-> ?].
    replace (63 - (Z.log2 b - 64) - (63 - (Z.log2 a - 64))) with (Z.log2 a - Z.log2 b) by lia.
    destruct (aligned a b Ha ltac:(lia)) as (Hs & Hlt & Hsh & Hdiff). set (s := Z.log2 a - Z.log2 b) in *.
    rewrite (shift_subtract_spec _ b).
    + unfold of_halves. by f_equal.
    + done.
    + rewrite Z2Nat.id by lia. unfold inu in Ha. lia.
    + done.
    + rewrite Z2Nat.id, Z.mul_1_l by lia. apply Z.pow_le_mono_r; lia.
    + intros k Ek. replace (Z.of_nat k) with s by lia.
      rewrite Z.shiftl_mul_pow2, wrapu_id by (done || lia). split_and!; [done|lia|lia|lia].
Qed.

Lemma signed_quot_rem x y : y <> 0 ->
  Z.quot x y = (if xorb (y <? 0) (x <? 0) then - (Z.abs x / Z.abs y) else Z.abs x / Z.abs y) /\
  Z.rem x y = (if x <? 0 then - (Z.abs x mod Z.abs y) else Z.abs x mod Z.abs y).
Proof.
  intros Hy. rewrite <-Z.quot_div_nonneg, <-Z.rem_mod_nonneg by lia.
  rewrite Z.quot_div, Z.rem_mod by lia.
  rewrite (Z.quot_div_nonneg (Z.abs x)), (Z.rem_mod_nonneg (Z.abs x)) by lia.
  destruct (Z.ltb_spec x 0), (Z.ltb_spec y 0); simpl; destruct (Z.eq_dec x 0) as [->|];
    rewrite ?Z.div_0_l, ?Z.mod_0_l by lia; try (simpl; lia);
    rewrite ?(Z.sgn_neg x), ?(Z.sgn_pos x), ?(Z.sgn_neg y), ?(Z.sgn_pos y) by lia; lia.
Qed.

Lemma lxor_ones r : inu 128 r -> Z.lxor r (Z.ones 128) = Z.ones 128 - r.
Proof.
  intros Hr. pose proof (proj1 (inu_iff 128 r ltac:(done)) Hr) as [_ Hh].
  rewrite Z.sub_nocarry_ldiff; apply Z.bits_inj'; intros i Hi;
    rewrite ?Z.lxor_spec, ?Z.ldiff_spec, ?Z.bits_0, Z.testbit_ones_nonneg by lia;
    destruct (Z.ltb_spec i 128); rewrite ?Hh by done; try done; by destruct (Z.testbit r i).
Qed.

Lemma divmodti3_spec `{SignedArith} udiv `{Div128by64 udiv} x y :
  - 2 ^ 127 < x < 2 ^ 127 -> - 2 ^ 127 < y < 2 ^ 127 -> y <> 0 ->
  divmodti3 udiv x y = Ok (Z.quot x y, u128 (Z.rem x y)).
Proof.
  intros Hx Hy Hy0. unfold divmodti3. rewrite !negate_if_abs by pow_lia. cbn [mbind res_bind].
  assert (inu 128 (Z.abs x) /\ inu 128 (Z.abs y)) as [Hx' Hy'] by (split; pow_lia).
  rewrite (u128_id (Z.abs x)), (u128_id (Z.abs y)), udivmodti4_spec by (done || lia). cbn [mbind res_bind].
  rewrite !shiftr_sign, lxor_sign_mask, negate_if_spec by pow_lia.
  pose proof (Z.div_mod (Z.abs x) (Z.abs y) ltac:(lia)) as Ed.
  pose proof (Z.mod_pos_bound (Z.abs x) (Z.abs y) ltac:(lia)) as Hm.
  assert (0 <= Z.abs x / Z.abs y <= Z.abs x) as Hq.
  { split; [apply Z.div_pos; lia|]. apply Z.div_le_upper_bound; [lia|].
    rewrite <-(Z.mul_1_l (Z.abs x)) at 1. apply Z.mul_le_mono_nonneg_r; lia. }
  rewrite i128_small by lia. destruct (signed_quot_rem x y Hy0) as [-> ->].
  rewrite sarith_id by (destruct (xorb _ _); pow_lia). cbn [mbind res_bind]. do 2 f_equal.
  destruct (x <? 0); simpl sign_mask.
  - change (u128 (-1)) with (Z.ones 128). rewrite lxor_ones by pow_lia. f_equal. lia.
  - by rewrite Z.lxor_0_r, Z.sub_0_r.
Qed.

Lemma divmodti3_zero `{SignedArith} udiv x : - 2 ^ 127 < x < 2 ^ 127 -> divmodti3 udiv x 0 = Err EDivZero.
Proof.
  intros Hx. unfold divmodti3. rewrite !negate_if_abs by pow_lia. cbn [mbind res_bind].
  rewrite (u128_id (Z.abs x)) by pow_lia. change (u128 (Z.abs 0)) with 0. unfold udivmodti4.
  destruct (Z.ltb_spec (Z.abs x) 0); [lia|]. change (u_high 0) with 0. change (u_low 0) with 0.
  assert (0 <= u_high (Z.abs x)) by (apply Z.div_pos; lia).
  by destruct (Z.ltb_spec (u_high (Z.abs x)) 0); [lia|].
Qed.

(** ** Theorems *)

(** C30: the overflow flag of [multi3] is exact: it is clear when the absolute
    value of the product is below 2^127, and the product is then right
    whatever overflow means; otherwise it is set and, with wrapping
    arithmetic, the low 128 bits of the product are returned. *)
Theorem multi3_correct x y : - 2 ^ 127 < x < 2 ^ 127 -> - 2 ^ 127 < y < 2 ^ 127 ->
  (Z.abs (x * y) < 2 ^ 127 -> forall SA : SignedArith, multi3 x y = Ok (x * y, false)) /\
  (2 ^ 127 <= Z.abs (x * y) -> @multi3 sarith_wrap x y = Ok (i128 (x * y), true)).
Proof.
  intros Hx Hy. split; [intros Hp ?; apply multi3_fits|intros Hp; apply multi3_overflows]; pow_lia.
Qed.

Lemma multi3_correct_witness :
  multi3 (-12345678901234567890) 9876543210987654321 = Ok (-121932631137021795223746380111126352690, false) /\
  @multi3 sarith_wrap (2 ^ 64) (- 2 ^ 64) = Ok (0, true).
Proof.
  split.
  - rewrite (proj1 (multi3_correct (-12345678901234567890) 9876543210987654321
      (conj eq_refl eq_refl) (conj eq_refl eq_refl)) eq_refl). reflexivity.
  - rewrite (proj2 (multi3_correct (2 ^ 64) (- 2 ^ 64) (conj eq_refl eq_refl) (conj eq_refl eq_refl))
      ltac:(discriminate)). reflexivity.
Defined.

(** The portable division of 128 by 64 bits, which guesses two 32-bit
    digits and corrects each at most twice, does what the instruction does
    wherever the instruction does not trap. *)
Theorem udiv128by64_agree u1 u0 v : 0 <= u1 < v -> inu 64 u0 -> inu 64 v ->
  udiv128by64to64default u1 u0 v = udiv128by64to64 u1 u0 v /\
  udiv128by64to64 u1 u0 v = Ok (of_halves u1 u0 / v, of_halves u1 u0 mod v).
Proof. intros. by rewrite !div128by64. Qed.

Lemma udiv128by64_agree_witness :
  udiv128by64to64default 0xfffffffffffffffe 0xffffffffffffffff 0xffffffffffffffff =
  Ok (0xffffffffffffffff, 0xfffffffffffffffe).
Proof.
  destruct (udiv128by64_agree 0xfffffffffffffffe 0xffffffffffffffff 0xffffffffffffffff) as [E1 E2];
    [split; [discriminate|reflexivity]|split; [discriminate|reflexivity]|split; [discriminate|reflexivity]|].
  rewrite E1, E2. reflexivity.
Defined.

(** C12: [divmodti3] divides with truncation, with either division of 128 by
    64 bits below it and whatever overflow means: the remainder has the sign
    of the dividend and is returned as the unsigned word of its bits. A
    divisor of 0 traps. *)
Theorem divmodti3_correct `{SignedArith} udiv x y :
  udiv = udiv128by64to64 \/ udiv = udiv128by64to64default ->
  - 2 ^ 127 < x < 2 ^ 127 -> - 2 ^ 127 < y < 2 ^ 127 ->
  divmodti3 udiv x y = if y =? 0 then Err EDivZero else Ok (Z.quot x y, u128 (Z.rem x y)).
Proof.
  intros Hu Hx Hy. destruct (Z.eqb_spec y 0) as [->|].
  - by apply divmodti3_zero.
  - destruct Hu as [->| ->]; by apply divmodti3_spec; try apply _.
Qed.

Lemma divmodti3_correct_witness :
  divmodti3 udiv128by64to64default (- 10 ^ 30) (10 ^ 25 + 7) = Ok (-99999, u128 (-9999999999999999999300007)).
Proof.
  rewrite (divmodti3_correct udiv128by64to64default (- 10 ^ 30) (10 ^ 25 + 7));
    [reflexivity|right; reflexivity|split; reflexivity|split; reflexivity].
Defined.
