(* ===== verification/Decimal.v ===== *)
(** * Decimals: [DorisDecimalOp] and [CKDecimalOp] of src/include/decimal/decimal.hh

    A decimal of 27 digits with 9 after the point is an [__int128] that counts
    billionths. [add], [mul] and [div] are the plain operations; [add2],
    [mul2] and [div2] are the ones without branches, built on the routines of
    Int128. [CKDecimalOp] computes with an explicit scale and detects
    overflow. The result of a signed operation is left to [SignedArith]. *)

From S2P Require Import Prelude.
From S2P Require Import Simd.
From S2P Require Import Int128.

Inductive DecimalError :=
| E_DEC_OK | E_DEC_TRUNCATED | E_DEC_OVERFLOW | E_DEC_DIV_ZERO | E_DEC_BAD_NUM | E_DEC_OOM
| E_DEC_ERROR | E_DEC_FATAL_ERROR.

Definition MAX_INT_VALUE : Z := 999999999999999999.
Definition MAX_FRAC_VALUE : Z := 999999999.
Definition ONE_BILLION : Z := 1000000000.
Definition MAX_DECIMAL_VALUE : Z := MAX_INT_VALUE * ONE_BILLION + MAX_FRAC_VALUE.

Section decimal.
Context `{SignedArith}.

(** the quotient and the remainder of two [__int128]s *)
Definition quot128 (a b : Z) : res Z := if b =? 0 then Err EDivZero else sarith (Z.quot a b).
Definition rem128 (a b : Z) : res Z := if b =? 0 then Err EDivZero else Ok (Z.rem a b).

(** ** Addition *)

(** the [int] it returns is the sum, cut to 32 bits *)
Definition Doris_do_add2 (x y : Z) : res (Z * Z) :=
  res ← sarith (x + y);
  let s := Z.shiftr res 127 in
  res ← negate_if res s;
  let res := if MAX_DECIMAL_VALUE <? res then MAX_DECIMAL_VALUE else res in
  res ← negate_if res s;
  Ok (i32 res, res).

Definition Doris_add2 (x y : Z) : res Z := '(_, res) ← Doris_do_add2 x y; Ok res.

Definition Doris_do_add (x y : Z) : res (DecimalError * Z) :=
  room ← sarith (MAX_DECIMAL_VALUE - x);
  if y <=? room then res ← sarith (x + y); Ok (E_DEC_OK, res)
  else Ok (E_DEC_OVERFLOW, MAX_DECIMAL_VALUE).

Definition Doris_do_sub (x y : Z) : res (DecimalError * Z) := res ← sarith (x - y); Ok (E_DEC_OK, res).

Definition Doris_add (x y : Z) : res Z :=
  if x =? 0 then Ok y
  else if y =? 0 then Ok x
  else if 0 <? x then
    if 0 <? y then '(_, result) ← Doris_do_add x y; Ok result
    else y' ← sarith (- y); '(_, result) ← Doris_do_sub x y'; Ok result
  else
    x' ← sarith (- x);
    if 0 <? y then '(_, result) ← Doris_do_sub y x'; Ok result
    else y' ← sarith (- y); '(_, result) ← Doris_do_add x' y'; sarith (- result).

(** ** Multiplication *)

Definition Doris_abs (x : Z) : res Z := if x <? 0 then sarith (- x) else Ok x.

(** 16, the size in bytes, for 0 *)
Definition clz128 (v : Z) : res Z :=
  if v =? 0 then Ok 16
  else if negb (Z.shiftr v 64 =? 0) then clz 64 (u64 (Z.shiftr v 64))
  else c ← clz 64 (u64 v); Ok (c + 64).

Definition max128 : Z := 2 ^ 127 - 1.

(** [leading_zero_bits < sizeof(int128_t) || max128 / x < y] *)
Definition mul_overflows (x y : Z) : res bool :=
  cx ← clz128 (u128 x);
  cy ← clz128 (u128 y);
  if cx + cy <? 16 then Ok true else q ← quot128 max128 x; Ok (q <? y).

Definition Doris_do_mul (x y : Z) : res (DecimalError * Z) :=
  overflow ← mul_overflows x y;
  if (overflow : bool) then Ok (E_DEC_OVERFLOW, MAX_DECIMAL_VALUE)
  else
    product ← sarith (x * y);
    result ← quot128 product ONE_BILLION;
    if MAX_DECIMAL_VALUE <? result then Ok (E_DEC_OVERFLOW, MAX_DECIMAL_VALUE)
    else
      remainder ← rem128 product ONE_BILLION;
      if remainder =? 0 then Ok (E_DEC_OK, result)
      else if Z.shiftr ONE_BILLION 1 <=? remainder then
        result ← sarith (result + 1); Ok (E_DEC_TRUNCATED, result)
      else Ok (E_DEC_TRUNCATED, result).

Definition same_sign (x y : Z) : bool := ((0 <? x) && (0 <? y)) || ((x <? 0) && (y <? 0)).

Definition Doris_mul (x y : Z) : res Z :=
  if (x =? 0) || (y =? 0) then Ok 0
  else
    x' ← Doris_abs x;
    y' ← Doris_abs y;
    '(_, result) ← Doris_do_mul x' y';
    if same_sign x y then Ok result else sarith (- result).

Definition Doris_unsignedMulOverflow (x y : Z) : res (Z * bool) :=
  result ← sarith (x * y);
  overflow ← mul_overflows x y;
  Ok (result, overflow).

(** [result] is left as it is when a factor is 0 *)
Definition Doris_mulOverflow (x y result : Z) : res (Z * bool) :=
  if (x =? 0) || (y =? 0) then Ok (result, false)
  else
    x' ← Doris_abs x;
    y' ← Doris_abs y;
    '(result, overflow) ← Doris_unsignedMulOverflow x' y';
    if same_sign x y then Ok (result, overflow) else result ← sarith (- result); Ok (result, overflow).

Definition Doris_mul2 (udiv : Z -> Z -> Z -> res (Z * Z)) (x y : Z) : res Z :=
  let '(wres, _) := multi3_wrapper (u128 x) (u128 y) in
  '(q, remainder) ← divmodti3 udiv (i128 wres) ONE_BILLION;
  if negb (remainder =? 0) && (Z.shiftr ONE_BILLION 1 <=? remainder) then sarith (q + 1) else Ok q.

(** ** Division *)

Definition Doris_do_div (x y : Z) : res (DecimalError * Z) :=
  dividend ← sarith (x * ONE_BILLION);
  result ← quot128 dividend y;
  remainder ← rem128 dividend y;
  if remainder =? 0 then Ok (E_DEC_OK, result)
  else if Z.shiftr y 1 <=? remainder then result ← sarith (result + 1); Ok (E_DEC_TRUNCATED, result)
  else Ok (E_DEC_TRUNCATED, result).

Definition Doris_div (x y : Z) : res Z :=
  if (x =? 0) || (y =? 0) then Ok 0
  else
    x' ← Doris_abs x;
    y' ← Doris_abs y;
    '(_, result) ← Doris_do_div x' y';
    if same_sign x y then Ok result else sarith (- result).

(** the remainder is unsigned, and so is the comparison with half the divisor *)
Definition Doris_div2 (udiv : Z -> Z -> Z -> res (Z * Z)) (x y : Z) : res Z :=
  if (x =? 0) || (y =? 0) then Ok 0
  else
    dividend ← sarith (x * ONE_BILLION);
    '(q, remainder) ← divmodti3 udiv dividend y;
    if negb (remainder =? 0) && (u128 (Z.shiftr y 1) <=? remainder) then sarith (q + 1) else Ok q.

(** ** Operations with a scale *)

Definition minInt128 : Z := - 2 ^ 127.
Definition maxInt128 : Z := 2 ^ 127 - 1.

Definition CK_addOverflow (x y : Z) : res (Z * bool) :=
  res ← sarith (x + y);
  Ok (res, ((0 <? y) && (maxInt128 - y <? x)) || ((y <? 0) && (x <? minInt128 - y))).

(** the absolute value as an unsigned word *)
Definition CK_magnitude (x : Z) : res Z := if 0 <? x then Ok x else x' ← sarith (- x); Ok (u128 x').

Definition CK_mulOverflow (x y : Z) : res (Z * bool) :=
  let res := i128 (u128 x * u128 y) in
  if (x =? 0) || (y =? 0) then Ok (res, false)
  else
    a ← CK_magnitude x;
    b ← CK_magnitude y;
    Ok (res, negb (u128 (a * b) / b =? a)).

Definition CK_mulOverflow_nodiv (x y : Z) : res (Z * bool) :=
  let res := i128 (u128 x * u128 y) in
  if (x =? 0) || (y =? 0) then Ok (res, false)
  else
    a ← CK_magnitude x;
    b ← CK_magnitude y;
    Ok (res, negb (u128 (u128 (a * b) + b) =? a)).

Section templates.
Context (adjust_scale scale_left check_overflow can_overflow : bool).

Definition CK_add (a b scale : Z) : res Z :=
  if check_overflow then
    '(a, b, o1) ← (if adjust_scale then
       if scale_left then '(a, o) ← CK_mulOverflow a scale; Ok (a, b, o)
       else '(b, o) ← CK_mulOverflow b scale; Ok (a, b, o)
     else Ok (a, b, false));
    '(res, o2) ← (if can_overflow then CK_addOverflow a b else res ← sarith (a + b); Ok (res, false));
    Ok (if (o1 : bool) || o2 then 0 else res)
  else
    '(a, b) ← (if adjust_scale then
       if scale_left then a ← sarith (a * scale); Ok (a, b) else b ← sarith (b * scale); Ok (a, b)
     else Ok (a, b));
    sarith (a + b).

Definition CK_mul (a b : Z) : res Z :=
  if can_overflow && check_overflow then
    '(res, o) ← CK_mulOverflow a b; Ok (if (o : bool) then 0 else res)
  else sarith (a * b).

Definition CK_div (is_decimal_a : bool) (a b scale : Z) : res Z :=
  if check_overflow then
    '(scale, o1) ← (if negb is_decimal_a then CK_mulOverflow scale scale else Ok (scale, false));
    '(a, o2) ← CK_mulOverflow a scale;
    if (o1 : bool) || o2 then Ok (-1) else quot128 a b
  else
    scale ← (if negb is_decimal_a then sarith (scale * scale) else Ok scale);
    a ← sarith (a * scale);
    quot128 a b.
End templates.
End decimal.

(** ** Ranges *)

Definition in_decimal (x : Z) : Prop := - MAX_DECIMAL_VALUE <= x <= MAX_DECIMAL_VALUE.

(** linear arithmetic over the constants of this file *)
Ltac dec_lia :=
  unfold in_decimal, MAX_DECIMAL_VALUE, MAX_INT_VALUE, MAX_FRAC_VALUE, ONE_BILLION in *; pow_lia.

Lemma quot128_pos `{SignedArith} a b : 0 <= a < 2 ^ 127 -> 0 < b -> quot128 a b = Ok (a / b).
Proof.
  intros Ha Hb. unfold quot128. destruct (Z.eqb_spec b 0); [lia|].
  rewrite Z.quot_div_nonneg by lia. apply sarith_id.
  assert (0 <= a / b <= a); [|pow_lia].
  split; [apply Z.div_pos; lia|]. apply Z.div_le_upper_bound; [lia|].
  rewrite <-(Z.mul_1_l a) at 1. apply Z.mul_le_mono_nonneg_r; lia.
Qed.

Lemma rem128_pos a b : 0 <= a -> 0 < b -> rem128 a b = Ok (a mod b).
Proof.
  intros Ha Hb. unfold rem128. destruct (Z.eqb_spec b 0); [lia|]. by rewrite Z.rem_mod_nonneg by lia.
Qed.

Lemma Doris_abs_spec `{SignedArith} x : - 2 ^ 127 < x < 2 ^ 127 -> Doris_abs x = Ok (Z.abs x).
Proof.
  intros Hx. unfold Doris_abs. destruct (Z.ltb_spec x 0); [|f_equal; lia].
  rewrite sarith_id by pow_lia. f_equal. lia.
Qed.

(** the magnitude of a result and its sign *)
Lemma same_sign_spec `{SignedArith} x y r : x <> 0 -> y <> 0 -> 0 <= r < 2 ^ 127 ->
  (if same_sign x y then Ok r else sarith (- r)) = Ok (Z.sgn (x * y) * r).
Proof.
  intros Hx Hy Hr. unfold same_sign. rewrite Z.sgn_mul.
  destruct (Z.ltb_spec 0 x), (Z.ltb_spec 0 y), (Z.ltb_spec x 0), (Z.ltb_spec y 0); try lia; simpl;
    rewrite ?(Z.sgn_pos x), ?(Z.sgn_neg x), ?(Z.sgn_pos y), ?(Z.sgn_neg y) by lia;
    rewrite ?sarith_id by pow_lia; f_equal; lia.
Qed.

(** ** Addition *)

Lemma Doris_add2_spec `{SignedArith} x y : in_decimal x -> in_decimal y ->
  Doris_add2 x y = Ok (Z.max (- MAX_DECIMAL_VALUE) (Z.min MAX_DECIMAL_VALUE (x + y))).
Proof.
  intros Hx Hy. unfold Doris_add2, Doris_do_add2. rewrite sarith_id by dec_lia. cbn [mbind res_bind].
  rewrite negate_if_abs by dec_lia. cbn [mbind res_bind]. rewrite shiftr_sign, negate_if_spec by dec_lia.
  rewrite sarith_id by (destruct (x + y <? 0), (Z.ltb_spec MAX_DECIMAL_VALUE (Z.abs (x + y))); dec_lia).
  cbn [mbind res_bind]. f_equal.
  destruct (Z.ltb_spec (x + y) 0), (Z.ltb_spec MAX_DECIMAL_VALUE (Z.abs (x + y))); dec_lia.
Qed.

Lemma Doris_add_spec `{SignedArith} x y : in_decimal x -> in_decimal y ->
  Doris_add x y = Ok (Z.max (- MAX_DECIMAL_VALUE) (Z.min MAX_DECIMAL_VALUE (x + y))).
Proof.
  intros Hx Hy. unfold Doris_add, Doris_do_add, Doris_do_sub.
  destruct (Z.eqb_spec x 0); [f_equal; dec_lia|]. destruct (Z.eqb_spec y 0); [f_equal; dec_lia|].
  destruct (Z.ltb_spec 0 x), (Z.ltb_spec 0 y); repeat (rewrite sarith_id by dec_lia; cbn [mbind res_bind]);
    try (f_equal; dec_lia).
  - destruct (Z.leb_spec y (MAX_DECIMAL_VALUE - x)); cbn [mbind res_bind];
      f_equal; dec_lia.
  - destruct (Z.leb_spec (- y) (MAX_DECIMAL_VALUE - - x)); cbn [mbind res_bind];
      rewrite sarith_id by dec_lia; f_equal; dec_lia.
Qed.

(** ** Multiplication *)

Lemma clz128_spec v : 0 < v < 2 ^ 127 -> clz128 v = Ok (127 - Z.log2 v).
Proof.
  intros Hv. unfold clz128. destruct (Z.eqb_spec v 0); [lia|].
  assert (inu 128 v) as Hv' by pow_lia. destruct (halves_range v Hv') as [Hh _].
  rewrite Z.shiftr_div_pow2 by lia. change (v / 2 ^ 64) with (u_high v).
  destruct (Z.eqb_spec (u_high v) 0) as [E|E]; simpl.
  - pose proof (halves v) as Ev. rewrite E in Ev.
    assert (v < 2 ^ 64) by (pose proof (Z.mod_pos_bound v (2 ^ 64) eq_refl); unfold u_low in *; lia).
    rewrite wrapu_id, clz_64 by pow_lia. cbn [mbind res_bind]. f_equal. lia.
  - rewrite wrapu_id, clz_64 by (done || unfold inu in *; lia).
    destruct (log2_high v Hv') as [-> _]; [unfold inu in *; lia|]. f_equal. lia.
Qed.

Lemma mul_overflows_spec `{SignedArith} x y : 0 < x < 2 ^ 127 -> 0 < y < 2 ^ 127 ->
  mul_overflows x y = Ok (2 ^ 127 <=? x * y).
Proof.
  intros Hx Hy. unfold mul_overflows. rewrite !u128_id, !clz128_spec by pow_lia. cbn [mbind res_bind].
  destruct (Z.ltb_spec (127 - Z.log2 x + (127 - Z.log2 y)) 16).
  - f_equal. symmetry. apply Z.leb_le.
    pose proof (Z.log2_spec x ltac:(lia)) as [Lx _]. pose proof (Z.log2_spec y ltac:(lia)) as [Ly _].
    pose proof (Z.log2_nonneg x). pose proof (Z.log2_nonneg y).
    transitivity (2 ^ Z.log2 x * 2 ^ Z.log2 y); [|apply Z.mul_le_mono_nonneg; lia].
    rewrite <-Z.pow_add_r by lia. apply Z.pow_le_mono_r; lia.
  - rewrite quot128_pos by (unfold max128; lia). cbn [mbind res_bind]. f_equal. unfold max128.
    pose proof (Z.div_mod (2 ^ 127 - 1) x ltac:(lia)). pose proof (Z.mod_pos_bound (2 ^ 127 - 1) x ltac:(lia)).
    set (q := (2 ^ 127 - 1) / x) in *. clearbody q.
    destruct (Z.ltb_spec q y), (Z.leb_spec (2 ^ 127) (x * y)); try done; exfalso; nia.
Qed.

(** the magnitude of a product: saturated, or rounded half up *)
Definition mul_magnitude (p : Z) : Z :=
  if MAX_DECIMAL_VALUE <? p / ONE_BILLION then MAX_DECIMAL_VALUE
  else (p + ONE_BILLION / 2) / ONE_BILLION.

(** rounding up when the remainder reaches a threshold is adding before dividing *)
Lemma round_up p d h : 0 < d -> 0 <= h <= d ->
  (p + (d - h)) / d = p / d + (if h <=? p mod d then 1 else 0).
Proof.
  intros Hd Hh. pose proof (Z.div_mod p d ltac:(lia)) as E. pose proof (Z.mod_pos_bound p d Hd) as Hm.
  destruct (Z.leb_spec h (p mod d)); symmetry.
  - apply Z.div_unique with (p mod d - h); lia.
  - apply Z.div_unique with (p mod d + (d - h)); lia.
Qed.

Lemma Doris_do_mul_spec `{SignedArith} x y : 0 < x <= MAX_DECIMAL_VALUE -> 0 < y <= MAX_DECIMAL_VALUE ->
  exists e, Doris_do_mul x y = Ok (e, mul_magnitude (x * y)).
Proof.
  intros Hx Hy. unfold Doris_do_mul, mul_magnitude. rewrite mul_overflows_spec by dec_lia. cbn [mbind res_bind].
  assert (0 < x * y) as Hp by (apply Z.mul_pos_pos; lia). set (p := x * y) in *. clearbody p.
  change (ONE_BILLION / 2) with (ONE_BILLION - 500000000). rewrite round_up by (unfold ONE_BILLION; lia).
  change (Z.shiftr ONE_BILLION 1) with 500000000.
  destruct (Z.leb_spec (2 ^ 127) p) as [Hge|Hlt].
  - destruct (Z.ltb_spec MAX_DECIMAL_VALUE (p / ONE_BILLION)); [by eexists|exfalso].
    assert (MAX_DECIMAL_VALUE + 1 <= p / ONE_BILLION); [|lia].
    apply Z.div_le_lower_bound; dec_lia.
  - rewrite sarith_id by pow_lia. cbn [mbind res_bind].
    rewrite quot128_pos, rem128_pos by (unfold ONE_BILLION; lia). cbn [mbind res_bind].
    destruct (Z.ltb_spec MAX_DECIMAL_VALUE (p / ONE_BILLION)); [by eexists|].
    pose proof (Z.mod_pos_bound p ONE_BILLION eq_refl).
    assert (0 <= p / ONE_BILLION) by (apply Z.div_pos; unfold ONE_BILLION; lia).
    destruct (Z.eqb_spec (p mod ONE_BILLION) 0) as [E|E].
    + rewrite E. simpl. eexists. by rewrite Z.add_0_r.
    + destruct (Z.leb_spec 500000000 (p mod ONE_BILLION)); [rewrite sarith_id by dec_lia|];
        eexists; [done|by rewrite Z.add_0_r].
Qed.

Lemma mul_magnitude_range p : 0 <= p -> 0 <= mul_magnitude p <= MAX_DECIMAL_VALUE + 1.
Proof.
  intros Hp. unfold mul_magnitude. destruct (Z.ltb_spec MAX_DECIMAL_VALUE (p / ONE_BILLION)) as [|Hle]; [dec_lia|].
  change (ONE_BILLION / 2) with (ONE_BILLION - 500000000). rewrite round_up by (unfold ONE_BILLION; lia).
  assert (0 <= p / ONE_BILLION) by (apply Z.div_pos; unfold ONE_BILLION; lia).
  destruct (_ <=? _); lia.
Qed.

Lemma Doris_mul_spec `{SignedArith} x y : in_decimal x -> in_decimal y ->
  Doris_mul x y = Ok (Z.sgn (x * y) * mul_magnitude (Z.abs (x * y))).
Proof.
  intros Hx Hy. unfold Doris_mul.
  destruct (Z.eqb_spec x 0) as [->|]; [done|]. destruct (Z.eqb_spec y 0) as [->|]; [by rewrite Z.mul_0_r|].
  simpl orb. cbv iota. rewrite !Doris_abs_spec by dec_lia. cbn [mbind res_bind].
  destruct (Doris_do_mul_spec (Z.abs x) (Z.abs y)) as (e & ->); [dec_lia|dec_lia|]. cbn [mbind res_bind].
  rewrite <-Z.abs_mul. apply same_sign_spec; [done|done|].
  pose proof (mul_magnitude_range (Z.abs (x * y)) ltac:(lia)). dec_lia.
Qed.

(** ** Division *)

(** the magnitude of a quotient; half the divisor is rounded down *)
Definition div_magnitude (d y : Z) : Z := if y =? 1 then d else (d + (y - y / 2)) / y.

Lemma Doris_do_div_spec `{SignedArith} x y : 0 < x <= MAX_DECIMAL_VALUE -> 0 < y <= MAX_DECIMAL_VALUE ->
  exists e, Doris_do_div x y = Ok (e, div_magnitude (x * ONE_BILLION) y) /\
    0 <= div_magnitude (x * ONE_BILLION) y < 2 ^ 127.
Proof.
  intros Hx Hy. unfold Doris_do_div, div_magnitude. rewrite sarith_id by dec_lia. cbn [mbind res_bind].
  assert (0 < x * ONE_BILLION /\ 2 * (x * ONE_BILLION) < 2 ^ 127) as Hd by dec_lia.
  set (d := x * ONE_BILLION) in *. clearbody d.
  rewrite quot128_pos, rem128_pos by lia. cbn [mbind res_bind].
  rewrite Z.shiftr_div_pow2 by lia. change (2 ^ 1) with 2.
  pose proof (Z.mod_pos_bound d y ltac:(lia)) as Hm.
  assert (0 <= d / y <= d) as Hq.
  { split; [apply Z.div_pos; lia|]. apply Z.div_le_upper_bound; [lia|].
    rewrite <-(Z.mul_1_l d) at 1. apply Z.mul_le_mono_nonneg_r; lia. }
  destruct (Z.eqb_spec y 1) as [->|].
  { rewrite Z.mod_1_r, Z.div_1_r. simpl. eexists. split; [done|lia]. }
  assert (0 < y / 2 <= y) as Hy2
    by (split; [apply Z.div_str_pos; lia|apply Z.div_le_upper_bound; lia]).
  rewrite round_up by lia.
  destruct (Z.eqb_spec (d mod y) 0) as [E|E].
  - rewrite E. destruct (Z.leb_spec (y / 2) 0); [lia|]. rewrite Z.add_0_r. eexists. split; [done|lia].
  - destruct (Z.leb_spec (y / 2) (d mod y)); [rewrite sarith_id by pow_lia|]; cbn [mbind res_bind];
      rewrite ?Z.add_0_r; eexists; (split; [done|lia]).
Qed.

Lemma Doris_div_spec `{SignedArith} x y : in_decimal x -> in_decimal y ->
  Doris_div x y = Ok (Z.sgn (x * y) * div_magnitude (Z.abs x * ONE_BILLION) (Z.abs y)).
Proof.
  intros Hx Hy. unfold Doris_div.
  destruct (Z.eqb_spec x 0) as [->|]; [done|]. destruct (Z.eqb_spec y 0) as [->|]; [by rewrite Z.mul_0_r|].
  simpl orb. cbv iota. rewrite !Doris_abs_spec by dec_lia. cbn [mbind res_bind].
  destruct (Doris_do_div_spec (Z.abs x) (Z.abs y)) as (e & -> & Hr); [dec_lia|dec_lia|]. cbn [mbind res_bind].
  by apply same_sign_spec.
Qed.

(** ** The operations without branches *)

Lemma wrapped_product x y : i128 (u128 (u128 x * u128 y)) = i128 (x * y).
Proof.
  replace (u128 (u128 x * u128 y)) with (u128 (x * y)) by (unfold wrapu; apply Z.mul_mod; done).
  unfold wraps, wrapu. by rewrite Zplus_mod_idemp_l.
Qed.

(** the bits of a negative remainder are a huge unsigned number *)
Lemma unsigned_rem r : - 2 ^ 126 < r < 2 ^ 126 -> u128 r = if r <? 0 then r + 2 ^ 128 else r.
Proof.
  intros Hr. destruct (Z.ltb_spec r 0).
  - unfold wrapu. rewrite <-(Z.mod_add r 1 (2 ^ 128)) by done. rewrite Z.mul_1_l. apply Z.mod_small. pow_lia.
  - apply wrapu_id. pow_lia.
Qed.

Lemma rem_small p d : 0 < d -> - d < Z.rem p d < d /\ (0 < Z.rem p d -> 0 < p) /\ (Z.rem p d < 0 -> p < 0).
Proof.
  intros Hd. pose proof (Z.rem_bound_abs p d ltac:(lia)). split; [lia|].
  destruct (Z.lt_trichotomy p 0) as [|[->|]]; [|by rewrite Z.rem_0_l by lia|].
  - pose proof (Z.rem_nonpos p d ltac:(lia) ltac:(lia)). lia.
  - pose proof (Z.rem_nonneg p d ltac:(lia) ltac:(lia)). lia.
Qed.

Lemma quot_bound p d : 0 < d -> Z.abs (Z.quot p d) <= Z.abs p.
Proof.
  intros Hd. pose proof (Z.quot_rem' p d). pose proof (Z.rem_bound_abs p d ltac:(lia)).
  rewrite Z.abs_lt, (Z.abs_eq d) in * by lia. destruct (rem_small p d Hd) as (_ & Hp & Hn). nia.
Qed.

Lemma Doris_mul2_spec `{SignedArith} udiv `{Div128by64 udiv} x y :
  ins 128 x -> ins 128 y -> Z.abs (x * y) < 2 ^ 127 - 1 ->
  let p := x * y in
  Doris_mul2 udiv x y = Ok (Z.quot p ONE_BILLION +
    (if (Z.rem p ONE_BILLION <? 0) || (500000000 <=? Z.rem p ONE_BILLION) then 1 else 0)).
Proof.
  intros Hx Hy Hp p. unfold Doris_mul2.
  rewrite multi3_wrapper_spec by by apply wrapu_range. rewrite wrapped_product. fold p in Hp |- *. clearbody p.
  rewrite wraps_id by pow_lia. rewrite divmodti3_spec by (done || (unfold ONE_BILLION; pow_lia)).
  cbn [mbind res_bind]. change (Z.shiftr ONE_BILLION 1) with 500000000.
  destruct (rem_small p ONE_BILLION eq_refl) as (Hr & _). pose proof (quot_bound p ONE_BILLION eq_refl).
  set (r := Z.rem p ONE_BILLION) in *. set (q := Z.quot p ONE_BILLION) in *. clearbody r q.
  rewrite unsigned_rem by dec_lia.
  destruct (Z.ltb_spec r 0); simpl orb.
  - destruct (Z.eqb_spec (r + 2 ^ 128) 0), (Z.leb_spec 500000000 (r + 2 ^ 128)); simpl;
      try (exfalso; dec_lia). apply sarith_id. pow_lia.
  - destruct (Z.eqb_spec r 0), (Z.leb_spec 500000000 r); simpl; try (exfalso; lia);
      rewrite ?Z.add_0_r; try done. apply sarith_id. pow_lia.
Qed.

Lemma Doris_div2_spec `{SignedArith} udiv `{Div128by64 udiv} x y :
  in_decimal x -> in_decimal y -> x <> 0 -> y <> 0 ->
  let d := x * ONE_BILLION in
  Doris_div2 udiv x y = Ok (Z.quot d y +
    (if negb (Z.rem d y =? 0) && (u128 (Z.shiftr y 1) <=? u128 (Z.rem d y)) then 1 else 0)).
Proof.
  intros Hx Hy Hx0 Hy0 d. unfold Doris_div2.
  destruct (Z.eqb_spec x 0); [lia|]. destruct (Z.eqb_spec y 0); [lia|]. simpl orb. cbv iota. fold d.
  assert (- 2 ^ 126 < d < 2 ^ 126) as Hd
    by (unfold d; dec_lia).
  clearbody d. rewrite sarith_id by pow_lia.
  cbn [mbind res_bind]. rewrite divmodti3_spec by
    (done || (dec_lia)).
  cbn [mbind res_bind].
  pose proof (Z.rem_bound_abs d y ltac:(lia)) as Hr. pose proof (quot_bound d (Z.abs y) ltac:(lia)) as Hq.
  assert (Z.abs (Z.quot d y) <= Z.abs d) as Hq'
    by (destruct (Z.abs_spec y) as [[_ E]|[_ E]]; rewrite E, ?Z.quot_opp_r in Hq by lia; lia).
  clear Hq. set (r := Z.rem d y) in *. set (q := Z.quot d y) in *. clearbody r q.
  replace (u128 r =? 0) with (r =? 0).
  - destruct (_ && _); [apply sarith_id|by rewrite Z.add_0_r].
    pow_lia.
  - rewrite unsigned_rem by dec_lia.
    destruct (Z.ltb_spec r 0); [|done]. destruct (Z.eqb_spec r 0), (Z.eqb_spec (r + 2 ^ 128) 0); dec_lia || done.
Qed.

Lemma half_bits y : in_decimal y -> u128 (Z.shiftr y 1) = if y <? 0 then y / 2 + 2 ^ 128 else y / 2.
Proof.
  intros Hy. rewrite Z.shiftr_div_pow2 by lia. change (2 ^ 1) with 2.
  pose proof (Z.div_mod y 2 ltac:(lia)). pose proof (Z.mod_pos_bound y 2 ltac:(lia)).
  rewrite unsigned_rem by dec_lia.
  destruct (Z.ltb_spec y 0), (Z.ltb_spec (y / 2) 0); dec_lia || done.
Qed.

Lemma Doris_div2_pos `{SignedArith} udiv `{Div128by64 udiv} x y :
  0 < x <= MAX_DECIMAL_VALUE -> 0 < y <= MAX_DECIMAL_VALUE -> Doris_div2 udiv x y = Doris_div x y.
Proof.
  intros Hx Hy. assert (in_decimal x /\ in_decimal y) as [Hx' Hy'] by (split; dec_lia).
  rewrite Doris_div_spec, Doris_div2_spec, half_bits by (done || lia).
  rewrite Z.sgn_pos, Z.mul_1_l, !Z.abs_eq by (apply Z.mul_pos_pos || lia; lia).
  assert (0 < x * ONE_BILLION < 2 ^ 126) as Hd
    by dec_lia.
  set (d := x * ONE_BILLION) in *. clearbody d. rewrite Z.quot_div_nonneg, Z.rem_mod_nonneg by lia.
  pose proof (Z.mod_pos_bound d y ltac:(lia)) as Hm.
  rewrite (wrapu_id 128) by dec_lia.
  destruct (Z.ltb_spec y 0); [lia|]. f_equal. unfold div_magnitude.
  destruct (Z.eqb_spec y 1) as [->|]; [rewrite Z.mod_1_r, Z.div_1_r; simpl; lia|].
  assert (0 < y / 2 <= y) as Hy2 by (split; [apply Z.div_str_pos; lia|apply Z.div_le_upper_bound; lia]).
  rewrite round_up by lia. f_equal.
  destruct (Z.eqb_spec (d mod y) 0), (Z.leb_spec (y / 2) (d mod y)); done || lia.
Qed.

(** ** Overflow checks *)

Lemma CK_magnitude_spec `{SignedArith} x : - 2 ^ 127 < x < 2 ^ 127 -> CK_magnitude x = Ok (Z.abs x).
Proof.
  intros Hx. unfold CK_magnitude. destruct (Z.ltb_spec 0 x); [f_equal; lia|].
  rewrite sarith_id by pow_lia. cbn [mbind res_bind]. rewrite u128_id by pow_lia. f_equal. lia.
Qed.

Lemma wrapped_quotient a b : 0 < a -> 0 < b -> negb (u128 (a * b) / b =? a) = (2 ^ 128 <=? a * b).
Proof.
  intros Ha Hb. assert (0 < a * b) as Hp by (apply Z.mul_pos_pos; lia).
  destruct (Z.leb_spec (2 ^ 128) (a * b)) as [Hge|Hlt].
  - apply negb_true_iff, Z.eqb_neq. intros E.
    pose proof (Z.mod_pos_bound (a * b) (2 ^ 128) eq_refl). unfold wrapu in E.
    assert ((a * b) mod 2 ^ 128 / b < a); [|lia]. apply Z.div_lt_upper_bound; lia.
  - apply negb_false_iff, Z.eqb_eq. rewrite wrapu_id by (unfold inu; lia). apply Z.div_mul. lia.
Qed.

Lemma CK_mulOverflow_spec `{SignedArith} x y : - 2 ^ 127 < x < 2 ^ 127 -> - 2 ^ 127 < y < 2 ^ 127 ->
  CK_mulOverflow x y = Ok (i128 (x * y), 2 ^ 128 <=? Z.abs (x * y)).
Proof.
  intros Hx Hy. unfold CK_mulOverflow.
  replace (i128 (u128 x * u128 y)) with (i128 (x * y)).
  2: { rewrite <-wrapped_product. unfold wraps, wrapu. by rewrite Zplus_mod_idemp_l. }
  destruct (Z.eqb_spec x 0) as [->|]; [done|]. destruct (Z.eqb_spec y 0) as [->|]; [by rewrite Z.mul_0_r|].
  simpl orb. cbv iota. rewrite !CK_magnitude_spec by done. cbn [mbind res_bind].
  by rewrite wrapped_quotient, Z.abs_mul by lia.
Qed.

(** ** Theorems *)

(** On decimals both additions give the sum, saturated at the largest
    decimal of its sign, and no operation on the way overflows. *)
Theorem decimal_add_saturates `{SignedArith} x y : in_decimal x -> in_decimal y ->
  Doris_add x y = Ok (Z.max (- MAX_DECIMAL_VALUE) (Z.min MAX_DECIMAL_VALUE (x + y))) /\
  Doris_add2 x y = Doris_add x y.
Proof. intros Hx Hy. by rewrite Doris_add2_spec, !Doris_add_spec. Qed.

Lemma decimal_add_saturates_witness :
  Doris_add (-1500000000) 250000000 = Ok (-1250000000) /\
  Doris_add2 MAX_DECIMAL_VALUE 1 = Ok MAX_DECIMAL_VALUE.
Proof.
  split.
  - rewrite (proj1 (decimal_add_saturates (-1500000000) 250000000 ltac:(dec_lia) ltac:(dec_lia))). reflexivity.
  - destruct (decimal_add_saturates MAX_DECIMAL_VALUE 1 ltac:(dec_lia) ltac:(dec_lia)) as [E1 E2].
    rewrite E2, E1. reflexivity.
Defined.

(** C31: the product of two decimals is rounded to the nearest billionth, half
    away from zero, and saturated when the unrounded quotient exceeds the
    largest decimal; the overflow test never lets a product wrap. Because the
    test comes before the rounding, the result can exceed the largest decimal
    by one unit, and it does for some factors. *)
Theorem decimal_mul_rounds `{SignedArith} x y : in_decimal x -> in_decimal y ->
  let p := Z.abs (x * y) in
  let r := if MAX_DECIMAL_VALUE <? p / ONE_BILLION then MAX_DECIMAL_VALUE
           else (p + ONE_BILLION / 2) / ONE_BILLION in
  Doris_mul x y = Ok (Z.sgn (x * y) * r) /\ 0 <= r <= MAX_DECIMAL_VALUE + 1 /\
  Doris_mul 999999999999999999 1000000000000000001 = Ok (MAX_DECIMAL_VALUE + 1).
Proof.
  intros Hx Hy p r. split_and!.
  - by apply Doris_mul_spec.
  - apply (mul_magnitude_range p). unfold p. lia.
  - apply (mul_magnitude_range p). unfold p. lia.
  - rewrite Doris_mul_spec by dec_lia. vm_compute. reflexivity.
Qed.

Lemma decimal_mul_rounds_witness : Doris_mul (-1500000000) 333333333 = Ok (-500000000).
Proof.
  destruct (decimal_mul_rounds (-1500000000) 333333333 ltac:(dec_lia) ltac:(dec_lia)) as (E & _).
  rewrite E. reflexivity.
Defined.

(** The quotient of two decimals is 0 when one of them is 0; otherwise it
    is rounded to the nearest billionth when the divisor is even. For an odd
    divisor the half is rounded down, so that a remainder just below the half
    also rounds up. The quotient is not checked against the largest decimal. *)
Theorem decimal_div_rounds `{SignedArith} x y : in_decimal x -> in_decimal y ->
  let d := Z.abs x * ONE_BILLION in
  let b := Z.abs y in
  (x = 0 \/ y = 0 -> Doris_div x y = Ok 0) /\
  (x <> 0 -> y <> 0 -> Doris_div x y = Ok (Z.sgn (x * y) *
     (if Z.even b then (d + b / 2) / b else if b =? 1 then d else (d + (b + 1) / 2) / b))) /\
  Doris_div 1 3 = Ok 333333334 /\ Doris_div MAX_DECIMAL_VALUE 1 = Ok (MAX_DECIMAL_VALUE * ONE_BILLION).
Proof.
  intros Hx Hy d b. rewrite !Doris_div_spec by dec_lia.
  split_and!; [by intros [-> | ->]; rewrite ?Z.mul_0_r| |vm_compute; reflexivity|vm_compute; reflexivity].
  intros Hx0 Hy0. fold d b. f_equal. f_equal. unfold div_magnitude.
  assert (0 < b) as Hb by (unfold b; lia). clearbody b d. clear Hx Hy Hx0 Hy0.
  pose proof (Zmod_even b) as E. pose proof (Z.div_mod b 2 ltac:(lia)) as Ed. destruct (Z.even b).
  - destruct (Z.eqb_spec b 1) as [->|]; [done|]. f_equal. lia.
  - destruct (Z.eqb_spec b 1); [done|]. f_equal. f_equal. apply Z.div_unique with 0; lia.
Qed.

Lemma decimal_div_rounds_witness : Doris_div (-10000000000) 4000000000 = Ok (-2500000000).
Proof.
  destruct (decimal_div_rounds (-10000000000) 4000000000 ltac:(dec_lia) ltac:(dec_lia)) as (_ & E & _).
  rewrite E by discriminate. reflexivity.
Defined.

(** the operations without branches agree with the plain ones on products
    and quotients that are not negative and not saturated. A negative
    remainder is taken for a huge unsigned one: a negative product that is
    not exact is truncated and then increased by one unit, and so is a
    quotient with a negative dividend; with a negative divisor and a positive
    dividend no quotient is rounded. *)
Theorem decimal_branch_free `{SignedArith} udiv x y :
  udiv = udiv128by64to64 \/ udiv = udiv128by64to64default -> in_decimal x -> in_decimal y ->
  let p := x * y in
  let d := x * ONE_BILLION in
  (0 <= p -> p / ONE_BILLION <= MAX_DECIMAL_VALUE -> Doris_mul2 udiv x y = Doris_mul x y) /\
  (- 2 ^ 127 + 1 < p < 0 -> Z.rem p ONE_BILLION <> 0 -> Doris_mul2 udiv x y = Ok (Z.quot p ONE_BILLION + 1)) /\
  (0 < x -> 0 < y -> Doris_div2 udiv x y = Doris_div x y) /\
  (x < 0 -> 0 < y -> Z.rem d y <> 0 -> Doris_div2 udiv x y = Ok (Z.quot d y + 1)) /\
  (0 < x -> y < 0 -> Doris_div2 udiv x y = Ok (Z.quot d y)).
Proof.
  intros Hu Hx Hy p d. assert (Div128by64 udiv) as Hdiv by (destruct Hu as [-> | ->]; apply _).
  assert (ins 128 x /\ ins 128 y) as [Hx' Hy'] by (split; dec_lia). split_and!.
  - intros Hp Hq. assert (p < (MAX_DECIMAL_VALUE + 1) * ONE_BILLION) as Hp'.
    { pose proof (Z.div_mod p ONE_BILLION ltac:(done)). pose proof (Z.mod_pos_bound p ONE_BILLION eq_refl).
      clearbody p. dec_lia. }
    rewrite Doris_mul2_spec, Doris_mul_spec by (done || fold p; dec_lia). fold p. f_equal.
    rewrite Z.quot_div_nonneg, Z.rem_mod_nonneg, (Z.abs_eq p) by (done || lia).
    pose proof (Z.mod_pos_bound p ONE_BILLION eq_refl). unfold mul_magnitude.
    destruct (Z.ltb_spec MAX_DECIMAL_VALUE (p / ONE_BILLION)); [lia|].
    destruct (Z.ltb_spec (p mod ONE_BILLION) 0); [lia|]. simpl orb.
    change (ONE_BILLION / 2) with (ONE_BILLION - 500000000). rewrite round_up by done.
    destruct (Z.eq_dec p 0) as [->|]; [done|]. rewrite Z.sgn_pos by lia. lia.
  - intros Hp Hr. rewrite Doris_mul2_spec by (done || fold p; pow_lia). fold p.
    destruct (rem_small p ONE_BILLION eq_refl) as (_ & Hpos & _).
    by destruct (Z.ltb_spec (Z.rem p ONE_BILLION) 0); [|lia].
  - intros Hx0 Hy0. unfold in_decimal in *. apply Doris_div2_pos; done || lia.
  - intros Hx0 Hy0 Hr. rewrite Doris_div2_spec, half_bits by (done || lia). fold d.
    pose proof (rem_small d y ltac:(lia)) as (Hb & Hpos & _). assert (d < 0) by (unfold d; dec_lia).
    destruct (Z.eqb_spec (Z.rem d y) 0); [done|]. rewrite unsigned_rem by dec_lia.
    destruct (Z.ltb_spec y 0); [lia|]. destruct (Z.ltb_spec (Z.rem d y) 0); [|lia].
    assert (y / 2 <= y) by (apply Z.div_le_upper_bound; lia).
    by destruct (Z.leb_spec (y / 2) (Z.rem d y + 2 ^ 128)); [|exfalso; dec_lia].
  - intros Hx0 Hy0. rewrite Doris_div2_spec, half_bits by (done || lia). fold d.
    assert (0 < d) by (unfold d; dec_lia).
    pose proof (Z.rem_bound_abs d y ltac:(lia)) as Hb. pose proof (Z.rem_sign_nz d y ltac:(lia)) as Hs.
    destruct (Z.eqb_spec (Z.rem d y) 0) as [|Hr]; [by rewrite Z.add_0_r|].
    rewrite unsigned_rem by dec_lia. destruct (Z.ltb_spec y 0); [|lia].
    assert (y <= y / 2) by (apply Z.div_le_lower_bound; lia).
    destruct (Z.ltb_spec (Z.rem d y) 0); [exfalso; specialize (Hs Hr); rewrite Z.sgn_neg, Z.sgn_pos in Hs by lia; lia|].
    destruct (Z.leb_spec (y / 2 + 2 ^ 128) (Z.rem d y)); [exfalso; dec_lia|]. simpl. by rewrite Z.add_0_r.
Qed.

Lemma decimal_branch_free_witness :
  Doris_mul2 udiv128by64to64 (-1) 300000000 = Ok 1 /\
  Doris_div2 udiv128by64to64 (-10000000000) 3000000000 = Ok (-3333333332).
Proof.
  split.
  - destruct (decimal_branch_free udiv128by64to64 (-1) 300000000 ltac:(left; reflexivity)
      ltac:(dec_lia) ltac:(dec_lia)) as (_ & E & _).
    rewrite E; [reflexivity|split; reflexivity|discriminate].
  - destruct (decimal_branch_free udiv128by64to64 (-10000000000) 3000000000 ltac:(left; reflexivity)
      ltac:(dec_lia) ltac:(dec_lia)) as (_ & _ & _ & E & _).
    rewrite E; [reflexivity|reflexivity|reflexivity|discriminate].
Defined.

Lemma CK_addOverflow_wrap x y : ins 128 x -> ins 128 y ->
  @CK_addOverflow sarith_wrap x y = Ok (i128 (x + y), negb (bool_decide (ins 128 (x + y)))).
Proof.
  intros Hx Hy. unfold CK_addOverflow, minInt128, maxInt128. cbn [mbind res_bind sarith sarith_wrap]. do 2 f_equal.
  case_bool_decide; destruct (Z.ltb_spec 0 y), (Z.ltb_spec y 0), (Z.ltb_spec (2 ^ 127 - 1 - y) x),
    (Z.ltb_spec x (- 2 ^ 127 - y)); simpl; try done; exfalso; pow_lia.
Qed.

Lemma CK_addOverflow_fits `{SignedArith} x y : ins 128 x -> ins 128 y -> ins 128 (x + y) ->
  CK_addOverflow x y = Ok (x + y, false).
Proof.
  intros Hx Hy Hs. pose proof (CK_addOverflow_wrap x y Hx Hy) as E. unfold CK_addOverflow in *.
  cbn [mbind res_bind sarith sarith_wrap] in E. injection E as E.
  rewrite sarith_id by done. cbn [mbind res_bind]. rewrite E. by rewrite bool_decide_true.
Qed.

Lemma CK_mulOverflow_fits `{SignedArith} x y : - 2 ^ 127 < x < 2 ^ 127 -> - 2 ^ 127 < y < 2 ^ 127 ->
  ins 128 (x * y) -> CK_mulOverflow x y = Ok (x * y, false).
Proof.
  intros Hx Hy Hp. rewrite CK_mulOverflow_spec, wraps_id by done. do 2 f_equal.
  destruct (Z.leb_spec (2 ^ 128) (Z.abs (x * y))); [|done]. exfalso. clear Hx Hy.
  set (p := x * y) in *. clearbody p. pow_lia.
Qed.

(** An addition that scales one of its operands first is exact, with
    every choice of the template arguments, when no intermediate result
    leaves 128 bits. The checks: a checked addition detects exactly the sums
    that do not fit; a checked product is reported only from 2^128 on, and
    makes the whole result 0, while products between 2^127 and 2^128 wrap
    unnoticed. *)
Theorem ck_scaled_add left_scale check_overflow can_overflow a b scale :
  - 2 ^ 127 < a < 2 ^ 127 -> - 2 ^ 127 < b < 2 ^ 127 -> - 2 ^ 127 < scale < 2 ^ 127 ->
  let a' := if (left_scale : bool) then a * scale else a in
  let b' := if left_scale then b else b * scale in
  (ins 128 a' -> ins 128 b' -> ins 128 (a' + b') ->
   forall SA : SignedArith, CK_add true left_scale check_overflow can_overflow a b scale = Ok (a' + b')) /\
  (2 ^ 128 <= Z.abs a' \/ 2 ^ 128 <= Z.abs b' ->
   @CK_add sarith_wrap true left_scale true can_overflow a b scale = Ok 0) /\
  @CK_addOverflow sarith_wrap a b = Ok (i128 (a + b), negb (bool_decide (ins 128 (a + b)))) /\
  CK_mulOverflow (2 ^ 126) 2 = Ok (- 2 ^ 127, false).
Proof.
  intros Ha Hb Hs a' b'. split_and!.
  - intros Ha' Hb' Hsum HA. unfold CK_add.
    assert (forall x y, ins 128 x -> ins 128 y -> ins 128 (x + y) ->
      (if can_overflow then CK_addOverflow x y else res ← sarith (x + y); Ok (res, false)) = Ok (x + y, false))
      as Hadd by (intros x y ???; destruct can_overflow; [by apply CK_addOverflow_fits|by rewrite sarith_id]).
    destruct check_overflow, left_scale; cbn [mbind res_bind];
      rewrite ?CK_mulOverflow_fits by done; cbn [mbind res_bind]; rewrite ?Hadd by done; try done;
      rewrite sarith_id by done; cbn [mbind res_bind]; by rewrite sarith_id.
  - intros Hov. unfold CK_add.
    assert (forall x y, exists r o, (if can_overflow then @CK_addOverflow sarith_wrap x y
       else res ← @sarith sarith_wrap (x + y); Ok (res, false)) = Ok (r, o)) as Hadd
      by (intros x y; destruct can_overflow; do 2 eexists; reflexivity).
    assert (forall x y : Z, - 2 ^ 127 < x < 2 ^ 127 -> - 2 ^ 127 < y < 2 ^ 127 -> 2 ^ 128 <= Z.abs (x * y) ->
      @CK_mulOverflow sarith_wrap x y = Ok (i128 (x * y), true)) as Hmul
      by (intros x y ???; rewrite CK_mulOverflow_spec by done; do 2 f_equal; by apply Z.leb_le).
    destruct left_scale; cbn [mbind res_bind]; unfold a', b' in Hov;
      (rewrite Hmul; [|done|done|destruct Hov; [|]; pow_lia]); cbn [mbind res_bind].
    + destruct (Hadd (i128 (a * scale)) b) as (r & o & ->). done.
    + destruct (Hadd a (i128 (b * scale))) as (r & o & ->). done.
  - apply CK_addOverflow_wrap; pow_lia.
  - reflexivity.
Qed.

Lemma ck_scaled_add_witness :
  CK_add true true true true 12345 67 100 = Ok 1234567 /\
  @CK_add sarith_wrap true true true true (2 ^ 100) 1 (10 ^ 18) = Ok 0.
Proof.
  split.
  - destruct (ck_scaled_add true true true 12345 67 100) as (E & _); [split; reflexivity..|].
    rewrite E; [reflexivity|split; [discriminate|reflexivity]..].
  - destruct (ck_scaled_add true true true (2 ^ 100) 1 (10 ^ 18)) as (_ & E & _); [split; reflexivity..|].
    apply E. left. discriminate.
Defined.
