(* ===== verification/Interpreters.v ===== *)
(** * Interpreters: src/modules/interpreters/interpreters.cc

    Three interpreters for one instruction set: a loop around a [switch], and
    two that jump through a table of label addresses, one from the opcode at
    each instruction and one from addresses looked up in advance. An
    instruction is an [int32_t] with the opcode in its top byte and a literal
    in the others. The stack is an array; the first interpreter grows it
    upwards, the others downwards from its end.

    The reference is a machine with a list as its stack. *)

From S2P Require Import Prelude.

(** ** Instructions *)

Inductive opcode := OP_LITERAL | OP_ADD | OP_SUB | OP_MUL | OP_DIV | OP_MOD | OP_END.

#[global] Instance opcode_eq_dec : EqDecision opcode.
Proof. solve_decision. Defined.

(** the value of an enumerator *)
Definition opcode_val (op : opcode) : Z :=
  match op with
  | OP_LITERAL => 0 | OP_ADD => 1 | OP_SUB => 2 | OP_MUL => 3 | OP_DIV => 4 | OP_MOD => 5 | OP_END => 6
  end.

Definition make_instruction (op : opcode) (arg : Z) : Z :=
  let instr := Z.lor 0 (Z.shiftl (opcode_val op) 24) in
  if bool_decide (op = OP_LITERAL) then Z.lor instr arg else instr.

(** [instr & ((1 << 24) - 1)] *)
Definition literal_of (instr : Z) : Z := Z.land instr (2 ^ 24 - 1).

(** ** Arithmetic of the operations, on [int32_t] *)

Definition binary (op : opcode) (a b : Z) : res Z :=
  match op with
  | OP_ADD => checked 32 (a + b)
  | OP_SUB => checked 32 (a - b)
  | OP_MUL => checked 32 (a * b)
  | OP_DIV => if b =? 0 then Err EDivZero else checked 32 (Z.quot a b)
  | OP_MOD => if b =? 0 then Err EDivZero else _ ← checked 32 (Z.quot a b); Ok (Z.rem a b)
  | _ => Err ECheck
  end.

(** ** The switch *)

(** [opcode(instr >> 24)]: the enumerator, if the byte is one *)
Definition decode (instr : Z) : option opcode :=
  let b := wraps 8 (Z.shiftr instr 24) in
  if b =? 0 then Some OP_LITERAL else if b =? 1 then Some OP_ADD else if b =? 2 then Some OP_SUB
  else if b =? 3 then Some OP_MUL else if b =? 4 then Some OP_DIV else if b =? 5 then Some OP_MOD
  else if b =? 6 then Some OP_END else None.

(** The two [--sp] in [stack[--sp] + stack[--sp]] are unsequenced: the language
    leaves the operations undefined. What they do is a parameter: undefined, as
    in the language, or what the code of a compiler does that evaluates one
    operand completely and then the other. *)
Inductive operand_order := Unsequenced | LeftFirst | RightFirst.

#[global] Instance operand_order_eq_dec : EqDecision operand_order.
Proof. solve_decision. Defined.

(** the operand popped first is the right one *)
Definition swapped (order : operand_order) : bool := bool_decide (order = RightFirst).

(** [ndebug] removes the assertion *)
Section switch.
Context (order : operand_order) (ndebug : bool).

Definition switch_step (instr : Z) (sp : Z) (stack : list Z) : res (Z * list Z) :=
  match decode instr with
  | Some OP_LITERAL =>
      stack ← wr stack sp (literal_of instr);
      Ok (u64 (sp + 1), stack)
  | Some OP_END | None => if ndebug then Ok (sp, stack) else Err ECheck
  | Some op =>
      if bool_decide (order = Unsequenced) then Err EUndef
      else
        let sp := u64 (sp - 1) in
        x ← rd stack sp;
        let sp := u64 (sp - 1) in
        y ← rd stack sp;
        result ← (if swapped order then binary op y x else binary op x y);
        stack ← wr stack sp result;
        Ok (u64 (sp + 1), stack)
  end.

(** the index [i] of the loop is an [int] *)
Fixpoint switch_loop (instructions : list Z) (i sp : Z) (stack : list Z) : res (list Z) :=
  match instructions with
  | [] => Ok stack
  | instr :: rest =>
      '(sp, stack) ← switch_step instr sp stack;
      i ← checked 32 (i + 1);
      switch_loop rest i sp stack
  end.

Definition switch_dispatch (instructions : list Z) (stack : list Z) : res Z :=
  stack ← switch_loop instructions 0 0 stack;
  rd stack 0.
End switch.

(** ** Jumps through a table *)

Definition dispatch_table : list opcode :=
  [OP_LITERAL; OP_ADD; OP_SUB; OP_MUL; OP_DIV; OP_MOD; OP_END].

(** the code at a label of an operation; [sp] is an index into the stack *)
Definition threaded_op (op : opcode) (sp : Z) (stack : list Z) : res (Z * list Z) :=
  a ← rd stack (sp + 1);
  b ← rd stack (sp + 2);
  r ← binary op a b;
  stack ← wr stack (sp + 2) r;
  Ok (sp + 1, stack).

Fixpoint token_run (code : list Z) (sp : Z) (stack : list Z) : res Z :=
  match code with
  | [] => Err EBounds
  | instr :: code =>
      target ← rd dispatch_table (Z.shiftr instr 24);
      match target with
      | OP_LITERAL => stack ← wr stack sp (literal_of instr); token_run code (sp - 1) stack
      | OP_END => rd stack (sp + 1)
      | op => '(sp, stack) ← threaded_op op sp stack; token_run code sp stack
      end
  end.

Definition token_threaded (instructions : list Z) (stack : list Z) : res Z :=
  token_run instructions (Z.of_nat (length instructions) - 1) stack.

(** the first loop: an address per instruction and the literals in order; the
    index [i] is an [int], [k] a [size_t] *)
Fixpoint resolve (instructions : list Z) (i k : Z) (operands : list Z)
    (target_addresses : list (option opcode)) : res (list Z * list (option opcode)) :=
  match instructions with
  | [] => Ok (operands, target_addresses)
  | instr :: rest =>
      target ← rd dispatch_table (Z.shiftr instr 24);
      target_addresses ← wr target_addresses i (Some target);
      if Z.shiftr instr 24 =? opcode_val OP_LITERAL then
        operands ← wr operands k (literal_of instr);
        i ← checked 32 (i + 1);
        resolve rest i (u64 (k + 1)) operands target_addresses
      else
        i ← checked 32 (i + 1);
        resolve rest i k operands target_addresses
  end.

(** an address that was not stored is not a label *)
Fixpoint direct_run (ip : list (option opcode)) (operands : list Z) (k sp : Z) (stack : list Z) : res Z :=
  match ip with
  | [] => Err EBounds
  | None :: _ => Err EUninit
  | Some target :: ip =>
      match target with
      | OP_LITERAL =>
          x ← rd operands k;
          stack ← wr stack sp x;
          direct_run ip operands (u64 (k + 1)) (sp - 1) stack
      | OP_END => rd stack (sp + 1)
      | op => '(sp, stack) ← threaded_op op sp stack; direct_run ip operands k sp stack
      end
  end.

Definition direct_threaded (instructions : list Z) (stack operands : list Z)
    (target_addresses : list (option opcode)) : res Z :=
  '(operands, target_addresses) ← resolve instructions 0 0 operands target_addresses;
  direct_run target_addresses operands 0 (Z.of_nat (length instructions) - 1) stack.

(** ** The reference machine *)

(** an instruction as data *)
Inductive instruction := Push (z : Z) | Op (op : opcode).

Definition is_binary (op : opcode) : Prop := op <> OP_LITERAL /\ op <> OP_END.

Definition instruction_ok (i : instruction) : Prop :=
  match i with Push z => 0 <= z < 2 ^ 24 | Op op => is_binary op end.

Definition encode (i : instruction) : Z :=
  match i with Push z => make_instruction OP_LITERAL z | Op op => make_instruction op 0 end.

(** [swap] exchanges the operands *)
Definition machine_step (swap : bool) (i : instruction) (st : list Z) : res (list Z) :=
  match i, st with
  | Push z, _ => Ok (z :: st)
  | Op op, a :: b :: st => r ← (if swap then binary op b a else binary op a b); Ok (r :: st)
  | Op _, _ => Err EBounds
  end.

Fixpoint run_machine (swap : bool) (p : list instruction) (st : list Z) : res (list Z) :=
  match p with
  | [] => Ok st
  | i :: p => st ← machine_step swap i st; run_machine swap p st
  end.

(** ** Decoding *)

Lemma encode_fields i : instruction_ok i ->
  Z.shiftr (encode i) 24 = opcode_val (match i with Push _ => OP_LITERAL | Op op => op end) /\
  (forall z, i = Push z -> literal_of (encode i) = z).
Proof.
  destruct i as [z|op]; simpl; intros Hi.
  - change (make_instruction OP_LITERAL z) with z. split.
    + rewrite Z.shiftr_div_pow2 by lia. by apply Z.div_small.
    + intros ? [= <-]. unfold literal_of. rewrite land_pow2_mod by lia. by apply Z.mod_small.
  - split; [|done]. destruct Hi as [H1 H2]. by destruct op.
Qed.

Lemma decode_encode i : instruction_ok i ->
  decode (encode i) = Some (match i with Push _ => OP_LITERAL | Op op => op end).
Proof.
  intros Hi. unfold decode. destruct (encode_fields i Hi) as [-> _]. destruct i as [|op]; [done|].
  destruct Hi. by destruct op.
Qed.

Lemma table_encode i : instruction_ok i ->
  rd dispatch_table (Z.shiftr (encode i) 24) = Ok (match i with Push _ => OP_LITERAL | Op op => op end).
Proof.
  intros Hi. destruct (encode_fields i Hi) as [-> _]. destruct i as [|op]; [done|].
  destruct Hi. by destruct op.
Qed.

(** ** The stack as an array *)

Lemma rd_app_r {A} (l k : list A) i : 0 <= i -> rd (l ++ k) (Z.of_nat (length l) + i) = rd k i.
Proof.
  intros Hi. unfold rd. destruct (Z.leb_spec 0 (Z.of_nat (length l) + i)), (Z.leb_spec 0 i); try lia.
  rewrite lookup_app_r by lia. do 2 f_equal. lia.
Qed.

Lemma rd_0 {A} (x : A) l : rd (x :: l) 0 = Ok x.
Proof. done. Qed.

Lemma wr_app {A} (l k : list A) x y : wr (l ++ x :: k) (Z.of_nat (length l)) y = Ok (l ++ y :: k).
Proof.
  rewrite wr_Ok by (rewrite length_app; simpl; lia). rewrite Nat2Z.id. f_equal.
  rewrite <-(Nat.add_0_r (length l)), insert_app_r. done.
Qed.

Lemma snoc_app {A} (l : list A) x k : l ++ x :: k = (l ++ [x]) ++ k.
Proof. by rewrite <-(assoc_L (++)). Qed.

(** a stack that grows downwards: [st] fills the array from [sp + 1] on *)
Lemma threaded_op_rep op front st :
  threaded_op op (Z.of_nat (length front) - 1) (front ++ st) =
  match st with
  | a :: b :: st => r ← binary op a b; Ok (Z.of_nat (length front), front ++ a :: r :: st)
  | _ => Err EBounds
  end.
Proof.
  unfold threaded_op.
  replace (Z.of_nat (length front) - 1 + 1) with (Z.of_nat (length front) + 0) by lia.
  replace (Z.of_nat (length front) - 1 + 2) with (Z.of_nat (length front) + 1) by lia.
  rewrite !rd_app_r by lia. destruct st as [|a [|b st]]; [done|done|]. simpl.
  destruct (binary op a b) as [r|]; [|done]. cbn [mbind res_bind].
  replace (Z.of_nat (length front) + 1) with (Z.of_nat (length (front ++ [a]))) by (rewrite length_app; simpl; lia).
  rewrite (snoc_app front a (b :: st)), wr_app. cbn [mbind res_bind].
  rewrite <-(assoc_L (++)). do 2 f_equal. lia.
Qed.

Definition END : Z := make_instruction OP_END 0.

Lemma token_run_rep p rest front st : Forall instruction_ok p -> (length p <= length front)%nat ->
  token_run (map encode p ++ END :: rest) (Z.of_nat (length front) - 1) (front ++ st) =
  (st ← run_machine false p st; rd st 0).
Proof.
  intros Hp. revert front st. induction Hp as [|i p Hi Hp IH]; intros front st Hl.
  - change (token_run (map encode [] ++ END :: rest) (Z.of_nat (length front) - 1) (front ++ st))
      with (rd (front ++ st) (Z.of_nat (length front) - 1 + 1)).
    replace (Z.of_nat (length front) - 1 + 1) with (Z.of_nat (length front) + 0) by lia. by apply rd_app_r.
  - simpl map. simpl app. cbn [token_run]. rewrite table_encode by done. cbn [mbind res_bind].
    simpl in Hl. destruct i as [z|op]; cbn [run_machine machine_step].
    + destruct (encode_fields (Push z) Hi) as [_ E]. rewrite (E z eq_refl).
      destruct front as [|x front _] using rev_ind; [simpl in *; lia|]. rewrite length_app in *. simpl in Hl.
      rewrite <-(assoc_L (++)). simpl.
      replace (Z.of_nat (length front + 1) - 1) with (Z.of_nat (length front)) by lia. rewrite wr_app.
      cbn [mbind res_bind]. apply IH. lia.
    + transitivity ('(sp, stack) ← threaded_op op (Z.of_nat (length front) - 1) (front ++ st);
        token_run (map encode p ++ END :: rest) sp stack).
      { destruct Hi. by destruct op. }
      rewrite threaded_op_rep. destruct st as [|a [|b st]]; [done|done|].
      destruct (binary op a b) as [r|]; [|done]. cbn [mbind res_bind].
      replace (Z.of_nat (length front)) with (Z.of_nat (length (front ++ [a])) - 1) by (rewrite length_app; simpl; lia).
      rewrite (snoc_app front a (r :: st)). apply IH. rewrite length_app. simpl. lia.
Qed.

Lemma token_threaded_rep p stack : Forall instruction_ok p -> length stack = S (length p) ->
  token_threaded (map encode p ++ [END]) stack = (st ← run_machine false p []; of_option EBounds (head st)).
Proof.
  intros Hp Hs. unfold token_threaded. rewrite length_app, length_map. simpl length.
  replace (Z.of_nat (length p + 1) - 1) with (Z.of_nat (length stack) - 1) by lia.
  rewrite <-(app_nil_r stack) at 2. rewrite token_run_rep by (done || lia).
  destruct (run_machine false p []) as [st|]; [|done]. by destruct st.
Qed.

(** a stack that grows upwards *)
Lemma switch_step_rep order ndebug i st back : order <> Unsequenced -> instruction_ok i -> back <> [] ->
  Z.of_nat (length st + length back) < 2 ^ 64 ->
  match machine_step (swapped order) i st with
  | Ok st' => exists back', length st' + length back' = length st + length back /\
      length back <= S (length back') /\
      switch_step order ndebug (encode i) (Z.of_nat (length st)) (reverse st ++ back) =
      Ok (Z.of_nat (length st'), reverse st' ++ back')
  | Err e => switch_step order ndebug (encode i) (Z.of_nat (length st)) (reverse st ++ back) = Err e
  end%nat.
Proof.
  intros Ho Hi Hback Hb. unfold switch_step. rewrite decode_encode by done. rewrite (bool_decide_false (order = _)) by done.
  destruct i as [z|op]; cbn [machine_step].
  - destruct (encode_fields (Push z) Hi) as [_ E]. rewrite (E z eq_refl).
    destruct back as [|x back]; [done|]. exists back. simpl in *. split_and!; [lia|lia|].
    replace (Z.of_nat (length st)) with (Z.of_nat (length (reverse st))) by (by rewrite length_reverse).
    rewrite wr_app. cbn [mbind res_bind]. rewrite reverse_cons, <-(assoc_L (++)), length_reverse.
    rewrite wrapu_id by (unfold inu; lia). do 2 f_equal. lia.
  - set (body := match op with OP_LITERAL => _ | OP_END => _ | _ => _ end).
    assert (body = (let sp := u64 (Z.of_nat (length st) - 1) in
      x ← rd (reverse st ++ back) sp; let sp := u64 (sp - 1) in y ← rd (reverse st ++ back) sp;
      result ← (if swapped order then binary op y x else binary op x y);
      stack ← wr (reverse st ++ back) sp result; Ok (u64 (sp + 1), stack))) as ->
      by (unfold body; destruct Hi; by destruct op).
    cbv zeta. assert (u64 (-1) = 2 ^ 64 - 1) as Em by done. destruct st as [|a [|b st]].
    + simpl length in *. change (Z.of_nat 0 - 1) with (-1). rewrite Em, (rd_bounds _ (2 ^ 64 - 1)); [done|]. simpl in *. lia.
    + simpl length in *. change (Z.of_nat 1 - 1) with 0. rewrite (wrapu_id 64 0) by done.
      change (0 - 1) with (-1). rewrite Em. change (rd (reverse [a] ++ back) 0) with (Ok a).
      cbn [mbind res_bind]. rewrite rd_bounds; [done|]. rewrite length_app. simpl in *. lia.
    + simpl length in *. rewrite !reverse_cons, <-!(assoc_L (++)). simpl app.
      rewrite (wrapu_id 64 (Z.of_nat (S (S (length st))) - 1)), (wrapu_id 64 (_ - 1)) by (unfold inu; lia).
      replace (Z.of_nat (S (S (length st))) - 1) with (Z.of_nat (length (reverse st)) + 1)
        by (rewrite length_reverse; lia).
      replace (Z.of_nat (length (reverse st)) + 1 - 1) with (Z.of_nat (length (reverse st))) by lia.
      pose proof (rd_app_r (reverse st) (b :: a :: back) 0 ltac:(lia)) as E0. rewrite Z.add_0_r in E0.
      rewrite rd_app_r, E0 by lia. simpl rd. cbn [mbind res_bind].
      destruct (swapped order); simpl; destruct (binary op _ _) as [r|]; try done; cbn [mbind res_bind];
        rewrite wr_app; cbn [mbind res_bind]; exists (a :: back); (split_and!; [simpl; lia|simpl; lia|]);
        rewrite length_reverse, wrapu_id by (unfold inu; lia); rewrite reverse_cons, <-(assoc_L (++));
        do 2 f_equal; simpl; lia.
Qed.

Lemma switch_loop_rep order ndebug p i0 st back : order <> Unsequenced -> Forall instruction_ok p ->
  (length p <= length back)%nat -> Z.of_nat (length st + length back) < 2 ^ 64 ->
  0 <= i0 -> i0 + Z.of_nat (length p) < 2 ^ 31 ->
  exists back',
  switch_loop order ndebug (map encode p) i0 (Z.of_nat (length st)) (reverse st ++ back) =
  (st ← run_machine (swapped order) p st; Ok (reverse st ++ back')).
Proof.
  intros Hord Hp. revert i0 st back.
  induction Hp as [|i p Hi Hp IH]; intros i0 st back Hl Hb Hi0 Hn; [by exists back|].
  simpl in Hl, Hn. cbn [map switch_loop run_machine].
  pose proof (switch_step_rep order ndebug i st back Hord Hi) as Hs.
  destruct (machine_step _ i st) as [st'|e].
  - destruct Hs as (back1 & L1 & L2 & ->); [intros ->; simpl in Hl; lia|done|]. cbn [mbind res_bind].
    rewrite checked_Ok by (unfold ins; lia). cbn [mbind res_bind]. apply IH; lia.
  - rewrite Hs; [by exists []|intros ->; simpl in Hl; lia|done].
Qed.

Lemma step_length swap i st st' : machine_step swap i st = Ok st' -> st' <> [].
Proof.
  destruct i as [z|op]; simpl; [by intros [= <-]|]. destruct st as [|a [|b st]]; try done.
  destruct (if swap then _ else _); [|done]. by intros [= <-].
Qed.

Lemma run_nonempty swap p st st' : run_machine swap p st = Ok st' -> p <> [] \/ st <> [] -> st' <> [].
Proof.
  revert st. induction p as [|i p IH]; simpl; intros st; [by intros [= <-] [|]|].
  destruct (machine_step swap i st) as [st1|] eqn:E; [|done]. intros Hr _.
  apply (IH st1 Hr). right. by eapply step_length.
Qed.

(** where the operands are unsequenced no operation is defined *)
Lemma switch_loop_undefined ndebug p i0 st back : Forall instruction_ok p -> (exists op, Op op ∈ p) ->
  (length p <= length back)%nat -> Z.of_nat (length st + length back) < 2 ^ 64 ->
  0 <= i0 -> i0 + Z.of_nat (length p) < 2 ^ 31 ->
  switch_loop Unsequenced ndebug (map encode p) i0 (Z.of_nat (length st)) (reverse st ++ back) = Err EUndef.
Proof.
  intros Hp [op Hop]. revert i0 st back.
  induction Hp as [|i p Hi Hp IH]; intros i0 st back Hl Hb Hi0 Hn; [by apply elem_of_nil in Hop|].
  simpl in Hl, Hn. cbn [map switch_loop]. unfold switch_step. rewrite decode_encode by done. destruct i as [z|op'].
  2: { rewrite (bool_decide_true (Unsequenced = _)) by done. destruct Hi. by destruct op'. }
  apply elem_of_cons in Hop as [|Hop]; [done|]. destruct (encode_fields (Push z) Hi) as [_ E]. rewrite (E z eq_refl).
  destruct back as [|x back]; [simpl in Hl; lia|]. simpl in Hl, Hb.
  replace (Z.of_nat (length st)) with (Z.of_nat (length (reverse st))) by (by rewrite length_reverse).
  rewrite wr_app. cbn [mbind res_bind]. rewrite checked_Ok by (unfold ins; lia). cbn [mbind res_bind].
  rewrite length_reverse, wrapu_id by (unfold inu; lia).
  replace (Z.of_nat (length st) + 1) with (Z.of_nat (length (z :: st))) by (simpl; lia).
  rewrite (snoc_app (reverse st) z back), <-reverse_cons. apply IH; simpl; done || lia.
Qed.

Lemma switch_dispatch_rep order ndebug p stack : order <> Unsequenced -> Forall instruction_ok p -> p <> [] ->
  (length p <= length stack)%nat -> Z.of_nat (length stack) < 2 ^ 64 -> Z.of_nat (length p) < 2 ^ 31 ->
  switch_dispatch order ndebug (map encode p) stack =
  (st ← run_machine (swapped order) p []; of_option EBounds (last st)).
Proof.
  intros Hord Hp Hne Hl Hs Hn. unfold switch_dispatch.
  destruct (switch_loop_rep order ndebug p 0 [] stack Hord Hp Hl Hs) as (back & E); [lia|lia|].
  change (Z.of_nat (length [])) with 0 in E. change (reverse [] ++ stack) with stack in E. rewrite E.
  destruct (run_machine _ p []) as [st|] eqn:Er; [|done]. cbn [mbind res_bind].
  assert (st <> []) as Hst by (eapply run_nonempty; [done|by left]).
  destruct st as [|x st _] using rev_ind; [done|]. by rewrite reverse_snoc, last_snoc.
Qed.

(** ** Addresses looked up in advance *)

(** the byte is an index of the table *)
Definition instr_ok (instr : Z) : Prop := 0 <= Z.shiftr instr 24 < 7.

Definition target_of (instr : Z) : opcode :=
  default OP_END (dispatch_table !! Z.to_nat (Z.shiftr instr 24)).

Definition literals (code : list Z) : list Z :=
  map literal_of (filter (fun i => Z.shiftr i 24 = 0) code).

Lemma table_target instr : instr_ok instr ->
  rd dispatch_table (Z.shiftr instr 24) = Ok (target_of instr) /\
  (target_of instr = OP_LITERAL <-> Z.shiftr instr 24 = 0).
Proof.
  unfold instr_ok, rd, target_of. intros Hi. destruct (Z.leb_spec 0 (Z.shiftr instr 24)); [|lia].
  generalize dependent (Z.shiftr instr 24). intros b Hb _.
  assert (b = 0 \/ b = 1 \/ b = 2 \/ b = 3 \/ b = 4 \/ b = 5 \/ b = 6) as Hc by lia.
  destruct Hc as [->|[->|[->|[->|[->|[->| ->]]]]]]; done.
Qed.

Lemma resolve_spec code done_t rest_t done_o rest_o : Forall instr_ok code ->
  length rest_t = length code -> (length (literals code) <= length rest_o)%nat ->
  (length done_o <= length done_t)%nat -> Z.of_nat (length done_t + length code) < 2 ^ 31 ->
  exists tail, resolve code (Z.of_nat (length done_t)) (Z.of_nat (length done_o))
      (done_o ++ rest_o) (done_t ++ rest_t) =
    Ok (done_o ++ literals code ++ tail, done_t ++ map (fun i => Some (target_of i)) code).
Proof.
  intros Hc. revert done_t rest_t done_o rest_o.
  induction Hc as [|i code Hi Hc IH]; intros done_t rest_t done_o rest_o Ht Ho Hle Hn.
  { apply nil_length_inv in Ht as ->. by exists rest_o. }
  destruct rest_t as [|t rest_t]; [done|]. injection Ht as Ht. simpl in Hn.
  cbn [resolve]. destruct (table_target i Hi) as [-> Hlit]. cbn [mbind res_bind]. rewrite wr_app.
  cbn [mbind res_bind].
  assert (length (done_t ++ [Some (target_of i)]) = S (length done_t)) as Hdt by (rewrite length_app; simpl; lia).
  rewrite checked_Ok by (unfold ins; lia). cbn [mbind res_bind].
  replace (Z.of_nat (length done_t) + 1) with (Z.of_nat (length (done_t ++ [Some (target_of i)]))) by lia.
  rewrite (snoc_app done_t _ rest_t). unfold literals in *.
  rewrite filter_cons in *. change (opcode_val OP_LITERAL) with 0.
  destruct (decide (Z.shiftr i 24 = 0)) as [E|E].
  - rewrite E. simpl Z.eqb. cbv iota. destruct rest_o as [|o rest_o]; [simpl in Ho; lia|]. simpl in Ho.
    rewrite wr_app. cbn [mbind res_bind]. rewrite wrapu_id by (unfold inu; lia).
    assert (length (done_o ++ [literal_of i]) = S (length done_o)) as Hdo by (rewrite length_app; simpl; lia).
    replace (Z.of_nat (length done_o) + 1) with (Z.of_nat (length (done_o ++ [literal_of i]))) by lia.
    rewrite (snoc_app done_o _ rest_o).
    destruct (IH (done_t ++ [Some (target_of i)]) rest_t (done_o ++ [literal_of i]) rest_o) as (tail & ->);
      [done|lia|lia|lia|]. exists tail. simpl. by rewrite <-!(assoc_L (++)).
  - destruct (Z.eqb_spec (Z.shiftr i 24) 0); [done|].
    destruct (IH (done_t ++ [Some (target_of i)]) rest_t done_o rest_o) as (tail & ->); [done|done|lia|lia|].
    exists tail. simpl. by rewrite <-!(assoc_L (++)).
Qed.

Lemma direct_run_token code done_o tail sp stack : Forall instr_ok code ->
  Z.of_nat (length done_o + length code) < 2 ^ 31 ->
  direct_run (map (fun i => Some (target_of i)) code) (done_o ++ literals code ++ tail)
    (Z.of_nat (length done_o)) sp stack = token_run code sp stack.
Proof.
  intros Hc. revert done_o sp stack.
  induction Hc as [|i code Hi Hc IH]; intros done_o sp stack Hn; [done|]. simpl in Hn.
  cbn [map direct_run token_run]. destruct (table_target i Hi) as [-> Hlit]. cbn [mbind res_bind].
  unfold literals in *. rewrite filter_cons. destruct (decide (Z.shiftr i 24 = 0)) as [E|E].
  - rewrite (proj2 Hlit E). simpl. rewrite <-(Z.add_0_r (Z.of_nat (length done_o))) at 1.
    rewrite rd_app_r by lia. rewrite rd_0. cbn [mbind res_bind].
    destruct (wr stack sp (literal_of i)) as [stack'|]; [|done]. cbn [mbind res_bind].
    rewrite wrapu_id by (unfold inu; lia).
    rewrite <-(IH (done_o ++ [literal_of i])), <-(assoc_L (++)) by (rewrite length_app; simpl; lia).
    f_equal. rewrite length_app. simpl. lia.
  - destruct (target_of i); try done; try tauto;
      (destruct (threaded_op _ sp stack) as [[sp' stack']|]; [|done]); cbn [mbind res_bind]; apply IH; lia.
Qed.

Lemma direct_token code stack operands targets : Forall instr_ok code ->
  length targets = length code -> (length (literals code) <= length operands)%nat ->
  Z.of_nat (length code) < 2 ^ 31 ->
  direct_threaded code stack operands targets = token_threaded code stack.
Proof.
  intros Hc Ht Ho Hn. unfold direct_threaded, token_threaded.
  destruct (resolve_spec code [] targets [] operands Hc Ht Ho) as (tail & E); [simpl; lia|simpl; lia|].
  change (Z.of_nat (length [])) with 0 in E. simpl app in E. rewrite E.
  cbn [mbind res_bind]. apply (direct_run_token code [] tail); [done|simpl; lia].
Qed.

(** ** Expressions *)

Inductive expr := Lit (z : Z) | Bin (op : opcode) (lhs rhs : expr).

Fixpoint expr_ok (e : expr) : Prop :=
  match e with
  | Lit z => 0 <= z < 2 ^ 24
  | Bin op lhs rhs => is_binary op /\ expr_ok lhs /\ expr_ok rhs
  end.

(** the right operand first, as the operand on top of the stack is the left one *)
Fixpoint compile (e : expr) : list instruction :=
  match e with
  | Lit z => [Push z]
  | Bin op lhs rhs => compile rhs ++ compile lhs ++ [Op op]
  end.

Fixpoint eval (e : expr) : res Z :=
  match e with
  | Lit z => Ok z
  | Bin op lhs rhs => y ← eval rhs; x ← eval lhs; binary op x y
  end.

Lemma run_app swap p q st : run_machine swap (p ++ q) st = (st ← run_machine swap p st; run_machine swap q st).
Proof.
  revert st. induction p as [|i p IH]; intros st; [done|]. simpl. destruct (machine_step swap i st); [|done]. apply IH.
Qed.

Lemma run_compile e st : run_machine false (compile e) st = (v ← eval e; Ok (v :: st)).
Proof.
  revert st. induction e as [z|op lhs IHl rhs IHr]; intros st; [done|]. simpl compile.
  rewrite !run_app, IHr. simpl. destruct (eval rhs) as [y|]; [|done]. cbn [mbind res_bind].
  rewrite run_app, IHl. destruct (eval lhs) as [x|]; [|done]. cbn [mbind res_bind]. simpl.
  by destruct (binary op x y).
Qed.

Lemma compile_ok e : expr_ok e -> Forall instruction_ok (compile e) /\ compile e <> [].
Proof.
  induction e as [z|op lhs IHl rhs IHr]; simpl.
  - intros Hz. split; [constructor; [exact Hz|constructor]|done].
  - intros (Hop & Hl & Hr). destruct (IHl Hl) as [Fl _], (IHr Hr) as [Fr Nr]. split.
    + apply Forall_app. split; [done|]. apply Forall_app. split; [done|].
      constructor; [exact Hop|constructor].
    + by destruct (compile rhs).
Qed.

Lemma encoded_ok p : Forall instruction_ok p -> Forall instr_ok (map encode p ++ [END]).
Proof.
  intros Hp. apply Forall_app. split; [|by repeat constructor].
  apply Forall_map. eapply Forall_impl; [done|]. intros i Hi. unfold instr_ok.
  destruct (encode_fields i Hi) as [E _]. simpl. rewrite E. by destruct i as [|[]].
Qed.

(** ** Types

    The type of a stack is its depth, with [int32_t] values. *)

(** the depth after a program, [None] when it takes more than there is *)
Fixpoint depth_after (p : list instruction) (n : nat) : option nat :=
  match p, n with
  | [], _ => Some n
  | Push _ :: p, _ => depth_after p (S n)
  | Op _ :: p, S (S n) => depth_after p (S n)
  | Op _ :: _, _ => None
  end.

Definition stack_typed (n : nat) (st : list Z) : Prop := length st = n /\ Forall (ins 32) st.

(** a result of the type [P], or an arithmetic error *)
Definition typed_result {A} (P : A -> Prop) (r : res A) : Prop :=
  match r with Ok a => P a | Err e => e = EOverflow \/ e = EDivZero end.

Lemma checked_typed z : typed_result (ins 32) (checked 32 z).
Proof. unfold checked. case_bool_decide; simpl; [done|by left]. Qed.

Lemma binary_typed op a b : is_binary op -> ins 32 a -> ins 32 b -> typed_result (ins 32) (binary op a b).
Proof.
  intros [H1 H2] Ha Hb. destruct op; simpl; try done; try apply checked_typed.
  - destruct (b =? 0); [by right|]. apply checked_typed.
  - destruct (Z.eqb_spec b 0); [by right|]. pose proof (checked_typed (Z.quot a b)) as Hq.
    destruct (checked 32 (Z.quot a b)); [|done]. simpl. unfold ins in *.
    pose proof (Z.rem_bound_abs a b ltac:(done)). lia.
Qed.

Lemma run_typed swap p n m st : Forall instruction_ok p -> depth_after p n = Some m -> stack_typed n st ->
  typed_result (stack_typed m) (run_machine swap p st).
Proof.
  intros Hp. revert n st. induction Hp as [|i p Hi Hp IH]; intros n st Hd [Hl Hs]; simpl in *.
  { by injection Hd as <-. }
  destruct i as [z|op]; simpl.
  - apply (IH (S n)); [done|]. split; [simpl; lia|]. constructor; [|done]. unfold ins. simpl in Hi. lia.
  - destruct n as [|[|n]]; try done. destruct st as [|a [|b st]]; try done.
    apply Forall_cons in Hs as [Ha Hs]. apply Forall_cons in Hs as [Hb Hs].
    assert (typed_result (ins 32) (if swap then binary op b a else binary op a b)) as Hr
      by (destruct swap; by apply binary_typed).
    destruct (if swap then _ else _) as [r|e]; [|done]. apply (IH (S n)); [done|].
    split; [simpl in *; lia|]. by constructor.
Qed.

(** ** Theorems *)

(** C24: what the interpreters compute, in terms of a machine with a list as its
    stack, errors included, for programs of fewer than [2^31 - 1] instructions
    (the loops count with an [int]). The two threaded interpreters, with arrays
    of one element per instruction, run the machine and give the top of its
    stack; they agree on any code whose opcodes are in the table. The switch is
    undefined by the language for every program with an operation. With a
    compiler that orders the operands it gives the bottom of the stack, of the
    same machine when the left operand comes first and of the machine with
    exchanged operands when the right one does. *)
Theorem interpreters_refine p stack operands targets code ndebug :
  Forall instruction_ok p -> p <> [] -> length stack = S (length p) -> Z.of_nat (length stack) < 2 ^ 31 ->
  Forall instr_ok code -> length targets = length code -> (length code <= length operands)%nat ->
  Z.of_nat (length code) < 2 ^ 31 ->
  token_threaded (map encode p ++ [END]) stack = (st ← run_machine false p []; of_option EBounds (head st)) /\
  ((exists op, Op op ∈ p) -> switch_dispatch Unsequenced ndebug (map encode p) stack = Err EUndef) /\
  (forall order, order <> Unsequenced -> switch_dispatch order ndebug (map encode p) stack =
    (st ← run_machine (swapped order) p []; of_option EBounds (last st))) /\
  direct_threaded code stack operands targets = token_threaded code stack.
Proof.
  intros Hp Hne Hs Hb Hc Ht Ho Hn. split_and!.
  - by apply token_threaded_rep.
  - intros Hop. unfold switch_dispatch.
    pose proof (switch_loop_undefined ndebug p 0 [] stack Hp Hop ltac:(lia) ltac:(simpl; lia) ltac:(lia) ltac:(lia)) as E.
    change (Z.of_nat (length [])) with 0 in E. change (reverse [] ++ stack) with stack in E. by rewrite E.
  - intros order Hord. apply switch_dispatch_rep; done || lia.
  - apply direct_token; [done|done| |done]. unfold literals. rewrite length_map.
    pose proof (length_filter (fun i => Z.shiftr i 24 = 0) code). lia.
Qed.

Lemma interpreters_refine_witness :
  let p := [Push 2; Push 10; Op OP_SUB] in
  token_threaded (map encode p ++ [END]) [0; 0; 0; 0] = Ok 8 /\
  switch_dispatch LeftFirst true (map encode p) [0; 0; 0; 0] = Ok 8 /\
  switch_dispatch RightFirst true (map encode p) [0; 0; 0; 0] = Ok (-8) /\
  switch_dispatch Unsequenced true (map encode p) [0; 0; 0; 0] = Err EUndef /\
  direct_threaded [END] [0; 0; 0; 0] [0] [None] = Ok 0.
Proof.
  assert (is_binary OP_SUB) as Hop by (split; discriminate).
  destruct (interpreters_refine [Push 2; Push 10; Op OP_SUB] [0; 0; 0; 0] [0] [None] [END] true)
    as (E1 & E2 & E3 & E4).
  - constructor; [split; [discriminate|reflexivity]|]. constructor; [split; [discriminate|reflexivity]|].
    constructor; [exact Hop|constructor].
  - discriminate.
  - reflexivity.
  - reflexivity.
  - constructor; [split; [discriminate|reflexivity]|constructor].
  - reflexivity.
  - simpl. lia.
  - reflexivity.
  - split; [exact E1|]. split; [apply (E3 LeftFirst); discriminate|]. split; [apply (E3 RightFirst); discriminate|].
    split; [|exact E4]. apply E2. exists OP_SUB. apply list_elem_of_In. simpl. tauto.
Defined.

(** C16: type soundness. A program that never takes more from the stack than it
    has put there and leaves something runs in all three interpreters, with
    arrays of one element per instruction and fewer than [2^31 - 1]
    instructions, to an [int32_t]; the only errors are those of the arithmetic,
    overflow and division by zero: no access is out of range, no operand missing
    and no assertion violated. The switch does so with a compiler that orders
    its two unsequenced decrements either way. *)
Theorem interpreters_typed p n stack operands targets order ndebug :
  Forall instruction_ok p -> depth_after p 0 = Some (S n) ->
  length stack = S (length p) -> Z.of_nat (length stack) < 2 ^ 31 ->
  length targets = S (length p) -> (S (length p) <= length operands)%nat ->
  order <> Unsequenced ->
  let code := map encode p ++ [END] in
  typed_result (ins 32) (token_threaded code stack) /\
  typed_result (ins 32) (direct_threaded code stack operands targets) /\
  typed_result (ins 32) (switch_dispatch order ndebug (map encode p) stack).
Proof.
  intros Hp Hd Hs Hb Ht Ho Hord code.
  assert (stack_typed 0 []) as H0 by done.
  assert (typed_result (ins 32) (token_threaded code stack)) as Htok.
  { unfold code. rewrite token_threaded_rep by done. pose proof (run_typed false p 0 (S n) [] Hp Hd H0) as Hr.
    destruct (run_machine false p []) as [st|e]; [|done]. destruct Hr as [Hl Hst].
    destruct st as [|v st]; [done|]. by apply Forall_cons in Hst as [? _]. }
  split_and!; [done| |].
  - rewrite direct_token; [done|by apply encoded_ok|unfold code; rewrite length_app, length_map; simpl; lia| |
      unfold code; rewrite length_app, length_map; simpl; lia].
    unfold literals. rewrite length_map. pose proof (length_filter (fun i => Z.shiftr i 24 = 0) code) as Hf.
    unfold code in Hf at 2. rewrite length_app, length_map in Hf. simpl in Hf. lia.
  - rewrite switch_dispatch_rep; [|done|done|by intros ->|lia|lia|lia].
    pose proof (run_typed (swapped order) p 0 (S n) [] Hp Hd H0) as Hr.
    destruct (run_machine (swapped order) p []) as [st|e]; [|done]. destruct Hr as [Hl Hst].
    destruct st as [|v st _] using rev_ind; [done|]. simpl. rewrite last_snoc. simpl.
    apply Forall_app in Hst as [_ Hst]. by apply Forall_cons in Hst as [? _].
Qed.

Lemma interpreters_typed_witness :
  let p := [Push 3; Push 0; Push 7; Op OP_SUB; Op OP_DIV] in
  token_threaded (map encode p ++ [END]) (replicate 6 0) = Ok 2 /\
  typed_result (ins 32) (token_threaded (map encode p ++ [END]) (replicate 6 0)).
Proof.
  assert (is_binary OP_SUB /\ is_binary OP_DIV) as [H1 H2] by (split; split; discriminate).
  split; [reflexivity|].
  apply (interpreters_typed [Push 3; Push 0; Push 7; Op OP_SUB; Op OP_DIV] 0 (replicate 6 0) (replicate 6 0)
    (replicate 6 None) LeftFirst true); [|reflexivity|reflexivity|reflexivity|reflexivity|simpl; lia|discriminate].
  repeat (constructor; [first [exact H1|exact H2|split; [discriminate|reflexivity]]|]). constructor.
Defined.

(** Compiled to postfix order, right operand first, an expression over
    24-bit literals is evaluated by all three interpreters to its value, or
    to the error its evaluation runs into, such as a division by zero or an
    overflow; the switch does so with a compiler that evaluates the left operand first. *)
Theorem interpreters_eval e stack operands targets ndebug : expr_ok e ->
  let code := map encode (compile e) ++ [END] in
  length stack = length code -> Z.of_nat (length stack) < 2 ^ 31 ->
  length targets = length code -> (length code <= length operands)%nat ->
  switch_dispatch LeftFirst ndebug (map encode (compile e)) stack = eval e /\
  token_threaded code stack = eval e /\ direct_threaded code stack operands targets = eval e.
Proof.
  intros He code Hs Hb Ht Ho. destruct (compile_ok e He) as [Hok Hne].
  assert (token_threaded code stack = eval e) as Etok.
  { unfold code in *. rewrite length_app, length_map in Hs. simpl in Hs.
    rewrite token_threaded_rep, run_compile by (done || lia). by destruct (eval e). }
  split_and!; [|done|].
  - rewrite switch_dispatch_rep; [|done|done|done| |lia|].
    + change (swapped LeftFirst) with false. rewrite run_compile. by destruct (eval e).
    + unfold code in Hs. rewrite length_app, length_map in Hs. lia.
    + unfold code in Hs. rewrite length_app, length_map in Hs. lia.
  - rewrite direct_token; [done|by apply encoded_ok|done| |lia]. unfold literals. rewrite length_map.
    pose proof (length_filter (fun i => Z.shiftr i 24 = 0) code). lia.
Qed.

(** (100 - 2 * 3) % 7, and 1 / (2 - 2) *)
Lemma interpreters_eval_witness :
  let e := Bin OP_MOD (Bin OP_SUB (Lit 100) (Bin OP_MUL (Lit 2) (Lit 3))) (Lit 7) in
  let z := Bin OP_DIV (Lit 1) (Bin OP_SUB (Lit 2) (Lit 2)) in
  token_threaded (map encode (compile e) ++ [END]) (replicate 8 0) = Ok 3 /\
  direct_threaded (map encode (compile z) ++ [END]) (replicate 6 0) (replicate 6 0) (replicate 6 None) =
  Err EDivZero.
Proof.
  assert (is_binary OP_MOD /\ is_binary OP_SUB /\ is_binary OP_MUL /\ is_binary OP_DIV) as (H1 & H2 & H3 & H4)
    by (split; [|split; [|split]]; split; discriminate).
  split.
  - refine (proj1 (proj2 (interpreters_eval (Bin OP_MOD (Bin OP_SUB (Lit 100) (Bin OP_MUL (Lit 2) (Lit 3))) (Lit 7))
      (replicate 8 0) (replicate 8 0) (replicate 8 None) false _ _ _ _ _))).
    + simpl. repeat split; try assumption; try discriminate; try apply H1; try apply H2; try apply H3; lia.
    + reflexivity.
    + reflexivity.
    + reflexivity.
    + simpl. lia.
  - refine (proj2 (proj2 (interpreters_eval (Bin OP_DIV (Lit 1) (Bin OP_SUB (Lit 2) (Lit 2)))
      (replicate 6 0) (replicate 6 0) (replicate 6 None) false _ _ _ _ _))).
    + simpl. repeat split; try assumption; try discriminate; try apply H1; try apply H2; try apply H4; lia.
    + reflexivity.
    + reflexivity.
    + reflexivity.
    + simpl. lia.
Defined.
