(* ===== verification/SeqMutex.v ===== *)
(** * The sequencing mutex: src/include/sequential_mutex.h

    [seq_mutex] makes threads enter their critical sections in a fixed order:
    [_timing] lists the thread of each section. A thread waits on a condition
    variable until its number is the next one; [unlock] moves on and notifies
    all. Every method holds the internal mutex, so it is one atomic step,
    except that a wait ends it and the check after the wait is another one.

    [sys_step] is the system of several threads that each lock and unlock a
    number of times; a wait may also end without a notification. *)

From S2P Require Import Prelude.

(** ** The methods *)

Record seq_mutex := mkSeq { timing : list nat; timing_idx : nat }.

Definition seq_mutex_new (l : list nat) : seq_mutex := mkSeq l 0.

(** [assert(_timing_idx < _timing.size())] *)
Definition in_timing (m : seq_mutex) : bool := (timing_idx m <? length (timing m))%nat.

(** [_timing[_timing_idx] == get_thread_id()] *)
Definition is_turn (m : seq_mutex) (tid : nat) : res bool :=
  t ← of_option EBounds (timing m !! timing_idx m); Ok (t =? tid)%nat.

(** [lock] up to the first wait: does the thread have the lock? *)
Definition lock (m : seq_mutex) (tid : nat) : res bool :=
  if in_timing m then is_turn m tid else Err ECheck.

(** the loop condition after a wait *)
Definition lock_recheck (m : seq_mutex) (tid : nat) : res bool := is_turn m tid.

Definition try_lock (m : seq_mutex) (tid : nat) : res bool :=
  if in_timing m then is_turn m tid else Err ECheck.

(** the new state, and whether all waiting threads are notified *)
Definition unlock (m : seq_mutex) (tid : nat) : res (seq_mutex * bool) :=
  if in_timing m then
    turn ← is_turn m tid;
    Ok (if (turn : bool) then (mkSeq (timing m) (S (timing_idx m)), true) else (m, false))
  else Err ECheck.

Definition lock_shared (m : seq_mutex) (tid : nat) : res bool := lock m tid.
Definition try_lock_shared (m : seq_mutex) (tid : nat) : res bool := try_lock m tid.
Definition unlock_shared (m : seq_mutex) (tid : nat) : res (seq_mutex * bool) := unlock m tid.

(** ** Threads *)

Inductive phase := Idle | Waiting | Notified | Holding.

#[global] Instance phase_eq_dec : EqDecision phase.
Proof. solve_decision. Defined.

(** a thread: where it is, and how many sections it still has to enter *)
Record thread := mkThread { th_phase : phase; th_rounds : nat }.

Definition notify (th : thread) : thread :=
  match th_phase th with Waiting => mkThread Notified (th_rounds th) | _ => th end.

Record sys := mkSys {
  s_mutex : seq_mutex;
  s_threads : list thread;       (* by thread number *)
  s_acquired : list nat          (* the threads that got the lock, in order *)
}.

Inductive action := ALock | ARecheck | AUnlock | AWake.

Definition entered (s : sys) (tid : nat) (n : nat) (got : bool) : sys :=
  if got then mkSys (s_mutex s) (<[tid := mkThread Holding n]> (s_threads s)) (s_acquired s ++ [tid])
  else mkSys (s_mutex s) (<[tid := mkThread Waiting n]> (s_threads s)) (s_acquired s).

(** one step of thread [tid]; [None] when the action is not its next one *)
Definition sys_step (s : sys) (tid : nat) (a : action) : option (res sys) :=
  th ← s_threads s !! tid;
  match a, th_phase th, th_rounds th with
  | ALock, Idle, S n => Some (got ← lock (s_mutex s) tid; Ok (entered s tid n got))
  | ARecheck, Notified, n => Some (got ← lock_recheck (s_mutex s) tid; Ok (entered s tid n got))
  | AUnlock, Holding, n =>
      Some ('(m, notified) ← unlock (s_mutex s) tid;
            let ths := <[tid := mkThread Idle n]> (s_threads s) in
            Ok (mkSys m (if (notified : bool) then notify <$> ths else ths) (s_acquired s)))
  | AWake, Waiting, n =>
      Some (Ok (mkSys (s_mutex s) (<[tid := mkThread Notified n]> (s_threads s)) (s_acquired s)))
  | _, _, _ => None
  end.

(** ** Runs *)

Definition count (tid : nat) (l : list nat) : nat := length (filter (fun t => t = tid) l).

(** [k] threads, each with as many sections as [l] gives it *)
Definition init (l : list nat) (k : nat) : sys :=
  mkSys (seq_mutex_new l) (map (fun tid => mkThread Idle (count tid l)) (seq 0 k)) [].

(** a run without failures, with [n] actions of the threads and [w] spurious
    wake-ups *)
Inductive steps : sys -> nat -> nat -> sys -> Prop :=
| steps_refl s : steps s 0 0 s
| steps_act s n w s' tid a s'' : steps s n w s' -> a <> AWake ->
    sys_step s' tid a = Some (Ok s'') -> steps s (S n) w s''
| steps_wake s n w s' tid s'' : steps s n w s' ->
    sys_step s' tid AWake = Some (Ok s'') -> steps s n (S w) s''.

(** ** The invariant *)

(** the sections that are left for a thread, the one it waits for or is in included *)
Definition pending (th : thread) : nat :=
  th_rounds th + (if th_phase th is Idle then 0 else 1).

Record inv (l : list nat) (s : sys) : Prop := {
  inv_timing : timing (s_mutex s) = l;
  inv_idx : (timing_idx (s_mutex s) <= length l)%nat;
  inv_pending tid th : s_threads s !! tid = Some th ->
    pending th = count tid (drop (timing_idx (s_mutex s)) l);
  inv_waiting tid th : s_threads s !! tid = Some th -> th_phase th = Waiting ->
    l !! timing_idx (s_mutex s) <> Some tid;
  inv_holding tid th : s_threads s !! tid = Some th -> th_phase th = Holding ->
    l !! timing_idx (s_mutex s) = Some tid /\ s_acquired s = take (S (timing_idx (s_mutex s))) l;
  inv_free : (forall tid th, s_threads s !! tid = Some th -> th_phase th <> Holding) ->
    s_acquired s = take (timing_idx (s_mutex s)) l
}.

Section invariant.
Context (l : list nat).
Implicit Types s : sys.

Lemma is_turn_spec s tid : inv l s -> (timing_idx (s_mutex s) < length l)%nat ->
  exists t, l !! timing_idx (s_mutex s) = Some t /\ is_turn (s_mutex s) tid = Ok (t =? tid)%nat.
Proof.
  intros I Hi. apply lookup_lt_is_Some in Hi as [t Et]. exists t. split; [done|].
  unfold is_turn. rewrite (inv_timing _ _ I). by rewrite Et.
Qed.

(** a thread with a section left finds the timing not exhausted *)
Lemma pending_idx s tid th : inv l s -> s_threads s !! tid = Some th -> pending th <> 0%nat ->
  (timing_idx (s_mutex s) < length l)%nat.
Proof.
  intros I E Hp. rewrite (inv_pending _ _ I _ _ E) in Hp.
  destruct (decide (timing_idx (s_mutex s) < length l)%nat); [done|]. by rewrite drop_ge in Hp by lia.
Qed.

(** entering, or waiting for, the section that was pending *)
Lemma entered_inv s tid th n t : inv l s -> s_threads s !! tid = Some th ->
  th_phase th <> Holding -> pending th = S n -> l !! timing_idx (s_mutex s) = Some t ->
  inv l (entered s tid n (t =? tid)%nat).
Proof.
  intros I E Hh Hp Et.
  assert (forall tid' th', s_threads s !! tid' = Some th' -> th_phase th' = Holding -> t = tid' /\ tid <> tid') as Hone.
  { intros tid' th' E' H'. destruct (inv_holding _ _ I _ _ E' H') as [Et' _]. split; [congruence|].
    intros <-. congruence. }
  unfold entered. destruct (Nat.eqb_spec t tid) as [->|Hne]; constructor; simpl.
  1, 7: apply (inv_timing _ _ I).
  1, 6: apply (inv_idx _ _ I).
  - intros tid' th' [(-> & <- & _)|[_ E']]%list_lookup_insert_Some; [|by apply (inv_pending _ _ I)].
    rewrite <-(inv_pending _ _ I _ _ E). unfold pending at 1. simpl. lia.
  - intros tid' th' [(-> & <- & _)|[_ E']]%list_lookup_insert_Some; [done|by apply (inv_waiting _ _ I)].
  - assert (s_acquired s ++ [tid] = take (S (timing_idx (s_mutex s))) l) as Ea.
    { rewrite (inv_free _ _ I); [by rewrite (take_S_r _ _ _ Et)|]. intros tid' th' E' H'. naive_solver. }
    intros tid' th' [(-> & <- & _)|[_ E']]%list_lookup_insert_Some; [done|].
    intros H'. destruct (Hone _ _ E' H'). naive_solver.
  - intros Hf. exfalso. apply (Hf tid (mkThread Holding n)); [|done].
    apply list_lookup_insert_eq. by eapply lookup_lt_Some.
  - intros tid' th' [(-> & <- & _)|[_ E']]%list_lookup_insert_Some; [|by apply (inv_pending _ _ I)].
    rewrite <-(inv_pending _ _ I _ _ E). unfold pending at 1. simpl. lia.
  - intros tid' th' [(-> & <- & _)|[_ E']]%list_lookup_insert_Some; [congruence|by apply (inv_waiting _ _ I)].
  - intros tid' th' [(-> & <- & _)|[_ E']]%list_lookup_insert_Some; [done|by apply (inv_holding _ _ I)].
  - intros Hf. apply (inv_free _ _ I). intros tid' th' E' H'. destruct (Hone _ _ E' H') as [_ Hd].
    apply (Hf tid' th'); [|done]. by rewrite list_lookup_insert_ne.
Qed.

Lemma count_cons t tid k : count tid (t :: k) = ((if decide (t = tid) then 1 else 0) + count tid k)%nat.
Proof. unfold count. rewrite filter_cons. by destruct (decide (t = tid)). Qed.

Lemma unlock_inv s tid th : inv l s -> s_threads s !! tid = Some th -> th_phase th = Holding ->
  inv l (mkSys (mkSeq l (S (timing_idx (s_mutex s))))
               (notify <$> <[tid := mkThread Idle (th_rounds th)]> (s_threads s)) (s_acquired s)).
Proof.
  intros I E Hh. destruct (inv_holding _ _ I _ _ E Hh) as [Et Ea].
  assert (forall tid' th', (notify <$> <[tid := mkThread Idle (th_rounds th)]> (s_threads s)) !! tid' = Some th' ->
    th_phase th' <> Waiting /\ th_phase th' <> Holding /\
    pending th' = count tid' (drop (S (timing_idx (s_mutex s))) l)) as Hall.
  { intros tid' th' (th1 & -> & E1)%list_lookup_fmap_Some.
    pose proof (drop_S l tid (timing_idx (s_mutex s)) Et) as Ed.
    apply list_lookup_insert_Some in E1 as [(-> & <- & _)|[Hne E1]].
    - pose proof (inv_pending _ _ I _ _ E) as Hp. rewrite Ed, count_cons, decide_True in Hp by done.
      unfold pending in *. rewrite Hh in Hp. simpl. split_and!; [done|done|lia].
    - pose proof (inv_pending _ _ I _ _ E1) as Hp. rewrite Ed, count_cons, decide_False in Hp by done.
      assert (th_phase th1 <> Holding) as H1.
      { intros H1. destruct (inv_holding _ _ I _ _ E1 H1). congruence. }
      unfold notify, pending in *. destruct th1 as [[] n]; simpl in *; split_and!; done || lia. }
  apply lookup_lt_Some in Et. constructor; simpl; [done|lia|..]; naive_solver.
Qed.

(** ** Steps *)

(** how many actions a thread can take until the next [unlock] *)
Definition weight (th : thread) : nat :=
  match th_phase th with
  | Idle => if th_rounds th is O then 0 else 3
  | Notified => 2
  | Waiting | Holding => 1
  end.

Definition measure s : nat :=
  (length l - timing_idx (s_mutex s)) * (3 * length (s_threads s) + 1) + sum_list_with weight (s_threads s).

Lemma sum_insert (ts : list thread) i th th' : ts !! i = Some th ->
  (sum_list_with weight (<[i := th']> ts) + weight th = sum_list_with weight ts + weight th')%nat.
Proof.
  revert i. induction ts as [|t ts IH]; intros [|i] E; simpl in *; try done.
  - injection E as ->. lia.
  - specialize (IH i E). lia.
Qed.

Lemma sum_bound (ts : list thread) : (sum_list_with weight ts <= 3 * length ts)%nat.
Proof.
  induction ts as [|[p n] ts IH]; simpl; [lia|]. assert (weight (mkThread p n) <= 3)%nat by (unfold weight; destruct p, n; simpl; lia). lia.
Qed.

Lemma entered_measure s tid th n got : s_threads s !! tid = Some th -> (1 < weight th)%nat ->
  (measure (entered s tid n got) < measure s)%nat /\
  length (s_threads (entered s tid n got)) = length (s_threads s).
Proof.
  intros E Hw. unfold entered, measure.
  destruct got; cbn [s_mutex s_threads]; rewrite length_insert; (split; [|done]).
  - pose proof (sum_insert _ _ _ (mkThread Holding n) E) as Hs.
    change (weight (mkThread Holding n)) with 1%nat in Hs. lia.
  - pose proof (sum_insert _ _ _ (mkThread Waiting n) E) as Hs.
    change (weight (mkThread Waiting n)) with 1%nat in Hs. lia.
Qed.

Lemma sys_step_inv s tid a r : inv l s -> sys_step s tid a = Some r ->
  exists s', r = Ok s' /\ inv l s' /\ length (s_threads s') = length (s_threads s) /\
    (if a is AWake then measure s' = S (measure s) else measure s' < measure s)%nat.
Proof.
  intros I. unfold sys_step. destruct (s_threads s !! tid) as [[p n]|] eqn:E; [|done]. simpl.
  assert (forall p' n', mkThread p n = mkThread p' n' -> pending (mkThread p' n') <> 0%nat ->
    (timing_idx (s_mutex s) < length l)%nat) as Hidx.
  { intros p' n' Ep. rewrite <-Ep. by eapply pending_idx. }
  destruct a, p; simpl; try done.
  - destruct n as [|n]; [done|]. intros [= <-]. specialize (Hidx Idle (S n) eq_refl ltac:(done)).
    destruct (is_turn_spec s tid I Hidx) as (t & Et & Eturn). unfold lock, in_timing.
    rewrite (inv_timing _ _ I), Eturn. destruct (Nat.ltb_spec (timing_idx (s_mutex s)) (length l)); [|lia].
    eexists. split; [done|]. split;
      [apply (entered_inv s tid (mkThread Idle (S n))); try done; unfold pending; simpl; lia|].
    apply and_comm, (entered_measure s tid (mkThread Idle (S n))); [done|]. unfold weight. simpl. lia.
  - intros [= <-]. specialize (Hidx Notified n eq_refl ltac:(unfold pending; simpl; lia)).
    destruct (is_turn_spec s tid I Hidx) as (t & Et & Eturn). unfold lock_recheck. rewrite Eturn.
    eexists. split; [done|]. split;
      [apply (entered_inv s tid (mkThread Notified n)); try done; unfold pending; simpl; lia|].
    apply and_comm, (entered_measure s tid (mkThread Notified n)); [done|]. unfold weight. simpl. lia.
  - intros [= <-]. specialize (Hidx Holding n eq_refl ltac:(unfold pending; simpl; lia)).
    destruct (inv_holding _ _ I _ _ E eq_refl) as [Et _].
    destruct (is_turn_spec s tid I Hidx) as (t & Et' & Eturn). replace t with tid in * by congruence.
    unfold unlock, in_timing. rewrite Eturn, (inv_timing _ _ I), Nat.eqb_refl.
    destruct (Nat.ltb_spec (timing_idx (s_mutex s)) (length l)); [|lia].
    eexists. split; [done|]. split; [by apply (unlock_inv s tid (mkThread Holding n))|].
    unfold measure. cbn [s_mutex s_threads timing_idx]. rewrite length_fmap, length_insert. split; [done|].
    pose proof (sum_bound (notify <$> <[tid := mkThread Idle n]> (s_threads s))) as Hb.
    rewrite length_fmap, length_insert in Hb. nia.
  - intros [= <-]. eexists. split; [done|]. split; [|unfold measure; cbn [s_mutex s_threads]; rewrite length_insert].
    + constructor; simpl; try apply I.
      * intros tid' th' [(-> & <- & _)|[_ E']]%list_lookup_insert_Some; [|by apply (inv_pending _ _ I)].
        by rewrite <-(inv_pending _ _ I _ _ E).
      * intros tid' th' [(-> & <- & _)|[_ E']]%list_lookup_insert_Some; [done|by apply (inv_waiting _ _ I)].
      * intros tid' th' [(-> & <- & _)|[_ E']]%list_lookup_insert_Some; [done|by apply (inv_holding _ _ I)].
      * intros Hf. apply (inv_free _ _ I). intros tid' th' E' H'. apply (Hf tid' th'); [|done].
        rewrite list_lookup_insert_ne; [done|]. intros <-. rewrite E in E'. by injection E' as <-.
    + split; [done|]. pose proof (sum_insert _ _ _ (mkThread Notified n) E) as Hs.
      change (weight (mkThread Notified n)) with 2%nat in Hs.
      change (weight (mkThread Waiting n)) with 1%nat in Hs. lia.
Qed.
End invariant.

Lemma init_inv l k : inv l (init l k).
Proof.
  assert (forall tid th, s_threads (init l k) !! tid = Some th -> th = mkThread Idle (count tid l)) as Hth.
  { intros tid th E. unfold init in E. simpl in E.
    apply list_lookup_fmap_Some in E as (tid' & -> & [-> _]%lookup_seq). done. }
  constructor; simpl; [done|lia|..].
  - intros tid th ->%Hth. unfold pending. simpl. by rewrite Nat.add_0_r.
  - intros tid th ->%Hth. done.
  - intros tid th ->%Hth. done.
  - done.
Qed.

(** a run keeps the invariant, and its actions are bounded *)
Lemma steps_inv l s n w s' : inv l s -> steps s n w s' ->
  inv l s' /\ length (s_threads s') = length (s_threads s) /\ (n + measure l s' <= measure l s + w)%nat.
Proof.
  intros I Hs. induction Hs as [s|s n w s1 tid a s2 _ IH Ha E|s n w s1 tid s2 _ IH E]; [split_and!; [done|done|lia]|..];
    destruct (IH I) as (I1 & L1 & M1); destruct (sys_step_inv l _ _ _ _ I1 E) as (s3 & [= <-] & I2 & L2 & M2).
  - split_and!; [done|congruence|]. destruct a; try done; lia.
  - split_and!; [done|congruence|lia].
Qed.

(** the locks handed out so far *)
Lemma acquired_take l s : inv l s -> exists m, s_acquired s = take m l.
Proof.
  intros I. destruct (decide (Exists (fun th => th_phase th = Holding) (s_threads s))) as [H|H].
  - apply Exists_exists in H as (th & [tid E]%list_elem_of_lookup & H).
    destruct (inv_holding _ _ I _ _ E H) as [_ ->]. by eexists.
  - rewrite (inv_free _ _ I); [by eexists|]. intros tid th E Hh. apply H, Exists_exists.
    exists th. split; [by eapply list_elem_of_lookup_2|done].
Qed.

(** the thread whose turn it is never waits without a notification *)
Lemma next_can_act l s tid : inv l s -> l !! timing_idx (s_mutex s) = Some tid ->
  (tid < length (s_threads s))%nat -> exists a s', a <> AWake /\ sys_step s tid a = Some (Ok s').
Proof.
  intros I Et [th E]%lookup_lt_is_Some.
  assert (exists a r, a <> AWake /\ sys_step s tid a = Some r) as (a & r & Ha & Er).
  { pose proof (inv_pending _ _ I _ _ E) as Hp. rewrite (drop_S _ _ _ Et), count_cons, decide_True in Hp by done.
    unfold sys_step. rewrite E. destruct th as [[] m]; unfold pending in Hp; simpl in *.
    - destruct m; [lia|]. by exists ALock; eexists.
    - by destruct (inv_waiting _ _ I _ _ E eq_refl).
    - by exists ARecheck; eexists.
    - by exists AUnlock; eexists. }
  destruct (sys_step_inv l _ _ _ _ I Er) as (s' & -> & _). by exists a, s'.
Qed.

Lemma all_served l s : inv l s -> (length l <= timing_idx (s_mutex s))%nat ->
  s_acquired s = l /\ Forall (fun th => th = mkThread Idle 0) (s_threads s).
Proof.
  intros I Hi. assert (forall tid th, s_threads s !! tid = Some th -> th = mkThread Idle 0) as Hth.
  { intros tid th E. pose proof (inv_pending _ _ I _ _ E) as Hp. rewrite drop_ge in Hp by lia.
    destruct th as [[] m]; unfold pending, count in Hp; simpl in Hp; [f_equal|..]; lia. }
  split; [|by apply Forall_lookup].
  rewrite (inv_free _ _ I); [by apply take_ge|]. by intros tid th ->%Hth.
Qed.

(** ** Theorems *)

(** C25: threads that have as many sections as the timing gives them never
    fail an assertion or read past the timing; a thread in its section is the
    only one and it is the one whose turn it is, and the locks are handed out
    exactly in the order of the timing. *)
Theorem seq_mutex_order l k n w s : steps (init l k) n w s ->
  (forall tid a r, sys_step s tid a = Some r -> exists s', r = Ok s') /\
  (forall tid th, s_threads s !! tid = Some th -> th_phase th = Holding ->
     l !! timing_idx (s_mutex s) = Some tid /\
     forall tid' th', s_threads s !! tid' = Some th' -> th_phase th' = Holding -> tid' = tid) /\
  s_acquired s `prefix_of` l.
Proof.
  intros Hs. destruct (steps_inv l _ _ _ _ (init_inv l k) Hs) as (I & _ & _). split_and!.
  - intros tid a r E. destruct (sys_step_inv l _ _ _ _ I E) as (s' & -> & _). by exists s'.
  - intros tid th E H. destruct (inv_holding _ _ I _ _ E H) as [Et _]. split; [done|].
    intros tid' th' E' H'. destruct (inv_holding _ _ I _ _ E' H'). congruence.
  - destruct (acquired_take l s I) as [m ->]. exists (drop m l). by rewrite take_drop.
Qed.

(** thread 0 comes first and waits; thread 1 goes through; thread 0 is in its section *)
Definition demo : sys := mkSys (mkSeq [1; 0]%nat 1) [mkThread Holding 0; mkThread Idle 0] [1; 0]%nat.

Lemma demo_run : steps (init [1; 0]%nat 2) 4 0 demo.
Proof.
  eapply (steps_act _ _ _ _ 0%nat ARecheck);
    [eapply (steps_act _ _ _ _ 1%nat AUnlock);
    [eapply (steps_act _ _ _ _ 1%nat ALock);
    [eapply (steps_act _ _ _ _ 0%nat ALock);
    [apply steps_refl|discriminate|reflexivity]|discriminate|reflexivity]|discriminate|reflexivity]|discriminate|reflexivity].
Qed.

Lemma seq_mutex_order_witness :
  timing (s_mutex demo) !! timing_idx (s_mutex demo) = Some 0%nat /\ s_acquired demo `prefix_of` [1; 0]%nat.
Proof.
  destruct (seq_mutex_order [1; 0]%nat 2 4 0 demo demo_run) as (_ & H & Hp).
  split; [|exact Hp]. exact (proj1 (H 0%nat (mkThread Holding 0) eq_refl eq_refl)).
Defined.

(** C13: no wake-up is lost and all sections are entered. If every thread of
    the timing exists, then in each state of each run the thread whose turn
    it is can act, the number of actions is bounded by the length of the
    timing times the number of threads plus the spurious wake-ups, and when
    no thread can act the whole timing was served and every thread is done. *)
Theorem seq_mutex_live l k n w s : Forall (fun t => t < k)%nat l -> steps (init l k) n w s ->
  (n <= length l * (3 * k + 1) + 3 * k + w)%nat /\
  (forall tid, l !! timing_idx (s_mutex s) = Some tid ->
     exists a s', a <> AWake /\ sys_step s tid a = Some (Ok s')) /\
  ((forall tid a r, a <> AWake -> sys_step s tid a <> Some r) ->
     s_acquired s = l /\ Forall (fun th => th = mkThread Idle 0) (s_threads s)).
Proof.
  intros Hl Hs. destruct (steps_inv l _ _ _ _ (init_inv l k) Hs) as (I & L & M).
  assert (length (s_threads (init l k)) = k) as Lk by (simpl; by rewrite length_map, length_seq).
  assert (forall tid, l !! timing_idx (s_mutex s) = Some tid ->
     exists a s', a <> AWake /\ sys_step s tid a = Some (Ok s')) as Hprog.
  { intros tid Et. apply (next_can_act l); [done|done|].
    pose proof (proj1 (Forall_lookup _ _) Hl _ _ Et). simpl in *. lia. }
  split_and!; [|done|].
  - unfold measure in M. rewrite Lk in M. simpl timing_idx in M. rewrite Nat.sub_0_r in M.
    pose proof (sum_bound (s_threads (init l k))) as Hb. rewrite Lk in Hb. lia.
  - intros Hstuck. apply (all_served l s I). destruct (l !! timing_idx (s_mutex s)) as [tid|] eqn:Et.
    + destruct (Hprog tid eq_refl) as (a & s' & Ha & E). by destruct (Hstuck tid a (Ok s') Ha).
    + by apply lookup_ge_None.
Qed.

Lemma seq_mutex_live_witness :
  (4 <= 2 * (3 * 2 + 1) + 3 * 2 + 0)%nat /\ exists a s', a <> AWake /\ sys_step demo 0 a = Some (Ok s').
Proof.
  destruct (seq_mutex_live [1; 0]%nat 2 4 0 demo) as (Hb & Hn & _).
  - repeat constructor.
  - exact demo_run.
  - exact (conj Hb (Hn 0%nat eq_refl)).
Defined.

(** a thread that waits although the timing has no section for it reads past
    the end of the timing when the last section is left *)
Lemma seq_mutex_overrun :
  let s := mkSys (mkSeq [0]%nat 0) [mkThread Idle 1; mkThread Idle 1] [] in
  exists s', steps s 3 0 s' /\ sys_step s' 1 ARecheck = Some (Err EBounds).
Proof.
  eexists. split.
  - eapply (steps_act _ _ _ _ 0%nat AUnlock);
    [eapply (steps_act _ _ _ _ 0%nat ALock);
    [eapply (steps_act _ _ _ _ 1%nat ALock);
    [apply steps_refl|discriminate|reflexivity]|discriminate|reflexivity]|discriminate|reflexivity].
  - reflexivity.
Qed.
