(* ===== verification/GermanString.v ===== *)
(** * Strings with an inline prefix: src/include/german_string.h

    A [GermanString] is 16 bytes: a 32-bit length and 12 more that hold the
    string itself or, when it is longer, its first four bytes and the address
    of the others. [GermanStringExternalAllocator] hands out the room for the
    others, from pages for medium strings and one block per large string.

    Memory is a map from addresses to bytes; an access outside it fails. The
    general-purpose allocator below is a parameter that returns blocks apart
    from the ones in use. *)

From S2P Require Import Prelude.

(** ** Memory *)

Abbreviation memory := (gmap Z Z).

Fixpoint load_bytes (m : memory) (p : Z) (n : nat) : res (list Z) :=
  match n with
  | O => Ok []
  | S n => b ← of_option EBounds (m !! p); bs ← load_bytes m (p + 1) n; Ok (b :: bs)
  end.

Fixpoint store_bytes (m : memory) (p : Z) (bs : list Z) : res memory :=
  match bs with
  | [] => Ok m
  | b :: bs => _ ← of_option EBounds (m !! p); store_bytes (<[p := b]> m) (p + 1) bs
  end.

(** addresses as eight bytes, lowest first *)
Fixpoint to_le (n : nat) (z : Z) : list Z :=
  match n with O => [] | S n => z mod 256 :: to_le n (z / 256) end.
Fixpoint of_le (bs : list Z) : Z :=
  match bs with [] => 0 | b :: bs => b + 256 * of_le bs end.

(** ** The string object *)

Definition INLINE_MAX_LENGTH : Z := 12.
Definition PREFIX_LENGTH : nat := 4.

(** the length and the 12 bytes of the union after it *)
Record GermanString := mkGS { gs_len : Z; gs_body : list Z }.

Definition gs_prefix (g : GermanString) : list Z := take PREFIX_LENGTH (gs_body g).
Definition gs_ptr (g : GermanString) : Z := of_le (drop PREFIX_LENGTH (gs_body g)).

(** [long_rep.ptr = p] and [memcpy(short_rep.str + i, bs, n)] on the 12 bytes *)
Definition set_ptr (body : list Z) (p : Z) : list Z := take PREFIX_LENGTH body ++ to_le 8 p.
Definition write_body (body : list Z) (i : nat) (bs : list Z) : res (list Z) :=
  if (i + length bs <=? length body)%nat then Ok (take i body ++ bs ++ drop (i + length bs) body)
  else Err EBounds.

Definition is_inline (g : GermanString) : bool := gs_len g <=? INLINE_MAX_LENGTH.

Definition GermanString_default : GermanString := mkGS 0 (replicate 12 0).

(** [old] is what the 12 bytes held before *)
Definition GermanString_new (old str : list Z) (remaining : Z) (m : memory) : res (GermanString * memory) :=
  let len := Z.of_nat (length str) in
  if len <=? INLINE_MAX_LENGTH then
    body ← write_body (set_ptr old 0) 0 str;
    Ok (mkGS (u32 len) body, m)
  else
    body ← write_body old 0 (take PREFIX_LENGTH str);
    m ← store_bytes m remaining (drop PREFIX_LENGTH str);
    Ok (mkGS (u32 len) (set_ptr body remaining), m).

Definition GermanString_copy (rhs : GermanString) : GermanString := rhs.

(** a copy with its own room for the long part *)
Definition GermanString_clone (rhs : GermanString) (remaining : Z) (m : memory) : res (GermanString * memory) :=
  if gs_len rhs <=? INLINE_MAX_LENGTH then Ok (rhs, m)
  else
    bs ← load_bytes m (gs_ptr rhs) (Z.to_nat (gs_len rhs) - PREFIX_LENGTH);
    m ← store_bytes m remaining bs;
    Ok (mkGS (gs_len rhs) (set_ptr (gs_body rhs) remaining), m).

Definition GermanString_to_string (g : GermanString) (m : memory) : res (list Z) :=
  if gs_len g <=? INLINE_MAX_LENGTH then Ok (take (Z.to_nat (gs_len g)) (gs_body g))
  else bs ← load_bytes m (gs_ptr g) (Z.to_nat (gs_len g) - PREFIX_LENGTH); Ok (gs_prefix g ++ bs).

(** the sizes are those of the arrays *)
Definition memcompare (p1 p2 : list Z) : Z :=
  let res := memcmp (Nat.min (length p1) (length p2)) p1 p2 in
  if negb (res =? 0) then (if 0 <? res then 1 else -1)
  else if (length p1 <? length p2)%nat then -1 else if (length p2 <? length p1)%nat then 1 else 0.

(** the bytes after the prefix of a string that is not inline *)
Definition gs_rest (g : GermanString) (m : memory) : res (list Z) :=
  load_bytes m (gs_ptr g) (Z.to_nat (gs_len g) - PREFIX_LENGTH).

(** the bytes after the prefix of an inline string *)
Definition gs_tail (g : GermanString) : list Z :=
  drop PREFIX_LENGTH (take (Z.to_nat (gs_len g)) (gs_body g)).

Definition GermanString_compare (g rhs : GermanString) (m : memory) : res Z :=
  if is_inline g && is_inline rhs then
    Ok (memcompare (take (Z.to_nat (gs_len g)) (gs_body g)) (take (Z.to_nat (gs_len rhs)) (gs_body rhs)))
  else if is_inline g then
    let min_len := Nat.min (Z.to_nat (gs_len g)) PREFIX_LENGTH in
    let r := memcompare (take min_len (gs_body g)) (take min_len (gs_prefix rhs)) in
    if negb (r =? 0) then Ok r
    else if (min_len <=? PREFIX_LENGTH)%nat then Ok (-1)
    else rest ← gs_rest rhs m; Ok (memcompare (gs_tail g) rest)
  else if is_inline rhs then
    let min_len := Nat.min (Z.to_nat (gs_len rhs)) PREFIX_LENGTH in
    let r := memcompare (take min_len (gs_prefix g)) (take min_len (gs_body rhs)) in
    if negb (r =? 0) then Ok r
    else if (min_len <=? PREFIX_LENGTH)%nat then Ok 1
    else rest ← gs_rest g m; Ok (memcompare rest (gs_tail rhs))
  else
    let r := memcompare (gs_prefix g) (gs_prefix rhs) in
    if negb (r =? 0) then Ok r
    else rest ← gs_rest g m; rest' ← gs_rest rhs m; Ok (memcompare rest rest').

(** all 16 bytes of the object *)
Definition gs_bytes (g : GermanString) : list Z := to_le 4 (gs_len g) ++ gs_body g.

Definition GermanString_eq (g rhs : GermanString) (m : memory) : res bool :=
  if is_inline g || is_inline rhs then Ok (memcompare (gs_bytes g) (gs_bytes rhs) =? 0)
  else if memcompare (gs_prefix g) (gs_prefix rhs) =? 0 then
    rest ← gs_rest g m; rest' ← gs_rest rhs m; Ok (memcompare rest rest' =? 0)
  else Ok false.

Definition GermanString_lt (g rhs : GermanString) (m : memory) : res bool :=
  r ← GermanString_compare g rhs m; Ok (r <? 0).
Definition GermanString_le (g rhs : GermanString) (m : memory) : res bool :=
  r ← GermanString_compare g rhs m; Ok (r <=? 0).
Definition GermanString_gt (g rhs : GermanString) (m : memory) : res bool :=
  r ← GermanString_compare g rhs m; Ok (0 <? r).
Definition GermanString_ge (g rhs : GermanString) (m : memory) : res bool :=
  r ← GermanString_compare g rhs m; Ok (0 <=? r).

Definition GermanString_ne (g rhs : GermanString) (m : memory) : res bool :=
  b ← GermanString_eq g rhs m; Ok (negb b).
(** [operator<=>] returns [bool]: the result of [compare] is only tested for 0 *)
Definition GermanString_spaceship (g rhs : GermanString) (m : memory) : res bool :=
  r ← GermanString_compare g rhs m; Ok (negb (r =? 0)).

Definition GermanString_append (g : GermanString) (str : list Z) (remaining : Z) (m : memory) :
    res (GermanString * memory) :=
  let old_len := gs_len g in
  let len := Z.of_nat (length str) in
  let new_len := u32 (old_len + len) in
  if len <=? INLINE_MAX_LENGTH then
    body ← write_body (gs_body g) (Z.to_nat old_len) str;
    Ok (mkGS new_len body, m)
  else if old_len <=? INLINE_MAX_LENGTH then
    let remaining_front_len := u32 (old_len - Z.of_nat PREFIX_LENGTH) in
    front ← load_bytes m (gs_ptr g) (Z.to_nat remaining_front_len);
    m ← store_bytes m remaining front;
    m ← store_bytes m (remaining + remaining_front_len) str;
    Ok (mkGS new_len (set_ptr (gs_body g) remaining), m)
  else m ← store_bytes m remaining str; Ok (mkGS new_len (gs_body g), m).

(** ** The allocator of long parts *)

Definition PAGE_SIZE : Z := 4096.
Definition MEDIUM_STRING_MAX_SIZE : Z := 512.

(** a vector or string: the address of its bytes and how many it has *)
Record buffer := mkBuf { b_data : Z; b_size : Z }.

Record Allocator := mkAlloc {
  medium_string_pages : list buffer;
  large_strings : list buffer;
  a_blocks : list (Z * Z)          (* the blocks of the general allocator: address and size *)
}.

Definition Allocator_new : Allocator := mkAlloc [] [] [].

Section allocator.
(** the address of a new block of a size, given the blocks in use *)
Context (malloc : list (Z * Z) -> Z -> Z).

Definition new_page (a : Allocator) : Allocator :=
  let p := malloc (a_blocks a) PAGE_SIZE in
  mkAlloc (medium_string_pages a ++ [mkBuf p 0]) (large_strings a) (a_blocks a ++ [(p, PAGE_SIZE)]).

(** a page whose rest has [n] bytes becomes the last one *)
Definition page_for (a : Allocator) (n : Z) : Allocator :=
  match last (medium_string_pages a) with
  | Some page => if PAGE_SIZE <? b_size page + n then new_page a else a
  | None => new_page a
  end.

(** [None] is the null pointer *)
Definition Allocator_allocate (a : Allocator) (n : Z) : option Z * Allocator :=
  if n <=? INLINE_MAX_LENGTH then (None, a)
  else
    let n := n - Z.of_nat PREFIX_LENGTH in
    if n <=? MEDIUM_STRING_MAX_SIZE then
      let a := page_for a n in
      match last (medium_string_pages a) with
      | Some page =>
          let page := mkBuf (b_data page) (b_size page + n) in
          (Some (b_data page + b_size page - n),
           mkAlloc (removelast (medium_string_pages a) ++ [page]) (large_strings a) (a_blocks a))
      | None => (None, a)
      end
    else
      let p := malloc (a_blocks a) (n + 1) in
      (Some p, mkAlloc (medium_string_pages a) (large_strings a ++ [mkBuf p n]) (a_blocks a ++ [(p, n + 1)])).

Definition Allocator_size (a : Allocator) : Z :=
  foldl (fun total s => total + b_size s)
    (foldl (fun total page => total + b_size page) 0 (medium_string_pages a)) (large_strings a).

Definition Allocator_clear (a : Allocator) : Allocator := Allocator_new.
End allocator.

(** ** Memory *)

(** [n] addresses from [p] on can be written *)
Definition avail (m : memory) (p : Z) (n : nat) : Prop :=
  forall i, 0 <= i < Z.of_nat n -> is_Some (m !! (p + i)).

Lemma length_to_le n z : length (to_le n z) = n.
Proof. revert z. induction n; intros z; simpl; [done|]. f_equal. auto. Qed.

Lemma of_to_le n z : 0 <= z < 256 ^ Z.of_nat n -> of_le (to_le n z) = z.
Proof.
  revert z. induction n as [|n IH]; intros z Hz; simpl; [simpl in Hz; lia|].
  rewrite Nat2Z.inj_succ, Z.pow_succ_r in Hz by lia.
  pose proof (Z.div_mod z 256 ltac:(lia)). pose proof (Z.mod_pos_bound z 256 ltac:(lia)).
  rewrite IH; [lia|]. split; [apply Z.div_pos; lia|]. apply Z.div_lt_upper_bound; lia.
Qed.

Lemma load_frame m m' p n : (forall i, 0 <= i < Z.of_nat n -> m' !! (p + i) = m !! (p + i)) ->
  load_bytes m' p n = load_bytes m p n.
Proof.
  revert p. induction n as [|n IH]; intros p Hf; simpl; [done|].
  pose proof (Hf 0 ltac:(lia)) as E. rewrite Z.add_0_r in E. rewrite E, (IH (p + 1)); [done|].
  intros i Hi. rewrite <-Z.add_assoc. apply Hf. lia.
Qed.

Lemma store_spec m p bs : avail m p (length bs) ->
  exists m', store_bytes m p bs = Ok m' /\ load_bytes m' p (length bs) = Ok bs /\
    (forall a, a < p \/ p + Z.of_nat (length bs) <= a -> m' !! a = m !! a) /\
    (forall a, is_Some (m !! a) -> is_Some (m' !! a)).
Proof.
  revert m p. induction bs as [|b bs IH]; intros m p Ha; simpl in *; [by exists m|].
  destruct (Ha 0 ltac:(lia)) as [x Ex]. rewrite Z.add_0_r in Ex. rewrite Ex. simpl.
  assert (forall a, is_Some (m !! a) -> is_Some (<[p := b]> m !! a)) as Hmono.
  { intros a Hsome. destruct (decide (p = a)) as [->|]; [by rewrite lookup_insert_eq|by rewrite lookup_insert_ne]. }
  destruct (IH (<[p := b]> m) (p + 1)) as (m' & Es & El & Hf & Hm).
  { intros i Hi. apply Hmono. rewrite <-Z.add_assoc. apply Ha. lia. }
  exists m'. split_and!; [done| |intros a Hout|intros a Hsome; by apply Hm, Hmono].
  - rewrite Hf, lookup_insert_eq by lia. simpl. by rewrite El.
  - rewrite Hf by lia. apply lookup_insert_ne. lia.
Qed.

Lemma load_length m p n bs : load_bytes m p n = Ok bs -> length bs = n.
Proof.
  revert p bs. induction n as [|n IH]; intros p bs; simpl; [by intros [= <-]|].
  destruct (m !! p); [|done]. simpl. destruct (load_bytes m (p + 1) n) eqn:E; [|done].
  intros [= <-]. simpl. f_equal. by eapply IH.
Qed.

(** ** What an object stands for *)

Record gs_rep (m : memory) (g : GermanString) (s : list Z) : Prop := {
  rep_body : length (gs_body g) = 12%nat;
  rep_len : gs_len g = Z.of_nat (length s);
  rep_bound : Z.of_nat (length s) < 2 ^ 32;
  rep_inline : (length s <= 12)%nat -> take (length s) (gs_body g) = s;
  rep_long : (12 < length s)%nat -> gs_prefix g = take 4 s /\ gs_rest g m = Ok (drop 4 s)
}.

Lemma inline_spec m g s : gs_rep m g s -> is_inline g = (length s <=? 12)%nat.
Proof.
  intros R. unfold is_inline, INLINE_MAX_LENGTH. rewrite (rep_len _ _ _ R).
  destruct (Z.leb_spec (Z.of_nat (length s)) 12), (Nat.leb_spec (length s) 12); done || lia.
Qed.

Lemma to_string_spec m g s : gs_rep m g s -> GermanString_to_string g m = Ok s.
Proof.
  intros R. unfold GermanString_to_string. pose proof (inline_spec m g s R) as E. unfold is_inline in E. rewrite E.
  rewrite (rep_len _ _ _ R), Nat2Z.id. destruct (Nat.leb_spec (length s) 12).
  - by rewrite (rep_inline _ _ _ R).
  - destruct (rep_long _ _ _ R) as [Ep Er]; [done|]. unfold gs_rest in Er.
    rewrite (rep_len _ _ _ R), Nat2Z.id in Er. rewrite Er, Ep. simpl. by rewrite take_drop.
Qed.

(** the address of the long part, where there is one *)
Definition room (m : memory) (s : list Z) (remaining : Z) : Prop :=
  (12 < length s)%nat -> 0 <= remaining < 2 ^ 64 /\ avail m remaining (length s - 4).

Lemma set_ptr_spec body p : length body = 12%nat -> 0 <= p < 2 ^ 64 ->
  length (set_ptr body p) = 12%nat /\ take 4 (set_ptr body p) = take 4 body /\ of_le (drop 4 (set_ptr body p)) = p.
Proof.
  intros Hb Hp. unfold set_ptr. change PREFIX_LENGTH with 4%nat.
  rewrite length_app, length_to_le, length_take, Hb. split_and!; [done| |].
  - by rewrite take_app_le, take_take by (rewrite length_take; lia).
  - rewrite drop_app_ge, length_take, Hb by (rewrite length_take; lia). rewrite drop_0. by apply of_to_le.
Qed.

Lemma long_rep m g s p : length (gs_body g) = 12%nat -> gs_len g = Z.of_nat (length s) ->
  Z.of_nat (length s) < 2 ^ 32 -> (12 < length s)%nat -> take 4 (gs_body g) = take 4 s ->
  of_le (drop 4 (gs_body g)) = p -> load_bytes m p (length s - 4) = Ok (drop 4 s) -> gs_rep m g s.
Proof.
  intros Hb Hl Hs Hlong Ep Eptr El. constructor; [done|done|done|lia|]. intros _. split; [done|].
  unfold gs_rest, gs_ptr. change PREFIX_LENGTH with 4%nat. by rewrite Eptr, Hl, Nat2Z.id.
Qed.

Lemma gs_new_spec old str remaining m : length old = 12%nat -> Z.of_nat (length str) < 2 ^ 32 ->
  room m str remaining ->
  exists g m', GermanString_new old str remaining m = Ok (g, m') /\ gs_rep m' g str /\
    (forall a, a < remaining \/ remaining + Z.of_nat (length str - 4) <= a -> m' !! a = m !! a) /\
    (forall a, is_Some (m !! a) -> is_Some (m' !! a)).
Proof.
  intros Ho Hs Hroom. unfold GermanString_new, write_body. rewrite wrapu_id by (unfold inu; lia).
  destruct (Z.leb_spec (Z.of_nat (length str)) INLINE_MAX_LENGTH) as [Hi|Hi]; unfold INLINE_MAX_LENGTH in Hi.
  - destruct (set_ptr_spec old 0 Ho ltac:(lia)) as (L & _ & _). rewrite L.
    destruct (Nat.leb_spec (0 + length str) 12); [|lia]. cbn [mbind res_bind]. do 2 eexists. split_and!; [done| |done|done].
    constructor; simpl; [rewrite length_app, length_drop, L; lia|done|done| |lia]. intros _. apply take_app_length.
  - rewrite Ho, length_take. change PREFIX_LENGTH with 4%nat. destruct (Nat.leb_spec (0 + Nat.min 4 (length str)) 12); [|lia].
    cbn [mbind res_bind]. destruct Hroom as [Hr Ha]; [lia|].
    destruct (store_spec m remaining (drop 4 str)) as (m' & -> & El & Hf & Hm); [by rewrite length_drop|].
    cbn [mbind res_bind]. rewrite length_drop in El, Hf. do 2 eexists. split_and!; [done| |done|done].
    set (body := take 0 old ++ _). assert (length body = 12%nat /\ take 4 body = take 4 str) as [Lb Eb].
    { unfold body. rewrite take_0, app_nil_l, length_app, length_take, length_drop, Ho. split; [lia|].
      by rewrite take_app_le, take_take by (rewrite length_take; lia). }
    destruct (set_ptr_spec body remaining Lb Hr) as (L & E1 & E2).
    eapply long_rep; simpl; [done|done|done|lia|by rewrite E1|done|done].
Qed.

Lemma clone_spec m g s remaining : gs_rep m g s -> room m s remaining ->
  exists g' m', GermanString_clone g remaining m = Ok (g', m') /\ gs_rep m' g' s /\
    (forall a, a < remaining \/ remaining + Z.of_nat (length s - 4) <= a -> m' !! a = m !! a).
Proof.
  intros R Hroom. unfold GermanString_clone. pose proof (inline_spec m g s R) as E. unfold is_inline in E. rewrite E.
  destruct (Nat.leb_spec (length s) 12) as [Hi|Hi]; [by exists g, m|].
  destruct (rep_long _ _ _ R Hi) as [Ep Er]. unfold gs_rest in Er. rewrite Er. cbn [mbind res_bind].
  destruct (Hroom Hi) as [Hr Ha].
  destruct (store_spec m remaining (drop 4 s)) as (m' & -> & El & Hf & _); [by rewrite length_drop|].
  cbn [mbind res_bind]. rewrite length_drop in El, Hf. do 2 eexists. split_and!; [done| |done].
  destruct (set_ptr_spec (gs_body g) remaining (rep_body _ _ _ R) Hr) as (L & E1 & E2).
  eapply long_rep; simpl; [done|apply R|apply R|lia|by rewrite E1|done|done].
Qed.

(** ** Comparison *)

Lemma memcompare_lex p q : memcompare p q = lex p q.
Proof.
  unfold memcompare. rewrite lex_memcmp. cbv zeta.
  pose proof (memcmp_range (Nat.min (length p) (length q)) p q).
  set (r := memcmp _ p q) in *. clearbody r. destruct (Z.eqb_spec r 0); simpl; [done|].
  destruct (Z.ltb_spec 0 r); lia.
Qed.

Lemma lex_app a b c d : length a = length c -> lex (a ++ b) (c ++ d) = if lex a c =? 0 then lex b d else lex a c.
Proof.
  revert c. induction a as [|x a IH]; intros [|y c] L; try done. injection L as L. simpl.
  destruct (x <? y); [done|]. destruct (y <? x); [done|]. by apply IH.
Qed.

Lemma lex_split k s t : length (take k s) = length (take k t) ->
  lex s t = if lex (take k s) (take k t) =? 0 then lex (drop k s) (drop k t) else lex (take k s) (take k t).
Proof. intros L. rewrite <-lex_app by done. by rewrite !take_drop. Qed.

(** the order [compare] decides: by the first four bytes, then inline strings
    before long ones, then by the other bytes *)
Definition gs_key (s : list Z) : list Z :=
  map Z.succ (take 4 s) ++ (if (length s <=? 12)%nat then 0 else 1) :: drop 4 s.

Lemma lex_succ p q : lex (map Z.succ p) (map Z.succ q) = lex p q.
Proof.
  revert q. induction p as [|x p IH]; intros [|y q]; simpl; try done.
  rewrite IH. destruct (Z.ltb_spec x y), (Z.ltb_spec y x), (Z.ltb_spec (Z.succ x) (Z.succ y)),
    (Z.ltb_spec (Z.succ y) (Z.succ x)); done || lia.
Qed.

(** a proper prefix, followed by 0 *)
Lemma lex_key_prefix p q a b : Forall (fun x => 0 <= x) q -> (length p < length q)%nat ->
  lex (map Z.succ p ++ 0 :: a) (map Z.succ q ++ b) = lex p q.
Proof.
  intros Hq. revert p. induction Hq as [|y q Hy Hq IH]; intros [|x p] L; simpl in *; try lia.
  - destruct (Z.ltb_spec 0 (Z.succ y)); [done|lia].
  - rewrite IH by lia. destruct (Z.ltb_spec x y), (Z.ltb_spec y x), (Z.ltb_spec (Z.succ x) (Z.succ y)),
      (Z.ltb_spec (Z.succ y) (Z.succ x)); done || lia.
Qed.

Lemma lex_longer p q b : (length p < length q)%nat -> lex p (q ++ b) = lex p q.
Proof.
  revert q. induction p as [|x p IH]; intros [|y q] L; simpl in *; try lia. rewrite IH by lia. done.
Qed.

(** one string is shorter than the prefix *)
Lemma gs_key_short s t : bytes_ok t -> (length (take 4 s) < length (take 4 t))%nat ->
  lex (gs_key s) (gs_key t) = lex s t.
Proof.
  intros Ht L. unfold gs_key. assert (length s < 4)%nat as Ls by (rewrite !length_take in L; lia).
  rewrite (take_ge s 4), (drop_ge s 4) in * by lia. destruct (Nat.leb_spec (length s) 12); [|lia].
  rewrite lex_key_prefix; [|apply Forall_take; eapply Forall_impl; [done|by intros x [H' _]]|done].
  rewrite <-(take_drop 4 t) at 2. by rewrite lex_longer.
Qed.

Lemma gs_key_spec s t : bytes_ok s -> bytes_ok t ->
  lex (gs_key s) (gs_key t) =
  if bool_decide (take 4 s = take 4 t) && negb (Bool.eqb (length s <=? 12)%nat (length t <=? 12)%nat)
  then (if (length s <=? 12)%nat then -1 else 1) else lex s t.
Proof.
  intros Hs Ht. destruct (Nat.lt_trichotomy (length (take 4 s)) (length (take 4 t))) as [L|[L|L]].
  - rewrite bool_decide_false by (intros E; rewrite E in L; lia). by apply gs_key_short.
  - unfold gs_key. rewrite lex_app, lex_succ by (by rewrite !length_map).
    rewrite (lex_split 4 s t) by done.
    case_bool_decide as E.
    + rewrite E, lex_refl. simpl. by destruct (length s <=? 12)%nat, (length t <=? 12)%nat.
    + rewrite <-lex_eq in E. simpl. by destruct (Z.eqb_spec (lex (take 4 s) (take 4 t)) 0).
  - rewrite bool_decide_false by (intros E; rewrite E in L; lia). simpl.
    rewrite lex_antisym, (gs_key_short t s), <-lex_antisym by done. done.
Qed.

Lemma take_body m g s k : gs_rep m g s -> (k <= length s)%nat -> (k <= 4)%nat -> take k (gs_body g) = take k s.
Proof.
  intros R Hk Hk4. destruct (Nat.le_gt_cases (length s) 12) as [Hi|Hi].
  - rewrite <-(rep_inline _ _ _ R Hi), take_take. f_equal. lia.
  - destruct (rep_long _ _ _ R Hi) as [Ep _]. unfold gs_prefix in Ep. change PREFIX_LENGTH with 4%nat in Ep.
    rewrite <-(Nat.min_l k 4), <-!take_take by lia. by rewrite Ep.
Qed.

(** an inline string against a long one *)
Lemma compare_prefix m g h s t : gs_rep m g s -> gs_rep m h t -> (length s <= 12)%nat -> (12 < length t)%nat ->
  bytes_ok s -> bytes_ok t ->
  let k := Nat.min (length s) 4 in
  lex (gs_key s) (gs_key t) = if lex (take k (gs_body g)) (take k (gs_prefix h)) =? 0 then -1
                             else lex (take k (gs_body g)) (take k (gs_prefix h)).
Proof.
  intros Rs Rt Hs Ht Bs Bt k. unfold gs_prefix. change PREFIX_LENGTH with 4%nat.
  rewrite take_take, (Nat.min_l k 4) by lia. rewrite !(take_body m _ _ k) by (done || lia).
  rewrite gs_key_spec by done. destruct (Nat.leb_spec (length s) 12), (Nat.leb_spec (length t) 12); try lia. simpl.
  rewrite andb_true_r, (lex_split k s t) by (rewrite !length_take; lia).
  case_bool_decide as E; destruct (Z.eqb_spec (lex (take k s) (take k t)) 0) as [E0|E0]; try done.
  - exfalso. apply E0. apply (f_equal (take k)) in E. rewrite !take_take, !(Nat.min_l k 4) in E by lia.
    rewrite E. apply lex_refl.
  - apply lex_eq in E0. destruct (Nat.le_gt_cases 4 (length s)).
    + exfalso. apply E. unfold k in E0. by rewrite Nat.min_r in E0 by lia.
    + unfold k. rewrite Nat.min_l, drop_all by lia. pose proof (length_drop t (length s)).
      destruct (drop (length s) t); simpl in *; [lia|done].
Qed.

Lemma compare_spec m g h s t : gs_rep m g s -> gs_rep m h t -> bytes_ok s -> bytes_ok t ->
  GermanString_compare g h m = Ok (lex (gs_key s) (gs_key t)).
Proof.
  intros Rs Rt Bs Bt. unfold GermanString_compare.
  rewrite (inline_spec m g s), (inline_spec m h t) by done.
  rewrite (rep_len _ _ _ Rs), (rep_len _ _ _ Rt), !Nat2Z.id, !memcompare_lex. change PREFIX_LENGTH with 4%nat.
  destruct (Nat.leb_spec (length s) 12) as [Hs|Hs], (Nat.leb_spec (length t) 12) as [Ht|Ht]; simpl andb; cbv iota.
  - rewrite (rep_inline _ _ _ Rs), (rep_inline _ _ _ Rt), gs_key_spec by done.
    destruct (Nat.leb_spec (length s) 12), (Nat.leb_spec (length t) 12); try lia. by rewrite andb_false_r.
  - rewrite (compare_prefix m g h) by done. destruct (Nat.leb_spec (Nat.min (length s) 4) 4); [|lia].
    by destruct (_ =? 0).
  - rewrite (lex_antisym (gs_key t) (gs_key s)), (compare_prefix m h g) by done. destruct (Nat.leb_spec (Nat.min (length t) 4) 4); [|lia].
    rewrite (lex_antisym (take _ (gs_body h))).
    destruct (Z.eqb_spec (lex (take (Nat.min (length t) 4) (gs_body h)) (take (Nat.min (length t) 4) (gs_prefix g))) 0) as [E|E].
    + rewrite E. done.
    + destruct (Z.eqb_spec (- lex (take (Nat.min (length t) 4) (gs_body h)) (take (Nat.min (length t) 4) (gs_prefix g))) 0);
        [lia|done].
  - destruct (rep_long _ _ _ Rs Hs) as [-> ->], (rep_long _ _ _ Rt Ht) as [-> ->]. cbn [mbind res_bind].
    rewrite memcompare_lex, gs_key_spec by done.
    destruct (Nat.leb_spec (length s) 12), (Nat.leb_spec (length t) 12); try lia. rewrite andb_false_r.
    rewrite (lex_split 4 s t) by (rewrite !length_take; lia). by destruct (_ =? 0).
Qed.

(** ** Equality *)

(** an inline string is followed by zeros *)
Definition padded (g : GermanString) : Prop :=
  is_inline g = true -> drop (Z.to_nat (gs_len g)) (gs_body g) = replicate (12 - Z.to_nat (gs_len g)) 0.

Lemma padded_body m g s : gs_rep m g s -> padded g -> (length s <= 12)%nat ->
  gs_body g = s ++ replicate (12 - length s) 0.
Proof.
  intros R Hp Hi. unfold padded in Hp. rewrite (inline_spec m g s R), (rep_len _ _ _ R), Nat2Z.id in Hp.
  rewrite <-(take_drop (length s) (gs_body g)), (rep_inline _ _ _ R), Hp; [done|by apply Nat.leb_le|done].
Qed.

Lemma eq_spec m g h s t : gs_rep m g s -> gs_rep m h t -> padded g -> padded h ->
  GermanString_eq g h m = Ok (bool_decide (s = t)).
Proof.
  intros Rs Rt Pg Ph. unfold GermanString_eq. rewrite (inline_spec m g s), (inline_spec m h t) by done.
  assert (forall p q : list Z, (memcompare p q =? 0) = bool_decide (p = q)) as Hcmp.
  { intros p q. rewrite memcompare_lex. destruct (Z.eqb_spec (lex p q) 0) as [E|E]; rewrite lex_eq in E;
      by case_bool_decide. }
  rewrite !Hcmp. destruct (_ || _) eqn:Hin.
  - f_equal. apply bool_decide_ext. unfold gs_bytes. split; [|intros ->].
    + intros [El Eb]%app_inj_1; [|by rewrite !length_to_le].
      apply (f_equal of_le) in El. rewrite (rep_len _ _ _ Rs), (rep_len _ _ _ Rt) in El.
      pose proof (rep_bound _ _ _ Rs). pose proof (rep_bound _ _ _ Rt).
      rewrite !of_to_le in El by (change (256 ^ Z.of_nat 4) with (2 ^ 32); lia).
      assert (length s = length t) as L by lia. rewrite L, orb_diag in Hin. apply Nat.leb_le in Hin.
      rewrite <-(rep_inline _ _ _ Rs), <-(rep_inline _ _ _ Rt), Eb by lia. by rewrite L.
    + rewrite orb_diag in Hin. apply Nat.leb_le in Hin.
      by rewrite (rep_len _ _ _ Rs), (rep_len _ _ _ Rt), (padded_body m g t), (padded_body m h t).
  - apply orb_false_iff in Hin as [Hs%Nat.leb_gt Ht%Nat.leb_gt].
    destruct (rep_long _ _ _ Rs Hs) as [-> ->], (rep_long _ _ _ Rt Ht) as [-> ->]. cbn [mbind res_bind].
    rewrite Hcmp. case_bool_decide as E1; [case_bool_decide as E2|]; f_equal; symmetry.
    + apply bool_decide_true. by rewrite <-(take_drop 4 s), <-(take_drop 4 t), E1, E2.
    + apply bool_decide_false. by intros ->.
    + apply bool_decide_false. by intros ->.
Qed.

Lemma new_padded old str remaining m g m' : length old = 12%nat -> Z.of_nat (length str) < 2 ^ 32 ->
  (4 <= length str)%nat \/ take 4 old = replicate 4 0 ->
  GermanString_new old str remaining m = Ok (g, m') -> padded g.
Proof.
  intros Ho Hs Hpre. unfold GermanString_new, write_body. rewrite wrapu_id by (unfold inu; lia).
  destruct (Z.leb_spec (Z.of_nat (length str)) INLINE_MAX_LENGTH) as [Hi|Hi]; unfold INLINE_MAX_LENGTH in Hi.
  - destruct (set_ptr_spec old 0 Ho ltac:(lia)) as (L & _ & _). rewrite L.
    destruct (Nat.leb_spec (0 + length str) 12); [|lia]. intros [= <- <-]. intros _. simpl. rewrite Nat2Z.id.
    rewrite drop_app_length. unfold set_ptr. change PREFIX_LENGTH with 4%nat.
    change (to_le 8 0) with (replicate 8 0). destruct (decide (4 <= length str)%nat) as [H4|H4].
    + rewrite drop_app_ge, length_take, Ho by (rewrite length_take; lia).
      replace (length str - Nat.min 4 12)%nat with (length str - 4)%nat by lia.
      rewrite drop_replicate. f_equal. lia.
    + destruct Hpre as [| ->]; [lia|]. change (replicate 4 0 ++ replicate 8 0) with (replicate 12 0).
      by rewrite drop_replicate.
  - destruct (_ <=? _)%nat; [|done]. cbn [mbind res_bind].
    destruct (store_bytes _ _ _) as [m1|]; [|done]. intros [= <- <-] H'. exfalso.
    unfold is_inline, INLINE_MAX_LENGTH in H'. simpl in H'. apply Z.leb_le in H'. lia.
Qed.

(** ** Appending *)

Lemma append_inline m g s str remaining : gs_rep m g s -> (length s + length str <= 12)%nat ->
  exists g', GermanString_append g str remaining m = Ok (g', m) /\ gs_rep m g' (s ++ str).
Proof.
  intros R Hl. unfold GermanString_append, write_body. rewrite (rep_len _ _ _ R), (rep_body _ _ _ R), Nat2Z.id.
  rewrite wrapu_id by (unfold inu; lia).
  destruct (Z.leb_spec (Z.of_nat (length str)) INLINE_MAX_LENGTH) as [Hi|Hi]; unfold INLINE_MAX_LENGTH in Hi; [|lia].
  destruct (Nat.leb_spec (length s + length str) 12); [|lia]. cbn [mbind res_bind]. eexists. split; [done|].
  pose proof (rep_body _ _ _ R) as Lb. rewrite (rep_inline _ _ _ R) by lia.
  constructor; simpl; rewrite ?length_app, ?length_drop, ?Lb; [lia|lia|lia| |lia].
  intros _. rewrite (assoc_L (++)). rewrite <-length_app. apply take_app_length.
Qed.

(** ** The allocator *)

(** two ranges of addresses do not meet *)
Definition apart (a b : Z * Z) : Prop := a.1 + a.2 <= b.1 \/ b.1 + b.2 <= a.1.

(** what the code relies on of the general allocator *)
Definition fresh_malloc (malloc : list (Z * Z) -> Z -> Z) : Prop :=
  forall blocks n, 0 < n -> 0 < malloc blocks n /\ Forall (apart (malloc blocks n, n)) blocks.

(** the requests of a client and the ranges it got *)
Fixpoint allocate_all (malloc : list (Z * Z) -> Z -> Z) (a : Allocator) (ns : list Z) :
    list (Z * Z) * Allocator :=
  match ns with
  | [] => ([], a)
  | n :: ns =>
      let '(p, a) := Allocator_allocate malloc a n in
      let '(ranges, a) := allocate_all malloc a ns in
      (match p with Some p => (p, n - 4) :: ranges | None => ranges end, a)
  end.

Definition total (ranges : list (Z * Z)) : Z := foldr (fun r t => r.2 + t) 0 ranges.

(** the part of the last page that is not in use *)
Definition free_part (a : Allocator) : Z * Z :=
  match last (medium_string_pages a) with
  | Some page => (b_data page + b_size page, PAGE_SIZE - b_size page)
  | None => (0, 0)
  end.

Record alloc_inv (a : Allocator) (given : list (Z * Z)) : Prop := {
  ai_positive : Forall (fun r => 0 < r.1 /\ 0 < r.2) given;
  ai_within : Forall (fun r => exists b, b ∈ a_blocks a /\ b.1 <= r.1 /\ r.1 + r.2 <= b.1 + b.2) given;
  ai_apart i j r r' : i <> j -> given !! i = Some r -> given !! j = Some r' -> apart r r';
  ai_page page : last (medium_string_pages a) = Some page ->
    0 <= b_size page <= PAGE_SIZE /\ 0 < b_data page /\ (b_data page, PAGE_SIZE) ∈ a_blocks a;
  ai_free : Forall (apart (free_part a)) given;
  ai_size : Allocator_size a = total given
}.

Section proofs.
Context (malloc : list (Z * Z) -> Z -> Z) (Hfresh : fresh_malloc malloc).

Lemma apart_sub r b c : b.1 <= r.1 -> r.1 + r.2 <= b.1 + b.2 -> apart c b -> apart c r.
Proof. unfold apart. lia. Qed.

(** a new block is apart from every range in use *)
Lemma fresh_apart a given n : alloc_inv a given -> 0 < n ->
  Forall (apart (malloc (a_blocks a) n, n)) given.
Proof.
  intros I Hn. destruct (Hfresh (a_blocks a) n Hn) as [_ Hb]. rewrite Forall_forall in Hb.
  eapply Forall_impl; [apply (ai_within _ _ I)|]. intros r (b & Hin & H1 & H2).
  eapply apart_sub; [done|done|by apply Hb].
Qed.

Lemma size_snoc pages page large blocks :
  Allocator_size (mkAlloc (pages ++ [page]) large blocks) = Allocator_size (mkAlloc pages large blocks) + b_size page.
Proof.
  unfold Allocator_size. simpl. rewrite foldl_snoc. generalize (foldl (fun t p => t + b_size p) 0 pages). intros z.
  revert z. induction large as [|s large IH]; intros z; simpl; [done|].
  replace (z + b_size page + b_size s) with (z + b_size s + b_size page) by lia. apply IH.
Qed.

Lemma total_snoc given r : total (given ++ [r]) = total given + r.2.
Proof. unfold total. induction given as [|g given IH]; simpl in *; [lia|]. rewrite IH. lia. Qed.

Lemma apart_snoc given r : Forall (apart r) given ->
  (forall i j a b, i <> j -> given !! i = Some a -> given !! j = Some b -> apart a b) ->
  forall i j a b, i <> j -> (given ++ [r]) !! i = Some a -> (given ++ [r]) !! j = Some b -> apart a b.
Proof.
  intros Hr Hg i j a b Hne. rewrite !lookup_app_Some. rewrite Forall_lookup in Hr.
  intros [Ea|[Li Ea]] [Eb|[Lj Eb]].
  - by eapply Hg.
  - apply list_lookup_singleton_Some in Eb as [_ <-]. specialize (Hr _ _ Ea). unfold apart in *. lia.
  - apply list_lookup_singleton_Some in Ea as [_ <-]. by eapply Hr.
  - apply list_lookup_singleton_Some in Ea as [? _], Eb as [? _]. lia.
Qed.

Lemma new_page_inv a given : alloc_inv a given ->
  alloc_inv (new_page malloc a) given /\
  exists page, last (medium_string_pages (new_page malloc a)) = Some page /\ b_size page = 0.
Proof.
  intros I. destruct (Hfresh (a_blocks a) PAGE_SIZE ltac:(done)) as [Hp Hb].
  unfold new_page. simpl. rewrite last_snoc. split; [|by eexists]. constructor; simpl.
  - apply I.
  - eapply Forall_impl; [apply (ai_within _ _ I)|]. intros r (b & Hin & H). exists b. split; [set_solver|done].
  - apply I.
  - intros page E. rewrite last_snoc in E. injection E as <-. simpl. split_and!; [done|done|done|set_solver].
  - unfold free_part. simpl. rewrite last_snoc. simpl. rewrite Z.add_0_r. by apply (fresh_apart a).
  - rewrite size_snoc. simpl. rewrite Z.add_0_r. pose proof (ai_size _ _ I) as Es.
    by destruct a.
Qed.

(** a range taken from the free part of the last page *)
Lemma take_page_inv a given pages page n : alloc_inv a given -> medium_string_pages a = pages ++ [page] ->
  0 < n -> b_size page + n <= PAGE_SIZE ->
  alloc_inv (mkAlloc (pages ++ [mkBuf (b_data page) (b_size page + n)]) (large_strings a) (a_blocks a))
    (given ++ [(b_data page + b_size page, n)]).
Proof.
  intros I Ep Hn Hfit. assert (last (medium_string_pages a) = Some page) as El by (rewrite Ep; apply last_snoc).
  destruct (ai_page _ _ I _ El) as (Hs & Hd & Hb).
  pose proof (ai_free _ _ I) as Hfree. unfold free_part in Hfree. rewrite El in Hfree.
  constructor; simpl.
  - apply Forall_app. split; [apply I|]. repeat constructor; simpl; lia.
  - apply Forall_app. split; [apply I|]. constructor; [|constructor]. exists (b_data page, PAGE_SIZE). simpl. split; [done|lia].
  - apply apart_snoc; [|apply (ai_apart _ _ I)]. eapply Forall_impl; [done|]. unfold apart. simpl. lia.
  - intros page' E. rewrite last_snoc in E. injection E as <-. simpl. split_and!; [lia|lia|done|done].
  - unfold free_part. simpl. rewrite last_snoc. simpl. apply Forall_app. split.
    + eapply Forall_impl; [done|]. unfold apart. simpl. lia.
    + constructor; [|constructor]. unfold apart. simpl. lia.
  - pose proof (ai_size _ _ I) as Es. destruct a as [mp ls bl]. simpl in *. subst mp.
    rewrite size_snoc in Es. rewrite size_snoc, total_snoc. simpl. lia.
Qed.

Lemma large_inv a given n : alloc_inv a given -> 0 < n ->
  let p := malloc (a_blocks a) (n + 1) in
  alloc_inv (mkAlloc (medium_string_pages a) (large_strings a ++ [mkBuf p n]) (a_blocks a ++ [(p, n + 1)]))
    (given ++ [(p, n)]).
Proof.
  intros I Hn p. destruct (Hfresh (a_blocks a) (n + 1) ltac:(lia)) as [Hp Hb]. fold p in Hp, Hb.
  pose proof (fresh_apart a given (n + 1) I ltac:(lia)) as Hg. fold p in Hg. clearbody p. constructor; simpl.
  - apply Forall_app. split; [apply I|]. by repeat constructor.
  - apply Forall_app. split.
    + eapply Forall_impl; [apply (ai_within _ _ I)|]. intros r (b & Hin & H). exists b. split; [set_solver|done].
    + constructor; [|constructor]. exists (p, n + 1). simpl. split; [set_solver|lia].
  - apply apart_snoc; [|apply (ai_apart _ _ I)]. eapply Forall_impl; [done|]. unfold apart. simpl. lia.
  - intros page E. destruct (ai_page _ _ I _ E) as (? & ? & ?). split_and!; [lia|lia|lia|set_solver].
  - apply Forall_app. split; [apply (ai_free _ _ I)|]. constructor; [|constructor]. unfold free_part. simpl.
    destruct (last (medium_string_pages a)) as [page|] eqn:El; [|unfold apart; simpl; lia].
    destruct (ai_page _ _ I _ El) as (Hs & Hd & Hin). rewrite Forall_forall in Hb. specialize (Hb _ Hin).
    unfold apart in *. simpl in *. lia.
  - rewrite total_snoc, <-(ai_size _ _ I). unfold Allocator_size. simpl. by rewrite foldl_snoc.
Qed.

Lemma allocate_inv a given n : alloc_inv a given ->
  match Allocator_allocate malloc a n with
  | (Some p, a') => 12 < n /\ alloc_inv a' (given ++ [(p, n - 4)])
  | (None, a') => n <= 12 /\ a' = a
  end.
Proof.
  intros I. unfold Allocator_allocate. destruct (Z.leb_spec n INLINE_MAX_LENGTH) as [Hi|Hi];
    unfold INLINE_MAX_LENGTH in Hi; [done|]. change (Z.of_nat PREFIX_LENGTH) with 4.
  destruct (Z.leb_spec (n - 4) MEDIUM_STRING_MAX_SIZE) as [Hm|Hm]; unfold MEDIUM_STRING_MAX_SIZE in Hm.
  - set (a1 := page_for malloc a (n - 4)).
    assert (alloc_inv a1 given /\ exists page, last (medium_string_pages a1) = Some page /\
      b_size page + (n - 4) <= PAGE_SIZE) as (I1 & page & El & Hfit).
    { unfold a1, page_for. destruct (new_page_inv a given I) as (I1 & page1 & E1 & Z1).
      destruct (last (medium_string_pages a)) as [page|] eqn:El.
      - destruct (Z.ltb_spec PAGE_SIZE (b_size page + (n - 4))).
        + split; [done|]. exists page1. split; [done|]. unfold PAGE_SIZE. lia.
        + split; [done|]. by exists page.
      - split; [done|]. exists page1. split; [done|]. unfold PAGE_SIZE. lia. }
    clearbody a1. rewrite El. simpl. split; [done|].
    destruct (medium_string_pages a1) as [|page' pages _] eqn:Ep using rev_ind; [done|].
    rewrite last_snoc in El. injection El as ->. rewrite removelast_last.
    replace (b_data page + (b_size page + (n - 4)) - (n - 4)) with (b_data page + b_size page) by lia.
    apply take_page_inv; [done|done|lia|done].
  - split; [done|]. apply large_inv; [done|lia].
Qed.

Lemma allocate_all_inv ns a given ranges a' : alloc_inv a given ->
  allocate_all malloc a ns = (ranges, a') -> alloc_inv a' (given ++ ranges).
Proof.
  revert a given ranges a'. induction ns as [|n ns IH]; simpl; intros a given ranges a' I.
  - intros [= <- <-]. by rewrite app_nil_r.
  - pose proof (allocate_inv a given n I) as Ha. destruct (Allocator_allocate malloc a n) as [[p|] a1].
    + destruct Ha as [_ I1]. destruct (allocate_all malloc a1 ns) as [rs a2] eqn:E. intros [= <- <-].
      replace (given ++ (p, n - 4) :: rs) with ((given ++ [(p, n - 4)]) ++ rs) by (by rewrite <-(assoc_L (++))).
      by eapply IH.
    + destruct Ha as [_ ->]. destruct (allocate_all malloc a ns) as [rs a2] eqn:E. intros [= <- <-]. by eapply IH.
Qed.

Lemma allocate_all_sizes ns a given ranges a' : alloc_inv a given ->
  allocate_all malloc a ns = (ranges, a') ->
  map snd ranges = map (fun n => n - 4) (filter (fun n => 12 < n) ns).
Proof.
  revert a given ranges a'. induction ns as [|n ns IH]; simpl; intros a given ranges a' I.
  - by intros [= <- <-].
  - pose proof (allocate_inv a given n I) as Ha. rewrite filter_cons.
    destruct (Allocator_allocate malloc a n) as [[p|] a1].
    + destruct Ha as [Hn I1]. destruct (allocate_all malloc a1 ns) as [rs a2] eqn:E. intros [= <- <-].
      rewrite decide_True by done. simpl. f_equal. by eapply IH.
    + destruct Ha as [Hn ->]. destruct (allocate_all malloc a ns) as [rs a2] eqn:E. intros [= <- <-].
      rewrite decide_False by lia. by eapply IH.
Qed.

Lemma new_inv : alloc_inv Allocator_new [].
Proof. by constructor. Qed.
End proofs.

(** ** Theorems *)

(** a memory of zeros from 1000 on *)
Definition memory0 : memory := list_to_map ((fun i => (i, 0)) <$> seqZ 1000 64).

Lemma memory0_avail p n : 1000 <= p -> p + Z.of_nat n <= 1064 -> avail memory0 p n.
Proof.
  intros H1 H2 i Hi. destruct (memory0 !! (p + i)) eqn:E; [by eexists|exfalso].
  apply not_elem_of_list_to_map_2 in E. apply E. rewrite <-list_fmap_compose. apply list_elem_of_fmap.
  exists (p + i). split; [done|]. apply elem_of_seqZ. lia.
Qed.

(** C29: a string of any length below 2^32 that is put into an object, with
    room for the part after the prefix when it is longer than 12 bytes, is
    read back as it was, also from a clone with room of its own; the clone
    leaves the original intact. Appending within the 12 bytes gives the
    concatenation. *)
Theorem german_roundtrip old s r1 r2 m str r3 : length old = 12%nat -> Z.of_nat (length s) < 2 ^ 32 ->
  room m s r1 -> room m s r2 -> apart (r1, Z.of_nat (length s - 4)) (r2, Z.of_nat (length s - 4)) ->
  exists g m1 g' m2,
    GermanString_new old s r1 m = Ok (g, m1) /\ GermanString_to_string g m1 = Ok s /\
    GermanString_clone g r2 m1 = Ok (g', m2) /\ GermanString_to_string g' m2 = Ok s /\
    GermanString_to_string g m2 = Ok s /\
    ((length s + length str <= 12)%nat -> exists g'',
       GermanString_append g str r3 m1 = Ok (g'', m1) /\ GermanString_to_string g'' m1 = Ok (s ++ str)).
Proof.
  intros Ho Hs R1 R2 Hapart. destruct (gs_new_spec old s r1 m Ho Hs R1) as (g & m1 & E1 & G1 & F1 & M1).
  assert (room m1 s r2) as R2'.
  { intros Hl. destruct (R2 Hl) as [Hr Ha]. split; [done|]. intros i Hi. by apply M1, Ha. }
  destruct (clone_spec m1 g s r2 G1 R2') as (g' & m2 & E2 & G2 & F2).
  exists g, m1, g', m2. split_and!; [done|by apply to_string_spec|done|by apply to_string_spec| |].
  - apply to_string_spec. destruct (Nat.le_gt_cases (length s) 12) as [Hi|Hl].
    + constructor; [apply G1|apply G1|apply G1|apply G1|lia].
    + destruct (rep_long _ _ _ G1 Hl) as [Ep Er]. constructor; [apply G1|apply G1|apply G1|lia|].
      intros _. split; [done|]. rewrite <-Er. unfold gs_rest. apply load_frame.
      assert (gs_ptr g = r1) as ->.
      { revert E1. unfold GermanString_new. destruct (Z.leb_spec (Z.of_nat (length s)) INLINE_MAX_LENGTH) as [H|H];
          unfold INLINE_MAX_LENGTH in H; [lia|]. destruct (write_body _ _ _) as [body|] eqn:Eb; [|done].
        cbn [mbind res_bind]. destruct (store_bytes _ _ _); [|done]. intros [= <- _].
        unfold gs_ptr. simpl. apply set_ptr_spec; [|by apply R1].
        unfold write_body in Eb. destruct (_ <=? _)%nat eqn:El; [|done]. injection Eb as <-.
        apply Nat.leb_le in El. rewrite !length_app, length_take, length_drop, Ho in *. lia. }
      intros i Hi. apply F2. rewrite (rep_len _ _ _ G1), Nat2Z.id in Hi. change PREFIX_LENGTH with 4%nat in Hi.
      unfold apart in Hapart. simpl in Hapart. lia.
  - intros Hl. destruct (append_inline m1 g s str r3 G1 Hl) as (g'' & E3 & G3).
    exists g''. split; [done|by apply to_string_spec].
Qed.

Lemma german_roundtrip_witness :
  exists g m1, GermanString_new (replicate 12 7) (seqZ 65 20) 1000 memory0 = Ok (g, m1) /\
    GermanString_to_string g m1 = Ok (seqZ 65 20).
Proof.
  destruct (german_roundtrip (replicate 12 7) (seqZ 65 20) 1000 1016 memory0 [] 0) as (g & m1 & _ & _ & E1 & E2 & _).
  - reflexivity.
  - reflexivity.
  - intros _. split; [split; [discriminate|reflexivity]|]. apply memory0_avail; vm_compute; discriminate.
  - intros _. split; [split; [discriminate|reflexivity]|]. apply memory0_avail; vm_compute; discriminate.
  - left. vm_compute. discriminate.
  - exists g, m1. exact (conj E1 E2).
Defined.

(** [compare] decides a total order: by the first four bytes, then inline
    strings before long ones, then by the other bytes. It is the
    lexicographic order except for an inline string and a long one with the
    same first four bytes, where the inline one always comes first. *)
Theorem german_compare_order m g h s t : gs_rep m g s -> gs_rep m h t -> bytes_ok s -> bytes_ok t ->
  GermanString_compare g h m = Ok (lex (gs_key s) (gs_key t)) /\
  (lex (gs_key s) (gs_key t) = 0 <-> s = t) /\
  lex (gs_key t) (gs_key s) = - lex (gs_key s) (gs_key t) /\
  (forall u, lex (gs_key s) (gs_key t) <= 0 -> lex (gs_key t) (gs_key u) <= 0 -> lex (gs_key s) (gs_key u) <= 0) /\
  (take 4 s <> take 4 t \/ ((length s <= 12)%nat <-> (length t <= 12)%nat) ->
   lex (gs_key s) (gs_key t) = lex s t).
Proof.
  intros Rs Rt Bs Bt. split_and!.
  - by apply compare_spec.
  - rewrite gs_key_spec by done. case_bool_decide as E; simpl; [|apply lex_eq].
    destruct (Nat.leb_spec (length s) 12), (Nat.leb_spec (length t) 12); simpl; try apply lex_eq;
      (split; [done|]); intros ->; lia.
  - apply lex_antisym.
  - intros u. apply lex_trans.
  - intros H. rewrite gs_key_spec by done. case_bool_decide as E; simpl; [|done].
    destruct H as [|H]; [done|]. destruct (Nat.leb_spec (length s) 12), (Nat.leb_spec (length t) 12); simpl; try done; lia.
Qed.

(** abcdz against a longer string with the prefix abcd *)
Definition gs_inline : GermanString := mkGS 5 [97; 98; 99; 100; 122; 0; 0; 0; 0; 0; 0; 0].
Definition gs_long : GermanString := mkGS 13 ([97; 98; 99; 100] ++ to_le 8 1000).

Lemma german_compare_order_witness :
  let s := [97; 98; 99; 100; 122] in
  let t := [97; 98; 99; 100] ++ replicate 9 0 in
  GermanString_compare gs_inline gs_long memory0 = Ok (-1) /\ lex s t = 1.
Proof.
  intros s t. split; [|reflexivity].
  assert (gs_rep memory0 gs_inline s) as Rs by (constructor; [reflexivity|reflexivity|reflexivity|reflexivity|simpl; lia]).
  assert (gs_rep memory0 gs_long t) as Rt.
  { constructor; [reflexivity|reflexivity|reflexivity|simpl; lia|]. intros _. split; [reflexivity|].
    vm_compute. reflexivity. }
  rewrite (proj1 (german_compare_order memory0 gs_inline gs_long s t Rs Rt ltac:(repeat constructor; discriminate)
    ltac:(repeat constructor; discriminate))). reflexivity.
Defined.

(** [==] holds exactly for equal strings when inline ones are followed by
    zeros. The constructor pads strings of at least four bytes; shorter ones
    only if the memory of the object was zero, since the prefix is not
    cleared: the same two letters in two objects can be unequal. *)
Theorem german_equality m g h s t : gs_rep m g s -> gs_rep m h t -> padded g -> padded h ->
  GermanString_eq g h m = Ok (bool_decide (s = t)) /\
  (forall old str r m' g' m'', length old = 12%nat -> Z.of_nat (length str) < 2 ^ 32 ->
     (4 <= length str)%nat \/ take 4 old = replicate 4 0 ->
     GermanString_new old str r m' = Ok (g', m'') -> padded g') /\
  (exists g1 g2, GermanString_new (replicate 12 1) [97; 98] 0 m = Ok (g1, m) /\
     GermanString_new (replicate 12 2) [97; 98] 0 m = Ok (g2, m) /\ GermanString_eq g1 g2 m = Ok false).
Proof.
  intros Rs Rt Pg Ph. split_and!; [by apply eq_spec|intros; by eapply new_padded|].
  do 2 eexists. split_and!; reflexivity.
Qed.

Lemma german_equality_witness : GermanString_eq gs_inline gs_long memory0 = Ok false.
Proof.
  refine (proj1 (german_equality memory0 gs_inline gs_long [97; 98; 99; 100; 122]
    ([97; 98; 99; 100] ++ replicate 9 0) _ _ _ _)).
  - constructor; [reflexivity|reflexivity|reflexivity|reflexivity|simpl; lia].
  - constructor; [reflexivity|reflexivity|reflexivity|simpl; lia|]. intros _. split; [reflexivity|].
    vm_compute. reflexivity.
  - intros _. reflexivity.
  - intros H. discriminate H.
Defined.

(** C28: the ranges that a sequence of requests gets, one for each request of
    more than 12 bytes and four bytes shorter than it, are pairwise apart and
    inside blocks of the general allocator, so no page is ever outgrown;
    [size] is the sum of their sizes. *)
Theorem german_allocator_apart malloc ns : fresh_malloc malloc ->
  let '(ranges, a) := allocate_all malloc Allocator_new ns in
  (forall i j r r', i <> j -> ranges !! i = Some r -> ranges !! j = Some r' -> apart r r') /\
  Forall (fun r => 0 < r.1 /\ exists b, b ∈ a_blocks a /\ b.1 <= r.1 /\ r.1 + r.2 <= b.1 + b.2) ranges /\
  map snd ranges = map (fun n => n - 4) (filter (fun n => 12 < n) ns) /\
  Allocator_size a = total ranges.
Proof.
  intros Hf. destruct (allocate_all malloc Allocator_new ns) as [ranges a] eqn:E.
  pose proof (allocate_all_inv malloc Hf ns Allocator_new [] ranges a new_inv E) as I. simpl in I.
  split_and!; [apply (ai_apart _ _ I)| |by eapply (allocate_all_sizes malloc Hf ns _ [] _ _ new_inv)|apply (ai_size _ _ I)].
  pose proof (ai_positive _ _ I) as Hp. pose proof (ai_within _ _ I) as Hw.
  rewrite Forall_forall in *. intros r Hr. destruct (Hp r Hr). split; [done|by apply Hw].
Qed.

(** the first address after all blocks *)
Definition malloc_top (blocks : list (Z * Z)) (n : Z) : Z :=
  foldr (fun b top => Z.max (b.1 + b.2) top) 1 blocks.

Lemma malloc_top_fresh : fresh_malloc malloc_top.
Proof.
  intros blocks n Hn. unfold malloc_top. split.
  - induction blocks as [|b blocks IH]; simpl; lia.
  - assert (Forall (fun b => b.1 + b.2 <= foldr (fun b top => Z.max (b.1 + b.2) top) 1 blocks) blocks) as H.
    { induction blocks as [|b blocks IH]; constructor; simpl; [lia|].
      eapply Forall_impl; [done|]. intros r Hr. simpl in *. lia. }
    eapply Forall_impl; [exact H|]. intros r Hr. right. exact Hr.
Qed.

Lemma german_allocator_apart_witness :
  allocate_all malloc_top Allocator_new [20; 5; 3000; 100] =
    ([(1, 16); (4097, 2996); (17, 96)],
     mkAlloc [mkBuf 1 112] [mkBuf 4097 2996] [(1, 4096); (4097, 2997)]) /\
  apart (1, 16) (17, 96).
Proof.
  split; [reflexivity|].
  exact (proj1 (german_allocator_apart malloc_top [20; 5; 3000; 100] malloc_top_fresh)
    0%nat 2%nat (1, 16) (17, 96) (fun H => match H with end) eq_refl eq_refl).
Defined.
