(* ===== verification/TurnSequencer.v ===== *)
(** * TurnSequencer (folly/detail/TurnSequencer.h)

    Threads take turns by the numbers in one 32-bit word: 26 bits of the current
    turn and 6 bits with the distance of the furthest waiting turn. The loops of
    [tryWaitForTurn] and [completeTurn] are state machines that access shared
    memory once per step; the clock and the failures of the weak
    compare-and-exchange are inputs of a step. Sleeping on the futex is a state
    of the machine; who wakes it is up to the system (MPMCQueue.v). *)

From S2P Require Import Prelude.

(** ** The word *)

Definition kTurnShift : Z := 6.
Definition kWaitersMask : Z := Z.shiftl 1 kTurnShift - 1.

Definition futexChannel (turn : Z) : Z := u32 (Z.shiftl 1 (Z.land turn 31)).
Definition decodeCurrentSturn (state : Z) : Z := Z.land state (u32 (Z.lnot kWaitersMask)).
Definition decodeMaxWaitersDelta (state : Z) : Z := Z.land state kWaitersMask.
Definition encode (currentSturn maxWaiterD : Z) : Z :=
  Z.lor currentSturn (Z.min kWaitersMask maxWaiterD).
Definition sturn_of (turn : Z) : Z := u32 (Z.shiftl turn kTurnShift).

Definition TurnSequencer_new (firstTurn : Z) : Z := encode (sturn_of firstTurn) 0.
Definition isTurn (state turn : Z) : bool := decodeCurrentSturn state =? sturn_of turn.
Definition uncompletedTurnLSB (state : Z) : Z := u8 (Z.shiftr state kTurnShift).

(** ** Waiting for a turn *)

Inductive TryWaitResult := SUCCESS | PAST | TIMEDOUT.

#[global] Instance TryWaitResult_eq_dec : EqDecision TryWaitResult.
Proof. solve_decision. Defined.

(** the locals [prevThresh], [tries] and [begin] *)
Record spin := mkSpin { prevThresh : Z; tries : Z; begin : Z }.

Inductive wait_pc :=
| WCutoff                              (* load spinCutoff *)
| WLoad (sp : spin)                    (* top of the loop: load state_ *)
| WCas (sp : spin) (state new_state : Z)
| WFutex (sp : spin) (new_state : Z)   (* about to call futexWait *)
| WSleep (sp : spin)                   (* inside futexWait *)
| WAdapt (sp : spin)                   (* behind the loop: update spinCutoff *)
| WReturn (r : TryWaitResult).

Section sequencer.
(** [kSpinUsingHardwareClock], which is [kIsArchAmd64] *)
Context (kSpinUsingHardwareClock : bool).

Definition kCyclesPerSpinLimit : Z := if kSpinUsingHardwareClock then 1 else 10.
Definition kMinSpinLimit : Z := 200 / kCyclesPerSpinLimit.
Definition kMaxSpinLimit : Z := 20000 / kCyclesPerSpinLimit.

(** [++tries] *)
Definition next_try (sp : spin) : spin := mkSpin (prevThresh sp) (u32 (tries sp + 1)) (begin sp).

Definition effectiveSpinCutoff (updateSpinCutoff : bool) (thresh : Z) : Z :=
  if updateSpinCutoff || (thresh =? 0) then kMaxSpinLimit else thresh.

(** whether this try is a spin, and the locals with [begin] set *)
Definition spins (updateSpinCutoff : bool) (now : Z) (sp : spin) : bool * spin :=
  let cutoff := effectiveSpinCutoff updateSpinCutoff (prevThresh sp) in
  if kSpinUsingHardwareClock then
    let sp := if tries sp =? 0 then mkSpin (prevThresh sp) (tries sp) now else sp in
    ((tries sp =? 0) || (now <? u64 (begin sp + cutoff)), sp)
  else (tries sp <? cutoff, sp).

(** the body of the loop up to the next access to shared memory *)
Definition wait_load (turn : Z) (updateSpinCutoff : bool) (now : Z) (sp : spin) (state : Z) : wait_pc :=
  let sturn := sturn_of turn in
  let current_sturn := decodeCurrentSturn state in
  if current_sturn =? sturn then
    if updateSpinCutoff || (prevThresh sp =? 0) then WAdapt sp else WReturn SUCCESS
  else if (2 ^ 32 - 1) / 2 <=? u32 (sturn - current_sturn) then WReturn PAST
  else
    let '(spinning, sp) := spins updateSpinCutoff now sp in
    if (spinning : bool) then WLoad (next_try sp)
    else
      let our_waiter_delta := Z.shiftr (u32 (sturn - current_sturn)) kTurnShift in
      if our_waiter_delta <=? decodeMaxWaitersDelta state then WFutex sp state
      else
        let new_state := encode current_sturn our_waiter_delta in
        if state =? new_state then WFutex sp new_state else WCas sp state new_state.

(** the new [spinCutoff] *)
Definition adapt (now : Z) (weak_fails : bool) (sp : spin) (spinCutoff : Z) : Z :=
  let elapsed := if negb kSpinUsingHardwareClock || (tries sp =? 0) then tries sp
                 else u64 (now - begin sp) in
  let target := if kMaxSpinLimit <=? tries sp then kMinSpinLimit
                else Z.min kMaxSpinLimit (Z.max kMinSpinLimit (u32 (u32 elapsed * 2))) in
  if prevThresh sp =? 0 then target
  else if weak_fails || negb (spinCutoff =? prevThresh sp) then spinCutoff
  else u32 (prevThresh sp + Z.quot (i32 (u32 (target - prevThresh sp))) 8).

(** one step of [tryWaitForTurn] on [state_] and [spinCutoff]; a sleeping
    thread and one that has returned take none *)
Definition wait_step (turn : Z) (updateSpinCutoff : bool) (now : Z) (weak_fails : bool)
    (state spinCutoff : Z) (pc : wait_pc) : option (Z * Z * wait_pc) :=
  match pc with
  | WCutoff => Some (state, spinCutoff, WLoad (mkSpin spinCutoff 0 0))
  | WLoad sp => Some (state, spinCutoff, wait_load turn updateSpinCutoff now sp state)
  | WCas sp expected new_state =>
      Some (if state =? expected then (new_state, spinCutoff, WFutex sp new_state)
            else (state, spinCutoff, WLoad (next_try sp)))
  | WFutex sp new_state =>
      Some (state, spinCutoff, if state =? new_state then WSleep sp else WLoad (next_try sp))
  | WAdapt sp => Some (state, adapt now weak_fails sp spinCutoff, WReturn SUCCESS)
  | WSleep _ | WReturn _ => None
  end.
End sequencer.

(** [futexWait] returns, woken or interrupted *)
Definition awake (pc : wait_pc) : wait_pc :=
  match pc with WSleep sp => WLoad (next_try sp) | _ => pc end.

(** ** Completing a turn *)

Inductive complete_pc :=
| CLoad
| CCas (state : Z)
| CWake                                (* about to call futexWake *)
| CDone.

(** one step of [completeTurn]; the last component is the mask of a
    [futexWake] *)
Definition complete_step (turn state : Z) (pc : complete_pc) : option (Z * complete_pc * option Z) :=
  match pc with
  | CLoad => Some (state, CCas state, None)
  | CCas expected =>
      if state =? expected then
        let max_waiter_delta := decodeMaxWaitersDelta expected in
        Some (encode (sturn_of (u32 (turn + 1)))
                (if max_waiter_delta =? 0 then 0 else max_waiter_delta - 1),
              if max_waiter_delta =? 0 then CDone else CWake, None)
      else Some (state, CCas state, None)
  | CWake => Some (state, CDone, Some (futexChannel (u32 (turn + 1))))
  | CDone => None
  end.

(** ** The word of turn [c] with furthest waiter [d] *)

Definition pack (c d : Z) : Z := (c mod 2 ^ 26) * 64 + d.

Lemma pack_range c d : 0 <= d < 64 -> inu 32 (pack c d).
Proof. unfold pack, inu. pose proof (Z.mod_pos_bound c (2 ^ 26)). lia. Qed.

Lemma sturn_of_pack c : sturn_of c = pack c 0.
Proof.
  unfold sturn_of, pack, kTurnShift, wrapu. rewrite Z.shiftl_mul_pow2 by lia.
  change (2 ^ 32) with (2 ^ 26 * 2 ^ 6). rewrite Z.mul_mod_distr_r by lia. lia.
Qed.

Lemma pack_mod c c' d : c mod 2 ^ 26 = c' mod 2 ^ 26 -> pack c d = pack c' d.
Proof. unfold pack. by intros ->. Qed.

Lemma u32_mod26 c : u32 c mod 2 ^ 26 = c mod 2 ^ 26.
Proof. unfold wrapu. apply Z.mod_mod_divide. by exists (2 ^ 6). Qed.

Lemma sturn_of_u32 c : sturn_of (u32 c) = pack c 0.
Proof. rewrite sturn_of_pack. apply pack_mod, u32_mod26. Qed.

Lemma lnot_waiters a : inu 32 a -> Z.land a (u32 (Z.lnot 63)) = Z.land a (Z.lnot 63).
Proof.
  intros Ha. apply (inu_iff 32 a ltac:(lia)) in Ha as [_ Ha]. apply Z.bits_inj'. intros n Hn.
  rewrite !Z.land_spec. destruct (decide (n < 32)) as [Hlt|Hge]; [|by rewrite Ha by lia].
  f_equal. unfold wrapu. by rewrite Z.mod_pow2_bits_low by lia.
Qed.

Lemma decode_turn_pack c d : 0 <= d < 64 -> decodeCurrentSturn (pack c d) = pack c 0.
Proof.
  intros Hd. unfold decodeCurrentSturn. change kWaitersMask with 63.
  rewrite lnot_waiters by (by apply pack_range). change 63 with (2 ^ 6 - 1). rewrite round_down by lia.
  unfold pack. change (2 ^ 6) with 64. rewrite Z.div_add_l, (Z.div_small d) by lia. lia.
Qed.

Lemma decode_delta_pack c d : 0 <= d < 64 -> decodeMaxWaitersDelta (pack c d) = d.
Proof.
  intros Hd. unfold decodeMaxWaitersDelta. change kWaitersMask with (2 ^ 6 - 1).
  rewrite land_pow2_mod by lia. change (2 ^ 6) with 64. unfold pack.
  rewrite Z.add_comm, Z.mod_add by lia. by apply Z.mod_small.
Qed.

Lemma encode_pack c d : 0 <= d -> encode (pack c 0) d = pack c (Z.min 63 d).
Proof.
  intros Hd. unfold encode. change kWaitersMask with 63. unfold pack. rewrite Z.add_0_r.
  change 64 with (2 ^ 6). apply lor_disjoint; lia.
Qed.

(** the word determines the turn up to 26 bits *)
Lemma pack_inj c c' d d' : 0 <= d < 64 -> 0 <= d' < 64 -> pack c d = pack c' d' ->
  c mod 2 ^ 26 = c' mod 2 ^ 26 /\ d = d'.
Proof. unfold pack. lia. Qed.

(** turns that are close to each other are told apart *)
Lemma turn_eq c t : c <= t < c + 2 ^ 26 -> c mod 2 ^ 26 = t mod 2 ^ 26 -> c = t.
Proof.
  intros H E. assert ((t - c) mod 2 ^ 26 = 0) as E'.
  { by rewrite Zminus_mod, <-E, Z.sub_diag. }
  rewrite Z.mod_small in E' by lia. lia.
Qed.

Lemma isTurn_pack c d t : 0 <= d < 64 -> isTurn (pack c d) (u32 t) = bool_decide (c mod 2 ^ 26 = t mod 2 ^ 26).
Proof.
  intros Hd. unfold isTurn. rewrite decode_turn_pack, sturn_of_u32 by done.
  destruct (Z.eqb_spec (pack c 0) (pack t 0)) as [E|E]; symmetry.
  - apply bool_decide_eq_true. apply (pack_inj _ _ 0 0) in E; lia.
  - apply bool_decide_eq_false. intros E'. apply E. by apply pack_mod.
Qed.

Lemma sturn_sub c t : c <= t < c + 2 ^ 26 -> u32 (pack t 0 - pack c 0) = 64 * (t - c).
Proof.
  intros H. unfold pack, wrapu. rewrite !Z.add_0_r, <-Z.mul_sub_distr_r.
  change (2 ^ 32) with (2 ^ 26 * 64). rewrite Z.mul_mod_distr_r, <-Zminus_mod, Z.mod_small by lia. lia.
Qed.

(** ** A thread whose turn is at most [2^24] ahead

    What [tryWaitForTurn] knows in each state, when the turn [t] has not been
    completed and the current one is [c]. *)

Definition wait_ok (t c : Z) (pc : wait_pc) : Prop :=
  match pc with
  | WCutoff | WLoad _ | WSleep _ => True
  | WCas _ state new_state => exists c0 d0, c0 <= c /\ t - 2 ^ 25 < c0 < t /\ 0 <= d0 < 64 /\
      state = pack c0 d0 /\ d0 < t - c0 /\ new_state = pack c0 (Z.min 63 (t - c0))
  | WFutex _ new_state => exists c0 d0, c0 <= c /\ t - 2 ^ 25 < c0 < t /\ 0 <= d0 < 64 /\
      new_state = pack c0 d0 /\ Z.min 63 (t - c0) <= d0
  | WAdapt _ => c = t
  | WReturn r => r = SUCCESS /\ c = t
  end.

(** the furthest waiter covers the next turn that wakes a sleeper for [t] *)
Definition covered (t c d : Z) : Prop := c < t /\ (t - c - 1) mod 32 + 1 <= d.

Section waiting.
Context (hw : bool) (t c d : Z) (Ht : t - 2 ^ 25 < c <= t) (Hd : 0 <= d < 64).

Lemma wait_load_ok upd now sp : wait_ok t c (wait_load hw (u32 t) upd now sp (pack c d)).
Proof.
  unfold wait_load. rewrite decode_turn_pack, decode_delta_pack, sturn_of_u32, sturn_sub by lia.
  destruct (Z.eqb_spec (pack c 0) (pack t 0)) as [E|E].
  { apply pack_inj in E as [E _]; [|lia..]. apply turn_eq in E; [|lia]. by destruct (_ || _). }
  assert (c <> t) by congruence.
  destruct (Z.leb_spec ((2 ^ 32 - 1) / 2) (64 * (t - c))) as [Hp|_].
  { change ((2 ^ 32 - 1) / 2) with 2147483647 in Hp. lia. }
  destruct (spins hw upd now sp) as [[|] sp']; [done|].
  replace (Z.shiftr (64 * (t - c)) kTurnShift) with (t - c).
  2: { unfold kTurnShift. rewrite Z.shiftr_div_pow2, Z.mul_comm by lia. change (2 ^ 6) with 64. by rewrite Z.div_mul. }
  destruct (Z.leb_spec (t - c) d).
  { exists c, d. repeat split; lia. }
  rewrite encode_pack by lia. destruct (Z.eqb_spec (pack c d) (pack c (Z.min 63 (t - c)))) as [_|_].
  - exists c, (Z.min 63 (t - c)). repeat split; lia.
  - exists c, d. repeat split; lia.
Qed.

(** the step of a waiting thread: the current turn stays, the furthest waiter
    only moves away, and a thread that goes to sleep is covered *)
Lemma wait_step_ok upd now weak cut pc st' cut' pc' :
  wait_ok t c pc -> wait_step hw (u32 t) upd now weak (pack c d) cut pc = Some (st', cut', pc') ->
  exists d', st' = pack c d' /\ d <= d' < 64 /\ wait_ok t c pc' /\
    ((exists sp, pc' = WSleep sp) -> covered t c d').
Proof.
  intros Hok E. destruct pc as [|sp|sp s0 s1|sp s1| |sp|]; simplify_eq/=.
  - exists d. naive_solver lia.
  - exists d. split; [done|]. split; [lia|]. split; [apply wait_load_ok|]. intros [sp' E'].
    pose proof (wait_load_ok upd now sp) as _. unfold wait_load in E'.
    repeat case_match; simplify_eq.
  - destruct Hok as (c0 & d0 & Hc0 & Ht0 & Hd0 & -> & Hlt & ->).
    destruct (Z.eqb_spec (pack c d) (pack c0 d0)) as [E'|_]; simplify_eq.
    + apply pack_inj in E' as [E' ->]; [|lia..]. symmetry in E'. apply turn_eq in E' as ->; [|lia].
      exists (Z.min 63 (t - c)). split_and!; [done|lia|lia| |by intros [? ?]].
      exists c, (Z.min 63 (t - c)). repeat split; lia.
    + exists d. naive_solver lia.
  - destruct Hok as (c0 & d0 & Hc0 & Ht0 & Hd0 & -> & Hle).
    exists d. split; [done|]. split; [lia|].
    destruct (Z.eqb_spec (pack c d) (pack c0 d0)) as [E'|_]; [|split; [done|by intros [? ?]]].
    split; [done|]. intros _. apply pack_inj in E' as [E' ->]; [|lia..]. symmetry in E'.
    apply turn_eq in E' as ->; [|lia]. unfold covered.
    pose proof (Z.mod_le (t - c - 1) 32). pose proof (Z.mod_pos_bound (t - c - 1) 32). lia.
  - exists d. naive_solver lia.
Qed.

(** a thread whose turn has arrived does not go to sleep *)
Lemma wait_step_arrived upd now weak cut pc : c = t -> wait_ok t c pc ->
  match pc with WSleep _ | WReturn _ => False | _ => True end ->
  exists cut' pc', wait_step hw (u32 t) upd now weak (pack c d) cut pc = Some (pack c d, cut', pc') /\
    match pc with
    | WCutoff | WCas _ _ _ | WFutex _ _ => exists sp, pc' = WLoad sp
    | WLoad sp => pc' = WAdapt sp \/ pc' = WReturn SUCCESS
    | _ => pc' = WReturn SUCCESS
    end.
Proof.
  intros -> Hok Hpc. destruct pc as [|sp|sp s0 s1|sp s1| |sp|]; simpl; try done; eauto.
  - do 2 eexists. split; [done|]. unfold wait_load. rewrite decode_turn_pack, sturn_of_u32, Z.eqb_refl by lia.
    destruct (_ || _); auto.
  - destruct Hok as (c0 & d0 & Hc0 & Ht0 & Hd0 & -> & _). rewrite (proj2 (Z.eqb_neq _ _)); [eauto|].
    intros E. apply pack_inj in E as [E _]; [|lia..]. symmetry in E. apply turn_eq in E; lia.
  - destruct Hok as (c0 & d0 & Hc0 & Ht0 & Hd0 & -> & _). rewrite (proj2 (Z.eqb_neq _ _)); [eauto|].
    intros E. apply pack_inj in E as [E _]; [|lia..]. symmetry in E. apply turn_eq in E; lia.
Qed.
End waiting.

(** the current turn moves on *)
Lemma wait_ok_mono t c c' pc : wait_ok t c pc -> c <= c' -> (c = c' \/ c < t) -> wait_ok t c' pc.
Proof.
  intros Hok Hle Hor. destruct pc; simpl in *; try done.
  - destruct Hok as (c0 & d0 & Hc0 & Hok). exists c0, d0. split; [lia|done].
  - destruct Hok as (c0 & d0 & Hc0 & Hok). exists c0, d0. split; [lia|done].
  - lia.
  - destruct Hok as [-> ->]. split; [done|lia].
Qed.

(** ** A waiter for any turn

    It only moves the furthest waiter. *)

Definition cas_ok (pc : wait_pc) : Prop :=
  match pc with
  | WCas _ s0 s1 => exists c0 d0 d1, s0 = pack c0 d0 /\ s1 = pack c0 d1 /\ 0 <= d0 <= d1 /\ d1 < 64
  | _ => True
  end.

Lemma wait_load_any hw turn upd now sp c d : 0 <= d < 64 ->
  cas_ok (wait_load hw turn upd now sp (pack c d)).
Proof.
  intros Hd. unfold wait_load. rewrite decode_turn_pack, decode_delta_pack by done.
  set (x := u32 _). assert (0 <= Z.shiftr x kTurnShift) as Hx.
  { apply Z.shiftr_nonneg. apply wrapu_range. lia. }
  repeat (case_match; try done). simpl. rewrite encode_pack by lia.
  exists c, d, (Z.min 63 (Z.shiftr x kTurnShift)). repeat split; lia.
Qed.

Lemma wait_step_any hw turn upd now weak c d cut pc st' cut' pc' : 0 <= d < 64 -> cas_ok pc ->
  wait_step hw turn upd now weak (pack c d) cut pc = Some (st', cut', pc') ->
  exists d', st' = pack c d' /\ d <= d' < 64 /\ cas_ok pc'.
Proof.
  intros Hd Hpc E. destruct pc as [|sp|sp s0 s1|sp s1| |sp|]; simplify_eq/=.
  - exists d. split_and!; [done|lia..|done].
  - exists d. split_and!; [done|lia..|by apply wait_load_any].
  - destruct Hpc as (c0 & d0 & d1 & -> & -> & Hd0 & Hd1).
    destruct (Z.eqb_spec (pack c d) (pack c0 d0)) as [E'|_]; simplify_eq; [|exists d; split_and!; [done|lia..|done]].
    apply pack_inj in E' as [E' ->]; [|lia..]. exists d1. split_and!; [by apply pack_mod|lia..|done].
  - exists d. split_and!; [done|lia..|]. by case_match.
  - exists d. split_and!; [done|lia..|done].
Qed.

(** completing a turn: the next turn is current, the waiters are one closer *)
Lemma complete_step_ok t c d pc st' pc' w : 0 <= d < 64 -> c = t -> pc = CLoad \/ (exists s, pc = CCas s) ->
  complete_step (u32 t) (pack c d) pc = Some (st', pc', w) ->
  w = None /\
  ((st' = pack c d /\ exists s, pc' = CCas s) \/
   (st' = pack (c + 1) (if d =? 0 then 0 else d - 1) /\ pc' = if d =? 0 then CDone else CWake)).
Proof.
  intros Hd -> Hpc E. destruct Hpc as [->|[s ->]]; simpl in E; [naive_solver|].
  destruct (Z.eqb_spec (pack t d) s) as [Es|_]; simplify_eq; [|naive_solver].
  split; [done|]. right. rewrite decode_delta_pack by done.
  assert (sturn_of (u32 (u32 t + 1)) = pack (t + 1) 0) as ->.
  { rewrite wrapu_add_l by lia. apply sturn_of_u32. }
  rewrite encode_pack by (case_match; lia). split; [f_equal; case_match; lia|done].
Qed.

(** the channels of two turns meet when the turns agree in their last 5 bits *)
Lemma channel_meet t t' : t mod 32 = t' mod 32 ->
  Z.land (futexChannel (u32 t)) (futexChannel (u32 t')) <> 0.
Proof.
  intros E. unfold futexChannel. change 31 with (2 ^ 5 - 1). rewrite !land_pow2_mod by lia.
  change (2 ^ 5) with 32.
  assert (forall x, u32 x mod 32 = x mod 32) as Hu.
  { intros x. unfold wrapu. apply Z.mod_mod_divide. by exists (2 ^ 27). }
  rewrite !Hu, <-E, Z.land_diag. pose proof (Z.mod_pos_bound t 32 ltac:(lia)).
  rewrite Z.shiftl_1_l, wrapu_id; [pose proof (Z.pow_pos_nonneg 2 (t mod 32)); lia|].
  split; [apply Z.pow_nonneg; lia|apply Z.pow_lt_mono_r; lia].
Qed.

(** a covered sleeper is still covered after the turn is completed, or it is
    the one that this completion wakes *)
Lemma covered_complete t c d : covered t c d ->
  covered t (c + 1) (d - 1) \/ (d <> 0 /\ (c + 1) mod 32 = t mod 32).
Proof. unfold covered. Z.to_euclidean_division_equations. lia. Qed.

Lemma covered_mono t c d d' : covered t c d -> d <= d' -> covered t c d'.
Proof. unfold covered. lia. Qed.
