(* ===== verification/MPMCQueue.v ===== *)
(** * MPMCQueue (folly/MPMCQueue.h): a bounded queue for many producers and
      consumers

    The version with a fixed capacity. A write takes the next push ticket and a
    read the next pop ticket; a ticket determines a slot of the array and a turn
    at the slot's [TurnSequencer]. A call is a state machine that makes one
    access to shared memory per step, [sys_step] interleaves the calls of any
    number of threads. The futex is modelled by its documented behaviour: a
    thread goes to sleep only while the word has the expected value, a wake-up
    reaches the sleepers whose channel is in its mask, and sleeping threads may
    also be interrupted. *)

From S2P Require Import Prelude.
From S2P Require Import TurnSequencer.

(** ** Strides *)

Definition smallPrimes : list Z := [2; 3; 5; 7; 11; 13; 17; 19; 23].

Definition stride_try (capacity : Z) (best : Z * Z) (stride : Z) : Z * Z :=
  if (stride mod capacity =? 0) || (capacity mod stride =? 0) then best
  else
    let sep := stride mod capacity in
    let sep := Z.min sep (capacity - sep) in
    if snd best <? sep then (stride, sep) else best.

Definition computeStride (capacity : Z) : Z := fst (foldl (stride_try capacity) (1, 1) smallPrimes).

Definition kAdaptationFreq : Z := 128.
Definition hardware_destructive_interference_size : Z := 128.

Section queue.
(** the elements; [folly::IsRelocatable<T>]; the size of a slot in bytes *)
Context {V : Type} (kSpinUsingHardwareClock IsRelocatable : bool) (sizeof_Slot : Z).

Definition kSlotPadding : Z := (hardware_destructive_interference_size - 1) / sizeof_Slot + 1.

(** ** State *)

(** [SingleElementQueue]: [contents_] is [None] while no object is in it *)
Record Slot := mkSlot { contents_ : option V; sequencer_ : Z }.

Record queue := mkQueue {
  capacity_ : Z;
  stride_ : Z;
  slots_ : list Slot;
  pushTicket_ : Z;
  popTicket_ : Z;
  pushSpinCutoff_ : Z;
  popSpinCutoff_ : Z
}.

Definition MPMCQueue_new (queueCapacity : Z) : res queue :=
  if queueCapacity =? 0 then Err EThrow
  else Ok (mkQueue queueCapacity (computeStride queueCapacity)
             (replicate (Z.to_nat (queueCapacity + 2 * kSlotPadding)) (mkSlot None (TurnSequencer_new 0)))
             0 0 0 0).

Definition idx (ticket cap stride : Z) : Z := u64 (ticket * stride) mod cap + kSlotPadding.
Definition turn (ticket cap : Z) : Z := u32 (ticket / cap).

(** ** Calls *)

Inductive side := SPush (v : V) | SPop.
Inductive mode := MBlocking | MReady | MPromised | MUntil.
Record call := mkCall { c_mode : mode; c_side : side }.

Definition blockingWrite (v : V) : call := mkCall MBlocking (SPush v).
Definition write (v : V) : call := mkCall MReady (SPush v).
Definition writeIfNotFull (v : V) : call := mkCall MPromised (SPush v).
Definition tryWriteUntil (v : V) : call := mkCall MUntil (SPush v).
Definition blockingReadWithTicket : call := mkCall MBlocking SPop.
Definition readAndGetTicket : call := mkCall MReady SPop.
Definition readIfNotEmpty : call := mkCall MPromised SPop.
Definition tryReadUntil : call := mkCall MUntil SPop.

(** [false]; a completed write; an element with its ticket *)
Inductive ret := Fail | Written | Got (ticket : Z) (elem : V).

(** inside [SingleElementQueue::enqueue] and [dequeue] *)
Inductive slot_pc :=
| SWait (pc : wait_pc)
| SNew                                      (* new (&contents_) T(...) *)
| SMove                                     (* elem = std::move(contents) *)
| SDestroy (elem : V)                       (* destroyContents *)
| SComplete (got : option V) (pc : complete_pc).

Inductive local :=
| Idle
| Take (c : call)                           (* pushTicket_++, popTicket_++ *)
| ReadyLoad (c : call)                      (* tryObtainReady{Push,Pop}Ticket *)
| ReadyCheck (c : call) (ticket : Z)
| ReadyReload (c : call) (prev : Z)
| ReadyCas (c : call) (ticket : Z)
| PromLoad (c : call)                       (* tryObtainPromised{Push,Pop}Ticket *)
| PromOther (c : call) (num : Z)
| PromCas (c : call) (num : Z)
| UntilWait (c : call) (ticket : Z) (pc : wait_pc)   (* tryObtainPromised{Push,Pop}TicketUntil *)
| Transfer (c : call) (ticket : Z) (p : slot_pc)     (* {enqueue,dequeue}WithTicketBase *)
| Return (c : call) (r : ret).

Definition start (c : call) : local :=
  match c_mode c with
  | MBlocking => Take c
  | MReady => ReadyLoad c
  | MPromised | MUntil => PromLoad c
  end.

(** ** Accesses to the queue *)

Definition counter (sd : side) (q : queue) : Z :=
  match sd with SPush _ => pushTicket_ q | SPop => popTicket_ q end.

Definition bump (sd : side) (q : queue) : queue :=
  match sd with
  | SPush _ => mkQueue (capacity_ q) (stride_ q) (slots_ q) (u64 (pushTicket_ q + 1)) (popTicket_ q)
                 (pushSpinCutoff_ q) (popSpinCutoff_ q)
  | SPop => mkQueue (capacity_ q) (stride_ q) (slots_ q) (pushTicket_ q) (u64 (popTicket_ q + 1))
              (pushSpinCutoff_ q) (popSpinCutoff_ q)
  end.

Definition set_slot (q : queue) (i : Z) (s : Slot) : queue :=
  mkQueue (capacity_ q) (stride_ q) (<[Z.to_nat i := s]> (slots_ q)) (pushTicket_ q) (popTicket_ q)
    (pushSpinCutoff_ q) (popSpinCutoff_ q).

(** the spin cutoff a wait adapts; both timed waits for a ticket use the one of
    the writers *)
Definition cutoff (readers : bool) (q : queue) : Z :=
  if readers then popSpinCutoff_ q else pushSpinCutoff_ q.
Definition set_cutoff (readers : bool) (x : Z) (q : queue) : queue :=
  mkQueue (capacity_ q) (stride_ q) (slots_ q) (pushTicket_ q) (popTicket_ q)
    (if readers then pushSpinCutoff_ q else x) (if readers then x else popSpinCutoff_ q).

Definition is_pop (sd : side) : bool := match sd with SPush _ => false | SPop => true end.

(** the turn at the sequencer: [turn * 2] to enqueue, [turn * 2 + 1] to dequeue *)
Definition turn_at (sd : side) (ticket cap : Z) : Z :=
  u32 (turn ticket cap * 2 + (if is_pop sd then 1 else 0)).

Definition slot_index (q : queue) (ticket : Z) : Z := idx ticket (capacity_ q) (stride_ q).

(** [slots[idx(ticket, cap, stride)]]; [turn] asserts that [cap] is not 0 *)
Definition locate (q : queue) (ticket : Z) : res Slot :=
  if capacity_ q =? 0 then Err ECheck
  else of_option EBounds (slots_ q !! Z.to_nat (slot_index q ticket)).

(** ** Steps *)

(** the clock, and whether a weak compare-and-exchange fails *)
Record input := mkInput { in_now : Z; in_weak : bool }.

(** the slot index and the mask of a [futexWake] *)
Definition wake : Type := Z * Z.

Definition outcome : Type := queue * local * option wake.

(** a step of [tryWaitForTurn] in the slot of [ticket] *)
Definition wait_at (q : queue) (sd : side) (readers : bool) (ticket : Z) (inp : input) (pc : wait_pc)
    (k : wait_pc -> local) : res (option outcome) :=
  slot ← locate q ticket;
  Ok (match wait_step kSpinUsingHardwareClock (turn_at sd ticket (capacity_ q))
              (ticket mod kAdaptationFreq =? 0) (in_now inp) (in_weak inp)
              (sequencer_ slot) (cutoff readers q) pc with
      | None => None
      | Some (state, cut, pc) =>
          Some (set_cutoff readers cut (set_slot q (slot_index q ticket) (mkSlot (contents_ slot) state)),
                k pc, None)
      end).

(** [enqueue] and [dequeue] of the slot, by move or by relocation *)
Definition transfer_step (q : queue) (c : call) (ticket : Z) (inp : input) (p : slot_pc) :
    res (option outcome) :=
  let i := slot_index q ticket in
  let goto q p := Ok (Some (q, Transfer c ticket p, None)) in
  match p with
  | SWait (WReturn _) =>      (* waitForTurn ignores the result *)
      goto q (match c_side c with SPush _ => SNew | SPop => SMove end)
  | SWait pc =>
      wait_at q (c_side c) (is_pop (c_side c)) ticket inp pc (fun pc => Transfer c ticket (SWait pc))
  | SNew =>
      slot ← locate q ticket;
      match c_side c with
      | SPush v => goto (set_slot q i (mkSlot (Some v) (sequencer_ slot))) (SComplete None CLoad)
      | SPop => Ok None
      end
  | SMove =>
      slot ← locate q ticket;
      elem ← of_option EUninit (contents_ slot);
      goto q (if IsRelocatable then SComplete (Some elem) CLoad else SDestroy elem)
  | SDestroy elem =>
      slot ← locate q ticket;
      goto (set_slot q i (mkSlot None (sequencer_ slot))) (SComplete (Some elem) CLoad)
  | SComplete got CDone =>
      Ok (Some (q, Return c (match got with None => Written | Some elem => Got ticket elem end), None))
  | SComplete got pc =>
      slot ← locate q ticket;
      Ok (match complete_step (turn_at (c_side c) ticket (capacity_ q)) (sequencer_ slot) pc with
          | None => None
          | Some (state, pc, mask) =>
              Some (set_slot q i (mkSlot (contents_ slot) state), Transfer c ticket (SComplete got pc),
                    (fun m => (i, m)) <$> mask)
          end)
  end.

(** [mayEnqueue], [mayDequeue] *)
Definition may (q : queue) (sd : side) (ticket : Z) : res bool :=
  slot ← locate q ticket;
  Ok (isTurn (sequencer_ slot) (turn_at sd ticket (capacity_ q))).

(** no promised ticket: full or empty *)
Definition promise_fails (c : call) (num : Z) : local :=
  match c_mode c with MUntil => UntilWait c num WCutoff | _ => Return c Fail end.

(** one step of a thread; [None] when it cannot take one by itself *)
Definition step (q : queue) (l : local) (inp : input) : res (option outcome) :=
  let goto l := Ok (Some (q, l, None)) in
  match l with
  | Idle | Return _ _ => Ok None
  | Take c =>
      if is_pop (c_side c) && (capacity_ q =? 0) then Err ECheck
      else Ok (Some (bump (c_side c) q, Transfer c (counter (c_side c) q) (SWait WCutoff), None))
  | ReadyLoad c => goto (ReadyCheck c (counter (c_side c) q))
  | ReadyCheck c ticket =>
      ready ← may q (c_side c) ticket;
      goto (if (ready : bool) then ReadyCas c ticket else ReadyReload c ticket)
  | ReadyReload c prev =>
      let ticket := counter (c_side c) q in
      goto (if prev =? ticket then Return c Fail else ReadyCheck c ticket)
  | ReadyCas c ticket =>
      if counter (c_side c) q =? ticket then
        Ok (Some (bump (c_side c) q, Transfer c ticket (SWait WCutoff), None))
      else goto (ReadyCheck c (counter (c_side c) q))
  | PromLoad c => goto (PromOther c (counter (c_side c) q))
  | PromOther c num =>
      match c_side c with
      | SPush _ =>
          let n := i64 (u64 (num - popTicket_ q)) in
          goto (if i64 (capacity_ q) <=? n then promise_fails c num else PromCas c num)
      | SPop => goto (if pushTicket_ q <=? num then promise_fails c num else PromCas c num)
      end
  | PromCas c num =>
      if counter (c_side c) q =? num then
        Ok (Some (bump (c_side c) q, Transfer c num (SWait WCutoff), None))
      else goto (PromOther c (counter (c_side c) q))
  | UntilWait c ticket (WReturn r) =>
      goto (if decide (r = TIMEDOUT) then Return c Fail else PromLoad c)
  | UntilWait c ticket pc => wait_at q (c_side c) false ticket inp pc (UntilWait c ticket)
  | Transfer c ticket p => transfer_step q c ticket inp p
  end.

(** ** The system of threads *)

Record sys := mkSys { s_queue : queue; s_threads : list local }.

Inductive event := ECall (i : nat) (c : call) | ERet (i : nat) (c : call) (r : ret).

Inductive action :=
| ACall (c : call)
| ARun (inp : input)
| AInterrupt            (* futexWait returns without a wake-up *)
| ATimeout              (* futexWaitUntil times out *)
| ARet.

(** [futexWake]: a sleeping thread in the slot whose channel is in the mask *)
Definition woken (q : queue) (w : wake) (c : call) (ticket : Z) (pc : wait_pc) : wait_pc :=
  if (slot_index q ticket =? fst w) &&
     negb (Z.land (futexChannel (turn_at (c_side c) ticket (capacity_ q))) (snd w) =? 0)
  then awake pc else pc.

Definition wake_thread (q : queue) (w : wake) (l : local) : local :=
  match l with
  | UntilWait c ticket pc => UntilWait c ticket (woken q w c ticket pc)
  | Transfer c ticket (SWait pc) => Transfer c ticket (SWait (woken q w c ticket pc))
  | _ => l
  end.

Definition wake_all (q : queue) (w : option wake) (ls : list local) : list local :=
  match w with None => ls | Some w => wake_thread q w <$> ls end.

Definition sys_step (s : sys) (i : nat) (a : action) : option (res (sys * option event)) :=
  let at_i l := mkSys (s_queue s) (<[i := l]> (s_threads s)) in
  l ← s_threads s !! i;
  match a, l with
  | ACall c, Idle => Some (Ok (at_i (start c), Some (ECall i c)))
  | ARun inp, l =>
      match step (s_queue s) l inp with
      | Err e => Some (Err e)
      | Ok None => None
      | Ok (Some (q, l, w)) => Some (Ok (mkSys q (wake_all q w (<[i := l]> (s_threads s))), None))
      end
  | AInterrupt, UntilWait c ticket (WSleep sp) => Some (Ok (at_i (UntilWait c ticket (awake (WSleep sp))), None))
  | AInterrupt, Transfer c ticket (SWait (WSleep sp)) =>
      Some (Ok (at_i (Transfer c ticket (SWait (awake (WSleep sp)))), None))
  | ATimeout, UntilWait c ticket (WSleep _) => Some (Ok (at_i (UntilWait c ticket (WReturn TIMEDOUT)), None))
  | ARet, Return c r => Some (Ok (at_i Idle, Some (ERet i c r)))
  | _, _ => None
  end.

(** a run of [n] steps and its calls and returns *)
Inductive steps : sys -> nat -> list event -> sys -> Prop :=
| steps_refl s : steps s 0 [] s
| steps_step s n tr s' i a s'' e : steps s n tr s' -> sys_step s' i a = Some (Ok (s'', e)) ->
    steps s (S n) (tr ++ option_list e) s''.

(** [k] threads around a new queue *)
Definition init (q : queue) (k : nat) : sys := mkSys q (replicate k Idle).

(** ** Sizes

    [size] loads [pushTicket_] and [popTicket_] in turn; it is given the values
    it loads, and has no result while it goes on loading. *)

Fixpoint size_loop (pushes pops : Z) (loads : list Z) : option Z :=
  match loads with
  | nextPushes :: loads =>
      if pushes =? nextPushes then Some (i64 (u64 (pushes - pops)))
      else match loads with
           | nextPops :: loads =>
               if pops =? nextPops then Some (i64 (u64 (nextPushes - pops)))
               else size_loop nextPushes nextPops loads
           | [] => None
           end
  | [] => None
  end.

Definition size (loads : list Z) : option Z :=
  match loads with pushes :: pops :: loads => size_loop pushes pops loads | _ => None end.

Definition isEmpty (loads : list Z) : option bool := n ← size loads; Some (n <=? 0).
Definition isFull (q : queue) (loads : list Z) : option bool := n ← size loads; Some (i64 (capacity_ q) <=? n).

Definition writeCount (q : queue) : Z := pushTicket_ q.
Definition readCount (q : queue) : Z := popTicket_ q.
Definition capacity (q : queue) : Z := capacity_ q.

(** ** The destructor, when no call is active: the elements it destroys *)

Definition Slot_destroy (s : Slot) : option (option V) :=
  if Z.land (uncompletedTurnLSB (sequencer_ s)) 1 =? 1 then Some (contents_ s) else None.

Definition MPMCQueue_destroy (q : queue) : list (option V) := omap Slot_destroy (slots_ q).
End queue.

Arguments Slot : clear implicits.
Arguments queue : clear implicits.
Arguments call : clear implicits.
Arguments side : clear implicits.
Arguments ret : clear implicits.
Arguments slot_pc : clear implicits.
Arguments local : clear implicits.
Arguments sys : clear implicits.
Arguments event : clear implicits.
Arguments action : clear implicits.
