(* ===== verification/MPMCSpec.v ===== *)
(** * The bounded queue that MPMCQueue promises

    A FIFO queue of at most [cap] elements whose operations take effect at one
    moment between call and return. A call with a result [false] needs a moment
    in between at which it was refused: for the promised and the timed versions
    the queue was full or empty; for [write] and [read] a call of the other kind
    may also have been active. *)

From S2P Require Import Prelude.
From S2P Require Import MPMCQueue.

Section spec.
Context {V : Type} (cap : Z).

Inductive pending :=
| PIdle
| PCalled (c : call V) (refused : bool)
| PDone (c : call V) (r : ret V).

Record spec := mkSpec {
  sp_queue : list V;
  sp_pops : Z;                  (* how many elements have been taken out *)
  sp_calls : list pending       (* by thread *)
}.

Definition set_call (σ : spec) (i : nat) (p : pending) : spec :=
  mkSpec (sp_queue σ) (sp_pops σ) (<[i := p]> (sp_calls σ)).

(** a write finds the queue full, a read finds it empty *)
Definition blocked (σ : spec) (sd : side V) : Prop :=
  match sd with
  | SPush _ => Z.of_nat (length (sp_queue σ)) = cap
  | SPop => sp_queue σ = []
  end.

Definition active_call (p : pending) : option (call V) :=
  match p with PIdle => None | PCalled c _ | PDone c _ => Some c end.

(** a call of the other kind is active *)
Definition busy (σ : spec) (i : nat) (sd : side V) : Prop :=
  exists j p c, j <> i /\ sp_calls σ !! j = Some p /\ active_call p = Some c /\
    is_pop (c_side c) <> is_pop sd.

Definition refusable (σ : spec) (i : nat) (c : call V) : Prop :=
  match c_mode c with
  | MBlocking => False
  | MReady => blocked σ (c_side c) \/ busy σ i (c_side c)
  | MPromised | MUntil => blocked σ (c_side c)
  end.

Inductive spec_step : spec -> option (event V) -> spec -> Prop :=
| spec_call σ i c : sp_calls σ !! i = Some PIdle ->
    spec_step σ (Some (ECall i c)) (set_call σ i (PCalled c false))
| spec_push σ i c v f : sp_calls σ !! i = Some (PCalled c f) -> c_side c = SPush v ->
    Z.of_nat (length (sp_queue σ)) < cap ->
    spec_step σ None (mkSpec (sp_queue σ ++ [v]) (sp_pops σ) (<[i := PDone c Written]> (sp_calls σ)))
| spec_pop σ i c v rest f : sp_calls σ !! i = Some (PCalled c f) -> c_side c = SPop ->
    sp_queue σ = v :: rest ->
    spec_step σ None (mkSpec rest (sp_pops σ + 1) (<[i := PDone c (Got (sp_pops σ) v)]> (sp_calls σ)))
| spec_refuse σ i c f : sp_calls σ !! i = Some (PCalled c f) -> refusable σ i c ->
    spec_step σ None (set_call σ i (PCalled c true))
| spec_fail σ i c : sp_calls σ !! i = Some (PCalled c true) ->
    spec_step σ None (set_call σ i (PDone c Fail))
| spec_ret σ i c r : sp_calls σ !! i = Some (PDone c r) ->
    spec_step σ (Some (ERet i c r)) (set_call σ i PIdle).

Inductive spec_steps : spec -> list (event V) -> spec -> Prop :=
| spec_steps_refl σ : spec_steps σ [] σ
| spec_steps_step σ tr σ' e σ'' : spec_steps σ tr σ' -> spec_step σ' e σ'' ->
    spec_steps σ (tr ++ option_list e) σ''.

Definition spec_init (k : nat) : spec := mkSpec [] 0 (replicate k PIdle).

Lemma spec_steps_trans σ tr σ' tr' σ'' :
  spec_steps σ tr σ' -> spec_steps σ' tr' σ'' -> spec_steps σ (tr ++ tr') σ''.
Proof.
  intros H1 H2. induction H2 as [|σ0 tr0 σ1 e σ2 H2 IH Hs]; [by rewrite app_nil_r|].
  rewrite app_assoc. econstructor; [by apply IH|done].
Qed.

Lemma spec_steps_one σ e σ' : spec_step σ e σ' -> spec_steps σ (option_list e) σ'.
Proof. intros H. apply (spec_steps_step σ [] σ e σ'); [constructor|done]. Qed.

Lemma spec_steps_two σ σ' σ'' :
  spec_step σ None σ' -> spec_step σ' None σ'' -> spec_steps σ [] σ''.
Proof.
  intros H1 H2. apply (spec_steps_trans σ [] σ' []); by apply (spec_steps_one _ None).
Qed.
End spec.

Arguments pending : clear implicits.
Arguments spec : clear implicits.
