(* ===== verification/MPMCInv.v ===== *)
(** * The invariant of MPMCQueue

    Which turn every slot is at, who holds which ticket, what the slots
    contain, and why no sleeping thread is forgotten; every step of every
    thread preserves it. *)

From S2P Require Import Prelude.
From S2P Require Import TurnSequencer.
From S2P Require Import MPMCQueue.

Lemma length_omap {A B} (f : A -> option B) (l : list A) : (length (omap f l) <= length l)%nat.
Proof. induction l as [|x l IH]; csimpl; [done|]. destruct (f x); csimpl; lia. Qed.

(** ** Strides and slots *)

(** [p] has no divisors but 1 and itself *)
Definition prime_check (p : Z) : bool :=
  (1 <? p) && forallb (fun d => (d =? 1) || (d =? p) || negb (p mod d =? 0)) (seqZ 1 p).

Lemma prime_check_gcd p n : prime_check p = true -> n mod p <> 0 -> Z.gcd p n = 1.
Proof.
  unfold prime_check. rewrite andb_true_iff, Z.ltb_lt, forallb_forall. intros [Hp Hd] Hn.
  pose proof (Z.gcd_divide_l p n) as H1. pose proof (Z.gcd_divide_r p n) as H2.
  pose proof (Z.gcd_nonneg p n). assert (Z.gcd p n <> 0) by (intros E; apply Z.gcd_eq_0_l in E; lia).
  assert (Z.gcd p n <= p) by (apply Z.divide_pos_le; [lia|done]).
  specialize (Hd (Z.gcd p n)). rewrite <-list_elem_of_In, elem_of_seqZ in Hd. specialize (Hd ltac:(lia)).
  apply Z.mod_divide in H1; [|done]. rewrite H1, orb_false_r in Hd.
  apply orb_true_iff in Hd as [E|E]; apply Z.eqb_eq in E; [done|].
  rewrite E in H2. apply Z.mod_divide in H2; lia.
Qed.

Lemma computeStride_ok cap : 0 < cap -> 1 <= computeStride cap <= 23 /\ Z.gcd (computeStride cap) cap = 1.
Proof.
  intros Hc. unfold computeStride.
  assert (forall l best, Forall (fun p => p <= 23 /\ prime_check p = true) l ->
    1 <= fst best <= 23 /\ Z.gcd (fst best) cap = 1 ->
    1 <= fst (foldl (stride_try cap) best l) <= 23 /\
    Z.gcd (fst (foldl (stride_try cap) best l)) cap = 1) as H.
  { intros l. induction l as [|p l IH]; intros best Hl Hb; [done|].
    apply Forall_cons in Hl as [[Hp Hp'] Hl]. simpl. apply IH; [done|]. unfold stride_try.
    destruct (Z.eqb_spec (cap mod p) 0) as [|Hn]; [by rewrite orb_true_r|].
    destruct (_ || _); [done|]. case_match; [|done]. simpl.
    split; [|by apply prime_check_gcd]. unfold prime_check in Hp'. lia. }
  apply H; [|rewrite Z.gcd_1_l; simpl; lia]. repeat constructor; vm_compute; intuition congruence.
Qed.

Section slots.
Context (sz cap : Z) (Hsz : 0 < sz) (Hcap : 0 < cap < 2 ^ 63).

Definition loc (r : Z) : Z := (r * computeStride cap) mod cap + kSlotPadding sz.

Lemma pad_pos : 1 <= kSlotPadding sz.
Proof. unfold kSlotPadding. pose proof (Z.div_pos (hardware_destructive_interference_size - 1) sz). unfold hardware_destructive_interference_size in *. lia. Qed.

Lemma loc_range r : kSlotPadding sz <= loc r < cap + kSlotPadding sz.
Proof. unfold loc. pose proof (Z.mod_pos_bound (r * computeStride cap) cap). lia. Qed.

Lemma loc_inj r r' : 0 <= r < cap -> 0 <= r' < cap -> loc r = loc r' -> r = r'.
Proof.
  unfold loc. intros Hr Hr' E. destruct (computeStride_ok cap) as [_ Hg]; [lia|].
  assert ((cap | (r - r') * computeStride cap)) as Hd.
  { apply Z.mod_divide; [lia|]. rewrite Z.mul_sub_distr_r, Zminus_mod.
    replace ((r * computeStride cap) mod cap) with ((r' * computeStride cap) mod cap) by lia.
    by rewrite Z.sub_diag. }
  rewrite Z.mul_comm in Hd. apply Z.gauss in Hd; [|by rewrite Z.gcd_comm].
  destruct Hd as [x Hx]. assert (x = 0) by nia. lia.
Qed.

Lemma loc_ne r r' : 0 <= r < cap -> 0 <= r' < cap -> r <> r' -> Z.to_nat (loc r) <> Z.to_nat (loc r').
Proof.
  intros Hr Hr' Hne E. apply Hne, loc_inj; [done..|].
  pose proof pad_pos. pose proof (loc_range r). pose proof (loc_range r'). lia.
Qed.

Lemma idx_loc k : 0 <= k <= 2 ^ 59 -> idx sz k cap (computeStride cap) = loc (k mod cap).
Proof.
  intros Hk. unfold idx, loc. destruct (computeStride_ok cap) as [Hs _]; [lia|].
  rewrite wrapu_id by (unfold inu; nia). by rewrite Z.mul_mod_idemp_l by lia.
Qed.

(** the turn of the write ([false]) or the read ([true]) with ticket [k] *)
Definition tno (pop : bool) (k : Z) : Z := 2 * (k / cap) + (if pop then 1 else 0).

Lemma turn_at_tno {V} (sd : side V) k : turn_at sd k cap = u32 (tno (is_pop sd) k).
Proof.
  unfold turn_at, turn, tno. unfold wrapu. rewrite Zplus_mod, Z.mul_mod_idemp_l, <-Zplus_mod by lia.
  f_equal. lia.
Qed.

(** the ticket whose operation is turn [2 * j] or [2 * j + 1] of slot [r] *)
Lemma ticket_slot j r : 0 <= r < cap -> (j * cap + r) mod cap = r /\ (j * cap + r) / cap = j.
Proof.
  intros Hr. rewrite Z.add_comm, Z.mod_add, Z.mod_small, Z.div_add, (Z.div_small r) by lia. lia.
Qed.

Lemma ticket_eq k : k = k / cap * cap + k mod cap.
Proof. pose proof (Z.div_mod k cap). lia. Qed.

Lemma tno_inj pop pop' k k' : k mod cap = k' mod cap -> tno pop k = tno pop' k' -> pop = pop' /\ k = k'.
Proof.
  unfold tno. intros Em Et. assert (pop = pop') as <- by (destruct pop, pop'; lia).
  split; [done|]. rewrite (ticket_eq k), (ticket_eq k'), Em. f_equal. lia.
Qed.

Lemma mod_cap k : 0 <= k mod cap < cap.
Proof. apply Z.mod_pos_bound. lia. Qed.
End slots.

(** ** The invariant *)

Section inv.
Context {V : Type} (hw reloc : bool) (sz cap : Z) (Hsz : 0 < sz) (Hcap : 0 < cap < 2 ^ 63).

Abbreviation tno := (tno cap).
Abbreviation loc := (loc sz cap).

Implicit Types (q : queue V) (l : local V) (ls : list (local V)) (log : list V) (ct : Z -> Z).

Definition issued (pop : bool) q : Z := if pop then popTicket_ q else pushTicket_ q.

Lemma counter_issued (sd : side V) q : counter sd q = issued (is_pop sd) q.
Proof. by destruct sd. Qed.

(** the slot of tickets [r], [r + cap], ... holds [o] and is at turn [c] *)
Definition slot_is q (r : Z) (o : option V) (c d : Z) : Prop :=
  slots_ q !! Z.to_nat (loc r) = Some (mkSlot o (pack c d)) /\ 0 <= d < 64.

(** the ticket a thread holds: it has not completed its turn yet *)
Definition holds l : option (bool * Z) :=
  match l with
  | Transfer c k (SComplete _ (CWake | CDone)) => None
  | Transfer c k _ => Some (is_pop (c_side c), k)
  | _ => None
  end.

(** a reader that is done with the contents of its slot *)
Definition spent l : option Z :=
  match l with
  | Transfer c k (SComplete _ (CLoad | CCas _)) => if is_pop (c_side c) then Some k else None
  | _ => None
  end.

Definition sleeping l : option (bool * Z) :=
  match l with
  | Transfer c k (SWait (WSleep _)) => Some (is_pop (c_side c), k)
  | _ => None
  end.

Definition waking l : option (bool * Z) :=
  match l with
  | Transfer c k (SComplete _ CWake) => Some (is_pop (c_side c), k)
  | _ => None
  end.

Definition value_at log (k : Z) : option V := log !! Z.to_nat k.

Definition phase_ok ct log q (c : call V) (k : Z) (p : slot_pc V) : Prop :=
  let t := tno (is_pop (c_side c)) k in
  let cur := ct (k mod cap) in
  match p with
  | SWait pc => cur <= t /\ wait_ok t cur pc
  | SNew => cur = t /\ is_pop (c_side c) = false
  | SMove => cur = t /\ is_pop (c_side c) = true
  | SDestroy e => cur = t /\ is_pop (c_side c) = true /\ value_at log k = Some e
  | SComplete got pc =>
      (if is_pop (c_side c) then got <> None /\ value_at log k = got else got = None) /\
      match pc with
      | CLoad | CCas _ => cur = t /\
          forall v, c_side c = SPush v -> exists d, slot_is q (k mod cap) (Some v) cur d
      | CWake | CDone => t < cur
      end
  end.

Definition promised (c : call V) : Prop := c_mode c = MPromised \/ c_mode c = MUntil.

Definition local_ok ct log q l : Prop :=
  match l with
  | Idle | Return _ _ => True
  | Take c => c_mode c = MBlocking
  | ReadyLoad c => c_mode c = MReady
  | ReadyCheck c k | ReadyReload c k => c_mode c = MReady /\ 0 <= k <= counter (c_side c) q
  | ReadyCas c k => c_mode c = MReady /\ 0 <= k <= counter (c_side c) q /\
      (k = counter (c_side c) q -> ct (k mod cap) = tno (is_pop (c_side c)) k)
  | PromLoad c => promised c
  | PromOther c k | PromCas c k => promised c /\ 0 <= k <= counter (c_side c) q
  | UntilWait c k pc => c_mode c = MUntil /\ 0 <= k <= counter (c_side c) q /\ cas_ok pc
  | Transfer c k p => 0 <= k < counter (c_side c) q /\
      (forall v, c_side c = SPush v -> value_at log k = Some v) /\
      phase_ok ct log q c k p /\
      (c_mode c = MReady -> tno (is_pop (c_side c)) k <= ct (k mod cap) /\ sleeping l = None)
  end.

(** a sleeping thread: the furthest waiter covers it, or a thread is about to
    wake it *)
Definition guarded ct q ls (pop : bool) (k : Z) : Prop :=
  (exists o d, slot_is q (k mod cap) o (ct (k mod cap)) d /\ covered (tno pop k) (ct (k mod cap)) d) \/
  (exists j l pop' k', ls !! j = Some l /\ waking l = Some (pop', k') /\ k' mod cap = k mod cap /\
     (tno pop' k' + 1) mod 32 = tno pop k mod 32).

Record inv ct log q ls : Prop := {
  inv_capacity : capacity_ q = cap;
  inv_stride : stride_ q = computeStride cap;
  inv_push : pushTicket_ q = Z.of_nat (length log);
  inv_pop : 0 <= popTicket_ q;
  (* the slots at both ends are not used *)
  inv_padding j o : slots_ q !! j = Some o -> (forall r, 0 <= r < cap -> j <> Z.to_nat (loc r)) ->
    o = mkSlot None (pack 0 0);
  inv_turn r : 0 <= r < cap -> 0 <= ct r;
  inv_slot r : 0 <= r < cap -> exists o d, slot_is q r o (ct r) d;
  (* the ticket of a completed turn was issued *)
  inv_done pop k : 0 <= k -> tno pop k < ct (k mod cap) -> k < issued pop q;
  (* an issued ticket whose turn is not completed is held by one thread *)
  inv_held pop k : 0 <= k < issued pop q -> ct (k mod cap) <= tno pop k ->
    exists i l, ls !! i = Some l /\ holds l = Some (pop, k);
  inv_unique i j l l' x : ls !! i = Some l -> ls !! j = Some l' ->
    holds l = Some x -> holds l' = Some x -> i = j;
  (* a slot that waits for a reader has the element of its ticket *)
  inv_content r j o d : 0 <= r < cap -> slot_is q r o (ct r) d -> ct r = 2 * j + 1 ->
    (forall i l, ls !! i = Some l -> spent l <> Some (j * cap + r)) ->
    o = value_at log (j * cap + r);
  inv_local i l : ls !! i = Some l -> local_ok ct log q l;
  inv_sleep i l pop k : ls !! i = Some l -> sleeping l = Some (pop, k) -> guarded ct q ls pop k
}.

(** ** How far ahead a ticket can be *)

Lemma distance ct log q ls pop k : inv ct log q ls -> 0 <= k <= issued pop q ->
  tno pop k - ct (k mod cap) <= 2 * Z.of_nat (length ls) + 2.
Proof.
  intros I Hk. set (r := k mod cap). set (b := if pop then 1 else 0).
  assert (0 <= r < cap) as Hr by (apply mod_cap; lia).
  pose proof (inv_turn _ _ _ _ I r Hr) as Hct. set (j0 := (ct r - b + 1) / 2).
  assert (0 <= b <= 1) as Hb by (unfold b; destruct pop; lia).
  assert (ct r <= 2 * j0 + b <= ct r + 1) as Hj0 by (unfold j0; Z.to_euclidean_division_equations; lia).
  set (L := (fun j => (pop, j * cap + r)) <$> seqZ j0 (k / cap - j0)).
  assert (L ⊆+ omap holds ls) as Hsub.
  { apply NoDup_submseteq.
    - apply NoDup_fmap_2_strong; [|apply NoDup_seqZ]. intros j j' _ _ E. simplify_eq. nia.
    - intros x (j & -> & Hj)%list_elem_of_fmap. apply elem_of_seqZ in Hj.
      destruct (ticket_slot cap Hcap j r Hr) as [Em Ed].
      assert (j * cap + r + cap <= k) as Hle by (rewrite (ticket_eq cap Hcap k); fold r; nia).
      destruct (inv_held _ _ _ _ I pop (j * cap + r)) as (i & l & Hi & Hh).
      { split; [|lia]. unfold j0 in *. assert (0 <= j0) by (unfold j0; apply Z.div_pos; lia). nia. }
      { rewrite Em. unfold MPMCInv.tno. rewrite Ed. fold b. lia. }
      apply list_elem_of_omap. exists l. split; [by eapply list_elem_of_lookup_2|done]. }
  apply submseteq_length in Hsub. unfold L in Hsub. rewrite length_fmap, length_seqZ in Hsub.
  pose proof (length_omap holds ls). unfold MPMCInv.tno. fold b. fold r. lia.
Qed.

(** ** Frames *)

(** what one thread holds, no other one does *)
Lemma holds_other ct log q ls i j l l' pop k pop' k' : inv ct log q ls ->
  ls !! i = Some l -> ls !! j = Some l' -> i <> j ->
  holds l = Some (pop, k) -> holds l' = Some (pop', k') ->
  k mod cap = k' mod cap -> tno pop k <> tno pop' k'.
Proof.
  intros I Hi Hj Hne Hh Hh' Em Et. apply (tno_inj cap Hcap) in Et as [-> ->]; [|done].
  apply Hne. by eapply (inv_unique _ _ _ _ I).
Qed.

(** a thread next to a slot that changes *)
Lemma local_ok_frame ct log q q' r o o' d d' l : local_ok ct log q l -> 0 <= r < cap ->
  slot_is q r o (ct r) d -> slot_is q' r o' (ct r) d' ->
  (forall sd : side V, counter sd q' = counter sd q) ->
  (forall j, j <> Z.to_nat (loc r) -> slots_ q' !! j = slots_ q !! j) ->
  (o' = o \/ forall pop k, holds l = Some (pop, k) -> k mod cap = r -> tno pop k <> ct r) ->
  local_ok ct log q' l.
Proof.
  intros Hl Hr Hs Hs' Ec Hslots Ho.
  destruct l as [| | | | | | | | | |c k p|]; simpl in *; rewrite ?Ec; try done.
  destruct Hl as (Hk & Hv & Hp & Hm). split; [done|]. split; [done|]. split; [|done].
  destruct p as [| | | |got pc]; simpl in *; try done. destruct Hp as [Hg Hp]. split; [done|].
  destruct pc; try done; destruct Hp as [Hc Hp]; (split; [done|]); intros v Ev;
    destruct (Hp v Ev) as [d0 [E0 Hd0]]; destruct (decide (k mod cap = r)) as [Er|Hner];
    try (exists d0; split; [rewrite Hslots; [done|apply loc_ne; [done..|apply mod_cap; lia|done|done]]|done]).
  all: destruct Ho as [->|Ho]; [|exfalso; apply (Ho (is_pop (c_side c)) k); [done|done|rewrite <-Er; by symmetry]].
  all: exists d'; rewrite Er in *; destruct Hs as [E1 _]; rewrite E0 in E1; by simplify_eq.
Qed.

(** a sleeping thread next to a slot whose furthest waiter moves away *)
Lemma guarded_frame ct q q' ls i l l' r o o' d d' pop k : guarded ct q ls pop k -> ls !! i = Some l ->
  waking l = None -> slot_is q r o (ct r) d -> slot_is q' r o' (ct r) d' -> d <= d' -> 0 <= r < cap ->
  (forall j, j <> Z.to_nat (loc r) -> slots_ q' !! j = slots_ q !! j) ->
  guarded ct q' (<[i := l']> ls) pop k.
Proof.
  intros [(o0 & d0 & Hs0 & Hcov)|(j' & l1 & pop' & k' & E1 & Hw1 & ?)] Hi Hw Hs Hs' Hd Hr Hslots.
  - left. destruct (decide (k mod cap = r)) as [Er|Hner].
    + exists o', d'. rewrite Er in *. split; [done|].
      assert (d0 = d) as -> by (destruct Hs0 as [E1 ?], Hs as [E2 ?]; rewrite E1 in E2; simplify_eq; by eapply pack_inj).
      by eapply covered_mono.
    + exists o0, d0. split; [|done]. destruct Hs0 as [E0 ?]. split; [|done].
      rewrite Hslots; [done|]. apply loc_ne; [done..|apply mod_cap; lia|done|done].
  - right. exists j', l1, pop', k'. split; [|done]. rewrite list_lookup_insert_ne; [done|]. intros ->. congruence.
Qed.

(** a step that leaves turns and tickets: it may change one slot *)
Lemma inv_frame ct log q ls i l l' q' r o o' d d' : inv ct log q ls -> ls !! i = Some l ->
  capacity_ q' = capacity_ q -> stride_ q' = stride_ q ->
  pushTicket_ q' = pushTicket_ q -> popTicket_ q' = popTicket_ q ->
  0 <= r < cap -> slot_is q r o (ct r) d -> slot_is q' r o' (ct r) d' -> d <= d' ->
  (forall j, j <> Z.to_nat (loc r) -> slots_ q' !! j = slots_ q !! j) ->
  holds l' = holds l -> waking l = None -> (forall k, spent l = Some k -> spent l' = Some k) ->
  (o' = o \/ (exists pop k, holds l = Some (pop, k) /\ k mod cap = r /\ tno pop k = ct r) /\
             (forall j, ct r = 2 * j + 1 -> spent l' = Some (j * cap + r))) ->
  local_ok ct log q' l' ->
  (forall pop k, sleeping l' = Some (pop, k) -> k mod cap = r /\ covered (tno pop k) (ct r) d') ->
  inv ct log q' (<[i := l']> ls).
Proof.
  intros I Hi Ecap Estr Epush Epop Hr Hs Hs' Hd Hslots Hh Hw Hsp Ho Hl' Hsl.
  assert (forall r', 0 <= r' < cap -> r' <> r -> slots_ q' !! Z.to_nat (loc r') = slots_ q !! Z.to_nat (loc r')) as Hother
    by (intros r' Hr' Hne; apply Hslots; by apply loc_ne).
  assert (forall r0 o0 d0, 0 <= r0 < cap -> r0 <> r -> slot_is q r0 o0 (ct r0) d0 -> slot_is q' r0 o0 (ct r0) d0) as Hmove.
  { intros r0 o0 d0 Hr0 Hne [E Hd0]. split; [by rewrite Hother|done]. }
  assert (forall r0, 0 <= r0 < cap -> exists o0 d0, slot_is q' r0 o0 (ct r0) d0) as Hslot.
  { intros r0 Hr0. destruct (decide (r0 = r)) as [->|Hne]; [eauto|].
    destruct (inv_slot _ _ _ _ I r0 Hr0) as (o0 & d0 & H0). eauto. }
  assert (length ls > i)%nat as Hlen by (by eapply lookup_lt_Some).
  assert (forall pop, issued pop q' = issued pop q) as Eiss by (intros [|]; simpl; done).
  split.
  - rewrite Ecap. apply I.
  - rewrite Estr. apply I.
  - rewrite Epush. apply I.
  - rewrite Epop. apply I.
  - intros j o0 E0 Hj. apply (inv_padding _ _ _ _ I j); [|done]. rewrite <-Hslots; [done|by apply Hj].
  - apply I.
  - done.
  - intros pop k. rewrite Eiss. apply I.
  - intros pop k. rewrite Eiss. intros Hk Hle. destruct (inv_held _ _ _ _ I pop k Hk Hle) as (j & l0 & Hj & Hl0).
    destruct (decide (j = i)) as [->|Hne]; [|exists j, l0; by rewrite list_lookup_insert_ne].
    exists i, l'. rewrite list_lookup_insert_eq by lia. split; [done|]. congruence.
  - intros j1 j2 l1 l2 x E1 E2 H1 H2.
    assert (forall j l0, <[i := l']> ls !! j = Some l0 -> holds l0 = Some x -> exists l1, ls !! j = Some l1 /\ holds l1 = Some x) as Hback.
    { intros j l0 [(-> & -> & _)|[_ ?]]%list_lookup_insert_Some Hx; [|by exists l0]. exists l. by rewrite <-Hh. }
    destruct (Hback _ _ E1 H1) as (? & ? & ?). destruct (Hback _ _ E2 H2) as (? & ? & ?).
    by eapply (inv_unique _ _ _ _ I).
  - intros r0 j o0 d0 Hr0 Hs0 Ej Hns.
    assert (forall i0 l0, ls !! i0 = Some l0 -> spent l0 <> Some (j * cap + r0)) as Hns'.
    { intros i0 l0 E0 Hsp0. destruct (decide (i0 = i)) as [->|Hne].
      - simplify_eq. apply (Hns i l'); [by rewrite list_lookup_insert_eq by lia|auto].
      - apply (Hns i0 l0); [by rewrite list_lookup_insert_ne|done]. }
    destruct (decide (r0 = r)) as [->|Hne].
    + assert (o0 = o') as -> by (destruct Hs0 as [E0 _], Hs' as [E1 _]; congruence).
      destruct Ho as [->|[_ Hspent]]; [by eapply (inv_content _ _ _ _ I r j o d)|].
      exfalso. apply (Hns i l'); [by rewrite list_lookup_insert_eq by lia|auto].
    + eapply (inv_content _ _ _ _ I r0 j o0 d0); try done.
      destruct Hs0 as [E0 ?]. split; [by rewrite <-Hother|done].
  - intros j l0 [(-> & -> & _)|[Hne E0]]%list_lookup_insert_Some; [done|].
    apply (local_ok_frame ct log q q' r o o' d d'); try done; [by eapply (inv_local _ _ _ _ I)| |].
    + intros sd. by rewrite !counter_issued.
    + destruct Ho as [->|[(pop & k1 & Hh1 & Em1 & Et1) _]]; [by left|right]. intros pop0 k0 Hh0 Em Et.
      eapply (holds_other ct log q ls i j l l0 pop k1 pop0 k0); try done; congruence.
  - intros j l0 pop k [(-> & -> & _)|[Hne E0]]%list_lookup_insert_Some Hsl0.
    + apply Hsl in Hsl0 as [<- Hcov]. left. eauto.
    + eapply (guarded_frame ct q q' ls i l l' r o o' d d'); try done. by eapply (inv_sleep _ _ _ _ I).
Qed.

Definition next_turn ct (r : Z) : Z -> Z := fun r' => if r' =? r then ct r + 1 else ct r'.

Lemma next_turn_eq ct r : next_turn ct r r = ct r + 1.
Proof. unfold next_turn. by rewrite Z.eqb_refl. Qed.
Lemma next_turn_ne ct r r' : r' <> r -> next_turn ct r r' = ct r'.
Proof. intros H. unfold next_turn. by rewrite (proj2 (Z.eqb_neq _ _) H). Qed.
Lemma next_turn_le ct r r' : ct r' <= next_turn ct r r'.
Proof. unfold next_turn. destruct (Z.eqb_spec r' r) as [->|]; lia. Qed.

(** a thread that is not at the completed turn stays in order *)
Lemma local_ok_complete ct log q q' r l : local_ok ct log q l -> 0 <= r < cap ->
  (forall sd : side V, counter sd q' = counter sd q) ->
  (forall j, j <> Z.to_nat (loc r) -> slots_ q' !! j = slots_ q !! j) ->
  (forall pop k, holds l = Some (pop, k) -> k mod cap = r -> tno pop k <> ct r) ->
  (forall pop k, k mod cap = r -> tno pop k = ct r -> k < issued pop q) ->
  local_ok (next_turn ct r) log q' l.
Proof.
  intros Hl Hr Ec Hslots Hh Hiss.
  assert (forall r', 0 <= r' < cap -> r' <> r -> slots_ q' !! Z.to_nat (loc r') = slots_ q !! Z.to_nat (loc r')) as Hother
    by (intros r' Hr' Hne; apply Hslots; by apply loc_ne).
  destruct l as [| | | | |c k| | | | |c k p|]; simpl in *; rewrite ?Ec; try done.
  - destruct Hl as (Hm & Hk & Ht). split; [done|]. split; [done|]. intros E. specialize (Ht E).
    destruct (decide (k mod cap = r)) as [Er|]; [|by rewrite next_turn_ne].
    exfalso. rewrite Er in Ht. specialize (Hiss (is_pop (c_side c)) k Er ltac:(done)).
    rewrite <-counter_issued in Hiss. lia.
  - destruct Hl as (Hk & Hv & Hp & Hm). split; [done|]. split; [done|].
    split; [|intros E; pose proof (next_turn_le ct r (k mod cap)); destruct (Hm E); split; [lia|done]].
    destruct (decide (k mod cap = r)) as [Er|Hne].
    + specialize (Hh (is_pop (c_side c)) k). unfold phase_ok in *. rewrite Er, next_turn_eq in *.
      destruct p as [pc| | | |got [|s| |]]; simpl in *.
      * specialize (Hh eq_refl eq_refl). split; [lia|]. eapply wait_ok_mono; [apply Hp|lia|lia].
      * exfalso. apply Hh; [done..|lia].
      * exfalso. apply Hh; [done..|lia].
      * exfalso. apply Hh; [done..|lia].
      * exfalso. apply Hh; [done..|lia].
      * exfalso. apply Hh; [done..|lia].
      * split; [apply Hp|lia].
      * split; [apply Hp|lia].
    + unfold phase_ok in *. rewrite next_turn_ne by done.
      destruct p as [pc| | | |got [|s| |]]; simpl in *; try done.
      * destruct Hp as (Hg & Hc & Hs). split; [done|]. split; [done|]. intros v Ev.
        destruct (Hs v Ev) as [d [E Hd]]. exists d. split; [|done]. rewrite Hother; [done|apply mod_cap; lia|done].
      * destruct Hp as (Hg & Hc & Hs). split; [done|]. split; [done|]. intros v Ev.
        destruct (Hs v Ev) as [d [E Hd]]. exists d. split; [|done]. rewrite Hother; [done|apply mod_cap; lia|done].
Qed.

(** a sleeping thread stays guarded: the furthest waiter still covers it, or the
    thread that completes the turn is going to wake it *)
Lemma guarded_complete ct q q' ls i l c k got d pop0 k0 : guarded ct q ls pop0 k0 ->
  let l' := Transfer c k (SComplete got (if d =? 0 then CDone else CWake)) in
  let r := k mod cap in
  ls !! i = Some l -> waking l = None -> tno (is_pop (c_side c)) k = ct r ->
  (exists o, slot_is q r o (ct r) d /\ slot_is q' r o (ct r + 1) (if d =? 0 then 0 else d - 1)) ->
  (forall j, j <> Z.to_nat (loc r) -> slots_ q' !! j = slots_ q !! j) ->
  guarded (next_turn ct r) q' (<[i := l']> ls) pop0 k0.
Proof.
  intros G l' r Hi Hw Ht (o & Hs & Hs') Hslots. assert (length ls > i)%nat as Hlen by (by eapply lookup_lt_Some).
  destruct G as [(o0 & d0 & Hs0 & Hcov)|(j' & l1 & pop' & k' & E1 & Hw1 & ?)].
  - destruct (decide (k0 mod cap = r)) as [Er|Hner].
    + unfold guarded. rewrite Er in *. rewrite next_turn_eq.
      assert (d0 = d) as -> by (destruct Hs0 as [E1 ?], Hs as [E2 ?]; rewrite E1 in E2; simplify_eq; by eapply pack_inj).
      assert (d <> 0) as Hd0 by (unfold covered in Hcov; pose proof (Z.mod_pos_bound (tno pop0 k0 - ct r - 1) 32); lia).
      unfold l'. rewrite (proj2 (Z.eqb_neq _ _) Hd0) in *.
      destruct (covered_complete _ _ _ Hcov) as [Hcov'|[_ Em]]; [left; eauto|right].
      exists i, (Transfer c k (SComplete got CWake)), (is_pop (c_side c)), k.
      rewrite list_lookup_insert_eq by lia. split_and!; [done..|]. by rewrite Ht.
    + left. rewrite next_turn_ne by done. exists o0, d0. split; [|done].
      destruct Hs0 as [E1 ?]. split; [|done]. rewrite Hslots; [done|].
      apply loc_ne; [done..|apply mod_cap; lia|apply mod_cap; lia|done].
  - right. exists j', l1, pop', k'. split; [|done]. rewrite list_lookup_insert_ne; [done|]. congruence.
Qed.

(** the holder of the current turn of slot [r] completes it *)
Lemma inv_complete ct log q ls i c k got s q' d : inv ct log q ls ->
  let l := Transfer c k (SComplete got (CCas s)) in
  let l' := Transfer c k (SComplete got (if d =? 0 then CDone else CWake)) in
  let r := k mod cap in
  ls !! i = Some l ->
  capacity_ q' = capacity_ q -> stride_ q' = stride_ q ->
  pushTicket_ q' = pushTicket_ q -> popTicket_ q' = popTicket_ q ->
  (exists o, slot_is q r o (ct r) d /\ slot_is q' r o (ct r + 1) (if d =? 0 then 0 else d - 1)) ->
  (forall j, j <> Z.to_nat (loc r) -> slots_ q' !! j = slots_ q !! j) ->
  inv (next_turn ct r) log q' (<[i := l']> ls).
Proof.
  intros I l l' r Hi Ecap Estr Epush Epop (o & Hs & Hs') Hslots.
  assert (0 <= r < cap) as Hr by (apply mod_cap; lia).
  assert (forall r', 0 <= r' < cap -> r' <> r -> slots_ q' !! Z.to_nat (loc r') = slots_ q !! Z.to_nat (loc r')) as Hother
    by (intros r' Hr' Hne; apply Hslots; by apply loc_ne).
  set (pop := is_pop (c_side c)).
  destruct (inv_local _ _ _ _ I i l Hi) as (Hk & Hv & (Hg & Hc & Hcont) & Hm). fold r pop in Hc.
  assert (holds l = Some (pop, k)) as Hhl by done.
  assert (holds l' = None) as Hhl' by (unfold l'; simpl; by destruct (d =? 0)).
  assert (spent l' = None) as Hsl' by (unfold l'; simpl; by destruct (d =? 0)).
  assert (forall pop, issued pop q' = issued pop q) as Eiss by (intros [|]; simpl; done).
  assert (length ls > i)%nat as Hlen by (by eapply lookup_lt_Some).
  assert (forall pop0 k0, k0 mod cap = r -> tno pop0 k0 = ct r -> k0 < issued pop0 q) as Hiss.
  { intros pop0 k0 Em Et. rewrite Hc in Et. apply (tno_inj cap Hcap) in Et as [-> ->]; [|done].
    unfold pop. rewrite <-counter_issued. lia. }
  split.
  - rewrite Ecap. apply I.
  - rewrite Estr. apply I.
  - rewrite Epush. apply I.
  - rewrite Epop. apply I.
  - intros j o0 E0 Hj. apply (inv_padding _ _ _ _ I j); [|done]. rewrite <-Hslots; [done|by apply Hj].
  - intros r0 Hr0. pose proof (inv_turn _ _ _ _ I r0 Hr0). pose proof (next_turn_le ct r r0). lia.
  - intros r0 Hr0. destruct (decide (r0 = r)) as [->|Hne]; [rewrite next_turn_eq; eauto|].
    rewrite next_turn_ne by done. destruct (inv_slot _ _ _ _ I r0 Hr0) as (o0 & d0 & E0 & Hd0).
    exists o0, d0. split; [by rewrite Hother|done].
  - intros pop0 k0 Hk0 Hlt. rewrite Eiss. destruct (decide (k0 mod cap = r)) as [Er|Hne].
    + rewrite Er, next_turn_eq in Hlt. destruct (decide (tno pop0 k0 = ct r)); [by apply Hiss|].
      apply (inv_done _ _ _ _ I); [done|]. rewrite Er. lia.
    + rewrite next_turn_ne in Hlt by done. by apply (inv_done _ _ _ _ I).
  - intros pop0 k0. rewrite Eiss. intros Hk0 Hle. pose proof (next_turn_le ct r (k0 mod cap)).
    destruct (inv_held _ _ _ _ I pop0 k0 Hk0 ltac:(lia)) as (j & l0 & Hj & Hl0).
    exists j, l0. split; [|done]. rewrite list_lookup_insert_ne; [done|]. intros ->.
    assert (l0 = l) as -> by congruence. rewrite Hhl in Hl0. simplify_eq. fold r in Hle. rewrite next_turn_eq in Hle. lia.
  - intros j1 j2 l1 l2 x [(-> & -> & _)|[_ E1]]%list_lookup_insert_Some E2 H1 H2; [congruence|].
    apply list_lookup_insert_Some in E2 as [(-> & -> & _)|[_ E2]]; [congruence|].
    by eapply (inv_unique _ _ _ _ I).
  - intros r0 j o0 d0 Hr0 Hs0 Ej Hns. destruct (decide (r0 = r)) as [->|Hne].
    + rewrite next_turn_eq in *. assert (o0 = o) as -> by (destruct Hs0 as [E0 _], Hs' as [E1 _]; congruence).
      assert (pop = false /\ k = j * cap + r) as [Ep Ek].
      { apply (tno_inj cap Hcap); [by rewrite (proj1 (ticket_slot cap Hcap j r Hr))|].
        rewrite <-Hc. unfold MPMCInv.tno. rewrite (proj2 (ticket_slot cap Hcap j r Hr)). lia. }
      rewrite <-Ek. unfold pop in Ep. destruct (c_side c) as [v|] eqn:Ec; [|done].
      rewrite (Hv v eq_refl). destruct (Hcont v eq_refl) as [d1 [E1 _]]. fold r in E1.
      destruct Hs as [E2 _]. congruence.
    + rewrite next_turn_ne in * by done. eapply (inv_content _ _ _ _ I r0 j o0 d0); try done.
      * destruct Hs0 as [E0 ?]. split; [by rewrite <-Hother|done].
      * intros i0 l0 E0 Hsp. destruct (decide (i0 = i)) as [->|Hne'].
        -- simplify_eq. unfold l in Hsp. simpl in Hsp. case_match; [|done]. simplify_eq.
           apply Hne. unfold r. by rewrite (proj1 (ticket_slot cap Hcap j r0 Hr0)).
        -- eapply (Hns i0); [by rewrite list_lookup_insert_ne|done].
  - intros j l0 [(<- & <- & _)|[Hne E0]]%list_lookup_insert_Some.
    + unfold l'. simpl. split; [by rewrite counter_issued, Eiss, <-counter_issued|]. split; [done|].
      fold r pop. rewrite next_turn_eq. split; [|intros _; split; [lia|done]]. split; [done|]. destruct (d =? 0); lia.
    + eapply local_ok_complete; [by eapply (inv_local _ _ _ _ I)|done| |done| |done].
      * intros sd. by rewrite !counter_issued.
      * intros pop0 k0 Hh0 Em Et. eapply (holds_other ct log q ls i j l l0 pop k pop0 k0); try done. congruence.
  - intros j l0 pop0 k0 [(<- & <- & _)|[Hne E0]]%list_lookup_insert_Some Hsl0.
    { unfold l' in Hsl0. simpl in Hsl0. done. }
    eapply (guarded_complete ct q q' ls i l c k got d); try done; [by eapply (inv_sleep _ _ _ _ I)|by exists o].
Qed.

(** ** Wake-ups *)

Lemma awake_ok t c pc : wait_ok t c pc -> wait_ok t c (awake pc).
Proof. by destruct pc. Qed.

Lemma wake_thread_same q w l :
  holds (wake_thread sz q w l) = holds l /\ spent (wake_thread sz q w l) = spent l /\
  waking (wake_thread sz q w l) = waking l.
Proof. destruct l as [| | | | | | | | | |c k [| | | |]|]; done. Qed.

Lemma wake_thread_ok ct log q w l : local_ok ct log q l -> local_ok ct log q (wake_thread sz q w l).
Proof.
  destruct l as [| | | | | | | | |c k pc|c k [pc| | | |]|]; try done; simpl.
  - intros (? & ? & ?). split_and!; try lia; [done|]. unfold woken. case_match; [by destruct pc|done].
  - intros (? & ? & [? ?] & Hm). split; [done|]. split; [done|]. unfold woken. destruct (_ && _); [|done].
    split; [split; [done|by apply awake_ok]|]. intros E. destruct (Hm E). split; [done|]. by destruct pc.
Qed.

(** who sleeps on is not reached by the wake-up *)
Lemma wake_thread_sleeping q i m l pop k : sleeping (wake_thread sz q (i, m) l) = Some (pop, k) ->
  sleeping l = Some (pop, k) /\ (slot_index sz q k = i ->
    exists sd : side V, is_pop sd = pop /\ Z.land (futexChannel (turn_at sd k (capacity_ q))) m = 0).
Proof.
  destruct l as [| | | | | | | | |c k0 pc|c k0 [pc| | | |]|]; try done; simpl.
  unfold woken. simpl. destruct (Z.eqb_spec (slot_index sz q k0) i) as [<-|Hne]; simpl.
  - destruct (Z.eqb_spec (Z.land (futexChannel (turn_at (c_side c) k0 (capacity_ q))) m) 0) as [E|]; simpl; [|by destruct pc].
    destruct pc; try done. intros. simplify_eq. split; [done|]. intros _. by exists (c_side c).
  - destruct pc; try done. intros. simplify_eq. split; [done|]. intros E. by rewrite E in Hne.
Qed.

Lemma inv_wake ct log q ls i c k got : inv ct log q ls ->
  pushTicket_ q <= 2 ^ 59 -> popTicket_ q <= 2 ^ 59 ->
  ls !! i = Some (Transfer c k (SComplete got CWake)) ->
  let w := (slot_index sz q k, futexChannel (u32 (turn_at (c_side c) k (capacity_ q) + 1))) in
  inv ct log q (wake_thread sz q w <$> <[i := Transfer c k (SComplete got CDone)]> ls).
Proof.
  intros I Ha Hb Hi w. set (l := Transfer c k (SComplete got CWake)) in *.
  set (l' := Transfer c k (SComplete got CDone)). set (ls' := <[i := l']> ls).
  assert (length ls > i)%nat as Hlen by (by eapply lookup_lt_Some).
  (* each thread of the new list comes from one of the old list *)
  assert (forall j l2, (wake_thread sz q w <$> ls') !! j = Some l2 -> exists l1,
    ls !! j = Some l1 /\ holds l2 = holds l1 /\ spent l2 = spent l1 /\ local_ok ct log q l2 /\
    (j <> i -> l2 = wake_thread sz q w l1)) as Hback.
  { intros j l2 E. rewrite list_lookup_fmap in E. apply fmap_Some in E as (l1 & E & ->).
    destruct (wake_thread_same q w l1) as (-> & -> & _).
    apply list_lookup_insert_Some in E as [(<- & <- & _)|[Hne E]].
    - exists l. split_and!; try done. apply wake_thread_ok.
      destruct (inv_local _ _ _ _ I i l Hi) as (? & ? & [? ?] & ?). done.
    - exists l1. split_and!; try done. apply wake_thread_ok. by eapply (inv_local _ _ _ _ I). }
  assert (forall j l1, ls !! j = Some l1 -> j <> i ->
    (wake_thread sz q w <$> ls') !! j = Some (wake_thread sz q w l1)) as Hfwd.
  { intros j l1 E Hne. rewrite list_lookup_fmap. unfold ls'. by rewrite list_lookup_insert_ne, E. }
  assert (forall pop k0 j l1, ls !! j = Some l1 -> holds l1 = Some (pop, k0) -> j <> i) as Hnot
    by (intros pop k0 j l1 E Hh ->; assert (l1 = l) as -> by congruence; done).
  split; try apply I.
  - intros pop k0 Hk0 Hle. destruct (inv_held _ _ _ _ I pop k0 Hk0 Hle) as (j & l1 & E & Hh).
    exists j, (wake_thread sz q w l1). split; [by eauto|]. by destruct (wake_thread_same q w l1) as (-> & _).
  - intros j1 j2 l1 l2 x E1 E2 H1 H2. destruct (Hback _ _ E1) as (l3 & E3 & H3 & _).
    destruct (Hback _ _ E2) as (l4 & E4 & H4 & _). apply (inv_unique _ _ _ _ I _ _ l3 l4 x); [done..| |]; congruence.
  - intros r j o d Hr Hs Ej Hns. eapply (inv_content _ _ _ _ I); try done.
    intros i0 l0 E0 Hsp. assert (i0 <> i) as Hne by (intros ->; assert (l0 = l) as -> by congruence; done).
    eapply Hns; [by apply Hfwd|]. by destruct (wake_thread_same q w l0) as (_ & -> & _).
  - intros j l2 E. by destruct (Hback _ _ E) as (? & _ & _ & _ & ? & _).
  - intros j l2 pop k0 E Hsl. destruct (Hback _ _ E) as (l1 & E1 & Hh & _ & Hl2 & Hw).
    assert (j <> i) as Hne.
    { intros ->. assert (l1 = l) as -> by congruence. by destruct l2 as [| | | | | | | | | |? ? []|]. }
    rewrite (Hw Hne) in Hsl. apply wake_thread_sleeping in Hsl as [Hsl Hmiss].
    destruct (inv_sleep _ _ _ _ I j l1 pop k0 E1 Hsl) as [?|(j' & l3 & pop' & k' & E3 & Hw3 & Em & Et)]; [by left|].
    destruct (decide (j' = i)) as [->|Hne'].
    + exfalso. assert (l3 = l) as -> by congruence. injection Hw3 as <- <-.
      assert (0 <= k0 <= 2 ^ 59 /\ 0 <= k <= 2 ^ 59) as [Hk0 Hk].
      { pose proof (inv_local _ _ _ _ I _ _ E1) as H1. pose proof (inv_local _ _ _ _ I _ _ Hi) as H2.
        destruct l1 as [| | | | | | | | | |c1 k1 [[]| | | |]|]; try done. injection Hsl as _ <-.
        destruct H1 as [H1 _], H2 as [H2 _]. destruct (c_side c), (c_side c1); simpl in *; lia. }
      destruct Hmiss as (sd & Esd & Hz).
      { unfold slot_index. rewrite (inv_capacity _ _ _ _ I), (inv_stride _ _ _ _ I), !idx_loc by done. by rewrite Em. }
      apply (channel_meet (tno pop k0) (tno (is_pop (c_side c)) k + 1)) ; [done|].
      rewrite (inv_capacity _ _ _ _ I), !turn_at_tno, Esd, wrapu_add_l in Hz by lia. done.
    + right. exists j', (wake_thread sz q w l3), pop', k'. split; [by apply Hfwd|].
      by destruct (wake_thread_same q w l3) as (_ & _ & ->).
Qed.

(** ** Taking a ticket *)

Lemma value_at_app log log' k v : value_at log k = Some v -> value_at (log ++ log') k = Some v.
Proof. apply lookup_app_l_Some. Qed.

Definition logged (sd : side V) log : list V := match sd with SPush v => log ++ [v] | SPop => log end.

Lemma logged_value sd log k v : value_at log k = Some v -> value_at (logged sd log) k = Some v.
Proof. destruct sd; [apply value_at_app|done]. Qed.

Lemma local_ok_issue ct log q sd l : counter sd q < 2 ^ 59 -> 0 <= counter sd q ->
  local_ok ct log q l -> local_ok ct (logged sd log) (bump sd q) l.
Proof.
  intros Hlt H0 Hl.
  assert (forall sd', counter sd' q <= counter sd' (bump sd q) <= counter sd' q + 1) as Hc.
  { intros sd'. destruct sd, sd'; simpl in *; rewrite ?wrapu_id by (unfold inu; lia); lia. }
  assert (forall sd' k, 0 <= k <= counter sd' q -> 0 <= k <= counter sd' (bump sd q)) as Hle
    by (intros sd' k; specialize (Hc sd'); lia).
  destruct l as [| | | | |c k| | | | |c k p|]; simpl in *; try (by naive_solver).
  - destruct Hl as (Hm & Hk & Ht). split; [done|]. split; [by apply Hle|]. intros E. apply Ht.
    specialize (Hc (c_side c)). lia.
  - destruct Hl as (Hk & Hv & Hp & Hm). split; [specialize (Hc (c_side c)); lia|].
    split; [intros v Ev; apply logged_value; auto|]. split; [|done].
    unfold phase_ok in *. destruct p as [| | | |got pc]; try done.
    + destruct Hp as (? & ? & ?). split_and!; try done. by apply logged_value.
    + destruct Hp as [Hg Hp]. split.
      * destruct (is_pop (c_side c)); [|done]. destruct Hg as [Hn Hg]. split; [done|].
        destruct got as [e|]; [|done]. by apply logged_value.
      * destruct pc; try done; destruct Hp as [Hc1 Hp]; (split; [done|]); intros v Ev;
          destruct (Hp v Ev) as [d [E Hd]]; exists d; split; [by destruct sd|done|by destruct sd|done].
Qed.

Lemma inv_issue ct log q ls i l c : inv ct log q ls -> ls !! i = Some l ->
  let k := counter (c_side c) q in
  k < 2 ^ 59 -> holds l = None -> waking l = None -> spent l = None ->
  (c_mode c = MReady -> ct (k mod cap) = tno (is_pop (c_side c)) k) ->
  inv ct (logged (c_side c) log) (bump (c_side c) q)
    (<[i := Transfer c k (SWait WCutoff)]> ls).
Proof.
  intros I Hi k Hk Hh Hw Hsp Hm. set (sd := c_side c) in *. set (l' := Transfer c k (SWait WCutoff)).
  assert (length ls > i)%nat as Hlen by (by eapply lookup_lt_Some).
  assert (0 <= k) as Hk0.
  { unfold k. destruct sd; simpl; [rewrite (inv_push _ _ _ _ I); lia|apply I]. }
  assert (forall pop, issued pop (bump sd q) = if bool_decide (pop = is_pop sd) then issued pop q + 1 else issued pop q) as Eiss.
  { unfold k in *. intros pop. destruct sd, pop; simpl in *; rewrite ?wrapu_id by (unfold inu; lia); done. }
  assert (forall pop, issued pop q <= issued pop (bump sd q)) as Hmono by (intros pop; rewrite Eiss; case_bool_decide; lia).
  assert (forall r o c d, slot_is (bump sd q) r o c d <-> slot_is q r o c d) as Hslot by (intros; by destruct sd).
  assert (ct (k mod cap) <= tno (is_pop sd) k) as Hcur.
  { destruct (decide (ct (k mod cap) <= tno (is_pop sd) k)); [done|].
    assert (k < issued (is_pop sd) q) by (apply (inv_done _ _ _ _ I); [done|lia]).
    unfold k in *. rewrite counter_issued in *. lia. }
  split.
  - destruct sd; apply I.
  - destruct sd; apply I.
  - destruct sd; simpl in *; [|apply I]. rewrite wrapu_id by (unfold inu; lia).
    rewrite length_app. simpl. rewrite (inv_push _ _ _ _ I). lia.
  - pose proof (inv_pop _ _ _ _ I). specialize (Hmono true). simpl in Hmono. lia.
  - destruct sd; apply I.
  - apply I.
  - intros r Hr. destruct (inv_slot _ _ _ _ I r Hr) as (o & d & H). exists o, d. by apply Hslot.
  - intros pop k0 H0 Hlt. specialize (Hmono pop). pose proof (inv_done _ _ _ _ I pop k0 H0 Hlt). lia.
  - intros pop k0 H0 Hle. destruct (decide (pop = is_pop sd /\ k0 = k)) as [[-> ->]|Hne].
    + exists i, l'. by rewrite list_lookup_insert_eq by lia.
    + destruct (inv_held _ _ _ _ I pop k0) as (j & l0 & E0 & Hh0); [|done|].
      { rewrite Eiss in H0. case_bool_decide as Hp; [|done]. subst pop.
        assert (k0 <> k) by naive_solver. unfold k in *. rewrite counter_issued in *. lia. }
      exists j, l0. split; [|done]. rewrite list_lookup_insert_ne; [done|]. congruence.
  - assert (forall j l0, ls !! j = Some l0 -> holds l0 = holds l' -> False) as Hnew.
    { intros j l0 E0 Hh0. pose proof (inv_local _ _ _ _ I j l0 E0) as Hl0. simpl in Hh0.
      destruct l0 as [| | | | | | | | | |c0 k0 p0|]; try done.
      assert (is_pop (c_side c0) = is_pop sd /\ k0 = k) as [Ep Ek]
        by (simpl in Hh0; repeat case_match; by simplify_eq).
      destruct Hl0 as [Hlt _]. unfold k in Ek. rewrite counter_issued in *. rewrite Ep in Hlt. lia. }
    intros j1 j2 l1 l2 x [(<- & <- & _)|[Hn1 E1]]%list_lookup_insert_Some E2 H1 H2;
      apply list_lookup_insert_Some in E2 as [(<- & <- & _)|[Hn2 E2]]; [done|..].
    + exfalso. apply (Hnew j2 l2); [done|congruence].
    + exfalso. apply (Hnew j1 l1); [done|congruence].
    + by eapply (inv_unique _ _ _ _ I).
  - intros r j o d Hr Hs Ej Hns. apply Hslot in Hs.
    assert (o = value_at log (j * cap + r)) as ->.
    { eapply (inv_content _ _ _ _ I); try done. intros i0 l0 E0 Hs0.
      eapply (Hns i0 l0); [|done]. rewrite list_lookup_insert_ne; [done|]. congruence. }
    destruct (ticket_slot cap Hcap j r Hr) as [Em Ed].
    assert (j * cap + r < issued false q) as Hlt.
    { pose proof (inv_turn _ _ _ _ I r Hr). apply (inv_done _ _ _ _ I); [nia|].
      rewrite Em. unfold MPMCInv.tno. rewrite Ed. lia. }
    simpl in Hlt. rewrite (inv_push _ _ _ _ I) in Hlt. pose proof (inv_turn _ _ _ _ I r Hr).
    destruct (lookup_lt_is_Some_2 log (Z.to_nat (j * cap + r)) ltac:(nia)) as [v Ev].
    unfold value_at at 1. rewrite Ev. symmetry. by apply logged_value.
  - intros j l0 [(<- & <- & _)|[Hne E0]]%list_lookup_insert_Some.
    + split.
      { fold sd. rewrite counter_issued, Eiss, bool_decide_true by done. rewrite <-counter_issued. fold k. lia. }
      fold sd. split.
      { intros v Ev. unfold k. rewrite Ev. simpl. unfold value_at.
        rewrite (inv_push _ _ _ _ I), Nat2Z.id. by apply list_lookup_middle. }
      split; [split; [done|done]|]. intros E. rewrite Hm by done. done.
    + apply local_ok_issue; [done..|]. by eapply (inv_local _ _ _ _ I).
  - intros j l0 pop k0 [(<- & <- & _)|[Hne E0]]%list_lookup_insert_Some Hsl; [done|].
    destruct (inv_sleep _ _ _ _ I j l0 pop k0 E0 Hsl) as [(o & d & Hs & Hcov)|(j' & l3 & pop' & k' & E3 & Hw3 & ?)].
    + left. exists o, d. by rewrite Hslot.
    + right. exists j', l3, pop', k'. split; [|done]. rewrite list_lookup_insert_ne; [done|]. congruence.
Qed.
End inv.
