(* ===== verification/MPMCSteps.v ===== *)
(** * The steps of MPMCQueue

    No step of a thread fails, every step preserves the invariant of MPMCInv.v,
    and a thread whose turn has arrived comes closer to its return with every
    step. *)

From S2P Require Import Prelude.
From S2P Require Import TurnSequencer.
From S2P Require Import MPMCQueue.
From S2P Require Import MPMCInv.

Section steps.
Context {V : Type} (hw reloc : bool) (sz cap : Z) (Hsz : 0 < sz) (Hcap : 0 < cap < 2 ^ 63).

Abbreviation tno := (tno cap).
Abbreviation loc := (loc sz cap).
Abbreviation inv := (inv sz cap).
Abbreviation slot_is := (slot_is sz cap).
Abbreviation slot_index := (slot_index sz).
Abbreviation locate := (locate sz).
Abbreviation local_ok := (local_ok sz cap).

Implicit Types (q : queue V) (l : local V) (ls : list (local V)) (log : list V) (ct : Z -> Z).

(** tickets stay far below the range of their type, and there are fewer threads
    than the turns a word tells apart *)
Definition bounded q ls : Prop :=
  pushTicket_ q < 2 ^ 59 /\ popTicket_ q < 2 ^ 59 /\ Z.of_nat (length ls) <= 2 ^ 23.

(** ** Slots *)

Lemma slot_is_set_cutoff b x q r o c d : slot_is (set_cutoff b x q) r o c d <-> slot_is q r o c d.
Proof. done. Qed.

Lemma set_cutoff_id q : set_cutoff true (popSpinCutoff_ q) q = q.
Proof. by destruct q. Qed.

Lemma set_slot_is q r o c d o' c' d' : 0 <= r < cap -> slot_is q r o c d -> 0 <= d' < 64 ->
  slot_is (set_slot q (loc r) (mkSlot o' (pack c' d'))) r o' c' d'.
Proof.
  intros Hr [E Hd] Hd'. split; [|done]. simpl. rewrite list_lookup_insert_eq; [done|].
  by apply lookup_lt_is_Some_1; exists (mkSlot o (pack c d)).
Qed.

Lemma set_slot_other q r s j : j <> Z.to_nat (loc r) ->
  slots_ (set_slot q (loc r) s) !! j = slots_ q !! j.
Proof. intros Hne. simpl. by rewrite list_lookup_insert_ne. Qed.

(** a slot that is written back as it is *)
Lemma set_slot_id q r o c d : slot_is q r o c d -> set_slot q (loc r) (mkSlot o (pack c d)) = q.
Proof. intros [E _]. unfold set_slot. rewrite list_insert_id by done. by destruct q. Qed.

Lemma slot_is_fun q r o c d o' d' : slot_is q r o c d -> slot_is q r o' c d' -> o = o' /\ d = d'.
Proof.
  intros [E Hd] [E' Hd']. rewrite E in E'. injection E' as -> E'. split; [done|]. by eapply pack_inj.
Qed.

Section state.
Context (ct : Z -> Z) (log : list V) (q : queue V) (ls : list (local V)).
Context (I : inv ct log q ls) (B : bounded q ls).

Lemma issued_range pop : 0 <= issued pop q < 2 ^ 59.
Proof.
  destruct B as (B1 & B2 & _). destruct pop; simpl; [split; [apply I|done]|].
  rewrite (inv_push _ _ _ _ _ _ I) in *. lia.
Qed.

Lemma index_loc k : 0 <= k <= 2 ^ 59 -> slot_index q k = loc (k mod cap).
Proof.
  intros Hk. unfold MPMCQueue.slot_index. rewrite (inv_capacity _ _ _ _ _ _ I), (inv_stride _ _ _ _ _ _ I).
  by apply idx_loc.
Qed.

Lemma locate_ok k : 0 <= k <= 2 ^ 59 -> exists o d,
  locate q k = Ok (mkSlot o (pack (ct (k mod cap)) d)) /\ slot_is q (k mod cap) o (ct (k mod cap)) d.
Proof.
  intros Hk. destruct (inv_slot _ _ _ _ _ _ I (k mod cap)) as (o & d & H); [apply mod_cap; lia|].
  exists o, d. split; [|done]. unfold MPMCQueue.locate. rewrite index_loc, (proj1 H) by done.
  rewrite (inv_capacity _ _ _ _ _ _ I), (proj2 (Z.eqb_neq _ _)) by lia. done.
Qed.

(** a step inside a thread *)
Lemma inv_thread i l l' : ls !! i = Some l -> holds l' = holds l -> waking l = None ->
  (forall k, spent l = Some k -> spent l' = Some k) -> sleeping l' = None -> local_ok ct log q l' ->
  inv ct log q (<[i := l']> ls).
Proof.
  intros Hi Hh Hw Hsp Hsl Hl. destruct (inv_slot _ _ _ _ _ _ I 0) as (o & d & Hs); [lia|].
  eapply (inv_frame sz cap Hsz Hcap ct log q ls i l l' q 0 o o d d); try done; try lia; [by left|congruence].
Qed.

(** ** Closeness to the return of a thread that has its turn *)

Definition slot_rank (word : Z) (p : slot_pc V) : nat :=
  match p with
  | SWait (WSleep _) => 13
  | SWait (WCutoff | WCas _ _ _ | WFutex _ _) => 12
  | SWait (WLoad _) => 11
  | SWait (WAdapt _) => 10
  | SWait (WReturn _) => 9
  | SNew | SMove => 8
  | SDestroy _ => 7
  | SComplete _ CLoad => 6
  | SComplete _ (CCas s) => if s =? word then 4 else 5
  | SComplete _ CWake => 3
  | SComplete _ CDone => 2
  end.

(** the result of the operation with ticket [k] *)
Definition result log (c : call V) (k : Z) : ret V :=
  match c_side c with
  | SPush _ => Written
  | SPop => match value_at log k with Some e => Got k e | None => Fail end
  end.

(** a step of the thread [i] that is at [p] with its ticket [k] *)
Definition good (i : nat) (c : call V) (k : Z) (word : Z) (p : slot_pc V) (o : res (option (@outcome V))) : Prop :=
  match o with
  | Err _ | Ok None => False
  | Ok (Some (q', l', w)) =>
      pushTicket_ q' = pushTicket_ q /\ popTicket_ q' = popTicket_ q /\
      (exists ct', (forall r, ct r <= ct' r) /\ inv ct' log q' (wake_all sz q' w (<[i := l']> ls))) /\
      ((exists p' o' c' d', l' = Transfer c k p' /\ slot_is q' (k mod cap) o' c' d' /\
         (tno (is_pop (c_side c)) k <= ct (k mod cap) -> (slot_rank (pack c' d') p' < slot_rank word p)%nat)) \/
       (l' = Return c (result log c k) /\ tno (is_pop (c_side c)) k < ct (k mod cap)))
  end.

Section thread.
Context (i : nat) (c : call V) (k : Z).
Let r := k mod cap.
Let t := tno (is_pop (c_side c)) k.

Lemma ticket_range p : ls !! i = Some (Transfer c k p) -> 0 <= k <= 2 ^ 59 /\ 0 <= r < cap.
Proof.
  intros Hi. destruct (inv_local _ _ _ _ _ _ I _ _ Hi) as [Hk _]. rewrite counter_issued in Hk.
  pose proof (issued_range (is_pop (c_side c))). split; [lia|]. apply mod_cap. lia.
Qed.

(** a step that keeps the turn and the ticket *)
Lemma good_keep p p' q' o d o' d' : ls !! i = Some (Transfer c k p) ->
  slot_is q r o (ct r) d ->
  q' = set_slot q (loc r) (mkSlot o' (pack (ct r) d')) ->
  d <= d' < 64 ->
  holds (Transfer c k p) = Some (is_pop (c_side c), k) -> holds (Transfer c k p') = Some (is_pop (c_side c), k) ->
  spent (Transfer c k p) = None \/ spent (Transfer c k p') = Some k ->
  (o' = o \/ t = ct r /\ (is_pop (c_side c) = true -> spent (Transfer c k p') = Some k)) ->
  local_ok ct log q' (Transfer c k p') ->
  (sleeping (Transfer c k p') <> None -> covered t (ct r) d') ->
  forall b x, inv ct log (set_cutoff b x q') (<[i := Transfer c k p']> ls).
Proof.
  intros Hi Hs -> Hd Hh Hh' Hsp Ho Hl Hsl b x. destruct (ticket_range p Hi) as [_ Hr].
  assert (0 <= d < 64) as Hd0 by apply Hs.
  eapply (inv_frame sz cap Hsz Hcap ct log q ls i (Transfer c k p) _ _ r o o' d d'); try done.
  - apply (set_slot_is q r o (ct r) d); [done|done|lia].
  - lia.
  - intros j Hj. by apply set_slot_other.
  - by rewrite Hh.
  - destruct p as [| | | |? []]; done.
  - intros k' E. destruct Hsp as [Hsp|Hsp]; [congruence|]. rewrite Hsp.
    destruct p as [| | | |? []]; simpl in E; try done; case_match; congruence.
  - destruct Ho as [->|[Ht Hp]]; [by left|right]. split; [by exists (is_pop (c_side c)), k|].
    intros j Ej. destruct (ticket_slot cap Hcap j r Hr) as [Em Ed].
    assert (is_pop (c_side c) = true /\ k = j * cap + r) as [Ep Ek].
    { apply (tno_inj cap Hcap); [by rewrite Em|]. fold t. rewrite Ht. unfold MPMCInv.tno. rewrite Ed. lia. }
    rewrite <-Ek. auto.
  - intros pop k' E. assert (pop = is_pop (c_side c) /\ k' = k) as [-> ->].
    { destruct p' as [[]| | | |]; simpl in E; try done. by simplify_eq. }
    split; [done|]. apply Hsl. by rewrite E.
Qed.
(** the turn of a ticket is near *)
Lemma turn_near p : ls !! i = Some (Transfer c k p) -> holds (Transfer c k p) <> None ->
  t - 2 ^ 25 < ct r <= t.
Proof.
  intros Hi Hh. destruct (ticket_range p Hi) as [Hk _].
  destruct (inv_local _ _ _ _ _ _ I _ _ Hi) as (Hlt & _ & Hp & _). rewrite counter_issued in Hlt.
  pose proof (distance sz cap Hcap ct log q ls (is_pop (c_side c)) k I ltac:(lia)) as Hdist.
  destruct B as (_ & _ & Bn). fold r t in Hdist. split; [lia|]. unfold phase_ok in Hp. fold r t in Hp.
  destruct p as [| | | |? []]; simpl in *; try done; lia.
Qed.

Lemma good_wait pc inp : ls !! i = Some (Transfer c k (SWait pc)) ->
  match pc with WSleep _ | WReturn _ => False | _ => True end ->
  exists o d, slot_is q r o (ct r) d /\
  good i c k (pack (ct r) d) (SWait pc) (transfer_step hw reloc sz q c k inp (SWait pc)).
Proof.
  intros Hi Hpc. destruct (ticket_range _ Hi) as [Hk Hr].
  destruct (locate_ok k Hk) as (o & d & El & Hs). fold r in El, Hs.
  pose proof (proj2 Hs) as Hd. pose proof (turn_near _ Hi ltac:(done)) as Ht.
  destruct (inv_local _ _ _ _ _ _ I _ _ Hi) as (Hlt & Hv & [Hle Hok] & Hm). fold r t in Hle, Hok, Hm.
  exists o, d. split; [done|].
  assert (transfer_step hw reloc sz q c k inp (SWait pc) =
    wait_at hw sz q (c_side c) (is_pop (c_side c)) k inp pc (fun pc => Transfer c k (SWait pc))) as ->
    by (destruct pc; done).
  unfold wait_at. rewrite El. cbn [mbind res_bind sequencer_ contents_].
  rewrite (inv_capacity _ _ _ _ _ _ I), turn_at_tno. fold t.
  destruct (wait_step _ _ _ _ _ _ _ _) as [[[st cut] pc']|] eqn:E; [|by destruct pc].
  pose proof (wait_step_ok hw t (ct r) d Ht Hd _ _ _ _ _ _ _ _ Hok E) as (d' & -> & Hd' & Hok' & Hcov).
  split; [done|]. split; [done|]. rewrite (index_loc k Hk). fold r. split.
  - exists ct. split; [done|]. simpl. assert (sleeping (Transfer c k (SWait pc')) <> None -> covered t (ct r) d') as Hsl.
    { intros Hsl. apply Hcov. destruct pc'; try done. eauto. }
    eapply (good_keep (SWait pc) (SWait pc') _ o d o d'); try done; auto.
    split; [done|]. split; [done|]. split; [done|]. intros E'. split; [by apply Hm|].
    destruct pc'; try done. destruct (Hsl ltac:(done)). destruct (Hm E'). lia.
  - left. exists (SWait pc'), o, (ct r), d'. split; [done|]. split.
    { apply slot_is_set_cutoff. by apply (set_slot_is q r o (ct r) d); [| |lia]. }
    fold r t. intros Hge. assert (ct r = t) as Ect by lia.
    destruct (wait_step_arrived hw t (ct r) d Ht Hd (k mod kAdaptationFreq =? 0) (in_now inp) (in_weak inp)
      (cutoff (is_pop (c_side c)) q) pc Ect Hok Hpc) as (cut1 & pc1 & E1 & Hpc1).
    rewrite E1 in E. injection E as _ <- <-.
    destruct pc; try done;
      [destruct Hpc1 as [? ->]|destruct Hpc1 as [->| ->]|destruct Hpc1 as [? ->]..|subst pc1]; simpl; lia.
Qed.

Lemma good_arrived pc inp : ls !! i = Some (Transfer c k (SWait (WReturn pc))) ->
  exists o d, slot_is q r o (ct r) d /\
  good i c k (pack (ct r) d) (SWait (WReturn pc)) (transfer_step hw reloc sz q c k inp (SWait (WReturn pc))).
Proof.
  intros Hi. destruct (ticket_range _ Hi) as [Hk Hr].
  destruct (locate_ok k Hk) as (o & d & El & Hs). fold r in El, Hs.
  destruct (inv_local _ _ _ _ _ _ I _ _ Hi) as (Hlt & Hv & (Hle & -> & Ht) & Hm). fold r t in Hle, Ht, Hm.
  exists o, d. split; [done|]. set (p' := (match c_side c with SPush _ => SNew | SPop => SMove end : slot_pc V)).
  split; [done|]. split; [done|]. split.
  - exists ct. split; [done|]. simpl. fold p'. apply (inv_thread i _ _ Hi); try done; try (by unfold p'; destruct (c_side c)).
    split; [done|]. split; [done|].
    split; [|intros E; split; [by apply Hm|unfold p'; by destruct (c_side c)]]. unfold p', phase_ok. fold r t. by destruct (c_side c).
  - left. exists p', o, (ct r), d. split; [done|]. split; [done|]. intros _.
    unfold p'. destruct (c_side c); simpl; lia.
Qed.
Lemma good_new inp : ls !! i = Some (Transfer c k SNew) ->
  exists o d, slot_is q r o (ct r) d /\
  good i c k (pack (ct r) d) SNew (transfer_step hw reloc sz q c k inp SNew).
Proof.
  intros Hi. destruct (ticket_range _ Hi) as [Hk Hr].
  destruct (locate_ok k Hk) as (o & d & El & Hs). fold r in El, Hs. pose proof (proj2 Hs) as Hd.
  destruct (inv_local _ _ _ _ _ _ I _ _ Hi) as (Hlt & Hv & (Ht & Hp) & Hm). fold r t in Ht, Hm.
  assert (exists v, c_side c = SPush v) as [v Ec] by (destruct (c_side c); eauto; done).
  exists o, d. split; [done|]. simpl. rewrite El, (index_loc k Hk), Ec. fold r. cbn [mbind res_bind sequencer_].
  set (q' := set_slot _ _ _). assert (slot_is q' r (Some v) (ct r) d) as Hs' by by eapply set_slot_is.
  split; [done|]. split; [done|]. split.
  - exists ct. split; [done|]. simpl. rewrite <-(set_cutoff_id q').
    eapply (good_keep SNew _ _ o d (Some v) d); try done; [lia|by left| |].
    + right. split; [done|]. by rewrite Hp.
    + split; [done|]. split; [done|]. split; [|intros E; split; [by apply Hm|done]].
      split; [by rewrite Hp|]. split; [done|]. intros v' Ev'. assert (v' = v) as -> by congruence. by exists d.
  - left. exists (SComplete None CLoad), (Some v), (ct r), d. split; [done|]. split; [done|]. simpl. lia.
Qed.

Lemma good_move inp : ls !! i = Some (Transfer c k SMove) ->
  exists o d, slot_is q r o (ct r) d /\
  good i c k (pack (ct r) d) SMove (transfer_step hw reloc sz q c k inp SMove).
Proof.
  intros Hi. destruct (ticket_range _ Hi) as [Hk Hr].
  destruct (locate_ok k Hk) as (o & d & El & Hs). fold r in El, Hs.
  destruct (inv_local _ _ _ _ _ _ I _ _ Hi) as (Hlt & Hv & (Ht & Hp) & Hm). fold r t in Ht, Hm.
  exists o, d. split; [done|]. simpl. rewrite El. cbn [mbind res_bind contents_].
  assert (o = value_at log k) as Eo.
  { rewrite (ticket_eq cap Hcap k). fold r. eapply (inv_content _ _ _ _ _ _ I r (k / cap) o d); try done.
    - rewrite Ht. unfold t, MPMCInv.tno. by rewrite Hp.
    - intros j l Hj Hsp. assert (holds l = Some (true, k)) as Hhl.
      { rewrite (ticket_eq cap Hcap k). fold r.
        destruct l as [| | | | | | | | | |c0 k0 [| | | |got []]|]; simpl in *; try done;
          destruct (is_pop (c_side c0)); congruence. }
      assert (j = i) as -> by (eapply (inv_unique _ _ _ _ _ _ I j i l); [done..|]; simpl; by rewrite Hp).
      rewrite Hi in Hj. injection Hj as <-. done. }
  assert (k < issued false q) as Hlt'.
  { apply (inv_done _ _ _ _ _ _ I); [lia|]. fold r. rewrite Ht. unfold t, MPMCInv.tno. rewrite Hp. lia. }
  simpl in Hlt'. rewrite (inv_push _ _ _ _ _ _ I) in Hlt'.
  destruct (lookup_lt_is_Some_2 log (Z.to_nat k) ltac:(lia)) as [e Ee]. change (value_at log k = Some e) in Ee.
  rewrite Eo, Ee. cbn [of_option mbind res_bind].
  set (p' := if reloc then SComplete (Some e) CLoad else SDestroy e).
  split; [done|]. split; [done|]. split.
  - exists ct. split; [done|]. simpl. apply (inv_thread i _ _ Hi); try done; try (by unfold p'; destruct reloc).
    split; [done|]. split; [done|]. split; [|intros E; split; [by apply Hm|unfold p'; by destruct reloc]].
    unfold p', phase_ok. fold r t. destruct reloc; [|done].
    rewrite Hp. split; [done|]. split; [done|]. intros v Ev. by rewrite Ev in Hp.
  - left. exists p', o, (ct r), d. split; [done|]. split; [done|]. intros _. unfold p'. destruct reloc; simpl; lia.
Qed.

Lemma good_destroy inp e : ls !! i = Some (Transfer c k (SDestroy e)) ->
  exists o d, slot_is q r o (ct r) d /\
  good i c k (pack (ct r) d) (SDestroy e) (transfer_step hw reloc sz q c k inp (SDestroy e)).
Proof.
  intros Hi. destruct (ticket_range _ Hi) as [Hk Hr].
  destruct (locate_ok k Hk) as (o & d & El & Hs). fold r in El, Hs. pose proof (proj2 Hs) as Hd.
  destruct (inv_local _ _ _ _ _ _ I _ _ Hi) as (Hlt & Hv & (Ht & Hp & He) & Hm). fold r t in Ht, Hm.
  exists o, d. split; [done|]. simpl. rewrite El, (index_loc k Hk). fold r. cbn [mbind res_bind sequencer_].
  set (q' := set_slot _ _ _). assert (slot_is q' r None (ct r) d) as Hs' by by eapply set_slot_is.
  split; [done|]. split; [done|]. split.
  - exists ct. split; [done|]. simpl. rewrite <-(set_cutoff_id q').
    eapply (good_keep (SDestroy e) _ _ o d None d); try done; [lia|by left| |].
    + right. split; [done|]. intros _. simpl. by rewrite Hp.
    + split; [done|]. split; [done|]. split; [|intros E; split; [by apply Hm|done]]. split; [by rewrite Hp|].
      split; [done|]. intros v Ev. by rewrite Ev in Hp.
  - left. exists (SComplete (Some e) CLoad), None, (ct r), d. split; [done|]. split; [done|]. simpl. lia.
Qed.

Lemma good_complete inp got pc : ls !! i = Some (Transfer c k (SComplete got pc)) -> pc = CLoad \/ (exists s, pc = CCas s) ->
  exists o d, slot_is q r o (ct r) d /\
  good i c k (pack (ct r) d) (SComplete got pc) (transfer_step hw reloc sz q c k inp (SComplete got pc)).
Proof.
  intros Hi Hpc. destruct (ticket_range _ Hi) as [Hk Hr].
  destruct (locate_ok k Hk) as (o & d & El & Hs). fold r in El, Hs. pose proof (proj2 Hs) as Hd.
  destruct (inv_local _ _ _ _ _ _ I _ _ Hi) as (Hlt & Hv & (Hg & Hp) & Hm). fold r t in Hm.
  assert (ct r = t /\ forall v, c_side c = SPush v -> exists d, slot_is q r (Some v) (ct r) d) as [Ht Hc].
  { destruct Hpc as [->|[s ->]]; done. }
  exists o, d. split; [done|].
  assert (transfer_step hw reloc sz q c k inp (SComplete got pc) = (slot ← locate q k;
    Ok (match complete_step (turn_at (c_side c) k (capacity_ q)) (sequencer_ slot) pc with
        | None => None
        | Some (state, pc, mask) => Some (set_slot q (slot_index q k) (mkSlot (contents_ slot) state),
            Transfer c k (SComplete got pc), (fun m => (slot_index q k, m)) <$> mask) end))) as ->
    by (destruct Hpc as [->|[s ->]]; done).
  rewrite El, (index_loc k Hk). fold r. cbn [mbind res_bind sequencer_ contents_].
  rewrite (inv_capacity _ _ _ _ _ _ I), turn_at_tno. fold t.
  destruct (complete_step _ _ _) as [[[st pc'] w]|] eqn:E; [|destruct Hpc as [->|[s ->]]; simpl in E; by repeat case_match].
  destruct (complete_step_ok t (ct r) d pc st pc' w Hd Ht Hpc E) as [-> [[-> [s Es]]|[-> ->]]].
  - assert (pack (ct r) d = s) as Es'.
    { subst pc'. destruct Hpc as [->|[s0 ->]]; simpl in E; [congruence|]. case_match; simplify_eq; [|done].
      by destruct (decodeMaxWaitersDelta _ =? 0). }
    rewrite (set_slot_id q r o (ct r) d Hs). subst pc'. split; [done|]. split; [done|]. split.
    + exists ct. split; [done|]. simpl. apply (inv_thread i _ _ Hi); try done; try (by destruct Hpc as [->|[s1 ->]]).
    + left. exists (SComplete got (CCas s)), o, (ct r), d. split; [done|]. split; [done|]. intros _.
      rewrite <-Es'. simpl. rewrite Z.eqb_refl. destruct Hpc as [->|[s0 ->]]; simpl in *; [lia|].
      rewrite Z.eqb_sym. destruct (Z.eqb_spec (pack (ct r) d) s0); [|lia].
      by destruct (decodeMaxWaitersDelta _ =? 0).
  - assert (exists s, pc = CCas s) as [s ->].
    { destruct Hpc as [->|?]; [|done]. simpl in E. by destruct (d =? 0). }
    split; [done|]. split; [done|]. simpl.
    assert (0 <= (if d =? 0 then 0 else d - 1) < 64) as Hd' by (destruct (Z.eqb_spec d 0); lia).
    split.
    + exists (next_turn ct r). split; [apply next_turn_le|]. eapply inv_complete; try done; try (intros; by apply set_slot_other).
      exists o. split; [done|]. fold r. by eapply set_slot_is.
    + left. eexists _, o, (ct r + 1), (if d =? 0 then 0 else d - 1). split; [done|].
      split; [by eapply set_slot_is|]. intros _. simpl. destruct (d =? 0), (s =? _); simpl; lia.
Qed.

Lemma good_done inp got pc : ls !! i = Some (Transfer c k (SComplete got pc)) -> pc = CWake \/ pc = CDone ->
  exists o d, slot_is q r o (ct r) d /\
  good i c k (pack (ct r) d) (SComplete got pc) (transfer_step hw reloc sz q c k inp (SComplete got pc)).
Proof.
  intros Hi Hpc. destruct (ticket_range _ Hi) as [Hk Hr].
  destruct (locate_ok k Hk) as (o & d & El & Hs). fold r in El, Hs.
  destruct (inv_local _ _ _ _ _ _ I _ _ Hi) as (Hlt & Hv & (Hg & Hp) & Hm).
  exists o, d. split; [done|]. destruct Hpc as [-> | ->]; simpl.
  - rewrite El. cbn [mbind res_bind sequencer_ contents_]. simpl. rewrite (index_loc k Hk). fold r.
    rewrite (set_slot_id q r o (ct r) d Hs). split; [done|]. split; [done|]. split.
    + exists ct. split; [done|]. destruct B as (? & ? & ?). simpl. replace (loc r) with (slot_index q k) by (by apply index_loc).
      apply (inv_wake sz cap Hcap); [done|lia|lia|done].
    + left. exists (SComplete got CDone), o, (ct r), d. split; [done|]. split; [done|]. simpl. lia.
  - split; [done|]. split; [done|]. split.
    + exists ct. split; [done|]. simpl. by apply (inv_thread i _ _ Hi).
    + right. split; [|done]. unfold result. destruct (c_side c); simpl in Hg; [by subst got|].
      destruct Hg as [Hg ->]. by destruct got.
Qed.

(** every step with a ticket *)
Lemma good_step inp p : ls !! i = Some (Transfer c k p) ->
  (exists sp, p = SWait (WSleep sp) /\ transfer_step hw reloc sz q c k inp p = Ok None) \/
  exists o d, slot_is q r o (ct r) d /\ good i c k (pack (ct r) d) p (transfer_step hw reloc sz q c k inp p).
Proof.
  intros Hi. destruct p as [pc| | |e|got pc].
  - destruct pc; try (right; by apply good_wait); [|right; by apply good_arrived].
    left. exists sp. split; [done|]. destruct (ticket_range _ Hi) as [Hk Hr].
    destruct (locate_ok k Hk) as (o & d & El & _). unfold transfer_step, wait_at. by rewrite El.
  - right. by apply good_new.
  - right. by apply good_move.
  - right. by apply good_destroy.
  - right. destruct pc; try (apply good_complete; by eauto); apply good_done; by eauto.
Qed.
End thread.
End state.
End steps.
