(* ===== verification/MPMCRefine.v ===== *)
(** * MPMCQueue refines the bounded queue of MPMCSpec.v

    A ticket takes effect when it is issued or, if it has to wait, when the
    ticket it waits for is issued: of [a] writes and [b] reads that have tickets,
    the first [min a (b + cap)] writes and [min a b] reads have taken effect. *)

From S2P Require Import Prelude.
From S2P Require Import TurnSequencer.
From S2P Require Import MPMCQueue.
From S2P Require Import MPMCSpec.
From S2P Require Import MPMCInv.
From S2P Require Import MPMCSteps.

Section window.
Context {V : Type} (cap : Z) (Hcap : 0 < cap < 2 ^ 63).
Implicit Types log : list V.

(** the elements in the queue *)
Definition window (a b : Z) log : list V :=
  take (Z.to_nat (Z.min a (b + cap) - Z.min a b)) (drop (Z.to_nat (Z.min a b)) log).

Lemma window_length a b log : 0 <= a -> 0 <= b -> a = Z.of_nat (length log) ->
  Z.of_nat (length (window a b log)) = Z.min a (b + cap) - Z.min a b.
Proof. intros Ha Hb E. unfold window. rewrite length_take, length_drop. lia. Qed.

Lemma window_push_room a b log v : 0 <= b <= a -> a < b + cap -> a = Z.of_nat (length log) ->
  window (a + 1) b (log ++ [v]) = window a b log ++ [v].
Proof.
  intros Hb Ha E. unfold window. rewrite !(Z.min_r _ b), !Z.min_l, drop_app_le by lia.
  rewrite !take_ge; [done|..]; rewrite ?length_app, length_drop; simpl; lia.
Qed.

Lemma window_push_full a b log v : 0 <= b -> b + cap <= a -> a = Z.of_nat (length log) ->
  window (a + 1) b (log ++ [v]) = window a b log.
Proof.
  intros Hb Ha E. unfold window. rewrite !(Z.min_r _ b), !Z.min_r, drop_app_le, take_app_le by (rewrite ?length_drop; lia).
  done.
Qed.

Lemma window_empty a b log : a <= b -> window a b log = [].
Proof. intros Hab. unfold window. by rewrite !Z.min_l, Z.sub_diag by lia. Qed.

Lemma window_pop a b log v : 0 <= b < a -> a = Z.of_nat (length log) -> value_at log b = Some v ->
  exists rest, window a b log = v :: rest /\
    window a (b + 1) log = rest ++ (if b + cap <? a then option_list (value_at log (b + cap)) else []).
Proof.
  intros Hb E Ev. unfold value_at in *. unfold window. rewrite !(Z.min_r _ b), !(Z.min_r _ (b + 1)) by lia.
  rewrite (drop_S log v) by done. replace (Z.to_nat (b + 1)) with (S (Z.to_nat b)) by lia.
  set (l := drop (S (Z.to_nat b)) log). destruct (Z.ltb_spec (b + cap) a).
  - rewrite !Z.min_r by lia. replace (Z.to_nat (b + cap - b)) with (S (Z.to_nat (cap - 1))) by lia.
    replace (Z.to_nat (b + 1 + cap - (b + 1))) with (S (Z.to_nat (cap - 1))) by lia. simpl.
    eexists. split; [done|]. destruct (lookup_lt_is_Some_2 log (Z.to_nat (b + cap)) ltac:(lia)) as [w Ew].
    rewrite Ew. simpl. apply take_S_r. unfold l. rewrite lookup_drop, <-Ew. f_equal. lia.
  - rewrite !Z.min_l by lia. replace (Z.to_nat (a - b)) with (S (Z.to_nat (a - (b + 1)))) by lia. simpl.
    eexists. split; [done|]. by rewrite app_nil_r.
Qed.
End window.

Section refine.
Context {V : Type} (hw reloc : bool) (sz cap : Z) (Hsz : 0 < sz) (Hcap : 0 < cap < 2 ^ 63).

Abbreviation tno := (tno cap).
Abbreviation inv := (inv sz cap).
Abbreviation local_ok := (local_ok sz cap).
Abbreviation window := (window cap).

Implicit Types (q : queue V) (l : local V) (ls : list (local V)) (log : list V) (ct : Z -> Z).
Implicit Types (s : sys V) (σ : spec V).

(** the operation with ticket [k] has taken effect *)
Definition effective q (c : call V) (k : Z) : bool :=
  match c_side c with
  | SPush _ => k <? popTicket_ q + cap
  | SPop => k <? pushTicket_ q
  end.

Definition abs_local q log l (f : bool) : pending V :=
  match l with
  | Idle => PIdle
  | Return c r => PDone c r
  | Transfer c k _ => if effective q c k then PDone c (result log c k) else PCalled c f
  | Take c | ReadyLoad c | ReadyCheck c _ | ReadyReload c _ | ReadyCas c _ | PromLoad c
  | PromOther c _ | PromCas c _ | UntilWait c _ _ => PCalled c f
  end.

(** where the thread has seen that it may be refused *)
Definition flag_ok q l (f : bool) : Prop :=
  match l with
  | ReadyReload c prev => prev = counter (c_side c) q -> f = true
  | UntilWait _ _ _ => f = true
  | _ => True
  end.

Definition abs_thread q log l p : Prop := exists f, p = abs_local q log l f /\ flag_ok q l f.

Record sim log q ls σ : Prop := {
  sim_queue : sp_queue σ = window (pushTicket_ q) (popTicket_ q) log;
  sim_pops : sp_pops σ = Z.min (pushTicket_ q) (popTicket_ q);
  sim_length : length (sp_calls σ) = length ls;
  sim_thread i l p : ls !! i = Some l -> sp_calls σ !! i = Some p -> abs_thread q log l p
}.

Lemma sim_call log q ls σ i l : sim log q ls σ -> ls !! i = Some l ->
  exists f, sp_calls σ !! i = Some (abs_local q log l f) /\ flag_ok q l f.
Proof.
  intros S Hi. destruct (lookup_lt_is_Some_2 (sp_calls σ) i) as [p Hp].
  { rewrite (sim_length _ _ _ _ S). by eapply lookup_lt_Some. }
  destruct (sim_thread _ _ _ _ S i l p Hi Hp) as (f & -> & Hf). eauto.
Qed.

(** threads that are woken look the same *)
Lemma abs_thread_wake q log w l p : abs_thread q log (wake_thread sz q w l) p <-> abs_thread q log l p.
Proof. unfold abs_thread. by destruct l as [| | | | | | | | | |? ? []|]. Qed.

Lemma abs_thread_queue q q' log l p : pushTicket_ q' = pushTicket_ q -> popTicket_ q' = popTicket_ q ->
  abs_thread q log l p -> abs_thread q' log l p.
Proof.
  intros Ea Eb (f & -> & Hf). exists f. unfold abs_local, effective, flag_ok, counter in *. rewrite Ea, Eb. done.
Qed.

(** a step without tickets: the thread gets [p'] as its state *)
Lemma sim_quiet log q q' ls σ i l' w p' : sim log q ls σ -> (i < length ls)%nat ->
  pushTicket_ q' = pushTicket_ q -> popTicket_ q' = popTicket_ q ->
  abs_thread q' log l' p' ->
  sim log q' (wake_all sz q' w (<[i := l']> ls)) (set_call σ i p').
Proof.
  intros S Hi Ea Eb Hp. assert (sim log q' (<[i := l']> ls) (set_call σ i p')) as S'.
  { split; simpl.
    - rewrite Ea, Eb. apply S.
    - rewrite Ea, Eb. apply S.
    - rewrite !length_insert. apply S.
    - intros j l p [(<- & <- & _)|[Hne E]]%list_lookup_insert_Some E'.
      + rewrite list_lookup_insert_eq in E' by (rewrite (sim_length _ _ _ _ S); done). by simplify_eq.
      + rewrite list_lookup_insert_ne in E' by done. eapply abs_thread_queue; [done..|].
        by eapply (sim_thread _ _ _ _ S). }
  destruct w as [w|]; [|done]. simpl. split; try apply S'.
  - rewrite length_fmap. apply S'.
  - intros j l p E E'. rewrite list_lookup_fmap in E. apply fmap_Some in E as (l0 & E & ->).
    apply abs_thread_wake. by eapply (sim_thread _ _ _ _ S').
Qed.

Lemma set_call_id σ i p : sp_calls σ !! i = Some p -> set_call σ i p = σ.
Proof. intros E. unfold set_call. rewrite list_insert_id by done. by destruct σ. Qed.

(** ** Tickets *)

Section issue.
Context (ct : Z -> Z) (log : list V) (q : queue V) (ls : list (local V)) (σ : spec V).
Context (I : inv ct log q ls) (B : bounded q ls) (S : sim log q ls σ).
Let a := pushTicket_ q.
Let b := popTicket_ q.

Lemma ticket_bounds : 0 <= a < 2 ^ 59 /\ 0 <= b < 2 ^ 59 /\ a = Z.of_nat (length log).
Proof.
  unfold a, b. pose proof (inv_pop _ _ _ _ _ _ I). pose proof (inv_push _ _ _ _ _ _ I).
  destruct B as (? & ? & _). lia.
Qed.

(** a read completes after its write, a write after the read that frees its slot *)
Lemma completed_read k : 0 <= k -> tno true k < ct (k mod cap) -> k < a.
Proof. intros Hk Hlt. apply (inv_done _ _ _ _ _ _ I false k Hk). unfold MPMCInv.tno in *. lia. Qed.

Lemma completed_write k : 0 <= k -> tno false k < ct (k mod cap) -> k < b + cap.
Proof.
  intros Hk Hlt. pose proof ticket_bounds. destruct (decide (k < cap)); [lia|].
  assert ((k - cap) mod cap = k mod cap /\ (k - cap) / cap = k / cap - 1) as [Em Ed].
  { replace (k - cap) with (k + (-1) * cap) by lia. rewrite Z.mod_add, Z.div_add by lia. lia. }
  pose proof (inv_done _ _ _ _ _ _ I true (k - cap) ltac:(lia)) as Hd. simpl in Hd. fold b in Hd.
  enough (k - cap < b) by lia. apply Hd. rewrite Em. unfold MPMCInv.tno in *. rewrite Ed. lia.
Qed.

(** who has a ticket, holds it or has completed *)
Lemma transfer_holds j c k p : ls !! j = Some (Transfer c k p) ->
  holds (Transfer c k p) = Some (is_pop (c_side c), k) \/ tno (is_pop (c_side c)) k < ct (k mod cap).
Proof.
  intros E. destruct (inv_local _ _ _ _ _ _ I _ _ E) as (_ & _ & Hp & _).
  destruct p as [| | | |got []]; simpl in *; auto. all: right; apply Hp.
Qed.

(** the waiting thread that a new ticket lets through *)
Lemma waiting_read : a < b -> exists j c p, ls !! j = Some (Transfer c a p) /\ c_side c = SPop /\
  holds (Transfer c a p) <> None /\
  forall j' c' p', ls !! j' = Some (Transfer c' a p') -> c_side c' = SPop -> j' = j.
Proof.
  intros Hab. pose proof ticket_bounds. destruct (inv_held _ _ _ _ _ _ I true a) as (j & l & Hj & Hh); [simpl; fold b; lia|..].
  { destruct (decide (ct (a mod cap) <= tno true a)); [done|]. pose proof (completed_read a ltac:(lia) ltac:(lia)). lia. }
  destruct l as [| | | | | | | | | |c k p|]; try done.
  assert (c_side c = SPop /\ k = a) as [Ec ->].
  { destruct p as [| | | |got []]; simpl in Hh; destruct (c_side c); split; simpl in *; congruence. }
  exists j, c, p. split_and!; [done..|by rewrite Hh|]. intros j' c' p' E' Ec'.
  destruct (transfer_holds j' c' a p' E') as [Hh'|Hlt].
  - eapply (inv_unique _ _ _ _ _ _ I); [done..| |done]. by rewrite Hh', Ec'.
  - rewrite Ec' in Hlt. pose proof (completed_read a ltac:(lia) Hlt). lia.
Qed.

Lemma waiting_write : b + cap < a -> exists j c p v, ls !! j = Some (Transfer c (b + cap) p) /\
  c_side c = SPush v /\ value_at log (b + cap) = Some v /\ holds (Transfer c (b + cap) p) <> None /\
  forall j' c' p', ls !! j' = Some (Transfer c' (b + cap) p') -> is_pop (c_side c') = false -> j' = j.
Proof.
  intros Hab. pose proof ticket_bounds.
  destruct (inv_held _ _ _ _ _ _ I false (b + cap)) as (j & l & Hj & Hh); [simpl; fold a; lia|..].
  { destruct (decide (ct ((b + cap) mod cap) <= tno false (b + cap))); [done|].
    pose proof (completed_write (b + cap) ltac:(lia) ltac:(lia)). lia. }
  destruct l as [| | | | | | | | | |c k p|]; try done.
  assert (exists v, c_side c = SPush v /\ k = b + cap) as (v & Ec & ->).
  { destruct p as [| | | |got []]; simpl in Hh; destruct (c_side c) as [v|]; simpl in Hh; try congruence; exists v; split; congruence. }
  exists j, c, p, v. split_and!; [done..| |by rewrite Hh|].
  { destruct (inv_local _ _ _ _ _ _ I _ _ Hj) as (_ & Hv & _). by apply Hv. }
  intros j' c' p' E' Ec'. destruct (transfer_holds j' c' _ p' E') as [Hh'|Hlt].
  - eapply (inv_unique _ _ _ _ _ _ I); [done..| |done]. by rewrite Hh', Ec'.
  - rewrite Ec' in Hlt. pose proof (completed_write (b + cap) ltac:(lia) Hlt). lia.
Qed.

(** a thread for which the new ticket makes no difference *)
Lemma abs_thread_issue sd l p : local_ok ct log q l ->
  (forall c k p0, l = Transfer c k p0 -> effective (bump sd q) c k = effective q c k) ->
  abs_thread q log l p -> abs_thread (bump sd q) (logged sd log) l p.
Proof.
  intros Hl Heff (f & -> & Hf). pose proof ticket_bounds as (Ha & Hb & Hlog). exists f. split.
  - destruct l as [| | | | | | | | | |c k p|]; try done. simpl. rewrite (Heff c k p eq_refl).
    unfold effective. destruct (c_side c) eqn:Ec.
    + unfold result. by rewrite Ec.
    + destruct (Z.ltb_spec k (pushTicket_ q)); [|done]. unfold result. rewrite Ec. fold a in H.
      destruct Hl as [Hk _]. destruct (lookup_lt_is_Some_2 log (Z.to_nat k) ltac:(lia)) as [v Ev].
      rewrite (logged_value sd log k v Ev). unfold value_at. by rewrite Ev.
  - destruct l as [| | | |c prev| | | | | | |]; try done. simpl in *. intros E. apply Hf.
    destruct Hl as [_ Hl]. unfold a, b in *. destruct sd, (c_side c); simpl in *; rewrite ?wrapu_id in E by (unfold inu; lia); lia.
Qed.

(** the threads after a ticket was issued to thread [i]: those whose call has the
    same state as before, and those that are given *)
Lemma sim_issued sd i l' σ' : sp_queue σ' = window (pushTicket_ (bump sd q)) (popTicket_ (bump sd q)) (logged sd log) ->
  sp_pops σ' = Z.min (pushTicket_ (bump sd q)) (popTicket_ (bump sd q)) ->
  length (sp_calls σ') = length (sp_calls σ) ->
  (forall p, sp_calls σ' !! i = Some p -> abs_thread (bump sd q) (logged sd log) l' p) ->
  (forall j l p, j <> i -> ls !! j = Some l -> sp_calls σ' !! j = Some p ->
     abs_thread (bump sd q) (logged sd log) l p \/
     sp_calls σ !! j = Some p /\
     forall c k p0, l = Transfer c k p0 -> effective (bump sd q) c k = effective q c k) ->
  sim (logged sd log) (bump sd q) (<[i := l']> ls) σ'.
Proof.
  intros Hq Hp Hlen Hi Hother. split; [done..| |].
  - rewrite Hlen, length_insert. apply S.
  - intros j l p [(<- & <- & _)|[Hne E]]%list_lookup_insert_Some E'; [by apply Hi|].
    destruct (Hother j l p) as [H|[Es Heff]]; [done..|]. apply abs_thread_issue; [|done|].
    + by eapply (inv_local _ _ _ _ _ _ I).
    + by eapply (sim_thread _ _ _ _ S).
Qed.

Section push.
Context (i : nat) (c : call V) (v : V) (f : bool).
Context (Hi : (i < length ls)%nat) (Ecall : sp_calls σ !! i = Some (PCalled c f)) (Ec : c_side c = SPush v).
Context (Hh : forall l, ls !! i = Some l -> holds l = None).

Lemma push_tickets : pushTicket_ (bump (SPush v) q) = a + 1 /\ popTicket_ (bump (SPush v) q) = b.
Proof. pose proof ticket_bounds. simpl. rewrite wrapu_id by (unfold inu; fold a; lia). done. Qed.

Lemma push_self p : p = (if a <? b + cap then PDone c Written else PCalled c f) ->
  abs_thread (bump (SPush v) q) (logged (SPush v) log) (Transfer c a (SWait WCutoff)) p.
Proof.
  intros ->. exists f. split; [|done]. destruct push_tickets as [_ Eb].
  unfold abs_local, effective, result. by rewrite Ec, Eb.
Qed.

(** only the read with ticket [a] is concerned *)
Lemma push_unconcerned c0 k0 : (k0 = a -> c_side c0 <> SPop) ->
  effective (bump (SPush v) q) c0 k0 = effective q c0 k0.
Proof.
  intros Hne. destruct push_tickets as [Ea Eb]. unfold effective. rewrite Ea, Eb.
  destruct (c_side c0); [done|]. fold a. assert (k0 <> a) by naive_solver.
  destruct (Z.ltb_spec k0 a), (Z.ltb_spec k0 (a + 1)); [done|lia|lia|done].
Qed.

Lemma no_read_ahead j c0 p0 : b <= a -> ls !! j = Some (Transfer c0 a p0) -> c_side c0 <> SPop.
Proof.
  intros Hba E Ec0. destruct (inv_local _ _ _ _ _ _ I _ _ E) as [Hk _]. rewrite Ec0 in Hk. simpl in Hk.
  fold b in Hk. lia.
Qed.

(** a read waits for this write: both take effect *)
Lemma sim_push_helps : a < b -> exists σ', spec_steps cap σ [] σ' /\
  sim (logged (SPush v) log) (bump (SPush v) q) (<[i := Transfer c a (SWait WCutoff)]> ls) σ'.
Proof.
  intros Hab. pose proof ticket_bounds as (Ha & Hb & Hlog). destruct push_tickets as [Ea' Eb'].
  destruct (waiting_read Hab) as (j & c1 & p1 & Ej & Ec1 & Hh1 & Honly).
  assert (j <> i) as Hji by (intros ->; apply Hh1; auto).
  destruct (sim_call _ _ _ _ _ _ S Ej) as (f1 & Ej' & _). simpl in Ej'. unfold effective in Ej'.
  rewrite Ec1 in Ej'. fold a in Ej'. rewrite Z.ltb_irrefl in Ej'.
  assert (sp_queue σ = []) as Eq by (rewrite (sim_queue _ _ _ _ S); apply window_empty; fold a b; lia).
  assert (sp_pops σ = a) as Ep by (rewrite (sim_pops _ _ _ _ S); fold a b; lia).
  eexists. split; [eapply spec_steps_two|].
  { eapply (spec_push cap σ i c v); [done..|]. rewrite Eq. simpl. lia. }
  { eapply (spec_pop cap _ j c1 v []); [simpl; by rewrite list_lookup_insert_ne|done|simpl; by rewrite Eq]. }
  cbn [sp_queue sp_pops sp_calls]. rewrite Ep. apply sim_issued; rewrite ?Ea', ?Eb'; cbn [sp_queue sp_pops sp_calls].
  - symmetry. apply window_empty; lia.
  - lia.
  - by rewrite !length_insert.
  - intros p. rewrite list_lookup_insert_ne, list_lookup_insert_eq by (rewrite ?(sim_length _ _ _ _ S); done).
    intros [= <-]. apply push_self. by rewrite (proj2 (Z.ltb_lt a (b + cap))) by lia.
  - intros j0 l0 p0 Hn E E'. apply list_lookup_insert_Some in E' as [(<- & <- & _)|[Hn' E']].
    + left. rewrite Ej in E. injection E as <-. exists false. split; [|done].
      unfold abs_local, effective, result. rewrite Ec1, Ea', (proj2 (Z.ltb_lt a (a + 1))) by lia.
      unfold value_at. simpl. rewrite Hlog, Nat2Z.id. by rewrite list_lookup_middle.
    + right. rewrite list_lookup_insert_ne in E' by done. split; [done|]. intros c0 k0 p2 ->.
      apply push_unconcerned. intros -> Ec0. apply Hn'. symmetry. by eapply Honly.
Qed.

(** there is room *)
Lemma sim_push_room : b <= a < b + cap -> exists σ', spec_steps cap σ [] σ' /\
  sim (logged (SPush v) log) (bump (SPush v) q) (<[i := Transfer c a (SWait WCutoff)]> ls) σ'.
Proof.
  intros Hab. pose proof ticket_bounds as (Ha & Hb & Hlog). destruct push_tickets as [Ea' Eb'].
  exists (mkSpec (sp_queue σ ++ [v]) (sp_pops σ) (<[i := PDone c Written]> (sp_calls σ))).
  split; [apply (spec_steps_one _ _ None); eapply spec_push; [done..|]|].
  { rewrite (sim_queue _ _ _ _ S), window_length by (fold a b; lia). fold a b. lia. }
  apply sim_issued; rewrite ?Ea', ?Eb'; cbn [sp_queue sp_pops sp_calls].
  - rewrite (sim_queue _ _ _ _ S). symmetry. apply window_push_room; fold a b; lia.
  - rewrite (sim_pops _ _ _ _ S). fold a b. lia.
  - by rewrite length_insert.
  - intros p. rewrite list_lookup_insert_eq by (rewrite (sim_length _ _ _ _ S); done).
    intros [= <-]. apply push_self. by rewrite (proj2 (Z.ltb_lt a (b + cap))) by lia.
  - intros j0 l0 p0 Hn E E'. right. rewrite list_lookup_insert_ne in E' by done. split; [done|].
    intros c0 k0 p2 ->. apply push_unconcerned. intros ->. eapply no_read_ahead; [lia|done].
Qed.

(** the queue is full: the write has to wait *)
Lemma sim_push_waits : b + cap <= a ->
  sim (logged (SPush v) log) (bump (SPush v) q) (<[i := Transfer c a (SWait WCutoff)]> ls) σ.
Proof.
  intros Hab. pose proof ticket_bounds as (Ha & Hb & Hlog). destruct push_tickets as [Ea' Eb'].
  apply sim_issued; rewrite ?Ea', ?Eb'.
  - rewrite (sim_queue _ _ _ _ S). symmetry. apply window_push_full; fold a b; lia.
  - rewrite (sim_pops _ _ _ _ S). fold a b. lia.
  - done.
  - intros p. rewrite Ecall. intros [= <-]. apply push_self. by rewrite (proj2 (Z.ltb_ge a (b + cap))) by lia.
  - intros j0 l0 p0 Hn E E'. right. split; [done|]. intros c0 k0 p2 ->. apply push_unconcerned. intros ->.
    eapply no_read_ahead; [lia|done].
Qed.
End push.

Section pop.
Context (i : nat) (c : call V) (f : bool).
Context (Hi : (i < length ls)%nat) (Ecall : sp_calls σ !! i = Some (PCalled c f)) (Ec : c_side c = SPop).
Context (Hh : forall l, ls !! i = Some l -> holds l = None).

Lemma pop_tickets : pushTicket_ (bump (@SPop V) q) = a /\ popTicket_ (bump (@SPop V) q) = b + 1.
Proof. pose proof ticket_bounds. simpl. rewrite wrapu_id by (unfold inu; fold b; lia). done. Qed.

Lemma pop_self p : p = (if b <? a then PDone c (result log c b) else PCalled c f) ->
  abs_thread (bump SPop q) (logged SPop log) (Transfer c b (SWait WCutoff)) p.
Proof.
  intros ->. exists f. split; [|done]. destruct pop_tickets as [Ea _]. unfold abs_local, effective. by rewrite Ec, Ea.
Qed.

(** only the write with ticket [b + cap] is concerned *)
Lemma pop_unconcerned c0 k0 : (k0 = b + cap -> c_side c0 = SPop) ->
  effective (bump SPop q) c0 k0 = effective q c0 k0.
Proof.
  intros Hne. destruct pop_tickets as [Ea Eb]. unfold effective. rewrite Ea, Eb.
  destruct (c_side c0); [|done]. fold b. assert (k0 <> b + cap) by naive_solver.
  destruct (Z.ltb_spec k0 (b + cap)), (Z.ltb_spec k0 (b + 1 + cap)); [done|lia|lia|done].
Qed.

Lemma no_write_ahead j c0 p0 : a <= b + cap -> ls !! j = Some (Transfer c0 (b + cap) p0) -> c_side c0 = SPop.
Proof.
  intros Hba E. destruct (inv_local _ _ _ _ _ _ I _ _ E) as [Hk _]. destruct (c_side c0); [|done].
  simpl in Hk. fold a in Hk. lia.
Qed.

(** there is an element; a write that waits for its place takes effect, too *)
Lemma sim_pop_element : b < a -> exists σ', spec_steps cap σ [] σ' /\
  sim (logged SPop log) (bump SPop q) (<[i := Transfer c b (SWait WCutoff)]> ls) σ'.
Proof.
  intros Hab. pose proof ticket_bounds as (Ha & Hb & Hlog). destruct pop_tickets as [Ea' Eb'].
  destruct (lookup_lt_is_Some_2 log (Z.to_nat b) ltac:(lia)) as [v Ev]. change (value_at log b = Some v) in Ev.
  destruct (window_pop cap Hcap a b log v ltac:(lia) Hlog Ev) as (rest & Ew & Ew').
  pose proof (window_length cap Hcap a b log ltac:(lia) ltac:(lia) Hlog) as Hlen. rewrite Ew in Hlen. simpl in Hlen.
  assert (sp_pops σ = b) as Ep by (rewrite (sim_pops _ _ _ _ S); fold a b; lia).
  assert (PDone c (Got b v) = if b <? a then PDone c (result log c b) else PCalled c f) as Hself
    by (rewrite (proj2 (Z.ltb_lt b a)) by lia; unfold result; by rewrite Ec, Ev).
  assert (spec_step cap σ None (mkSpec rest (b + 1) (<[i := PDone c (Got b v)]> (sp_calls σ)))) as Hpop.
  { rewrite <-Ep. eapply spec_pop; [done..|]. by rewrite (sim_queue _ _ _ _ S). }
  destruct (Z.ltb_spec (b + cap) a) as [Hwait|Hnone].
  - destruct (waiting_write Hwait) as (j & c1 & p1 & w & Ej & Ec1 & Evw & Hh1 & Honly).
    assert (j <> i) as Hji by (intros ->; apply Hh1; auto).
    destruct (sim_call _ _ _ _ _ _ S Ej) as (f1 & Ej' & _). simpl in Ej'. unfold effective in Ej'.
    rewrite Ec1 in Ej'. fold b in Ej'. rewrite Z.ltb_irrefl in Ej'.
    eexists. split; [eapply spec_steps_two; [apply Hpop|]|].
    { eapply (spec_push cap _ j c1 w); [simpl; by rewrite list_lookup_insert_ne|done|]. simpl. lia. }
    apply sim_issued; rewrite ?Ea', ?Eb'; cbn [sp_queue sp_pops sp_calls]; [cbn [logged]; by rewrite Ew', Evw|lia|by rewrite !length_insert|..].
    + intros p. rewrite list_lookup_insert_ne, list_lookup_insert_eq by (rewrite ?(sim_length _ _ _ _ S); done).
      intros [= <-]. by apply pop_self.
    + intros j0 l0 p0 Hn E E'. apply list_lookup_insert_Some in E' as [(<- & <- & _)|[Hn' E']].
      * left. rewrite Ej in E. injection E as <-. exists false. split; [|done]. unfold abs_local, effective, result.
        by rewrite Ec1, Eb', (proj2 (Z.ltb_lt (b + cap) (b + 1 + cap))) by lia.
      * right. rewrite list_lookup_insert_ne in E' by done. split; [done|]. intros c0 k0 p2 ->.
        apply pop_unconcerned. intros ->. destruct (c_side c0) eqn:Ec0; [|done].
        exfalso. apply Hn'. symmetry. eapply Honly; [done|]. by rewrite Ec0.
  - eexists. split; [by apply (spec_steps_one _ _ None)|].
    apply sim_issued; rewrite ?Ea', ?Eb'; cbn [sp_queue sp_pops sp_calls]; [cbn [logged]; by rewrite Ew', app_nil_r|lia|by rewrite length_insert|..].
    + intros p. rewrite list_lookup_insert_eq by (rewrite (sim_length _ _ _ _ S); done). intros [= <-]. by apply pop_self.
    + intros j0 l0 p0 Hn E E'. right. rewrite list_lookup_insert_ne in E' by done. split; [done|].
      intros c0 k0 p2 ->. apply pop_unconcerned. intros ->. eapply no_write_ahead; [lia|done].
Qed.

(** the queue is empty: the read has to wait *)
Lemma sim_pop_waits : a <= b -> sim (logged SPop log) (bump SPop q) (<[i := Transfer c b (SWait WCutoff)]> ls) σ.
Proof.
  intros Hab. pose proof ticket_bounds as (Ha & Hb & Hlog). destruct pop_tickets as [Ea' Eb'].
  apply sim_issued; rewrite ?Ea', ?Eb'.
  - rewrite (sim_queue _ _ _ _ S). fold a b. by rewrite !window_empty by lia.
  - rewrite (sim_pops _ _ _ _ S). fold a b. lia.
  - done.
  - intros p. rewrite Ecall. intros [= <-]. apply pop_self. by rewrite (proj2 (Z.ltb_ge b a)) by lia.
  - intros j0 l0 p0 Hn E E'. right. split; [done|]. intros c0 k0 p2 ->. apply pop_unconcerned. intros ->.
    eapply no_write_ahead; [lia|done].
Qed.
End pop.

Lemma sim_issue i l c f : ls !! i = Some l -> holds l = None -> sp_calls σ !! i = Some (PCalled c f) ->
  exists σ', spec_steps cap σ [] σ' /\
    sim (logged (c_side c) log) (bump (c_side c) q)
      (<[i := Transfer c (counter (c_side c) q) (SWait WCutoff)]> ls) σ'.
Proof.
  intros Hi Hh Ecall. assert (forall l, ls !! i = Some l -> holds l = None) as Hh' by naive_solver.
  apply lookup_lt_Some in Hi. destruct (c_side c) as [v|] eqn:Ec.
  - destruct (Z.lt_ge_cases a b); [by apply (sim_push_helps i c v f)|].
    destruct (Z.lt_ge_cases a (b + cap)); [by apply (sim_push_room i c v f)|].
    exists σ. split; [constructor|]. by apply (sim_push_waits i c v f).
  - destruct (Z.lt_ge_cases b a); [by apply (sim_pop_element i c f)|].
    exists σ. split; [constructor|]. by apply (sim_pop_waits i c f).
Qed.
End issue.

(** ** Steps *)

Section run.
Context (ct : Z -> Z) (log : list V) (q : queue V) (ls : list (local V)) (σ : spec V).
Context (I : inv ct log q ls) (B : bounded q ls) (S : sim log q ls σ).

(** the specification follows to a state that matches *)
Definition simulated (e : option (event V)) (q' : queue V) (ls' : list (local V)) : Prop :=
  exists ct' log' σ', inv ct' log' q' ls' /\ sim log' q' ls' σ' /\ spec_steps cap σ (option_list e) σ' /\
    pushTicket_ q' <= pushTicket_ q + 1 /\ popTicket_ q' <= popTicket_ q + 1 /\ length ls' = length ls.

Lemma simulated_quiet i l' q' w e ct' p' : (i < length ls)%nat ->
  pushTicket_ q' = pushTicket_ q -> popTicket_ q' = popTicket_ q ->
  inv ct' log q' (wake_all sz q' w (<[i := l']> ls)) ->
  spec_steps cap σ (option_list e) (set_call σ i p') -> abs_thread q' log l' p' ->
  simulated e q' (wake_all sz q' w (<[i := l']> ls)).
Proof.
  intros Hi Ea Eb I' Hσ Hp. exists ct', log, (set_call σ i p').
  split; [done|]. split; [by apply (sim_quiet log q)|]. split; [done|]. split; [lia|]. split; [lia|].
  destruct w; simpl; by rewrite ?length_fmap, length_insert.
Qed.

(** a thread steps by itself *)
Lemma simulated_thread i l l' e p' : ls !! i = Some l -> holds l' = holds l -> waking l = None ->
  spent l = None -> sleeping l' = None -> local_ok ct log q l' ->
  spec_steps cap σ (option_list e) (set_call σ i p') -> abs_thread q log l' p' ->
  simulated e q (<[i := l']> ls).
Proof.
  intros Hi Hh Hw Hsp Hsl Hl Hσ Hp.
  apply (simulated_quiet i l' q None e ct p'); try done; [by eapply lookup_lt_Some|].
  apply (inv_thread sz cap Hsz Hcap ct log q ls I i l l'); try done. congruence.
Qed.

(** ... and the specification does nothing *)
Lemma simulated_silent i l l' c f : ls !! i = Some l -> holds l' = holds l -> waking l = None ->
  spent l = None -> sleeping l' = None -> local_ok ct log q l' ->
  sp_calls σ !! i = Some (PCalled c f) -> abs_thread q log l' (PCalled c f) ->
  simulated None q (<[i := l']> ls).
Proof.
  intros Hi Hh Hw Hsp Hsl Hl Hp Hp'. apply (simulated_thread i l l' None (PCalled c f)); try done.
  rewrite set_call_id by done. constructor.
Qed.

Lemma simulated_issue i l c f : ls !! i = Some l -> holds l = None -> waking l = None -> spent l = None ->
  sp_calls σ !! i = Some (PCalled c f) ->
  (c_mode c = MReady -> ct (counter (c_side c) q mod cap) = tno (is_pop (c_side c)) (counter (c_side c) q)) ->
  simulated None (bump (c_side c) q) (<[i := Transfer c (counter (c_side c) q) (SWait WCutoff)]> ls).
Proof.
  intros Hi Hh Hw Hsp Hp Hm. destruct (sim_issue ct log q ls σ I B S i l c f Hi Hh Hp) as (σ' & Hσ & S').
  pose proof (issued_range sz cap ct log q ls I B (is_pop (c_side c))) as Hk. rewrite <-counter_issued in Hk.
  exists ct, (logged (c_side c) log), σ'. split; [by eapply (inv_issue sz cap Hcap); [| |lia| | | |]|].
  split; [done|]. split; [done|]. rewrite length_insert.
  destruct (c_side c); simpl in *; rewrite ?wrapu_id by (unfold inu; lia); lia.
Qed.

(** [mayEnqueue] and [mayDequeue] *)
Lemma may_spec sd k : 0 <= k <= counter sd q ->
  may sz q sd k = Ok (bool_decide (ct (k mod cap) mod 2 ^ 26 = tno (is_pop sd) k mod 2 ^ 26)).
Proof.
  intros Hk. pose proof (issued_range sz cap ct log q ls I B (is_pop sd)). rewrite counter_issued in Hk.
  destruct (locate_ok sz cap Hcap ct log q ls I k ltac:(lia)) as (o & d & El & Hs).
  unfold may. rewrite El. cbn [mbind res_bind sequencer_].
  rewrite (inv_capacity _ _ _ _ _ _ I), turn_at_tno, isTurn_pack by apply Hs. done.
Qed.

(** the next ticket does not find its turn: the queue is full or empty, or a
    thread of the other kind is under way *)
Lemma not_ready_refusable i l c : ls !! i = Some l -> holds l = None -> c_mode c = MReady ->
  let k := counter (c_side c) q in
  ct (k mod cap) <> tno (is_pop (c_side c)) k -> refusable cap σ i c.
Proof.
  intros Hi Hh Hm k Hne. unfold refusable. rewrite Hm.
  destruct (ticket_bounds ct log q ls I B) as (Ha & Hb & Hlog).
  pose proof (inv_turn _ _ _ _ _ _ I (k mod cap) (mod_cap cap Hcap k)) as Hct.
  assert (forall pop k0, 0 <= k0 < issued pop q -> ct (k0 mod cap) <= tno pop k0 -> pop <> is_pop (c_side c) ->
    busy σ i (c_side c)) as Hbusy.
  { intros pop k0 Hk0 Hle Hpop. destruct (inv_held _ _ _ _ _ _ I pop k0 Hk0 Hle) as (j & l0 & Ej & Hl0).
    destruct (sim_call _ _ _ _ _ _ S Ej) as (f0 & Ej' & _).
    destruct l0 as [| | | | | | | | | |c0 k1 p0|]; try done.
    exists j, (abs_local q log (Transfer c0 k1 p0) f0), c0. split; [by intros ->; simplify_eq|].
    split; [done|]. split; [simpl; by destruct (effective q c0 k1)|].
    assert (is_pop (c_side c0) = pop) as -> by (destruct p0 as [| | | |? []]; simpl in Hl0; congruence). done. }
  assert (ct (k mod cap) <= tno (is_pop (c_side c)) k) as Hle.
  { destruct (decide (ct (k mod cap) <= tno (is_pop (c_side c)) k)); [done|].
    assert (k < issued (is_pop (c_side c)) q); [|unfold k in *; rewrite counter_issued in *; lia].
    apply (inv_done _ _ _ _ _ _ I); [|lia]. unfold k. destruct (c_side c); simpl; lia. }
  unfold k in *. destruct (c_side c) as [v|] eqn:Ec; simpl in *; clear k.
  - set (a := pushTicket_ q) in *. set (b := popTicket_ q) in *. destruct (Z.lt_ge_cases a (b + cap)) as [Hroom|Hfull].
    + right. unfold MPMCInv.tno in *. assert (1 <= a / cap) as Hj by lia.
      assert (cap <= a) by (pose proof (Z.mul_div_le a cap ltac:(lia)); nia).
      assert ((a - cap) mod cap = a mod cap /\ (a - cap) / cap = a / cap - 1) as [Em Ed].
      { replace (a - cap) with (a + (-1) * cap) by lia. rewrite Z.mod_add, Z.div_add by lia. lia. }
      apply (Hbusy true (a - cap)); [simpl; fold b; lia| |done]. rewrite Em, Ed. lia.
    + left. rewrite (sim_queue _ _ _ _ S). fold a b. rewrite window_length by lia. lia.
  - set (a := pushTicket_ q) in *. set (b := popTicket_ q) in *. destruct (Z.lt_ge_cases b a) as [Hlt|Hge].
    + right. apply (Hbusy false b); [simpl; fold a; lia| |done]. unfold MPMCInv.tno in *. lia.
    + left. rewrite (sim_queue _ _ _ _ S). fold a b. by apply window_empty.
Qed.

(** a refused call that returns *)
Lemma refused_fails i c f : sp_calls σ !! i = Some (PCalled c f) -> refusable cap σ i c ->
  spec_steps cap σ [] (set_call σ i (PDone c Fail)).
Proof.
  intros Hp Hr. assert (i < length (sp_calls σ))%nat as Hlt by (by eapply lookup_lt_Some).
  eapply (spec_steps_two cap σ (set_call σ i (PCalled c true))); [by eapply spec_refuse|].
  assert (set_call σ i (PDone c Fail) = set_call (set_call σ i (PCalled c true)) i (PDone c Fail)) as ->.
  { unfold set_call. simpl. by rewrite list_insert_insert_eq. }
  apply spec_fail. simpl. by rewrite list_lookup_insert_eq.
Qed.

Lemma run_ready_check i c k : ls !! i = Some (ReadyCheck c k) ->
  exists ready, may sz q (c_side c) k = Ok ready /\
  simulated None q (<[i := if (ready : bool) then ReadyCas c k else ReadyReload c k]> ls).
Proof.
  intros Hi. destruct (inv_local _ _ _ _ _ _ I _ _ Hi) as (Hm & Hk).
  destruct (sim_call _ _ _ _ _ _ S Hi) as (f & Hp & _). simpl in Hp.
  eexists. split; [by apply may_spec|]. case_bool_decide as E.
  - apply (simulated_silent i _ _ c f Hi); try done; [|by exists f]. split; [done|]. split; [done|].
    intros Ek. apply turn_eq; [|done]. rewrite counter_issued in Hk.
    pose proof (distance sz cap Hcap ct log q ls (is_pop (c_side c)) k I Hk) as Hd.
    destruct B as (_ & _ & Bn). split; [|lia].
    destruct (decide (ct (k mod cap) <= tno (is_pop (c_side c)) k)); [done|].
    assert (k < issued (is_pop (c_side c)) q); [|rewrite counter_issued in Ek; lia].
    apply (inv_done _ _ _ _ _ _ I); lia.
  - destruct (decide (k = counter (c_side c) q)) as [->|Hne].
    + apply (simulated_thread i _ (ReadyReload c _) None (PCalled c true) Hi); try done; [|by exists true].
      apply (spec_steps_one _ _ None). eapply spec_refuse; [done|].
      eapply (not_ready_refusable i); [done..|]. intros E'. apply E. by rewrite E'.
    + apply (simulated_silent i _ _ c f Hi); try done. exists f. split; [done|]. by intros ?.
Qed.

Lemma run_ready_reload i c prev : ls !! i = Some (ReadyReload c prev) ->
  simulated None q (<[i := if prev =? counter (c_side c) q then Return c Fail
                           else ReadyCheck c (counter (c_side c) q)]> ls).
Proof.
  intros Hi. destruct (inv_local _ _ _ _ _ _ I _ _ Hi) as (Hm & Hk).
  destruct (sim_call _ _ _ _ _ _ S Hi) as (f & Hp & Hf). simpl in Hp, Hf.
  destruct (Z.eqb_spec prev (counter (c_side c) q)) as [E|_].
  - rewrite (Hf E) in Hp. apply (simulated_thread i _ (Return c Fail) None (PDone c Fail) Hi); try done; [|by exists true].
    by apply (spec_steps_one _ _ None), spec_fail.
  - apply (simulated_silent i _ _ c f Hi); try done; [|by exists f]. split; [done|]. lia.
Qed.

(** [numPushes - numPops] as a signed number *)
Lemma pushes_minus_pops x : - 2 ^ 59 <= x <= 2 ^ 59 -> i64 (u64 x) = x.
Proof.
  intros Hx. unfold wraps, wrapu. rewrite Z.add_mod_idemp_l by lia. change (64 - 1) with 63.
  rewrite Z.mod_small by lia. lia.
Qed.

Lemma promise_blocked c k : promised c -> 0 <= k <= counter (c_side c) q ->
  match c_side c with
  | SPush _ => i64 (capacity_ q) <=? i64 (u64 (k - popTicket_ q))
  | SPop => pushTicket_ q <=? k
  end = true -> forall i, refusable cap σ i c.
Proof.
  intros Hm Hk E i. destruct (ticket_bounds ct log q ls I B) as (Ha & Hb & Hlog).
  assert (blocked cap σ (c_side c)) as Hbl.
  { destruct (c_side c) as [v|]; simpl in *.
    - rewrite (inv_capacity _ _ _ _ _ _ I), pushes_minus_pops in E by lia. apply Z.leb_le in E.
      rewrite wraps_id in E by (unfold ins; lia). rewrite (sim_queue _ _ _ _ S), window_length by lia. lia.
    - apply Z.leb_le in E. rewrite (sim_queue _ _ _ _ S). apply window_empty; lia. }
  unfold refusable. destruct Hm as [-> | ->]; done.
Qed.

Lemma run_promise_fails i c k : ls !! i = Some (PromOther c k) -> (forall i, refusable cap σ i c) ->
  simulated None q (<[i := promise_fails c k]> ls).
Proof.
  intros Hi Hr. destruct (inv_local _ _ _ _ _ _ I _ _ Hi) as (Hm & Hk).
  destruct (sim_call _ _ _ _ _ _ S Hi) as (f & Hp & _). simpl in Hp.
  unfold promise_fails. destruct Hm as [Hm|Hm]; rewrite Hm.
  - apply (simulated_thread i _ (Return c Fail) None (PDone c Fail) Hi); try done; [|by exists true].
    by eapply refused_fails.
  - apply (simulated_thread i _ (UntilWait c k WCutoff) None (PCalled c true) Hi); try done; [|by exists true].
    apply (spec_steps_one _ _ None). by eapply spec_refuse.
Qed.

Lemma run_until_wait i c k pc inp : ls !! i = Some (UntilWait c k pc) ->
  match wait_at hw sz q (c_side c) false k inp pc (UntilWait c k) with
  | Err _ => False
  | Ok None => True
  | Ok (Some (q', l', w)) => simulated None q' (wake_all sz q' w (<[i := l']> ls))
  end.
Proof.
  intros Hi. destruct (inv_local _ _ _ _ _ _ I _ _ Hi) as (Hm & Hk & Hcas).
  destruct (sim_call _ _ _ _ _ _ S Hi) as (f & Hp & Hf). simpl in Hp, Hf. subst f.
  pose proof (issued_range sz cap ct log q ls I B (is_pop (c_side c))) as Hr. rewrite <-counter_issued in Hr.
  destruct (locate_ok sz cap Hcap ct log q ls I k ltac:(lia)) as (o & d & El & Hs).
  unfold wait_at. rewrite El. cbn [mbind res_bind sequencer_ contents_].
  destruct (wait_step _ _ _ _ _ _ _ _) as [[[st cut] pc']|] eqn:E; [|done].
  apply wait_step_any in E as (d' & -> & Hd' & Hcas'); [|apply Hs|done].
  rewrite (index_loc sz cap Hcap ct log q ls I k ltac:(lia)).
  pose proof (mod_cap cap Hcap k) as Hmod. pose proof (proj2 Hs) as Hd.
  apply (simulated_quiet i _ _ None None ct (PCalled c true)); try done; [by eapply lookup_lt_Some| | |by exists true].
  - eapply (inv_frame sz cap Hsz Hcap ct log q ls i _ _ _ (k mod cap) o o d d'); try done; [|lia| |by left].
    + apply slot_is_set_cutoff. eapply set_slot_is; try done. lia.
    + intros j Hj. by apply set_slot_other.
  - rewrite set_call_id by done. constructor.
Qed.

Lemma run_transfer i c k p inp : ls !! i = Some (Transfer c k p) ->
  match transfer_step hw reloc sz q c k inp p with
  | Err _ => False
  | Ok None => True
  | Ok (Some (q', l', w)) => simulated None q' (wake_all sz q' w (<[i := l']> ls))
  end.
Proof.
  intros Hi. assert (i < length ls)%nat as Hlt by (by eapply lookup_lt_Some).
  destruct (sim_call _ _ _ _ _ _ S Hi) as (f & Hp & _).
  destruct (good_step hw reloc sz cap Hsz Hcap ct log q ls I B i c k inp p Hi) as [(sp & _ & ->)|(o & d & _ & G)]; [done|].
  destruct (transfer_step _ _ _ _ _ _ _ _) as [[[[q' l'] w]|]|]; try done.
  destruct G as (Ea & Eb & (ct' & _ & I') & [(p' & _ & _ & _ & -> & _)|[-> Hdone]]).
  - eapply (simulated_quiet i _ _ w None ct' (abs_local q log (Transfer c k p) f)); try done.
    + rewrite set_call_id by done. constructor.
    + apply (abs_thread_queue q); [done..|]. by exists f.
  - eapply (simulated_quiet i _ _ w None ct' (abs_local q log (Transfer c k p) f)); try done.
    + rewrite set_call_id by done. constructor.
    + exists false. split; [|done]. simpl. assert (effective q c k = true) as ->; [|done].
      destruct (inv_local _ _ _ _ _ _ I _ _ Hi) as [Hk _]. unfold effective.
      destruct (c_side c) eqn:Ec; simpl in Hdone; apply Z.ltb_lt.
      * eapply (completed_write ct log q ls I B); [lia|done].
      * eapply (completed_read ct log q ls I); [lia|done].
Qed.

Lemma run_ok i l inp : ls !! i = Some l ->
  match step hw reloc sz q l inp with
  | Err _ => False
  | Ok None => True
  | Ok (Some (q', l', w)) => simulated None q' (wake_all sz q' w (<[i := l']> ls))
  end.
Proof.
  intros Hi. pose proof (inv_local _ _ _ _ _ _ I _ _ Hi) as Hl.
  destruct (sim_call _ _ _ _ _ _ S Hi) as (f & Hp & Hf).
  assert (forall sd : side V, 0 <= counter sd q <= counter sd q) as Hc0.
  { intros sd. pose proof (issued_range sz cap ct log q ls I B (is_pop sd)). rewrite counter_issued. lia. }
  destruct l as [|c|c|c k|c k|c k|c|c k|c k|c k pc|c k p|]; simpl in *; try done.
  - rewrite (inv_capacity _ _ _ _ _ _ I), (proj2 (Z.eqb_neq _ _)), andb_false_r by lia.
    by eapply (simulated_issue i); try done; rewrite Hl.
  - by apply (simulated_silent i _ _ c f Hi); [..|exists f].
  - destruct (run_ready_check i c k Hi) as (ready & -> & Hsim). by destruct ready.
  - by apply run_ready_reload.
  - destruct (Z.eqb_spec (counter (c_side c) q) k) as [<-|Hne]; simpl.
    + eapply (simulated_issue i); try done. intros _. by apply Hl.
    + destruct Hl as [Hm _]. by apply (simulated_silent i _ _ c f Hi); [..|exists f].
  - by apply (simulated_silent i _ _ c f Hi); [..|exists f].
  - destruct Hl as [Hm Hk]. pose proof (promise_blocked c k Hm Hk) as Hbl.
    destruct (c_side c) eqn:Ec; destruct (_ <=? _); simpl;
      try (by apply run_promise_fails; auto).
    all: apply (simulated_silent i _ _ c f Hi); try done; [|by exists f]; split; [done|by rewrite Ec].
  - destruct Hl as [Hm Hk]. destruct (Z.eqb_spec (counter (c_side c) q) k) as [<-|Hne]; simpl.
    + eapply (simulated_issue i); try done. destruct Hm as [-> | ->]; done.
    + by apply (simulated_silent i _ _ c f Hi); [..|exists f].
  - subst f. destruct pc as [| | | | | |r]; try by apply run_until_wait. simpl. destruct Hl as (Hm & Hk & _).
    destruct (decide (r = TIMEDOUT)).
    + apply (simulated_thread i _ (Return c Fail) None (PDone c Fail) Hi); try done; [|by exists true].
      by apply (spec_steps_one _ _ None), spec_fail.
    + apply (simulated_silent i _ _ c true Hi); try done; [by right|by exists true].
  - by apply run_transfer.
Qed.
End run.
End refine.
