(* ===== verification/MPMCTheorems.v ===== *)
(** * What MPMCQueue guarantees

    Linearizability, safety and progress of any number of concurrent calls, and
    the destructor. *)

From Stdlib Require Import Sorting.Sorted.
From S2P Require Import Prelude.
From S2P Require Import TurnSequencer.
From S2P Require Import MPMCQueue.
From S2P Require Import MPMCSpec.
From S2P Require Import MPMCInv.
From S2P Require Import MPMCSteps.
From S2P Require Import MPMCRefine.

Section system.
Context {V : Type} (hw reloc : bool) (sz cap : Z) (Hsz : 0 < sz) (Hcap : 0 < cap < 2 ^ 63).

Abbreviation tno := (tno cap).
Abbreviation inv := (inv sz cap).
Abbreviation sim := (sim cap).
Abbreviation sys_step := (sys_step hw reloc sz).
Abbreviation steps := (steps hw reloc sz).

Implicit Types (q : queue V) (l : local V) (ls : list (local V)) (log : list V) (ct : Z -> Z).
Implicit Types (s : sys V) (σ : spec V).

(** ** Runs *)

Lemma start_ok ct log q (c : call V) : holds (start c) = None /\ sleeping (start c) = None /\
  MPMCInv.local_ok sz cap ct log q (start c) /\ abs_thread cap q log (start c) (PCalled c false).
Proof.
  unfold start. destruct (c_mode c) eqn:Em; split_and!; try done; try (by exists false); [by left|by right].
Qed.

Lemma sys_step_sim ct log s σ i a : inv ct log (s_queue s) (s_threads s) ->
  bounded (s_queue s) (s_threads s) -> sim log (s_queue s) (s_threads s) σ ->
  match sys_step s i a with
  | None => True
  | Some (Err _) => False
  | Some (Ok (s', e)) => simulated sz cap (s_queue s) (s_threads s) σ e (s_queue s') (s_threads s')
  end.
Proof.
  intros I B S. unfold MPMCQueue.sys_step. destruct (s_threads s !! i) as [l|] eqn:Hi; [|done].
  cbn [mbind option_bind]. pose proof (inv_local _ _ _ _ _ _ I _ _ Hi) as Hl.
  destruct (sim_call _ _ _ _ _ _ _ S Hi) as (f & Hp & Hf).
  assert (forall l' p', holds l' = holds l -> waking l = None -> spent l = None -> sleeping l' = None ->
    MPMCInv.local_ok sz cap ct log (s_queue s) l' -> p' = abs_local cap (s_queue s) log l f ->
    abs_thread cap (s_queue s) log l' p' ->
    simulated sz cap (s_queue s) (s_threads s) σ None (s_queue s) (<[i := l']> (s_threads s))) as Hsame.
  { intros l' p' ? ? ? ? ? -> ?. eapply (simulated_thread sz cap Hsz Hcap ct log _ _ σ I S i l l'); try done.
    rewrite set_call_id by done. constructor. }
  destruct a as [c|inp| | |]; destruct l as [|c0|c0|c0 k|c0 k|c0 k|c0|c0 k|c0 k|c0 k pc|c0 k p|c0 r]; try done;
    try (pose proof (run_ok hw reloc sz cap Hsz Hcap ct log _ _ σ I B S i _ inp Hi) as Hrun;
         destruct (step _ _ _ _ _ _) as [[[[q' l'] w]|]|]; done).
  - apply (simulated_thread sz cap Hsz Hcap ct log _ _ σ I S i Idle (start c) (Some (ECall i c)) (PCalled c false)); try done.
    all: destruct (start_ok ct log (s_queue s) c) as (? & ? & ? & ?); try done.
    by apply (spec_steps_one cap _ (Some _)), spec_call.
  - destruct pc; try done. simpl. apply (Hsame _ (abs_local cap (s_queue s) log (UntilWait c0 k (WSleep sp)) f)); try done. by exists f.
  - destruct p as [pc| | | |]; try done. destruct pc; try done. simpl.
    apply (Hsame _ (abs_local cap (s_queue s) log (Transfer c0 k (SWait (WSleep sp))) f)); try done; [|by exists f].
    destruct Hl as (? & ? & [? ?] & Hm). split_and!; try done; try lia. intros E. by destruct (Hm E).
  - destruct pc; try done. simpl. apply (Hsame _ (abs_local cap (s_queue s) log (UntilWait c0 k (WSleep sp)) f)); try done. by exists f.
  - apply (simulated_thread sz cap Hsz Hcap ct log _ _ σ I S i (Return c0 r) Idle (Some (ERet i c0 r)) PIdle); try done;
      [by apply (spec_steps_one cap _ (Some _)), spec_ret|by exists false].
Qed.

Lemma pack_init : TurnSequencer_new 0 = pack 0 0.
Proof. done. Qed.

Lemma inv_init q k : MPMCQueue_new sz cap = Ok q -> inv (fun _ => 0) ([] : list V) q (replicate k Idle).
Proof.
  unfold MPMCQueue_new. rewrite (proj2 (Z.eqb_neq _ _)) by lia. intros [= <-].
  assert (forall pop, @issued V pop (mkQueue cap (computeStride cap)
    (replicate (Z.to_nat (cap + 2 * kSlotPadding sz)) (mkSlot None (TurnSequencer_new 0))) 0 0 0 0) = 0) as E by (by intros []).
  split; try done; simpl.
  - intros j o E0 _. by apply lookup_replicate in E0 as [-> _].
  - intros r Hr. exists None, 0. split; [|lia]. simpl. rewrite pack_init. apply lookup_replicate.
    split; [done|]. pose proof (loc_range sz cap Hcap r). pose proof (pad_pos sz Hsz). lia.
  - intros pop k0 Hk0 Hlt. unfold MPMCInv.tno in Hlt. pose proof (Z.div_pos k0 cap Hk0). destruct pop; lia.
  - intros pop k0 Hk0. rewrite E in Hk0. lia.
  - intros i j l l' x H1 H2 H3. apply lookup_replicate in H1 as [-> _]. done.
  - intros r j o d Hr Hs Ej. lia.
  - intros i l H. by apply lookup_replicate in H as [-> _].
  - intros i l pop k0 H. by apply lookup_replicate in H as [-> _].
Qed.

Lemma sim_init q k : MPMCQueue_new sz cap = Ok q -> sim ([] : list V) q (replicate k Idle) (spec_init k).
Proof.
  unfold MPMCQueue_new. rewrite (proj2 (Z.eqb_neq _ _)) by lia. intros [= <-].
  split; simpl; [|done|by rewrite !length_replicate|].
  - symmetry. apply (window_empty cap Hcap). lia.
  - intros i l p H H'. apply lookup_replicate in H as [-> _]. apply lookup_replicate in H' as [-> _]. by exists false.
Qed.

(** the state a run of fewer than [2^59] steps leads to *)
Lemma steps_sim q k n tr s : MPMCQueue_new sz cap = Ok q -> Z.of_nat k <= 2 ^ 23 ->
  steps (init q k) n tr s -> Z.of_nat n < 2 ^ 59 ->
  exists ct log σ, inv ct log (s_queue s) (s_threads s) /\ sim log (s_queue s) (s_threads s) σ /\
    spec_steps cap (spec_init k) tr σ /\ bounded (s_queue s) (s_threads s).
Proof.
  intros Eq Hk H Hn.
  enough (exists ct log σ, inv ct log (s_queue s) (s_threads s) /\ sim log (s_queue s) (s_threads s) σ /\
    spec_steps cap (spec_init k) tr σ /\ length (s_threads s) = k /\
    pushTicket_ (s_queue s) <= Z.of_nat n /\ popTicket_ (s_queue s) <= Z.of_nat n)
    as (ct & log & σ & I & S & Hσ & Hlen & ? & ?).
  { exists ct, log, σ. split_and!; try done. unfold bounded. rewrite Hlen. lia. }
  remember (init q k) as s0 eqn:E0. induction H as [s0|s0 n tr s i a s' e H IH Hstep]; subst s0.
  - exists (fun _ => 0), [], (spec_init k). split; [by apply inv_init|]. split; [by apply sim_init|].
    split; [constructor|]. simpl. split; [by rewrite length_replicate|].
    unfold MPMCQueue_new in Eq. rewrite (proj2 (Z.eqb_neq _ _)) in Eq by lia. injection Eq as <-. done.
  - destruct (IH eq_refl ltac:(lia)) as (ct & log & σ & I & S & Hσ & Hlen & Hp & Hq).
    assert (bounded (s_queue s) (s_threads s)) as B by (unfold bounded; rewrite Hlen; lia).
    pose proof (sys_step_sim ct log s σ i a I B S) as Hsim. rewrite Hstep in Hsim.
    destruct Hsim as (ct' & log' & σ' & I' & S' & Hσ' & ? & ? & Hlen').
    exists ct', log', σ'. split_and!; try done; try lia. by eapply spec_steps_trans.
Qed.

(** ** The destructor *)

Lemma omap_filter {A B} (f : A -> option B) (l : list A) : omap f (filter (fun x => is_Some (f x)) l) = omap f l.
Proof.
  induction l as [|x l IH]; [done|]. rewrite filter_cons. destruct (decide (is_Some (f x))) as [[y E]|Hn].
  - csimpl. by rewrite E, IH.
  - csimpl. rewrite IH. destruct (f x) eqn:E; [|done]. by destruct Hn.
Qed.

Lemma omap_fmap {A B C} (f : B -> option C) (g : A -> B) (l : list A) : omap f (g <$> l) = omap (f ∘ g) l.
Proof. induction l as [|x l IH]; [done|]. csimpl. by rewrite IH. Qed.

Lemma omap_lookup {A B} (f : A -> option B) (l : list A) :
  omap f l = omap (fun j => l !! j ≫= f) (seq 0 (length l)).
Proof.
  induction l as [|x l IH]; [done|]. csimpl. rewrite IH, <-fmap_S_seq, omap_fmap. by destruct (f x).
Qed.

Lemma Slot_destroy_pack o c d : 0 <= d < 64 ->
  Slot_destroy (mkSlot o (pack c d)) = if Z.odd c then Some o else (None : option (option V)).
Proof.
  intros Hd. unfold Slot_destroy, uncompletedTurnLSB. cbn [sequencer_ contents_].
  assert (Z.land (u8 (Z.shiftr (pack c d) kTurnShift)) 1 = c mod 2) as ->.
  { change 1 with (2 ^ 1 - 1). rewrite land_pow2_mod by lia. change (2 ^ 1) with 2.
    unfold kTurnShift. rewrite Z.shiftr_div_pow2 by lia. change (2 ^ 6) with 64. unfold pack.
    rewrite Z.div_add_l, (Z.div_small d), Z.add_0_r by lia. unfold wrapu.
    rewrite (Z.mod_mod_divide _ (2 ^ 8) 2) by (by exists (2 ^ 7)). apply Z.mod_mod_divide. by exists (2 ^ 25). }
  rewrite Zmod_odd. by destruct (Z.odd c).
Qed.

Section quiescent.
Context (ct : Z -> Z) (log : list V) (q : queue V) (ls : list (local V)).
Context (I : inv ct log q ls) (B : bounded q ls) (Hidle : forall i l, ls !! i = Some l -> l = Idle).
Let a := pushTicket_ q.
Let b := popTicket_ q.

Lemma quiescent_done pop k : 0 <= k < issued pop q -> tno pop k < ct (k mod cap).
Proof.
  intros Hk. destruct (Z.lt_ge_cases (tno pop k) (ct (k mod cap))) as [|Hge]; [done|].
  destruct (inv_held _ _ _ _ _ _ I pop k Hk Hge) as (i & l & Hi & Hl). by rewrite (Hidle i l Hi) in Hl.
Qed.

Lemma quiescent_range : 0 <= b <= a /\ a <= b + cap /\ a = Z.of_nat (length log).
Proof.
  destruct (ticket_bounds sz cap ct log q ls I B) as (Ha & Hb & Hlog). fold a b in Ha, Hb, Hlog. split_and!; try lia.
  - destruct (Z.lt_ge_cases a b); [|done].
    pose proof (completed_read sz cap ct log q ls I a ltac:(lia) (quiescent_done true a ltac:(simpl; fold b; lia))) as H1.
    fold a in H1. lia.
  - destruct (Z.lt_ge_cases (b + cap) a); [|lia].
    pose proof (completed_write sz cap Hcap ct log q ls I B (b + cap) ltac:(lia)
      (quiescent_done false (b + cap) ltac:(simpl; fold a; lia))) as H1. fold b in H1. lia.
Qed.

(** what the slot at index [j] gives to the destructor *)
Definition remains (j : nat) : option (option V) := slots_ q !! j ≫= Slot_destroy.

Definition index_of (k : Z) : nat := Z.to_nat (loc sz cap (k mod cap)).

Lemma remains_ticket k : b <= k < a -> remains (index_of k) = Some (value_at log k).
Proof.
  intros Hk. pose proof quiescent_range as (Hb & _ & _). pose proof (mod_cap cap Hcap k) as Hr.
  destruct (inv_slot _ _ _ _ _ _ I (k mod cap) Hr) as (o & d & Hs).
  pose proof (quiescent_done false k ltac:(simpl; fold a; lia)) as H1.
  assert (ct (k mod cap) = 2 * (k / cap) + 1) as Ect.
  { destruct (Z.lt_ge_cases (tno true k) (ct (k mod cap))) as [H2|H2].
    - apply (inv_done _ _ _ _ _ _ I) in H2; [|lia]. simpl in H2. fold b in H2. lia.
    - unfold MPMCInv.tno in *. lia. }
  unfold remains, index_of. rewrite (proj1 Hs). cbn [mbind option_bind]. rewrite Slot_destroy_pack by apply Hs.
  rewrite Ect, Z.odd_add, Z.odd_mul. simpl. f_equal. rewrite (ticket_eq cap Hcap k) at 1.
  eapply (inv_content _ _ _ _ _ _ I (k mod cap) (k / cap) o d); try done.
  intros i l Hi. by rewrite (Hidle i l Hi).
Qed.

Lemma remains_some j : remains j <> None -> exists k, b <= k < a /\ j = index_of k.
Proof.
  unfold remains. destruct (slots_ q !! j) as [s|] eqn:E; [|done]. cbn [mbind option_bind]. intros Hs.
  destruct (decide (Forall (fun r => j <> Z.to_nat (loc sz cap r)) (seqZ 0 cap))) as [Hpad|Hex].
  - exfalso. apply Hs. rewrite (inv_padding _ _ _ _ _ _ I j s E); [by rewrite Slot_destroy_pack by lia|].
    intros r Hr. rewrite Forall_forall in Hpad. apply Hpad, elem_of_seqZ. lia.
  - apply not_Forall_Exists in Hex; [|solve_decision]. apply Exists_exists in Hex as (r & Hr & Ej).
    apply elem_of_seqZ in Hr. apply dec_stable in Ej.
    destruct (inv_slot _ _ _ _ _ _ I r ltac:(lia)) as (o & d & [E' Hd]). rewrite <-Ej, E in E'. injection E' as ->.
    rewrite Slot_destroy_pack in Hs by done. destruct (Z.odd (ct r)) eqn:Eo; [|done].
    destruct (ticket_slot cap Hcap (ct r / 2) r ltac:(lia)) as [Em Ed].
    set (k := ct r / 2 * cap + r) in *. exists k. split; [|unfold index_of; by rewrite Em].
    assert (ct r = 2 * (ct r / 2) + 1) as Ect.
    { rewrite <-Z.div2_div. rewrite (Z.div2_odd (ct r)) at 1. by rewrite Eo. }
    pose proof (inv_turn _ _ _ _ _ _ I r ltac:(lia)) as Hct.
    assert (0 <= k) as Hk0 by (assert (0 <= ct r / 2) by (apply Z.div_pos; lia); unfold k; nia).
    split.
    + destruct (Z.lt_ge_cases k b) as [Hlt|]; [|done].
      pose proof (quiescent_done true k ltac:(simpl; fold b; lia)) as H2. rewrite Em in H2. unfold MPMCInv.tno in H2. lia.
    + apply (inv_done _ _ _ _ _ _ I false k Hk0). rewrite Em. unfold MPMCInv.tno. lia.
Qed.

Lemma destroy_window : MPMCQueue_destroy q ≡ₚ Some <$> window cap a b log.
Proof.
  pose proof quiescent_range as (Hb & Ha & Hlog).
  unfold MPMCQueue_destroy. rewrite omap_lookup. fold remains. rewrite <-omap_filter.
  assert (filter (fun j => is_Some (remains j)) (seq 0 (length (slots_ q))) ≡ₚ index_of <$> seqZ b (a - b)) as ->.
  { apply NoDup_Permutation.
    - apply NoDup_filter, NoDup_seq.
    - apply NoDup_fmap_2_strong; [|apply NoDup_seqZ]. intros k k' Hk Hk' E.
      apply elem_of_seqZ in Hk, Hk'. assert (k mod cap = k' mod cap) as Em.
      { destruct (decide (k mod cap = k' mod cap)); [done|]. exfalso.
        eapply (loc_ne sz cap Hsz Hcap (k mod cap) (k' mod cap)); try apply mod_cap; done. }
      pose proof (ticket_eq cap Hcap k) as E1. pose proof (ticket_eq cap Hcap k') as E2. rewrite Em in E1.
      assert (k / cap = k' / cap) by nia. lia.
    - intros j. rewrite list_elem_of_filter, list_elem_of_fmap, elem_of_seq. split.
      + intros [Hj%not_eq_None_Some _]. destruct (remains_some j Hj) as (k & Hk & ->). exists k. split; [done|]. apply elem_of_seqZ. lia.
      + intros (k & -> & Hk). apply elem_of_seqZ in Hk. rewrite remains_ticket by lia. split; [by eexists|].
        split; [lia|]. simpl. pose proof (remains_ticket k ltac:(lia)) as E. unfold remains in E.
        destruct (slots_ q !! index_of k) eqn:E'; [|done]. by apply lookup_lt_Some in E'. }
  rewrite omap_fmap. unfold window. rewrite !Z.min_l, Z.min_r by lia.
  assert (forall n k, 0 <= k -> (Z.to_nat k + n <= length log)%nat ->
    b <= k -> k + Z.of_nat n <= a ->
    omap (remains ∘ index_of) (seqZ k (Z.of_nat n)) = Some <$> take n (drop (Z.to_nat k) log)) as H.
  { intros n. induction n as [|n IH]; intros k Hk Hlen Hbk Hka; [done|].
    rewrite seqZ_cons by lia. destruct (lookup_lt_is_Some_2 log (Z.to_nat k) ltac:(lia)) as [v Ev].
    rewrite (drop_S log v) by done. csimpl. rewrite remains_ticket by lia. unfold value_at. rewrite Ev.
    replace (Z.pred (Z.of_nat (S n))) with (Z.of_nat n) by lia. rewrite IH by lia.
    by replace (Z.to_nat (Z.succ k)) with (S (Z.to_nat k)) by lia. }
  rewrite <-(Z2Nat.id (a - b)) at 1 by lia. rewrite H by lia. done.
Qed.
End quiescent.
End system.

(** ** Runs by a script *)

Fixpoint exec {V} (hw reloc : bool) (sz : Z) (s : sys V) (script : list (nat * action V)) :
    option (sys V * list (event V)) :=
  match script with
  | [] => Some (s, [])
  | (i, a) :: script =>
      match sys_step hw reloc sz s i a with
      | Some (Ok (s', e)) => '(s'', tr) ← exec hw reloc sz s' script; Some (s'', option_list e ++ tr)
      | _ => None
      end
  end.

Lemma steps_cons {V} hw reloc sz (s : sys V) i a s' e n tr s'' :
  sys_step hw reloc sz s i a = Some (Ok (s', e)) -> steps hw reloc sz s' n tr s'' ->
  steps hw reloc sz s (S n) (option_list e ++ tr) s''.
Proof.
  intros H1 H2. induction H2 as [s'|s' n tr s2 j b s3 e' H2 IH H3].
  - rewrite app_nil_r. change (option_list e) with ([] ++ option_list e). econstructor; [constructor|done].
  - rewrite app_assoc. econstructor; [by apply IH|done].
Qed.

Lemma exec_steps {V} hw reloc sz script (s : sys V) s' tr :
  exec hw reloc sz s script = Some (s', tr) -> steps hw reloc sz s (length script) tr s'.
Proof.
  revert s s' tr. induction script as [|[i a] script IH]; intros s s' tr E; simpl in E.
  { injection E as <- <-. constructor. }
  destruct (sys_step hw reloc sz s i a) as [[[s1 e]|]|] eqn:Es; try done.
  destruct (exec hw reloc sz s1 script) as [[s2 tr2]|] eqn:Ex; [|done]. injection E as <- <-.
  eapply steps_cons; [done|]. by apply IH.
Qed.

(** a reader falls asleep on the empty queue, a writer puts 7 and wakes it; in
    the end 8 is in the queue *)
Definition example_queue : queue Z := default (mkQueue 0 0 [] 0 0 0 0) (match MPMCQueue_new 16 2 with Ok q => Some q | _ => None end).
Definition run_at (i : nat) (now : Z) (n : nat) : list (nat * action Z) := replicate n (i, ARun (mkInput now false)).
Definition example_sleep : list (nat * action Z) :=
  (0%nat, ACall blockingReadWithTicket) :: run_at 0 0 3 ++ run_at 0 30000 3.
Definition example_write (v : Z) (n : nat) : list (nat * action Z) := (1%nat, ACall (write v)) :: run_at 1 0 n.
Definition example_script : list (nat * action Z) :=
  example_sleep ++ example_write 7 12 ++ (1%nat, ARet) :: run_at 0 0 8 ++ (0%nat, ARet) ::
  example_write 8 10 ++ [(1%nat, ARet)].

Definition example_run (script : list (nat * action Z)) : sys Z * list (event Z) :=
  default (init example_queue 2, []) (exec true false 16 (init example_queue 2) script).

Lemma example_steps script : bool_decide (is_Some (exec true false 16 (init example_queue 2) script)) = true ->
  steps true false 16 (init example_queue 2) (length script) (snd (example_run script)) (fst (example_run script)).
Proof.
  intros H. apply bool_decide_eq_true in H as [[s tr] E]. unfold example_run. rewrite E. by apply exec_steps.
Qed.

(** C5: every history of calls and returns of MPMCQueue, with up to [2^23]
    threads and fewer than [2^59] steps, is one of the bounded FIFO queue, in
    which each call takes effect at one moment; and no step fails: slots are
    never accessed out of range and never read before they are written. *)
Theorem mpmc_linearizable {V} (hw reloc : bool) (sz cap : Z) (q : queue V) (k n : nat) tr s :
  0 < sz -> 0 < cap < 2 ^ 63 -> MPMCQueue_new sz cap = Ok q -> Z.of_nat k <= 2 ^ 23 ->
  steps hw reloc sz (init q k) n tr s -> Z.of_nat n < 2 ^ 59 ->
  (exists σ, spec_steps cap (spec_init k) tr σ) /\
  (forall i a e, sys_step hw reloc sz s i a <> Some (Err e)).
Proof.
  intros Hsz Hcap Hq Hk H Hn.
  destruct (steps_sim hw reloc sz cap Hsz Hcap q k n tr s Hq Hk H Hn) as (ct & log & σ & I & S & Hσ & B).
  split; [by exists σ|]. intros i a e E.
  pose proof (sys_step_sim hw reloc sz cap Hsz Hcap ct log s σ i a I B S) as Hs. by rewrite E in Hs.
Qed.

Lemma mpmc_linearizable_witness :
  snd (example_run example_script) =
    [ECall 0 blockingReadWithTicket; ECall 1 (write 7); ERet 1 (write 7) Written;
     ERet 0 blockingReadWithTicket (Got 0 7); ECall 1 (write 8); ERet 1 (write 8) Written] /\
  (exists σ, spec_steps 2 (spec_init 2) (snd (example_run example_script)) σ) /\
  (forall i a e, sys_step true false 16 (fst (example_run example_script)) i a <> Some (Err e)).
Proof.
  split; [vm_compute; reflexivity|].
  apply (mpmc_linearizable true false 16 2 example_queue 2 (length example_script));
    [lia|lia|vm_compute; reflexivity|lia|apply example_steps; vm_compute; reflexivity|vm_compute; reflexivity].
Defined.

(** C15: when no call is active, the destructor destroys the elements that are in
    the queue, each of them once, and nothing else. *)
Theorem mpmc_destroy {V} (hw reloc : bool) (sz cap : Z) (q : queue V) (k n : nat) tr s :
  0 < sz -> 0 < cap < 2 ^ 63 -> MPMCQueue_new sz cap = Ok q -> Z.of_nat k <= 2 ^ 23 ->
  steps hw reloc sz (init q k) n tr s -> Z.of_nat n < 2 ^ 59 ->
  (forall i l, s_threads s !! i = Some l -> l = Idle) ->
  exists σ, spec_steps cap (spec_init k) tr σ /\ MPMCQueue_destroy (s_queue s) ≡ₚ Some <$> sp_queue σ.
Proof.
  intros Hsz Hcap Hq Hk H Hn Hidle.
  destruct (steps_sim hw reloc sz cap Hsz Hcap q k n tr s Hq Hk H Hn) as (ct & log & σ & I & S & Hσ & B).
  exists σ. split; [done|]. rewrite (sim_queue _ _ _ _ _ S). by apply (destroy_window sz cap Hsz Hcap ct log _ (s_threads s)).
Qed.

Lemma mpmc_destroy_witness :
  MPMCQueue_destroy (s_queue (fst (example_run example_script))) = [Some 8] /\
  exists σ, spec_steps 2 (spec_init 2) (snd (example_run example_script)) σ /\
    MPMCQueue_destroy (s_queue (fst (example_run example_script))) ≡ₚ Some <$> sp_queue σ.
Proof.
  split; [vm_compute; reflexivity|].
  apply (mpmc_destroy true false 16 2 example_queue 2 (length example_script));
    [lia|lia|vm_compute; reflexivity|lia|apply example_steps; vm_compute; reflexivity|vm_compute; reflexivity|].
  intros [|[|i]] l E; vm_compute in E; congruence.
Defined.

(** ** size *)

(** the values of the two tickets, loaded in turn at the times [ts] *)
Fixpoint observed (push pop : nat -> Z) (which : bool) (ts : list nat) : list Z :=
  match ts with
  | [] => []
  | t :: ts => (if which then push t else pop t) :: observed push pop (negb which) ts
  end.

Section size.
Context (push pop : nat -> Z).
Context (Hpush : forall t t', (t <= t')%nat -> 0 <= push t <= push t' /\ push t' < 2 ^ 63).
Context (Hpop : forall t t', (t <= t')%nat -> 0 <= pop t <= pop t' /\ pop t' < 2 ^ 63).

Lemma ticket_difference t t' : i64 (u64 (push t - pop t')) = push t - pop t'.
Proof.
  destruct (Hpush t t ltac:(lia)), (Hpop t' t' ltac:(lia)).
  unfold wraps, wrapu. rewrite Z.add_mod_idemp_l by lia. change (64 - 1) with 63. rewrite Z.mod_small by lia. lia.
Qed.

Lemma size_loop_moment m : forall ts t1 t2 n, (length ts <= m)%nat -> (t1 <= t2)%nat ->
  Sorted Nat.le (t2 :: ts) -> size_loop (push t1) (pop t2) (observed push pop true ts) = Some n ->
  exists t, (t1 <= t)%nat /\ (t <= List.last ts 0)%nat /\ n = push t - pop t.
Proof.
  induction m as [|m IH]; intros ts t1 t2 n Hm H12 Hs E.
  { destruct ts; [done|simpl in Hm; lia]. }
  destruct ts as [|t3 ts]; [done|]. apply Sorted_inv in Hs as [Hs H23]. apply HdRel_inv in H23.
  assert (forall t4 ts', Sorted Nat.le (t4 :: ts') -> (t4 <= List.last (t4 :: ts') 0)%nat) as Hlast.
  { clear. intros t4 ts'. revert t4. induction ts' as [|t5 ts' IH]; intros t4 H; [done|].
    apply Sorted_inv in H as [H H45]. apply HdRel_inv in H45. specialize (IH t5 H). simpl in *. lia. }
  pose proof (Hlast t3 ts Hs) as H3. simpl in E.
  destruct (Z.eqb_spec (push t1) (push t3)) as [E13|_].
  - rewrite ticket_difference in E. injection E as <-. exists t2. split; [lia|]. split; [lia|].
    destruct (Hpush t1 t2 H12), (Hpush t2 t3 H23). lia.
  - destruct ts as [|t4 ts]; [done|]. apply Sorted_inv in Hs as [Hs H34]. apply HdRel_inv in H34.
    pose proof (Hlast t4 ts Hs) as H4. change (List.last (t3 :: t4 :: ts) 0%nat) with (List.last (t4 :: ts) 0%nat) in *.
    simpl in E. destruct (Z.eqb_spec (pop t2) (pop t4)) as [E24|_].
    + rewrite ticket_difference in E. injection E as <-. exists t3. split; [lia|]. split; [lia|].
      destruct (Hpop t2 t3 H23), (Hpop t3 t4 H34). lia.
    + destruct (IH ts t3 t4 n) as (t & Ht & Ht' & ->); [simpl in Hm; lia|done..|].
      exists t. split; [lia|]. split; [|done]. destruct ts; [done|]. done.
Qed.
End size.

(** [size] is the number of writes minus the number of reads at one moment
    of the call, whatever the other threads do meanwhile; and it returns as
    soon as one of the tickets does not change between two loads of it. *)
Theorem mpmc_size (push pop : nat -> Z) (t0 t1 : nat) (ts : list nat) :
  (forall t t', (t <= t')%nat -> 0 <= push t <= push t' /\ push t' < 2 ^ 63) ->
  (forall t t', (t <= t')%nat -> 0 <= pop t <= pop t' /\ pop t' < 2 ^ 63) ->
  Sorted Nat.le (t0 :: t1 :: ts) ->
  (forall n, size (observed push pop true (t0 :: t1 :: ts)) = Some n ->
    exists t, (t0 <= t)%nat /\ (t <= List.last ts 0)%nat /\ n = push t - pop t) /\
  (forall t2 ts', ts = t2 :: ts' -> push t0 = push t2 ->
    size (observed push pop true (t0 :: t1 :: ts)) = Some (push t0 - pop t1)).
Proof.
  intros Hpush Hpop Hs. apply Sorted_inv in Hs as [Hs H01]. apply HdRel_inv in H01. split.
  - intros n E. apply (size_loop_moment push pop Hpush Hpop _ ts t0 t1 n (Nat.le_refl _) H01 Hs E).
  - intros t2 ts' -> E. simpl. rewrite E, Z.eqb_refl. by rewrite (ticket_difference push pop Hpush Hpop).
Qed.

Lemma mpmc_size_witness :
  let push t := Z.of_nat (Nat.min t 5) in let pop t := Z.of_nat (Nat.min t 2) in
  size (observed push pop true [0; 3; 4; 5; 6; 7]%nat) = Some 2 /\
  exists t, (0 <= t)%nat /\ (t <= 7)%nat /\ 2 = push t - pop t.
Proof.
  split; [vm_compute; reflexivity|].
  destruct (mpmc_size (fun t => Z.of_nat (Nat.min t 5)) (fun t => Z.of_nat (Nat.min t 2)) 0 3 [4; 5; 6; 7]%nat) as [H _].
  - intros t t' Ht. lia.
  - intros t t' Ht. lia.
  - repeat constructor.
  - apply (H 2). vm_compute. reflexivity.
Defined.
