(* ===== verification/MPMCLive.v ===== *)
(** * Progress of MPMCQueue

    No wake-up is lost: as long as an operation that has taken effect is not
    finished, some thread can run to its return. *)

From S2P Require Import Prelude.
From S2P Require Import TurnSequencer.
From S2P Require Import MPMCQueue.
From S2P Require Import MPMCInv.
From S2P Require Import MPMCSteps.
From S2P Require Import MPMCRefine.
From S2P Require Import MPMCTheorems.

Section live.
Context {V : Type} (hw reloc : bool) (sz cap : Z) (Hsz : 0 < sz) (Hcap : 0 < cap < 2 ^ 63).

Abbreviation tno := (tno cap).
Abbreviation inv := (inv sz cap).
Abbreviation sys_step := (sys_step hw reloc sz).
Abbreviation slot_is := (slot_is sz cap).

Implicit Types (q : queue V) (l : local V) (ls : list (local V)) (log : list V) (ct : Z -> Z) (s : sys V).

(** a run in which threads step by themselves: no new calls, no interrupted
    or timed-out waits *)
Inductive runs : sys V -> sys V -> Prop :=
| runs_refl s : runs s s
| runs_step s i inp s' s'' : sys_step s i (ARun inp) = Some (Ok (s', None)) -> runs s' s'' -> runs s s''.

(** a run of one thread, with what the clock and the weak compare-and-exchange
    give in each of its steps *)
Inductive solo (i : nat) : list input -> sys V -> sys V -> Prop :=
| solo_refl s : solo i [] s s
| solo_step s inp s' inps s'' : sys_step s i (ARun inp) = Some (Ok (s', None)) -> solo i inps s' s'' ->
    solo i (inp :: inps) s s''.

Lemma solo_runs i inps s s' : solo i inps s s' -> runs s s'.
Proof. induction 1; [constructor|]. by econstructor. Qed.

Lemma runs_trans s s' s'' : runs s s' -> runs s' s'' -> runs s s''.
Proof. induction 1; [done|]. intros. econstructor; eauto. Qed.

(** ** Threads with a ticket *)

Definition is_transfer l : bool := match l with Transfer _ _ _ => true | _ => false end.

Definition tally ls : list bool := is_transfer <$> ls.

Definition count_true (bs : list bool) : nat := length (filter (fun b => b = true) bs).

Lemma count_insert_false bs i : bs !! i = Some true -> (count_true (<[i := false]> bs) < count_true bs)%nat.
Proof.
  intros E. unfold count_true. rewrite <-(take_drop_middle bs i true) at 2 by done.
  rewrite insert_take_drop by (by eapply lookup_lt_Some). rewrite !filter_app. simpl.
  rewrite !length_app, filter_cons_False, filter_cons_True by done. simpl. lia.
Qed.

Lemma tally_step q w i l' ls : tally (wake_all sz q w (<[i := l']> ls)) = <[i := is_transfer l']> (tally ls).
Proof.
  unfold tally. rewrite <-list_fmap_insert. destruct w as [w|]; [|done]. simpl. rewrite <-list_fmap_compose.
  apply list_fmap_ext. intros j l _. simpl. by destruct l as [| | | | | | | | | |? ? []|].
Qed.

Definition asleep (p : slot_pc V) : Prop := exists sp, p = SWait (WSleep sp).

Lemma wake_thread_awake q w c k p : ~ asleep p ->
  wake_thread sz q w (Transfer c k p) = Transfer c k p.
Proof.
  intros Hp. destruct p as [pc| | | |]; try done. simpl. unfold woken. case_match; [|done].
  destruct pc; try done. exfalso. apply Hp. by eexists.
Qed.

Lemma rank_awake word p : (slot_rank word p < 13)%nat -> ~ asleep p.
Proof. intros H [sp ->]. simpl in H. lia. Qed.

Lemma rank_max word (p : slot_pc V) : (slot_rank word p <= 13)%nat.
Proof. destruct p as [[]| | | |? []]; simpl; repeat case_match; lia. Qed.

(** a thread that has its turn and is awake runs to its return, whatever the
    clock and the weak compare-and-exchange give *)
Lemma run_return inps : forall ct log s i c k p o c0 d, inv ct log (s_queue s) (s_threads s) ->
  bounded (s_queue s) (s_threads s) -> s_threads s !! i = Some (Transfer c k p) ->
  tno (is_pop (c_side c)) k <= ct (k mod cap) -> ~ asleep p ->
  slot_is (s_queue s) (k mod cap) o c0 d -> (slot_rank (pack c0 d) p <= length inps)%nat ->
  exists ct' s' n r, solo i (take n inps) s s' /\ inv ct' log (s_queue s') (s_threads s') /\
    pushTicket_ (s_queue s') = pushTicket_ (s_queue s) /\ popTicket_ (s_queue s') = popTicket_ (s_queue s) /\
    s_threads s' !! i = Some (Return c r) /\ tally (s_threads s') = <[i := false]> (tally (s_threads s)).
Proof.
  induction inps as [|inp inps IH]; intros ct log s i c k p o c0 d I B Hi Ht Hp Hs Hm; simpl in Hm.
  { destruct p as [[]| | | |? []]; simpl in Hm; repeat case_match; lia. }
  destruct (good_step hw reloc sz cap Hsz Hcap ct log _ _ I B i c k inp p Hi) as [(sp & -> & _)|(o1 & d1 & Hs1 & G)].
  { exfalso. apply Hp. by eexists. }
  assert (pack c0 d = pack (ct (k mod cap)) d1) as Ew by (destruct Hs as [E1 _], Hs1 as [E2 _]; congruence).
  destruct (transfer_step hw reloc sz (s_queue s) c k inp p) as [[[[q' l'] w]|]|] eqn:E; try done.
  destruct G as (Ea & Eb & (ct' & Hct & I') & Hl').
  set (s' := mkSys q' (wake_all sz q' w (<[i := l']> (s_threads s)))).
  assert (sys_step s i (ARun inp) = Some (Ok (s', None))) as Hstep.
  { unfold MPMCQueue.sys_step. rewrite Hi. cbn [mbind option_bind step]. by rewrite E. }
  assert (i < length (s_threads s))%nat as Hlt by (by eapply lookup_lt_Some).
  destruct Hl' as [(p' & o' & c' & d' & -> & Hs' & Hrank)|[-> _]].
  - specialize (Hrank Ht). rewrite <-Ew in Hrank. pose proof (rank_max (pack c0 d) p).
    assert (~ asleep p') as Hp' by (apply (rank_awake (pack c' d')); lia).
    assert (s_threads s' !! i = Some (Transfer c k p')) as Hi'.
    { simpl. destruct w as [w|]; simpl; [|by rewrite list_lookup_insert_eq].
      rewrite list_lookup_fmap, list_lookup_insert_eq by done. simpl. f_equal. by apply wake_thread_awake. }
    assert (length (s_threads s') = length (s_threads s)) as Hlen.
    { simpl. destruct w; simpl; by rewrite ?length_fmap, length_insert. }
    destruct (IH ct' log s' i c k p' o' c' d') as (ct2 & s2 & n2 & r2 & Hr & I2 & Ea2 & Eb2 & Hret & Et2); try done.
    { unfold bounded. rewrite Hlen. simpl. by rewrite Ea, Eb. }
    { specialize (Hct (k mod cap)). lia. }
    { lia. }
    exists ct2, s2, (S n2), r2. split; [by econstructor|]. split; [done|].
    split; [by rewrite Ea2|]. split; [by rewrite Eb2|]. split; [done|].
    rewrite Et2. simpl. rewrite tally_step. simpl. by rewrite list_insert_insert_eq.
  - exists ct', s', 1%nat, (result log c k). split; [simpl; rewrite take_0; econstructor; [done|constructor]|].
    split; [done|]. split; [done|]. split; [done|]. simpl. split; [|by rewrite tally_step].
    destruct w as [w|]; simpl; [|by rewrite list_lookup_insert_eq].
    by rewrite list_lookup_fmap, list_lookup_insert_eq by done.
Qed.

Lemma run_thread ct log s i c k p : inv ct log (s_queue s) (s_threads s) ->
  bounded (s_queue s) (s_threads s) -> s_threads s !! i = Some (Transfer c k p) ->
  tno (is_pop (c_side c)) k <= ct (k mod cap) -> ~ asleep p ->
  exists ct' s', runs s s' /\ inv ct' log (s_queue s') (s_threads s') /\
    pushTicket_ (s_queue s') = pushTicket_ (s_queue s) /\ popTicket_ (s_queue s') = popTicket_ (s_queue s) /\
    length (s_threads s') = length (s_threads s) /\
    (count_true (tally (s_threads s')) < count_true (tally (s_threads s)))%nat.
Proof.
  intros I B Hi Ht Hp. destruct (inv_slot _ _ _ _ _ _ I (k mod cap) (mod_cap cap Hcap k)) as (o & d & Hs).
  destruct (run_return (replicate 13 (mkInput 0 false)) ct log s i c k p o _ d I B Hi Ht Hp Hs (rank_max _ _))
    as (ct' & s' & n & ret & Hr & I' & Ea & Eb & _ & Et).
  exists ct', s'. split_and!; try done; [by eapply solo_runs|..].
  - rewrite <-(length_fmap is_transfer (s_threads s')), <-(length_fmap is_transfer (s_threads s)).
    change (length (tally (s_threads s')) = length (tally (s_threads s))). by rewrite Et, length_insert.
  - rewrite Et. apply count_insert_false. unfold tally. by rewrite list_lookup_fmap, Hi.
Qed.

(** an operation that has taken effect and is not finished: some thread is awake
    and has its turn *)
Lemma someone_can_run ct log q ls i c k p : inv ct log q ls -> bounded q ls ->
  ls !! i = Some (Transfer c k p) -> effective cap q c k = true ->
  exists i' c' k' p', ls !! i' = Some (Transfer c' k' p') /\
    tno (is_pop (c_side c')) k' <= ct (k' mod cap) /\ ~ asleep p'.
Proof.
  intros I B Hi Heff. set (r := k mod cap). pose proof (mod_cap cap Hcap k) as Hr. fold r in Hr.
  destruct (ticket_bounds sz cap ct log q ls I B) as (Ha & Hb & _).
  destruct (transfer_holds sz cap ct log q ls I i c k p Hi) as [Hh|Hlt].
  2: { exists i, c, k, p. split; [done|]. split; [lia|]. intros [sp ->].
       destruct (inv_local _ _ _ _ _ _ I _ _ Hi) as (_ & _ & [? _] & _). lia. }
  (* the ticket of the current turn of the slot is issued *)
  set (pop1 := Z.odd (ct r)). set (k1 := ct r / 2 * cap + r).
  destruct (ticket_slot cap Hcap (ct r / 2) r Hr) as [Em Ed]. fold k1 in Em, Ed.
  assert (ct r = 2 * (ct r / 2) + if Z.odd (ct r) then 1 else 0) as Eodd.
  { rewrite <-Z.div2_div. rewrite (Z.div2_odd (ct r)) at 1. by destruct (Z.odd (ct r)). }
  assert (tno pop1 k1 = ct r) as Et1 by (unfold MPMCInv.tno, pop1; by rewrite Ed).
  assert (0 <= k1 < issued pop1 q) as Hk1.
  { destruct (inv_local _ _ _ _ _ _ I _ _ Hi) as (Hk & _ & Hp & _). pose proof (inv_turn _ _ _ _ _ _ I r Hr).
    assert (ct r <= tno (is_pop (c_side c)) k) as Hle.
    { destruct p as [| | | |? []]; simpl in *; try done; fold r in Hp; lia. }
    assert (0 <= ct r / 2) by (apply Z.div_pos; lia). pose proof (ticket_eq cap Hcap k) as Ek. fold r in Ek.
    unfold effective in Heff. unfold k1, pop1, MPMCInv.tno in *.
    split; [nia|]. destruct (Z.odd (ct r)); simpl in *; destruct (c_side c); simpl in *; nia. }
  destruct (inv_held _ _ _ _ _ _ I pop1 k1 Hk1) as (j & l & Hj & Hl); [rewrite Em, Et1; done|].
  destruct l as [| | | | | | | | | |c1 k1' p1|]; try done.
  assert (is_pop (c_side c1) = pop1 /\ k1' = k1) as [Ep ->] by (destruct p1 as [| | | |? []]; simpl in Hl; by simplify_eq).
  destruct (sleeping (Transfer c1 k1 p1)) as [[pop2 k2]|] eqn:Esl.
  - assert (pop2 = pop1 /\ k2 = k1) as [-> ->] by (destruct p1 as [[]| | | |]; simpl in Esl; try done; simplify_eq; done).
    destruct (inv_sleep _ _ _ _ _ _ I j _ _ _ Hj Esl) as [(o & d & _ & Hcov & _)|(j' & l' & pop' & k' & Ej' & Hw & _)].
    { rewrite Em, Et1 in Hcov. lia. }
    destruct l' as [| | | | | | | | | |c' k0 [| | | |got []]|]; try done.
    exists j', c', k0, (SComplete got CWake). split; [done|]. split; [|by intros [? ?]].
    destruct (inv_local _ _ _ _ _ _ I _ _ Ej') as (_ & _ & [_ Hp] & _). lia.
  - exists j, c1, k1, p1. split; [done|]. rewrite Ep, Et1, Em. split; [done|].
    intros [sp ->]. done.
Qed.

Lemma all_finish m : forall ct log s, inv ct log (s_queue s) (s_threads s) -> bounded (s_queue s) (s_threads s) ->
  (count_true (tally (s_threads s)) <= m)%nat ->
  exists s', runs s s' /\
    pushTicket_ (s_queue s') = pushTicket_ (s_queue s) /\ popTicket_ (s_queue s') = popTicket_ (s_queue s) /\
    forall i c k p, s_threads s' !! i = Some (Transfer c k p) -> effective cap (s_queue s') c k = false.
Proof.
  induction m as [|m IH]; intros ct log s I B Hm.
  { exists s. split; [constructor|]. split; [done|]. split; [done|]. intros i c k p Hi. exfalso.
    assert (tally (s_threads s) !! i = Some true) as E by (unfold tally; by rewrite list_lookup_fmap, Hi).
    pose proof (count_insert_false _ _ E). lia. }
  set (unfinished := fun l => match l with Transfer c k _ => effective cap (s_queue s) c k | _ => false end).
  destruct (decide (Exists (fun l => unfinished l = true) (s_threads s))) as [Hex|Hnone].
  - apply Exists_exists in Hex as (l & Hl & Hun). apply list_elem_of_lookup in Hl as [i Hi].
    destruct l as [| | | | | | | | | |c k p|]; try done. simpl in Hun.
    destruct (someone_can_run ct log _ _ i c k p I B Hi Hun) as (i' & c' & k' & p' & Hi' & Ht & Hp).
    destruct (run_thread ct log s i' c' k' p' I B Hi' Ht Hp) as (ct' & s' & Hr & I' & Ea & Eb & Hlen & Hcount).
    destruct (IH ct' log s' I') as (s2 & Hr2 & Ea2 & Eb2 & Hend); [|lia|].
    { unfold bounded. by rewrite Ea, Eb, Hlen. }
    exists s2. split; [by eapply runs_trans|]. split; [by rewrite Ea2|]. split; [by rewrite Eb2|done].
  - exists s. split; [constructor|]. split; [done|]. split; [done|]. intros i c k p Hi.
    destruct (effective cap (s_queue s) c k) eqn:E; [|done]. exfalso. apply Hnone, Exists_exists.
    exists (Transfer c k p). split; [by eapply list_elem_of_lookup_2|done].
Qed.
End live.

(** C6: no wake-up is lost. From every state that up to [2^23] threads reach in
    fewer than [2^59] steps, the threads can by themselves, without interrupted
    waits, come to a state in which every write that has room and every read
    that has an element has returned: who still waits with a ticket waits for a
    read or a write that has not been called. *)
Theorem mpmc_live {V} (hw reloc : bool) (sz cap : Z) (q : queue V) (k n : nat) tr s :
  0 < sz -> 0 < cap < 2 ^ 63 -> MPMCQueue_new sz cap = Ok q -> Z.of_nat k <= 2 ^ 23 ->
  steps hw reloc sz (init q k) n tr s -> Z.of_nat n < 2 ^ 59 ->
  exists s', runs hw reloc sz s s' /\
    pushTicket_ (s_queue s') = pushTicket_ (s_queue s) /\ popTicket_ (s_queue s') = popTicket_ (s_queue s) /\
    forall i c t p, s_threads s' !! i = Some (Transfer c t p) ->
      match c_side c with
      | SPush _ => popTicket_ (s_queue s) + cap <= t
      | SPop => pushTicket_ (s_queue s) <= t
      end.
Proof.
  intros Hsz Hcap Hq Hk H Hn.
  destruct (steps_sim hw reloc sz cap Hsz Hcap q k n tr s Hq Hk H Hn) as (ct & log & σ & I & S & Hσ & B).
  destruct (all_finish hw reloc sz cap Hsz Hcap _ ct log s I B (Nat.le_refl _)) as (s' & Hr & Ea & Eb & Hend).
  exists s'. split_and!; try done. intros i c t p Hi. specialize (Hend i c t p Hi).
  unfold effective in Hend. rewrite Ea, Eb in Hend. destruct (c_side c); by apply Z.ltb_ge.
Qed.

Lemma mpmc_live_witness :
  let s := fst (example_run (example_sleep ++ example_write 7 10)) in
  (exists sp, s_threads s !! 0%nat = Some (Transfer blockingReadWithTicket 0 (SWait (WSleep sp)))) /\
  exists s', runs true false 16 s s' /\
    pushTicket_ (s_queue s') = pushTicket_ (s_queue s) /\ popTicket_ (s_queue s') = popTicket_ (s_queue s) /\
    forall i c t p, s_threads s' !! i = Some (Transfer c t p) ->
      match c_side c with
      | SPush _ => popTicket_ (s_queue s) + 2 <= t
      | SPop => pushTicket_ (s_queue s) <= t
      end.
Proof.
  split; [eexists; vm_compute; reflexivity|].
  apply (mpmc_live true false 16 2 example_queue 2 (length (example_sleep ++ example_write 7 10))
    (snd (example_run (example_sleep ++ example_write 7 10))));
    [lia|lia|vm_compute; reflexivity|lia|apply example_steps; vm_compute; reflexivity|vm_compute; reflexivity].
Defined.

(** C14: [write] and [read] do not block. A thread in one of them that has taken
    a ticket is not asleep, and if it runs alone from there it returns within 13
    steps, for every value the clock gives and every spurious failure of a weak
    compare-and-exchange. *)
Theorem mpmc_nonblocking {V} (hw reloc : bool) (sz cap : Z) (q : queue V) (k n : nat) tr s i c t p :
  0 < sz -> 0 < cap < 2 ^ 63 -> MPMCQueue_new sz cap = Ok q -> Z.of_nat k <= 2 ^ 23 ->
  steps hw reloc sz (init q k) n tr s -> Z.of_nat n < 2 ^ 59 ->
  s_threads s !! i = Some (Transfer c t p) -> c_mode c = MReady ->
  ~ asleep p /\
  forall inps, length inps = 13%nat ->
    exists m s' r, solo hw reloc sz i (take m inps) s s' /\ s_threads s' !! i = Some (Return c r).
Proof.
  intros Hsz Hcap Hq Hk H Hn Hi Hm.
  destruct (steps_sim hw reloc sz cap Hsz Hcap q k n tr s Hq Hk H Hn) as (ct & log & σ & I & S & Hσ & B).
  destruct (inv_local _ _ _ _ _ _ I _ _ Hi) as (_ & _ & _ & Hready). destruct (Hready Hm) as [Ht Hsl].
  assert (~ asleep p) as Hp by (intros [sp ->]; done). split; [done|]. intros inps Hlen.
  destruct (inv_slot _ _ _ _ _ _ I (t mod cap) (mod_cap cap Hcap t)) as (o & d & Hs).
  destruct (run_return hw reloc sz cap Hsz Hcap inps ct log s i c t p o (ct (t mod cap)) d I B Hi Ht Hp Hs)
    as (_ & s' & m & r & Hsolo & _ & _ & _ & Hret & _).
  { rewrite Hlen. apply rank_max. }
  by exists m, s', r.
Qed.

Lemma mpmc_nonblocking_witness :
  let s := fst (example_run (example_sleep ++ example_write 7 3)) in
  ~ asleep (V := Z) (SWait WCutoff) /\
  forall inps, length inps = 13%nat ->
    exists m s' r, solo true false 16 1 (take m inps) s s' /\ s_threads s' !! 1%nat = Some (Return (write 7) r).
Proof.
  apply (mpmc_nonblocking true false 16 2 example_queue 2 (length (example_sleep ++ example_write 7 3))
    (snd (example_run (example_sleep ++ example_write 7 3))) _ 1 (write 7) 0 (SWait WCutoff));
    [lia|lia|vm_compute; reflexivity|lia|apply example_steps; vm_compute; reflexivity|vm_compute; reflexivity..].
Defined.
