(* ===== verification/SwissGroup.v ===== *)
(** * phmap groups (phmap/phmap.h, phmap/phmap_bits.h)

    The control bytes of a phmap table, the bit scans, [BitMask], and the two
    implementations of a group of control bytes: [GroupSse2Impl] (16 bytes in a
    register) and [GroupPortableImpl] (8 bytes in a word). [Group] is the set of
    operations the table uses and [GroupOk] what it relies on; both
    implementations are instances, so that the theorems about the table hold
    for either. *)

From S2P Require Import Prelude.
From S2P Require Import Simd.

(** ** Control bytes *)

Definition kEmpty : Z := -128.
Definition kDeleted : Z := -2.
Definition kSentinel : Z := -1.

Definition IsEmpty (c : Z) : bool := c =? kEmpty.
Definition IsFull (c : Z) : bool := 0 <=? c.
Definition IsDeleted (c : Z) : bool := c =? kDeleted.
Definition IsEmptyOrDeleted (c : Z) : bool := c <? kSentinel.

Definition EmptyGroup : list Z := kSentinel :: replicate 15 kEmpty.

(** the values a control byte takes *)
Definition ctrl_ok (c : Z) : Prop :=
  c = kEmpty \/ c = kDeleted \/ c = kSentinel \/ 0 <= c < 128.

(** ** Bit scans *)

(** the branches of the scans for compilers without the builtins *)
Definition clz_table : list Z := [4; 3; 2; 2; 1; 1; 1; 1; 0; 0; 0; 0; 0; 0; 0; 0].

Definition scan_down (s : Z * Z) (k : Z) : Z * Z :=
  if Z.shiftr (snd s) k =? 0 then s else (fst s - k, Z.shiftr (snd s) k).

Definition CountLeadingZeros64Slow (n : Z) : res Z :=
  let s := foldl scan_down (60, n) [32; 16; 8; 4] in
  c ← rd clz_table (snd s); Ok (c + fst s).

Definition CountLeadingZeros32Slow (n : Z) : res Z :=
  let s := foldl scan_down (28, n) [16; 8; 4] in
  c ← rd clz_table (snd s); Ok (c + fst s).

Definition scan_up (n c : Z) (s : Z * Z) : Z :=
  if Z.land n (fst s) =? 0 then c else c - snd s.

Definition CountTrailingZerosNonZero64Slow (n : Z) : Z :=
  let n := Z.land n (u64 (u64 (Z.lnot n) + 1)) in
  foldl (scan_up n) 63
    [(0x00000000FFFFFFFF, 32); (0x0000FFFF0000FFFF, 16); (0x00FF00FF00FF00FF, 8);
     (0x0F0F0F0F0F0F0F0F, 4); (0x3333333333333333, 2); (0x5555555555555555, 1)].

Definition CountTrailingZerosNonZero32Slow (n : Z) : Z :=
  let n := Z.land n (u32 (u32 (Z.lnot n) + 1)) in
  foldl (scan_up n) 31
    [(0x0000FFFF, 16); (0x00FF00FF, 8); (0x0F0F0F0F, 4); (0x33333333, 2); (0x55555555, 1)].

(** the branches with the builtins *)
Definition CountLeadingZeros (w n : Z) : res Z := if n =? 0 then Ok w else clz w n.
Definition CountTrailingZerosNonZero (n : Z) : res Z := ctz n.

(** ** BitMask

    A [BitMask<T, SignificantBits, Shift>] is its mask; [T] has [T_bits] bits. *)

Definition LowestBitSet (Shift mask : Z) : res Z :=
  k ← CountTrailingZerosNonZero mask; Ok (Z.shiftr k Shift).

Definition HighestBitSet (T_bits Shift mask : Z) : res Z :=
  k ← CountLeadingZeros T_bits mask; Ok (Z.shiftr (T_bits - k - 1) Shift).

Definition LeadingZeros (T_bits SignificantBits Shift mask : Z) : res Z :=
  let total_significant_bits := Z.shiftl SignificantBits Shift in
  let extra_bits := T_bits - total_significant_bits in
  k ← CountLeadingZeros T_bits (wrapu T_bits (Z.shiftl mask extra_bits)); Ok (Z.shiftr k Shift).

(** the values a range-based [for] over the mask yields; each step clears the
    lowest bit, so [T_bits] steps are enough *)
Fixpoint bitmask_bits (fuel : nat) (Shift mask : Z) : res (list Z) :=
  if mask =? 0 then Ok [] else
  match fuel with
  | O => Err EFuel
  | S fuel =>
      i ← LowestBitSet Shift mask;
      l ← bitmask_bits fuel Shift (Z.land mask (mask - 1));
      Ok (i :: l)
  end.

(** ** Groups *)

(** the operations of a group on its control bytes *)
Class Group := {
  kWidth : Z;
  T_bits : Z;
  Shift : Z;
  Match : list Z -> Z -> Z;
  MatchEmpty : list Z -> Z;
  MatchEmptyOrDeleted : list Z -> Z;
  CountLeadingEmptyOrDeleted : list Z -> res Z;
  ConvertSpecialToEmptyAndFullToDeleted : list Z -> list Z
}.

(** [mask] has the bit of lane [i] exactly when [bs] is true at [i]; a lane
    has [2 ^ s] bits, of which the highest is used *)
Definition is_mask (s : Z) (bs : list bool) (mask : Z) : Prop :=
  0 <= mask /\
  forall n, 0 <= n -> Z.testbit mask n =
    ((n + 1) mod 2 ^ s =? 0) && default false (bs !! Z.to_nat ((n + 1) / 2 ^ s - 1)).

(** what the table relies on; [Match] may have false positives, on full bytes only *)
Class GroupOk (G : Group) := {
  kWidth_cases : kWidth = 8 \/ kWidth = 16;
  Shift_nonneg : 0 <= Shift;
  T_bits_lanes : kWidth * 2 ^ Shift <= T_bits;
  Match_ok g h : Z.of_nat (length g) = kWidth -> Forall ctrl_ok g -> 0 <= h < 128 ->
    exists bs, length bs = length g /\ is_mask Shift bs (Match g h) /\
      forall i c, g !! i = Some c ->
        (c = h -> bs !! i = Some true) /\ (bs !! i = Some true -> IsFull c = true);
  MatchEmpty_ok g : Z.of_nat (length g) = kWidth -> Forall ctrl_ok g ->
    is_mask Shift (IsEmpty <$> g) (MatchEmpty g);
  MatchEmptyOrDeleted_ok g : Z.of_nat (length g) = kWidth -> Forall ctrl_ok g ->
    is_mask Shift (IsEmptyOrDeleted <$> g) (MatchEmptyOrDeleted g);
  CountLeading_ok g : Z.of_nat (length g) = kWidth -> Forall ctrl_ok g ->
    exists n, CountLeadingEmptyOrDeleted g = Ok (Z.of_nat n) /\ (n <= length g)%nat /\
      (forall i c, (i < n)%nat -> g !! i = Some c -> IsEmptyOrDeleted c = true) /\
      (forall c, g !! n = Some c -> IsEmptyOrDeleted c = false);
  Convert_ok g : Z.of_nat (length g) = kWidth -> Forall ctrl_ok g ->
    ConvertSpecialToEmptyAndFullToDeleted g =
    (fun c => if IsFull c then kDeleted else kEmpty) <$> g
}.

(** ** GroupSse2Impl *)

Module Sse2.
Section Sse2.
(** [PHMAP_HAVE_SSSE3], and whether plain [char] is unsigned (under GCC) *)
Context (ssse3 uchar : bool).

(** [_mm_subs_epi8]: lane-wise signed saturating difference *)
Definition subs_epi8 (x y : vec) : vec :=
  zip_with (fun a b => u8 (Z.max (-128) (Z.min 127 (wraps 8 a - wraps 8 b)))) x y.

(** [_mm_sign_epi8(x, y)]: lane of [x] negated, zeroed or kept by the sign of the lane of [y] *)
Definition sign_epi8 (x y : vec) : vec :=
  zip_with (fun a b => if wraps 8 b <? 0 then u8 (- a) else if b =? 0 then 0 else a) x y.

(** [_mm_andnot_si128] *)
Definition andnot_si (x y : vec) : vec := zip_with (fun a b => Z.ldiff b a) x y.

Definition cmpgt_epi8_fixed (a b : vec) : vec :=
  if uchar then
    let mask := set1_epi8 16 0x80 in
    let diff := subs_epi8 b a in
    cmpeq_epi8 (and_si diff mask) mask
  else cmpgt_epi8 a b.

(** the register loaded from 16 control bytes *)
Definition reg (g : list Z) : vec := u8 <$> g.

Definition SMatch (g : list Z) (hash : Z) : Z :=
  movemask_epi8 (cmpeq_epi8 (set1_epi8 16 hash) (reg g)).

Definition SMatchEmpty (g : list Z) : Z :=
  if ssse3 then movemask_epi8 (sign_epi8 (reg g) (reg g))
  else SMatch g (u8 kEmpty).

Definition SMatchEmptyOrDeleted (g : list Z) : Z :=
  let special := set1_epi8 16 kSentinel in
  movemask_epi8 (cmpgt_epi8_fixed special (reg g)).

Definition SCountLeadingEmptyOrDeleted (g : list Z) : res Z :=
  let special := set1_epi8 16 kSentinel in
  CountTrailingZerosNonZero (movemask_epi8 (cmpgt_epi8_fixed special (reg g)) + 1).

Definition SConvert (g : list Z) : list Z :=
  let msbs := set1_epi8 16 (-128) in
  let x126 := set1_epi8 16 126 in
  let res :=
    if ssse3 then or_si (shuffle_epi8 x126 (reg g)) msbs
    else
      let zero := replicate 16 0 in
      let special_mask := cmpgt_epi8_fixed zero (reg g) in
      or_si msbs (andnot_si special_mask x126) in
  wraps 8 <$> res.

#[export] Instance GroupSse2Impl : Group := {|
  kWidth := 16; T_bits := 32; Shift := 0;
  Match := SMatch; MatchEmpty := SMatchEmpty; MatchEmptyOrDeleted := SMatchEmptyOrDeleted;
  CountLeadingEmptyOrDeleted := SCountLeadingEmptyOrDeleted;
  ConvertSpecialToEmptyAndFullToDeleted := SConvert |}.

End Sse2.
End Sse2.

(** ** GroupPortableImpl *)

Module Portable.

Definition msbs : Z := 0x8080808080808080.
Definition lsbs : Z := 0x0101010101010101.
Definition gaps : Z := 0x00FEFEFEFEFEFEFE.

(** [little_endian::Load64] and [Store64] *)
Definition Load64 (g : list Z) : Z := le_val (u8 <$> g).
Fixpoint le_bytes (n : nat) (z : Z) : list Z :=
  match n with O => [] | S n => wraps 8 (z mod 256) :: le_bytes n (z / 256) end.
Definition Store64 (z : Z) : list Z := le_bytes 8 z.

Definition PMatch (g : list Z) (hash : Z) : Z :=
  let ctrl := Load64 g in
  let x := Z.lxor ctrl (u64 (lsbs * hash)) in
  Z.land (Z.land (u64 (x - lsbs)) (u64 (Z.lnot x))) msbs.

Definition PMatchEmpty (g : list Z) : Z :=
  let ctrl := Load64 g in
  Z.land (Z.land ctrl (u64 (Z.shiftl (u64 (Z.lnot ctrl)) 6))) msbs.

Definition PMatchEmptyOrDeleted (g : list Z) : Z :=
  let ctrl := Load64 g in
  Z.land (Z.land ctrl (u64 (Z.shiftl (u64 (Z.lnot ctrl)) 7))) msbs.

Definition PCountLeadingEmptyOrDeleted (g : list Z) : res Z :=
  let ctrl := Load64 g in
  k ← CountTrailingZerosNonZero
        (u64 (Z.lor (Z.land (u64 (Z.lnot ctrl)) (Z.shiftr ctrl 7)) gaps + 1));
  Ok (Z.shiftr (k + 7) 3).

Definition PConvert (g : list Z) : list Z :=
  let ctrl := Load64 g in
  let x := Z.land ctrl msbs in
  let res := Z.land (u64 (u64 (Z.lnot x) + Z.shiftr x 7)) (u64 (Z.lnot lsbs)) in
  Store64 res.

#[export] Instance GroupPortableImpl : Group := {|
  kWidth := 8; T_bits := 64; Shift := 3;
  Match := PMatch; MatchEmpty := PMatchEmpty; MatchEmptyOrDeleted := PMatchEmptyOrDeleted;
  CountLeadingEmptyOrDeleted := PCountLeadingEmptyOrDeleted;
  ConvertSpecialToEmptyAndFullToDeleted := PConvert |}.

End Portable.
