(* ===== verification/SwissGroupOk.v ===== *)
(** * phmap groups: the two implementations meet the interface

    Facts about masks, the equivalence of the portable bit scans with the
    builtins, and the instances of [GroupOk] for [GroupSse2Impl] and
    [GroupPortableImpl]. *)

From S2P Require Import Prelude.
From S2P Require Import Simd.
From S2P Require Import SwissGroup.

(** a statement about a control byte is checked on each of its values *)
Definition ctrl_values : list Z := [kEmpty; kDeleted; kSentinel] ++ seqZ 0 128.

Lemma ctrl_check (P : Z -> bool) : forallb P ctrl_values = true -> forall c, ctrl_ok c -> P c = true.
Proof.
  intros H c Hc. rewrite forallb_forall in H. apply H. apply list_elem_of_In.
  unfold ctrl_values. rewrite elem_of_app, !elem_of_cons, elem_of_seqZ. unfold ctrl_ok in Hc. lia.
Qed.

Lemma seqZ_check (P : Z -> bool) a n k : forallb P (seqZ a n) = true -> a <= k < a + n -> P k = true.
Proof. intros H Hk. rewrite forallb_forall in H. apply H, list_elem_of_In, elem_of_seqZ. lia. Qed.

Lemma ctrl_check_eq (P Q : Z -> bool) :
  forallb (fun c => Bool.eqb (P c) (Q c)) ctrl_values = true -> forall c, ctrl_ok c -> P c = Q c.
Proof. intros H c Hc. apply Bool.eqb_prop. by apply (ctrl_check (fun c => Bool.eqb (P c) (Q c))). Qed.

(** ** Masks *)

Lemma is_mask_0 s bs m : is_mask s bs m -> m = 0 -> forall i b, bs !! i = Some b -> 0 <= s -> b = false.
Proof.
  intros [_ Hm] -> i b Hb Hs. specialize (Hm (2 ^ s * Z.of_nat (S i) - 1)).
  pose proof (Z.pow_pos_nonneg 2 s). rewrite Z.testbit_0_l in Hm.
  replace (2 ^ s * Z.of_nat (S i) - 1 + 1) with (Z.of_nat (S i) * 2 ^ s) in Hm by lia.
  rewrite Z.mod_mul, Z.div_mul in Hm by lia.
  replace (Z.to_nat (Z.of_nat (S i) - 1)) with i in Hm by lia. rewrite Hb in Hm. simpl in Hm.
  symmetry. apply Hm. nia.
Qed.

Section Masks.
Context (s : Z) (Hs : 0 <= s) (bs : list bool) (m : Z) (Hm : is_mask s bs m).

(** the bit of a lane *)
Definition lane_bit (i : nat) : Z := 2 ^ s * Z.of_nat (S i) - 1.

Lemma lane_bit_nonneg i : 0 <= lane_bit i.
Proof. unfold lane_bit. pose proof (Z.pow_pos_nonneg 2 s). nia. Qed.

Lemma lane_bit_shift i : Z.shiftr (lane_bit i) s = Z.of_nat i.
Proof.
  unfold lane_bit. rewrite Z.shiftr_div_pow2 by done. pose proof (Z.pow_pos_nonneg 2 s).
  symmetry. apply (Z.div_unique_pos _ _ _ (2 ^ s - 1)); lia.
Qed.

Lemma mask_lane i : Z.testbit m (lane_bit i) = default false (bs !! i).
Proof.
  destruct Hm as [_ H]. rewrite H by apply lane_bit_nonneg. unfold lane_bit.
  pose proof (Z.pow_pos_nonneg 2 s).
  replace (2 ^ s * Z.of_nat (S i) - 1 + 1) with (Z.of_nat (S i) * 2 ^ s) by lia.
  rewrite Z.mod_mul, Z.div_mul by lia. simpl andb.
  by replace (Z.to_nat (Z.of_nat (S i) - 1)) with i by lia.
Qed.

(** every bit of a mask is the bit of a lane *)
Lemma mask_bit n : 0 <= n -> Z.testbit m n = true -> exists i, n = lane_bit i /\ bs !! i = Some true.
Proof.
  intros Hn H. pose proof H as H'. destruct Hm as [_ Hb]. rewrite Hb in H by done.
  apply andb_true_iff in H as [H1 H2]. apply Z.eqb_eq in H1.
  pose proof (Z.pow_pos_nonneg 2 s).
  pose proof (Z.div_mod (n + 1) (2 ^ s) ltac:(lia)) as E. rewrite H1, Z.add_0_r in E.
  assert (1 <= (n + 1) / 2 ^ s) by nia.
  exists (Z.to_nat ((n + 1) / 2 ^ s - 1)). split; [unfold lane_bit; nia|].
  by destruct (bs !! _) as [[]|].
Qed.

Lemma mask_nonzero : m <> 0 <-> exists i, bs !! i = Some true.
Proof.
  split.
  - intros H. destruct Hm as [H0 _]. assert (0 < m) as Hp by lia.
    destruct (mask_bit (Z.log2 m)) as (i & _ & Hi); [apply Z.log2_nonneg|by apply Z.bit_log2|by exists i].
  - intros [i Hi] E0. assert (E := mask_lane i). rewrite E0, Z.testbit_0_l, Hi in E. done.
Qed.

Lemma mask_ctz : m <> 0 ->
  exists i, ctz m = Ok (lane_bit i) /\ bs !! i = Some true /\ forall j, (j < i)%nat -> bs !! j <> Some true.
Proof.
  intros H. pose proof (proj1 Hm) as H0.
  assert (exists p, m = Zpos p) as [p Em] by (exists (Z.to_pos m); lia).
  destruct (ctz_pos_spec p) as (Hc & Hb & Hl). rewrite <-Em in Hb, Hl.
  destruct (mask_bit (ctz_pos p)) as (i & Ei & Hi); [done|done|].
  exists i. split_and!; [by rewrite Em; simpl; rewrite Ei|done|]. intros j Hj Hj'.
  assert (E := mask_lane j). rewrite Hj' in E. simpl in E.
  rewrite Hl in E; [done|]. rewrite Ei. unfold lane_bit. pose proof (Z.pow_pos_nonneg 2 s). nia.
Qed.

Lemma mask_LowestBitSet : m <> 0 ->
  exists i, LowestBitSet s m = Ok (Z.of_nat i) /\ bs !! i = Some true /\ forall j, (j < i)%nat -> bs !! j <> Some true.
Proof.
  intros H. destruct (mask_ctz H) as (i & E & Hi). exists i. split; [|done].
  unfold LowestBitSet, CountTrailingZerosNonZero. rewrite E. simpl. by rewrite lane_bit_shift.
Qed.

Lemma mask_LeadingZeros T :
  m <> 0 -> Z.of_nat (length bs) * 2 ^ s <= T ->
  exists i, LeadingZeros T (Z.of_nat (length bs)) s m = Ok (Z.of_nat (length bs) - 1 - Z.of_nat i) /\
    bs !! i = Some true /\ forall j, (i < j)%nat -> bs !! j <> Some true.
Proof.
  intros H HT. pose proof (proj1 Hm) as H0. assert (0 < m) as Hp by lia.
  pose proof (Z.pow_pos_nonneg 2 s) as Hps.
  destruct (mask_bit (Z.log2 m)) as (i & Ei & Hi); [apply Z.log2_nonneg|by apply Z.bit_log2|].
  pose proof (lookup_lt_Some _ _ _ Hi) as Hlt.
  exists i. split_and!; [|done|].
  - unfold LeadingZeros. rewrite (Z.shiftl_mul_pow2 (Z.of_nat _) s) by done.
    set (x := T - Z.of_nat (length bs) * 2 ^ s). assert (0 <= x) by lia.
    assert (Z.log2 m < Z.of_nat (length bs) * 2 ^ s) as Hlog by (rewrite Ei; unfold lane_bit; nia).
    pose proof (proj2 (Z.log2_lt_pow2 m (Z.of_nat (length bs) * 2 ^ s) Hp) Hlog) as Hub.
    rewrite Z.shiftl_mul_pow2 by done.
    rewrite wrapu_id.
    2:{ split; [pose proof (Z.pow_pos_nonneg 2 x); nia|].
        replace T with (Z.of_nat (length bs) * 2 ^ s + x) by lia. rewrite Z.pow_add_r by lia.
        pose proof (Z.pow_pos_nonneg 2 x). nia. }
    unfold CountLeadingZeros, clz, bit_length. pose proof (Z.pow_pos_nonneg 2 x).
    destruct (Z.eqb_spec (m * 2 ^ x) 0); [nia|]. destruct (Z.leb_spec (m * 2 ^ x) 0); [nia|].
    rewrite Z.log2_mul_pow2 by lia. simpl. f_equal.
    rewrite Ei. unfold lane_bit. rewrite Z.shiftr_div_pow2 by done.
    replace (T - (x + (2 ^ s * Z.of_nat (S i) - 1) + 1))
      with ((Z.of_nat (length bs) - 1 - Z.of_nat i) * 2 ^ s) by (unfold x; nia).
    apply Z.div_mul. lia.
  - intros j Hj Hj'. assert (E := mask_lane j). rewrite Hj' in E. simpl in E.
    rewrite Z.bits_above_log2 in E; [done|done|]. rewrite Ei. unfold lane_bit. nia.
Qed.

End Masks.

(** [mask & (mask - 1)] clears the lowest bit *)
Lemma land_pred_testbit m k n : 0 < m -> ctz m = Ok k -> 0 <= n ->
  Z.testbit (Z.land m (m - 1)) n = Z.testbit m n && negb (n =? k).
Proof.
  intros Hm Hk Hn. destruct m as [|p|]; try lia. injection Hk as <-.
  destruct (ctz_pos_spec p) as (H0 & Hb & Hl). set (k := ctz_pos p) in *. set (m := Zpos p) in *.
  pose proof (Z.pow_pos_nonneg 2 k ltac:(lia) H0).
  assert (m mod 2 ^ k = 0) as Hmod.
  { apply Z.bits_inj'. intros j Hj. rewrite Z.testbit_0_l.
    destruct (Z.lt_ge_cases j k); [rewrite Z.mod_pow2_bits_low by lia; apply Hl; lia|].
    apply Z.mod_pow2_bits_high. lia. }
  assert (Z.odd (m / 2 ^ k) = true) as Hodd.
  { rewrite <-Z.bit0_odd, Z.div_pow2_bits by lia. exact Hb. }
  rewrite Z.land_spec. destruct (Z.lt_trichotomy n k) as [Hlt|[->|Hgt]].
  - rewrite Hl by lia. done.
  - rewrite Z.eqb_refl, andb_false_r.
    replace (Z.testbit (m - 1) k) with false; [by rewrite andb_false_r|].
    symmetry. rewrite <-(Z.add_0_l k), <-Z.div_pow2_bits, Z.bit0_odd by lia.
    rewrite (Z.div_mod m (2 ^ k)), Hmod, Z.add_0_r by lia.
    replace (2 ^ k * (m / 2 ^ k) - 1) with ((m / 2 ^ k - 1) * 2 ^ k + (2 ^ k - 1)) by lia.
    rewrite Z.div_add_l, (Z.div_small (2 ^ k - 1)), Z.add_0_r by lia. by rewrite Z.odd_sub, Hodd.
  - replace (n =? k) with false by lia. rewrite andb_true_r. enough (Z.testbit (m - 1) n = Z.testbit m n) as ->.
    { apply andb_diag. }
    replace n with (n - (k + 1) + (k + 1)) by lia. rewrite <-!Z.div_pow2_bits by lia.
    f_equal. rewrite Z.pow_add_r by lia. rewrite <-!Z.div_div by lia. change (2 ^ 1) with 2.
    rewrite (Z.div_mod m (2 ^ k)) at 1 by lia. rewrite Hmod, Z.add_0_r.
    replace (2 ^ k * (m / 2 ^ k) - 1) with ((m / 2 ^ k - 1) * 2 ^ k + (2 ^ k - 1)) by lia.
    rewrite Z.div_add_l, (Z.div_small (2 ^ k - 1)), Z.add_0_r by lia.
    rewrite (Zodd_div2 (m / 2 ^ k)) at 1 by (by apply Zodd_bool_iff).
    rewrite Z.div2_div. replace (2 * (m / 2 ^ k / 2) + 1 - 1) with (m / 2 ^ k / 2 * 2) by lia.
    by rewrite Z.div_mul.
Qed.

Lemma is_mask_clear s bs m i : 0 <= s -> is_mask s bs m -> m <> 0 -> ctz m = Ok (lane_bit s i) ->
  is_mask s (<[i := false]> bs) (Z.land m (m - 1)).
Proof.
  intros Hs Hm Hz Hc. pose proof (proj1 Hm). split; [apply Z.land_nonneg; lia|]. intros n Hn.
  rewrite (land_pred_testbit _ (lane_bit s i)) by (done || lia). rewrite (proj2 Hm) by done.
  pose proof (Z.pow_pos_nonneg 2 s). destruct (Z.eqb_spec ((n + 1) mod 2 ^ s) 0) as [E|]; [|done]. simpl.
  pose proof (Z.div_mod (n + 1) (2 ^ s) ltac:(lia)) as D. rewrite E, Z.add_0_r in D.
  assert (1 <= (n + 1) / 2 ^ s) by nia. set (j := Z.to_nat ((n + 1) / 2 ^ s - 1)).
  assert (n = lane_bit s j) as Ej by (unfold lane_bit, j; nia).
  destruct (decide (j = i)) as [->|Hne].
  - rewrite Ej, Z.eqb_refl, andb_false_r. symmetry.
    destruct (<[i := false]> bs !! i) as [b|] eqn:Eb; [|done].
    by apply list_lookup_insert_Some in Eb as [(_ & <- & _)|(? & _)].
  - rewrite list_lookup_insert_ne by done. destruct (Z.eqb_spec n (lane_bit s i)) as [E'|_].
    + rewrite Ej in E'. unfold lane_bit in E'. nia.
    + apply andb_true_r.
Qed.

Definition count_true (bs : list bool) : nat := length (filter (fun b => b = true) bs).

Lemma count_true_insert bs i : bs !! i = Some true -> count_true bs = S (count_true (<[i := false]> bs)).
Proof.
  unfold count_true. revert i. induction bs as [|b bs IH]; intros i Hi; [done|].
  destruct i as [|i]; simpl in *.
  - injection Hi as ->. by rewrite filter_cons_True, filter_cons_False.
  - rewrite !filter_cons. case_decide; simpl; by rewrite (IH i).
Qed.

(** the [for] over a mask visits the lanes whose bit is set *)
Lemma bitmask_bits_spec s fuel bs m : 0 <= s -> is_mask s bs m -> (count_true bs <= fuel)%nat ->
  exists l, bitmask_bits fuel s m = Ok l /\
    forall z, z ∈ l <-> exists i, z = Z.of_nat i /\ bs !! i = Some true.
Proof.
  intros Hs. revert bs m. induction fuel as [|fuel IH]; intros bs m Hm Hf; cbn [bitmask_bits].
  all: destruct (Z.eqb_spec m 0) as [E|E];
    [exists []; split; [done|]; intros z; split; [by intros ?%elem_of_nil|];
     intros (i & _ & Hi); exfalso; by apply (proj2 (mask_nonzero s Hs bs m Hm) (ex_intro _ i Hi))|].
  all: destruct (mask_ctz s Hs bs m Hm E) as (i & Hc & Hi & _); pose proof (count_true_insert bs i Hi) as C.
  - lia.
  - destruct (IH _ _ (is_mask_clear s bs m i Hs Hm E Hc) ltac:(lia)) as (l & El & Hl).
    exists (Z.of_nat i :: l). unfold LowestBitSet, CountTrailingZerosNonZero. rewrite Hc. simpl.
    rewrite El, lane_bit_shift by done. split; [done|]. intros z. rewrite elem_of_cons, Hl. split.
    + intros [->|(j & -> & Hj)]; [by exists i|]. exists j. split; [done|].
      by apply list_lookup_insert_Some in Hj as [(_ & ? & _)|(_ & ?)].
    + intros (j & -> & Hj). destruct (decide (i = j)) as [->|]; [by left|right].
      exists j. by rewrite list_lookup_insert_ne.
Qed.

Lemma count_true_le bs : (count_true bs <= length bs)%nat.
Proof. apply length_filter. Qed.

(** ** The SSE2 group *)

Module Sse2Ok.
Import Sse2.

Lemma movemask_is_mask x : is_mask 0 ((fun b => 128 <=? b) <$> x) (movemask_epi8 x).
Proof.
  split.
  - induction x as [|b x IH]; simpl; [done|]. destruct (128 <=? b); lia.
  - intros n Hn. change (2 ^ 0) with 1. rewrite Z.mod_1_r, Z.div_1_r, Z.add_simpl_r. simpl.
    rewrite list_lookup_fmap. rewrite <-(Z2Nat.id n) at 1 by done. rewrite movemask_testbit.
    by destruct (x !! Z.to_nat n).
Qed.

(** a lane-wise operation on a register of control bytes against a constant *)
Lemma lanes_l (f : Z -> Z -> Z) (P : Z -> bool) a g :
  length g = 16%nat -> Forall ctrl_ok g ->
  (forall c, ctrl_ok c -> (128 <=? f a (u8 c)) = P c) ->
  (fun b => 128 <=? b) <$> zip_with f (replicate 16 a) (reg g) = P <$> g.
Proof.
  intros L Hg H. unfold reg. rewrite zip_with_replicate_l by (rewrite length_fmap; lia).
  rewrite <-!list_fmap_compose. apply list_fmap_ext. intros i c Hi. apply H.
  eapply Forall_lookup_1; done.
Qed.

(** the comparison with the work-around for unsigned [char] *)
Lemma cmpgt_fixed_eq uchar x y : length x = 16%nat -> length y = 16%nat -> bytes_ok x -> bytes_ok y ->
  cmpgt_epi8_fixed uchar x y = cmpgt_epi8 x y.
Proof.
  intros Lx Ly Hx Hy. destruct uchar; [|done]. unfold cmpgt_epi8_fixed, cmpgt_epi8, cmpeq_epi8, and_si, subs_epi8, set1_epi8.
  assert (forall n x y, length x = n -> length y = n -> bytes_ok x -> bytes_ok y ->
    zip_with (fun a b => lane (a =? b))
      (zip_with Z.land (zip_with (fun a b => u8 (Z.max (-128) (Z.min 127 (wraps 8 a - wraps 8 b)))) y x)
        (replicate n (u8 0x80))) (replicate n (u8 0x80)) =
    zip_with (fun a b => lane (wraps 8 b <? wraps 8 a)) x y) as H; [|by apply (H 16%nat)].
  clear. intros n x. revert n. induction x as [|a x IH]; intros [|n] [|b y] L1 L2 Hx Hy; try done.
  apply Forall_cons in Hx as [Ha Hx]. apply Forall_cons in Hy as [Hb Hy]. simpl in L1, L2.
  cbn [zip_with replicate]. f_equal; [|by apply IH; try lia].
  pose proof (wraps_range 8 ltac:(lia) a) as Wa. pose proof (wraps_range 8 ltac:(lia) b) as Wb.
  unfold ins in Wa, Wb. change (2 ^ (8 - 1)) with 128 in *. change (u8 0x80) with 128.
  set (sa := wraps 8 a) in *. set (sb := wraps 8 b) in *. f_equal.
  set (d := Z.max (-128) (Z.min 127 (sb - sa))).
  assert (forall d, -128 <= d < 128 -> (Z.land (u8 d) 128 =? 128) = (d <? 0)) as Hd.
  { clear. intros d Hd.
    assert (forallb (fun d => Bool.eqb (Z.land (u8 d) 128 =? 128) (d <? 0)) (seqZ (-128) 256) = true) as H by (vm_compute; reflexivity).
    apply Bool.eqb_prop. by apply (seqZ_check _ _ _ _ H). }
  rewrite Hd by lia. unfold d. lia.
Qed.

Lemma reg_bytes g : bytes_ok (reg g).
Proof. apply Forall_fmap, Forall_true. intros c. apply wrapu_range. lia. Qed.

Lemma length_reg g : length (reg g) = length g.
Proof. apply length_fmap. Qed.

Lemma set1_bytes n b : bytes_ok (set1_epi8 n b).
Proof. apply Forall_replicate, wrapu_range. lia. Qed.

Lemma eod_lanes uchar g : length g = 16%nat -> Forall ctrl_ok g ->
  (fun b => 128 <=? b) <$> cmpgt_epi8_fixed uchar (set1_epi8 16 kSentinel) (reg g) = IsEmptyOrDeleted <$> g.
Proof.
  intros L Hg. rewrite cmpgt_fixed_eq; [|done|by rewrite length_reg|apply set1_bytes|apply reg_bytes].
  apply lanes_l; [done|done|]. intros c Hc. revert c Hc.
    apply ctrl_check_eq. vm_compute. reflexivity.
Qed.

Lemma match_lanes h g : length g = 16%nat -> Forall ctrl_ok g ->
  (fun b => 128 <=? b) <$> cmpeq_epi8 (set1_epi8 16 h) (reg g) = (fun c => u8 h =? u8 c) <$> g.
Proof.
  intros L Hg. apply lanes_l; [done|done|]. intros c _. by destruct (u8 h =? u8 c).
Qed.

Lemma empty_lanes ssse3 g : length g = 16%nat -> Forall ctrl_ok g ->
  is_mask 0 (IsEmpty <$> g) (SMatchEmpty ssse3 g).
Proof.
  intros L Hg. unfold SMatchEmpty. destruct ssse3.
  - replace (IsEmpty <$> g) with ((fun b => 128 <=? b) <$> sign_epi8 (reg g) (reg g)); [apply movemask_is_mask|].
    unfold sign_epi8, reg. rewrite zip_with_diag, <-!list_fmap_compose. apply list_fmap_ext. intros i c Hi.
    pose proof (Forall_lookup_1 _ _ _ _ Hg Hi) as Hc. clear Hi. revert c Hc.
    apply ctrl_check_eq. vm_compute. reflexivity.
  - unfold SMatch. replace (IsEmpty <$> g) with ((fun b => 128 <=? b) <$> cmpeq_epi8 (set1_epi8 16 (u8 kEmpty)) (reg g));
      [apply movemask_is_mask|].
    rewrite match_lanes by done. apply list_fmap_ext. intros i c Hi.
    pose proof (Forall_lookup_1 _ _ _ _ Hg Hi) as Hc. clear Hi. revert c Hc.
    apply ctrl_check_eq. vm_compute. reflexivity.
Qed.

Lemma movemask_count x :
  exists n, ctz (movemask_epi8 x + 1) = Ok (Z.of_nat n) /\ (n <= length x)%nat /\
    (forall i b, (i < n)%nat -> x !! i = Some b -> (128 <=? b) = true) /\
    (forall b, x !! n = Some b -> (128 <=? b) = false).
Proof.
  induction x as [|b x IH]; [by exists 0%nat; split_and!; (done || lia)|].
  pose proof (proj1 (movemask_is_mask x)) as H0. cbn [movemask_epi8]. destruct (128 <=? b) eqn:Eb.
  - destruct IH as (n & E & Hn & H1 & H2). exists (S n).
    replace (1 + 2 * movemask_epi8 x + 1) with (2 * (movemask_epi8 x + 1)) by lia.
    destruct (movemask_epi8 x + 1) as [|p|] eqn:Ep; try lia. injection E as E.
    change (ctz (2 * Zpos p)) with (Ok (1 + ctz_pos p)). rewrite E. split_and!; [f_equal; lia|simpl; lia| |done].
    intros [|i] c Hi Hc; [by injection Hc as <-|]. apply (H1 i); [lia|done].
  - exists 0%nat. split_and!; [|lia|lia|by intros ? [= <-]]. rewrite Z.add_0_l.
    destruct (movemask_epi8 x) as [|p|]; [done|done|lia].
Qed.

#[export] Instance Sse2_ok ssse3 uchar : GroupOk (GroupSse2Impl ssse3 uchar).
Proof.
  assert (forall g : list Z, Z.of_nat (length g) = 16 -> length g = 16%nat) as Hlen by lia.
  split; cbn -[Z.mul].
  - by right.
  - done.
  - done.
  - intros g h L%Hlen Hg Hh. exists ((fun c => u8 h =? u8 c) <$> g). rewrite length_fmap. split_and!; [done| |].
    { rewrite <-match_lanes by done. apply movemask_is_mask. }
    intros i c Hi. rewrite list_lookup_fmap, Hi. simpl. split; [intros ->; by rewrite Z.eqb_refl|].
    intros [= E%Z.eqb_eq]. pose proof (Forall_lookup_1 _ _ _ _ Hg Hi) as Hc.
    unfold wrapu in E. rewrite (Z.mod_small h) in E by (simpl; lia).
    revert E. unfold ctrl_ok, kEmpty, kDeleted, kSentinel in Hc. unfold IsFull.
    destruct Hc as [->|[->|[->|Hc]]]; [change (_ mod _) with 128; lia|change (_ mod _) with 254; lia|change (_ mod _) with 255; lia|lia].
  - intros g L%Hlen Hg. by apply empty_lanes.
  - intros g L%Hlen Hg. unfold SMatchEmptyOrDeleted. rewrite <-(eod_lanes uchar) by done. apply movemask_is_mask.
  - intros g L%Hlen Hg. unfold SCountLeadingEmptyOrDeleted, CountTrailingZerosNonZero.
    pose proof (eod_lanes uchar g L Hg) as E. set (x := cmpgt_epi8_fixed uchar (set1_epi8 16 kSentinel) (reg g)) in *.
    destruct (movemask_count x) as (n & En & Hn & H1 & H2). exists n.
    assert (forall i, (fun b => 128 <=? b) <$> x !! i = IsEmptyOrDeleted <$> g !! i) as Hx.
    { intros i. by rewrite <-!list_lookup_fmap, E. }
    assert (length x = length g) as Lx by (rewrite <-(length_fmap (fun b => 128 <=? b) x), E; apply length_fmap).
    split_and!; [done|lia| |].
    + intros i c Hi Hc. specialize (Hx i). rewrite Hc in Hx. destruct (x !! i) as [b|] eqn:Eb; [|done].
      injection Hx as <-. by apply (H1 i).
    + intros c Hc. specialize (Hx n). rewrite Hc in Hx. destruct (x !! n) as [b|] eqn:Eb; [|done].
      injection Hx as <-. by apply H2.
  - intros g L%Hlen Hg. unfold SConvert. destruct ssse3.
    + unfold or_si, shuffle_epi8, set1_epi8, reg. rewrite zip_with_replicate_r by (rewrite ?length_zip_with, ?length_replicate, ?length_fmap; lia).
      rewrite <-!list_fmap_compose. apply list_fmap_ext. intros i c Hi.
      pose proof (Forall_lookup_1 _ _ _ _ Hg Hi) as Hc. clear Hi. apply Z.eqb_eq. revert c Hc.
      apply ctrl_check. vm_compute. reflexivity.
    + rewrite cmpgt_fixed_eq; [|done|by rewrite length_reg|by apply Forall_replicate|apply reg_bytes].
      unfold or_si, andnot_si, cmpgt_epi8, set1_epi8, reg.
      rewrite zip_with_replicate_l by (rewrite ?length_zip_with, ?length_replicate, ?length_fmap; lia).
      rewrite zip_with_replicate_r by (rewrite ?length_zip_with, ?length_replicate, ?length_fmap; lia).
      rewrite zip_with_replicate_l by (rewrite ?length_zip_with, ?length_replicate, ?length_fmap; lia).
      rewrite <-!list_fmap_compose. apply list_fmap_ext. intros i c Hi.
      pose proof (Forall_lookup_1 _ _ _ _ Hg Hi) as Hc. clear Hi. apply Z.eqb_eq. revert c Hc.
      apply ctrl_check. vm_compute. reflexivity.
Qed.

End Sse2Ok.

(** ** The portable group *)

Module PortableOk.
Import Portable.

Lemma le_val_testbit x n : bytes_ok x -> 0 <= n ->
  Z.testbit (le_val x) n = default false ((fun b => Z.testbit b (n mod 8)) <$> x !! Z.to_nat (n / 8)).
Proof.
  intros Hx. revert n. induction Hx as [|b x Hb Hx IH]; intros n Hn; [by rewrite Z.testbit_0_l|].
  cbn [le_val]. unfold inu in Hb. destruct (Z.lt_ge_cases n 8).
  - rewrite (Z.div_small n), (Z.mod_small n) by lia. simpl.
    rewrite <-(Z.mod_pow2_bits_low _ 8 n) by lia. f_equal. change (2 ^ 8) with 256 in *.
    rewrite Z.mul_comm, Z_mod_plus_full. apply Z.mod_small. lia.
  - replace n with (n - 8 + 8) at 1 by lia. rewrite <-Z.div_pow2_bits by lia.
    change (2 ^ 8) with 256 in *. rewrite Z.mul_comm, Z.div_add, (Z.div_small b), Z.add_0_l by lia.
    rewrite IH by lia. replace (Z.to_nat (n / 8)) with (S (Z.to_nat ((n - 8) / 8))).
    + simpl. by replace ((n - 8) mod 8) with (n mod 8) by (Z.to_euclidean_division_equations; lia).
    + replace n with (n - 8 + 1 * 8) at 2 by lia. rewrite Z.div_add by lia.
      pose proof (Z.div_pos (n - 8) 8). lia.
Qed.

Lemma u64_testbit z j : 0 <= j -> Z.testbit (u64 z) j = (j <? 64) && Z.testbit z j.
Proof.
  intros Hj. unfold wrapu. destruct (Z.ltb_spec j 64).
  - by rewrite Z.mod_pow2_bits_low.
  - by rewrite Z.mod_pow2_bits_high by lia.
Qed.

(** the bits of a 64-bit constant, checked one by one *)
Lemma const_testbit z (f : Z -> bool) n : inu 64 z -> 0 <= n ->
  forallb (fun n => Bool.eqb (Z.testbit z n) (f n)) (seqZ 0 64) = true ->
  Z.testbit z n = (n <? 64) && f n.
Proof.
  intros Hz Hn H. destruct (Z.ltb_spec n 64).
  - apply Bool.eqb_prop. by apply (seqZ_check _ _ _ _ H).
  - apply inu_iff in Hz as [_ Hz]; [|done]. by apply Hz.
Qed.

Lemma msbs_testbit n : 0 <= n -> Z.testbit msbs n = (n <? 64) && (n mod 8 =? 7).
Proof. intros Hn. apply (const_testbit _ (fun n => n mod 8 =? 7)); [split; done|done|by vm_compute]. Qed.

Lemma gaps_testbit n : 0 <= n -> Z.testbit gaps n = (n <? 64) && ((n <? 56) && negb (n mod 8 =? 0)).
Proof.
  intros Hn. apply (const_testbit _ (fun n => (n <? 56) && negb (n mod 8 =? 0))); [split; done|done|by vm_compute].
Qed.

Section Bytes.
Context (g : list Z) (L : length g = 8%nat) (Hg : Forall ctrl_ok g).

Lemma Load64_bytes : bytes_ok (u8 <$> g).
Proof. apply Forall_fmap, Forall_true. intros c. apply wrapu_range. lia. Qed.

Lemma Load64_testbit n : 0 <= n ->
  Z.testbit (Load64 g) n = default false ((fun c => Z.testbit (u8 c) (n mod 8)) <$> g !! Z.to_nat (n / 8)).
Proof.
  intros Hn. unfold Load64. rewrite le_val_testbit by (done || apply Load64_bytes).
  rewrite list_lookup_fmap. by destruct (g !! _).
Qed.

Lemma Load64_bit i c j : g !! i = Some c -> 0 <= j < 8 ->
  Z.testbit (Load64 g) (8 * Z.of_nat i + j) = Z.testbit (u8 c) j.
Proof.
  intros Hi Hj. rewrite Load64_testbit by lia.
  rewrite Z.add_comm, Z.mul_comm, Z.div_add, Z_mod_plus_full, Z.div_small, Z.mod_small, Z.add_0_l by lia.
  by rewrite Nat2Z.id, Hi.
Qed.

Lemma Load64_inu : inu 64 (Load64 g).
Proof.
  apply inu_iff; [done|]. split; [apply le_val_nonneg, Load64_bytes|]. intros n Hn.
  rewrite Load64_testbit by lia. rewrite (proj2 (lookup_ge_None g _)); [done|].
  assert (8 <= n / 8) by (apply Z.div_le_lower_bound; lia). lia.
Qed.

(** a word with everything but the high bits of the bytes cleared is a mask *)
Lemma portable_mask_bits m : 0 <= m ->
  is_mask 3 (imap (fun i _ => Z.testbit m (8 * Z.of_nat i + 7)) g) (Z.land m msbs).
Proof.
  intros H0. split; [apply Z.land_nonneg; by left|]. intros n Hn. rewrite Z.land_spec, msbs_testbit by done.
  change (2 ^ 3) with 8. rewrite list_lookup_imap. destruct (Z.eqb_spec ((n + 1) mod 8) 0) as [E|E].
  - assert (n = 8 * Z.of_nat (Z.to_nat ((n + 1) / 8 - 1)) + 7) as En by (Z.to_euclidean_division_equations; lia).
    destruct (g !! Z.to_nat ((n + 1) / 8 - 1)) as [c|] eqn:Ec; simpl.
    + rewrite <-En. apply lookup_lt_Some in Ec.
      replace ((n <? 64) && (n mod 8 =? 7)) with true; [apply andb_true_r|].
      symmetry. apply andb_true_iff. rewrite Z.ltb_lt, Z.eqb_eq. split; [lia|Z.to_euclidean_division_equations; lia].
    + apply lookup_ge_None in Ec. replace (n <? 64) with false by lia. apply andb_false_r.
  - replace (n mod 8 =? 7) with false; [by rewrite !andb_false_r|]. symmetry. apply Z.eqb_neq. intros E7. apply E.
    Z.to_euclidean_division_equations; lia.
Qed.

Lemma portable_mask f m : 0 <= m -> (forall i c, g !! i = Some c -> Z.testbit m (8 * Z.of_nat i + 7) = f c) ->
  is_mask 3 (f <$> g) (Z.land m msbs).
Proof.
  intros H0 H. replace (f <$> g) with (imap (fun i _ => Z.testbit m (8 * Z.of_nat i + 7)) g);
    [by apply portable_mask_bits|].
  apply list_eq. intros i. rewrite list_lookup_imap, list_lookup_fmap.
  destruct (g !! i) eqn:E; simpl; [|done]. by rewrite (H _ _ E).
Qed.

Lemma shl_not_bit i c k : g !! i = Some c -> 0 <= k <= 7 ->
  Z.testbit (Z.land (Load64 g) (u64 (Z.shiftl (u64 (Z.lnot (Load64 g))) k))) (8 * Z.of_nat i + 7) =
  Z.testbit (u8 c) 7 && negb (Z.testbit (u8 c) (7 - k)).
Proof.
  intros Hi Hk. pose proof (lookup_lt_Some _ _ _ Hi) as Hlt.
  rewrite Z.land_spec, u64_testbit, Z.shiftl_spec, u64_testbit, Z.lnot_spec by lia.
  replace (8 * Z.of_nat i + 7 - k) with (8 * Z.of_nat i + (7 - k)) by lia.
  rewrite !(Load64_bit _ _ _ Hi) by lia.
  replace (8 * Z.of_nat i + 7 <? 64) with true by lia. by replace (8 * Z.of_nat i + (7 - k) <? 64) with true by lia.
Qed.

End Bytes.

(** a zero byte has its high bit after the subtraction of 1 from each byte,
    whatever is borrowed from below *)
Lemma zero_byte_borrow xs i b : bytes_ok xs -> 0 <= b <= 1 -> xs !! i = Some 0 ->
  Z.testbit (le_val xs - le_val (replicate (length xs) 1) - b) (8 * Z.of_nat i + 7) = true.
Proof.
  intros Hx. revert i b. induction Hx as [|c xs Hc Hx IH]; intros i b Hb Hi; [done|].
  cbn [le_val length replicate]. unfold inu in Hc. change (2 ^ 8) with 256 in Hc.
  set (v := le_val xs) in *. set (l := le_val (replicate (length xs) 1)) in *.
  replace (c + 256 * v - (1 + 256 * l) - b) with (c - 1 - b + (v - l) * 256) by lia.
  destruct i as [|i]; simpl in Hi.
  - injection Hi as ->. change (8 * Z.of_nat 0 + 7) with 7.
    rewrite <-(Z.mod_pow2_bits_low _ 8) by lia. change (2 ^ 8) with 256. rewrite Z_mod_plus_full.
    assert (b = 0 \/ b = 1) as [-> | ->] by lia; reflexivity.
  - replace (8 * Z.of_nat (S i) + 7) with (8 * Z.of_nat i + 7 + 8) by lia.
    rewrite <-Z.div_pow2_bits by lia. change (2 ^ 8) with 256. rewrite Z.div_add by lia.
    destruct (Z.le_gt_cases 0 (c - 1 - b)).
    + rewrite Z.div_small, Z.add_0_l by lia. rewrite <-(Z.sub_0_r (v - l)). by apply IH.
    + replace ((c - 1 - b) / 256) with (-1) by (Z.to_euclidean_division_equations; lia).
      replace (-1 + (v - l)) with (v - l - 1) by lia. by apply IH.
Qed.

Section Match_.
Context (g : list Z) (h : Z) (L : length g = 8%nat) (Hg : Forall ctrl_ok g) (Hh : 0 <= h < 128).

Let xs := (fun c => Z.lxor (u8 c) h) <$> g.

Lemma xs_bytes : bytes_ok xs.
Proof.
  apply Forall_fmap, Forall_true. intros c. simpl.
  pose proof (wrapu_range 8 ltac:(lia) c) as Hc. apply inu_iff; [done|].
  apply inu_iff in Hc as [Hc0 Hc]; [|done]. split; [by apply Z.lxor_nonneg; lia|]. intros i Hi.
  rewrite Z.lxor_spec, Hc by done. assert (inu 8 h) as Hh' by (unfold inu; simpl; lia).
  apply inu_iff in Hh' as [_ Hh']; [|done]. by rewrite Hh'.
Qed.

Lemma match_word : Z.lxor (Load64 g) (u64 (lsbs * h)) = le_val xs.
Proof.
  assert (u64 (lsbs * h) = le_val (replicate 8 h)) as ->.
  { rewrite wrapu_id; [|unfold inu, lsbs; simpl; lia]. unfold lsbs. simpl. lia. }
  apply Z.bits_inj'. intros n Hn. rewrite Z.lxor_spec, Load64_testbit by done.
  rewrite !le_val_testbit by (done || apply xs_bytes || (apply Forall_replicate; unfold inu; simpl; lia)).
  unfold xs. rewrite list_lookup_fmap. destruct (g !! Z.to_nat (n / 8)) as [c|] eqn:E.
  - rewrite lookup_replicate_2 by (apply lookup_lt_Some in E; lia). simpl. by rewrite Z.lxor_spec.
  - rewrite (proj2 (lookup_ge_None (replicate 8 h) _)); [done|]. apply lookup_ge_None in E.
    by rewrite length_replicate, <-L.
Qed.

Lemma portable_match : exists bs, length bs = length g /\ is_mask 3 bs (PMatch g h) /\
  forall i c, g !! i = Some c -> (c = h -> bs !! i = Some true) /\ (bs !! i = Some true -> IsFull c = true).
Proof.
  unfold PMatch. cbv zeta. rewrite match_word.
  set (m := Z.land (u64 (le_val xs - lsbs)) (u64 (Z.lnot (le_val xs)))).
  assert (0 <= m) as Hm by (apply Z.land_nonneg; left; apply wrapu_range; lia).
  assert (forall i c, g !! i = Some c ->
    Z.testbit m (8 * Z.of_nat i + 7) =
    Z.testbit (le_val xs - lsbs) (8 * Z.of_nat i + 7) && negb (Z.testbit (Z.lxor (u8 c) h) 7)) as Hb.
  { intros i c Hi. pose proof (lookup_lt_Some _ _ _ Hi). unfold m.
    rewrite Z.land_spec, !u64_testbit, Z.lnot_spec by lia.
    replace (8 * Z.of_nat i + 7 <? 64) with true by lia. simpl. do 2 f_equal.
    rewrite le_val_testbit by (lia || apply xs_bytes).
    rewrite Z.add_comm, Z.mul_comm, Z.div_add, Z_mod_plus_full, Z.div_small, Z.mod_small, Z.add_0_l by lia.
    unfold xs. by rewrite Nat2Z.id, list_lookup_fmap, Hi. }
  exists (imap (fun i _ => Z.testbit m (8 * Z.of_nat i + 7)) g). rewrite length_imap. split_and!; [done| |].
  - by apply portable_mask_bits.
  - intros i c Hi. rewrite list_lookup_imap, Hi. simpl. rewrite (Hb _ _ Hi). split.
    + intros ->. pose proof (wrapu_id 8 h) as E. rewrite E by (unfold inu; simpl; lia).
      rewrite Z.lxor_nilpotent, Z.testbit_0_l. f_equal. rewrite andb_true_r.
      assert (lsbs = le_val (replicate (length xs) 1)) as -> by (unfold xs; by rewrite length_fmap, L).
      rewrite <-(Z.sub_0_r (le_val xs - _)). apply zero_byte_borrow; [apply xs_bytes|lia|].
      unfold xs. rewrite list_lookup_fmap, Hi. simpl. by rewrite E, Z.lxor_nilpotent by (unfold inu; simpl; lia).
    + intros [_ E]%(inj Some)%andb_true_iff. rewrite Z.lxor_spec in E.
      assert (inu 7 h) as Hh' by (unfold inu; simpl; lia).
      apply inu_iff in Hh' as [_ Hh']; [|done]. rewrite Hh', xorb_false_r in E by lia.
      revert E. apply (Forall_lookup_1 _ _ _ _ Hg) in Hi. revert c Hi. clear.
      intros c Hc. apply Bool.implb_true_iff. revert c Hc. apply ctrl_check. vm_compute. reflexivity.
Qed.

End Match_.

(** the operations that depend on one bit of each byte only are checked on
    all the [2 ^ 8] words of bits *)
Fixpoint all_bools (n : nat) : list (list bool) :=
  match n with O => [[]] | S n => bs ← all_bools n; [true :: bs; false :: bs] end.

Lemma all_bools_elem bs : bs ∈ all_bools (length bs).
Proof.
  induction bs as [|b bs IH]; simpl; [by apply list_elem_of_singleton|].
  apply list_elem_of_bind. exists bs. split; [|done]. destruct b; set_solver.
Qed.

Lemma bools_check (P : list bool -> bool) bs : length bs = 8%nat ->
  forallb P (all_bools 8) = true -> P bs = true.
Proof. intros E H. rewrite forallb_forall in H. apply H, list_elem_of_In. rewrite <-E. apply all_bools_elem. Qed.

Fixpoint leading (bs : list bool) : nat := match bs with true :: bs => S (leading bs) | _ => O end.

Lemma leading_spec bs : (leading bs <= length bs)%nat /\
  (forall i, (i < leading bs)%nat -> bs !! i = Some true) /\ bs !! leading bs <> Some true.
Proof.
  induction bs as [|[] bs (H1 & H2 & H3)]; simpl; split_and!; try (done || lia).
  intros [|i] Hi; [done|]. apply H2. lia.
Qed.

Section Words.
Context (g : list Z) (L : length g = 8%nat) (Hg : Forall ctrl_ok g).

Definition gap_word (es : list bool) : Z :=
  le_val (imap (fun i e => (if (i <? 7)%nat then 254 else 0) + Z.b2z e) es).

Lemma gap_byte_testbit (i : nat) e j : 1 <= j < 8 ->
  Z.testbit ((if (i <? 7)%nat then 254 else 0) + Z.b2z e) j = (i <? 7)%nat.
Proof.
  intros Hj. destruct (i <? 7)%nat; apply Bool.eqb_prop.
  - assert (forallb (fun j => Bool.eqb (Z.testbit (254 + Z.b2z e) j) true) (seqZ 1 7) = true) as H by (by destruct e).
    by apply (seqZ_check _ _ _ _ H).
  - assert (forallb (fun j => Bool.eqb (Z.testbit (0 + Z.b2z e) j) false) (seqZ 1 7) = true) as H by (by destruct e).
    by apply (seqZ_check _ _ _ _ H).
Qed.

Lemma gap_word_eq :
  Z.lor (Z.land (u64 (Z.lnot (Load64 g))) (Z.shiftr (Load64 g) 7)) gaps = gap_word (IsEmptyOrDeleted <$> g).
Proof.
  apply Z.bits_inj'. intros n Hn. unfold gap_word. rewrite le_val_testbit; [|clear -L|done].
  2:{ apply Forall_lookup_2. intros i x. rewrite list_lookup_imap. destruct ((_ <$> g) !! i) as [e|]; [|done].
      intros [= <-]. unfold inu. destruct e, (i <? 7)%nat; simpl; lia. }
  rewrite Z.lor_spec, Z.land_spec, u64_testbit, Z.lnot_spec, Z.shiftr_spec, gaps_testbit, list_lookup_imap, list_lookup_fmap by done.
  destruct (g !! Z.to_nat (n / 8)) as [c|] eqn:Ec; simpl.
  - pose proof (lookup_lt_Some _ _ _ Ec) as Hlt. assert (n < 64) by (Z.to_euclidean_division_equations; lia).
    replace (n <? 64) with true by lia. simpl.
    destruct (Z.eqb_spec (n mod 8) 0) as [E0|E0].
    + rewrite E0. replace n with (8 * Z.of_nat (Z.to_nat (n / 8)) + 0) at 1 by (Z.to_euclidean_division_equations; lia).
      replace (n + 7) with (8 * Z.of_nat (Z.to_nat (n / 8)) + 7) by (Z.to_euclidean_division_equations; lia).
      erewrite !Load64_bit by (done || lia). rewrite andb_false_r, orb_false_r.
      transitivity (IsEmptyOrDeleted c); [|by destruct (IsEmptyOrDeleted c), (_ <? 7)%nat].
      apply (Forall_lookup_1 _ _ _ _ Hg) in Ec. revert c Ec. clear. apply ctrl_check_eq. vm_compute. reflexivity.
    + rewrite andb_true_r. assert (1 <= n mod 8 < 8) as Hj by (Z.to_euclidean_division_equations; lia).
      rewrite gap_byte_testbit by done. destruct (Z.ltb_spec n 56).
      * rewrite orb_true_r. symmetry. apply Nat.ltb_lt. Z.to_euclidean_division_equations; lia.
      * replace (Z.testbit (Load64 g) (n + 7)) with false.
        { rewrite andb_false_r. symmetry. apply Nat.ltb_ge. Z.to_euclidean_division_equations; lia. }
        symmetry. apply (proj1 (inu_iff 64 (Load64 g) ltac:(lia)) (Load64_inu g L)). Z.to_euclidean_division_equations; lia.
  - replace (n <? 64) with false; [done|]. apply lookup_ge_None in Ec.
    symmetry. apply Z.ltb_ge. Z.to_euclidean_division_equations; lia.
Qed.

Definition count_check (es : list bool) : bool :=
  match (k ← CountTrailingZerosNonZero (u64 (gap_word es + 1)); Ok (Z.shiftr (k + 7) 3)) with
  | Ok k => k =? Z.of_nat (leading es)
  | Err _ => false
  end.

Lemma portable_count : exists n, PCountLeadingEmptyOrDeleted g = Ok (Z.of_nat n) /\ (n <= length g)%nat /\
  (forall i c, (i < n)%nat -> g !! i = Some c -> IsEmptyOrDeleted c = true) /\
  (forall c, g !! n = Some c -> IsEmptyOrDeleted c = false).
Proof.
  unfold PCountLeadingEmptyOrDeleted. cbv zeta. rewrite gap_word_eq. set (es := IsEmptyOrDeleted <$> g).
  assert (length es = 8%nat) as Le by (unfold es; by rewrite length_fmap).
  pose proof (bools_check count_check es Le ltac:(vm_compute; reflexivity)) as E. unfold count_check in E.
  destruct (k ← CountTrailingZerosNonZero _; _) as [k|] eqn:Ek; [|done]. apply Z.eqb_eq in E.
  exists (leading es). destruct (leading_spec es) as (H1 & H2 & H3). split_and!; [by f_equal|lia| |].
  - intros i c Hi Hc. specialize (H2 i Hi). unfold es in H2. rewrite list_lookup_fmap, Hc in H2. by injection H2.
  - intros c Hc. pose proof (list_lookup_fmap IsEmptyOrDeleted g (leading es)) as He. fold es in He.
    rewrite Hc in He. rewrite He in H3. simpl in H3. by destruct (IsEmptyOrDeleted c).
Qed.

Lemma sign_word_eq : Z.land (Load64 g) msbs = le_val ((fun s : bool => if s then 0 else 128) <$> (IsFull <$> g)).
Proof.
  apply Z.bits_inj'. intros n Hn. rewrite le_val_testbit; [| |done].
  2:{ apply Forall_fmap, Forall_true. intros []; simpl; split; lia. }
  rewrite Z.land_spec, msbs_testbit, Load64_testbit, !list_lookup_fmap by done.
  destruct (g !! Z.to_nat (n / 8)) as [c|] eqn:Ec; simpl; [|done].
  pose proof (lookup_lt_Some _ _ _ Ec) as Hlt. assert (n < 64) by (Z.to_euclidean_division_equations; lia).
  replace (n <? 64) with true by lia. simpl.
  assert (0 <= n mod 8 < 8) as Hj by (Z.to_euclidean_division_equations; lia).
  apply (Forall_lookup_1 _ _ _ _ Hg) in Ec. revert Hj. generalize (n mod 8). clear -Ec. intros j Hj.
  assert (forallb (fun c => forallb (fun j => Bool.eqb (Z.testbit (u8 c) j && (j =? 7))
    (Z.testbit (if IsFull c then 0 else 128) j)) (seqZ 0 8)) ctrl_values = true) as H by (vm_compute; reflexivity).
  apply (ctrl_check _ H) in Ec. rewrite forallb_forall in Ec. apply Bool.eqb_prop, Ec, list_elem_of_In, elem_of_seqZ. lia.
Qed.

Definition convert_check (ss : list bool) : bool :=
  let x := le_val ((fun s : bool => if s then 0 else 128) <$> ss) in
  bool_decide (Store64 (Z.land (u64 (u64 (Z.lnot x) + Z.shiftr x 7)) (u64 (Z.lnot lsbs))) =
               ((fun s : bool => if s then kDeleted else kEmpty) <$> ss)).

Lemma portable_convert : PConvert g = (fun c => if IsFull c then kDeleted else kEmpty) <$> g.
Proof.
  unfold PConvert. cbv zeta. rewrite sign_word_eq.
  transitivity ((fun s : bool => if s then kDeleted else kEmpty) <$> (IsFull <$> g)).
  2:{ by rewrite <-list_fmap_compose. }
  set (ss := IsFull <$> g). assert (length ss = 8%nat) as Ls by (unfold ss; by rewrite length_fmap).
  pose proof (bools_check convert_check ss Ls ltac:(vm_compute; reflexivity)) as E.
  by apply bool_decide_eq_true in E.
Qed.

End Words.

#[export] Instance Portable_ok : GroupOk GroupPortableImpl.
Proof.
  assert (forall g : list Z, Z.of_nat (length g) = 8 -> length g = 8%nat) as Hlen by lia.
  split; cbn -[Z.mul]; try done.
  - by left.
  - intros g h L%Hlen. by apply portable_match.
  - intros g L%Hlen Hg. apply portable_mask; [done|by apply Z.land_nonneg; left; apply Load64_inu|].
    intros i c Hi. rewrite (shl_not_bit g L i c) by (done || lia).
    apply (Forall_lookup_1 _ _ _ _ Hg) in Hi. revert c Hi. clear. apply ctrl_check_eq. vm_compute. reflexivity.
  - intros g L%Hlen Hg. apply portable_mask; [done|by apply Z.land_nonneg; left; apply Load64_inu|].
    intros i c Hi. rewrite (shl_not_bit g L i c) by (done || lia).
    apply (Forall_lookup_1 _ _ _ _ Hg) in Hi. revert c Hi. clear. apply ctrl_check_eq. vm_compute. reflexivity.
  - intros g L%Hlen. by apply portable_count.
  - intros g L%Hlen. by apply portable_convert.
Qed.

End PortableOk.

(** ** The scans without builtins *)

Lemma bit_length_shiftr n k : 0 <= k -> 0 < Z.shiftr n k -> bit_length (Z.shiftr n k) = bit_length n - k.
Proof.
  intros Hk H. rewrite Z.shiftr_div_pow2 in H by done. pose proof (Z.pow_pos_nonneg 2 k ltac:(lia) Hk).
  assert (0 < n) by (destruct (Z.le_gt_cases n 0) as [Hn|]; [|done]; pose proof (Z.div_le_mono n 0 (2 ^ k)); rewrite Z.div_0_l in *; lia).
  unfold bit_length. rewrite Z.shiftr_div_pow2 by done.
  destruct (Z.leb_spec (n / 2 ^ k) 0); [lia|]. destruct (Z.leb_spec n 0); [lia|].
  rewrite <-Z.shiftr_div_pow2, Z.log2_shiftr by lia. pose proof (Z.log2_nonneg n).
  assert (2 ^ k <= n) by (destruct (Z.le_gt_cases (2 ^ k) n); [done|rewrite (Z.div_small n) in * by lia; lia]).
  pose proof (proj1 (Z.log2_le_pow2 n k ltac:(lia))). lia.
Qed.

(** one step halves the range and keeps [zeroes + 4 - bit_length n] *)
Lemma scan_down_spec s k : 0 < k -> 0 <= snd s < 2 ^ (2 * k) ->
  0 <= snd (scan_down s k) < 2 ^ k /\
  fst (scan_down s k) + 4 - bit_length (snd (scan_down s k)) = fst s + 4 - bit_length (snd s).
Proof.
  intros Hk [H0 H1]. unfold scan_down. pose proof (Z.pow_pos_nonneg 2 k). replace (2 * k) with (k + k) in H1 by lia.
  rewrite Z.pow_add_r in H1 by lia.
  destruct (Z.eqb_spec (Z.shiftr (snd s) k) 0) as [E|E]; simpl.
  - split; [|done]. rewrite Z.shiftr_div_pow2 in E by lia. apply Z.div_small_iff in E; lia.
  - assert (0 < Z.shiftr (snd s) k) by (pose proof (proj2 (Z.shiftr_nonneg (snd s) k) H0); lia).
    rewrite bit_length_shiftr by lia. split; [|lia]. rewrite Z.shiftr_div_pow2 by lia. split; [apply Z.div_pos; lia|].
    apply Z.div_lt_upper_bound; lia.
Qed.

Lemma clz_table_spec n : 0 <= n < 16 -> rd clz_table n = Ok (4 - bit_length n).
Proof.
  intros Hn.
  assert (forallb (fun n => match rd clz_table n with Ok c => c =? 4 - bit_length n | Err _ => false end)
    (seqZ 0 16) = true) as H by by vm_compute.
  apply (seqZ_check _ _ _ n) in H; [|lia]. cbv beta in H. destruct (rd clz_table n); [|done]. f_equal. by apply Z.eqb_eq.
Qed.

Lemma clz_eq w n : CountLeadingZeros w n = Ok (w - bit_length n).
Proof. unfold CountLeadingZeros, clz. destruct (Z.eqb_spec n 0) as [->|]; [|done]. f_equal. unfold bit_length. simpl. lia. Qed.

Lemma clz64_slow n : inu 64 n -> CountLeadingZeros64Slow n = CountLeadingZeros 64 n.
Proof.
  intros Hn. rewrite clz_eq. unfold CountLeadingZeros64Slow. cbn [foldl].
  destruct (scan_down_spec (60, n) 32) as [R1 E1]; [lia|done|].
  destruct (scan_down_spec _ 16 ltac:(lia) R1) as [R2 E2].
  destruct (scan_down_spec _ 8 ltac:(lia) R2) as [R3 E3].
  destruct (scan_down_spec _ 4 ltac:(lia) R3) as [R4 E4].
  match type of R4 with 0 <= snd ?s < _ => set (s4 := s) in * end. rewrite clz_table_spec by exact R4.
  change (Ok (4 - bit_length (snd s4) + fst s4) = Ok (64 - bit_length n)). cbn [fst snd] in E1. f_equal. lia.
Qed.

Lemma clz32_slow n : inu 32 n -> CountLeadingZeros32Slow n = CountLeadingZeros 32 n.
Proof.
  intros Hn. rewrite clz_eq. unfold CountLeadingZeros32Slow. cbn [foldl].
  destruct (scan_down_spec (28, n) 16) as [R2 E2]; [lia|done|].
  destruct (scan_down_spec _ 8 ltac:(lia) R2) as [R3 E3].
  destruct (scan_down_spec _ 4 ltac:(lia) R3) as [R4 E4].
  match type of R4 with 0 <= snd ?s < _ => set (s4 := s) in * end. rewrite clz_table_spec by exact R4.
  change (Ok (4 - bit_length (snd s4) + fst s4) = Ok (32 - bit_length n)). cbn [fst snd] in E2. f_equal. lia.
Qed.

(** [n & (~n + 1)] is the lowest bit of [n] *)
Lemma lowest_bit w n k : 0 < w -> inu w n -> ctz n = Ok k ->
  Z.land n (wrapu w (wrapu w (Z.lnot n) + 1)) = 2 ^ k /\ 0 <= k < w.
Proof.
  intros Hw Hn Hk. rewrite wrapu_add_l by done. replace (Z.lnot n + 1) with (- n) by (unfold Z.lnot; lia).
  assert (0 < n) as Hp by (destruct n as [|p|]; done).
  assert (0 <= k /\ Z.testbit n k = true) as [Hk0 Hkb].
  { destruct n as [|p|]; try done. injection Hk as <-. pose proof (ctz_pos_spec p). naive_solver. }
  apply inu_iff in Hn as [Hn0 Hn]; [|lia].
  assert (k < w) by (destruct (Z.lt_ge_cases k w) as [|H]; [done|]; rewrite Hn in Hkb by done; done).
  split; [|lia]. apply Z.bits_inj'. intros j Hj. rewrite Z.land_spec, Z.pow2_bits_eqb by done.
  assert (Z.testbit (wrapu w (- n)) j = (j <? w) && negb (Z.testbit (n - 1) j)) as ->.
  { unfold wrapu. replace (- n) with (Z.lnot (n - 1)) by (unfold Z.lnot; lia). destruct (Z.ltb_spec j w).
    - by rewrite Z.mod_pow2_bits_low, Z.lnot_spec by lia.
    - by rewrite Z.mod_pow2_bits_high by lia. }
  pose proof (land_pred_testbit n k j Hp Hk Hj) as E. rewrite Z.land_spec in E.
  destruct (Z.ltb_spec j w); [|rewrite (Hn j) by done; symmetry; apply Z.eqb_neq; lia].
  destruct (Z.eqb_spec j k) as [->|Hne].
  - rewrite Hkb in *. destruct (Z.testbit (n - 1) k); [done|]. by rewrite Z.eqb_refl.
  - replace (k =? j) with false by lia. by destruct (Z.testbit n j), (Z.testbit (n - 1) j).
Qed.

Lemma ctz64_slow n : inu 64 n -> n <> 0 -> CountTrailingZerosNonZero n = Ok (CountTrailingZerosNonZero64Slow n).
Proof.
  intros Hn H0. assert (exists k, ctz n = Ok k) as [k Hk] by (destruct n; [done|by eexists|unfold inu in Hn; lia]).
  destruct (lowest_bit 64 n k ltac:(lia) Hn Hk) as [E Hr]. unfold CountTrailingZerosNonZero, CountTrailingZerosNonZero64Slow.
  rewrite E, Hk. f_equal. clear -Hr. apply Z.eqb_eq. revert k Hr.
  assert (forallb (fun k => k =? foldl (scan_up (2 ^ k)) 63
    [(0x00000000FFFFFFFF, 32); (0x0000FFFF0000FFFF, 16); (0x00FF00FF00FF00FF, 8);
     (0x0F0F0F0F0F0F0F0F, 4); (0x3333333333333333, 2); (0x5555555555555555, 1)]) (seqZ 0 64) = true) as H by by vm_compute.
  intros k Hk. by apply (seqZ_check _ _ _ k) in H.
Qed.

Lemma ctz32_slow n : inu 32 n -> n <> 0 -> CountTrailingZerosNonZero n = Ok (CountTrailingZerosNonZero32Slow n).
Proof.
  intros Hn H0. assert (exists k, ctz n = Ok k) as [k Hk] by (destruct n; [done|by eexists|unfold inu in Hn; lia]).
  destruct (lowest_bit 32 n k ltac:(lia) Hn Hk) as [E Hr]. unfold CountTrailingZerosNonZero, CountTrailingZerosNonZero32Slow.
  rewrite E, Hk. f_equal. clear -Hr. apply Z.eqb_eq. revert k Hr.
  assert (forallb (fun k => k =? foldl (scan_up (2 ^ k)) 31
    [(0x0000FFFF, 16); (0x00FF00FF, 8); (0x0F0F0F0F, 4); (0x33333333, 2); (0x55555555, 1)])
    (seqZ 0 32) = true) as H by by vm_compute.
  intros k Hk. by apply (seqZ_check _ _ _ k) in H.
Qed.

(** ** What the table uses of a group *)

Section Use.
Context `{GOk : GroupOk}.
Context (g : list Z) (L : Z.of_nat (length g) = kWidth) (Hg : Forall ctrl_ok g).

Lemma group_match h : 0 <= h < 128 ->
  exists l, bitmask_bits (Z.to_nat T_bits) Shift (Match g h) = Ok l /\
    (forall i, g !! i = Some h -> Z.of_nat i ∈ l) /\
    (forall z, z ∈ l -> exists i c, z = Z.of_nat i /\ g !! i = Some c /\ IsFull c = true).
Proof.
  intros Hh. destruct (Match_ok g h L Hg Hh) as (bs & Lb & Hm & Hb).
  destruct (bitmask_bits_spec Shift (Z.to_nat T_bits) bs (Match g h) Shift_nonneg Hm) as (l & El & Hl).
  { pose proof (count_true_le bs). pose proof T_bits_lanes. pose proof (Z.pow_pos_nonneg 2 Shift ltac:(lia) Shift_nonneg). nia. }
  exists l. split_and!; [done| |].
  - intros i Hi. apply Hl. exists i. split; [done|]. by apply (Hb i h Hi).
  - intros z (i & -> & Hi)%Hl. pose proof (lookup_lt_Some _ _ _ Hi) as Hlt. rewrite Lb in Hlt.
    apply lookup_lt_is_Some in Hlt as [c Hc]. exists i, c. split_and!; [done|done|]. by apply (Hb i c Hc).
Qed.

Lemma lookup_map_true (f : Z -> bool) i : (f <$> g) !! i = Some true <-> exists c, g !! i = Some c /\ f c = true.
Proof.
  rewrite list_lookup_fmap. destruct (g !! i) as [c|]; simpl; [|naive_solver]. split.
  - intros [= E]. by exists c.
  - by intros (c' & [= <-] & ->).
Qed.

Lemma group_empty : MatchEmpty g <> 0 <-> kEmpty ∈ g.
Proof.
  rewrite (mask_nonzero Shift Shift_nonneg _ _ (MatchEmpty_ok g L Hg)). rewrite list_elem_of_lookup. split.
  - intros [i (c & Hc & E%Z.eqb_eq)%lookup_map_true]. subst c. by exists i.
  - intros [i Hi]. exists i. apply lookup_map_true. by exists kEmpty.
Qed.

Lemma group_first_empty : MatchEmpty g <> 0 ->
  exists i, LowestBitSet Shift (MatchEmpty g) = Ok (Z.of_nat i) /\ g !! i = Some kEmpty.
Proof.
  intros H. destruct (mask_LowestBitSet Shift Shift_nonneg _ _ (MatchEmpty_ok g L Hg) H) as (i & E & Hi & _).
  exists i. split; [done|]. apply lookup_map_true in Hi as (c & Hc & E'%Z.eqb_eq). by subst c.
Qed.

Lemma group_last_empty : MatchEmpty g <> 0 ->
  exists i, LeadingZeros T_bits kWidth Shift (MatchEmpty g) = Ok (kWidth - 1 - Z.of_nat i) /\ g !! i = Some kEmpty /\
    (forall j, (i < j)%nat -> g !! j <> Some kEmpty).
Proof.
  intros H. pose proof (mask_LeadingZeros Shift Shift_nonneg _ _ (MatchEmpty_ok g L Hg) T_bits H) as HL.
  rewrite length_fmap, L in HL. destruct (HL T_bits_lanes) as (i & E & Hi & Hj). exists i. split_and!; [done| |].
  - apply lookup_map_true in Hi as (c & Hc & E'%Z.eqb_eq). by subst c.
  - intros j Hij Hj'. apply (Hj j Hij). apply lookup_map_true. by exists kEmpty.
Qed.

Lemma group_first_eod :
  (MatchEmptyOrDeleted g = 0 /\ forall i c, g !! i = Some c -> IsEmptyOrDeleted c = false) \/
  (MatchEmptyOrDeleted g <> 0 /\ exists i c, LowestBitSet Shift (MatchEmptyOrDeleted g) = Ok (Z.of_nat i) /\
     g !! i = Some c /\ IsEmptyOrDeleted c = true /\
     forall j c', (j < i)%nat -> g !! j = Some c' -> IsEmptyOrDeleted c' = false).
Proof.
  pose proof (MatchEmptyOrDeleted_ok g L Hg) as Hm. destruct (decide (MatchEmptyOrDeleted g = 0)) as [E|E].
  - left. split; [done|]. intros i c Hc. apply not_true_is_false. intros Ec.
    apply (proj2 (mask_nonzero Shift Shift_nonneg _ _ Hm)); [|done]. exists i. apply lookup_map_true. by exists c.
  - right. split; [done|]. destruct (mask_LowestBitSet Shift Shift_nonneg _ _ Hm E) as (i & Ei & Hi & Hj).
    apply lookup_map_true in Hi as (c & Hc & Ec). exists i, c. split_and!; [done..|].
    intros j c' Hji Hc'. apply not_true_is_false. intros Ec'. apply (Hj j Hji). apply lookup_map_true. by exists c'.
Qed.

End Use.
