(* ===== verification/SwissTable.v ===== *)
(** * phmap's open-addressing hash table (phmap/phmap.h, [raw_hash_set] and
      [raw_hash_map])

    A table is its control bytes, its slots and its counters. The control bytes
    are [capacity] bytes for the slots, the sentinel, and copies of the first
    bytes, so that a group can be loaded at every offset. The hash function
    (with [phmap_mix]) and the allocator are parameters; [std::bad_alloc] is the
    result [None] of an operation, with the table it leaves behind. The table is
    over any implementation of [Group]. *)

From S2P Require Import Prelude.
From S2P Require Import Simd.
From S2P Require Import SwissGroup.

Definition assert (b : bool) : res unit := if b then Ok tt else Err ECheck.

(** ** Hash values and capacities *)

Definition H1 (hashval : Z) : Z := Z.shiftr hashval 7.
Definition H2 (hashval : Z) : Z := Z.land hashval 0x7F.

Definition IsValidCapacity (n : Z) : bool := (Z.land (u64 (n + 1)) n =? 0) && (0 <? n).

Definition NormalizeCapacity (n : Z) : res Z :=
  if n =? 0 then Ok 1
  else lz ← CountLeadingZeros 64 n; Ok (Z.shiftr (2 ^ 64 - 1) lz).

Section Capacity.
Context `{G : Group}.

Definition CapacityToGrowth (capacity : Z) : res Z :=
  _ ← assert (IsValidCapacity capacity);
  if (kWidth =? 8) && (capacity =? 7) then Ok 6
  else Ok (capacity - capacity / 8).

(** the subtraction is one of [int64_t] and overflows for [2^63] *)
Definition GrowthToLowerboundCapacity (growth : Z) : res Z :=
  if (kWidth =? 8) && (growth =? 7) then Ok 8
  else x ← checked 64 (i64 growth - 1); Ok (u64 (growth + u64 (Z.quot x 7))).

End Capacity.

(** ** Probe sequences *)

Record probe_seq := ProbeSeq { mask_ : Z; offset_ : Z; index_ : Z }.

Definition make_probe (hashval mask : Z) : res probe_seq :=
  _ ← assert (Z.land (u64 (mask + 1)) mask =? 0);
  Ok (ProbeSeq mask (Z.land hashval mask) 0).

Definition offset_at (s : probe_seq) (i : Z) : Z := Z.land (u64 (offset_ s + i)) (mask_ s).

Definition probe_next `{G : Group} (s : probe_seq) : probe_seq :=
  let index := u64 (index_ s + kWidth) in
  ProbeSeq (mask_ s) (Z.land (u64 (offset_ s + index)) (mask_ s)) index.

(** ** The table *)

Record table {K V : Type} := Table {
  ctrl_ : list Z;
  slots_ : list (option (K * V));
  size_ : Z;
  capacity_ : Z;
  growth_left : Z
}.
Arguments table : clear implicits.

Section Table.
Context `{G : Group} {K V : Type} `{!EqDecision K}.
(** the hash of a key, mixed *)
Context (hash : K -> Z).
(** whether the allocator provides the memory of a table of that capacity *)
Context (alloc : Z -> bool).
(** the byte of fresh memory that nothing initialises *)
Context (junk : Z).

Abbreviation T := (table K V).
Implicit Types t : T.

Definition new_table : T := Table K V EmptyGroup [] 0 0 0.

Definition upd_ctrl (c : list Z) t : T := Table K V c (slots_ t) (size_ t) (capacity_ t) (growth_left t).
Definition upd_slots (s : list (option (K * V))) t : T := Table K V (ctrl_ t) s (size_ t) (capacity_ t) (growth_left t).
Definition upd_size (n : Z) t : T := Table K V (ctrl_ t) (slots_ t) n (capacity_ t) (growth_left t).
Definition upd_growth (n : Z) t : T := Table K V (ctrl_ t) (slots_ t) (size_ t) (capacity_ t) n.

Definition is_small t : bool := capacity_ t <? kWidth - 1.

Definition probe t (hashval : Z) : res probe_seq := make_probe (H1 hashval) (capacity_ t).

(** the group at a position of the control bytes *)
Definition group_at (ctrl : list Z) (pos : Z) : res (list Z) := loadu (Z.to_nat kWidth) ctrl pos.

(** the element of a slot; the slot must be constructed *)
Definition element (slots : list (option (K * V))) (i : Z) : res (K * V) :=
  s ← rd slots i; of_option EUninit s.

Definition set_ctrl t (i h : Z) : res T :=
  _ ← assert (i <? capacity_ t);
  c ← wr (ctrl_ t) i h;
  c ← wr c (Z.land (u64 (i - kWidth)) (capacity_ t) + 1 + Z.land (kWidth - 1) (capacity_ t)) h;
  Ok (upd_ctrl c t).

(** [memset(ctrl_, kEmpty, capacity_ + kWidth)] and the sentinel *)
Definition reset_ctrl t : res T :=
  let n := Z.to_nat (capacity_ t + kWidth) in
  c ← storeu (ctrl_ t) 0 (replicate n kEmpty);
  c ← wr c (capacity_ t) kSentinel;
  Ok (upd_ctrl c t).

Definition reset_growth_left t : res T :=
  g ← CapacityToGrowth (capacity_ t); Ok (upd_growth (u64 (g - size_ t)) t).

(** ** Lookup *)

(** the candidates of one group, in order; [eq] is the test of their elements *)
Fixpoint match_in (slots : list (option (K * V))) (eq : K * V -> bool) (s : probe_seq) (l : list Z) : res (option Z) :=
  match l with
  | [] => Ok None
  | i :: l =>
      e ← element slots (offset_at s i);
      if eq e then Ok (Some (offset_at s i)) else match_in slots eq s l
  end.

(** [EqualElement]: the element has the key *)
Definition EqualElement (key : K) (e : K * V) : bool := bool_decide (fst e = key).

Fixpoint find_probes (fuel : nat) t (key : K) (hashval : Z) (s : probe_seq) : res (option Z) :=
  match fuel with
  | O => Err EFuel
  | S fuel =>
      g ← group_at (ctrl_ t) (offset_ s);
      l ← bitmask_bits (Z.to_nat T_bits) Shift (Match g (H2 hashval));
      r ← match_in (slots_ t) (EqualElement key) s l;
      match r with
      | Some offset => Ok (Some offset)
      | None =>
          if negb (MatchEmpty g =? 0) then Ok None
          else find_probes fuel t key hashval (probe_next s)
      end
  end.

(** a probe sequence visits every group in at most [capacity + 1] probes *)
Definition probe_fuel t : nat := S (Z.to_nat (capacity_ t)).

Definition find_impl t (key : K) (hashval : Z) : res (option Z) :=
  s ← probe t hashval; find_probes (probe_fuel t) t key hashval s.

(** [find(key)]; [None] is [end()] *)
Definition find t (key : K) : res (option Z) := find_impl t key (hash key).

Definition contains t (key : K) : res bool :=
  it ← find t key; Ok (bool_decide (is_Some it)).

Fixpoint first_non_full_loop (fuel : nat) t (s : probe_seq) : res Z :=
  match fuel with
  | O => Err EFuel
  | S fuel =>
      g ← group_at (ctrl_ t) (offset_ s);
      let mask := MatchEmptyOrDeleted g in
      if negb (mask =? 0) then i ← LowestBitSet Shift mask; Ok (offset_at s i)
      else
        _ ← assert (index_ s <? capacity_ t);
        first_non_full_loop fuel t (probe_next s)
  end.

Definition find_first_non_full t (hashval : Z) : res Z :=
  s ← probe t hashval; first_non_full_loop (probe_fuel t) t s.

(** ** Growing *)

(** [initialize_slots]: fresh memory; all control bytes but the last are written *)
Definition initialize_slots t : res T :=
  _ ← assert (negb (capacity_ t =? 0));
  _ ← assert (IsValidCapacity (capacity_ t));
  let t := Table K V (replicate (Z.to_nat (capacity_ t + kWidth + 1)) junk)
             (replicate (Z.to_nat (capacity_ t)) None) (size_ t) (capacity_ t) (growth_left t) in
  t ← reset_ctrl t; reset_growth_left t.

Definition destroy_slots t : T :=
  if capacity_ t =? 0 then t else Table K V EmptyGroup [] 0 0 0.

(** places the element of a full slot of the old arrays in the new table *)
Definition resize_one (old_ctrl : list Z) (old_slots : list (option (K * V))) (i : Z) t : res T :=
  c ← rd old_ctrl i;
  if IsFull c then
    e ← element old_slots i;
    let hashval := hash (fst e) in
    new_i ← find_first_non_full t hashval;
    t ← set_ctrl t new_i (H2 hashval);
    s ← wr (slots_ t) new_i (Some e);
    Ok (upd_slots s t)
  else Ok t.

(** the loop over the [n] old slots from [i] on *)
Fixpoint resize_loop (old_ctrl : list Z) (old_slots : list (option (K * V))) (n : nat) (i : Z) t : res T :=
  match n with
  | O => Ok t
  | S n => t ← resize_one old_ctrl old_slots i t; resize_loop old_ctrl old_slots n (i + 1) t
  end.

(** false: [std::bad_alloc] was thrown, with the capacity restored *)
Definition resize t (new_capacity : Z) : res (T * bool) :=
  _ ← assert (IsValidCapacity new_capacity);
  if alloc new_capacity then
    t' ← initialize_slots (Table K V (ctrl_ t) (slots_ t) (size_ t) new_capacity (growth_left t));
    t' ← resize_loop (ctrl_ t) (slots_ t) (Z.to_nat (capacity_ t)) 0 t';
    Ok (t', true)
  else Ok (t, false).

(** ** Dropping the tombstones *)

Fixpoint convert_loop (fuel : nat) (capacity : Z) (ctrl : list Z) (pos : Z) : res (list Z) :=
  if pos =? capacity + 1 then Ok ctrl else
  match fuel with
  | O => Err EFuel
  | S fuel =>
      g ← group_at ctrl pos;
      ctrl ← storeu ctrl pos (ConvertSpecialToEmptyAndFullToDeleted g);
      convert_loop fuel capacity ctrl (pos + kWidth)
  end.

Definition ConvertDeletedToEmptyAndFullToDeleted (ctrl : list Z) (capacity : Z) : res (list Z) :=
  c ← rd ctrl capacity;
  _ ← assert (c =? kSentinel);
  _ ← assert (IsValidCapacity capacity);
  ctrl ← convert_loop (Z.to_nat (capacity + 1)) capacity ctrl 0;
  g ← group_at ctrl 0;
  ctrl ← storeu ctrl (capacity + 1) g;
  wr ctrl capacity kSentinel.

(** the group of a position relative to the start of a probe sequence *)
Definition probe_index t (s : probe_seq) (pos : Z) : Z :=
  Z.land (u64 (pos - offset_ s)) (capacity_ t) / kWidth.

(** the body of the loop for slot [i]; true: the slot is visited again *)
Definition drop_step t (i : Z) : res (T * bool) :=
  c ← rd (ctrl_ t) i;
  if negb (IsDeleted c) then Ok (t, false) else
  e ← element (slots_ t) i;
  let hashval := hash (fst e) in
  new_i ← find_first_non_full t hashval;
  s ← probe t hashval;
  if probe_index t s new_i =? probe_index t s i then
    t ← set_ctrl t i (H2 hashval); Ok (t, false)
  else
    c ← rd (ctrl_ t) new_i;
    if IsEmpty c then
      t ← set_ctrl t new_i (H2 hashval);
      sl ← wr (slots_ t) new_i (Some e);
      sl ← wr sl i None;
      t ← set_ctrl (upd_slots sl t) i kEmpty;
      Ok (t, false)
    else
      _ ← assert (IsDeleted c);
      t ← set_ctrl t new_i (H2 hashval);
      e' ← element (slots_ t) new_i;
      sl ← wr (slots_ t) i (Some e');
      sl ← wr sl new_i (Some e);
      Ok (upd_slots sl t, true).

Fixpoint drop_loop (fuel : nat) t (i : Z) : res T :=
  if i =? capacity_ t then Ok t else
  match fuel with
  | O => Err EFuel
  | S fuel =>
      r ← drop_step t i;
      drop_loop fuel (fst r) (if snd r : bool then i else i + 1)
  end.

(** a slot is left for good or an element reaches its final slot in each step *)
Definition drop_fuel t : nat := (2 * Z.to_nat (capacity_ t))%nat.

Definition drop_deletes_without_resize t : res T :=
  _ ← assert (IsValidCapacity (capacity_ t));
  _ ← assert (negb (is_small t));
  c ← ConvertDeletedToEmptyAndFullToDeleted (ctrl_ t) (capacity_ t);
  t ← drop_loop (drop_fuel t) (upd_ctrl c t) 0;
  reset_growth_left t.

Definition rehash_and_grow_if_necessary t : res (T * bool) :=
  if capacity_ t =? 0 then resize t 1
  else
    g ← CapacityToGrowth (capacity_ t);
    if size_ t <=? g / 2 then t ← drop_deletes_without_resize t; Ok (t, true)
    else resize t (u64 (u64 (capacity_ t * 2) + 1)).

(** ** Insertion *)

(** the slot [target] is taken for an element with that hash *)
Definition occupy t (target hashval : Z) : res T :=
  c ← rd (ctrl_ t) target;
  let t := upd_growth (u64 (growth_left t - (if IsEmpty c then 1 else 0))) (upd_size (u64 (size_ t + 1)) t) in
  set_ctrl t target (H2 hashval).

Definition prepare_insert t (hashval : Z) : res (T * option Z) :=
  target ← find_first_non_full t hashval;
  grow ← (if growth_left t =? 0 then c ← rd (ctrl_ t) target; Ok (negb (IsDeleted c)) else Ok false);
  r ← (if grow : bool then
         r ← rehash_and_grow_if_necessary t;
         if snd r : bool then target ← find_first_non_full (fst r) hashval; Ok (fst r, Some target)
         else Ok (fst r, None)
       else Ok (t, Some target));
  match r with
  | (t, None) => Ok (t, None)
  | (t, Some target) =>
      t ← occupy t target hashval;
      Ok (t, Some target)
  end.

(** the slot of the key and whether it was prepared for a new element *)
Definition find_or_prepare_insert t (key : K) : res (T * option (Z * bool)) :=
  let hashval := hash key in
  s ← probe t hashval;
  r ← find_probes (probe_fuel t) t key hashval s;
  match r with
  | Some offset => Ok (t, Some (offset, false))
  | None =>
      r ← prepare_insert t hashval;
      Ok (fst r, match snd r with Some i => Some (i, true) | None => None end)
  end.

(** constructs the element; the assertion looks it up *)
Definition emplace_at t (i : Z) (e : K * V) : res T :=
  s ← wr (slots_ t) i (Some e);
  let t := upd_slots s t in
  it ← find t (fst e);
  _ ← assert (bool_decide (it = Some i));
  Ok t.

(** [emplace], [insert], [try_emplace]: an element is constructed only if the key is new *)
Definition emplace t (key : K) (v : V) : res (T * option (Z * bool)) :=
  r ← find_or_prepare_insert t key;
  match r with
  | (t, Some (i, true)) => t ← emplace_at t i (key, v); Ok (t, Some (i, true))
  | r => Ok r
  end.

Definition insert_or_assign t (key : K) (v : V) : res (T * option (Z * bool)) :=
  r ← find_or_prepare_insert t key;
  match r with
  | (t, Some (i, true)) => t ← emplace_at t i (key, v); Ok (t, Some (i, true))
  | (t, Some (i, false)) =>
      e ← element (slots_ t) i;
      s ← wr (slots_ t) i (Some (fst e, v));
      Ok (upd_slots s t, Some (i, false))
  | (t, None) => Ok (t, None)
  end.

(** [operator[]]: the value of the key, with a default-constructed one if it is new *)
Definition subscript (dflt : V) t (key : K) : res (T * option V) :=
  r ← emplace t key dflt;
  match r with
  | (t, Some (i, _)) => e ← element (slots_ t) i; Ok (t, Some (snd e))
  | (t, None) => Ok (t, None)
  end.

(** [at]: [None] is [std::out_of_range] *)
Definition at_ t (key : K) : res (option V) :=
  it ← find t key;
  match it with
  | None => Ok None
  | Some i => e ← element (slots_ t) i; Ok (Some (snd e))
  end.

(** ** Erasure *)

(** no probe window that contains the slot was ever full: fewer than [kWidth]
    consecutive bytes around it are not empty *)
Definition was_never_full t (index : Z) : res bool :=
  let index_before := Z.land (u64 (index - kWidth)) (capacity_ t) in
  ga ← group_at (ctrl_ t) index;
  gb ← group_at (ctrl_ t) index_before;
  let empty_after := MatchEmpty ga in
  let empty_before := MatchEmpty gb in
  if negb (empty_before =? 0) && negb (empty_after =? 0) then
    tz ← LowestBitSet Shift empty_after;
    lz ← LeadingZeros T_bits kWidth Shift empty_before;
    Ok (u64 (tz + lz) <? kWidth)
  else Ok false.

Definition erase_meta_only t (index : Z) : res T :=
  c ← rd (ctrl_ t) index;
  _ ← assert (IsFull c);
  let t := upd_size (u64 (size_ t - 1)) t in
  wnf ← was_never_full t index;
  t ← set_ctrl t index (if (wnf : bool) then kEmpty else kDeleted);
  Ok (upd_growth (u64 (growth_left t + (if (wnf : bool) then 1 else 0))) t).

(** [_erase(it)]: the element is destroyed first *)
Definition erase_at t (i : Z) : res T :=
  _ ← assert (negb (i =? capacity_ t));
  _ ← element (slots_ t) i;
  s ← wr (slots_ t) i None;
  erase_meta_only (upd_slots s t) i.

(** [erase(key)]: the number of elements erased *)
Definition erase t (key : K) : res (T * Z) :=
  it ← find t key;
  match it with
  | None => Ok (t, 0)
  | Some i => t ← erase_at t i; Ok (t, 1)
  end.

Definition clear t : res T :=
  if size_ t =? 0 then Ok t else
  t ← (if 127 <? capacity_ t then Ok (destroy_slots t)
       else if negb (capacity_ t =? 0) then
         let t := upd_size 0 (upd_slots (replicate (length (slots_ t)) None) t) in
         t ← reset_ctrl t; reset_growth_left t
       else Ok t);
  _ ← assert (size_ t =? 0);
  Ok t.

(** ** Rehashing *)

Definition rehash t (n : Z) : res (T * bool) :=
  if (n =? 0) && (capacity_ t =? 0) then Ok (t, true)
  else if (n =? 0) && (size_ t =? 0) then Ok (destroy_slots t, true)
  else
    m ← NormalizeCapacity (Z.max n (size_ t));
    if (n =? 0) || (capacity_ t <? m) then resize t m else Ok (t, true).

Definition reserve t (n : Z) : res (T * bool) := c ← GrowthToLowerboundCapacity n; rehash t c.

(** ** Iteration *)

Fixpoint skip_empty_or_deleted (fuel : nat) (ctrl : list Z) (pos : Z) : res Z :=
  c ← rd ctrl pos;
  if IsEmptyOrDeleted c then
    match fuel with
    | O => Err EFuel
    | S fuel =>
        g ← group_at ctrl pos;
        shift ← CountLeadingEmptyOrDeleted g;
        skip_empty_or_deleted fuel ctrl (pos + shift)
    end
  else Ok pos.

Definition begin_ t : res Z := skip_empty_or_deleted (probe_fuel t) (ctrl_ t) 0.
Definition next_ t (pos : Z) : res Z := skip_empty_or_deleted (probe_fuel t) (ctrl_ t) (pos + 1).

(** the elements a range-based [for] visits from position [pos] to [end()] *)
Fixpoint iterate (fuel : nat) t (pos : Z) : res (list (K * V)) :=
  if pos =? capacity_ t then Ok [] else
  match fuel with
  | O => Err EFuel
  | S fuel =>
      e ← element (slots_ t) pos;
      pos ← next_ t pos;
      l ← iterate fuel t pos;
      Ok (e :: l)
  end.

Definition elements t : res (list (K * V)) :=
  pos ← begin_ t; iterate (probe_fuel t) t pos.

(** ** Copying *)

Fixpoint copy_elements (l : list (K * V)) t : res T :=
  match l with
  | [] => Ok t
  | v :: l =>
      let hashval := hash (fst v) in
      target ← find_first_non_full t hashval;
      t ← set_ctrl t target (H2 hashval);
      t ← emplace_at t target v;
      copy_elements l t
  end.

(** the copy constructor; [None] is [std::bad_alloc] *)
Definition copy_construct (that : T) : res (option T) :=
  r ← reserve new_table (size_ that);
  if snd r : bool then
    l ← elements that;
    t ← copy_elements l (fst r);
    let t := upd_size (size_ that) t in
    Ok (Some (upd_growth (u64 (growth_left t - size_ that)) t))
  else Ok None.

(** the move constructor: the new table and the moved-from one *)
Definition move_construct (that : T) : T * T :=
  (Table K V (ctrl_ that) (slots_ that) (size_ that) (capacity_ that) (growth_left that),
   Table K V EmptyGroup [] 0 0 0).

End Table.
