(* ===== verification/SwissProbe.v ===== *)
(** * phmap: control bytes and probe sequences

    The control bytes of a table as a function of the bytes of its slots
    ([rep_ctrl]), what a group loaded at an offset holds, and the probe sequence:
    its offsets are [kWidth] times the triangular numbers, and they visit every
    group of the table. *)

From S2P Require Import Prelude.
From S2P Require Import Simd.
From S2P Require Import SwissGroup.
From S2P Require Import SwissGroupOk.
From S2P Require Import SwissTable.

(** ** Triangular numbers modulo a power of two *)

Definition tri (j : Z) : Z := j * (j + 1) / 2.

Lemma tri_succ j : tri (j + 1) = tri j + (j + 1).
Proof.
  unfold tri. replace ((j + 1) * (j + 1 + 1)) with (j * (j + 1) + (j + 1) * 2) by lia.
  by rewrite Z.div_add by lia.
Qed.

Lemma tri_double j : 2 * tri j = j * (j + 1).
Proof.
  unfold tri. assert ((j * (j + 1)) mod 2 = 0) as E.
  { rewrite Z.mul_mod by lia. assert (j mod 2 = 0 \/ j mod 2 = 1) as [H|H] by (pose proof (Z.mod_pos_bound j 2); lia).
    - by rewrite H.
    - rewrite Z.add_mod, H by lia. reflexivity. }
  pose proof (Z.div_mod (j * (j + 1)) 2 ltac:(lia)). lia.
Qed.

Lemma tri_nonneg j : 0 <= j -> 0 <= tri j.
Proof. intros H. pose proof (tri_double j). nia. Qed.

(** a power of two that divides a product with an odd factor divides the other factor *)
Lemma pow2_divide_odd (b : nat) x y : Z.odd x = true -> (2 ^ Z.of_nat b | x * y) -> (2 ^ Z.of_nat b | y).
Proof.
  intros Hx. revert y. induction b as [|b IH]; intros y H; [apply Z.divide_1_l|].
  rewrite Nat2Z.inj_succ, Z.pow_succ_r in * by lia.
  assert (Z.even y = true) as [y' ->]%Z.even_spec.
  { destruct H as [c Hc]. apply (f_equal Z.even) in Hc. rewrite !Z.even_mul in Hc.
    rewrite <-(Z.negb_odd x), Hx in Hc. simpl in Hc. rewrite Hc. by rewrite orb_true_r. }
  apply Z.mul_divide_mono_l, IH. destruct H as [c Hc]. exists c. lia.
Qed.

Lemma tri_inj (b : nat) i j : 0 <= i < j -> j < 2 ^ Z.of_nat b ->
  tri i mod 2 ^ Z.of_nat b <> tri j mod 2 ^ Z.of_nat b.
Proof.
  intros Hij Hj E. pose proof (Z.pow_pos_nonneg 2 (Z.of_nat b)).
  assert (2 ^ Z.of_nat b | tri j - tri i) as [c Hc].
  { apply Z.mod_divide; [lia|]. by rewrite Zminus_mod, E, Z.sub_diag. }
  assert (2 ^ Z.of_nat (S b) | (j - i) * (j + i + 1)) as Hd.
  { exists c. rewrite Nat2Z.inj_succ, Z.pow_succ_r by lia.
    pose proof (tri_double i). pose proof (tri_double j). nia. }
  assert (2 ^ Z.of_nat (S b) = 2 * 2 ^ Z.of_nat b) as E2 by (rewrite Nat2Z.inj_succ, Z.pow_succ_r; lia).
  destruct (Z.odd (j - i)) eqn:Eo.
  - apply pow2_divide_odd in Hd; [|done]. apply Z.divide_pos_le in Hd; lia.
  - rewrite Z.mul_comm in Hd. apply pow2_divide_odd in Hd; [apply Z.divide_pos_le in Hd; lia|].
    replace (j + i + 1) with ((j - i) + 2 * i + 1) by lia. by rewrite !Z.odd_add, Z.odd_mul, Eo.
Qed.

(** the triangular numbers take every residue modulo a power of two *)
Lemma tri_surj (b : nat) q : 0 <= q < 2 ^ Z.of_nat b ->
  exists j, 0 <= j < 2 ^ Z.of_nat b /\ tri j mod 2 ^ Z.of_nat b = q.
Proof.
  intros Hq. set (M := 2 ^ Z.of_nat b) in *.
  assert ((fun j => tri j mod M) <$> seqZ 0 M ≡ₚ seqZ 0 M) as HP.
  { apply submseteq_length_Permutation; [|by rewrite length_fmap].
    apply NoDup_submseteq.
    - apply NoDup_fmap_2_strong; [|apply NoDup_seqZ]. intros i j Hi%elem_of_seqZ Hj%elem_of_seqZ E.
      destruct (Z.lt_trichotomy i j) as [?|[?|?]]; [|done|]; exfalso.
      + apply (tri_inj b i j); [lia|fold M; lia|done].
      + apply (tri_inj b j i); [lia|fold M; lia|by symmetry].
    - intros x (j & -> & Hj)%list_elem_of_fmap. apply elem_of_seqZ. pose proof (Z.mod_pos_bound (tri j) M). lia. }
  assert (q ∈ (fun j => tri j mod M) <$> seqZ 0 M) as (j & -> & Hj)%list_elem_of_fmap.
  { rewrite HP. apply elem_of_seqZ. lia. }
  exists j. apply elem_of_seqZ in Hj. split; [lia|done].
Qed.

(** ** Capacities *)

(** a capacity is one less than a power of two; the bound keeps the arithmetic
    on positions within 64 bits *)
Definition cap_ok (n : nat) : Prop := exists k, 1 <= k <= 59 /\ Z.of_nat n + 1 = 2 ^ k.

Section Cap.
Context (n : nat) (Hn : cap_ok n).
Abbreviation N := (Z.of_nat n + 1).

Lemma cap_bounds : 1 <= Z.of_nat n < 2 ^ 59.
Proof.
  destruct Hn as (k & Hk & E). pose proof (Z.pow_le_mono_r 2 1 k). pose proof (Z.pow_le_mono_r 2 k 59). lia.
Qed.

Lemma land_cap z : Z.land z (Z.of_nat n) = z mod N.
Proof. destruct Hn as (k & Hk & E). rewrite E. rewrite <-land_pow2_mod by lia. f_equal. lia. Qed.

Lemma land_u64_cap z : Z.land (u64 z) (Z.of_nat n) = z mod N.
Proof.
  rewrite land_cap. destruct Hn as (k & Hk & E). rewrite E. unfold wrapu. apply Z.mod_mod_divide.
  exists (2 ^ (64 - k)). rewrite <-Z.pow_add_r by lia. f_equal. lia.
Qed.

Lemma cap_valid : IsValidCapacity (Z.of_nat n) = true.
Proof.
  unfold IsValidCapacity. rewrite land_u64_cap, Z_mod_same_full. pose proof cap_bounds. simpl. lia.
Qed.

Lemma make_probe_Ok h : make_probe h (Z.of_nat n) = Ok (ProbeSeq (Z.of_nat n) (h mod N) 0).
Proof. unfold make_probe. by rewrite land_u64_cap, Z_mod_same_full, land_cap. Qed.

End Cap.

(** ** The control bytes *)

Section Ctrl.
Context `{GOk : GroupOk}.

Abbreviation W := (Z.to_nat kWidth).

Lemma W_cases : W = 8%nat /\ kWidth = 8 \/ W = 16%nat /\ kWidth = 16.
Proof. destruct kWidth_cases as [E|E]; rewrite E; auto. Qed.

(** the byte at a position: of a slot, the sentinel, a copy, or a dummy *)
Definition byte_at (cs : list Z) (p : nat) : Z :=
  if (p <=? length cs)%nat then default kSentinel (cs !! p)
  else default kEmpty (cs !! (p - S (length cs))%nat).

(** [cs] are the bytes of the slots; the last byte is never read *)
Definition rep_ctrl (cs ctrl : list Z) : Prop :=
  length ctrl = (length cs + W + 1)%nat /\
  forall p, (p < length cs + W)%nat -> ctrl !! p = Some (byte_at cs p).

Definition small (n : nat) : Prop := Z.of_nat n < kWidth - 1.

#[global] Instance small_dec n : Decision (small n).
Proof. unfold small. apply _. Defined.

(** the values of the byte of a slot *)
Definition slot_byte (c : Z) : Prop := c = kEmpty \/ c = kDeleted \/ 0 <= c < 128.

(** capacities and widths are powers of two, one divides the other *)
Lemma cap_width n : cap_ok n ->
  (small n /\ 2 * (Z.of_nat n + 1) <= kWidth /\ (Z.of_nat n + 1 | kWidth)) \/
  (~ small n /\ exists b : nat, Z.of_nat n + 1 = kWidth * 2 ^ Z.of_nat b).
Proof.
  intros (k & Hk & E). unfold small.
  assert (exists a, (a = 3 \/ a = 4) /\ kWidth = 2 ^ a) as (a & Ha & Ew).
  { destruct kWidth_cases as [->| ->]; [by exists 3; auto|by exists 4; auto]. }
  rewrite E, Ew. destruct (Z.lt_ge_cases k a).
  - left. assert (2 ^ a = 2 ^ k * 2 ^ (a - k)) as Ea by (rewrite <-Z.pow_add_r by lia; f_equal; lia).
    pose proof (Z.pow_le_mono_r 2 1 (a - k)). pose proof (Z.pow_pos_nonneg 2 k). split_and!; [nia|nia|].
    exists (2 ^ (a - k)). lia.
  - right. split; [pose proof (Z.pow_le_mono_r 2 a k); lia|]. exists (Z.to_nat (k - a)).
    rewrite Z2Nat.id by lia. rewrite <-Z.pow_add_r by lia. f_equal. lia.
Qed.

(** *** Writing a byte *)

Lemma mirror_eq n i : cap_ok n -> (i < n)%nat ->
  Z.land (u64 (Z.of_nat i - kWidth)) (Z.of_nat n) + 1 + Z.land (kWidth - 1) (Z.of_nat n) =
  Z.of_nat (if (i <? W)%nat then i + S n else i)%nat.
Proof.
  intros Hn Hi. rewrite land_u64_cap, land_cap by done. pose proof W_cases as HW.
  set (N := Z.of_nat n + 1). destruct (cap_width n Hn) as [(_ & H2 & c & Hc)|(Hs & b & Hb)].
  - fold N in Hc, H2. replace (Z.of_nat i - kWidth) with (Z.of_nat i + (- c) * N) by lia.
    rewrite Z_mod_plus_full, Z.mod_small by lia.
    replace (kWidth - 1) with (N - 1 + (c - 1) * N) by lia. rewrite Z_mod_plus_full, Z.mod_small by lia.
    destruct (Nat.ltb_spec i W); lia.
  - unfold small in Hs. rewrite (Z.mod_small (kWidth - 1)) by lia. destruct (Nat.ltb_spec i W).
    + replace (Z.of_nat i - kWidth) with (Z.of_nat i - kWidth + N + (-1) * N) by lia.
      rewrite Z_mod_plus_full, Z.mod_small by lia. lia.
    + rewrite Z.mod_small by lia. lia.
Qed.

Lemma set_ctrl_rep {K V} (t : table K V) cs i h :
  cap_ok (length cs) -> capacity_ t = Z.of_nat (length cs) -> rep_ctrl cs (ctrl_ t) -> (i < length cs)%nat ->
  exists c, set_ctrl t (Z.of_nat i) h = Ok (upd_ctrl c t) /\ rep_ctrl (<[i := h]> cs) c.
Proof.
  intros Hn Hc [L Hr] Hi. pose proof W_cases as HW. unfold set_ctrl. rewrite Hc.
  replace (Z.of_nat i <? Z.of_nat (length cs)) with true by lia. cbn [assert mbind res_bind].
  rewrite wr_Ok by lia. cbn [mbind res_bind]. rewrite Nat2Z.id, mirror_eq by done.
  set (m := if (i <? W)%nat then (i + S (length cs))%nat else i).
  assert (m = i /\ (W <= i)%nat \/ m = (i + S (length cs))%nat /\ (i < W)%nat) as Hm
    by (unfold m; destruct (Nat.ltb_spec i W); auto).
  rewrite wr_Ok by (rewrite length_insert; lia). cbn [mbind res_bind]. rewrite Nat2Z.id.
  eexists. split; [done|]. split; [by rewrite !length_insert|]. rewrite length_insert. intros p Hp.
  unfold byte_at. rewrite length_insert. destruct (Nat.leb_spec p (length cs)).
  - destruct (decide (p = i)) as [->|Hne].
    + rewrite list_lookup_insert_eq by lia. destruct (decide (m = i)) as [->|].
      * by rewrite list_lookup_insert_eq by (rewrite length_insert; lia).
      * rewrite list_lookup_insert_ne by done. by rewrite list_lookup_insert_eq by lia.
    + rewrite !list_lookup_insert_ne by lia. rewrite Hr by done. unfold byte_at.
      by destruct (Nat.leb_spec p (length cs)); [|lia].
  - destruct (decide (p = m)) as [->|Hne].
    + rewrite list_lookup_insert_eq by (rewrite length_insert; lia).
      destruct Hm as [[? ?]|[-> ?]]; [lia|]. replace (i + S (length cs) - S (length cs))%nat with i by lia.
      by rewrite list_lookup_insert_eq by lia.
    + rewrite !list_lookup_insert_ne by lia. rewrite Hr by done. unfold byte_at.
      by destruct (Nat.leb_spec p (length cs)); [lia|].
Qed.

(** *** The group at an offset *)

Definition window (cs : list Z) (o : Z) (g : list Z) : Prop :=
  length g = W /\ forall i, (i < W)%nat -> g !! i = Some (byte_at cs (Z.to_nat o + i)).

Lemma window_load cs ctrl o : rep_ctrl cs ctrl -> 0 <= o <= Z.of_nat (length cs) ->
  exists g, group_at ctrl o = Ok g /\ window cs o g.
Proof.
  intros [L Hr] Ho. pose proof W_cases as HW. exists (take W (drop (Z.to_nat o) ctrl)). split.
  - unfold group_at. apply loadu_Ok; lia.
  - split; [rewrite length_take, length_drop; lia|]. intros i Hi.
    rewrite lookup_take_lt, lookup_drop by done. apply Hr. lia.
Qed.

(** slot [p] is in the group at offset [o] *)
Definition inwin (n : nat) (o : Z) (p : nat) : Prop := (Z.of_nat p - o) mod (Z.of_nat n + 1) < kWidth.

Section Window.
Context (cs : list Z) (o : Z) (g : list Z).
Context (Hn : cap_ok (length cs)) (Ho : 0 <= o <= Z.of_nat (length cs)) (Hg : window cs o g).
Abbreviation N := (Z.of_nat (length cs) + 1).

Lemma window_width : Z.of_nat (length g) = kWidth.
Proof. destruct Hg as [-> _]. pose proof W_cases. lia. Qed.

Lemma window_ctrl_ok : Forall slot_byte cs -> Forall ctrl_ok g.
Proof.
  intros Hcs. apply Forall_lookup_2. intros i c Hi. pose proof (lookup_lt_Some _ _ _ Hi) as Hlt.
  destruct Hg as [L Hb]. rewrite Hb in Hi by lia. injection Hi as <-. unfold byte_at.
  assert (forall q d, ctrl_ok d -> ctrl_ok (default d (cs !! q))) as H.
  { intros q d Hd. destruct (cs !! q) as [c|] eqn:E; [|done]. simpl.
    apply (Forall_lookup_1 _ _ _ _ Hcs) in E. unfold slot_byte in E. unfold ctrl_ok. tauto. }
  destruct (_ <=? _)%nat; apply H; unfold ctrl_ok; auto.
Qed.

Lemma window_in p c : cs !! p = Some c -> inwin (length cs) o p ->
  exists i : nat, g !! i = Some c /\ (o + Z.of_nat i) mod N = Z.of_nat p /\ (i <= length cs)%nat.
Proof.
  intros Hp Hw. pose proof (lookup_lt_Some _ _ _ Hp) as Hlt. unfold inwin in Hw.
  pose proof (Z.mod_pos_bound (Z.of_nat p - o) N ltac:(lia)) as Hm. pose proof W_cases.
  set (i := (Z.of_nat p - o) mod N) in *. exists (Z.to_nat i). rewrite Z2Nat.id by lia.
  assert ((o + i) mod N = Z.of_nat p) as E.
  { unfold i. rewrite Z.add_mod_idemp_r by lia. replace (o + (Z.of_nat p - o)) with (Z.of_nat p) by lia.
    apply Z.mod_small. lia. }
  split_and!; [|done|lia]. destruct Hg as [_ Hb]. rewrite Hb by lia. f_equal. unfold byte_at.
  destruct (Nat.leb_spec (Z.to_nat o + Z.to_nat i) (length cs)).
  - rewrite Z.mod_small in E by lia. replace (Z.to_nat o + Z.to_nat i)%nat with p by lia. by rewrite Hp.
  - replace (o + i) with (o + i - N + 1 * N) in E by lia. rewrite Z_mod_plus_full, Z.mod_small in E by lia.
    replace (Z.to_nat o + Z.to_nat i - S (length cs))%nat with p by lia. by rewrite Hp.
Qed.

Lemma window_out i c : g !! i = Some c ->
  (exists p, cs !! p = Some c /\ (o + Z.of_nat i) mod N = Z.of_nat p /\ inwin (length cs) o p) \/
  c = kSentinel \/ (c = kEmpty /\ small (length cs) /\ (length cs < i)%nat).
Proof.
  intros Hi. pose proof (lookup_lt_Some _ _ _ Hi) as Hlt. pose proof W_cases as HW.
  destruct Hg as [L Hb]. rewrite L in Hlt. rewrite Hb in Hi by done. injection Hi as <-.
  assert (forall p, (o + Z.of_nat i) mod N = Z.of_nat p -> inwin (length cs) o p) as Hin.
  { intros p E. unfold inwin. rewrite <-E, Zminus_mod_idemp_l.
    replace (o + Z.of_nat i - o) with (Z.of_nat i) by lia. pose proof (Z.mod_le (Z.of_nat i) N). lia. }
  unfold byte_at. destruct (Nat.leb_spec (Z.to_nat o + i) (length cs)).
  - destruct (cs !! (Z.to_nat o + i)%nat) as [c|] eqn:Ec; [|by right; left]. left. simpl.
    assert ((o + Z.of_nat i) mod N = Z.of_nat (Z.to_nat o + i)) as E by (rewrite Z.mod_small; lia).
    exists (Z.to_nat o + i)%nat. split_and!; [done|done|by apply Hin].
  - destruct (cs !! (Z.to_nat o + i - S (length cs))%nat) as [c|] eqn:Ec; simpl.
    + left. apply lookup_lt_Some in Ec as Hlt'.
      assert ((o + Z.of_nat i) mod N = Z.of_nat (Z.to_nat o + i - S (length cs))) as E.
      { replace (o + Z.of_nat i) with (o + Z.of_nat i - N + 1 * N) by lia.
        rewrite Z_mod_plus_full, Z.mod_small by lia. lia. }
      eexists. split_and!; [exact Ec|done|by apply Hin].
    + right. right. apply lookup_ge_None in Ec. unfold small. split_and!; [done|lia|lia].
Qed.

(** the last byte of a group of a small table is a dummy *)
Lemma window_small : small (length cs) -> g !! (W - 1)%nat = Some kEmpty.
Proof.
  intros Hs. destruct Hg as [_ Hb]. pose proof W_cases as HW. rewrite Hb by lia. f_equal. unfold byte_at.
  destruct (cap_width _ Hn) as [(_ & H2 & _)|[? _]]; [|done].
  destruct (Nat.leb_spec (Z.to_nat o + (W - 1)) (length cs)); [lia|].
  rewrite lookup_ge_None_2 by lia. done.
Qed.

(** every slot of a small table is in every group *)
Lemma small_inwin p : small (length cs) -> inwin (length cs) o p.
Proof.
  intros Hs. unfold inwin. pose proof (Z.mod_pos_bound (Z.of_nat p - o) N ltac:(lia)). unfold small in Hs. lia.
Qed.

Lemma offset_at_eq i s : mask_ s = Z.of_nat (length cs) -> offset_ s = o ->
  offset_at s (Z.of_nat i) = (o + Z.of_nat i) mod N.
Proof. intros Em Eo. unfold offset_at. by rewrite Em, Eo, land_u64_cap. Qed.

End Window.

(** ** Probe sequences *)

Section Probe.
Context (n : nat) (Hn : cap_ok n).
Abbreviation N := (Z.of_nat n + 1).

(** the [j]-th offset of the sequence that starts at [h] *)
Definition probe_off (h j : Z) : Z := (h + kWidth * tri j) mod N.

Definition probe_at (h j : Z) : probe_seq := ProbeSeq (Z.of_nat n) (probe_off h j) (kWidth * j).

Lemma probe_off_range h j : 0 <= probe_off h j <= Z.of_nat n.
Proof. unfold probe_off. pose proof (Z.mod_pos_bound (h + kWidth * tri j) N ltac:(lia)). lia. Qed.

Lemma probe_at_0 h : make_probe h (Z.of_nat n) = Ok (probe_at h 0).
Proof.
  rewrite make_probe_Ok by done. unfold probe_at, probe_off. do 2 f_equal.
  - f_equal. change (tri 0) with 0. lia.
  - lia.
Qed.

Lemma probe_at_next h j : 0 <= j <= Z.of_nat n -> probe_next (probe_at h j) = probe_at h (j + 1).
Proof.
  intros Hj. unfold probe_next, probe_at. cbn [mask_ offset_ index_]. pose proof (cap_bounds n Hn). pose proof W_cases.
  assert (u64 (kWidth * j + kWidth) = kWidth * (j + 1)) as E.
  { rewrite wrapu_id; [lia|]. unfold inu. destruct W_cases as [[_ ->]|[_ ->]]; lia. }
  rewrite E. f_equal. rewrite land_u64_cap by done. unfold probe_off.
  rewrite Z.add_mod_idemp_l by lia. f_equal. rewrite tri_succ. lia.
Qed.

(** the number of groups *)
Definition groups : Z := Z.max 1 (N / kWidth).

(** the groups of the first [groups] probes contain every slot *)
Lemma probe_cover h p : (p < n)%nat -> exists j, 0 <= j < groups /\ inwin n (probe_off h j) p.
Proof.
  intros Hp. unfold groups. pose proof W_cases as HW. destruct (cap_width n Hn) as [(Hs & _ & _)|(Hs & b & Hb)].
  - exists 0. split; [lia|]. unfold inwin. pose proof (Z.mod_pos_bound (Z.of_nat p - probe_off h 0) N ltac:(lia)).
    unfold small in Hs. lia.
  - pose proof (Z.pow_pos_nonneg 2 (Z.of_nat b) ltac:(lia) ltac:(lia)).
    set (x := (Z.of_nat p - h) mod N). pose proof (Z.mod_pos_bound (Z.of_nat p - h) N ltac:(lia)) as Hx. fold x in Hx.
    destruct (tri_surj b (x / kWidth)) as (j & Hj & Ej).
    { split; [apply Z.div_pos; lia|]. apply Z.div_lt_upper_bound; lia. }
    exists j. split; [rewrite Hb, Z.mul_comm, Z.div_mul by lia; lia|].
    unfold inwin, probe_off. rewrite Zminus_mod_idemp_r.
    replace (Z.of_nat p - (h + kWidth * tri j)) with (Z.of_nat p - h - kWidth * tri j) by lia.
    rewrite <-Zminus_mod_idemp_l, <-Zminus_mod_idemp_r. fold x.
    replace ((kWidth * tri j) mod N) with (kWidth * (x / kWidth)).
    2:{ rewrite Hb, Z.mul_mod_distr_l by lia. by rewrite Ej. }
    assert (0 < kWidth) as Hw by lia.
    pose proof (Z.div_mod x kWidth) as Ex. pose proof (Z.mod_pos_bound x kWidth Hw).
    rewrite Z.mod_small by lia. lia.
Qed.

Lemma groups_bound : 1 <= groups <= Z.of_nat n + 1 /\ (1 < groups -> kWidth * groups <= N).
Proof.
  unfold groups. pose proof W_cases as HW. assert (0 < kWidth) as Hw by lia.
  pose proof (Z.mul_div_le N kWidth Hw). pose proof (Z.div_pos N kWidth). split; nia.
Qed.

End Probe.

End Ctrl.
