(* ===== verification/SwissInv.v ===== *)
(** * phmap: the invariant of a table and its lookups

    [core] relates the control bytes, the slots and the probe sequences of a
    table: an element is found by the probe sequence of its hash before a group
    with an empty byte. Lookups and the search for a free slot are specified
    against it. *)

From S2P Require Import Prelude.
From S2P Require Import Simd.
From S2P Require Import SwissGroup.
From S2P Require Import SwissGroupOk.
From S2P Require Import SwissTable.
From S2P Require Import SwissProbe.

Lemma H2_range h : 0 <= H2 h < 128.
Proof. unfold H2. change 127 with (2 ^ 7 - 1). rewrite land_pow2_mod by done. by apply Z.mod_pos_bound. Qed.

Lemma slot_byte_H2 h : slot_byte (H2 h).
Proof. right. right. apply H2_range. Qed.

Lemma slot_byte_cases c : slot_byte c ->
  (0 <= c /\ IsEmptyOrDeleted c = false) \/ (c = kEmpty /\ IsEmptyOrDeleted c = true) \/
  (c = kDeleted /\ IsEmptyOrDeleted c = true).
Proof.
  unfold slot_byte, IsEmptyOrDeleted, kEmpty, kDeleted, kSentinel. intros [->|[->|H]]; [auto|auto|]. left. lia.
Qed.

Section Inv.
Context `{GOk : GroupOk} {K V : Type} `{!EqDecision K} (hash : K -> Z).
Implicit Types (t : table K V) (cs : list Z).

(** a probe does not stop at the group at [o] ([d]: the search for a free slot does not) *)
Definition blocked (d : bool) cs (o : Z) : Prop :=
  ~ small (length cs) /\
  forall q c, cs !! q = Some c -> inwin (length cs) o q ->
    if d then IsEmptyOrDeleted c = false else c <> kEmpty.

(** slot [p] is in a group of the sequence of [h], and the groups before it do not stop the probe *)
Definition reach (d : bool) cs (h : Z) (p : nat) : Prop :=
  exists j, 0 <= j < groups (length cs) /\ inwin (length cs) (probe_off (length cs) (H1 h) j) p /\
    forall j', 0 <= j' < j -> blocked d cs (probe_off (length cs) (H1 h) j').

(** The consistency of the slots of a table with their control bytes [cs]. While
    tombstones are dropped ([d] is true) a deleted byte marks an element that is
    still to be placed. *)
Record placed (d : bool) (slots : list (option (K * V))) cs : Prop := {
  placed_cap : cap_ok (length cs);
  placed_bytes : Forall slot_byte cs;
  placed_slots : length slots = length cs;
  placed_full p c : cs !! p = Some c -> 0 <= c ->
    exists k v, slots !! p = Some (Some (k, v)) /\ c = H2 (hash k);
  placed_deleted p : cs !! p = Some kDeleted ->
    if d then exists e, slots !! p = Some (Some e) else slots !! p = Some None;
  placed_empty p : cs !! p = Some kEmpty -> slots !! p = Some None;
  placed_uniq p q k v v' : slots !! p = Some (Some (k, v)) -> slots !! q = Some (Some (k, v')) -> p = q;
  placed_reach p c k v : cs !! p = Some c -> 0 <= c -> slots !! p = Some (Some (k, v)) -> reach d cs (hash k) p
}.

(** The consistency of a table whose slots have the control bytes [cs]. *)
Record core (d : bool) t cs : Prop := {
  core_capacity : capacity_ t = Z.of_nat (length cs);
  core_ctrl : rep_ctrl cs (ctrl_ t);
  core_placed : placed d (slots_ t) cs
}.

Lemma core_cap d t cs : core d t cs -> cap_ok (length cs).
Proof. intros []. by eapply placed_cap. Qed.
Lemma core_bytes d t cs : core d t cs -> Forall slot_byte cs.
Proof. intros []. by eapply placed_bytes. Qed.
Lemma core_slots d t cs : core d t cs -> length (slots_ t) = length cs.
Proof. intros []. by eapply placed_slots. Qed.

(** a key is in the table *)
Definition has t (k : K) (v : V) : Prop := exists p, slots_ t !! p = Some (Some (k, v)).

(** the invariant is about the arrays and the capacity only *)
Lemma core_ext d t t' cs : ctrl_ t' = ctrl_ t -> slots_ t' = slots_ t -> capacity_ t' = capacity_ t ->
  core d t cs -> core d t' cs.
Proof. intros E1 E2 E3 []. split; rewrite ?E1, ?E2, ?E3; done. Qed.

Section Core.
Context (d : bool) (t : table K V) (cs : list Z) (Hc : core d t cs).
Abbreviation n := (length cs).

Lemma core_byte p c : cs !! p = Some c -> slot_byte c.
Proof. apply Forall_lookup_1, (core_bytes _ _ _ Hc). Qed.

Lemma core_probe h : probe t h = Ok (probe_at n (H1 h) 0).
Proof. unfold probe. rewrite (core_capacity _ _ _ Hc). apply probe_at_0, (core_cap _ _ _ Hc). Qed.

Lemma core_window o : 0 <= o <= Z.of_nat n ->
  exists g, group_at (ctrl_ t) o = Ok g /\ window cs o g /\ Z.of_nat (length g) = kWidth /\ Forall ctrl_ok g.
Proof.
  intros Ho. destruct (window_load cs (ctrl_ t) o (core_ctrl _ _ _ Hc) Ho) as (g & E & Hg).
  exists g. split_and!; [done|done|by eapply window_width|]. exact (window_ctrl_ok cs o g Ho Hg (core_bytes _ _ _ Hc)).
Qed.

(** the element of a full byte *)
Lemma core_full_elem p c : cs !! p = Some c -> IsFull c = true ->
  exists k v, element (slots_ t) (Z.of_nat p) = Ok (k, v) /\ slots_ t !! p = Some (Some (k, v)) /\ c = H2 (hash k).
Proof.
  intros Hp Hf. destruct (placed_full _ _ _ (core_placed _ _ _ Hc) p c Hp ltac:(unfold IsFull in Hf; lia)) as (k & v & Hs & E).
  exists k, v. split; [|done]. unfold element. by rewrite (rd_nat _ _ _ Hs).
Qed.

(** *** One group of a lookup *)

(** the candidates of a group are full slots *)
Lemma core_candidates o g h : 0 <= o <= Z.of_nat n -> window cs o g -> Forall ctrl_ok g -> 0 <= h < 128 ->
  exists l, bitmask_bits (Z.to_nat T_bits) Shift (Match g h) = Ok l /\
    (forall z, z ∈ l -> exists p c, (o + z) mod (Z.of_nat n + 1) = Z.of_nat p /\ cs !! p = Some c /\ IsFull c = true) /\
    (forall p, cs !! p = Some h -> inwin n o p -> exists z, z ∈ l /\ (o + z) mod (Z.of_nat n + 1) = Z.of_nat p).
Proof.
  intros Ho Hg Hok Hh. pose proof (window_width cs o g Hg) as Lg.
  destruct (group_match g Lg Hok h Hh) as (l & El & H1 & H2). exists l. split_and!; [done| |].
  - intros z (i & c & -> & Hi & Hf)%H2. unfold IsFull in Hf.
    destruct (window_out cs o g Ho Hg i c Hi) as [(p & Hp & E & _)|[->|(-> & _)]];
      [by exists p, c|done|done].
  - intros p Hp Hw. destruct (window_in cs o g Ho Hg p h Hp Hw) as (i & Hi & E & _).
    exists (Z.of_nat i). split; [by apply H1|done].
Qed.

Lemma match_in_spec eq s l : mask_ s = Z.of_nat n ->
  (forall z, z ∈ l -> exists p c, (offset_ s + z) mod (Z.of_nat n + 1) = Z.of_nat p /\ cs !! p = Some c /\ IsFull c = true) ->
  exists r, match_in (slots_ t) eq s l = Ok r /\
    match r with
    | Some i => exists p e, i = Z.of_nat p /\ slots_ t !! p = Some (Some e) /\ eq e = true
    | None => forall z p e, z ∈ l -> (offset_ s + z) mod (Z.of_nat n + 1) = Z.of_nat p -> eq e = true ->
                slots_ t !! p <> Some (Some e)
    end.
Proof.
  intros Hm. induction l as [|z l IH]; intros Hl; cbn [match_in].
  - exists None. split; [done|]. intros z p v Hz. by apply elem_of_nil in Hz.
  - destruct (Hl z) as (p & c & Ep & Hp & Hf); [by left|].
    destruct (core_full_elem p c Hp Hf) as (k & v & Ee & Hs & _).
    assert (offset_at s z = Z.of_nat p) as Eo by (unfold offset_at; by rewrite Hm, land_u64_cap by apply (core_cap _ _ _ Hc)).
    rewrite Eo, Ee. cbn [mbind res_bind]. destruct (eq (k, v)) eqn:Eeq.
    + exists (Some (Z.of_nat p)). split; [done|]. by exists p, (k, v).
    + destruct IH as (r & Er & Hr); [intros; apply Hl; by right|]. exists r. split; [done|].
      destruct r as [i|]; [done|]. intros z' p' e' [->|Hz]%elem_of_cons E' He'; [|by apply (Hr z')].
      rewrite Ep in E'. apply Nat2Z.inj in E' as <-. rewrite Hs. congruence.
Qed.

(** the candidates with the key *)
Lemma match_key_spec key s l : mask_ s = Z.of_nat n ->
  (forall z, z ∈ l -> exists p c, (offset_ s + z) mod (Z.of_nat n + 1) = Z.of_nat p /\ cs !! p = Some c /\ IsFull c = true) ->
  exists r, match_in (slots_ t) (EqualElement key) s l = Ok r /\
    match r with
    | Some i => exists p v, i = Z.of_nat p /\ slots_ t !! p = Some (Some (key, v))
    | None => forall z p v, z ∈ l -> (offset_ s + z) mod (Z.of_nat n + 1) = Z.of_nat p ->
                slots_ t !! p <> Some (Some (key, v))
    end.
Proof.
  intros Hm Hl. destruct (match_in_spec (EqualElement key) s l Hm Hl) as (r & E & Hr). exists r. split; [done|].
  destruct r as [i|].
  - destruct Hr as (p & [k v] & -> & Hp & Ek%bool_decide_eq_true). simpl in Ek. subst k. by exists p, v.
  - intros z p v Hz Ez. apply (Hr z p (key, v) Hz Ez). by apply bool_decide_eq_true.
Qed.

(** [MatchEmpty] is the test whether the probe stops *)
Lemma core_stop o g : 0 <= o <= Z.of_nat n -> window cs o g -> Forall ctrl_ok g ->
  MatchEmpty g = 0 <-> blocked false cs o.
Proof.
  intros Ho Hg Hok. pose proof (window_width cs o g Hg) as Lg. pose proof (group_empty g Lg Hok) as He.
  destruct (decide (MatchEmpty g = 0)) as [E|E]; (split; [intros E'|intros HB]); try done.
  - split.
    + intros Hs. apply He; [|done]. apply list_elem_of_lookup. eexists. eapply window_small; first [done|apply (core_cap _ _ _ Hc)].
    + intros q c Hq Hw ->. apply He; [|done]. destruct (window_in cs o g Ho Hg q kEmpty Hq Hw) as (i & Hi & _).
      apply list_elem_of_lookup. by exists i.
  - exfalso. apply He in E. apply list_elem_of_lookup in E as [i Hi].
    destruct (window_out cs o g Ho Hg i kEmpty Hi) as [(p & Hp & _ & Hw)|[?|(_ & Hs & _)]]; [|done|by apply HB].
    by apply (proj2 HB p kEmpty).
Qed.

(** *** Lookups *)

(** some probe of every lookup stops *)
Definition has_empty : Prop := small n \/ exists q, cs !! q = Some kEmpty.

Lemma stop_exists h : has_empty -> exists j, 0 <= j < groups n /\ ~ blocked false cs (probe_off n h j).
Proof.
  intros [Hs|[q Hq]].
  - exists 0. pose proof (groups_bound n). split; [lia|]. by intros [? _].
  - pose proof (lookup_lt_Some _ _ _ Hq) as Hlt.
    destruct (probe_cover n (core_cap _ _ _ Hc) h q Hlt) as (j & Hj & Hw). exists j. split; [done|].
    intros [_ HB]. by apply (HB q kEmpty).
Qed.

Lemma find_probes_spec key j0 fuel j : 0 <= j <= j0 -> j0 < groups n -> j0 - j < Z.of_nat fuel ->
  ~ blocked false cs (probe_off n (H1 (hash key)) j0) ->
  exists r, find_probes fuel t key (hash key) (probe_at n (H1 (hash key)) j) = Ok r /\
    match r with
    | Some i => exists p v, i = Z.of_nat p /\ slots_ t !! p = Some (Some (key, v))
    | None => exists j1, j <= j1 <= j0 /\ ~ blocked false cs (probe_off n (H1 (hash key)) j1) /\
        forall j' p c v, j <= j' <= j1 -> inwin n (probe_off n (H1 (hash key)) j') p -> cs !! p = Some c -> 0 <= c ->
          slots_ t !! p <> Some (Some (key, v))
    end.
Proof.
  intros Hj Hj0. revert j Hj. induction fuel as [|fuel IH]; intros j Hj Hf Hstop; [lia|].
  set (h := H1 (hash key)) in *. set (o := probe_off n h j).
  assert (0 <= o <= Z.of_nat n) as Ho by apply probe_off_range.
  destruct (core_window o Ho) as (g & Eg & Hg & Lg & Hok). cbn [find_probes].
  change (offset_ (probe_at n h j)) with o. rewrite Eg. cbn [mbind res_bind].
  destruct (core_candidates o g (H2 (hash key)) Ho Hg Hok (H2_range _)) as (l & El & Hl1 & Hl2).
  rewrite El. cbn [mbind res_bind].
  destruct (match_key_spec key (probe_at n h j) l eq_refl Hl1) as (r & Er & Hr).
  rewrite Er. cbn [mbind res_bind]. destruct r as [i|]; [by exists (Some i)|].
  assert (forall p c v, inwin n o p -> cs !! p = Some c -> 0 <= c -> slots_ t !! p <> Some (Some (key, v))) as Hnone.
  { intros p c v Hw Hp Hfull Hs. destruct (placed_full _ _ _ (core_placed _ _ _ Hc) p c Hp Hfull) as (k & v' & Hs' & ->).
    rewrite Hs in Hs'. injection Hs' as <- <-. destruct (Hl2 p Hp Hw) as (z & Hz & Ez). by apply (Hr z p v). }
  pose proof (core_stop o g Ho Hg Hok) as Hst. destruct (Z.eqb_spec (MatchEmpty g) 0) as [E|E]; cbn [negb].
  - apply Hst in E. assert (j <> j0) by (intros ->; done). pose proof (groups_bound n).
    rewrite probe_at_next; [|apply (core_cap _ _ _ Hc)|lia].
    destruct (IH (j + 1) ltac:(lia) ltac:(lia) Hstop) as (r & Er' & Hr'). exists r. split; [done|].
    destruct r as [i|]; [done|]. destruct Hr' as (j1 & Hj1 & HB & Hn). exists j1. split_and!; [lia..|done|].
    intros j' p c v Hj'. destruct (decide (j' = j)) as [->|]; [apply Hnone|apply Hn; lia].
  - exists None. split; [done|]. exists j. split_and!; [lia..|tauto|].
    intros j' p c v Hj'. replace j' with j by lia. apply Hnone.
Qed.

Lemma groups_fuel j : 0 <= j < groups n -> j < Z.of_nat (probe_fuel t).
Proof.
  intros Hj. unfold probe_fuel. rewrite (core_capacity _ _ _ Hc). pose proof (groups_bound n). lia.
Qed.

(** *** The search for a free slot *)

Lemma first_non_full_loop_spec h j0 fuel j : 0 <= j <= j0 -> j0 < groups n -> j0 - j < Z.of_nat fuel ->
  ~ blocked true cs (probe_off n h j0) ->
  exists j1 i, j <= j1 <= j0 /\ first_non_full_loop fuel t (probe_at n h j) = Ok ((probe_off n h j1 + Z.of_nat i) mod (Z.of_nat n + 1)) /\
    (forall j', j <= j' < j1 -> blocked true cs (probe_off n h j')) /\
    exists g c, window cs (probe_off n h j1) g /\ g !! i = Some c /\ IsEmptyOrDeleted c = true /\
      forall i' c', (i' < i)%nat -> g !! i' = Some c' -> IsEmptyOrDeleted c' = false.
Proof.
  intros Hj Hj0. revert j Hj. induction fuel as [|fuel IH]; intros j Hj Hf Hstop; [lia|].
  set (o := probe_off n h j). assert (0 <= o <= Z.of_nat n) as Ho by apply probe_off_range.
  destruct (core_window o Ho) as (g & Eg & Hg & Lg & Hok). cbn [first_non_full_loop].
  change (offset_ (probe_at n h j)) with o. rewrite Eg. cbn [mbind res_bind].
  destruct (group_first_eod g Lg Hok) as [(E & Hno)|(E & i & c & Ei & Hi & Hec & Hlt)].
  - rewrite E. cbn [Z.eqb negb].
    assert (blocked true cs o) as HB.
    { split.
      - intros Hs. pose proof (window_small cs o g (core_cap _ _ _ Hc) Hg Hs) as He. by apply Hno in He.
      - intros q c Hq Hw. destruct (window_in cs o g Ho Hg q c Hq Hw) as (i & Hi & _). by apply (Hno i). }
    assert (j <> j0) by (intros ->; done). pose proof (groups_bound n) as [Hgb1 Hgb2]. pose proof W_cases as HW.
    assert (kWidth * j < Z.of_nat n) as Hidx by (specialize (Hgb2 ltac:(lia)); nia).
    rewrite (core_capacity _ _ _ Hc). cbn [index_ probe_at]. replace (kWidth * j <? Z.of_nat n) with true by lia.
    cbn [assert mbind res_bind]. fold (probe_at n h j). rewrite probe_at_next; [|apply (core_cap _ _ _ Hc)|lia].
    destruct (IH (j + 1) ltac:(lia) ltac:(lia) Hstop) as (j1 & i & Hj1 & Er & HB' & Hg'). exists j1, i.
    split_and!; [lia..|done| |done]. intros j' Hj'. destruct (decide (j' = j)) as [->|]; [done|]. apply HB'. lia.
  - exists j, i. replace (MatchEmptyOrDeleted g =? 0) with false by lia. cbn [negb]. rewrite Ei. cbn [mbind res_bind].
    split_and!; [lia..| |lia|].
    + f_equal. apply (offset_at_eq cs o (core_cap _ _ _ Hc)); done.
    + exists g, c. done.
Qed.

(** a free slot is found if there is one *)
Lemma first_non_full_spec h : (exists q c, cs !! q = Some c /\ IsEmptyOrDeleted c = true) ->
  exists p c, find_first_non_full t h = Ok (Z.of_nat p) /\ cs !! p = Some c /\ IsEmptyOrDeleted c = true /\
    reach true cs h p.
Proof.
  intros (q & c & Hq & Ec). pose proof (lookup_lt_Some _ _ _ Hq) as Hlt.
  destruct (probe_cover n (core_cap _ _ _ Hc) (H1 h) q Hlt) as (j0 & Hj0 & Hw).
  assert (~ blocked true cs (probe_off n (H1 h) j0)) as Hstop by (intros [_ HB]; specialize (HB q c Hq Hw); simpl in HB; congruence).
  destruct (first_non_full_loop_spec (H1 h) j0 (probe_fuel t) 0 ltac:(lia) ltac:(lia)) as
    (j1 & i & Hj1 & E & HB & g & c' & Hg & Hi & Hec & Hmin); [pose proof (groups_fuel j0 Hj0); lia|done|].
  unfold find_first_non_full. rewrite core_probe. cbn [mbind res_bind]. rewrite E.
  set (o := probe_off n (H1 h) j1) in *. assert (0 <= o <= Z.of_nat n) as Ho by apply probe_off_range.
  destruct (window_out cs o g Ho Hg i c' Hi) as [(p & Hp & Ep & Hwp)|[->|(-> & Hs & Hgt)]].
  - exists p, c'. rewrite Ep. split_and!; [done..|]. exists j1. split_and!; [lia..|done|]. intros j' Hj'. apply HB. lia.
  - done.
  - exfalso. assert (inwin n o q) as Hwq by (by apply small_inwin).
    destruct (window_in cs o g Ho Hg q c Hq Hwq) as (i' & Hi' & _ & Hle).
    assert (IsEmptyOrDeleted c = false) by (apply (Hmin i' c); [lia|done]). congruence.
Qed.

(** in a small table the search always ends, at some position of the control bytes *)
Lemma first_non_full_small h : small n -> exists p, find_first_non_full t h = Ok (Z.of_nat p) /\ (p <= n)%nat.
Proof.
  intros Hs. destruct (first_non_full_loop_spec (H1 h) 0 (probe_fuel t) 0) as (j1 & i & _ & E & _);
    [lia|pose proof (groups_bound n); lia|unfold probe_fuel; lia|by intros [? _]|].
  unfold find_first_non_full. rewrite core_probe. cbn [mbind res_bind]. rewrite E.
  set (x := (probe_off n (H1 h) j1 + Z.of_nat i) mod (Z.of_nat n + 1)).
  pose proof (Z.mod_pos_bound (probe_off n (H1 h) j1 + Z.of_nat i) (Z.of_nat n + 1) ltac:(lia)) as Hx. fold x in Hx.
  exists (Z.to_nat x). rewrite Z2Nat.id by lia. split; [done|lia].
Qed.

End Core.

(** ** Finding a key *)

Lemma core_has_full t cs p k v : core false t cs -> slots_ t !! p = Some (Some (k, v)) ->
  exists c, cs !! p = Some c /\ 0 <= c.
Proof.
  intros Hc Hs. pose proof (lookup_lt_Some _ _ _ Hs) as Hlt. rewrite (core_slots _ _ _ Hc) in Hlt.
  apply lookup_lt_is_Some in Hlt as [c Hp]. exists c. split; [done|].
  destruct (slot_byte_cases c (core_byte _ _ _ Hc p c Hp)) as [[? _]|[[-> _]|[-> _]]]; [done| |].
  - rewrite (placed_empty _ _ _ (core_placed _ _ _ Hc) p Hp) in Hs. done.
  - pose proof (placed_deleted _ _ _ (core_placed _ _ _ Hc) p Hp) as Hd. simpl in Hd. rewrite Hd in Hs. done.
Qed.

Lemma find_spec t cs key : core false t cs -> has_empty cs ->
  exists r, find hash t key = Ok r /\
    match r with
    | Some i => exists p v, i = Z.of_nat p /\ slots_ t !! p = Some (Some (key, v))
    | None => forall v, ~ has t key v
    end.
Proof.
  intros Hc He. destruct (stop_exists _ _ _ Hc (H1 (hash key)) He) as (j0 & Hj0 & Hstop).
  destruct (find_probes_spec _ _ _ Hc key j0 (probe_fuel t) 0) as (r & Er & Hr);
    [lia|lia|pose proof (groups_fuel _ _ _ Hc j0 Hj0); lia|done|].
  exists r. split; [unfold find, find_impl; by rewrite (core_probe _ _ _ Hc)|]. destruct r as [i|]; [done|].
  intros v [p Hs]. destruct (core_has_full t cs p key v Hc Hs) as (c & Hp & Hfull).
  destruct (placed_reach _ _ _ (core_placed _ _ _ Hc) p c key v Hp Hfull Hs) as (j & Hj & Hw & HB).
  destruct Hr as (j1 & Hj1 & HB1 & Hn). apply (Hn j p c v); [|done..].
  split; [lia|]. destruct (Z.le_gt_cases j j1); [done|]. exfalso. apply HB1, HB. lia.
Qed.

(** the key of a slot is found there *)
Lemma find_at t cs p k v : core false t cs -> has_empty cs -> slots_ t !! p = Some (Some (k, v)) ->
  find hash t k = Ok (Some (Z.of_nat p)).
Proof.
  intros Hc He Hs. destruct (find_spec t cs k Hc He) as (r & -> & Hr). destruct r as [i|].
  - destruct Hr as (q & v' & -> & Hq). by rewrite (placed_uniq _ _ _ (core_placed _ _ _ Hc) p q k v v' Hs Hq).
  - exfalso. apply (Hr v). by exists p.
Qed.

End Inv.
