(* ===== verification/SwissPlaced.v ===== *)
(** * phmap: how updates of slots and control bytes keep the table consistent

    One lemma for each kind of update: placing an element, erasing one, swapping
    and marking elements while tombstones are dropped. They are about the slots
    and their control bytes only. *)

From S2P Require Import Prelude.
From S2P Require Import Simd.
From S2P Require Import SwissGroup.
From S2P Require Import SwissGroupOk.
From S2P Require Import SwissTable.
From S2P Require Import SwissProbe.
From S2P Require Import SwissInv.

(** ** Counting *)

Definition countb {A} (f : A -> bool) (l : list A) : Z := Z.of_nat (length (List.filter f l)).

Lemma countb_insert {A} (f : A -> bool) l p c x : l !! p = Some c ->
  countb f (<[p := x]> l) = countb f l - Z.b2z (f c) + Z.b2z (f x).
Proof.
  unfold countb. revert p. induction l as [|a l IH]; intros [|p] Hp; simpl in *; [done|done| |].
  - injection Hp as ->. destruct (f c), (f x); simpl; lia.
  - specialize (IH p Hp). destruct (f a); simpl; lia.
Qed.

Lemma countb_nonneg {A} (f : A -> bool) l : 0 <= countb f l.
Proof. unfold countb. lia. Qed.

Lemma countb_pos {A} (f : A -> bool) l : 0 < countb f l -> exists p c, l !! p = Some c /\ f c = true.
Proof.
  unfold countb. induction l as [|a l IH]; simpl; [done|]. destruct (f a) eqn:E; [intros _; by exists 0%nat, a|].
  intros H. destruct (IH H) as (p & c & Hp & Hc). by exists (S p), c.
Qed.

Lemma countb_zero {A} (f : A -> bool) l : countb f l = 0 -> forall p c, l !! p = Some c -> f c = false.
Proof.
  unfold countb. induction l as [|a l IH]; simpl; [done|]. destruct (f a) eqn:E; simpl; [lia|].
  intros H [|p] c Hp; simpl in Hp; [by injection Hp as <-|]. by apply (IH H p).
Qed.

Lemma countb_zero_iff {A} (f : A -> bool) l : (forall p c, l !! p = Some c -> f c = false) -> countb f l = 0.
Proof.
  intros H. pose proof (countb_nonneg f l). destruct (decide (0 < countb f l)) as [Hp|]; [|lia].
  apply countb_pos in Hp as (p & c & Hp & Hc). rewrite (H p c Hp) in Hc. done.
Qed.

Lemma countb_replicate {A} (f : A -> bool) n x : countb f (replicate n x) = if f x then Z.of_nat n else 0.
Proof. unfold countb. induction n as [|n IH]; simpl; [by destruct (f x)|]. destruct (f x); simpl; lia. Qed.

Lemma countb_app {A} (f : A -> bool) l l' : countb f (l ++ l') = countb f l + countb f l'.
Proof. unfold countb. rewrite List.filter_app, length_app. lia. Qed.

Lemma countb_take_S {A} (f : A -> bool) l i c : l !! i = Some c ->
  countb f (take (S i) l) = countb f (take i l) + Z.b2z (f c) /\ countb f (take (S i) l) <= countb f l.
Proof.
  intros Hi. split.
  - rewrite (take_S_r _ _ _ Hi), countb_app. f_equal. unfold countb. simpl. by destruct (f c).
  - rewrite <-(take_drop (S i) l) at 2. rewrite countb_app. pose proof (countb_nonneg f (drop (S i) l)). lia.
Qed.

(** equal counts position by position *)
Lemma countb_ext {A B} (f : A -> bool) (f' : B -> bool) l l' : length l = length l' ->
  (forall p c c', l !! p = Some c -> l' !! p = Some c' -> f c = f' c') -> countb f l = countb f' l'.
Proof.
  unfold countb. revert l'. induction l as [|a l IH]; intros [|b l'] L H; simpl in *; try done.
  rewrite (H 0%nat a b eq_refl eq_refl). specialize (IH l' ltac:(lia) (fun p => H (S p))).
  destruct (f' b); simpl; lia.
Qed.

Lemma countb_split cs : Forall slot_byte cs ->
  countb IsFull cs + countb IsDeleted cs + countb IsEmpty cs = Z.of_nat (length cs).
Proof.
  unfold countb. induction 1 as [|c cs Hc Hcs IH]; [done|]. simpl.
  destruct Hc as [->|[->|Hc]]; simpl; try lia.
  replace (IsFull c) with true by (unfold IsFull; lia). replace (IsDeleted c) with false by (unfold IsDeleted, kDeleted; lia).
  replace (IsEmpty c) with false by (unfold IsEmpty, kEmpty; lia). simpl. lia.
Qed.

(** the two elements of a list exchanged *)
Definition list_swap {A} (i q : nat) (l : list A) : list A :=
  match l !! i, l !! q with Some x, Some y => <[q := x]> (<[i := y]> l) | _, _ => l end.

Definition swap_pos (i q p : nat) : nat := if decide (p = i) then q else if decide (p = q) then i else p.

Lemma swap_pos_inj i q p p' : swap_pos i q p = swap_pos i q p' -> p = p'.
Proof. unfold swap_pos. repeat case_decide; lia. Qed.

Lemma swap_pos_invol i q p : swap_pos i q (swap_pos i q p) = p.
Proof. unfold swap_pos. repeat case_decide; lia. Qed.

Lemma list_swap_lookup {A} i q (l : list A) p : (i < length l)%nat -> (q < length l)%nat ->
  list_swap i q l !! p = l !! swap_pos i q p.
Proof.
  intros Hi Hq. apply lookup_lt_is_Some in Hi as Hi'. apply lookup_lt_is_Some in Hq as Hq'.
  destruct Hi' as [x Ex], Hq' as [y Ey]. unfold list_swap, swap_pos. rewrite Ex, Ey.
  destruct (decide (p = q)) as [->|].
  - rewrite list_lookup_insert_eq by (by rewrite length_insert). case_decide; congruence.
  - rewrite list_lookup_insert_ne by done. destruct (decide (p = i)) as [->|].
    + by rewrite list_lookup_insert_eq.
    + by rewrite list_lookup_insert_ne.
Qed.

Lemma length_list_swap {A} i q (l : list A) : length (list_swap i q l) = length l.
Proof. unfold list_swap. destruct (l !! i), (l !! q); rewrite ?length_insert; done. Qed.

Lemma Forall_list_swap {A} (P : A -> Prop) i q l : Forall P l -> Forall P (list_swap i q l).
Proof.
  intros H. unfold list_swap. destruct (l !! i) as [x|] eqn:Ex; [|done]. destruct (l !! q) as [y|] eqn:Ey; [|done].
  apply Forall_insert; [apply Forall_insert; [done|]|]; eapply Forall_lookup_1; done.
Qed.

(** a lookup in an updated list *)
Ltac upd_lookup H :=
  let Hlt := fresh "Hlt" in let Hne := fresh "Hne" in let E := fresh "E" in
  apply list_lookup_insert_Some in H as [(<- & E & Hlt)|(Hne & H)];
  [try match type of E with _ = ?y => is_var y; subst y end|].

Section Placed.
Context `{GOk : GroupOk} {K V : Type} `{!EqDecision K} (hash : K -> Z).
Implicit Types (slots : list (option (K * V))) (cs : list Z).

Abbreviation placed := (placed (V := V) hash).

(** *** The groups a probe passes *)

Lemma blocked_weaken cs o : blocked true cs o -> blocked false cs o.
Proof. intros [Hs HB]. split; [done|]. intros q c Hq Hw ->. by specialize (HB q kEmpty Hq Hw). Qed.

Lemma reach_weaken d cs h p : reach true cs h p -> reach d cs h p.
Proof.
  intros (j & Hj & Hw & HB). exists j. split_and!; [lia..|done|]. intros j' Hj'.
  destruct d; [by apply HB|by apply blocked_weaken, HB].
Qed.

(** reachability depends on which groups a probe passes *)
Lemma reach_mono d cs cs' h p : length cs' = length cs ->
  (forall o, 0 <= o <= Z.of_nat (length cs) -> blocked d cs o -> blocked d cs' o) ->
  reach d cs h p -> reach d cs' h p.
Proof.
  intros L H (j & Hj & Hw & HB). exists j. rewrite L. split_and!; [lia..|done|].
  intros j' Hj'. apply H; [apply probe_off_range|by apply HB].
Qed.

Lemma blocked_full d cs o p h : 0 <= h -> blocked d cs o -> blocked d (<[p := h]> cs) o.
Proof.
  intros Hh [Hs HB]. split; rewrite length_insert; [done|]. intros q c Hq Hw. upd_lookup Hq; [|by apply (HB q)].
  destruct d; unfold IsEmptyOrDeleted, kSentinel, kEmpty; lia.
Qed.

Lemma reach_full d cs p' h p c : 0 <= c -> reach d cs h p -> reach d (<[p' := c]> cs) h p.
Proof. intros Hc. apply reach_mono; [apply length_insert|]. intros o _. by apply blocked_full. Qed.


(** *** Placing an element *)

Lemma placed_insert d slots cs p c k v : placed d slots cs ->
  cs !! p = Some c -> slots !! p = Some None -> (forall q v, slots !! q <> Some (Some (k, v))) ->
  reach true cs (hash k) p ->
  placed d (<[p := Some (k, v)]> slots) (<[p := H2 (hash k)]> cs).
Proof.
  intros HP Hp Hs Hnew Hr. pose proof (H2_range (hash k)) as Hh.
  split; rewrite ?length_insert.
  - by apply (placed_cap _ _ _ _ HP).
  - apply Forall_insert; [apply (placed_bytes _ _ _ _ HP)|apply slot_byte_H2].
  - apply (placed_slots _ _ _ _ HP).
  - intros q c' Hq Hf. upd_lookup Hq.
    + exists k, v. split; [|done]. apply list_lookup_insert_eq. by apply lookup_lt_Some in Hs.
    + destruct (placed_full _ _ _ _ HP q c' Hq Hf) as (k' & v' & Hs' & E). exists k', v'.
      by rewrite list_lookup_insert_ne.
  - intros q Hq. upd_lookup Hq; [unfold kDeleted in *; lia|].
    pose proof (placed_deleted _ _ _ _ HP q Hq) as Hd. rewrite list_lookup_insert_ne by done. by destruct d.
  - intros q Hq. upd_lookup Hq; [unfold kEmpty in *; lia|].
    rewrite list_lookup_insert_ne by done. by apply (placed_empty _ _ _ _ HP).
  - intros q q' k' v1 v2 Hs1 Hs2. apply list_lookup_insert_Some in Hs1 as [(<- & E1 & _)|(_ & Hs1)];
      apply list_lookup_insert_Some in Hs2 as [(<- & E2 & _)|(_ & Hs2)]; simplify_eq; try done.
    + by apply Hnew in Hs2.
    + by apply Hnew in Hs1.
    + by apply (placed_uniq _ _ _ _ HP q q' k' v1 v2).
  - intros q c' k' v' Hq Hf Hs'. upd_lookup Hq.
    + rewrite list_lookup_insert_eq in Hs' by (by apply lookup_lt_Some in Hs). injection Hs' as <- <-.
      by apply reach_full, reach_weaken.
    + rewrite list_lookup_insert_ne in Hs' by done. apply reach_full; [lia|].
      by apply (placed_reach _ _ _ _ HP q c' k' v').
Qed.
(** *** Erasing an element *)

(** The byte of an erased element may become empty if every group that
    contains it stops a probe anyway, and deleted in any case. *)
Lemma placed_erase slots cs p c b : placed false slots cs -> cs !! p = Some c -> 0 <= c ->
  b = kDeleted \/ b = kEmpty /\ (forall o, 0 <= o <= Z.of_nat (length cs) -> inwin (length cs) o p -> ~ blocked false cs o) ->
  placed false (<[p := None]> slots) (<[p := b]> cs).
Proof.
  intros HP Hp Hc Hb. assert (b = kDeleted \/ b = kEmpty) as Hb' by tauto.
  assert (b < 0) as Hneg by (unfold kDeleted, kEmpty in Hb'; lia).
  assert (p < length slots)%nat as Hlt by (rewrite (placed_slots _ _ _ _ HP); by apply lookup_lt_Some in Hp).
  assert (forall q c k v, <[p := b]> cs !! q = Some c -> 0 <= c -> <[p := None]> slots !! q = Some (Some (k, v)) ->
    cs !! q = Some c /\ slots !! q = Some (Some (k, v))) as Hold.
  { intros q c' k v Hq Hf Hs. upd_lookup Hq; [lia|]. by rewrite list_lookup_insert_ne in Hs. }
  split; rewrite ?length_insert.
  - by apply (placed_cap _ _ _ _ HP).
  - apply Forall_insert; [apply (placed_bytes _ _ _ _ HP)|]. unfold slot_byte. tauto.
  - apply (placed_slots _ _ _ _ HP).
  - intros q c' Hq Hf. upd_lookup Hq; [lia|]. rewrite list_lookup_insert_ne by done.
    by apply (placed_full _ _ _ _ HP q c').
  - intros q Hq. upd_lookup Hq; [by apply list_lookup_insert_eq|]. rewrite list_lookup_insert_ne by done.
    by apply (placed_deleted _ _ _ _ HP q).
  - intros q Hq. upd_lookup Hq; [by apply list_lookup_insert_eq|]. rewrite list_lookup_insert_ne by done.
    by apply (placed_empty _ _ _ _ HP q).
  - intros q q' k' v1 v2 Hs1 Hs2. upd_lookup Hs1; [done|]. upd_lookup Hs2; [done|].
    by apply (placed_uniq _ _ _ _ HP q q' k' v1 v2).
  - intros q c' k v Hq Hf Hs. destruct (Hold q c' k v Hq Hf Hs) as [Hq' Hs'].
    apply (reach_mono _ cs); [apply length_insert| |by apply (placed_reach _ _ _ _ HP q c' k v)].
    intros o Ho [Hsm HB]. split; rewrite length_insert; [done|]. intros r c'' Hr Hw. upd_lookup Hr; [|by apply (HB r)].
    destruct Hb as [->|[-> Hw']]; [done|]. exfalso. by apply (Hw' o Ho Hw).
Qed.

(** *** Assigning a value *)

Lemma placed_assign d slots cs p k v v' : placed d slots cs -> slots !! p = Some (Some (k, v)) ->
  placed d (<[p := Some (k, v')]> slots) cs.
Proof.
  intros HP Hp. pose proof (lookup_lt_Some _ _ _ Hp) as Hlt.
  assert (forall q k1 v1, <[p := Some (k, v')]> slots !! q = Some (Some (k1, v1)) ->
    exists v2, slots !! q = Some (Some (k1, v2))) as Hold.
  { intros q k1 v1 Hq. apply list_lookup_insert_Some in Hq as [(<- & [= <- <-] & _)|(_ & Hq)]; eauto. }
  split; rewrite ?length_insert; try apply HP.
  - intros q c Hq Hf. destruct (placed_full _ _ _ _ HP q c Hq Hf) as (k1 & v1 & Hs & E).
    destruct (decide (p = q)) as [<-|]; [|rewrite list_lookup_insert_ne by done; eauto].
    rewrite list_lookup_insert_eq by done. rewrite Hp in Hs. injection Hs as <- <-. eauto.
  - intros q Hq. pose proof (placed_deleted _ _ _ _ HP q Hq) as Hd.
    destruct (decide (p = q)) as [<-|]; [|by rewrite list_lookup_insert_ne].
    rewrite list_lookup_insert_eq by done. destruct d; [eauto|]. congruence.
  - intros q Hq. pose proof (placed_empty _ _ _ _ HP q Hq) as Hd.
    destruct (decide (p = q)) as [<-|]; [congruence|by rewrite list_lookup_insert_ne].
  - intros q q' k1 v1 v2 (w1 & H1)%Hold (w2 & H2)%Hold. by apply (placed_uniq _ _ _ _ HP q q' k1 w1 w2).
  - intros q c k1 v1 Hq Hf (w & Hs)%Hold. by apply (placed_reach _ _ _ _ HP q c k1 w).
Qed.

(** *** Fresh arrays *)

Lemma placed_reset d n : cap_ok n -> placed d (replicate n None) (replicate n kEmpty).
Proof.
  intros Hn. assert (forall p c, replicate n kEmpty !! p = Some c -> c = kEmpty) as He
    by (intros p c H; by apply lookup_replicate in H as [-> _]).
  assert (forall p (e : K * V), replicate n None !! p <> Some (Some e)) as Hs
    by (intros p e H; by apply lookup_replicate in H as [? _]).
  split; rewrite ?length_replicate; try done.
  - apply Forall_replicate. by left.
  - intros p c Hp%He Hf. unfold kEmpty in Hp. lia.
  - intros p Hp%He. done.
  - intros p Hp. apply lookup_lt_Some in Hp. rewrite length_replicate in Hp. by apply lookup_replicate_2.
  - intros p q k v v' Hp. by apply Hs in Hp.
  - intros p c k v _ _ Hp. by apply Hs in Hp.
Qed.

(** *** Dropping tombstones *)

Definition convert_byte (c : Z) : Z := if IsFull c then kDeleted else kEmpty.

(** all elements become unplaced *)
Lemma placed_convert slots cs : placed false slots cs -> placed true slots (convert_byte <$> cs).
Proof.
  intros HP.
  assert (forall p c, (convert_byte <$> cs) !! p = Some c ->
    exists c0, cs !! p = Some c0 /\ slot_byte c0 /\ (0 <= c0 /\ c = kDeleted \/ c0 < 0 /\ c = kEmpty)) as Hc.
  { intros p c. rewrite list_lookup_fmap. destruct (cs !! p) as [c0|] eqn:E; [|done]. intros [= <-]. exists c0.
    split_and!; [done|by apply (Forall_lookup_1 _ _ _ _ (placed_bytes _ _ _ _ HP) E)|].
    unfold convert_byte, IsFull. destruct (Z.leb_spec 0 c0); auto. }
  split; rewrite ?length_fmap; try apply HP.
  - apply Forall_lookup_2. intros p c (c0 & _ & _ & [[_ ->]|[_ ->]])%Hc; unfold slot_byte; auto.
  - intros p c (c0 & _ & _ & [[_ ->]|[_ ->]])%Hc; done.
  - intros p (c0 & Hp & _ & [[Hf _]|[_ ?]])%Hc; [|done].
    destruct (placed_full _ _ _ _ HP p c0 Hp Hf) as (k & v & Hs & _). eauto.
  - intros p (c0 & Hp & Hb & [[_ ?]|[Hf _]])%Hc; [done|].
    destruct Hb as [->|[->|?]]; [by apply (placed_empty _ _ _ _ HP)|by apply (placed_deleted _ _ _ _ HP)|lia].
  - intros p c k v (c0 & _ & _ & [[_ ->]|[_ ->]])%Hc; done.
Qed.

Lemma placed_done slots cs : placed true slots cs -> (forall p, cs !! p <> Some kDeleted) -> placed false slots cs.
Proof.
  intros HP Hno. split; try apply HP.
  - intros p Hp. by apply Hno in Hp.
  - intros p c k v Hp Hf Hs. destruct (placed_reach _ _ _ _ HP p c k v Hp Hf Hs) as (j & Hj & Hw & HB).
    exists j. split_and!; [lia..|done|]. intros j' Hj'. by apply blocked_weaken, HB.
Qed.

(** a group that is passed when a free slot is searched has no free slot *)
Lemma blocked_swap cs i q o ci cq : cs !! i = Some ci -> cs !! q = Some cq ->
  IsEmptyOrDeleted ci = true -> IsEmptyOrDeleted cq = true ->
  blocked true cs o -> blocked true (list_swap i q cs) o.
Proof.
  intros Hi Hq Ei Eq [Hs HB]. split; rewrite length_list_swap; [done|]. intros p c Hp Hw.
  rewrite list_swap_lookup in Hp by (by eapply lookup_lt_Some). unfold swap_pos in Hp.
  destruct (decide (p = i)) as [->|]; [specialize (HB i ci Hi Hw); simpl in HB; congruence|].
  destruct (decide (p = q)) as [->|]; [specialize (HB q cq Hq Hw); simpl in HB; congruence|].
  by apply (HB p).
Qed.

(** unplaced elements and free slots can be exchanged *)
Lemma placed_swap slots cs i q ci cq : placed true slots cs -> cs !! i = Some ci -> cs !! q = Some cq ->
  IsEmptyOrDeleted ci = true -> IsEmptyOrDeleted cq = true ->
  placed true (list_swap i q slots) (list_swap i q cs).
Proof.
  intros HP Hi Hq Ei Eq. pose proof (lookup_lt_Some _ _ _ Hi) as Li. pose proof (lookup_lt_Some _ _ _ Hq) as Lq.
  pose proof (placed_slots _ _ _ _ HP) as L.
  assert (forall p, list_swap i q cs !! p = cs !! swap_pos i q p) as Ec by (intros p; by apply list_swap_lookup).
  assert (forall p, list_swap i q slots !! p = slots !! swap_pos i q p) as Es by (intros p; apply list_swap_lookup; lia).
  split; rewrite ?length_list_swap; try apply HP.
  - apply Forall_list_swap, HP.
  - intros p c. rewrite Ec, Es. apply (placed_full _ _ _ _ HP).
  - intros p. rewrite Ec, Es. apply (placed_deleted _ _ _ _ HP).
  - intros p. rewrite Ec, Es. apply (placed_empty _ _ _ _ HP).
  - intros p p' k v v'. rewrite !Es. intros H1 H2. eapply swap_pos_inj, (placed_uniq _ _ _ _ HP); done.
  - intros p c k v. rewrite Ec, Es. intros Hp Hf Hs.
    apply (reach_mono _ cs); [apply length_list_swap|intros o _; by eapply blocked_swap|].
    pose proof (placed_reach _ _ _ _ HP _ c k v Hp Hf Hs) as Hr. unfold swap_pos in Hp, Hr.
    destruct (decide (p = i)) as [->|].
    { rewrite Hq in Hp. injection Hp as ->. unfold IsEmptyOrDeleted, kSentinel in Eq. lia. }
    destruct (decide (p = q)) as [->|]; [|done].
    rewrite Hi in Hp. injection Hp as ->. unfold IsEmptyOrDeleted, kSentinel in Ei. lia.
Qed.

(** an element that is where a search for a free slot ends is placed *)
Lemma placed_mark slots cs i k v : placed true slots cs -> cs !! i = Some kDeleted ->
  slots !! i = Some (Some (k, v)) -> reach true cs (hash k) i -> placed true slots (<[i := H2 (hash k)]> cs).
Proof.
  intros HP Hi Hs Hr. pose proof (H2_range (hash k)) as Hh. split; rewrite ?length_insert; try apply HP.
  - apply Forall_insert; [apply HP|apply slot_byte_H2].
  - intros p c Hp Hf. upd_lookup Hp; [by exists k, v|]. by apply (placed_full _ _ _ _ HP p c).
  - intros p Hp. upd_lookup Hp; [unfold kDeleted in *; lia|]. by apply (placed_deleted _ _ _ _ HP p).
  - intros p Hp. upd_lookup Hp; [unfold kEmpty in *; lia|]. by apply (placed_empty _ _ _ _ HP p).
  - intros p c k' v' Hp Hf Hs'. apply reach_full; [lia|]. upd_lookup Hp.
    + rewrite Hs in Hs'. by injection Hs' as <- <-.
    + by apply (placed_reach _ _ _ _ HP p c k' v').
Qed.

End Placed.
