(* ===== verification/SwissResize.v ===== *)
(** * phmap: growing and rehashing

    The invariant of a table ([inv]), and that [resize] and
    [drop_deletes_without_resize] keep the elements and establish it. *)

From S2P Require Import Prelude.
From S2P Require Import Simd.
From S2P Require Import SwissGroup.
From S2P Require Import SwissGroupOk.
From S2P Require Import SwissTable.
From S2P Require Import SwissProbe.
From S2P Require Import SwissInv.
From S2P Require Import SwissPlaced.

Section Resize.
Context `{GOk : GroupOk} {K V : Type} `{!EqDecision K} (hash : K -> Z) (alloc : Z -> bool) (junk : Z).
Implicit Types (t : table K V) (cs : list Z).

Abbreviation core := (core (V := V) hash).
Abbreviation W := (Z.to_nat kWidth).

(** ** Capacity and growth *)

Definition growth (n : nat) : Z :=
  if (kWidth =? 8) && (Z.of_nat n =? 7) then 6 else Z.of_nat n - Z.of_nat n / 8.

Lemma CapacityToGrowth_eq n : cap_ok n -> CapacityToGrowth (Z.of_nat n) = Ok (growth n).
Proof.
  intros Hn. unfold CapacityToGrowth, growth. rewrite cap_valid by done. cbn [assert mbind res_bind].
  by destruct ((kWidth =? 8) && (Z.of_nat n =? 7)).
Qed.

(** small tables may be full, the others keep an empty slot *)
Lemma growth_bounds n : cap_ok n -> 1 <= growth n <= Z.of_nat n /\
  (small n -> growth n = Z.of_nat n) /\ (~ small n -> growth n < Z.of_nat n).
Proof.
  intros Hn. pose proof (cap_bounds n Hn) as Hb. unfold growth, small.
  assert (Z.of_nat n = 1 \/ Z.of_nat n = 3 \/ Z.of_nat n = 7 \/ 15 <= Z.of_nat n) as Hc.
  { destruct Hn as (k & Hk & E). assert (k = 1 \/ k = 2 \/ k = 3 \/ 4 <= k) as [->|[->|[->|H4]]] by lia.
    1-3: simpl in E; lia. pose proof (Z.pow_le_mono_r 2 4 k). lia. }
  assert (0 <= Z.of_nat n / 8) by (apply Z.div_pos; lia).
  destruct Hc as [E|[E|[E|E]]].
  1-3: rewrite E; destruct kWidth_cases as [->| ->]; cbn [andb Z.eqb Pos.eqb]; change (1 / 8) with 0; change (3 / 8) with 0; change (7 / 8) with 0; lia.
  assert (Z.of_nat n / 8 <= Z.of_nat n - 1) by (apply Z.div_le_upper_bound; lia).
  assert (1 <= Z.of_nat n / 8) by (apply Z.div_le_lower_bound; lia).
  destruct (Z.eqb_spec (Z.of_nat n) 7); [lia|]. rewrite andb_false_r. destruct kWidth_cases as [->| ->]; lia.
Qed.

(** ** The invariant *)

Record inv t cs : Prop := {
  inv_core : core false t cs;
  inv_size : size_ t = countb IsFull cs;
  inv_growth : growth_left t = growth (length cs) - countb IsFull cs - countb IsDeleted cs;
  inv_growth_nonneg : 0 <= growth_left t;
  inv_small : small (length cs) -> countb IsDeleted cs = 0
}.

Lemma inv_cap t cs : inv t cs -> cap_ok (length cs).
Proof. intros H. apply (core_cap _ _ _ _ (inv_core _ _ H)). Qed.

Lemma inv_split t cs : inv t cs -> countb IsFull cs + countb IsDeleted cs + countb IsEmpty cs = Z.of_nat (length cs).
Proof. intros H. apply countb_split, (core_bytes _ _ _ _ (inv_core _ _ H)). Qed.

(** every lookup ends *)
Lemma inv_has_empty t cs : inv t cs -> has_empty cs.
Proof.
  intros H. destruct (decide (small (length cs))) as [Hs|Hs]; [by left|right].
  pose proof (inv_split t cs H). pose proof (inv_growth t cs H). pose proof (inv_growth_nonneg t cs H).
  destruct (growth_bounds _ (inv_cap t cs H)) as (_ & _ & Hg). specialize (Hg Hs).
  destruct (countb_pos IsEmpty cs) as (p & c & Hp & E%Z.eqb_eq); [lia|]. subst c. by exists p.
Qed.

(** a table with no free slot is small *)
Lemma inv_free t cs : inv t cs -> 0 < growth_left t -> exists q c, cs !! q = Some c /\ IsEmptyOrDeleted c = true.
Proof.
  intros H Hg. pose proof (inv_split t cs H). pose proof (inv_growth t cs H).
  destruct (growth_bounds _ (inv_cap t cs H)) as (Hb & _).
  destruct (countb_pos IsEmpty cs) as (p & c & Hp & E%Z.eqb_eq); [lia|]. subst c. by exists p, kEmpty.
Qed.


(** ** Fresh tables *)

Lemma rep_ctrl_fresh n ctrl : length ctrl = (n + W + 1)%nat ->
  exists c, storeu ctrl 0 (replicate (n + W) kEmpty) = Ok c /\
    exists c', wr c (Z.of_nat n) kSentinel = Ok c' /\ rep_ctrl (replicate n kEmpty) c'.
Proof.
  intros L. pose proof W_cases as HW. rewrite storeu_Ok by (rewrite ?length_replicate; lia). eexists. split; [done|].
  rewrite length_replicate. cbn [Z.to_nat]. rewrite take_0, Nat.add_0_l, app_nil_l.
  assert (length (replicate (n + W) kEmpty ++ drop (n + W) ctrl) = (n + W + 1)%nat) as L'
    by (rewrite length_app, length_replicate, length_drop; lia).
  rewrite wr_Ok by lia. eexists. split; [done|]. rewrite Nat2Z.id. split; rewrite length_replicate; [by rewrite length_insert|].
  intros p Hp. unfold byte_at. rewrite length_replicate.
  destruct (decide (p = n)) as [->|Hne].
  - rewrite list_lookup_insert_eq by lia. destruct (Nat.leb_spec n n); [|lia].
    by rewrite (lookup_ge_None_2 (replicate n kEmpty)) by (by rewrite length_replicate).
  - rewrite list_lookup_insert_ne, lookup_app_l, lookup_replicate_2 by (rewrite ?length_replicate; lia).
    destruct (Nat.leb_spec p n).
    + by rewrite lookup_replicate_2 by lia.
    + destruct (replicate n kEmpty !! (p - S n)%nat) as [x|] eqn:E; [|done]. by apply lookup_replicate in E as [-> _].
Qed.

Lemma reset_ctrl_spec t n : cap_ok n -> capacity_ t = Z.of_nat n -> length (ctrl_ t) = (n + W + 1)%nat ->
  exists c, reset_ctrl t = Ok (upd_ctrl c t) /\ rep_ctrl (replicate n kEmpty) c.
Proof.
  intros Hn Ec L. unfold reset_ctrl. rewrite Ec. pose proof W_cases as HW.
  replace (Z.to_nat (Z.of_nat n + kWidth)) with (n + W)%nat by lia.
  destruct (rep_ctrl_fresh n (ctrl_ t) L) as (c & -> & c' & E & Hr). cbn [mbind res_bind]. rewrite E.
  by exists c'.
Qed.

Lemma core_reset d t n : cap_ok n -> capacity_ t = Z.of_nat n -> slots_ t = replicate n None ->
  rep_ctrl (replicate n kEmpty) (ctrl_ t) -> core d t (replicate n kEmpty).
Proof.
  intros Hn Ec Es Hr. split; rewrite ?length_replicate, ?Es; [done|done|by apply placed_reset].
Qed.

Lemma initialize_slots_spec t n : cap_ok n -> capacity_ t = Z.of_nat n ->
  exists t', initialize_slots junk t = Ok t' /\ core false t' (replicate n kEmpty) /\
    slots_ t' = replicate n None /\ size_ t' = size_ t /\ growth_left t' = u64 (growth n - size_ t).
Proof.
  intros Hn Ec. unfold initialize_slots. pose proof (cap_bounds n Hn). pose proof W_cases as HW. rewrite Ec.
  replace (Z.of_nat n =? 0) with false by lia. rewrite cap_valid by done. cbn [negb assert mbind res_bind].
  set (t0 := Table K V _ _ _ _ _).
  destruct (reset_ctrl_spec t0 n Hn eq_refl) as (c & E & Hr); [cbn; rewrite length_replicate; lia|].
  rewrite E. cbn [mbind res_bind]. unfold reset_growth_left. cbn [capacity_ upd_ctrl t0].
  rewrite CapacityToGrowth_eq by done. cbn [mbind res_bind]. eexists. split; [done|]. cbn.
  rewrite Nat2Z.id. split_and!; [|done..]. apply core_reset; [done|done| |done].
  cbn. by rewrite Nat2Z.id.
Qed.

(** ** Placing an element in a free slot *)

Lemma has_insert (slots : list (option (K * V))) p k v k' v' : slots !! p = Some None ->
  (exists q, <[p := Some (k, v)]> slots !! q = Some (Some (k', v'))) <->
  (k' = k /\ v' = v) \/ exists q, slots !! q = Some (Some (k', v')).
Proof.
  intros Hp. split.
  - intros [q Hq]. apply list_lookup_insert_Some in Hq as [(<- & [= <- <-] & _)|(_ & Hq)]; eauto.
  - intros [[-> ->]|[q Hq]].
    + exists p. apply list_lookup_insert_eq. by apply lookup_lt_Some in Hp.
    + exists q. rewrite list_lookup_insert_ne; [done|]. congruence.
Qed.

Lemma place_free t cs k : core false t cs -> (exists q c, cs !! q = Some c /\ IsEmptyOrDeleted c = true) ->
  (forall v, ~ has t k v) ->
  exists p c ctrl', find_first_non_full t (hash k) = Ok (Z.of_nat p) /\
    cs !! p = Some c /\ IsEmptyOrDeleted c = true /\ slots_ t !! p = Some None /\
    (forall t', ctrl_ t' = ctrl_ t -> capacity_ t' = capacity_ t ->
       set_ctrl t' (Z.of_nat p) (H2 (hash k)) = Ok (upd_ctrl ctrl' t')) /\
    rep_ctrl (<[p := H2 (hash k)]> cs) ctrl' /\
    forall v, placed hash false (<[p := Some (k, v)]> (slots_ t)) (<[p := H2 (hash k)]> cs).
Proof.
  intros Hc Hfree Hnew. destruct (first_non_full_spec _ _ _ _ Hc (hash k) Hfree) as (p & c & Ef & Hp & Ec & Hr).
  pose proof (lookup_lt_Some _ _ _ Hp) as Hlt.
  destruct (set_ctrl_rep t cs p (H2 (hash k)) (core_cap _ _ _ _ Hc) (core_capacity _ _ _ _ Hc) (core_ctrl _ _ _ _ Hc) Hlt)
    as (ctrl' & Es & Hr').
  assert (slots_ t !! p = Some None) as Hs.
  { destruct (slot_byte_cases c (core_byte _ _ _ _ Hc p c Hp)) as [[_ ?]|[[-> _]|[-> _]]]; [congruence| |].
    - by apply (placed_empty _ _ _ _ (core_placed _ _ _ _ Hc)).
    - by apply (placed_deleted _ _ _ _ (core_placed _ _ _ _ Hc)). }
  exists p, c, ctrl'. split_and!; [done..| |done|].
  - intros t' E1 E2. unfold set_ctrl in *. rewrite E1, E2. destruct (assert _); [|done]. cbn [mbind res_bind] in *.
    destruct (wr (ctrl_ t) _ _) as [c1|]; [|done]. cbn [mbind res_bind] in *.
    destruct (wr c1 _ _) as [c2|]; [|done]. cbn [mbind res_bind] in *. injection Es as Es. by rewrite Es.
  - intros v. eapply placed_insert; [apply (core_placed _ _ _ _ Hc)|done|done| |done]. intros q v' Hq. apply (Hnew v'). by exists q.
Qed.

Lemma countb_place cs p c h : cs !! p = Some c -> IsEmptyOrDeleted c = true -> slot_byte c -> 0 <= h ->
  countb IsFull (<[p := h]> cs) = countb IsFull cs + 1 /\
  countb IsDeleted (<[p := h]> cs) = countb IsDeleted cs - (if IsEmpty c then 0 else 1) /\
  IsDeleted c = negb (IsEmpty c).
Proof.
  intros Hp Ec Hb Hh. rewrite !(countb_insert _ _ _ _ _ Hp).
  replace (IsFull h) with true by (unfold IsFull; lia). replace (IsDeleted h) with false by (unfold IsDeleted, kDeleted; lia).
  destruct (slot_byte_cases c Hb) as [[_ ?]|[[-> _]|[-> _]]]; [congruence| |]; simpl; lia.
Qed.

(** ** [resize] *)

Lemma resize_one_spec old_ctrl old_slots i c t cs :
  core false t cs -> countb IsDeleted cs = 0 -> old_ctrl !! i = Some c ->
  (IsFull c = true -> exists k v, old_slots !! i = Some (Some (k, v)) /\ (forall v', ~ has t k v') /\
     countb IsFull cs < Z.of_nat (length cs)) ->
  (IsFull c = false -> forall e, old_slots !! i <> Some (Some e)) ->
  exists t' cs', resize_one hash old_ctrl old_slots (Z.of_nat i) t = Ok t' /\ core false t' cs' /\
    length cs' = length cs /\ countb IsDeleted cs' = 0 /\ countb IsFull cs' = countb IsFull cs + Z.b2z (IsFull c) /\
    size_ t' = size_ t /\ growth_left t' = growth_left t /\
    forall k v, has t' k v <-> old_slots !! i = Some (Some (k, v)) \/ has t k v.
Proof.
  intros Hc Hd Hi Hf Hnf. unfold resize_one. rewrite (rd_nat _ _ _ Hi). cbn [mbind res_bind].
  destruct (IsFull c) eqn:Ef.
  - destruct (Hf eq_refl) as (k & v & Hs & Hnew & Hroom). clear Hf Hnf.
    unfold element. rewrite (rd_nat _ _ _ Hs). cbn [mbind res_bind of_option fst].
    destruct (place_free t cs k Hc) as (p & c' & ctrl' & E1 & Hp & Ec & Hsp & E2 & Hr & HP); [|done|].
    { pose proof (countb_split cs (core_bytes _ _ _ _ Hc)).
      destruct (countb_pos IsEmpty cs) as (p & c' & Hp & E%Z.eqb_eq); [lia|]. subst c'. by exists p, kEmpty. }
    rewrite E1. cbn [mbind res_bind]. rewrite (E2 t) by done. cbn [mbind res_bind slots_ upd_ctrl].
    pose proof (lookup_lt_Some _ _ _ Hsp). rewrite wr_Ok by lia. cbn [mbind res_bind].
    destruct (countb_place cs p c' (H2 (hash k)) Hp Ec (core_byte _ _ _ _ Hc p c' Hp) ltac:(apply H2_range)) as (N1 & N2 & N3).
    eexists _, (<[p := H2 (hash k)]> cs). split; [done|]. rewrite Nat2Z.id. split_and!.
    + split; cbn [ctrl_ slots_ capacity_ upd_slots upd_ctrl]; rewrite ?length_insert; [apply (core_capacity _ _ _ _ Hc)|done|apply HP].
    + apply length_insert.
    + rewrite N2, Hd. assert (IsDeleted c' = false) as Hd' by (by apply (countb_zero IsDeleted cs Hd p)).
      rewrite N3 in Hd'. apply negb_false_iff in Hd'. by rewrite Hd'.
    + rewrite N1. simpl. lia.
    + done.
    + done.
    + intros k' v'. unfold has. cbn [slots_ upd_slots upd_ctrl]. rewrite has_insert by done. rewrite Hs. naive_solver.
  - exists t, cs. split_and!; [done..|simpl; lia|done|done|]. intros k v. split; [auto|]. intros [Hs|?]; [|done].
    by apply Hnf in Hs.
Qed.

(** the arrays a table is rebuilt from *)
Record source (ctrl : list Z) (slots : list (option (K * V))) (ocs : list Z) : Prop := {
  src_ctrl p c : ocs !! p = Some c -> ctrl !! p = Some c;
  src_slots : length slots = length ocs;
  src_full p c : ocs !! p = Some c -> IsFull c = true -> exists k v, slots !! p = Some (Some (k, v));
  src_free p c : ocs !! p = Some c -> IsFull c = false -> forall e, slots !! p <> Some (Some e);
  src_uniq p q k v v' : slots !! p = Some (Some (k, v)) -> slots !! q = Some (Some (k, v')) -> p = q
}.

Lemma core_source t cs : core false t cs -> source (ctrl_ t) (slots_ t) cs.
Proof.
  intros Hc. pose proof (core_placed _ _ _ _ Hc) as HP. split.
  - intros p c Hp. pose proof (lookup_lt_Some _ _ _ Hp). rewrite (proj2 (core_ctrl _ _ _ _ Hc)) by lia.
    unfold byte_at. destruct (Nat.leb_spec p (length cs)); [|lia]. by rewrite Hp.
  - apply (core_slots _ _ _ _ Hc).
  - intros p c Hp Hf. destruct (core_full_elem _ _ _ _ Hc p c Hp Hf) as (k & v & _ & Hs & _). eauto.
  - intros p c Hp Hf [k v] Hs. destruct (core_has_full _ t cs p k v Hc Hs) as (c' & Hp' & Hf').
    rewrite Hp in Hp'. injection Hp' as <-. unfold IsFull in Hf. lia.
  - apply (placed_uniq _ _ _ _ HP).
Qed.

Lemma resize_loop_spec old_ctrl old_slots ocs n : source old_ctrl old_slots ocs -> forall i t cs,
  (i + n = length ocs)%nat -> core false t cs -> countb IsDeleted cs = 0 ->
  countb IsFull cs = countb IsFull (take i ocs) -> countb IsFull ocs <= Z.of_nat (length cs) ->
  (forall k v, has t k v <-> exists p, (p < i)%nat /\ old_slots !! p = Some (Some (k, v))) ->
  exists t' cs', resize_loop hash old_ctrl old_slots n (Z.of_nat i) t = Ok t' /\ core false t' cs' /\
    length cs' = length cs /\ countb IsDeleted cs' = 0 /\ countb IsFull cs' = countb IsFull ocs /\
    size_ t' = size_ t /\ growth_left t' = growth_left t /\
    forall k v, has t' k v <-> exists p, old_slots !! p = Some (Some (k, v)).
Proof.
  intros Hsrc. induction n as [|n IH]; intros i t cs Hi Hc Hd Hn Hroom Hhas; cbn [resize_loop].
  - exists t, cs. rewrite take_ge in Hn by lia. split_and!; try done. intros k v. rewrite Hhas. split; [naive_solver|].
    intros [p Hp]. exists p. split; [|done]. apply lookup_lt_Some in Hp. rewrite (src_slots _ _ _ Hsrc) in Hp. lia.
  - destruct (lookup_lt_is_Some_2 ocs i) as [c Hp]; [lia|]. destruct (countb_take_S IsFull ocs i c Hp) as [N1 N2].
    destruct (resize_one_spec old_ctrl old_slots i c t cs Hc Hd) as (t1 & cs1 & E & Hc1 & L1 & Hd1 & Hn1 & Hs1 & Hg1 & Hh1).
    + by apply (src_ctrl _ _ _ Hsrc).
    + intros Hf. rewrite Hf in N1. simpl in N1. destruct (src_full _ _ _ Hsrc i c Hp Hf) as (k & v & Hs). exists k, v.
      split_and!; [done| |lia]. intros v' (p & Hlt & Hp')%Hhas.
      pose proof (src_uniq _ _ _ Hsrc i p k v v' Hs Hp'). lia.
    + intros Hf. by apply (src_free _ _ _ Hsrc i c Hp).
    + rewrite E. cbn [mbind res_bind].
      destruct (IH (S i) t1 cs1) as (t' & cs' & E' & Hc' & L' & Hd' & Hn' & Hs' & Hg' & Hh'); [lia|done|done|lia|lia| |].
      * intros k v. rewrite Hh1, Hhas. split.
        -- intros [?|(p & Hlt & ?)]; [exists i|exists p]; (split; [lia|done]).
        -- intros (p & Hlt & Hs). destruct (decide (p = i)) as [->|]; [by left|right]. exists p. split; [lia|done].
      * replace (Z.of_nat i + 1) with (Z.of_nat (S i)) by lia. exists t', cs'. split_and!; [done..| | | | | |];
          by rewrite ?Hs', ?Hg', ?L'.
Qed.

(** [resize] keeps the elements, provided that they fit; a failed allocation changes nothing *)
Lemma resize_table_spec t ocs n : source (ctrl_ t) (slots_ t) ocs -> capacity_ t = Z.of_nat (length ocs) ->
  cap_ok n -> countb IsFull ocs <= Z.of_nat n ->
  exists t' ok, resize hash alloc junk t (Z.of_nat n) = Ok (t', ok) /\
    if ok : bool then
      exists cs', core false t' cs' /\ length cs' = n /\ countb IsDeleted cs' = 0 /\ countb IsFull cs' = countb IsFull ocs /\
        size_ t' = size_ t /\ growth_left t' = u64 (growth n - size_ t) /\ forall k v, has t' k v <-> has t k v
    else t' = t /\ alloc (Z.of_nat n) = false.
Proof.
  intros Hsrc Ec Hn Hroom. unfold resize. rewrite cap_valid by done. cbn [assert mbind res_bind].
  destruct (alloc (Z.of_nat n)); [|by exists t, false].
  destruct (initialize_slots_spec (Table K V (ctrl_ t) (slots_ t) (size_ t) (Z.of_nat n) (growth_left t)) n Hn eq_refl)
    as (t1 & E1 & Hc1 & Es1 & Hs1 & Hg1). rewrite E1. cbn [mbind res_bind size_] in *.
  destruct (resize_loop_spec (ctrl_ t) (slots_ t) ocs (length ocs) Hsrc 0%nat t1 (replicate n kEmpty))
    as (t' & cs' & E & Hc' & L' & Hd' & Hn' & Hs' & Hg' & Hh'); [done|done| | | | |].
  - by rewrite countb_replicate.
  - rewrite take_0, countb_replicate. done.
  - by rewrite length_replicate.
  - intros k v. unfold has. rewrite Es1. split; [|intros (p & ? & _); lia].
    intros [p Hp]. by apply lookup_replicate in Hp as [? _].
  - rewrite Ec, Nat2Z.id. change (Z.of_nat 0) with 0 in E. rewrite E. cbn [mbind res_bind]. exists t', true. split; [done|].
    exists cs'. rewrite length_replicate in L'. split_and!; [done..|congruence|congruence|done].
Qed.

(** a table of a new capacity is well-formed if the elements fit its load factor *)
Lemma resize_inv t ocs n : source (ctrl_ t) (slots_ t) ocs -> capacity_ t = Z.of_nat (length ocs) ->
  size_ t = countb IsFull ocs -> cap_ok n -> countb IsFull ocs <= growth n ->
  exists t' ok, resize hash alloc junk t (Z.of_nat n) = Ok (t', ok) /\
    if ok : bool then
      exists cs', inv t' cs' /\ length cs' = n /\ countb IsDeleted cs' = 0 /\ countb IsFull cs' = countb IsFull ocs /\
        forall k v, has t' k v <-> has t k v
    else t' = t /\ alloc (Z.of_nat n) = false.
Proof.
  intros Hsrc Ec Hs Hn Hroom. destruct (growth_bounds n Hn) as (Hb & _).
  destruct (resize_table_spec t ocs n Hsrc Ec Hn ltac:(lia)) as (t' & ok & E & H). exists t', ok. split; [done|].
  destruct ok; [|done]. destruct H as (cs' & Hc & L & Hd & Hf & Hs' & Hg & Hh). exists cs'. split_and!; [|done..].
  pose proof (cap_bounds n Hn). pose proof (countb_nonneg IsFull ocs).
  assert (growth_left t' = growth n - countb IsFull ocs) as Hg' by (rewrite Hg, Hs; apply wrapu_id; unfold inu; lia).
  split; [done|congruence|rewrite L, Hf, Hd; lia|lia|done].
Qed.

End Resize.
