(* ===== verification/SwissDrop.v ===== *)
(** * phmap: dropping tombstones in place

    [drop_deletes_without_resize] ends, keeps the elements, removes the
    tombstones and re-establishes the invariant. *)

From S2P Require Import Prelude.
From S2P Require Import Simd.
From S2P Require Import SwissGroup.
From S2P Require Import SwissGroupOk.
From S2P Require Import SwissTable.
From S2P Require Import SwissProbe.
From S2P Require Import SwissInv.
From S2P Require Import SwissPlaced.
From S2P Require Import SwissResize.

Section Drop.
Context `{GOk : GroupOk} {K V : Type} `{!EqDecision K} (hash : K -> Z).
Implicit Types (t : table K V) (cs : list Z).

Abbreviation core := (core (V := V) hash).
Abbreviation inv := (inv (V := V) hash).
Abbreviation W := (Z.to_nat kWidth).

(** ** Converting the control bytes *)

(** the bytes before [n] are converted *)
Definition converted (n : nat) (ctrl : list Z) : list Z := (convert_byte <$> take n ctrl) ++ drop n ctrl.

Lemma converted_step n ctrl : (n + W <= length ctrl)%nat -> Forall ctrl_ok (take (n + W) ctrl) ->
  exists g, group_at (converted n ctrl) (Z.of_nat n) = Ok g /\
    storeu (converted n ctrl) (Z.of_nat n) (ConvertSpecialToEmptyAndFullToDeleted g) = Ok (converted (n + W) ctrl).
Proof.
  intros Hl Hok. pose proof W_cases as HW. exists (take W (drop n ctrl)).
  assert (length (convert_byte <$> take n ctrl) = n) as L1 by (rewrite length_fmap, length_take; lia).
  assert (length (take W (drop n ctrl)) = W) as L2 by (rewrite length_take, length_drop; lia).
  assert (take (n + W) ctrl = take n ctrl ++ take W (drop n ctrl)) as Et by (by rewrite take_take_drop).
  unfold group_at, converted. split.
  - rewrite loadu_Ok by (rewrite ?length_app, ?L1, ?length_drop; lia). rewrite Nat2Z.id.
    by rewrite drop_app_length'.
  - rewrite Convert_ok; [| lia |]. 2:{ rewrite Et, Forall_app in Hok. by apply Hok. }
    pose proof (storeu_mid (convert_byte <$> take n ctrl) (take W (drop n ctrl)) (convert_byte <$> take W (drop n ctrl))
      (drop W (drop n ctrl)) ltac:(by rewrite length_fmap)) as E.
    rewrite take_drop, L1 in E. fold convert_byte. rewrite E. f_equal. rewrite Et, fmap_app, <-app_assoc. do 2 f_equal.
    by rewrite drop_drop.
Qed.

Lemma convert_loop_spec ctrl n (M : nat) fuel (j : nat) :
  S n = (W * M)%nat -> (j <= M)%nat -> (M - j <= fuel)%nat -> (S n <= length ctrl)%nat -> Forall ctrl_ok (take (S n) ctrl) ->
  convert_loop fuel (Z.of_nat n) (converted (W * j) ctrl) (Z.of_nat (W * j)) = Ok (converted (S n) ctrl).
Proof.
  intros HM. pose proof W_cases as HW. revert j. induction fuel as [|fuel IH]; intros j Hj Hf Hl Hok; cbn [convert_loop].
  - replace (Z.of_nat (W * j) =? Z.of_nat n + 1) with true by (symmetry; apply Z.eqb_eq; nia).
    by replace (W * j)%nat with (S n) by nia.
  - destruct (Z.eqb_spec (Z.of_nat (W * j)) (Z.of_nat n + 1)) as [E|E].
    { by replace (W * j)%nat with (S n) by lia. }
    assert (j < M)%nat by nia. assert (W * j + W <= S n)%nat by nia.
    destruct (converted_step (W * j) ctrl) as (g & Eg & Es); [lia| |].
    { replace (W * j + W)%nat with ((W * j + W) `min` S n)%nat by lia. rewrite <-take_take. by apply Forall_take. }
    rewrite Eg. cbn [mbind res_bind]. rewrite Es. cbn [mbind res_bind].
    replace (Z.of_nat (W * j) + kWidth) with (Z.of_nat (W * S j)) by nia.
    replace (W * j + W)%nat with (W * S j)%nat by lia. apply IH; [lia|lia|done|done].
Qed.

Lemma convert_spec cs ctrl : cap_ok (length cs) -> ~ small (length cs) -> Forall slot_byte cs -> rep_ctrl cs ctrl ->
  exists c, ConvertDeletedToEmptyAndFullToDeleted ctrl (Z.of_nat (length cs)) = Ok c /\ rep_ctrl (convert_byte <$> cs) c.
Proof.
  intros Hn Hs Hb [L Hr]. pose proof W_cases as HW. set (n := length cs) in *.
  destruct (cap_width n Hn) as [[? _]|[_ [b Eb]]]; [done|]. unfold small in Hs.
  assert (ctrl !! n = Some kSentinel) as Hsent.
  { rewrite Hr by lia. unfold byte_at. fold n. destruct (Nat.leb_spec n n); [|lia]. by rewrite lookup_ge_None_2. }
  unfold ConvertDeletedToEmptyAndFullToDeleted. rewrite (rd_nat _ _ _ Hsent). cbn [mbind res_bind].
  rewrite cap_valid by done. cbn [assert mbind res_bind Z.eqb].
  assert (forall p, (p < n)%nat -> exists c, cs !! p = Some c /\ ctrl !! p = Some c) as Hcs.
  { intros p Hp. destruct (lookup_lt_is_Some_2 cs p Hp) as [c Hc]. exists c. split; [done|]. rewrite Hr by lia.
    unfold byte_at. fold n. destruct (Nat.leb_spec p n); [|lia]. by rewrite Hc. }
  assert (Forall ctrl_ok (take (S n) ctrl)) as Hok.
  { apply Forall_lookup_2. intros p c Hp. pose proof (lookup_lt_Some _ _ _ Hp) as Hlt. rewrite length_take in Hlt.
    rewrite lookup_take_lt in Hp by lia. destruct (decide (p = n)) as [->|].
    - rewrite Hsent in Hp. injection Hp as <-. unfold ctrl_ok. auto.
    - destruct (Hcs p ltac:(lia)) as (c' & Hc' & E). rewrite E in Hp. injection Hp as ->.
      apply (Forall_lookup_1 _ _ _ _ Hb) in Hc'. unfold slot_byte in Hc'. unfold ctrl_ok. tauto. }
  pose proof (convert_loop_spec ctrl n (2 ^ b) (Z.to_nat (Z.of_nat n + 1)) 0) as E.
  rewrite Nat.mul_0_r in E. change (converted 0 ctrl) with ctrl in E. change (Z.of_nat 0) with 0 in E.
  assert (Z.of_nat (2 ^ b) = 2 ^ Z.of_nat b) as Eb' by (by rewrite Nat2Z.inj_pow).
  rewrite E; [|nia|lia|nia|lia|done]. clear E. cbn [mbind res_bind].
  set (c1 := converted (S n) ctrl).
  assert (length c1 = (n + W + 1)%nat) as L1.
  { unfold c1, converted. rewrite length_app, length_fmap, length_take, length_drop. lia. }
  assert (forall p, (p < n)%nat -> c1 !! p = (convert_byte <$> cs) !! p) as Hc1.
  { intros p Hp. destruct (Hcs p Hp) as (c & Hc & Hc'). unfold c1, converted.
    rewrite lookup_app_l by (rewrite length_fmap, length_take; lia).
    rewrite !list_lookup_fmap, lookup_take_lt by lia. by rewrite Hc, Hc'. }
  unfold group_at. rewrite loadu_Ok by lia. cbn [mbind res_bind].
  assert (length (take W (drop (Z.to_nat 0) c1)) = W) as Lg by (rewrite length_take, length_drop; lia).
  rewrite storeu_Ok by lia. cbn [mbind res_bind]. rewrite Lg. change (drop (Z.to_nat 0) c1) with c1 in *.
  replace (Z.to_nat (Z.of_nat n + 1)) with (S n) by lia.
  assert (length (take (S n) c1) = S n) as Lt by (rewrite length_take; lia).
  rewrite wr_Ok by (rewrite !length_app, Lt, Lg, length_drop; lia). rewrite Nat2Z.id. eexists. split; [done|].
  split; rewrite length_fmap; fold n.
  { rewrite length_insert, !length_app, Lt, Lg, length_drop. lia. }
  intros p Hp. unfold byte_at. rewrite length_fmap. fold n.
  destruct (decide (p = n)) as [->|Hne].
  - rewrite list_lookup_insert_eq by (rewrite !length_app, Lt, Lg, length_drop; lia).
    destruct (Nat.leb_spec n n); [|lia]. by rewrite lookup_ge_None_2 by (by rewrite length_fmap).
  - rewrite list_lookup_insert_ne by done. destruct (Nat.leb_spec p n).
    + rewrite lookup_app_l, lookup_take_lt, Hc1 by lia.
      destruct (lookup_lt_is_Some_2 (convert_byte <$> cs) p) as [x ->]; [rewrite length_fmap; fold n; lia|done].
    + rewrite lookup_app_r by lia. rewrite Lt, lookup_app_l by lia. rewrite lookup_take_lt, Hc1 by lia.
      destruct (lookup_lt_is_Some_2 (convert_byte <$> cs) (p - S n)) as [x ->]; [rewrite length_fmap; fold n; lia|done].
Qed.

(** ** One slot *)

(** two positions with the same group number are in the same groups of the sequence *)
Lemma probe_index_inwin t cs h j p i : core true t cs -> ~ small (length cs) ->
  inwin (length cs) (probe_off (length cs) h j) p ->
  probe_index t (probe_at (length cs) h 0) (Z.of_nat p) = probe_index t (probe_at (length cs) h 0) (Z.of_nat i) ->
  inwin (length cs) (probe_off (length cs) h j) i.
Proof.
  intros Hc Hs Hw E. pose proof W_cases as HW. unfold probe_index in E.
  rewrite (core_capacity _ _ _ _ Hc), !land_u64_cap in E by apply (core_cap _ _ _ _ Hc).
  set (N := Z.of_nat (length cs) + 1) in *. cbn [probe_at offset_] in E.
  destruct (cap_width _ (core_cap _ _ _ _ Hc)) as [[? _]|[_ [b Eb]]]; [done|]. fold N in Eb.
  assert (0 < kWidth) as Hw0 by lia. assert (kWidth <> 0) as Hw1 by lia.
  pose proof (Z.pow_pos_nonneg 2 (Z.of_nat b) ltac:(lia) ltac:(lia)) as Hb0.
  set (M := 2 ^ Z.of_nat b) in *. assert (M <> 0) as Hb1 by lia. set (o := probe_off (length cs) h 0) in *.
  assert (probe_off (length cs) h j = (o + kWidth * tri j) mod N) as Eo.
  { unfold o, probe_off. fold N. rewrite Z.add_mod_idemp_l by lia. f_equal. change (tri 0) with 0. lia. }
  assert (forall q : nat, ((Z.of_nat q - probe_off (length cs) h j) mod N) =
    kWidth * (((Z.of_nat q - o) mod N / kWidth - tri j) mod M) + (Z.of_nat q - o) mod N mod kWidth) as Hq.
  { intros q. rewrite Eo, Zminus_mod_idemp_r.
    replace (Z.of_nat q - (o + kWidth * tri j)) with (Z.of_nat q - o - kWidth * tri j) by lia.
    rewrite <-Zminus_mod_idemp_l. set (x := (Z.of_nat q - o) mod N).
    pose proof (Z.div_mod x kWidth Hw1) as Ex. pose proof (Z.mod_pos_bound x kWidth Hw0) as Hr.
    pose proof (Z.mod_pos_bound (x / kWidth - tri j) M Hb0) as Ha.
    pose proof (Z.div_mod (x / kWidth - tri j) M Hb1) as Ea.
    symmetry. apply (Z.mod_unique_pos _ _ ((x / kWidth - tri j) / M)); [nia|]. rewrite Eb. nia. }
  unfold inwin in *. fold N in Hw |- *. rewrite Hq in Hw |- *. rewrite <-E.
  pose proof (Z.mod_pos_bound ((Z.of_nat p - o) mod N) kWidth Hw0).
  pose proof (Z.mod_pos_bound ((Z.of_nat i - o) mod N) kWidth Hw0).
  pose proof (Z.mod_pos_bound ((Z.of_nat p - o) mod N / kWidth - tri j) M Hb0). nia.
Qed.

Lemma has_swap (slots : list (option (K * V))) i q e : (i < length slots)%nat -> (q < length slots)%nat ->
  (exists p, list_swap i q slots !! p = Some (Some e)) <-> exists p, slots !! p = Some (Some e).
Proof.
  intros Hi Hq. split; intros [p Hp]; exists (swap_pos i q p).
  - by rewrite list_swap_lookup in Hp.
  - by rewrite list_swap_lookup, swap_pos_invol.
Qed.

(** the states of the loop: unplaced elements are marked deleted, none before [i] *)
Record dropping t cs (i : nat) (S : Z) (H : K -> V -> Prop) : Prop := {
  drop_core : core true t cs;
  drop_big : ~ small (length cs);
  drop_front p : (p < i)%nat -> cs !! p <> Some kDeleted;
  drop_count : countb IsFull cs + countb IsDeleted cs = S;
  drop_has k v : has t k v <-> H k v
}.

Lemma countb_swap {A} (f : A -> bool) i q l : countb f (list_swap i q l) = countb f l.
Proof.
  unfold list_swap. destruct (l !! i) as [x|] eqn:Ei; [|done]. destruct (l !! q) as [y|] eqn:Eq; [|done].
  destruct (decide (i = q)) as [->|Hne].
  - rewrite Ei in Eq. injection Eq as <-. rewrite (list_insert_id l) by done. by rewrite list_insert_id.
  - rewrite (countb_insert f _ q y) by (by rewrite list_lookup_insert_ne). rewrite (countb_insert f l i x) by done. lia.
Qed.

(** the element of slot [i] moves to [q], what was at [q] to [i] *)
Lemma dropping_place t t' cs i i' q c k v S H : dropping t cs i S H ->
  cs !! i = Some kDeleted -> slots_ t !! i = Some (Some (k, v)) ->
  cs !! q = Some c -> IsEmptyOrDeleted c = true -> reach true cs (hash k) q ->
  capacity_ t' = capacity_ t -> slots_ t' = list_swap i q (slots_ t) ->
  rep_ctrl (<[q := H2 (hash k)]> (list_swap i q cs)) (ctrl_ t') ->
  (i' = i \/ i' = Datatypes.S i /\ (q = i \/ c = kEmpty)) ->
  dropping t' (<[q := H2 (hash k)]> (list_swap i q cs)) i' S H /\
  countb IsDeleted (<[q := H2 (hash k)]> (list_swap i q cs)) = countb IsDeleted cs - 1.
Proof.
  intros [Hc Hbig Hfront Hcount Hhas] Hi Hs Hq Ec Hr E1 E2 E3 Hi'. pose proof (core_placed _ _ _ _ Hc) as HP.
  pose proof (lookup_lt_Some _ _ _ Hi) as Li. pose proof (lookup_lt_Some _ _ _ Hq) as Lq.
  pose proof (placed_slots _ _ _ _ HP) as L. pose proof (H2_range (hash k)) as Hh.
  assert (list_swap i q cs !! q = Some kDeleted) as Hsq.
  { rewrite list_swap_lookup by done. unfold swap_pos. case_decide as E; [congruence|]. by rewrite decide_True. }
  pose proof (placed_swap hash (slots_ t) cs i q kDeleted c HP Hi Hq eq_refl Ec) as HP1.
  assert (placed hash true (slots_ t') (<[q := H2 (hash k)]> (list_swap i q cs))) as HP2.
  { rewrite E2. apply (placed_mark hash _ _ q k v HP1); [done| |].
    - rewrite list_swap_lookup by lia. unfold swap_pos. case_decide as E; [congruence|]. by rewrite decide_True.
    - eapply (reach_mono true cs); [apply length_list_swap| |done]. intros o _. by apply (blocked_swap cs i q o kDeleted c). }
  assert (countb IsDeleted (<[q := H2 (hash k)]> (list_swap i q cs)) = countb IsDeleted cs - 1) as Nd.
  { rewrite (countb_insert _ _ _ _ _ Hsq), countb_swap.
    replace (IsDeleted (H2 (hash k))) with false by (unfold IsDeleted, kDeleted; lia). simpl. lia. }
  assert (countb IsFull (<[q := H2 (hash k)]> (list_swap i q cs)) = countb IsFull cs + 1) as Nf.
  { rewrite (countb_insert _ _ _ _ _ Hsq), countb_swap.
    replace (IsFull (H2 (hash k))) with true by (unfold IsFull; lia). simpl. lia. }
  split; [|done]. split.
  - split; [|done|done]. by rewrite length_insert, length_list_swap, E1, (core_capacity _ _ _ _ Hc).
  - by rewrite length_insert, length_list_swap.
  - intros p Hp Hd. upd_lookup Hd; [unfold kDeleted in *; lia|]. rewrite list_swap_lookup in Hd by done.
    unfold swap_pos in Hd. case_decide as E; [|case_decide; [by subst|by apply (Hfront p); [lia|]]].
    subst p. rewrite Hq in Hd. injection Hd as ->. destruct Hi' as [->|[-> [->|?]]]; [lia|done|done].
  - lia.
  - intros k' v'. rewrite <-Hhas. unfold has. rewrite E2. apply has_swap; lia.
Qed.

Lemma list_swap_id {A} i (l : list A) : list_swap i i l = l.
Proof. unfold list_swap. destruct (l !! i) eqn:E; [|done]. by rewrite !(list_insert_id l). Qed.

Lemma core_rd d t cs p c : core d t cs -> cs !! p = Some c -> rd (ctrl_ t) (Z.of_nat p) = Ok c.
Proof.
  intros Hc Hp. pose proof (lookup_lt_Some _ _ _ Hp). pose proof W_cases. apply rd_nat.
  rewrite (proj2 (core_ctrl _ _ _ _ Hc)) by lia. unfold byte_at.
  destruct (Nat.leb_spec p (length cs)); [|lia]. by rewrite Hp.
Qed.

(** the slot is skipped, or one more element is placed *)
Lemma drop_step_spec t cs i S H : dropping t cs i S H -> (i < length cs)%nat ->
  exists t' again cs', drop_step hash t (Z.of_nat i) = Ok (t', again) /\ length cs' = length cs /\ size_ t' = size_ t /\
    dropping t' cs' (if again : bool then i else Datatypes.S i) S H /\
    countb IsDeleted cs' <= countb IsDeleted cs - (if again then 1 else 0).
Proof.
  intros HD Hi. pose proof (drop_core _ _ _ _ _ HD) as Hc. pose proof (core_placed _ _ _ _ Hc) as HP.
  destruct (lookup_lt_is_Some_2 cs i Hi) as [c Hci].
  unfold drop_step. rewrite (core_rd _ _ _ _ _ Hc Hci). cbn [mbind res_bind].
  destruct (decide (c = kDeleted)) as [->|Hnd].
  2:{ unfold IsDeleted. replace (c =? kDeleted) with false by lia. cbn [negb]. exists t, false, cs.
      split_and!; [done..| |lia]. destruct HD as [H1 H2 H3 H4 H5]. split; try done.
      intros p Hp. destruct (decide (p = i)) as [->|]; [congruence|apply H3; lia]. }
  change (IsDeleted kDeleted) with true. cbn [negb].
  destruct (placed_deleted _ _ _ _ HP i Hci) as [[k v] Hs]. unfold element. rewrite (rd_nat _ _ _ Hs). cbn [mbind res_bind of_option fst].
  destruct (first_non_full_spec _ _ _ _ Hc (hash k)) as (q & c & Ef & Hq & Ec & Hr); [by exists i, kDeleted|].
  rewrite Ef. cbn [mbind res_bind]. rewrite (core_probe _ _ _ _ Hc). cbn [mbind res_bind].
  pose proof (lookup_lt_Some _ _ _ Hq) as Lq. pose proof (placed_slots _ _ _ _ HP) as L.
  pose proof (fun p h => set_ctrl_rep t cs p h (core_cap _ _ _ _ Hc) (core_capacity _ _ _ _ Hc) (core_ctrl _ _ _ _ Hc)) as Hset.
  destruct (Z.eqb_spec (probe_index t (probe_at (length cs) (H1 (hash k)) 0) (Z.of_nat q))
                       (probe_index t (probe_at (length cs) (H1 (hash k)) 0) (Z.of_nat i))) as [E|E].
  - destruct (Hset i (H2 (hash k)) Hi) as (c' & -> & Hr'). cbn [mbind res_bind].
    exists (upd_ctrl c' t), false, (<[i := H2 (hash k)]> cs).
    destruct (dropping_place t (upd_ctrl c' t) cs i (Datatypes.S i) i kDeleted k v S H) as [HD' Nd]; rewrite ?list_swap_id; auto.
    { destruct Hr as (j & Hj & Hw & HB). exists j. split_and!; [lia..| |done].
      by apply (probe_index_inwin t cs _ j q i Hc (drop_big _ _ _ _ _ HD)). }
    rewrite list_swap_id in HD', Nd. rewrite length_insert. split_and!; [done..|lia].
  - assert (q <> i) as Hne by congruence. rewrite (core_rd _ _ _ _ _ Hc Hq). cbn [mbind res_bind].
    destruct (Hset q (H2 (hash k)) Lq) as (c1 & E1 & Hr1).
    destruct (slot_byte_cases c (core_byte _ _ _ _ Hc q c Hq)) as [[_ ?]|[[-> _]|[-> _]]]; [congruence| |].
    + change (IsEmpty kEmpty) with true. rewrite E1. cbn [mbind res_bind slots_ upd_ctrl].
      rewrite wr_Ok by lia. cbn [mbind res_bind]. rewrite wr_Ok by (rewrite length_insert; lia). cbn [mbind res_bind].
      rewrite !Nat2Z.id. set (t1 := upd_slots _ _).
      destruct (set_ctrl_rep t1 (<[q := H2 (hash k)]> cs) i kEmpty) as (c2 & E2 & Hr2);
        [rewrite length_insert; apply (core_cap _ _ _ _ Hc)|rewrite length_insert; apply (core_capacity _ _ _ _ Hc)|done|by rewrite length_insert|].
      rewrite E2. cbn [mbind res_bind]. exists (upd_ctrl c2 t1), false, (<[i := kEmpty]> (<[q := H2 (hash k)]> cs)).
      assert (<[i := kEmpty]> (<[q := H2 (hash k)]> cs) = <[q := H2 (hash k)]> (list_swap i q cs)) as Ecs.
      { unfold list_swap. rewrite Hci, Hq, list_insert_insert_eq, list_insert_insert_ne by done. done. }
      rewrite Ecs in Hr2 |- *.
      destruct (dropping_place t (upd_ctrl c2 t1) cs i (Datatypes.S i) q kEmpty k v S H) as [HD' Nd]; auto.
      { cbn. unfold list_swap. rewrite Hs, (placed_empty _ _ _ _ HP q Hq), list_insert_insert_ne by done. done. }
      rewrite length_insert, length_list_swap. split_and!; [done..|lia].
    + change (IsEmpty kDeleted) with false. change (IsDeleted kDeleted) with true. cbn [assert mbind res_bind].
      rewrite E1. cbn [mbind res_bind slots_ upd_ctrl].
      destruct (placed_deleted _ _ _ _ HP q Hq) as [e' Hs']. rewrite (rd_nat _ _ _ Hs'). cbn [mbind res_bind of_option].
      rewrite wr_Ok by lia. cbn [mbind res_bind]. rewrite wr_Ok by (rewrite length_insert; lia). cbn [mbind res_bind].
      rewrite !Nat2Z.id. set (t1 := upd_slots _ _). exists t1, true, (<[q := H2 (hash k)]> cs).
      assert (list_swap i q cs = cs) as Ecs.
      { unfold list_swap. rewrite Hci, Hq. by rewrite !(list_insert_id cs). }
      destruct (dropping_place t t1 cs i i q kDeleted k v S H) as [HD' Nd]; rewrite ?Ecs; auto.
      { cbn. unfold list_swap. by rewrite Hs, Hs'. }
      rewrite Ecs in HD', Nd. rewrite length_insert. split_and!; [done..|lia].
Qed.

(** ** The loop *)

Lemma drop_loop_spec S H fuel : forall t cs i, dropping t cs i S H -> (i <= length cs)%nat ->
  Z.of_nat (length cs) - Z.of_nat i + countb IsDeleted cs <= Z.of_nat fuel ->
  exists t' cs', drop_loop hash fuel t (Z.of_nat i) = Ok t' /\ length cs' = length cs /\ size_ t' = size_ t /\
    dropping t' cs' (length cs') S H.
Proof.
  induction fuel as [|fuel IH]; intros t cs i HD Hi Hf; cbn [drop_loop];
    rewrite (core_capacity _ _ _ _ (drop_core _ _ _ _ _ HD)).
  all: destruct (Z.eqb_spec (Z.of_nat i) (Z.of_nat (length cs))) as [E|E];
    [exists t, cs; replace (length cs) with i by lia; split_and!; (done || lia)|].
  - pose proof (countb_nonneg IsDeleted cs). lia.
  - destruct (drop_step_spec t cs i S H HD ltac:(lia)) as (t1 & again & cs1 & E1 & L1 & Hs1 & HD1 & N1).
    rewrite E1. cbn [mbind res_bind fst snd].
    destruct (IH t1 cs1 (if again then i else Datatypes.S i) HD1) as (t' & cs' & E' & L' & Hs' & HD').
    + destruct again; lia.
    + destruct again; lia.
    + replace (Z.of_nat (if again then i else Datatypes.S i)) with (if again then Z.of_nat i else Z.of_nat i + 1) in E' by (destruct again; lia).
      exists t', cs'. split_and!; [done|lia|congruence|done].
Qed.

(** [drop_deletes_without_resize] removes the tombstones and keeps the elements *)
Lemma drop_deletes_spec t cs : inv t cs -> ~ small (length cs) ->
  exists t' cs', drop_deletes_without_resize hash t = Ok t' /\ inv t' cs' /\ length cs' = length cs /\
    countb IsDeleted cs' = 0 /\ countb IsFull cs' = countb IsFull cs /\ forall k v, has t' k v <-> has t k v.
Proof.
  intros HI Hs. pose proof (inv_core _ _ _ HI) as Hc. pose proof (inv_cap _ _ _ HI) as Hn.
  pose proof (core_placed _ _ _ _ Hc) as HP. unfold drop_deletes_without_resize.
  rewrite (core_capacity _ _ _ _ Hc), cap_valid by done. unfold is_small. rewrite (core_capacity _ _ _ _ Hc).
  replace (Z.of_nat (length cs) <? kWidth - 1) with false by (unfold small in Hs; lia). cbn [negb assert mbind res_bind].
  destruct (convert_spec cs (ctrl_ t) Hn Hs (core_bytes _ _ _ _ Hc) (core_ctrl _ _ _ _ Hc)) as (c & -> & Hr). cbn [mbind res_bind].
  set (cs0 := convert_byte <$> cs) in *. assert (length cs0 = length cs) as L0 by apply length_fmap.
  assert (countb IsFull cs0 = 0) as Nf.
  { apply countb_zero_iff. intros p b. unfold cs0. rewrite list_lookup_fmap. destruct (cs !! p) as [b0|]; [|done].
    intros [= <-]. unfold convert_byte. by destruct (IsFull b0). }
  assert (countb IsDeleted cs0 = countb IsFull cs) as Nd.
  { apply countb_ext; [done|]. intros p b b' Hb Hb'. unfold cs0 in Hb. rewrite list_lookup_fmap, Hb' in Hb.
    injection Hb as <-. unfold convert_byte. by destruct (IsFull b'). }
  destruct (drop_loop_spec (countb IsFull cs) (has t) (drop_fuel t) (upd_ctrl c t) cs0 0) as (t1 & cs1 & E & L1 & Hs1 & HD).
  - split; rewrite ?L0; try done; [|lia|lia].
    split; rewrite ?L0; [apply (core_capacity _ _ _ _ Hc)|done|by apply placed_convert].
  - lia.
  - rewrite Nd, L0. pose proof (inv_split _ _ _ HI). pose proof (countb_nonneg IsDeleted cs). pose proof (countb_nonneg IsEmpty cs).
    unfold drop_fuel. rewrite (core_capacity _ _ _ _ Hc). lia.
  - change (Z.of_nat 0) with 0 in E. rewrite E. cbn [mbind res_bind]. destruct HD as [Hc1 _ Hfront Hcount Hhas].
    assert (forall p, cs1 !! p <> Some kDeleted) as Hno.
    { intros p Hp. pose proof (lookup_lt_Some _ _ _ Hp). by apply (Hfront p). }
    assert (countb IsDeleted cs1 = 0) as Nd1.
    { apply countb_zero_iff. intros p b Hb. unfold IsDeleted. apply Z.eqb_neq. intros ->. by apply Hno in Hb. }
    unfold reset_growth_left. rewrite (core_capacity _ _ _ _ Hc1), L1, L0, CapacityToGrowth_eq by done. cbn [mbind res_bind].
    eexists _, cs1. split; [done|]. rewrite Hs1. cbn [size_ upd_ctrl].
    pose proof (inv_growth _ _ _ HI) as Hg. pose proof (inv_growth_nonneg _ _ _ HI). pose proof (inv_size _ _ _ HI) as Hsz.
    pose proof (countb_nonneg IsDeleted cs). pose proof (countb_nonneg IsFull cs). pose proof (cap_bounds _ Hn).
    destruct (growth_bounds _ Hn) as (Hgb & _).
    assert (u64 (growth (length cs) - size_ t) = growth (length cs) - size_ t) as Eu by (apply wrapu_id; unfold inu; lia).
    split_and!; [|lia|done|lia|done]. cbn [size_ upd_ctrl] in Hs1.
    split; cbn [size_ growth_left upd_growth]; rewrite ?Eu, ?L1, ?L0; [|lia|lia|lia|done].
    split; [apply (core_capacity _ _ _ _ Hc1)|apply (core_ctrl _ _ _ _ Hc1)|].
    apply placed_done; [apply (core_placed _ _ _ _ Hc1)|done].
Qed.

End Drop.
