(* ===== verification/SwissMap.v ===== *)
(** * phmap: the operations of a table implement a finite map

    [wf] relates a table to the finite map of its elements; each operation is
    specified against it: insertion with growth, erasure, clearing, rehashing. *)

From S2P Require Import Prelude.
From S2P Require Import Simd.
From S2P Require Import SwissGroup.
From S2P Require Import SwissGroupOk.
From S2P Require Import SwissTable.
From S2P Require Import SwissProbe.
From S2P Require Import SwissInv.
From S2P Require Import SwissPlaced.
From S2P Require Import SwissResize.
From S2P Require Import SwissDrop.

(** ** Capacities *)

Lemma NormalizeCapacity_spec n : 0 <= n < 2 ^ 64 ->
  exists k, NormalizeCapacity n = Ok (2 ^ k - 1) /\ 1 <= k <= 64 /\ n <= 2 ^ k - 1 /\ (0 < n -> 2 ^ k <= 2 * n).
Proof.
  intros Hn. unfold NormalizeCapacity. destruct (Z.eqb_spec n 0) as [->|H0]; [by exists 1|].
  rewrite clz_eq. cbn [mbind res_bind]. exists (Z.log2 n + 1). unfold bit_length.
  destruct (Z.leb_spec n 0); [lia|]. pose proof (Z.log2_spec n ltac:(lia)) as Hl. pose proof (Z.log2_nonneg n).
  assert (Z.log2 n < 64) by (apply Z.log2_lt_pow2; lia).
  rewrite Z.shiftr_div_pow2 by lia. unfold Z.succ in Hl. split_and!; [|lia|lia|lia|].
  - f_equal. replace (64 - (Z.log2 n + 1)) with (64 - (Z.log2 n + 1)) by lia.
    set (a := Z.log2 n + 1) in *.
    assert (2 ^ 64 = 2 ^ a * 2 ^ (64 - a)) as E by (rewrite <-Z.pow_add_r by lia; f_equal; lia).
    pose proof (Z.pow_pos_nonneg 2 (64 - a)). pose proof (Z.pow_pos_nonneg 2 a).
    symmetry. apply (Z.div_unique_pos _ _ _ (2 ^ (64 - a) - 1)); lia.
  - intros _. rewrite Z.pow_add_r by lia. lia.
Qed.

Lemma pow2_valid k : 1 <= k <= 64 -> IsValidCapacity (2 ^ k - 1) = true.
Proof.
  intros Hk. unfold IsValidCapacity. replace (2 ^ k - 1 + 1) with (2 ^ k) by lia.
  pose proof (Z.pow_le_mono_r 2 1 k). rewrite land_pow2_mod by lia. unfold wrapu.
  replace (2 ^ k mod 2 ^ 64) with (if k =? 64 then 0 else 2 ^ k).
  2:{ destruct (Z.eqb_spec k 64) as [->|]; [done|]. symmetry. apply Z.mod_small.
      pose proof (Z.pow_lt_mono_r 2 k 64). lia. }
  apply andb_true_iff. split; [|lia]. apply Z.eqb_eq. destruct (k =? 64); [done|]. apply Z_mod_same_full.
Qed.

Section Map.
Context `{GOk : GroupOk} {K V : Type} `{Countable K} (hash : K -> Z) (alloc : Z -> bool) (junk : Z).
(** an allocation cannot exceed the address space *)
Hypothesis Halloc : forall n, alloc n = true -> n < 2 ^ 59 - 1.
Implicit Types (t : table K V) (cs : list Z) (m : gmap K V).

Abbreviation core := (core (V := V) hash).
Abbreviation inv := (inv (V := V) hash).
Abbreviation W := (Z.to_nat kWidth).

Definition represents t m : Prop := forall k v, m !! k = Some v <-> has t k v.

(** a table with the elements of a map: without memory, or with its invariant *)
Definition wf t m : Prop :=
  (t = new_table /\ m = ∅) \/ exists cs, inv t cs /\ represents t m.

(** ** Tables without memory *)

Lemma new_group : exists g, group_at EmptyGroup 0 = Ok g /\ Z.of_nat (length g) = kWidth /\ Forall ctrl_ok g /\
  g !! 0%nat = Some kSentinel /\ forall i c, g !! S i = Some c -> c = kEmpty.
Proof.
  unfold group_at, EmptyGroup. destruct W_cases as [[-> ->]|[-> ->]]; rewrite loadu_Ok by done; eexists; (split; [done|]);
    simpl; (split_and!; [done| |done|]).
  1,3: repeat (apply Forall_cons; split; [unfold ctrl_ok; auto|]); by apply Forall_nil.
  all: intros i c Hi; repeat (destruct i as [|i]; [by injection Hi as <-|]); done.
Qed.

Lemma new_probe h : probe (@new_table K V) h = Ok (ProbeSeq 0 0 0).
Proof. unfold probe, make_probe. cbn [capacity_ new_table]. by rewrite !Z.land_0_r. Qed.

Lemma find_new k : find hash (@new_table K V) k = Ok None.
Proof.
  unfold find, find_impl. rewrite new_probe. cbn [mbind res_bind probe_fuel capacity_ new_table Z.to_nat find_probes ctrl_ offset_ slots_].
  destruct new_group as (g & -> & Lg & Hok & H0 & HS). cbn [mbind res_bind].
  destruct (group_match g Lg Hok (H2 (hash k)) (H2_range _)) as (l & -> & _ & Hl). cbn [mbind res_bind].
  assert (l = []) as ->.
  { destruct l as [|z l]; [done|]. destruct (Hl z) as (i & c & _ & Hi & Hf); [by left|].
    destruct i as [|i]; [rewrite H0 in Hi; by injection Hi as <-|]. by rewrite (HS i c Hi) in Hf. }
  cbn [match_in mbind res_bind].
  assert (MatchEmpty g <> 0) as He.
  { apply (group_empty g Lg Hok). apply list_elem_of_lookup. exists 1%nat. pose proof W_cases.
    destruct (lookup_lt_is_Some_2 g 1) as [c Hc]; [lia|]. by rewrite Hc, (HS 0%nat c Hc). }
  by replace (MatchEmpty g =? 0) with false by lia.
Qed.

Lemma first_non_full_new h : find_first_non_full (@new_table K V) h = Ok 0.
Proof.
  unfold find_first_non_full. rewrite new_probe.
  cbn [mbind res_bind probe_fuel capacity_ new_table Z.to_nat first_non_full_loop ctrl_ offset_ slots_].
  destruct new_group as (g & -> & Lg & Hok & H0 & HS). cbn [mbind res_bind].
  destruct (group_first_eod g Lg Hok) as [(E & Hno)|(E & i & c & Ei & _)].
  - exfalso. pose proof W_cases. destruct (lookup_lt_is_Some_2 g 1) as [c Hc]; [lia|].
    specialize (Hno 1%nat c Hc). by rewrite (HS 0%nat c Hc) in Hno.
  - replace (MatchEmptyOrDeleted g =? 0) with false by lia. cbn [negb]. rewrite Ei. cbn [mbind res_bind].
    unfold offset_at. cbn [mask_ offset_]. by rewrite Z.land_0_r.
Qed.

Lemma new_source : source (ctrl_ (@new_table K V)) (slots_ (@new_table K V)) [].
Proof. split; done. Qed.

(** ** Lookup *)

Lemma find_wf t m k : wf t m ->
  exists r, find hash t k = Ok r /\
    match r with
    | Some i => exists p v, i = Z.of_nat p /\ slots_ t !! p = Some (Some (k, v)) /\ m !! k = Some v
    | None => m !! k = None
    end.
Proof.
  intros [[-> ->]|(cs & HI & HR)]; [exists None; split; [apply find_new|done]|].
  destruct (find_spec hash t cs k (inv_core _ _ _ HI) (inv_has_empty _ _ _ HI)) as (r & E & Hr). exists r. split; [done|].
  destruct r as [i|].
  - destruct Hr as (p & v & -> & Hp). exists p, v. split_and!; [done..|]. apply HR. by exists p.
  - destruct (m !! k) as [v|] eqn:Em; [|done]. apply HR in Em. by apply Hr in Em.
Qed.

(** ** Growing *)

Lemma resize_any t ocs k : source (ctrl_ t) (slots_ t) ocs -> capacity_ t = Z.of_nat (length ocs) ->
  size_ t = countb IsFull ocs -> 1 <= k <= 64 ->
  (alloc (2 ^ k - 1) = true -> countb IsFull ocs <= growth (Z.to_nat (2 ^ k - 1))) ->
  exists t' ok, resize hash alloc junk t (2 ^ k - 1) = Ok (t', ok) /\
    if ok : bool then
      exists cs', inv t' cs' /\ Z.of_nat (length cs') = 2 ^ k - 1 /\ countb IsDeleted cs' = 0 /\
        countb IsFull cs' = countb IsFull ocs /\ forall k v, has t' k v <-> has t k v
    else t' = t /\ alloc (2 ^ k - 1) = false.
Proof.
  intros Hsrc Ec Es Hk Hroom. destruct (alloc (2 ^ k - 1)) eqn:Ea.
  - pose proof (Halloc _ Ea) as Hlt. pose proof (Z.pow_le_mono_r 2 1 k).
    assert (k <= 59) by (destruct (Z.le_gt_cases k 59); [done|]; pose proof (Z.pow_lt_mono_r 2 59 k); lia).
    assert (cap_ok (Z.to_nat (2 ^ k - 1))) as Hn by (exists k; lia).
    destruct (resize_inv hash alloc junk t ocs _ Hsrc Ec Es Hn (Hroom eq_refl)) as (t' & ok & E & HI).
    rewrite Z2Nat.id in E, HI by lia. exists t', ok. split; [done|]. destruct ok; [|by rewrite Ea in HI].
    destruct HI as (cs' & ? & L & ? & ? & ?). exists cs'. split_and!; [done|lia|done..].
  - exists t, false. unfold resize. by rewrite pow2_valid, Ea.
Qed.

(** the growth of twice the capacity exceeds the capacity *)
Lemma growth_double n n' : cap_ok n -> cap_ok n' -> (2 * n + 1 <= n')%nat -> Z.of_nat n + 1 <= growth n'.
Proof.
  intros Hn Hn' Hle. pose proof (cap_bounds n Hn). unfold growth.
  assert (Z.of_nat n' / 8 <= Z.of_nat n' - Z.of_nat n - 1) by (apply Z.div_le_upper_bound; lia).
  destruct (Z.eqb_spec (Z.of_nat n') 7); [|rewrite andb_false_r; lia]. destruct (kWidth =? 8); simpl; lia.
Qed.

Lemma represents_ext t t' m : represents t m -> (forall k v, has t' k v <-> has t k v) -> represents t' m.
Proof. intros HR Hh k v. by rewrite Hh. Qed.

(** after growing, with the tombstones dropped or in new memory, there is room *)
Lemma grow_spec t m : wf t m -> growth_left t = 0 ->
  exists t' ok, rehash_and_grow_if_necessary hash alloc junk t = Ok (t', ok) /\
    if ok : bool then exists cs', inv t' cs' /\ represents t' m /\ 0 < growth_left t'
    else t' = t /\ alloc (2 * capacity_ t + 1) = false.
Proof.
  intros [[-> ->]|(cs & HI & HR)] Hg; unfold rehash_and_grow_if_necessary.
  - cbn [capacity_ new_table Z.eqb].
    destruct (resize_any new_table [] 1 new_source eq_refl eq_refl ltac:(lia)) as (t' & ok & E & Hok).
    { intros _. change (countb IsFull []) with 0.
      pose proof (growth_bounds (Z.to_nat (2 ^ 1 - 1)) ltac:(exists 1; lia)). lia. }
    exists t', ok. split; [done|]. destruct ok; [|done]. destruct Hok as (cs' & HI & L & Nd & Nf & Hh).
    exists cs'. split_and!; [done| |].
    + intros k v. rewrite lookup_empty, Hh. split; [done|]. by intros [p Hp].
    + rewrite (inv_growth _ _ _ HI), Nd, Nf. pose proof (growth_bounds _ (inv_cap _ _ _ HI)). change (countb IsFull []) with 0. lia.
  - pose proof (inv_core _ _ _ HI) as Hc. pose proof (inv_cap _ _ _ HI) as Hn. pose proof (cap_bounds _ Hn) as Hb.
    rewrite (core_capacity _ _ _ _ Hc). replace (Z.of_nat (length cs) =? 0) with false by lia.
    rewrite CapacityToGrowth_eq by done. cbn [mbind res_bind].
    pose proof (inv_growth _ _ _ HI) as Hgr. pose proof (inv_size _ _ _ HI) as Hs. pose proof (inv_split _ _ _ HI) as Hsp.
    pose proof (countb_nonneg IsEmpty cs). pose proof (countb_nonneg IsDeleted cs). pose proof (countb_nonneg IsFull cs).
    destruct (growth_bounds _ Hn) as (Hgb & Hgs & _).
    destruct (Z.leb_spec (size_ t) (growth (length cs) / 2)) as [Hle|Hgt].
    + assert (growth (length cs) / 2 < growth (length cs)) by (apply Z.div_lt; lia).
      assert (~ small (length cs)) as Hbig by (intros Hsm; pose proof (inv_small _ _ _ HI Hsm); lia).
      destruct (drop_deletes_spec hash t cs HI Hbig) as (t' & cs' & E & HI' & L & Nd & Nf & Hh). rewrite E. cbn [mbind res_bind].
      exists t', true. split; [done|]. exists cs'. split_and!; [done|by apply (represents_ext t)|].
      rewrite (inv_growth _ _ _ HI'), L, Nd, Nf. lia.
    + destruct Hn as (k & Hk & Ek). assert (2 ^ (k + 1) = 2 * 2 ^ k) as Ek1 by (rewrite Z.pow_add_r by lia; lia).
      assert (u64 (u64 (Z.of_nat (length cs) * 2) + 1) = 2 ^ (k + 1) - 1) as ->.
      { rewrite wrapu_add_l by done. rewrite wrapu_id; [lia|]. unfold inu. lia. }
      assert (forall n', Z.of_nat n' = 2 ^ (k + 1) - 1 -> cap_ok n' -> countb IsFull cs + 1 <= growth n') as Hroom.
      { intros n' En' Hn'. pose proof (growth_double (length cs) n' ltac:(exists k; lia) Hn' ltac:(lia)). lia. }
      destruct (resize_any t cs (k + 1) (core_source _ _ _ Hc) (core_capacity _ _ _ _ Hc) Hs ltac:(lia)) as (t' & ok & E & Hok).
      { intros Ha%Halloc. enough (cap_ok (Z.to_nat (2 ^ (k + 1) - 1))) as Hn'
          by (pose proof (Hroom (Z.to_nat (2 ^ (k + 1) - 1)) ltac:(lia) Hn'); lia).
        exists (k + 1). split; [|lia]. destruct (Z.le_gt_cases (k + 1) 59); [lia|].
        pose proof (Z.pow_lt_mono_r 2 59 (k + 1)). lia. }
      exists t', ok. split; [done|]. destruct ok.
      2:{ replace (2 * Z.of_nat (length cs) + 1) with (2 ^ (k + 1) - 1) by lia. done. }
      destruct Hok as (cs' & HI' & L & Nd & Nf & Hh).
      exists cs'. split_and!; [done|by apply (represents_ext t)|]. rewrite (inv_growth _ _ _ HI'), Nd, Nf.
      specialize (Hroom (length cs') L (inv_cap _ _ _ HI')). lia.
Qed.

(** ** Insertion *)

(** slot [p] is prepared for key [k]: once an element is constructed there, the table has it *)
Definition prepared t (p : nat) (k : K) m : Prop :=
  slots_ t !! p = Some None /\
  forall v, exists cs, inv (upd_slots (<[p := Some (k, v)]> (slots_ t)) t) cs /\
    represents (upd_slots (<[p := Some (k, v)]> (slots_ t)) t) (<[k := v]> m).

Lemma represents_insert t m p k v : represents t m -> m !! k = None -> slots_ t !! p = Some None ->
  represents (upd_slots (<[p := Some (k, v)]> (slots_ t)) t) (<[k := v]> m).
Proof.
  intros HR Hk Hp k' v'. unfold has. cbn [slots_ upd_slots]. rewrite has_insert by done.
  rewrite lookup_insert_Some, (HR k' v'). unfold has. split.
  - intros [[-> ->]|[_ ?]]; auto.
  - intros [[-> ->]|Hh]; [auto|]. right. split; [|done]. intros ->. apply HR in Hh. congruence.
Qed.

(** a free slot is found and taken, if the load factor allows it *)
Lemma occupy_spec t cs m k : inv t cs -> represents t m -> m !! k = None ->
  (exists q c, cs !! q = Some c /\ IsEmptyOrDeleted c = true) ->
  (forall p c, find_first_non_full t (hash k) = Ok (Z.of_nat p) -> cs !! p = Some c ->
     0 < growth_left t \/ IsDeleted c = true) ->
  exists p t', find_first_non_full t (hash k) = Ok (Z.of_nat p) /\ occupy t (Z.of_nat p) (hash k) = Ok t' /\
    prepared t' p k m.
Proof.
  intros HI HR Hk Hfree Hroom. pose proof (inv_core _ _ _ HI) as Hc. pose proof (inv_cap _ _ _ HI) as Hn.
  destruct (place_free hash t cs k Hc Hfree) as (p & c & ctrl' & Ef & Hp & Ec & Hs & Hset & Hr & HP).
  { intros v Hh. apply HR in Hh. congruence. }
  specialize (Hroom p c Ef Hp). exists p. unfold occupy. rewrite (core_rd _ _ _ _ _ _ Hc Hp). cbn [mbind res_bind].
  rewrite Hset by done. eexists. split_and!; [done..|]. split; [done|]. intros v. exists (<[p := H2 (hash k)]> cs).
  destruct (countb_place cs p c (H2 (hash k)) Hp Ec (core_byte _ _ _ _ Hc p c Hp) ltac:(apply H2_range)) as (Nf & Nd & Eb).
  pose proof (inv_growth _ _ _ HI) as Hg. pose proof (inv_growth_nonneg _ _ _ HI). pose proof (inv_size _ _ _ HI) as Hsz.
  pose proof (cap_bounds _ Hn). destruct (growth_bounds _ Hn) as (Hgb & _).
  pose proof (countb_nonneg IsFull cs). pose proof (countb_nonneg IsDeleted cs). pose proof (inv_split _ _ _ HI).
  pose proof (countb_nonneg IsEmpty cs).
  assert (if IsEmpty c then 0 < growth_left t else True) as Hroom'
    by (rewrite Eb in Hroom; destruct (IsEmpty c); simpl in Hroom; [by destruct Hroom|done]).
  assert (u64 (growth_left t - (if IsEmpty c then 1 else 0)) = growth_left t - (if IsEmpty c then 1 else 0)) as Eg.
  { apply wrapu_id. unfold inu. destruct (IsEmpty c); lia. }
  assert (u64 (size_ t + 1) = size_ t + 1) as Es by (apply wrapu_id; unfold inu; lia).
  split; [|apply represents_insert; [|done|done]; intros k' v'; apply HR].
  split; cbn [size_ growth_left upd_growth upd_size upd_ctrl upd_slots]; rewrite ?length_insert, ?Eg, ?Es, ?Nf, ?Nd.
  - split; cbn [capacity_ ctrl_ slots_ upd_growth upd_size upd_ctrl upd_slots]; rewrite ?length_insert;
      [apply (core_capacity _ _ _ _ Hc)|done|apply HP].
  - lia.
  - destruct (IsEmpty c); lia.
  - destruct (IsEmpty c); lia.
  - intros Hsm. pose proof (inv_small _ _ _ HI Hsm) as N0.
    pose proof (countb_zero IsDeleted cs N0 p c Hp) as Hd. rewrite Eb in Hd. destruct (IsEmpty c); [lia|done].
Qed.

(** where the search for a free slot ends when the table has none left *)
Lemma full_target t cs h : inv t cs -> growth_left t = 0 ->
  exists p b, find_first_non_full t h = Ok (Z.of_nat p) /\ rd (ctrl_ t) (Z.of_nat p) = Ok b /\
    (IsDeleted b = true -> cs !! p = Some b).
Proof.
  intros HI Hg. pose proof (inv_core _ _ _ HI) as Hc. pose proof W_cases.
  assert (forall p, (p <= length cs)%nat -> exists b, rd (ctrl_ t) (Z.of_nat p) = Ok b /\ (IsDeleted b = true -> cs !! p = Some b)) as Hrd.
  { intros p Hp. exists (byte_at cs p). split; [apply rd_nat, (proj2 (core_ctrl _ _ _ _ Hc)); lia|].
    unfold byte_at. destruct (Nat.leb_spec p (length cs)); [|lia]. by destruct (cs !! p). }
  destruct (decide (small (length cs))) as [Hs|Hs].
  - destruct (first_non_full_small _ _ _ _ Hc h Hs) as (p & Ef & Hp). destruct (Hrd p Hp) as (b & E & Hb). by exists p, b.
  - destruct (inv_has_empty _ _ _ HI) as [?|[q Hq]]; [done|].
    destruct (first_non_full_spec _ _ _ _ Hc h) as (p & c & Ef & Hp & _); [by exists q, kEmpty|].
    pose proof (lookup_lt_Some _ _ _ Hp). destruct (Hrd p ltac:(lia)) as (b & E & Hb). by exists p, b.
Qed.

(** a slot is prepared, or an allocation failed and nothing changed *)
Lemma prepare_insert_spec t m k : wf t m -> m !! k = None ->
  exists t' r, prepare_insert hash alloc junk t (hash k) = Ok (t', r) /\
    match r with
    | Some i => exists p, i = Z.of_nat p /\ prepared t' p k m
    | None => t' = t /\ alloc (2 * capacity_ t + 1) = false
    end.
Proof.
  intros Hwf Hk. unfold prepare_insert.
  assert (exists target grow, find_first_non_full t (hash k) = Ok target /\
    (if growth_left t =? 0 then c ← rd (ctrl_ t) target; Ok (negb (IsDeleted c)) else Ok false) = Ok grow /\
    if grow : bool then growth_left t = 0 else
      exists cs, inv t cs /\ represents t m /\ (exists q c, cs !! q = Some c /\ IsEmptyOrDeleted c = true) /\
        (0 < growth_left t \/ exists p c, target = Z.of_nat p /\ cs !! p = Some c /\ IsDeleted c = true))
    as (target & grow & E1 & E2 & Hgrow).
  { destruct Hwf as [[-> ->]|(cs & HI & HR)]; [by exists 0, true; rewrite first_non_full_new|].
    destruct (Z.eqb_spec (growth_left t) 0) as [E0|E0].
    - destruct (full_target t cs (hash k) HI E0) as (p & b & Ef & Er & Hb). exists (Z.of_nat p), (negb (IsDeleted b)).
      rewrite Er. cbn [mbind res_bind]. split_and!; [done..|]. destruct (IsDeleted b) eqn:Eb; [|done]. specialize (Hb eq_refl). cbn [negb].
      apply Z.eqb_eq in Eb. subst b. exists cs. split_and!; [done..|by exists p, kDeleted|]. right. by exists p, kDeleted.
    - pose proof (inv_growth_nonneg _ _ _ HI). pose proof (inv_free _ _ _ HI ltac:(lia)) as Hfree.
      destruct (first_non_full_spec _ _ _ _ (inv_core _ _ _ HI) (hash k) Hfree) as (p & c & Ef & _).
      exists (Z.of_nat p), false. split_and!; [done..|]. exists cs. split_and!; [done..|]. left. lia. }
  rewrite E1. cbn [mbind res_bind]. rewrite E2. cbn [mbind res_bind]. destruct grow.
  - destruct (grow_spec t m Hwf Hgrow) as (t1 & ok & -> & Hok). cbn [mbind res_bind fst snd].
    destruct ok; [|by exists t1, None]. destruct Hok as (cs & HI & HR & Hpos).
    destruct (occupy_spec t1 cs m k HI HR Hk (inv_free _ _ _ HI Hpos)) as (p & t' & -> & Eo & HP); [auto|].
    cbn [mbind res_bind]. rewrite Eo. cbn [mbind res_bind]. exists t', (Some (Z.of_nat p)). split; [done|]. by exists p.
  - destruct Hgrow as (cs & HI & HR & Hfree & Hroom).
    destruct (occupy_spec t cs m k HI HR Hk Hfree) as (p & t' & Ef & Eo & HP).
    { intros p c Ef Hp. destruct Hroom as [?|(p' & c' & -> & Hp' & Hd)]; [by left|right]. rewrite E1 in Ef.
      injection Ef as Ef%Nat2Z.inj. subst p'. congruence. }
    rewrite E1 in Ef. injection Ef as ->. cbn [mbind res_bind]. rewrite Eo. cbn [mbind res_bind]. exists t', (Some (Z.of_nat p)).
    split; [done|]. by exists p.
Qed.

(** ** The map operations *)

Lemma emplace_at_spec t p k m v : prepared t p k m ->
  exists t', emplace_at hash t (Z.of_nat p) (k, v) = Ok t' /\ wf t' (<[k := v]> m).
Proof.
  intros [Hs HP]. destruct (HP v) as (cs & HI & HR). pose proof (lookup_lt_Some _ _ _ Hs) as Hlt.
  unfold emplace_at. rewrite wr_Ok by lia. cbn [mbind res_bind fst]. rewrite Nat2Z.id.
  rewrite (find_at hash _ cs p k v (inv_core _ _ _ HI) (inv_has_empty _ _ _ HI)) by (by apply list_lookup_insert_eq).
  cbn [mbind res_bind]. rewrite bool_decide_true by done. cbn [assert mbind res_bind].
  eexists. split; [done|]. right. by exists cs.
Qed.

Lemma find_or_prepare_insert_spec t m k : wf t m ->
  exists t' r, find_or_prepare_insert hash alloc junk t k = Ok (t', r) /\
    match r with
    | Some (i, false) => t' = t /\ exists p v, i = Z.of_nat p /\ slots_ t !! p = Some (Some (k, v)) /\ m !! k = Some v
    | Some (i, true) => m !! k = None /\ exists p, i = Z.of_nat p /\ prepared t' p k m
    | None => m !! k = None /\ t' = t /\ alloc (2 * capacity_ t + 1) = false
    end.
Proof.
  intros Hwf. destruct (find_wf t m k Hwf) as (r & E & Hr). unfold find, find_impl in E.
  unfold find_or_prepare_insert. cbv zeta. destruct (probe t (hash k)) as [s|]; [|done]. cbn [mbind res_bind] in *.
  rewrite E. cbn [mbind res_bind]. destruct r as [i|].
  - exists t, (Some (i, false)). done.
  - destruct (prepare_insert_spec t m k Hwf Hr) as (t' & r & -> & Hr'). cbn [mbind res_bind fst snd].
    destruct r as [i|]; [exists t', (Some (i, true))|exists t', None]; done.
Qed.

(** an element is inserted only if the key is new *)
Lemma emplace_wf t m k v : wf t m ->
  exists t' r, emplace hash alloc junk t k v = Ok (t', r) /\
    match r with
    | Some (i, true) => m !! k = None /\ wf t' (<[k := v]> m) 
    | Some (i, false) => t' = t /\ is_Some (m !! k)
    | None => m !! k = None /\ t' = t /\ alloc (2 * capacity_ t + 1) = false
    end.
Proof.
  intros Hwf. destruct (find_or_prepare_insert_spec t m k Hwf) as (t1 & r & E & Hr). unfold emplace. rewrite E. cbn [mbind res_bind].
  destruct r as [[i []]|].
  - destruct Hr as (Hk & p & -> & HP). destruct (emplace_at_spec t1 p k m v HP) as (t' & -> & Hwf'). cbn [mbind res_bind].
    exists t', (Some (Z.of_nat p, true)). done.
  - destruct Hr as (-> & p & v' & -> & _ & Hk). exists t, (Some (Z.of_nat p, false)). rewrite Hk. eauto.
  - exists t1, None. done.
Qed.

(** a value is overwritten in its slot *)
Lemma assign_wf t m p k v' v : wf t m -> slots_ t !! p = Some (Some (k, v')) ->
  wr (slots_ t) (Z.of_nat p) (Some (k, v)) = Ok (<[p := Some (k, v)]> (slots_ t)) /\
  wf (upd_slots (<[p := Some (k, v)]> (slots_ t)) t) (<[k := v]> m).
Proof.
  intros Hwf Hp. pose proof (lookup_lt_Some _ _ _ Hp). rewrite wr_Ok, Nat2Z.id by lia. split; [done|].
  destruct Hwf as [[-> ->]|(cs & HI & HR)]; [done|]. right. exists cs. split.
  - pose proof (inv_core _ _ _ HI) as Hc. destruct HI as [_ H1 H2 H3 H4]. split; try done.
    split; [apply (core_capacity _ _ _ _ Hc)|apply (core_ctrl _ _ _ _ Hc)|].
    by apply (placed_assign hash false _ _ p k v' v (core_placed _ _ _ _ Hc)).
  - pose proof (placed_uniq _ _ _ _ (core_placed _ _ _ _ (inv_core _ _ _ HI))) as Hu.
    intros k' w. rewrite lookup_insert_Some, (HR k' w). unfold has. cbn [slots_ upd_slots]. split.
    + intros [[-> ->]|[Hne [q Hq]]]; [exists p; by apply list_lookup_insert_eq|].
      exists q. rewrite list_lookup_insert_ne; [done|]. intros ->. congruence.
    + intros [q Hq]. apply list_lookup_insert_Some in Hq as [(<- & [= <- <-] & _)|(Hne & Hq)]; [by left|right].
      split; [|by exists q]. intros ->. apply Hne. by apply (Hu p q k' v' w).
Qed.

Lemma insert_or_assign_wf t m k v : wf t m ->
  exists t' r, insert_or_assign hash alloc junk t k v = Ok (t', r) /\
    match r with
    | Some (i, b) => b = bool_decide (m !! k = None) /\ wf t' (<[k := v]> m)
    | None => m !! k = None /\ t' = t /\ alloc (2 * capacity_ t + 1) = false
    end.
Proof.
  intros Hwf. destruct (find_or_prepare_insert_spec t m k Hwf) as (t1 & r & E & Hr). unfold insert_or_assign. rewrite E. cbn [mbind res_bind].
  destruct r as [[i []]|].
  - destruct Hr as (Hk & p & -> & HP). destruct (emplace_at_spec t1 p k m v HP) as (t' & -> & Hwf'). cbn [mbind res_bind].
    exists t', (Some (Z.of_nat p, true)). rewrite Hk. done.
  - destruct Hr as (-> & p & v' & -> & Hp & Hk). unfold element. rewrite (rd_nat _ _ _ Hp). cbn [mbind res_bind of_option fst].
    destruct (assign_wf t m p k v' v Hwf Hp) as [-> Hwf']. cbn [mbind res_bind].
    eexists _, (Some (Z.of_nat p, false)). rewrite Hk. done.
  - exists t1, None. done.
Qed.

End Map.
