(* ===== verification/SwissErase.v ===== *)
(** * phmap: erasing, clearing and rehashing

    An erased slot becomes empty only if no probe sequence can have passed it;
    [erase], [clear], [rehash] and [reserve] implement the operations of a
    finite map. *)

From S2P Require Import Prelude.
From S2P Require Import Simd.
From S2P Require Import SwissGroup.
From S2P Require Import SwissGroupOk.
From S2P Require Import SwissTable.
From S2P Require Import SwissProbe.
From S2P Require Import SwissInv.
From S2P Require Import SwissPlaced.
From S2P Require Import SwissResize.
From S2P Require Import SwissDrop.
From S2P Require Import SwissMap.

Section Erase.
Context `{GOk : GroupOk} {K V : Type} `{Countable K} (hash : K -> Z) (alloc : Z -> bool) (junk : Z).
Hypothesis Halloc : forall n, alloc n = true -> n < 2 ^ 59 - 1.
Implicit Types (t : table K V) (cs : list Z) (m : gmap K V).

Abbreviation core := (core (V := V) hash).
Abbreviation inv := (inv (V := V) hash).
Abbreviation wf := (wf (V := V) hash).
Abbreviation W := (Z.to_nat kWidth).

(** ** Erasing *)

(** an empty byte less than a group away on either side is in every group that contains the slot *)
Lemma near_empties n o p i i' (q1 q2 : nat) : 0 <= i -> 0 <= i' <= kWidth - 1 -> i + (kWidth - 1 - i') < kWidth ->
  (p + i) mod (n + 1) = Z.of_nat q1 -> ((p - kWidth) mod (n + 1) + i') mod (n + 1) = Z.of_nat q2 -> 0 < n + 1 ->
  (p - o) mod (n + 1) < kWidth ->
  (Z.of_nat q1 - o) mod (n + 1) < kWidth \/ (Z.of_nat q2 - o) mod (n + 1) < kWidth.
Proof.
  intros Hi Hi' Hsum E1 E2 Hn Hw. rewrite <-E1, <-E2, !Zminus_mod_idemp_l.
  pose proof (Z.mod_pos_bound (p - o) (n + 1) Hn) as Hd. set (d := (p - o) mod (n + 1)) in *.
  destruct (Z.lt_ge_cases (d + i) kWidth) as [Hlt|Hge].
  - left. replace (p + i - o) with (p - o + i) by lia. rewrite <-Z.add_mod_idemp_l by lia. fold d.
    pose proof (Z.mod_le (d + i) (n + 1)). lia.
  - right. rewrite <-Zminus_mod_idemp_l, Z.add_mod_idemp_l, Zminus_mod_idemp_l by lia.
    replace (p - kWidth + i' - o) with (p - o + (i' - kWidth)) by lia. rewrite <-Z.add_mod_idemp_l by lia. fold d.
    rewrite Z.mod_small by lia. lia.
Qed.

Lemma was_never_full_spec t cs p : core false t cs -> (p < length cs)%nat ->
  exists b, was_never_full t (Z.of_nat p) = Ok b /\
    (b = true -> forall o, 0 <= o <= Z.of_nat (length cs) -> inwin (length cs) o p -> ~ blocked false cs o) /\
    (small (length cs) -> b = true).
Proof.
  intros Hc Hp. pose proof (core_cap _ _ _ _ Hc) as Hn. pose proof W_cases as HW. unfold was_never_full.
  rewrite (core_capacity _ _ _ _ Hc), land_u64_cap by done. set (n := Z.of_nat (length cs)) in *.
  set (ob := (Z.of_nat p - kWidth) mod (n + 1)).
  assert (0 <= ob <= n) as Hob by (unfold ob; pose proof (Z.mod_pos_bound (Z.of_nat p - kWidth) (n + 1)); lia).
  destruct (core_window _ _ _ _ Hc (Z.of_nat p) ltac:(lia)) as (ga & -> & Wa & La & Oka). cbn [mbind res_bind].
  destruct (core_window _ _ _ _ Hc ob Hob) as (gb & -> & Wb & Lb & Okb). cbn [mbind res_bind].
  destruct (Z.eqb_spec (MatchEmpty gb) 0) as [Eb|Eb]; [|destruct (Z.eqb_spec (MatchEmpty ga) 0) as [Ea|Ea]]; cbn [negb andb].
  1,2: exists false; split_and!; [done|done|]; intros Hs; exfalso.
  - apply (proj2 (group_empty gb Lb Okb)); [|done]. apply list_elem_of_lookup. eexists. by apply (window_small cs ob gb Hn Wb Hs).
  - apply (proj2 (group_empty ga La Oka)); [|done]. apply list_elem_of_lookup. eexists. by apply (window_small cs _ ga Hn Wa Hs).
  - destruct (group_first_empty ga La Oka Ea) as (i & -> & Hi). cbn [mbind res_bind].
    destruct (group_last_empty gb Lb Okb Eb) as (i' & -> & Hi' & Hlast). cbn [mbind res_bind].
    pose proof (lookup_lt_Some _ _ _ Hi). pose proof (lookup_lt_Some _ _ _ Hi').
    eexists. split; [done|]. rewrite wrapu_id by (unfold inu; lia). split.
    + intros Hlt%Z.ltb_lt o Ho Hw [Hs HB].
      destruct (window_out cs (Z.of_nat p) ga ltac:(lia) Wa i kEmpty Hi) as [(q1 & Hq1 & E1 & _)|[?|(_ & ? & _)]]; [|done|done].
      destruct (window_out cs _ gb Hob Wb i' kEmpty Hi') as [(q2 & Hq2 & E2 & _)|[?|(_ & ? & _)]]; [|done|done].
      destruct (near_empties n o (Z.of_nat p) (Z.of_nat i) (Z.of_nat i') q1 q2) as [Hw1|Hw2];
        [lia|lia|lia|done|done|lia|done|by apply (HB q1 kEmpty)|by apply (HB q2 kEmpty)].
    + intros Hs. apply Z.ltb_lt. pose proof (window_small cs ob gb Hn Wb Hs) as Hl.
      destruct (decide (i' < W - 1)%nat) as [Hlt|]; [by apply Hlast in Hl|]. lia.
Qed.

Lemma represents_delete t m p k v : represents t m ->
  (forall q w, slots_ t !! q = Some (Some (k, w)) -> q = p) -> slots_ t !! p = Some (Some (k, v)) ->
  forall t', slots_ t' = <[p := None]> (slots_ t) -> represents t' (delete k m).
Proof.
  intros HR Hu Hp t' Es k' w. rewrite lookup_delete_Some, (HR k' w). unfold has. rewrite Es. split.
  - intros [Hne [q Hq]]. exists q. rewrite list_lookup_insert_ne; [done|]. intros ->. congruence.
  - intros [q Hq]. apply list_lookup_insert_Some in Hq as [(_ & ? & _)|(Hne & Hq)]; [done|]. split; [|by exists q].
    intros ->. by apply Hu in Hq as ->.
Qed.

Lemma erase_at_spec t cs m p k v : inv t cs -> represents t m -> slots_ t !! p = Some (Some (k, v)) ->
  exists t' cs', erase_at t (Z.of_nat p) = Ok t' /\ inv t' cs' /\ represents t' (delete k m).
Proof.
  intros HI HR Hs. pose proof (inv_core _ _ _ HI) as Hc. pose proof (inv_cap _ _ _ HI) as Hn.
  pose proof (core_placed _ _ _ _ Hc) as HP. pose proof (lookup_lt_Some _ _ _ Hs) as Hlt.
  pose proof (core_slots _ _ _ _ Hc) as L. destruct (core_has_full hash t cs p k v Hc Hs) as (c & Hp & Hf).
  unfold erase_at. rewrite (core_capacity _ _ _ _ Hc). replace (Z.of_nat p =? Z.of_nat (length cs)) with false by lia.
  cbn [negb assert mbind res_bind]. unfold element. rewrite (rd_nat _ _ _ Hs). cbn [mbind res_bind of_option].
  rewrite wr_Ok by lia. cbn [mbind res_bind]. rewrite Nat2Z.id. unfold erase_meta_only. cbn [ctrl_ upd_slots].
  rewrite (core_rd _ _ _ _ _ _ Hc Hp). cbn [mbind res_bind]. replace (IsFull c) with true by (unfold IsFull; lia).
  cbn [assert mbind res_bind]. set (t1 := upd_size _ _).
  destruct (was_never_full_spec t cs p Hc ltac:(lia)) as (b & Eb & Hb & Hbs).
  assert (was_never_full t1 (Z.of_nat p) = Ok b) as -> by done. cbn [mbind res_bind].
  destruct (set_ctrl_rep t1 cs p (if b then kEmpty else kDeleted) Hn (core_capacity _ _ _ _ Hc) (core_ctrl _ _ _ _ Hc) ltac:(lia))
    as (c' & -> & Hr). cbn [mbind res_bind].
  eexists _, (<[p := if b then kEmpty else kDeleted]> cs). split; [done|]. split.
  2:{ eapply (represents_delete t m p k v HR); [|done|done]. intros q w Hq. by apply (placed_uniq _ _ _ _ HP q p k w v). }
  pose proof (inv_growth _ _ _ HI) as Hg. pose proof (inv_growth_nonneg _ _ _ HI). pose proof (inv_size _ _ _ HI) as Hsz.
  pose proof (cap_bounds _ Hn). destruct (growth_bounds _ Hn) as (Hgb & _). pose proof (countb_nonneg IsDeleted cs).
  pose proof (inv_split _ _ _ HI). pose proof (countb_nonneg IsEmpty cs).
  assert (countb IsFull (<[p := if b then kEmpty else kDeleted]> cs) = countb IsFull cs - 1) as Nf.
  { rewrite (countb_insert _ _ _ _ _ Hp). replace (IsFull c) with true by (unfold IsFull; lia). destruct b; simpl; lia. }
  assert (countb IsDeleted (<[p := if b then kEmpty else kDeleted]> cs) = countb IsDeleted cs + (if b then 0 else 1)) as Nd.
  { rewrite (countb_insert _ _ _ _ _ Hp). replace (IsDeleted c) with false by (unfold IsDeleted, kDeleted; lia).
    destruct b; simpl; lia. }
  pose proof (countb_nonneg IsFull (<[p := if b then kEmpty else kDeleted]> cs)).
  assert (u64 (size_ t - 1) = size_ t - 1) as Es by (apply wrapu_id; unfold inu; lia).
  assert (u64 (growth_left t + (if b then 1 else 0)) = growth_left t + (if b then 1 else 0)) as Eg
    by (apply wrapu_id; unfold inu; destruct b; lia).
  split; cbn [size_ growth_left upd_growth upd_ctrl]; rewrite ?length_insert, ?Nf, ?Nd.
  - split; rewrite ?length_insert; [apply (core_capacity _ _ _ _ Hc)|done|].
    apply (placed_erase hash _ _ _ c); [done|done|done|]. destruct b; [right|by left]. split; [done|by apply Hb].
  - cbn [t1 size_ upd_size upd_slots]. rewrite Es. lia.
  - cbn [t1 growth_left upd_size upd_slots]. rewrite Eg. destruct b; lia.
  - cbn [t1 growth_left upd_size upd_slots]. rewrite Eg. destruct b; lia.
  - intros Hsm. rewrite (inv_small _ _ _ HI Hsm), (Hbs Hsm). done.
Qed.

(** [erase(key)] removes the key and returns the number of elements removed *)
Lemma erase_wf t m k : wf t m ->
  exists t', erase hash t k = Ok (t', if decide (is_Some (m !! k)) then 1 else 0) /\ wf t' (delete k m).
Proof.
  intros Hwf. destruct (find_wf hash t m k Hwf) as (r & E & Hr). unfold erase. rewrite E. cbn [mbind res_bind].
  destruct r as [i|].
  - destruct Hr as (p & v & -> & Hp & Hk). destruct Hwf as [[-> _]|(cs & HI & HR)]; [done|].
    destruct (erase_at_spec t cs m p k v HI HR Hp) as (t' & cs' & -> & HI' & HR'). cbn [mbind res_bind].
    exists t'. rewrite decide_True by (by rewrite Hk). split; [done|]. right. by exists cs'.
  - exists t. rewrite decide_False by (rewrite Hr; by intros [? ?]). split; [done|]. by rewrite delete_id.
Qed.

(** ** The elements of a table *)

Definition contents t : list (K * V) := omap id (slots_ t).

Lemma elem_contents (slots : list (option (K * V))) e : e ∈ omap id slots <-> exists p, slots !! p = Some (Some e).
Proof.
  rewrite list_elem_of_omap. split.
  - intros (x & Hx & E). unfold id in E. subst x. by apply list_elem_of_lookup in Hx.
  - intros [p Hp]. exists (Some e). split; [by apply list_elem_of_lookup; exists p|done].
Qed.

Lemma NoDup_contents (slots : list (option (K * V))) :
  (forall p q e, slots !! p = Some (Some e) -> slots !! q = Some (Some e) -> p = q) -> NoDup (omap id slots).
Proof.
  induction slots as [|[e|] slots IH]; intros Hu; simpl; [constructor| |].
  - constructor; [|apply IH; intros p q e' Hp Hq; by injection (Hu (S p) (S q) e' Hp Hq)].
    intros [p Hp]%elem_contents. by discriminate (Hu 0%nat (S p) e eq_refl Hp).
  - apply IH. intros p q e' Hp Hq. by injection (Hu (S p) (S q) e' Hp Hq).
Qed.

Lemma contents_perm t cs m : inv t cs -> represents t m -> contents t ≡ₚ map_to_list m.
Proof.
  intros HI HR. pose proof (placed_uniq _ _ _ _ (core_placed _ _ _ _ (inv_core _ _ _ HI))) as Hu.
  apply NoDup_Permutation.
  - apply NoDup_contents. intros p q [k v] Hp Hq. by apply (Hu p q k v v).
  - apply NoDup_map_to_list.
  - intros [k v]. unfold contents. rewrite elem_contents, elem_of_map_to_list. symmetry. apply HR.
Qed.

Lemma length_contents (slots : list (option (K * V))) cs : length slots = length cs ->
  (forall p c x, cs !! p = Some c -> slots !! p = Some x -> IsFull c = bool_decide (is_Some x)) ->
  Z.of_nat (length (omap id slots)) = countb IsFull cs.
Proof.
  unfold countb. revert cs. induction slots as [|x slots IH]; intros [|c cs] L Hc; try done.
  pose proof (Hc 0%nat c x eq_refl eq_refl) as E. specialize (IH cs ltac:(simpl in L; lia) (fun p => Hc (S p))).
  simpl. rewrite E. destruct x as [e|]; [rewrite bool_decide_true by eauto|rewrite bool_decide_false by (by intros [? ?])];
    simpl; [rewrite !Nat2Z.inj_succ; f_equal|]; exact IH.
Qed.

Lemma core_full_iff t cs p c x : core false t cs -> cs !! p = Some c -> slots_ t !! p = Some x -> IsFull c = bool_decide (is_Some x).
Proof.
  intros Hc Hp Hx. destruct (IsFull c) eqn:Ef; symmetry.
  - destruct (core_full_elem _ _ _ _ Hc p c Hp Ef) as (k & v & _ & Hs & _). apply bool_decide_eq_true. rewrite Hs in Hx. by injection Hx as <-.
  - apply bool_decide_eq_false. intros [[k v] ->]. destruct (core_has_full hash t cs p k v Hc Hx) as (c' & Hp' & Hf).
    rewrite Hp in Hp'. injection Hp' as <-. unfold IsFull in Ef. lia.
Qed.

Lemma contents_size t cs : core false t cs -> Z.of_nat (length (contents t)) = countb IsFull cs.
Proof.
  intros Hc. apply length_contents; [apply (core_slots _ _ _ _ Hc)|]. intros p c x Hp Hx. by eapply core_full_iff.
Qed.

(** [size()] is the number of elements *)
Lemma wf_size t m : wf t m -> size_ t = Z.of_nat (size m).
Proof.
  intros [[-> ->]|(cs & HI & HR)]; [done|]. rewrite (inv_size _ _ _ HI), <-(contents_size t cs (inv_core _ _ _ HI)).
  by rewrite (contents_perm t cs m HI HR), length_map_to_list.
Qed.

(** ** Clearing *)

Lemma clear_wf t m : wf t m -> exists t', clear t = Ok t' /\ wf t' ∅.
Proof.
  intros Hwf. pose proof (wf_size t m Hwf) as Hsz. unfold clear. destruct (Z.eqb_spec (size_ t) 0) as [E|E].
  { exists t. split; [done|]. assert (m = ∅) as -> by (apply map_size_empty_inv; lia). done. }
  destruct Hwf as [[-> _]|(cs & HI & HR)]; [done|]. pose proof (inv_core _ _ _ HI) as Hc. pose proof (inv_cap _ _ _ HI) as Hn.
  pose proof (cap_bounds _ Hn) as Hb. rewrite (core_capacity _ _ _ _ Hc). destruct (Z.ltb_spec 127 (Z.of_nat (length cs))).
  - unfold destroy_slots. rewrite (core_capacity _ _ _ _ Hc). replace (Z.of_nat (length cs) =? 0) with false by lia.
    cbn [mbind res_bind size_ Z.eqb assert]. exists new_table. split; [done|by left].
  - replace (Z.of_nat (length cs) =? 0) with false by lia. cbn [negb]. set (t1 := upd_size _ _).
    destruct (reset_ctrl_spec t1 (length cs) Hn (core_capacity _ _ _ _ Hc) (proj1 (core_ctrl _ _ _ _ Hc))) as (c & -> & Hr).
    cbn [mbind res_bind]. unfold reset_growth_left. cbn [capacity_ upd_ctrl t1 upd_size upd_slots].
    rewrite (core_capacity _ _ _ _ Hc), CapacityToGrowth_eq by done. cbn [mbind res_bind size_ upd_growth upd_ctrl t1 upd_size Z.eqb assert].
    eexists. split; [done|]. right. exists (replicate (length cs) kEmpty). destruct (growth_bounds _ Hn) as (Hgb & _).
    assert (u64 (growth (length cs) - 0) = growth (length cs)) as Eg by (rewrite Z.sub_0_r; apply wrapu_id; unfold inu; lia).
    split.
    + split; cbn [size_ growth_left upd_growth]; rewrite ?length_replicate, ?countb_replicate, ?Eg; change (IsFull kEmpty) with false; change (IsDeleted kEmpty) with false; cbn iota; [|done|lia|lia|done].
      apply core_reset; [done|apply (core_capacity _ _ _ _ Hc)| |done].
      cbn [slots_ upd_growth upd_ctrl t1 upd_size upd_slots]. by rewrite (core_slots _ _ _ _ Hc).
    + intros k v. rewrite lookup_empty. split; [done|]. intros [p Hp]. by apply lookup_replicate in Hp as [? _].
Qed.

(** ** Rehashing *)

(** a rehash to the smallest capacity ([rehash(0)]) keeps an empty slot if the
    elements are within the load factor of that capacity *)
Definition rehash_fits (n size : Z) : bool :=
  (0 <? n) || match (c ← NormalizeCapacity size; CapacityToGrowth c) with Ok g => size <=? g | Err _ => false end.

Lemma wf_source t m : wf t m -> exists cs, source (ctrl_ t) (slots_ t) cs /\ capacity_ t = Z.of_nat (length cs) /\
  size_ t = countb IsFull cs /\ (t = new_table /\ cs = [] \/ inv t cs) /\ represents t m.
Proof.
  intros [[-> ->]|(cs & HI & HR)].
  - exists []. split_and!; [apply new_source|done|done|by left|]. intros k v. rewrite lookup_empty. split; [done|]. by intros [p Hp].
  - exists cs. pose proof (inv_core _ _ _ HI) as Hc.
    split_and!; [by apply (core_source hash)|apply (core_capacity _ _ _ _ Hc)|apply (inv_size _ _ _ HI)|by right|done].
Qed.

(** rehashing keeps the elements; it leaves the table as it was if the allocation fails *)
Lemma rehash_wf t m n : wf t m -> 0 <= n < 2 ^ 64 -> rehash_fits n (size_ t) = true ->
  exists t' ok, rehash hash alloc junk t n = Ok (t', ok) /\ wf t' m /\
    (ok = false -> t' = t /\ exists c, c <= 2 * Z.max n (size_ t) /\ alloc c = false).
Proof.
  intros Hwf Hn Hfit. unfold rehash.
  destruct (wf_source t m Hwf) as (cs & Hsrc & Ec & Es & Hcs & HR). pose proof (countb_nonneg IsFull cs).
  destruct (Z.eqb_spec n 0) as [E0|E0], (Z.eqb_spec (capacity_ t) 0) as [Ecap|Ecap]; cbn [andb].
  { by exists t, true. }
  1: destruct (Z.eqb_spec (size_ t) 0) as [Esz|Esz].
  { exists (destroy_slots t), true. split_and!; [done| |done]. left. unfold destroy_slots. replace (capacity_ t =? 0) with false by lia.
    split; [done|]. apply map_size_empty_inv. pose proof (wf_size t m Hwf). lia. }
  all: assert (size_ t < 2 ^ 59) as Hsz
    by (destruct Hcs as [[-> ->]|HI]; [done|]; pose proof (inv_split _ _ _ HI); pose proof (cap_bounds _ (inv_cap _ _ _ HI));
        pose proof (countb_nonneg IsDeleted cs); pose proof (countb_nonneg IsEmpty cs); lia).
  all: destruct (NormalizeCapacity_spec (Z.max n (size_ t)) ltac:(lia)) as (k & Ek & Hk & Hge & Hle); rewrite Ek; cbn [mbind res_bind orb].
  all: assert (forall b : bool, (b = true -> alloc (2 ^ k - 1) = true -> countb IsFull cs <= growth (Z.to_nat (2 ^ k - 1))) ->
    exists t' ok, (if b then resize hash alloc junk t (2 ^ k - 1) else Ok (t, true)) = Ok (t', ok) /\ wf t' m /\
      (ok = false -> t' = t /\ exists c, c <= 2 * Z.max n (size_ t) /\ alloc c = false)) as Hdo
    by (intros [] Hroom; [|by exists t, true];
        destruct (resize_any hash alloc junk Halloc t cs k Hsrc Ec Es Hk (Hroom eq_refl)) as (t' & ok & E & Hok);
        exists t', ok; (split; [done|]); destruct ok; [|destruct Hok as [-> Ha]; split; [done|]; intros _; split; [done|]; exists (2 ^ k - 1); split; [lia|done]];
        destruct Hok as (cs' & HI' & _ & _ & _ & Hh); (split; [|done]); right; exists cs'; (split; [done|]); by apply (represents_ext t)).
  - apply (Hdo true). intros _ Ha%Halloc. rewrite Z.max_r in Ek by lia. unfold rehash_fits in Hfit. rewrite Ek in Hfit.
    assert (k <= 59) by (destruct (Z.le_gt_cases k 59); [done|]; pose proof (Z.pow_lt_mono_r 2 59 k); lia).
    cbn [mbind res_bind] in Hfit. rewrite <-(Z2Nat.id (2 ^ k - 1)) in Hfit by lia.
    rewrite CapacityToGrowth_eq in Hfit by (exists k; lia). rewrite <-Es. lia.
  - apply (Hdo (capacity_ t <? 2 ^ k - 1)). intros _ Ha%Halloc. destruct Hcs as [[-> ->]|HI].
    + change (countb IsFull []) with 0. pose proof (Z.pow_le_mono_r 2 1 k).
      assert (k <= 59) by (destruct (Z.le_gt_cases k 59); [done|]; pose proof (Z.pow_lt_mono_r 2 59 k); lia).
      pose proof (growth_bounds (Z.to_nat (2 ^ k - 1)) ltac:(exists k; lia)). lia.
    + pose proof (cap_bounds _ (inv_cap _ _ _ HI)). lia.
  - apply (Hdo (capacity_ t <? 2 ^ k - 1)). intros Hlt%Z.ltb_lt Ha%Halloc. destruct Hcs as [[-> ->]|HI]; [done|].
    assert (k <= 59) by (destruct (Z.le_gt_cases k 59); [done|]; pose proof (Z.pow_lt_mono_r 2 59 k); lia).
    destruct (inv_cap _ _ _ HI) as (k0 & Hk0 & Ek0).
    assert (k0 < k) by (destruct (Z.lt_ge_cases k0 k); [done|]; pose proof (Z.pow_le_mono_r 2 k k0); lia).
    assert (2 ^ (k0 + 1) <= 2 ^ k) as Hp by (apply Z.pow_le_mono_r; lia). rewrite Z.pow_add_r in Hp by lia.
    pose proof (growth_double (length cs) (Z.to_nat (2 ^ k - 1)) (inv_cap _ _ _ HI) ltac:(exists k; lia) ltac:(lia)).
    pose proof (inv_split _ _ _ HI). pose proof (countb_nonneg IsDeleted cs). pose proof (countb_nonneg IsEmpty cs). lia.
Qed.

End Erase.
