(* ===== verification/SwissIter.v ===== *)
(** * phmap: iterating over a table and copying it

    A loop over a table visits each element once; the copy of a table has the
    same elements. *)

From S2P Require Import Prelude.
From S2P Require Import Simd.
From S2P Require Import SwissGroup.
From S2P Require Import SwissGroupOk.
From S2P Require Import SwissTable.
From S2P Require Import SwissProbe.
From S2P Require Import SwissInv.
From S2P Require Import SwissPlaced.
From S2P Require Import SwissResize.
From S2P Require Import SwissDrop.
From S2P Require Import SwissMap.
From S2P Require Import SwissErase.

Section Iter.
Context `{GOk : GroupOk} {K V : Type} `{Countable K} (hash : K -> Z) (alloc : Z -> bool) (junk : Z).
Hypothesis Halloc : forall n, alloc n = true -> n < 2 ^ 59 - 1.
Implicit Types (t : table K V) (cs : list Z) (m : gmap K V).

Abbreviation core := (core (V := V) hash).
Abbreviation inv := (inv (V := V) hash).
Abbreviation wf := (wf (V := V) hash).
Abbreviation W := (Z.to_nat kWidth).

(** ** Iteration *)

(** the bytes up to the sentinel *)
Lemma core_rd_byte t cs p : core false t cs -> (p <= length cs)%nat ->
  rd (ctrl_ t) (Z.of_nat p) = Ok (default kSentinel (cs !! p)).
Proof.
  intros Hc Hp. pose proof W_cases. apply rd_nat. rewrite (proj2 (core_ctrl _ _ _ _ Hc)) by lia. unfold byte_at.
  by destruct (Nat.leb_spec p (length cs)); [|lia].
Qed.

(** the iterator moves to the next full slot, or to the end *)
Lemma skip_spec t cs fuel p : core false t cs -> (p <= length cs)%nat -> (length cs - p < fuel)%nat ->
  exists q, skip_empty_or_deleted fuel (ctrl_ t) (Z.of_nat p) = Ok (Z.of_nat q) /\ (p <= q <= length cs)%nat /\
    (forall r c, (p <= r < q)%nat -> cs !! r = Some c -> IsFull c = false) /\
    (forall c, cs !! q = Some c -> IsFull c = true).
Proof.
  intros Hc. revert p. induction fuel as [|fuel IH]; intros p Hp Hf; [lia|]. cbn [skip_empty_or_deleted].
  rewrite (core_rd_byte t cs p Hc Hp). cbn [mbind res_bind].
  destruct (IsEmptyOrDeleted (default kSentinel (cs !! p))) eqn:Ee.
  - destruct (cs !! p) as [c|] eqn:Ecp; [|done]. pose proof (lookup_lt_Some _ _ _ Ecp) as Hlt. simpl in Ee.
    destruct (core_window _ _ _ _ Hc (Z.of_nat p) ltac:(lia)) as (g & -> & [Lw Hb] & Lg & Hok). cbn [mbind res_bind].
    destruct (CountLeading_ok g Lg Hok) as (k & -> & Hk & Hall & Hstop). cbn [mbind res_bind]. pose proof W_cases as HW.
    rewrite Nat2Z.id in Hb.
    assert (forall i, (i < k)%nat -> (p + i <= length cs)%nat -> exists c', cs !! (p + i)%nat = Some c' /\ IsEmptyOrDeleted c' = true) as Hall'.
    { intros i Hi Hle. assert (g !! i = Some (byte_at cs (p + i))) as Hgi by (apply Hb; lia).
      specialize (Hall i _ Hi Hgi). unfold byte_at in Hall. destruct (Nat.leb_spec (p + i) (length cs)); [|lia].
      destruct (cs !! (p + i)%nat) as [c'|]; [by exists c'|done]. }
    assert (p + k <= length cs)%nat as Hpk.
    { destruct (decide (p + k <= length cs)%nat); [done|]. exfalso.
      destruct (Hall' (length cs - p)%nat) as (c' & Hc' & _); [lia|lia|]. apply lookup_lt_Some in Hc'. lia. }
    assert (1 <= k)%nat as Hk1.
    { destruct k; [|lia]. exfalso. assert (g !! 0%nat = Some (byte_at cs (p + 0))) as Hg0 by (apply Hb; lia).
      specialize (Hstop _ Hg0). rewrite Nat.add_0_r in Hstop. unfold byte_at in Hstop.
      destruct (Nat.leb_spec p (length cs)); [|lia]. rewrite Ecp in Hstop. simpl in Hstop. congruence. }
    replace (Z.of_nat p + Z.of_nat k) with (Z.of_nat (p + k)) by lia.
    destruct (IH (p + k)%nat ltac:(lia) ltac:(lia)) as (q & -> & Hq & H1 & H2). exists q. split_and!; [done|lia|lia| |done].
    intros r c' Hr Hc'. destruct (decide (r < p + k)%nat) as [Hlt'|]; [|by apply (H1 r); [lia|]].
    destruct (Hall' (r - p)%nat) as (c'' & Hc'' & Ec''); [lia|lia|]. replace (p + (r - p))%nat with r in Hc'' by lia.
    rewrite Hc' in Hc''. injection Hc'' as <-. unfold IsEmptyOrDeleted, kSentinel in Ec''. unfold IsFull. lia.
  - exists p. split_and!; [done|lia|lia|intros; lia|]. intros c Ecp. rewrite Ecp in Ee. simpl in Ee.
    destruct (slot_byte_cases c (core_byte _ _ _ _ Hc p c Ecp)) as [[? _]|[[_ ?]|[_ ?]]]; [|congruence|congruence].
    unfold IsFull. lia.
Qed.

(** slots that are not full hold no elements *)
Lemma contents_skip t cs p q : core false t cs -> (p <= q <= length cs)%nat ->
  (forall r c, (p <= r < q)%nat -> cs !! r = Some c -> IsFull c = false) ->
  omap id (drop p (slots_ t)) = omap id (drop q (slots_ t)).
Proof.
  intros Hc Hpq Hno. pose proof (core_slots _ _ _ _ Hc) as L.
  remember (q - p)%nat as d eqn:Ed. revert p Hpq Hno Ed. induction d as [|d IH]; intros p Hpq Hno Ed.
  - by replace p with q by lia.
  - destruct (lookup_lt_is_Some_2 (slots_ t) p ltac:(lia)) as [x Hx].
    destruct (lookup_lt_is_Some_2 cs p ltac:(lia)) as [c Hcp].
    pose proof (core_full_iff hash t cs p c x Hc Hcp Hx) as E. rewrite (Hno p c ltac:(lia) Hcp) in E.
    rewrite (drop_S _ _ _ Hx). destruct x as [e|]; [by rewrite bool_decide_true in E by eauto|]. simpl.
    apply IH; [lia| |lia]. intros r c' Hr. apply Hno. lia.
Qed.

Lemma iterate_spec t cs fuel p : core false t cs -> (p <= length cs)%nat -> (forall c, cs !! p = Some c -> IsFull c = true) ->
  (length cs - p < fuel)%nat -> iterate fuel t (Z.of_nat p) = Ok (omap id (drop p (slots_ t))).
Proof.
  intros Hc. pose proof (core_slots _ _ _ _ Hc) as L. revert p.
  induction fuel as [|fuel IH]; intros p Hp Hfull Hf; [lia|]. cbn [iterate]. rewrite (core_capacity _ _ _ _ Hc).
  destruct (Z.eqb_spec (Z.of_nat p) (Z.of_nat (length cs))) as [E|E].
  - by rewrite drop_ge by lia.
  - destruct (lookup_lt_is_Some_2 cs p ltac:(lia)) as [c Hcp].
    destruct (core_full_elem _ _ _ _ Hc p c Hcp (Hfull c Hcp)) as (k & v & -> & Hs & _). cbn [mbind res_bind].
    unfold next_. replace (Z.of_nat p + 1) with (Z.of_nat (S p)) by lia.
    destruct (skip_spec t cs (probe_fuel t) (S p) Hc ltac:(lia)) as (q & -> & Hq & Hno & Hfq);
      [unfold probe_fuel; rewrite (core_capacity _ _ _ _ Hc); lia|]. cbn [mbind res_bind].
    rewrite IH by (done || lia). cbn [mbind res_bind]. rewrite (drop_S _ _ _ Hs).
    rewrite <-(contents_skip t cs (S p) q Hc ltac:(lia) Hno). done.
Qed.

(** a loop over a table visits its elements *)
Lemma elements_wf t m : wf t m -> elements t = Ok (contents t) /\ contents t ≡ₚ map_to_list m.
Proof.
  intros [[-> ->]|(cs & HI & HR)]; [by rewrite map_to_list_empty|]. split; [|by eapply contents_perm].
  pose proof (inv_core _ _ _ HI) as Hc. unfold elements, begin_.
  assert (Z.to_nat (capacity_ t) = length cs) as Ecap by (rewrite (core_capacity _ _ _ _ Hc); lia).
  destruct (skip_spec t cs (probe_fuel t) 0 Hc ltac:(lia)) as (q & E & Hq & Hno & Hfq); [unfold probe_fuel; lia|].
  change (Z.of_nat 0) with 0 in E. rewrite E. cbn [mbind res_bind].
  rewrite (iterate_spec t cs) by (done || unfold probe_fuel; lia).
  by rewrite <-(contents_skip t cs 0 q Hc ltac:(lia) Hno).
Qed.

(** ** Reserving *)

Definition lowerbound (n : Z) : Z := if (kWidth =? 8) && (n =? 7) then 8 else n + (n - 1) / 7.

Lemma lowerbound_eq n : 0 < n < 2 ^ 63 -> GrowthToLowerboundCapacity n = Ok (lowerbound n) /\ n <= lowerbound n <= 2 * n.
Proof.
  intros Hn. unfold GrowthToLowerboundCapacity, lowerbound.
  assert (i64 n = n) as -> by (apply wraps_id; [done|]; unfold ins; simpl; lia).
  rewrite checked_Ok by (unfold ins; simpl; lia). cbn [mbind res_bind].
  rewrite Z.quot_div_nonneg by lia. assert (0 <= (n - 1) / 7) by (apply Z.div_pos; lia).
  assert ((n - 1) / 7 <= n - 1) by (apply Z.div_le_upper_bound; lia).
  assert (u64 ((n - 1) / 7) = (n - 1) / 7) as -> by (apply wrapu_id; unfold inu; lia).
  assert (u64 (n + (n - 1) / 7) = n + (n - 1) / 7) as -> by (apply wrapu_id; unfold inu; lia).
  destruct (kWidth =? 8), (Z.eqb_spec n 7); cbn [andb]; split; try done; lia.
Qed.

(** the argument for which the subtraction overflows aside, there is a lower
    bound; it is 0 only for 0 *)
Lemma lowerbound_any n : 0 <= n < 2 ^ 64 -> n <> 2 ^ 63 ->
  exists c, GrowthToLowerboundCapacity n = Ok c /\ 0 <= c < 2 ^ 64 /\ (n = 0 <-> c = 0).
Proof.
  intros Hn H63. destruct (decide (n = 0)) as [->|H0].
  { exists 0. unfold GrowthToLowerboundCapacity. change (0 =? 7) with false. by rewrite andb_false_r. }
  destruct (Z.lt_ge_cases n (2 ^ 63)) as [Hlt|Hge].
  { destruct (lowerbound_eq n ltac:(lia)) as [-> Hl]. exists (lowerbound n). split; [done|]. lia. }
  unfold GrowthToLowerboundCapacity. replace (n =? 7) with false by lia. rewrite andb_false_r.
  assert (i64 n = n - 2 ^ 64) as ->.
  { unfold wraps. change (64 - 1) with 63. replace (n + 2 ^ 63) with (n - 2 ^ 63 + 1 * 2 ^ 64) by lia.
    rewrite Z.mod_add, Z.mod_small by lia. lia. }
  rewrite checked_Ok by (unfold ins; simpl; lia). cbn [mbind res_bind].
  set (q := Z.quot (n - 2 ^ 64 - 1) 7). assert (- 2 ^ 61 <= q <= 0) as Hq.
  { unfold q. pose proof (Z.quot_rem' (n - 2 ^ 64 - 1) 7). pose proof (Z.rem_bound_abs (n - 2 ^ 64 - 1) 7). lia. }
  rewrite wrapu_add_r. rewrite wrapu_id by (unfold inu; lia). eexists. split; [done|]. lia.
Qed.

Lemma lowerbound_growth n k : 0 < n < 2 ^ 60 -> 1 <= k <= 59 -> lowerbound n <= 2 ^ k - 1 ->
  n <= growth (Z.to_nat (2 ^ k - 1)).
Proof.
  intros Hn Hk. unfold lowerbound, growth.
  pose proof (Z.pow_le_mono_r 2 1 k). rewrite Z2Nat.id by lia. intros Hle.
  assert (0 <= (n - 1) / 7) by (apply Z.div_pos; lia).
  assert (k = 1 \/ k = 2 \/ k = 3 \/ 4 <= k) as Hk' by lia.
  assert (2 ^ k - 1 = 7 /\ k = 3 \/ 2 ^ k - 1 <> 7) as H7.
  { destruct Hk' as [->|[->|[->|H4]]]; [right; simpl; lia|right; simpl; lia|by left|right]. pose proof (Z.pow_le_mono_r 2 4 k). lia. }
  destruct H7 as [[E7 _]|E7].
  - rewrite E7 in *. change (7 / 8) with 0. destruct (kWidth =? 8); cbn [andb Z.eqb Pos.eqb] in *; [|lia].
    destruct (Z.eqb_spec n 7); lia.
  - replace (2 ^ k - 1 =? 7) with false by lia. rewrite andb_false_r.
    assert (n + (n - 1) / 7 <= 2 ^ k - 1) as Hle' by (destruct (Z.eqb_spec n 7) as [->|]; destruct (kWidth =? 8); cbn [andb] in Hle;
      [change (7 + (7 - 1) / 7) with 7; lia|done..]).
    destruct Hk' as [->|[->|[->|H4]]]; [change ((2 ^ 1 - 1) / 8) with 0; lia|change ((2 ^ 2 - 1) / 8) with 0; lia|done|].
    assert (2 ^ k = 8 * 2 ^ (k - 3)) as Ek by (change 8 with (2 ^ 3); rewrite <-Z.pow_add_r by lia; f_equal; lia).
    set (x := 2 ^ (k - 3)) in *. assert ((2 ^ k - 1) / 8 = x - 1) as -> by (symmetry; apply (Z.div_unique_pos _ _ _ 7); lia).
    destruct (Z.le_gt_cases n (7 * x)); [lia|]. exfalso.
    assert (x <= (n - 1) / 7) by (apply Z.div_le_lower_bound; lia). lia.
Qed.

(** a table of [reserve(n)] has room for [n] elements *)
Lemma reserve_new n : 0 < n < 2 ^ 60 ->
  exists t ok, reserve hash alloc junk (@new_table K V) n = Ok (t, ok) /\
    if ok : bool then exists cs, inv t cs /\ countb IsFull cs = 0 /\ countb IsDeleted cs = 0 /\ n <= growth (length cs)
    else t = new_table /\ exists c, c <= 4 * n /\ alloc c = false.
Proof.
  intros Hn. destruct (lowerbound_eq n ltac:(lia)) as [Eg Hg].
  unfold reserve. rewrite Eg. cbn [mbind res_bind]. unfold rehash. cbn [capacity_ size_ new_table].
  set (g := lowerbound n) in *. replace (g =? 0) with false by lia. cbn [andb orb].
  rewrite Z.max_l by lia. destruct (NormalizeCapacity_spec g ltac:(lia)) as (k & -> & Hk & Hge & Hle). cbn [mbind res_bind].
  pose proof (Z.pow_le_mono_r 2 1 k). replace (0 <? 2 ^ k - 1) with true by lia.
  assert (forall n', Z.of_nat n' = 2 ^ k - 1 -> cap_ok n' -> n <= growth n') as Hroom.
  { intros n' En' (k' & Hk' & Ek'). assert (k = k') by (apply (Z.pow_inj_r 2); lia). subst k'.
    replace n' with (Z.to_nat (2 ^ k - 1)) by lia. apply lowerbound_growth; [done|lia|done]. }
  destruct (resize_any hash alloc junk Halloc (@new_table K V) [] k new_source eq_refl eq_refl ltac:(lia)) as (t & ok & E & Hok).
  { intros Ha%Halloc. change (countb IsFull []) with 0.
    assert (k <= 59) by (destruct (Z.le_gt_cases k 59); [done|]; pose proof (Z.pow_lt_mono_r 2 59 k); lia).
    pose proof (growth_bounds (Z.to_nat (2 ^ k - 1)) ltac:(exists k; lia)). lia. }
  exists t, ok. split; [done|]. destruct ok; [|destruct Hok as [-> Ha]; split; [done|]; exists (2 ^ k - 1); split; [lia|done]]. destruct Hok as (cs & HI & L & Nd & Nf & _).
  exists cs. split_and!; [done|done|done|]. apply Hroom; [done|apply (inv_cap _ _ _ HI)].
Qed.

(** ** Copying *)

Lemma copy_elements_spec l : NoDup l.*1 -> forall t cs, core false t cs -> countb IsDeleted cs = 0 ->
  countb IsFull cs + Z.of_nat (length l) <= growth (length cs) -> (forall k v, k ∈ l.*1 -> ~ has t k v) ->
  exists t' cs', copy_elements hash l t = Ok t' /\ core false t' cs' /\ length cs' = length cs /\ countb IsDeleted cs' = 0 /\
    countb IsFull cs' = countb IsFull cs + Z.of_nat (length l) /\ growth_left t' = growth_left t /\
    forall k v, has t' k v <-> has t k v \/ (k, v) ∈ l.
Proof.
  intros Hnd. induction l as [|[k v] l IH]; intros t cs Hc Hd Hroom Hnew; cbn [copy_elements].
  - exists t, cs. simpl. split_and!; [done..|lia|done|]. intros k v. rewrite elem_of_nil. tauto.
  - simpl in Hnd, Hnew, Hroom. apply NoDup_cons in Hnd as [Hk Hnd]. cbn [fst].
    pose proof (countb_split cs (core_bytes _ _ _ _ Hc)) as Hsp. destruct (growth_bounds _ (core_cap _ _ _ _ Hc)) as (Hgb & _ & Hbig).
    destruct (place_free hash t cs k Hc) as (p & c & ctrl' & -> & Hp & Ec & Hs & Hset & Hr & HP).
    { destruct (countb_pos IsEmpty cs) as (p & c & Hp & E%Z.eqb_eq); [lia|]. subst c. by exists p, kEmpty. }
    { intros w. apply Hnew. by left. }
    cbn [mbind res_bind]. rewrite (Hset t) by done. cbn [mbind res_bind].
    destruct (countb_place cs p c (H2 (hash k)) Hp Ec (core_byte _ _ _ _ Hc p c Hp) ltac:(apply H2_range)) as (Nf & Nd & Eb).
    assert (IsEmpty c = true) as Ee by (pose proof (countb_zero IsDeleted cs Hd p c Hp) as E; rewrite Eb in E; by destruct (IsEmpty c)).
    rewrite Ee, Hd in Nd. change (countb IsDeleted (<[p := H2 (hash k)]> cs) = 0) in Nd. set (cs1 := <[p := H2 (hash k)]> cs) in *. set (t1 := upd_slots (<[p := Some (k, v)]> (slots_ t)) (upd_ctrl ctrl' t)).
    assert (length cs1 = length cs) as L1 by apply length_insert.
    assert (core false t1 cs1) as Hc1 by (split; [rewrite L1; apply (core_capacity _ _ _ _ Hc)|done|apply HP]).
    assert (has_empty cs1) as He1.
    { destruct (decide (small (length cs1))) as [Hsm|Hsm]; [by left|right]. rewrite L1 in Hsm. specialize (Hbig Hsm).
      pose proof (countb_split cs1 (core_bytes _ _ _ _ Hc1)).
      destruct (countb_pos IsEmpty cs1) as (q & b & Hq & E%Z.eqb_eq); [lia|]. subst b. by exists q. }
    pose proof (lookup_lt_Some _ _ _ Hs) as Hlt. unfold emplace_at. cbn [slots_ upd_ctrl fst]. rewrite wr_Ok by lia. cbn [mbind res_bind].
    rewrite Nat2Z.id. fold t1. rewrite (find_at hash t1 cs1 p k v Hc1 He1) by (by apply list_lookup_insert_eq).
    cbn [mbind res_bind]. rewrite bool_decide_true by done. cbn [assert mbind res_bind].
    assert (forall k' v', has t1 k' v' <-> (k' = k /\ v' = v) \/ has t k' v') as Hh1 by (intros k' v'; by apply has_insert).
    destruct (IH Hnd t1 cs1 Hc1) as (t' & cs' & -> & Hc' & L' & Hd' & Nf' & Hg' & Hh'); [done|rewrite L1; lia| |].
    { intros k' w Hin [[-> _]|Hh]%Hh1; [done|]. by apply (Hnew k' w); [right|]. }
    exists t', cs'. split_and!; [done|done|lia|done|simpl; lia|done|].
    intros k' v'. rewrite Hh', Hh1, elem_of_cons. split; [intros [[[-> ->]|?]|?]|intros [?|[[= -> ->]|?]]]; auto.
Qed.

(** the copy has the elements of the original *)
Lemma copy_construct_wf that m : wf that m ->
  exists r, copy_construct hash alloc junk that = Ok r /\
    match r with Some t => wf t m | None => exists c, c <= 4 * size_ that /\ alloc c = false end.
Proof.
  intros Hwf. pose proof (wf_size hash that m Hwf) as Hsz. destruct (elements_wf that m Hwf) as [El Hperm].
  unfold copy_construct. destruct (decide (m = ∅)) as [->|Hne].
  - rewrite map_size_empty in Hsz. rewrite Hsz. change (reserve hash alloc junk (@new_table K V) (Z.of_nat 0)) with (reserve hash alloc junk (@new_table K V) 0).
    assert (reserve hash alloc junk (@new_table K V) 0 = Ok (new_table, true)) as ->.
    { unfold reserve, GrowthToLowerboundCapacity. change (0 =? 7) with false. rewrite andb_false_r. reflexivity. }
    cbn [mbind res_bind fst snd]. rewrite El. rewrite map_to_list_empty in Hperm. apply Permutation_nil_r in Hperm. rewrite Hperm.
    cbn [mbind res_bind copy_elements]. eexists. split; [done|]. left. split; [done|done].
  - assert (0 < size m)%nat as Hpos by (destruct (size m) eqn:E; [by apply map_size_empty_iff in E|lia]).
    assert (size_ that < 2 ^ 59) as Hlt.
    { destruct (wf_source hash that m Hwf) as (cs & _ & _ & Es & [[-> ->]|HI] & _); [done|]. rewrite Es.
      pose proof (inv_split _ _ _ HI). pose proof (cap_bounds _ (inv_cap _ _ _ HI)).
      pose proof (countb_nonneg IsDeleted cs). pose proof (countb_nonneg IsEmpty cs). lia. }
    destruct (reserve_new (size_ that) ltac:(lia)) as (t0 & ok & E & Hok). rewrite E. cbn [mbind res_bind fst snd].
    destruct ok; [|by exists None; destruct Hok].
    rewrite El. cbn [mbind res_bind]. destruct Hok as (cs & HI & Nf & Nd & Hg). pose proof (inv_core _ _ _ HI) as Hc.
    assert (Z.of_nat (length (contents that)) = size_ that) as Lc by (rewrite Hsz, Hperm; by rewrite length_map_to_list).
    destruct (copy_elements_spec (contents that)) with (t := t0) (cs := cs) as (t' & cs' & -> & Hc' & L' & Nd' & Nf' & Hgl & Hh).
    { rewrite Hperm. apply NoDup_fst_map_to_list. }
    { done. } { done. } { lia. }
    { intros k v _ [p Hp]. destruct (core_has_full hash t0 cs p k v Hc Hp) as (c & Hcp & Hf).
      pose proof (countb_zero IsFull cs Nf p c Hcp) as Hnf. unfold IsFull in Hnf. lia. }
    cbn [mbind res_bind]. eexists. split; [done|]. right. exists cs'.
    pose proof (inv_growth _ _ _ HI) as Hg0. pose proof (cap_bounds _ (inv_cap _ _ _ HI)). destruct (growth_bounds _ (inv_cap _ _ _ HI)) as (Hgb & _).
    split.
    + assert (u64 (growth_left t' - size_ that) = growth (length cs) - size_ that) as Eg by (rewrite wrapu_id; [lia|unfold inu; lia]).
      split; cbn [size_ growth_left upd_growth upd_size]; rewrite ?L', ?Eg;
        [by apply (core_ext hash false t')|lia|lia|lia|done].
    + intros k v. unfold has in Hh |- *. cbn [slots_ upd_growth upd_size]. rewrite Hh, Hperm, elem_of_map_to_list. split; [auto|].
      intros [[p Hp]|?]; [|done]. exfalso. destruct (core_has_full hash t0 cs p k v Hc Hp) as (c & Hcp & Hf).
      pose proof (countb_zero IsFull cs Nf p c Hcp) as Hnf. unfold IsFull in Hnf. lia.
Qed.

End Iter.
