(* ===== verification/SwissHistory.v ===== *)
(** * phmap: sequences of calls

    A client of a table and its specification as a finite map, and how the
    capacity of a table evolves: it grows only if the elements or a request
    need it. *)

From S2P Require Import Prelude.
From S2P Require Import Simd.
From S2P Require Import SwissGroup.
From S2P Require Import SwissGroupOk.
From S2P Require Import SwissTable.
From S2P Require Import SwissProbe.
From S2P Require Import SwissInv.
From S2P Require Import SwissPlaced.
From S2P Require Import SwissResize.
From S2P Require Import SwissDrop.
From S2P Require Import SwissMap.
From S2P Require Import SwissErase.
From S2P Require Import SwissIter.

(** ** Calls *)

Inductive call {K V : Type} :=
| CEmplace (k : K) (v : V)
| CAssign (k : K) (v : V)
| CSubscript (k : K) (dflt : V)
| CContains (k : K)
| CAt (k : K)
| CErase (k : K)
| CClear
| CReserve (n : Z)
| CRehash (n : Z)
| CSize.
Arguments call : clear implicits.

Inductive reply {V : Type} :=
| RBool (b : bool)
| RVal (v : option V)
| RNum (n : Z)
| RUnit
| RThrow.
Arguments reply : clear implicits.

Section Calls.
Context `{G : Group} {K V : Type} `{!EqDecision K} (hash : K -> Z) (alloc : Z -> bool) (junk : Z).

(** what a call returns; [std::bad_alloc] is [RThrow] *)
Definition exec (t : table K V) (c : call K V) : res (table K V * reply V) :=
  match c with
  | CEmplace k v =>
      r ← emplace hash alloc junk t k v;
      Ok (fst r, match snd r with Some (_, b) => RBool b | None => RThrow end)
  | CAssign k v =>
      r ← insert_or_assign hash alloc junk t k v;
      Ok (fst r, match snd r with Some (_, b) => RBool b | None => RThrow end)
  | CSubscript k dflt =>
      r ← subscript hash alloc junk dflt t k;
      Ok (fst r, match snd r with Some v => RVal (Some v) | None => RThrow end)
  | CContains k => b ← contains hash t k; Ok (t, RBool b)
  | CAt k => v ← at_ hash t k; Ok (t, RVal v)
  | CErase k => r ← erase hash t k; Ok (fst r, RNum (snd r))
  | CClear => t ← clear t; Ok (t, RUnit)
  | CReserve n => r ← reserve hash alloc junk t n; Ok (fst r, if snd r : bool then RUnit else RThrow)
  | CRehash n => r ← rehash hash alloc junk t n; Ok (fst r, if snd r : bool then RUnit else RThrow)
  | CSize => Ok (t, RNum (size_ t))
  end.

Fixpoint exec_all (t : table K V) (cs : list (call K V)) : res (table K V * list (reply V)) :=
  match cs with
  | [] => Ok (t, [])
  | c :: cs =>
      r ← exec t c;
      rs ← exec_all (fst r) cs;
      Ok (fst rs, snd r :: snd rs)
  end.

(** the calls considered: the arguments are [size_t], the bound that
    [reserve(n)] computes does not overflow, and a table is not rehashed to the
    smallest capacity ([rehash(0)], [reserve(0)]) if its elements are more than
    the load factor of that capacity allows *)
Definition call_ok (size : Z) (c : call K V) : bool :=
  match c with
  | CReserve n => (0 <=? n) && (n <? 2 ^ 64) && negb (n =? 2 ^ 63) && rehash_fits n size
  | CRehash n => (0 <=? n) && (n <? 2 ^ 64) && rehash_fits n size
  | _ => true
  end.

(** each call of a run is one of these in the table it meets *)
Fixpoint calls_ok (t : table K V) (cs : list (call K V)) : bool :=
  match cs with
  | [] => true
  | c :: cs => call_ok (size_ t) c && match exec t c with Ok (t, _) => calls_ok t cs | Err _ => true end
  end.

End Calls.

(** ** The specification: a finite map *)

Section Spec.
Context {K V : Type} `{Countable K}.

Definition spec_call (m : gmap K V) (c : call K V) : gmap K V * reply V :=
  match c with
  | CEmplace k v => match m !! k with Some _ => (m, RBool false) | None => (<[k := v]> m, RBool true) end
  | CAssign k v => (<[k := v]> m, RBool (bool_decide (m !! k = None)))
  | CSubscript k dflt => match m !! k with Some v => (m, RVal (Some v)) | None => (<[k := dflt]> m, RVal (Some dflt)) end
  | CContains k => (m, RBool (bool_decide (is_Some (m !! k))))
  | CAt k => (m, RVal (m !! k))
  | CErase k => (delete k m, RNum (if decide (is_Some (m !! k)) then 1 else 0))
  | CClear => (∅, RUnit)
  | CReserve _ | CRehash _ => (m, RUnit)
  | CSize => (m, RNum (Z.of_nat (size m)))
  end.

(** the calls that allocate *)
Definition may_throw (m : gmap K V) (c : call K V) : Prop :=
  match c with
  | CEmplace k _ | CAssign k _ | CSubscript k _ => m !! k = None
  | CReserve _ | CRehash _ => True
  | _ => False
  end.

(** a call returns what the map returns, or throws and changes nothing *)
Inductive map_run : gmap K V -> list (call K V) -> list (reply V) -> gmap K V -> Prop :=
| run_nil m : map_run m [] [] m
| run_ret m c cs rs m' :
    map_run (fst (spec_call m c)) cs rs m' -> map_run m (c :: cs) (snd (spec_call m c) :: rs) m'
| run_throw m c cs rs m' :
    may_throw m c -> map_run m cs rs m' -> map_run m (c :: cs) (RThrow :: rs) m'.

Fixpoint spec_all (m : gmap K V) (cs : list (call K V)) : gmap K V * list (reply V) :=
  match cs with
  | [] => (m, [])
  | c :: cs =>
      let r := spec_call m c in
      let rs := spec_all (fst r) cs in
      (fst rs, snd r :: snd rs)
  end.

End Spec.

(** the elements a call asks room for *)
Definition call_size {K V} (c : call K V) : Z :=
  match c with CReserve n | CRehash n => n | _ => 0 end.

(** ** One call *)

Section Step.
Context `{GOk : GroupOk} {K V : Type} `{Countable K} (hash : K -> Z) (alloc : Z -> bool) (junk : Z).
Hypothesis Halloc : forall n, alloc n = true -> n < 2 ^ 59 - 1.
Implicit Types (t : table K V) (m : gmap K V).
Abbreviation wf := (wf (V := V) hash).
Abbreviation exec := (exec (V := V) hash alloc junk).
Abbreviation exec_all := (exec_all (V := V) hash alloc junk).
Abbreviation calls_ok := (calls_ok (V := V) hash alloc junk).

Lemma contains_wf t m k : wf t m -> contains hash t k = Ok (bool_decide (is_Some (m !! k))).
Proof.
  intros Hwf. destruct (find_wf hash t m k Hwf) as (r & E & Hr). unfold contains. rewrite E. cbn [mbind res_bind]. f_equal.
  apply bool_decide_ext. destruct r as [i|].
  - destruct Hr as (p & v & -> & _ & ->). split; eauto.
  - rewrite Hr. split; intros [? ?]; done.
Qed.

Lemma at_wf t m k : wf t m -> at_ hash t k = Ok (m !! k).
Proof.
  intros Hwf. destruct (find_wf hash t m k Hwf) as (r & E & Hr). unfold at_. rewrite E. cbn [mbind res_bind].
  destruct r as [i|]; [|by rewrite Hr]. destruct Hr as (p & v & -> & Hp & ->).
  unfold element. by rewrite (rd_nat _ _ _ Hp).
Qed.

(** the slot an insertion returns holds the element of the key *)
Lemma emplace_slot t m k v t' i b : wf t m -> emplace hash alloc junk t k v = Ok (t', Some (i, b)) ->
  exists p, i = Z.of_nat p /\ slots_ t' !! p = Some (Some (k, if b then v else default v (m !! k))).
Proof.
  intros Hwf. unfold emplace. destruct (find_or_prepare_insert_spec hash alloc junk Halloc t m k Hwf) as (t1 & r & -> & Hr).
  cbn [mbind res_bind]. destruct r as [[i' []]|].
  - destruct Hr as (Hk & p & -> & [Hs _]). destruct (emplace_at hash t1 (Z.of_nat p) (k, v)) as [t2|] eqn:E; [|done].
    cbn [mbind res_bind]. intros [= <- <- <-]. exists p. split; [done|].
    unfold emplace_at in E. pose proof (lookup_lt_Some _ _ _ Hs). rewrite wr_Ok in E by lia. cbn [mbind res_bind] in E.
    destruct (find hash _ _); [|done]. cbn [mbind res_bind] in E. destruct (assert _); [|done]. cbn [mbind res_bind] in E.
    injection E as <-. cbn [slots_ upd_slots]. rewrite Nat2Z.id. by apply list_lookup_insert_eq.
  - destruct Hr as (-> & p & w & -> & Hp & Hk). intros [= <- <- <-]. exists p. by rewrite Hk.
  - done.
Qed.

Lemma call_ok_reserve {K' V'} size n : call_ok size (CReserve n : call K' V') = true ->
  exists c, GrowthToLowerboundCapacity n = Ok c /\ 0 <= c < 2 ^ 64 /\ rehash_fits c size = true.
Proof.
  cbn [call_ok]. rewrite !andb_true_iff, negb_true_iff, Z.leb_le, Z.ltb_lt, Z.eqb_neq. intros [[[H1 H2] H3] Hf].
  destruct (lowerbound_any n ltac:(lia) H3) as (c & -> & Hc & H0). exists c. split_and!; [done|lia|lia|].
  unfold rehash_fits in *. destruct (decide (n = 0)) as [E|E]; [by rewrite (proj1 H0 E); rewrite E in Hf|].
  by replace (0 <? c) with true by lia.
Qed.

Lemma exec_spec t m c : wf t m -> call_ok (size_ t) c = true ->
  exists t' r m', exec t c = Ok (t', r) /\ wf t' m' /\
    ((m', r) = spec_call m c \/ r = RThrow /\ m' = m /\ may_throw m c).
Proof.
  intros Hwf Hok. destruct c as [k v|k v|k dflt|k|k|k| |n|n|]; cbn [SwissHistory.exec spec_call may_throw].
  - destruct (emplace_wf hash alloc junk Halloc t m k v Hwf) as (t' & r & -> & Hr). cbn [mbind res_bind fst snd].
    destruct r as [[i []]|].
    + destruct Hr as [-> Hwf']. by eexists _, _, _; split_and!; [..|left].
    + destruct Hr as [-> [w ->]]. by eexists _, _, _; split_and!; [..|left].
    + destruct Hr as (Hk & -> & _). by eexists _, _, m; split_and!; [..|right].
  - destruct (insert_or_assign_wf hash alloc junk Halloc t m k v Hwf) as (t' & r & -> & Hr). cbn [mbind res_bind fst snd].
    destruct r as [[i b]|].
    + destruct Hr as [-> Hwf']. by eexists _, _, _; split_and!; [..|left].
    + destruct Hr as (Hk & -> & _). by eexists _, _, m; split_and!; [..|right].
  - unfold subscript. destruct (emplace_wf hash alloc junk Halloc t m k dflt Hwf) as (t' & r & E & Hr). rewrite E. cbn [mbind res_bind].
    destruct r as [[i b]|].
    + destruct (emplace_slot t m k dflt t' i b Hwf E) as (p & -> & Hp). unfold element. rewrite (rd_nat _ _ _ Hp).
      cbn [mbind res_bind of_option fst snd]. destruct b.
      * destruct Hr as [-> Hwf']. by eexists _, _, _; split_and!; [..|left].
      * destruct Hr as [-> [w Hk]]. rewrite Hk. by eexists _, _, _; split_and!; [..|left].
    + destruct Hr as (Hk & -> & _). by eexists _, _, m; split_and!; [..|right].
  - rewrite (contains_wf t m k Hwf). cbn [mbind res_bind]. by eexists _, _, _; split_and!; [..|left].
  - rewrite (at_wf t m k Hwf). cbn [mbind res_bind]. by eexists _, _, _; split_and!; [..|left].
  - destruct (erase_wf hash t m k Hwf) as (t' & -> & Hwf'). cbn [mbind res_bind fst snd]. by eexists _, _, _; split_and!; [..|left].
  - destruct (clear_wf hash t m Hwf) as (t' & -> & Hwf'). cbn [mbind res_bind]. by eexists _, _, _; split_and!; [..|left].
  - destruct (call_ok_reserve _ n Hok) as (c & Ec & Hc & Hfit).
    destruct (rehash_wf hash alloc junk Halloc t m c Hwf Hc Hfit) as (t' & ok & E & Hwf' & Hf).
    unfold reserve. rewrite Ec. cbn [mbind res_bind]. rewrite E. cbn [mbind res_bind fst snd]. destruct ok; [exists t', RUnit, m|exists t', RThrow, m]; naive_solver.
  - cbn [call_ok] in Hok. rewrite !andb_true_iff, Z.leb_le, Z.ltb_lt in Hok. destruct Hok as [Hn Hfit].
    destruct (rehash_wf hash alloc junk Halloc t m n Hwf Hn Hfit) as (t' & ok & E & Hwf' & Hf).
    rewrite E. cbn [mbind res_bind fst snd]. destruct ok; [exists t', RUnit, m|exists t', RThrow, m]; naive_solver.
  - rewrite (wf_size hash t m Hwf). by eexists _, _, _; split_and!; [..|left].
Qed.

Lemma exec_all_spec cs : forall t m, wf t m -> calls_ok t cs = true ->
  exists t' rs m', exec_all t cs = Ok (t', rs) /\ map_run m cs rs m' /\ wf t' m'.
Proof.
  induction cs as [|c cs IH]; intros t m Hwf Hok; cbn [SwissHistory.exec_all].
  - exists t, [], m. split_and!; [done|constructor|done].
  - cbn [SwissHistory.calls_ok] in Hok. apply andb_true_iff in Hok as [Hc Hcs].
    destruct (exec_spec t m c Hwf Hc) as (t1 & r & m1 & E & Hwf1 & Hr). rewrite E in *. cbn [mbind res_bind fst snd].
    destruct (IH t1 m1 Hwf1 Hcs) as (t' & rs & m' & E' & Hrun & Hwf'). rewrite E'. cbn [mbind res_bind fst snd].
    exists t', (r :: rs), m'. split_and!; [done| |done]. destruct Hr as [Er|(-> & -> & Ht)].
    + pose proof (f_equal fst Er) as E1. pose proof (f_equal snd Er) as E2. cbn [fst snd] in E1, E2. subst. by constructor.
    + by constructor.
Qed.

End Step.
