(* ===== verification/SwissCapacity.v ===== *)
(** * phmap: how the capacity of a table evolves

    The capacity changes only when a table is rebuilt, and to a capacity that
    the number of elements or a request accounts for. With enough memory for
    that no call throws. *)

From S2P Require Import Prelude.
From S2P Require Import Simd.
From S2P Require Import SwissGroup.
From S2P Require Import SwissGroupOk.
From S2P Require Import SwissTable.
From S2P Require Import SwissProbe.
From S2P Require Import SwissInv.
From S2P Require Import SwissPlaced.
From S2P Require Import SwissResize.
From S2P Require Import SwissDrop.
From S2P Require Import SwissMap.
From S2P Require Import SwissErase.
From S2P Require Import SwissIter.
From S2P Require Import SwissHistory.

(** the first computation of a sequence that succeeds has succeeded *)
Ltac inv_bind H :=
  match type of H with
  | mbind _ ?e = Ok _ => let E := fresh "E" in let x := fresh "x" in destruct e as [x|] eqn:E; cbn [mbind res_bind] in H; [|discriminate H]
  end.

Section Capacity.
Context `{G : Group} {K V : Type} `{!EqDecision K} (hash : K -> Z) (alloc : Z -> bool) (junk : Z).
Implicit Types t : table K V.

Lemma set_ctrl_cap t i h t' : set_ctrl t i h = Ok t' -> capacity_ t' = capacity_ t.
Proof. unfold set_ctrl. intros E. inv_bind E. inv_bind E. inv_bind E. by injection E as <-. Qed.

Lemma reset_growth_cap t t' : reset_growth_left t = Ok t' -> capacity_ t' = capacity_ t.
Proof. unfold reset_growth_left. intros E. inv_bind E. by injection E as <-. Qed.

Lemma reset_ctrl_cap t t' : reset_ctrl t = Ok t' -> capacity_ t' = capacity_ t.
Proof. unfold reset_ctrl. intros E. inv_bind E. inv_bind E. by injection E as <-. Qed.

Lemma initialize_slots_cap t t' : initialize_slots junk t = Ok t' -> capacity_ t' = capacity_ t.
Proof.
  unfold initialize_slots. intros E. inv_bind E. inv_bind E. inv_bind E.
  rewrite (reset_growth_cap _ _ E). by rewrite (reset_ctrl_cap _ _ E2).
Qed.

Lemma resize_loop_cap oc os n : forall i t t', resize_loop hash oc os n i t = Ok t' -> capacity_ t' = capacity_ t.
Proof.
  induction n as [|n IH]; intros i t t' E; cbn [resize_loop] in E; [by injection E as <-|].
  inv_bind E. rewrite (IH _ _ _ E). clear E. unfold resize_one in E0. inv_bind E0. destruct (IsFull _); [|by injection E0 as <-].
  inv_bind E0. inv_bind E0. inv_bind E0. inv_bind E0. injection E0 as <-. cbn [capacity_ upd_slots]. by eapply set_ctrl_cap.
Qed.

Lemma resize_cap t n t' ok : resize hash alloc junk t n = Ok (t', ok) ->
  if ok : bool then capacity_ t' = n else t' = t /\ alloc n = false.
Proof.
  unfold resize. intros E. inv_bind E. destruct (alloc n); [|by injection E as <- <-].
  inv_bind E. inv_bind E. injection E as <- <-. rewrite (resize_loop_cap _ _ _ _ _ _ E2).
  by rewrite (initialize_slots_cap _ _ E1).
Qed.

Lemma drop_step_cap t i t' b : drop_step hash t i = Ok (t', b) -> capacity_ t' = capacity_ t.
Proof.
  unfold drop_step. intros E. inv_bind E. destruct (negb _); [by injection E as <- <-|].
  inv_bind E. inv_bind E. inv_bind E. destruct (_ =? _); [inv_bind E; injection E as <- <-; by eapply set_ctrl_cap|].
  inv_bind E. destruct (IsEmpty _).
  - inv_bind E. inv_bind E. inv_bind E. inv_bind E. injection E as <- <-. rewrite (set_ctrl_cap _ _ _ _ E8).
    cbn [capacity_ upd_slots]. by eapply set_ctrl_cap.
  - inv_bind E. inv_bind E. inv_bind E. inv_bind E. inv_bind E. injection E as <- <-. cbn [capacity_ upd_slots].
    by eapply set_ctrl_cap.
Qed.

Lemma drop_loop_cap fuel : forall t i t', drop_loop hash fuel t i = Ok t' -> capacity_ t' = capacity_ t.
Proof.
  induction fuel as [|fuel IH]; intros t i t' E; cbn [drop_loop] in E; (destruct (_ =? _); [by injection E as <-|]); [done|].
  inv_bind E. destruct x as [t1 b]. rewrite (IH _ _ _ E). by eapply drop_step_cap.
Qed.

Lemma drop_deletes_cap t t' : drop_deletes_without_resize hash t = Ok t' -> capacity_ t' = capacity_ t.
Proof.
  unfold drop_deletes_without_resize. intros E. inv_bind E. inv_bind E. inv_bind E. inv_bind E.
  rewrite (reset_growth_cap _ _ E). by rewrite (drop_loop_cap _ _ _ _ E3).
Qed.

(** the capacity an insertion into a table without room asks for *)
Definition wants t (n : Z) : Prop :=
  (capacity_ t = 0 /\ n = 1) \/
  exists g, CapacityToGrowth (capacity_ t) = Ok g /\ g / 2 < size_ t /\ n = u64 (u64 (capacity_ t * 2) + 1).

(** the table keeps its capacity or gets the one it asks for; or that is refused *)
Definition grown t (t' : table K V) (ok : bool) : Prop :=
  if ok then capacity_ t' = capacity_ t \/ wants t (capacity_ t')
  else exists n, wants t n /\ alloc n = false.

Lemma grow_cap t t' ok : rehash_and_grow_if_necessary hash alloc junk t = Ok (t', ok) -> grown t t' ok.
Proof.
  unfold rehash_and_grow_if_necessary. intros E. destruct (Z.eqb_spec (capacity_ t) 0) as [E0|E0].
  - apply resize_cap in E. destruct ok; [right; left; done|]. exists 1. split; [by left|by destruct E].
  - inv_bind E. destruct (Z.leb_spec (size_ t) (x / 2)).
    + inv_bind E. injection E as <- <-. left. by apply drop_deletes_cap.
    + apply resize_cap in E. destruct ok; [right; right; eauto|]. destruct E as [_ Ha]. eexists. split; [right; eauto|done].
Qed.

Lemma prepare_insert_cap t h t' r : prepare_insert hash alloc junk t h = Ok (t', r) -> grown t t' (bool_decide (is_Some r)).
Proof.
  unfold prepare_insert, occupy. intros E. inv_bind E. inv_bind E. inv_bind E. destruct x1 as [t1 [target|]].
  - inv_bind E. inv_bind E3. apply set_ctrl_cap in E3. cbn [capacity_ upd_growth upd_size] in E3.
    injection E as <- <-. rewrite bool_decide_true by eauto. unfold grown. rewrite E3. destruct x0; [|injection E2 as <- <-; by left].
    inv_bind E2. destruct x0 as [t2 ok]. apply grow_cap in E. cbn [fst snd] in E2. destruct ok; [|done]. inv_bind E2.
    injection E2 as <- <-. done.
  - injection E as <- <-. rewrite bool_decide_false by (by intros [? ?]). destruct x0; [|done].
    inv_bind E2. destruct x0 as [t2 ok]. apply grow_cap in E. cbn [fst snd] in E2. destruct ok; [by inv_bind E2|]. done.
Qed.

Lemma find_or_prepare_cap t k t' r : find_or_prepare_insert hash alloc junk t k = Ok (t', r) -> grown t t' (bool_decide (is_Some r)).
Proof.
  unfold find_or_prepare_insert. intros E. inv_bind E. inv_bind E. destruct x0 as [i|].
  - injection E as <- <-. rewrite bool_decide_true by eauto. by left.
  - inv_bind E. destruct x0 as [t1 [i|]]; cbn [fst snd] in E; injection E as <- <-; apply prepare_insert_cap in E2.
    + by rewrite bool_decide_true in * by eauto.
    + by rewrite bool_decide_false in * by (by intros [? ?]).
Qed.

Lemma emplace_at_cap t i e t' : emplace_at hash t i e = Ok t' -> capacity_ t' = capacity_ t.
Proof. unfold emplace_at. intros E. inv_bind E. inv_bind E. inv_bind E. by injection E as <-. Qed.

Lemma grown_ext t t1 t2 ok : capacity_ t2 = capacity_ t1 -> grown t t1 ok -> grown t t2 ok.
Proof. unfold grown. by intros ->. Qed.

Lemma emplace_cap t k v t' r : emplace hash alloc junk t k v = Ok (t', r) -> grown t t' (bool_decide (is_Some r)).
Proof.
  unfold emplace. intros E. inv_bind E. destruct x as [t1 r1]. apply find_or_prepare_cap in E0.
  destruct r1 as [[i []]|]; [inv_bind E| |]; injection E as <- <-; [|done|done].
  rewrite bool_decide_true in * by eauto. eapply grown_ext; [|done]. by eapply emplace_at_cap.
Qed.

Lemma insert_or_assign_cap t k v t' r : insert_or_assign hash alloc junk t k v = Ok (t', r) -> grown t t' (bool_decide (is_Some r)).
Proof.
  unfold insert_or_assign. intros E. inv_bind E. destruct x as [t1 r1]. apply find_or_prepare_cap in E0.
  destruct r1 as [[i []]|]; [inv_bind E|inv_bind E; inv_bind E|]; injection E as <- <-; [| |done];
    rewrite bool_decide_true in * by eauto; (eapply grown_ext; [|done]); [by eapply emplace_at_cap|done].
Qed.

Lemma erase_cap t k t' z : erase hash t k = Ok (t', z) -> capacity_ t' = capacity_ t.
Proof.
  unfold erase. intros E. inv_bind E. destruct x as [i|]; [|by injection E as <- <-]. inv_bind E. injection E as <- <-.
  unfold erase_at in E1. inv_bind E1. inv_bind E1. inv_bind E1. unfold erase_meta_only in E1.
  inv_bind E1. inv_bind E1. inv_bind E1. inv_bind E1. injection E1 as <-. cbn [capacity_ upd_growth].
  by rewrite (set_ctrl_cap _ _ _ _ E7).
Qed.

Lemma clear_cap t t' : clear t = Ok t' -> capacity_ t' = capacity_ t \/ capacity_ t' = 0.
Proof.
  unfold clear. intros E. destruct (size_ t =? 0); [injection E as <-; by left|]. inv_bind E. inv_bind E. injection E as <-.
  destruct (127 <? capacity_ t).
  - injection E0 as <-. unfold destroy_slots. destruct (capacity_ t =? 0); [by left|by right].
  - destruct (negb _); [|injection E0 as <-; by left]. inv_bind E0. left. rewrite (reset_growth_cap _ _ E0).
    by rewrite (reset_ctrl_cap _ _ E).
Qed.

Lemma rehash_cap t n t' ok : rehash hash alloc junk t n = Ok (t', ok) ->
  (if ok : bool then capacity_ t' = capacity_ t \/ capacity_ t' = 0 \/ NormalizeCapacity (Z.max n (size_ t)) = Ok (capacity_ t')
   else exists c, NormalizeCapacity (Z.max n (size_ t)) = Ok c /\ alloc c = false).
Proof.
  unfold rehash. intros E. destruct (_ && _); [injection E as <- <-; by left|].
  destruct (_ && _); [injection E as <- <-; unfold destroy_slots; destruct (capacity_ t =? 0); auto|].
  inv_bind E. destruct (_ || _); [|injection E as <- <-; by left]. apply resize_cap in E.
  destruct ok; [right; right; by rewrite E|]. destruct E. eauto.
Qed.

End Capacity.

(** ** Enough memory *)

Section Bounded.
Context `{GOk : GroupOk} {K V : Type} `{Countable K} (hash : K -> Z) (alloc : Z -> bool) (junk : Z).
Hypothesis Halloc : forall n, alloc n = true -> n < 2 ^ 59 - 1.
(** tables of up to [S] elements are used, and capacities up to [C] are available *)
Context (S C : Z) (HC : 5 * S + 4 <= C) (Hmem : forall n, n <= C -> alloc n = true).
Implicit Types (t : table K V) (m : gmap K V).
Abbreviation wf := (wf (V := V) hash).
Abbreviation exec := (exec (V := V) hash alloc junk).
Abbreviation exec_all := (exec_all (V := V) hash alloc junk).

Lemma growth_load n : 7 * Z.of_nat n <= 8 * growth n + 8.
Proof.
  unfold growth. destruct (kWidth =? 8), (Z.eqb_spec (Z.of_nat n) 7); cbn [andb]; try lia.
  all: pose proof (Z.mul_div_le (Z.of_nat n) 8 ltac:(lia)); lia.
Qed.

Lemma wants_bound t m n : wf t m -> wants t n -> n <= 5 * size_ t + 1.
Proof.
  intros [[-> _]|(cs & HI & _)] [[E ->]|(g & Eg & Hg & ->)]; [done|done| |].
  - pose proof (core_capacity _ _ _ _ (inv_core _ _ _ HI)). pose proof (cap_bounds _ (inv_cap _ _ _ HI)). lia.
  - rewrite (core_capacity _ _ _ _ (inv_core _ _ _ HI)) in *. pose proof (cap_bounds _ (inv_cap _ _ _ HI)).
    rewrite CapacityToGrowth_eq in Eg by apply (inv_cap _ _ _ HI). injection Eg as <-.
    rewrite wrapu_add_l, wrapu_id by (done || unfold inu; lia).
    pose proof (growth_load (length cs)). 
    pose proof (Z.div_mod (growth (length cs)) 2 ltac:(lia)). pose proof (Z.mod_pos_bound (growth (length cs)) 2 ltac:(lia)). lia.
Qed.

Lemma grown_bound t m t' ok : wf t m -> size_ t <= S -> capacity_ t <= C -> grown alloc t t' ok -> ok = true /\ capacity_ t' <= C.
Proof.
  intros Hwf Hs Hc. destruct ok; cbn [grown].
  - intros [->|Hw]; [done|]. pose proof (wants_bound t m _ Hwf Hw). lia.
  - intros (n & Hw & Ha). pose proof (wants_bound t m n Hwf Hw). rewrite Hmem in Ha by lia. done.
Qed.

Lemma rehash_bound t n t' ok : 0 <= size_ t <= S -> 0 <= n <= 2 * S -> S < 2 ^ 60 -> capacity_ t <= C ->
  rehash hash alloc junk t n = Ok (t', ok) -> ok = true /\ capacity_ t' <= C.
Proof.
  intros Hs Hn HS Hc E%rehash_cap.
  assert (exists k, NormalizeCapacity (Z.max n (size_ t)) = Ok (2 ^ k - 1) /\ 2 ^ k - 1 <= C) as (k & Ek & Hle).
  { destruct (decide (Z.max n (size_ t) = 0)) as [->|]; [exists 1; split; [done|lia]|].
    destruct (NormalizeCapacity_spec (Z.max n (size_ t)) ltac:(lia)) as (k & Ek & _ & _ & Hle). exists k. split; [done|lia]. }
  rewrite Ek in E. destruct ok.
  - split; [done|]. destruct E as [->|[->|E]]; [lia|lia|]. injection E as <-. lia.
  - destruct E as (c & [= <-] & Ha). rewrite Hmem in Ha by lia. done.
Qed.

Lemma exec_bounded t m c t' r : wf t m -> call_ok (size_ t) c = true -> Z.of_nat (size m) <= S < 2 ^ 60 -> call_size c <= S -> capacity_ t <= C ->
  exec t c = Ok (t', r) -> r <> RThrow /\ capacity_ t' <= C.
Proof.
  intros Hwf Hok HS Hcs Hc E. pose proof (wf_size hash t m Hwf) as Hsz. assert (size_ t <= S) as Hst by lia.
  destruct c as [k v|k v|k dflt|k|k|k| |n|n|]; cbn [SwissHistory.exec call_size] in *.
  - inv_bind E. destruct x as [t1 o]. apply emplace_cap in E0. apply (grown_bound t m) in E0 as [Ho Hc']; [|done..].
    cbn [fst snd] in E. injection E as <- <-. destruct o as [[i b]|]; [done|]. by apply bool_decide_eq_true in Ho as [? ?].
  - inv_bind E. destruct x as [t1 o]. apply insert_or_assign_cap in E0. apply (grown_bound t m) in E0 as [Ho Hc']; [|done..].
    cbn [fst snd] in E. injection E as <- <-. destruct o as [[i b]|]; [done|]. by apply bool_decide_eq_true in Ho as [? ?].
  - inv_bind E. destruct x as [t1 o]. unfold subscript in E0. inv_bind E0. destruct x as [t2 o2].
    apply emplace_cap in E1. apply (grown_bound t m) in E1 as [Ho Hc']; [|done..].
    destruct o2 as [[i b]|]; [|by apply bool_decide_eq_true in Ho as [? ?]]. inv_bind E0. injection E0 as <- <-.
    cbn [fst snd] in E. by injection E as <- <-.
  - inv_bind E. by injection E as <- <-.
  - inv_bind E. by injection E as <- <-.
  - inv_bind E. destruct x as [t1 z]. apply erase_cap in E0. cbn [fst snd] in E. injection E as <- <-. split; [done|lia].
  - inv_bind E. apply clear_cap in E0. injection E as <- <-. split; [done|lia].
  - inv_bind E. destruct x as [t1 ok]. unfold reserve in E0. destruct (call_ok_reserve _ n Hok) as (c & Ec & Hc0 & _).
    rewrite Ec in E0. cbn [mbind res_bind] in E0. cbn [call_ok] in Hok. rewrite !andb_true_iff, Z.leb_le in Hok.
    assert (0 <= c <= 2 * S) as Hg3.
    { destruct (decide (n = 0)) as [->|].
      - destruct (lowerbound_any 0) as (c' & Ec' & _ & H0); [done|done|]. rewrite Ec in Ec'. injection Ec' as <-.
        pose proof (proj1 H0 eq_refl). lia.
      - destruct (lowerbound_eq n ltac:(lia)) as [Ec' Hl]. rewrite Ec in Ec'. injection Ec' as ->. lia. }
    destruct (rehash_bound t _ t1 ok ltac:(lia) Hg3 ltac:(lia) Hc E0) as [-> Hc'].
    cbn [fst snd] in E. by injection E as <- <-.
  - inv_bind E. destruct x as [t1 ok].
    cbn [call_ok] in Hok. rewrite !andb_true_iff, Z.leb_le in Hok.
    destruct (rehash_bound t n t1 ok ltac:(lia) ltac:(lia) ltac:(lia) Hc E0) as [-> Hc'].
    cbn [fst snd] in E. by injection E as <- <-.
  - by injection E as <- <-.
Qed.

Lemma spec_call_size m c : (size (fst (spec_call m c)) <= Datatypes.S (size m))%nat.
Proof.
  destruct c as [k v|k v|k dflt|k|k|k| |n|n|]; cbn [spec_call fst]; try lia.
  - destruct (m !! k) eqn:E; cbn [fst]; [lia|]. rewrite map_size_insert_None by done. lia.
  - rewrite map_size_insert. destruct (m !! k); unfold id; lia.
  - destruct (m !! k) eqn:E; cbn [fst]; [lia|]. rewrite map_size_insert_None by done. lia.
  - rewrite map_size_delete. destruct (m !! k); unfold id; lia.
  - rewrite map_size_empty. lia.
Qed.

(** with enough memory the replies are those of the map *)
Lemma exec_all_bounded cs : forall t m, wf t m -> calls_ok hash alloc junk t cs = true -> Forall (fun c => call_size c <= S) cs ->
  Z.of_nat (size m) + Z.of_nat (length cs) <= S < 2 ^ 60 -> capacity_ t <= C ->
  exists t', exec_all t cs = Ok (t', snd (spec_all m cs)) /\ wf t' (fst (spec_all m cs)).
Proof.
  induction cs as [|c cs IH]; intros t m Hwf Hok Hcs HS Hc; cbn [SwissHistory.exec_all SwissHistory.calls_ok spec_all fst snd] in *; [by exists t|].
  apply andb_true_iff in Hok as [Hok Hok']. apply Forall_cons in Hcs as [Hs Hcs]. cbn [length] in HS.
  destruct (exec_spec hash alloc junk Halloc t m c Hwf Hok) as (t1 & r & m1 & E & Hwf1 & Hr).
  rewrite E in Hok'. destruct (exec_bounded t m c t1 r Hwf Hok ltac:(lia) Hs Hc E) as [Hr' Hc'].
  destruct Hr as [Er|(-> & _)]; [|done]. pose proof (spec_call_size m c) as Hsize. rewrite <-Er in *. cbn [fst snd] in *.
  destruct (IH t1 m1 Hwf1 Hok' Hcs ltac:(lia) Hc') as (t' & E' & Hwf').
  rewrite E. cbn [mbind res_bind fst snd]. rewrite E'. cbn [mbind res_bind fst snd]. by exists t'.
Qed.

End Bounded.
