(* ===== verification/SwissTheorems.v ===== *)
(** * phmap: the theorems

    Any sequence of calls of a table behaves as on a finite map, for both group
    implementations, any hash function and any allocator; with enough memory no
    call throws. A loop visits every element once and a copy has the same
    elements. A table that is rehashed to capacity 0 can be left without an
    empty slot, and then a lookup of an absent key does not end. *)

From S2P Require Import Prelude.
From S2P Require Import Simd.
From S2P Require Import SwissGroup.
From S2P Require Import SwissGroupOk.
From S2P Require Import SwissTable.
From S2P Require Import SwissProbe.
From S2P Require Import SwissInv.
From S2P Require Import SwissPlaced.
From S2P Require Import SwissResize.
From S2P Require Import SwissDrop.
From S2P Require Import SwissMap.
From S2P Require Import SwissErase.
From S2P Require Import SwissIter.
From S2P Require Import SwissHistory.
From S2P Require Import SwissCapacity.

(** ** Lookups without an empty slot *)

Section Stuck.
Context `{GOk : GroupOk} {K V : Type} `{Countable K} (hash : K -> Z) (alloc : Z -> bool) (junk : Z).
Hypothesis Halloc : forall n, alloc n = true -> n < 2 ^ 59 - 1.
Implicit Types (t : table K V) (cs : list Z) (m : gmap K V).

(** a lookup of an absent key in a table without an empty slot runs out of any fuel *)
Lemma find_stuck t cs key : core hash false t cs -> ~ small (length cs) -> (forall q, cs !! q <> Some kEmpty) ->
  (forall v, ~ has t key v) ->
  forall fuel s, mask_ s = Z.of_nat (length cs) -> 0 <= offset_ s <= Z.of_nat (length cs) ->
  find_probes fuel t key (hash key) s = Err EFuel.
Proof.
  intros Hc Hs Hfull Habs fuel. induction fuel as [|fuel IH]; intros s Em Ho; [done|]. cbn [find_probes].
  destruct (core_window _ _ _ _ Hc (offset_ s) Ho) as (g & -> & Hg & Lg & Hok). cbn [mbind res_bind].
  destruct (core_candidates cs (offset_ s) g (H2 (hash key)) Ho Hg Hok (H2_range _)) as (l & -> & Hl1 & _).
  cbn [mbind res_bind]. destruct (match_key_spec _ _ _ _ Hc key s l Em Hl1) as (r & -> & Hr). cbn [mbind res_bind].
  destruct r as [i|].
  { destruct Hr as (p & v & _ & Hp). exfalso. apply (Habs v). by exists p. }
  assert (MatchEmpty g = 0) as ->.
  { apply (core_stop _ _ _ _ Hc (offset_ s) g Ho Hg Hok). split; [done|]. intros q c Hq _ ->. by apply Hfull in Hq. }
  cbn [Z.eqb negb]. apply IH; unfold probe_next; cbn [mask_ offset_]; [done|]. rewrite Em.
  rewrite land_u64_cap by apply (core_cap _ _ _ _ Hc).
  pose proof (Z.mod_pos_bound (offset_ s + u64 (index_ s + kWidth)) (Z.of_nat (length cs) + 1) ltac:(lia)). lia.
Qed.

(** [rehash(0)] of a table with [2 ^ k - 1] elements fills the new arrays *)
Lemma rehash_zero_full t m k : wf hash t m -> Z.of_nat (size m) = 2 ^ k - 1 -> 4 <= k -> alloc (2 ^ k - 1) = true ->
  exists t' cs, rehash hash alloc junk t 0 = Ok (t', true) /\ core hash false t' cs /\ ~ small (length cs) /\
    (forall q, cs !! q <> Some kEmpty) /\ capacity_ t' = 2 ^ k - 1 /\ forall key v, has t' key v <-> m !! key = Some v.
Proof.
  intros Hwf Hsz Hk Ha. pose proof (wf_size hash t m Hwf) as Hs. pose proof (Z.pow_le_mono_r 2 4 k).
  destruct (wf_source hash t m Hwf) as (ocs & Hsrc & Ec & Es & Hcs & HR).
  assert (capacity_ t <> 0) as Hcap.
  { destruct Hcs as [[-> ->]|HI]; [cbn in Hs; lia|]. rewrite Ec. pose proof (cap_bounds _ (inv_cap _ _ _ HI)). lia. }
  pose proof (Halloc _ Ha) as Hlt.
  assert (k <= 59) by (destruct (Z.le_gt_cases k 59); [done|]; pose proof (Z.pow_lt_mono_r 2 59 k); lia).
  unfold rehash. replace (capacity_ t =? 0) with false by lia. replace (size_ t =? 0) with false by lia. cbn [Z.eqb andb orb].
  rewrite Z.max_r by lia. destruct (NormalizeCapacity_spec (size_ t) ltac:(lia)) as (k' & -> & Hk' & Hge & Hle).
  assert (k' = k) as ->.
  { specialize (Hle ltac:(lia)). destruct (Z.lt_trichotomy k' k) as [Hl|[?|Hl]]; [|done|].
    - pose proof (Z.pow_lt_mono_r 2 k' k). lia.
    - assert (2 ^ (k + 1) <= 2 ^ k') as Hp by (apply Z.pow_le_mono_r; lia). rewrite Z.pow_add_r in Hp by lia. lia. }
  cbn [mbind res_bind]. set (n := Z.to_nat (2 ^ k - 1)). assert (Z.of_nat n = 2 ^ k - 1) as En by lia.
  assert (cap_ok n) as Hn by (exists k; lia).
  destruct (resize_table_spec hash alloc junk t ocs n Hsrc Ec Hn ltac:(lia)) as (t' & ok & E & Hok). rewrite En in E, Hok.
  destruct ok; [|destruct Hok; congruence]. destruct Hok as (cs & Hc & L & Nd & Nf & _ & _ & Hh).
  exists t', cs. split_and!; [done|done| | | |].
  - unfold small. destruct kWidth_cases as [->| ->]; lia.
  - pose proof (countb_split cs (core_bytes _ _ _ _ Hc)) as Hsp. intros q Hq.
    pose proof (countb_zero IsEmpty cs ltac:(lia) q kEmpty Hq). done.
  - rewrite (core_capacity _ _ _ _ Hc). lia.
  - intros key v. rewrite Hh. symmetry. apply HR.
Qed.

End Stuck.

(** the run of a table with enough memory *)
Lemma bounded_run (G : Group) (GOk : GroupOk G) {K V : Type} `{Countable K} (hash : K -> Z) (alloc : Z -> bool) (junk S : Z)
    (calls : list (call K V)) :
  (forall n, alloc n = true -> n < 2 ^ 59 - 1) -> (forall n, n <= 5 * S + 4 -> alloc n = true) ->
  calls_ok hash alloc junk new_table calls = true ->
  Forall (fun c => call_size c <= S) calls -> Z.of_nat (length calls) <= S ->
  exists t l, exec_all hash alloc junk new_table calls = Ok (t, snd (spec_all ∅ calls)) /\
    elements t = Ok l /\ l ≡ₚ map_to_list (fst (spec_all ∅ calls)).
Proof.
  intros Halloc Hmem Hok Hcs Hlen. pose proof (Halloc _ (Hmem (5 * S + 4) ltac:(lia))) as HS.
  destruct (exec_all_bounded hash alloc junk Halloc S (5 * S + 4) ltac:(lia) Hmem calls new_table ∅) as (t & E & Hwf);
    [by left|done|done|rewrite map_size_empty; lia|cbn; lia|].
  destruct (elements_wf hash t _ Hwf) as [El Hp]. by exists t, (contents t).
Qed.

(** ** The theorems *)


(** C10: with enough memory (capacities up to [5 * S + 4] can be allocated, where
    [S] bounds the number of calls and the arguments of [reserve] and [rehash])
    no call of a sequence without an overfull [rehash(0)] ([calls_ok]) throws:
    the replies are exactly those of the finite map. *)
Theorem phmap_history_total `{GOk : GroupOk} {K V : Type} `{Countable K} (hash : K -> Z) (alloc : Z -> bool) (junk S : Z)
    (calls : list (call K V)) :
  (forall n, alloc n = true -> n < 2 ^ 59 - 1) -> (forall n, n <= 5 * S + 4 -> alloc n = true) ->
  calls_ok hash alloc junk new_table calls = true ->
  Forall (fun c => call_size c <= S) calls -> Z.of_nat (length calls) <= S ->
  exists t l, exec_all hash alloc junk new_table calls = Ok (t, snd (spec_all ∅ calls)) /\
    elements t = Ok l /\ l ≡ₚ map_to_list (fst (spec_all ∅ calls)).
Proof. by apply bounded_run. Qed.

(** C21: the two group implementations agree: a table with 16-byte groups (with
    or without SSSE3, with signed or unsigned [char]) and a table with portable
    8-byte groups give the same replies to a sequence of calls, and hold the
    same elements. There is memory for capacities up to [5 * S + 4], where [S]
    bounds the number of calls and the arguments of [reserve] and [rehash], and
    neither table meets an overfull [rehash(0)] ([calls_ok]). *)
Theorem phmap_groups_agree {K V : Type} `{Countable K} (hash : K -> Z) (alloc : Z -> bool) (junk S : Z) (ssse3 uchar : bool)
    (calls : list (call K V)) :
  (forall n, alloc n = true -> n < 2 ^ 59 - 1) -> (forall n, n <= 5 * S + 4 -> alloc n = true) ->
  calls_ok (G := Sse2.GroupSse2Impl ssse3 uchar) hash alloc junk new_table calls = true ->
  calls_ok (G := Portable.GroupPortableImpl) hash alloc junk new_table calls = true ->
  Forall (fun c => call_size c <= S) calls -> Z.of_nat (length calls) <= S ->
  exists t t' replies l l',
    exec_all (G := Sse2.GroupSse2Impl ssse3 uchar) hash alloc junk new_table calls = Ok (t, replies) /\
    exec_all (G := Portable.GroupPortableImpl) hash alloc junk new_table calls = Ok (t', replies) /\
    elements (G := Sse2.GroupSse2Impl ssse3 uchar) t = Ok l /\ elements (G := Portable.GroupPortableImpl) t' = Ok l' /\ l ≡ₚ l'.
Proof.
  intros Halloc Hmem Hok Hok' Hcs Hlen.
  pose proof (fun G GOk Hok => bounded_run G GOk hash alloc junk S calls Halloc Hmem Hok Hcs Hlen) as Hall.
  destruct (Hall _ (Sse2Ok.Sse2_ok ssse3 uchar) Hok) as (t & l & E1 & E2 & P1).
  destruct (Hall _ PortableOk.Portable_ok Hok') as (t' & l' & E3 & E4 & P2).
  exists t, t', (snd (spec_all ∅ calls)), l, l'. split_and!; [done..|by rewrite P1, P2].
Qed.

(** C26: the copy constructor of a table reached by a sequence of calls, without
    an overfull [rehash(0)] ([calls_ok]), either runs out of memory or gives a
    table with the same elements: a loop visits the same elements and every
    lookup gives the same value. *)
Theorem phmap_copy `{GOk : GroupOk} {K V : Type} `{Countable K} (hash : K -> Z) (alloc : Z -> bool) (junk : Z)
    (calls : list (call K V)) t replies :
  (forall n, alloc n = true -> n < 2 ^ 59 - 1) -> calls_ok hash alloc junk new_table calls = true ->
  exec_all hash alloc junk new_table calls = Ok (t, replies) ->
  exists r, copy_construct hash alloc junk t = Ok r /\
    match r with
    | Some t' => size_ t' = size_ t /\ (forall k, at_ hash t' k = at_ hash t k) /\
        exists l l', elements t = Ok l /\ elements t' = Ok l' /\ l ≡ₚ l'
    | None => exists c, c <= 4 * size_ t /\ alloc c = false
    end.
Proof.
  intros Halloc Hok E. destruct (exec_all_spec hash alloc junk Halloc calls new_table ∅) as (t1 & rs & m & E' & _ & Hwf);
    [by left|done|]. rewrite E in E'. injection E' as <- <-.
  destruct (copy_construct_wf hash alloc junk Halloc t m Hwf) as (r & -> & Hr). exists r. split; [done|].
  destruct r as [t'|]; [|done]. split_and!.
  - by rewrite (wf_size hash t' m Hr), (wf_size hash t m Hwf).
  - intros k. by rewrite (at_wf hash t' m k Hr), (at_wf hash t m k Hwf).
  - destruct (elements_wf hash t m Hwf) as [E1 P1], (elements_wf hash t' m Hr) as [E2 P2].
    exists (contents t), (contents t'). split_and!; [done..|by rewrite P1, P2].
Qed.

(** C17: [rehash(0)] (and so [reserve(0)]) of a table with [2 ^ k - 1 >= 15]
    elements succeeds and leaves the table without an empty slot; from then on
    a lookup of any absent key does not end: it runs out of every fuel. *)
Theorem phmap_rehash_zero_hangs `{GOk : GroupOk} {K V : Type} `{Countable K} (hash : K -> Z) (alloc : Z -> bool) (junk k : Z)
    (calls : list (call K V)) t replies :
  (forall n, alloc n = true -> n < 2 ^ 59 - 1) -> calls_ok hash alloc junk new_table calls = true ->
  exec_all hash alloc junk new_table calls = Ok (t, replies) ->
  size_ t = 2 ^ k - 1 -> 4 <= k -> alloc (2 ^ k - 1) = true ->
  exists t', rehash hash alloc junk t 0 = Ok (t', true) /\ reserve hash alloc junk t 0 = Ok (t', true) /\
    capacity_ t' = 2 ^ k - 1 /\
    forall key, contains hash t key = Ok false ->
      exists s, probe t' (hash key) = Ok s /\ forall fuel, find_probes fuel t' key (hash key) s = Err EFuel.
Proof.
  intros Halloc Hok E Hsz Hk Ha. destruct (exec_all_spec hash alloc junk Halloc calls new_table ∅) as (t1 & rs & m & E' & _ & Hwf);
    [by left|done|]. rewrite E in E'. injection E' as <- <-. rewrite (wf_size hash t m Hwf) in Hsz.
  destruct (rehash_zero_full hash alloc junk Halloc t m k Hwf Hsz Hk Ha) as (t' & cs & Er & Hc & Hs & Hfull & Ecap & Hh).
  exists t'. split_and!; [done| |done|].
  - unfold reserve, GrowthToLowerboundCapacity. change (0 =? 7) with false. rewrite andb_false_r. exact Er.
  - intros key Hkey. rewrite (contains_wf hash t m key Hwf) in Hkey. injection Hkey as Hkey%bool_decide_eq_false.
    exists (probe_at (length cs) (H1 (hash key)) 0). split; [by apply (core_probe _ _ _ _ Hc)|]. intros fuel.
    apply (find_stuck hash t' cs key Hc Hs Hfull); [|done|apply probe_off_range].
    intros v Hv. apply Hkey. apply Hh in Hv. by rewrite Hv.
Qed.

(** ** Examples *)

Definition example_hash (k : Z) : Z := u64 (k * 2654435761).
Definition example_alloc (n : Z) : bool := n <? 2 ^ 58.

Definition example_calls : list (call Z Z) :=
  ((fun k => CEmplace k (10 * k)) <$> seqZ 0 20) ++
  [CEmplace 3 7; CAssign 4 5; CAt 3; CAt 4; CContains 99; CSubscript 98 1; CErase 5; CErase 5; CReserve 100; CSize] ++
  (CErase <$> seqZ 6 10) ++ [CRehash 300; CContains 19; CRehash 0; CSize; CRehash (2 ^ 62); CReserve (2 ^ 63 + 1); CAt 19].

(** within the bounds of a small memory *)
Definition small_calls : list (call Z Z) :=
  ((fun k => CEmplace k (10 * k)) <$> seqZ 0 20) ++
  [CAssign 4 5; CSubscript 98 1; CErase 5; CReserve 100; CSize; CReserve 0; CAt 4; CRehash 300; CClear; CRehash 0; CContains 4].

Definition full_calls : list (call Z Z) := (fun k => CEmplace k k) <$> seqZ 0 15.

Definition example_table (calls : list (call Z Z)) : table Z Z * list (reply Z) :=
  match exec_all (G := Sse2.GroupSse2Impl true false) example_hash example_alloc 0 new_table calls with
  | Ok r => r
  | Err _ => (new_table, [])
  end.

Lemma example_alloc_bound n : example_alloc n = true -> n < 2 ^ 59 - 1.
Proof. unfold example_alloc. lia. Qed.

Lemma example_alloc_room n : n <= 5 * 1000 + 4 -> example_alloc n = true.
Proof. unfold example_alloc. lia. Qed.

Lemma small_calls_size : Forall (fun c => call_size c <= 1000) small_calls.
Proof. repeat (apply Forall_cons; split; [cbn; try done; lia|]); by apply Forall_nil. Qed.


Lemma phmap_history_total_witness :
  exists t l,
    exec_all (G := Sse2.GroupSse2Impl true false) example_hash example_alloc 0 new_table small_calls =
      Ok (t, snd (spec_all ∅ small_calls)) /\
    elements (G := Sse2.GroupSse2Impl true false) t = Ok l /\ l ≡ₚ map_to_list (fst (spec_all ∅ small_calls)).
Proof.
  apply (phmap_history_total (G := Sse2.GroupSse2Impl true false) (GOk := Sse2Ok.Sse2_ok true false) _ _ _ 1000);
    [exact example_alloc_bound|exact example_alloc_room|vm_compute; reflexivity|exact small_calls_size|apply Z.leb_le; vm_compute; reflexivity].
Defined.

Lemma phmap_groups_agree_witness :
  exists t t' replies l l',
    exec_all (G := Sse2.GroupSse2Impl false false) example_hash example_alloc 0 new_table small_calls = Ok (t, replies) /\
    exec_all (G := Portable.GroupPortableImpl) example_hash example_alloc 0 new_table small_calls = Ok (t', replies) /\
    elements (G := Sse2.GroupSse2Impl false false) t = Ok l /\ elements (G := Portable.GroupPortableImpl) t' = Ok l' /\ l ≡ₚ l'.
Proof.
  apply (phmap_groups_agree _ _ _ 1000);
    [exact example_alloc_bound|exact example_alloc_room|vm_compute; reflexivity|vm_compute; reflexivity|exact small_calls_size|apply Z.leb_le; vm_compute; reflexivity].
Defined.

Lemma phmap_copy_witness :
  exists r, copy_construct (G := Sse2.GroupSse2Impl true false) example_hash example_alloc 0 (fst (example_table example_calls)) = Ok r /\
    match r with
    | Some t' => size_ t' = size_ (fst (example_table example_calls)) /\
        (forall k, at_ (G := Sse2.GroupSse2Impl true false) example_hash t' k =
                   at_ (G := Sse2.GroupSse2Impl true false) example_hash (fst (example_table example_calls)) k) /\
        exists l l', elements (G := Sse2.GroupSse2Impl true false) (fst (example_table example_calls)) = Ok l /\
          elements (G := Sse2.GroupSse2Impl true false) t' = Ok l' /\ l ≡ₚ l'
    | None => exists c, c <= 4 * size_ (fst (example_table example_calls)) /\ example_alloc c = false
    end.
Proof.
  apply (phmap_copy (G := Sse2.GroupSse2Impl true false) (GOk := Sse2Ok.Sse2_ok true false) example_hash example_alloc 0
    example_calls _ (snd (example_table example_calls)));
    [exact example_alloc_bound|vm_compute; reflexivity|vm_compute; reflexivity].
Defined.

Lemma phmap_rehash_zero_hangs_witness :
  exists t', rehash (G := Sse2.GroupSse2Impl true false) example_hash example_alloc 0 (fst (example_table full_calls)) 0 = Ok (t', true) /\
    reserve (G := Sse2.GroupSse2Impl true false) example_hash example_alloc 0 (fst (example_table full_calls)) 0 = Ok (t', true) /\
    capacity_ t' = 2 ^ 4 - 1 /\
    forall key, contains (G := Sse2.GroupSse2Impl true false) example_hash (fst (example_table full_calls)) key = Ok false ->
      exists s, probe t' (example_hash key) = Ok s /\
        forall fuel, find_probes (G := Sse2.GroupSse2Impl true false) fuel t' key (example_hash key) s = Err EFuel.
Proof.
  apply (phmap_rehash_zero_hangs (G := Sse2.GroupSse2Impl true false) (GOk := Sse2Ok.Sse2_ok true false) example_hash example_alloc 0 4
    full_calls _ (snd (example_table full_calls)));
    [exact example_alloc_bound|vm_compute; reflexivity|vm_compute; reflexivity|vm_compute; reflexivity|lia|vm_compute; reflexivity].
Defined.
