(* ===== verification/SwissOps.v ===== *)
(** * phmap's operations on whole tables (phmap/phmap.h, [raw_hash_set])

    Comparison of tables, assignment, erasure at iterators and of ranges, and
    [merge]. An iterator is the position of its slot; [end()] is the capacity. *)

From S2P Require Import Prelude.
From S2P Require Import Simd.
From S2P Require Import SwissGroup.
From S2P Require Import SwissTable.

Section Ops.
Context `{G : Group} {K V : Type} `{!EqDecision K} `{!EqDecision V}.
Context (hash : K -> Z) (alloc : Z -> bool) (junk : Z).

Abbreviation T := (table K V).
Implicit Types t : T.

Definition count t (key : K) : res Z :=
  it ← find hash t key; Ok (match it with None => 0 | Some _ => 1 end).

(** ** Comparison *)

Fixpoint has_probes (fuel : nat) t (elem : K * V) (hashval : Z) (s : probe_seq) : res bool :=
  match fuel with
  | O => Err EFuel
  | S fuel =>
      g ← group_at (ctrl_ t) (offset_ s);
      l ← bitmask_bits (Z.to_nat T_bits) Shift (Match g (H2 hashval));
      r ← match_in (slots_ t) (fun e => bool_decide (e = elem)) s l;
      match r with
      | Some _ => Ok true
      | None =>
          if negb (MatchEmpty g =? 0) then Ok false
          else
            let s := probe_next s in
            _ ← assert (index_ s <? capacity_ t);
            has_probes fuel t elem hashval s
      end
  end.

Definition has_element t (elem : K * V) : res bool :=
  let hashval := hash (fst elem) in
  s ← probe t hashval; has_probes (probe_fuel t) t elem hashval s.

Fixpoint all_in (l : list (K * V)) (inner : T) : res bool :=
  match l with
  | [] => Ok true
  | elem :: l => b ← has_element inner elem; if (b : bool) then all_in l inner else Ok false
  end.

(** [operator==]: the loop is over the table with the smaller capacity *)
Definition table_eq (a b : T) : res bool :=
  if negb (size_ a =? size_ b) then Ok false
  else
    let '(outer, inner) := if capacity_ b <? capacity_ a then (b, a) else (a, b) in
    l ← elements outer; all_in l inner.

(** ** Assignment *)

Definition swap (this that : T) : T * T := (that, this).

(** [operator=(const&)]: a copy is swapped in and the old arrays are destroyed;
    false is [std::bad_alloc] *)
Definition copy_assign (this that : T) : res (T * bool) :=
  r ← copy_construct hash alloc junk that;
  match r with
  | Some tmp => Ok (fst (swap this tmp), true)
  | None => Ok (this, false)
  end.

(** [operator=(&&)]: this table and the moved-from one *)
Definition move_assign (this that : T) : T * T :=
  let '(tmp, that) := move_construct that in
  (fst (swap this tmp), that).

(** ** Erasing at iterators *)

(** [erase(it)]: the iterator after it *)
Definition erase_iter t (i : Z) : res (T * Z) :=
  next ← next_ t i; t ← erase_at t i; Ok (t, next).

(** [erase(first, last)] *)
Fixpoint erase_range (fuel : nat) t (first last : Z) : res T :=
  if first =? last then Ok t else
  match fuel with
  | O => Err EFuel
  | S fuel =>
      next ← next_ t first;
      t ← erase_at t first;
      erase_range fuel t next last
  end.

(** ** Merging *)

(** the loop over [src] from position [pos]; false is [std::bad_alloc]. An
    element is moved from its slot of [src] if its key is new. *)
Fixpoint merge_loop (fuel : nat) (this src : T) (pos : Z) : res (T * T * bool) :=
  if pos =? capacity_ src then Ok (this, src, true) else
  match fuel with
  | O => Err EFuel
  | S fuel =>
      e ← element (slots_ src) pos;
      r ← find_or_prepare_insert hash alloc junk this (fst e);
      match r with
      | (this, None) => Ok (this, src, false)
      | (this, Some (i, true)) =>
          s ← wr (slots_ this) i (Some e);
          s' ← wr (slots_ src) pos None;
          src ← erase_meta_only (upd_slots s' src) pos;
          next ← next_ src pos;
          merge_loop fuel (upd_slots s this) src next
      | (this, Some (_, false)) =>
          next ← next_ src pos;
          merge_loop fuel this src next
      end
  end.

Definition merge (this src : T) : res (T * T * bool) :=
  pos ← begin_ src; merge_loop (probe_fuel src) this src pos.

End Ops.
