(* ===== verification/SwissOpsSpec.v ===== *)
(** * phmap: comparison, range erasure and merging of tables

    Two tables compare equal exactly when they hold the same elements, whatever
    their capacities; erasing a range removes the elements of its slots;
    [merge] moves the elements with new keys and loses none. *)

From S2P Require Import Prelude.
From S2P Require Import Simd.
From S2P Require Import SwissGroup.
From S2P Require Import SwissGroupOk.
From S2P Require Import SwissTable.
From S2P Require Import SwissProbe.
From S2P Require Import SwissInv.
From S2P Require Import SwissPlaced.
From S2P Require Import SwissResize.
From S2P Require Import SwissDrop.
From S2P Require Import SwissMap.
From S2P Require Import SwissErase.
From S2P Require Import SwissIter.
From S2P Require Import SwissHistory.
From S2P Require Import SwissCapacity.
From S2P Require Import SwissOps.

Section Ops.
Context `{GOk : GroupOk} {K V : Type} `{Countable K} `{!EqDecision V} (hash : K -> Z) (alloc : Z -> bool) (junk : Z).
Hypothesis Halloc : forall n, alloc n = true -> n < 2 ^ 59 - 1.
Implicit Types (t : table K V) (cs : list Z) (m : gmap K V).

Abbreviation core := (core (V := V) hash).
Abbreviation inv := (inv (V := V) hash).
Abbreviation wf := (wf (V := V) hash).

(** ** Comparison *)

Lemma has_probes_spec t cs elem j0 fuel j : core false t cs -> 0 <= j <= j0 -> j0 < groups (length cs) -> j0 - j < Z.of_nat fuel ->
  ~ blocked false cs (probe_off (length cs) (H1 (hash (fst elem))) j0) ->
  exists b, has_probes fuel t elem (hash (fst elem)) (probe_at (length cs) (H1 (hash (fst elem))) j) = Ok b /\
    if b : bool then exists p, slots_ t !! p = Some (Some elem)
    else exists j1, j <= j1 <= j0 /\ ~ blocked false cs (probe_off (length cs) (H1 (hash (fst elem))) j1) /\
      forall j' p c, j <= j' <= j1 -> inwin (length cs) (probe_off (length cs) (H1 (hash (fst elem))) j') p -> cs !! p = Some c -> 0 <= c ->
        slots_ t !! p <> Some (Some elem).
Proof.
  intros Hc Hj Hj0. set (n := length cs) in *. set (h := H1 (hash (fst elem))) in *. revert j Hj.
  induction fuel as [|fuel IH]; intros j Hj Hf Hstop; [lia|]. set (o := probe_off n h j).
  assert (0 <= o <= Z.of_nat n) as Ho by apply probe_off_range.
  destruct (core_window _ _ _ _ Hc o Ho) as (g & Eg & Hg & Lg & Hok). cbn [has_probes].
  change (offset_ (probe_at n h j)) with o. rewrite Eg. cbn [mbind res_bind].
  destruct (core_candidates cs o g (H2 (hash (fst elem))) Ho Hg Hok (H2_range _)) as (l & El & Hl1 & Hl2).
  rewrite El. cbn [mbind res_bind].
  destruct (match_in_spec _ _ _ _ Hc (fun e => bool_decide (e = elem)) (probe_at n h j) l eq_refl Hl1) as (r & Er & Hr).
  rewrite Er. cbn [mbind res_bind]. destruct r as [i|].
  { exists true. split; [done|]. destruct Hr as (p & e & _ & Hp & ->%bool_decide_eq_true). by exists p. }
  assert (forall p c, inwin n o p -> cs !! p = Some c -> 0 <= c -> slots_ t !! p <> Some (Some elem)) as Hnone.
  { intros p c Hw Hp Hfull Hs. destruct (placed_full _ _ _ _ (core_placed _ _ _ _ Hc) p c Hp Hfull) as (k & v' & Hs' & ->).
    rewrite Hs in Hs'. injection Hs' as Ee. rewrite Ee in *. destruct (Hl2 p Hp Hw) as (z & Hz & Ez).
    apply (Hr z p (k, v') Hz Ez); [by apply bool_decide_eq_true|]. congruence. }
  pose proof (core_stop _ _ _ _ Hc o g Ho Hg Hok) as Hst. destruct (Z.eqb_spec (MatchEmpty g) 0) as [E|E]; cbn [negb].
  - apply Hst in E. assert (j <> j0) by (intros ->; done). pose proof (groups_bound n) as [Hb1 Hb2]. pose proof W_cases as HW.
    rewrite probe_at_next; [|apply (core_cap _ _ _ _ Hc)|lia]. cbn [index_ probe_at]. rewrite (core_capacity _ _ _ _ Hc). fold n.
    assert (kWidth * (j + 1) < Z.of_nat n) as Hidx by (specialize (Hb2 ltac:(lia)); nia).
    replace (kWidth * (j + 1) <? Z.of_nat n) with true by lia. cbn [assert mbind res_bind].
    change (ProbeSeq (Z.of_nat n) (probe_off n h (j + 1)) (kWidth * (j + 1))) with (probe_at n h (j + 1)).
    destruct (IH (j + 1) ltac:(lia) ltac:(lia) Hstop) as (b & Eb & Hb). exists b. split; [done|].
    destruct b; [done|]. destruct Hb as (j1 & Hj1 & HB & Hn). exists j1. split_and!; [lia..|done|].
    intros j' p c Hj'. destruct (decide (j' = j)) as [->|]; [apply Hnone|apply Hn; lia].
  - exists false. split; [done|]. exists j. split_and!; [lia..|tauto|].
    intros j' p c Hj'. replace j' with j by lia. apply Hnone.
Qed.

Lemma has_element_new elem : has_element hash (@new_table K V) elem = Ok false.
Proof.
  unfold has_element. cbv zeta. rewrite new_probe. cbn [mbind res_bind probe_fuel capacity_ new_table Z.to_nat has_probes ctrl_ offset_ slots_].
  destruct new_group as (g & -> & Lg & Hok & H0 & HS). cbn [mbind res_bind].
  destruct (group_match g Lg Hok (H2 (hash (fst elem))) (H2_range _)) as (l & -> & _ & Hl). cbn [mbind res_bind].
  assert (l = []) as ->.
  { destruct l as [|z l]; [done|]. destruct (Hl z) as (i & c & _ & Hi & Hf); [by left|].
    destruct i as [|i]; [rewrite H0 in Hi; by injection Hi as <-|]. by rewrite (HS i c Hi) in Hf. }
  cbn [match_in mbind res_bind].
  assert (MatchEmpty g <> 0) as He.
  { apply (group_empty g Lg Hok). apply list_elem_of_lookup. exists 1%nat. pose proof W_cases.
    destruct (lookup_lt_is_Some_2 g 1) as [c Hc]; [lia|]. by rewrite Hc, (HS 0%nat c Hc). }
  by replace (MatchEmpty g =? 0) with false by lia.
Qed.

(** an element is in the table if the map has its key with its value *)
Lemma has_element_wf t m k v : wf t m -> has_element hash t (k, v) = Ok (bool_decide (m !! k = Some v)).
Proof.
  intros [[-> ->]|(cs & HI & HR)]; [by rewrite has_element_new, lookup_empty|].
  pose proof (inv_core _ _ _ HI) as Hc. destruct (stop_exists _ _ _ _ Hc (H1 (hash k)) (inv_has_empty _ _ _ HI)) as (j0 & Hj0 & Hstop).
  destruct (has_probes_spec t cs (k, v) j0 (probe_fuel t) 0 Hc) as (b & Eb & Hb);
    [lia|lia|pose proof (groups_fuel _ _ _ _ Hc j0 Hj0); lia|done|].
  unfold has_element. cbn [fst] in *. cbv zeta. rewrite (core_probe _ _ _ _ Hc). cbn [mbind res_bind]. rewrite Eb. f_equal.
  destruct b; symmetry.
  - apply bool_decide_eq_true, HR. exact Hb.
  - apply bool_decide_eq_false. intros [p Hs]%HR. destruct (core_has_full hash t cs p k v Hc Hs) as (c & Hp & Hfull).
    destruct (placed_reach _ _ _ _ (core_placed _ _ _ _ Hc) p c k v Hp Hfull Hs) as (j & Hj & Hw & HB).
    destruct Hb as (j1 & Hj1 & HB1 & Hn). apply (Hn j p c); [|done..].
    split; [lia|]. destruct (Z.le_gt_cases j j1); [done|]. exfalso. apply HB1, HB. lia.
Qed.

Lemma all_in_wf l t m : wf t m -> all_in hash l t = Ok (bool_decide (Forall (fun e => m !! e.1 = Some e.2) l)).
Proof.
  intros Hwf. induction l as [|[k v] l IH]; cbn [all_in].
  - by rewrite bool_decide_true.
  - rewrite (has_element_wf t m k v Hwf). cbn [mbind res_bind]. destruct (bool_decide_reflect (m !! k = Some v)) as [E|E].
    + rewrite IH. f_equal. apply bool_decide_ext. rewrite Forall_cons. simpl. tauto.
    + f_equal. symmetry. apply bool_decide_eq_false. rewrite Forall_cons. simpl. tauto.
Qed.

(** maps of the same size are equal if one includes the other *)
Lemma map_size_included m1 m2 : size m1 = size m2 -> m1 ⊆ m2 -> m1 = m2.
Proof.
  intros E Hs. apply map_subseteq_size_eq; [done|lia].
Qed.

(** [operator==] is equality of the maps *)
Lemma table_eq_wf a b ma mb : wf a ma -> wf b mb -> table_eq hash a b = Ok (bool_decide (ma = mb)).
Proof.
  intros Ha Hb. unfold table_eq. rewrite (wf_size hash a ma Ha), (wf_size hash b mb Hb).
  destruct (Z.eqb_spec (Z.of_nat (size ma)) (Z.of_nat (size mb))) as [E|E]; cbn [negb].
  2:{ f_equal. symmetry. apply bool_decide_eq_false. intros ->. done. }
  apply Nat2Z.inj in E.
  assert (forall t1 t2 m1 m2, wf t1 m1 -> wf t2 m2 -> size m1 = size m2 ->
    (l ← elements t1; all_in hash l t2) = Ok (bool_decide (m1 = m2))) as Hgen.
  { intros t1 t2 m1 m2 H1 H2 Es. destruct (elements_wf hash t1 m1 H1) as [-> Hp]. cbn [mbind res_bind].
    rewrite (all_in_wf _ t2 m2 H2). f_equal. apply bool_decide_ext. rewrite Hp. split.
    - intros HF. apply map_size_included; [done|]. apply map_subseteq_spec. intros k v Hk.
      rewrite Forall_forall in HF. apply (HF (k, v)). by apply elem_of_map_to_list.
    - intros ->. apply Forall_forall. intros [k v]. by rewrite elem_of_map_to_list. }
  destruct (capacity_ b <? capacity_ a).
  - rewrite (Hgen b a mb ma Hb Ha ltac:(done)). f_equal. apply bool_decide_ext. naive_solver.
  - by apply Hgen.
Qed.

(** ** Assignment *)

Lemma count_wf t m k : wf t m -> count hash t k = Ok (if decide (is_Some (m !! k)) then 1 else 0).
Proof.
  intros Hwf. destruct (find_wf hash t m k Hwf) as (r & E & Hr). unfold count. rewrite E. cbn [mbind res_bind].
  destruct r as [i|]; [destruct Hr as (p & v & _ & _ & ->)|rewrite Hr]; case_decide as Hd; try done.
  exfalso. eauto.
Qed.

Lemma copy_assign_wf this that m1 m2 : wf this m1 -> wf that m2 ->
  exists t ok, copy_assign hash alloc junk this that = Ok (t, ok) /\ wf t (if ok : bool then m2 else m1).
Proof.
  intros H1 H2. destruct (copy_construct_wf hash alloc junk Halloc that m2 H2) as (r & E & Hr). unfold copy_assign. rewrite E.
  cbn [mbind res_bind]. destruct r as [t|]; [exists t, true|exists this, false]; done.
Qed.

Lemma move_assign_wf this that m1 m2 : wf this m1 -> wf that m2 ->
  wf (fst (move_assign this that)) m2 /\ wf (snd (move_assign this that)) ∅.
Proof. intros _ H2. cbn. split; [by destruct that|by left]. Qed.

(** ** Iterators *)

(** an iterator points to an element or is the end *)
Definition iter_at t (p : nat) : Prop := p = length (slots_ t) \/ exists e, slots_ t !! p = Some (Some e).

Lemma core_iter t cs p : core false t cs -> (p <= length cs)%nat -> (forall c, cs !! p = Some c -> IsFull c = true) -> iter_at t p.
Proof.
  intros Hc Hp Hf. destruct (decide (p = length cs)) as [->|]; [left; symmetry; apply (core_slots _ _ _ _ Hc)|right].
  destruct (lookup_lt_is_Some_2 cs p ltac:(lia)) as [c Hcp].
  destruct (core_full_elem _ _ _ _ Hc p c Hcp (Hf c Hcp)) as (k & v & _ & Hs & _). by exists (k, v).
Qed.

Lemma next_spec t cs p : core false t cs -> (p < length cs)%nat ->
  exists q, next_ t (Z.of_nat p) = Ok (Z.of_nat q) /\ (p < q <= length cs)%nat /\ iter_at t q /\
    forall r e, (p < r < q)%nat -> slots_ t !! r <> Some (Some e).
Proof.
  intros Hc Hp. unfold next_. replace (Z.of_nat p + 1) with (Z.of_nat (S p)) by lia.
  destruct (skip_spec hash t cs (probe_fuel t) (S p) Hc ltac:(lia)) as (q & -> & Hq & Hno & Hf);
    [unfold probe_fuel; rewrite (core_capacity _ _ _ _ Hc); lia|].
  exists q. split_and!; [done|lia|lia|apply (core_iter t cs); [done|lia|done]|]. intros r [k v] Hr Hs.
  destruct (core_has_full hash t cs r k v Hc Hs) as (c & Hcr & Hfull). pose proof (Hno r c ltac:(lia) Hcr) as Hnf. unfold IsFull in Hnf. lia.
Qed.

Lemma begin_spec t cs : core false t cs ->
  exists q, begin_ t = Ok (Z.of_nat q) /\ (q <= length cs)%nat /\ iter_at t q /\
    forall r e, (r < q)%nat -> slots_ t !! r <> Some (Some e).
Proof.
  intros Hc. unfold begin_. change 0 with (Z.of_nat 0) at 1.
  destruct (skip_spec hash t cs (probe_fuel t) 0 Hc ltac:(lia)) as (q & -> & Hq & Hno & Hf);
    [unfold probe_fuel; rewrite (core_capacity _ _ _ _ Hc); lia|].
  exists q. split_and!; [done|lia|apply (core_iter t cs); [done|lia|done]|]. intros r [k v] Hr Hs.
  destruct (core_has_full hash t cs r k v Hc Hs) as (c & Hcr & Hfull). pose proof (Hno r c ltac:(lia) Hcr) as Hnf. unfold IsFull in Hnf. lia.
Qed.

Lemma erase_meta_frame t i t' : erase_meta_only t i = Ok t' -> slots_ t' = slots_ t /\ capacity_ t' = capacity_ t.
Proof.
  unfold erase_meta_only. intros E. inv_bind E. inv_bind E. inv_bind E. inv_bind E. injection E as <-.
  cbn [slots_ capacity_ upd_growth]. pose proof (set_ctrl_cap _ _ _ _ E3) as ->. unfold set_ctrl in E3.
  inv_bind E3. inv_bind E3. inv_bind E3. by injection E3 as <-.
Qed.

(** erasing the element of a slot *)
Lemma erase_slot t cs m p k v : inv t cs -> represents t m -> slots_ t !! p = Some (Some (k, v)) ->
  exists t' cs', erase_meta_only (upd_slots (<[p := None]> (slots_ t)) t) (Z.of_nat p) = Ok t' /\
    erase_at t (Z.of_nat p) = Ok t' /\ inv t' cs' /\ represents t' (delete k m) /\
    slots_ t' = <[p := None]> (slots_ t) /\ capacity_ t' = capacity_ t.
Proof.
  intros HI HR Hs. destruct (erase_at_spec hash t cs m p k v HI HR Hs) as (t' & cs' & E & HI' & HR'). exists t', cs'.
  pose proof E as E'. pose proof (lookup_lt_Some _ _ _ Hs). unfold erase_at in E'. inv_bind E'. inv_bind E'. rewrite wr_Ok in E' by lia.
  cbn [mbind res_bind] in E'. rewrite Nat2Z.id in E'. destruct (erase_meta_frame _ _ _ E') as [Es Ec].
  split_and!; done.
Qed.

(** ** Erasing a range *)

(** the elements of the slots of the range are erased *)
Lemma erase_range_spec fuel : forall t cs m p q, inv t cs -> represents t m -> iter_at t p -> iter_at t q ->
  (p <= q <= length cs)%nat -> (q - p <= fuel)%nat ->
  exists t' cs' m', erase_range fuel t (Z.of_nat p) (Z.of_nat q) = Ok t' /\ inv t' cs' /\ represents t' m' /\
    forall k v, has t' k v <-> exists r, slots_ t !! r = Some (Some (k, v)) /\ ~ (p <= r < q)%nat.
Proof.
  induction fuel as [|fuel IH]; intros t cs m p q HI HR Hp Hq Hpq Hf; cbn [erase_range];
    (destruct (Z.eqb_spec (Z.of_nat p) (Z.of_nat q)) as [E|E];
      [exists t, cs, m; split_and!; [done..|]; intros k v; unfold has; split; [intros [r Hr]; exists r; split; [done|lia]|naive_solver]|]); [lia|].
  pose proof (inv_core _ _ _ HI) as Hc. pose proof (core_slots _ _ _ _ Hc) as Hlen.
  destruct Hp as [->|[[k v] Hp]]; [lia|].
  destruct (next_spec t cs p Hc ltac:(lia)) as (p' & -> & Hp' & Hi' & Hno). cbn [mbind res_bind].
  destruct (erase_slot t cs m p k v HI HR Hp) as (t1 & cs1 & _ & -> & HI1 & HR1 & Es & Ec). cbn [mbind res_bind].
  pose proof (core_slots _ _ _ _ (inv_core _ _ _ HI1)) as Hlen1. rewrite Es, length_insert in Hlen1.
  assert (forall r, (p < r)%nat -> iter_at t r -> iter_at t1 r) as Hiter.
  { intros r Hr [->|[e He]]; [left; by rewrite Es, length_insert|right]. exists e. rewrite Es, list_lookup_insert_ne by lia. done. }
  assert (p' <= q)%nat as Hle.
  { destruct (decide (p' <= q)%nat); [done|]. exfalso. destruct Hq as [->|[e He]]; [lia|]. apply (Hno q e); [lia|done]. }
  destruct (IH t1 cs1 (delete k m) p' q HI1 HR1) as (t' & cs' & m' & -> & HI' & HR' & Hh);
    [apply Hiter; [lia|done]|apply Hiter; [lia|done]|lia|lia|].
  exists t', cs', m'. split_and!; [done..|]. intros k' v'. rewrite Hh, Es. split.
  - intros (r & Hr & Hn). assert (r <> p) as Hne by (intros ->; by rewrite list_lookup_insert_eq in Hr by lia).
    rewrite list_lookup_insert_ne in Hr by done. exists r. split; [done|]. intros Hr'. apply (Hno r (k', v')); [|done]. lia.
  - intros (r & Hr & Hn). exists r. rewrite list_lookup_insert_ne by lia. split; [done|lia].
Qed.

(** erasing everything *)
Lemma erase_all_wf t m : wf t m ->
  exists first t', begin_ t = Ok first /\ erase_range (probe_fuel t) t first (capacity_ t) = Ok t' /\ wf t' ∅.
Proof.
  intros [[-> ->]|(cs & HI & HR)]; [exists 0, new_table; split_and!; [done..|by left]|].
  pose proof (inv_core _ _ _ HI) as Hc. destruct (begin_spec t cs Hc) as (p & E & Hp & Hi & Hno).
  destruct (erase_range_spec (probe_fuel t) t cs m p (length cs) HI HR Hi) as (t' & cs' & m' & E' & HI' & HR' & Hh).
  { left. symmetry. apply (core_slots _ _ _ _ Hc). }
  { lia. } { unfold probe_fuel. rewrite (core_capacity _ _ _ _ Hc). lia. }
  exists (Z.of_nat p), t'. rewrite (core_capacity _ _ _ _ Hc). split_and!; [done..|]. right. exists cs'. split; [done|].
  intros k v. rewrite lookup_empty. split; [done|]. intros (r & Hr & Hn)%Hh. exfalso.
  pose proof (lookup_lt_Some _ _ _ Hr) as Hlt. rewrite (core_slots _ _ _ _ Hc) in Hlt. apply (Hno r (k, v)); [lia|done].
Qed.

(** ** Merging *)

(** an element is moved from the second map to the first *)
Definition move1 (a b : gmap K V * gmap K V) : Prop :=
  exists k v, a.1 !! k = None /\ a.2 !! k = Some v /\ b = (<[k := v]> a.1, delete k a.2).

(** every key stays where it is, or its element is moved *)
Lemma moves_lookup a b : rtc move1 a b -> forall k,
  (b.1 !! k = a.1 !! k /\ b.2 !! k = a.2 !! k) \/ (a.1 !! k = None /\ b.1 !! k = a.2 !! k /\ is_Some (a.2 !! k) /\ b.2 !! k = None).
Proof.
  induction 1 as [a|a c b (k0 & v & E1 & E2 & ->) _ IH]; intros k; [auto|]. specialize (IH k). cbn [fst snd] in IH.
  destruct (decide (k = k0)) as [->|Hne].
  - rewrite lookup_insert_eq, lookup_delete_eq in IH. rewrite E1, E2. right. destruct IH as [[? ?]|(? & _)]; [eauto|done].
  - by rewrite lookup_insert_ne, lookup_delete_ne in IH by done.
Qed.

Lemma merge_loop_spec fuel : forall this src cs m1 m2 p, wf this m1 -> inv src cs -> represents src m2 -> iter_at src p ->
  (p <= length cs)%nat -> (length cs - p <= fuel)%nat ->
  exists this' src' ok m1' m2', merge_loop hash alloc junk fuel this src (Z.of_nat p) = Ok (this', src', ok) /\
    wf this' m1' /\ wf src' m2' /\ rtc move1 (m1, m2) (m1', m2') /\
    (ok = true -> forall r k v, (p <= r)%nat -> slots_ src !! r = Some (Some (k, v)) -> is_Some (m1' !! k)).
Proof.
  induction fuel as [|fuel IH]; intros this src cs m1 m2 p H1 HI HR Hp Hle Hf; cbn [merge_loop];
    pose proof (inv_core _ _ _ HI) as Hc; pose proof (core_slots _ _ _ _ Hc) as Hlen; rewrite (core_capacity _ _ _ _ Hc);
    (destruct (Z.eqb_spec (Z.of_nat p) (Z.of_nat (length cs))) as [E|E];
      [exists this, src, true, m1, m2; split_and!;
        [done|done|right; by exists cs|done|intros _ r k v Hr Hs; apply lookup_lt_Some in Hs; lia]|]); [lia|].
  destruct Hp as [->|[[k v] Hp]]; [lia|]. unfold element. rewrite (rd_nat _ _ _ Hp). cbn [mbind res_bind of_option fst].
  assert (m2 !! k = Some v) as Hk2 by (apply HR; by exists p).
  destruct (find_or_prepare_insert_spec hash alloc junk Halloc this m1 k H1) as (this1 & r & -> & Hr). cbn [mbind res_bind].
  destruct r as [[i []]|].
  - destruct Hr as (Hk1 & p1 & -> & Hs1 & HP). destruct (HP v) as (cs1 & HI1 & HR1).
    pose proof (lookup_lt_Some _ _ _ Hs1). rewrite wr_Ok by lia. cbn [mbind res_bind]. rewrite Nat2Z.id.
    rewrite wr_Ok by lia. cbn [mbind res_bind]. rewrite Nat2Z.id.
    destruct (erase_slot src cs m2 p k v HI HR Hp) as (src1 & cs2 & -> & _ & HI2 & HR2 & Es & Ec). cbn [mbind res_bind].
    pose proof (core_slots _ _ _ _ (inv_core _ _ _ HI2)) as Hlen2. rewrite Es, length_insert in Hlen2.
    destruct (next_spec src1 cs2 p (inv_core _ _ _ HI2) ltac:(lia)) as (q & -> & Hq & Hi & Hno). cbn [mbind res_bind].
    destruct (IH _ src1 cs2 (<[k := v]> m1) (delete k m2) q (or_intror (ex_intro _ cs1 (conj HI1 HR1))) HI2 HR2 Hi ltac:(lia) ltac:(lia))
      as (this' & src' & ok & m1' & m2' & -> & Hw1 & Hw2 & Hm & Hall).
    exists this', src', ok, m1', m2'. split_and!; [done..|eapply rtc_l; [|done]; by exists k, v|].
    intros Hok r k' v' Hr Hs. destruct (decide (r = p)) as [->|Hne].
    + rewrite Hp in Hs. injection Hs as <- <-. destruct (moves_lookup _ _ Hm k) as [[E1 _]|(E1 & _)]; cbn [fst] in E1; rewrite lookup_insert_eq in E1; [|done].
      by rewrite E1.
    + apply (Hall Hok r k' v'); [|by rewrite Es, list_lookup_insert_ne].
      destruct (decide (q <= r)%nat); [done|]. exfalso. apply (Hno r (k', v')); [lia|]. by rewrite Es, list_lookup_insert_ne.
  - destruct Hr as (-> & p1 & w & -> & Hp1 & Hk1).
    destruct (next_spec src cs p Hc ltac:(lia)) as (q & -> & Hq & Hi & Hno). cbn [mbind res_bind].
    destruct (IH this src cs m1 m2 q H1 HI HR Hi ltac:(lia) ltac:(lia)) as (this' & src' & ok & m1' & m2' & -> & Hw1 & Hw2 & Hm & Hall).
    exists this', src', ok, m1', m2'. split_and!; [done..|]. intros Hok r k' v' Hr Hs. destruct (decide (r = p)) as [->|Hne].
    + rewrite Hp in Hs. injection Hs as <- <-. destruct (moves_lookup _ _ Hm k) as [[E1 _]|(E1 & _)]; cbn [fst] in E1; rewrite Hk1 in E1; [|done].
      by rewrite E1.
    + apply (Hall Hok r k' v'); [|done]. destruct (decide (q <= r)%nat); [done|]. exfalso. apply (Hno r (k', v')); [lia|done].
  - destruct Hr as (Hk1 & -> & _). exists this, src, false, m1, m2. split_and!; [done|done|right; by exists cs|done|done].
Qed.

(** [merge] moves elements; if it does not throw, no key of [src] is missing from this table *)
Lemma merge_moves this src m1 m2 : wf this m1 -> wf src m2 ->
  exists this' src' ok m1' m2', merge hash alloc junk this src = Ok (this', src', ok) /\ wf this' m1' /\ wf src' m2' /\
    rtc move1 (m1, m2) (m1', m2') /\ (ok = true -> forall k, is_Some (m2 !! k) -> is_Some (m1' !! k)).
Proof.
  intros H1 H2. unfold merge. destruct H2 as [[-> ->]|(cs & HI & HR)].
  - exists this, new_table, true, m1, ∅. split_and!; [done|done|by left|done|]. intros _ k. rewrite lookup_empty. by intros [? ?].
  - pose proof (inv_core _ _ _ HI) as Hc. destruct (begin_spec src cs Hc) as (p & -> & Hp & Hi & Hno). cbn [mbind res_bind].
    destruct (merge_loop_spec (probe_fuel src) this src cs m1 m2 p H1 HI HR Hi Hp) as (this' & src' & ok & m1' & m2' & E & Hw1 & Hw2 & Hm & Hall).
    { unfold probe_fuel. rewrite (core_capacity _ _ _ _ Hc). lia. }
    exists this', src', ok, m1', m2'. split_and!; [done..|]. intros Hok k [v [r Hr]%HR]. apply (Hall Hok r k v); [|done].
    destruct (decide (p <= r)%nat); [done|]. exfalso. apply (Hno r (k, v)); [lia|done].
Qed.

(** what moves do to two maps *)
Lemma moves_merge m1 m2 m1' m2' : rtc move1 (m1, m2) (m1', m2') ->
  m1' ∪ m2' = m1 ∪ m2 /\
  ((forall k, is_Some (m2 !! k) -> is_Some (m1' !! k)) -> m1' = m1 ∪ m2 /\ m2' = filter (fun e => is_Some (m1 !! e.1)) m2).
Proof.
  intros Hm. pose proof (moves_lookup _ _ Hm) as Hl. cbn [fst snd] in Hl. split.
  - apply map_eq. intros k. rewrite !lookup_union. destruct (Hl k) as [[-> ->]|(E1 & E2 & [v E3] & E4)]; [done|].
    by rewrite E1, E2, E4, E3.
  - intros Hall. split; apply map_eq; intros k; specialize (Hl k); specialize (Hall k).
    + rewrite lookup_union. destruct Hl as [[E1 E2]|(E1 & E2 & [v E3] & E4)]; rewrite E1 in *; [|by rewrite E2, E3].
      destruct (m1 !! k) as [x|] eqn:Ex, (m2 !! k) as [y|] eqn:Ey; try done. exfalso. destruct Hall as [? ?]; [eauto|done].
    + rewrite map_lookup_filter. destruct Hl as [[E1 E2]|(E1 & E2 & [v E3] & E4)].
      * rewrite E2. destruct (m2 !! k) as [y|] eqn:Ey; cbn; [|done]. rewrite E1 in Hall. rewrite option_guard_True by (apply Hall; eauto). done.
      * rewrite E4, E3. cbn. rewrite option_guard_False; [done|]. rewrite E1. by intros [? ?].
Qed.

(** [merge] moves the elements with new keys; nothing is lost when it throws *)
Lemma merge_wf this src m1 m2 : wf this m1 -> wf src m2 ->
  exists this' src' ok m1' m2', merge hash alloc junk this src = Ok (this', src', ok) /\ wf this' m1' /\ wf src' m2' /\
    m1' ∪ m2' = m1 ∪ m2 /\
    (ok = true -> m1' = m1 ∪ m2 /\ m2' = filter (fun e => is_Some (m1 !! e.1)) m2).
Proof.
  intros H1 H2. destruct (merge_moves this src m1 m2 H1 H2) as (this' & src' & ok & m1' & m2' & E & Hw1 & Hw2 & Hm & Hall).
  destruct (moves_merge _ _ _ _ Hm) as [Hu Hf]. exists this', src', ok, m1', m2'. split_and!; auto.
Qed.

End Ops.
