(* ===== verification/SwissParallel.v ===== *)
(** * phmap's parallel hash table (phmap/phmap.h, [parallel_hash_set] and
      [parallel_hash_map])

    [2 ^ N] tables, each with a lock of its own; the table of a key is chosen by
    other bits of its hash than its slot. A call takes the lock of its table for
    its duration, so it is one step here. An iterator is a table and a position
    in it; [end()] is [None]. *)

From S2P Require Import Prelude.
From S2P Require Import Simd.
From S2P Require Import SwissGroup.
From S2P Require Import SwissTable.
From S2P Require Import SwissOps.

(** the shares of the 16 tables of an unbalanced table, of 256 *)
Definition subratio : list Z := [8; 9; 10; 11; 12; 13; 14; 15; 17; 18; 19; 20; 21; 22; 23; 24].

Definition idxmapping : list Z :=
  [0; 0; 0; 0; 0; 0; 0; 0; 1; 1; 1; 1; 1; 1; 1; 1; 1; 2; 2; 2; 2; 2; 2; 2;
   2; 2; 2; 3; 3; 3; 3; 3; 3; 3; 3; 3; 3; 3; 4; 4; 4; 4; 4; 4; 4; 4; 4; 4;
   4; 4; 5; 5; 5; 5; 5; 5; 5; 5; 5; 5; 5; 5; 5; 6; 6; 6; 6; 6; 6; 6; 6; 6;
   6; 6; 6; 6; 6; 7; 7; 7; 7; 7; 7; 7; 7; 7; 7; 7; 7; 7; 7; 7; 8; 8; 8; 8;
   8; 8; 8; 8; 8; 8; 8; 8; 8; 8; 8; 8; 8; 9; 9; 9; 9; 9; 9; 9; 9; 9; 9; 9;
   9; 9; 9; 9; 9; 9; 9; 10; 10; 10; 10; 10; 10; 10; 10; 10; 10; 10; 10; 10; 10; 10; 10; 10;
   10; 10; 11; 11; 11; 11; 11; 11; 11; 11; 11; 11; 11; 11; 11; 11; 11; 11; 11; 11; 11; 11; 12; 12;
   12; 12; 12; 12; 12; 12; 12; 12; 12; 12; 12; 12; 12; 12; 12; 12; 12; 12; 12; 13; 13; 13; 13; 13;
   13; 13; 13; 13; 13; 13; 13; 13; 13; 13; 13; 13; 13; 13; 13; 13; 13; 14; 14; 14; 14; 14; 14; 14;
   14; 14; 14; 14; 14; 14; 14; 14; 14; 14; 14; 14; 14; 14; 14; 14; 15; 15; 15; 15; 15; 15; 15; 15;
   15; 15; 15; 15; 15; 15; 15; 15; 15; 15; 15; 15; 15; 15; 15; 15].

Section Parallel.
Context `{G : Group} {K V : Type} `{!EqDecision K} `{!EqDecision V}.
Context (hash : K -> Z) (alloc : Z -> bool) (junk : Z).
(** the template parameters: the logarithm of the number of tables, and [balance] *)
Context (N : Z) (balance : bool).

Abbreviation T := (table K V).
Implicit Types sets : list T.

Definition num_tables : Z := 2 ^ N.

(** the table of a hash value *)
Definition subidx (hashval : Z) : res Z :=
  let x := Z.lxor (Z.lxor (Z.shiftr hashval 8) (Z.shiftr hashval 16)) (Z.shiftr hashval 24) in
  if balance then Ok (Z.land x (num_tables - 1)) else rd idxmapping (Z.land x 0xff).

Definition parallel_new : list T := replicate (Z.to_nat num_tables) new_table.

(** the constructor of a table with a number of buckets; [None] is [std::bad_alloc] *)
Definition sized_table (bucket_cnt : Z) : res (option T) :=
  if bucket_cnt =? 0 then Ok (Some new_table)
  else
    c ← NormalizeCapacity bucket_cnt;
    t ← reset_growth_left (Table K V EmptyGroup [] 0 c 0);
    if alloc c then t ← initialize_slots junk t; Ok (Some t) else Ok None.

(** the constructor with a number of buckets, which divides by [N] *)
Definition parallel_sized (bucket_cnt : Z) : res (option (list T)) :=
  if N =? 0 then Err EDivZero
  else
    r ← sized_table (bucket_cnt / N);
    Ok (option_map (replicate (Z.to_nat num_tables)) r).

(** a call of the table of a key, under its lock *)
Definition on_sub {A} sets (key : K) (f : T -> res (T * A)) : res (list T * A) :=
  i ← subidx (hash key);
  inner ← rd sets i;
  r ← f inner;
  sets ← wr sets i (fst r);
  Ok (sets, snd r).

Definition p_find sets (key : K) : res (option (Z * Z)) :=
  i ← subidx (hash key);
  inner ← rd sets i;
  it ← find hash inner key;
  Ok (option_map (pair i) it).

Definition p_contains sets (key : K) : res bool :=
  it ← p_find sets key; Ok (bool_decide (is_Some it)).

(** [at]: [None] is [std::out_of_range] *)
Definition p_at sets (key : K) : res (option V) :=
  it ← p_find sets key;
  match it with
  | None => Ok None
  | Some (i, pos) => inner ← rd sets i; e ← element (slots_ inner) pos; Ok (Some (snd e))
  end.

(** [emplace] and [try_emplace]: whether the element is new; [None] is [std::bad_alloc] *)
Definition p_emplace sets (key : K) (v : V) : res (list T * option (Z * bool)) :=
  on_sub sets key (fun inner => emplace hash alloc junk inner key v).

Definition p_insert_or_assign sets (key : K) (v : V) : res (list T * option (Z * bool)) :=
  on_sub sets key (fun inner => insert_or_assign hash alloc junk inner key v).

Definition p_subscript (dflt : V) sets (key : K) : res (list T * option V) :=
  on_sub sets key (fun inner => subscript hash alloc junk dflt inner key).

Definition p_erase sets (key : K) : res (list T * Z) :=
  on_sub sets key (fun inner => erase hash inner key).

(** [if_contains] and [modify_if]: the function is applied to the value of the key *)
Definition p_modify_if sets (key : K) (f : V -> V) : res (list T * bool) :=
  on_sub sets key (fun inner =>
    it ← find hash inner key;
    match it with
    | None => Ok (inner, false)
    | Some pos =>
        e ← element (slots_ inner) pos;
        s ← wr (slots_ inner) pos (Some (fst e, f (snd e)));
        Ok (upd_slots s inner, true)
    end).

(** [try_emplace_l]: inserts, or applies the function to the value of the key *)
Definition p_try_emplace_l sets (key : K) (f : V -> V) (v : V) : res (list T * option bool) :=
  on_sub sets key (fun inner =>
    r ← find_or_prepare_insert hash alloc junk inner key;
    match r with
    | (inner, Some (i, true)) => inner ← emplace_at hash inner i (key, v); Ok (inner, Some true)
    | (inner, Some (i, false)) =>
        e ← element (slots_ inner) i;
        s ← wr (slots_ inner) i (Some (fst e, f (snd e)));
        Ok (upd_slots s inner, Some false)
    | (inner, None) => Ok (inner, None)
    end).

(** ** Calls of all tables *)

Fixpoint p_clear sets : res (list T) :=
  match sets with
  | [] => Ok []
  | t :: sets => t ← clear t; sets ← p_clear sets; Ok (t :: sets)
  end.

Definition p_size sets : Z := foldl (fun sz t => u64 (sz + size_ t)) 0 sets.
Definition p_capacity sets : Z := foldl (fun c t => u64 (c + capacity_ t)) 0 sets.

(** the loop over the tables; it ends when one throws *)
Fixpoint rehash_all sets (nns : list Z) : res (list T * bool) :=
  match sets, nns with
  | t :: sets, nn :: nns =>
      r ← rehash hash alloc junk t nn;
      if snd r : bool then rs ← rehash_all sets nns; Ok (fst r :: fst rs, snd rs)
      else Ok (fst r :: sets, false)
  | _, _ => Ok (sets, true)
  end.

Definition p_rehash sets (n : Z) : res (list T * bool) :=
  if balance then rehash_all sets (replicate (Z.to_nat num_tables) (n / num_tables))
  else rehash_all sets ((fun ratio => u64 (n * ratio) / 256) <$> subratio).

Definition p_reserve sets (n : Z) : res (list T * bool) :=
  if balance then
    target ← GrowthToLowerboundCapacity n;
    c ← NormalizeCapacity (n / num_tables);
    let normalized := u64 (16 * c) in
    p_rehash sets (if target <? normalized then normalized else target)
  else p_rehash sets n.

Fixpoint p_merge sets (src : list T) : res (list T * list T * bool) :=
  match sets, src with
  | t :: sets, s :: src =>
      '(t, s, ok) ← merge hash alloc junk t s;
      if (ok : bool) then '(sets, src, ok) ← p_merge sets src; Ok (t :: sets, s :: src, ok)
      else Ok (t :: sets, s :: src, false)
  | _, _ => Ok (sets, src, true)
  end.

(** [operator==]: [std::equal] on the tables *)
Fixpoint p_eq (a b : list T) : res bool :=
  match a, b with
  | x :: a, y :: b => e ← table_eq hash x y; if (e : bool) then p_eq a b else Ok false
  | _, _ => Ok true
  end.

(** ** Iteration *)

(** from position [pos] of table [i] to the next element *)
Fixpoint skip_empty (fuel : nat) sets (i pos : Z) : res (option (Z * Z)) :=
  inner ← rd sets i;
  if pos =? capacity_ inner then
    match fuel with
    | O => Err EFuel
    | S fuel =>
        if i + 1 =? num_tables then Ok None
        else inner ← rd sets (i + 1); pos ← begin_ inner; skip_empty fuel sets (i + 1) pos
    end
  else Ok (Some (i, pos)).

Definition p_begin sets : res (option (Z * Z)) :=
  inner ← rd sets 0; pos ← begin_ inner; skip_empty (Z.to_nat num_tables) sets 0 pos.

Definition p_next sets (it : Z * Z) : res (option (Z * Z)) :=
  let '(i, pos) := it in
  inner ← rd sets i; pos ← next_ inner pos; skip_empty (Z.to_nat num_tables) sets i pos.

(** the elements a range-based [for] visits *)
Fixpoint p_iterate (fuel : nat) sets (it : option (Z * Z)) : res (list (K * V)) :=
  match it with
  | None => Ok []
  | Some (i, pos) =>
      match fuel with
      | O => Err EFuel
      | S fuel =>
          inner ← rd sets i;
          e ← element (slots_ inner) pos;
          it ← p_next sets (i, pos);
          l ← p_iterate fuel sets it;
          Ok (e :: l)
      end
  end.

(** one step per slot *)
Definition iterate_fuel sets : nat := sum_list (Z.to_nat ∘ capacity_ <$> sets).

Definition p_elements sets : res (list (K * V)) :=
  it ← p_begin sets; p_iterate (iterate_fuel sets) sets it.

(** [erase_if]: the function may change the value and decides whether the
    element is erased; [erase(it)] advances the iterator first *)
Definition p_erase_if sets (key : K) (f : V -> V * bool) : res (list T * bool) :=
  it ← p_find sets key;
  match it with
  | None => Ok (sets, false)
  | Some (i, pos) =>
      inner ← rd sets i;
      e ← element (slots_ inner) pos;
      let '(v, b) := f (snd e) in
      s ← wr (slots_ inner) pos (Some (fst e, v));
      sets ← wr sets i (upd_slots s inner);
      if (b : bool) then
        _ ← p_next sets (i, pos);
        inner ← rd sets i;
        inner ← erase_at inner pos;
        sets ← wr sets i inner;
        Ok (sets, true)
      else Ok (sets, false)
  end.

End Parallel.
