(* ===== verification/SwissParallelMap.v ===== *)
(** * phmap: the parallel table implements a finite map

    The elements of a map are distributed over the tables by [home]; every
    operation of the parallel table is the one of the finite map. *)

From S2P Require Import Prelude.
From S2P Require Import Simd.
From S2P Require Import SwissGroup.
From S2P Require Import SwissGroupOk.
From S2P Require Import SwissTable.
From S2P Require Import SwissProbe.
From S2P Require Import SwissInv.
From S2P Require Import SwissPlaced.
From S2P Require Import SwissResize.
From S2P Require Import SwissDrop.
From S2P Require Import SwissMap.
From S2P Require Import SwissErase.
From S2P Require Import SwissIter.
From S2P Require Import SwissHistory.
From S2P Require Import SwissCapacity.
From S2P Require Import SwissOps.
From S2P Require Import SwissOpsSpec.
From S2P Require Import SwissParallel.

(** the index table has 256 entries, and as many of each table as its share *)
Lemma idxmapping_shares : length idxmapping = 256%nat /\
  (fun i => Z.of_nat (length (filter (eq i) idxmapping))) <$> seqZ 0 16 = subratio.
Proof. by vm_compute. Qed.

Lemma idxmapping_range i x : idxmapping !! i = Some x -> 0 <= x < 16.
Proof.
  apply (Forall_lookup_1 (fun x => 0 <= x < 16)). apply (bool_decide_unpack _). by vm_compute.
Qed.

(** ** Calls *)

Section Calls.
Context `{G : Group} {K V : Type} `{!EqDecision K} (hash : K -> Z) (alloc : Z -> bool) (junk N : Z) (balance : bool).

(** what a call of the parallel table returns; [std::bad_alloc] is [RThrow] *)
Definition p_exec (sets : list (table K V)) (c : call K V) : res (list (table K V) * reply V) :=
  match c with
  | CEmplace k v =>
      r ← p_emplace hash alloc junk N balance sets k v;
      Ok (fst r, match snd r with Some (_, b) => RBool b | None => RThrow end)
  | CAssign k v =>
      r ← p_insert_or_assign hash alloc junk N balance sets k v;
      Ok (fst r, match snd r with Some (_, b) => RBool b | None => RThrow end)
  | CSubscript k dflt =>
      r ← p_subscript hash alloc junk N balance dflt sets k;
      Ok (fst r, match snd r with Some v => RVal (Some v) | None => RThrow end)
  | CContains k => b ← p_contains hash N balance sets k; Ok (sets, RBool b)
  | CAt k => v ← p_at hash N balance sets k; Ok (sets, RVal v)
  | CErase k => r ← p_erase hash N balance sets k; Ok (fst r, RNum (snd r))
  | CClear => sets ← p_clear sets; Ok (sets, RUnit)
  | CReserve n =>
      r ← p_reserve hash alloc junk N balance sets n; Ok (fst r, if snd r : bool then RUnit else RThrow)
  | CRehash n =>
      r ← p_rehash hash alloc junk N balance sets n; Ok (fst r, if snd r : bool then RUnit else RThrow)
  | CSize => Ok (sets, RNum (p_size sets))
  end.

(** the slots [rehash(n)] asks of each table *)
Definition requests (n : Z) : list Z :=
  if balance then replicate (Z.to_nat (num_tables N)) (n / num_tables N)
  else (fun ratio => u64 (n * ratio) / 256) <$> subratio.

(** the slots [reserve(n)] asks for *)
Definition reserve_target (n : Z) : res Z :=
  if balance then
    target ← GrowthToLowerboundCapacity n;
    c ← NormalizeCapacity (n / num_tables N);
    Ok (if target <? u64 (16 * c) then u64 (16 * c) else target)
  else Ok n.

(** no table is rehashed to a capacity that its elements overfill *)
Definition p_rehash_fits (sets : list (table K V)) (n : Z) : bool :=
  forallb (fun x => rehash_fits x.2 (size_ x.1)) (zip sets (requests n)).

(** the calls considered; [rehash] and [reserve] of few slots rehash tables to
    the smallest capacity *)
Definition par_call_ok (sets : list (table K V)) (c : call K V) : bool :=
  match c with
  | CReserve n => (0 <=? n) && (n <? 2 ^ 64) && match reserve_target n with Ok x => p_rehash_fits sets x | Err _ => false end
  | CRehash n => (0 <=? n) && (n <? 2 ^ 64) && p_rehash_fits sets n
  | _ => true
  end.

End Calls.

Section Home.
Context `{GOk : GroupOk} {K V : Type} `{Countable K} `{!EqDecision V} (hash : K -> Z) (alloc : Z -> bool) (junk : Z).
Hypothesis Halloc : forall n, alloc n = true -> n < 2 ^ 59 - 1.
Context (N : Z) (balance : bool).
Hypothesis HN : 0 <= N <= 12.
Hypothesis HB : balance = false -> N = 4.
Implicit Types (t : table K V) (m : gmap K V) (sets : list (table K V)).

Abbreviation wf := (wf (V := V) hash).
Abbreviation ntab := (Z.to_nat (num_tables N)).

(** the table of a key *)
Definition home (k : K) : nat := match subidx N balance (hash k) with Ok i => Z.to_nat i | Err _ => O end.

Lemma ntab_pos : 1 <= num_tables N <= 4096.
Proof.
  unfold num_tables. pose proof (Z.pow_le_mono_r 2 0 N). pose proof (Z.pow_le_mono_r 2 N 12).
  change (2 ^ 12) with 4096 in *. change (2 ^ 0) with 1 in *. lia.
Qed.

Lemma home_spec k : subidx N balance (hash k) = Ok (Z.of_nat (home k)) /\ (home k < ntab)%nat.
Proof.
  unfold home, subidx. cbv zeta. set (x := Z.lxor _ _). pose proof ntab_pos. destruct balance.
  - unfold num_tables in *. replace (2 ^ N - 1) with (Z.ones N) by (rewrite Z.ones_equiv; lia). rewrite Z.land_ones by lia.
    pose proof (Z.mod_pos_bound x (2 ^ N) ltac:(lia)). split; [f_equal; lia|lia].
  - change 255 with (Z.ones 8). rewrite Z.land_ones by lia. pose proof (Z.mod_pos_bound x (2 ^ 8) ltac:(lia)) as Hx.
    destruct (lookup_lt_is_Some_2 idxmapping (Z.to_nat (x mod 2 ^ 8))) as [y Hy];
      [rewrite (proj1 idxmapping_shares); change (2 ^ 8) with 256 in *; lia|].
    rewrite <-(Z2Nat.id (x mod 2 ^ 8)) by lia. rewrite (rd_nat _ _ _ Hy). pose proof (idxmapping_range _ _ Hy).
    split; [f_equal; lia|]. unfold num_tables. rewrite HB by done. simpl. lia.
Qed.

(** the elements of a table *)
Definition part (i : nat) m : gmap K V := filter (fun e => home e.1 = i) m.

(** the tables hold the elements of the map *)
Definition pwf sets m : Prop :=
  length sets = ntab /\ forall i t, sets !! i = Some t -> wf t (part i m).

Lemma part_lookup i m k : part i m !! k = if decide (home k = i) then m !! k else None.
Proof.
  unfold part. rewrite map_lookup_filter. destruct (m !! k) as [v|]; simpl; case_decide as E.
  - by rewrite option_guard_True.
  - by rewrite option_guard_False.
  - done.
  - done.
Qed.

Lemma part_home m k : part (home k) m !! k = m !! k.
Proof. rewrite part_lookup. by case_decide. Qed.

Lemma part_empty i : part i ∅ = ∅.
Proof. apply map_eq. intros k. rewrite part_lookup, !lookup_empty. by case_decide. Qed.

Lemma part_insert i m k v : part i (<[k := v]> m) = if decide (home k = i) then <[k := v]> (part i m) else part i m.
Proof.
  apply map_eq. intros k'. rewrite part_lookup. case_decide as E; case_decide as E'; rewrite ?lookup_insert, ?part_lookup;
    repeat case_decide; subst; try done.
Qed.

Lemma part_delete i m k : part i (delete k m) = if decide (home k = i) then delete k (part i m) else part i m.
Proof.
  apply map_eq. intros k'. rewrite part_lookup. case_decide as E; case_decide as E'; rewrite ?lookup_delete, ?part_lookup;
    repeat case_decide; subst; try done.
Qed.

(** maps with the same parts are equal *)
Lemma part_ext m1 m2 : (forall i, (i < ntab)%nat -> part i m1 = part i m2) -> m1 = m2.
Proof.
  intros E. apply map_eq. intros k. rewrite <-(part_home m1), <-(part_home m2). f_equal. apply E, home_spec.
Qed.

Lemma pwf_new : pwf (parallel_new N) ∅.
Proof.
  unfold parallel_new. split; [by rewrite length_replicate|]. intros i t [-> _]%lookup_replicate. left. by rewrite part_empty.
Qed.

Lemma pwf_home sets m k : pwf sets m -> exists t, sets !! home k = Some t /\ rd sets (Z.of_nat (home k)) = Ok t /\ wf t (part (home k) m).
Proof.
  intros [L Hs]. destruct (lookup_lt_is_Some_2 sets (home k)) as [t Ht]; [rewrite L; apply home_spec|].
  exists t. split_and!; [done|by apply rd_nat|by apply Hs].
Qed.

(** the table of a key is replaced *)
Lemma pwf_insert sets m m' k t : pwf sets m -> wf t (part (home k) m') -> (forall i, i <> home k -> part i m' = part i m) ->
  pwf (<[home k := t]> sets) m'.
Proof.
  intros [L Hs] Ht Hm. split; [by rewrite length_insert|]. intros i t' Hi.
  apply list_lookup_insert_Some in Hi as [(<- & <- & _)|(Hne & Hi)]; [done|]. rewrite Hm by done. by apply Hs.
Qed.

Lemma wr_home sets m k t : pwf sets m -> wr sets (Z.of_nat (home k)) t = Ok (<[home k := t]> sets).
Proof. intros [L _]. rewrite wr_Ok by (rewrite L; pose proof (proj2 (home_spec k)); lia). by rewrite Nat2Z.id. Qed.

(** a call of the table of a key *)
Lemma on_sub_spec {A} sets m k (f : table K V -> res (table K V * A)) (Q : A -> gmap K V -> Prop) : pwf sets m ->
  (forall t, wf t (part (home k) m) -> exists t' a m', f t = Ok (t', a) /\ wf t' (part (home k) m') /\
     (forall i, i <> home k -> part i m' = part i m) /\ Q a m') ->
  exists sets' a m', on_sub hash N balance sets k f = Ok (sets', a) /\ pwf sets' m' /\ Q a m'.
Proof.
  intros Hp Hf. unfold on_sub. rewrite (proj1 (home_spec k)). cbn [mbind res_bind].
  destruct (pwf_home sets m k Hp) as (t & Ht & -> & Hwf). cbn [mbind res_bind].
  destruct (Hf t Hwf) as (t' & a & m' & -> & Hwf' & Hm & HQ). cbn [mbind res_bind fst snd].
  rewrite (wr_home sets m k t' Hp). cbn [mbind res_bind]. exists (<[home k := t']> sets), a, m'.
  split_and!; [done|by eapply pwf_insert|done].
Qed.

Lemma part_insert_home m k v : part (home k) (<[k := v]> m) = <[k := v]> (part (home k) m) /\
  forall i, i <> home k -> part i (<[k := v]> m) = part i m.
Proof. split; [|intros i Hi]; rewrite part_insert; by case_decide. Qed.

Lemma part_delete_home m k : part (home k) (delete k m) = delete k (part (home k) m) /\
  forall i, i <> home k -> part i (delete k m) = part i m.
Proof. split; [|intros i Hi]; rewrite part_delete; by case_decide. Qed.

(** ** Calls of one table *)

Abbreviation on_sub := (on_sub hash N balance).
Abbreviation pexec := (p_exec (V := V) hash alloc junk N balance).

(** the key of a call that changes one table *)
Definition key_of (c : call K V) : option K :=
  match c with CEmplace k _ | CAssign k _ | CSubscript k _ | CErase k => Some k | _ => None end.

Lemma on_sub_map {A B} sets k (f : table K V -> res (table K V * A)) (g : A -> B) :
  (r ← on_sub sets k f; Ok (fst r, g (snd r))) = on_sub sets k (fun t => r ← f t; Ok (fst r, g (snd r))).
Proof.
  unfold SwissParallel.on_sub. destruct (subidx _ _ _) as [i|]; [|done]. cbn [mbind res_bind].
  destruct (rd sets i) as [t|]; [|done]. cbn [mbind res_bind]. destruct (f t) as [[t' a]|]; [|done]. cbn [mbind res_bind fst snd].
  by destruct (wr sets i t').
Qed.

Lemma p_exec_sub sets c k : key_of c = Some k -> pexec sets c = on_sub sets k (fun t => exec hash alloc junk t c).
Proof.
  destruct c; intros [= ->]; cbn [p_exec exec]; unfold p_emplace, p_insert_or_assign, p_subscript, p_erase.
  - exact (on_sub_map sets k _ (fun x => match x with Some (_, b) => RBool b | None => RThrow end)).
  - exact (on_sub_map sets k _ (fun x => match x with Some (_, b) => RBool b | None => RThrow end)).
  - exact (on_sub_map sets k _ (fun x => match x with Some v => RVal (Some v) | None => RThrow end)).
  - exact (on_sub_map sets k _ RNum).
Qed.

(** the specification of a call is about the part of its key only *)
Lemma spec_part m c k : key_of c = Some k ->
  spec_call (part (home k) m) c = (part (home k) (fst (spec_call m c)), snd (spec_call m c)) /\
  (forall i, i <> home k -> part i (fst (spec_call m c)) = part i m) /\ (may_throw (part (home k) m) c -> may_throw m c).
Proof.
  destruct c; intros [= ->]; cbn [spec_call may_throw]; rewrite ?part_home; (split_and!; [| |done]);
    try (destruct (m !! k) eqn:E); cbn [fst snd];
    rewrite ?(proj1 (part_insert_home _ _ _)), ?(proj1 (part_delete_home _ _)); try done;
    intros i Hi; by rewrite ?(proj2 (part_insert_home _ _ _)), ?(proj2 (part_delete_home _ _)).
Qed.

Lemma p_exec_key sets m c k : pwf sets m -> key_of c = Some k ->
  exists sets' r m', pexec sets c = Ok (sets', r) /\ pwf sets' m' /\
    ((m', r) = spec_call m c \/ r = RThrow /\ m' = m /\ may_throw m c).
Proof.
  intros Hp Hk. rewrite (p_exec_sub sets c k Hk). destruct (spec_part m c k Hk) as (Es & Ho & Hth).
  apply (on_sub_spec sets m k _ (fun r m' => (m', r) = spec_call m c \/ r = RThrow /\ m' = m /\ may_throw m c) Hp).
  intros t Hwf. destruct (exec_spec hash alloc junk Halloc t _ c Hwf) as (t' & r & m0 & E & Hwf' & Hr); [by destruct c|].
  exists t', r. destruct Hr as [Er|(-> & -> & Ht)].
  - rewrite Es in Er. injection Er as -> ->. exists (fst (spec_call m c)). split_and!; [done..|]. left. by destruct (spec_call m c).
  - exists m. split_and!; [done..|]. right. auto.
Qed.

(** ** Lookups *)

Lemma p_find_wf sets m k : pwf sets m ->
  exists it, p_find hash N balance sets k = Ok it /\
    match it with
    | Some (i, pos) => exists t p v, i = Z.of_nat (home k) /\ pos = Z.of_nat p /\ sets !! home k = Some t /\
        slots_ t !! p = Some (Some (k, v)) /\ m !! k = Some v
    | None => m !! k = None
    end.
Proof.
  intros Hp. unfold p_find. rewrite (proj1 (home_spec k)). cbn [mbind res_bind].
  destruct (pwf_home sets m k Hp) as (t & Ht & -> & Hwf). cbn [mbind res_bind].
  destruct (find_wf hash t _ k Hwf) as (r & -> & Hr). cbn [mbind res_bind]. rewrite part_home in Hr. eexists. split; [done|].
  destruct r as [pos|]; [|done]. destruct Hr as (p & v & -> & Hs & Hm). by exists t, p, v.
Qed.

Lemma p_contains_wf sets m k : pwf sets m -> p_contains hash N balance sets k = Ok (bool_decide (is_Some (m !! k))).
Proof.
  intros Hp. destruct (p_find_wf sets m k Hp) as (it & E & Hit). unfold p_contains. rewrite E. cbn [mbind res_bind]. f_equal.
  apply bool_decide_ext. destruct it as [[i pos]|].
  - destruct Hit as (t & p & v & _ & _ & _ & _ & ->). split; eauto.
  - rewrite Hit. split; intros [? ?]; done.
Qed.

Lemma p_at_wf sets m k : pwf sets m -> p_at hash N balance sets k = Ok (m !! k).
Proof.
  intros Hp. destruct (p_find_wf sets m k Hp) as (it & E & Hit). unfold p_at. rewrite E. cbn [mbind res_bind].
  destruct it as [[i pos]|]; [|by rewrite Hit]. destruct Hit as (t & p & v & -> & -> & Ht & Hs & ->).
  rewrite (rd_nat _ _ _ Ht). cbn [mbind res_bind]. unfold element. by rewrite (rd_nat _ _ _ Hs).
Qed.

(** ** The elements *)

Lemma NoDup_join {A} (ll : list (list A)) : (forall i x, ll !! i = Some x -> NoDup x) ->
  (forall i j x y e, ll !! i = Some x -> ll !! j = Some y -> e ∈ x -> e ∈ y -> i = j) -> NoDup (mjoin ll).
Proof.
  induction ll as [|x ll IH]; intros H1 H2; [constructor|]. change (mjoin (x :: ll)) with (x ++ mjoin ll).
  apply NoDup_app. split_and!.
  - by apply (H1 0%nat).
  - intros e He Hin. apply list_elem_of_join in Hin as (y & Hey & [j Hj]%list_elem_of_lookup).
    by specialize (H2 0%nat (S j) x y e eq_refl Hj He Hey).
  - apply IH; [intros i; apply (H1 (S i))|]. intros i j y z e Hi Hj Hy Hz. by injection (H2 (S i) (S j) y z e Hi Hj Hy Hz).
Qed.

Lemma pwf_elem sets m i t k v : pwf sets m -> sets !! i = Some t -> (k, v) ∈ contents t <-> home k = i /\ m !! k = Some v.
Proof.
  intros [L Hs] Ht. destruct (elements_wf hash t _ (Hs i t Ht)) as [_ ->]. rewrite elem_of_map_to_list, part_lookup.
  case_decide; naive_solver.
Qed.

(** the tables hold the elements of the map, each once *)
Lemma pwf_contents sets m : pwf sets m -> mjoin (contents <$> sets) ≡ₚ map_to_list m.
Proof.
  intros Hp. apply NoDup_Permutation.
  - apply NoDup_join.
    + intros i x Hi. apply list_lookup_fmap_Some in Hi as (t & -> & Ht).
      destruct (elements_wf hash t _ (proj2 Hp i t Ht)) as [_ ->]. apply NoDup_map_to_list.
    + intros i j x y [k v] Hi Hj. apply list_lookup_fmap_Some in Hi as (t & -> & Ht).
      apply list_lookup_fmap_Some in Hj as (t' & -> & Ht').
      rewrite (pwf_elem sets m i t k v Hp Ht), (pwf_elem sets m j t' k v Hp Ht'). naive_solver.
  - apply NoDup_map_to_list.
  - intros [k v]. rewrite list_elem_of_join, elem_of_map_to_list. split.
    + intros (x & Hx & [i Hi]%list_elem_of_lookup). apply list_lookup_fmap_Some in Hi as (t & -> & Ht). by eapply (pwf_elem sets m i t).
    + intros Hm. destruct (pwf_home sets m k Hp) as (t & Ht & _). exists (contents t). split; [by apply (pwf_elem sets m (home k) t)|].
      apply list_elem_of_lookup. exists (home k). by rewrite list_lookup_fmap, Ht.
Qed.

Lemma sizes_sum sets : (forall t, t ∈ sets -> size_ t = Z.of_nat (length (contents t))) -> forall z,
  0 <= z -> z + Z.of_nat (length (mjoin (contents <$> sets))) < 2 ^ 64 ->
  foldl (fun sz t => u64 (sz + size_ t)) z sets = z + Z.of_nat (length (mjoin (contents <$> sets))).
Proof.
  intros Hall. induction sets as [|t sets IH]; intros z Hz Hlt; [simpl; lia|].
  change (mjoin (contents <$> t :: sets)) with (contents t ++ mjoin (contents <$> sets)) in *. rewrite length_app in *. cbn [foldl].
  rewrite (Hall t) by (by left). rewrite wrapu_id by (unfold inu; lia). rewrite IH; [lia|intros; apply Hall; by right|lia|lia].
Qed.

Lemma p_size_wf sets m : pwf sets m -> Z.of_nat (size m) < 2 ^ 64 -> p_size sets = Z.of_nat (size m).
Proof.
  intros Hp Hlt. pose proof (pwf_contents sets m Hp) as Hc.
  assert (length (mjoin (contents <$> sets)) = size m) as El by (rewrite Hc; apply length_map_to_list).
  unfold p_size. rewrite sizes_sum; [lia| |lia|lia]. intros t [i Hi]%list_elem_of_lookup. pose proof (proj2 Hp i t Hi) as Hwf.
  rewrite (wf_size hash t _ Hwf). destruct (elements_wf hash t _ Hwf) as [_ Hpm]. by rewrite Hpm, length_map_to_list.
Qed.

(** ** Clearing and rehashing *)

Lemma p_clear_spec sets : (forall i t, sets !! i = Some t -> exists m, wf t m) ->
  exists sets', p_clear sets = Ok sets' /\ length sets' = length sets /\ forall i t, sets' !! i = Some t -> wf t ∅.
Proof.
  induction sets as [|t sets IH]; intros Hall; [by exists []|]. cbn [p_clear].
  destruct (Hall 0%nat t eq_refl) as [m Hm]. destruct (clear_wf hash t m Hm) as (t' & -> & Ht'). cbn [mbind res_bind].
  destruct IH as (sets' & -> & L & Hs); [intros i; apply (Hall (S i))|]. cbn [mbind res_bind]. exists (t' :: sets').
  split_and!; [done|simpl; lia|]. intros [|i] t1 Hi; [by injection Hi as <-|by apply (Hs i)].
Qed.

Lemma p_clear_wf sets m : pwf sets m -> exists sets', p_clear sets = Ok sets' /\ pwf sets' ∅.
Proof.
  intros [L Hs]. destruct (p_clear_spec sets) as (sets' & E & L' & Hs'); [eauto|]. exists sets'. split; [done|]. split; [lia|].
  intros i t Ht. rewrite part_empty. by eapply Hs'.
Qed.

Lemma rehash_all_spec (ms : nat -> gmap K V) nns : Forall (fun nn => 0 <= nn < 2 ^ 64) nns -> forall sets b,
  forallb (fun x => rehash_fits x.2 (size_ x.1)) (zip sets nns) = true ->
  (forall i t, sets !! i = Some t -> wf t (ms (b + i)%nat)) ->
  exists sets' ok, rehash_all hash alloc junk sets nns = Ok (sets', ok) /\ length sets' = length sets /\
    forall i t, sets' !! i = Some t -> wf t (ms (b + i)%nat).
Proof.
  intros Hnn. induction Hnn as [|nn nns Hn _ IH]; intros [|t sets] b Hfit Hs; cbn [rehash_all];
    [by exists [], true|by exists (t :: sets), true|by exists [], true|].
  change (zip (t :: sets) (nn :: nns)) with ((t, nn) :: zip sets nns) in Hfit. cbn [forallb fst snd] in Hfit.
  apply andb_true_iff in Hfit as [Hf Hfit].
  pose proof (Hs 0%nat t eq_refl) as Ht. rewrite Nat.add_0_r in Ht.
  destruct (rehash_wf hash alloc junk Halloc t _ nn Ht Hn Hf) as (t' & ok & -> & Ht' & _). cbn [mbind res_bind fst snd].
  destruct (IH sets (S b) Hfit) as (sets' & ok' & E & L & Hs'); [intros i t1 Hi; specialize (Hs (S i) t1 Hi); by rewrite Nat.add_succ_r in Hs|].
  destruct ok.
  - rewrite E. cbn [mbind res_bind fst snd]. exists (t' :: sets'), ok'. split_and!; [done|simpl; lia|].
    intros [|i] t1 Hi; [injection Hi as <-; by rewrite Nat.add_0_r|]. rewrite Nat.add_succ_r. by apply (Hs' i).
  - exists (t' :: sets), false. split_and!; [done..|]. intros [|i] t1 Hi; [injection Hi as <-; by rewrite Nat.add_0_r|]. by apply (Hs (S i)).
Qed.

Lemma p_rehash_requests sets n : p_rehash hash alloc junk N balance sets n = rehash_all hash alloc junk sets (requests N balance n).
Proof. unfold p_rehash, requests. by destruct balance. Qed.

Lemma requests_range n : 0 <= n < 2 ^ 64 -> Forall (fun nn => 0 <= nn < 2 ^ 64) (requests N balance n).
Proof.
  intros Hn. unfold requests. pose proof ntab_pos. destruct balance.
  - apply Forall_replicate. split; [apply Z.div_pos; lia|]. assert (n / num_tables N <= n) by (apply Z.div_le_upper_bound; nia). lia.
  - apply Forall_fmap, Forall_true. intros r. simpl. pose proof (Z.mod_pos_bound (n * r) (2 ^ 64) ltac:(lia)) as Hr.
    unfold wrapu. split; [apply Z.div_pos; lia|]. apply Z.div_lt_upper_bound; lia.
Qed.

Lemma p_rehash_wf sets m n : pwf sets m -> 0 <= n < 2 ^ 64 -> p_rehash_fits N balance sets n = true ->
  exists sets' ok, p_rehash hash alloc junk N balance sets n = Ok (sets', ok) /\ pwf sets' m.
Proof.
  intros [L Hs] Hn Hfit. rewrite p_rehash_requests.
  destruct (rehash_all_spec (fun i => part i m) _ (requests_range n Hn) sets 0 Hfit Hs) as (sets' & ok & E & L' & Hs').
  exists sets', ok. split; [done|]. split; [lia|exact Hs'].
Qed.

Lemma p_reserve_target sets n : p_reserve hash alloc junk N balance sets n =
  (x ← reserve_target N balance n; p_rehash hash alloc junk N balance sets x).
Proof.
  unfold p_reserve, reserve_target. destruct balance eqn:Eb; [|done]. destruct (GrowthToLowerboundCapacity n); [|done].
  cbn [mbind res_bind]. by destruct (NormalizeCapacity _).
Qed.

Lemma reserve_target_range n x : 0 <= n < 2 ^ 64 -> reserve_target N balance n = Ok x -> 0 <= x < 2 ^ 64.
Proof.
  intros Hn. unfold reserve_target. destruct balance; [|by intros [= <-]].
  destruct (GrowthToLowerboundCapacity n) as [g|] eqn:Eg; [|done]. cbn [mbind res_bind].
  assert (0 <= g < 2 ^ 64) as Hg.
  { destruct (decide (n = 2 ^ 63)) as [->|Hne]; [|destruct (lowerbound_any n Hn Hne) as (c & Ec & Hc & _); congruence].
    unfold GrowthToLowerboundCapacity in Eg. change (2 ^ 63 =? 7) with false in Eg. rewrite andb_false_r in Eg. done. }
  destruct (NormalizeCapacity _) as [c|]; [|done]. cbn [mbind res_bind].
  pose proof (Z.mod_pos_bound (16 * c) (2 ^ 64) ltac:(lia)) as Hm.
  intros [= <-]. destruct (_ <? _); [exact Hm|done].
Qed.

Lemma p_reserve_wf sets m n x : pwf sets m -> 0 <= n < 2 ^ 64 -> reserve_target N balance n = Ok x ->
  p_rehash_fits N balance sets x = true ->
  exists sets' ok, p_reserve hash alloc junk N balance sets n = Ok (sets', ok) /\ pwf sets' m.
Proof.
  intros Hp Hn Ex Hfit. rewrite p_reserve_target, Ex. cbn [mbind res_bind].
  apply p_rehash_wf; [done|by eapply reserve_target_range|done].
Qed.

(** ** Any call *)

Lemma p_exec_spec sets m c : pwf sets m -> par_call_ok N balance sets c = true -> Z.of_nat (size m) < 2 ^ 64 ->
  exists sets' r m', pexec sets c = Ok (sets', r) /\ pwf sets' m' /\
    ((m', r) = spec_call m c \/ r = RThrow /\ m' = m /\ may_throw m c).
Proof.
  intros Hp Hok Hlt. destruct (key_of c) as [k|] eqn:Ek; [by eapply p_exec_key|].
  destruct c as [k v|k v|k dflt|k|k|k| |n|n|]; try done; cbn [p_exec spec_call may_throw].
  - rewrite (p_contains_wf sets m k Hp). by eexists _, _, _; split_and!; [..|left].
  - rewrite (p_at_wf sets m k Hp). by eexists _, _, _; split_and!; [..|left].
  - destruct (p_clear_wf sets m Hp) as (sets' & -> & Hp'). by eexists _, _, _; split_and!; [..|left].
  - cbn [par_call_ok] in Hok. rewrite !andb_true_iff, Z.leb_le, Z.ltb_lt in Hok. destruct Hok as [Hn Hfit].
    destruct (reserve_target N balance n) as [x|] eqn:Ex; [|done].
    destruct (p_reserve_wf sets m n x Hp Hn Ex Hfit) as (sets' & ok & -> & Hp'). cbn [mbind res_bind fst snd].
    destruct ok; [exists sets', RUnit, m|exists sets', RThrow, m]; naive_solver.
  - cbn [par_call_ok] in Hok. rewrite !andb_true_iff, Z.leb_le, Z.ltb_lt in Hok. destruct Hok as [Hn Hfit].
    destruct (p_rehash_wf sets m n Hp Hn Hfit) as (sets' & ok & -> & Hp'). cbn [mbind res_bind fst snd].
    destruct ok; [exists sets', RUnit, m|exists sets', RThrow, m]; naive_solver.
  - rewrite (p_size_wf sets m Hp Hlt). by eexists _, _, _; split_and!; [..|left].
Qed.

End Home.
