(* ===== verification/SwissParallelSpec.v ===== *)
(** * phmap: iteration, conditional changes, merging and comparison of parallel tables

    A loop visits the elements of all tables, each once; [modify_if],
    [try_emplace_l] and [erase_if] change the value of one key; [merge] and
    [operator==] work table by table. *)

From S2P Require Import Prelude.
From S2P Require Import Simd.
From S2P Require Import SwissGroup.
From S2P Require Import SwissGroupOk.
From S2P Require Import SwissTable.
From S2P Require Import SwissProbe.
From S2P Require Import SwissInv.
From S2P Require Import SwissPlaced.
From S2P Require Import SwissResize.
From S2P Require Import SwissMap.
From S2P Require Import SwissErase.
From S2P Require Import SwissIter.
From S2P Require Import SwissOps.
From S2P Require Import SwissOpsSpec.
From S2P Require Import SwissParallel.
From S2P Require Import SwissParallelMap.

(** slots without elements contribute none *)
Lemma omap_skip {A} (l : list (option A)) p q : (p <= q)%nat ->
  (forall r e, (p <= r < q)%nat -> l !! r <> Some (Some e)) -> omap id (drop p l) = omap id (drop q l).
Proof.
  intros Hpq Hno. remember (q - p)%nat as d eqn:Ed. revert p Hpq Hno Ed. induction d as [|d IH]; intros p Hpq Hno Ed.
  - by replace p with q by lia.
  - rewrite <-(IH (S p)); [|lia|intros; apply Hno; lia|lia]. destruct (l !! p) as [[e|]|] eqn:Ep.
    + exfalso. apply (Hno p e); [lia|done].
    + by rewrite (drop_S _ _ _ Ep).
    + apply lookup_ge_None in Ep. by rewrite !drop_ge by lia.
Qed.

Section Spec.
Context `{GOk : GroupOk} {K V : Type} `{Countable K} `{!EqDecision V} (hash : K -> Z) (alloc : Z -> bool) (junk : Z).
Hypothesis Halloc : forall n, alloc n = true -> n < 2 ^ 59 - 1.
Context (N : Z) (balance : bool).
Hypothesis HN : 0 <= N <= 12.
Hypothesis HB : balance = false -> N = 4.
Implicit Types (t : table K V) (m : gmap K V) (sets : list (table K V)).

Abbreviation wf := (wf (V := V) hash).
Abbreviation ntab := (Z.to_nat (num_tables N)).
Abbreviation home := (home hash N balance).
Abbreviation part := (part hash N balance).
Abbreviation pwf := (pwf hash N balance).

(** ** Iteration *)

Lemma wf_capacity t m : wf t m -> capacity_ t = Z.of_nat (length (slots_ t)).
Proof.
  intros [[-> _]|(cs & HI & _)]; [done|]. rewrite (core_capacity _ _ _ _ (inv_core _ _ _ HI)).
  by rewrite (core_slots _ _ _ _ (inv_core _ _ _ HI)).
Qed.

Lemma begin_wf t m : wf t m -> exists q, begin_ t = Ok (Z.of_nat q) /\ iter_at t q /\ omap id (drop q (slots_ t)) = contents t.
Proof.
  intros [[-> _]|(cs & HI & _)]; [by exists 0%nat; split_and!; [| left|]|].
  destruct (begin_spec hash t cs (inv_core _ _ _ HI)) as (q & E & _ & Hi & Hno). exists q. split_and!; [done..|].
  symmetry. apply (omap_skip (slots_ t) 0 q); [lia|]. intros r e Hr. apply Hno. lia.
Qed.

Lemma next_wf t m p e : wf t m -> slots_ t !! p = Some (Some e) ->
  exists q, next_ t (Z.of_nat p) = Ok (Z.of_nat q) /\ (p < q)%nat /\ iter_at t q /\
    omap id (drop q (slots_ t)) = omap id (drop (S p) (slots_ t)).
Proof.
  intros [[-> _]|(cs & HI & _)] Hp; [done|]. pose proof (lookup_lt_Some _ _ _ Hp) as Hlt.
  rewrite (core_slots _ _ _ _ (inv_core _ _ _ HI)) in Hlt.
  destruct (next_spec hash t cs p (inv_core _ _ _ HI) Hlt) as (q & E & Hq & Hi & Hno). exists q. split_and!; [done|lia|done|].
  symmetry. apply omap_skip; [lia|]. intros r e' Hr. apply Hno. lia.
Qed.

(** the slots from position [p] of table [i] on *)
Definition rest sets (i p : nat) : list (option (K * V)) :=
  drop p (default [] (slots_ <$> sets !! i)) ++ mjoin (slots_ <$> drop (S i) sets).

Lemma rest_eq sets i t p : sets !! i = Some t -> rest sets i p = drop p (slots_ t) ++ mjoin (slots_ <$> drop (S i) sets).
Proof. unfold rest. by intros ->. Qed.

(** the iterator moves on to the next element of any table *)
Lemma skip_empty_spec sets m : pwf sets m -> forall fuel i t p, sets !! i = Some t -> iter_at t p -> (ntab - i <= fuel)%nat ->
  exists it, skip_empty N fuel sets (Z.of_nat i) (Z.of_nat p) = Ok it /\
    match it with
    | None => omap id (rest sets i p) = []
    | Some (i', pos') => exists j t' p' e, i' = Z.of_nat j /\ pos' = Z.of_nat p' /\ sets !! j = Some t' /\
        slots_ t' !! p' = Some (Some e) /\ omap id (rest sets j p') = omap id (rest sets i p) /\
        (length (rest sets j p') <= length (rest sets i p))%nat
    end.
Proof.
  intros [L Hs]. induction fuel as [|fuel IH]; intros i t p Ht Hi Hf; cbn [skip_empty];
    pose proof (lookup_lt_Some _ _ _ Ht) as Hlt; [lia|].
  rewrite (rd_nat _ _ _ Ht). cbn [mbind res_bind]. rewrite (wf_capacity t _ (Hs i t Ht)), (rest_eq _ _ _ _ Ht).
  destruct (Z.eqb_spec (Z.of_nat p) (Z.of_nat (length (slots_ t)))) as [E|E].
  - rewrite (drop_ge (slots_ t)) by lia. cbn [app]. destruct (Z.eqb_spec (Z.of_nat i + 1) (num_tables N)) as [El|El].
    + exists None. split; [done|]. by rewrite drop_ge by lia.
    + replace (Z.of_nat i + 1) with (Z.of_nat (S i)) by lia.
      destruct (lookup_lt_is_Some_2 sets (S i) ltac:(lia)) as [t1 Ht1]. rewrite (rd_nat _ _ _ Ht1). cbn [mbind res_bind].
      destruct (begin_wf t1 _ (Hs _ _ Ht1)) as (q & -> & Hq & Hc). cbn [mbind res_bind].
      destruct (IH (S i) t1 q Ht1 Hq ltac:(lia)) as (it & -> & Hit). exists it. split; [done|].
      assert (omap id (rest sets (S i) q) = omap id (mjoin (slots_ <$> drop (S i) sets)) /\
        (length (rest sets (S i) q) <= length (mjoin (slots_ <$> drop (S i) sets)))%nat) as [Eo Hlen].
      { rewrite (rest_eq _ _ _ _ Ht1), (drop_S _ _ _ Ht1).
        change (mjoin (slots_ <$> t1 :: drop (S (S i)) sets)) with (slots_ t1 ++ mjoin (slots_ <$> drop (S (S i)) sets)).
        rewrite !omap_app, Hc, !length_app, length_drop. split; [done|lia]. }
      destruct it as [[i' pos']|]; [|congruence]. destruct Hit as (j & t' & p' & e & ? & ? & ? & ? & ? & ?).
      exists j, t', p', e. split_and!; [done..|congruence|lia].
  - destruct Hi as [->|[e He]]; [done|]. exists (Some (Z.of_nat i, Z.of_nat p)). split; [done|]. exists i, t, p, e.
    rewrite (rest_eq _ _ _ _ Ht). done.
Qed.

Lemma p_next_wf sets m i t p e : pwf sets m -> sets !! i = Some t -> slots_ t !! p = Some (Some e) ->
  exists it, p_next N sets (Z.of_nat i, Z.of_nat p) = Ok it /\
    match it with
    | None => omap id (rest sets i p) = [e]
    | Some (i', pos') => exists j t' p' e', i' = Z.of_nat j /\ pos' = Z.of_nat p' /\ sets !! j = Some t' /\
        slots_ t' !! p' = Some (Some e') /\ omap id (rest sets i p) = e :: omap id (rest sets j p') /\
        (length (rest sets j p') < length (rest sets i p))%nat
    end.
Proof.
  intros Hp Ht He. pose proof (lookup_lt_Some _ _ _ Ht). pose proof (lookup_lt_Some _ _ _ He). unfold p_next. rewrite (rd_nat _ _ _ Ht). cbn [mbind res_bind].
  destruct (next_wf t _ p e (proj2 Hp i t Ht) He) as (q & -> & Hq & Hi & Eo). cbn [mbind res_bind].
  destruct (skip_empty_spec sets m Hp ntab i t q Ht Hi ltac:(lia)) as (it & -> & Hit). exists it. split; [done|].
  assert (omap id (rest sets i p) = e :: omap id (rest sets i q) /\ (length (rest sets i q) < length (rest sets i p))%nat) as [Er Hl].
  { rewrite !(rest_eq _ _ _ _ Ht), !omap_app, Eo, (drop_S _ _ _ He), !length_app. simpl. rewrite !length_drop. split; [done|lia]. }
  destruct it as [[i' pos']|]; [|by rewrite Er, Hit]. destruct Hit as (j & t' & p' & e' & ? & ? & ? & ? & E & ?).
  exists j, t', p', e'. split_and!; [done..|by rewrite Er, E|lia].
Qed.

Lemma p_iterate_spec sets m : pwf sets m -> forall fuel i t p e, sets !! i = Some t -> slots_ t !! p = Some (Some e) ->
  (length (rest sets i p) <= fuel)%nat ->
  p_iterate N fuel sets (Some (Z.of_nat i, Z.of_nat p)) = Ok (omap id (rest sets i p)).
Proof.
  intros Hp. induction fuel as [|fuel IH]; intros i t p e Ht He Hf; cbn [p_iterate].
  - exfalso. rewrite (rest_eq _ _ _ _ Ht), (drop_S _ _ _ He) in Hf. simpl in Hf. lia.
  - rewrite (rd_nat _ _ _ Ht). cbn [mbind res_bind]. unfold element. rewrite (rd_nat _ _ _ He). cbn [mbind res_bind of_option].
    destruct (p_next_wf sets m i t p e Hp Ht He) as (it & -> & Hit). cbn [mbind res_bind]. destruct it as [[i' pos']|].
    + destruct Hit as (j & t' & p' & e' & -> & -> & Ht' & He' & E & Hl). rewrite (IH j t' p' e' Ht' He' ltac:(lia)).
      cbn [mbind res_bind]. by rewrite E.
    + rewrite Hit. by destruct fuel.
Qed.

Lemma join_contents sets : omap id (mjoin (slots_ <$> sets)) = mjoin (contents <$> sets).
Proof.
  induction sets as [|t sets IH]; [done|]. change (mjoin (slots_ <$> t :: sets)) with (slots_ t ++ mjoin (slots_ <$> sets)).
  change (mjoin (contents <$> t :: sets)) with (contents t ++ mjoin (contents <$> sets)). by rewrite omap_app, IH.
Qed.

Lemma iterate_fuel_eq sets : (forall t, t ∈ sets -> capacity_ t = Z.of_nat (length (slots_ t))) ->
  iterate_fuel sets = length (mjoin (slots_ <$> sets)).
Proof.
  intros Hall. unfold iterate_fuel. induction sets as [|t sets IH]; [done|].
  change (mjoin (slots_ <$> t :: sets)) with (slots_ t ++ mjoin (slots_ <$> sets)). rewrite length_app, <-IH by (intros; apply Hall; by right).
  rewrite fmap_cons. cbn [sum_list]. unfold compose at 1. rewrite (Hall t) by (by left). by rewrite Nat2Z.id.
Qed.

(** a loop visits the elements of the map, each once *)
Lemma p_elements_wf sets m : pwf sets m -> exists l, p_elements N sets = Ok l /\ l ≡ₚ map_to_list m.
Proof.
  intros Hp. exists (mjoin (contents <$> sets)). split; [|by apply (pwf_contents hash N balance HN HB)].
  pose proof (ntab_pos N HN) as Hn. pose proof (proj1 Hp) as L. destruct sets as [|t sets]; [simpl in L; lia|].
  assert (forall t', t' ∈ t :: sets -> capacity_ t' = Z.of_nat (length (slots_ t'))) as Hcap.
  { intros t' [i Hi]%list_elem_of_lookup. by eapply wf_capacity, (proj2 Hp). }
  unfold p_elements, p_begin. cbn [rd Z.ltb Z.compare]. rewrite (rd_nat (t :: sets) 0 t eq_refl : rd (t :: sets) 0 = Ok t). cbn [mbind res_bind].
  destruct (begin_wf t _ (proj2 Hp 0%nat t eq_refl)) as (q & -> & Hq & Hc). cbn [mbind res_bind].
  destruct (skip_empty_spec (t :: sets) m Hp ntab 0 t q eq_refl Hq ltac:(lia)) as (it & E & Hit).
  change (Z.of_nat 0) with 0 in E. rewrite E. cbn [mbind res_bind]. rewrite iterate_fuel_eq by done.
  assert (omap id (rest (t :: sets) 0 q) = mjoin (contents <$> t :: sets)) as Er.
  { rewrite (rest_eq (t :: sets) 0 t q eq_refl), omap_app, Hc. cbn [drop]. by rewrite join_contents. }
  assert (length (rest (t :: sets) 0 q) <= length (mjoin (slots_ <$> t :: sets)))%nat as Hl.
  { rewrite (rest_eq (t :: sets) 0 t q eq_refl). change (mjoin (slots_ <$> t :: sets)) with (slots_ t ++ mjoin (slots_ <$> sets)).
    change (drop 1 (t :: sets)) with sets. rewrite !length_app, length_drop. lia. }
  destruct it as [[i' pos']|].
  - destruct Hit as (j & t' & p' & e & -> & -> & Ht' & He & Eo & Hle). rewrite <-Er, <-Eo.
    apply (p_iterate_spec _ m Hp _ j t' p' e); [done..|lia].
  - rewrite <-Er, Hit. by destruct (length (mjoin (slots_ <$> t :: sets))).
Qed.

(** ** Conditional changes *)

Lemma p_modify_if_wf sets m k f : pwf sets m ->
  exists sets', p_modify_if hash N balance sets k f = Ok (sets', bool_decide (is_Some (m !! k))) /\ pwf sets' (alter f k m).
Proof.
  intros Hp. unfold p_modify_if.
  match goal with |- context [on_sub _ _ _ _ _ ?g] => set (call := g) end.
  destruct (on_sub_spec hash N balance HN HB sets m k call (fun b m' => b = bool_decide (is_Some (m !! k)) /\ m' = alter f k m) Hp)
    as (sets' & b & m' & E & Hp' & -> & ->); [|by exists sets'].
  intros t Hwf. unfold call. destruct (find_wf hash t _ k Hwf) as (r & -> & Hr). cbn [mbind res_bind]. rewrite (part_home hash N balance) in Hr.
  destruct r as [i|].
  - destruct Hr as (p & v & -> & Hs & Hm). unfold element. rewrite (rd_nat _ _ _ Hs). cbn [mbind res_bind of_option fst snd].
    destruct (assign_wf hash t _ p k v (f v) Hwf Hs) as [-> Hwf']. cbn [mbind res_bind].
    eexists _, true, (<[k := f v]> m). destruct (part_insert_home hash N balance m k (f v)) as [Ei Eo].
    split_and!; [done|by rewrite Ei|done|symmetry; apply bool_decide_eq_true; eauto|].
    by apply map_eq; intros k'; destruct (decide (k' = k)) as [->|];
      [rewrite lookup_insert_eq, lookup_alter_eq, Hm|rewrite lookup_insert_ne, lookup_alter_ne by done].
  - exists t, false, m. split_and!; [done..|symmetry; apply bool_decide_eq_false; rewrite Hr; by intros [? ?]|].
    apply map_eq. intros k'. destruct (decide (k' = k)) as [->|]; [by rewrite lookup_alter_eq, Hr|by rewrite lookup_alter_ne].
Qed.

Lemma p_try_emplace_l_wf sets m k f v : pwf sets m ->
  exists sets' r m', p_try_emplace_l hash alloc junk N balance sets k f v = Ok (sets', r) /\ pwf sets' m' /\
    match r with
    | Some b => b = bool_decide (m !! k = None) /\ m' = <[k := match m !! k with Some w => f w | None => v end]> m
    | None => m' = m /\ m !! k = None
    end.
Proof.
  intros Hp. unfold p_try_emplace_l.
  match goal with |- context [on_sub _ _ _ _ _ ?g] => set (call := g) end.
  apply (on_sub_spec hash N balance HN HB sets m k call); [done|]. intros t Hwf. unfold call.
  destruct (find_or_prepare_insert_spec hash alloc junk Halloc t _ k Hwf) as (t1 & r & -> & Hr). cbn [mbind res_bind].
  rewrite (part_home hash N balance) in Hr. destruct r as [[i []]|].
  - destruct Hr as (Hk & p & -> & HP). destruct (emplace_at_spec hash t1 p k _ v HP) as (t' & -> & Hwf'). cbn [mbind res_bind].
    destruct (part_insert_home hash N balance m k v) as [Ei Eo]. exists t', (Some true), (<[k := v]> m). rewrite Hk.
    split_and!; [done|by rewrite Ei|done|by rewrite bool_decide_true|done].
  - destruct Hr as (-> & p & w & -> & Hs & Hk). unfold element. rewrite (rd_nat _ _ _ Hs). cbn [mbind res_bind of_option fst snd].
    destruct (assign_wf hash t _ p k w (f w) Hwf Hs) as [-> Hwf']. cbn [mbind res_bind].
    destruct (part_insert_home hash N balance m k (f w)) as [Ei Eo]. eexists _, (Some false), (<[k := f w]> m). rewrite Hk.
    split_and!; [done|by rewrite Ei|done|by rewrite bool_decide_false|done].
  - destruct Hr as (Hk & -> & _). exists t, None, m. done.
Qed.

(** the element is erased if the function says so; its value is changed in any case *)
Lemma p_erase_if_wf sets m k f : pwf sets m ->
  exists sets' b, p_erase_if hash N balance sets k f = Ok (sets', b) /\
    match m !! k with
    | Some v => b = snd (f v) /\ pwf sets' (if b then delete k m else <[k := fst (f v)]> m)
    | None => b = false /\ pwf sets' m
    end.
Proof.
  intros Hp. unfold p_erase_if. destruct (p_find_wf hash N balance HN HB sets m k Hp) as (it & -> & Hit). cbn [mbind res_bind].
  destruct it as [[i pos]|]; [|rewrite Hit; by exists sets, false]. destruct Hit as (t & p & v & -> & -> & Ht & Hs & ->).
  rewrite (rd_nat _ _ _ Ht). cbn [mbind res_bind]. unfold element. rewrite (rd_nat _ _ _ Hs). cbn [mbind res_bind of_option fst snd].
  destruct (f v) as [v' b] eqn:Ef. cbn [fst snd]. pose proof (proj2 Hp _ _ Ht) as Hwf.
  destruct (assign_wf hash t _ p k v v' Hwf Hs) as [-> Hwf']. cbn [mbind res_bind].
  rewrite (wr_home hash N balance HN HB sets m k _ Hp). cbn [mbind res_bind]. set (t1 := upd_slots _ _) in *. set (sets1 := <[home k := t1]> sets).
  destruct (part_insert_home hash N balance m k v') as [Ei Eo].
  assert (pwf sets1 (<[k := v']> m)) as Hp1 by (apply (pwf_insert hash N balance sets m); [done|by rewrite Ei|done]).
  destruct b; [|by exists sets1, false].
  assert (sets1 !! home k = Some t1) as Ht1 by (apply list_lookup_insert_eq; by eapply lookup_lt_Some).
  assert (slots_ t1 !! p = Some (Some (k, v'))) as Hs1 by (apply list_lookup_insert_eq; by eapply lookup_lt_Some).
  destruct (p_next_wf sets1 _ _ t1 p _ Hp1 Ht1 Hs1) as (it & -> & _). cbn [mbind res_bind].
  rewrite (rd_nat _ _ _ Ht1). cbn [mbind res_bind].
  destruct (proj2 Hp1 _ _ Ht1) as [[E _]|(cs & HI & HR)]; [by rewrite E in Hs1|].
  destruct (erase_at_spec hash t1 cs _ p k v' HI HR Hs1) as (t2 & cs2 & -> & HI2 & HR2). cbn [mbind res_bind].
  rewrite (wr_home hash N balance HN HB sets1 _ k _ Hp1). cbn [mbind res_bind]. eexists _, true. split_and!; [done..|].
  destruct (part_delete_home hash N balance (<[k := v']> m) k) as [Ed Edo]. rewrite delete_insert_eq in Ed, Edo.
  apply (pwf_insert hash N balance sets1 (<[k := v']> m)); [done|rewrite Ed; right; by exists cs2|done].
Qed.

(** ** Merging and comparing *)

Abbreviation move1 := (move1 (K := K) (V := V)).

(** moves of elements of one table are moves of the maps *)
Lemma moves_part i m1 m2 x : rtc move1 (part i m1, part i m2) x ->
  exists m1' m2', rtc move1 (m1, m2) (m1', m2') /\ part i m1' = fst x /\ part i m2' = snd x /\
    forall j, j <> i -> part j m1' = part j m1 /\ part j m2' = part j m2.
Proof.
  intros Hm. remember (part i m1, part i m2) as y eqn:Ey. revert m1 m2 Ey. induction Hm as [x|x y z (k & v & E1 & E2 & ->) _ IH]; intros m1 m2 ->.
  - exists m1, m2. done.
  - cbn [fst snd] in *. rewrite (part_lookup hash N balance) in E1, E2. case_decide as Ei; [|done]. subst i.
    destruct (part_insert_home hash N balance m1 k v) as [Ei Eo]. destruct (part_delete_home hash N balance m2 k) as [Ed Edo].
    destruct (IH (<[k := v]> m1) (delete k m2)) as (m1' & m2' & Hm & Ea & Eb & Ho); [by rewrite Ei, Ed|].
    exists m1', m2'. split_and!; [eapply rtc_l; [|done]; by exists k, v|done|done|].
    intros j Hj. destruct (Ho j Hj) as [-> ->]. by rewrite Eo, Edo.
Qed.

Lemma p_merge_spec sets : forall src b m1 m2, length sets = length src ->
  (forall i t, sets !! i = Some t -> wf t (part (b + i) m1)) -> (forall i t, src !! i = Some t -> wf t (part (b + i) m2)) ->
  exists sets' src' ok m1' m2', p_merge hash alloc junk sets src = Ok (sets', src', ok) /\
    length sets' = length sets /\ length src' = length src /\
    (forall i t, sets' !! i = Some t -> wf t (part (b + i) m1')) /\ (forall i t, src' !! i = Some t -> wf t (part (b + i) m2')) /\
    (forall j, (j < b)%nat -> part j m1' = part j m1 /\ part j m2' = part j m2) /\
    rtc move1 (m1, m2) (m1', m2') /\
    (ok = true -> forall k, (b <= home k < b + length sets)%nat -> is_Some (m2 !! k) -> is_Some (m1' !! k)).
Proof.
  induction sets as [|t sets IH]; intros [|s src] b m1 m2 L H1 H2; try done; cbn [p_merge].
  - exists [], [], true, m1, m2. split_and!; try done. intros _ k Hk. simpl in Hk. lia.
  - pose proof (H1 0%nat t eq_refl) as Ht. pose proof (H2 0%nat s eq_refl) as Hs. rewrite Nat.add_0_r in Ht, Hs.
    destruct (merge_moves hash alloc junk Halloc t s _ _ Ht Hs) as (t' & s' & ok & a1 & a2 & -> & Hwt & Hws & Hm & Hall). cbn [mbind res_bind].
    destruct (moves_part b m1 m2 _ Hm) as (m1a & m2a & Hma & Ea & Eb & Ho). cbn [fst snd] in Ea, Eb.
    destruct ok.
    + destruct (IH src (S b) m1a m2a) as (sets' & src' & ok' & m1' & m2' & -> & L1 & L2 & Hw1 & Hw2 & Hlo & Hm' & Hall'); [by injection L|..].
      { intros i x Hx. rewrite (proj1 (Ho (S b + i)%nat ltac:(lia))). specialize (H1 (S i) x Hx). by rewrite Nat.add_succ_r in H1. }
      { intros i x Hx. rewrite (proj2 (Ho (S b + i)%nat ltac:(lia))). specialize (H2 (S i) x Hx). by rewrite Nat.add_succ_r in H2. }
      cbn [mbind res_bind]. exists (t' :: sets'), (s' :: src'), ok', m1', m2'. split_and!; [done|simpl; lia|simpl; lia|..].
      * intros [|i] x Hx; [injection Hx as <-; rewrite Nat.add_0_r, (proj1 (Hlo b ltac:(lia))), Ea; done|].
        rewrite Nat.add_succ_r. by apply (Hw1 i).
      * intros [|i] x Hx; [injection Hx as <-; rewrite Nat.add_0_r, (proj2 (Hlo b ltac:(lia))), Eb; done|].
        rewrite Nat.add_succ_r. by apply (Hw2 i).
      * intros j Hj. destruct (Hlo j ltac:(lia)) as [-> ->]. apply Ho. lia.
      * by etrans.
      * intros Hok k Hk Hin. destruct (decide (home k = b)) as [Eh|Hne].
        -- specialize (Hall eq_refl k). rewrite (part_lookup hash N balance), decide_True in Hall by done. specialize (Hall Hin).
           rewrite <-Ea, (part_lookup hash N balance), decide_True in Hall by done.
           destruct (moves_lookup _ _ Hm' k) as [[E1 _]|(E1 & _)]; cbn [fst] in E1; [by rewrite E1|]. rewrite E1 in Hall. by destruct Hall.
        -- apply (Hall' Hok k); [simpl in Hk; lia|]. destruct (Ho (home k) Hne) as [_ E2].
           rewrite <-(part_home hash N balance m2a), E2, (part_home hash N balance). done.
    + exists (t' :: sets), (s' :: src), false, m1a, m2a. split_and!; [done|done|done|..].
      * intros [|i] x Hx; [injection Hx as <-; rewrite Nat.add_0_r, Ea; done|]. rewrite (proj1 (Ho (b + S i)%nat ltac:(lia))). by apply (H1 (S i)).
      * intros [|i] x Hx; [injection Hx as <-; rewrite Nat.add_0_r, Eb; done|]. rewrite (proj2 (Ho (b + S i)%nat ltac:(lia))). by apply (H2 (S i)).
      * intros j Hj. apply Ho. lia.
      * done.
      * done.
Qed.

Lemma p_merge_wf sets src m1 m2 : pwf sets m1 -> pwf src m2 ->
  exists sets' src' ok m1' m2', p_merge hash alloc junk sets src = Ok (sets', src', ok) /\ pwf sets' m1' /\ pwf src' m2' /\
    m1' ∪ m2' = m1 ∪ m2 /\ (ok = true -> m1' = m1 ∪ m2 /\ m2' = filter (fun e => is_Some (m1 !! e.1)) m2).
Proof.
  intros [L1 H1] [L2 H2]. destruct (p_merge_spec sets src 0 m1 m2 ltac:(lia) H1 H2)
    as (sets' & src' & ok & m1' & m2' & E & L1' & L2' & Hw1 & Hw2 & _ & Hm & Hall).
  destruct (moves_merge _ _ _ _ Hm) as [Hu Hf]. exists sets', src', ok, m1', m2'. split_and!; [done|split; [lia|done]|split; [lia|done]|done|].
  intros Hok. apply Hf. intros k Hk. apply (Hall Hok); [|done]. pose proof (proj2 (home_spec hash N balance HN HB k)). lia.
Qed.

Lemma p_eq_spec a : forall b o m1 m2, length a = length b ->
  (forall i t, a !! i = Some t -> wf t (part (o + i) m1)) -> (forall i t, b !! i = Some t -> wf t (part (o + i) m2)) ->
  exists r, p_eq hash a b = Ok r /\ (r = true <-> forall i, (i < length a)%nat -> part (o + i) m1 = part (o + i) m2).
Proof.
  induction a as [|x a IH]; intros [|y b] o m1 m2 L H1 H2; try done; cbn [p_eq].
  - exists true. split; [done|]. split; [|done]. intros _ i Hi. simpl in Hi. lia.
  - pose proof (H1 0%nat x eq_refl) as Hx. pose proof (H2 0%nat y eq_refl) as Hy.
    rewrite (table_eq_wf hash x y _ _ Hx Hy). cbn [mbind res_bind].
    destruct (bool_decide_reflect (part (o + 0) m1 = part (o + 0) m2)) as [E|E].
    + destruct (IH b (S o) m1 m2) as (r & -> & Hr); [by injection L|..].
      { intros i t Ht. specialize (H1 (S i) t Ht). by rewrite Nat.add_succ_r in H1. }
      { intros i t Ht. specialize (H2 (S i) t Ht). by rewrite Nat.add_succ_r in H2. }
      exists r. split; [done|]. rewrite Hr. split; intros Hall [|i] Hi; [done| |..].
      * rewrite Nat.add_succ_r. apply (Hall i). simpl in Hi. lia.
      * specialize (Hall 1%nat). rewrite Nat.add_1_r in Hall. rewrite Nat.add_0_r. apply Hall. simpl. lia.
      * specialize (Hall (S (S i))). rewrite Nat.add_succ_r in Hall. apply Hall. simpl. lia.
    + exists false. split; [done|]. split; [done|]. intros Hall. exfalso. apply E, Hall. simpl. lia.
Qed.

Lemma p_eq_wf a b m1 m2 : pwf a m1 -> pwf b m2 -> p_eq hash a b = Ok (bool_decide (m1 = m2)).
Proof.
  intros [L1 H1] [L2 H2]. destruct (p_eq_spec a b 0 m1 m2 ltac:(lia) H1 H2) as (r & -> & Hr). f_equal.
  symmetry. destruct r; [apply bool_decide_eq_true|apply bool_decide_eq_false].
  - apply (part_ext hash N balance HN HB). intros i Hi. apply Hr; [done|lia].
  - intros ->. assert (false = true) as E by (by apply Hr). done.
Qed.

(** ** Tables with a given number of buckets *)

(** the growth left of fresh memory does not depend on the old one *)
Lemma initialize_slots_growth t g : initialize_slots junk (upd_growth g t) = initialize_slots junk t.
Proof.
  unfold initialize_slots, reset_ctrl, reset_growth_left. cbn [capacity_ size_ growth_left upd_growth ctrl_ slots_].
  repeat match goal with |- mbind _ ?x = mbind _ ?x => destruct x; cbn [mbind res_bind]; [|done] end.
  repeat match goal with |- context [mbind _ ?x] => destruct x; cbn [mbind res_bind]; [|done] end. done.
Qed.

Lemma sized_table_wf n : 0 <= n < 2 ^ 64 ->
  exists r, sized_table (K := K) (V := V) alloc junk n = Ok r /\
    match r with Some t => wf t ∅ | None => exists c, c <= 2 * n /\ alloc c = false end.
Proof.
  intros Hn. unfold sized_table. destruct (Z.eqb_spec n 0); [exists (Some new_table); split; [done|by left]|].
  destruct (NormalizeCapacity_spec n Hn) as (k & -> & Hk & Hge & Hle). cbn [mbind res_bind]. specialize (Hle ltac:(lia)).
  assert (exists g, reset_growth_left (Table K V EmptyGroup [] 0 (2 ^ k - 1) 0) = Ok (upd_growth g (Table K V EmptyGroup [] 0 (2 ^ k - 1) 0))) as [g ->].
  { unfold reset_growth_left, CapacityToGrowth. cbn [capacity_]. rewrite pow2_valid by done. cbn [assert mbind res_bind].
    destruct (_ && _); eexists; done. }
  cbn [mbind res_bind]. rewrite initialize_slots_growth.
  destruct (resize_any hash alloc junk Halloc (@new_table K V) [] k new_source eq_refl eq_refl Hk) as (t & ok & E & Hok).
  { intros Ha%Halloc. pose proof (Z.pow_le_mono_r 2 1 k). change (countb IsFull []) with 0.
    assert (k <= 59) by (destruct (Z.le_gt_cases k 59); [done|]; pose proof (Z.pow_lt_mono_r 2 59 k); lia).
    pose proof (growth_bounds (Z.to_nat (2 ^ k - 1)) ltac:(exists k; lia)). lia. }
  unfold resize in E. rewrite pow2_valid in E by done. cbn [assert mbind res_bind ctrl_ slots_ size_ growth_left capacity_ new_table Z.to_nat resize_loop] in E.
  destruct (alloc (2 ^ k - 1)) eqn:Ea.
  - destruct (initialize_slots _ _) as [t'|]; [|done]. cbn [mbind res_bind] in *. injection E as <- <-. exists (Some t'). split; [done|].
    destruct Hok as (cs & HI & _ & _ & _ & Hh). right. exists cs. split; [done|]. intros k' v. rewrite lookup_empty, Hh. split; [done|]. by intros [p Hp].
  - exists None. split; [done|]. exists (2 ^ k - 1). split; [lia|done].
Qed.

(** the constructor of a parallel table with a number of buckets *)
Lemma parallel_sized_wf n : 0 <= n < 2 ^ 64 -> 0 < N ->
  exists r, parallel_sized (K := K) (V := V) alloc junk N n = Ok r /\
    match r with Some sets => pwf sets ∅ | None => exists c, c <= 2 * n /\ alloc c = false end.
Proof.
  intros Hn HN0. unfold parallel_sized. replace (N =? 0) with false by lia.
  assert (0 <= n / N <= n) by (split; [apply Z.div_pos; lia|apply Z.div_le_upper_bound; nia]).
  destruct (sized_table_wf (n / N) ltac:(lia)) as (r & -> & Hr). cbn [mbind res_bind]. eexists. split; [done|].
  destruct r as [t|]; cbn [option_map]; [|destruct Hr as (c & ? & ?); exists c; split; [lia|done]].
  split; [by rewrite length_replicate|]. intros i t' [-> _]%lookup_replicate. by rewrite (part_empty hash N balance).
Qed.

(** ** Small requests *)

(** with 32 or more tables a [reserve] for few elements rehashes every table to
    capacity 0: the 16 in the code is not the number of tables *)
Lemma parallel_reserve_zero sets n : balance = true -> 5 <= N -> 0 < n < 2 ^ 63 -> lowerbound n < num_tables N ->
  p_reserve hash alloc junk N balance sets n = rehash_all hash alloc junk sets (replicate ntab 0).
Proof.
  intros Hb H5 Hn Hg. destruct (lowerbound_eq n Hn) as [Eg Hl]. unfold p_reserve, p_rehash. rewrite Hb, Eg.
  cbn [mbind res_bind]. rewrite (Z.div_small n) by lia.
  change (NormalizeCapacity 0) with (Ok 1). cbn [mbind res_bind]. change (u64 (16 * 1)) with 16.
  assert (32 <= num_tables N) by (unfold num_tables; change 32 with (2 ^ 5); apply Z.pow_le_mono_r; lia).
  destruct (Z.ltb_spec (lowerbound n) 16); [by rewrite (Z.div_small 16) by lia|].
  by rewrite Z.div_small by lia.
Qed.

End Spec.
