(* ===== verification/SwissParallelTheorems.v ===== *)
(** * phmap: merging, comparing and parallel tables: the theorems

    Tables compare equal exactly when they have the same elements; [merge] loses
    and duplicates none. Any sequence of calls of a parallel table behaves as on
    a finite map, for any number of tables, balanced or not. *)

From S2P Require Import Prelude.
From S2P Require Import Simd.
From S2P Require Import SwissGroup.
From S2P Require Import SwissGroupOk.
From S2P Require Import SwissTable.
From S2P Require Import SwissMap.
From S2P Require Import SwissErase.
From S2P Require Import SwissIter.
From S2P Require Import SwissHistory.
From S2P Require Import SwissCapacity.
From S2P Require Import SwissOps.
From S2P Require Import SwissOpsSpec.
From S2P Require Import SwissParallel.
From S2P Require Import SwissParallelMap.
From S2P Require Import SwissParallelSpec.

(** ** Calls of a parallel table *)

Inductive pcall {K V : Type} :=
| PCall (c : call K V)
| PModifyIf (k : K) (f : V -> V)
| PTryEmplaceL (k : K) (f : V -> V) (v : V)
| PEraseIf (k : K) (f : V -> V * bool).
Arguments pcall : clear implicits.

Section Calls.
Context `{G : Group} {K V : Type} `{!EqDecision K} (hash : K -> Z) (alloc : Z -> bool) (junk N : Z) (balance : bool).

Definition par_exec (sets : list (table K V)) (c : pcall K V) : res (list (table K V) * reply V) :=
  match c with
  | PCall c => p_exec hash alloc junk N balance sets c
  | PModifyIf k f => r ← p_modify_if hash N balance sets k f; Ok (fst r, RBool (snd r))
  | PTryEmplaceL k f v =>
      r ← p_try_emplace_l hash alloc junk N balance sets k f v;
      Ok (fst r, match snd r with Some b => RBool b | None => RThrow end)
  | PEraseIf k f => r ← p_erase_if hash N balance sets k f; Ok (fst r, RBool (snd r))
  end.

Fixpoint par_exec_all (sets : list (table K V)) (cs : list (pcall K V)) : res (list (table K V) * list (reply V)) :=
  match cs with
  | [] => Ok (sets, [])
  | c :: cs =>
      r ← par_exec sets c;
      rs ← par_exec_all (fst r) cs;
      Ok (fst rs, snd r :: snd rs)
  end.

(** each call of a run rehashes no table to a capacity that its elements overfill *)
Definition par_ok (sets : list (table K V)) (c : pcall K V) : bool :=
  match c with PCall c => par_call_ok N balance sets c | _ => true end.

Fixpoint par_calls_ok (sets : list (table K V)) (cs : list (pcall K V)) : bool :=
  match cs with
  | [] => true
  | c :: cs => par_ok sets c && match par_exec sets c with Ok (sets, _) => par_calls_ok sets cs | Err _ => true end
  end.

End Calls.

Section Spec.
Context {K V : Type} `{Countable K}.

Definition par_spec (m : gmap K V) (c : pcall K V) : gmap K V * reply V :=
  match c with
  | PCall c => spec_call m c
  | PModifyIf k f => (alter f k m, RBool (bool_decide (is_Some (m !! k))))
  | PTryEmplaceL k f v =>
      (<[k := match m !! k with Some w => f w | None => v end]> m, RBool (bool_decide (m !! k = None)))
  | PEraseIf k f =>
      match m !! k with
      | Some v => if snd (f v) then (delete k m, RBool true) else (<[k := fst (f v)]> m, RBool false)
      | None => (m, RBool false)
      end
  end.

Definition par_may_throw (m : gmap K V) (c : pcall K V) : Prop :=
  match c with
  | PCall c => may_throw m c
  | PTryEmplaceL k _ _ => m !! k = None
  | _ => False
  end.

(** a call returns what the map returns, or throws and changes nothing *)
Inductive par_run : gmap K V -> list (pcall K V) -> list (reply V) -> gmap K V -> Prop :=
| par_nil m : par_run m [] [] m
| par_ret m c cs rs m' :
    par_run (fst (par_spec m c)) cs rs m' -> par_run m (c :: cs) (snd (par_spec m c) :: rs) m'
| par_throw m c cs rs m' :
    par_may_throw m c -> par_run m cs rs m' -> par_run m (c :: cs) (RThrow :: rs) m'.

Lemma par_spec_size m c : (size (fst (par_spec m c)) <= S (size m))%nat.
Proof.
  destruct c as [c|k f|k f v|k f]; cbn [par_spec fst].
  - apply spec_call_size.
  - destruct (m !! k) as [v|] eqn:E.
    + replace (alter f k m) with (<[k := f v]> m); [rewrite map_size_insert, E; unfold id; lia|].
      apply map_eq. intros k'. destruct (decide (k' = k)) as [->|];
        [by rewrite lookup_insert_eq, lookup_alter_eq, E|by rewrite lookup_insert_ne, lookup_alter_ne].
    + rewrite alter_id; [lia|]. intros x Hx. congruence.
  - rewrite map_size_insert. destruct (m !! k); unfold id; lia.
  - destruct (m !! k) as [v|] eqn:E; [|simpl; lia]. destruct (snd (f v)); cbn [fst].
    + rewrite map_size_delete, E. lia.
    + rewrite map_size_insert, E. unfold id. lia.
Qed.

End Spec.

Section Parallel.
Context `{GOk : GroupOk} {K V : Type} `{Countable K} `{!EqDecision V} (hash : K -> Z) (alloc : Z -> bool) (junk : Z).
Hypothesis Halloc : forall n, alloc n = true -> n < 2 ^ 59 - 1.
Context (N : Z) (balance : bool).
Hypothesis HN : 0 <= N <= 12.
Hypothesis HB : balance = false -> N = 4.
Implicit Types (m : gmap K V) (sets : list (table K V)).
Abbreviation pwf := (pwf hash N balance).

Lemma par_exec_spec sets m c : pwf sets m -> par_ok N balance sets c = true -> Z.of_nat (size m) < 2 ^ 64 ->
  exists sets' r m', par_exec hash alloc junk N balance sets c = Ok (sets', r) /\ pwf sets' m' /\
    ((m', r) = par_spec m c \/ r = RThrow /\ m' = m /\ par_may_throw m c).
Proof.
  intros Hp Hok Hlt. destruct c as [c|k f|k f v|k f]; cbn [par_exec par_spec par_may_throw].
  - by apply p_exec_spec.
  - destruct (p_modify_if_wf hash N balance HN HB sets m k f Hp) as (sets' & -> & Hp'). cbn [mbind res_bind fst snd].
    eexists _, _, _. split_and!; [done..|by left].
  - destruct (p_try_emplace_l_wf hash alloc junk Halloc N balance HN HB sets m k f v Hp) as (sets' & r & m' & -> & Hp' & Hr).
    cbn [mbind res_bind fst snd]. eexists _, _, m'. split_and!; [done..|]. destruct r as [b|]; [left|right].
    + by destruct Hr as [-> ->].
    + by destruct Hr as [-> ?].
  - destruct (p_erase_if_wf hash N balance HN HB sets m k f Hp) as (sets' & b & -> & Hr). cbn [mbind res_bind fst snd].
    destruct (m !! k) as [v|]; destruct Hr as [-> Hp']; (eexists _, _, _; split_and!; [done..|left]); [|done].
    by destruct (snd (f v)).
Qed.

Lemma par_exec_all_spec cs : forall sets m, pwf sets m -> par_calls_ok hash alloc junk N balance sets cs = true ->
  Z.of_nat (size m) + Z.of_nat (length cs) < 2 ^ 64 ->
  exists sets' rs m', par_exec_all hash alloc junk N balance sets cs = Ok (sets', rs) /\ par_run m cs rs m' /\ pwf sets' m'.
Proof.
  induction cs as [|c cs IH]; intros sets m Hp Hok Hlt; cbn [par_exec_all par_calls_ok length] in *.
  - exists sets, [], m. split_and!; [done|constructor|done].
  - apply andb_true_iff in Hok as [Hc Hcs].
    destruct (par_exec_spec sets m c Hp Hc ltac:(lia)) as (s1 & r & m1 & E & Hp1 & Hr). rewrite E in *. cbn [mbind res_bind fst snd].
    assert (size m1 <= S (size m))%nat as Hs1.
    { destruct Hr as [Er|(_ & -> & _)]; [|lia]. pose proof (par_spec_size m c) as Hs. by rewrite <-Er in Hs. }
    destruct (IH s1 m1 Hp1 Hcs ltac:(lia)) as (sets' & rs & m' & -> & Hrun & Hp'). cbn [mbind res_bind fst snd].
    exists sets', (r :: rs), m'. split_and!; [done| |done]. destruct Hr as [Er|(-> & -> & Ht)].
    + pose proof (f_equal fst Er) as E1. pose proof (f_equal snd Er) as E2. cbn [fst snd] in E1, E2. subst. by constructor.
    + by constructor.
Qed.

End Parallel.

(** moves keep the elements of the two maps together *)
Lemma moves_elements {K V} `{Countable K} (a b : gmap K V * gmap K V) : rtc move1 a b ->
  map_to_list b.1 ++ map_to_list b.2 ≡ₚ map_to_list a.1 ++ map_to_list a.2.
Proof.
  induction 1 as [a|a c b (k & v & E1 & E2 & ->) _ IH]; [done|]. rewrite IH. cbn [fst snd].
  rewrite map_to_list_insert by done. rewrite <-(map_to_list_delete a.2 k v E2). simpl. by rewrite Permutation_middle.
Qed.

(** ** The theorems *)


(** C27: two tables reached by sequences of calls without an overfull [rehash(0)]
    ([calls_ok]) compare equal exactly when they have the same elements,
    whatever their capacities and histories.
    [merge] of one into the other moves elements: none is lost or duplicated,
    also when it throws [std::bad_alloc]; if it does not throw, the elements
    left in the source are those whose keys the destination had before. *)
Theorem phmap_merge_equal `{GOk : GroupOk} {K V : Type} `{Countable K} `{!EqDecision V} (hash : K -> Z) (alloc : Z -> bool)
    (junk : Z) (calls1 calls2 : list (call K V)) t1 t2 replies1 replies2 :
  (forall n, alloc n = true -> n < 2 ^ 59 - 1) ->
  calls_ok hash alloc junk new_table calls1 = true -> calls_ok hash alloc junk new_table calls2 = true ->
  exec_all hash alloc junk new_table calls1 = Ok (t1, replies1) -> exec_all hash alloc junk new_table calls2 = Ok (t2, replies2) ->
  exists l1 l2 t1' t2' ok l1' l2', elements t1 = Ok l1 /\ elements t2 = Ok l2 /\
    (exists b, table_eq hash t1 t2 = Ok b /\ (b = true <-> l1 ≡ₚ l2)) /\
    merge hash alloc junk t1 t2 = Ok (t1', t2', ok) /\ elements t1' = Ok l1' /\ elements t2' = Ok l2' /\
    l1' ++ l2' ≡ₚ l1 ++ l2 /\
    (ok = true -> l2' ≡ₚ filter (fun e => e.1 ∈ l1.*1) l2).
Proof.
  intros Halloc Hok1 Hok2 E1 E2.
  destruct (exec_all_spec hash alloc junk Halloc calls1 new_table ∅) as (x & rs & m1 & E & _ & Hwf1); [by left|done|].
  rewrite E1 in E. injection E as <- <-.
  destruct (exec_all_spec hash alloc junk Halloc calls2 new_table ∅) as (x & rs & m2 & E & _ & Hwf2); [by left|done|].
  rewrite E2 in E. injection E as <- <-.
  destruct (merge_moves hash alloc junk Halloc t1 t2 m1 m2 Hwf1 Hwf2) as (t1' & t2' & ok & m1' & m2' & Em & Hw1 & Hw2 & Hm & Hall).
  destruct (elements_wf hash t1 m1 Hwf1) as [El1 P1], (elements_wf hash t2 m2 Hwf2) as [El2 P2].
  destruct (elements_wf hash t1' m1' Hw1) as [El1' P1'], (elements_wf hash t2' m2' Hw2) as [El2' P2'].
  exists (contents t1), (contents t2), t1', t2', ok, (contents t1'), (contents t2'). split_and!; try done.
  - eexists. split; [by apply table_eq_wf|]. rewrite P1, P2, bool_decide_eq_true. split; [by intros ->|].
    intros Hp. by apply map_to_list_inj in Hp.
  - rewrite P1', P2', P1, P2. apply (moves_elements _ _ Hm).
  - intros Hok. destruct (moves_merge _ _ _ _ Hm) as [_ Hf]. destruct (Hf (Hall Hok)) as [_ ->].
    rewrite P2', P2. apply NoDup_Permutation; [apply NoDup_map_to_list|apply NoDup_filter, NoDup_map_to_list|].
    intros [k v]. rewrite list_elem_of_filter, !elem_of_map_to_list, map_lookup_filter_Some. cbn [fst].
    assert (k ∈ (contents t1).*1 <-> is_Some (m1 !! k)) as ->; [|tauto].
    rewrite P1. rewrite list_elem_of_fmap. split.
    + intros ([k' w] & -> & Hin%elem_of_map_to_list). eauto.
    + intros [w Hw]. exists (k, w). split; [done|]. by apply elem_of_map_to_list.
Qed.

(** ** Examples *)

Definition example_hash' (k : Z) : Z := u64 (k * 2654435761).
Definition example_alloc' (n : Z) : bool := n <? 2 ^ 58.

Lemma example_alloc_bound' n : example_alloc' n = true -> n < 2 ^ 59 - 1.
Proof. unfold example_alloc'. lia. Qed.

Definition example_pcalls : list (pcall Z Z) :=
  ((fun k => PCall (CEmplace k (10 * k))) <$> seqZ 0 40) ++
  [PModifyIf 3 Z.succ; PModifyIf 99 Z.succ; PCall (CAt 3); PTryEmplaceL 4 Z.pred 0; PTryEmplaceL 98 Z.pred 7;
   PEraseIf 5 (fun v => (v + 1, v =? 50)); PEraseIf 6 (fun v => (v + 1, v =? 50)); PCall (CAt 6); PCall CSize;
   PCall (CReserve 100); PCall (CRehash 200); PCall (CErase 98); PCall (CRehash 3);
   PCall (CContains 5); PCall CSize].


Definition calls_a : list (call Z Z) := ((fun k => CEmplace k (10 * k)) <$> seqZ 0 30) ++ [CErase 7; CAssign 8 1].
Definition calls_b : list (call Z Z) := ((fun k => CEmplace k (10 * k)) <$> seqZ 20 15) ++ [CErase 25].

Definition example_run (calls : list (call Z Z)) : table Z Z * list (reply Z) :=
  match exec_all (G := Portable.GroupPortableImpl) example_hash' example_alloc' 0 new_table calls with
  | Ok r => r
  | Err _ => (new_table, [])
  end.

Lemma phmap_merge_equal_witness :
  exists l1 l2 t1' t2' ok l1' l2',
    elements (G := Portable.GroupPortableImpl) (fst (example_run calls_a)) = Ok l1 /\
    elements (G := Portable.GroupPortableImpl) (fst (example_run calls_b)) = Ok l2 /\
    (exists b, table_eq (G := Portable.GroupPortableImpl) example_hash' (fst (example_run calls_a)) (fst (example_run calls_b)) = Ok b /\
       (b = true <-> l1 ≡ₚ l2)) /\
    merge (G := Portable.GroupPortableImpl) example_hash' example_alloc' 0 (fst (example_run calls_a)) (fst (example_run calls_b)) = Ok (t1', t2', ok) /\
    elements (G := Portable.GroupPortableImpl) t1' = Ok l1' /\ elements (G := Portable.GroupPortableImpl) t2' = Ok l2' /\
    l1' ++ l2' ≡ₚ l1 ++ l2 /\ (ok = true -> l2' ≡ₚ filter (fun e => e.1 ∈ l1.*1) l2).
Proof.
  apply (phmap_merge_equal (G := Portable.GroupPortableImpl) (GOk := PortableOk.Portable_ok) example_hash' example_alloc' 0 calls_a calls_b
    (fst (example_run calls_a)) (fst (example_run calls_b)) (snd (example_run calls_a)) (snd (example_run calls_b)));
    [exact example_alloc_bound'|vm_compute; reflexivity..].
Defined.
