(* ===== verification/Slice.v ===== *)
(** * Slices: src/src/modules/lru_cache/slice.hh, slice.cc

    A [Slice] is a pointer into a memory of blocks and a size; [OwnedSlice]
    owns the block its slice points to. [memory] maps the blocks that are
    allocated to their bytes. *)

From S2P Require Import Prelude.
From S2P Require Import Simd.

Abbreviation memory := (gmap positive (list Z)).

(** a null pointer, a pointer to an empty literal, or a place in a block *)
Inductive cptr :=
| PNull
| PLit
| PAt (b : positive) (off : Z).

#[global] Instance cptr_eq_dec : EqDecision cptr.
Proof. solve_decision. Defined.

Record Slice := mkSlice { sl_data : cptr; sl_size : Z }.

Definition Slice_new : Slice := mkSlice PLit 0.

Definition ptr_add (p : cptr) (n : Z) : cptr := match p with PAt b off => PAt b (off + n) | p => p end.

(** [n] bytes at [p] *)
Definition bytes_at (m : memory) (p : cptr) (n : Z) : res (list Z) :=
  match p with
  | PAt b off => x ← of_option EDangling (m !! b); loadu (Z.to_nat n) x off
  | PLit => if n =? 0 then Ok [] else Err EBounds
  | PNull => if n =? 0 then Ok [] else Err ENull
  end.

Definition Slice_empty (s : Slice) : bool := sl_size s =? 0.

Definition Slice_at (m : memory) (s : Slice) (n : Z) : res Z :=
  if n <? sl_size s then x ← bytes_at m (ptr_add (sl_data s) n) 1; rd x 0 else Err ECheck.

Definition Slice_clear (s : Slice) : Slice := mkSlice PLit 0.

Definition Slice_remove_prefix (s : Slice) (n : Z) : res Slice :=
  if n <=? sl_size s then Ok (mkSlice (ptr_add (sl_data s) n) (sl_size s - n)) else Err ECheck.

Definition Slice_remove_suffix (s : Slice) (n : Z) : res Slice :=
  if n <=? sl_size s then Ok (mkSlice (sl_data s) (sl_size s - n)) else Err ECheck.

Definition Slice_truncate (s : Slice) (n : Z) : res Slice :=
  if n <=? sl_size s then Ok (mkSlice (sl_data s) n) else Err ECheck.

Definition Slice_to_string (m : memory) (s : Slice) : res (list Z) := bytes_at m (sl_data s) (sl_size s).

(** the conditional has type [size_t], which [return] converts to [int] *)
Definition Slice_compare (m : memory) (s b : Slice) : res Z :=
  let min_size := Z.min (sl_size s) (sl_size b) in
  x ← bytes_at m (sl_data s) min_size;
  y ← bytes_at m (sl_data b) min_size;
  let r := memcmp (Z.to_nat min_size) x y in
  Ok (i32 (if r =? 0 then u64 (sl_size s - sl_size b) else u64 r)).

Definition Slice_eq (m : memory) (x y : Slice) : res bool := r ← Slice_compare m x y; Ok (r =? 0).
Definition Slice_ne (m : memory) (x y : Slice) : res bool := e ← Slice_eq m x y; Ok (negb e).
Definition Slice_lt (m : memory) (x y : Slice) : res bool := r ← Slice_compare m x y; Ok (r <? 0).
Definition Slice_le (m : memory) (x y : Slice) : res bool := r ← Slice_compare m x y; Ok (r <=? 0).
Definition Slice_gt (m : memory) (x y : Slice) : res bool := r ← Slice_compare m x y; Ok (0 <? r).
Definition Slice_ge (m : memory) (x y : Slice) : res bool := r ← Slice_compare m x y; Ok (0 <=? r).

Definition Slice_starts_with (m : memory) (s x : Slice) : res bool :=
  if sl_size x <=? sl_size s then
    a ← bytes_at m (sl_data s) (sl_size x);
    b ← bytes_at m (sl_data x) (sl_size x);
    Ok (memcmp (Z.to_nat (sl_size x)) a b =? 0)
  else Ok false.

Definition Slice_ends_with (m : memory) (s x : Slice) : res bool :=
  if sl_size x <=? sl_size s then
    a ← bytes_at m (ptr_add (sl_data s) (sl_size s - sl_size x)) (sl_size x);
    b ← bytes_at m (sl_data x) (sl_size x);
    Ok (memcmp (Z.to_nat (sl_size x)) a b =? 0)
  else Ok false.

Fixpoint Slice_compute_total_size (slices : list Slice) (total_size : Z) : Z :=
  match slices with
  | [] => total_size
  | s :: slices => Slice_compute_total_size slices (u64 (total_size + sl_size s))
  end.

Fixpoint Slice_concat (m : memory) (slices : list Slice) (buf : list Z) : res (list Z) :=
  match slices with
  | [] => Ok buf
  | s :: slices => x ← Slice_to_string m s; Slice_concat m slices (buf ++ x)
  end.

(** [memcpy] of [x] to [p] *)
Definition store_at (m : memory) (p : cptr) (x : list Z) : res memory :=
  match p with
  | PAt b off => blk ← of_option EDangling (m !! b); blk ← storeu blk off x; Ok (<[b := blk]> m)
  | PLit => if bool_decide (x = []) then Ok m else Err EBounds
  | PNull => if bool_decide (x = []) then Ok m else Err ENull
  end.

(** [memcpy] is undefined for ranges that overlap *)
Definition overlap (p q : cptr) (n : Z) : bool :=
  match p, q with
  | PAt b off, PAt b' off' => bool_decide (b = b') && (off <? off' + n) && (off' <? off + n)
  | _, _ => false
  end.

Definition Slice_relocate (m : memory) (s : Slice) (d : cptr) : res (memory * Slice) :=
  if bool_decide (sl_data s = d) then Ok (m, s)
  else if overlap (sl_data s) d (sl_size s) then Err EUndef
  else
    x ← bytes_at m (sl_data s) (sl_size s);
    m ← store_at m d x;
    Ok (m, mkSlice d (sl_size s)).

(** [init]: the array of [max_value] is the block [b] *)
Definition _SLICE_MAX_LENGTH : Z := 65535.
Definition Slice_init (m : memory) (b : positive) : memory * Slice * Slice :=
  (<[b := replicate (Z.to_nat _SLICE_MAX_LENGTH) 0xff]> m, mkSlice (PAt b 0) _SLICE_MAX_LENGTH, mkSlice PLit 0).

(** ** Owned slices *)

Abbreviation OwnedSlice := Slice.

Definition OwnedSlice_default : OwnedSlice := mkSlice PNull 0.
Definition OwnedSlice_new (data : cptr) (size : Z) : OwnedSlice := mkSlice data size.

(** the move constructor: the new object and what is left of [src] *)
Definition OwnedSlice_move (src : OwnedSlice) : OwnedSlice * OwnedSlice := (src, mkSlice PNull 0).

(** [delete[]] takes what [new[]] returned *)
Definition delete_array (m : memory) (p : cptr) : res memory :=
  match p with
  | PNull => Ok m
  | PAt b off => if off =? 0 then x ← of_option EDangling (m !! b); Ok (delete b m) else Err EUndef
  | PLit => Err EUndef
  end.

Definition OwnedSlice_destroy (m : memory) (s : OwnedSlice) : res memory := delete_array m (sl_data s).

Definition OwnedSlice_swap (a b : OwnedSlice) : OwnedSlice * OwnedSlice := (b, a).

Definition OwnedSlice_is_loaded (s : OwnedSlice) : bool := bool_decide (sl_data s <> PNull) && (0 <? sl_size s).

(** objects by name; [x] and [y] may be the same *)
Abbreviation objects := (gmap nat OwnedSlice).

Definition OwnedSlice_move_assign (m : memory) (o : objects) (this src : nat) : res (memory * objects) :=
  s ← of_option EUninit (o !! src);
  let (tmp, s) := OwnedSlice_move s in
  let o := <[src := s]> o in
  t ← of_option EUninit (o !! this);
  let (t, tmp) := OwnedSlice_swap t tmp in
  let o := <[this := t]> o in
  m ← OwnedSlice_destroy m tmp;
  Ok (m, o).

(** ** What a slice shows *)

Record shows (m : memory) (s : Slice) (x : list Z) : Prop := {
  sh_bytes : bytes_at m (sl_data s) (sl_size s) = Ok x;
  sh_size : sl_size s = Z.of_nat (length x)
}.

(** a part of the bytes of a slice *)
Lemma shows_part m s x off n : shows m s x -> 0 <= off -> 0 <= n -> off + n <= sl_size s ->
  bytes_at m (ptr_add (sl_data s) off) n = Ok (take (Z.to_nat n) (drop (Z.to_nat off) x)).
Proof.
  intros [Hb Hs] H0 Hn Hle. unfold bytes_at in *. destruct (sl_data s) as [| |b o]; cbn [ptr_add].
  1-2: destruct (Z.eqb_spec (sl_size s) 0); [|done]; injection Hb as <-;
    assert (n = 0) as -> by lia; assert (off = 0) as -> by lia; done.
  destruct (m !! b) as [blk|]; [|done]. cbn [of_option mbind res_bind] in *. unfold loadu in Hb.
  destruct (_ && _) eqn:Eb; [|done]. injection Hb as <-. apply andb_true_iff in Eb as [E1%Z.leb_le E2%Z.leb_le].
  rewrite loadu_Ok by lia. f_equal. rewrite skipn_firstn_comm, drop_drop, take_take. f_equal; [lia|f_equal; lia].
Qed.

Lemma shows_prefix m s x n : shows m s x -> 0 <= n <= sl_size s -> bytes_at m (sl_data s) n = Ok (take (Z.to_nat n) x).
Proof.
  intros Hs Hn. pose proof (shows_part m s x 0 n Hs ltac:(lia) ltac:(lia) ltac:(lia)) as H.
  change (drop (Z.to_nat 0) x) with x in H. rewrite <-H.
  destruct (sl_data s); cbn; [done|done|]. by rewrite Z.add_0_r.
Qed.

(** ** Views *)

Lemma shows_remove_prefix m s x n : shows m s x -> 0 <= n <= sl_size s ->
  exists s', Slice_remove_prefix s n = Ok s' /\ shows m s' (drop (Z.to_nat n) x).
Proof.
  intros Hs Hn. unfold Slice_remove_prefix. destruct (Z.leb_spec n (sl_size s)); [|lia]. eexists. split; [done|].
  pose proof (sh_size _ _ _ Hs) as L. split; cbn [sl_data sl_size].
  - rewrite (shows_part m s x n _ Hs) by lia. f_equal. apply take_ge. rewrite length_drop. lia.
  - rewrite length_drop. lia.
Qed.

Lemma shows_truncate m s x n : shows m s x -> 0 <= n <= sl_size s ->
  exists s', Slice_truncate s n = Ok s' /\ Slice_remove_suffix s (sl_size s - n) = Ok s' /\ shows m s' (take (Z.to_nat n) x).
Proof.
  intros Hs Hn. unfold Slice_truncate, Slice_remove_suffix. destruct (Z.leb_spec n (sl_size s)), (Z.leb_spec (sl_size s - n) (sl_size s)); try lia.
  eexists. split_and!; [done|do 2 f_equal; lia|]. pose proof (sh_size _ _ _ Hs) as L. split; cbn [sl_data sl_size].
  - by apply shows_prefix.
  - rewrite length_take. lia.
Qed.

Lemma shows_at m s x n : shows m s x -> 0 <= n < sl_size s -> exists b, x !! Z.to_nat n = Some b /\ Slice_at m s n = Ok b.
Proof.
  intros Hs Hn. pose proof (sh_size _ _ _ Hs) as L. destruct (lookup_lt_is_Some_2 x (Z.to_nat n)) as [b Hb]; [lia|].
  exists b. split; [done|]. unfold Slice_at. destruct (Z.ltb_spec n (sl_size s)); [|lia].
  rewrite (shows_part m s x n 1 Hs) by lia. by rewrite (drop_S _ _ _ Hb).
Qed.

Lemma memcmp_bool n a b : length a = n -> length b = n -> (memcmp n a b =? 0) = bool_decide (a = b).
Proof.
  intros La Lb. apply eq_true_iff_eq. rewrite Z.eqb_eq, bool_decide_eq_true, memcmp_eq, !take_ge by lia. done.
Qed.

Lemma starts_with_spec m s t x y : shows m s x -> shows m t y ->
  Slice_starts_with m s t = Ok (bool_decide (take (length y) x = y)).
Proof.
  intros Hs Ht. pose proof (sh_size _ _ _ Hs) as Lx. pose proof (sh_size _ _ _ Ht) as Ly. unfold Slice_starts_with.
  destruct (Z.leb_spec (sl_size t) (sl_size s)).
  - rewrite (shows_prefix m s x) by (done || lia). cbn [mbind res_bind]. rewrite (sh_bytes _ _ _ Ht). cbn [mbind res_bind].
    rewrite Ly, Nat2Z.id, memcmp_bool by (rewrite ?length_take; lia). done.
  - symmetry. f_equal. apply bool_decide_eq_false. intros E. apply (f_equal length) in E. rewrite length_take in E. lia.
Qed.

Lemma ends_with_spec m s t x y : shows m s x -> shows m t y ->
  Slice_ends_with m s t = Ok (bool_decide ((length y <= length x)%nat /\ drop (length x - length y) x = y)).
Proof.
  intros Hs Ht. pose proof (sh_size _ _ _ Hs) as Lx. pose proof (sh_size _ _ _ Ht) as Ly. unfold Slice_ends_with.
  destruct (Z.leb_spec (sl_size t) (sl_size s)); [|by rewrite bool_decide_false by lia].
  rewrite (shows_part m s x) by (done || lia). cbn [mbind res_bind]. rewrite (sh_bytes _ _ _ Ht). cbn [mbind res_bind].
  replace (Z.to_nat (sl_size s - sl_size t)) with (length x - length y)%nat by lia.
  rewrite Ly, Nat2Z.id, take_ge, memcmp_bool by (rewrite ?length_drop; lia). f_equal. apply bool_decide_ext. split; [split; [lia|done]|by intros [_ ?]].
Qed.

(** ** The order *)

Lemma i32_u64 z : ins 32 z -> i32 (u64 z) = z.
Proof.
  intros Hz. rewrite <-(wraps_id 32 ltac:(lia) z Hz) at 2. unfold wraps, wrapu.
  rewrite <-Zplus_mod_idemp_l, Z.mod_mod_divide, Zplus_mod_idemp_l by (by exists (2 ^ 32)). done.
Qed.

Lemma compare_memcmp m s t x y : shows m s x -> shows m t y ->
  Slice_compare m s t = let r := memcmp (Nat.min (length x) (length y)) x y in
    Ok (if r =? 0 then i32 (u64 (Z.of_nat (length x) - Z.of_nat (length y))) else r).
Proof.
  intros Hs Ht. pose proof (sh_size _ _ _ Hs) as Lx. pose proof (sh_size _ _ _ Ht) as Ly. unfold Slice_compare. cbv zeta.
  rewrite (shows_prefix m s x), (shows_prefix m t y) by (done || lia). cbn [mbind res_bind].
  replace (Z.to_nat (Z.min _ _)) with (Nat.min (length x) (length y)) by lia. rewrite Lx, Ly.
  assert (forall n p q, memcmp n (take n p) (take n q) = memcmp n p q) as ->.
  { clear. induction n as [|n IH]; intros [|a p] [|b q]; cbn; try done. by rewrite IH. }
  f_equal. destruct (Z.eqb_spec (memcmp (Nat.min (length x) (length y)) x y) 0); [done|]. apply i32_u64.
  pose proof (memcmp_range (Nat.min (length x) (length y)) x y). unfold ins. lia.
Qed.

(** [compare] and the operators decide the lexicographic order of slices whose
    sizes differ by less than 2^31 *)
Lemma slice_order m s t x y : shows m s x -> shows m t y -> ins 32 (Z.of_nat (length x) - Z.of_nat (length y)) ->
  exists c, Slice_compare m s t = Ok c /\ Z.sgn c = lex x y.
Proof.
  intros Hs Ht Hd. rewrite (compare_memcmp m s t x y Hs Ht). cbv zeta. eexists. split; [done|]. rewrite i32_u64 by done. rewrite lex_memcmp. cbv zeta.
  pose proof (memcmp_range (Nat.min (length x) (length y)) x y). destruct (Z.eqb_spec (memcmp (Nat.min (length x) (length y)) x y) 0); [|lia].
  destruct (Nat.ltb_spec (length x) (length y)), (Nat.ltb_spec (length y) (length x)); lia.
Qed.

(** a slice and its prefix of 2^32 bytes less compare equal *)
Lemma slice_compare_wraps m s t x y : shows m s x -> shows m t (x ++ y) -> Z.of_nat (length y) = 2 ^ 32 -> Slice_eq m s t = Ok true.
Proof.
  intros Hs Ht Hy. unfold Slice_eq. rewrite (compare_memcmp m s t x _ Hs Ht). cbv zeta.
  rewrite length_app, Nat.min_l by lia. assert (memcmp (length x) x (x ++ y) = 0) as ->.
  { apply memcmp_eq; [lia|rewrite length_app; lia|]. by rewrite take_ge, take_app_length by lia. }
  cbn [Z.eqb mbind res_bind]. replace (_ - _) with (- 2 ^ 32) by lia. done.
Qed.

(** [min_value] is below every slice, [max_value] above those of up to 65535 bytes *)
Lemma lex_max x n : bytes_ok x -> (length x <= n)%nat -> lex x (replicate n 0xff) <= 0.
Proof.
  intros Hx. revert n. induction Hx as [|b x Hb _ IH]; intros [|n] L; cbn [length replicate lex] in *; try lia.
  unfold inu in Hb. change (2 ^ 8) with 256 in Hb. destruct (Z.ltb_spec b 255), (Z.ltb_spec 255 b); try lia. apply IH. lia.
Qed.

Lemma slice_bounds m b s x m' hi lo : Slice_init m b = (m', hi, lo) -> shows m' s x -> bytes_ok x -> sl_size s <= _SLICE_MAX_LENGTH ->
  Slice_le m' lo s = Ok true /\ Slice_le m' s hi = Ok true.
Proof.
  intros E Hs Hx Hle. pose proof (sh_size _ _ _ Hs) as L. unfold Slice_init in E.
  assert (Z.of_nat (Z.to_nat _SLICE_MAX_LENGTH) = _SLICE_MAX_LENGTH) as En by (apply Z2Nat.id; done).
  assert (_SLICE_MAX_LENGTH < 2 ^ 31) as Hm by done.
  revert En E. generalize (Z.to_nat _SLICE_MAX_LENGTH) as n. intros n En [= <- <- <-].
  assert (forall m, shows m (mkSlice PLit 0) []) as Hlo by (intros m0; split; done).
  assert (shows (<[b := replicate n 0xff]> m) (mkSlice (PAt b 0) _SLICE_MAX_LENGTH) (replicate n 0xff)) as Hhi.
  { split; cbn [sl_data sl_size bytes_at]; [|by rewrite length_replicate]. rewrite lookup_insert_eq. cbn [of_option mbind res_bind].
    rewrite <-En, Nat2Z.id, loadu_Ok by (rewrite ?length_replicate; lia). by rewrite drop_0, take_ge by (rewrite length_replicate; lia). }
  unfold Slice_le. destruct (slice_order _ _ _ _ _ (Hlo _) Hs) as (c & -> & Ec); [unfold ins; cbn [length]; lia|].
  destruct (slice_order _ _ _ _ _ Hs Hhi) as (c' & -> & Ec'); [unfold ins; rewrite length_replicate; lia|]. cbn [mbind res_bind].
  pose proof (lex_max x n Hx ltac:(lia)). split; f_equal; apply Z.leb_le; [|lia]. destruct x; cbn in Ec; lia.
Qed.

(** [relocate] leaves what the slice shows *)
Lemma relocate_shows m s x b off blk : shows m s x -> m !! b = Some blk -> 0 <= off -> off + sl_size s <= Z.of_nat (length blk) ->
  overlap (sl_data s) (PAt b off) (sl_size s) = false -> exists m' s', Slice_relocate m s (PAt b off) = Ok (m', s') /\ shows m' s' x /\ sl_data s' = PAt b off.
Proof.
  intros Hs Hb Ho Hle Hov. pose proof (sh_size _ _ _ Hs) as L. unfold Slice_relocate. case_bool_decide as E; [by exists m, s|].
  rewrite Hov, (sh_bytes _ _ _ Hs). cbn [mbind res_bind store_at]. rewrite Hb. cbn [of_option mbind res_bind].
  rewrite storeu_Ok by lia. cbn [mbind res_bind]. eexists _, _. split_and!; [done| |done]. split; [|done]. cbn [sl_data sl_size bytes_at].
  rewrite lookup_insert_eq. cbn [of_option mbind res_bind]. assert (Z.of_nat (length (take (Z.to_nat off) blk)) = off) as Lt by (rewrite length_take; lia).
  rewrite <-Lt at 3. apply loadu_mid. lia.
Qed.

(** ** Ownership *)

Definition null_slice : OwnedSlice := mkSlice PNull 0.

(** every object is empty or owns a block, no two own the same, and every
    block has an owner *)
Record owned (m : memory) (o : objects) : Prop := {
  ow_valid : forall x s, o !! x = Some s -> s = null_slice \/ exists b blk, s = mkSlice (PAt b 0) (Z.of_nat (length blk)) /\ m !! b = Some blk;
  ow_unique : forall x y s t b, o !! x = Some s -> o !! y = Some t -> sl_data s = PAt b 0 -> sl_data t = PAt b 0 -> x = y;
  ow_owner : forall b, is_Some (m !! b) -> exists x s, o !! x = Some s /\ sl_data s = PAt b 0
}.

Lemma owned_swap m o x y s t : owned m o -> o !! x = Some s -> o !! y = Some t -> owned m (<[x := t]> (<[y := s]> o)).
Proof.
  intros [Hv Hu Ho] Hx Hy. set (o' := <[x := t]> (<[y := s]> o)).
  set (f := fun z => if decide (z = x) then y else if decide (z = y) then x else z).
  assert (forall z, o' !! z = o !! f z) as E.
  { intros z. unfold f, o'. destruct (decide (z = x)) as [->|]; [by rewrite lookup_insert_eq|]. rewrite lookup_insert_ne by done.
    destruct (decide (z = y)) as [->|]; [by rewrite lookup_insert_eq|]. by rewrite lookup_insert_ne. }
  assert (forall z, f (f z) = z) as Ff by (intros z; unfold f; repeat case_decide; congruence).
  split.
  - intros z r. rewrite E. apply Hv.
  - intros z1 z2 r1 r2 b. rewrite !E. intros H1 H2 E1 E2. pose proof (Hu _ _ _ _ _ H1 H2 E1 E2) as Hf. rewrite <-(Ff z1), <-(Ff z2). by rewrite Hf.
  - intros b Hb. destruct (Ho b Hb) as (z & r & Hz & Er). exists (f z), r. rewrite E, Ff. done.
Qed.

Lemma owned_null m o x : owned m o -> o !! x = None -> owned m (<[x := null_slice]> o).
Proof.
  intros [Hv Hu Ho] Hx. split.
  - intros z r [[-> <-]|[_ Hz]]%lookup_insert_Some; [by left|by apply (Hv z)].
  - intros z1 z2 r1 r2 b [[-> <-]|[_ H1]]%lookup_insert_Some; [done|]. intros [[-> <-]|[_ H2]]%lookup_insert_Some; [done|]. by eapply Hu.
  - intros b Hb. destruct (Ho b Hb) as (z & r & Hz & Er). exists z, r. rewrite lookup_insert_ne by congruence. done.
Qed.

Lemma owned_delete_null m o x : owned m o -> o !! x = Some null_slice -> owned m (delete x o).
Proof.
  intros [Hv Hu Ho] Hx. split.
  - intros z r [_ Hz]%lookup_delete_Some. by apply (Hv z).
  - intros z1 z2 r1 r2 b [_ H1]%lookup_delete_Some [_ H2]%lookup_delete_Some. by eapply Hu.
  - intros b Hb. destruct (Ho b Hb) as (z & r & Hz & Er). exists z, r. rewrite lookup_delete_ne; [done|]. intros <-. rewrite Hx in Hz. by injection Hz as <-.
Qed.

Lemma owned_destroy m o x s : owned m o -> o !! x = Some s ->
  exists m', OwnedSlice_destroy m s = Ok m' /\ owned m' (<[x := null_slice]> o).
Proof.
  intros Hown Hx. destruct Hown as [Hv Hu Ho] eqn:Eo. clear Eo. destruct (Hv x s Hx) as [->|(b & blk & -> & Hb)].
  { exists m. split; [done|]. by rewrite insert_id. }
  exists (delete b m). unfold OwnedSlice_destroy. cbn. rewrite Hb. split; [done|]. split.
  - intros z r [[-> <-]|[Hne Hz]]%lookup_insert_Some; [by left|]. destruct (Hv z r Hz) as [->|(b' & blk' & -> & Hb')]; [by left|]. right.
    exists b', blk'. split; [done|]. rewrite lookup_delete_ne; [done|]. intros <-. apply Hne. by eapply (Hu x z).
  - intros z1 z2 r1 r2 b' [[-> <-]|[_ H1]]%lookup_insert_Some; [done|]. intros [[-> <-]|[_ H2]]%lookup_insert_Some; [done|]. by eapply Hu.
  - intros b' [blk' [Hne Hb']%lookup_delete_Some]. destruct (Ho b' ltac:(eauto)) as (z & r & Hz & Er). exists z, r.
    rewrite lookup_insert_ne; [done|]. intros <-. rewrite Hx in Hz. injection Hz as <-. cbn in Er. by injection Er.
Qed.

Lemma owned_new m o x b blk : owned m o -> o !! x = None -> m !! b = None ->
  owned (<[b := blk]> m) (<[x := OwnedSlice_new (PAt b 0) (Z.of_nat (length blk))]> o).
Proof.
  intros [Hv Hu Ho] Hx Hb. assert (forall z r, o !! z = Some r -> sl_data r <> PAt b 0) as Hnot.
  { intros z r Hz E. destruct (Hv z r Hz) as [->|(b' & blk' & -> & Hb')]; [done|]. cbn in E. injection E as ->. congruence. }
  split.
  - intros z r [[-> <-]|[_ Hz]]%lookup_insert_Some; [right; exists b, blk; by rewrite lookup_insert_eq|].
    destruct (Hv z r Hz) as [->|(b' & blk' & -> & Hb')]; [by left|]. right. exists b', blk'. split; [done|]. rewrite lookup_insert_ne; [done|congruence].
  - intros z1 z2 r1 r2 b' [[-> <-]|[_ H1]]%lookup_insert_Some [[-> <-]|[_ H2]]%lookup_insert_Some E1 E2; [done| | |by eapply Hu].
    + injection E1 as <-. by destruct (Hnot _ _ H2).
    + injection E2 as <-. by destruct (Hnot _ _ H1).
  - intros b' [blk' [[-> _]|[_ Hb']]%lookup_insert_Some]; [exists x; eexists; by rewrite lookup_insert_eq|].
    destruct (Ho b' ltac:(eauto)) as (z & r & Hz & Er). exists z, r. rewrite lookup_insert_ne by congruence. done.
Qed.

Lemma owned_move_assign m o x y : owned m o -> is_Some (o !! x) -> is_Some (o !! y) ->
  exists m' o', OwnedSlice_move_assign m o x y = Ok (m', o') /\ owned m' o' /\ dom o' = dom o /\ o' !! x = o !! y.
Proof.
  intros Hown [t Hx] [s Hy]. unfold OwnedSlice_move_assign. rewrite Hy. cbn [of_option mbind res_bind OwnedSlice_move]. destruct (decide (x = y)) as [->|Hne].
  - rewrite lookup_insert_eq. cbn [of_option mbind res_bind OwnedSlice_swap OwnedSlice_destroy delete_array sl_data]. rewrite insert_insert_eq, insert_id by done.
    by exists m, o.
  - rewrite lookup_insert_ne by done. rewrite Hx. cbn [of_option mbind res_bind OwnedSlice_swap].
    destruct (owned_destroy m _ y t (owned_swap m o x y t s Hown Hx Hy)) as (m' & -> & Hown'); [by rewrite lookup_insert_ne, lookup_insert_eq|].
    cbn [mbind res_bind]. rewrite insert_insert_ne, insert_insert_eq in Hown' by done. eexists _, _. split_and!; [done|exact Hown'| |].
    + rewrite !dom_insert_L. apply elem_of_dom_2 in Hx, Hy. set_solver.
    + by rewrite lookup_insert_eq.
Qed.

(** *** Histories *)

Inductive ocall :=
| ODefault (x : nat)
| ONew (x : nat) (data : list Z)
| OMove (x src : nat)
| OAssign (x src : nat)
| OSwap (x y : nat)
| ODestroy (x : nat).

(** constructors make an object; the other calls use live ones *)
Definition legal (o : objects) (c : ocall) : bool :=
  match c with
  | ODefault x | ONew x _ => bool_decide (o !! x = None)
  | OMove x src => bool_decide (o !! x = None) && bool_decide (is_Some (o !! src))
  | OAssign x y | OSwap x y => bool_decide (is_Some (o !! x)) && bool_decide (is_Some (o !! y))
  | ODestroy x => bool_decide (is_Some (o !! x))
  end.

Definition ostep (st : memory * objects) (c : ocall) : res (memory * objects) :=
  let (m, o) := st in
  match c with
  | ODefault x => Ok (m, <[x := OwnedSlice_default]> o)
  | ONew x data => let b := fresh (dom m) in
      Ok (<[b := data]> m, <[x := OwnedSlice_new (PAt b 0) (Z.of_nat (length data))]> o)
  | OMove x src =>
      s ← of_option EUninit (o !! src);
      let (t, s) := OwnedSlice_move s in Ok (m, <[x := t]> (<[src := s]> o))
  | OAssign x src => OwnedSlice_move_assign m o x src
  | OSwap x y =>
      s ← of_option EUninit (o !! x); t ← of_option EUninit (o !! y);
      let (s, t) := OwnedSlice_swap s t in Ok (m, <[x := s]> (<[y := t]> o))
  | ODestroy x => s ← of_option EUninit (o !! x); m ← OwnedSlice_destroy m s; Ok (m, delete x o)
  end.

Fixpoint orun (st : memory * objects) (cs : list ocall) : option (res (memory * objects)) :=
  match cs with
  | [] => Some (Ok st)
  | c :: cs =>
      if legal (snd st) c then match ostep st c with Ok st => orun st cs | Err e => Some (Err e) end else None
  end.

Lemma ostep_owned m o c : owned m o -> legal o c = true -> exists m' o', ostep (m, o) c = Ok (m', o') /\ owned m' o'.
Proof.
  intros Hown Hl. destruct c as [x|x data|x y|x y|x y|x]; cbn in *; rewrite ?andb_true_iff, ?bool_decide_eq_true in Hl.
  - eexists _, _. split; [done|]. by apply owned_null.
  - eexists _, _. split; [done|]. apply owned_new; [done|done|]. apply not_elem_of_dom, is_fresh.
  - destruct Hl as [Hx [s Hy]]. rewrite Hy. cbn. eexists _, _. split; [done|].
    assert (x <> y) as Hne by congruence.
    pose proof (owned_swap m _ x y null_slice s (owned_null m o x Hown Hx)) as H. rewrite lookup_insert_eq, lookup_insert_ne in H by done.
    specialize (H eq_refl Hy). by rewrite (insert_insert_ne _ y x), insert_insert_eq in H by done.
  - destruct Hl as [Hx Hy]. destruct (owned_move_assign m o x y Hown Hx Hy) as (m' & o' & E & H' & _). by exists m', o'.
  - destruct Hl as [[s Hx] [t Hy]]. rewrite Hx, Hy. cbn. eexists _, _. split; [done|]. by apply owned_swap.
  - destruct Hl as [s Hx]. rewrite Hx. cbn. destruct (owned_destroy m o x s Hown Hx) as (m' & -> & H'). cbn. eexists _, _. split; [done|].
    apply (owned_delete_null m' _ x) in H'; [|apply lookup_insert_eq]. by rewrite delete_insert_eq in H'.
Qed.

(** in every history of owned slices whose calls use live objects, no block is
    freed twice or while an object owns it, and when all objects are gone no
    block is left *)
Theorem owned_slices_safe cs r : orun (∅, ∅) cs = Some r ->
  exists m o, r = Ok (m, o) /\ owned m o /\ (o = ∅ -> m = ∅).
Proof.
  assert (owned ∅ ∅) as H0 by (split; [done|done|by intros b [? ?]]).
  revert H0. generalize (∅ : memory) at 1 2. generalize (∅ : objects) at 1 2. revert r.
  induction cs as [|c cs IH]; intros r o m Hown E; cbn [orun snd] in E.
  - injection E as <-. exists m, o. split_and!; [done|done|]. intros ->. apply map_empty. intros b. destruct (m !! b) eqn:Eb; [|done].
    destruct (ow_owner _ _ Hown b ltac:(eauto)) as (x & s & Hx & _). done.
  - destruct (legal o c) eqn:El; [|done]. destruct (ostep_owned m o c Hown El) as (m' & o' & Es & Hown'). rewrite Es in E. by apply (IH r o' m').
Qed.

Lemma owned_slices_safe_witness : exists m o,
  orun (∅, ∅) [ONew 0 [1; 2]; ODefault 1; OAssign 1 0; OAssign 1 1; ONew 2 [3]; OSwap 1 2; OMove 3 2; OAssign 3 1; ODestroy 1; ODestroy 0; ODestroy 2; ODestroy 3] =
    Some (Ok (m, o)) /\ owned m o /\ m = ∅.
Proof.
  destruct (owned_slices_safe [ONew 0 [1; 2]; ODefault 1; OAssign 1 0; OAssign 1 1; ONew 2 [3]; OSwap 1 2; OMove 3 2; OAssign 3 1;
    ODestroy 1; ODestroy 0; ODestroy 2; ODestroy 3] (Ok (∅, ∅))) as (m & o & E & H & Hm).
  - vm_compute. reflexivity.
  - exists m, o. injection E as <- <-. split_and!; [vm_compute; reflexivity|exact H|reflexivity].
Defined.
