(* ===== verification/Analysis.v ===== *)
(** * Control-flow graphs: src/include/analysis/analysis.h

    Expressions and statements with their printed form, basic blocks and the
    graph of blocks. A literal carries the text that the stream prints for its
    value. *)

From S2P Require Import Prelude.
From stdpp Require Import strings pretty sorting.

#[local] Open Scope string_scope.

(** ** Types *)

Inductive SimpleType :=
| TYPE_UNDEFINED | TYPE_BOOLEAN | TYPE_INT8 | TYPE_INT16 | TYPE_INT32 | TYPE_INT64
| TYPE_UINT8 | TYPE_UINT16 | TYPE_UINT32 | TYPE_UINT64 | TYPE_FLOAT | TYPE_DOUBLE | TYPE_STRING | TYPE_UNKNOWN.

#[global] Instance SimpleType_eq_dec : EqDecision SimpleType.
Proof. solve_decision. Defined.

(** [DataTypeTrait<T>::Name] *)
Definition DataTypeName (t : SimpleType) : string :=
  match t with
  | TYPE_BOOLEAN => "bool"
  | TYPE_INT8 => "int8_t"
  | TYPE_INT16 => "int16_t"
  | TYPE_INT32 => "int32_t"
  | TYPE_INT64 => "int64_t"
  | TYPE_UINT8 => "uint8_t"
  | TYPE_UINT16 => "uint16_t"
  | TYPE_UINT32 => "uint32_t"
  | TYPE_UINT64 => "uint64_t"
  | TYPE_FLOAT => "float"
  | TYPE_DOUBLE => "double"
  | TYPE_STRING => "std::string"
  | TYPE_UNDEFINED => "Undefined"
  | TYPE_UNKNOWN => "Unknown"
  end.

(** [VALUE_GUARD] and [UNION_VALUE_GUARD] *)
Definition value_guard (ts : list SimpleType) (t : SimpleType) : bool := bool_decide (t ∈ ts).

Definition type_is_undefined := value_guard [TYPE_UNDEFINED].
Definition type_is_known := value_guard [TYPE_UNKNOWN].
Definition type_is_boolean := value_guard [TYPE_BOOLEAN].
Definition type_is_signed_integer := value_guard [TYPE_INT8; TYPE_INT16; TYPE_INT32; TYPE_INT64].
Definition type_is_unsigned_integer := value_guard [TYPE_UINT8; TYPE_UINT16; TYPE_UINT32; TYPE_UINT64].
Definition type_is_float_pointing := value_guard [TYPE_FLOAT; TYPE_DOUBLE].
Definition type_is_string := value_guard [TYPE_STRING].
Definition type_is_integer t := type_is_signed_integer t || type_is_unsigned_integer t.
Definition type_is_number t := type_is_integer t || type_is_float_pointing t.
Definition type_is_fixed_length t := type_is_number t || type_is_boolean t.
Definition type_is_defined t := type_is_fixed_length t || type_is_string t.

(** ** Expressions *)

Inductive OpType := OP_ADD | OP_SUB | OP_MUL | OP_DIV | OP_MOD | OP_EQ | OP_NE | OP_LE | OP_GE | OP_LT | OP_GT.

#[warnings="-register-all"]
Inductive Expr :=
| LiteralExpr (t : SimpleType) (value : string)
| VarDefExpr (var : string) (expr : Expr)
| VarUseExpr (var : string)
| ArithmeticExpr (op : OpType) (children : list Expr)
| RelationExpr (op : OpType) (children : list Expr)
| PhiExpr (children : list Expr).

(** ** Printing

    The [to_string] of each class, given the printed children; [child(i)] of a
    vector without that many elements is out of range. *)

Definition LiteralExpr_to_string (t : SimpleType) (value : string) : string :=
  "LiteralExpr(type=" +:+ DataTypeName t +:+ ", value=" +:+ value +:+ ")".

Definition VarDefExpr_to_string (var expr : string) : string :=
  "VarDefExpr(var=" +:+ var +:+ ", expr=" +:+ expr +:+ ")".

Definition VarUseExpr_to_string (var : string) : string := "VarUseExpr(var=" +:+ var +:+ ")".

Definition ArithmeticExpr_to_string (op : OpType) (children : list string) : res string :=
  let op_name := match op with
    | OP_ADD => "add(+)" | OP_SUB => "sub(-)" | OP_MUL => "mul(*)" | OP_DIV => "div(/)" | OP_MOD => "mod(%)"
    | _ => "unknown"
    end in
  lhs ← rd children 0;
  rhs ← rd children 1;
  Ok ("ArithmeticExpr(op=" +:+ op_name +:+ ", lhs=" +:+ lhs +:+ ", rhs=" +:+ rhs +:+ ")").

Definition RelationExpr_to_string (op : OpType) (children : list string) : res string :=
  let op_name := match op with
    | OP_EQ => "eq(==)" | OP_NE => "ne(!=)" | OP_GE => "ge(>=)" | OP_LE => "le(<=)" | OP_GT => "gt(>)" | OP_LT => "lt(<)"
    | _ => "unknown"
    end in
  lhs ← rd children 0;
  rhs ← rd children 1;
  Ok ("RelationExpr(op=" +:+ op_name +:+ ", lhs=" +:+ lhs +:+ ", rhs=" +:+ rhs +:+ ")").

(** the loop of [PhiExpr::to_string] from child [i] on *)
Fixpoint phi_children (i : nat) (children : list string) : string :=
  match children with
  | [] => ""
  | s :: children => ", expr" +:+ pretty i +:+ "=" +:+ s +:+ phi_children (S i) children
  end.

Definition PhiExpr_to_string (children : list string) : string :=
  "PhiExpr(" +:+ match children with [] => "" | s :: children => "expr0=" +:+ s +:+ phi_children 1 children end +:+ ")".

(** the virtual call; only the children that are printed are visited *)
Fixpoint Expr_to_string (e : Expr) : res string :=
  let strings := fix strings (n : nat) (es : list Expr) {struct es} : res (list string) :=
    match es, n with
    | e :: es, S n => s ← Expr_to_string e; ss ← strings n es; Ok (s :: ss)
    | _, _ => Ok []
    end in
  match e with
  | LiteralExpr t value => Ok (LiteralExpr_to_string t value)
  | VarDefExpr var expr => s ← Expr_to_string expr; Ok (VarDefExpr_to_string var s)
  | VarUseExpr var => Ok (VarUseExpr_to_string var)
  | ArithmeticExpr op children => ss ← strings 2%nat children; ArithmeticExpr_to_string op ss
  | RelationExpr op children => ss ← strings 2%nat children; RelationExpr_to_string op ss
  | PhiExpr children => ss ← strings (length children) children; Ok (PhiExpr_to_string ss)
  end.

(** ** Statements *)

Inductive Statement :=
| SimpleStmt (var_def : Expr)
| BranchStmt (dest_id : Z) (else_dest_id : option Z) (cond_expr : option Expr).

Definition SimpleStmt_to_string (var_def : string) : string := "SimpleStmt(var_def=" +:+ var_def +:+ ")".

(** the conditionals have their branches the wrong way round: [value] of an
    empty optional throws *)
Definition BranchStmt_to_string (dest_id : Z) (else_dest_id : option Z) (cond_expr : option Expr) : res string :=
  c ← match cond_expr with Some _ => Ok "none" | None => Err EThrow end;
  e ← match else_dest_id with Some _ => Ok (u64 (-1)) | None => Err EThrow end;
  Ok ("BranchStmt(cond_expr=" +:+ c +:+ ", dest_id=" +:+ pretty dest_id +:+ ", else_dest_id" +:+ pretty e +:+ ")").

Definition Statement_to_string (s : Statement) : res string :=
  match s with
  | SimpleStmt var_def => s ← Expr_to_string var_def; Ok (SimpleStmt_to_string s)
  | BranchStmt dest_id else_dest_id cond_expr => BranchStmt_to_string dest_id else_dest_id cond_expr
  end.

(** ** Blocks and graphs *)

#[local] Open Scope Z_scope.
#[local] Open Scope list_scope.

Record StmtBlock := mkBlock { blk_id : Z; succ_ids : list Z; pred_ids : list Z; stmts : list Statement }.

(** [_id] of a new block is not initialised: [id] *)
Definition StmtBlock_new (id : Z) (stmts : list Statement) : StmtBlock := mkBlock id [] [] stmts.
Definition set_id (b : StmtBlock) (id : Z) : StmtBlock := mkBlock id (succ_ids b) (pred_ids b) (stmts b).
Definition set_succ_ids (b : StmtBlock) (ids : list Z) : StmtBlock := mkBlock (blk_id b) ids (pred_ids b) (stmts b).

(** the code assigns [_succ_ids] *)
Definition set_pred_ids (b : StmtBlock) (ids : list Z) : StmtBlock := mkBlock (blk_id b) ids (pred_ids b) (stmts b).

Definition enter_stmt (b : StmtBlock) : res Statement := of_option EUndef (head (stmts b)).
Definition leave_stmt (b : StmtBlock) : res Statement := of_option EUndef (last (stmts b)).

(** blocks in the order of their ids; [None] is a null pointer *)
Record Cfg := mkCfg { begin_block_id : option Z; end_block_ids : list Z; cfg_blocks : list (Z * option StmtBlock) }.

Definition Cfg_new : Cfg := mkCfg None [] [].

(** [std::map] as a list in the order of the keys: [emplace], which keeps an
    entry that is there *)
Fixpoint map_emplace (k : Z) (v : option StmtBlock) (l : list (Z * option StmtBlock)) : list (Z * option StmtBlock) :=
  match l with
  | [] => [(k, v)]
  | (k', v') :: l' => if k <? k' then (k, v) :: l else if k' <? k then (k', v') :: map_emplace k v l' else l
  end.

Fixpoint map_find (k : Z) (l : list (Z * option StmtBlock)) : option (option StmtBlock) :=
  match l with
  | [] => None
  | (k', v) :: l => if k =? k' then Some v else map_find k l
  end.

(** [operator[]] inserts a null pointer for a key that is not there *)
Definition map_at (k : Z) (l : list (Z * option StmtBlock)) : option StmtBlock * list (Z * option StmtBlock) :=
  match map_find k l with Some v => (v, l) | None => (None, map_emplace k None l) end.

Definition Cfg_add (c : Cfg) (blk : StmtBlock) : Cfg :=
  let b := if bool_decide (succ_ids blk = []) then Some (blk_id blk) else begin_block_id c in
  let e := if bool_decide (pred_ids blk = []) then end_block_ids c ++ [blk_id blk] else end_block_ids c in
  mkCfg b e (map_emplace (blk_id blk) (Some blk) (cfg_blocks c)).

Fixpoint blocks_at (ids : list Z) (l : list (Z * option StmtBlock)) : list (option StmtBlock) * list (Z * option StmtBlock) :=
  match ids with
  | [] => ([], l)
  | id :: ids => let (v, l) := map_at id l in let (vs, l) := blocks_at ids l in (v :: vs, l)
  end.

Definition with_blocks (c : Cfg) (r : list (option StmtBlock) * list (Z * option StmtBlock)) : list (option StmtBlock) * Cfg :=
  (fst r, mkCfg (begin_block_id c) (end_block_ids c) (snd r)).

Definition Cfg_begin_block (c : Cfg) : res (option StmtBlock * Cfg) :=
  id ← of_option EUninit (begin_block_id c);
  let (v, l) := map_at id (cfg_blocks c) in Ok (v, mkCfg (begin_block_id c) (end_block_ids c) l).

Definition Cfg_end_blocks (c : Cfg) := with_blocks c (blocks_at (end_block_ids c) (cfg_blocks c)).
Definition Cfg_blocks (c : Cfg) : list (option StmtBlock) := snd <$> cfg_blocks c.
Definition Cfg_pred (c : Cfg) (block : StmtBlock) := with_blocks c (blocks_at (pred_ids block) (cfg_blocks c)).
Definition Cfg_succ (c : Cfg) (block : StmtBlock) := with_blocks c (blocks_at (succ_ids block) (cfg_blocks c)).

(** ** Types and printing *)

Lemma types_classified t : type_is_defined t = negb (type_is_undefined t || type_is_known t).
Proof. by destruct t. Qed.

(** a branch is printed only if it has a condition and an else branch, and then
    without either *)
Lemma branch_to_string d e c :
  (is_Some e /\ is_Some c -> Statement_to_string (BranchStmt d e c) = Statement_to_string (BranchStmt d (Some 0) (Some (VarUseExpr ""%string)))) /\
  (~ (is_Some e /\ is_Some c) -> Statement_to_string (BranchStmt d e c) = Err EThrow).
Proof. split; [by intros [[? ->] [? ->]]|]. intros H. destruct c, e; try done. by destruct H. Qed.

(** an expression prints when its arithmetic and relations have two operands *)
Fixpoint printable (e : Expr) : bool :=
  match e with
  | VarDefExpr _ e => printable e
  | ArithmeticExpr _ (l :: r :: _) | RelationExpr _ (l :: r :: _) => printable l && printable r
  | ArithmeticExpr _ _ | RelationExpr _ _ => false
  | PhiExpr es => forallb printable es
  | _ => true
  end.

Lemma printable_total : forall e, printable e = true -> exists s, Expr_to_string e = Ok s.
Proof.
  fix IH 1. intros [t v|x e|x|op [|l [|r es]]|op [|l [|r es]]|es] Hp; cbn in Hp; try discriminate; try by eexists.
  - destruct (IH e Hp) as [s E]. eexists. cbn. by rewrite E.
  - apply andb_true_iff in Hp as [Hl Hr]. destruct (IH l Hl) as [s E], (IH r Hr) as [s' E'].
    destruct es; eexists; cbn; rewrite E; cbn; by rewrite E'.
  - apply andb_true_iff in Hp as [Hl Hr]. destruct (IH l Hl) as [s E], (IH r Hr) as [s' E'].
    destruct es; eexists; cbn; rewrite E; cbn; by rewrite E'.
  - cbn. match goal with |- context [mbind _ (?g (length es) es)] => set (f := g) end.
    enough (exists ss, f (length es) es = Ok ss) as [ss ->] by (by eexists).
    induction es as [|e es IHes]; [by eexists|]. cbn in Hp. apply andb_true_iff in Hp as [He Hes].
    destruct (IH e He) as [s E], (IHes Hes) as [ss Ess]. eexists. cbn. rewrite E. cbn. by rewrite Ess.
Qed.

(** ** The map of blocks *)

Definition keys (l : list (Z * option StmtBlock)) : list Z := fst <$> l.

Lemma find_emplace k k' v l : StronglySorted Z.lt (keys l) ->
  map_find k' (map_emplace k v l) = if decide (k' = k) then Some (default v (map_find k l)) else map_find k' l.
Proof.
  induction l as [|[k1 v1] l IH]; intros Hs; cbn [map_emplace map_find].
  { destruct (Z.eqb_spec k' k); case_decide; done. }
  inversion Hs as [|? ? Hs' Hlt]; subst. specialize (IH Hs'). destruct (Z.ltb_spec k k1).
  - assert (map_find k l = None) as Hn.
    { clear -Hlt H. induction l as [|[k2 v2] l IH]; [done|]. apply Forall_cons in Hlt as [H2 Hlt]. cbn [map_find fst] in *.
      destruct (Z.eqb_spec k k2); [lia|]. by apply IH. }
    cbn [map_find]. destruct (Z.eqb_spec k k1); [lia|]. rewrite Hn. destruct (Z.eqb_spec k' k); case_decide; done.
  - destruct (Z.ltb_spec k1 k).
    + cbn [map_find]. rewrite IH. destruct (Z.eqb_spec k' k1), (Z.eqb_spec k k1); case_decide; try lia; done.
    + assert (k1 = k) as -> by lia. cbn [map_find]. rewrite Z.eqb_refl. destruct (Z.eqb_spec k' k); case_decide; done.
Qed.

Lemma keys_emplace k v l k' : k' ∈ keys (map_emplace k v l) <-> k' = k \/ k' ∈ keys l.
Proof.
  induction l as [|[k1 v1] l IH]; cbn [map_emplace keys fmap list_fmap fst]; [set_solver|].
  destruct (Z.ltb_spec k k1); [cbn; set_solver|]. destruct (Z.ltb_spec k1 k); cbn; rewrite ?elem_of_cons; fold (keys (map_emplace k v l)); fold (keys l).
  - rewrite IH. tauto.
  - assert (k = k1) as -> by lia. tauto.
Qed.

Lemma sorted_emplace k v l : StronglySorted Z.lt (keys l) -> StronglySorted Z.lt (keys (map_emplace k v l)).
Proof.
  induction l as [|[k1 v1] l IH]; intros Hs; cbn [map_emplace]; [repeat constructor|].
  inversion Hs as [|? ? Hs' Hlt]; subst. destruct (Z.ltb_spec k k1).
  - constructor; [done|]. constructor; [done|]. eapply Forall_impl; [exact Hlt|]. cbn. intros z Hz. lia.
  - destruct (Z.ltb_spec k1 k); [|done]. constructor; [by apply IH|]. apply Forall_forall. intros z [->|Hz]%keys_emplace; [done|].
    by apply (proj1 (Forall_forall _ _) Hlt).
Qed.

(** ** Graphs *)

Definition cfg_of (bs : list StmtBlock) : Cfg := foldl Cfg_add Cfg_new bs.

Lemma cfg_of_snoc bs b : cfg_of (bs ++ [b]) = Cfg_add (cfg_of bs) b.
Proof. unfold cfg_of. by rewrite foldl_app. Qed.

(** the block that was added first under an id *)
Definition first_block (id : Z) (bs : list StmtBlock) : option StmtBlock := head (filter (fun b => blk_id b = id) bs).

Lemma cfg_of_blocks bs : StronglySorted Z.lt (keys (cfg_blocks (cfg_of bs))) /\
  (forall id, id ∈ keys (cfg_blocks (cfg_of bs)) <-> id ∈ blk_id <$> bs) /\
  (forall id, map_find id (cfg_blocks (cfg_of bs)) = Some <$> first_block id bs).
Proof.
  induction bs as [|b bs (IH1 & IH2 & IH3)] using rev_ind; [split_and!; [constructor|done|done]|].
  rewrite cfg_of_snoc. cbn [Cfg_add cfg_blocks]. split_and!.
  - by apply sorted_emplace.
  - intros id. rewrite keys_emplace, IH2, fmap_app, elem_of_app. cbn [fmap list_fmap]. rewrite list_elem_of_singleton. tauto.
  - intros id. rewrite find_emplace, !IH3 by done. unfold first_block. rewrite filter_app. case_decide as E.
    + subst id. destruct (filter (fun b0 => blk_id b0 = blk_id b) bs); cbn; [|done]. by rewrite decide_True.
    + rewrite (filter_cons_False _ b) by done. by rewrite filter_nil, app_nil_r.
Qed.

(** the ids of the blocks that satisfy [P], in the order they were added *)
Definition ids_with (P : StmtBlock -> Prop) `{forall b, Decision (P b)} (bs : list StmtBlock) : list Z := blk_id <$> filter P bs.

Lemma cfg_of_ids bs :
  end_block_ids (cfg_of bs) = ids_with (fun b => pred_ids b = []) bs /\
  begin_block_id (cfg_of bs) = last (ids_with (fun b => succ_ids b = []) bs).
Proof.
  induction bs as [|b bs (IH1 & IH2)] using rev_ind; [done|]. rewrite cfg_of_snoc. cbn [Cfg_add end_block_ids begin_block_id].
  unfold ids_with in *. rewrite IH1, IH2, !filter_app, !fmap_app. split; case_bool_decide as E.
  - by rewrite filter_cons_True.
  - rewrite filter_cons_False by done. by rewrite app_nil_r.
  - rewrite filter_cons_True by done. cbn. by rewrite last_snoc.
  - rewrite filter_cons_False by done. by rewrite app_nil_r.
Qed.

Lemma blocks_at_found ids l vs : Forall2 (fun id v => map_find id l = Some v) ids vs -> blocks_at ids l = (vs, l).
Proof. induction 1 as [|id v ids vs E _ IH]; [done|]. cbn [blocks_at]. unfold map_at. by rewrite E, IH. Qed.

Lemma with_blocks_id c vs : with_blocks c (vs, cfg_blocks c) = (vs, c).
Proof. by destruct c. Qed.

(** a graph has the blocks that were added, in the order of their ids; the
    blocks whose ids a block names are found and looking them up changes
    nothing; the begin and end blocks are those without successors and without
    predecessors, not the other way round *)
Theorem cfg_correct bs b targets : NoDup (blk_id <$> bs) -> Forall2 (fun id t => t ∈ bs /\ blk_id t = id) (succ_ids b) targets ->
  Cfg_succ (cfg_of bs) b = (Some <$> targets, cfg_of bs) /\
  StronglySorted Z.lt (keys (cfg_blocks (cfg_of bs))) /\
  (forall id, id ∈ keys (cfg_blocks (cfg_of bs)) <-> id ∈ blk_id <$> bs) /\
  begin_block_id (cfg_of bs) = last (ids_with (fun b => succ_ids b = []) bs) /\
  end_block_ids (cfg_of bs) = ids_with (fun b => pred_ids b = []) bs.
Proof.
  intros Hnd HF. destruct (cfg_of_blocks bs) as (H1 & H2 & H3), (cfg_of_ids bs) as [H4 H5]. split_and!; try done.
  unfold Cfg_succ. rewrite (blocks_at_found _ _ (Some <$> targets)); [apply with_blocks_id|].
  apply Forall2_fmap_r. eapply Forall2_impl; [exact HF|]. intros id t [Ht <-]. cbn. rewrite H3.
  clear -Hnd Ht. induction bs as [|b bs IH]; [by apply not_elem_of_nil in Ht|]. apply NoDup_cons in Hnd as [Hni Hnd].
  unfold first_block in *. rewrite filter_cons. case_decide as E; cbn; [|apply IH; [done|]].
  - apply elem_of_cons in Ht as [->|Ht]; [done|]. destruct Hni. rewrite E. by apply list_elem_of_fmap_2.
  - by apply elem_of_cons in Ht as [->|Ht].
Qed.

(** the graph of three blocks that the unit test builds *)
Definition test_blocks : list StmtBlock :=
  let blk1 := set_succ_ids (set_id (StmtBlock_new 0 []) 1) [2] in
  let blk2 := set_pred_ids (set_succ_ids (set_id (StmtBlock_new 0 []) 2) [1; 3]) [1] in
  let blk3 := set_pred_ids (set_id (StmtBlock_new 0 []) 3) [2] in
  [blk1; blk2; blk3].

Lemma cfg_correct_witness : Cfg_succ (cfg_of test_blocks) (mkBlock 2 [1; 3] [] []) =
  ([test_blocks !! 0%nat; test_blocks !! 2%nat], cfg_of test_blocks).
Proof.
  apply (cfg_correct test_blocks (mkBlock 2 [1; 3] [] []) [mkBlock 1 [2] [] []; mkBlock 3 [2] [] []]).
  - apply (bool_decide_unpack _). vm_compute. exact I.
  - repeat constructor.
Defined.

(** it has no begin block, every block is an end block, and the successor 3 of
    block 2 is lost *)
Lemma test_graph : Cfg_begin_block (cfg_of test_blocks) = Err EUninit /\ end_block_ids (cfg_of test_blocks) = [1; 2; 3] /\
  option_map succ_ids (test_blocks !! 1%nat) = Some [1].
Proof. done. Qed.
